(* ===== verification/_CoqProject ===== *)
-Q . S2P
Prelude.v
Types.v
Floats.v
Clock.v
Codec.v
Commands.v
CommandsFacts.v
CommandsProps.v
Delivery.v
Session.v
Ownership.v
Synchronization.v
CommittedClock.v
CombatTiming.v
Input.v
Payload.v
Outcomes.v
InterestModel.v
Graph.v
Gather.v
Scheduling.v
Canonical.v
Wire.v
Events.v
EventsProps.v
Replication.v
ReplicationServer.v
ReplicationNet.v
Groups.v
GroupsProps.v
GroupsDelivery.v
Prediction.v
PredictionFacts.v
PredictionManager.v
PredictionProps.v
Baselines.v
BytePatch.v
BaselinesFacts.v
BaselinesNet.v
Reader.v
ReplicationCodec.v
ReplicationCodecProps.v
Disclosure.v
Interpolation.v
FloatFacts.v
InterpolationProps.v
InterpolationPose.v
FloatBits.v
Schema.v
SchemaValues.v
SchemaRecords.v
SchemaRegistry.v
SchemaLaws.v
SchemaValueLaws.v
SchemaSequenceLaws.v
SchemaCompositeLaws.v
SchemaSumLaws.v
SchemaRecordLaws.v
SchemaInspection.v
SchemaRecordCodec.v
SchemaReady.v
SchemaDiagnostics.v
SchemaProps.v
Text.v
Trace.v
Player.v
Admission.v
LiveMessages.v
LiveCodec.v
LiveProps.v
HitHistory.v
HitHistoryProps.v
Charge.v
ChargeProps.v
