(* ===== verification/Prelude.v ===== *)
(** * Verification of the networking core of the game engine

    The repository is a game engine in Rust with one game on it. Its core logic, and most of what
    is modelled here, is the crate [src/engine/net]: the state machines by which an
    authoritative server and its clients agree on commands, time and replicated state over
    networks that lose, repeat and reorder packets. On top of it come the protocol of the game
    ([src/games/dreamwake/protocol]), the admission of its players, and two state machines of its
    simulation that the authority relies on: the history for rewound combat and charged movement. The crate has no sockets and no clock of its
    own: callers hand it messages and times, so its components are functions from a state and an
    input to a state and an answer, and that is how they are translated.

    ** The parts and how they interact

    A frame arrives in the envelope of [codec.rs] (or [wire.rs] for game messages). Commands go
    to the per-owner inbox of [commands.rs], which gives each tick of [clock.rs] its input and
    answers with receipts that [delivery.rs] windows; [ownership.rs] moves an entity's stream
    between owners at a tick; [outcomes.rs] keeps the terminal results of actions. The client
    samples hardware input with [input.rs], aims its commands at future ticks with
    [synchronization.rs] and estimates committed progress with [synchronization/committed.rs];
    [combat_timing.rs] bounds what a client may claim to have seen. Outgoing state is selected
    by the interest graph ([interest/]), encoded once per frame by the canonical cache, ranked
    and rate-limited by [scheduling.rs], delivered under scopes by [replication/server.rs],
    and retained by [replication/client.rs] or, for groups that must appear together, by
    [replication/groups.rs]. From such groups [prediction/] simulates ahead of the server and
    replays when authority disagrees. [events/] journals the effects a client shows before the
    server confirms them. What the payloads mean is declared with [schema/]: a registry inspects a
    game's record types, seals them under a fingerprint that peers compare, and gives each a codec
    with a self-described and a compact form. [trace.rs] writes diagnostic records to bounded files.

    A player of the game [games/dreamwake] proves an identity with a credential ([player.rs]), which
    the server's registry ([admission.rs]) binds to the first secret that claims it. A session starts
    with a welcome; then controls, bundles of commands and state frames travel in the engine's frames
    ([live.rs] and [live/]), and what they carry is handed to the inbox, the scopes, the groups and the
    baselines above. To judge what a player saw, the simulation keeps the poses of past ticks
    ([combat/history/] of [engine/core]); a charge ([abilities/charge.rs] with the game's
    [state/charge.rs]) moves its owner along an authored curve.

    ** Files, in dependency order

    - [Prelude]: results with the [let?] notation of the source's question mark, record update,
      fixed-width arithmetic (checked, saturating and wrapping operations with the width
      written out), tactics, and the lemmas on lists, maps and sums that several files share.
    - [Types]: [types.rs] and [newer] of [lib.rs]: identities, serial order, the rational tick
      rate with its deadlines. [Floats]: binary64 on the kernel's specification floats.
    - [Clock]: [clock.rs], [TickClock::poll] with its catch-up loop.
    - [Codec]: [codec.rs], frames and bounded collections. [Wire]: [wire.rs].
    - [Commands], [CommandsFacts], [CommandsProps]: [commands.rs] and
      [commands/continuity.rs]; the inbox, its runs as a step relation, its theorems.
    - [Delivery], [Session], [Ownership]: [delivery.rs], [session.rs], [ownership.rs].
    - [Synchronization], [CommittedClock], [CombatTiming], [Input]: [synchronization.rs],
      [synchronization/committed.rs], [combat_timing.rs], [input.rs].
    - [Payload]: the trait [Payload] of [replication/mod.rs], the interface against which the
      components that retain opaque data are proved. [Outcomes]: [outcomes.rs].
    - [InterestModel], [Graph], [Gather], [Canonical]: [interest/model.rs], [interest/graph.rs],
      [interest/gather.rs], [interest/canonical.rs].
    - [Scheduling]: [scheduling.rs].
    - [Events], [EventsProps]: [events/model.rs] and [events/journal.rs]; the abstract
      presentation machine the journal refines.
    - [Replication], [ReplicationServer], [ReplicationNet]: [replication/mod.rs] with
      [replication/client.rs], [replication/server.rs], and the two joined by a network.
    - [Groups], [GroupsProps], [GroupsDelivery]: [replication/groups.rs]; the assembler, its
      runs together with a client, and delivery of whole transfers.
    - [Prediction], [PredictionFacts], [PredictionManager], [PredictionProps]:
      [prediction/history.rs] and [prediction/manager.rs]; the manager, its histories as runs of
      the game's model, its accounts, and its theorems over proofs that [Groups] hands out.
    - [Baselines], [BytePatch], [BaselinesFacts], [BaselinesNet]: [replication/baselines/]; the
      sent-state and received-state caches, the byte patch with the laws asked of any codec, the
      caches' invariant, and the two sides joined by a network.
    - [Reader]: the cursor the binary decoders share, and when an encoder and a reader are exact
      for each other. [ReplicationCodec], [ReplicationCodecProps]: [replication/codec.rs].
    - [Interpolation], [FloatFacts], [InterpolationProps], [InterpolationPose]:
      [interpolation/mod.rs]; the remote buffer, how rounding changes magnitudes, its histories
      and accounts, and the poses it presents.
    - [Disclosure]: [replication/audience.rs], [replication/attachments.rs] and
      [replication/regions.rs].
    - [FloatBits]: floats and their bits. [Schema]: [schema/model.rs], the budgets and the cursor of
      [schema/wire.rs], and the traits; [SchemaValues]: [schema/value.rs], [schema/composites.rs],
      [schema/compact.rs]; [SchemaRecords]: [schema/macros.rs], the codec of [schema/wire.rs],
      [schema/inspection.rs]; [SchemaRegistry]: [schema/registry.rs]. A declared struct is the list
      of its fields with their operations, a declared enum the list of its variants.
    - [SchemaLaws]: the contract of a field type, as a class: what it writes, reads, spends and
      admits. [SchemaValueLaws], [SchemaSequenceLaws], [SchemaCompositeLaws], [SchemaSumLaws],
      [SchemaRecordLaws], [SchemaInspection] and [SchemaRecordCodec] discharge it for every type
      there is. [SchemaReady], [SchemaDiagnostics], [SchemaProps]: what registration establishes,
      and the theorems on registered schemas.
    - [Text]: decimal and hexadecimal text. [Trace]: [trace.rs] over a disk of named files.
    - [Player]: [player.rs] of the game's protocol. [Admission]: [admission.rs] of its server, with
      crashes and restarts as steps.
    - [LiveMessages], [LiveCodec]: [live.rs], [live/combat.rs] and [live/baselines.rs] of the game's
      protocol, the rules of [authority/peer.rs]; messages with their validation, and their frames.
      [LiveProps]: the theorems that compose them with the command inbox and the replication codec.
    - [HitHistory], [HitHistoryProps]: [combat/history/] of [engine/core] with the collider
      descriptors of [physics/kinematic/]. [Charge], [ChargeProps]: [abilities/charge.rs], the meters
      it spends, [state/charge.rs] and the owner's step of [systems/player.rs].

    A struct is a [Record] with the source's fields, an enum an [Inductive], a method a
    [Definition] from the state and the arguments to the new state and the result; a [?] is
    [let?]. A [BTreeMap] or sorted vector searched by key is a [gmap] that is iterated in sorted
    order, a [BTreeSet] a [gset], a [Vec] a list. A method that could panic (an [unwrap], an
    index, an arithmetic underflow) returns an [option] whose [None] is the panic, and the
    theorems show that it does not occur. Long methods are split where the source has
    paragraphs, and the pieces composed in the source's order.

    ** What the theorems show

    - Commands: an accepted command executes exactly once, at its tick; redelivery is
      idempotent; retained state is bounded; audit capacity starves nobody; missing input is
      substituted for the grace period only; redundant bundles are well formed.
    - Time: due ticks execute once and not early, debt drains, publications are not lost; the
      clock estimate is within half a round trip of the truth and slews within its bound; the
      command lead is paced; the committed estimate stays in its budget; a combat view is
      accepted exactly when a permitted moment exists.
    - Wire: a frame is accepted exactly when it is the encoding of what it decodes to; payloads
      and messages round-trip; expansion is bounded before it happens; replicated states and
      groups have one encoding, which is all that their decoders accept.
    - Selection: the graph's reverse indices are exact after every update, those of the grid against
      the cells that an entity's square meets; gathering discloses only what an independent
      specification permits; the dependency search terminates and is closed; cached encoding equals
      direct encoding, which may depend on everything of a moment, an entity and its grant; plans
      hold only due and authorized units, fit and are maximal, and accepted bytes obey the token
      bucket between any two moments.
    - Replication: whatever the network does, an entity the server believes decoded is held by
      the client exactly as the server wants it, and scopes that were left stay left; against
      arbitrary messages the client never goes back. Groups are seen whole or not at all,
      staging is bounded and its deadlines cannot be postponed, and a transfer that arrives
      is published. An attachment binds to one incarnation of its parent; map objects are
      reported only as a valid region lists them.
    - Prediction: every stored state is what the game's model computes from the recorded inputs;
      a reconciliation equals re-simulating them from the authoritative state, or from a predicted
      one that compared equal to it when the answer is that they are equal; accounts are exact
      and within their budgets; a failure keeps every history; groups are replaced atomically.
    - Delta baselines: the server encodes only against states the client still holds, so a sent
      packet decodes to its state whatever was lost before it; caches stay in their budgets; a
      byte patch is accepted exactly when it is well formed.
    - Presentation: a remote pose is justified by the samples around the cursor, blended by a
      factor between zero and one and never extrapolated beyond the cap; scopes that were left
      stay left; histories are ordered and in their budgets.
    - Schemas: once registered, a type's values encode exactly when they conform, within the limits;
      encodings decode; what is decoded is canonical and in range; declarations are sealed against
      disclosure; negotiation is exact; restores are checked; diagnostics show what is permitted.
    - Records: the outcome ledger's accounts are exact and results final; the effect journal
      never asks a presentation for an impossible change and shows what it holds; a trace keeps
      whole records in new files and stops at the first failure.
    - The game's protocol: a decoded command is one the inbox can admit, and the inbox always has a
      valid input for the simulation; state frames have one encoding and belong to their connection;
      owner members depend on earlier baselines only; welcomes and controls are unambiguous. The
      first secret to claim an identity keeps it through crashes, and a credential has one text.
    - Simulation: a combat history is the longest recent run of captures that fits, and samples of it
      hold exactly the eligible actors between their captured poses, within budget; a charge is
      always valid, follows its curve sample by sample and is paced by its cooldown; a step fails for
      it only when a release is aimed along a direction that did not normalize to unit length.

    ** Parameters, bounds and fuel

    Third-party code is a parameter: the serializer, the compressor, the hash, [hypot], the vector
    library and the geometry kernel, the allocator's capacities and [size_of]; so are the answers of
    the operating system and the physics that moves a charged owner. Of a scalar's serializer the schema theorems ask the
    documented fixed-width encoding, of the hash its 32 bytes. What a theorem needs of one is a named hypothesis (a
    serializer's round trip, the squared length as a sum of squares), and its witness
    instantiates it. The comparison of payloads is arbitrary in the theorems on groups and prediction, and
    reflexive in those on scopes; it need not imply equality, as that of vectors, which ignores capacity, and that of
    floats, which identifies the zeros, do not. A payload's [Clone] may shrink what it retains but not grow it
    ([clone_fits]), as the clone of a vector does. Nothing is asked of the normalization of directions. The game's callbacks ([CommandRules], the disclosure policy, [validate],
    [project], the [PredictionModel], the [PosePolicy]) are arguments and arbitrary. [usize] is
    64 bits wide. Loops follow the source's own structure (a counted loop, a traversal); fuel is
    needed in two places, the dependency search of a prediction group, where one round per
    allowed member is proved sufficient, and the bytes of a variable-length integer, of which
    ten are.

    ** Not modelled

    [engine/server], [engine/client], [engine/net-debug] and the rest of [engine/core], which are
    compositions of a third-party ECS, sockets, rendering and floating-point physics; and of
    [games/dreamwake] the rest of the simulation, the authority's loop, the client's plugins and the
    content. Of the protocol's
    types only the values are modelled, their serialized form is the serializer's. *)

From Stdlib Require Export NArith ZArith Lia.
From stdpp Require Export base decidable numbers sorting gmap tactics list.

Declare Scope engine_scope.
Delimit Scope engine_scope with engine.
Open Scope engine_scope.

(** ** Results *)

(** [Result<A, E>]: the value of a fallible operation. *)
Inductive result (E A : Type) : Type :=
| Ok (a : A)
| Err (e : E).
Arguments Ok {E A} a.
Arguments Err {E A} e.

#[global] Instance result_eq_dec {E A} `{EqDecision E, EqDecision A} :
  EqDecision (result E A).
Proof. solve_decision. Defined.

Definition is_ok {E A} (r : result E A) : bool :=
  match r with Ok _ => true | Err _ => false end.

(** [option.ok_or(e)]. *)
Definition ok_or {E A} (o : option A) (e : E) : result E A :=
  match o with Some a => Ok a | None => Err e end.

(** [result.ok()]. *)
Definition ok {E A} (r : result E A) : option A :=
  match r with Ok a => Some a | Err _ => None end.

(** [let? x := e in k] is the source's [let x = e?; k]. *)
Notation "'let?' x ':=' e 'in' k" :=
  (match e with Ok x => k | Err err => Err err end)
  (at level 10, x name, e at level 200, k at level 200,
   format "'[v' '[' 'let?'  x  ':='  e  'in' ']' '/' k ']'") : engine_scope.

(** ** Field update of records: [r <| field := v |>] *)

Class Eta (R : Type) := eta_expand : R -> R.
Class Setter {R T : Type} (field : R -> T) := set_field : T -> R -> R.

Ltac derive_setter :=
  lazymatch goal with
  | |- @Setter ?R ?T ?field =>
      let inst := constr:(_ : Eta R) in
      let inst := eval hnf in inst in
      let v := fresh "v" in
      let r := fresh "r" in
      refine (fun (v : T) (r : R) => _);
      let t := eval cbv beta in (inst r) in
      lazymatch t with context [field r] => idtac end;
      lazymatch eval pattern (field r) in t with
      | ?g _ => let u := eval cbv beta in (g v) in exact u
      end
  end.
#[export] Hint Extern 0 (Setter _) => derive_setter : typeclass_instances.

Notation "r <| f := v |>" := (set_field (field:=f) v r)
  (at level 1, left associativity, f at level 99, v at level 200,
   format "r '<|'  f  :=  v  '|>'") : engine_scope.

(** ** Fixed-width unsigned integers

    A [u8] .. [u128] or [usize] is a natural number; an operation that can
    leave the range of its width is written with the range. *)

Local Open Scope N_scope.

Definition u8_max : N := 255.
Definition u16_max : N := 65535.
Definition u32_max : N := 4294967295.
Definition u64_max : N := 18446744073709551615.
Definition u128_max : N := 340282366920938463463374607431768211455.
(** Native targets are 64-bit. *)
Definition usize_max : N := u64_max.

(** [a.checked_add(b)] at the width with maximum [max]; [checked_sub] and
    [checked_mul] likewise. *)
Definition checked_add (max a b : N) : option N :=
  if decide (a + b <= max) then Some (a + b) else None.
Definition checked_sub (a b : N) : option N :=
  if decide (b <= a) then Some (a - b) else None.
Definition checked_mul (max a b : N) : option N :=
  if decide (a * b <= max) then Some (a * b) else None.
Definition saturating_add (max a b : N) : N := N.min max (a + b).
Definition saturating_mul (max a b : N) : N := N.min max (a * b).
(** Subtraction of [N] stops at zero, as [saturating_sub] does. *)
Definition saturating_sub (a b : N) : N := a - b.
Definition wrapping_sub (max a b : N) : N := (a + (max + 1) - b) mod (max + 1).
(** [T::try_from(a).ok()]. *)
Definition try_from (max a : N) : option N :=
  if decide (a <= max) then Some a else None.
Definition div_ceil (a b : N) : N := (a + (b - 1)) / b.
(** [a.clamp(low, high)]. *)
Definition clamp (a low high : N) : N := N.min (N.max a low) high.

(** Lengths of collections are [usize] values. *)
Definition len {A} (l : list A) : N := N.of_nat (length l).

(** ** Automation *)

(** Split a definition's guards and matches in the goal and the hypotheses. *)
Ltac split_guards :=
  repeat first [ progress simplify_eq/= | case_decide | case_match ].

(** Take apart a hypothesis [H] that equates a guarded definition with a value,
    dropping the branches that cannot return it. *)
Ltac inv_op H :=
  repeat (first [ progress simplify_eq
                | progress (cbn beta iota in H)
                | match type of H with context [decide ?P] => destruct (decide P) end
                | match type of H with context [match ?x with _ => _ end] =>
                    destruct x eqn:? end ]).

(** Decide the outermost test or match of [H : body = result]. *)
Ltac outer_case H :=
  cbv beta zeta in H;
  lazymatch type of H with
  | (match @decide ?P ?d with _ => _ end) = _ => destruct (@decide P d)
  | (match ?x with _ => _ end) = _ => destruct x eqn:?
  end.

Create HintDb engine.
Create Rewrite HintDb engine.
#[export] Hint Extern 4 (_ <= _)%N => lia : engine.
#[export] Hint Extern 4 (_ < _)%N => lia : engine.

(** ** Arithmetic shared by the components *)

Lemma checked_add_Some max a b c :
  checked_add max a b = Some c <-> c = a + b /\ a + b <= max.
Proof. unfold checked_add. case_decide; split; intros; destruct_and?; simplify_eq; done || lia. Qed.

Lemma checked_add_None max a b :
  checked_add max a b = None <-> max < a + b.
Proof. unfold checked_add. case_decide; split; intros; try done; lia. Qed.

Lemma checked_sub_Some a b c :
  checked_sub a b = Some c <-> b <= a /\ c = a - b.
Proof. unfold checked_sub. case_decide; split; intros; destruct_and?; simplify_eq; done || lia. Qed.

Lemma checked_sub_None a b : checked_sub a b = None <-> a < b.
Proof. unfold checked_sub. case_decide; split; intros; try done; lia. Qed.

Lemma checked_mul_Some max a b c :
  checked_mul max a b = Some c <-> c = a * b /\ a * b <= max.
Proof. unfold checked_mul. case_decide; split; intros; destruct_and?; simplify_eq; done || lia. Qed.

Lemma try_from_Some max a b : try_from max a = Some b <-> b = a /\ a <= max.
Proof. unfold try_from. case_decide; split; intros; destruct_and?; simplify_eq; done || lia. Qed.

Lemma div_le_iff (a b t : N) : 0 < b -> t <= a / b <-> t * b <= a.
Proof.
  intros Hb. pose proof (N.Div0.div_mod a b) as Hdiv.
  pose proof (N.mod_lt a b ltac:(lia)) as Hmod.
  set (q := a / b) in *. set (r := a mod b) in *. clearbody q r.
  split; intros Ht; [nia |]. destruct (decide (t <= q)); [done | nia].
Qed.

(** The ceiling quotient is the least count of [b]s that covers [a]. *)
Lemma div_ceil_le (a b t : N) : 0 < b -> div_ceil a b <= t <-> a <= t * b.
Proof.
  intros Hb. unfold div_ceil.
  pose proof (div_le_iff (a + (b - 1)) b (t + 1) Hb). nia.
Qed.

Lemma clamp_bounds a low high : low <= high -> low <= clamp a low high <= high.
Proof. unfold clamp. lia. Qed.

Lemma clamp_id a low high : low <= a <= high -> clamp a low high = a.
Proof. unfold clamp. lia. Qed.

Lemma len_app {A} (l k : list A) : len (l ++ k) = len l + len k.
Proof. unfold len. rewrite length_app. lia. Qed.

Lemma len_cons {A} (x : A) l : len (x :: l) = 1 + len l.
Proof. unfold len. simpl. lia. Qed.

Lemma len_nil {A} : len (@nil A) = 0.
Proof. done. Qed.

#[export] Instance len_proper {A} : Proper (Permutation ==> eq) (@len A).
Proof. intros l k H. unfold len. by rewrite H. Qed.

#[export] Hint Rewrite @len_app @len_cons @len_nil : engine.

(** ** Runs of consecutive ticks *)

(** The ticks after [from], [n] of them. *)
Definition ticks_after (from : N) (n : nat) : list N :=
  (fun i => from + N.of_nat i) <$> seq 1 n.

Lemma ticks_after_S from n : ticks_after from (S n) = from + 1 :: ticks_after (from + 1) n.
Proof.
  unfold ticks_after. simpl. f_equal. rewrite <- (fmap_S_seq 1), <- list_fmap_compose.
  apply list_fmap_ext. intros i x _. unfold compose. lia.
Qed.

Lemma ticks_after_app from n m :
  ticks_after from (n + m) = ticks_after from n ++ ticks_after (from + N.of_nat n) m.
Proof.
  revert from. induction n as [| n IH]; intros from.
  { simpl. by rewrite N.add_0_r. }
  change (S n + m)%nat with (S (n + m)). rewrite !ticks_after_S, IH. simpl.
  do 3 f_equal. lia.
Qed.

Lemma ticks_after_snoc from n :
  ticks_after from (S n) = ticks_after from n ++ [from + N.of_nat n + 1].
Proof. rewrite <- Nat.add_1_r, ticks_after_app. done. Qed.

Lemma length_ticks_after from n : length (ticks_after from n) = n.
Proof. unfold ticks_after. by rewrite length_fmap, length_seq. Qed.

Lemma elem_of_ticks_after t from n :
  t ∈ ticks_after from n <-> from < t <= from + N.of_nat n.
Proof.
  unfold ticks_after. rewrite list_elem_of_fmap. split.
  - intros (i & -> & Hi%elem_of_seq). lia.
  - intros H. exists (N.to_nat (t - from)). rewrite elem_of_seq. lia.
Qed.

Lemma NoDup_ticks_after from n : NoDup (ticks_after from n).
Proof.
  unfold ticks_after. apply NoDup_fmap; [intros i j; lia | apply NoDup_seq].
Qed.

(** ** Maps keyed by a window of ticks *)

Lemma map_window_size {V} (m : gmap N V) (from : N) (n : nat) :
  (forall t v, m !! t = Some v -> from < t <= from + N.of_nat n) -> (size m <= n)%nat.
Proof.
  intros Hm. rewrite <- size_dom.
  rewrite <- (length_ticks_after from n).
  rewrite <- (size_list_to_set (C:=gset N) _ (NoDup_ticks_after from n)).
  apply subseteq_size. intros t [v Hv]%elem_of_dom.
  apply elem_of_list_to_set, elem_of_ticks_after. eauto.
Qed.

(** A map that fills its window has every key of it. *)
Lemma map_window_full {V} (m : gmap N V) (from : N) (n : nat) t :
  (forall t v, m !! t = Some v -> from < t <= from + N.of_nat n) ->
  (n <= size m)%nat -> from < t <= from + N.of_nat n -> is_Some (m !! t).
Proof.
  intros Hm Hn Ht. apply elem_of_dom.
  assert (dom m = list_to_set (C:=gset N) (ticks_after from n)) as ->.
  { apply set_subseteq_size_eq.
    - intros u [v Hv]%elem_of_dom. apply elem_of_list_to_set, elem_of_ticks_after. eauto.
    - rewrite size_list_to_set by apply NoDup_ticks_after.
      rewrite length_ticks_after, size_dom. done. }
  apply elem_of_list_to_set, elem_of_ticks_after. done.
Qed.

(** ** Removing one position of a duplicate-free list *)

Lemma NoDup_delete_at {X} (l : list X) (i : nat) (x : X) :
  NoDup l -> l !! i = Some x ->
  NoDup (delete i l) /\ (forall y, y ∈ delete i l <-> y ∈ l /\ y <> x).
Proof.
  intros Hnd Hi. pose proof (delete_Permutation l i x Hi) as Hp.
  rewrite Hp in Hnd. apply NoDup_cons in Hnd as [Hx Hnd]. split; [done |].
  intros y. set (k := delete i l) in *. clearbody k. rewrite Hp, elem_of_cons. split; [| by intros [[-> | ?] ?]].
  intros Hy. split; [by right |]. by intros ->.
Qed.

Lemma NoDup_snoc {X} (l : list X) (x : X) : NoDup l -> x ∉ l -> NoDup (l ++ [x]).
Proof.
  intros Hl Hx. apply NoDup_app. split_and!; [done | | apply NoDup_singleton].
  by intros y Hy ->%list_elem_of_singleton.
Qed.

Lemma NoDup_fmap_inj {X Y} (f : X -> Y) (l : list X) x y :
  NoDup (f <$> l) -> x ∈ l -> y ∈ l -> f x = f y -> x = y.
Proof.
  intros Hnd [i Hi]%list_elem_of_lookup [j Hj]%list_elem_of_lookup Heq.
  assert (i = j) as ->; [| congruence].
  eapply NoDup_lookup; [exact Hnd | rewrite list_lookup_fmap, Hi; done |].
  rewrite list_lookup_fmap, Hj. simpl. by f_equal.
Qed.

Lemma omap_NoDup {X Y} (f : X -> option Y) (l : list X) :
  NoDup l -> (forall x y z, x ∈ l -> y ∈ l -> f x = Some z -> f y = Some z -> x = y) ->
  NoDup (omap f l).
Proof.
  induction 1 as [| x l Hx Hl IH]; intros Hf; [by constructor |]. simpl.
  assert (NoDup (omap f l)) as IH'.
  { apply IH. intros y z w Hy Hz. apply Hf; by right. }
  destruct (f x) as [y |] eqn:Hfx; [| done]. apply NoDup_cons. split; [| done].
  intros (x' & Hx' & Hfx')%list_elem_of_omap. apply Hx.
  rewrite (Hf x x' y); [done | by left | by right | done | done].
Qed.

Lemma suffix_tail {X} (l k : list X) : l `suffix_of` k -> tail l `suffix_of` k.
Proof. destruct l; [done |]. intros H. simpl. by apply suffix_cons_l in H. Qed.

Lemma size_list_to_set_le `{Countable X} (l : list X) :
  (size (list_to_set (C:=gset X) l) <= length l)%nat.
Proof.
  induction l as [| x l IH]; [by rewrite list_to_set_nil, size_empty |].
  rewrite list_to_set_cons, size_union_alt, size_singleton. simpl.
  assert (size (list_to_set (C:=gset X) l ∖ {[x]}) <= size (list_to_set (C:=gset X) l))%nat
    by (apply subseteq_size; set_solver). lia.
Qed.

(** A list is duplicate free when its set is as large as it. *)
Lemma NoDup_of_set_size `{Countable X} (l : list X) :
  size (list_to_set (C:=gset X) l) = length l -> NoDup l.
Proof.
  induction l as [| x l IH]; intros Hs; [constructor |].
  rewrite list_to_set_cons, size_union_alt, size_singleton in Hs. simpl in Hs.
  pose proof (size_list_to_set_le l) as Hle.
  assert (size (list_to_set (C:=gset X) l ∖ {[x]}) <= size (list_to_set (C:=gset X) l))%nat
    by (apply subseteq_size; set_solver).
  constructor; [| apply IH; lia]. intros Hx.
  assert (size (list_to_set (C:=gset X) l ∖ {[x]}) < size (list_to_set (C:=gset X) l))%nat; [| lia].
  apply subset_size. split; [set_solver |]. intros Hsub.
  specialize (Hsub x). rewrite elem_of_list_to_set in Hsub. specialize (Hsub Hx). set_solver.
Qed.

(** ** Sorted lists by position *)

Lemma StronglySorted_positions {X} (R : relation X) (l : list X) i j x y :
  StronglySorted R l -> (i < j)%nat -> l !! i = Some x -> l !! j = Some y -> R x y.
Proof.
  intros Hs. revert i j. induction Hs as [| z l Hs IH Hz]; intros i j Hij Hi Hj; [done |].
  destruct j as [| j]; [lia |]. destruct i as [| i]; simpl in *.
  - simplify_eq. rewrite Forall_lookup in Hz. eauto.
  - eapply (IH i j); [lia | done | done].
Qed.

Lemma Sorted_neighbours {X} (R : relation X) (l : list X) i x y :
  Sorted R l -> l !! i = Some x -> l !! S i = Some y -> R x y.
Proof.
  intros Hs. revert i. induction Hs as [| z l Hs IH Hz]; intros i Hi Hj; [done |].
  destruct i as [| i]; simpl in *; [| by eapply IH].
  simplify_eq. destruct l; [done |]. inversion Hz. by simplify_eq/=.
Qed.

Lemma Sorted_weaken {X} (R S : relation X) (l : list X) :
  (forall x y, R x y -> S x y) -> Sorted R l -> Sorted S l.
Proof.
  intros HRS. induction 1 as [| x l Hs IH Hx]; constructor; [done |].
  destruct Hx; constructor. auto.
Qed.

Lemma filter_Forall_id {X} (P : X -> Prop) `{!forall x, Decision (P x)} (l : list X) :
  Forall P l -> filter P l = l.
Proof.
  induction 1 as [| x l Hx Hl IH]; [done |]. rewrite filter_cons_True by done. by f_equal.
Qed.

Lemma filter_Forall_nil {X} (P : X -> Prop) `{!forall x, Decision (P x)} (l : list X) :
  Forall (fun x => ~ P x) l -> filter P l = [].
Proof. induction 1 as [| x l Hx Hl IH]; [done |]. by rewrite filter_cons_False. Qed.

(** [iter.take_while(p)]. *)
Fixpoint take_while {X} (p : X -> bool) (l : list X) : list X :=
  match l with
  | [] => []
  | x :: l => if p x then x :: take_while p l else []
  end.

(** On a list sorted by a key, the prefix up to a bound is the part up to the bound. *)
Lemma take_while_sorted {X} (key : X -> N) (bound : N) (l : list X) :
  StronglySorted (fun x y => key x <= key y) l ->
  take_while (fun x => bool_decide (key x <= bound)) l = filter (fun x => key x <= bound) l
  /\ drop (length (take_while (fun x => bool_decide (key x <= bound)) l)) l
     = filter (fun x => bound < key x) l.
Proof.
  induction 1 as [| x l Hs [IH1 IH2] Hx]; [done |]. simpl.
  destruct (decide (key x <= bound)) as [Hle | Hgt].
  - rewrite bool_decide_eq_true_2, filter_cons_True, filter_cons_False by (done || lia). simpl.
    by rewrite IH2, IH1.
  - rewrite bool_decide_eq_false_2 by done. simpl.
    rewrite Forall_forall in Hx. split; symmetry.
    + rewrite filter_cons_False by done. apply filter_Forall_nil, Forall_forall.
      intros y Hy. specialize (Hx y Hy). lia.
    + apply filter_Forall_id. constructor; [lia |]. apply Forall_forall.
      intros y Hy. specialize (Hx y Hy). lia.
Qed.

Lemma filter_sorted_split {X} (key : X -> N) (a b : N) (l : list X) :
  StronglySorted (fun x y => key x <= key y) l -> a <= b ->
  filter (fun x => key x <= b) l
  = filter (fun x => key x <= a) l ++ filter (fun x => key x <= b) (filter (fun x => a < key x) l).
Proof.
  intros Hs Hab. induction Hs as [| x l Hs IH Hx]; [done |].
  destruct (decide (key x <= a)) as [Hle | Hgt].
  - rewrite (filter_cons_True (fun x => key x <= b)), (filter_cons_True (fun x => key x <= a)),
      (filter_cons_False (fun x => a < key x)) by lia. by rewrite IH.
  - assert (filter (fun x => a < key x) (x :: l) = x :: l) as ->.
    { apply filter_Forall_id. constructor; [lia |]. apply (List.Forall_impl _ (P := fun y => key x <= key y)); [lia | done]. }
    assert (filter (fun x => key x <= a) (x :: l) = []) as ->; [| done].
    apply filter_Forall_nil. constructor; [lia |].
    apply (List.Forall_impl _ (P := fun y => key x <= key y)); [lia | done].
Qed.

Lemma StronglySorted_filter {X} (R : relation X) (P : X -> Prop) `{!forall x, Decision (P x)}
    (l : list X) : StronglySorted R l -> StronglySorted R (filter P l).
Proof.
  induction 1 as [| x l Hs IH Hx]; [constructor |].
  destruct (decide (P x)); [rewrite filter_cons_True by done | by rewrite filter_cons_False].
  constructor; [done |]. apply Forall_forall. intros y [_ Hy]%list_elem_of_filter.
  rewrite Forall_forall in Hx. auto.
Qed.

(** ** Lexicographic order, as derived for structs *)

Fixpoint lex_le (a b : list N) : bool :=
  match a, b with
  | [], _ => true
  | _ :: _, [] => false
  | x :: a, y :: b => bool_decide (x < y) || (bool_decide (x = y) && lex_le a b)
  end.

Lemma lex_le_total a b : lex_le a b = true \/ lex_le b a = true.
Proof.
  revert b. induction a as [| x a IH]; intros [| y b]; simpl; auto.
  destruct (N.lt_trichotomy x y) as [H | [-> | H]].
  - left. by rewrite bool_decide_eq_true_2.
  - rewrite !(bool_decide_eq_true_2 (y = y)) by done. simpl. destruct (IH b) as [-> | ->];
      rewrite orb_true_r; auto.
  - right. by rewrite bool_decide_eq_true_2.
Qed.

Lemma lex_le_trans a b c : lex_le a b = true -> lex_le b c = true -> lex_le a c = true.
Proof.
  revert b c. induction a as [| x a IH]; intros [| y b] [| z c]; simpl; try done.
  rewrite !orb_true_iff, !andb_true_iff, !bool_decide_eq_true.
  intros [H1 | [-> H1]] [H2 | [-> H2]]; [left; lia | by left | by left | right; eauto].
Qed.

Lemma lex_le_antisym a b :
  length a = length b -> lex_le a b = true -> lex_le b a = true -> a = b.
Proof.
  revert b. induction a as [| x a IH]; intros [| y b]; simpl; try done.
  rewrite !orb_true_iff, !andb_true_iff, !bool_decide_eq_true.
  intros [= Hl] [H1 | [-> H1]] [H2 | [H2 H3]]; try lia. f_equal. auto.
Qed.

Lemma NoDup_fmap_filter {X Y} (f : X -> Y) (P : X -> Prop) `{!forall x, Decision (P x)} (l : list X) :
  NoDup (f <$> l) -> NoDup (f <$> filter P l).
Proof.
  induction l as [| x l IH]; [done |]. simpl. intros [Hx Hnd]%NoDup_cons.
  rewrite filter_cons. case_decide; [| auto]. simpl. constructor; [| auto].
  intros (y & Hy & [_ Hin]%list_elem_of_filter)%list_elem_of_fmap. apply Hx.
  apply list_elem_of_fmap. eauto.
Qed.

Lemma length_filter_complement {X} (P : X -> Prop) `{!forall x, Decision (P x)} (l : list X) :
  (length (filter (fun x => ~ P x) l) + length (filter P l) = length l)%nat.
Proof.
  induction l as [| x l IH]; [done |]. rewrite !filter_cons.
  destruct (decide (P x)).
  - rewrite decide_False by tauto. simpl. lia.
  - rewrite decide_True by done. simpl. lia.
Qed.

(** ** Sums over maps *)

Definition map_sum `{Countable K} {V} (f : V -> N) (m : gmap K V) : N :=
  map_fold (fun _ v acc => f v + acc) 0 m.

Lemma map_sum_empty `{Countable K} {V} (f : V -> N) : map_sum f (∅ : gmap K V) = 0.
Proof. unfold map_sum. by rewrite map_fold_empty. Qed.

Lemma map_sum_insert `{Countable K} {V} (f : V -> N) (m : gmap K V) k v :
  m !! k = None -> map_sum f (<[k := v]> m) = f v + map_sum f m.
Proof. intros Hk. unfold map_sum. rewrite map_fold_insert_L; [done | lia | done]. Qed.

Lemma map_sum_delete `{Countable K} {V} (f : V -> N) (m : gmap K V) k v :
  m !! k = Some v -> map_sum f m = f v + map_sum f (delete k m).
Proof.
  intros Hk. rewrite <- (map_sum_insert f (delete k m) k v) by apply lookup_delete_eq.
  by rewrite insert_delete_id.
Qed.

(** The sum when one key is rewritten, whether or not it was there. *)
Lemma map_sum_update `{Countable K} {V} (f : V -> N) (m : gmap K V) k v :
  map_sum f (<[k := v]> m) + from_option f 0 (m !! k) = f v + map_sum f m.
Proof.
  destruct (m !! k) as [w |] eqn:Hk; simpl.
  - rewrite <- insert_delete_eq, map_sum_insert by apply lookup_delete_eq.
    rewrite (map_sum_delete f m k w) by done. lia.
  - rewrite map_sum_insert by done. lia.
Qed.

Lemma map_size_delete_le `{Countable K} {V} (m : gmap K V) k : (size (delete k m) <= size m)%nat.
Proof. rewrite map_size_delete. destruct (m !! k); [apply Nat.le_pred_l | done]. Qed.

Lemma map_sum_subseteq {K V} `{Countable K} (f : V -> N) (m1 m2 : gmap K V) :
  m1 ⊆ m2 -> map_sum f m1 <= map_sum f m2.
Proof.
  revert m2. induction m1 as [| k v m1 Hk IH] using map_ind; intros m2 Hsub; [rewrite map_sum_empty; lia |].
  assert (m2 !! k = Some v) as Hv by (eapply lookup_weaken; [apply lookup_insert_eq | exact Hsub]).
  rewrite map_sum_insert, (map_sum_delete f m2 k v) by done.
  assert (m1 ⊆ delete k m2) as Hd; [| specialize (IH _ Hd); lia].
  apply map_subseteq_spec. intros j x Hj. assert (j <> k) by congruence. rewrite lookup_delete_ne by done.
  eapply lookup_weaken; [| exact Hsub]. by rewrite lookup_insert_ne.
Qed.

Lemma map_sum_union {K V} `{Countable K} (f : V -> N) (m1 m2 : gmap K V) :
  m1 ##ₘ m2 -> map_sum f (m1 ∪ m2) = map_sum f m1 + map_sum f m2.
Proof.
  induction m1 as [| k v m1 Hk IH] using map_ind; intros Hd.
  - by rewrite (left_id_L ∅ (∪)), map_sum_empty.
  - apply map_disjoint_insert_l in Hd as [Hk2 Hd]. rewrite <- insert_union_l, !map_sum_insert, IH; try done; [lia |].
    by apply lookup_union_None.
Qed.

(** ** Sums over lists *)

Definition sum_over {X} (f : X -> N) (l : list X) : N := foldr (fun x acc => f x + acc) 0 l.

Lemma sum_over_Permutation {X} (f : X -> N) (l k : list X) : l ≡ₚ k -> sum_over f l = sum_over f k.
Proof. unfold sum_over. induction 1; simpl; lia. Qed.

Lemma map_sum_list {V} (f : V -> N) (m : gmap N V) : map_sum f m = sum_over (f ∘ snd) (map_to_list m).
Proof.
  unfold map_sum, sum_over. rewrite map_fold_foldr. induction (map_to_list m) as [| [k v] l IH]; [done |].
  simpl. by rewrite IH.
Qed.

Lemma sum_over_app {X} (f : X -> N) l k : sum_over f (l ++ k) = sum_over f l + sum_over f k.
Proof. unfold sum_over. induction l as [| x l IH]; simpl; lia. Qed.

Lemma sum_over_submseteq {X} (f : X -> N) l k : l ⊆+ k -> sum_over f l <= sum_over f k.
Proof.
  intros [r Hr]%submseteq_Permutation. rewrite (sum_over_Permutation f _ _ Hr), sum_over_app. lia.
Qed.

Lemma sum_over_In {X} (f : X -> N) l x : x ∈ l -> f x <= sum_over f l.
Proof. unfold sum_over. induction 1; simpl; lia. Qed.

(** ** Sorted lists with a key *)

Lemma sorted_unique {A} (R : A -> A -> Prop) (key : A -> N) (l : list A) x y :
  StronglySorted R l -> (forall a b, R a b -> key a < key b) -> x ∈ l -> y ∈ l -> key x = key y -> x = y.
Proof.
  intros Hs Hk. induction Hs as [| a l Hs IH Ha]; intros Hx Hy Heq; [by apply elem_of_nil in Hx |].
  rewrite Forall_forall in Ha.
  apply elem_of_cons in Hx. apply elem_of_cons in Hy. destruct Hx as [-> | Hx], Hy as [-> | Hy]; [done | | | by apply IH].
  - specialize (Ha _ Hy). apply Hk in Ha. lia.
  - specialize (Ha _ Hx). apply Hk in Ha. lia.
Qed.

Lemma sorted_last {A} (R : A -> A -> Prop) (l : list A) x y :
  StronglySorted R l -> last l = Some y -> x ∈ l -> x = y \/ R x y.
Proof.
  intros Hs. induction Hs as [| a l Hs IH Ha]; intros Hlast Hx; [done |]. rewrite Forall_forall in Ha.
  destruct l as [| b l]; [simpl in Hlast; simplify_eq; apply elem_of_cons in Hx as [-> | ?%elem_of_nil]; [by left | done] |].
  change (last (a :: b :: l)) with (last (b :: l)) in Hlast. apply elem_of_cons in Hx as [-> | Hx]; [| by apply IH].
  right. apply Ha. by apply last_Some_elem_of.
Qed.
