(* ===== verification/Types.v ===== *)
(** * Portable identities, serial order and the rational tick rate

    Models [engine/net/src/types.rs] and the sequence order [newer] of
    [engine/net/src/lib.rs]. The identity newtypes ([ServerTick], [CommandSeq],
    ...) are their wrapped integers; a [Duration] is its total count of
    nanoseconds, whose largest value is [duration_max]. *)

From S2P Require Import Prelude.
Local Open Scope N_scope.

Abbreviation ServerTick := N (only parsing).
Abbreviation CommandSeq := N (only parsing).
Abbreviation TargetTick := N (only parsing).
Abbreviation SnapshotId := N (only parsing).
Abbreviation ConnectionEpoch := N (only parsing).
Abbreviation ConnectionId := N (only parsing).
Abbreviation CommandStream := N (only parsing).
Abbreviation OwnershipEpoch := N (only parsing).
Abbreviation SceneRevision := N (only parsing).
Abbreviation PolicyRevision := N (only parsing).
Abbreviation GroupId := N (only parsing).
Abbreviation GroupRevision := N (only parsing).
Abbreviation SchemaId := N (only parsing).
Abbreviation Duration := N (only parsing).

(** [checked_next] of an identity whose representation has maximum [max]. *)
Definition checked_next (max value : N) : option N := checked_add max value 1.

Record EntityId := mkEntityId { index : N; generation : N }.

#[global] Instance EntityId_eq_dec : EqDecision EntityId.
Proof. solve_decision. Defined.
#[global] Instance EntityId_countable : Countable EntityId.
Proof.
  refine (inj_countable' (fun e => (index e, generation e))
                         (fun p => mkEntityId p.1 p.2) _); by intros [].
Defined.

Record ActionKey := mkActionKey {
  ak_connection : ConnectionEpoch;
  ak_stream : CommandStream;
  ak_command : CommandSeq;
  ak_slot : N;
}.

#[global] Instance ActionKey_eq_dec : EqDecision ActionKey.
Proof. solve_decision. Defined.
#[global] Instance ActionKey_countable : Countable ActionKey.
Proof.
  refine (inj_countable'
    (fun k => (ak_connection k, ak_stream k, ak_command k, ak_slot k))
    (fun '(c, s, q, l) => mkActionKey c s q l) _); by intros [].
Defined.

(** ** Serial numbers *)

Inductive SerialOrdering := Older | Equal | Newer | Ambiguous.

Definition half_range : N := 2147483648.

Definition compare_serial32 (value previous : N) : SerialOrdering :=
  let delta := wrapping_sub u32_max value previous in
  if decide (delta = 0) then Equal
  else if decide (delta = half_range) then Ambiguous
  else if decide (delta < half_range) then Newer
  else Older.

(** [lib.rs]: a sequence number is newer than the last one received. *)
Definition newer (seq : N) (previous : option N) : bool :=
  match previous with
  | None => true
  | Some old =>
      bool_decide (seq <> old) && bool_decide (wrapping_sub u32_max seq old < half_range)
  end.

(** ** Durations *)

Definition nanos_per_sec : N := 1000000000.
Definition duration_max : N := u64_max * nanos_per_sec + 999999999.

(** [Duration::new(secs, nanos)] for [nanos] below one second. *)
Definition duration_new (secs nanos : N) : Duration := secs * nanos_per_sec + nanos.

(** ** The fixed rate *)

Record TickRate := mkTickRate { hz : N }.

Definition TickRate_new (value : N) : option TickRate :=
  if decide (value = 0 \/ nanos_per_sec < value) then None else Some (mkTickRate value).

Definition deadline (rate : TickRate) (tick : ServerTick) : option Duration :=
  let nanos := div_ceil (tick * nanos_per_sec) (hz rate) in
  match try_from u64_max (nanos / nanos_per_sec) with
  | Some seconds => Some (duration_new seconds (nanos mod nanos_per_sec))
  | None => None
  end.

Definition elapsed_tick_phase (rate : TickRate) (elapsed : Duration)
  : option (ServerTick * N) :=
  match checked_mul u128_max elapsed (hz rate) with
  | Some scaled =>
      match try_from u64_max (scaled / nanos_per_sec) with
      | Some tick => Some (tick, scaled mod nanos_per_sec * 65536 / nanos_per_sec)
      | None => None
      end
  | None => None
  end.

Definition elapsed_ticks (rate : TickRate) (elapsed : Duration) : option ServerTick :=
  try_from u64_max (elapsed * hz rate / nanos_per_sec).

(** ** Properties *)

(** A rate as the constructor admits it. *)
Definition valid_rate (rate : TickRate) : Prop := 1 <= hz rate <= nanos_per_sec.

Lemma TickRate_new_valid value rate :
  TickRate_new value = Some rate -> valid_rate rate /\ hz rate = value.
Proof.
  unfold TickRate_new, valid_rate. case_decide; intros; simplify_eq/=.
  split; [lia | done].
Qed.

(** The two parts of a [Duration] recompose to the nanosecond count. *)
Lemma duration_new_parts nanos :
  duration_new (nanos / nanos_per_sec) (nanos mod nanos_per_sec) = nanos.
Proof.
  unfold duration_new. pose proof (N.Div0.div_mod nanos nanos_per_sec). lia.
Qed.

Lemma deadline_eq rate tick d :
  deadline rate tick = Some d ->
  d = div_ceil (tick * nanos_per_sec) (hz rate) /\ d <= duration_max.
Proof.
  unfold deadline. intros H. case_match eqn:Ht; [| done]. simplify_eq.
  apply try_from_Some in Ht as [-> Hle]. rewrite duration_new_parts. split; [done |].
  set (n := div_ceil _ _) in *.
  pose proof (N.Div0.div_mod n nanos_per_sec).
  pose proof (N.mod_lt n nanos_per_sec ltac:(done)).
  unfold duration_max, nanos_per_sec, u64_max in *. lia.
Qed.

(** The deadline exists for every tick a [u64] can hold. *)
Lemma deadline_total rate tick :
  valid_rate rate -> tick <= u64_max ->
  deadline rate tick = Some (div_ceil (tick * nanos_per_sec) (hz rate)).
Proof.
  intros [Hlo Hhi] Ht. unfold deadline.
  assert (div_ceil (tick * nanos_per_sec) (hz rate) <= tick * nanos_per_sec) as Hd.
  { apply div_ceil_le; [lia | nia]. }
  assert (div_ceil (tick * nanos_per_sec) (hz rate) / nanos_per_sec <= u64_max) as Hs.
  { etransitivity; [apply N.Div0.div_le_mono, Hd |].
    rewrite N.div_mul by done. done. }
  unfold try_from. rewrite decide_True by done. by rewrite duration_new_parts.
Qed.

(** Time has reached a tick's deadline exactly when that tick is due. *)
Lemma elapsed_reaches rate tick elapsed :
  valid_rate rate ->
  tick <= elapsed * hz rate / nanos_per_sec <->
  div_ceil (tick * nanos_per_sec) (hz rate) <= elapsed.
Proof.
  intros [Hlo Hhi]. rewrite div_le_iff by done. rewrite div_ceil_le by lia. done.
Qed.

Lemma elapsed_ticks_Some rate elapsed tick :
  elapsed_ticks rate elapsed = Some tick <->
  tick = elapsed * hz rate / nanos_per_sec /\ tick <= u64_max.
Proof. unfold elapsed_ticks. rewrite try_from_Some. naive_solver. Qed.

(** A deadline rounds up by less than one tick, so it belongs to its tick. *)
Lemma elapsed_of_deadline rate tick :
  valid_rate rate ->
  div_ceil (tick * nanos_per_sec) (hz rate) * hz rate / nanos_per_sec = tick.
Proof.
  intros Hr. pose proof (proj2 (elapsed_reaches rate tick _ Hr) (N.le_refl _)) as Hge.
  destruct Hr as [Hlo Hhi]. apply N.le_antisymm; [| exact Hge].
  apply N.lt_succ_r, N.Div0.div_lt_upper_bound. unfold div_ceil.
  pose proof (N.Div0.mul_div_le (tick * nanos_per_sec + (hz rate - 1)) (hz rate)).
  unfold nanos_per_sec in *. nia.
Qed.

(** No product of a representable duration and a valid rate overflows [u128]. *)
Lemma elapsed_product_fits rate elapsed :
  valid_rate rate -> elapsed <= duration_max -> elapsed * hz rate <= u128_max.
Proof.
  unfold valid_rate. intros [_ Hhi] Hd.
  etransitivity; [apply N.mul_le_mono; [exact Hd | exact Hhi] |]. by vm_compute.
Qed.

(** A difference of two [u32]s modulo [2^32]. *)
Lemma wrapping_sub_u32 a b :
  a <= u32_max -> b <= u32_max ->
  wrapping_sub u32_max a b = if decide (b <= a) then a - b else a + 4294967296 - b.
Proof.
  unfold wrapping_sub, u32_max. intros Ha Hb. case_decide.
  - replace (a + (4294967295 + 1) - b) with (a - b + 1 * 4294967296) by lia.
    rewrite N.Div0.mod_add. apply N.mod_small. lia.
  - apply N.mod_small. lia.
Qed.

Ltac serial_cases :=
  unfold compare_serial32, newer, half_range;
  rewrite ?wrapping_sub_u32 by done;
  repeat case_decide; repeat case_bool_decide; simpl; unfold u32_max in *;
  try (exfalso; lia); split; intros; try done; try lia.

Lemma newer_compare a b :
  a <= u32_max -> b <= u32_max ->
  newer a (Some b) = true <-> compare_serial32 a b = Newer.
Proof. intros. serial_cases. Qed.

(** The serial order on truncated counters: it is antisymmetric, equal only on
    equal counters, ambiguous only at exactly half the range, correct for any
    distance below half the range across the wrap, and the inbox's [newer] test is
    the [Newer] verdict. *)
Theorem serial_order_correct a b :
  a <= u32_max -> b <= u32_max ->
  (compare_serial32 a b = Newer <-> compare_serial32 b a = Older)
  /\ (compare_serial32 a b = Equal <-> a = b)
  /\ (compare_serial32 a b = Ambiguous <-> compare_serial32 b a = Ambiguous)
  /\ (compare_serial32 a b = Newer
      <-> exists k, 0 < k < half_range /\ a = (b + k) mod (u32_max + 1))
  /\ (newer a (Some b) = true <-> compare_serial32 a b = Newer).
Proof.
  intros Ha Hb. repeat split_and; try by apply newer_compare.
  1-3: serial_cases.
  split.
  - intros Hn. exists (wrapping_sub u32_max a b). revert Hn.
    unfold compare_serial32. repeat case_decide; try done. intros _. split; [lia |].
    rewrite wrapping_sub_u32 by done. case_decide; unfold u32_max in *.
    + replace (b + (a - b)) with a by lia. by rewrite N.mod_small by lia.
    + replace (b + (a + 4294967296 - b)) with (a + 1 * 4294967296) by lia.
      rewrite N.Div0.mod_add. by rewrite N.mod_small by lia.
  - intros (k & Hk & ->). unfold compare_serial32.
    assert (wrapping_sub u32_max ((b + k) mod (u32_max + 1)) b = k) as ->.
    { unfold half_range, u32_max in *. destruct (decide (b + k < 4294967296)).
      - rewrite (N.mod_small (b + k)) in * by lia. rewrite wrapping_sub_u32; [| done..].
        rewrite decide_True by lia. lia.
      - assert ((b + k) mod (4294967295 + 1) = b + k - 4294967296) as E.
        { replace (b + k) with (b + k - 4294967296 + 1 * 4294967296) at 1 by lia.
          rewrite N.Div0.mod_add. apply N.mod_small. lia. }
        rewrite E in *. rewrite wrapping_sub_u32; [| done..].
        rewrite decide_False by lia. lia. }
    unfold half_range in *. repeat case_decide; try done; lia.
Qed.

Lemma serial_order_correct_witness :
  compare_serial32 0 u32_max = Newer /\ compare_serial32 u32_max 0 = Older.
Proof.
  destruct (serial_order_correct 0 u32_max ltac:(done) ltac:(done)) as [H _].
  split; [reflexivity |]. apply H. reflexivity.
Defined.

(** Rational deadlines do not drift: for every tick of a valid rate the deadline
    exists, the tick count at the deadline is exactly that tick, and at any other
    instant a tick is due exactly when its deadline has been reached (no tick is
    due early and none is skipped). *)
Theorem deadline_elapsed_galois rate tick :
  valid_rate rate -> tick <= u64_max ->
  exists d, deadline rate tick = Some d
    /\ elapsed_ticks rate d = Some tick
    /\ (forall elapsed now, elapsed_ticks rate elapsed = Some now ->
          (tick <= now <-> d <= elapsed)).
Proof.
  intros Hr Ht. eexists. split; [by apply deadline_total |]. split.
  - apply elapsed_ticks_Some. by rewrite elapsed_of_deadline.
  - intros elapsed now [-> _]%elapsed_ticks_Some. by apply elapsed_reaches.
Qed.

Lemma deadline_elapsed_galois_witness :
  deadline (mkTickRate 60) 5184000 = Some (86400 * nanos_per_sec)
  /\ elapsed_ticks (mkTickRate 60) (86400 * nanos_per_sec) = Some 5184000.
Proof.
  destruct (deadline_elapsed_galois (mkTickRate 60) 5184000) as (d & Hd & He & _);
    [by split | done |].
  vm_compute in Hd. injection Hd as <-. split; [reflexivity | exact He].
Defined.

(** Fractional quantization: over the whole range of [Duration] the [u128]
    product cannot overflow, the tick part is [elapsed_ticks], the phase fits a
    [u16], and the pair rounds the rational time down by less than one unit. *)
Theorem elapsed_tick_phase_rounds_down rate elapsed :
  valid_rate rate -> elapsed <= duration_max ->
  match elapsed_tick_phase rate elapsed with
  | Some (tick, phase) =>
      elapsed_ticks rate elapsed = Some tick /\ phase <= u16_max
      /\ (tick * 65536 + phase) * nanos_per_sec <= elapsed * hz rate * 65536
      /\ elapsed * hz rate * 65536 < (tick * 65536 + phase + 1) * nanos_per_sec
  | None => elapsed_ticks rate elapsed = None
  end.
Proof.
  intros Hr Hd. unfold elapsed_tick_phase, checked_mul, elapsed_ticks.
  rewrite decide_True by (by apply elapsed_product_fits).
  set (x := elapsed * hz rate). unfold try_from. case_decide as Ht; [| done].
  pose proof (N.Div0.div_mod x nanos_per_sec) as Hx.
  pose proof (N.mod_lt x nanos_per_sec ltac:(done)) as Hm.
  set (r := x mod nanos_per_sec) in *. set (t := x / nanos_per_sec) in *.
  pose proof (N.Div0.div_mod (r * 65536) nanos_per_sec) as Hp.
  pose proof (N.mod_lt (r * 65536) nanos_per_sec ltac:(done)) as Hq.
  set (p := r * 65536 / nanos_per_sec) in *.
  set (m := (r * 65536) mod nanos_per_sec) in *. clearbody t r p m.
  unfold nanos_per_sec, u16_max in *. split_and!; try done; lia.
Qed.

Lemma elapsed_tick_phase_rounds_down_witness :
  elapsed_tick_phase (mkTickRate 60) 1025000000 = Some (61, 32768)
  /\ elapsed_ticks (mkTickRate 60) 1025000000 = Some 61.
Proof.
  split; [reflexivity |].
  pose proof (elapsed_tick_phase_rounds_down (mkTickRate 60) 1025000000
                ltac:(by split) ltac:(done)) as H.
  vm_compute in H. vm_compute. apply H.
Defined.
