(* ===== verification/Floats.v ===== *)
(** * Binary64 numbers

    The [f64] operations the engine uses, on the kernel's specification floats: every
    operation rounds to nearest even at 53 bits; comparisons are false on NaN; a cast to
    [i64] saturates and sends NaN to zero. *)

From Corelib Require Export SpecFloat.
From S2P Require Import Prelude.
Local Open Scope Z_scope.

Abbreviation f64 := spec_float (only parsing).

Definition f64_add : f64 -> f64 -> f64 := SFadd 53 1024.
Definition f64_sub : f64 -> f64 -> f64 := SFsub 53 1024.
Definition f64_mul : f64 -> f64 -> f64 := SFmul 53 1024.
Definition f64_div : f64 -> f64 -> f64 := SFdiv 53 1024.
Definition f64_abs : f64 -> f64 := SFabs.
Definition f64_eq : f64 -> f64 -> bool := SFeqb.
Definition f64_lt : f64 -> f64 -> bool := SFltb.
Definition f64_le : f64 -> f64 -> bool := SFleb.
Definition f64_zero : f64 := S754_zero false.

(** [v.is_finite()]. *)
Definition is_finite (v : f64) : bool :=
  match v with S754_zero _ | S754_finite _ _ _ => true | S754_infinity _ | S754_nan => false end.

(** The integer [z] as a float, when it is exactly representable or rounded. *)
Definition f64_of_Z (z : Z) : f64 := binary_normalize 53 1024 z 0 false.

Definition i64_min : Z := - 9223372036854775808.
Definition i64_max : Z := 9223372036854775807.

Definition saturate_i64 (z : Z) : Z := Z.max i64_min (Z.min z i64_max).

(** [v.floor() as i64]. *)
Definition f64_floor_i64 (v : f64) : Z :=
  match v with
  | S754_nan | S754_zero _ => 0
  | S754_infinity s => if s then i64_min else i64_max
  | S754_finite s m e =>
      let signed := if s then Z.neg m else Z.pos m in
      saturate_i64 (if e <? 0 then signed / 2 ^ (- e) else signed * 2 ^ e)
  end.

(** [v.clamp(low, high)]: NaN is kept. *)
Definition f64_clamp (v low high : f64) : f64 :=
  let v := if f64_lt v low then low else v in
  if f64_lt high v then high else v.

(** [v as f32]: rounded to nearest even at 24 bits. *)
Definition f32_of_f64 (v : f64) : spec_float :=
  match v with
  | S754_finite s m e => binary_round 24 128 s m e
  | _ => v
  end.
