(* ===== verification/Clock.v ===== *)
(** * Rational fixed-tick dispatch

    Models [engine/net/src/clock.rs]: the server's [TickClock], which turns
    observed elapsed time into bounded bursts of simulation steps. The callback
    [step] is modelled by the list of the contexts it is called with, in order. *)

From S2P Require Import Prelude Types.
Local Open Scope N_scope.

Record TickClock := mkTickClock {
  rate : TickRate;
  snapshot_interval : N;
  committed : ServerTick;
  last_observed : Duration;
  catchup_limit : N;
  last_flush_wall_tick : ServerTick;
  pending_publication : bool;
}.
#[export] Instance eta_TickClock : Eta TickClock := fun r =>
  mkTickClock (rate r) (snapshot_interval r) (committed r) (last_observed r)
    (catchup_limit r) (last_flush_wall_tick r) (pending_publication r).

Record TickContext := mkTickContext {
  ctx_tick : ServerTick;
  ctx_deadline : Duration;
  observed_now : Duration;
}.

Record TickHealth := mkTickHealth {
  health_committed : ServerTick;
  debt_ticks : N;
  overloaded : bool;
}.

Record TickDecision := mkTickDecision {
  send_due : bool;
  snapshot_due : bool;
  executed_ticks : N;
  decision_health : TickHealth;
}.

(** [TickClock::new]: the assertion and the [expect] are the [None] results. *)
Definition TickClock_new (tick_hz interval : N) : option TickClock :=
  if decide (0 < interval) then
    match TickRate_new tick_hz with
    | Some r => Some (mkTickClock r interval 0 0 4 0 false)
    | None => None
    end
  else None.

Definition with_catchup_limit (c : TickClock) (ticks : N) : option TickClock :=
  if decide (1 <= ticks <= 1024) then Some (c <| catchup_limit := ticks |>) else None.

(** The tick count that is due at an instant, saturating at the last tick. *)
Definition due_at (r : TickRate) (now : Duration) : ServerTick :=
  default u64_max (elapsed_ticks r now).

Definition health (c : TickClock) (now : Duration) : TickHealth :=
  let due := due_at (rate c) (N.max now (last_observed c)) in
  let debt := saturating_sub due (committed c) in
  mkTickHealth (committed c) debt (bool_decide (catchup_limit c < debt)).

(** The body of the catch-up loop, run [n] times or until it breaks. Returns the
    clock, the contexts stepped and the number of executed ticks. *)
Fixpoint catch_up (n : nat) (now : Duration) (c : TickClock)
  : TickClock * list TickContext * N :=
  match n with
  | O => (c, [], 0)
  | S n =>
      match checked_next u64_max (committed c) with
      | None => (c, [], 0)
      | Some tick =>
          match deadline (rate c) tick with
          | None => (c, [], 0)
          | Some d =>
              let c1 := c <| committed := tick |> in
              let c2 := c1 <| pending_publication :=
                pending_publication c || bool_decide (tick mod snapshot_interval c = 0) |> in
              let '(c3, steps, executed) := catch_up n now c2 in
              (c3, mkTickContext tick d now :: steps, executed + 1)
          end
      end
  end.

Definition advance_ticked (c : TickClock) (now0 : Duration)
  : TickClock * TickDecision * list TickContext :=
  let now := N.max now0 (last_observed c) in
  let c := c <| last_observed := now |> in
  let before := health c now in
  let n := N.to_nat (N.min (debt_ticks before) (catchup_limit c)) in
  let '(c, steps, executed) := catch_up n now c in
  let wall_tick := due_at (rate c) now in
  if decide (last_flush_wall_tick c < wall_tick) then
    let due := pending_publication c in
    let c := c <| last_flush_wall_tick := wall_tick |> <| pending_publication := false |> in
    (c, mkTickDecision true due executed (health c now), steps)
  else (c, mkTickDecision false false executed (health c now), steps).

(** ** A server that polls the clock *)

(** The decisions and the steps of a sequence of polls, oldest first. *)
Fixpoint polls (c : TickClock) (observations : list Duration)
  : TickClock * list TickDecision * list TickContext :=
  match observations with
  | [] => (c, [], [])
  | now :: rest =>
      let '(c1, d, steps) := advance_ticked c now in
      let '(c2, ds, more) := polls c1 rest in
      (c2, d :: ds, steps ++ more)
  end.

(** ** The clock's invariant *)

Record clock_inv (c : TickClock) : Prop := {
  inv_rate : valid_rate (rate c);
  inv_interval : 0 < snapshot_interval c;
  inv_limit : 1 <= catchup_limit c <= 1024;
  inv_not_ahead : committed c <= due_at (rate c) (last_observed c);
}.

Lemma TickClock_new_inv tick_hz interval c :
  TickClock_new tick_hz interval = Some c -> clock_inv c.
Proof.
  unfold TickClock_new. intros H. inv_op H.
  apply TickRate_new_valid in Heqo as [Hr _]. split; simpl; try done; lia.
Qed.

Lemma with_catchup_limit_inv c ticks c' :
  clock_inv c -> with_catchup_limit c ticks = Some c' -> clock_inv c'.
Proof. intros [] H. unfold with_catchup_limit in H. inv_op H. by split. Qed.

Lemma due_at_le_max r now : due_at r now <= u64_max.
Proof.
  unfold due_at. destruct (elapsed_ticks r now) eqn:E; simpl; [| lia].
  by apply elapsed_ticks_Some in E as [_ ?].
Qed.

Lemma due_at_mono r a b : a <= b -> due_at r a <= due_at r b.
Proof.
  intros Hab. unfold due_at, elapsed_ticks, try_from.
  assert (a * hz r / nanos_per_sec <= b * hz r / nanos_per_sec).
  { apply N.Div0.div_le_mono. nia. }
  repeat case_decide; simpl; lia.
Qed.

(** A due tick has reached its deadline. *)
Lemma due_deadline r now tick d :
  valid_rate r -> tick <= due_at r now -> deadline r tick = Some d -> d <= now.
Proof.
  intros Hr Hdue [-> _]%deadline_eq. apply elapsed_reaches; [done |].
  unfold due_at, elapsed_ticks, try_from in Hdue. case_decide; simpl in *; lia.
Qed.

Definition clock_same_config (c c' : TickClock) : Prop :=
  rate c' = rate c /\ snapshot_interval c' = snapshot_interval c
  /\ last_observed c' = last_observed c /\ catchup_limit c' = catchup_limit c
  /\ last_flush_wall_tick c' = last_flush_wall_tick c.

(** The contexts name the ticks and their own deadlines, observed at [now]. *)
Definition step_ok (r : TickRate) (now : Duration) (x : TickContext) : Prop :=
  deadline r (ctx_tick x) = Some (ctx_deadline x)
  /\ ctx_deadline x <= now /\ observed_now x = now.

Definition publishes (interval : N) (x : TickContext) : bool :=
  bool_decide (ctx_tick x mod interval = 0).

(** While ticks are owed, the loop never breaks: it executes exactly [n] consecutive
    ticks and records whether one of them is a publication tick. *)
Lemma catch_up_spec n now c :
  valid_rate (rate c) -> committed c + N.of_nat n <= due_at (rate c) now ->
  exists c' steps, catch_up n now c = (c', steps, N.of_nat n)
    /\ clock_same_config c c' /\ committed c' = committed c + N.of_nat n
    /\ ctx_tick <$> steps = ticks_after (committed c) n
    /\ Forall (step_ok (rate c) now) steps
    /\ pending_publication c'
       = pending_publication c || existsb (publishes (snapshot_interval c)) steps.
Proof.
  revert c. induction n as [| n IH]; intros c Hr Hdue.
  { exists c, []. rewrite orb_false_r. split_and!; try done; lia. }
  pose proof (due_at_le_max (rate c) now). cbn [catch_up]. unfold checked_next.
  rewrite (proj2 (checked_add_Some u64_max (committed c) 1 (committed c + 1))) by lia.
  rewrite (deadline_total (rate c)) by (done || lia).
  match goal with |- context [catch_up n now ?x] => set (c2 := x) end.
  destruct (IH c2) as (c' & steps & -> & (?&?&?&?&?) & Hc & Ht & Hs & Hp);
    [done | subst c2; simpl; lia |].
  eexists c', (_ :: steps). split.
  { do 2 f_equal. lia. }
  split; [by subst c2 |]. split; [rewrite Hc; subst c2; simpl; lia |].
  split; [rewrite ticks_after_S; exact (f_equal (cons _) Ht) |]. split.
  - constructor; [| done]. unfold step_ok. simpl.
    rewrite (deadline_total (rate c)) by (done || lia). split_and!; [done | | done].
    eapply (due_deadline _ _ (committed c + 1)); [done | lia |].
    by rewrite (deadline_total (rate c)) by (done || lia).
  - rewrite Hp. subst c2. simpl. rewrite <- orb_assoc. done.
Qed.

(** One poll, in terms of the debt it finds. *)
Definition poll_burst (c : TickClock) (now : Duration) : N :=
  N.min (due_at (rate c) (N.max now (last_observed c)) - committed c) (catchup_limit c).

Lemma advance_ticked_spec c now0 :
  clock_inv c ->
  let now := N.max now0 (last_observed c) in
  let n := poll_burst c now0 in
  exists c' d steps, advance_ticked c now0 = (c', d, steps)
    /\ clock_inv c' /\ rate c' = rate c /\ snapshot_interval c' = snapshot_interval c
    /\ catchup_limit c' = catchup_limit c
    /\ last_observed c' = now /\ committed c' = committed c + n
    /\ ctx_tick <$> steps = ticks_after (committed c) (N.to_nat n)
    /\ Forall (step_ok (rate c) now) steps
    /\ executed_ticks d = n
    /\ debt_ticks (decision_health d) = due_at (rate c) now - committed c - n
    /\ send_due d = bool_decide (last_flush_wall_tick c < due_at (rate c) now)
    /\ (snapshot_due d || pending_publication c')
       = pending_publication c || existsb (publishes (snapshot_interval c)) steps
    /\ (snapshot_due d = true -> send_due d = true /\ pending_publication c' = false)
    /\ (send_due d = true -> pending_publication c' = false).
Proof.
  intros [Hr Hi Hl Ha] now n. unfold advance_ticked. fold now. cbv zeta.
  assert (N.min (debt_ticks (health (c <| last_observed := now |>) now))
                (catchup_limit (c <| last_observed := now |>)) = n) as ->.
  { unfold n, poll_burst, health. simpl. rewrite N.max_id. unfold now, saturating_sub. lia. }
  assert (n <= due_at (rate c) now - committed c) as Hn by (unfold n, poll_burst; fold now; lia).
  assert (committed c <= due_at (rate c) now) as Hge.
  { etransitivity; [exact Ha |]. apply due_at_mono. lia. }
  destruct (catch_up_spec (N.to_nat n) now (c <| last_observed := now |>))
    as (c' & steps & -> & (Hc1 & Hc2 & Hc3 & Hc4 & Hc5) & Hcom & Hticks & Hsteps & Hpub);
    [done | simpl; lia |].
  simpl in *. rewrite N2Nat.id in *. rewrite Hc1, Hc5.
  case_decide as Hf; eexists _, _, steps; (split; [reflexivity |]);
    (split; [split; simpl; congruence || (rewrite ?Hc1, ?Hc3, ?Hc4, ?Hc2, ?Hcom; lia || done) |]);
    unfold health; simpl; rewrite ?Hc1, ?Hc2, ?Hc3, ?Hc4, ?Hcom, ?Hpub, N.max_id;
    unfold saturating_sub; split_and!; try done; try lia;
    try (by rewrite bool_decide_true); try (by rewrite bool_decide_false);
    by rewrite orb_false_r.
Qed.

(** ** Properties *)

(** C29 No tick is skipped, repeated or run early. Over any sequence of polls, at any
    observed times, the steps executed are the consecutive ticks after the committed
    one, each carrying its own rational deadline and executed at an observed time
    not before it; the committed tick is never ahead of the observed clock. *)
Theorem polls_execute_due_ticks_once c observations :
  clock_inv c ->
  exists c' ds steps, polls c observations = (c', ds, steps)
    /\ clock_inv c' /\ committed c <= committed c'
    /\ ctx_tick <$> steps
       = ticks_after (committed c) (N.to_nat (committed c' - committed c))
    /\ Forall (fun x => deadline (rate c) (ctx_tick x) = Some (ctx_deadline x)
                        /\ ctx_deadline x <= observed_now x) steps.
Proof.
  revert c. induction observations as [| now rest IH]; intros c Hinv.
  { exists c, [], []. rewrite N.sub_diag. by split_and!. }
  destruct (advance_ticked_spec c now Hinv)
    as (c1 & d & steps & Ha & Hinv1 & Hr & _ & _ & _ & Hc & Ht & Hs & _).
  destruct (IH c1 Hinv1) as (c2 & ds & more & Hp & Hinv2 & Hle & Ht2 & Hs2).
  cbn [polls]. rewrite Ha, Hp. eexists _, _, _. split; [done |].
  split; [done |]. split; [lia |]. rewrite Hr in Hs2. split.
  - rewrite fmap_app, Ht, Ht2, Hc.
    replace (N.to_nat (committed c2 - committed c)) with
      (N.to_nat (poll_burst c now)
       + N.to_nat (committed c2 - (committed c + poll_burst c now)))%nat by lia.
    by rewrite ticks_after_app, N2Nat.id.
  - apply Forall_app. split; [| done].
    eapply List.Forall_impl; [| exact Hs]. intros x (? & ? & ->). done.
Qed.

Lemma polls_execute_due_ticks_once_witness :
  exists c steps, TickClock_new 60 3 = Some c
    /\ polls c [100000000; 100000000] = (steps : TickClock * list TickDecision * list TickContext)
    /\ ctx_tick <$> steps.2 = [1; 2; 3; 4; 5; 6].
Proof.
  eexists _, _. split; [reflexivity |]. split; [reflexivity |].
  destruct (polls_execute_due_ticks_once (mkTickClock (mkTickRate 60) 3 0 0 4 0 false)
              [100000000; 100000000]) as (c' & ds & steps & Hp & _ & _ & Ht & _);
    [by apply (TickClock_new_inv 60 3) |].
  vm_compute in Hp. injection Hp as <- <- <-. exact Ht.
Defined.

(** Bounded catch-up terminates with no debt: polling repeatedly at one observed
    instant executes at most [catchup_limit] ticks per poll, and after enough polls
    every owed tick has run and the reported debt is zero. *)
Theorem polls_drain_debt k c now :
  clock_inv c ->
  due_at (rate c) (N.max now (last_observed c)) - committed c <= N.of_nat k * catchup_limit c ->
  exists c' ds steps, polls c (replicate k now) = (c', ds, steps)
    /\ debt_ticks (health c' now) = 0
    /\ Forall (fun d => executed_ticks d <= catchup_limit c) ds.
Proof.
  revert c. induction k as [| k IH]; intros c Hinv Hdebt.
  { exists c, [], []. split_and!; [done | | done]. unfold health, saturating_sub. simpl. lia. }
  destruct (advance_ticked_spec c now Hinv)
    as (c1 & d & steps & Ha & Hinv1 & Hr & _ & Hl & Ho & Hc & _ & _ & He & _).
  destruct (IH c1 Hinv1) as (c2 & ds & more & Hp & Hd & Hb).
  { rewrite Hr, Ho, Hc, Hl, N.max_assoc, N.max_id. unfold poll_burst. lia. }
  cbn [replicate polls]. rewrite Ha, Hp. eexists _, _, _. split; [done |].
  split; [done |]. rewrite Hl in Hb. constructor; [| done].
  rewrite He. unfold poll_burst. lia.
Qed.

Lemma polls_drain_debt_witness :
  exists c, TickClock_new 60 3 = Some c
    /\ exists r, polls c (replicate 3 200000000) = r /\ debt_ticks (health r.1.1 200000000) = 0.
Proof.
  eexists. split; [reflexivity |]. eexists. split; [reflexivity |].
  destruct (polls_drain_debt 3 (mkTickClock (mkTickRate 60) 3 0 0 4 0 false) 200000000)
    as (c' & ds & steps & Hp & Hd & _);
    [by apply (TickClock_new_inv 60 3) | by vm_compute |].
  rewrite Hp. exact Hd.
Defined.

(** Publications coalesce and are never lost: over any polls, a snapshot has been
    due or is still pending exactly when one was pending before or a multiple of the
    snapshot interval was executed, and a snapshot is due only with a network flush. *)
Theorem polls_coalesce_publications c observations :
  clock_inv c ->
  exists c' ds steps, polls c observations = (c', ds, steps)
    /\ (existsb snapshot_due ds || pending_publication c')
       = pending_publication c || existsb (publishes (snapshot_interval c)) steps
    /\ Forall (fun d => snapshot_due d = true -> send_due d = true) ds.
Proof.
  revert c. induction observations as [| now rest IH]; intros c Hinv.
  { exists c, [], []. simpl. by rewrite orb_false_r. }
  destruct (advance_ticked_spec c now Hinv)
    as (c1 & d & steps & Ha & Hinv1 & _ & Hi & _ & _ & _ & _ & _ & _ & _ & _ & Hp1 & Hf & _).
  destruct (IH c1 Hinv1) as (c2 & ds & more & Hp & Hpub & Hb).
  cbn [polls]. rewrite Ha, Hp. eexists _, _, _. split; [done |]. split.
  - simpl. rewrite existsb_app, orb_assoc, <- Hp1, <- !orb_assoc, Hpub, Hi. done.
  - constructor; [| done]. by intros [? _]%Hf.
Qed.

Lemma polls_coalesce_publications_witness :
  exists c, TickClock_new 60 3 = Some c
    /\ existsb snapshot_due (polls c [60000000; 120000000]).1.2 = true.
Proof.
  eexists. split; [reflexivity |].
  destruct (polls_coalesce_publications (mkTickClock (mkTickRate 60) 3 0 0 4 0 false)
    [60000000; 120000000]) as (c' & ds & steps & Hp & Hpub & _);
    [by apply (TickClock_new_inv 60 3) |].
  vm_compute in Hp. injection Hp as <- <- <-. vm_compute in Hpub |- *. exact Hpub.
Defined.
