(* ===== verification/Codec.v ===== *)
(** * Versioned frames and allocation-bounded collections

    Models [engine/net/src/codec.rs]. Bytes are Rocq's [byte]; integers travel
    little-endian. A [BoundedVec<T, N>] is the list of its elements with the bound
    as an argument of its operations. The [bincode] serializer and the game's
    [Validate] implementation are parameters of the payload codec. *)

From Stdlib Require Export Strings.Byte.
From stdpp Require Export strings.
From S2P Require Import Prelude Types.
Local Open Scope N_scope.
Local Open Scope engine_scope.

Definition PROTOCOL_MAJOR : N := 1.
Definition PROTOCOL_MINOR : N := 0.
Definition HEADER_BYTES : N := 24.
(** [*b"NRG1"] *)
Definition MAGIC : list byte := [x4e; x52; x47; x31].

Inductive CodecError :=
| InvalidLimit
| Oversized
| Truncated
| TrailingBytes
| ProtocolMismatch
| InvalidLane
| InvalidFlags
| WrongEpoch
| InvalidPayload (message : string).

#[global] Instance byte_eq_dec : EqDecision byte := Byte.byte_eq_dec.

(** ** Bounded vectors *)

Definition BoundedVec_new {T} (bound : N) (values : list T) : result CodecError (list T) :=
  if decide (bound < len values) then Err Oversized else Ok values.

(** [push]: the vector afterwards, and whether the element was refused. *)
Definition BoundedVec_push {T} (bound : N) (v : list T) (value : T)
  : list T * result CodecError unit :=
  if decide (len v = bound) then (v, Err Oversized) else (v ++ [value], Ok tt).

(** [visit_seq]: the declared count is checked first, then every element read is
    counted. [size_hint] is what the format declares, [elements] what it yields. *)
Fixpoint visit_elements {T E} (bound : N) (too_many : E)
    (elements : list (result E T)) (values : list T) : result E (list T) :=
  match elements with
  | [] => Ok values
  | element :: rest =>
      let? value := element in
      if decide (len values = bound) then Err too_many
      else visit_elements bound too_many rest (values ++ [value])
  end.

Definition visit_seq {T E} (bound : N) (too_many : E)
    (size_hint : option N) (elements : list (result E T)) : result E (list T) :=
  match size_hint with
  | Some size => if decide (bound < size) then Err too_many
                 else visit_elements bound too_many elements []
  | None => visit_elements bound too_many elements []
  end.

(** ** Little-endian integers *)

Definition byte_of (v : N) : byte := default x00 (Byte.of_N (v mod 256)).

Fixpoint to_le_bytes (n : nat) (v : N) : list byte :=
  match n with
  | O => []
  | S n => byte_of v :: to_le_bytes n (v / 256)
  end.

Fixpoint from_le_bytes (bytes : list byte) : N :=
  match bytes with
  | [] => 0
  | b :: rest => Byte.to_N b + 256 * from_le_bytes rest
  end.

(** ** Frames *)

Inductive Lane := Control | Input | State | Outcomes | Diagnostics.

(** [lane as u8]. *)
Definition lane_byte (lane : Lane) : byte :=
  match lane with
  | Control => x00 | Input => x01 | State => x02 | Outcomes => x03 | Diagnostics => x04
  end.

Definition Lane_try_from (value : byte) : result CodecError Lane :=
  match value with
  | x00 => Ok Control
  | x01 => Ok Input
  | x02 => Ok State
  | x03 => Ok Outcomes
  | x04 => Ok Diagnostics
  | _ => Err InvalidLane
  end.

Record FrameHeader := mkFrameHeader {
  lane : Lane;
  connection : ConnectionEpoch;
  sequence : N;
}.

Record FrameLimit := mkFrameLimit { max_frame_bytes : N }.

Definition FrameLimit_new (max : N) : result CodecError FrameLimit :=
  if decide (HEADER_BYTES <= max <= HEADER_BYTES + u16_max)
  then Ok (mkFrameLimit max) else Err InvalidLimit.

Definition payload_bytes (limit : FrameLimit) : N := max_frame_bytes limit - HEADER_BYTES.

Definition header_bytes (h : FrameHeader) (length : N) : list byte :=
  MAGIC ++ to_le_bytes 2 PROTOCOL_MAJOR ++ to_le_bytes 2 PROTOCOL_MINOR
  ++ [lane_byte (lane h)] ++ [x00] ++ to_le_bytes 8 (connection h)
  ++ to_le_bytes 4 (sequence h) ++ to_le_bytes 2 length.

#[global] Arguments header_bytes : simpl never.

Definition encode_frame (h : FrameHeader) (payload : list byte) (limit : FrameLimit)
  : result CodecError (list byte) :=
  if decide (connection h = 0) then Err WrongEpoch
  else if decide (payload_bytes limit < len payload) then Err Oversized
  else Ok (header_bytes h (len payload) ++ payload).

(** [bytes[from..to]]. *)
Definition slice (from to : nat) (bytes : list byte) : list byte :=
  take (to - from) (drop from bytes).

Definition decode_frame (bytes : list byte) (expected : ConnectionEpoch) (limit : FrameLimit)
  : result CodecError (FrameHeader * list byte) :=
  if decide (max_frame_bytes limit < len bytes) then Err Oversized
  else if decide (len bytes < HEADER_BYTES) then Err Truncated
  else if decide (slice 0 4 bytes <> MAGIC
                  \/ slice 4 6 bytes <> to_le_bytes 2 PROTOCOL_MAJOR
                  \/ slice 6 8 bytes <> to_le_bytes 2 PROTOCOL_MINOR)
  then Err ProtocolMismatch
  else
    let? l := Lane_try_from (nth 8 bytes x00) in
    if decide (nth 9 bytes x00 <> x00) then Err InvalidFlags
    else
      let conn := from_le_bytes (slice 10 18 bytes) in
      if decide (expected = 0 \/ conn <> expected) then Err WrongEpoch
      else
        let seq := from_le_bytes (slice 18 22 bytes) in
        let length := from_le_bytes (slice 22 24 bytes) in
        if decide (len bytes < HEADER_BYTES + length) then Err Truncated
        else if decide (HEADER_BYTES + length < len bytes) then Err TrailingBytes
        else Ok (mkFrameHeader l conn seq, drop 24 bytes).

(** ** Validated payloads *)

(** What the codec calls: bincode at a byte limit, and the game's validation. The
    serializer's own errors carry a message. *)
Class PayloadCodec (T : Type) := {
  serialized_size : N -> T -> result string N;
  serialize : N -> T -> result string (list byte);
  deserialize : N -> list byte -> result string T;
  validate : T -> result CodecError unit;
}.

Definition encode_payload {T} `{PayloadCodec T} (value : T) (limit : N)
  : result CodecError (list byte) :=
  if decide (limit = 0 \/ u16_max < limit) then Err InvalidLimit
  else
    let? _ := validate value in
    match serialized_size limit value with
    | Err e => Err (InvalidPayload e)
    | Ok size =>
        if decide (limit < size) then Err Oversized
        else match serialize limit value with
             | Err e => Err (InvalidPayload e)
             | Ok bytes => Ok bytes
             end
    end.

Definition decode_payload {T} `{PayloadCodec T} (bytes : list byte) (limit : N)
  : result CodecError T :=
  if decide (limit = 0 \/ u16_max < limit) then Err InvalidLimit
  else if decide (limit < len bytes) then Err Oversized
  else match deserialize limit bytes with
       | Err e => Err (InvalidPayload e)
       | Ok value => let? _ := validate value in Ok value
       end.

(** ** Lemmas on bytes *)

Lemma byte_of_to_N b : byte_of (Byte.to_N b) = b.
Proof.
  unfold byte_of. rewrite N.mod_small by (pose proof (Byte.to_N_bounded b); lia).
  by rewrite Byte.of_to_N.
Qed.

Lemma to_N_byte_of v : Byte.to_N (byte_of v) = v mod 256.
Proof.
  unfold byte_of. pose proof (N.mod_lt v 256 ltac:(done)) as Hlt.
  destruct (Byte.of_N (v mod 256)) as [b |] eqn:E; simpl.
  - by apply Byte.to_of_N in E.
  - apply Byte.of_N_None_iff in E. lia.
Qed.

Lemma length_to_le_bytes n v : length (to_le_bytes n v) = n.
Proof. revert v. induction n; intros; simpl; auto. Qed.

Lemma len_le_bytes n v : len (to_le_bytes n v) = N.of_nat n.
Proof. unfold len. by rewrite length_to_le_bytes. Qed.

Lemma from_to_le_bytes n v :
  from_le_bytes (to_le_bytes n v) = v mod 256 ^ N.of_nat n.
Proof.
  revert v. induction n as [| n IH]; intros v; cbn [to_le_bytes from_le_bytes].
  { by rewrite N.mod_1_r. }
  rewrite to_N_byte_of, IH, Nat2N.inj_succ, N.pow_succ_r by lia.
  rewrite N.Div0.mod_mul_r. done.
Qed.

Lemma to_from_le_bytes bytes :
  to_le_bytes (length bytes) (from_le_bytes bytes) = bytes.
Proof.
  induction bytes as [| b bytes IH]; cbn [length to_le_bytes from_le_bytes]; [done |].
  pose proof (Byte.to_N_bounded b) as Hb. f_equal.
  - rewrite <- (byte_of_to_N b) at 2. unfold byte_of. do 2 f_equal.
    rewrite (N.mul_comm 256), N.Div0.mod_add. done.
  - rewrite (N.mul_comm 256), N.div_add by done.
    rewrite (N.div_small (Byte.to_N b)) by lia. by rewrite N.add_0_l.
Qed.

Lemma from_le_bytes_bound bytes : from_le_bytes bytes < 256 ^ len bytes.
Proof.
  unfold len. induction bytes as [| b bytes IH]; cbn [length from_le_bytes]; [done |].
  pose proof (Byte.to_N_bounded b). rewrite Nat2N.inj_succ, N.pow_succ_r by lia. lia.
Qed.

Lemma Lane_roundtrip l : Lane_try_from (lane_byte l) = Ok l.
Proof. by destruct l. Qed.

Lemma Lane_try_from_Ok b l : Lane_try_from b = Ok l -> b = lane_byte l.
Proof. destruct b; simpl; intros; simplify_eq; done. Qed.

(** ** Frames are canonical *)

(** A header as the Rust types hold it. *)
Definition header_wf (h : FrameHeader) : Prop :=
  connection h <= u64_max /\ sequence h <= u32_max.

Definition limit_wf (limit : FrameLimit) : Prop :=
  HEADER_BYTES <= max_frame_bytes limit <= HEADER_BYTES + u16_max.

Lemma FrameLimit_new_wf max limit : FrameLimit_new max = Ok limit -> limit_wf limit.
Proof. unfold FrameLimit_new, limit_wf. intros H. inv_op H. simpl. lia. Qed.

Lemma le_bytes_fit n v :
  v < 256 ^ N.of_nat n -> from_le_bytes (to_le_bytes n v) = v.
Proof. intros H. by rewrite from_to_le_bytes, N.mod_small. Qed.

(** The fields of an encoded header, read back where the decoder looks. *)
Lemma header_fields h length payload :
  let bytes := header_bytes h length ++ payload in
  slice 0 4 bytes = MAGIC
  /\ slice 4 6 bytes = to_le_bytes 2 PROTOCOL_MAJOR
  /\ slice 6 8 bytes = to_le_bytes 2 PROTOCOL_MINOR
  /\ nth 8 bytes x00 = lane_byte (lane h) /\ nth 9 bytes x00 = x00
  /\ slice 10 18 bytes = to_le_bytes 8 (connection h)
  /\ slice 18 22 bytes = to_le_bytes 4 (sequence h)
  /\ slice 22 24 bytes = to_le_bytes 2 length
  /\ drop 24 bytes = payload.
Proof. by split_and!. Qed.

(** The header of [bytes] is determined by the fields the decoder reads. *)
Lemma header_rebuild (bytes : list byte) h :
  (24 <= length bytes)%nat ->
  slice 0 4 bytes = MAGIC ->
  slice 4 6 bytes = to_le_bytes 2 PROTOCOL_MAJOR ->
  slice 6 8 bytes = to_le_bytes 2 PROTOCOL_MINOR ->
  nth 8 bytes x00 = lane_byte (lane h) -> nth 9 bytes x00 = x00 ->
  from_le_bytes (slice 10 18 bytes) = connection h ->
  from_le_bytes (slice 18 22 bytes) = sequence h ->
  header_bytes h (from_le_bytes (slice 22 24 bytes)) ++ drop 24 bytes = bytes.
Proof.
  intros Hlen H1 H2 H3 H4 H5 H6 H7.
  do 24 (destruct bytes as [| ? bytes]; [simpl in Hlen; lia |]). clear Hlen.
  unfold slice in *. cbn [drop take nth Nat.sub] in *.
  unfold header_bytes. rewrite <- H1, <- H2, <- H3, <- H4, <- H6, <- H7, H5.
  rewrite (to_from_le_bytes [_; _; _; _; _; _; _; _]), (to_from_le_bytes [_; _; _; _]),
    (to_from_le_bytes [_; _]). done.
Qed.

Lemma len_header_bytes h n : len (header_bytes h n) = HEADER_BYTES.
Proof. done. Qed.

Lemma decode_encode_frame h payload limit bytes :
  header_wf h -> limit_wf limit -> encode_frame h payload limit = Ok bytes ->
  decode_frame bytes (connection h) limit = Ok (h, payload).
Proof.
  intros [Hc Hs] [Hl1 Hl2] He. unfold encode_frame in He.
  repeat case_decide; try done. assert (header_bytes h (len payload) ++ payload = bytes) as <-
    by congruence. clear He.
  pose proof (header_fields h (len payload) payload) as (F1&F2&F3&F4&F5&F6&F7&F8&F9).
  unfold payload_bytes in *.
  unfold decode_frame. rewrite len_app, len_header_bytes, F1, F2, F3, F4, F5, F6, F7, F8, F9.
  rewrite Lane_roundtrip.
  rewrite !le_bytes_fit by (unfold u64_max, u32_max, u16_max, HEADER_BYTES in *; simpl; lia).
  rewrite (decide_False (P := _ \/ _ \/ _)) by tauto. rewrite (decide_False (P := _ \/ _)) by tauto.
  repeat (rewrite decide_False by (tauto || lia)). by destruct h.
Qed.

Lemma encode_decode_frame bytes expected limit h payload :
  limit_wf limit -> decode_frame bytes expected limit = Ok (h, payload) ->
  encode_frame h payload limit = Ok bytes /\ connection h = expected /\ header_wf h.
Proof.
  intros [Hl1 Hl2] Hd. unfold decode_frame in Hd.
  destruct (decide (max_frame_bytes limit < len bytes)) as [| Hmax]; [done |].
  destruct (decide (len bytes < HEADER_BYTES)) as [| Hmin]; [done |].
  destruct (decide (_ \/ _ \/ _)) as [| Hproto]; [done |].
  destruct (Lane_try_from _) as [l |] eqn:Hlane; [| done]. apply Lane_try_from_Ok in Hlane.
  destruct (decide (nth 9 bytes x00 <> x00)) as [| Hflag]; [done |].
  destruct (decide (expected = 0 \/ _)) as [| Hep]; [done |].
  destruct (decide (len bytes < _)) as [| Hlo]; [done |].
  destruct (decide (_ < len bytes)) as [| Hhi]; [done |].
  apply Decidable.not_or in Hproto as [Hp1 [Hp2 Hp3]%Decidable.not_or].
  apply Decidable.not_or in Hep as [He0 He].
  apply dec_stable in Hp1, Hp2, Hp3, Hflag, He.
  assert (h = mkFrameHeader l (from_le_bytes (slice 10 18 bytes))
                (from_le_bytes (slice 18 22 bytes)) /\ payload = drop 24 bytes) as [-> ->].
  { split; congruence. }
  clear Hd. unfold len, HEADER_BYTES in *.
  assert (24 <= length bytes)%nat as H24 by lia.
  assert (forall a b, (a <= b <= 24)%nat -> from_le_bytes (slice a b bytes) < 256 ^ N.of_nat (b - a)) as Hsl.
  { intros a b Hab. pose proof (from_le_bytes_bound (slice a b bytes)) as Hx.
    unfold len, slice in *. rewrite length_take, length_drop in Hx.
    by replace ((b - a) `min` (length bytes - a))%nat with (b - a)%nat in Hx by lia. }
  unfold encode_frame. cbn [Codec.connection]. split_and!; [| done |].
  - rewrite decide_False by congruence. unfold payload_bytes, len, HEADER_BYTES.
    rewrite length_drop. rewrite decide_False by lia. f_equal.
    replace (N.of_nat (length bytes - 24)) with (from_le_bytes (slice 22 24 bytes)) by lia.
    by apply header_rebuild.
  - split; cbn [Codec.connection Codec.sequence].
    + pose proof (Hsl 10%nat 18%nat ltac:(lia)). simpl in *. unfold u64_max. lia.
    + pose proof (Hsl 18%nat 22%nat ltac:(lia)). simpl in *. unfold u32_max. lia.
Qed.

(** ** Properties *)

(** C27 The frame codec is exact and canonical: for a transport limit the engine can
    construct, the decoder accepts a byte string under an expected connection epoch
    with a header and payload exactly when the encoder produces that byte string from
    them and the header carries the expected epoch. In particular every encoded frame
    decodes to what was encoded, every accepted frame is the only encoding of its
    content, and no truncated, padded, foreign-epoch or oversized frame is accepted. *)
Theorem frame_codec_canonical max limit bytes expected h payload :
  FrameLimit_new max = Ok limit ->
  decode_frame bytes expected limit = Ok (h, payload)
  <-> header_wf h /\ connection h = expected /\ encode_frame h payload limit = Ok bytes.
Proof.
  intros Hl%FrameLimit_new_wf. split.
  - intros (? & ? & ?)%encode_decode_frame; done.
  - intros (Hh & <- & He). by apply decode_encode_frame.
Qed.

Lemma frame_codec_canonical_witness :
  exists limit bytes, FrameLimit_new 32 = Ok limit
    /\ encode_frame (mkFrameHeader State 7 9) [x2a; x2b] limit = Ok bytes
    /\ decode_frame bytes 7 limit = Ok (mkFrameHeader State 7 9, [x2a; x2b]).
Proof.
  eexists (mkFrameLimit 32), _. split; [reflexivity |]. split; [reflexivity |].
  apply (frame_codec_canonical 32 (mkFrameLimit 32)); [reflexivity |].
  split_and!; [by split | reflexivity | reflexivity].
Defined.

(** A bounded collection never holds more than its bound, whatever count the wire
    declares and however many elements it yields: reading one either fails or returns
    exactly the decoded elements in order, at most [bound] of them, and it succeeds
    whenever the declared and the actual count are within the bound. *)
Theorem visit_seq_bounded {T E} (bound : N) (too_many : E) (hint : option N)
    (elements : list (result E T)) :
  (forall values, visit_seq bound too_many hint elements = Ok values ->
     Ok <$> values = elements /\ len values <= bound)
  /\ (forall values, elements = Ok <$> values -> len values <= bound ->
        (forall size, hint = Some size -> size <= bound) ->
        visit_seq bound too_many hint elements = Ok values).
Proof.
  assert (forall acc values, len acc <= bound ->
    visit_elements bound too_many elements acc = Ok values <->
    exists rest, values = acc ++ rest /\ elements = Ok <$> rest /\ len values <= bound) as Hv.
  { clear hint. induction elements as [| e elements IH]; intros acc values Hacc; simpl.
    - split.
      + intros [= <-]. exists []. by rewrite app_nil_r.
      + intros ([|] & -> & ? & ?); simplify_eq. by rewrite app_nil_r.
    - destruct e as [v | e]; [case_decide as Hfull |].
      + split; [done |]. intros ([| w rest] & -> & ? & Hlen); simplify_eq.
        autorewrite with engine in Hlen. lia.
      + rewrite IH by (autorewrite with engine; lia). split.
        * intros (rest & -> & -> & ?). exists (v :: rest). by rewrite <- app_assoc in *.
        * intros ([| w rest] & -> & ? & Hlen); simplify_eq/=. exists rest.
          rewrite <- app_assoc. simpl. split_and!; done.
      + split; [done |]. intros ([| w rest] & -> & ? & ?); simplify_eq. }
  assert (visit_elements bound too_many elements [] = visit_seq bound too_many hint elements
          \/ exists size, hint = Some size /\ bound < size
              /\ visit_seq bound too_many hint elements = Err too_many) as [Heq | (s & -> & Hs & Heq)].
  { unfold visit_seq. destruct hint as [size |]; [case_decide |]; eauto. }
  - rewrite <- Heq. pose proof (fun v => Hv [] v ltac:(rewrite len_nil; lia)) as Hv0. split.
    + intros values (rest & -> & -> & ?)%Hv0. done.
    + intros values -> Hlen _. apply Hv0. eauto.
  - rewrite Heq. split; [done |]. intros values _ _ Hsz. specialize (Hsz s eq_refl). lia.
Qed.

(** ** The payload codec over a lawful serializer *)

Section payload.
Context {T : Type} `{PayloadCodec T}.

(** bincode's documented contract, at one limit: [serialized_size] is the length of
    the serialization, and deserializing a serialization returns the value. *)
Hypothesis size_exact : forall limit value size bytes,
  serialized_size limit value = Ok size -> serialize limit value = Ok bytes ->
  size = len bytes.
Hypothesis deserialize_serialize : forall limit value bytes,
  serialize limit value = Ok bytes -> deserialize limit bytes = Ok value.

(** Validated payloads round-trip: a payload the encoder accepts is valid, fits the
    limit, and decodes to the same value; and the decoder never returns an invalid
    value. *)
Theorem payload_roundtrip value limit bytes :
  encode_payload value limit = Ok bytes ->
  len bytes <= limit /\ validate value = Ok tt
  /\ decode_payload bytes limit = Ok value
  /\ (forall other, decode_payload bytes limit = Ok other -> validate other = Ok tt).
Proof.
  unfold encode_payload. intros He. inv_op He.
  assert (len bytes <= limit).
  { pose proof (size_exact _ _ _ _ Heqr0 Heqr1). lia. }
  assert (decode_payload bytes limit = Ok value) as Hd.
  { unfold decode_payload. rewrite decide_False by done. rewrite decide_False by lia.
    rewrite (deserialize_serialize _ _ _ Heqr1). by rewrite Heqr. }
  repeat match goal with u : unit |- _ => destruct u end.
  split_and!; try done. intros other Ho. congruence.
Qed.
End payload.

(** A one-byte payload whose validation refuses zero. *)
Definition small_codec : PayloadCodec N := {|
  serialized_size := fun _ v => if decide (v < 256) then Ok 1 else Err "range"%string;
  serialize := fun _ v => if decide (v < 256) then Ok [byte_of v] else Err "range"%string;
  deserialize := fun _ b =>
    match b with [x] => Ok (Byte.to_N x) | _ => Err "length"%string end;
  validate := fun v => if decide (v = 0) then Err InvalidFlags else Ok tt;
|}.

Lemma payload_roundtrip_witness :
  @encode_payload N small_codec 42 8 = Ok [x2a]
  /\ @decode_payload N small_codec [x2a] 8 = Ok 42.
Proof.
  split; [reflexivity |].
  apply (@payload_roundtrip N small_codec) with (value := 42) (limit := 8); [| | reflexivity].
  - intros limit value size bytes. simpl. case_decide; intros; by simplify_eq.
  - intros limit value bytes. simpl. case_decide; intros; simplify_eq.
    rewrite to_N_byte_of, N.mod_small; done.
Defined.
