(* ===== verification/Commands.v ===== *)
(** * Target-tick command admission and finalization

    Models [engine/net/src/commands.rs] and [engine/net/src/commands/continuity.rs]:
    the authority's per-owner [CommandInbox] with its immutable-command audit, the
    preparation and commit of each tick's input, the missing-input substitution, and
    the redundant bundle packer of the client.

    The game's [CommandRules] implementation is an argument of the operations. The
    [bincode] serializer and the [blake3] hasher are parameters: the serializer is the
    sequence of byte chunks it writes (or a failure), the hasher a function of the
    bytes it was fed. *)

From S2P Require Import Prelude Types Codec.
Local Open Scope N_scope.
Local Open Scope engine_scope.

Record OwnerStream := mkOwnerStream {
  os_connection : ConnectionId;
  os_epoch : ConnectionEpoch;
  os_stream : CommandStream;
  os_owner : EntityId;
  os_ownership : OwnershipEpoch;
}.
#[global] Instance OwnerStream_eq_dec : EqDecision OwnerStream.
Proof. solve_decision. Defined.

Record ActionEdge (A : Type) := mkActionEdge { slot : N; action : A }.
Arguments mkActionEdge {A} _ _.
Arguments slot {A} _.
Arguments action {A} _.

Record Command (I A : Type) := mkCommand {
  cmd_owner : OwnerStream;
  cmd_sequence : CommandSeq;
  cmd_target : TargetTick;
  cmd_input : I;
  cmd_actions : list (ActionEdge A);
}.
Arguments mkCommand {I A} _ _ _ _ _.
Arguments cmd_owner {I A} _.
Arguments cmd_sequence {I A} _.
Arguments cmd_target {I A} _.
Arguments cmd_input {I A} _.
Arguments cmd_actions {I A} _.

Definition action_key {I A} (c : Command I A) (s : N) : ActionKey :=
  mkActionKey (os_epoch (cmd_owner c)) (os_stream (cmd_owner c)) (cmd_sequence c) s.

(** The game's callbacks. *)
Class CommandRules (I A : Type) := {
  owns_at : OwnerStream -> TargetTick -> bool;
  valid_input : I -> bool;
  valid_action : A -> bool;
  held_input : I -> I;
  neutral_input : I;
}.

Record CommandLimits := mkCommandLimits {
  future_ticks : N;
  held_grace_ticks : N;
  audit_records : N;
  sequence_ahead : N;
  max_command_bytes : N;
  submissions_per_tick : N;
}.

Definition CommandLimits_default : CommandLimits := mkCommandLimits 12 3 256 256 2048 64.

Inductive CommandError :=
| InvalidConfiguration
| WrongOwnerStream
| OwnershipDenied
| InvalidIdentity
| InvalidInput
| InvalidAction
| DuplicateActionSlot
| OversizedOrInvalidEncoding
| Equivocation
| SequenceWindow
| AuditFull
| RateLimit
| TickInProgress
| TickExhausted
| NothingPrepared
| WrongCommitTick
| InvalidSubstitute
| InvalidBundleLimit
| NewestDoesNotFit.

Inductive Admission :=
| Accepted (arrival_slack : N)
| Duplicate
| Late
| Future
| TargetOccupied
| RetiredSequence.

Inductive FinalizedStatus := Executed | Substituted.

Record FinalizedReceipt := mkFinalizedReceipt {
  receipt_tick : ServerTick;
  receipt_sequence : option CommandSeq;
  receipt_status : FinalizedStatus;
}.

(** ** Missing-input continuity ([continuity.rs]) *)

Record InputContinuity (I : Type) := mkInputContinuity {
  last_input : option I;
  missing_streak : N;
}.
Arguments mkInputContinuity {I} _ _.
Arguments last_input {I} _.
Arguments missing_streak {I} _.
#[export] Instance eta_InputContinuity {I} : Eta (InputContinuity I) := fun r =>
  mkInputContinuity (last_input r) (missing_streak r).

Definition InputContinuity_default {I} : InputContinuity I := mkInputContinuity None 0.

Definition commit_input {I} (c : InputContinuity I) (input : I) : InputContinuity I :=
  c <| last_input := Some input |> <| missing_streak := 0 |>.

Definition substitute {I} (c : InputContinuity I) (grace_ticks : N) (held : I -> I) (neutral : I)
  : I * N :=
  let streak := saturating_add u32_max (missing_streak c) 1 in
  let input :=
    if decide (streak <= grace_ticks)
    then match last_input c with Some last => held last | None => neutral end
    else neutral in
  (input, streak).

(** ** Fingerprints *)

Section fingerprint.
Context {digest : Type} (blake3 : list byte -> digest).

(** The hasher is represented by the bytes it has been fed. *)
Record FingerprintWriter := mkFingerprintWriter {
  hashed : list byte;
  fw_length : N;
  fw_limit : N;
}.

(** [write]: refuses a chunk that does not fit the remaining limit. *)
Definition write (w : FingerprintWriter) (bytes : list byte) : option FingerprintWriter :=
  if decide (saturating_sub (fw_limit w) (fw_length w) < len bytes) then None
  else Some (mkFingerprintWriter (hashed w ++ bytes) (fw_length w + len bytes) (fw_limit w)).

Fixpoint write_all (w : FingerprintWriter) (chunks : list (list byte)) : option FingerprintWriter :=
  match chunks with
  | [] => Some w
  | chunk :: rest => match write w chunk with Some w => write_all w rest | None => None end
  end.

(** [fingerprint]: [serialization] is what [serialize_into] writes, [None] when the
    value itself cannot be serialized. *)
Definition fingerprint (serialization : option (list (list byte))) (limit : N)
  : result CommandError (digest * N) :=
  match serialization with
  | None => Err OversizedOrInvalidEncoding
  | Some chunks =>
      match write_all (mkFingerprintWriter [] 0 limit) chunks with
      | None => Err OversizedOrInvalidEncoding
      | Some w => Ok (blake3 (hashed w), fw_length w)
      end
  end.
End fingerprint.
Arguments mkFingerprintWriter : clear implicits.

(** ** The inbox *)

Section inbox.
Context {I A digest : Type} `{!EqDecision digest}.
Context (blake3 : list byte -> digest) (bincode : Command I A -> option (list (list byte))).

Record PreparedInput := mkPreparedInput {
  prep_tick : ServerTick;
  prep_sequence : option CommandSeq;
  prep_input : I;
  prep_actions : list (ActionEdge A);
  prep_missing_streak : N;
}.

Record AuditRecord := mkAuditRecord {
  rec_fingerprint : digest;
  rec_admission : Admission;
  rec_pending : bool;
}.
#[export] Instance eta_AuditRecord : Eta AuditRecord := fun r =>
  mkAuditRecord (rec_fingerprint r) (rec_admission r) (rec_pending r).

Record CommandInbox := mkCommandInbox {
  owner : OwnerStream;
  limits : CommandLimits;
  finalized : ServerTick;
  pending : gmap TargetTick (Command I A);
  audit : gmap CommandSeq AuditRecord;
  audit_order : list CommandSeq;
  retired_sequence : option CommandSeq;
  highest_received : option CommandSeq;
  sequence_window_floor : CommandSeq;
  receipts : list FinalizedReceipt;
  prepared : option PreparedInput;
  continuity : InputContinuity I;
  submissions : N;
}.
#[export] Instance eta_CommandInbox : Eta CommandInbox := fun r =>
  mkCommandInbox (owner r) (limits r) (finalized r) (pending r) (audit r) (audit_order r)
    (retired_sequence r) (highest_received r) (sequence_window_floor r) (receipts r)
    (prepared r) (continuity r) (submissions r).

Definition CommandInbox_new (o : OwnerStream) (initialized_at : ServerTick) (l : CommandLimits)
  : result CommandError CommandInbox :=
  if decide (future_ticks l = 0 \/ 12 < future_ticks l \/ 3 < held_grace_ticks l
             \/ audit_records l < future_ticks l \/ sequence_ahead l < future_ticks l
             \/ max_command_bytes l = 0 \/ submissions_per_tick l = 0)
  then Err InvalidConfiguration
  else if decide (os_epoch o = 0 \/ os_stream o = 0 \/ generation (os_owner o) = 0
                  \/ os_ownership o = 0)
  then Err InvalidIdentity
  else Ok (mkCommandInbox o l initialized_at ∅ ∅ [] None None 0 [] None
             InputContinuity_default 0).

(** [retained_admission] and [receipt]: the bounded lookups. *)
Definition retained_admission (b : CommandInbox) (seq : CommandSeq) : option Admission :=
  rec_admission <$> audit b !! seq.

Definition receipt (b : CommandInbox) (tick : ServerTick) : option FinalizedReceipt :=
  snd <$> list_find (fun r => receipt_tick r = tick) (receipts b).

(** The loop over the action edges, [slots] being the set built so far. *)
Fixpoint check_actions (rules : CommandRules I A) (slots : gset N) (edges : list (ActionEdge A))
  : result CommandError unit :=
  match edges with
  | [] => Ok tt
  | edge :: rest =>
      if decide (8 <= slot edge) then Err InvalidAction
      else if negb (@valid_action I A rules (action edge)) then Err InvalidAction
      else if decide (slot edge ∈ slots) then Err DuplicateActionSlot
      else check_actions rules ({[slot edge]} ∪ slots) rest
  end.

Definition opt_max (o : option N) (n : N) : N :=
  match o with Some old => N.max old n | None => n end.

(** The first retained sequence that is no longer pending. *)
Definition evictable (b : CommandInbox) (seq : CommandSeq) : bool :=
  match audit b !! seq with Some r => negb (rec_pending r) | None => false end.

Definition reserve_audit (b : CommandInbox) (seq : CommandSeq)
  : CommandInbox * result CommandError unit :=
  if decide (is_Some (audit b !! seq)) then (b, Ok tt)
  else if decide (N.of_nat (size (audit b)) = audit_records (limits b)) then
    match list_find (fun s => evictable b s = true) (audit_order b) with
    | None => (b, Err AuditFull)
    | Some (i, evicted) =>
        let b := b <| audit_order := delete i (audit_order b) |> in
        let b := b <| audit := delete evicted (audit b) |> in
        let b := b <| retired_sequence := Some (opt_max (retired_sequence b) evicted) |> in
        (b <| audit_order := audit_order b ++ [seq] |>, Ok tt)
    end
  else (b <| audit_order := audit_order b ++ [seq] |>, Ok tt).

(** The tick up to which input is closed. *)
Definition cutoff (b : CommandInbox) : N :=
  match prepared b with Some p => prep_tick p | None => finalized b end.

(** What admission decides for a valid, unseen (or still too early) command. *)
Definition classify (b : CommandInbox) (c : Command I A) : Admission :=
  if decide (cmd_target c <= cutoff b) then Late
  else if decide (saturating_add u64_max (finalized b) (future_ticks (limits b)) < cmd_target c)
  then Future
  else if decide (is_Some (pending b !! cmd_target c)) then TargetOccupied
  else Accepted (cmd_target c - finalized b).

Definition accepted (a : Admission) : bool :=
  match a with Accepted _ => true | _ => false end.

(** The tail of [admit_command], after the audit lookup: reserve, record, queue. *)
Definition record_admission (b : CommandInbox) (c : Command I A) (fp : digest)
  : CommandInbox * result CommandError Admission :=
  let admission := classify b c in
  match reserve_audit b (cmd_sequence c) with
  | (b, Err e) => (b, Err e)
  | (b, Ok _) =>
      let b := b <| audit :=
        <[cmd_sequence c := mkAuditRecord fp admission (accepted admission)]> (audit b) |> in
      if accepted admission then
        let b := b <| highest_received := Some (opt_max (highest_received b) (cmd_sequence c)) |> in
        (b <| pending := <[cmd_target c := c]> (pending b) |>, Ok admission)
      else (b, Ok admission)
  end.

(** [retired_sequence.is_some_and(|floor| sequence <= floor)]. *)
Definition retired (b : CommandInbox) (seq : CommandSeq) : bool :=
  match retired_sequence b with Some floor => bool_decide (seq <= floor) | None => false end.

Definition admit_command (b : CommandInbox) (authenticated : ConnectionId) (c : Command I A)
    (rules : CommandRules I A) : CommandInbox * result CommandError Admission :=
  if decide (authenticated <> os_connection (owner b) \/ cmd_owner c <> owner b)
  then (b, Err WrongOwnerStream)
  else if decide (submissions_per_tick (limits b) <= submissions b) then (b, Err RateLimit)
  else
    let b := b <| submissions := submissions b + 1 |> in
    if negb (@owns_at I A rules (cmd_owner c) (cmd_target c)) then (b, Err OwnershipDenied)
    else if decide (cmd_sequence c = 0 \/ cmd_target c = 0) then (b, Err InvalidIdentity)
    else if negb (@valid_input I A rules (cmd_input c)) then (b, Err InvalidInput)
    else
      match check_actions rules ∅ (cmd_actions c) with
      | Err e => (b, Err e)
      | Ok _ =>
          match fingerprint blake3 (bincode c) (max_command_bytes (limits b)) with
          | Err e => (b, Err e)
          | Ok (fp, _) =>
              match audit b !! cmd_sequence c with
              | Some previous =>
                  if decide (rec_fingerprint previous <> fp) then (b, Err Equivocation)
                  else match rec_admission previous with
                       | Accepted _ => (b, Ok Duplicate)
                       | Late => (b, Ok Late)
                       | TargetOccupied => (b, Ok TargetOccupied)
                       | _ => record_admission b c fp
                       end
              | None =>
                  if retired b (cmd_sequence c) then (b, Ok RetiredSequence)
                  else if decide (saturating_add u64_max (sequence_window_floor b)
                                    (sequence_ahead (limits b)) < cmd_sequence c)
                  then (b, Err SequenceWindow)
                  else record_admission b c fp
              end
          end
      end.

Definition prepare_next (b : CommandInbox) (rules : CommandRules I A)
  : CommandInbox * result CommandError PreparedInput :=
  match prepared b with
  | Some _ => (b, Err TickInProgress)
  | None =>
      match checked_next u64_max (finalized b) with
      | None => (b, Err TickExhausted)
      | Some tick =>
          if negb (@owns_at I A rules (owner b) tick) then (b, Err OwnershipDenied)
          else
            match pending b !! tick with
            | Some c =>
                let p := mkPreparedInput tick (Some (cmd_sequence c)) (cmd_input c)
                           (cmd_actions c) 0 in
                (b <| prepared := Some p |>, Ok p)
            | None =>
                let '(input, streak) :=
                  substitute (continuity b) (held_grace_ticks (limits b))
                    (@held_input I A rules) (@neutral_input I A rules) in
                if negb (@valid_input I A rules input) then (b, Err InvalidSubstitute)
                else
                  let p := mkPreparedInput tick None input [] streak in
                  (b <| prepared := Some p |>, Ok p)
            end
      end
  end.

(** [commit]: the record that [expect("pending audit retained")] looks up is there in every run of the inbox
    ([prepared_audited]), so the [alter] below always finds it. *)
Definition commit (b : CommandInbox) (tick : ServerTick)
  : CommandInbox * result CommandError FinalizedReceipt :=
  match prepared b with
  | None => (b, Err NothingPrepared)
  | Some p =>
      if decide (prep_tick p <> tick) then (b, Err WrongCommitTick)
      else
        let b := b <| prepared := None |> in
        let b := b <| sequence_window_floor :=
                        saturating_add u64_max (sequence_window_floor b) 1 |> in
        let b :=
          match prep_sequence p with
          | Some seq =>
              let b := b <| continuity := commit_input (continuity b) (prep_input p) |> in
              let b := b <| sequence_window_floor := N.max (sequence_window_floor b) seq |> in
              let b := b <| pending := delete tick (pending b) |> in
              b <| audit := alter (fun r => r <| rec_pending := false |>) seq (audit b) |>
          | None => b
          end in
        let b := b <| continuity := (continuity b) <| missing_streak := prep_missing_streak p |> |> in
        let b := b <| finalized := tick |> in
        let b := b <| submissions := 0 |> in
        let r := mkFinalizedReceipt tick (prep_sequence p)
                   (if prep_sequence p is Some _ then Executed else Substituted) in
        let b := if decide (len (receipts b) = audit_records (limits b))
                 then b <| receipts := tail (receipts b) |> else b in
        (b <| receipts := receipts b ++ [r] |>, Ok r)
  end.

(** ** Redundant bundles *)

(** The loop over the older records; [seen] is the set of stream and sequence pairs. *)
Fixpoint pack_older (newest : Command I A) (max_records : N) (older : list (Command I A))
    (seen : gset (N * N)) (remaining : N) (acc : list (Command I A)) : list (Command I A) :=
  match older with
  | [] => acc
  | c :: rest =>
      if decide (len acc = max_records) then acc
      else
        let key := (os_stream (cmd_owner c), cmd_sequence c) in
        if decide (cmd_owner c <> cmd_owner newest) then
          pack_older newest max_records rest seen remaining acc
        else if decide (key ∈ seen) then
          pack_older newest max_records rest seen remaining acc
        else
          match fingerprint blake3 (bincode c) remaining with
          | Ok (_, bytes) =>
              pack_older newest max_records rest ({[key]} ∪ seen) (remaining - bytes) (acc ++ [c])
          | Err _ => pack_older newest max_records rest ({[key]} ∪ seen) remaining acc
          end
  end.

Definition pack_redundant (newest : Command I A) (older : list (Command I A))
    (max_records payload_budget : N) : result CommandError (list (Command I A)) :=
  if decide (~ (1 <= max_records <= 8)) then Err InvalidBundleLimit
  else
    match fingerprint blake3 (bincode newest) payload_budget with
    | Err _ => Err NewestDoesNotFit
    | Ok (_, newest_bytes) =>
        match checked_sub payload_budget 8 with
        | None => Err NewestDoesNotFit
        | Some n =>
            match checked_sub n newest_bytes with
            | None => Err NewestDoesNotFit
            | Some remaining =>
                Ok (pack_older newest max_records older
                      {[(os_stream (cmd_owner newest), cmd_sequence newest)]}
                      remaining [newest])
            end
        end
    end.
End inbox.
