(* ===== verification/CommandsFacts.v ===== *)
(** * Correctness of command admission

    Runs of the inbox of [Commands.v] as a step relation that remembers every command
    accepted and every receipt returned, the inbox's invariant over those runs, and
    the lemmas the theorems of [CommandsProps.v] are drawn from: what an admission may
    change, that no step loses or repeats a command, and that the retained state is
    bounded. *)

From S2P Require Import Prelude Types Codec Commands.
Local Open Scope N_scope.
Local Open Scope engine_scope.

Section facts.
Context {I A digest : Type} `{!EqDecision digest}.
Context (blake3 : list byte -> digest) (bincode : Command I A -> option (list (list byte))).

Abbreviation Inbox := (@CommandInbox I A digest).
Abbreviation Cmd := (Command I A).
Abbreviation admit_command := (admit_command blake3 bincode).
Abbreviation fp_of l c := (fingerprint blake3 (bincode c) (max_command_bytes l)).

(** [runs start l b acc fin]: an inbox created at tick [start] with limits [l] can be
    in state [b] after accepting the commands [acc] and returning the receipts [fin],
    in these orders. The environment chooses commands, rules and ticks freely. *)
Inductive runs (start : ServerTick) (l : CommandLimits) :
    Inbox -> list Cmd -> list FinalizedReceipt -> Prop :=
| runs_new o b : CommandInbox_new o start l = Ok b -> runs start l b [] []
| runs_admit b acc fin authenticated c rules b' r :
    runs start l b acc fin -> admit_command b authenticated c rules = (b', r) ->
    runs start l b' (acc ++ match r with Ok (Accepted _) => [c] | _ => [] end) fin
| runs_prepare b acc fin rules b' r :
    runs start l b acc fin -> prepare_next b rules = (b', r) -> runs start l b' acc fin
| runs_commit b acc fin tick b' r :
    runs start l b acc fin -> commit b tick = (b', r) ->
    runs start l b' acc (fin ++ match r with Ok rc => [rc] | Err _ => [] end).

(** ** The invariant *)

Definition limits_wf (l : CommandLimits) : Prop :=
  1 <= future_ticks l <= 12 /\ future_ticks l <= audit_records l.

(** What is retained about an accepted command until its audit record is evicted. *)
Definition recorded (b : Inbox) (c : Cmd) : Prop :=
  match audit b !! cmd_sequence c with
  | Some r => accepted (rec_admission r) = true
              /\ (exists n, fp_of (limits b) c = Ok (rec_fingerprint r, n))
  | None => retired b (cmd_sequence c) = true
  end.

Definition executed_by (fin : list FinalizedReceipt) (c : Cmd) : Prop :=
  exists rc, rc ∈ fin /\ receipt_sequence rc = Some (cmd_sequence c)
    /\ receipt_tick rc = cmd_target c.

Record pending_ok (b : Inbox) (t : N) (c : Cmd) : Prop := {
  po_target : cmd_target c = t;
  po_window : finalized b < t <= finalized b + future_ticks (limits b);
  po_audit : exists r, audit b !! cmd_sequence c = Some r /\ rec_pending r = true
    /\ accepted (rec_admission r) = true;
}.

Definition prepared_ok (b : Inbox) (p : @PreparedInput I A) : Prop :=
  prep_tick p = finalized b + 1
  /\ prep_sequence p = cmd_sequence <$> pending b !! prep_tick p.

(** The state of the inbox on its own. *)
Record inbox_wf (b : Inbox) : Prop := {
  w_limits : limits_wf (limits b);
  w_pending : forall t c, pending b !! t = Some c -> pending_ok b t c;
  w_audit : forall s r, audit b !! s = Some r -> rec_pending r = true ->
    exists t c, pending b !! t = Some c /\ cmd_sequence c = s;
  w_order_nodup : NoDup (audit_order b);
  w_order : forall s, s ∈ audit_order b <-> is_Some (audit b !! s);
  w_size : N.of_nat (size (audit b)) <= audit_records (limits b);
  w_prepared : forall p, prepared b = Some p -> prepared_ok b p;
  w_submissions : submissions b <= submissions_per_tick (limits b);
  w_receipts : len (receipts b) <= audit_records (limits b);
}.

(** The state together with its history. *)
Record inbox_inv (start : N) (l : CommandLimits) (b : Inbox) (acc : list Cmd)
    (fin : list FinalizedReceipt) : Prop := {
  i_wf : inbox_wf b;
  i_limits : limits b = l;
  i_recorded : forall c, c ∈ acc -> recorded b c;
  i_nodup : NoDup (cmd_sequence <$> acc);
  i_pending : forall t c, pending b !! t = Some c -> c ∈ acc;
  i_kept : forall c, c ∈ acc -> pending b !! cmd_target c = Some c \/ executed_by fin c;
  i_executed : forall rc s, rc ∈ fin -> receipt_sequence rc = Some s ->
    exists c, c ∈ acc /\ cmd_sequence c = s /\ cmd_target c = receipt_tick rc;
  i_ticks : receipt_tick <$> fin = ticks_after start (length fin);
  i_final : finalized b = start + len fin;
  i_status : Forall (fun rc => receipt_status rc
                               = if receipt_sequence rc is Some _ then Executed else Substituted) fin;
  i_receipts : receipts b `suffix_of` fin;
}.

Lemma inbox_new_inv o start l b :
  CommandInbox_new o start l = Ok b -> inbox_inv start l b [] [].
Proof.
  unfold CommandInbox_new. intros H. inv_op H.
  split; simpl; try by (constructor || intros ? ?%not_elem_of_nil || intros ? ? ?%not_elem_of_nil || (intros; simplify_map_eq)).
  - split; simpl; try done; try (intros; simplify_map_eq; fail); try by constructor.
    + unfold limits_wf. lia.
    + intros s. rewrite lookup_empty. split; [by intros ?%not_elem_of_nil | by intros []].
    + rewrite map_size_empty. lia.
    + lia.
    + unfold len. simpl. lia.
  - by intros c ?%not_elem_of_nil.
  - unfold len. simpl. lia.
Qed.

(** ** Admission either records the command or leaves the queues alone *)

Definition quiet (b b' : Inbox) : Prop :=
  b' = b \/ (submissions b < submissions_per_tick (limits b)
             /\ b' = b <| submissions := submissions b + 1 |>).

(** The sequence has no audit record that already settles it. *)
Definition unsettled (b : Inbox) (c : Cmd) (fp : digest) : Prop :=
  match audit b !! cmd_sequence c with
  | Some r => rec_fingerprint r = fp /\ accepted (rec_admission r) = false
  | None => retired b (cmd_sequence c) = false
  end.

(** What [admit_command] answers without recording the command. *)
Definition settled_answer (b : Inbox) (c : Cmd) (r : result CommandError Admission) : Prop :=
  match r with
  | Ok (Accepted _) | Ok Future => False
  | Ok Duplicate => exists rec n, audit b !! cmd_sequence c = Some rec
      /\ accepted (rec_admission rec) = true /\ fp_of (limits b) c = Ok (rec_fingerprint rec, n)
  | Ok Late | Ok TargetOccupied => exists rec n, audit b !! cmd_sequence c = Some rec
      /\ accepted (rec_admission rec) = false
      /\ fp_of (limits b) c = Ok (rec_fingerprint rec, n)
  | Ok RetiredSequence => audit b !! cmd_sequence c = None /\ retired b (cmd_sequence c) = true
  | Err e => e <> AuditFull
  end.

Lemma check_actions_error rules slots edges e :
  @check_actions I A rules slots edges = Err e -> e = InvalidAction \/ e = DuplicateActionSlot.
Proof.
  revert slots. induction edges as [| edge edges IH]; intros slots; simpl; [done |].
  repeat (case_decide || case_match); intros; simplify_eq; eauto.
Qed.

Lemma fingerprint_error {d} (h : list byte -> d) ser limit e :
  fingerprint h ser limit = Err e -> e = OversizedOrInvalidEncoding.
Proof. unfold fingerprint. repeat case_match; intros; by simplify_eq. Qed.

Ltac refused := simplify_eq; left; split; [by eauto | done].

Lemma admit_cases b authenticated c rules b' r :
  admit_command b authenticated c rules = (b', r) ->
  (quiet b b' /\ settled_answer b c r)
  \/ (exists fp n, fp_of (limits b) c = Ok (fp, n)
      /\ submissions b < submissions_per_tick (limits b)
      /\ unsettled b c fp
      /\ record_admission (b <| submissions := submissions b + 1 |>) c fp = (b', r)).
Proof.
  unfold quiet, unsettled, settled_answer. intros H. unfold Commands.admit_command in H.
  outer_case H; [refused |]. outer_case H; [refused |].
  assert (submissions b < submissions_per_tick (limits b)) by lia. cbv zeta in H.
  set (b1 := b <| submissions := submissions b + 1 |>) in *.
  assert (audit b1 = audit b /\ retired b1 = retired b /\ limits b1 = limits b)
    as (Ea & Er & El) by done. rewrite Ea, Er, El in H.
  assert (b1 = b <| submissions := submissions b + 1 |>) as Eb1 by done. clearbody b1.
  outer_case H; [refused |]. outer_case H; [refused |]. outer_case H; [refused |].
  destruct (check_actions rules ∅ (cmd_actions c)) as [u | e] eqn:Hca;
    [| apply check_actions_error in Hca as [-> | ->]; refused].
  destruct (fp_of (limits b) c) as [[fp len0] | e] eqn:Hfp;
    [| apply fingerprint_error in Hfp as ->; refused].
  destruct (audit b !! cmd_sequence c) as [rec |] eqn:Hrec.
  - outer_case H; [refused |].
    assert (rec_fingerprint rec = fp) as <- by (by apply dec_stable).
    destruct (rec_admission rec) eqn:Hadm; simplify_eq;
      try (left; split; [by eauto | exists rec; eexists; rewrite Hadm; by eauto]);
      right; eexists _, len0; by eauto 8.
  - outer_case H; [refused |]. outer_case H; [refused |]. subst b1. right. eauto 7.
Qed.

Lemma quiet_fields b b' :
  quiet b b' ->
  owner b' = owner b /\ limits b' = limits b /\ finalized b' = finalized b
  /\ pending b' = pending b /\ audit b' = audit b /\ audit_order b' = audit_order b
  /\ retired_sequence b' = retired_sequence b /\ receipts b' = receipts b
  /\ prepared b' = prepared b /\ continuity b' = continuity b
  /\ (submissions b <= submissions_per_tick (limits b) ->
      submissions b' <= submissions_per_tick (limits b)).
Proof. intros [-> | [? ->]]; simpl; split_and!; try done; lia. Qed.

Lemma quiet_wf b b' : quiet b b' -> inbox_wf b -> inbox_wf b'.
Proof.
  intros Hq [W1 W2 W3 W4 W5 W6 W7 W8 W9].
  destruct (quiet_fields b b' Hq) as (Q1&Q2&Q3&Q4&Q5&Q6&Q7&Q8&Q9&Q10&Q11).
  split; rewrite ?Q2, ?Q4, ?Q5, ?Q6, ?Q8, ?Q9; auto.
  - intros t c Hc. destruct (W2 t c Hc). split; by rewrite ?Q2, ?Q3, ?Q5.
  - intros p Hp. destruct (W7 p Hp). split; by rewrite ?Q3, ?Q4.
Qed.

Lemma quiet_inv start l b b' acc fin :
  quiet b b' -> inbox_inv start l b acc fin -> inbox_inv start l b' acc fin.
Proof.
  intros Hq [I1 I2 I3 I4 I5 I6 I7 I8 I9 I10 I11]. pose proof (quiet_wf b b' Hq I1).
  destruct (quiet_fields b b' Hq) as (Q1&Q2&Q3&Q4&Q5&Q6&Q7&Q8&Q9&Q10&Q11).
  split; rewrite ?Q2, ?Q3, ?Q4, ?Q8; auto.
  intros c Hc. specialize (I3 c Hc). unfold recorded, retired in *. by rewrite Q2, Q5, Q7.
Qed.

(** ** Reserving an audit slot *)

Definition retired_at (q : option N) (x : N) : Prop :=
  match q with Some floor => x <= floor | None => False end.

Lemma retired_iff (b : Inbox) x : retired b x = true <-> retired_at (retired_sequence b) x.
Proof.
  unfold retired, retired_at. destruct (retired_sequence b); [| done].
  apply bool_decide_eq_true.
Qed.

(** The audit [m], its order [o] and the retired floor [q] that [reserve_audit] leaves
    for the sequence [s]: at most one record that is not pending is dropped, and it is
    below the new floor. *)
Record reserved (b : Inbox) (s : N) (m : gmap N AuditRecord) (o : list N) (q : option N)
  : Prop := {
  res_sub : m ⊆ audit b;
  res_self : m !! s = audit b !! s;
  res_pending : forall x r, audit b !! x = Some r -> rec_pending r = true -> m !! x = Some r;
  res_nodup : NoDup o;
  res_order : forall x, x ∈ o <-> x = s \/ is_Some (m !! x);
  res_size : forall r, N.of_nat (size (<[s := r]> m)) <= audit_records (limits b);
  res_dropped : forall x r, audit b !! x = Some r -> m !! x = None -> retired_at q x;
  res_floor : forall x, retired_at (retired_sequence b) x -> retired_at q x;
}.

Lemma reserved_present (b : Inbox) s :
  inbox_wf b -> is_Some (audit b !! s) ->
  reserved b s (audit b) (audit_order b) (retired_sequence b).
Proof.
  intros W [r Hr]. destruct W. split; auto; try congruence.
  - intros x. rewrite w_order0. split; [auto | by intros [-> | ?]].
  - intros r'. rewrite map_size_insert_Some by eauto. done.
Qed.

Lemma reserved_fresh (b : Inbox) s :
  inbox_wf b -> audit b !! s = None ->
  N.of_nat (size (audit b)) <> audit_records (limits b) ->
  reserved b s (audit b) (audit_order b ++ [s]) (retired_sequence b).
Proof.
  intros W Hs Hn. destruct W. split; auto; try congruence.
  - apply NoDup_snoc; [done |]. rewrite w_order0, Hs. by intros [].
  - intros x. rewrite elem_of_app, w_order0, list_elem_of_singleton. tauto.
  - intros r'. rewrite map_size_insert_None by done. lia.
Qed.

Lemma reserved_evict (b : Inbox) s i ev rv :
  inbox_wf b -> audit b !! s = None -> audit_order b !! i = Some ev ->
  audit b !! ev = Some rv -> rec_pending rv = false ->
  reserved b s (delete ev (audit b)) (delete i (audit_order b) ++ [s])
    (Some (opt_max (retired_sequence b) ev)).
Proof.
  intros W Hs Hi Hrv Hnp. assert (ev <> s) by congruence. destruct W.
  destruct (NoDup_delete_at _ _ _ w_order_nodup0 Hi) as [Hnd Hdel].
  split.
  - apply delete_subseteq.
  - by rewrite lookup_delete_ne.
  - intros x r Hx Hp. rewrite lookup_delete_ne; [done | congruence].
  - apply NoDup_snoc; [done |]. rewrite Hdel, w_order0, Hs. by intros [[] _].
  - intros x. rewrite elem_of_app, Hdel, w_order0, list_elem_of_singleton.
    destruct (decide (x = ev)) as [-> | Hne].
    + rewrite lookup_delete_eq. split; [naive_solver | intros [? | []]; congruence].
    + rewrite lookup_delete_ne by done. tauto.
  - intros r'. rewrite map_size_insert_None by (by rewrite lookup_delete_ne).
    rewrite map_size_delete_Some by eauto.
    assert (size (audit b) <> 0%nat) 
      by (intros E%map_size_empty_iff; rewrite E in Hrv; simplify_map_eq). lia.
  - intros x r Hx Hd. destruct (decide (x = ev)) as [-> | Hne].
    + simpl. unfold opt_max. case_match; lia.
    + rewrite lookup_delete_ne in Hd by done. congruence.
  - intros x. unfold retired_at, opt_max. case_match; [lia | done].
Qed.

Lemma reserve_audit_cases (b : Inbox) s b' r :
  inbox_wf b -> reserve_audit b s = (b', r) ->
  (b' = b /\ r = Err AuditFull /\ audit b !! s = None
   /\ N.of_nat (size (audit b)) = audit_records (limits b)
   /\ (forall x rec, audit b !! x = Some rec -> rec_pending rec = true))
  \/ (r = Ok tt /\ exists m o q, reserved b s m o q
      /\ b' = b <| audit := m |> <| audit_order := o |> <| retired_sequence := q |>).
Proof.
  intros W H. unfold reserve_audit in H. outer_case H; [| outer_case H].
  - injection H as <- <-. right. split; [done |]. eexists _, _, _.
    split; [by apply reserved_present | by destruct b].
  - assert (audit b !! s = None) by (by apply eq_None_not_Some).
    outer_case H; [destruct p as [i ev] | injection H as <- <-].
    + apply list_find_Some in Heqo as (Hi & Hev & _). unfold evictable in Hev.
      case_match eqn:Hrv; [| done]. apply negb_true_iff in Hev.
      injection H as <- <-. right. split; [done |]. eexists _, _, _.
      split; [by eapply reserved_evict | done].
    + left. split_and!; try done. intros x rec Hx.
      apply list_find_None in Heqo. rewrite Forall_forall in Heqo.
      assert (x ∈ audit_order b) as Hin by (apply (w_order _ W); eauto).
      specialize (Heqo x Hin). unfold evictable in Heqo. rewrite Hx in Heqo.
      by destruct (rec_pending rec).
  - injection H as <- <-. right. split; [done |]. eexists _, _, _.
    split; [apply reserved_fresh; [done | by apply eq_None_not_Some | done] | by destruct b].
Qed.

(** ** Recording an admission *)

(** The inbox after recording [c] with an audit slot reserved. *)
Definition with_record (b : Inbox) (c : Cmd) (fp : digest) m o q : Inbox :=
  let adm := classify b c in
  let b := b <| audit := <[cmd_sequence c := mkAuditRecord fp adm (accepted adm)]> m |>
             <| audit_order := o |> <| retired_sequence := q |> in
  if accepted adm then
    b <| highest_received := Some (opt_max (highest_received b) (cmd_sequence c)) |>
      <| pending := <[cmd_target c := c]> (pending b) |>
  else b.

Lemma record_admission_cases (b : Inbox) c fp b' r :
  inbox_wf b -> record_admission b c fp = (b', r) ->
  (b' = b /\ r = Err AuditFull /\ audit b !! cmd_sequence c = None
   /\ N.of_nat (size (audit b)) = audit_records (limits b)
   /\ (forall x rec, audit b !! x = Some rec -> rec_pending rec = true))
  \/ (exists m o q, reserved b (cmd_sequence c) m o q
      /\ r = Ok (classify b c) /\ b' = with_record b c fp m o q).
Proof.
  intros W H. unfold record_admission in H. cbv zeta in H.
  destruct (reserve_audit b (cmd_sequence c)) as [b1 r1] eqn:Hres.
  destruct (reserve_audit_cases _ _ _ _ W Hres) as [(-> & -> & ? & ? & ?) | (-> & m & o & q & Hm & ->)].
  - left. by simplify_eq.
  - right. exists m, o, q. split; [done |]. unfold with_record.
    destruct (accepted (classify b c)); injection H as <- <-; by split.
Qed.

Lemma classify_accepted (b : Inbox) c :
  inbox_wf b -> accepted (classify b c) = true ->
  cutoff b < cmd_target c /\ finalized b < cmd_target c
  /\ cmd_target c <= finalized b + future_ticks (limits b)
  /\ pending b !! cmd_target c = None.
Proof.
  intros W. unfold classify. repeat case_decide; try done. intros _.
  assert (finalized b <= cutoff b).
  { unfold cutoff. destruct (prepared b) as [p |] eqn:Hp; [| done].
    destruct (w_prepared _ W p Hp). lia. }
  unfold saturating_add in *. split_and!; [lia | lia | lia | by apply eq_None_not_Some].
Qed.

Lemma unsettled_not_pending (b : Inbox) c fp t c' :
  inbox_wf b -> unsettled b c fp -> pending b !! t = Some c' ->
  cmd_sequence c' <> cmd_sequence c.
Proof.
  intros W Hu Hc' Heq. destruct (w_pending _ W t c' Hc') as [_ _ (r & Hr & _ & Ha)].
  rewrite Heq in Hr. unfold unsettled in Hu. rewrite Hr in Hu. destruct Hu. congruence.
Qed.

Lemma with_record_fields (b : Inbox) c fp m o q :
  let b' := with_record b c fp m o q in
  owner b' = owner b /\ limits b' = limits b /\ finalized b' = finalized b
  /\ audit b' = <[cmd_sequence c
       := mkAuditRecord fp (classify b c) (accepted (classify b c))]> m
  /\ audit_order b' = o /\ retired_sequence b' = q /\ receipts b' = receipts b
  /\ prepared b' = prepared b /\ submissions b' = submissions b
  /\ pending b' = if accepted (classify b c) then <[cmd_target c := c]> (pending b) else pending b.
Proof. unfold with_record. by destruct (accepted (classify b c)). Qed.

Lemma with_record_wf (b : Inbox) c fp m o q :
  inbox_wf b -> unsettled b c fp -> reserved b (cmd_sequence c) m o q ->
  inbox_wf (with_record b c fp m o q).
Proof.
  intros W Hu Hres.
  pose proof (unsettled_not_pending b c fp) as Hne. pose proof (classify_accepted b c W) as Hcl.
  destruct (with_record_fields b c fp m o q) as (F1&F2&F3&F4&F5&F6&F7&F8&F9&F10).
  set (b' := with_record b c fp m o q) in *. clearbody b'. destruct (W) as [W1 W2 W3 W4 W5 W6 W7 W8 W9].
  assert (forall t c', pending b !! t = Some c' -> pending_ok b' t c') as Hold.
  { intros t c' Hc'. destruct (W2 t c' Hc') as [P1 P2 (r & Hr & Hp & Ha)]. split; rewrite ?F2, ?F3; try done.
    exists r. rewrite F4, lookup_insert_ne by (symmetry; eauto). eauto using res_pending. }
  split; rewrite ?F2, ?F3, ?F5, ?F7, ?F8, ?F9; eauto using res_nodup.
  - intros t c'. rewrite F10. destruct (accepted (classify b c)) eqn:Hacc; [| eauto].
    rewrite lookup_insert. case_decide as Heq; [| eauto]. intros [= <-].
    destruct (Hcl eq_refl) as (? & ? & ? & ?). split; [done | rewrite F2, F3; lia |].
    eexists. rewrite F4, lookup_insert_eq. done.
  - intros s r. rewrite F4, lookup_insert. case_decide as Heq.
    + intros [= <-] Hp. simpl in Hp. rewrite F10, Hp. exists (cmd_target c), c.
      by rewrite lookup_insert_eq.
    + intros Hr Hp. assert (audit b !! s = Some r) as Hb by (eapply lookup_weaken, res_sub; eauto).
      destruct (W3 s r Hb Hp) as (t & c' & Hc' & Hs). exists t, c'. split; [| done].
      rewrite F10. destruct (accepted (classify b c)) eqn:Hacc; [| done].
      destruct (Hcl eq_refl) as (_ & _ & _ & Hnone). rewrite lookup_insert_ne; congruence.
  - intros s. rewrite (res_order _ _ _ _ _ Hres), F4, lookup_insert.
    case_decide; [| naive_solver]. split; [eauto | by left].
  - rewrite F4. eapply res_size; eauto.
  - intros p Hp. destruct (W7 p Hp) as [P1 P2]. split; [by rewrite F3 |].
    rewrite F10. destruct (accepted (classify b c)) eqn:Hacc; [| done].
    destruct (Hcl eq_refl) as (Hcut & _). unfold cutoff in Hcut. rewrite Hp in Hcut.
    rewrite lookup_insert_ne by lia. done.
Qed.

Lemma with_record_inv start l (b : Inbox) acc fin c fp n m o q :
  inbox_inv start l b acc fin -> unsettled b c fp -> fp_of (limits b) c = Ok (fp, n) ->
  reserved b (cmd_sequence c) m o q ->
  inbox_inv start l (with_record b c fp m o q)
    (acc ++ match classify b c with Accepted _ => [c] | _ => [] end) fin.
Proof.
  intros [I1 I2 I3 I4 I5 I6 I7 I8 I9 I10 I11] Hu Hfp Hres.
  pose proof (with_record_wf b c fp m o q I1 Hu Hres) as W'.
  pose proof (classify_accepted b c I1) as Hcl.
  destruct (with_record_fields b c fp m o q) as (F1&F2&F3&F4&F5&F6&F7&F8&F9&F10).
  set (b' := with_record b c fp m o q) in *. clearbody b'.
  replace (match classify b c with Accepted _ => [c] | _ => [] end)
    with (if accepted (classify b c) then [c] else []) by (by destruct (classify b c)).
  assert (forall c', c' ∈ acc -> cmd_sequence c' <> cmd_sequence c) as Hfresh.
  { intros c' Hc' Heq. specialize (I3 c' Hc'). unfold recorded, unsettled in *. rewrite Heq in I3.
    destruct (audit b !! cmd_sequence c); destruct_and?; congruence. }
  assert (forall c', c' ∈ acc -> recorded b' c') as Hrec.
  { intros c' Hc'. pose proof (I3 c' Hc') as Hr. unfold recorded in *.
    rewrite F4, F2, lookup_insert_ne by (symmetry; auto).
    destruct (m !! cmd_sequence c') as [r |] eqn:Hm.
    - pose proof (lookup_weaken _ _ _ _ Hm (res_sub _ _ _ _ _ Hres)) as Hb. by rewrite Hb in Hr.
    - apply retired_iff. rewrite F6. destruct (audit b !! cmd_sequence c') eqn:Ha.
      + eapply res_dropped; eauto.
      + eapply res_floor; [done |]. by apply retired_iff. }
  destruct (accepted (classify b c)) eqn:Hacc.
  - destruct (Hcl eq_refl) as (_ & _ & _ & Hnone).
    split; rewrite ?F2, ?F3, ?F7; auto.
    + intros c' [Hc' | ->%list_elem_of_singleton]%elem_of_app; [auto |].
      unfold recorded. rewrite F4, lookup_insert_eq, F2. simpl. rewrite Hacc. eauto.
    + rewrite fmap_app. apply NoDup_snoc; [done |].
      intros (c' & Heq & Hc')%list_elem_of_fmap. by apply (Hfresh c').
    + intros t c'. rewrite F10, lookup_insert. case_decide; intros ?; simplify_eq; set_unfold; eauto.
    + intros c' [Hc' | ->%list_elem_of_singleton]%elem_of_app; rewrite F10;
        [| left; by rewrite lookup_insert_eq].
      destruct (I6 c' Hc') as [Hp | ?]; [left | by right].
      rewrite lookup_insert_ne by congruence. done.
    + intros rc s Hrc Hs. destruct (I7 rc s Hrc Hs) as (c' & ? & ?). exists c'. set_unfold. auto.
  - rewrite app_nil_r. split; rewrite ?F2, ?F3, ?F7, ?F10; auto.
Qed.

(** ** Preparing and committing a tick *)

Lemma prepare_cases (b : Inbox) rules b' r :
  prepare_next b rules = (b', r) ->
  b' = b \/ (exists p, r = Ok p /\ prepared b = None /\ prepared_ok b p
             /\ b' = b <| prepared := Some p |>).
Proof.
  intros H. unfold prepare_next in H. outer_case H; [left; congruence |].
  outer_case H; [| left; congruence]. apply checked_add_Some in Heqo0 as [-> _].
  outer_case H; [left; congruence |]. outer_case H.
  - right. injection H as <- <-. eexists. split_and!; try done. split; [done |].
    simpl. by rewrite Heqo0.
  - outer_case H. outer_case H; [left; congruence |]. right. injection H as <- <-. eexists.
    split_and!; try done. split; [done |]. simpl. by rewrite Heqo0.
Qed.

Lemma prepare_inv start l (b : Inbox) acc fin rules b' r :
  inbox_inv start l b acc fin -> prepare_next b rules = (b', r) ->
  inbox_inv start l b' acc fin.
Proof.
  intros [I1 I2 I3 I4 I5 I6 I7 I8 I9 I10 I11] H.
  destruct (prepare_cases b rules b' r H) as [-> | (p & -> & Hn & Hok & ->)]; [done |].
  split; simpl; auto. destruct I1 as [W1 W2 W3 W4 W5 W6 W7 W8 W9].
  split; simpl; auto.
  - intros t c Hc. destruct (W2 t c Hc). by split.
  - intros p' [= <-]. exact Hok.
Qed.

(** The bounded receipt queue. *)
Definition push_receipt (n : N) (rs : list FinalizedReceipt) rc : list FinalizedReceipt :=
  (if decide (len rs = n) then tail rs else rs) ++ [rc].

Lemma commit_cases (b : Inbox) tick b' r :
  commit b tick = (b', r) ->
  (b' = b /\ is_ok r = false)
  \/ (exists p rc, prepared b = Some p /\ prep_tick p = tick /\ r = Ok rc
      /\ rc = mkFinalizedReceipt tick (prep_sequence p)
                (if prep_sequence p is Some _ then Executed else Substituted)
      /\ limits b' = limits b /\ finalized b' = tick /\ prepared b' = None
      /\ pending b' = (if prep_sequence p is Some _ then delete tick (pending b) else pending b)
      /\ audit b' = (if prep_sequence p is Some s
                     then alter (fun r => r <| rec_pending := false |>) s (audit b) else audit b)
      /\ audit_order b' = audit_order b /\ retired_sequence b' = retired_sequence b
      /\ submissions b' = 0
      /\ receipts b' = push_receipt (audit_records (limits b)) (receipts b) rc).
Proof.
  intros H. unfold commit in H. outer_case H; [| left; by simplify_eq].
  outer_case H; [left; by simplify_eq |]. right.
  assert (prep_tick p = tick) by (by apply dec_stable).
  destruct (prep_sequence p) eqn:Hs; cbv zeta in H; simpl in H; injection H as <- <-;
    eexists p, _; rewrite Hs; unfold push_receipt;
    destruct (decide (len (receipts b) = audit_records (limits b))); simpl; split_and!; done.
Qed.

Lemma receipts_bound (rs : list FinalizedReceipt) rc n :
  1 <= n -> len rs <= n -> len (push_receipt n rs rc) <= n.
Proof.
  intros Hn Hl. unfold push_receipt. rewrite len_app, len_cons, len_nil. case_decide; [| lia].
  destruct rs; rewrite ?len_cons in *; simpl; unfold len in *; simpl in *; lia.
Qed.

(** The record of the prepared command is there to be settled: the [expect]s of
    [commit] hold. *)
Lemma prepared_command (b : Inbox) p s :
  inbox_wf b -> prepared b = Some p -> prep_sequence p = Some s ->
  exists c rec, pending b !! prep_tick p = Some c /\ cmd_sequence c = s
    /\ audit b !! s = Some rec /\ rec_pending rec = true
    /\ accepted (rec_admission rec) = true.
Proof.
  intros W Hp Hs. destruct (w_prepared _ W p Hp) as [_ P2]. rewrite Hs in P2.
  destruct (pending b !! prep_tick p) as [c |] eqn:Hc; [| done]. simpl in P2. simplify_eq.
  destruct (w_pending _ W _ c Hc) as [_ _ (rec & ? & ? & ?)]. eauto 8.
Qed.

Lemma commit_wf (b : Inbox) tick b' r :
  inbox_wf b -> (forall t t' c c', pending b !! t = Some c -> pending b !! t' = Some c' ->
                  cmd_sequence c = cmd_sequence c' -> t = t') ->
  commit b tick = (b', r) -> inbox_wf b'.
Proof.
  intros W Hinj H.
  destruct (commit_cases b tick b' r H)
    as [[-> _] | (p & rc & Hp & Ht & -> & Hrc & C1 & C2 & C3 & C4 & C5 & C6 & C7 & C8 & C9)]; [done |].
  pose proof (w_prepared _ W p Hp) as [P1 P2].
  pose proof (fun s => prepared_command b p s W Hp) as Hcmd.
  destruct W as [W1 W2 W3 W4 W5 W6 W7 W8 W9].
  assert (forall t, pending b' !! t = if decide (t = tick) then None else pending b !! t) as Hpend.
  { intros t. rewrite C4. rewrite Ht in P2. destruct (prep_sequence p) eqn:Hs.
    - case_decide as Heq; [by rewrite Heq, lookup_delete_eq | by rewrite lookup_delete_ne].
    - case_decide as Heq; [| done]. rewrite Heq. by destruct (pending b !! tick). }
  assert (forall t c, pending b' !! t = Some c -> audit b' !! cmd_sequence c = audit b !! cmd_sequence c)
    as Haud.
  { intros t c. rewrite Hpend, C5. case_decide as Hne; [done |]. intros Hc.
    destruct (prep_sequence p) as [s |] eqn:Hs; [| done].
    destruct (Hcmd s eq_refl) as (c0 & _ & Hc0 & <- & _). rewrite lookup_alter_ne; [done |].
    intros Heq. apply Hne. rewrite <- Ht. by eapply Hinj. }
  split; rewrite ?C1, ?C6, ?C8; auto.
  - intros t c Hc. pose proof (Haud t c Hc) as Ha. rewrite Hpend in Hc. case_decide; [done |].
    destruct (W2 t c Hc) as [Q1 Q2 Q3]. split; [done | rewrite C1, C2; lia | by rewrite Ha].
  - intros s r. rewrite C5. destruct (prep_sequence p) as [s0 |] eqn:Hs.
    + rewrite lookup_alter. case_decide; [by intros (a & _ & ->)%fmap_Some |].
      intros Hr Hpd. destruct (W3 s r Hr Hpd) as (t & c & Hc & Hsc). exists t, c. split; [| done].
      rewrite Hpend. case_decide; [| done]. subst t. destruct (Hcmd s0 eq_refl) as (c0 & _ & Hc0 & <- & _).
      congruence.
    + intros Hr Hpd. destruct (W3 s r Hr Hpd) as (t & c & Hc & Hsc). exists t, c. split; [| done].
      rewrite Hpend. case_decide; [| done]. subst t. rewrite Ht, Hc in P2. done.
  - intros s. rewrite W5, C5. case_match; [| done]. by rewrite lookup_alter_is_Some.
  - rewrite C5. case_match; [| done]. by rewrite <- size_dom, dom_alter_L, size_dom.
  - intros p' Hp'. congruence.
  - lia.
  - rewrite C9. apply receipts_bound; [destruct W1; lia | done].
Qed.

Lemma pending_sequences_distinct start l (b : Inbox) acc fin t t' c c' :
  inbox_inv start l b acc fin -> pending b !! t = Some c -> pending b !! t' = Some c' ->
  cmd_sequence c = cmd_sequence c' -> t = t'.
Proof.
  intros Hi Hc Hc' Heq. pose proof (i_pending _ _ _ _ _ Hi) as Hin. pose proof (i_nodup _ _ _ _ _ Hi) as Hnd.
  assert (c = c') as -> by (eapply NoDup_fmap_inj; eauto).
  destruct (w_pending _ (i_wf _ _ _ _ _ Hi) t c' Hc). destruct (w_pending _ (i_wf _ _ _ _ _ Hi) t' c' Hc').
  congruence.
Qed.

Lemma executed_by_app fin fin' c : executed_by fin c -> executed_by (fin ++ fin') c.
Proof. intros (rc & ? & ?). exists rc. split; [apply elem_of_app; by left | done]. Qed.

Lemma commit_inv start l (b : Inbox) acc fin tick b' r :
  inbox_inv start l b acc fin -> commit b tick = (b', r) ->
  inbox_inv start l b' acc (fin ++ match r with Ok rc => [rc] | Err _ => [] end).
Proof.
  intros Hi H. pose proof (pending_sequences_distinct start l b acc fin) as Hinj.
  assert (inbox_wf b') as W'.
  { eapply commit_wf; [apply Hi | | exact H]. intros. by eapply Hinj. }
  destruct (commit_cases b tick b' r H)
    as [[-> Hr] | (p & rc & Hp & Ht & -> & Hrc & C1 & C2 & C3 & C4 & C5 & C6 & C7 & C8 & C9)].
  { destruct r; [done |]. by rewrite app_nil_r. }
  pose proof (w_prepared _ (i_wf _ _ _ _ _ Hi) p Hp) as [P1 P2].
  pose proof (fun s => prepared_command b p s (i_wf _ _ _ _ _ Hi) Hp) as Hcmd.
  destruct Hi as [I1 I2 I3 I4 I5 I6 I7 I8 I9 I10 I11].
  split; auto.
  - congruence.
  - intros c Hc. specialize (I3 c Hc). unfold recorded, retired in *. rewrite C1, C5, C7.
    destruct (prep_sequence p) as [s |]; [| done]. rewrite lookup_alter. case_decide; [| done].
    subst s. by destruct (audit b !! cmd_sequence c) as [[] |]; simpl in *.
  - intros t c. rewrite C4. destruct (prep_sequence p); [| apply I5].
    intros [_ Hc]%lookup_delete_Some. by apply (I5 t).
  - intros c Hc. destruct (I6 c Hc) as [Hpc | ?]; [| right; by apply executed_by_app].
    destruct (decide (cmd_target c = tick)) as [Heq | Hne].
    + right. exists rc. rewrite Heq in Hpc. rewrite Ht, Hpc in P2. subst rc.
      split; [apply elem_of_app; right; by apply list_elem_of_singleton | by simpl].
    + left. rewrite C4. destruct (prep_sequence p); [by rewrite lookup_delete_ne | done].
  - intros rc' s [Hin | ->%list_elem_of_singleton]%elem_of_app Hs; [by eapply I7 |].
    subst rc. simpl in *. destruct (Hcmd s Hs) as (c & _ & Hc & Hsc & _). exists c.
    destruct (w_pending _ I1 _ c Hc). split_and!; [by eapply I5 | done | congruence].
  - rewrite fmap_app, length_app, Nat.add_1_r, ticks_after_snoc, I8. subst rc. simpl.
    do 2 f_equal. unfold len in I9. lia.
  - rewrite C2, len_app, len_cons, len_nil. lia.
  - apply Forall_app. split; [done |]. apply Forall_singleton. by subst rc.
  - rewrite C9. unfold push_receipt. 
    destruct (decide _); [apply suffix_tail in I11 |]; destruct I11 as [k ->];
      exists k; by rewrite app_assoc.
Qed.

(** Every run keeps the invariant. *)
Lemma runs_inv start l b acc fin :
  runs start l b acc fin -> inbox_inv start l b acc fin.
Proof.
  induction 1 as [o b Hn | b acc fin au c rules b' r _ IH Ha
                 | b acc fin rules b' r _ IH Hp | b acc fin tick b' r _ IH Hc].
  - by apply inbox_new_inv in Hn.
  - destruct (admit_cases b au c rules b' r Ha) as [[Hq Hs] | (fp & n & Hfp & Hlt & Hu & Hr)].
    + replace (match r with Ok (Accepted _) => [c] | _ => [] end) with (@nil Cmd)
        by (destruct r as [[] |]; done).
      rewrite app_nil_r. by eapply quiet_inv.
    + set (b1 := b <| submissions := submissions b + 1 |>) in *.
      assert (inbox_inv start l b1 acc fin) as IH1.
      { eapply quiet_inv; [| exact IH]. right. by split. }
      destruct (record_admission_cases b1 c fp b' r (i_wf _ _ _ _ _ IH1) Hr)
        as [(-> & -> & _) | (m & o & q & Hres & -> & ->)].
      * by rewrite app_nil_r.
      * by eapply with_record_inv.
  - by eapply prepare_inv.
  - by eapply commit_inv.
Qed.

(** The record of a prepared command is retained, and still pending, until the command is committed. *)
Lemma prepared_audited start l (b : Inbox) acc fin p seq :
  runs start l b acc fin -> prepared b = Some p -> prep_sequence p = Some seq ->
  exists r, audit b !! seq = Some r /\ rec_pending r = true.
Proof.
  intros Hwf%runs_inv%i_wf Hp Hseq. destruct (w_prepared b Hwf p Hp) as [_ Hpending]. rewrite Hpending in Hseq.
  apply fmap_Some in Hseq as (c & Hc & ->). destruct (po_audit _ _ _ (w_pending b Hwf _ _ Hc)) as (r & ? & ? & _). eauto.
Qed.

(** ** Fingerprints measure the encoding *)

Lemma write_all_spec w chunks :
  write_all w chunks
  = if decide (len (concat chunks) <= fw_limit w - fw_length w) then
      Some (mkFingerprintWriter (hashed w ++ concat chunks)
              (fw_length w + len (concat chunks)) (fw_limit w))
    else None.
Proof.
  revert w. induction chunks as [| chunk chunks IH]; intros w; simpl.
  { rewrite len_nil, decide_True, app_nil_r, N.add_0_r by lia. by destruct w. }
  unfold write, saturating_sub. rewrite len_app.
  destruct (decide (_ < len chunk)); [by rewrite decide_False by lia |].
  rewrite IH. simpl. rewrite <- app_assoc, N.add_assoc.
  repeat case_decide; done || lia.
Qed.

(** The encoded size of a command, when it can be serialized. *)
Definition encoded (c : Cmd) : option N := (fun chunks => len (concat chunks)) <$> bincode c.

Lemma fingerprint_Ok c limit fp n :
  fingerprint blake3 (bincode c) limit = Ok (fp, n) -> encoded c = Some n /\ n <= limit.
Proof.
  unfold fingerprint, encoded. destruct (bincode c) as [chunks |]; [| done].
  rewrite write_all_spec. simpl. case_decide; intros; simplify_eq/=. split; [f_equal |]; lia.
Qed.

Lemma fingerprint_fits c limit n :
  encoded c = Some n -> n <= limit -> exists fp, fingerprint blake3 (bincode c) limit = Ok (fp, n).
Proof.
  unfold fingerprint, encoded. destruct (bincode c) as [chunks |]; [| done]. simpl.
  intros [= <-] Hn. rewrite write_all_spec. simpl. rewrite decide_True by lia.
  rewrite N.add_0_l. eauto.
Qed.

(** ** Packing *)

(** Total encoded size of a bundle. *)
Definition encoded_sum (cs : list Cmd) : N :=
  foldr (fun c n => default 0 (encoded c) + n) 0 cs.

Lemma encoded_sum_app cs ds : encoded_sum (cs ++ ds) = encoded_sum cs + encoded_sum ds.
Proof. induction cs; simpl; [lia |]. rewrite IHcs. lia. Qed.

(** What the loop adds after [acc]: a subsequence of the older records of the same owner
    with new sequences, within the record count and the remaining bytes. *)
Lemma pack_older_spec newest max_records older seen remaining acc :
  len acc <= max_records ->
  (forall c, c ∈ acc -> (os_stream (cmd_owner c), cmd_sequence c) ∈ seen) ->
  Forall (fun c => cmd_owner c = cmd_owner newest) acc -> NoDup (cmd_sequence <$> acc) ->
  exists rest, pack_older blake3 bincode newest max_records older seen remaining acc = acc ++ rest
    /\ rest `sublist_of` older /\ len (acc ++ rest) <= max_records
    /\ Forall (fun c => cmd_owner c = cmd_owner newest) (acc ++ rest)
    /\ NoDup (cmd_sequence <$> acc ++ rest) /\ encoded_sum rest <= remaining.
Proof.
  revert seen remaining acc. induction older as [| c older IH]; intros seen remaining acc Hl Hs Ho Hn.
  { exists []. rewrite app_nil_r. simpl. split_and!; done || lia. }
  simpl. case_decide.
  { exists []. rewrite app_nil_r. split_and!; try done; [by apply sublist_nil_l | simpl; lia]. }
  assert (forall seen', seen ⊆ seen' -> exists rest,
    pack_older blake3 bincode newest max_records older seen' remaining acc = acc ++ rest
    /\ rest `sublist_of` c :: older /\ len (acc ++ rest) <= max_records
    /\ Forall (fun c => cmd_owner c = cmd_owner newest) (acc ++ rest)
    /\ NoDup (cmd_sequence <$> acc ++ rest) /\ encoded_sum rest <= remaining) as Hskip.
  { intros seen' Hsub. destruct (IH seen' remaining acc) as (rest & ? & ? & ?); eauto.
    exists rest. split_and!; try naive_solver. by apply sublist_cons. }
  case_decide as Hown; [by apply Hskip |].
  case_decide as Hseen; [by apply Hskip |].
  destruct (fingerprint blake3 (bincode c) remaining) as [[fp n] | e] eqn:Hfp;
    [| apply Hskip; set_solver].
  apply fingerprint_Ok in Hfp as [Henc Hle].
  destruct (IH ({[(os_stream (cmd_owner c), cmd_sequence c)]} ∪ seen) (remaining - n) (acc ++ [c]))
    as (rest & -> & R2 & R3 & R4 & R5 & R6).
  - rewrite len_app, len_cons, len_nil. lia.
  - intros c' [Hc' | ->%list_elem_of_singleton]%elem_of_app; set_solver.
  - apply Forall_app. split; [done |]. by apply Forall_singleton.
  - rewrite fmap_app. apply NoDup_snoc; [done |].
    intros (c' & Heq & Hc')%list_elem_of_fmap. apply Hseen.
    rewrite Forall_forall in Ho. rewrite Hown, <- (Ho c' Hc'), Heq. by apply Hs.
  - exists (c :: rest). rewrite <- app_assoc in *. simpl in *. rewrite Henc. simpl.
    split_and!; try done; [by apply sublist_skip | lia].
Qed.

(** ** Consequences of the invariant *)

Lemma receipt_tick_le start l (b : Inbox) acc fin rc :
  inbox_inv start l b acc fin -> rc ∈ fin -> receipt_tick rc <= finalized b.
Proof.
  intros Hi Hrc. assert (receipt_tick rc ∈ receipt_tick <$> fin) as Ht.
  { apply list_elem_of_fmap. eauto. }
  rewrite (i_ticks _ _ _ _ _ Hi), elem_of_ticks_after in Ht.
  rewrite (i_final _ _ _ _ _ Hi). unfold len. lia.
Qed.

Lemma executed_iff_finalized start l (b : Inbox) acc fin c :
  inbox_inv start l b acc fin -> c ∈ acc ->
  executed_by fin c <-> cmd_target c <= finalized b.
Proof.
  intros Hi Hc. split.
  - intros (rc & Hrc & _ & <-). by eapply receipt_tick_le.
  - intros Hle. destruct (i_kept _ _ _ _ _ Hi c Hc) as [Hp | ?]; [| done].
    destruct (w_pending _ (i_wf _ _ _ _ _ Hi) _ c Hp). lia.
Qed.

Lemma executed_NoDup start l (b : Inbox) acc fin :
  inbox_inv start l b acc fin -> NoDup (omap receipt_sequence fin).
Proof.
  intros Hi. assert (NoDup (receipt_tick <$> fin)) as Hnd.
  { rewrite (i_ticks _ _ _ _ _ Hi). apply NoDup_ticks_after. }
  apply omap_NoDup; [by apply NoDup_fmap_1 in Hnd |].
  intros x y s Hx Hy Hsx Hsy.
  destruct (i_executed _ _ _ _ _ Hi x s Hx Hsx) as (c & Hc & Hcs & Hct).
  destruct (i_executed _ _ _ _ _ Hi y s Hy Hsy) as (c' & Hc' & Hcs' & Hct').
  assert (c = c') as <-.
  { eapply NoDup_fmap_inj; [exact (i_nodup _ _ _ _ _ Hi) | done | done | congruence]. }
  eapply NoDup_fmap_inj; [exact Hnd | done | done | congruence].
Qed.

(** Where every audit record is pending, every tick of the window is taken. *)
Lemma all_pending_window_full start l (b : Inbox) acc fin t :
  inbox_inv start l b acc fin ->
  N.of_nat (size (audit b)) = audit_records (limits b) ->
  (forall x rec, audit b !! x = Some rec -> rec_pending rec = true) ->
  finalized b < t <= finalized b + future_ticks (limits b) ->
  is_Some (pending b !! t).
Proof.
  intros Hi Hsize Hall Ht. pose proof (i_wf _ _ _ _ _ Hi) as W.
  pose proof (w_limits _ W) as [[Hl1 Hl2] Hl3].
  apply (map_window_full (pending b) (finalized b) (N.to_nat (future_ticks (limits b)))).
  - intros u c Hc. destruct (w_pending _ W u c Hc). lia.
  - assert (size (audit b) <= size (pending b))%nat; [| lia].
    rewrite <- (size_dom (audit b)), <- (length_map_to_list (pending b)).
    rewrite <- (length_fmap (fun p => cmd_sequence p.2)).
    etransitivity; [| apply size_list_to_set_le].
    apply subseteq_size. intros s [rec Hs]%elem_of_dom.
    destruct (w_audit _ W s rec Hs (Hall s rec Hs)) as (u & c & Hc & <-).
    apply elem_of_list_to_set, list_elem_of_fmap. exists (u, c). split; [done |].
    by apply elem_of_map_to_list.
  - lia.
Qed.
End facts.
