(* ===== verification/CommandsProps.v ===== *)
(** * Properties of command admission

    The theorems about the command inbox and the bundle packer, each over every run of
    the inbox: exactly-once execution at the target tick, idempotent redelivery,
    bounded retention, admission that capacity cannot starve, the missing-input grace
    policy, and the contents of redundant bundles. *)

From S2P Require Import Prelude Types Codec Commands CommandsFacts.
Local Open Scope N_scope.
Local Open Scope engine_scope.

Section props.
Context {I A digest : Type} `{!EqDecision digest}.
Context (blake3 : list byte -> digest) (bincode : Command I A -> option (list (list byte))).

Abbreviation Inbox := (@CommandInbox I A digest).
Abbreviation Cmd := (Command I A).

(** C1 Exactly-once execution. In every run of an inbox, the receipts finalize
    consecutive ticks from the initial one; an accepted command has been executed
    exactly when its own target tick is finalized, and then at that tick; every
    executed receipt comes from an accepted command; no sequence is accepted twice
    and none is executed twice. *)
Theorem commands_execute_exactly_once start l (b : Inbox) acc fin :
  runs blake3 bincode start l b acc fin ->
  receipt_tick <$> fin = ticks_after start (length fin)
  /\ finalized b = start + len fin
  /\ (forall c, c ∈ acc -> executed_by fin c <-> cmd_target c <= finalized b)
  /\ (forall rc s, rc ∈ fin -> receipt_sequence rc = Some s ->
        exists c, c ∈ acc /\ cmd_sequence c = s /\ cmd_target c = receipt_tick rc)
  /\ NoDup (cmd_sequence <$> acc) /\ NoDup (omap receipt_sequence fin).
Proof.
  intros Hi%runs_inv. split_and!; try apply Hi.
  - intros c Hc. by eapply executed_iff_finalized.
  - by eapply executed_NoDup.
Qed.

(** C25 Redelivery is idempotent and commands are immutable. Once a command has been
    accepted, submitting any command with the same sequence, identical or altered and
    under any rules, never queues, retargets or re-executes anything: the inbox is
    unchanged except for the submission count, and the answer is [Duplicate] (then the
    fingerprints agree), [RetiredSequence] or an error. *)
Theorem redelivery_is_idempotent start l (b : Inbox) acc fin c c' authenticated rules b' r :
  runs blake3 bincode start l b acc fin -> c ∈ acc -> cmd_sequence c' = cmd_sequence c ->
  admit_command blake3 bincode b authenticated c' rules = (b', r) ->
  quiet b b'
  /\ match r with
     | Ok Duplicate => exists fp n n',
         fingerprint blake3 (bincode c) (max_command_bytes l) = Ok (fp, n)
         /\ fingerprint blake3 (bincode c') (max_command_bytes l) = Ok (fp, n')
     | Ok RetiredSequence | Err _ => True
     | _ => False
     end.
Proof.
  intros Hi%runs_inv Hc Hs Ha. pose proof (i_recorded _ _ _ _ _ _ _ Hi c Hc) as Hr.
  unfold recorded in Hr. rewrite (i_limits _ _ _ _ _ _ _ Hi) in Hr.
  destruct (admit_cases _ _ _ _ _ _ _ _ Ha) as [[Hq Hset] | (fp & n & _ & _ & Hu & _)].
  - split; [done |]. unfold settled_answer in Hset.
    rewrite Hs, (i_limits _ _ _ _ _ _ _ Hi) in Hset.
    destruct r as [[] |]; try done.
    + destruct Hset as (rec & n & Hrec & _ & Hfp). rewrite Hrec in Hr.
      destruct Hr as [_ [m Hm]]. eauto.
    + destruct Hset as (rec & n & Hrec & Hna & _). rewrite Hrec in Hr. destruct Hr. congruence.
    + destruct Hset as (rec & n & Hrec & Hna & _). rewrite Hrec in Hr. destruct Hr. congruence.
  - exfalso. unfold unsettled in Hu. rewrite Hs in Hu.
    destruct (audit b !! cmd_sequence c); destruct_and?; congruence.
Qed.

(** Everything an inbox retains is bounded in every run: pending commands by the
    admission window (at most twelve), audit records and receipts by [audit_records],
    submissions per tick by their limit; and the retained receipts are the latest. *)
Theorem retained_state_bounded start l (b : Inbox) acc fin :
  runs blake3 bincode start l b acc fin ->
  N.of_nat (size (pending b)) <= future_ticks l /\ future_ticks l <= 12
  /\ N.of_nat (size (audit b)) <= audit_records l /\ len (receipts b) <= audit_records l
  /\ submissions b <= submissions_per_tick l /\ receipts b `suffix_of` fin.
Proof.
  intros Hi%runs_inv. pose proof (i_wf _ _ _ _ _ _ _ Hi) as W.
  rewrite <- (i_limits _ _ _ _ _ _ _ Hi). destruct (w_limits _ W) as [[? ?] ?].
  split_and!; try apply W; try apply Hi; try done.
  assert (size (pending b) <= N.to_nat (future_ticks (limits b)))%nat; [| lia].
  apply (map_window_size _ (finalized b)). intros t c Hc. destruct (w_pending _ W t c Hc). lia.
Qed.

(** Audit capacity never costs an admissible command: in every run, the audit is
    reported full only for a command that is late, too early or aimed at an occupied
    tick; a command that could be queued is never refused for lack of audit space. *)
Theorem audit_full_refuses_no_admissible start l (b : Inbox) acc fin authenticated c rules b' :
  runs blake3 bincode start l b acc fin ->
  admit_command blake3 bincode b authenticated c rules = (b', Err AuditFull) ->
  accepted (classify b c) = false /\ quiet b b'.
Proof.
  intros Hi%runs_inv Ha.
  destruct (admit_cases _ _ _ _ _ _ _ _ Ha) as [[Hq Hset] | (fp & n & _ & Hlt & _ & Hr)].
  - done.
  - set (b1 := b <| submissions := submissions b + 1 |>) in *.
    assert (quiet b b1) as Hq by (right; by split).
    pose proof (quiet_inv blake3 bincode _ _ _ _ _ _ Hq Hi) as Hi1.
    destruct (record_admission_cases _ _ _ _ _ (i_wf _ _ _ _ _ _ _ Hi1) Hr)
      as [(-> & _ & _ & Hsize & Hall) | (m & o & q & _ & ? & _)]; [| done].
    split; [| done]. destruct (accepted (classify b c)) eqn:Hacc; [| done]. exfalso.
    destruct (classify_accepted b c (i_wf _ _ _ _ _ _ _ Hi) Hacc) as (_ & Hgt & Hle & Hnone).
    destruct (all_pending_window_full _ _ _ _ _ _ _ (cmd_target c) Hi1 Hsize Hall) as [c' Hc'];
      [simpl; lia |]. simpl in Hc'. congruence.
Qed.

(** One simulation tick with no failure in between: prepare, then commit. *)
Definition advance (b : Inbox) (rules : CommandRules I A) : Inbox * option (@PreparedInput I A) :=
  match prepare_next b rules with
  | (b, Ok p) => ((commit b (prep_tick p)).1, Some p)
  | (b, Err _) => (b, None)
  end.

Fixpoint advance_n (n : nat) (b : Inbox) (rules : CommandRules I A) : list (@PreparedInput I A) :=
  match n with
  | O => []
  | S n => match advance b rules with
           | (b, Some p) => p :: advance_n n b rules
           | (_, None) => []
           end
  end.

Lemma advance_missing (b : Inbox) (rules : CommandRules I A) x :
  prepared b = None -> pending b = ∅ -> last_input (continuity b) = Some x ->
  finalized b < u64_max -> (forall t, owns_at (owner b) t = true) ->
  valid_input (held_input x) = true -> valid_input neutral_input = true ->
  exists b' p, advance b rules = (b', Some p)
    /\ prep_tick p = finalized b + 1 /\ prep_sequence p = None /\ prep_actions p = []
    /\ prep_input p = (if decide (saturating_add u32_max (missing_streak (continuity b)) 1
                                  <= held_grace_ticks (limits b))
                       then held_input x else neutral_input)
    /\ prepared b' = None /\ pending b' = ∅ /\ last_input (continuity b') = Some x
    /\ missing_streak (continuity b') = saturating_add u32_max (missing_streak (continuity b)) 1
    /\ finalized b' = finalized b + 1 /\ owner b' = owner b /\ limits b' = limits b.
Proof.
  intros Hp He Hx Hf Ho Hv1 Hv2. unfold advance, prepare_next.
  rewrite Hp. unfold checked_next.
  rewrite (proj2 (checked_add_Some _ _ _ (finalized b + 1))) by lia.
  rewrite Ho, He, lookup_empty. unfold substitute. rewrite Hx. simpl.
  set (g := decide (_ <= held_grace_ticks (limits b))).
  replace (valid_input (if g then held_input x else neutral_input)) with true by (by destruct g).
  simpl. unfold commit. simpl. rewrite decide_False by (intros H; by apply H). simpl.
  destruct (decide (len (receipts b) = _)); simpl; eexists _, _; (split; [done |]); simpl;
    split_and!; done.
Qed.

(** The missing-input grace policy. From a committed input [x] (or any later streak
    of missing inputs), an inbox that receives nothing still prepares one substitute
    per tick: while the streak is within [held_grace_ticks] the held form of the last
    committed input, never a substitute of a substitute, and afterwards the neutral
    input; a substitute has no command sequence and repeats no action edge. *)
Theorem missing_input_grace n (b : Inbox) (rules : CommandRules I A) x :
  prepared b = None -> pending b = ∅ -> last_input (continuity b) = Some x ->
  finalized b + N.of_nat n <= u64_max -> held_grace_ticks (limits b) <= u8_max ->
  (forall t, owns_at (owner b) t = true) ->
  valid_input (held_input x) = true -> valid_input neutral_input = true ->
  prep_input <$> advance_n n b rules
  = (fun i => if decide (missing_streak (continuity b) + N.of_nat i < held_grace_ticks (limits b))
              then held_input x else neutral_input) <$> seq 0 n
  /\ prep_tick <$> advance_n n b rules = ticks_after (finalized b) n
  /\ Forall (fun p => prep_sequence p = None /\ prep_actions p = []) (advance_n n b rules).
Proof.
  revert b. induction n as [| n IH]; intros b Hp He Hx Hf Hg Ho Hv1 Hv2; [done |].
  destruct (advance_missing b rules x) as (b' & p & Ha & P1 & P2 & P3 & P4 & B1 & B2 & B3 & B4 & B5 & B6 & B7);
    try done; [lia |].
  destruct (IH b') as (R1 & R2 & R3); rewrite ?B5, ?B6, ?B7; try done; [lia |].
  cbn [advance_n seq]. rewrite Ha, ticks_after_S, <- (fmap_S_seq 0), !fmap_cons, R1, R2, B4, B5, B7, P1, P4.
  split_and!; [| done | by constructor]. unfold saturating_add, u32_max, u8_max in *. f_equal.
  - repeat case_decide; done || lia.
  - rewrite <- list_fmap_compose. apply list_fmap_ext. intros i y _. simpl.
    repeat case_decide; done || lia.
Qed.

(** Redundant bundles. A bundle starts with the complete newest command; the rest is a
    subsequence of the older records of the same owner stream with distinct sequences;
    it has at most the requested number of records and its encoding with the length
    prefix fits the payload budget. Packing succeeds exactly when the newest record
    alone fits. *)
Theorem pack_redundant_correct newest older max_records budget :
  1 <= max_records <= 8 ->
  match pack_redundant blake3 bincode newest older max_records budget with
  | Ok bundle => exists rest, bundle = newest :: rest /\ rest `sublist_of` older
      /\ len bundle <= max_records
      /\ Forall (fun c => cmd_owner c = cmd_owner newest) bundle
      /\ NoDup (cmd_sequence <$> bundle)
      /\ 8 + encoded_sum bincode bundle <= budget
  | Err e => e = NewestDoesNotFit
      /\ forall n, encoded bincode newest = Some n -> budget < 8 + n
  end.
Proof.
  intros Hm. unfold pack_redundant. rewrite decide_False by tauto.
  destruct (fingerprint blake3 (bincode newest) budget) as [[fp n] | e] eqn:Hfp; cycle 1.
  { split; [done |]. intros n Hn. destruct (decide (n <= budget)) as [Hle |]; [| lia].
    destruct (fingerprint_fits blake3 bincode newest budget n Hn Hle) as [fp Hok]. congruence. }
  apply fingerprint_Ok in Hfp as [Hn Hle]. unfold checked_sub.
  case_decide; [| split; [done |]; intros; simplify_eq; lia].
  case_decide; [| split; [done |]; intros; simplify_eq; lia].
  destruct (pack_older_spec blake3 bincode newest max_records older
    {[(os_stream (cmd_owner newest), cmd_sequence newest)]} (budget - 8 - n) [newest])
    as (rest & -> & R2 & R3 & R4 & R5 & R6).
  - rewrite len_cons, len_nil. lia.
  - intros c ->%list_elem_of_singleton. set_solver.
  - by apply Forall_singleton.
  - apply NoDup_singleton.
  - exists rest. split_and!; try done. simpl. rewrite Hn. simpl. lia.
Qed.
End props.

(** ** A concrete run *)

Module Demo.

Definition owner : OwnerStream := mkOwnerStream 7 1 1 (mkEntityId 17 1) 1.
Definition rules : CommandRules N N := {|
  owns_at := fun _ _ => true;
  valid_input := fun i => bool_decide (i <= 100);
  valid_action := fun _ => true;
  held_input := fun i => i - 1;
  neutral_input := 0;
|}.
Definition hash (bytes : list byte) : list byte := bytes.
Definition encode (c : Command N N) : option (list (list byte)) :=
  Some [to_le_bytes 8 (cmd_sequence c); to_le_bytes 8 (cmd_target c); to_le_bytes 8 (cmd_input c)].
Definition command (s t i : N) : Command N N := mkCommand owner s t i [mkActionEdge 0 1].

Definition start : @CommandInbox N N (list byte) :=
  mkCommandInbox owner CommandLimits_default 0 ∅ ∅ [] None None 0 [] None InputContinuity_default 0.
(** Command 1 for tick 2 is admitted, then three ticks run. *)
Definition queued := (admit_command hash encode start 7 (command 1 2 50) rules).1.
Definition after (n : nat) := Nat.iter n (fun b => (advance b rules).1) queued.

Lemma start_runs : runs hash encode 0 CommandLimits_default start [] [].
Proof. by apply (runs_new _ _ _ _ owner). Qed.

Lemma queued_runs : runs hash encode 0 CommandLimits_default queued [command 1 2 50] [].
Proof.
  apply (runs_admit hash encode 0 CommandLimits_default start [] [] 7 (command 1 2 50) rules
           queued (Ok (Accepted 2))); [exact start_runs | by vm_compute].
Qed.

Lemma advance_runs b acc fin :
  runs hash encode 0 CommandLimits_default b acc fin ->
  exists fin', runs hash encode 0 CommandLimits_default (advance b rules).1 acc (fin ++ fin').
Proof.
  intros Hr. unfold advance. destruct (prepare_next b rules) as [b1 r] eqn:Hp.
  pose proof (runs_prepare _ _ _ _ _ _ _ _ _ _ Hr Hp) as Hr1.
  destruct r as [p | e]; [| exists []; by rewrite app_nil_r].
  destruct (commit b1 (prep_tick p)) as [b2 r] eqn:Hc. eexists.
  exact (runs_commit _ _ _ _ _ _ _ _ _ _ Hr1 Hc).
Qed.

Lemma after_runs n : exists fin, runs hash encode 0 CommandLimits_default (after n) [command 1 2 50] fin.
Proof.
  induction n as [| n [fin IH]]; [exists []; exact queued_runs |].
  destruct (advance_runs _ _ _ IH) as [fin' H]. eauto.
Qed.

End Demo.

Lemma commands_execute_exactly_once_witness :
  exists fin, runs Demo.hash Demo.encode 0 CommandLimits_default (Demo.after 3) [Demo.command 1 2 50] fin
    /\ executed_by fin (Demo.command 1 2 50) /\ receipt_tick <$> fin = [1; 2; 3].
Proof.
  destruct (Demo.after_runs 3) as [fin Hr]. exists fin. split; [done |].
  destruct (commands_execute_exactly_once Demo.hash Demo.encode 0 _ _ _ _ Hr)
    as (Ht & Hf & He & _).
  assert (finalized (Demo.after 3) = 3) as E by (vm_compute; reflexivity).
  rewrite E in Hf, He. split.
  - apply He; [by left | vm_compute; done].
  - rewrite Ht. assert (length fin = 3%nat) as -> by (unfold len in Hf; lia). reflexivity.
Defined.

Lemma redelivery_is_idempotent_witness :
  (admit_command Demo.hash Demo.encode (Demo.after 3) 7 (Demo.command 1 2 50) Demo.rules).2 = Ok Duplicate
  /\ (admit_command Demo.hash Demo.encode (Demo.after 3) 7 (Demo.command 1 9 50) Demo.rules).2 = Err Equivocation
  /\ quiet (Demo.after 3) (admit_command Demo.hash Demo.encode (Demo.after 3) 7 (Demo.command 1 9 50) Demo.rules).1.
Proof.
  split; [vm_compute; reflexivity |]. split; [vm_compute; reflexivity |].
  destruct (Demo.after_runs 3) as [fin Hr].
  eapply (redelivery_is_idempotent Demo.hash Demo.encode _ _ _ _ _ (Demo.command 1 2 50)
            (Demo.command 1 9 50) 7 Demo.rules);
    [exact Hr | by left | reflexivity | apply surjective_pairing].
Defined.

Lemma retained_state_bounded_witness :
  size (pending Demo.queued) = 1%nat /\ N.of_nat (size (pending Demo.queued)) <= 12.
Proof.
  split; [vm_compute; reflexivity |].
  apply (retained_state_bounded Demo.hash Demo.encode 0 CommandLimits_default _ _ _ Demo.queued_runs).
Defined.

(** One audit record for a one-tick window: the second command finds it full. *)
Definition tight_limits : CommandLimits := mkCommandLimits 1 3 1 256 2048 64.
Definition tight : @CommandInbox N N (list byte) :=
  mkCommandInbox Demo.owner tight_limits 0 ∅ ∅ [] None None 0 [] None InputContinuity_default 0.

Lemma audit_full_refuses_no_admissible_witness :
  let b := (admit_command Demo.hash Demo.encode tight 7 (Demo.command 1 1 50) Demo.rules).1 in
  (admit_command Demo.hash Demo.encode b 7 (Demo.command 2 2 50) Demo.rules).2 = Err AuditFull
  /\ accepted (classify b (Demo.command 2 2 50)) = false.
Proof.
  split; [vm_compute; reflexivity |].
  eapply (audit_full_refuses_no_admissible Demo.hash Demo.encode 0 tight_limits _ _ _ 7
            (Demo.command 2 2 50) Demo.rules).
  - eapply (runs_admit _ _ _ _ tight [] []); [by apply (runs_new _ _ _ _ Demo.owner) |].
    apply surjective_pairing.
  - apply injective_projections; vm_compute; reflexivity.
Defined.

Lemma missing_input_grace_witness :
  prep_input <$> advance_n 5 (Demo.after 2) Demo.rules = [49; 49; 49; 0; 0].
Proof.
  etransitivity; [apply (missing_input_grace 5 (Demo.after 2) Demo.rules 50); by vm_compute |].
  vm_compute. reflexivity.
Defined.

Lemma pack_redundant_correct_witness :
  pack_redundant Demo.hash Demo.encode (Demo.command 3 3 1) [Demo.command 2 2 1; Demo.command 1 1 1] 4 60
  = Ok [Demo.command 3 3 1; Demo.command 2 2 1]
  /\ 8 + encoded_sum Demo.encode [Demo.command 3 3 1; Demo.command 2 2 1] <= 60.
Proof.
  split; [vm_compute; reflexivity |].
  pose proof (pack_redundant_correct Demo.hash Demo.encode (Demo.command 3 3 1)
    [Demo.command 2 2 1; Demo.command 1 1 1] 4 60 ltac:(lia)) as H.
  destruct (pack_redundant _ _ _ _ _ _) as [bundle | e] eqn:E; vm_compute in E; [| done].
  injection E as <-. destruct H as (rest & _ & _ & _ & _ & _ & H). exact H.
Defined.
