(* ===== verification/Delivery.v ===== *)
(** * Bounded delivery receipts

    Models [engine/net/src/delivery.rs]: the window of issued batch endpoints that
    awaits exact acknowledgements. The endpoint type is any type with a decidable
    total order ([T: Copy + Ord]). *)

From S2P Require Import Prelude.
Local Open Scope N_scope.
Local Open Scope engine_scope.

(** [Ord]: what the window needs of its endpoints. *)
Class Endpoint (T : Type) := {
  endpoint_eq :: EqDecision T;
  le : T -> T -> Prop;
  le_dec :: forall x y, Decision (le x y);
  le_order :: TotalOrder le;
}.

#[export] Instance Endpoint_N : Endpoint N.
Proof.
  unshelve refine {| le := N.le |}; try apply _.
  split; [split; [split; [intros x; lia | intros x y z; lia] | intros x y; lia] |].
  intros x y. unfold strict. destruct (N.lt_trichotomy x y) as [|[|]]; [left | right; left | right; right]; lia.
Defined.

Section window.
Context {T : Type} `{!Endpoint T}.

Inductive ReceiptWindowError := Invalid | Full | Unissued.

Record ReceiptWindow := mkReceiptWindow {
  acknowledged : T;
  issued : list T;
  limit : N;
}.
#[export] Instance eta_ReceiptWindow : Eta ReceiptWindow := fun r =>
  mkReceiptWindow (acknowledged r) (issued r) (limit r).

Definition ReceiptWindow_new (initial : T) (n : N) : result ReceiptWindowError ReceiptWindow :=
  if decide (n = 0) then Err Invalid else Ok (mkReceiptWindow initial [] n).

Definition is_full (w : ReceiptWindow) : bool := bool_decide (len (issued w) = limit w).

Definition issue (w : ReceiptWindow) (endpoint : T) : ReceiptWindow * result ReceiptWindowError unit :=
  if decide (le endpoint (default (acknowledged w) (last (issued w)))) then (w, Err Invalid)
  else if is_full w then (w, Err Full)
  else (w <| issued := issued w ++ [endpoint] |>, Ok tt).

(** [while front <= endpoint { pop_front }] *)
Fixpoint pop_through (endpoint : T) (q : list T) : list T :=
  match q with
  | [] => []
  | x :: rest => if decide (le x endpoint) then pop_through endpoint rest else q
  end.

Definition acknowledge (w : ReceiptWindow) (endpoint : T)
  : ReceiptWindow * result ReceiptWindowError unit :=
  if decide (le endpoint (acknowledged w)) then (w, Ok tt)
  else if decide (endpoint ∉ issued w) then (w, Err Unissued)
  else (w <| issued := pop_through endpoint (issued w) |> <| acknowledged := endpoint |>, Ok tt).

(** ** Runs *)

(** A window with the endpoints successfully issued so far, in order. *)
Inductive window_runs (initial : T) (n : N) : ReceiptWindow -> list T -> Prop :=
| window_new w : ReceiptWindow_new initial n = Ok w -> window_runs initial n w []
| window_issue w sent e w' r :
    window_runs initial n w sent -> issue w e = (w', r) ->
    window_runs initial n w' (sent ++ match r with Ok _ => [e] | Err _ => [] end)
| window_ack w sent e w' r :
    window_runs initial n w sent -> acknowledge w e = (w', r) -> window_runs initial n w' sent.

(** The window is the issued history after the acknowledged endpoint. *)
Record window_inv (initial : T) (n : N) (w : ReceiptWindow) (sent : list T) : Prop := {
  v_limit : limit w = n /\ n <> 0;
  v_bound : len (issued w) <= n;
  v_sorted : StronglySorted (strict le) (initial :: sent);
  v_split : exists done, sent = done ++ issued w
    /\ acknowledged w = default initial (last done);
}.

Lemma strict_total x y : ~ le x y -> strict le y x.
Proof.
  intros H. destruct (trichotomy (strict le) x y) as [[]|[->|]]; try done.
Qed.

Lemma StronglySorted_app_inv (l k : list T) :
  StronglySorted (strict le) (l ++ k) ->
  StronglySorted (strict le) l /\ StronglySorted (strict le) k
  /\ (forall x y, x ∈ l -> y ∈ k -> strict le x y).
Proof.
  induction l as [| x l IH]; simpl; intros H.
  { split_and!; [constructor | done | by intros x y ?%not_elem_of_nil]. }
  apply StronglySorted_inv in H as [H Hall]. destruct (IH H) as (? & ? & Hlk).
  apply Forall_app in Hall as [Ha Hb]. rewrite Forall_forall in Hb. split_and!; [by constructor | done |].
  intros y z [-> | Hy]%elem_of_cons Hz; [by apply Hb | by apply Hlk].
Qed.

Lemma StronglySorted_snoc (l : list T) x :
  StronglySorted (strict le) l -> (forall y, y ∈ l -> strict le y x) ->
  StronglySorted (strict le) (l ++ [x]).
Proof.
  induction 1 as [| y l Hl IH Hall]; intros Hx; [by repeat constructor |]. simpl. constructor.
  - apply IH. intros z Hz. apply Hx. by right.
  - apply Forall_app. split; [done |]. apply Forall_singleton, Hx. by left.
Qed.

(** On an ascending queue, popping through a member splits the queue at it. *)
Lemma pop_through_split e (q : list T) :
  StronglySorted (strict le) q -> e ∈ q ->
  exists before, q = before ++ [e] ++ pop_through e q.
Proof.
  induction 1 as [| x q Hq IH Hall]; intros He; [by apply not_elem_of_nil in He |]. simpl.
  rewrite Forall_forall in Hall. apply elem_of_cons in He as [-> | He].
  - rewrite decide_True by done. exists []. simpl. f_equal.
    destruct q as [| y q]; [done |]. simpl. rewrite decide_False; [done |].
    apply Hall. by left.
  - rewrite decide_True by (by apply Hall). destruct (IH He) as [before Hb].
    exists (x :: before). simpl. by f_equal.
Qed.

(** The endpoint the next one must exceed is the last of the history. *)
Lemma last_or_acknowledged (initial : T) sent done q :
  sent = done ++ q ->
  default (default initial (last done)) (last q) = default initial (last sent).
Proof. intros ->. rewrite last_app. by destruct (last q). Qed.

Lemma sorted_below_last (initial : T) sent y :
  StronglySorted (strict le) (initial :: sent) -> y ∈ initial :: sent ->
  le y (default initial (last sent)).
Proof.
  intros Hs Hy. destruct sent as [| z sent _] using rev_ind; simpl.
  { by apply list_elem_of_singleton in Hy as ->. }
  rewrite last_snoc. simpl. rewrite app_comm_cons in Hs, Hy.
  apply StronglySorted_app_inv in Hs as (_ & _ & Hs).
  apply elem_of_app in Hy as [Hy | ->%list_elem_of_singleton]; [| done].
  apply Hs; [done | by left].
Qed.

Lemma window_runs_inv initial n w sent : window_runs initial n w sent -> window_inv initial n w sent.
Proof.
  induction 1 as [w Hw | w sent e w' r _ IH Hi | w sent e w' r _ IH Ha].
  - unfold ReceiptWindow_new in Hw. case_decide; simplify_eq. split; simpl; try done.
    + unfold len. simpl. lia.
    + repeat constructor.
    + by exists [].
  - unfold issue in Hi. destruct IH as [[I1 I1'] I2 I3 (dn & Hs & Hk)].
    outer_case Hi; [simplify_eq; rewrite app_nil_r; split; eauto |].
    outer_case Hi; [simplify_eq; rewrite app_nil_r; split; eauto |].
    unfold is_full in Heqb. apply bool_decide_eq_false in Heqb.
    injection Hi as <- <-. split; simpl; [done | | |].
    + rewrite len_app, len_cons, len_nil. lia.
    + rewrite app_comm_cons. apply StronglySorted_snoc; [done |]. intros y Hy.
      rewrite Hk, (last_or_acknowledged _ sent) in n0 by done.
      pose proof (sorted_below_last _ _ _ I3 Hy). apply strict_total in n0 as [? Hn].
      split; [by etrans |]. intros ?. apply Hn. by etrans.
    + exists dn. split; [rewrite Hs, <- app_assoc; done | done].
  - unfold acknowledge in Ha. destruct IH as [[I1 I1'] I2 I3 (dn & Hs & Hk)].
    outer_case Ha; [simplify_eq; split; eauto |].
    outer_case Ha; [simplify_eq; split; eauto |].
    assert (e ∈ issued w) as He by (by apply dec_stable).
    assert (StronglySorted (strict le) (issued w)) as Hq.
    { rewrite Hs, app_comm_cons in I3. by apply StronglySorted_app_inv in I3 as (_ & ? & _). }
    destruct (pop_through_split e _ Hq He) as [before Hb].
    injection Ha as <- <-. split; simpl; [done | | done |].
    + rewrite Hb in I2. autorewrite with engine in I2. lia.
    + exists (dn ++ before ++ [e]). rewrite <- !app_assoc. rewrite Hs, Hb at 1.
      split; [done |]. by rewrite app_assoc, last_snoc.
Qed.

(** ** Properties *)

(** The receipt window is an exact cumulative acknowledgement window. In every run the
    endpoints issued are strictly ascending above the initial one, the outstanding
    endpoints are exactly the issued ones after the acknowledged endpoint, the
    acknowledged endpoint is the initial one or an issued one (never a future or
    invented endpoint), and at most [limit] endpoints are outstanding. *)
Theorem receipt_window_exact initial n w sent :
  window_runs initial n w sent ->
  StronglySorted (strict le) (initial :: sent) /\ len (issued w) <= n
  /\ acknowledged w ∈ initial :: sent
  /\ exists done, sent = done ++ issued w /\ acknowledged w = default initial (last done).
Proof.
  intros [_ Hb Hs (dn & Hd & Hk)]%window_runs_inv. split_and!; eauto.
  rewrite Hk. destruct dn as [| x dn _] using rev_ind; [by left |].
  rewrite last_snoc. simpl. right. rewrite Hd. set_solver.
Qed.

End window.
Arguments ReceiptWindow : clear implicits.

Lemma receipt_window_exact_witness :
  exists w : ReceiptWindow N, window_runs 0 2 w [2; 4] /\ issued w = [4] /\ acknowledged w = 2
    /\ StronglySorted (strict le) [0; 2; 4].
Proof.
  set (w0 := mkReceiptWindow 0 [] 2). set (w1 := mkReceiptWindow 0 [2] 2).
  set (w2 := mkReceiptWindow 0 [2; 4] 2). set (w3 := mkReceiptWindow 2 [4] 2).
  assert (window_runs 0 2 w3 [2; 4]) as Hr.
  { eapply (window_ack 0 2 w2 [2; 4] 2); [| reflexivity].
    apply (window_issue 0 2 w1 [2] 4 w2 (Ok tt)); [| reflexivity].
    apply (window_issue 0 2 w0 [] 2 w1 (Ok tt)); [| reflexivity]. by apply window_new. }
  exists w3. split; [exact Hr |]. split; [reflexivity |]. split; [reflexivity |].
  apply (receipt_window_exact 0 2 w3 [2; 4] Hr).
Defined.
