(* ===== verification/Session.v ===== *)
(** * Per-peer sequenced inboxes

    Models [engine/net/src/session.rs]: [PeerInbox], the latest held input and the
    bounded one-shot action queue of one peer, with received sequences kept apart from
    applied acknowledgements. *)

From S2P Require Import Prelude Types.
Local Open Scope N_scope.
Local Open Scope engine_scope.

Inductive InboxError := MessageLimit | ActionLimit.

Section session.
Context {I A : Type} `{!Inhabited I}.

Record PeerInbox := mkPeerInbox {
  input : I;
  received_input : option N;
  applied_input : option N;
  received_action : option N;
  applied_action : option N;
  input_at : Duration;
  actions : list (N * A);
  budget : N;
  epoch : N;
  action_taken : bool;
}.
#[export] Instance eta_PeerInbox : Eta PeerInbox := fun r =>
  mkPeerInbox (input r) (received_input r) (applied_input r) (received_action r)
    (applied_action r) (input_at r) (actions r) (budget r) (epoch r) (action_taken r).

(** [I::default()] is the inhabitant of [I]. *)
Definition PeerInbox_new (e : N) : PeerInbox :=
  mkPeerInbox inhabitant None None None None 0 [] 0 e false.

Definition reset (_ : PeerInbox) (e : N) : PeerInbox := PeerInbox_new e.

Definition consume_message (p : PeerInbox) (limit : N) : PeerInbox * result InboxError unit :=
  if decide (limit <= budget p) then (p, Err MessageLimit)
  else (p <| budget := budget p + 1 |>, Ok tt).

Definition accepts_input (p : PeerInbox) (e seq : N) : bool :=
  bool_decide (e = epoch p) && newer seq (received_input p).

Definition receive_input (p : PeerInbox) (e seq : N) (i : I) (now : Duration) : PeerInbox * bool :=
  if negb (accepts_input p e seq) then (p, false)
  else (p <| input := i |> <| received_input := Some seq |> <| input_at := now |>, true).

Definition accepts_action (p : PeerInbox) (e seq : N) : bool :=
  bool_decide (e = epoch p) && newer seq (received_action p).

Definition queue_action (p : PeerInbox) (e seq : N) (a : A) (limit : N)
  : PeerInbox * result InboxError bool :=
  if negb (accepts_action p e seq) then (p, Ok false)
  else if decide (limit <= len (actions p)) then (p, Err ActionLimit)
  else (p <| received_action := Some seq |> <| actions := actions p ++ [(seq, a)] |>, Ok true).

Definition begin_tick (p : PeerInbox) : PeerInbox :=
  p <| budget := 0 |> <| action_taken := false |>.

Definition input_is_fresh (p : PeerInbox) (now timeout : Duration) : bool :=
  bool_decide (saturating_sub now (input_at p) <= timeout).

Definition next_action (p : PeerInbox) : PeerInbox * option (N * A) :=
  if action_taken p then (p, None)
  else match actions p with
       | [] => (p, None)
       | x :: rest => (p <| actions := rest |> <| action_taken := true |>, Some x)
       end.

Definition acknowledge_input (p : PeerInbox) : PeerInbox :=
  p <| applied_input := received_input p |>.

Definition acknowledge_action (p : PeerInbox) (seq : N) : PeerInbox :=
  if newer seq (applied_action p) then p <| applied_action := Some seq |> else p.

(** ** Runs *)

(** One call on an inbox. The queue limit is the game's constant [limit]. *)
Inductive call :=
| CallMessage (cap : N)
| CallInput (e seq : N) (i : I) (now : Duration)
| CallAction (e seq : N) (a : A)
| CallTick
| CallNext
| CallAckInput
| CallAckAction (seq : N).

(** The inbox after a call, the action it queued and the action it handed out. *)
Definition apply_call (limit : N) (p : PeerInbox) (c : call)
  : PeerInbox * option (N * A) * option (N * A) :=
  match c with
  | CallMessage cap => ((consume_message p cap).1, None, None)
  | CallInput e seq i now => ((receive_input p e seq i now).1, None, None)
  | CallAction e seq a =>
      match queue_action p e seq a limit with
      | (p, Ok true) => (p, Some (seq, a), None)
      | (p, _) => (p, None, None)
      end
  | CallTick => (begin_tick p, None, None)
  | CallNext => match next_action p with (p, out) => (p, None, out) end
  | CallAckInput => (acknowledge_input p, None, None)
  | CallAckAction seq => (acknowledge_action p seq, None, None)
  end.

(** A sequence of calls: the inbox, the actions queued and the actions handed out. *)
Fixpoint apply_calls (limit : N) (p : PeerInbox) (cs : list call)
  : PeerInbox * list (N * A) * list (N * A) :=
  match cs with
  | [] => (p, [], [])
  | c :: cs =>
      let '(p1, queued, out) := apply_call limit p c in
      let '(p2, queued', out') := apply_calls limit p1 cs in
      (p2, option_list queued ++ queued', option_list out ++ out')
  end.

Definition tick_weight (c : call) : nat := match c with CallTick => 1 | _ => 0 end.
Fixpoint ticks (cs : list call) : nat :=
  match cs with [] => 0 | c :: cs => tick_weight c + ticks cs end.

(** Each sequence is newer than the one received before it. *)
Fixpoint newer_chain (previous : option N) (queued : list (N * A)) : Prop :=
  match queued with
  | [] => True
  | (seq, _) :: rest => newer seq previous = true /\ newer_chain (Some seq) rest
  end.

Ltac call_done := split_and!; first [done | lia | by case_match | by destruct (action_taken _); simpl; lia].

Lemma apply_call_step limit p c p' queued out :
  apply_call limit p c = (p', queued, out) ->
  actions p ++ option_list queued = option_list out ++ actions p'
  /\ newer_chain (received_action p) (option_list queued)
  /\ received_action p' = default (received_action p) (Some ∘ fst <$> queued)
  /\ (length (option_list out) + (if action_taken p then 1 else 0)
      <= (if action_taken p' then 1 else 0) + tick_weight c)%nat
  /\ (len (actions p) <= limit -> len (actions p') <= limit).
Proof.
  destruct c as [cap | e seq i now | e seq a | | | | seq]; simpl; intros H.
  - unfold consume_message in H. case_decide; simplify_eq/=; rewrite app_nil_r; call_done.
  - unfold receive_input in H. destruct (negb _); simplify_eq/=; rewrite app_nil_r; call_done.
  - unfold queue_action in H. destruct (accepts_action p e seq) eqn:Ha; simpl in H;
      [case_decide |]; simplify_eq/=; rewrite ?app_nil_r; try call_done.
    unfold accepts_action in Ha. apply andb_true_iff in Ha as [_ Hn].
    split_and!; try done; [by destruct (action_taken p) |].
    intros _. rewrite len_app, len_cons, len_nil. lia.
  - simplify_eq/=. rewrite app_nil_r. call_done.
  - unfold next_action in H. destruct (action_taken p) eqn:Ht;
      [| destruct (actions p) as [| x rest] eqn:Hl]; simplify_eq/=; rewrite ?app_nil_r, ?Ht, ?Hl; try call_done.
    split_and!; try done. rewrite len_cons. lia.
  - simplify_eq/=. rewrite app_nil_r. call_done.
  - unfold acknowledge_action in H. destruct (newer _ _); simplify_eq/=; rewrite app_nil_r; call_done.
Qed.

Lemma newer_chain_app prev l k :
  newer_chain prev (l ++ k)
  <-> newer_chain prev l /\ newer_chain (default prev (Some ∘ fst <$> last l)) k.
Proof.
  revert prev. induction l as [| [s a] l IH]; intros prev; [simpl; tauto |].
  rewrite last_cons. cbn [newer_chain app]. rewrite IH. destruct (last l); simpl; tauto.
Qed.

(** ** Properties *)

(** The action queue is a bounded exactly-once FIFO. For any sequence of calls on a
    peer's inbox: the actions handed out followed by those still queued are the ones
    accepted, in the order of acceptance; accepted sequences are each newer than the
    one before (no replayed or reordered action is ever accepted); at most one action
    is handed out per simulation tick; and the queue never exceeds its limit. *)
Theorem peer_inbox_fifo limit p cs p' queued out :
  len (actions p) <= limit ->
  apply_calls limit p cs = (p', queued, out) ->
  actions p ++ queued = out ++ actions p'
  /\ newer_chain (received_action p) queued
  /\ (length out <= 1 + ticks cs)%nat /\ len (actions p') <= limit.
Proof.
  intros Hb H.
  assert (actions p ++ queued = out ++ actions p' /\ newer_chain (received_action p) queued
    /\ (length out + (if action_taken p then 1 else 0) <= 1 + ticks cs)%nat
    /\ len (actions p') <= limit) as (? & ? & ? & ?);
    [| split_and!; try done; destruct (action_taken p); lia].
  revert p queued out Hb H. induction cs as [| c cs IH]; intros p queued out Hb H; simpl in H.
  { simplify_eq. rewrite app_nil_r. split_and!; try done. simpl. destruct (action_taken p'); lia. }
  destruct (apply_call limit p c) as [[p1 q1] o1] eqn:H1.
  destruct (apply_calls limit p1 cs) as [[p2 q2] o2] eqn:H2. simplify_eq.
  destruct (apply_call_step _ _ _ _ _ _ H1) as (S1 & S2 & S3 & S4 & S5).
  destruct (IH p1 q2 o2 (S5 Hb) H2) as (T1 & T2 & T3 & T4).
  split_and!; [| | | done].
  - by rewrite app_assoc, S1, <- !app_assoc, T1.
  - apply newer_chain_app. split; [done |]. rewrite S3 in T2. by destruct q1.
  - rewrite length_app. cbn [ticks].
    destruct (action_taken p), (action_taken p1); lia.
Qed.

(** Receipt is not acknowledgement and stale epochs change nothing: a packet from
    another epoch, or a replayed or older sequence, leaves the inbox unchanged; a full
    queue refuses the action without recording its sequence; and no receive call ever
    moves an applied acknowledgement. *)
Theorem receive_never_acknowledges p e seq (i : I) (a : A) now limit :
  let after_input := (receive_input p e seq i now).1 in
  let after_action := (queue_action p e seq a limit).1 in
  applied_input after_input = applied_input p
  /\ applied_action after_input = applied_action p
  /\ applied_input after_action = applied_input p
  /\ applied_action after_action = applied_action p
  /\ ((e <> epoch p \/ newer seq (received_input p) = false) -> after_input = p)
  /\ ((e <> epoch p \/ newer seq (received_action p) = false \/ limit <= len (actions p)) ->
      after_action = p).
Proof.
  unfold receive_input, queue_action, accepts_input, accepts_action. simpl.
  destruct (decide (e = epoch p)) as [-> | Hne];
    [rewrite bool_decide_true by done | rewrite bool_decide_false by done]; simpl;
    [| split_and!; done].
  destruct (newer seq (received_input p)), (newer seq (received_action p)); simpl;
    try case_decide; split_and!; try done; naive_solver.
Qed.
End session.
Arguments PeerInbox : clear implicits.
Arguments call : clear implicits.

Lemma peer_inbox_fifo_witness :
  let cs := [CallAction 1 5 7; CallAction 1 6 8; CallAction 1 5 9; CallNext; CallNext;
             CallTick; CallNext] : list (call N N) in
  exists p, apply_calls 4 (PeerInbox_new 1) cs = (p, [(5, 7); (6, 8)], [(5, 7); (6, 8)])
    /\ newer_chain None [(5, 7); (6, 8)].
Proof.
  eexists. split; [vm_compute; reflexivity |].
  eapply (peer_inbox_fifo (I:=N) (A:=N) 4 (PeerInbox_new 1)
    [CallAction 1 5 7; CallAction 1 6 8; CallAction 1 5 9; CallNext; CallNext; CallTick; CallNext]);
    [by vm_compute | vm_compute; reflexivity].
Defined.
