(* ===== verification/Ownership.v ===== *)
(** * Effective-tick ownership fences

    Models [engine/net/src/ownership.rs]: [OwnershipHandoff], the immutable transition
    of an entity from one owner stream to another at an effective tick. *)

From S2P Require Import Prelude Types Codec Commands.
Local Open Scope N_scope.
Local Open Scope engine_scope.

Inductive HandoffError :=
| HandoffInvalidIdentity
| ChangedEntity
| StaleEpoch
| EffectiveTickCommitted.

Record OwnershipHandoff := mkOwnershipHandoff {
  previous : OwnerStream;
  next : OwnerStream;
  effective_tick : ServerTick;
}.

(** The identity test of the loop over both streams. *)
Definition stream_invalid (s : OwnerStream) : bool :=
  bool_decide (os_connection s = 0 \/ os_epoch s = 0 \/ os_stream s = 0
               \/ generation (os_owner s) = 0 \/ os_ownership s = 0).

Definition OwnershipHandoff_new (prev nxt : OwnerStream) (effective committed : ServerTick)
  : result HandoffError OwnershipHandoff :=
  if existsb stream_invalid [prev; nxt] then Err HandoffInvalidIdentity
  else if decide (os_owner prev <> os_owner nxt) then Err ChangedEntity
  else if decide (os_epoch nxt <= os_epoch prev \/ os_ownership nxt <= os_ownership prev)
  then Err StaleEpoch
  else if decide (effective <= committed) then Err EffectiveTickCommitted
  else Ok (mkOwnershipHandoff prev nxt effective).

Definition handoff_owns_at (h : OwnershipHandoff) (stream : OwnerStream) (target : TargetTick) : bool :=
  bool_decide (stream = if decide (target < effective_tick h) then previous h else next h).

(** The rules of a game whose ownership decision is the fence. *)
Definition fenced {I A} (h : OwnershipHandoff) (rules : CommandRules I A) : CommandRules I A := {|
  owns_at := handoff_owns_at h;
  valid_input := @valid_input I A rules;
  valid_action := @valid_action I A rules;
  held_input := @held_input I A rules;
  neutral_input := @neutral_input I A rules;
|}.

(** ** Properties *)

(** A handoff gives every tick exactly one owner: for a fence the constructor accepts,
    each target tick is owned by exactly one stream, the previous one before the
    effective tick and the next one from it on; the two streams control the same entity
    and differ; every tick already committed still belongs to the previous stream; and
    an inbox checked against the fence neither admits nor prepares input of a stream
    for a tick that stream does not own. *)
Theorem handoff_single_owner {I A digest} `{!EqDecision digest}
    (blake3 : list byte -> digest) (bincode : Command I A -> option (list (list byte)))
    prev nxt effective committed h :
  OwnershipHandoff_new prev nxt effective committed = Ok h ->
  (forall t s, handoff_owns_at h s t = true <-> s = if decide (t < effective) then prev else nxt)
  /\ prev <> nxt /\ os_owner prev = os_owner nxt
  /\ (forall t, t <= committed -> handoff_owns_at h prev t = true)
  /\ (forall (b : @CommandInbox I A digest) rules,
        handoff_owns_at h (owner b) (finalized b + 1) = false ->
        is_ok (prepare_next b (fenced h rules)).2 = false)
  /\ (forall (b : @CommandInbox I A digest) rules au c,
        handoff_owns_at h (cmd_owner c) (cmd_target c) = false ->
        is_ok (admit_command blake3 bincode b au c (fenced h rules)).2 = false
        /\ pending (admit_command blake3 bincode b au c (fenced h rules)).1 = pending b).
Proof.
  intros H. unfold OwnershipHandoff_new in H.
  outer_case H; [done |]. outer_case H; [done |]. outer_case H; [done |]. outer_case H; [done |].
  assert (h = mkOwnershipHandoff prev nxt effective) as -> by congruence. clear H.
  split_and!.
  - intros t s. unfold handoff_owns_at. simpl. apply bool_decide_eq_true.
  - intros ->. lia.
  - by apply dec_stable.
  - intros t Ht. unfold handoff_owns_at. simpl. rewrite decide_True by lia. by apply bool_decide_true.
  - intros b rules Hno. unfold prepare_next. case_match; [done |]. case_match eqn:Hn; [| done].
    apply checked_add_Some in Hn as [-> _]. simpl. by rewrite Hno.
  - intros b rules au c Hno. unfold admit_command. repeat (case_decide; [done |]).
    cbv zeta. simpl. by rewrite Hno.
Qed.

Definition old_stream : OwnerStream := mkOwnerStream 1 1 1 (mkEntityId 1 1) 1.
Definition new_stream : OwnerStream := mkOwnerStream 2 2 1 (mkEntityId 1 1) 2.

Lemma handoff_single_owner_witness :
  exists h, OwnershipHandoff_new old_stream new_stream 10 4 = Ok h
    /\ handoff_owns_at h old_stream 9 = true /\ handoff_owns_at h old_stream 10 = false
    /\ old_stream <> new_stream.
Proof.
  exists (mkOwnershipHandoff old_stream new_stream 10). split; [reflexivity |].
  destruct (handoff_single_owner (I:=N) (A:=N) (fun b : list byte => b) (fun _ => None)
              old_stream new_stream 10 4 (mkOwnershipHandoff old_stream new_stream 10) eq_refl)
    as (Ho & Hne & _).
  split; [by apply Ho |]. split; [reflexivity | exact Hne].
Defined.
