(* ===== verification/Synchronization.v ===== *)
(** * Clock estimation, command lead and presentation time

    Models [engine/net/src/synchronization.rs]. Durations are nanosecond counts;
    signed [i128] offsets are integers (their magnitudes stay below [2^96], far inside
    the type), and Rust's truncating division is [Z.quot]. *)

From S2P Require Import Prelude Types.
Local Open Scope N_scope.
Local Open Scope engine_scope.

Record TimeExchange := mkTimeExchange {
  client_send : Duration;
  server_receive : Duration;
  server_send : Duration;
  client_receive : Duration;
}.

Record ClockSample := mkClockSample {
  s_client_send : Duration;
  network_round_trip : Duration;
  server_processing : Duration;
  offset_nanos : Z;
  s_client_receive : Duration;
}.

Inductive ResyncReason := Suspension | OffsetJump | LeadExceeded | TargetDiscontinuity.

Inductive SyncError :=
| InvalidConfiguration
| InvalidSample
| NotSynchronized
| NonMonotonicTime
| TimeRange
| ResyncRequired (reason : ResyncReason).

Definition nanos (d : Duration) : Z := Z.of_N d.

(** [duration]: back to a representable duration. *)
Definition duration (nanoseconds : Z) : result SyncError Duration :=
  if decide (nanoseconds < 0)%Z then Err TimeRange
  else match try_from u64_max (Z.to_N nanoseconds / nanos_per_sec) with
       | Some seconds => Ok (duration_new seconds (Z.to_N nanoseconds mod nanos_per_sec))
       | None => Err TimeRange
       end.

Definition from_exchange (x : TimeExchange) : result SyncError ClockSample :=
  let? local := ok_or (checked_sub (client_receive x) (client_send x)) InvalidSample in
  let? processing := ok_or (checked_sub (server_send x) (server_receive x)) InvalidSample in
  let? round_trip := ok_or (checked_sub local processing) InvalidSample in
  let offset := Z.quot ((nanos (server_receive x) - nanos (client_send x))
                        + (nanos (server_send x) - nanos (client_receive x))) 2 in
  Ok (mkClockSample (client_send x) round_trip processing offset (client_receive x)).

(** ** The estimator *)

Record ClockConfig := mkClockConfig {
  sample_window : N;
  maximum_round_trip : Duration;
  offset_jump : Duration;
  suspension : Duration;
  slew_parts_per_million : N;
}.

Definition ClockConfig_default : ClockConfig :=
  mkClockConfig 32 1000000000 250000000 2000000000 20000.

Record ClockEstimator := mkClockEstimator {
  config : ClockConfig;
  e_rate : TickRate;
  server_epoch : Duration;
  samples : list ClockSample;
  offset : option Z;
  last_estimate : option (Duration * Duration);
  resync : option ResyncReason;
}.
#[export] Instance eta_ClockEstimator : Eta ClockEstimator := fun r =>
  mkClockEstimator (config r) (e_rate r) (server_epoch r) (samples r) (offset r)
    (last_estimate r) (resync r).

Definition ClockEstimator_new (r : TickRate) (epoch : Duration) (c : ClockConfig)
  : result SyncError ClockEstimator :=
  if decide (sample_window c = 0 \/ 256 < sample_window c \/ maximum_round_trip c = 0
             \/ offset_jump c = 0 \/ suspension c = 0 \/ 20000 < slew_parts_per_million c)
  then Err InvalidConfiguration
  else Ok (mkClockEstimator c r epoch [] None None None).

Definition active (e : ClockEstimator) : result SyncError unit :=
  match resync e with Some reason => Err (ResyncRequired reason) | None => Ok tt end.

(** The key [(network_round_trip, Reverse(client_receive))] of [a] precedes that of [b]. *)
Definition better (a b : ClockSample) : bool :=
  bool_decide (network_round_trip a < network_round_trip b
               \/ (network_round_trip a = network_round_trip b
                   /\ s_client_receive b < s_client_receive a)).

(** [min_by_key]: the first minimum. *)
Definition best_sample (first : ClockSample) (rest : list ClockSample) : ClockSample :=
  foldl (fun best s => if better s best then s else best) first rest.

Definition observe (e : ClockEstimator) (x : TimeExchange)
  : ClockEstimator * result SyncError ClockSample :=
  match active e with
  | Err err => (e, Err err)
  | Ok _ =>
      match from_exchange x with
      | Err err => (e, Err err)
      | Ok sample =>
          if decide (maximum_round_trip (config e) < network_round_trip sample)
          then (e, Err InvalidSample)
          else if match last (samples e) with
                  | Some old => bool_decide (s_client_receive sample < s_client_receive old
                                             \/ s_client_send sample <= s_client_send old)
                  | None => false
                  end
          then (e, Err NonMonotonicTime)
          else
            let kept := if decide (len (samples e) = sample_window (config e))
                        then drop 1 (samples e) else samples e in
            let best := match kept ++ [sample] with
                        | first :: rest => best_sample first rest
                        | [] => sample
                        end in
            if match offset e with
               | Some old => bool_decide
                   (nanos (offset_jump (config e)) < Z.abs (offset_nanos best - old))%Z
               | None => false
               end
            then (e <| resync := Some OffsetJump |>, Err (ResyncRequired OffsetJump))
            else
              let e := e <| offset := Some (offset_nanos best) |> in
              (e <| samples := kept ++ [sample] |>, Ok sample)
      end
  end.

(** The slewed time for a target, [last] being the previous local and server times. *)
Definition slewed (ppm : N) (target : Z) (last_server elapsed : Duration) : Z :=
  (let free_running := nanos last_server + nanos elapsed in
   let max_adjustment := Z.quot (nanos elapsed * Z.of_N ppm) 1000000 in
   free_running + Z.min (Z.max (target - free_running) (- max_adjustment)) max_adjustment)%Z.

Definition estimate_server_time (e : ClockEstimator) (local_now : Duration)
  : ClockEstimator * result SyncError Duration :=
  match active e with
  | Err err => (e, Err err)
  | Ok _ =>
      match offset e with
      | None => (e, Err NotSynchronized)
      | Some off =>
          let target := (nanos local_now + off)%Z in
          let finish estimate :=
            match duration estimate with
            | Err err => (e, Err err)
            | Ok t => (e <| last_estimate := Some (local_now, t) |>, Ok t)
            end in
          match last_estimate e with
          | None => finish target
          | Some (last_local, last_server) =>
              match checked_sub local_now last_local with
              | None => (e, Err NonMonotonicTime)
              | Some elapsed =>
                  if decide (suspension (config e) < elapsed)
                  then (e <| resync := Some Suspension |>, Err (ResyncRequired Suspension))
                  else finish (slewed (slew_parts_per_million (config e)) target last_server elapsed)
              end
          end
      end
  end.

Definition estimate_server_elapsed (e : ClockEstimator) (local_now : Duration)
  : ClockEstimator * result SyncError Duration :=
  match estimate_server_time e local_now with
  | (e, Err err) => (e, Err err)
  | (e, Ok t) => (e, ok_or (checked_sub t (server_epoch e)) TimeRange)
  end.

Definition estimate_server_tick (e : ClockEstimator) (local_now : Duration)
  : ClockEstimator * result SyncError ServerTick :=
  match estimate_server_elapsed e local_now with
  | (e, Err err) => (e, Err err)
  | (e, Ok t) => (e, ok_or (elapsed_ticks (e_rate e) t) TimeRange)
  end.

Definition reset (e : ClockEstimator) (epoch : Duration) : ClockEstimator :=
  e <| server_epoch := epoch |> <| samples := [] |> <| offset := None |>
    <| last_estimate := None |> <| resync := None |>.

(** ** The lead controller *)

Record LeadController := mkLeadController {
  lead : N;
  slack_samples : list Z;
  last_target : option TargetTick;
  lead_resync : option ResyncReason;
}.
#[export] Instance eta_LeadController : Eta LeadController := fun r =>
  mkLeadController (lead r) (slack_samples r) (last_target r) (lead_resync r).

Definition LeadController_new (l : N) : result SyncError LeadController :=
  if decide (1 <= l <= 12) then Ok (mkLeadController l [] None None)
  else Err InvalidConfiguration.

Definition bootstrap (r : TickRate) (round_trip margin : Duration) : result SyncError LeadController :=
  let? estimate := ok_or (checked_add duration_max (round_trip / 2) margin) TimeRange in
  let ticks := N.max (div_ceil (estimate * hz r) 1000000000) 1 in
  if decide (12 < ticks) then Err (ResyncRequired LeadExceeded) else LeadController_new ticks.

(** The slack a quarter of the way up the sorted samples. *)
Definition lower_quartile (l : list Z) : Z :=
  nth (length l / 4) (merge_sort Z.le l) 0%Z.

Definition observe_arrival_slack (c : LeadController) (slack : Z)
  : LeadController * result SyncError N :=
  match lead_resync c with
  | Some reason => (c, Err (ResyncRequired reason))
  | None =>
      if decide (~ (-12 <= slack <= 12)%Z) then (c, Err InvalidSample)
      else if decide (slack <= 0)%Z then
        if decide (lead c = 12)
        then (c <| lead_resync := Some LeadExceeded |>, Err (ResyncRequired LeadExceeded))
        else let c := c <| lead := lead c + 1 |> <| slack_samples := [] |> in (c, Ok (lead c))
      else
        let kept := if decide (len (slack_samples c) = 32) then drop 1 (slack_samples c)
                    else slack_samples c in
        let c := c <| slack_samples := kept ++ [slack] |> in
        let c :=
          if decide (8 <= len (slack_samples c)) then
            if decide (2 < lower_quartile (slack_samples c))%Z then
              if decide (1 < lead c) then c <| lead := lead c - 1 |> <| slack_samples := [] |> else c
            else c
          else c in
        (c, Ok (lead c))
  end.

Definition assign_target (c : LeadController) (estimated : ServerTick)
  : LeadController * result SyncError (option TargetTick) :=
  match lead_resync c with
  | Some reason => (c, Err (ResyncRequired reason))
  | None =>
      match checked_add u64_max estimated (lead c) with
      | None => (c, Err TimeRange)
      | Some target =>
          match last_target c with
          | Some previous =>
              if decide (target <= previous) then (c, Ok None)
              else if decide (12 < target - previous)
              then (c <| lead_resync := Some TargetDiscontinuity |>,
                    Err (ResyncRequired TargetDiscontinuity))
              else (c <| last_target := Some target |>, Ok (Some target))
          | None => (c <| last_target := Some target |>, Ok (Some target))
          end
      end
  end.

(** ** The presentation cursor *)

Record PresentationCursor := mkPresentationCursor {
  cursor_last : option Duration;
  segment : N;
}.
#[export] Instance eta_PresentationCursor : Eta PresentationCursor := fun r =>
  mkPresentationCursor (cursor_last r) (segment r).

Definition cursor_advance (c : PresentationCursor) (estimated_now total_age : Duration)
  : PresentationCursor * Duration :=
  let candidate := saturating_sub estimated_now total_age in
  let nxt := match cursor_last c with Some l => N.max l candidate | None => candidate end in
  (c <| cursor_last := Some nxt |>, nxt).

Definition discontinuity (c : PresentationCursor) (at_time : Duration)
  : PresentationCursor * result SyncError unit :=
  match checked_add u64_max (segment c) 1 with
  | None => (c, Err TimeRange)
  | Some s => (c <| segment := s |> <| cursor_last := Some at_time |>, Ok tt)
  end.

(** ** Runs of the estimator *)

Inductive estimator_event :=
| EvObserve (x : TimeExchange)
| EvEstimate (local_now : Duration).

(** One call; a successful estimate is recorded, newest first. *)
Definition estimator_step (st : ClockEstimator * list (Duration * Duration)) (ev : estimator_event)
  : ClockEstimator * list (Duration * Duration) :=
  match ev with
  | EvObserve x => ((observe st.1 x).1, st.2)
  | EvEstimate now =>
      match estimate_server_time st.1 now with
      | (e, Ok t) => (e, (now, t) :: st.2)
      | (e, Err _) => (e, st.2)
      end
  end.

Definition estimator_run (e : ClockEstimator) (evs : list estimator_event)
  : ClockEstimator * list (Duration * Duration) :=
  foldl estimator_step (e, []) evs.

(** The exchange was stamped by a server clock that reads [theta] more than the
    client's, over legs of [d1] and [d2], with [p] spent in the server. *)
Definition true_exchange (theta : Z) (d1 p d2 : Duration) (x : TimeExchange) : Prop :=
  (nanos (server_receive x) = nanos (client_send x) + nanos d1 + theta)%Z
  /\ server_send x = server_receive x + p
  /\ client_receive x = client_send x + d1 + p + d2.

Definition observed_exchanges_true (theta : Z) (evs : list estimator_event) : Prop :=
  forall x, EvObserve x ∈ evs -> exists d1 p d2, true_exchange theta d1 p d2 x.

Lemma from_exchange_true theta d1 p d2 x :
  true_exchange theta d1 p d2 x ->
  exists s, from_exchange x = Ok s
    /\ network_round_trip s = d1 + d2 /\ server_processing s = p
    /\ (2 * Z.abs (offset_nanos s - theta) <= Z.abs (nanos d1 - nanos d2) + 1)%Z.
Proof.
  intros (Hr & Hs & Hc). unfold from_exchange.
  replace (checked_sub (client_receive x) (client_send x)) with (Some (d1 + p + d2))
    by (symmetry; apply checked_sub_Some; lia).
  replace (checked_sub (server_send x) (server_receive x)) with (Some p)
    by (symmetry; apply checked_sub_Some; lia).
  simpl. replace (checked_sub (d1 + p + d2) p) with (Some (d1 + d2))
    by (symmetry; apply checked_sub_Some; lia).
  simpl. eexists; split_and!; [done | done | done |]. simpl. unfold nanos in *.
  set (a := (_ + _)%Z). assert (a = 2 * theta + (Z.of_N d1 - Z.of_N d2))%Z as Ha by lia.
  pose proof (Z.quot_rem a 2 ltac:(lia)).
  pose proof (Z.rem_bound_abs a 2 ltac:(lia)). lia.
Qed.

Lemma best_sample_spec first rest :
  best_sample first rest ∈ first :: rest
  /\ forall s, s ∈ first :: rest ->
       network_round_trip (best_sample first rest) <= network_round_trip s.
Proof.
  unfold best_sample. revert first. induction rest as [| y rest IH]; intros first; simpl.
  { split; [by left |]. by intros s ->%list_elem_of_singleton. }
  destruct (IH (if better y first then y else first)) as [Hin Hmin]. split.
  - rewrite !elem_of_cons in *. destruct (better y first); naive_solver.
  - intros s Hs. unfold better in *. repeat setoid_rewrite elem_of_cons in Hmin.
    rewrite !elem_of_cons in Hs.
    set (b := foldl _ _ _) in *. clearbody b.
    case_bool_decide; destruct Hs as [-> | [-> | Hs]]; auto;
      pose proof (Hmin _ (or_introl eq_refl)); lia.
Qed.

(** The offset is that of a window sample with the smallest round trip. *)
Definition offset_inv (ok_sample : ClockSample -> Prop) (e : ClockEstimator) : Prop :=
  len (samples e) <= sample_window (config e)
  /\ (forall s, s ∈ samples e -> ok_sample s)
  /\ match offset e with
     | Some o => exists b, b ∈ samples e /\ o = offset_nanos b
                   /\ forall s, s ∈ samples e -> network_round_trip b <= network_round_trip s
     | None => samples e = []
     end.

Lemma observe_cases e x :
  let '(e', r) := observe e x in
  config e' = config e /\ last_estimate e' = last_estimate e /\
  match r with
  | Err _ => samples e' = samples e /\ offset e' = offset e
             /\ (resync e = None \/ resync e' = resync e)
  | Ok s =>
      resync e = None /\ resync e' = None /\ from_exchange x = Ok s
      /\ (exists kept, samples e' = kept ++ [s]
            /\ (kept = samples e /\ len (samples e) <> sample_window (config e)
                \/ kept = drop 1 (samples e) /\ len (samples e) = sample_window (config e)))
      /\ exists b, b ∈ samples e' /\ offset e' = Some (offset_nanos b)
           /\ forall s, s ∈ samples e' -> network_round_trip b <= network_round_trip s
  end.
Proof.
  unfold observe, active. destruct (resync e) eqn:Hres; [by auto 8 |].
  destruct (from_exchange x) as [s | err]; [| by auto 8].
  case_decide; [by auto 8 |].
  destruct (match last (samples e) with Some old => _ | None => _ end); [by auto 8 |].
  set (kept := if decide _ then _ else _).
  destruct (match offset e with Some old => _ | None => _ end); [simpl; by auto 8 |].
  simpl. split_and!; try done.
  - exists kept. split; [done |]. subst kept. case_decide; auto.
  - destruct (kept ++ [s]) as [| y l] eqn:Hk; [by destruct kept |].
    exists (best_sample y l). destruct (best_sample_spec y l) as [Hin Hmin].
    split_and!; [done | done |]. exact Hmin.
Qed.

Lemma estimate_cases e now :
  let '(e', r) := estimate_server_time e now in
  config e' = config e /\ samples e' = samples e /\ offset e' = offset e /\
  match r with
  | Err _ => last_estimate e' = last_estimate e /\ (resync e = None \/ resync e' = resync e)
  | Ok t =>
      resync e = None /\ resync e' = None /\ last_estimate e' = Some (now, t)
      /\ match last_estimate e with
         | Some (l, s) =>
             l <= now /\ now - l <= suspension (config e)
             /\ exists target, (0 <= slewed (slew_parts_per_million (config e)) target s (now - l)
                  /\ t = Z.to_N (slewed (slew_parts_per_million (config e)) target s (now - l)))%Z
         | None => exists o, offset e = Some o /\ Z.of_N t = (nanos now + o)%Z
         end
  end.
Proof.
  assert (Hd : forall z d, duration z = Ok d -> (0 <= z)%Z /\ d = Z.to_N z).
  { intros z d. unfold duration. case_decide; [done |].
    destruct (try_from _ _) as [sec |] eqn:Hsec; [| done]. apply try_from_Some in Hsec as [-> _].
    intros [= <-]. unfold duration_new. split; [lia |].
    pose proof (N.Div0.div_mod (Z.to_N z) nanos_per_sec). lia. }
  unfold estimate_server_time, active. destruct (resync e) eqn:Hres; [by auto 8 |].
  destruct (offset e) as [o |] eqn:Ho; [| by auto 8].
  destruct (last_estimate e) as [[l s] |] eqn:Hl.
  - destruct (checked_sub now l) as [el |] eqn:Hel; [| by auto 8].
    apply checked_sub_Some in Hel as [Hle ->].
    case_decide; [simpl; by auto 8 |].
    destruct (duration _) eqn:Hdur; [| by auto 8]. apply Hd in Hdur as [Hz ->].
    simpl. split_and!; try done; [lia |]. eauto.
  - destruct (duration _) eqn:Hdur; [| by auto 8]. apply Hd in Hdur as [Hz ->].
    simpl. split_and!; try done. exists o. split; [done |]. lia.
Qed.

Lemma offset_inv_observe P e x :
  0 < sample_window (config e) ->
  offset_inv P e -> (forall s, from_exchange x = Ok s -> P s) ->
  offset_inv P (observe e x).1.
Proof.
  intros Hw (Hlen & HP & Ho) Hx. pose proof (observe_cases e x) as H.
  destruct (observe e x) as [e' [s | err]]; destruct H as (Hc & _ & H); unfold offset_inv.
  - destruct H as (_ & _ & Hs & (kept & Hk & Hkept) & b & Hb & Ho' & Hmin). simpl.
    rewrite Hc, Ho'. split_and!; [| | by eauto].
    + rewrite Hk, len_app. unfold len in *. destruct Hkept as [[-> ?] | [-> ?]]; simpl; [lia |].
      rewrite length_drop. lia.
    + rewrite Hk. intros s' [Hs' | ->%list_elem_of_singleton]%elem_of_app; [| by apply Hx].
      apply HP. destruct Hkept as [[-> _] | [-> _]]; [done |].
      destruct (samples e); [done |]. by right.
  - destruct H as (Hs & Ho' & _). simpl. by rewrite Hc, Hs, Ho'.
Qed.

Lemma offset_inv_estimate P e now :
  offset_inv P e -> offset_inv P (estimate_server_time e now).1.
Proof.
  pose proof (estimate_cases e now) as H. unfold offset_inv.
  destruct (estimate_server_time e now) as [e' r]. destruct H as (Hc & Hs & Ho & _).
  simpl. by rewrite Hc, Hs, Ho.
Qed.

(** Logical time moved between two estimates by the local time elapsed, give or take the
    slew, and never backwards. *)
Definition slew_related (ppm : N) (older newer : Duration * Duration) : Prop :=
  older.1 <= newer.1 /\ older.2 <= newer.2
  /\ (1000000 * Z.abs ((nanos newer.2 - nanos older.2) - (nanos newer.1 - nanos older.1))
      <= Z.of_N ppm * (nanos newer.1 - nanos older.1))%Z.

#[export] Instance slew_related_trans ppm : Transitive (slew_related ppm).
Proof. intros [a b] [c d] [e f]. unfold slew_related. simpl. lia. Qed.

Lemma slewed_related ppm target l s now :
  ppm <= 20000 -> l <= now -> (0 <= slewed ppm target s (now - l))%Z ->
  slew_related ppm (l, s) (now, Z.to_N (slewed ppm target s (now - l))).
Proof.
  intros Hppm Hl Hpos. unfold slew_related, slewed, nanos in *. simpl in *.
  rewrite N2Z.inj_sub in * by done.
  set (el := (Z.of_N now - Z.of_N l)%Z) in *.
  assert (0 <= el)%Z by lia.
  pose proof (Z.quot_rem (el * Z.of_N ppm) 1000000 ltac:(lia)) as Hq.
  pose proof (Z.rem_bound_pos (el * Z.of_N ppm) 1000000 ltac:(lia) ltac:(lia)) as Hr.
  set (m := Z.quot (el * Z.of_N ppm) 1000000) in *. set (rm := Z.rem _ _) in *.
  clearbody m rm. assert (0 <= m <= el)%Z by nia. lia.
Qed.

Definition estimates_inv (st : ClockEstimator * list (Duration * Duration)) : Prop :=
  slew_parts_per_million (config st.1) <= 20000
  /\ last_estimate st.1 = head st.2
  /\ Sorted (fun newer older => slew_related (slew_parts_per_million (config st.1)) older newer
               /\ newer.1 - older.1 <= suspension (config st.1)) st.2.

Lemma estimates_inv_step st ev : estimates_inv st -> estimates_inv (estimator_step st ev).
Proof.
  destruct st as [e out]. intros (Hppm & Hlast & Hsort). unfold estimates_inv in *. simpl in *.
  destruct ev as [x | now]; simpl.
  - pose proof (observe_cases e x) as H. destruct (observe e x) as [e' r].
    destruct H as (Hc & Hl & _). simpl. by rewrite Hc, Hl.
  - pose proof (estimate_cases e now) as H.
    destruct (estimate_server_time e now) as [e' [t | err]]; destruct H as (Hc & _ & _ & H);
      simpl; rewrite Hc.
    + destruct H as (_ & _ & Hl & H). split_and!; [done | done |]. constructor; [done |].
      rewrite Hlast in H. destruct out as [| [l s] out]; constructor.
      simpl in H. destruct H as (Hle & Hsus & target & Hpos & ->).
      split; [by apply slewed_related | done].
    + destruct H as [-> _]. done.
Qed.

Lemma estimates_inv_run e evs :
  slew_parts_per_million (config e) <= 20000 -> last_estimate e = None ->
  estimates_inv (estimator_run e evs).
Proof.
  intros Hppm Hl. unfold estimator_run.
  assert (estimates_inv (e, [])) as H by (split_and!; [done | done | constructor]).
  revert H. generalize (e, @nil (Duration * Duration)).
  induction evs as [| ev evs IH]; intros st Hst; [done |]. simpl.
  apply IH, estimates_inv_step, Hst.
Qed.

Lemma estimator_step_config st ev : config (estimator_step st ev).1 = config st.1.
Proof.
  destruct st as [e out], ev as [x | now]; simpl.
  - pose proof (observe_cases e x) as H. destruct (observe e x). by destruct H.
  - pose proof (estimate_cases e now) as H. destruct (estimate_server_time e now) as [e' [|]];
      by destruct H.
Qed.

Lemma estimator_run_config e evs : config (estimator_run e evs).1 = config e.
Proof.
  unfold estimator_run. change e with (e, @nil (Duration * Duration)).1 at 2.
  generalize (e, @nil (Duration * Duration)).
  induction evs as [| ev evs IH]; intros st; [done |]. simpl.
  by rewrite IH, estimator_step_config.
Qed.

Lemma offset_inv_run P evs st :
  0 < sample_window (config st.1) -> offset_inv P st.1 ->
  (forall x s, EvObserve x ∈ evs -> from_exchange x = Ok s -> P s) ->
  offset_inv P (foldl estimator_step st evs).1.
Proof.
  revert st. induction evs as [| ev evs IH]; intros st Hw Hinv Hx; [done |]. simpl.
  apply IH; [by rewrite estimator_step_config | | intros; eapply Hx; [by right | done]].
  destruct st as [e out], ev as [x | now]; simpl in *.
  - apply offset_inv_observe; [done | done |]. intros s. apply Hx. by left.
  - pose proof (offset_inv_estimate P e now Hinv). by destruct (estimate_server_time e now) as [? []].
Qed.

Lemma ClockEstimator_new_Ok r epoch c e :
  ClockEstimator_new r epoch c = Ok e ->
  e = mkClockEstimator c r epoch [] None None None
  /\ 0 < sample_window c <= 256 /\ slew_parts_per_million c <= 20000.
Proof.
  unfold ClockEstimator_new.
  match goal with |- (match decide ?P with _ => _ end) = _ -> _ => destruct (decide P) as [| Hn] end;
    [done |]. intros [= <-]. split; [done |]. lia.
Qed.

(** C37 The offset the estimator works with is the one measured over the smallest round trip in
    its bounded window, so against exchanges stamped by a server clock that is [theta] ahead
    it is wrong by at most half that round trip (and half a nanosecond of rounding), whatever
    the server's processing time and however the two legs share the delay. *)
Theorem offset_error_bounded r epoch c e0 theta evs e out o :
  ClockEstimator_new r epoch c = Ok e0 ->
  observed_exchanges_true theta evs ->
  estimator_run e0 evs = (e, out) ->
  offset e = Some o ->
  len (samples e) <= sample_window c
  /\ exists best, best ∈ samples e
       /\ (forall s, s ∈ samples e -> network_round_trip best <= network_round_trip s)
       /\ (2 * Z.abs (o - theta) <= nanos (network_round_trip best) + 1)%Z.
Proof.
  intros [-> [Hw _]]%ClockEstimator_new_Ok Htrue Hrun Ho.
  set (e0 := mkClockEstimator _ _ _ _ _ _ _) in *.
  set (P := fun s => (2 * Z.abs (offset_nanos s - theta) <= nanos (network_round_trip s) + 1)%Z).
  assert (offset_inv P e) as (Hlen & HP & Hoff).
  { change e with (e, out).1. rewrite <- Hrun. apply offset_inv_run; simpl; [lia | |].
    - split_and!; simpl; [rewrite len_nil; lia | by intros s ?%not_elem_of_nil | done].
    - intros x s Hx Hs. destruct (Htrue x Hx) as (d1 & p & d2 & Ht).
      apply from_exchange_true in Ht as (s' & Hs' & Hrt & _ & Herr).
      assert (s' = s) as -> by congruence. subst P. simpl. rewrite Hrt.
      unfold nanos in *. lia. }
  rewrite Ho in Hoff. destruct Hoff as (b & Hb & -> & Hmin).
  pose proof (estimator_run_config e0 evs) as Hc. rewrite Hrun in Hc. simpl in Hc.
  rewrite Hc in Hlen. split; [done |]. exists b. split_and!; [done | done | by apply HP].
Qed.

(** In any run of an estimator every two estimates it returned are related by the slew
    bound: the later one is never earlier, and the logical time between them differs from the
    local time between them by at most the configured parts per million; neighbouring
    estimates are never further apart than the suspension limit. *)
Theorem estimates_slew_bounded r epoch c e0 evs e out i j older newer :
  ClockEstimator_new r epoch c = Ok e0 ->
  estimator_run e0 evs = (e, out) ->
  (i < j)%nat -> out !! j = Some older -> out !! i = Some newer ->
  slew_related (slew_parts_per_million c) older newer
  /\ (j = S i -> newer.1 - older.1 <= suspension c).
Proof.
  intros [-> [_ Hppm]]%ClockEstimator_new_Ok Hrun Hij Hj Hi.
  set (e0 := mkClockEstimator _ _ _ _ _ _ _) in *.
  pose proof (estimates_inv_run e0 evs Hppm eq_refl) as (_ & _ & Hs).
  pose proof (estimator_run_config e0 evs) as Hc. rewrite Hc in Hs. rewrite Hrun in Hs.
  simpl in Hs. split.
  - set (R := fun newer older => slew_related (slew_parts_per_million c) older newer).
    assert (Transitive R) by (intros x y z; unfold R; intros; by etrans).
    assert (StronglySorted R out) as HR
      by (apply Sorted_StronglySorted; [done |]; eapply Sorted_weaken, Hs; by intros ? ? []).
    exact (StronglySorted_positions R out i j newer older HR Hij Hi Hj).
  - intros ->. by apply (Sorted_neighbours _ out i newer older) in Hs as [_ ?].
Qed.

(** ** Runs of the lead controller *)

Inductive lead_event :=
| EvSlack (slack : Z)
| EvAssign (estimated : ServerTick).

(** One call; an assigned target is recorded with the estimate and the lead it was assigned
    at, newest first. *)
Definition lead_step (st : LeadController * list (TargetTick * ServerTick * N)) (ev : lead_event)
  : LeadController * list (TargetTick * ServerTick * N) :=
  match ev with
  | EvSlack slack => ((observe_arrival_slack st.1 slack).1, st.2)
  | EvAssign estimated =>
      match assign_target st.1 estimated with
      | (c, Ok (Some target)) => (c, (target, estimated, lead st.1) :: st.2)
      | (c, _) => (c, st.2)
      end
  end.

Definition lead_run (c : LeadController) (evs : list lead_event) :=
  foldl lead_step (c, []) evs.

(** At least three quarters of the samples arrived more than two ticks early. *)
Definition overbuffered (l : list Z) : Prop :=
  (3 * length l <= 4 * length (filter (fun s => 2 < s)%Z l))%nat.

Lemma lower_quartile_overbuffered l :
  (0 < length l)%nat -> (2 < lower_quartile l)%Z -> overbuffered l.
Proof.
  intros Hl Hq. unfold overbuffered, lower_quartile in *.
  pose proof (merge_sort_Permutation Z.le l) as Hp.
  pose proof (StronglySorted_merge_sort Z.le l) as Hs.
  rewrite <- Hp. set (m := merge_sort Z.le l) in *. clearbody m.
  rewrite <- Hp in Hl, Hq. clear Hp.
  set (n := (length m / 4)%nat) in *.
  assert (4 * n <= length m)%nat by (apply Nat.Div0.mul_div_le).
  assert (n < length m)%nat as Hn by lia. clearbody n.
  rewrite <- (take_drop n m), filter_app, !length_app.
  assert (filter (fun s => 2 < s)%Z (drop n m) = drop n m) as ->.
  { apply filter_Forall_id. apply Forall_lookup. intros i x. rewrite lookup_drop. intros Hx.
    destruct (lookup_lt_is_Some_2 m n Hn) as [y Hy].
    assert (nth n m 0%Z = y) as Hnth by (by apply nth_lookup_Some).
    rewrite Hnth in Hq. destruct i as [| i].
    { rewrite Nat.add_0_r in Hx. congruence. }
    pose proof (StronglySorted_positions Z.le m n (n + S i) y x Hs ltac:(lia) Hy Hx). lia. }
  rewrite length_drop, length_take. lia.
Qed.

Definition lead_inv (st : LeadController * list (TargetTick * ServerTick * N)) : Prop :=
  1 <= lead st.1 <= 12
  /\ len (slack_samples st.1) <= 32
  /\ last_target st.1 = (fun p => p.1.1) <$> head st.2
  /\ Forall (fun p => p.1.1 = p.1.2 + p.2 /\ 1 <= p.2 <= 12 /\ p.1.1 <= u64_max) st.2
  /\ Sorted (fun newer older => older.1.1 < newer.1.1 <= older.1.1 + 12) st.2.

Lemma slack_cases c slack :
  let '(c', r) := observe_arrival_slack c slack in
  last_target c' = last_target c
  /\ (1 <= lead c <= 12 -> 1 <= lead c' <= 12)
  /\ (len (slack_samples c) <= 32 -> len (slack_samples c') <= 32)
  /\ (is_Some (lead_resync c) -> c' = c)
  /\ (lead c' = lead c
      \/ lead c' = lead c + 1 /\ (slack <= 0)%Z /\ slack_samples c' = []
      \/ lead c' = lead c - 1 /\ (0 < slack)%Z /\ slack_samples c' = []
         /\ exists window, (8 <= length window)%nat /\ overbuffered window
              /\ (window = slack_samples c ++ [slack]
                  \/ window = drop 1 (slack_samples c) ++ [slack])).
Proof.
  unfold observe_arrival_slack. destruct (lead_resync c) eqn:Hr.
  { split_and!; auto. }
  case_decide; [split_and!; auto; by intros [? ?] |].
  case_decide; [case_decide; simpl; split_and!; auto; try lia; try (by intros [? ?]) |].
  { intros _. unfold len. simpl. lia. }
  set (kept := if decide (len (slack_samples c) = 32) then _ else _).
  assert (kept = slack_samples c \/ kept = drop 1 (slack_samples c)) as Hk
    by (subst kept; case_decide; auto).
  assert (len (slack_samples c) <= 32 -> len (kept ++ [slack]) <= 32) as Hlen.
  { intros. rewrite len_app. unfold len in *. subst kept.
    case_decide; rewrite ?length_drop; simpl; lia. }
  cbn [slack_samples lead set_field last_target lead_resync].
  destruct (decide (8 <= len (kept ++ [slack]))) as [H8 |];
    [destruct (decide (2 < lower_quartile (kept ++ [slack]))%Z) as [Hq |];
     [destruct (decide (1 < lead c)) |] |];
    cbn; split_and!; auto; try lia; try (by intros [? ?]).
  - unfold len. simpl. lia.
  - right; right. split_and!; [lia | lia | done |]. exists (kept ++ [slack]).
    unfold len in *. split_and!; [lia | | by destruct Hk as [-> | ->]; auto].
    apply lower_quartile_overbuffered; [lia | done].
Qed.

Lemma assign_cases c estimated :
  let '(c', r) := assign_target c estimated in
  lead c' = lead c /\ slack_samples c' = slack_samples c
  /\ match r with
     | Ok (Some target) =>
         lead_resync c = None /\ target = estimated + lead c /\ target <= u64_max
         /\ last_target c' = Some target
         /\ match last_target c with Some p => p < target <= p + 12 | None => True end
     | _ => last_target c' = last_target c /\ (is_Some (lead_resync c) -> c' = c)
     end.
Proof.
  unfold assign_target. destruct (lead_resync c) eqn:Hr; [by auto |].
  destruct (checked_add _ _ _) as [target |] eqn:Ha; [| by auto].
  apply checked_add_Some in Ha as [-> Ha].
  destruct (last_target c) as [p |] eqn:Hp; [| by auto 8].
  case_decide; [by auto |]. case_decide; simpl; split_and!; auto; try lia. by intros [? ?].
Qed.

Lemma lead_inv_step st ev : lead_inv st -> lead_inv (lead_step st ev).
Proof.
  destruct st as [c out]. intros (Hlead & Hlen & Hlast & Hall & Hs). unfold lead_inv. simpl in *.
  destruct ev as [slack | est]; simpl.
  - pose proof (slack_cases c slack) as H. destruct (observe_arrival_slack c slack) as [c' r].
    destruct H as (Ht & Hl & Hn & _). simpl. rewrite Ht. auto 10.
  - pose proof (assign_cases c est) as H.
    destruct (assign_target c est) as [c' [[target |] | err]]; destruct H as (Hl & Hn & H); simpl;
      rewrite Hl, Hn; [| by destruct H as [-> _] ..].
    destruct H as (_ & -> & Hmax & -> & H).
    split_and!; [lia | lia | done | done | |]; [by constructor |].
    constructor; [done |]. rewrite Hlast in H. destruct out; constructor. by simpl in *.
Qed.

Lemma lead_inv_run evs st : lead_inv st -> lead_inv (foldl lead_step st evs).
Proof.
  revert st. induction evs as [| ev evs IH]; intros st Hst; [done |]. simpl.
  apply IH, lead_inv_step, Hst.
Qed.

Lemma lead_latched evs c out :
  is_Some (lead_resync c) -> foldl lead_step (c, out) evs = (c, out).
Proof.
  intros Hr. induction evs as [| ev evs IH]; [done |]. simpl.
  assert (lead_step (c, out) ev = (c, out)) as ->; [| done].
  destruct Hr as [reason Hr]. destruct ev; simpl.
  - unfold observe_arrival_slack. by rewrite Hr.
  - unfold assign_target. by rewrite Hr.
Qed.

(** A lead that half a round trip and the margin suggest covers them, and is valid. *)
Lemma bootstrap_covers r round_trip margin c :
  bootstrap r round_trip margin = Ok c ->
  (exists l, LeadController_new l = Ok c)
  /\ (round_trip / 2 + margin) * hz r <= lead c * 1000000000.
Proof.
  unfold bootstrap. destruct (checked_add _ _ _) eqn:Ha; [| done]. simpl.
  apply checked_add_Some in Ha as [-> _]. case_decide; [done |]. intros Hc. split; [eauto |].
  unfold LeadController_new in Hc. case_decide; [| done]. simplify_eq/=.
  apply div_ceil_le; lia.
Qed.

(** However arrival slacks and estimates interleave, the lead stays between 1 and 12 ticks
    and falls only when at least three quarters of a window of eight or more slacks exceeded
    two ticks; each assigned target is the estimate plus the lead of the moment, targets
    strictly increase by at most 12, and after a resynchronization request neither the
    controller nor the assigned targets change. *)
Theorem lead_targets_paced l c0 evs c out :
  LeadController_new l = Ok c0 ->
  lead_run c0 evs = (c, out) ->
  1 <= lead c <= 12
  /\ Forall (fun p => p.1.1 = p.1.2 + p.2 /\ 1 <= p.2 <= 12 /\ p.1.1 <= u64_max) out
  /\ Sorted (fun newer older => older.1.1 < newer.1.1 <= older.1.1 + 12) out
  /\ (forall slack, lead (observe_arrival_slack c slack).1 < lead c ->
        exists window, (8 <= length window)%nat /\ overbuffered window
          /\ last window = Some slack)
  /\ (is_Some (lead_resync c) -> forall more, foldl lead_step (c, out) more = (c, out)).
Proof.
  intros Hnew Hrun. assert (lead_inv (c, out)) as (Hl & _ & _ & Hall & Hs).
  { rewrite <- Hrun. apply lead_inv_run. unfold LeadController_new in Hnew.
    case_decide; [| done]. simplify_eq. unfold lead_inv. cbn [fst snd lead slack_samples last_target].
    rewrite len_nil. split_and!; [lia | lia | lia | done | constructor | constructor]. }
  simpl in *. split_and!; [lia | lia | done | done | | intros; by apply lead_latched].
  intros slack Hlt. pose proof (slack_cases c slack) as H.
  destruct (observe_arrival_slack c slack) as [c' r]. simpl in *.
  destruct H as (_ & _ & _ & _ & [H | [[H _] | (_ & _ & _ & w & H8 & Hw & H)]]); [lia | lia |].
  exists w. split_and!; [done | done |]. destruct H as [-> | ->]; apply last_snoc.
Qed.

Lemma cursor_advance_monotone c now age :
  default 0 (cursor_last c) <= (cursor_advance c now age).2
  /\ cursor_last (cursor_advance c now age).1 = Some (cursor_advance c now age).2
  /\ segment (cursor_advance c now age).1 = segment c.
Proof. unfold cursor_advance. destruct (cursor_last c); simpl; split_and!; done || lia. Qed.

(** ** Concrete runs *)

Module SyncDemo.

Definition rate60 : TickRate := mkTickRate 60.
(** A server clock one second ahead, 10 ms up, 1 ms of processing, 20 ms down. *)
Definition slow : TimeExchange :=
  mkTimeExchange 500000000 1510000000 1511000000 531000000.
(** 4 ms up, 2 ms of processing, 5 ms down. *)
Definition fast : TimeExchange :=
  mkTimeExchange 600000000 1604000000 1606000000 611000000.
Definition e0 : ClockEstimator := mkClockEstimator ClockConfig_default rate60 0 [] None None None.
Definition evs : list estimator_event :=
  [EvObserve slow; EvEstimate 540000000; EvObserve fast; EvEstimate 640000000;
   EvEstimate 700000000].
Definition final : ClockEstimator * list (Duration * Duration) :=
  Eval vm_compute in estimator_run e0 evs.
Definition c0 : LeadController := mkLeadController 3 [] None None.
Definition lead_evs : list lead_event :=
  [EvAssign 100; EvAssign 100; EvSlack (-1); EvAssign 100; EvSlack 5; EvAssign 105; EvAssign 140;
   EvAssign 141].
Definition lead_final : LeadController * list (TargetTick * ServerTick * N) :=
  Eval vm_compute in lead_run c0 lead_evs.

End SyncDemo.

Lemma offset_error_bounded_witness :
  exists best, best ∈ samples SyncDemo.final.1
    /\ (2 * Z.abs (999500000 - 1000000000) <= nanos (network_round_trip best) + 1)%Z.
Proof.
  destruct (offset_error_bounded SyncDemo.rate60 0 ClockConfig_default SyncDemo.e0
              1000000000 SyncDemo.evs SyncDemo.final.1 SyncDemo.final.2 999500000)
    as (_ & b & Hb & _ & Herr).
  - vm_compute. reflexivity.
  - intros x Hx. unfold SyncDemo.evs in Hx. rewrite !elem_of_cons in Hx.
    destruct Hx as [[= ->] | [[=] | [[= ->] | [[=] | [[=] | Hx]]]]].
    + exists 10000000, 1000000, 20000000. by vm_compute.
    + exists 4000000, 2000000, 5000000. by vm_compute.
    + by apply not_elem_of_nil in Hx.
  - vm_compute. reflexivity.
  - vm_compute. reflexivity.
  - exists b. split; [exact Hb | exact Herr].
Defined.

Lemma estimates_slew_bounded_witness :
  slew_related 20000 (540000000, 1535000000) (700000000, 1698200000).
Proof.
  apply (estimates_slew_bounded SyncDemo.rate60 0 ClockConfig_default SyncDemo.e0 SyncDemo.evs
           SyncDemo.final.1 SyncDemo.final.2 0 2); vm_compute; try reflexivity; lia.
Defined.

Lemma lead_targets_paced_witness :
  lead SyncDemo.lead_final.1 = 4
  /\ Sorted (fun newer older : TargetTick * ServerTick * N =>
       older.1.1 < newer.1.1 <= older.1.1 + 12) SyncDemo.lead_final.2.
Proof.
  split; [vm_compute; reflexivity |].
  apply (lead_targets_paced 3 SyncDemo.c0 SyncDemo.lead_evs SyncDemo.lead_final.1);
    vm_compute; reflexivity.
Defined.
