(* ===== verification/CommittedClock.v ===== *)
(** * The committed-progress clock

    Models [engine/net/src/synchronization/committed.rs]: an estimate of the simulation tick a
    remote authority has committed, extrapolated from a tick and the server time it was
    reported at, and held inside a speculative budget over the committed tick. *)

From S2P Require Import Prelude Types Floats Synchronization.
Local Open Scope N_scope.
Local Open Scope engine_scope.

Record CommittedClock := mkCommittedClock {
  rate : TickRate;
  anchor_tick : ServerTick;
  anchor_time : Duration;
  phase_offset_nanos : Z;
  committed : ServerTick;
  maximum_ahead : N;
}.
#[export] Instance eta_CommittedClock : Eta CommittedClock := fun r =>
  mkCommittedClock (rate r) (anchor_tick r) (anchor_time r) (phase_offset_nanos r)
    (committed r) (maximum_ahead r).

Definition CommittedClock_new (r : TickRate) (tick : ServerTick) (server_time : Duration) (ahead : N)
  : result SyncError CommittedClock :=
  if decide (ahead = 0) then Err InvalidConfiguration
  else Ok (mkCommittedClock r tick server_time 0 tick ahead).

Definition commit_tick (c : CommittedClock) (tick : ServerTick) : CommittedClock :=
  c <| committed := N.max (committed c) tick |>.

Definition i64_try_from (z : Z) : option Z :=
  if decide (i64_min <= z <= i64_max)%Z then Some z else None.

Definition extrapolated_elapsed (c : CommittedClock) (server_now : Duration)
  : result SyncError Duration :=
  let phase := Z.abs_N (phase_offset_nanos c) in
  ok_or
    (match deadline (rate c) (anchor_tick c) with
     | Some anchor =>
         match (if decide (phase_offset_nanos c < 0)%Z then checked_sub anchor phase
                else checked_add duration_max anchor phase) with
         | Some time =>
             checked_add duration_max time (saturating_sub server_now (anchor_time c))
         | None => None
         end
     | None => None
     end) TimeRange.

(** The phase kept when a reply that advances both the tick and the time agrees with the
    extrapolation to within the neighbouring deadlines. *)
Definition agreeing_phase (c : CommittedClock) (tick : ServerTick) (server_time : Duration) : option Z :=
  let preceding := deadline (rate c) (tick - 1) in
  let following := match checked_next u64_max tick with
                   | Some next => deadline (rate c) next
                   | None => None
                   end in
  match ok (extrapolated_elapsed c server_time), deadline (rate c) tick with
  | Some previous, Some reported =>
      if match preceding with Some bound => bool_decide (bound < previous) | None => false end
         && match following with Some bound => bool_decide (previous < bound) | None => false end
      then i64_try_from (nanos previous - nanos reported)%Z
      else None
  | _, _ => None
  end.

Definition observe_committed (c : CommittedClock) (tick : ServerTick) (server_time : Duration)
  : CommittedClock * result SyncError unit :=
  if decide (server_time < anchor_time c \/ tick < anchor_tick c) then (c, Err NonMonotonicTime)
  else
    let phase :=
      if decide (anchor_tick c < tick /\ anchor_time c < server_time)
      then default 0%Z (agreeing_phase c tick server_time)
      else if decide (tick = anchor_tick c /\ server_time = anchor_time c)
      then phase_offset_nanos c
      else 0%Z in
    let c := c <| anchor_tick := tick |> <| anchor_time := server_time |>
               <| phase_offset_nanos := phase |> in
    (commit_tick c tick, Ok tt).

Definition estimate_elapsed (c : CommittedClock) (server_now : Duration) (reserved_headroom : N)
  : result SyncError Duration :=
  let? available := ok_or (checked_sub (maximum_ahead c) reserved_headroom) InvalidConfiguration in
  let? estimated := extrapolated_elapsed c server_now in
  let? ceiling := ok_or (checked_add u64_max (committed c) available) TimeRange in
  let? floor := ok_or (deadline (rate c) (committed c)) TimeRange in
  let? ceiling := ok_or (deadline (rate c) ceiling) TimeRange in
  Ok (N.min (N.max estimated floor) ceiling).

Definition estimate (c : CommittedClock) (server_now : Duration) (reserved_headroom : N)
  : result SyncError ServerTick :=
  let? elapsed := estimate_elapsed c server_now reserved_headroom in
  ok_or (elapsed_ticks (rate c) elapsed) TimeRange.

(** ** Properties *)

Lemma extrapolated_elapsed_Ok c now d :
  extrapolated_elapsed c now = Ok d <->
  exists a, deadline (rate c) (anchor_tick c) = Some a
    /\ (0 <= nanos a + phase_offset_nanos c)%Z
    /\ nanos d = (nanos a + phase_offset_nanos c + nanos (now - anchor_time c))%Z
    /\ d <= duration_max.
Proof.
  unfold extrapolated_elapsed, ok_or, saturating_sub, nanos.
  destruct (deadline _ _) as [a |]; [| split; [done | by intros (? & ? & _)]].
  split.
  - intros H. exists a. split; [done |]. destruct (decide _).
    + destruct (checked_sub _ _) eqn:Hs; [| done]. apply checked_sub_Some in Hs as [? ->].
      destruct (checked_add _ _ _) eqn:Ha; simplify_eq. apply checked_add_Some in Ha as [-> ?].
      lia.
    + destruct (checked_add _ _ (Z.abs_N _)) eqn:Hs; [| done]. apply checked_add_Some in Hs as [-> ?].
      destruct (checked_add _ _ _) eqn:Ha; simplify_eq. apply checked_add_Some in Ha as [-> ?].
      lia.
  - intros (a' & [= <-] & Hpos & Hd & Hmax). case_decide.
    + unfold checked_sub. rewrite decide_True by lia. unfold checked_add.
      rewrite decide_True by lia. f_equal. lia.
    + unfold checked_add. rewrite decide_True by lia. rewrite decide_True by lia. f_equal. lia.
Qed.

Lemma estimate_elapsed_Ok c now h d :
  estimate_elapsed c now h = Ok d ->
  exists x lo hi, h <= maximum_ahead c
    /\ committed c + (maximum_ahead c - h) <= u64_max
    /\ extrapolated_elapsed c now = Ok x
    /\ deadline (rate c) (committed c) = Some lo
    /\ deadline (rate c) (committed c + (maximum_ahead c - h)) = Some hi
    /\ d = N.min (N.max x lo) hi.
Proof.
  unfold estimate_elapsed, ok_or. intros H.
  destruct (checked_sub _ _) eqn:Hs; [| done]. apply checked_sub_Some in Hs as [? ->].
  destruct (extrapolated_elapsed c now) as [x | ?]; [| done].
  destruct (checked_add _ _ _) eqn:Ha; [| done]. apply checked_add_Some in Ha as [-> ?].
  destruct (deadline (rate c) (committed c)) as [lo |] eqn:Hlo; [| done].
  destruct (deadline _ (_ + _)) as [hi |] eqn:Hhi; simplify_eq. eauto 10.
Qed.

Lemma deadline_mono r a b :
  valid_rate r -> a <= b ->
  div_ceil (a * nanos_per_sec) (hz r) <= div_ceil (b * nanos_per_sec) (hz r).
Proof.
  intros Hr Hab. apply (elapsed_reaches r); [done |]. by rewrite elapsed_of_deadline.
Qed.

(** While the speculative budget covers the reserved headroom, a successful elapsed estimate
    always has a tick, that tick lies between the committed tick and the committed tick plus
    what is left of the budget, and later server times never give an earlier estimate. *)
Theorem committed_estimate_bounded c now now' h d d' :
  valid_rate (rate c) ->
  now <= now' ->
  estimate_elapsed c now h = Ok d ->
  estimate_elapsed c now' h = Ok d' ->
  d <= d'
  /\ exists t t', estimate c now h = Ok t /\ estimate c now' h = Ok t'
       /\ committed c <= t <= t' /\ t' <= committed c + (maximum_ahead c - h).
Proof.
  intros Hr Hnow Hd Hd'. unfold estimate. rewrite Hd, Hd'.
  apply estimate_elapsed_Ok in Hd as (x & lo & hi & Hh & Hmax & Hx & Hlo & Hhi & ->).
  apply estimate_elapsed_Ok in Hd' as (x' & lo' & hi' & _ & _ & Hx' & Hlo' & Hhi' & ->).
  simplify_eq. apply deadline_eq in Hlo as [Hlo _], Hhi as [Hhi _].
  apply extrapolated_elapsed_Ok in Hx as (a & Ha & _ & Hx & _).
  apply extrapolated_elapsed_Ok in Hx' as (a' & Ha' & _ & Hx' & _).
  rewrite Ha in Ha'. injection Ha' as <-.
  assert (x <= x') as Hxx by (unfold nanos in *; lia).
  pose proof (deadline_mono (rate c) (committed c) (committed c + (maximum_ahead c - h)) Hr
                ltac:(lia)) as Hlh. rewrite <- Hlo, <- Hhi in Hlh.
  set (d := N.min (N.max x lo) hi). set (d' := N.min (N.max x' lo) hi).
  assert (lo <= d /\ d <= d' /\ d' <= hi) as (H1 & H2 & H3) by (subst d d'; lia).
  split; [done |].
  assert (d * hz (rate c) / nanos_per_sec <= d' * hz (rate c) / nanos_per_sec) as Hm
    by (apply N.Div0.div_le_mono; nia).
  assert (d' * hz (rate c) / nanos_per_sec <= committed c + (maximum_ahead c - h)) as Hu.
  { rewrite <- (elapsed_of_deadline (rate c) (_ + _) Hr), <- Hhi.
    apply N.Div0.div_le_mono. nia. }
  exists (d * hz (rate c) / nanos_per_sec), (d' * hz (rate c) / nanos_per_sec).
  rewrite (proj2 (elapsed_ticks_Some _ d _)) by (split; [done | lia]).
  rewrite (proj2 (elapsed_ticks_Some _ d' _)) by (split; [done | lia]).
  split_and!; try done. apply elapsed_reaches; [done |]. by rewrite <- Hlo.
Qed.

(** Neighbouring deadlines are at most a second and a nanosecond apart. *)
Lemma deadline_step r t :
  valid_rate r ->
  div_ceil ((t + 1) * nanos_per_sec) (hz r) <= div_ceil (t * nanos_per_sec) (hz r) + nanos_per_sec.
Proof.
  intros [Hlo Hhi]. apply div_ceil_le; [lia |].
  pose proof (proj1 (div_ceil_le (t * nanos_per_sec) (hz r) _ ltac:(lia)) (N.le_refl _)). nia.
Qed.

Lemma agreeing_phase_eq c tick time prev lo hi :
  valid_rate (rate c) -> 1 <= tick < u64_max ->
  extrapolated_elapsed c time = Ok prev ->
  deadline (rate c) (tick - 1) = Some lo -> deadline (rate c) (tick + 1) = Some hi ->
  lo < prev < hi ->
  exists a, deadline (rate c) tick = Some a
    /\ agreeing_phase c tick time = Some (nanos prev - nanos a)%Z.
Proof.
  intros Hr Ht Hprev Hlo Hhi Hb. rewrite (deadline_total _ tick Hr) by lia.
  eexists; split; [done |]. unfold agreeing_phase. rewrite Hprev, Hlo. simpl.
  unfold checked_next, checked_add. rewrite decide_True by lia.
  rewrite Hhi, (deadline_total _ tick Hr) by lia.
  rewrite !bool_decide_eq_true_2 by lia. simpl.
  apply deadline_eq in Hlo as [-> _], Hhi as [-> _].
  pose proof (deadline_step (rate c) (tick - 1) Hr) as H1. rewrite N.sub_add in H1 by lia.
  pose proof (deadline_step (rate c) tick Hr) as H2.
  unfold i64_try_from. rewrite decide_True; [done |].
  unfold nanos, i64_min, i64_max, nanos_per_sec in *. lia.
Qed.

(** A reply that advances tick and time and agrees with the extrapolation to within its
    neighbouring deadlines moves the anchor without disturbing the clock: at every later
    server time the extrapolation is what it was. A reply that disagrees by a tick or more
    restarts it at the reported tick's deadline. Neither raises the committed floor above the
    highest tick reported, so a reply at an already committed tick leaves the ceiling alone. *)
Theorem observe_committed_phase c tick time c' prev lo hi :
  valid_rate (rate c) ->
  tick < u64_max -> anchor_tick c < tick -> anchor_time c < time ->
  extrapolated_elapsed c time = Ok prev ->
  deadline (rate c) (tick - 1) = Some lo -> deadline (rate c) (tick + 1) = Some hi ->
  observe_committed c tick time = (c', Ok tt) ->
  committed c' = N.max (committed c) tick
  /\ (lo < prev < hi ->
      forall now, time <= now -> extrapolated_elapsed c' now = extrapolated_elapsed c now)
  /\ (~ (lo < prev < hi) -> extrapolated_elapsed c' time = ok_or (deadline (rate c) tick) TimeRange).
Proof.
  intros Hr Ht Hat Hti Hprev Hlo Hhi Hobs.
  unfold observe_committed in Hobs. rewrite decide_False in Hobs by lia.
  rewrite decide_True in Hobs by done. injection Hobs as <-.
  split; [done |]. rewrite (deadline_total _ tick Hr) by lia. simpl. split.
  - intros Hb now Hnow.
    destruct (agreeing_phase_eq c tick time prev lo hi) as (a & Ha & ->); try done; [lia |].
    simpl.
    apply extrapolated_elapsed_Ok in Hprev as (a0 & Ha0 & Hpos & Heq & Hle).
    destruct (extrapolated_elapsed c now) as [d | err] eqn:Hd.
    + apply extrapolated_elapsed_Ok in Hd as (a1 & Ha1 & Hpos1 & Heq1 & Hle1).
      apply extrapolated_elapsed_Ok. simpl. exists a. rewrite Ha0 in Ha1. simplify_eq.
      unfold nanos in *. split_and!; [done | lia | lia | done].
    + match goal with |- ?x = _ => destruct x as [d | err'] eqn:Hd' end.
      * exfalso. apply extrapolated_elapsed_Ok in Hd' as (a1 & Ha1 & Hpos1 & Heq1 & Hle1).
        simpl in *. rewrite Ha in Ha1. simplify_eq.
        assert (extrapolated_elapsed c now = Ok d) as ?; [| congruence].
        apply extrapolated_elapsed_Ok. exists a0. unfold nanos in *.
        split_and!; [done | lia | lia | done].
      * f_equal. unfold extrapolated_elapsed, ok_or in Hd, Hd'.
        repeat case_match; simplify_eq; done.
  - intros Hb. assert (agreeing_phase c tick time = None) as ->.
    { unfold agreeing_phase. rewrite Hprev, Hlo. simpl. unfold checked_next, checked_add.
      rewrite decide_True by lia. rewrite Hhi, (deadline_total _ tick Hr) by lia.
      case_match eqn:Hb'; [| done]. apply andb_prop in Hb' as [H1 H2].
      apply bool_decide_eq_true in H1, H2. lia. }
    apply extrapolated_elapsed_Ok. simpl. eexists. split; [by apply deadline_total; [| lia] |].
    pose proof (deadline_eq _ _ _ (deadline_total _ tick Hr ltac:(lia))) as [_ ?].
    unfold nanos. rewrite N.sub_diag. split_and!; [lia | lia | done].
Qed.

(** ** Concrete clocks *)

Module CommittedDemo.
Definition c0 : CommittedClock := mkCommittedClock (mkTickRate 60) 100 5000000000 0 100 20.
(** Tick 106 is reported 105 ms later: 5 ms into it by the extrapolation. *)
Definition c1 : CommittedClock := Eval vm_compute in (observe_committed c0 106 5105000000).1.
End CommittedDemo.

Lemma committed_estimate_bounded_witness :
  exists t t', estimate CommittedDemo.c1 5200000000 4 = Ok t
    /\ estimate CommittedDemo.c1 9000000000 4 = Ok t' /\ 106 <= t <= t' /\ t' <= 106 + 16.
Proof.
  apply (committed_estimate_bounded CommittedDemo.c1 5200000000 9000000000 4 1866666667 2033333334);
    vm_compute; try reflexivity; try done.
Defined.

Lemma observe_committed_phase_witness :
  extrapolated_elapsed CommittedDemo.c1 5300000000
  = extrapolated_elapsed CommittedDemo.c0 5300000000.
Proof.
  apply (observe_committed_phase CommittedDemo.c0 106 5105000000 CommittedDemo.c1 1771666667
           1750000000 1783333334);
    vm_compute; try reflexivity; try done.
Defined.
