(* ===== verification/CombatTiming.v ===== *)
(** * Historical view validation

    Models [engine/net/src/combat_timing.rs]: a client's claim of what it was looking at when it
    acted is bounded by the server's own timing evidence. Times are ticks with a 16-bit
    fraction, compared as [u128] counts of 1/65536 tick. *)

From S2P Require Import Prelude Types.
Local Open Scope N_scope.
Local Open Scope engine_scope.

Record TimingPolicy := mkTimingPolicy {
  maximum_sample_age : N;
  maximum_future_sample : N;
  minimum_execution_lead : N;
  maximum_execution_lead : N;
  minimum_presentation_age : N;
  maximum_presentation_age : N;
  maximum_rewind : N;
  maximum_reference_advance : N;
}.

Record ViewRequest := mkViewRequest {
  sampled_at : ServerTick;
  sampled_fraction : N;
  viewed_at : ServerTick;
  viewed_fraction : N;
  reference : SnapshotId;
}.

Record TimingContext := mkTimingContext {
  ctx_connection : ConnectionEpoch;
  ctx_scene : SceneRevision;
  arrival : ServerTick;
  execution : ServerTick;
  oldest_history : ServerTick;
  newest_history : ServerTick;
}.

Record SentReference := mkSentReference {
  ref_connection : ConnectionEpoch;
  ref_scene : SceneRevision;
  state_at : ServerTick;
  sent_at : ServerTick;
}.

Record ValidatedView := mkValidatedView {
  view_execution : ServerTick;
  query : ServerTick;
  fraction : N;
  clamped : bool;
}.

Inductive TimingError :=
| InvalidPolicy
| InvalidContext
| InvalidSample
| InvalidExecutionLead
| UnknownReference
| WrongReference
| OutsidePolicy
| MissingHistory
| Overflow.

(** The closures [units] and [duration]; a [u64] tick and a [u16] fraction stay far below
    [u128::MAX]. *)
Definition units (tick fraction : N) : N := tick * 65536 + fraction.
Definition tick_units (ticks : N) : N := ticks * 65536.

Definition validate_view (policy : TimingPolicy) (context : TimingContext) (request : ViewRequest)
    (sent_reference : SnapshotId -> option SentReference) : result TimingError ValidatedView :=
  if decide (maximum_execution_lead policy < minimum_execution_lead policy
             \/ maximum_presentation_age policy < minimum_presentation_age policy)
  then Err InvalidPolicy
  else if decide (ctx_connection context = 0 \/ ctx_scene context = 0
                  \/ execution context < arrival context
                  \/ newest_history context < oldest_history context
                  \/ execution context < newest_history context)
  then Err InvalidContext
  else
    let sample := units (sampled_at request) (sampled_fraction request) in
    let arrival_at := units (arrival context) 0 in
    let execution_at := units (execution context) 0 in
    let latest_sample := arrival_at + tick_units (maximum_future_sample policy) in
    if decide (sample < saturating_sub arrival_at (tick_units (maximum_sample_age policy))
               \/ latest_sample < sample)
    then Err InvalidSample
    else
      let? lead := ok_or (checked_sub execution_at sample) InvalidExecutionLead in
      if decide (~ (tick_units (minimum_execution_lead policy) <= lead
                    <= tick_units (maximum_execution_lead policy)))
      then Err InvalidExecutionLead
      else if decide (reference request = 0) then Err UnknownReference
      else
        let? ref := ok_or (sent_reference (reference request)) UnknownReference in
        if decide (ref_connection ref <> ctx_connection context \/ ref_scene ref <> ctx_scene context
                   \/ sent_at ref < state_at ref \/ arrival context < sent_at ref)
        then Err WrongReference
        else
          let lower :=
            N.max (N.max (saturating_sub sample (tick_units (maximum_presentation_age policy)))
                         (saturating_sub execution_at (tick_units (maximum_rewind policy))))
                  (units (state_at ref) 0) in
          let? newest := ok_or (checked_sub sample (tick_units (minimum_presentation_age policy)))
                               OutsidePolicy in
          let upper :=
            N.min (N.min newest execution_at)
                  (units (state_at ref) 0 + tick_units (maximum_reference_advance policy)) in
          if decide (upper < lower) then Err OutsidePolicy
          else
            let lower := N.max lower (units (oldest_history context) 0) in
            let upper := N.min upper (units (newest_history context) 0) in
            if decide (upper < lower) then Err MissingHistory
            else
              let requested := units (viewed_at request) (viewed_fraction request) in
              let queried := clamp requested lower upper in
              let? tick := ok_or (try_from u64_max (queried / 65536)) Overflow in
              Ok (mkValidatedView (execution context) tick (queried mod 65536)
                    (bool_decide (queried <> requested))).

(** ** What the rules permit *)

(** The policy, the context, the sample time, the execution lead and the sent reference are
    all in order. *)
Definition evidence (p : TimingPolicy) (c : TimingContext) (r : ViewRequest)
    (sent : SnapshotId -> option SentReference) (ref : SentReference) : Prop :=
  let sample := units (sampled_at r) (sampled_fraction r) in
  minimum_execution_lead p <= maximum_execution_lead p
  /\ minimum_presentation_age p <= maximum_presentation_age p
  /\ ctx_connection c <> 0 /\ ctx_scene c <> 0
  /\ arrival c <= execution c
  /\ oldest_history c <= newest_history c <= execution c
  /\ units (arrival c) 0 <= sample + tick_units (maximum_sample_age p)
  /\ sample <= units (arrival c) 0 + tick_units (maximum_future_sample p)
  /\ sample + tick_units (minimum_execution_lead p) <= units (execution c) 0
  /\ units (execution c) 0 <= sample + tick_units (maximum_execution_lead p)
  /\ reference r <> 0 /\ sent (reference r) = Some ref
  /\ ref_connection ref = ctx_connection c /\ ref_scene ref = ctx_scene c
  /\ state_at ref <= sent_at ref <= arrival c.

(** A moment the authority may be queried at: as old as a presented frame may be, within the
    rewind limit and the recorded history, and neither before the referenced state nor too
    far after it. *)
Definition permitted (p : TimingPolicy) (c : TimingContext) (r : ViewRequest) (ref : SentReference)
    (q : N) : Prop :=
  let sample := units (sampled_at r) (sampled_fraction r) in
  q + tick_units (minimum_presentation_age p) <= sample
  /\ sample <= q + tick_units (maximum_presentation_age p)
  /\ q <= units (execution c) 0 <= q + tick_units (maximum_rewind p)
  /\ units (state_at ref) 0 <= q <= units (state_at ref) 0 + tick_units (maximum_reference_advance p)
  /\ units (oldest_history c) 0 <= q <= units (newest_history c) 0.

(** Distance between two moments. *)
Definition distance (a b : N) : N := (a - b) + (b - a).

Lemma units_recompose q : units (q / 65536) (q mod 65536) = q.
Proof. unfold units. pose proof (N.Div0.div_mod q 65536). lia. Qed.

(** Clamping to an interval answers its nearest point. *)
Lemma clamp_nearest a low high q :
  low <= q <= high -> distance a (clamp a low high) <= distance a q.
Proof. unfold distance, clamp. lia. Qed.

(** An early return: the test it took contradicts the evidence or the permitted window. *)
Ltac refuse :=
  split; [done |]; intros (ref' & q' & Hev & Hper);
  unfold evidence, permitted, units, tick_units in *; destruct_and?; simplify_eq; lia.

(** C36 A view request is accepted exactly when the evidence is in order and some moment is
    permitted; the moment answered is then itself permitted and no permitted moment is nearer
    to the one requested, it is marked clamped exactly when it differs from it, and the tick
    conversion cannot overflow. *)
Theorem validate_view_correct p c r sent :
  newest_history c <= u64_max ->
  match validate_view p c r sent with
  | Ok v =>
      let q := units (query v) (fraction v) in
      let requested := units (viewed_at r) (viewed_fraction r) in
      view_execution v = execution c /\ fraction v < 65536
      /\ (clamped v = false <-> q = requested)
      /\ exists ref, evidence p c r sent ref /\ permitted p c r ref q
           /\ forall q', permitted p c r ref q' -> distance requested q <= distance requested q'
  | Err e =>
      e <> Overflow
      /\ ~ exists ref q, evidence p c r sent ref /\ permitted p c r ref q
  end.
Proof.
  intros Hnewest. unfold validate_view, ok_or, saturating_sub.
  destruct (decide (_ \/ _)) as [| Hpolicy]; [refuse |].
  destruct (decide (_ \/ _)) as [| Hctx]; [refuse |].
  destruct (decide (_ \/ _)) as [| Hsample]; [refuse |].
  destruct (checked_sub (units (execution c) 0) _) as [lead |] eqn:Hlead;
    [apply checked_sub_Some in Hlead as [Hle ->] | apply checked_sub_None in Hlead; refuse].
  destruct (decide (~ _)) as [| Hrange%dec_stable]; [refuse |].
  destruct (decide (reference r = 0)); [refuse |].
  destruct (sent (reference r)) as [ref |] eqn:Hsent; [| refuse].
  destruct (decide (_ \/ _)) as [| Href]; [refuse |].
  destruct (checked_sub _ (tick_units (minimum_presentation_age p))) as [newest |] eqn:Hmin;
    [apply checked_sub_Some in Hmin as [Hmin ->] | apply checked_sub_None in Hmin; refuse].
  set (low := N.max (N.max _ _) _). set (high := N.min (N.min _ _) _).
  assert (forall q, permitted p c r ref q <->
            N.max low (units (oldest_history c) 0) <= q <= N.min high (units (newest_history c) 0))
    as Hwindow.
  { intros q. subst low high. clear - Hmin. unfold permitted.
    rewrite !N.max_lub_iff, !N.min_glb_iff. lia. }
  destruct (decide (high < low)); [subst low high; refuse |].
  destruct (decide (N.min high _ < _)); [subst low high; refuse |].
  set (requested := units (viewed_at r) _). set (queried := clamp requested _ _).
  assert (N.max low (units (oldest_history c) 0) <= queried
          <= N.min high (units (newest_history c) 0)) as Hq by (apply clamp_bounds; lia).
  destruct (try_from _ _) as [tick |] eqn:Htick.
  2: { exfalso. revert Htick. unfold try_from. case_decide as Hn; [done |]. intros _. apply Hn.
       etransitivity; [apply N.Div0.div_le_mono, (proj2 Hq) |].
       etransitivity; [apply N.Div0.div_le_mono, N.le_min_r |].
       unfold units. rewrite N.add_0_r, N.div_mul by done. done. }
  apply try_from_Some in Htick as [-> _]. cbn [view_execution query fraction clamped].
  rewrite units_recompose. split_and!; [done | by apply N.mod_lt | |].
  { rewrite bool_decide_eq_false. destruct (decide (queried = requested)); naive_solver. }
  exists ref. setoid_rewrite Hwindow. split_and!; [| lia | lia |].
  - clear - Hpolicy Hctx Hsample Hle Hrange n Hsent Href.
    unfold evidence, units, tick_units in *. split_and!; try done; lia.
  - intros q' Hq'. subst queried. apply clamp_nearest, Hq'.
Qed.

Module CombatDemo.
Definition policy : TimingPolicy := mkTimingPolicy 100 2 0 100 50 100 150 50.
Definition context : TimingContext := mkTimingContext 1 1 1025 1050 800 1050.
Definition request : ViewRequest := mkViewRequest 1000 0 960 77 7.
Definition sent (id : SnapshotId) : option SentReference :=
  if decide (id = 7) then Some (mkSentReference 1 1 900 910) else None.
End CombatDemo.

Lemma validate_view_correct_witness :
  exists ref, permitted CombatDemo.policy CombatDemo.context CombatDemo.request ref (units 950 0).
Proof.
  pose proof (validate_view_correct CombatDemo.policy CombatDemo.context CombatDemo.request
                CombatDemo.sent) as H.
  replace (validate_view _ _ _ _) with (Ok (E:=TimingError) (mkValidatedView 1050 950 0 true)) in H
    by (vm_compute; reflexivity).
  destruct H as (_ & _ & _ & ref & _ & Hp & _); [vm_compute; congruence |].
  exists ref. exact Hp.
Defined.
