(* ===== verification/Input.v ===== *)
(** * The hardware input journal

    Models [engine/net/src/input.rs]. Mouse deltas are binary64 values,
    added with round to nearest even. *)

From S2P Require Import Prelude Types Codec Floats.
Local Open Scope N_scope.
Local Open Scope engine_scope.

Section Journal.
Context {H E : Type}.

Record HardwareSample := mkHardwareSample {
  at_time : Duration;
  s_held : option H;
  s_edges : list E;
  s_mouse_delta : spec_float * spec_float;
}.

Record JournalFrame := mkJournalFrame {
  f_deadline : Duration;
  f_held : H;
  f_edges : list E;
  f_mouse_delta : spec_float * spec_float;
}.

Inductive JournalError :=
| InvalidCapacity
| Full
| NonMonotonicSample
| ClosedSampleTime
| NonMonotonicDeadline
| NonFiniteMouseDelta
| TooManyEdges.

(** A drain fails with an error, or panics on a violated [expect]. *)
Inductive drain_failure := Fails (e : JournalError) | Panics.

Record InputJournal := mkInputJournal {
  held : H;
  journal_samples : list HardwareSample;
  capacity : N;
  last_sample : option Duration;
  closed_through : option Duration;
}.
#[export] Instance eta_InputJournal : Eta InputJournal := fun r =>
  mkInputJournal (held r) (journal_samples r) (capacity r) (last_sample r) (closed_through r).

Definition InputJournal_new (neutral : H) (cap : N) : result JournalError InputJournal :=
  if decide (cap = 0) then Err InvalidCapacity
  else Ok (mkInputJournal neutral [] cap None None).

Definition capture (j : InputJournal) (sample : HardwareSample) : InputJournal * result JournalError unit :=
  if negb (is_finite (s_mouse_delta sample).1 && is_finite (s_mouse_delta sample).2)
  then (j, Err NonFiniteMouseDelta)
  else if match last_sample j with Some t => bool_decide (at_time sample < t) | None => false end
  then (j, Err NonMonotonicSample)
  else if match closed_through j with Some t => bool_decide (at_time sample <= t) | None => false end
  then (j, Err ClosedSampleTime)
  else if decide (len (journal_samples j) = capacity j) then (j, Err Full)
  else
    let j := j <| last_sample := Some (at_time sample) |> in
    (j <| journal_samples := journal_samples j ++ [sample] |>, Ok tt).

(** [for edge in sample.edges { edges.push(edge).expect(..) }]. *)
Fixpoint push_edges (edges : list E) (more : list E) : result drain_failure (list E) :=
  match more with
  | [] => Ok edges
  | edge :: more =>
      match BoundedVec_push 8 edges edge with
      | (edges, Ok _) => push_edges edges more
      | (_, Err _) => Err Panics
      end
  end.

(** The staged command: held state, edges, mouse delta and the count consumed. *)
Definition staged : Type := H * list E * (spec_float * spec_float) * nat.

Fixpoint drain_loop (samples : list HardwareSample) (st : staged) : result drain_failure staged :=
  match samples with
  | [] => Ok st
  | sample :: rest =>
      let '(hold, edges, delta, consumed) := st in
      if decide (8 < len edges + len (s_edges sample)) then Err (Fails TooManyEdges)
      else
        let? edges := push_edges edges (s_edges sample) in
        let hold := match s_held sample with Some value => value | None => hold end in
        let x := f64_add delta.1 (s_mouse_delta sample).1 in
        if negb (is_finite x) then Err (Fails NonFiniteMouseDelta)
        else
          let y := f64_add delta.2 (s_mouse_delta sample).2 in
          if negb (is_finite y) then Err (Fails NonFiniteMouseDelta)
          else drain_loop rest (hold, edges, (x, y), S consumed)
  end.

Definition drain_until (j : InputJournal) (d : Duration)
  : InputJournal * result drain_failure JournalFrame :=
  if match closed_through j with Some t => bool_decide (d < t) | None => false end
  then (j, Err (Fails NonMonotonicDeadline))
  else
    match drain_loop (take_while (fun s => bool_decide (at_time s <= d)) (journal_samples j))
            (held j, [], (f64_zero, f64_zero), 0%nat) with
    | Err e => (j, Err e)
    | Ok (hold, edges, delta, consumed) =>
        let j := j <| journal_samples := drop consumed (journal_samples j) |> in
        let j := j <| held := hold |> in
        (j <| closed_through := Some d |>, Ok (mkJournalFrame d hold edges delta))
    end.

Definition reset_journal (j : InputJournal) (neutral : H) : InputJournal :=
  j <| held := neutral |> <| journal_samples := [] |> <| last_sample := None |>
    <| closed_through := None |>.

(** ** Runs *)

Inductive journal_event := EvCapture (s : HardwareSample) | EvDrain (d : Duration).

(** The journal with the samples it accepted and the frames it produced, oldest first. *)
Definition journal_step (st : InputJournal * list HardwareSample * list JournalFrame)
    (ev : journal_event) : InputJournal * list HardwareSample * list JournalFrame :=
  let '(j, accepted, frames) := st in
  match ev with
  | EvCapture s =>
      match capture j s with
      | (j, Ok _) => (j, accepted ++ [s], frames)
      | (j, Err _) => (j, accepted, frames)
      end
  | EvDrain d =>
      match drain_until j d with
      | (j, Ok f) => (j, accepted, frames ++ [f])
      | (j, Err _) => (j, accepted, frames)
      end
  end.

Definition journal_run (j : InputJournal) (evs : list journal_event) :=
  foldl journal_step (j, [], []) evs.

(** ** What a run should produce *)

Definition latest_held (hold : H) (samples : list HardwareSample) : H :=
  foldl (fun hold s => default hold (s_held s)) hold samples.

Definition total_delta (start : spec_float * spec_float) (samples : list HardwareSample) :=
  foldl (fun d s => (f64_add d.1 (s_mouse_delta s).1, f64_add d.2 (s_mouse_delta s).2)) start samples.

Definition after (prev : option Duration) (s : HardwareSample) : Prop :=
  match prev with Some t => t < at_time s | None => True end.
#[export] Instance after_dec prev s : Decision (after prev s).
Proof. unfold after. destruct prev; apply _. Defined.

(** The command for the interval from the previous deadline (excluded) to [d] (included). *)
Definition frame_for (neutral : H) (accepted : list HardwareSample) (prev : option Duration)
    (d : Duration) : JournalFrame :=
  let mine := filter (fun s => at_time s <= d) (filter (after prev) accepted) in
  mkJournalFrame d
    (latest_held neutral (filter (fun s => at_time s <= d) accepted))
    (mine ≫= s_edges)
    (total_delta (f64_zero, f64_zero) mine).

Fixpoint frames_for (neutral : H) (accepted : list HardwareSample) (prev : option Duration)
    (deadlines : list Duration) : list JournalFrame :=
  match deadlines with
  | [] => []
  | d :: ds => frame_for neutral accepted prev d :: frames_for neutral accepted (Some d) ds
  end.

(** ** Properties *)

Lemma push_edges_ok edges more :
  len edges + len more <= 8 -> push_edges edges more = Ok (edges ++ more).
Proof.
  revert edges. induction more as [| e more IH]; intros edges Hl; simpl.
  { by rewrite app_nil_r. }
  rewrite len_cons in Hl. unfold BoundedVec_push. rewrite decide_False by lia.
  rewrite IH by (rewrite len_app, len_cons, len_nil; lia). by rewrite <- app_assoc.
Qed.

(** What the loop has staged after the samples it went through. *)
Lemma drain_loop_Ok samples hold edges delta n hold' edges' delta' n' :
  drain_loop samples (hold, edges, delta, n) = Ok (hold', edges', delta', n') ->
  is_finite delta.1 = true -> is_finite delta.2 = true -> len edges <= 8 ->
  hold' = latest_held hold samples
  /\ edges' = edges ++ (samples ≫= s_edges) /\ len edges' <= 8
  /\ delta' = total_delta delta samples
  /\ is_finite delta'.1 = true /\ is_finite delta'.2 = true
  /\ n' = (n + length samples)%nat.
Proof.
  revert hold edges delta n. induction samples as [| s rest IH]; intros hold edges delta n Hrun Hx Hy He.
  { simpl in Hrun. simplify_eq. simpl. rewrite app_nil_r, Nat.add_0_r. done. }
  cbn [drain_loop] in Hrun. destruct (decide _) as [| Hfit]; [done |].
  rewrite push_edges_ok in Hrun by lia.
  destruct (is_finite (f64_add delta.1 _)) eqn:Hfx; [| done]. cbn [negb] in Hrun.
  destruct (is_finite (f64_add delta.2 _)) eqn:Hfy; [| done]. cbn [negb] in Hrun.
  apply IH in Hrun as (-> & -> & Hle & -> & H1 & H2 & ->); [| done | done | rewrite len_app; lia].
  simpl. rewrite <- app_assoc in *. split_and!; try done; lia.
Qed.

Lemma drain_loop_no_panic samples st :
  len st.1.1.2 <= 8 -> drain_loop samples st <> Err Panics.
Proof.
  revert st. induction samples as [| s rest IH]; intros [[[hold edges] delta] n] He; [done |].
  cbn [drain_loop]. destruct (decide _) as [| Hfit]; [done |].
  rewrite push_edges_ok by lia. destruct (negb _); [done |]. destruct (negb _); [done |].
  apply IH. simpl. rewrite len_app. lia.
Qed.

(** No later than the last deadline, if any. *)
Definition until (prev : option Duration) (s : HardwareSample) : Prop :=
  match prev with Some t => at_time s <= t | None => False end.
#[export] Instance until_dec prev s : Decision (until prev s).
Proof. unfold until. destruct prev; apply _. Defined.

Definition ordered (l : list HardwareSample) : Prop :=
  StronglySorted (fun a b => at_time a <= at_time b) l.

Definition journal_inv (neutral : H) (st : InputJournal * list HardwareSample * list JournalFrame)
  : Prop :=
  let '(j, accepted, frames) := st in
  let deadlines := f_deadline <$> frames in
  len (journal_samples j) <= capacity j
  /\ journal_samples j = filter (after (closed_through j)) accepted
  /\ ordered accepted
  /\ last_sample j = at_time <$> last accepted
  /\ closed_through j = last deadlines
  /\ Forall (fun d => match closed_through j with Some t => d <= t | None => True end) deadlines
  /\ Sorted N.le deadlines
  /\ held j = latest_held neutral (filter (until (closed_through j)) accepted)
  /\ frames = frames_for neutral accepted None deadlines
  /\ Forall (fun f => len (f_edges f) <= 8 /\ is_finite (f_mouse_delta f).1 = true
                      /\ is_finite (f_mouse_delta f).2 = true) frames.

Lemma frames_for_snoc neutral accepted prev ds d :
  frames_for neutral accepted prev (ds ++ [d])
  = frames_for neutral accepted prev ds
    ++ [frame_for neutral accepted (match last ds with Some t => Some t | None => prev end) d].
Proof.
  revert prev. induction ds as [| x ds IH]; intros prev; [done |].
  simpl. rewrite IH. simpl. do 3 f_equal. destruct ds as [| y ds]; [done |].
  change (last (x :: y :: ds)) with (last (y :: ds)).
  destruct (last (y :: ds)) eqn:Hl; [done |]. by apply last_None in Hl.
Qed.

(** A sample after every deadline so far belongs to none of the frames so far. *)
Lemma frames_for_later neutral accepted s prev ds :
  Forall (fun d => d < at_time s) ds ->
  frames_for neutral (accepted ++ [s]) prev ds = frames_for neutral accepted prev ds.
Proof.
  intros Hds. revert prev. induction Hds as [| d ds Hd Hds IH]; intros prev; [done |]. simpl.
  rewrite IH. f_equal. unfold frame_for.
  assert (filter (fun s => at_time s <= d) (accepted ++ [s])
          = filter (fun s => at_time s <= d) accepted) as ->.
  { rewrite filter_app, (filter_Forall_nil _ [s]), app_nil_r; [done |]. repeat constructor. lia. }
  assert (filter (fun s => at_time s <= d) (filter (after prev) (accepted ++ [s]))
          = filter (fun s => at_time s <= d) (filter (after prev) accepted)) as ->; [| done].
  rewrite filter_app, filter_app, (filter_Forall_nil _ (filter (after prev) [s])), app_nil_r; [done |].
  apply Forall_forall. intros x [_ ->%list_elem_of_singleton]%list_elem_of_filter. lia.
Qed.

Lemma ordered_snoc accepted s :
  ordered accepted -> (forall t, last accepted = Some t -> at_time t <= at_time s) ->
  ordered (accepted ++ [s]).
Proof.
  intros Ho Hlast. unfold ordered.
  assert (Transitive (fun a b : HardwareSample => at_time a <= at_time b))
    by (intros ? ? ?; lia).
  apply Sorted_StronglySorted; [done |]. apply Sorted_snoc; [by apply StronglySorted_Sorted |].
  destruct accepted as [| x l] using rev_ind; [constructor |].
  constructor. apply Hlast. by rewrite last_snoc.
Qed.

Lemma journal_inv_capture neutral j accepted frames s :
  journal_inv neutral (j, accepted, frames) ->
  journal_inv neutral (journal_step (j, accepted, frames) (EvCapture s)).
Proof.
  intros Hinv. simpl. unfold capture. destruct (negb _); [done |].
  destruct (match last_sample j with Some t => _ | None => _ end) eqn:Hl; [done |].
  destruct (match closed_through j with Some t => _ | None => _ end) eqn:Hc; [done |].
  destruct (decide _) as [| Hcap]; [done |].
  destruct Hinv as (Hlen & Hs & Ho & Hlast & Hclosed & Hle & Hmono & Hheld & Hf & Hok).
  unfold journal_inv. cbn [capacity journal_samples last_sample closed_through held set_field].
  assert (after (closed_through j) s) as Haft.
  { unfold after. destruct (closed_through j); [| done]. apply bool_decide_eq_false in Hc. lia. }
  split_and!; try done.
  - rewrite len_app, len_cons, len_nil. lia.
  - rewrite filter_app, <- Hs. f_equal. by rewrite filter_cons_True.
  - apply ordered_snoc; [done |]. intros t Ht. rewrite Hlast, Ht in Hl. simpl in Hl.
    apply bool_decide_eq_false in Hl. lia.
  - by rewrite last_snoc.
  - rewrite filter_app, (filter_Forall_nil _ [s]), app_nil_r; [done |].
    repeat constructor. unfold after, until in *. destruct (closed_through j); [lia | tauto].
  - rewrite frames_for_later; [done |]. apply Forall_forall. intros d Hd.
    rewrite Forall_forall in Hle. specialize (Hle d Hd). unfold after in Haft.
    destruct (closed_through j) as [t |] eqn:Ht; [lia |].
    symmetry in Hclosed. apply last_None in Hclosed. rewrite Hclosed in Hd.
    by apply not_elem_of_nil in Hd.
Qed.

Lemma filter_after_le (accepted : list HardwareSample) (prev : option Duration) (d : Duration) :
  ordered accepted -> match prev with Some t => t <= d | None => True end ->
  filter (fun s => at_time s <= d) accepted
  = filter (until prev) accepted
    ++ filter (fun s => at_time s <= d) (filter (after prev) accepted).
Proof.
  intros Ho Hd. destruct prev as [t |]; simpl.
  - by rewrite (filter_sorted_split at_time t d).
  - rewrite (filter_Forall_nil (until None)), (filter_Forall_id (after None)); [done | ..];
      apply Forall_forall; simpl; tauto.
Qed.

Lemma journal_inv_drain neutral j accepted frames d :
  journal_inv neutral (j, accepted, frames) ->
  journal_inv neutral (journal_step (j, accepted, frames) (EvDrain d)).
Proof.
  intros Hinv. simpl. unfold drain_until.
  destruct (match closed_through j with Some t => _ | None => _ end) eqn:Hc; [done |].
  destruct (drain_loop _ _) as [[[[hold edges] delta] n] | e] eqn:Hloop; [| done].
  destruct Hinv as (Hlen & Hs & Ho & Hlast & Hclosed & Hle & Hmono & Hheld & Hf & Hok).
  assert (match closed_through j with Some t => t <= d | None => True end) as Hcd.
  { destruct (closed_through j); [| done]. apply bool_decide_eq_false in Hc. lia. }
  assert (ordered (journal_samples j)) as Hos
    by (rewrite Hs; apply StronglySorted_filter; done).
  destruct (take_while_sorted at_time d (journal_samples j) Hos) as [Htake Hdrop].
  apply drain_loop_Ok in Hloop as (-> & -> & H8 & -> & Hx & Hy & ->); [| done | done | done].
  unfold journal_inv. cbn [capacity journal_samples last_sample closed_through held set_field].
  rewrite !fmap_app. cbn [fmap list_fmap f_deadline].
  rewrite Nat.add_0_l, Hdrop, last_snoc, frames_for_snoc, <- Hf, <- Hclosed.
  rewrite Htake in *.
  assert (filter (until (Some d)) accepted = filter (fun s => at_time s <= d) accepted) as -> by done.
  assert (Forall (fun t => t <= d) (f_deadline <$> frames)) as Hall.
  { destruct (closed_through j).
    - eapply List.Forall_impl; [| exact Hle]. simpl. lia.
    - symmetry in Hclosed. apply last_None in Hclosed. by rewrite Hclosed. }
  split_and!.
  - unfold len in *. pose proof (length_filter (fun s => d < at_time s) (journal_samples j)). lia.
  - rewrite Hs, list_filter_filter_l; [done |]. intros s. unfold after.
    destruct (closed_through j); [lia | done].
  - done.
  - done.
  - done.
  - apply Forall_app; split; [done | by repeat constructor].
  - apply Sorted_snoc; [done |].
    destruct (f_deadline <$> frames) as [| t ts _] using rev_ind; constructor.
    rewrite Forall_app, Forall_singleton in Hall. tauto.
  - rewrite Hheld, (filter_after_le accepted (closed_through j) d Ho Hcd), Hs.
    unfold latest_held. by rewrite foldl_app.
  - f_equal. f_equal. unfold frame_for. rewrite Hs in *.
    assert (match closed_through j with Some t => Some t | None => None end = closed_through j)
      as -> by by destruct (closed_through j).
    f_equal. rewrite (filter_after_le accepted (closed_through j) d Ho Hcd), Hheld.
    unfold latest_held. by rewrite foldl_app.
  - apply Forall_app. split; [done |]. repeat constructor; done.
Qed.

Lemma journal_inv_run neutral evs st :
  journal_inv neutral st -> journal_inv neutral (foldl journal_step st evs).
Proof.
  revert st. induction evs as [| ev evs IH]; intros [[j a] f] Hst; [done |]. cbn [foldl].
  apply IH. destruct ev; [by apply journal_inv_capture | by apply journal_inv_drain].
Qed.

(** C34 However captures and drains interleave, every accepted sample is consumed by exactly the
    frame whose interval between consecutive deadlines holds its timestamp: the frames are
    those computed from the accepted samples by their timestamps alone (edges in order and
    never more than eight, finite mouse totals, the last held state up to the deadline), the
    samples after the last deadline are pending within the capacity, and a failed call changes
    nothing and never panics. *)
Theorem samples_consumed_once neutral cap j0 evs j accepted frames :
  InputJournal_new neutral cap = Ok j0 ->
  journal_run j0 evs = (j, accepted, frames) ->
  frames = frames_for neutral accepted None (f_deadline <$> frames)
  /\ Sorted N.le (f_deadline <$> frames)
  /\ journal_samples j = filter (after (last (f_deadline <$> frames))) accepted
  /\ len (journal_samples j) <= cap
  /\ Forall (fun f => len (f_edges f) <= 8 /\ is_finite (f_mouse_delta f).1 = true
                      /\ is_finite (f_mouse_delta f).2 = true) frames
  /\ (forall s j' e, capture j s = (j', Err e) -> j' = j)
  /\ (forall d j' e, drain_until j d = (j', Err e) -> j' = j /\ e <> Panics).
Proof.
  unfold InputJournal_new. destruct (decide (cap = 0)); [done |]. intros [= <-] Hrun.
  assert (capacity j = cap /\ journal_inv neutral (j, accepted, frames)) as [Hcap Hinv].
  { split; [| rewrite <- Hrun; apply journal_inv_run; repeat split; try constructor;
              simpl; rewrite ?len_nil; lia].
    change j with (j, accepted, frames).1.1. rewrite <- Hrun. unfold journal_run.
    set (st := (_, [], [])). assert (capacity st.1.1 = cap) as Hst by done. clearbody st.
    clear Hrun. revert st Hst. induction evs as [| ev evs IH]; intros st Hst; [done |].
    simpl. apply IH. destruct st as [[i a] f], ev; simpl in *.
    - unfold capture. by repeat (case_match; simplify_eq/=).
    - unfold drain_until. by repeat (case_match; simplify_eq/=). }
  destruct Hinv as (Hlen & Hs & _ & _ & Hclosed & _ & Hmono & _ & Hf & Hok).
  rewrite <- Hclosed. split_and!; try done; [by rewrite <- Hcap | |].
  - intros s j' e. unfold capture. repeat case_match; naive_solver.
  - intros d j' e. unfold drain_until.
    destruct (match closed_through j with Some t => _ | None => _ end); [naive_solver |].
    destruct (drain_loop _ _) as [[[[? ?] ?] ?] | e'] eqn:Hd;
      [by intros [=] |]. intros [= <- <-].
    split; [done |]. intros ->. eapply drain_loop_no_panic, Hd. simpl. rewrite len_nil. lia.
Qed.
End Journal.
Arguments HardwareSample : clear implicits.
Arguments JournalFrame : clear implicits.
Arguments InputJournal : clear implicits.
Arguments journal_event : clear implicits.

Module JournalDemo.
Definition one : spec_float := S754_finite false 4503599627370496 (-52).
Definition sample (t : Duration) (hold : option N) (edges : list N) : HardwareSample N N :=
  mkHardwareSample t hold edges (one, f64_zero).
Definition evs : list (journal_event N N) :=
  [EvCapture (sample 10 (Some 7) [1]); EvCapture (sample 20 None [2; 3]); EvDrain 20;
   EvCapture (sample 20 (Some 9) [4]); EvCapture (sample 25 None [5]); EvDrain 30; EvDrain 22].
Definition j0 : InputJournal N N := mkInputJournal 0 [] 4 None None.
Definition final := Eval vm_compute in journal_run j0 evs.
End JournalDemo.

Lemma samples_consumed_once_witness :
  JournalDemo.final.2 = frames_for 0 JournalDemo.final.1.2 None [20; 30]
  /\ (f_edges <$> JournalDemo.final.2) = [[1; 2; 3]; [5]].
Proof.
  split; [| reflexivity].
  apply (samples_consumed_once 0 4 JournalDemo.j0 JournalDemo.evs JournalDemo.final.1.1);
    vm_compute; reflexivity.
Defined.
