(* ===== verification/Payload.v ===== *)
(** * Retained payloads

    The trait [Payload] of [engine/net/src/replication/mod.rs]: opaque application data that
    can be compared and that accounts for the memory it keeps. Components that store payloads
    are generic over it. *)

From Stdlib Require Import Strings.Byte.
From S2P Require Import Prelude Codec.

(** [trait Payload: Clone + PartialEq { fn retained_bytes(&self) -> usize }]. *)
Class Payload (P : Type) := {
  payload_eq : P -> P -> bool;
  retained_bytes : P -> N;
}.

(** [impl Payload for Box<[u8]>]: the length is what is retained. *)
#[export] Instance boxed_bytes_payload : Payload (list byte) := {
  payload_eq a b := bool_decide (a = b);
  retained_bytes := len;
}.

(** [impl Payload for Vec<u8>]: the allocated capacity is what is retained; it does not count
    in comparisons. *)
Record ByteVec := mkByteVec { vec_bytes : list byte; vec_capacity : N }.
#[export] Instance vec_bytes_payload : Payload ByteVec := {
  payload_eq a b := bool_decide (vec_bytes a = vec_bytes b);
  retained_bytes := vec_capacity;
}.

(** [bytes.to_vec()]; the capacity is what the allocator gives for the request. *)
Definition to_vec (allocate : N -> N) (bytes : list byte) : ByteVec := mkByteVec bytes (allocate (len bytes)).
