(* ===== verification/Outcomes.v ===== *)
(** * The ledger of terminal action results

    Models [engine/net/src/outcomes.rs]. The sequencer is an [Arc<AtomicU64>] that several
    ledgers may share: its value is passed to and returned from [finish]. A [BTreeMap] is a
    [gmap] whose iterations are sorted; [size_of::<Record<P>>()] is a parameter. An operation
    that could panic returns [None] there. *)

From S2P Require Import Prelude Types Codec Payload.
Local Open Scope N_scope.
Local Open Scope engine_scope.

Record OutcomeLimits := mkOutcomeLimits {
  limit_records : N;
  records_per_owner : N;
  limit_retained_bytes : N;
  maximum_payload_bytes : N;
  retention_ticks : N;
}.

Inductive OutcomeError := Invalid | Capacity | Unknown | Conflict | SequenceExhausted.

(** The order of [ActionKey], and of the pairs a delivery index holds. *)
Definition key_tuple (k : ActionKey) : list N :=
  [ak_connection k; ak_stream k; ak_command k; ak_slot k].
Definition key_le (a b : ActionKey) : Prop := lex_le (key_tuple a) (key_tuple b) = true.
Definition entry_le (a b : N * ActionKey) : Prop :=
  lex_le (a.1 :: key_tuple a.2) (b.1 :: key_tuple b.2) = true.
#[export] Instance key_le_dec : RelDecision key_le.
Proof. intros a b. unfold key_le. apply _. Defined.
#[export] Instance entry_le_dec : RelDecision entry_le.
Proof. intros a b. unfold entry_le. apply _. Defined.

#[export] Instance entry_le_total : Total entry_le.
Proof. intros a b. apply lex_le_total. Qed.
#[export] Instance entry_le_trans : Transitive entry_le.
Proof. intros a b c. apply lex_le_trans. Qed.

Lemma entry_le_fst a b : entry_le a b -> a.1 <= b.1.
Proof.
  unfold entry_le. simpl. rewrite orb_true_iff, andb_true_iff, !bool_decide_eq_true. lia.
Qed.

Definition is_none {A} (o : option A) : bool := match o with Some _ => false | None => true end.

Section Ledger.
Context {P : Type} `{!Payload P}.
Variable size_of_record : N.

Record TerminalOutcome := mkTerminalOutcome {
  sequence : N;
  t_key : ActionKey;
  t_at : ServerTick;
  t_payload : P;
}.

Record OutcomeRecord := mkOutcomeRecord {
  owner : N;
  terminal : option TerminalOutcome;
  reported_flag : bool;
  delivery_closed : bool;
}.
#[export] Instance eta_OutcomeRecord : Eta OutcomeRecord := fun r =>
  mkOutcomeRecord (owner r) (terminal r) (reported_flag r) (delivery_closed r).

Record OutcomeLedger := mkOutcomeLedger {
  limits : OutcomeLimits;
  records : gmap ActionKey OutcomeRecord;
  owners : gmap N N;
  delivery : gmap (N * ConnectionEpoch) (gset (N * ActionKey));
  charge : N;
}.
#[export] Instance eta_OutcomeLedger : Eta OutcomeLedger := fun r =>
  mkOutcomeLedger (limits r) (records r) (owners r) (delivery r) (charge r).

Definition with_sequencer (lim : OutcomeLimits) : result OutcomeError OutcomeLedger :=
  let? charge :=
    ok_or (match checked_add usize_max size_of_record 256 with
           | Some bytes => checked_add usize_max bytes (maximum_payload_bytes lim)
           | None => None
           end) Invalid in
  if decide (limit_records lim = 0 \/ records_per_owner lim = 0 \/ retention_ticks lim = 0
             \/ maximum_payload_bytes lim = 0 \/ limit_retained_bytes lim < charge)
  then Err Invalid
  else Ok (mkOutcomeLedger lim ∅ ∅ ∅ charge).

(** [OutcomeLedger::new] with [OutcomeSequencer::default()]. *)
Definition OutcomeLedger_new (lim : OutcomeLimits) : result OutcomeError (OutcomeLedger * N) :=
  let? l := with_sequencer lim in Ok (l, 1).

Definition records_len (l : OutcomeLedger) : N := N.of_nat (size (records l)).

Definition ledger_retained_bytes (l : OutcomeLedger) : N := records_len l * charge l.

Definition available_for (l : OutcomeLedger) (o : N) : N :=
  N.min
    (N.min (saturating_sub (limit_records (limits l)) (records_len l))
           (saturating_sub (records_per_owner (limits l)) (default 0 (owners l !! o))))
    (saturating_sub (limit_retained_bytes (limits l)) (ledger_retained_bytes l) / charge l).

Definition pending (l : OutcomeLedger) (o : N) (connection : ConnectionEpoch) : list ActionKey :=
  merge_sort key_le
    (fst <$> filter (fun kr => owner kr.2 = o /\ ak_connection kr.1 = connection
                              /\ is_none (terminal kr.2) = true)
               (map_to_list (records l))).

Definition close_delivery (l : OutcomeLedger) (o : N) (connection : ConnectionEpoch) : OutcomeLedger :=
  l <| delivery := delete (o, connection) (delivery l) |>
    <| records := map_imap (fun k r =>
         Some (if decide (owner r = o /\ ak_connection k = connection)
               then r <| delivery_closed := true |> else r)) (records l) |>.

Definition valid_key (k : ActionKey) : bool :=
  bool_decide (ak_connection k <> 0 /\ ak_stream k <> 0 /\ ak_command k <> 0 /\ ak_slot k < 8).

Definition owned_by_other (l : OutcomeLedger) (o : N) (k : ActionKey) : bool :=
  match records l !! k with Some r => bool_decide (owner r <> o) | None => false end.

Definition reserve (l : OutcomeLedger) (o : N) (keys : list ActionKey)
  : OutcomeLedger * result OutcomeError (list ActionKey) :=
  if decide (o = 0 \/ keys = [] \/ 8 < len keys) then (l, Err Invalid)
  else if decide (size (list_to_set (C:=gset ActionKey) keys) <> length keys
                  \/ forallb valid_key keys = false)
  then (l, Err Invalid)
  else if existsb (owned_by_other l o) keys then (l, Err Conflict)
  else
    let new := filter (fun k => is_none (records l !! k) = true) keys in
    match checked_add usize_max (records_len l) (len new) with
    | None => (l, Err Capacity)
    | Some total =>
        let owned := default 0 (owners l !! o) + len new in
        if bool_decide (limit_records (limits l) < total)
           || bool_decide (records_per_owner (limits l) < owned)
           || match checked_mul usize_max total (charge l) with
              | Some bytes => bool_decide (limit_retained_bytes (limits l) < bytes)
              | None => true
              end
        then (l, Err Capacity)
        else
          let l := l <| records := foldl (fun m k => <[k := mkOutcomeRecord o None false false]> m)
                                     (records l) new |> in
          let l := if decide (owned <> 0) then l <| owners := <[o := owned]> (owners l) |> else l in
          (l, Ok new)
    end.

(** [delivery.get_mut(slot)]: drop one entry, and the slot when it empties. *)
Definition drop_delivery (d : gmap (N * ConnectionEpoch) (gset (N * ActionKey)))
    (slot : N * ConnectionEpoch) (entry : N * ActionKey) :=
  match d !! slot with
  | Some entries =>
      let entries := entries ∖ {[entry]} in
      if decide (entries = ∅) then delete slot d else <[slot := entries]> d
  | None => d
  end.

(** [remove]; [None] is the panic of the [unwrap] or of the count's underflow. *)
Definition remove (l : OutcomeLedger) (k : ActionKey) : option OutcomeLedger :=
  match records l !! k with
  | None => Some l
  | Some r =>
      let l := l <| records := delete k (records l) |> in
      let l := match terminal r with
               | Some t => l <| delivery :=
                   drop_delivery (delivery l) (owner r, ak_connection k) (sequence t, k) |>
               | None => l
               end in
      match owners l !! owner r with
      | None => None
      | Some count =>
          match checked_sub count 1 with
          | None => None
          | Some count =>
              Some (l <| owners := if decide (count = 0) then delete (owner r) (owners l)
                                   else <[owner r := count]> (owners l) |>)
          end
      end
  end.

Fixpoint cancel_reservations (l : OutcomeLedger) (keys : list ActionKey) : option OutcomeLedger :=
  match keys with
  | [] => Some l
  | k :: keys =>
      if match records l !! k with Some r => is_none (terminal r) | None => false end
      then match remove l k with Some l => cancel_reservations l keys | None => None end
      else cancel_reservations l keys
  end.

(** [finish]: the ledger and the shared sequencer afterwards. *)
Definition finish (l : OutcomeLedger) (sequencer : N) (o : N) (k : ActionKey) (at_tick : ServerTick)
    (payload : P) : OutcomeLedger * N * result OutcomeError N :=
  if decide (maximum_payload_bytes (limits l) < retained_bytes payload)
  then (l, sequencer, Err Capacity)
  else
    match records l !! k with
    | None => (l, sequencer, Err Unknown)
    | Some r =>
        if decide (owner r <> o) then (l, sequencer, Err Unknown)
        else
          match terminal r with
          | Some old =>
              if bool_decide (t_at old = at_tick) && payload_eq (t_payload old) payload
              then (l, sequencer, Ok (sequence old))
              else (l, sequencer, Err Conflict)
          | None =>
              match checked_add u64_max sequencer 1 with
              | None => (l, sequencer, Err SequenceExhausted)
              | Some next =>
                  let t := mkTerminalOutcome sequencer k at_tick payload in
                  let l := l <| records := <[k := r <| terminal := Some t |>]> (records l) |> in
                  let slot := (o, ak_connection k) in
                  let l := if delivery_closed r then l
                           else l <| delivery :=
                             <[slot := default ∅ (delivery l !! slot) ∪ {[(sequencer, k)]}]>
                               (delivery l) |> in
                  (l, next, Ok sequencer)
              end
          end
    end.

Definition lookup_outcome (l : OutcomeLedger) (o : N) (k : ActionKey) : option TerminalOutcome :=
  match records l !! k with
  | Some r => if decide (owner r = o) then terminal r else None
  | None => None
  end.

Definition unreported (l : OutcomeLedger) (o : N) (connection : ConnectionEpoch) : list TerminalOutcome :=
  omap (fun entry => match records l !! entry.2 with Some r => terminal r | None => None end)
    (merge_sort entry_le (elements (default ∅ (delivery l !! (o, connection))))).

Fixpoint report_each (l : OutcomeLedger) (o : N) (keys : list ActionKey) : option OutcomeLedger :=
  match keys with
  | [] => Some l
  | k :: keys =>
      match records l !! k with
      | None => None
      | Some r =>
          let l := l <| records := <[k := r <| reported_flag := true |>]> (records l) |> in
          match terminal r with
          | None => None
          | Some t =>
              report_each
                (l <| delivery := drop_delivery (delivery l) (o, ak_connection k) (sequence t, k) |>)
                o keys
          end
      end
  end.

Definition reported (l : OutcomeLedger) (o : N) (keys : list ActionKey)
  : option (OutcomeLedger * result OutcomeError unit) :=
  if existsb (fun k => match records l !! k with
                       | None => true
                       | Some r => bool_decide (owner r <> o) || is_none (terminal r)
                       end) keys
  then Some (l, Err Unknown)
  else match report_each l o keys with
       | Some l => Some (l, Ok tt)
       | None => None
       end.

Definition expirable (lim : OutcomeLimits) (now : ServerTick) (r : OutcomeRecord) : bool :=
  (reported_flag r || delivery_closed r)
  && match terminal r with
     | Some t => bool_decide (retention_ticks lim <= saturating_sub now (t_at t))
     | None => false
     end.

Fixpoint remove_all (l : OutcomeLedger) (keys : list ActionKey) : option OutcomeLedger :=
  match keys with
  | [] => Some l
  | k :: keys => match remove l k with Some l => remove_all l keys | None => None end
  end.

Definition expire (l : OutcomeLedger) (now : ServerTick) : option OutcomeLedger :=
  remove_all l
    (merge_sort key_le
       (fst <$> filter (fun kr => expirable (limits l) now kr.2 = true) (map_to_list (records l)))).
(** ** Invariant *)

Definition owner_count (m : gmap ActionKey OutcomeRecord) (o : N) : N :=
  N.of_nat (size (filter (fun ko => ko.2 = o) (owner <$> m))).

(** A terminal result that is still to be reported on an open delivery path. *)
Definition awaiting (m : gmap ActionKey OutcomeRecord) (slot : N * ConnectionEpoch)
    (entry : N * ActionKey) : Prop :=
  exists r t, m !! entry.2 = Some r /\ owner r = slot.1 /\ ak_connection entry.2 = slot.2
    /\ terminal r = Some t /\ sequence t = entry.1
    /\ reported_flag r = false /\ delivery_closed r = false.

Definition indexed (d : gmap (N * ConnectionEpoch) (gset (N * ActionKey))) (slot : N * ConnectionEpoch)
  : gset (N * ActionKey) := default ∅ (d !! slot).

Definition owners_inv (l : OutcomeLedger) : Prop :=
  forall o, default 0 (owners l !! o) = owner_count (records l) o /\ owners l !! o <> Some 0.

Definition delivery_inv (l : OutcomeLedger) : Prop :=
  (forall slot entry, entry ∈ indexed (delivery l) slot <-> awaiting (records l) slot entry)
  /\ forall slot, delivery l !! slot <> Some ∅.

Definition capacity_inv (l : OutcomeLedger) : Prop :=
  records_len l <= limit_records (limits l)
  /\ (forall o, owner_count (records l) o <= records_per_owner (limits l))
  /\ ledger_retained_bytes l <= limit_retained_bytes (limits l).

Definition terminal_inv (l : OutcomeLedger) (sequencer : N) : Prop :=
  (forall k r t, records l !! k = Some r -> terminal r = Some t ->
     t_key t = k /\ sequence t < sequencer
     /\ retained_bytes (t_payload t) <= maximum_payload_bytes (limits l))
  /\ forall k k' r r' t t', records l !! k = Some r -> records l !! k' = Some r' ->
       terminal r = Some t -> terminal r' = Some t' -> sequence t = sequence t' -> k = k'.

(** Only a finished action is reported. *)
Definition pending_inv (l : OutcomeLedger) : Prop :=
  forall k r, records l !! k = Some r -> terminal r = None -> reported_flag r = false.

Record ledger_inv (l : OutcomeLedger) (sequencer : N) : Prop := mk_ledger_inv {
  inv_owners : owners_inv l;
  inv_delivery : delivery_inv l;
  inv_capacity : capacity_inv l;
  inv_terminal : terminal_inv l sequencer;
  inv_pending : pending_inv l;
}.

(** *** Counting records by owner *)

Lemma owner_count_delete (m : gmap ActionKey OutcomeRecord) k r o :
  m !! k = Some r ->
  owner_count m o = owner_count (delete k m) o + (if decide (owner r = o) then 1 else 0).
Proof.
  intros Hk. unfold owner_count. rewrite fmap_delete. set (f := owner <$> m).
  assert (f !! k = Some (owner r)) as Hf by (unfold f; rewrite lookup_fmap, Hk; done).
  rewrite map_filter_delete. case_decide as Ho.
  - assert (filter (fun ko => ko.2 = o) f !! k = Some (owner r)) as Hin
      by (apply map_lookup_filter_Some; done).
    rewrite <- (insert_delete_id _ _ _ Hin) at 1.
    rewrite map_size_insert_None by apply lookup_delete_eq. lia.
  - rewrite delete_id; [lia |]. apply map_lookup_filter_None. right. intros x Hx. simpl.
    rewrite Hf in Hx. by injection Hx as <-.
Qed.

Lemma owner_count_insert (m : gmap ActionKey OutcomeRecord) k r o :
  m !! k = None ->
  owner_count (<[k := r]> m) o = owner_count m o + (if decide (owner r = o) then 1 else 0).
Proof.
  intros Hk. rewrite (owner_count_delete (<[k := r]> m) k r) by apply lookup_insert_eq.
  by rewrite delete_insert_id.
Qed.

Lemma owner_count_update (m : gmap ActionKey OutcomeRecord) k r r' o :
  m !! k = Some r -> owner r' = owner r -> owner_count (<[k := r']> m) o = owner_count m o.
Proof.
  intros Hk Ho. unfold owner_count. rewrite fmap_insert, insert_id; [done |].
  by rewrite lookup_fmap, Hk, Ho.
Qed.

(** *** The delivery index *)

Lemma indexed_drop d slot entry slot' e :
  e ∈ indexed (drop_delivery d slot entry) slot'
  <-> e ∈ indexed d slot' /\ ~ (slot' = slot /\ e = entry).
Proof.
  unfold indexed, drop_delivery. destruct (d !! slot) as [es |] eqn:Hd.
  - destruct (decide (slot' = slot)) as [-> | Hne].
    + rewrite Hd. simpl. case_decide as He; [rewrite lookup_delete_eq | rewrite lookup_insert_eq];
        simpl; set_solver.
    + case_decide; [rewrite lookup_delete_ne by done | rewrite lookup_insert_ne by done]; naive_solver.
  - split; [| by intros []]. intros He. split; [done |]. intros [-> ->]. rewrite Hd in He.
    by apply not_elem_of_empty in He.
Qed.

Lemma drop_delivery_nonempty d slot entry :
  (forall s, d !! s <> Some ∅) -> forall s, drop_delivery d slot entry !! s <> Some ∅.
Proof.
  intros Hd s. unfold drop_delivery. destruct (d !! slot) as [es |]; [| done].
  destruct (decide (es ∖ {[entry]} = ∅)) as [He | He]; destruct (decide (s = slot)) as [-> | Hne];
    rewrite ?lookup_delete_eq, ?lookup_insert_eq, ?lookup_delete_ne, ?lookup_insert_ne by done;
    [done | done | congruence | done].
Qed.

Lemma awaiting_delete m k slot entry :
  awaiting (delete k m) slot entry <-> awaiting m slot entry /\ entry.2 <> k.
Proof.
  unfold awaiting. split.
  - intros (r & t & [Hne Hr]%lookup_delete_Some & H). split; [| done]. eauto.
  - intros [(r & t & Hr & H) Hne]. exists r, t. rewrite lookup_delete_ne by done. eauto.
Qed.

Lemma awaiting_insert m k r slot entry :
  awaiting (<[k := r]> m) slot entry <->
  (entry.2 = k /\ exists t, owner r = slot.1 /\ ak_connection k = slot.2 /\ terminal r = Some t
     /\ sequence t = entry.1 /\ reported_flag r = false /\ delivery_closed r = false)
  \/ (entry.2 <> k /\ awaiting m slot entry).
Proof.
  unfold awaiting. destruct (decide (entry.2 = k)) as [<- | Hne].
  - rewrite lookup_insert_eq. naive_solver.
  - rewrite lookup_insert_ne by done. naive_solver.
Qed.
(** *** Every operation keeps the invariant *)

Lemma capacity_shrink (l l' : OutcomeLedger) :
  limits l' = limits l -> charge l' = charge l ->
  (size (records l') <= size (records l))%nat ->
  (forall o, owner_count (records l') o <= owner_count (records l) o) ->
  capacity_inv l -> capacity_inv l'.
Proof.
  unfold capacity_inv, ledger_retained_bytes, records_len. intros -> -> Hs Ho (H1 & H2 & H3).
  split_and!; [lia | intros o; specialize (Ho o); specialize (H2 o); lia | nia].
Qed.

Lemma terminal_shrink (l l' : OutcomeLedger) sequencer :
  limits l' = limits l -> records l' ⊆ records l ->
  terminal_inv l sequencer -> terminal_inv l' sequencer.
Proof.
  intros Hlim Hsub [H1 H2]. unfold terminal_inv. rewrite Hlim. split.
  - intros k r t Hr. apply H1. by eapply lookup_weaken.
  - intros k k' r r' t t' Hr Hr'. apply H2; by eapply lookup_weaken.
Qed.

Lemma remove_ok l sequencer k :
  ledger_inv l sequencer ->
  exists l', remove l k = Some l' /\ ledger_inv l' sequencer
    /\ records l' = delete k (records l) /\ limits l' = limits l /\ charge l' = charge l.
Proof.
  intros [Ho [Hd Hne] Hc Ht Hp]. unfold remove. destruct (records l !! k) as [r |] eqn:Hr.
  2: { exists l. rewrite delete_id by done. split_and!; done. }
  assert (forall o, owner_count (records l) o
            = owner_count (delete k (records l)) o + (if decide (owner r = o) then 1 else 0))
    as Hcount by (intros o; by apply owner_count_delete).
  destruct (Ho (owner r)) as [Hor _].
  pose proof (Hcount (owner r)) as Hcr. rewrite decide_True in Hcr by done.
  set (l1 := match terminal r with Some t => _ | None => _ end).
  assert (owners l1 = owners l /\ records l1 = delete k (records l)
          /\ limits l1 = limits l /\ charge l1 = charge l) as (Eo & Er & El & Ec)
    by (subst l1; by destruct (terminal r)).
  assert (delivery_inv l1) as Hdel.
  { unfold delivery_inv. rewrite Er. subst l1. destruct (terminal r) as [t |] eqn:Htr; simpl.
    - split; [| by apply drop_delivery_nonempty]. intros slot entry.
      rewrite indexed_drop, Hd, awaiting_delete. split; intros [Ha Hn]; split; try done.
      + intros Hk. apply Hn. destruct Ha as (r' & t' & Hr' & H1 & H2 & H3 & H4 & _).
        rewrite Hk in *. simplify_eq. destruct slot, entry. simpl in *. by subst.
      + intros [_ ->]. done.
    - split; [| done]. intros slot entry. rewrite Hd, awaiting_delete. split; [| by intros []].
      intros Ha. split; [done |]. intros Hk. destruct Ha as (r' & t' & Hr' & _ & _ & H3 & _).
      rewrite Hk in Hr'. simplify_eq. }
  clearbody l1. rewrite Eo. destruct (owners l !! owner r) as [n |] eqn:Hn; simpl in Hor; [| lia].
  unfold checked_sub. rewrite decide_True by lia.
  eexists. split; [done |]. split; [| by rewrite <- Er, <- El, <- Ec].
  constructor; simpl.
  - intros o. simpl. rewrite Er. destruct (Ho o) as [Hoo Hzo]. rewrite (Hcount o) in Hoo.
    destruct (decide (owner r = o)) as [<- | Hne'].
    + rewrite Hn in Hoo. simpl in Hoo.
      destruct (decide (n - 1 = 0)); [rewrite lookup_delete_eq | rewrite lookup_insert_eq]; simpl.
      * split; [lia | done].
      * split; [lia | congruence].
    + destruct (decide (n - 1 = 0));
        [rewrite lookup_delete_ne by done | rewrite lookup_insert_ne by done];
        (split; [lia | done]).
  - exact Hdel.
  - eapply capacity_shrink, Hc; simpl; rewrite ?Er, ?El, ?Ec; try done.
    + rewrite map_size_delete, Hr. apply Nat.le_pred_l.
    + intros o. rewrite (Hcount o). lia.
  - eapply terminal_shrink, Ht; simpl; rewrite ?Er, ?El; [done | apply delete_subseteq].
  - intros k' x. simpl. rewrite Er. intros [_ Hx]%lookup_delete_Some. by apply (Hp k').
Qed.

Lemma remove_all_ok keys l sequencer :
  ledger_inv l sequencer ->
  exists l', remove_all l keys = Some l' /\ ledger_inv l' sequencer
    /\ limits l' = limits l
    /\ forall k, records l' !! k = if decide (k ∈ keys) then None else records l !! k.
Proof.
  revert l. induction keys as [| k keys IH]; intros l Hinv; simpl.
  { exists l. split_and!; try done. }
  destruct (remove_ok l sequencer k Hinv) as (l1 & -> & Hinv1 & Hr & Hl & _).
  destruct (IH l1 Hinv1) as (l2 & -> & Hinv2 & Hl2 & Hr2). exists l2.
  split_and!; [done | done | congruence |]. intros k'. rewrite Hr2, Hr.
  destruct (decide (k' ∈ keys)); [by rewrite decide_True by (by right) |].
  destruct (decide (k' = k)) as [-> | Hne].
  - rewrite decide_True by (by left). apply lookup_delete_eq.
  - rewrite decide_False by (rewrite elem_of_cons; tauto). by rewrite lookup_delete_ne.
Qed.

Lemma cancel_ok keys l sequencer :
  ledger_inv l sequencer ->
  exists l', cancel_reservations l keys = Some l' /\ ledger_inv l' sequencer
    /\ limits l' = limits l
    /\ forall k r, records l !! k = Some r -> is_Some (terminal r) -> records l' !! k = Some r.
Proof.
  revert l. induction keys as [| k keys IH]; intros l Hinv; simpl.
  { exists l. split_and!; try done. }
  destruct (match records l !! k with Some r => _ | None => _ end) eqn:Hp; [| by apply IH].
  destruct (remove_ok l sequencer k Hinv) as (l1 & -> & Hinv1 & Hr & Hl & _).
  destruct (IH l1 Hinv1) as (l2 & -> & Hinv2 & Hl2 & Hr2). exists l2.
  split_and!; [done | done | congruence |]. intros k' r Hk' Ht. apply Hr2; [| done].
  rewrite Hr, lookup_delete_ne; [done |]. intros ->. rewrite Hk' in Hp.
  by destruct Ht as [t Ht]; rewrite Ht in Hp.
Qed.
Lemma close_delivery_lookup l o c k :
  records (close_delivery l o c) !! k
  = (fun r => if decide (owner r = o /\ ak_connection k = c) then r <| delivery_closed := true |> else r)
      <$> records l !! k.
Proof. simpl. rewrite map_lookup_imap. by destruct (records l !! k). Qed.

Lemma close_delivery_owners l o c :
  owner <$> records (close_delivery l o c) = owner <$> records l.
Proof.
  apply map_eq. intros k. rewrite !lookup_fmap, close_delivery_lookup.
  destruct (records l !! k) as [r |]; [| done]. simpl. by case_decide.
Qed.

Lemma close_delivery_ok l sequencer o c :
  ledger_inv l sequencer -> ledger_inv (close_delivery l o c) sequencer.
Proof.
  intros [Ho [Hd Hne] Hc [Ht1 Ht2] Hp].
  pose proof (close_delivery_owners l o c) as Hown.
  assert (forall o', owner_count (records (close_delivery l o c)) o' = owner_count (records l) o')
    as Hcount by (intros o'; unfold owner_count; by rewrite Hown).
  assert (forall k r t, records (close_delivery l o c) !! k = Some r -> terminal r = Some t ->
            exists r0, records l !! k = Some r0 /\ terminal r0 = Some t) as Hterm.
  { intros k r t. rewrite close_delivery_lookup. destruct (records l !! k) as [r0 |]; [| done].
    intros [= <-]. exists r0. split; [done |]. by case_decide. }
  constructor.
  - intros o'. rewrite Hcount. apply Ho.
  - split.
    + intros slot entry. simpl. unfold indexed, awaiting. setoid_rewrite close_delivery_lookup.
      destruct (decide (slot = (o, c))) as [-> | Hs].
      * rewrite lookup_delete_eq. simpl. split; [by intros ?%not_elem_of_empty |].
        intros (r & t & Hr & H1 & H2 & _ & _ & _ & Hcl).
        destruct (records l !! entry.2) as [r0 |]; [| done]. simpl in Hr. injection Hr as <-.
        by case_decide; [| tauto].
      * rewrite lookup_delete_ne by done. change (default ∅ (delivery l !! slot)) with (indexed (delivery l) slot).
        rewrite Hd. unfold awaiting. destruct slot as [o' c']. simpl in *.
        destruct (records l !! entry.2) as [r0 |]; [| naive_solver].
        split; intros (r & t & Hr & H1 & H2 & H3); simpl in *; simplify_eq;
          (eexists _, t; split; [done |]); case_decide; naive_solver.
    + intros slot. simpl. destruct (decide (slot = (o, c))) as [-> | Hs];
        [by rewrite lookup_delete_eq | by rewrite lookup_delete_ne].
  - eapply capacity_shrink, Hc; try done.
    + rewrite <- (map_size_fmap owner), Hown, map_size_fmap. done.
    + intros o'. by rewrite Hcount.
  - split.
    + intros k r t Hr Htr. destruct (Hterm k r t Hr Htr) as (r0 & Hr0 & Ht0). by apply (Ht1 k r0).
    + intros k k' r r' t t' Hr Hr' Htr Htr'.
      destruct (Hterm k r t Hr Htr) as (r0 & Hr0 & Ht0).
      destruct (Hterm k' r' t' Hr' Htr') as (r1 & Hr1 & Ht1'). by apply (Ht2 k k' r0 r1).
  - intros k r. rewrite close_delivery_lookup. destruct (records l !! k) as [r0 |] eqn:Hr0; [| done].
    intros [= <-]. specialize (Hp k r0 Hr0). by case_decide.
Qed.

Lemma reserve_records m o new :
  NoDup new -> (forall k, k ∈ new -> m !! k = None) ->
  let m' := foldl (fun m k => <[k := mkOutcomeRecord o None false false]> m) m new in
  (forall k, m' !! k = if decide (k ∈ new) then Some (mkOutcomeRecord o None false false) else m !! k)
  /\ N.of_nat (size m') = N.of_nat (size m) + len new
  /\ forall o', owner_count m' o' = owner_count m o' + (if decide (o = o') then len new else 0).
Proof.
  intros Hnd. revert m. induction Hnd as [| k new Hk Hnd IH]; intros m Hm; simpl.
  { split_and!; [done | unfold len; simpl; lia |]. intros o'. case_decide; unfold len; simpl; lia. }
  pose proof (Hm k ltac:(by left)) as Hmk.
  destruct (IH (<[k := mkOutcomeRecord o None false false]> m)) as (H1 & H2 & H3).
  { intros k' Hk'. rewrite lookup_insert_ne by (by intros ->). apply Hm. by right. }
  split_and!.
  - intros k'. rewrite H1. destruct (decide (k' ∈ new)); [by rewrite decide_True by (by right) |].
    destruct (decide (k' = k)) as [-> | Hne].
    + rewrite decide_True by (by left). apply lookup_insert_eq.
    + rewrite decide_False by (rewrite elem_of_cons; tauto). by rewrite lookup_insert_ne.
  - rewrite H2, map_size_insert_None, len_cons by done. lia.
  - intros o'. rewrite H3, owner_count_insert, len_cons by done. simpl. case_decide; lia.
Qed.
(** The guards a successful reservation passed. *)
Lemma reserve_Ok l o keys l' new :
  reserve l o keys = (l', Ok new) ->
  NoDup keys /\ new = filter (fun k => is_none (records l !! k) = true) keys
  /\ records_len l + len new <= limit_records (limits l)
  /\ default 0 (owners l !! o) + len new <= records_per_owner (limits l)
  /\ (records_len l + len new) * charge l <= limit_retained_bytes (limits l)
  /\ records l' = foldl (fun m k => <[k := mkOutcomeRecord o None false false]> m) (records l) new
  /\ owners l' = (if decide (default 0 (owners l !! o) + len new <> 0)
                  then <[o := default 0 (owners l !! o) + len new]> (owners l) else owners l)
  /\ limits l' = limits l /\ charge l' = charge l /\ delivery l' = delivery l.
Proof.
  unfold reserve. destruct (decide (_ \/ _)); [done |].
  destruct (decide (_ \/ _)) as [| Hk]; [done |]. destruct (existsb _ _); [done |].
  set (fresh := filter _ keys). destruct (checked_add _ _ _) as [total |] eqn:Ht; [| done].
  apply checked_add_Some in Ht as [-> _].
  destruct (bool_decide _ || _ || _) eqn:Hg; [done |].
  apply orb_false_elim in Hg as [[H1 H2]%orb_false_elim H3].
  apply bool_decide_eq_false in H1, H2.
  destruct (checked_mul _ _ _) as [bytes |] eqn:Hb; [| done]. apply checked_mul_Some in Hb as [-> _].
  apply bool_decide_eq_false in H3. intros Heq. injection Heq as <- <-.
  split_and!; try done; try lia.
  - apply NoDup_of_set_size. destruct (decide (size (list_to_set (C:=gset ActionKey) keys) = length keys));
      [done | tauto].
  - by destruct (decide _).
  - by destruct (decide _).
  - by destruct (decide _).
  - by destruct (decide _).
  - by destruct (decide _).
Qed.

Lemma reserve_Err l o keys l' e : reserve l o keys = (l', Err e) -> l' = l.
Proof.
  unfold reserve. destruct (decide (_ \/ _)); [naive_solver |].
  destruct (decide (_ \/ _)); [naive_solver |]. destruct (existsb _ _); [naive_solver |].
  destruct (checked_add _ _ _); [| naive_solver]. destruct (bool_decide _ || _ || _); naive_solver.
Qed.

Lemma reserve_ok l sequencer o keys l' r :
  ledger_inv l sequencer -> reserve l o keys = (l', r) ->
  ledger_inv l' sequencer /\ limits l' = limits l
  /\ forall k x, records l !! k = Some x -> records l' !! k = Some x.
Proof.
  intros Hinv Hres. destruct r as [new | e]; [| apply reserve_Err in Hres as ->; done].
  apply reserve_Ok in Hres as (Hnd & -> & H1 & H2 & H3 & Hr & Ho & Hl & Hc & Hd).
  set (new := filter _ keys) in *.
  assert (NoDup new) as Hnd' by (by apply NoDup_filter).
  assert (forall k, k ∈ new -> records l !! k = None) as Hnew.
  { intros k [Hk _]%list_elem_of_filter. by destruct (records l !! k). }
  destruct (reserve_records (records l) o new Hnd' Hnew) as (R1 & R2 & R3).
  rewrite <- Hr in R1, R2, R3. clearbody new.
  destruct Hinv as [Iow [Id Ine] Ic [It1 It2] Ip].
  assert (forall k x, records l !! k = Some x -> records l' !! k = Some x) as Hkeep.
  { intros k x Hx. rewrite R1, decide_False; [done |]. intros Hk. by rewrite (Hnew k Hk) in Hx. }
  assert (forall k x t, records l' !! k = Some x -> terminal x = Some t -> records l !! k = Some x)
    as Hback.
  { intros k x t Hx Ht. rewrite R1 in Hx. destruct (decide (k ∈ new)); [| done].
    by injection Hx as <-. }
  split_and!; [| done | done]. constructor.
  - intros o'. rewrite R3, Ho. destruct (Iow o') as [E1 E2], (Iow o) as [F1 F2].
    destruct (decide (o = o')) as [<- | Hne].
    + destruct (decide (_ <> 0)) as [Hz | Hz]; [rewrite lookup_insert_eq; simpl |].
      * split; [lia | intros [=]; lia].
      * split; [lia | done].
    + destruct (decide (_ <> 0)); [rewrite lookup_insert_ne by done |]; (split; [lia | done]).
  - unfold delivery_inv. rewrite Hd. split; [| done]. intros slot entry. rewrite Id.
    unfold awaiting. split; intros (x & t & Hx & Hrest); exists x, t; split; try done;
      [by apply Hkeep |]. eapply Hback; [done | apply Hrest].
  - destruct Ic as (C1 & C2 & C3). unfold capacity_inv, ledger_retained_bytes, records_len in *.
    rewrite Hl, Hc. split_and!; [lia | | nia].
    intros o'. rewrite R3. specialize (C2 o'). destruct (Iow o) as [F1 _].
    destruct (decide (o = o')); subst; lia.
  - split; rewrite ?Hl; intros *; eauto.
  - intros k x Hx Ht. rewrite R1 in Hx. destruct (decide (k ∈ new)); [by injection Hx as <- |].
    by apply (Ip k).
Qed.
(** Rewriting one record that keeps its owner leaves the accounts alone. *)
Lemma owners_capacity_update l k r r' d :
  records l !! k = Some r -> owner r' = owner r ->
  owners_inv l -> capacity_inv l ->
  let l' := l <| records := <[k := r']> (records l) |> <| delivery := d |> in
  owners_inv l' /\ capacity_inv l'.
Proof.
  intros Hk Ho Iow Ic. split.
  - intros o. simpl. rewrite (owner_count_update _ k r) by done. apply Iow.
  - eapply capacity_shrink, Ic; simpl; try done.
    + rewrite map_size_insert_Some by (by rewrite Hk). done.
    + intros o. by rewrite (owner_count_update _ k r).
Qed.

Lemma finish_cases l sequencer o k at_tick payload :
  let '(l', s', res) := finish l sequencer o k at_tick payload in
  (l' = l /\ s' = sequencer /\
   match res with
   | Ok n => exists r t, records l !! k = Some r /\ owner r = o /\ terminal r = Some t
               /\ n = sequence t /\ t_at t = at_tick /\ payload_eq (t_payload t) payload = true
   | Err _ => True
   end)
  \/ exists r, records l !! k = Some r /\ owner r = o /\ terminal r = None
       /\ retained_bytes payload <= maximum_payload_bytes (limits l)
       /\ res = Ok sequencer /\ s' = sequencer + 1 /\ s' <= u64_max
       /\ l' = l <| records := <[k := r <| terminal :=
                   Some (mkTerminalOutcome sequencer k at_tick payload) |>]> (records l) |>
               <| delivery :=
                    if delivery_closed r then delivery l
                    else <[(o, ak_connection k) :=
                             indexed (delivery l) (o, ak_connection k) ∪ {[(sequencer, k)]}]>
                           (delivery l) |>.
Proof.
  unfold finish. destruct (decide (_ < _)) as [| Hb]; [by left |].
  destruct (records l !! k) as [r |] eqn:Hr; [| by left].
  destruct (decide (owner r <> o)) as [| Ho%dec_stable]; [by left |].
  destruct (terminal r) as [t |] eqn:Ht.
  - destruct (bool_decide _ && _) eqn:He; [| by left]. left.
    apply andb_prop in He as [He1 He2]. apply bool_decide_eq_true in He1.
    split_and!; try done. exists r, t. done.
  - destruct (checked_add _ _ _) as [next |] eqn:Hn; [| by left]. right.
    apply checked_add_Some in Hn as [-> Hn]. exists r. split_and!; try done; [lia |].
    by destruct (delivery_closed r).
Qed.

Lemma finish_ok l sequencer o k at_tick payload l' s' res :
  ledger_inv l sequencer -> finish l sequencer o k at_tick payload = (l', s', res) ->
  ledger_inv l' s' /\ limits l' = limits l.
Proof.
  intros Hinv Hf. pose proof (finish_cases l sequencer o k at_tick payload) as H.
  rewrite Hf in H. destruct H as [(-> & -> & _) | (r & Hr & Ho & Ht & Hb & _ & -> & _ & ->)]; [done |].
  destruct Hinv as [Iow [Id Ine] Ic [It1 It2] Ip]. split; [| done].
  set (t := mkTerminalOutcome _ _ _ _). set (r' := r <| terminal := Some t |>).
  set (d := if delivery_closed r then _ else _).
  destruct (owners_capacity_update l k r r' d Hr eq_refl Iow Ic) as [Iow' Ic'].
  constructor; [done | | done | |].
  - split; simpl.
    + intros slot entry. rewrite awaiting_insert. subst d.
      assert (entry.2 = k -> ~ awaiting (records l) slot entry) as Hno.
      { intros <- (x & y & Hx & _ & _ & Hy & _). simplify_eq. }
      destruct (delivery_closed r) eqn:Hcl.
      * rewrite Id. unfold r'. cbn. rewrite Hcl. naive_solver.
      * unfold r', indexed. cbn. rewrite Hcl, (Ip k r Hr Ht).
        destruct (decide (slot = (o, ak_connection k))) as [-> | Hs].
        -- rewrite lookup_insert_eq. simpl. rewrite elem_of_union, elem_of_singleton.
           change (default ∅ (delivery l !! ?x)) with (indexed (delivery l) x). rewrite Id.
           destruct entry as [n k']. simpl in *. split.
           ++ intros [Ha | [= -> ->]]; [right; split; [| done]; intros ->; by apply Hno |].
              left. split; [done |]. by exists t.
           ++ intros [(-> & t' & _ & _ & [= <-] & <- & _) | [_ Ha]]; [by right | by left].
        -- rewrite lookup_insert_ne by done.
           change (default ∅ (delivery l !! slot)) with (indexed (delivery l) slot). rewrite Id.
           destruct slot as [o' c']. simpl in *. naive_solver.
    + intros slot. subst d. destruct (delivery_closed r); [done |].
      destruct (decide (slot = (o, ak_connection k))) as [-> | Hs];
        [| by rewrite lookup_insert_ne].
      rewrite lookup_insert_eq. intros [= He%empty_union_L]. destruct He as [_ He].
      by apply non_empty_singleton_L in He.
  - split; simpl.
    + intros k' x y [[<- <-] | [_ Hx]]%lookup_insert_Some Hy.
      * cbn in Hy. injection Hy as <-. simpl. split_and!; [done | lia | done].
      * specialize (It1 k' x y Hx Hy). naive_solver lia.
    + intros k1 k2 x1 x2 y1 y2 [[<- <-] | [_ H1]]%lookup_insert_Some
        [[<- <-] | [_ H2]]%lookup_insert_Some T1 T2 Heq; [done | | | by eapply It2].
      * cbn in T1. injection T1 as <-. specialize (It1 k2 x2 y2 H2 T2). simpl in Heq. lia.
      * cbn in T2. injection T2 as <-. specialize (It1 k1 x1 y1 H1 T1). simpl in Heq. lia.
  - intros k' x. simpl. intros [[<- <-] | [_ Hx]]%lookup_insert_Some; [done |]. by apply (Ip k').
Qed.
(** Marking one finished record of [o] as reported. *)
Lemma report_one_ok l sequencer k r t :
  ledger_inv l sequencer -> records l !! k = Some r -> terminal r = Some t ->
  ledger_inv (l <| records := <[k := r <| reported_flag := true |>]> (records l) |>
                <| delivery := drop_delivery (delivery l) (owner r, ak_connection k) (sequence t, k) |>)
    sequencer.
Proof.
  intros [Iow [Id Ine] Ic [It1 It2] Ip] Hr Ht. set (r' := r <| reported_flag := true |>).
  set (d := drop_delivery _ _ _).
  destruct (owners_capacity_update l k r r' d Hr eq_refl Iow Ic) as [Iow' Ic'].
  assert (forall k' x y, <[k := r']> (records l) !! k' = Some x -> terminal x = Some y ->
            exists x0, records l !! k' = Some x0 /\ terminal x0 = Some y) as Hterm.
  { intros k' x y [[<- <-] | [_ Hx]]%lookup_insert_Some Hy; eauto. }
  constructor; [done | | done | |].
  - split; simpl; [| by apply drop_delivery_nonempty]. intros slot entry. subst d.
    rewrite indexed_drop, Id, awaiting_insert. split.
    + intros [Ha Hn]. right. split; [| done]. intros Hk. apply Hn.
      destruct Ha as (x & y & Hx & H1 & H2 & H3 & H4 & _). rewrite Hk in *. simplify_eq.
      destruct slot, entry. simpl in *. by subst.
    + intros [(_ & y & _ & _ & _ & _ & Hf & _) | [Hne Ha]]; [done |]. split; [done |].
      by intros [_ ->].
  - split; simpl.
    + intros k' x y Hx Hy. destruct (Hterm k' x y Hx Hy) as (x0 & ? & ?). by apply (It1 k' x0).
    + intros k1 k2 x1 x2 y1 y2 H1 H2 T1 T2.
      destruct (Hterm k1 x1 y1 H1 T1) as (x3 & ? & ?), (Hterm k2 x2 y2 H2 T2) as (x4 & ? & ?).
      by apply (It2 k1 k2 x3 x4).
  - intros k' x. simpl. intros [[<- <-] | [_ Hx]]%lookup_insert_Some; [| by apply (Ip k')].
    cbn. congruence.
Qed.

Lemma report_each_ok keys l sequencer o :
  ledger_inv l sequencer ->
  (forall k, k ∈ keys -> exists r t, records l !! k = Some r /\ owner r = o /\ terminal r = Some t) ->
  exists l', report_each l o keys = Some l' /\ ledger_inv l' sequencer /\ limits l' = limits l
    /\ forall k r, records l !! k = Some r ->
         exists r', records l' !! k = Some r' /\ owner r' = owner r /\ terminal r' = terminal r
           /\ delivery_closed r' = delivery_closed r
           /\ (reported_flag r' = if decide (k ∈ keys) then true else reported_flag r).
Proof.
  revert l. induction keys as [| k keys IH]; intros l Hinv Hkeys.
  { exists l. split_and!; try done. eauto 10. }
  destruct (Hkeys k ltac:(by left)) as (r & t & Hr & Ho & Ht).
  simpl. rewrite Hr, Ht. pose proof (report_one_ok l sequencer k r t Hinv Hr Ht) as Hinv1.
  rewrite Ho in Hinv1. set (l1 := _ <| delivery := _ |>) in *.
  edestruct (IH l1 Hinv1) as (l2 & Hl2 & Hinv2 & Hlim & Hrec).
  { intros k' Hk'. destruct (Hkeys k' ltac:(by right)) as (r' & t' & Hr' & Ho' & Ht').
    simpl. destruct (decide (k' = k)) as [-> | Hne].
    - rewrite lookup_insert_eq. simplify_eq. eauto.
    - rewrite lookup_insert_ne by done. eauto. }
  exists l2. split_and!; [exact Hl2 | done | done |]. intros k' x Hx.
  destruct (decide (k' = k)) as [-> | Hne].
  - destruct (Hrec k (r <| reported_flag := true |>)) as (y & Hy & H1 & H2 & H3 & H4);
      [apply lookup_insert_eq |]. simplify_eq. exists y. split_and!; try done.
    rewrite H4, (decide_True (P := k ∈ k :: keys)) by (by left). by destruct (decide _).
  - destruct (Hrec k' x) as (y & Hy & H1 & H2 & H3 & H4); [by simpl; rewrite lookup_insert_ne |].
    exists y. split_and!; try done. rewrite H4.
    destruct (decide (k' ∈ keys)); [by rewrite decide_True by (by right) |].
    by rewrite decide_False by (rewrite elem_of_cons; tauto).
Qed.

(** ** Runs *)

Inductive ledger_event :=
| EvClose (o : N) (c : ConnectionEpoch)
| EvReserve (o : N) (keys : list ActionKey)
| EvCancel (keys : list ActionKey)
| EvFinish (o : N) (k : ActionKey) (at_tick : ServerTick) (payload : P)
| EvReported (o : N) (keys : list ActionKey)
| EvExpire (now : ServerTick)
(** Another ledger drew [n] numbers from the shared sequencer. *)
| EvForeign (n : N).

(** One call; [None] is a panic. *)
Definition ledger_step (st : OutcomeLedger * N) (ev : ledger_event) : option (OutcomeLedger * N) :=
  let '(l, s) := st in
  match ev with
  | EvClose o c => Some (close_delivery l o c, s)
  | EvReserve o keys => Some ((reserve l o keys).1, s)
  | EvCancel keys => (fun l => (l, s)) <$> cancel_reservations l keys
  | EvFinish o k at_tick payload => Some (finish l s o k at_tick payload).1
  | EvReported o keys => (fun p => (p.1, s)) <$> reported l o keys
  | EvExpire now => (fun l => (l, s)) <$> expire l now
  | EvForeign n => Some (l, s + n)
  end.

Definition ledger_run (st : OutcomeLedger * N) (evs : list ledger_event) : option (OutcomeLedger * N) :=
  foldl (fun st ev => match st with Some st => ledger_step st ev | None => None end) (Some st) evs.
Lemma expire_ok l sequencer now :
  ledger_inv l sequencer ->
  exists l', expire l now = Some l' /\ ledger_inv l' sequencer /\ limits l' = limits l
    /\ forall k r, records l !! k = Some r ->
         records l' !! k = if expirable (limits l) now r then None else Some r.
Proof.
  intros Hinv. unfold expire. set (keys := merge_sort _ _).
  destruct (remove_all_ok keys l sequencer Hinv) as (l' & Hrun & Hinv' & Hlim & Hrec).
  exists l'. split_and!; [done | done | done |]. intros k r Hr. rewrite Hrec, Hr.
  assert (k ∈ keys <-> expirable (limits l) now r = true) as Hk.
  { subst keys. rewrite merge_sort_Permutation, list_elem_of_fmap. split.
    - intros ([k' r'] & -> & [He Hin%elem_of_map_to_list]%list_elem_of_filter). simpl in *.
      by simplify_eq.
    - intros He. exists (k, r). split; [done |]. apply list_elem_of_filter.
      split; [done |]. by apply elem_of_map_to_list. }
  destruct (decide (k ∈ keys)), (expirable (limits l) now r); naive_solver.
Qed.

Lemma reported_ok l sequencer o keys :
  ledger_inv l sequencer ->
  exists l' res, reported l o keys = Some (l', res) /\ ledger_inv l' sequencer
    /\ limits l' = limits l
    /\ forall k r, records l !! k = Some r ->
         exists r', records l' !! k = Some r' /\ owner r' = owner r /\ terminal r' = terminal r.
Proof.
  intros Hinv. unfold reported. destruct (existsb _ keys) eqn:He.
  { exists l, (Err Unknown). split_and!; try done. eauto. }
  destruct (report_each_ok keys l sequencer o Hinv) as (l' & -> & Hinv' & Hlim & Hrec).
  { intros k Hk. apply not_true_iff_false in He. destruct (records l !! k) as [r |] eqn:Hr.
    - destruct (decide (owner r = o)) as [Ho |], (terminal r) as [t |] eqn:Ht; eauto;
        exfalso; apply He, existsb_exists; exists k; (split; [by apply list_elem_of_In |]);
        rewrite Hr; rewrite ?Ht; simpl; rewrite ?orb_true_r; try done;
        rewrite bool_decide_eq_true_2; done.
    - exfalso. apply He, existsb_exists. exists k. split; [by apply list_elem_of_In | by rewrite Hr]. }
  exists l', (Ok tt). split_and!; try done. intros k r Hr.
  destruct (Hrec k r Hr) as (r' & ? & ? & ? & _). eauto.
Qed.

(** What a step does to a finished record: it stays, or it has expired. *)
Lemma ledger_step_ok l s ev :
  ledger_inv l s ->
  exists l' s', ledger_step (l, s) ev = Some (l', s') /\ ledger_inv l' s' /\ limits l' = limits l
    /\ s <= s'
    /\ forall k r t, records l !! k = Some r -> terminal r = Some t ->
         (exists r', records l' !! k = Some r' /\ owner r' = owner r /\ terminal r' = Some t)
         \/ exists now, ev = EvExpire now /\ expirable (limits l) now r = true.
Proof.
  intros Hinv. destruct ev as [o c | o keys | keys | o k at_tick p | o keys | now | n]; simpl.
  - eexists _, _. split; [done |]. split_and!; [by apply close_delivery_ok | done | lia |].
    intros k r t Hr Ht. left. rewrite close_delivery_lookup, Hr. simpl. eexists; split; [done |].
    by case_decide.
  - destruct (reserve l o keys) as [l' res] eqn:Hres. simpl.
    destruct (reserve_ok l s o keys l' res Hinv Hres) as (? & ? & Hk).
    eexists _, _. split; [done |]. split_and!; try done. intros k r t Hr Ht. left. eauto 6.
  - destruct (cancel_ok keys l s Hinv) as (l' & -> & ? & ? & Hk). simpl.
    eexists _, _. split; [done |]. split_and!; try done. intros k r t Hr Ht. left.
    exists r. split_and!; [| done | done]. by apply Hk.
  - destruct (finish l s o k at_tick p) as [[l' s'] res] eqn:Hf. simpl.
    destruct (finish_ok l s o k at_tick p l' s' res Hinv Hf) as [? ?].
    pose proof (finish_cases l s o k at_tick p) as H1. rewrite Hf in H1.
    eexists _, _. split; [done |].
    destruct H1 as [(-> & -> & _) | (r0 & Hr0 & Ho & Ht0 & _ & _ & -> & _ & ->)].
    + split_and!; try done. eauto 6.
    + split_and!; try done; [lia |]. intros k' r t Hr Ht. left. exists r.
      split_and!; [| done | done]. simpl. rewrite lookup_insert_ne; [done |].
      intros <-. simplify_eq.
  - destruct (reported_ok l s o keys Hinv) as (l' & res & -> & ? & ? & Hk). simpl.
    eexists _, _. split; [done |]. split_and!; try done. intros k r t Hr Ht. left.
    destruct (Hk k r Hr) as (r' & ? & ? & ?). exists r'. split_and!; congruence.
  - destruct (expire_ok l s now Hinv) as (l' & -> & ? & ? & Hk). simpl.
    eexists _, _. split; [done |]. split_and!; try done. intros k r t Hr Ht.
    specialize (Hk k r Hr). destruct (expirable (limits l) now r) eqn:He; eauto 6.
  - eexists _, _. split; [done |]. split_and!; [| done | lia | eauto 6].
    destruct Hinv as [? ? ? [It1 It2] ?]. constructor; try done. split; [| done].
    intros k r t Hr Ht. specialize (It1 k r t Hr Ht). naive_solver lia.
Qed.
Lemma ledger_run_ok evs l s :
  ledger_inv l s ->
  exists l' s', ledger_run (l, s) evs = Some (l', s') /\ ledger_inv l' s' /\ limits l' = limits l.
Proof.
  unfold ledger_run. revert l s. induction evs as [| ev evs IH]; intros l s Hinv.
  { eexists _, _. done. }
  destruct (ledger_step_ok l s ev Hinv) as (l1 & s1 & Hs & Hinv1 & Hl1 & _). cbn [foldl].
  rewrite Hs. destruct (IH l1 s1 Hinv1) as (l2 & s2 & -> & Hinv2 & Hl2).
  eexists _, _. split_and!; [done | done | congruence].
Qed.

Lemma with_sequencer_inv lim l :
  with_sequencer lim = Ok l -> limits l = lim /\ ledger_inv l 1.
Proof.
  unfold with_sequencer. intros H. destruct (ok_or _ _) as [c | e]; [| done].
  destruct (decide (_ \/ _)) as [| Hn]; [done |]. injection H as <-. split; [done |].
  constructor.
  - intros o. simpl. unfold owner_count. simpl. rewrite fmap_empty, map_filter_empty, map_size_empty.
    rewrite lookup_empty. done.
  - split; simpl.
    + intros slot entry. unfold indexed. rewrite lookup_empty. simpl.
      split; [by intros ?%not_elem_of_empty |]. intros (r & t & Hr & _). done.
    + intros slot. by rewrite lookup_empty.
  - unfold capacity_inv, ledger_retained_bytes, records_len. simpl. rewrite map_size_empty.
    split_and!; [lia | | lia]. intros o. unfold owner_count.
    rewrite fmap_empty, map_filter_empty, map_size_empty. lia.
  - split; by intros *.
  - by intros ? ? ?.
Qed.

(** The results still to deliver are those of the index, by sequence number. *)
Lemma unreported_spec l s o c :
  ledger_inv l s ->
  (forall t, t ∈ unreported l o c <-> exists k r, awaiting (records l) (o, c) (sequence t, k)
               /\ records l !! k = Some r /\ terminal r = Some t)
  /\ Sorted N.lt (sequence <$> unreported l o c).
Proof.
  intros [_ [Id _] _ [It1 It2] _]. unfold unreported.
  change (default ∅ (delivery l !! (o, c))) with (indexed (delivery l) (o, c)).
  set (es := merge_sort entry_le _).
  assert (forall e, e ∈ es <-> awaiting (records l) (o, c) e) as Hes.
  { intros e. subst es. by rewrite merge_sort_Permutation, elem_of_elements, Id. }
  assert (NoDup es) as Hnd by (subst es; rewrite merge_sort_Permutation; apply NoDup_elements).
  assert (StronglySorted entry_le es) as Hs by (subst es; apply StronglySorted_merge_sort; apply _).
  clearbody es. split.
  - intros t. rewrite list_elem_of_omap. split.
    + intros ([n k] & He%Hes & Ht). simpl in Ht. destruct (records l !! k) as [r |] eqn:Hr; [| done].
      exists k, r. pose proof He as (r' & t' & Hr' & _ & _ & Ht' & Hn & _). simpl in *. simplify_eq.
      done.
    + intros (k & r & Ha & Hr & Ht). exists (sequence t, k). split; [by apply Hes |]. simpl.
      by rewrite Hr.
  - assert (forall e, e ∈ es -> exists r t, records l !! e.2 = Some r /\ terminal r = Some t
                                  /\ sequence t = e.1) as Hterm.
    { intros e (r & t & ? & _ & _ & ? & ? & _)%Hes. eauto. }
    assert (forall a b, a ∈ es -> b ∈ es -> a.1 = b.1 -> a = b) as Huniq.
    { intros a b Ha Hb Heq. destruct (Hterm a Ha) as (r & t & ? & ? & ?), (Hterm b Hb) as (r' & t' & ? & ? & ?).
      destruct a, b. simpl in *. f_equal; [done |]. eapply It2; [done.. |]. congruence. }
    clear Hes Id It1 It2. apply StronglySorted_Sorted.
    induction Hs as [| e es Hs IH Hle]; [constructor |].
    apply NoDup_cons in Hnd as [He Hnd].
    destruct (Hterm e ltac:(by left)) as (r & t & Hr & Ht & Hn). simpl. rewrite Hr, Ht. simpl.
    constructor.
    { apply IH; [done | intros; apply Hterm; by right |].
      intros a b Ha Hb. apply Huniq; by right. }
    apply Forall_fmap, Forall_forall. intros t' Ht'.
    apply list_elem_of_omap in Ht' as (e' & He' & Ht').
    destruct (Hterm e' ltac:(by right)) as (r' & t'' & Hr' & Ht'' & Hn').
    rewrite Hr', Ht'' in Ht'. injection Ht' as <-. simpl.
    rewrite Forall_forall in Hle. pose proof (entry_le_fst e e' (Hle e' He')).
    assert (e.1 <> e'.1); [| lia]. intros Heq. apply He.
    by rewrite (Huniq e e' ltac:(by left) ltac:(by right) Heq).
Qed.
(** C28 No sequence of ledger calls panics, and after each of them the bookkeeping is exact: the
    records, their charged bytes and each owner's share stay within the limits, the owner
    table counts the records, the results offered for delivery on a connection are exactly
    those finished there and neither reported nor closed, in increasing sequence order, and no
    two retained results share a sequence number. *)
Theorem ledger_accounts_exact lim l0 evs :
  with_sequencer lim = Ok l0 ->
  exists l s, ledger_run (l0, 1) evs = Some (l, s)
    /\ records_len l <= limit_records lim
    /\ ledger_retained_bytes l <= limit_retained_bytes lim
    /\ (forall o, default 0 (owners l !! o) = owner_count (records l) o
                  /\ owner_count (records l) o <= records_per_owner lim)
    /\ (forall o c,
          (forall t, t ∈ unreported l o c <-> exists k r, awaiting (records l) (o, c) (sequence t, k)
                       /\ records l !! k = Some r /\ terminal r = Some t)
          /\ Sorted N.lt (sequence <$> unreported l o c))
    /\ terminal_inv l s.
Proof.
  intros [Hlim Hinv]%with_sequencer_inv.
  destruct (ledger_run_ok evs l0 1 Hinv) as (l & s & Hrun & Hinv' & Hlim').
  exists l, s. destruct (inv_capacity _ _ Hinv') as (C1 & C2 & C3).
  rewrite Hlim', Hlim in C1, C2, C3. split_and!; try done.
  - intros o. split; [apply (inv_owners _ _ Hinv') | apply C2].
  - intros o c. by apply (unreported_spec l s).
  - apply Hinv'.
Qed.

(** A recorded result is final: in any reachable ledger, once an owner can look up a result,
    finishing that action again changes nothing and answers the recorded sequence number or a
    refusal, and every further call leaves the lookup as it is, except an expiry at least the
    retention period after the result, of a result that has been reported or whose delivery
    path has closed. *)
Theorem outcome_final lim l0 evs l s o k t ev l' s' :
  with_sequencer lim = Ok l0 ->
  ledger_run (l0, 1) evs = Some (l, s) ->
  lookup_outcome l o k = Some t ->
  ledger_step (l, s) ev = Some (l', s') ->
  (forall at_tick p, exists res, finish l s o k at_tick p = (l, s, res)
     /\ (res = Ok (sequence t) \/ is_ok res = false))
  /\ (lookup_outcome l' o k = Some t
      \/ exists now, ev = EvExpire now /\ retention_ticks lim <= now - t_at t
           /\ t ∉ unreported l o (ak_connection k)).
Proof.
  intros [Hlim Hinv]%with_sequencer_inv Hrun Hlook Hstep.
  destruct (ledger_run_ok evs l0 1 Hinv) as (l1 & s1 & Hrun1 & Hinv1 & Hlim1).
  rewrite Hrun in Hrun1. injection Hrun1 as <- <-.
  unfold lookup_outcome in *. destruct (records l !! k) as [r |] eqn:Hr; [| done].
  destruct (decide (owner r = o)) as [<- |]; [| done]. split.
  - intros at_tick p. pose proof (finish_cases l s (owner r) k at_tick p) as H.
    destruct (finish _ _ _ _ _ _) as [[l2 s2] res].
    destruct H as [(-> & -> & H) | (r0 & Hr0 & _ & Ht0 & _)]; [| simplify_eq].
    exists res. split; [done |]. destruct res; [left | by right].
    destruct H as (r0 & t0 & ? & ? & ? & ? & _). by simplify_eq.
  - destruct (ledger_step_ok l s ev Hinv1) as (l2 & s2 & Hstep2 & _ & _ & _ & Hk).
    rewrite Hstep in Hstep2. injection Hstep2 as <- <-.
    destruct (Hk k r t Hr Hlook) as [(r' & -> & Ho & Ht) | (now & -> & He)].
    + left. by rewrite Ho, decide_True.
    + right. exists now. unfold expirable in He. rewrite Hlook in He.
      apply andb_prop in He as [Hf He]. apply bool_decide_eq_true in He.
      rewrite Hlim1, Hlim in He. split_and!; [done | done |].
      rewrite (proj1 (unreported_spec l s (owner r) (ak_connection k) Hinv1)).
      intros (k' & r' & (r1 & t1 & Hr1 & _ & _ & Ht1 & _ & Hrep & Hcl) & Hr' & Ht'). simpl in *.
      assert (k' = k) as ->.
      { destruct (inv_terminal _ _ Hinv1) as [It1 _].
        pose proof (It1 k r t Hr Hlook) as [<- _]. by pose proof (It1 k' r' t Hr' Ht') as [<- _]. }
      simplify_eq. by rewrite Hrep, Hcl in Hf.
Qed.
End Ledger.
Arguments OutcomeLedger : clear implicits.
Arguments OutcomeRecord : clear implicits.
Arguments TerminalOutcome : clear implicits.
Arguments ledger_event : clear implicits.

Module OutcomesDemo.
Definition lim : OutcomeLimits := mkOutcomeLimits 16 8 100000 64 120.
Definition key (n : N) : ActionKey := mkActionKey 3 1 n 0.
Definition l0 : OutcomeLedger (list byte) := mkOutcomeLedger lim ∅ ∅ ∅ (80 + 256 + 64).
Definition evs : list (ledger_event (list byte)) :=
  [EvReserve 9 [key 1; key 2]; EvFinish 9 (key 2) 50 [x01]; EvForeign 4; EvFinish 9 (key 1) 51 [x02];
   EvReported 9 [key 2]].
End OutcomesDemo.

Lemma ledger_accounts_exact_witness :
  exists l s, ledger_run (OutcomesDemo.l0, 1) OutcomesDemo.evs = Some (l, s)
    /\ records_len l <= 16 /\ Sorted N.lt (sequence <$> unreported l 9 3).
Proof.
  destruct (ledger_accounts_exact 80 OutcomesDemo.lim OutcomesDemo.l0 OutcomesDemo.evs)
    as (l & s & Hrun & Hlen & _ & _ & Hdel & _); [vm_compute; reflexivity |].
  exists l, s. split; [exact Hrun |]. split; [exact Hlen |]. apply Hdel.
Defined.

Lemma outcome_final_witness :
  match ledger_run (OutcomesDemo.l0, 1) OutcomesDemo.evs with
  | Some (l, s) =>
      match ledger_step (l, s) (EvReserve 9 [OutcomesDemo.key 3]) with
      | Some (l', _) => lookup_outcome l' 9 (OutcomesDemo.key 2)
                        = Some (mkTerminalOutcome 1 (OutcomesDemo.key 2) 50 [x01])
      | None => False
      end
  | None => False
  end.
Proof.
  destruct (ledger_run (OutcomesDemo.l0, 1) OutcomesDemo.evs) as [[l s] |] eqn:Hrun;
    [| vm_compute in Hrun; discriminate].
  destruct (ledger_step (l, s) (EvReserve 9 [OutcomesDemo.key 3])) as [[l' s'] |] eqn:Hs;
    [| discriminate].
  assert (lookup_outcome l 9 (OutcomesDemo.key 2)
          = Some (mkTerminalOutcome 1 (OutcomesDemo.key 2) 50 [x01])) as Hl.
  { assert ((fun p => lookup_outcome p.1 9 (OutcomesDemo.key 2)) <$>
              ledger_run (OutcomesDemo.l0, 1) OutcomesDemo.evs
            = Some (Some (mkTerminalOutcome 1 (OutcomesDemo.key 2) 50 [x01]))) as H
      by (vm_compute; reflexivity).
    rewrite Hrun in H. cbn in H. injection H as H. exact H. }
  destruct (outcome_final 80 OutcomesDemo.lim OutcomesDemo.l0 OutcomesDemo.evs l s 9
              (OutcomesDemo.key 2) (mkTerminalOutcome 1 (OutcomesDemo.key 2) 50 [x01])
              (EvReserve 9 [OutcomesDemo.key 3]) l' s'
              ltac:(vm_compute; reflexivity) Hrun Hl Hs) as [_ [H | (now & [=] & _)]].
  exact H.
Defined.
