(* ===== verification/InterestModel.v ===== *)
(** * Replication interest: registrations, grants and eligible sets

    The data of [engine/net/src/interest/model.rs] and of [engine/net/src/interest/gather.rs]:
    what the authority registers about an entity, what a connection may see, the game's
    disclosure policy, and the authorization result handed to schedulers and encoders. *)

From stdpp Require Export strings.
From S2P Require Import Prelude Types Floats.
Local Open Scope N_scope.

Abbreviation SemanticId := N (only parsing).
Abbreviation StateVersion := N (only parsing).
Abbreviation RepresentationRevision := N (only parsing).
Abbreviation ReplicationFrame := N (only parsing).

(** ** Ordered iteration of entity sets *)

Definition entity_le (a b : EntityId) : Prop :=
  lex_le [index a; generation a] [index b; generation b] = true.
#[export] Instance entity_le_dec : RelDecision entity_le.
Proof. intros a b. unfold entity_le. apply _. Defined.

(** [BTreeSet<EntityId>] iterates in increasing order. *)
Definition sorted_entities (s : gset EntityId) : list EntityId := merge_sort entity_le (elements s).

Lemma elem_of_sorted_entities e s : e ∈ sorted_entities s <-> e ∈ s.
Proof. unfold sorted_entities. by rewrite merge_sort_Permutation, elem_of_elements. Qed.

Lemma NoDup_sorted_entities s : NoDup (sorted_entities s).
Proof. unfold sorted_entities. rewrite merge_sort_Permutation. apply NoDup_elements. Qed.

(** ** Registrations *)

Definition point : Type := f64 * f64 * f64.

Record Bounds := mkBounds { center : point; radius : f64 }.

Inductive SpatialRoute := Static | Dynamic | DormancyDriven.
#[export] Instance SpatialRoute_eq_dec : EqDecision SpatialRoute.
Proof. solve_decision. Defined.

Record Routes := mkRoutes {
  spatial : option SpatialRoute;
  global : bool;
  route_owner : option ConnectionId;
  semantic : gset SemanticId;
}.
#[export] Instance Routes_eq_dec : EqDecision Routes.
Proof. solve_decision. Defined.

Inductive Visibility := Public | Owner (connection : ConnectionId) | Semantic (id : SemanticId) | Never.

Record EntityRegistration := mkEntityRegistration {
  reg_id : EntityId;
  bounds : Bounds;
  cull_radius : f64;
  routes : Routes;
  visibility : Visibility;
  dependencies : gset EntityId;
  state_version : StateVersion;
  scene_revision : SceneRevision;
  dormant : bool;
}.

Record ObserverGrant := mkObserverGrant { position : point; observer_scene : SceneRevision }.

Record ConnectionView := mkConnectionView {
  observers : list ObserverGrant;
  semantic_grants : gset SemanticId;
  ready_scenes : gset SceneRevision;
}.

(** [trait ConnectionAuthorizer]: the game's approval of a proposed view. *)
Class ConnectionAuthorizer := authorize : ConnectionId -> ConnectionView -> bool.

Record RepresentationGrant := mkRepresentationGrant {
  schema_id : N;
  revision : RepresentationRevision;
  fields : N;
  prediction_allowed : bool;
}.

(** [trait DisclosurePolicy]: the game's field policy at one committed revision. *)
Record DisclosurePolicy := mkDisclosurePolicy {
  policy_revision_of : PolicyRevision;
  representation_of : ConnectionId -> EntityRegistration -> option RepresentationGrant;
  permits_dependency : ConnectionId -> EntityId -> EntityId -> bool;
}.

(** ** Eligibility reasons, a bit set *)

Abbreviation EligibilityReasons := N (only parsing).
Definition SPATIAL : EligibilityReasons := 1.
Definition GLOBAL : EligibilityReasons := 2.
Definition OWNER : EligibilityReasons := 4.
Definition SEMANTIC : EligibilityReasons := 8.
Definition REQUIRED : EligibilityReasons := 16.

Definition reasons_contains (a b : EligibilityReasons) : bool := bool_decide (N.land a b = b).
Definition reasons_insert (a b : EligibilityReasons) : EligibilityReasons := N.lor a b.
(** [self.0 & !SPATIAL.0] at width 8. *)
Definition without_spatial (a : EligibilityReasons) : EligibilityReasons :=
  N.land a (N.lxor SPATIAL u8_max).
Definition reasons_is_empty (a : EligibilityReasons) : bool := bool_decide (a = 0).

(** ** Limits *)

Record Limits := mkLimits {
  cell_size : f64;
  leave_margin : f64;
  prefetch : f64;
  max_coordinate : f64;
  max_entities : N;
  max_cells_per_entity : N;
  max_cells : N;
  max_memberships : N;
  max_route_memberships : N;
  max_semantic_routes_per_entity : N;
  max_connections : N;
  max_observers : N;
  max_semantic_grants : N;
  max_ready_scenes : N;
  max_candidates : N;
  max_candidate_visits : N;
  max_required : N;
  max_dependency_edges : N;
}.

Definition Limits_default : Limits :=
  mkLimits (f64_of_Z 32) (f64_of_Z 10) (f64_of_Z 8) (f64_of_Z 1000000000)
    100000 256 65536 2000000 400000 8 1024 2 16 64 4096 32768 128 16384.

(** ** Authorization results *)

Inductive GatherError :=
| UnknownConnection | StalePolicy | CandidateLimit | CandidateVisitLimit | PreviousEligibilityLimit.

Inductive DependencyError := Missing | Denied | IncompleteRepresentation | EntityLimit | EdgeLimit.

Inductive PredictionAdmission :=
| NotRequested
| AdmittedGroup (group_members : gset EntityId)
| PredictionDenied (error : DependencyError).

Record EligibleEntry := mkEligibleEntry {
  entry_entity : EntityId;
  representation : RepresentationGrant;
  reasons : EligibilityReasons;
  entry_state_version : StateVersion;
  entry_scene_revision : SceneRevision;
}.

Record EligibleSet := mkEligibleSet {
  connection : ConnectionId;
  world_revision : N;
  policy_revision : PolicyRevision;
  frame : ReplicationFrame;
  tick : ServerTick;
  entries : gmap EntityId EligibleEntry;
  prediction : PredictionAdmission;
  candidate_visits : N;
  candidates : N;
}.

Definition is_current (e : EligibleSet) (world : N) (policy : PolicyRevision) : bool :=
  bool_decide (world_revision e = world) && bool_decide (policy_revision e = policy).

(** ** Bit-set lemmas *)

Lemma reasons_contains_testbit a n :
  reasons_contains a (2 ^ n) = N.testbit a n.
Proof.
  unfold reasons_contains. rewrite eq_iff_eq_true, bool_decide_eq_true. split.
  - intros H. apply (f_equal (fun x => N.testbit x n)) in H.
    rewrite N.land_spec, N.pow2_bits_true, andb_true_r in H. done.
  - intros H. apply N.bits_inj. intros m. rewrite N.land_spec.
    destruct (decide (n = m)) as [<- |]; [by rewrite N.pow2_bits_true, H |].
    rewrite N.pow2_bits_false by done. apply andb_false_r.
Qed.
