(* ===== verification/Graph.v ===== *)
(** * The persistent interest graph

    Models [engine/net/src/interest/graph.rs]: entity registrations with the reverse indices
    that route them to candidates (grid cells, global list, owners, semantic groups), the
    approved connection views, and the accounting that bounds them. [None] is a panic (an
    [unwrap] or an arithmetic underflow). *)

From S2P Require Import Prelude Types Floats InterestModel.
Local Open Scope N_scope.
Local Open Scope engine_scope.

Abbreviation Cell := (Z * Z)%type (only parsing).

Inductive GraphError :=
| InvalidConfiguration
| InvalidBounds
| InvalidIdentity
| GenerationConflict
| RegressedStateVersion
| NonMonotonicTick
| NonMonotonicFrame
| NonMonotonicPolicy
| RevisionExhausted
| UnauthorizedView
| InvalidObserver
| Limit (what : string).

Inductive Change := Upsert (e : EntityRegistration) | Remove (id : EntityId).

Record Graph := mkGraph {
  glimits : Limits;
  entities : gmap EntityId EntityRegistration;
  indices : gmap N EntityId;
  dynamic : gset EntityId;
  cells : gmap Cell (gset EntityId);
  footprints : gmap EntityId (gset Cell);
  globals : gset EntityId;
  owners : gmap ConnectionId (gset EntityId);
  semantics : gmap SemanticId (gset EntityId);
  connections : gmap ConnectionId ConnectionView;
  memberships : N;
  route_memberships : N;
  observer_count : N;
  graph_revision : N;
  last_tick : option ServerTick;
  last_frame : option ReplicationFrame;
  last_policy : option PolicyRevision;
  prepare_calls : N;
}.
#[export] Instance eta_Graph : Eta Graph := fun r =>
  mkGraph (glimits r) (entities r) (indices r) (dynamic r) (cells r) (footprints r) (globals r)
    (owners r) (semantics r) (connections r) (memberships r) (route_memberships r)
    (observer_count r) (graph_revision r) (last_tick r) (last_frame r) (last_policy r)
    (prepare_calls r).

Record Accounting := mkAccounting {
  acc_entities : N;
  acc_dynamic_entities : N;
  acc_cells : N;
  acc_memberships : N;
  acc_route_memberships : N;
  acc_connections : N;
  acc_observers : N;
  acc_prepare_calls : N;
  acc_world_revision : N;
}.

Definition count_of {A} `{Size A} (s : A) : N := N.of_nat (size s).

(** The float conditions of a configuration. *)
Definition geometry_invalid (l : Limits) : bool :=
  negb (is_finite (cell_size l)) || f64_le (cell_size l) f64_zero
  || negb (is_finite (max_coordinate l)) || f64_le (max_coordinate l) f64_zero
  || existsb (fun v => negb (is_finite v) || f64_lt v f64_zero) [leave_margin l; prefetch l]
  || f64_lt (max_coordinate l) (f64_add (leave_margin l) (prefetch l))
  || f64_le (f64_of_Z (i64_max / 4))
            (f64_div (f64_mul (f64_of_Z 2) (max_coordinate l)) (cell_size l)).

Definition Graph_new (l : Limits) : result GraphError Graph :=
  if geometry_invalid l
     || bool_decide (0 ∈ [max_entities l; max_cells_per_entity l; max_cells l; max_memberships l;
                          max_route_memberships l; max_semantic_routes_per_entity l;
                          max_connections l; max_observers l; max_semantic_grants l;
                          max_ready_scenes l; max_candidates l; max_candidate_visits l;
                          max_required l; max_dependency_edges l])
     || bool_decide (max_memberships l < max_cells_per_entity l)
     || bool_decide (max_candidates l < max_required l)
     || bool_decide (max_candidate_visits l < max_candidates l)
  then Err InvalidConfiguration
  else Ok (mkGraph l ∅ ∅ ∅ ∅ ∅ ∅ ∅ ∅ ∅ 0 0 0 0 None None None 0).

Definition accounting (g : Graph) : Accounting :=
  mkAccounting (count_of (entities g)) (count_of (dynamic g)) (count_of (cells g)) (memberships g)
    (route_memberships g) (count_of (connections g)) (observer_count g) (prepare_calls g)
    (graph_revision g).

Definition validate_tick (g : Graph) (t : ServerTick) : result GraphError N :=
  if match last_tick g with Some previous => bool_decide (t < previous) | None => false end
  then Err NonMonotonicTick
  else ok_or (checked_add u64_max (graph_revision g) 1) RevisionExhausted.

Definition committed (g : Graph) (t : ServerTick) (rev : N) : Graph :=
  g <| last_tick := Some t |> <| graph_revision := rev |>.

Definition coordinates (p : point) : list f64 := [p.1.1; p.1.2; p.2].

Definition valid_position (l : Limits) (p : point) : bool :=
  forallb (fun v => is_finite v && f64_le (f64_abs v) (max_coordinate l)) (coordinates p).

Definition cell_at (l : Limits) (p : point) : Cell :=
  (f64_floor_i64 (f64_div p.1.1 (cell_size l)), f64_floor_i64 (f64_div p.2 (cell_size l))).

(** [z as u128]. *)
Definition as_u128 (z : Z) : N := Z.to_N (z mod 340282366920938463463374607431768211456).

Definition footprint_span (l : Limits) (e : EntityRegistration)
  : result GraphError (option (Cell * Cell)) :=
  if negb (valid_position l (center (bounds e)))
     || existsb (fun v => negb (is_finite v) || f64_lt v f64_zero) [radius (bounds e); cull_radius e]
  then Err InvalidBounds
  else
    let r := f64_add (f64_add (f64_add (radius (bounds e)) (cull_radius e)) (leave_margin l)) (prefetch l) in
    if negb (is_finite r) || f64_lt (max_coordinate l) r then Err InvalidBounds
    else
      match spatial (routes e) with
      | None => Ok None
      | Some _ =>
          let c := center (bounds e) in
          let low := cell_at l (f64_sub c.1.1 r, f64_zero, f64_sub c.2 r) in
          let high := cell_at l (f64_add c.1.1 r, f64_zero, f64_add c.2 r) in
          let count := as_u128 (high.1 - low.1 + 1) * as_u128 (high.2 - low.2 + 1) in
          if decide (max_cells_per_entity l < count) then Err (Limit "cells per entity")
          else Ok (Some (low, high))
      end.

Definition needs_refresh (e : EntityRegistration) : bool :=
  bool_decide (spatial (routes e) = Some Dynamic)
  || (bool_decide (spatial (routes e) = Some DormancyDriven) && negb (dormant e)).

Definition route_count (e : EntityRegistration) : N :=
  (if global (routes e) then 1 else 0)
  + (match route_owner (routes e) with Some _ => 1 | None => 0 end)
  + count_of (semantic (routes e)).

(** [low..=high]. *)
Definition z_range (low high : Z) : list Z :=
  (fun i => (low + Z.of_nat i)%Z) <$> seq 0 (Z.to_nat (high - low + 1)).

Definition footprint_cells (span : option (Cell * Cell)) : gset Cell :=
  match span with
  | None => ∅
  | Some (low, high) =>
      list_to_set (x ← z_range low.1 high.1; (fun z => (x, z)) <$> z_range low.2 high.2)
  end.

(** [index.entry(key).or_default().insert(id)]. *)
Definition add_member `{Countable K} (index : gmap K (gset EntityId)) (key : K) (id : EntityId)
  : gmap K (gset EntityId) :=
  <[key := {[id]} ∪ default ∅ (index !! key)]> index.

Definition remove_member `{Countable K} (index : gmap K (gset EntityId)) (key : K) (id : EntityId)
  : gmap K (gset EntityId) :=
  match index !! key with
  | Some ids =>
      let ids := ids ∖ {[id]} in
      if decide (ids = ∅) then delete key index else <[key := ids]> index
  | None => index
  end.

Definition remove_members `{Countable K} (index : gmap K (gset EntityId)) (keys : list K) (id : EntityId) :=
  foldl (fun index key => remove_member index key id) index keys.
Definition add_members `{Countable K} (index : gmap K (gset EntityId)) (keys : list K) (id : EntityId) :=
  foldl (fun index key => add_member index key id) index keys.

(** The footprint part of [remove_indices]. *)
Definition remove_footprint (g : Graph) (id : EntityId) : option Graph :=
  match footprints g !! id with
  | None => Some g
  | Some fp =>
      let g := g <| footprints := delete id (footprints g) |> in
      match checked_sub (memberships g) (count_of fp) with
      | None => None
      | Some m => Some (g <| memberships := m |> <| cells := remove_members (cells g) (elements fp) id |>)
      end
  end.

Definition remove_indices (g : Graph) (id : EntityId) : option Graph :=
  match entities g !! id with
  | None => Some g
  | Some e =>
      let g := g <| entities := delete id (entities g) |> <| indices := delete (index id) (indices g) |>
                 <| dynamic := dynamic g ∖ {[id]} |> in
      match remove_footprint g id with
      | None => None
      | Some g =>
          match checked_sub (route_memberships g) (route_count e) with
          | None => None
          | Some n =>
              let g := g <| route_memberships := n |> <| globals := globals g ∖ {[id]} |> in
              let g := match route_owner (routes e) with
                       | Some o => g <| owners := remove_member (owners g) o id |>
                       | None => g
                       end in
              Some (g <| semantics := remove_members (semantics g) (elements (semantic (routes e))) id |>)
          end
      end
  end.

Definition same_geometry (a b : EntityRegistration) : bool :=
  let eq3 (p q : point) := f64_eq p.1.1 q.1.1 && f64_eq p.1.2 q.1.2 && f64_eq p.2 q.2 in
  eq3 (center (bounds a)) (center (bounds b)) && f64_eq (radius (bounds a)) (radius (bounds b))
  && f64_eq (cull_radius a) (cull_radius b).

(** The checks of an upsert before anything is written. *)
Definition upsert_invalid (g : Graph) (e : EntityRegistration) : option GraphError :=
  let old := entities g !! reg_id e in
  if bool_decide (generation (reg_id e) = 0) || bool_decide (state_version e = 0)
     || existsb (fun d => bool_decide (generation d = 0)) (elements (dependencies e))
  then Some InvalidIdentity
  else if match indices g !! index (reg_id e) with
          | Some id => bool_decide (id <> reg_id e)
          | None => false
          end
  then Some GenerationConflict
  else if match old with Some o => bool_decide (state_version e < state_version o) | None => false end
  then Some RegressedStateVersion
  else if match old with None => bool_decide (max_entities (glimits g) <= count_of (entities g))
                       | Some _ => false end
  then Some (Limit "entities")
  else if decide (max_required (glimits g) < count_of (dependencies e))
  then Some (Limit "declared dependencies")
  else if decide (max_semantic_routes_per_entity (glimits g) < count_of (semantic (routes e)))
  then Some (Limit "semantic routes")
  else None.

(** Whether the new registration keeps the old one's lists and cells; [Ok (inl _)] says it
    does, [Ok (inr span)] gives the new span. *)
Definition compare_footprint (l : Limits) (old : option EntityRegistration) (e : EntityRegistration)
  : result GraphError (unit + option (Cell * Cell)) :=
  match old with
  | None => let? span := footprint_span l e in Ok (inr span)
  | Some o =>
      let same_routes := bool_decide (routes o = routes e) in
      if same_routes && same_geometry o e then Ok (inl tt)
      else
        let? span := footprint_span l e in
        if same_routes
        then let? old_span := footprint_span l o in
             if decide (old_span = span) then Ok (inl tt) else Ok (inr span)
        else Ok (inr span)
  end.

(** The write when neither lists nor cells change. *)
Definition refresh_entity (g : Graph) (old e : EntityRegistration) : Graph :=
  let g := if decide (needs_refresh old <> needs_refresh e)
           then g <| dynamic := if needs_refresh e then {[reg_id e]} ∪ dynamic g
                                else dynamic g ∖ {[reg_id e]} |>
           else g in
  g <| entities := <[reg_id e := e]> (entities g) |>.

(** [.is_some_and(|ids| ids.len() == 1)]. *)
Definition sole_member (ids : option (gset EntityId)) : bool :=
  match ids with Some ids => bool_decide (size ids = 1%nat) | None => false end.

(** The limits an upsert with this footprint would exceed, and the new counts. *)
Definition upsert_counts (g : Graph) (e : EntityRegistration) (fp : gset Cell)
  : option (result GraphError (N * N)) :=
  let previous := default ∅ (footprints g !! reg_id e) in
  match checked_sub (memberships g) (count_of previous) with
  | None => None
  | Some rest =>
      let total := rest + count_of fp in
      let allocated := count_of (filter (fun c => cells g !! c = None) fp) in
      let freed := count_of (filter (fun c => c ∉ fp /\ sole_member (cells g !! c) = true) previous) in
      if decide (max_memberships (glimits g) < total) then Some (Err (Limit "grid memberships"))
      else
        match checked_sub (count_of (cells g)) freed with
        | None => None
        | Some kept =>
            if decide (max_cells (glimits g) < kept + allocated) then Some (Err (Limit "grid cells"))
            else
              match checked_sub (route_memberships g)
                      (from_option route_count 0 (entities g !! reg_id e)) with
              | None => None
              | Some rest =>
                  let total_routes := rest + route_count e in
                  if decide (max_route_memberships (glimits g) < total_routes)
                  then Some (Err (Limit "route memberships"))
                  else Some (Ok (total, total_routes))
              end
        end
  end.

(** The write of every list the entity belongs to. *)
Definition insert_entity (g : Graph) (e : EntityRegistration) (fp : gset Cell) (total total_routes : N)
  : Graph :=
  let id := reg_id e in
  let g := g <| cells := add_members (cells g) (elements fp) id |> in
  let g := if global (routes e) then g <| globals := {[id]} ∪ globals g |> else g in
  let g := match route_owner (routes e) with
           | Some o => g <| owners := add_member (owners g) o id |>
           | None => g
           end in
  let g := g <| semantics := add_members (semantics g) (elements (semantic (routes e))) id |> in
  let g := if needs_refresh e then g <| dynamic := {[id]} ∪ dynamic g |> else g in
  g <| indices := <[index id := id]> (indices g) |> <| footprints := <[id := fp]> (footprints g) |>
    <| entities := <[id := e]> (entities g) |> <| memberships := total |>
    <| route_memberships := total_routes |>.

Definition apply_change (g : Graph) (t : ServerTick) (change : Change)
  : option (Graph * result GraphError unit) :=
  match validate_tick g t with
  | Err e => Some (g, Err e)
  | Ok rev =>
      match change with
      | Remove id =>
          match remove_indices g id with
          | None => None
          | Some g => Some (committed g t rev, Ok tt)
          end
      | Upsert e =>
          match upsert_invalid g e with
          | Some err => Some (g, Err err)
          | None =>
              match compare_footprint (glimits g) (entities g !! reg_id e) e with
              | Err err => Some (g, Err err)
              | Ok (inl _) =>
                  match entities g !! reg_id e with
                  | None => None
                  | Some old => Some (committed (refresh_entity g old e) t rev, Ok tt)
                  end
              | Ok (inr span) =>
                  let fp := footprint_cells span in
                  match upsert_counts g e fp with
                  | None => None
                  | Some (Err err) => Some (g, Err err)
                  | Some (Ok (total, total_routes)) =>
                      match remove_indices g (reg_id e) with
                      | None => None
                      | Some g => Some (committed (insert_entity g e fp total total_routes) t rev, Ok tt)
                      end
                  end
              end
          end
      end
  end.

Definition set_connection `{!ConnectionAuthorizer} (g : Graph) (t : ServerTick) (c : ConnectionId)
    (view : ConnectionView) : option (Graph * result GraphError unit) :=
  match validate_tick g t with
  | Err e => Some (g, Err e)
  | Ok rev =>
      if bool_decide (connections g !! c = None)
         && bool_decide (max_connections (glimits g) <= count_of (connections g))
      then Some (g, Err (Limit "connections"))
      else if bool_decide (max_observers (glimits g) < len (observers view))
              || bool_decide (max_semantic_grants (glimits g) < count_of (semantic_grants view))
              || bool_decide (max_ready_scenes (glimits g) < count_of (ready_scenes view))
      then Some (g, Err (Limit "connection grants"))
      else if existsb (fun o => negb (valid_position (glimits g) (position o))
                                || bool_decide (observer_scene o ∉ ready_scenes view)) (observers view)
      then Some (g, Err InvalidObserver)
      else if negb (authorize c view) then Some (g, Err UnauthorizedView)
      else
        match checked_sub (observer_count g)
                (from_option (fun v => len (observers v)) 0 (connections g !! c)) with
        | None => None
        | Some rest =>
            let g := g <| observer_count := rest + len (observers view) |>
                       <| connections := <[c := view]> (connections g) |> in
            Some (committed g t rev, Ok tt)
        end
  end.

Definition remove_connection (g : Graph) (t : ServerTick) (c : ConnectionId)
  : option (Graph * result GraphError unit) :=
  match validate_tick g t with
  | Err e => Some (g, Err e)
  | Ok rev =>
      match connections g !! c with
      | None => Some (committed g t rev, Ok tt)
      | Some view =>
          match checked_sub (observer_count g) (len (observers view)) with
          | None => None
          | Some rest =>
              let g := g <| connections := delete c (connections g) |> <| observer_count := rest |> in
              Some (committed g t rev, Ok tt)
          end
      end
  end.

Record PreparedGraph := mkPreparedGraph {
  prepared : Graph;
  prepared_frame : ReplicationFrame;
  prepared_tick : ServerTick;
  prepared_policy : PolicyRevision;
}.

Definition prepare (g : Graph) (f : ReplicationFrame) (t : ServerTick) (p : PolicyRevision)
  : Graph * result GraphError PreparedGraph :=
  if match last_frame g with Some previous => bool_decide (f <= previous) | None => false end
  then (g, Err NonMonotonicFrame)
  else if match last_tick g with Some previous => bool_decide (t < previous) | None => false end
  then (g, Err NonMonotonicTick)
  else if match last_policy g with Some previous => bool_decide (p < previous) | None => false end
  then (g, Err NonMonotonicPolicy)
  else
    match checked_add u64_max (prepare_calls g) 1 with
    | None => (g, Err RevisionExhausted)
    | Some calls =>
        let g := g <| last_frame := Some f |> <| last_tick := Some t |> <| last_policy := Some p |>
                   <| prepare_calls := calls |> in
        (g, Ok (mkPreparedGraph g f t p))
    end.

(** ** Reverse indices *)

Section Index.
Context {K : Type} `{Countable K}.
Implicit Types m : gmap K (gset EntityId).

Definition at_key m (k : K) : gset EntityId := default ∅ (m !! k).
Definition no_empty m : Prop := forall k, m !! k <> Some ∅.

Lemma at_key_add m k id k' x :
  x ∈ at_key (add_member m k id) k' <-> (k' = k /\ x = id) \/ x ∈ at_key m k'.
Proof.
  unfold at_key, add_member. destruct (decide (k' = k)) as [-> | Hne].
  - rewrite lookup_insert_eq. simpl. rewrite elem_of_union, elem_of_singleton. tauto.
  - rewrite lookup_insert_ne by done. tauto.
Qed.

Lemma at_key_remove m k id k' x :
  x ∈ at_key (remove_member m k id) k' <-> x ∈ at_key m k' /\ ~ (k' = k /\ x = id).
Proof.
  unfold at_key, remove_member. destruct (m !! k) as [ids |] eqn:Hk.
  - destruct (decide (k' = k)) as [-> | Hne].
    + rewrite Hk. destruct (decide (ids ∖ {[id]} = ∅)) as [He | He];
        [rewrite lookup_delete_eq | rewrite lookup_insert_eq]; simpl; [| set_solver].
      split; [by intros ?%not_elem_of_empty |]. intros [Hx Hn].
      assert (x ∈ ids ∖ {[id]}) as Hin by set_solver. by rewrite He in Hin.
    + destruct (decide (ids ∖ {[id]} = ∅));
        [rewrite lookup_delete_ne by done | rewrite lookup_insert_ne by done]; tauto.
  - split; [| tauto]. intros Hx. split; [done |]. intros [-> ->]. by rewrite Hk in Hx.
Qed.

Lemma no_empty_add m k id : no_empty m -> no_empty (add_member m k id).
Proof.
  intros Hm k'. unfold add_member. destruct (decide (k' = k)) as [-> | Hne].
  - rewrite lookup_insert_eq. intros [= He]. apply (not_elem_of_empty (C := gset EntityId) id).
    rewrite <- He. set_solver.
  - by rewrite lookup_insert_ne.
Qed.

Lemma no_empty_remove m k id : no_empty m -> no_empty (remove_member m k id).
Proof.
  intros Hm k'. unfold remove_member. destruct (m !! k) as [ids |]; [| done].
  destruct (decide (k' = k)) as [-> | Hne]; destruct (decide (ids ∖ {[id]} = ∅)) as [He | He];
    rewrite ?lookup_delete_eq, ?lookup_insert_eq, ?lookup_delete_ne, ?lookup_insert_ne by done;
    [done | congruence | done | done].
Qed.

Lemma at_key_adds m ks id k' x :
  x ∈ at_key (add_members m ks id) k' <-> (k' ∈ ks /\ x = id) \/ x ∈ at_key m k'.
Proof.
  unfold add_members. revert m. induction ks as [| k ks IH]; intros m; simpl.
  { split; [by right |]. by intros [[?%not_elem_of_nil _] | ?]. }
  rewrite IH, at_key_add, elem_of_cons. naive_solver.
Qed.

Lemma at_key_removes m ks id k' x :
  x ∈ at_key (remove_members m ks id) k' <-> x ∈ at_key m k' /\ ~ (k' ∈ ks /\ x = id).
Proof.
  unfold remove_members. revert m. induction ks as [| k ks IH]; intros m; simpl.
  { split; [| tauto]. intros Hx. split; [done |]. by intros [?%not_elem_of_nil _]. }
  rewrite IH, at_key_remove, elem_of_cons. naive_solver.
Qed.

Lemma no_empty_adds m ks id : no_empty m -> no_empty (add_members m ks id).
Proof.
  unfold add_members. revert m. induction ks as [| k ks IH]; intros m Hm; [done |].
  simpl. by apply IH, no_empty_add.
Qed.

Lemma no_empty_removes m ks id : no_empty m -> no_empty (remove_members m ks id).
Proof.
  unfold remove_members. revert m. induction ks as [| k ks IH]; intros m Hm; [done |].
  simpl. by apply IH, no_empty_remove.
Qed.

(** Without empty lists the keys are those with a member. *)
Lemma elem_of_dom_at_key m k : no_empty m -> k ∈ dom m <-> exists x, x ∈ at_key m k.
Proof.
  intros Hm. rewrite elem_of_dom. unfold at_key. split.
  - intros [ids Hk]. rewrite Hk. simpl. apply set_choose_L. intros ->. by apply (Hm k).
  - intros [x Hx]. destruct (m !! k); [done |]. by apply not_elem_of_empty in Hx.
Qed.
End Index.

(** ** Invariant *)

(** Every list is exactly what the registrations say. *)
Record index_inv (g : Graph) : Prop := mk_index_inv {
  ii_id : forall id e, entities g !! id = Some e -> reg_id e = id;
  ii_indices : forall i id, indices g !! i = Some id <-> is_Some (entities g !! id) /\ index id = i;
  ii_dynamic : forall id, id ∈ dynamic g <->
    exists e, entities g !! id = Some e /\ needs_refresh e = true;
  ii_globals : forall id, id ∈ globals g <->
    exists e, entities g !! id = Some e /\ global (routes e) = true;
  ii_owners : forall o id, id ∈ at_key (owners g) o <->
    exists e, entities g !! id = Some e /\ route_owner (routes e) = Some o;
  ii_semantics : forall s id, id ∈ at_key (semantics g) s <->
    exists e, entities g !! id = Some e /\ s ∈ semantic (routes e);
  ii_footprints : forall id, is_Some (footprints g !! id) <-> is_Some (entities g !! id);
  ii_cells : forall c id, id ∈ at_key (cells g) c <->
    exists fp, footprints g !! id = Some fp /\ c ∈ fp;
  ii_nonempty : no_empty (owners g) /\ no_empty (semantics g) /\ no_empty (cells g);
}.

(** The counters are the sums they cache, within the limits. *)
Record count_inv (g : Graph) : Prop := mk_count_inv {
  ci_memberships : memberships g = map_sum count_of (footprints g);
  ci_routes : route_memberships g = map_sum route_count (entities g);
  ci_observers : observer_count g = map_sum (fun v => len (observers v)) (connections g);
  ci_entities_limit : count_of (entities g) <= max_entities (glimits g);
  ci_memberships_limit : memberships g <= max_memberships (glimits g);
  ci_cells_limit : count_of (cells g) <= max_cells (glimits g);
  ci_routes_limit : route_memberships g <= max_route_memberships (glimits g);
  ci_connections_limit : count_of (connections g) <= max_connections (glimits g);
  ci_views : forall c v, connections g !! c = Some v ->
    len (observers v) <= max_observers (glimits g)
    /\ forallb (fun o => valid_position (glimits g) (position o)
                         && bool_decide (observer_scene o ∈ ready_scenes v)) (observers v) = true;
}.

Definition graph_inv (g : Graph) : Prop := index_inv g /\ count_inv g.

(** The parts of a graph the entity indices do not touch. *)
Definition same_views (g g' : Graph) : Prop :=
  glimits g' = glimits g /\ connections g' = connections g /\ observer_count g' = observer_count g.

(** The lists of every entity but one. *)
Definition without (P : EntityRegistration -> Prop) (g : Graph) (id x : EntityId) : Prop :=
  exists e, delete id (entities g) !! x = Some e /\ P e.

Lemma without_iff (P : EntityRegistration -> Prop) g id x :
  without P g id x <-> (exists e, entities g !! x = Some e /\ P e) /\ x <> id.
Proof.
  unfold without. split.
  - intros (e & [Hne He]%lookup_delete_Some & HP). split; [eauto | done].
  - intros [(e & He & HP) Hne]. exists e. by rewrite lookup_delete_ne.
Qed.

Lemma remove_indices_ok g id :
  index_inv g -> memberships g = map_sum count_of (footprints g) ->
  route_memberships g = map_sum route_count (entities g) ->
  exists g', remove_indices g id = Some g' /\ index_inv g' /\ same_views g g'
    /\ entities g' = delete id (entities g) /\ footprints g' = delete id (footprints g)
    /\ memberships g' = map_sum count_of (footprints g')
    /\ route_memberships g' = map_sum route_count (entities g')
    /\ (forall c x, x ∈ at_key (cells g') c <-> x ∈ at_key (cells g) c /\ x <> id).
Proof.
  intros [I1 I2 I3 I4 I5 I6 I7 I8 (E1 & E2 & E3)] Hm Hr. unfold remove_indices.
  destruct (entities g !! id) as [e |] eqn:He.
  2: { assert (footprints g !! id = None) as Hf.
       { apply eq_None_not_Some. rewrite I7, He. by intros [? ?]. }
       exists g. split; [done |]. split; [by constructor |]. split; [done |].
       rewrite !delete_id by done. split_and!; try done. intros c x. split; [| tauto].
       intros Hx. split; [done |]. intros ->. apply I8 in Hx as (fp & Hfp & _). congruence. }
  assert (is_Some (footprints g !! id)) as [fp Hfp] by (apply I7; by rewrite He).
  unfold remove_footprint. simpl. rewrite Hfp. simpl.
  pose proof (map_sum_delete count_of (footprints g) id fp Hfp) as Hsum.
  pose proof (map_sum_delete route_count (entities g) id e He) as Hrsum.
  unfold checked_sub. rewrite decide_True by lia. simpl. rewrite decide_True by lia.
  assert (forall c x, x ∈ at_key (remove_members (cells g) (elements fp) id) c
                      <-> x ∈ at_key (cells g) c /\ x <> id) as Hcells.
  { intros c x. rewrite at_key_removes, elem_of_elements. split; intros [Hx Hn]; split; try done.
    - intros ->. apply Hn. split; [| done]. apply I8 in Hx as (fp' & ? & ?). congruence.
    - intros [_ ->]. done. }
  set (g1 := match route_owner (routes e) with Some o => _ | None => _ end).
  assert (forall o x, x ∈ at_key (owners g1) o <-> x ∈ at_key (owners g) o /\ x <> id) as Hown.
  { intros o x. subst g1. destruct (route_owner (routes e)) as [o' |] eqn:Ho; simpl.
    - rewrite at_key_remove. split; intros [Hx Hn]; split; try done.
      + intros ->. apply Hn. apply I5 in Hx as (e' & He' & Hoe). simplify_eq. done.
      + by intros [_ ->].
    - split; [| tauto]. intros Hx. split; [done |]. intros ->.
      apply I5 in Hx as (e' & He' & Hoe). congruence. }
  assert (no_empty (owners g1)) as Hne.
  { subst g1. destruct (route_owner (routes e)); simpl; [by apply no_empty_remove | done]. }
  assert (entities g1 = delete id (entities g) /\ footprints g1 = delete id (footprints g)
          /\ indices g1 = delete (index id) (indices g) /\ dynamic g1 = dynamic g ∖ {[id]}
          /\ globals g1 = globals g ∖ {[id]} /\ semantics g1 = semantics g
          /\ cells g1 = remove_members (cells g) (elements fp) id
          /\ memberships g1 = memberships g - count_of fp
          /\ route_memberships g1 = route_memberships g - route_count e /\ same_views g g1)
    as (F1 & F2 & F3 & F4 & F5 & F6 & F7 & F8 & F9 & F10)
    by (subst g1; by destruct (route_owner (routes e))).
  clearbody g1. eexists. split; [done |].
  split_and!; simpl; try done; rewrite ?F1, ?F2, ?F7, ?F8, ?F9; try done; [| lia | lia].
  constructor; simpl; rewrite ?F1, ?F2, ?F3, ?F4, ?F5, ?F6, ?F7.
  - intros x y [_ Hx]%lookup_delete_Some. by apply I1.
  - intros i x. rewrite lookup_delete_Some, I2, lookup_delete_is_Some. split.
    + intros [Hi [Hx Hxi]]. split; [| done]. split; [| done]. intros <-. done.
    + intros [[Hxn Hx] Hxi]. split; [| done]. intros Hi. apply Hxn.
      assert (indices g !! i = Some x) as E by (apply I2; done).
      assert (indices g !! i = Some id) as E' by (apply I2; rewrite He; done). congruence.
  - intros x. rewrite elem_of_difference, elem_of_singleton, I3. symmetry. apply without_iff.
  - intros x. rewrite elem_of_difference, elem_of_singleton, I4. symmetry. apply without_iff.
  - intros o x. rewrite Hown, I5. symmetry. apply without_iff.
  - intros k x. rewrite at_key_removes, elem_of_elements, I6.
    etrans; [| symmetry; apply (without_iff (fun e => k ∈ semantic (routes e)))]. split.
    + intros [Hx Hn]. split; [done |]. intros ->. apply Hn. split; [| done].
      destruct Hx as (e' & He' & Hk). simplify_eq. done.
    + intros [Hx Hn]. split; [done |]. by intros [_ ->].
  - intros x. rewrite !lookup_delete_is_Some, I7. done.
  - intros c x. rewrite Hcells, I8. split.
    + intros [(f & Hf & Hc) Hx]. exists f. by rewrite lookup_delete_ne.
    + intros (f & [Hx Hf]%lookup_delete_Some & Hc). split; [eauto | done].
  - split_and!; [done | by apply no_empty_removes | by apply no_empty_removes].
Qed.

(** The lists of every entity after one is registered. *)
Lemma registered_iff (P : EntityRegistration -> Prop) g id e x :
  (exists y, <[id := e]> (entities g) !! x = Some y /\ P y)
  <-> (x = id /\ P e) \/ (x <> id /\ exists y, entities g !! x = Some y /\ P y).
Proof.
  destruct (decide (x = id)) as [-> | Hne].
  - rewrite lookup_insert_eq. naive_solver.
  - rewrite lookup_insert_ne by done. naive_solver.
Qed.

Lemma fresh_iff (P : EntityRegistration -> Prop) g id x :
  entities g !! id = None ->
  (exists y, entities g !! x = Some y /\ P y)
  <-> (x <> id /\ exists y, entities g !! x = Some y /\ P y).
Proof. intros Hn. split; [| tauto]. intros (y & Hy & HP). split; [| eauto]. congruence. Qed.

Lemma insert_entity_ok g e fp total total_routes :
  index_inv g -> entities g !! reg_id e = None -> indices g !! index (reg_id e) = None ->
  let g' := insert_entity g e fp total total_routes in
  index_inv g' /\ same_views g g'
  /\ entities g' = <[reg_id e := e]> (entities g) /\ footprints g' = <[reg_id e := fp]> (footprints g)
  /\ memberships g' = total /\ route_memberships g' = total_routes
  /\ (forall c x, x ∈ at_key (cells g') c <-> (c ∈ fp /\ x = reg_id e) \/ x ∈ at_key (cells g) c).
Proof.
  intros [I1 I2 I3 I4 I5 I6 I7 I8 (E1 & E2 & E3)] Hn Hi g'. set (id := reg_id e) in *.
  assert (footprints g !! id = None) as Hfn.
  { apply eq_None_not_Some. rewrite I7, Hn. by intros [? ?]. }
  assert (entities g' = <[id := e]> (entities g) /\ footprints g' = <[id := fp]> (footprints g)
          /\ indices g' = <[index id := id]> (indices g)
          /\ dynamic g' = (if needs_refresh e then {[id]} ∪ dynamic g else dynamic g)
          /\ globals g' = (if global (routes e) then {[id]} ∪ globals g else globals g)
          /\ owners g' = (match route_owner (routes e) with
                          | Some o => add_member (owners g) o id | None => owners g end)
          /\ semantics g' = add_members (semantics g) (elements (semantic (routes e))) id
          /\ cells g' = add_members (cells g) (elements fp) id
          /\ memberships g' = total /\ route_memberships g' = total_routes /\ same_views g g')
    as (F1 & F2 & F3 & F4 & F5 & F6 & F7 & F8 & F9 & F10 & F11).
  { subst g'. unfold insert_entity. fold id.
    by destruct (needs_refresh e), (route_owner (routes e)), (global (routes e)). }
  clearbody g'.
  assert (forall c x, x ∈ at_key (cells g') c <-> (c ∈ fp /\ x = id) \/ x ∈ at_key (cells g) c) as Hcells.
  { intros c x. by rewrite F8, at_key_adds, elem_of_elements. }
  split_and!; try done. constructor; rewrite ?F1, ?F2, ?F3, ?F4, ?F5, ?F6, ?F7.
  - intros x y [[<- <-] | [_ Hx]]%lookup_insert_Some; [done | by apply I1].
  - intros i x. rewrite lookup_insert_Some, I2, lookup_insert_is_Some. split.
    + intros [[<- <-] | [Hne [Hx Hxi]]]; [split; [by left | done] |]. split; [| done].
      right. split; [| done]. congruence.
    + intros [[<- | [Hne Hx]] Hxi]; [by left |]. right. split; [| done]. intros <-.
      assert (indices g !! index x = Some x) as E by (by apply I2). congruence.
  - intros x. etrans; [| symmetry; apply registered_iff]. rewrite <- (fresh_iff _ g id x Hn), <- I3.
    destruct (needs_refresh e); [rewrite elem_of_union, elem_of_singleton |]; naive_solver.
  - intros x. etrans; [| symmetry; apply registered_iff]. rewrite <- (fresh_iff _ g id x Hn), <- I4.
    destruct (global (routes e)); [rewrite elem_of_union, elem_of_singleton |]; naive_solver.
  - intros o x. etrans; [| symmetry; apply registered_iff]. rewrite <- (fresh_iff _ g id x Hn), <- I5.
    destruct (route_owner (routes e)); [rewrite at_key_add |]; naive_solver.
  - intros k x. etrans; [| symmetry; apply (registered_iff (fun e => k ∈ semantic (routes e)))].
    rewrite <- (fresh_iff _ g id x Hn), <- I6, at_key_adds, elem_of_elements. naive_solver.
  - intros x. rewrite !lookup_insert_is_Some, I7. done.
  - intros c x. rewrite Hcells, I8. split.
    + intros [[Hc ->] | (f & Hf & Hc)]; [exists fp; by rewrite lookup_insert_eq |].
      exists f. rewrite lookup_insert_ne; [done | congruence].
    + intros (f & [[<- <-] | [_ Hf]]%lookup_insert_Some & Hc); eauto.
  - rewrite F8. split_and!; [| by apply no_empty_adds | by apply no_empty_adds].
    destruct (route_owner (routes e)); [by apply no_empty_add | done].
Qed.

(** The cells an upsert ends with are those it counted. *)
Lemma upsert_cells_bound (g : Graph) (id : EntityId) (fp : gset Cell) (cells' : gmap Cell (gset EntityId)) :
  index_inv g -> no_empty cells' ->
  (forall c x, x ∈ at_key cells' c <-> (c ∈ fp /\ x = id) \/ (x ∈ at_key (cells g) c /\ x <> id)) ->
  let previous := default ∅ (footprints g !! id) in
  let allocated := filter (fun c => cells g !! c = None) fp in
  let freed := filter (fun c => c ∉ fp /\ sole_member (cells g !! c) = true) previous in
  count_of freed <= count_of (cells g)
  /\ count_of cells' <= count_of (cells g) - count_of freed + count_of allocated.
Proof.
  intros Hinv Hne' Hc previous allocated freed.
  destruct Hinv as [_ _ _ _ _ _ _ I8 (_ & _ & Hne)].
  assert (freed ⊆ dom (cells g)) as Hfreed.
  { intros c [[_ Hs] _]%elem_of_filter. apply elem_of_dom. unfold sole_member in Hs.
    by destruct (cells g !! c). }
  assert (dom cells' ⊆ (dom (cells g) ∖ freed) ∪ allocated) as Hdom.
  { intros c [x Hx]%(elem_of_dom_at_key cells' c Hne'). apply Hc in Hx.
    destruct (decide (c ∈ dom (cells g))) as [Hin | Hout].
    - apply elem_of_union_l, elem_of_difference. split; [done |].
      intros [[Hnf Hs] Hp]%elem_of_filter. destruct Hx as [[Hf _] | [Hx Hxn]]; [done |].
      assert (id ∈ at_key (cells g) c) as Hid.
      { apply I8. subst previous. destruct (footprints g !! id); [eauto |]. by apply not_elem_of_empty in Hp. }
      unfold sole_member, at_key in *. destruct (cells g !! c) as [ids |]; [| done]. simpl in *.
      apply bool_decide_eq_true, size_1_elem_of in Hs as [y Hy]. apply Hxn.
      apply leibniz_equiv in Hy. subst ids. set_solver.
    - apply elem_of_union_r, elem_of_filter. apply not_elem_of_dom in Hout.
      split; [done |]. destruct Hx as [[Hf _] | [Hx _]]; [done |].
      unfold at_key in Hx. rewrite Hout in Hx. by apply not_elem_of_empty in Hx. }
  unfold count_of. rewrite <- (size_dom (cells g)), <- (size_dom cells').
  apply subseteq_size in Hdom. pose proof (subseteq_size _ _ Hfreed) as Hle.
  rewrite size_union_alt in Hdom.
  assert (size (allocated ∖ (dom (cells g) ∖ freed)) <= size allocated)%nat
    by (apply subseteq_size; set_solver).
  rewrite size_difference in Hdom by done. lia.
Qed.

Lemma upsert_counts_ok (g : Graph) (e : EntityRegistration) (fp : gset Cell) :
  graph_inv g ->
  exists r, upsert_counts g e fp = Some r
    /\ forall total total_routes, r = Ok (total, total_routes) ->
         total = map_sum count_of (<[reg_id e := fp]> (footprints g))
         /\ total_routes = map_sum route_count (<[reg_id e := e]> (entities g))
         /\ total <= max_memberships (glimits g) /\ total_routes <= max_route_memberships (glimits g)
         /\ forall cells' : gmap Cell (gset EntityId), no_empty cells' ->
              (forall c x, x ∈ at_key cells' c
                 <-> (c ∈ fp /\ x = reg_id e) \/ (x ∈ at_key (cells g) c /\ x <> reg_id e)) ->
              count_of cells' <= max_cells (glimits g).
Proof.
  intros [Hi [C1 C2 C3 C4 C5 C6 C7 C8 C9]]. unfold upsert_counts.
  pose proof (map_sum_update count_of (footprints g) (reg_id e) fp) as Hm.
  pose proof (map_sum_update route_count (entities g) (reg_id e) e) as Hr.
  assert (count_of (default ∅ (footprints g !! reg_id e))
          = from_option count_of 0 (footprints g !! reg_id e)) as Hd.
  { destruct (footprints g !! reg_id e); [done |]. simpl. unfold count_of. by rewrite size_empty. }
  unfold checked_sub. rewrite Hd.
  assert (from_option count_of 0 (footprints g !! reg_id e) <= memberships g) as Hle.
  { rewrite C1. destruct (footprints g !! reg_id e) as [f |] eqn:Hf; simpl; [| lia].
    rewrite (map_sum_delete count_of _ _ f Hf). lia. }
  rewrite decide_True by done. destruct (decide (max_memberships _ < _)) as [| Hm1]; [by eexists; split; [done |] |].
  set (freed := filter (fun c => c ∉ fp /\ _) _). set (allocated := filter _ fp).
  assert (count_of freed <= count_of (cells g)) as Hfr.
  { unfold count_of. rewrite <- size_dom. apply N2Z.inj_le, N2Z.inj_le.
    assert (freed ⊆ dom (cells g)) as Hs; [| apply subseteq_size in Hs; lia].
    intros c [[_ Hs] _]%elem_of_filter. apply elem_of_dom. unfold sole_member in Hs.
    by destruct (cells g !! c). }
  rewrite decide_True by done. destruct (decide (max_cells _ < _)) as [| Hm2]; [by eexists; split; [done |] |].
  assert (from_option route_count 0 (entities g !! reg_id e) <= route_memberships g) as Hrl.
  { rewrite C2. destruct (entities g !! reg_id e) as [o |] eqn:Ho; simpl; [| lia].
    rewrite (map_sum_delete route_count _ _ o Ho). lia. }
  rewrite decide_True by done. destruct (decide (max_route_memberships _ < _)) as [| Hm3]; [by eexists; split; [done |] |].
  eexists. split; [done |]. intros total total_routes [= <- <-]. split_and!; [lia | lia | lia | lia |].
  intros cells' Hne Hc. destruct (upsert_cells_bound g (reg_id e) fp cells' Hi Hne Hc) as [_ Hb].
  fold freed allocated in Hb. lia.
Qed.

Lemma compare_footprint_same l old e :
  compare_footprint l old e = Ok (inl tt) -> exists o, old = Some o /\ routes o = routes e.
Proof.
  unfold compare_footprint. destruct old as [o |]; [| by destruct (footprint_span l e)].
  intros H. exists o. split; [done |]. destruct (bool_decide (routes o = routes e)) eqn:Hr;
    [by apply bool_decide_eq_true in Hr |].
  simpl in H. by destruct (footprint_span l e).
Qed.

Lemma refresh_entity_ok g old e :
  graph_inv g -> entities g !! reg_id e = Some old -> routes old = routes e ->
  graph_inv (refresh_entity g old e).
Proof.
  intros [[I1 I2 I3 I4 I5 I6 I7 I8 E] [C1 C2 C3 C4 C5 C6 C7 C8 C9]] Ho Hroutes.
  set (id := reg_id e) in *. set (g' := refresh_entity g old e).
  assert (entities g' = <[id := e]> (entities g)
          /\ dynamic g' = (if decide (needs_refresh old <> needs_refresh e)
                           then (if needs_refresh e then {[id]} ∪ dynamic g else dynamic g ∖ {[id]})
                           else dynamic g)
          /\ indices g' = indices g /\ globals g' = globals g /\ owners g' = owners g
          /\ semantics g' = semantics g /\ footprints g' = footprints g /\ cells g' = cells g
          /\ memberships g' = memberships g /\ route_memberships g' = route_memberships g
          /\ same_views g g') as (F1 & F2 & F3 & F4 & F5 & F6 & F7 & F8 & F9 & F10 & F11 & F12 & F13).
  { subst g'. unfold refresh_entity. fold id. by destruct (decide _). }
  clearbody g'.
  assert (forall x, is_Some (<[id := e]> (entities g) !! x) <-> is_Some (entities g !! x)) as Hdom.
  { intros x. rewrite lookup_insert_is_Some. split; [| destruct (decide (id = x)); auto].
    intros [<- | [_ H]]; [by rewrite Ho | done]. }
  (* a property of the routes holds after the write exactly when it did before *)
  assert (forall (P : Routes -> Prop) x,
            (exists y, <[id := e]> (entities g) !! x = Some y /\ P (routes y))
            <-> exists y, entities g !! x = Some y /\ P (routes y)) as Hlists.
  { intros P x. etrans; [apply (registered_iff (fun e => P (routes e)))|].
    rewrite <- Hroutes. destruct (decide (x = id)) as [-> | Hne]; naive_solver. }
  split; constructor; rewrite ?F1, ?F3, ?F4, ?F5, ?F6, ?F7, ?F8, ?F9, ?F10, ?F11, ?F12, ?F13; try done.
  - intros x y [[<- <-] | [_ Hx]]%lookup_insert_Some; [done | by apply I1].
  - intros i x. by rewrite Hdom, I2.
  - intros x. etrans; [| symmetry; apply registered_iff]. rewrite F2.
    destruct (decide (x = id)) as [-> | Hne].
    + assert (id ∈ dynamic g <-> needs_refresh old = true) as Hd.
      { rewrite I3. rewrite Ho. naive_solver. }
      destruct (decide (needs_refresh old <> needs_refresh e)) as [Hd' | Hd'%dec_stable].
      * destruct (needs_refresh e); [set_solver |]. set_solver.
      * rewrite Hd, Hd'. naive_solver.
    + etrans; [| symmetry; apply or_iff_compat_l, and_iff_compat_l; rewrite <- I3; reflexivity].
      destruct (decide (needs_refresh old <> needs_refresh e)), (needs_refresh e); set_solver.
  - intros x. etrans; [| symmetry; apply (Hlists (fun r => global r = true))]. apply I4.
  - intros o x. etrans; [| symmetry; apply (Hlists (fun r => route_owner r = Some o))]. apply I5.
  - intros s x. etrans; [| symmetry; apply (Hlists (fun r => s ∈ semantic r))]. apply I6.
  - intros x. by rewrite I7, Hdom.
  - rewrite C2. pose proof (map_sum_update route_count (entities g) id e) as Hm.
    rewrite Ho in Hm. simpl in Hm.
    assert (route_count old = route_count e) by (unfold route_count; by rewrite Hroutes). lia.
  - unfold count_of in *. rewrite map_size_insert_Some by (by rewrite Ho). done.
Qed.

Lemma committed_inv g t rev : graph_inv g -> graph_inv (committed g t rev).
Proof. intros [[] []]. by split; constructor. Qed.

Lemma upsert_invalid_None g e :
  upsert_invalid g e = None ->
  (forall id, indices g !! index (reg_id e) = Some id -> id = reg_id e)
  /\ (entities g !! reg_id e = None -> count_of (entities g) < max_entities (glimits g)).
Proof.
  unfold upsert_invalid. intros H. destruct (_ || _ || _); [done |].
  destruct (match indices g !! _ with Some id => _ | None => _ end) eqn:H1; [done |].
  destruct (match entities g !! _ with Some o => _ | None => _ end); [done |].
  destruct (match entities g !! _ with Some _ => _ | None => _ end) eqn:H2; [done |]. split.
  - intros id Hid. rewrite Hid in H1. apply bool_decide_eq_false in H1. by apply dec_stable.
  - intros Hn. rewrite Hn in H2. apply bool_decide_eq_false in H2. lia.
Qed.

Lemma validate_tick_Ok g t rev : validate_tick g t = Ok rev -> rev = graph_revision g + 1.
Proof.
  unfold validate_tick, ok_or. destruct (match last_tick g with Some p => _ | None => _ end); [done |].
  destruct (checked_add _ _ _) eqn:Ha; intros; simplify_eq. by apply checked_add_Some in Ha as [-> _].
Qed.

Lemma apply_change_ok g t change :
  graph_inv g ->
  exists g' r, apply_change g t change = Some (g', r) /\ graph_inv g' /\ glimits g' = glimits g
    /\ connections g' = connections g
    /\ match r with Err _ => g' = g | Ok _ => graph_revision g' = graph_revision g + 1 end.
Proof.
  intros Hinv. unfold apply_change. destruct (validate_tick g t) as [rev |] eqn:Hv; [| by eauto 10].
  assert (rev = graph_revision g + 1) as -> by (by eapply validate_tick_Ok).
  pose proof Hinv as [Hi [C1 C2 C3 C4 C5 C6 C7 C8 C9]]. destruct change as [e | id].
  - destruct (upsert_invalid g e) eqn:Hbad; [by eauto 10 |].
    apply upsert_invalid_None in Hbad as [Hidx Hroom].
    destruct (compare_footprint _ _ _) as [[[] | span] | err] eqn:Hcmp; [| | by eauto 10].
    + apply compare_footprint_same in Hcmp as (o & Ho & Hr). rewrite Ho.
      eexists _, _. split; [done |]. split; [by apply committed_inv, refresh_entity_ok |].
      simpl. unfold refresh_entity. by destruct (decide _).
    + destruct (upsert_counts_ok g e (footprint_cells span) Hinv) as ([[total tr] | err] & -> & Hok);
        [| by eauto 10].
      destruct (Hok total tr eq_refl) as (-> & -> & L1 & L2 & Lc).
      destruct (remove_indices_ok g (reg_id e) Hi C1 C2)
        as (g1 & -> & Hi1 & (V1 & V2 & V3) & He1 & Hf1 & _ & _ & Hc1).
      set (fp := footprint_cells span) in *.
      destruct (insert_entity_ok g1 e fp (map_sum count_of (<[reg_id e := fp]> (footprints g)))
                  (map_sum route_count (<[reg_id e := e]> (entities g))))
        as (Hi2 & (W1 & W2 & W3) & He2 & Hf2 & Hm2 & Hr2 & Hc2); [done | | |].
      { rewrite He1. apply lookup_delete_eq. }
      { destruct (indices g1 !! index (reg_id e)) as [x |] eqn:Hx; [| done]. exfalso.
        apply (ii_indices _ Hi1) in Hx as [[y Hy] Hxi]. rewrite He1 in Hy.
        apply lookup_delete_Some in Hy as [Hne Hy]. apply Hne. symmetry. apply Hidx.
        apply (ii_indices _ Hi). rewrite Hy. eauto. }
      set (g2 := insert_entity _ _ _ _ _) in *. clearbody g2.
      rewrite Hf1, insert_delete_eq in Hf2. rewrite He1, insert_delete_eq in He2.
      eexists _, _. split; [done |]. split; [apply committed_inv; split; [done |] |].
      * constructor; rewrite ?He2, ?Hf2, ?Hm2, ?Hr2, ?W1, ?W2, ?W3, ?V1, ?V2, ?V3; try done.
        -- destruct (entities g !! reg_id e) eqn:Ho; unfold count_of in *.
           ++ rewrite map_size_insert_Some by (by rewrite Ho). done.
           ++ rewrite map_size_insert_None by done. specialize (Hroom eq_refl). lia.
        -- apply Lc; [apply Hi2 |]. intros c x. by rewrite Hc2, Hc1.
      * simpl. split_and!; [congruence | congruence | done].
  - destruct (remove_indices_ok g id Hi C1 C2)
      as (g1 & -> & Hi1 & (V1 & V2 & V3) & He1 & Hf1 & Hm1 & Hr1 & Hc1).
    eexists _, _. split; [done |]. split; [apply committed_inv; split; [done |] |]; [| by simpl].
    constructor; rewrite ?V1, ?V2, ?V3; try done.
    + etrans; [| exact C4]. rewrite He1. unfold count_of.
      pose proof (map_size_delete_le (entities g) id). lia.
    + etrans; [| exact C5]. rewrite Hm1, Hf1, C1.
      destruct (footprints g !! id) as [fp |] eqn:Hf; [| by rewrite delete_id].
      rewrite (map_sum_delete count_of (footprints g) id fp Hf). lia.
    + etrans; [| exact C6]. unfold count_of. rewrite <- !size_dom.
      assert (dom (cells g1) ⊆ dom (cells g)) as Hs; [| apply subseteq_size in Hs; lia].
      intros c. rewrite !elem_of_dom_at_key by apply Hi || apply Hi1.
      intros [x Hx]. exists x. by apply Hc1 in Hx as [? _].
    + etrans; [| exact C7]. rewrite Hr1, He1, C2.
      destruct (entities g !! id) as [e |] eqn:He; [| by rewrite delete_id].
      rewrite (map_sum_delete route_count (entities g) id e He). lia.
Qed.

Lemma set_connection_ok `{!ConnectionAuthorizer} g t c view :
  graph_inv g ->
  exists g' r, set_connection g t c view = Some (g', r) /\ graph_inv g' /\ glimits g' = glimits g
    /\ match r with
       | Err _ => g' = g
       | Ok _ => authorize c view = true /\ connections g' = <[c := view]> (connections g)
                 /\ graph_revision g' = graph_revision g + 1
       end.
Proof.
  intros Hinv. unfold set_connection. destruct (validate_tick g t) as [rev |] eqn:Hv; [| by eauto 10].
  assert (rev = graph_revision g + 1) as -> by (by eapply validate_tick_Ok).
  destruct (_ && _) eqn:Hroom; [by eauto 10 |].
  destruct (_ || _ || _) eqn:Hgrants; [by eauto 10 |].
  destruct (existsb _ _) eqn:Hobs; [by eauto 10 |].
  destruct (authorize c view) eqn:Hauth; [| by eauto 10]. simpl.
  pose proof Hinv as [Hi [C1 C2 C3 C4 C5 C6 C7 C8 C9]].
  pose proof (map_sum_update (fun v => len (observers v)) (connections g) c view) as Hm.
  assert (from_option (fun v => len (observers v)) 0 (connections g !! c) <= observer_count g) as Hle.
  { rewrite C3. destruct (connections g !! c) as [v |] eqn:Hc; simpl; [| lia].
    rewrite (map_sum_delete _ _ _ v Hc). lia. }
  unfold checked_sub. rewrite decide_True by done.
  eexists _, _. split; [done |]. split; [| done]. apply committed_inv. destruct Hi. split; constructor; try done; simpl.
  - simpl in *. lia.
  - unfold count_of in *. destruct (connections g !! c) eqn:Hc.
    + rewrite map_size_insert_Some by (by rewrite Hc). done.
    + rewrite map_size_insert_None by done. rewrite bool_decide_eq_true_2 in Hroom by done.
      simpl in Hroom. apply bool_decide_eq_false in Hroom. lia.
  - intros c' v [[<- <-] | [_ Hv']]%lookup_insert_Some; [| by eapply C9].
    apply orb_false_elim in Hgrants as [[Hg _]%orb_false_elim _]. apply bool_decide_eq_false in Hg.
    split; [lia |]. apply forallb_forall. intros o Ho.
    apply not_true_iff_false in Hobs. rewrite existsb_exists in Hobs.
    destruct (valid_position _ _) eqn:Hp; simpl.
    + apply bool_decide_eq_true. apply dec_stable. intros Hn. apply Hobs. exists o.
      split; [done |]. rewrite Hp. simpl. by apply bool_decide_eq_true.
    + exfalso. apply Hobs. exists o. split; [done |]. by rewrite Hp.
Qed.

Lemma remove_connection_ok g t c :
  graph_inv g ->
  exists g' r, remove_connection g t c = Some (g', r) /\ graph_inv g' /\ glimits g' = glimits g
    /\ match r with
       | Err _ => g' = g
       | Ok _ => connections g' = delete c (connections g) /\ graph_revision g' = graph_revision g + 1
       end.
Proof.
  intros Hinv. unfold remove_connection. destruct (validate_tick g t) as [rev |] eqn:Hv; [| by eauto 10].
  assert (rev = graph_revision g + 1) as -> by (by eapply validate_tick_Ok).
  pose proof Hinv as [Hi [C1 C2 C3 C4 C5 C6 C7 C8 C9]].
  destruct (connections g !! c) as [v |] eqn:Hc.
  2: { eexists _, _. split; [done |]. split; [by apply committed_inv |]. simpl. by rewrite delete_id. }
  pose proof (map_sum_delete (fun v => len (observers v)) (connections g) c v Hc) as Hm.
  unfold checked_sub. rewrite decide_True by lia.
  eexists _, _. split; [done |]. split; [| done]. apply committed_inv. destruct Hi. split; constructor; try done; simpl.
  - lia.
  - etrans; [| exact C8]. unfold count_of.
    pose proof (map_size_delete_le (connections g) c). lia.
  - intros c' v' [_ Hv']%lookup_delete_Some. by eapply C9.
Qed.

(** ** Runs *)

Inductive graph_event :=
| EvApply (t : ServerTick) (change : Change)
| EvSetConnection (t : ServerTick) (c : ConnectionId) (view : ConnectionView)
| EvRemoveConnection (t : ServerTick) (c : ConnectionId)
| EvPrepare (f : ReplicationFrame) (t : ServerTick) (p : PolicyRevision).

Definition graph_step `{!ConnectionAuthorizer} (g : Graph) (ev : graph_event) : option Graph :=
  match ev with
  | EvApply t change => fst <$> apply_change g t change
  | EvSetConnection t c view => fst <$> set_connection g t c view
  | EvRemoveConnection t c => fst <$> remove_connection g t c
  | EvPrepare f t p => Some (prepare g f t p).1
  end.

Definition graph_run `{!ConnectionAuthorizer} (g : Graph) (evs : list graph_event) : option Graph :=
  foldl (fun g ev => match g with Some g => graph_step g ev | None => None end) (Some g) evs.

Lemma prepare_ok g f t p :
  graph_inv g -> graph_inv (prepare g f t p).1 /\ glimits (prepare g f t p).1 = glimits g
  /\ connections (prepare g f t p).1 = connections g.
Proof.
  intros [[] []]. unfold prepare.
  destruct (match last_frame g with Some q => _ | None => _ end); [done |].
  destruct (match last_tick g with Some q => _ | None => _ end); [done |].
  destruct (match last_policy g with Some q => _ | None => _ end); [done |].
  destruct (checked_add _ _ _); [| done]. split_and!; [| done | done]. by split; constructor.
Qed.

Lemma Graph_new_inv l g : Graph_new l = Ok g -> graph_inv g /\ glimits g = l /\ connections g = ∅.
Proof.
  unfold Graph_new. destruct (_ || _); [done |]. intros [= <-]. split_and!; [| done | done].
  split; constructor; simpl; try (by intros * ?%lookup_empty_Some);
    unfold at_key, count_of; rewrite ?map_sum_empty, ?map_size_empty; try lia; try done.
  - intros i id. rewrite !lookup_empty. split; [done |]. by intros [[? ?] _].
  - intros id. split; [by intros ?%not_elem_of_empty |]. by intros (e & ?%lookup_empty_Some & _).
  - intros id. split; [by intros ?%not_elem_of_empty |]. by intros (e & ?%lookup_empty_Some & _).
  - intros o id. rewrite lookup_empty. split; [by intros ?%not_elem_of_empty |].
    by intros (e & ?%lookup_empty_Some & _).
  - intros o id. rewrite lookup_empty. split; [by intros ?%not_elem_of_empty |].
    by intros (e & ?%lookup_empty_Some & _).
  - intros id. by rewrite !lookup_empty.
  - intros o id. rewrite lookup_empty. split; [by intros ?%not_elem_of_empty |].
    by intros (e & ?%lookup_empty_Some & _).
Qed.

(** ** The cells of an entity *)

(** How far from its center an entity is looked for: its bounds, the distance it is culled at,
    and the margins of the graph. *)
Definition reach (l : Limits) (e : EntityRegistration) : f64 :=
  f64_add (f64_add (f64_add (radius (bounds e)) (cull_radius e)) (leave_margin l)) (prefetch l).

(** The grid line of a coordinate. *)
Definition grid_line (l : Limits) (v : f64) : Z := f64_floor_i64 (f64_div v (cell_size l)).

(** The cells a registration asks for: when it is routed by position, those of the square of its
    reach around its center. *)
Definition covers (l : Limits) (e : EntityRegistration) (c : Cell) : Prop :=
  let '(x, _, z) := center (bounds e) in
  spatial (routes e) <> None
  /\ (grid_line l (f64_sub x (reach l e)) <= c.1 <= grid_line l (f64_add x (reach l e)))%Z
  /\ (grid_line l (f64_sub z (reach l e)) <= c.2 <= grid_line l (f64_add z (reach l e)))%Z.

Definition area_inv (g : Graph) : Prop :=
  forall id e fp, entities g !! id = Some e -> footprints g !! id = Some fp ->
  forall c, c ∈ fp <-> covers (glimits g) e c.

Lemma elem_of_z_range low high x : x ∈ z_range low high <-> (low <= x <= high)%Z.
Proof.
  unfold z_range. rewrite list_elem_of_fmap. split.
  - intros (i & -> & Hi%elem_of_seq). lia.
  - intros Hx. exists (Z.to_nat (x - low)). rewrite elem_of_seq. lia.
Qed.

Lemma elem_of_footprint_cells low high c :
  c ∈ footprint_cells (Some (low, high)) <-> (low.1 <= c.1 <= high.1)%Z /\ (low.2 <= c.2 <= high.2)%Z.
Proof.
  unfold footprint_cells. rewrite elem_of_list_to_set, list_elem_of_bind. destruct c as [x z]. simpl. split.
  - intros (y & (w & [= -> ->] & Hw%elem_of_z_range)%list_elem_of_fmap & Hy%elem_of_z_range). done.
  - intros [Hx Hz]. exists x. rewrite elem_of_z_range. split; [| done]. apply list_elem_of_fmap. exists z.
    by rewrite elem_of_z_range.
Qed.

Lemma footprint_span_covers l e span :
  footprint_span l e = Ok span -> forall c, c ∈ footprint_cells span <-> covers l e c.
Proof.
  unfold footprint_span, covers. intros H c. destruct (_ || _) in H; [done |]. destruct (_ || _) in H; [done |].
  destruct (center (bounds e)) as [[x y] z]. destruct (spatial (routes e)); [| injection H as <-; set_solver].
  destruct (decide _) in H; [done |]. injection H as <-. rewrite elem_of_footprint_cells. simpl. naive_solver.
Qed.

(** Floats that compare equal: the same, or zeros of either sign. Sums, differences and quotients
    of such floats are such again, and a cast to an integer does not tell them apart. *)
Definition same_number (a b : f64) : Prop := a = b \/ exists s t, a = S754_zero s /\ b = S754_zero t.

Lemma f64_eq_same a b : f64_eq a b = true -> same_number a b.
Proof.
  unfold f64_eq, SFeqb, SFcompare. destruct a as [s | s | | s m e], b as [s' | s' | | s' m' e']; try done;
    intros H; try (right; eauto; fail); try (by destruct s; destruct s').
  - left. by destruct s, s'.
  - left. destruct s, s'; try done; destruct (Z.compare e e') eqn:He; try done;
      apply Z.compare_eq in He as ->; change (Pos.compare_cont Eq m m') with (Pos.compare m m') in H;
      destruct (Pos.compare m m') eqn:Hm; try done; by apply Pos.compare_eq in Hm as ->.
Qed.

Lemma same_number_add a b c d : same_number a b -> same_number c d -> same_number (f64_add a c) (f64_add b d).
Proof.
  intros [-> | (s & t & -> & ->)] [-> | (s' & t' & -> & ->)]; [by left | | |].
  - destruct b; simpl; try by left. right. destruct s, s', t'; eauto.
  - destruct d as [u | | |]; simpl; try by left. right. destruct s, t, u; eauto.
  - right. destruct s, t, s', t'; simpl; eauto.
Qed.

Lemma same_number_sub a b c d : same_number a b -> same_number c d -> same_number (f64_sub a c) (f64_sub b d).
Proof.
  intros [-> | (s & t & -> & ->)] [-> | (s' & t' & -> & ->)]; [by left | | |].
  - destruct b; simpl; try by left. right. destruct s, s', t'; eauto.
  - destruct d as [u | | |]; simpl; try by left. right. destruct s, t, u; eauto.
  - right. destruct s, t, s', t'; simpl; eauto.
Qed.

Lemma same_number_line l a b : same_number a b -> grid_line l a = grid_line l b.
Proof.
  intros [-> | (s & t & -> & ->)]; [done |]. unfold grid_line. by destruct (cell_size l).
Qed.

Lemma same_geometry_covers l a b :
  routes a = routes b -> same_geometry a b = true -> forall c, covers l a c <-> covers l b c.
Proof.
  intros Hr Hg c. unfold same_geometry in Hg. rewrite !andb_true_iff in Hg.
  destruct Hg as ((((Hx & _) & Hz) & Hrad) & Hcull). unfold covers. rewrite Hr.
  destruct (center (bounds a)) as [[x y] z], (center (bounds b)) as [[x' y'] z']. simpl in Hx, Hz.
  apply f64_eq_same in Hx, Hz, Hrad, Hcull.
  assert (same_number (reach l a) (reach l b)) as Hreach.
  { unfold reach. repeat apply same_number_add; try done; by left. }
  by rewrite (same_number_line l _ _ (same_number_sub _ _ _ _ Hx Hreach)),
    (same_number_line l _ _ (same_number_add _ _ _ _ Hx Hreach)),
    (same_number_line l _ _ (same_number_sub _ _ _ _ Hz Hreach)),
    (same_number_line l _ _ (same_number_add _ _ _ _ Hz Hreach)).
Qed.

Lemma compare_footprint_covers l old e v :
  compare_footprint l old e = Ok v ->
  match v with
  | inl _ => exists o, old = Some o /\ forall c, covers l o c <-> covers l e c
  | inr span => forall c, c ∈ footprint_cells span <-> covers l e c
  end.
Proof.
  unfold compare_footprint. intros H. destruct old as [o |].
  2: { destruct (footprint_span l e) as [span |] eqn:Hs; [| done]. injection H as <-. by apply footprint_span_covers. }
  destruct (bool_decide (routes o = routes e)) eqn:Hr; simpl in H.
  - apply bool_decide_eq_true in Hr. destruct (same_geometry o e) eqn:Hg; simpl in H.
    { injection H as <-. exists o. split; [done |]. by apply same_geometry_covers. }
    destruct (footprint_span l e) as [span |] eqn:Hs; [| done]. destruct (footprint_span l o) as [span' |] eqn:Hs'; [| done].
    simpl in H. destruct (decide (span' = span)) as [-> |]; injection H as <-; [| by apply footprint_span_covers].
    exists o. split; [done |]. intros c. by rewrite <- (footprint_span_covers _ _ _ Hs), <- (footprint_span_covers _ _ _ Hs').
  - destruct (footprint_span l e) as [span |] eqn:Hs; [| done]. injection H as <-. by apply footprint_span_covers.
Qed.

Lemma apply_change_area g t change g' r :
  graph_inv g -> area_inv g -> apply_change g t change = Some (g', r) -> area_inv g'.
Proof.
  intros Hinv Harea. pose proof Hinv as [Hi [C1 C2 _ _ _ _ _ _ _]]. unfold apply_change.
  destruct (validate_tick g t) as [rev |]; [| by intros [= <- _]]. destruct change as [e | id].
  - destruct (upsert_invalid g e) eqn:Hbad; [by intros [= <- _] |]. apply upsert_invalid_None in Hbad as [Hidx _].
    destruct (compare_footprint _ _ _) as [v | err] eqn:Hcmp; [| by intros [= <- _]].
    apply compare_footprint_covers in Hcmp. destruct v as [[] | span].
    + destruct Hcmp as (o & Ho & Hcov). rewrite Ho. intros [= <- _] x y fp. unfold refresh_entity. simpl.
      rewrite (lookup_insert_Some (entities _)). intros Hy Hfp c.
      assert (footprints g !! x = Some fp /\ (forall z, entities g !! x = Some z -> c ∈ fp <-> covers (glimits g) z c)) as [_ Hz].
      { assert (footprints g !! x = Some fp) as Hf by by destruct (decide _). split; [done |]. intros z Hz. by apply (Harea x z fp). }
      assert (glimits (if decide (needs_refresh o <> needs_refresh e)
                       then g <| dynamic := if needs_refresh e then {[reg_id e]} ∪ dynamic g else dynamic g ∖ {[reg_id e]} |>
                       else g) = glimits g) as -> by by destruct (decide _).
      destruct Hy as [[<- <-] | [_ Hy]]; [rewrite <- Hcov; by apply Hz |]. apply Hz. by destruct (decide _).
    + destruct (upsert_counts g e _) as [[[total tr] | err] |]; [| by intros [= <- _] | done].
      destruct (remove_indices_ok g (reg_id e) Hi C1 C2)
        as (g1 & -> & Hi1 & (V1 & V2 & V3) & He1 & Hf1 & _). intros [= <- _].
      destruct (insert_entity_ok g1 e (footprint_cells span) total tr) as (_ & (W1 & _) & He2 & Hf2 & _); [done | | |].
      { rewrite He1. apply lookup_delete_eq. }
      { destruct (indices g1 !! index (reg_id e)) as [x |] eqn:Hx; [| done]. exfalso.
        apply (ii_indices _ Hi1) in Hx as [[y Hy] Hxi]. rewrite He1 in Hy.
        apply lookup_delete_Some in Hy as [Hne Hy]. apply Hne. symmetry. apply Hidx.
        apply (ii_indices _ Hi). rewrite Hy. eauto. }
      set (g2 := insert_entity _ _ _ _ _) in *. clearbody g2. intros x y fp. simpl. rewrite He2, Hf2, He1, Hf1, W1, V1, !insert_delete_eq.
      intros [[<- <-] | [Hne Hy]]%lookup_insert_Some; [rewrite lookup_insert_eq; by intros [= <-] |].
      rewrite lookup_insert_ne by done. by apply Harea.
  - destruct (remove_indices_ok g id Hi C1 C2) as (g1 & -> & _ & (V1 & _) & He1 & Hf1 & _). intros [= <- _] x y fp.
    simpl. rewrite He1, Hf1, V1. intros [_ Hy]%lookup_delete_Some [_ Hfp]%lookup_delete_Some. by apply (Harea x).
Qed.

Lemma graph_step_area `{!ConnectionAuthorizer} g ev g' :
  graph_inv g -> area_inv g -> graph_step g ev = Some g' -> area_inv g'.
Proof.
  intros Hinv Harea. destruct ev as [t change | t c view | t c | f t p]; simpl; intros Hstep.
  - apply fmap_Some in Hstep as ([g1 r] & Happ & ->). by eapply apply_change_area.
  - apply fmap_Some in Hstep as ([g1 r] & Happ & ->). unfold set_connection in Happ. repeat (case_match; simplify_eq/=); done.
  - apply fmap_Some in Hstep as ([g1 r] & Happ & ->). unfold remove_connection in Happ. repeat (case_match; simplify_eq/=); done.
  - unfold prepare in Hstep. repeat (case_match; simplify_eq/=); done.
Qed.

(** The lists of the cells are those of the registrations that cover them. *)
Lemma cells_cover g :
  index_inv g -> area_inv g ->
  forall c id, id ∈ at_key (cells g) c <-> exists e, entities g !! id = Some e /\ covers (glimits g) e c.
Proof.
  intros Hi Harea c id. rewrite (ii_cells _ Hi). split.
  - intros (fp & Hfp & Hc). destruct (proj1 (ii_footprints _ Hi id)) as [e He]; [by eexists |].
    exists e. split; [done |]. by apply (Harea id e fp).
  - intros (e & He & Hc). destruct (proj2 (ii_footprints _ Hi id)) as [fp Hfp]; [by eexists |].
    exists fp. split; [done |]. by apply (Harea id e fp).
Qed.

Definition views_authorized `{!ConnectionAuthorizer} (g : Graph) : Prop :=
  forall c v, connections g !! c = Some v -> authorize c v = true.

Lemma graph_step_ok `{!ConnectionAuthorizer} g ev :
  graph_inv g -> views_authorized g ->
  exists g', graph_step g ev = Some g' /\ graph_inv g' /\ views_authorized g' /\ glimits g' = glimits g.
Proof.
  intros Hinv Ha. destruct ev as [t change | t c view | t c | f t p]; simpl.
  - destruct (apply_change_ok g t change Hinv) as (g' & r & -> & ? & ? & Hc & _). exists g'.
    split_and!; try done. unfold views_authorized. by rewrite Hc.
  - destruct (set_connection_ok g t c view Hinv) as (g' & r & -> & ? & ? & Hr). exists g'.
    split_and!; try done. destruct r as [[] | e]; [| by subst]. destruct Hr as (Hv & Hc & _).
    intros c' v. rewrite Hc. intros [[<- <-] | [_ ?]]%lookup_insert_Some; [done | by apply Ha].
  - destruct (remove_connection_ok g t c Hinv) as (g' & r & -> & ? & ? & Hr). exists g'.
    split_and!; try done. destruct r as [[] | e]; [| by subst]. destruct Hr as [Hc _].
    intros c' v. rewrite Hc. intros [_ ?]%lookup_delete_Some. by apply Ha.
  - destruct (prepare_ok g f t p Hinv) as (? & ? & Hc). eexists. split; [done |].
    split_and!; try done. unfold views_authorized. by rewrite Hc.
Qed.

Lemma graph_run_ok `{!ConnectionAuthorizer} evs g :
  graph_inv g -> views_authorized g ->
  exists g', graph_run g evs = Some g' /\ graph_inv g' /\ views_authorized g' /\ glimits g' = glimits g.
Proof.
  unfold graph_run. revert g. induction evs as [| ev evs IH]; intros g Hinv Ha; [by eauto |].
  cbn [foldl]. destruct (graph_step_ok g ev Hinv Ha) as (g1 & -> & H1 & H2 & H3).
  destruct (IH g1 H1 H2) as (g2 & -> & ? & ? & ?). exists g2. split_and!; try done. congruence.
Qed.

Lemma Graph_new_area l g : Graph_new l = Ok g -> area_inv g.
Proof. unfold Graph_new. destruct (_ || _); [done |]. intros [= <-] id e fp He. simpl in He. by apply lookup_empty_Some in He. Qed.

Lemma graph_run_area `{!ConnectionAuthorizer} evs : forall g g',
  graph_inv g -> views_authorized g -> area_inv g -> graph_run g evs = Some g' -> area_inv g'.
Proof.
  induction evs as [| ev evs IH]; intros g g' Hinv Ha Harea Hrun; [by injection Hrun as <- |].
  destruct (graph_step_ok g ev Hinv Ha) as (g1 & Hs & H1 & H2 & _). unfold graph_run in *. cbn [foldl] in Hrun.
  rewrite Hs in Hrun. apply (IH g1); try done. exact (graph_step_area g ev g1 Hinv Harea Hs).
Qed.

(** C7 No sequence of graph updates panics. After any of them every routing list holds exactly the
    registered entities whose registration asks for it, without empty lists: a grid cell those
    routed by position whose square, of their reach around their center, meets the cell; the
    globals, owners, semantic groups, refresh set and index table those that name them. The cached
    counters are the sums they stand for and within every configured limit; each installed view
    was authorized and has only valid observers in ready scenes; and a refused update leaves the
    graph unchanged. *)
Theorem interest_indices_exact `{!ConnectionAuthorizer} lim g0 evs :
  Graph_new lim = Ok g0 ->
  exists g, graph_run g0 evs = Some g /\ glimits g = lim
    /\ (forall c id, id ∈ at_key (cells g) c <-> exists e, entities g !! id = Some e /\ covers lim e c)
    /\ index_inv g /\ count_inv g /\ views_authorized g
    /\ forall t change g' e, apply_change g t change = Some (g', Err e) -> g' = g.
Proof.
  intros Hnew. pose proof Hnew as (Hinv & Hlim & Hc)%Graph_new_inv.
  assert (views_authorized g0) as Ha0 by (intros c v; by rewrite Hc).
  assert (area_inv g0) as Har0 by by eapply Graph_new_area.
  destruct (graph_run_ok evs g0 Hinv Ha0) as (g & Hrun & [Hi Hn] & Ha & Hl).
  pose proof (graph_run_area evs g0 g Hinv Ha0 Har0 Hrun) as Harea. assert (glimits g = lim) as Hlim' by congruence.
  exists g. split; [done |]. split; [done |]. split; [rewrite <- Hlim'; by apply cells_cover |].
  split_and!; try done. intros t change g' e Happ.
  destruct (apply_change_ok g t change (conj Hi Hn)) as (g1 & r & Happ' & _ & _ & _ & Hr).
  rewrite Happ in Happ'. by simplify_eq.
Qed.

Module GraphDemo.
Definition e1 : EntityRegistration :=
  mkEntityRegistration (mkEntityId 1 1)
    (mkBounds (f64_of_Z 3, f64_of_Z 0, f64_of_Z (-40)) (f64_of_Z 1)) (f64_of_Z 20)
    (mkRoutes (Some Dynamic) false (Some 7) {[4]}) Public ∅ 1 1 false.
Definition e1' : EntityRegistration :=
  mkEntityRegistration (mkEntityId 1 1)
    (mkBounds (f64_of_Z 300, f64_of_Z 0, f64_of_Z (-40)) (f64_of_Z 1)) (f64_of_Z 20)
    (mkRoutes (Some Dynamic) true None ∅) Public ∅ 2 1 false.
Lemma e1'_covers c : covers Limits_default e1' c <-> (8 <= c.1 <= 10)%Z /\ (-3 <= c.2 <= -1)%Z.
Proof.
  assert (footprint_span Limits_default e1' = Ok (Some ((8, -3), (10, -1))%Z)) as Hs by (vm_compute; reflexivity).
  by rewrite <- (footprint_span_covers _ _ _ Hs), elem_of_footprint_cells.
Qed.
Definition view : ConnectionView :=
  mkConnectionView [mkObserverGrant (f64_of_Z 1, f64_of_Z 2, f64_of_Z (-30)) 1] {[4]} {[1]}.
Definition evs : list graph_event :=
  [EvApply 1 (Upsert e1); EvSetConnection 2 7 view; EvApply 3 (Upsert e1'); EvApply 2 (Remove (mkEntityId 1 1))].
#[export] Instance allow : ConnectionAuthorizer := fun c _ => bool_decide (c = 7).
Definition g0 : Graph := mkGraph Limits_default ∅ ∅ ∅ ∅ ∅ ∅ ∅ ∅ ∅ 0 0 0 0 None None None 0.
End GraphDemo.

(** After the entity moved it is listed in the nine cells around its new place, in none of the old
    ones, and in no tenth. *)
Lemma interest_indices_exact_witness :
  exists g, @graph_run GraphDemo.allow GraphDemo.g0 GraphDemo.evs = Some g
    /\ index_inv g
    /\ Forall (fun c => mkEntityId 1 1 ∈ at_key (cells g) c)
         [(8, -3); (8, -2); (8, -1); (9, -3); (9, -2); (9, -1); (10, -3); (10, -2); (10, -1)]%Z
    /\ Forall (fun c => mkEntityId 1 1 ∉ at_key (cells g) c) [(0, -1); (7, -2); (11, -2); (9, -4); (9, 0)]%Z.
Proof.
  destruct (@interest_indices_exact GraphDemo.allow Limits_default
              GraphDemo.g0 GraphDemo.evs) as (g & Hrun & _ & Hcells & Hi & _).
  - vm_compute. reflexivity.
  - exists g. split; [exact Hrun |]. split; [exact Hi |].
    assert (entities g !! mkEntityId 1 1 = Some GraphDemo.e1') as He.
    { assert (option_map (fun g => entities g !! mkEntityId 1 1) (@graph_run GraphDemo.allow GraphDemo.g0 GraphDemo.evs)
              = Some (Some GraphDemo.e1')) as Hv by (vm_compute; reflexivity).
      rewrite Hrun in Hv. by injection Hv. }
    split; repeat constructor; rewrite Hcells.
    1-9: exists GraphDemo.e1'; split; [exact He |]; apply GraphDemo.e1'_covers; simpl; lia.
    all: intros (e & He' & Hc); rewrite He in He'; injection He' as <-; apply GraphDemo.e1'_covers in Hc; simpl in Hc; lia.
Defined.

Example graph_demo_counts :
  accounting <$> @graph_run GraphDemo.allow GraphDemo.g0 GraphDemo.evs
  = Some (mkAccounting 1 1 9 9 1 1 1 0 3).
Proof. vm_compute. reflexivity. Qed.
