(* ===== verification/Gather.v ===== *)
(** * Gathering what a connection may be sent

    Models [PreparedGraph::gather] and its helpers, [engine/net/src/interest/gather.rs]: the
    routing lists give candidates, visibility, scene readiness and the game's disclosure
    policy authorize them, and one prediction group is closed under dependencies. [hypot] is a
    parameter (its rounding is platform defined). [None] is a panic, or an exhausted step
    budget of the dependency loop; neither happens. *)

From S2P Require Import Prelude Types Floats InterestModel Graph.
Local Open Scope N_scope.
Local Open Scope engine_scope.

Section Gather.
Variable hypot : f64 -> f64 -> f64.

Definition visible (c : ConnectionId) (view : ConnectionView) (e : EntityRegistration) : bool :=
  match visibility e with
  | Public => true
  | Owner o => bool_decide (o = c)
  | Semantic s => bool_decide (s ∈ semantic_grants view)
  | Never => false
  end.

Definition permitted (c : ConnectionId) (view : ConnectionView) (e : EntityRegistration)
    (policy : DisclosurePolicy) : option RepresentationGrant :=
  if negb (visible c view e) || bool_decide (scene_revision e ∉ ready_scenes view) then None
  else
    match representation_of policy c e with
    | Some grant =>
        if bool_decide (schema_id grant <> 0) && bool_decide (fields grant <> 0)
        then Some grant else None
    | None => None
    end.

Definition entry (e : EntityRegistration) (grant : RepresentationGrant) (why : EligibilityReasons)
  : EligibleEntry :=
  mkEligibleEntry (reg_id e) grant why (state_version e) (scene_revision e).

Definition spatially_eligible (l : Limits) (e : EntityRegistration) (view : ConnectionView)
    (previous : bool) : bool :=
  let r := f64_add (f64_add (f64_add (radius (bounds e)) (cull_radius e)) (prefetch l))
             (if previous then leave_margin l else f64_zero) in
  existsb (fun o =>
    let p := center (bounds e) in
    let q := position o in
    bool_decide (observer_scene o = scene_revision e)
    && f64_le (hypot (hypot (f64_sub p.1.1 q.1.1) (f64_sub p.1.2 q.1.2)) (f64_sub p.2 q.2)) r)
    (observers view).

(** ** Candidates *)

(** Candidates with their reasons, and the list entries visited. *)
Definition candidate_state : Type := gmap EntityId EligibilityReasons * N.

(** The closure [add]. *)
Definition add_candidate (l : Limits) (st : candidate_state) (id : EntityId)
    (why : EligibilityReasons) : result GatherError candidate_state :=
  if decide (max_candidate_visits l <= st.2) then Err CandidateVisitLimit
  else
    match st.1 !! id with
    | Some old => Ok (<[id := reasons_insert old why]> st.1, st.2 + 1)
    | None =>
        if decide (max_candidates l <= count_of st.1) then Err CandidateLimit
        else Ok (<[id := why]> st.1, st.2 + 1)
    end.

Fixpoint add_list (l : Limits) (ids : list EntityId) (why : EligibilityReasons) (st : candidate_state)
  : result GatherError candidate_state :=
  match ids with
  | [] => Ok st
  | id :: ids => let? st := add_candidate l st id why in add_list l ids why st
  end.

(** Several lists in turn, all for one reason. *)
Fixpoint add_lists (l : Limits) (lists : list (gset EntityId)) (why : EligibilityReasons)
    (st : candidate_state) : result GatherError candidate_state :=
  match lists with
  | [] => Ok st
  | ids :: lists => let? st := add_list l (sorted_entities ids) why st in add_lists l lists why st
  end.

Definition semantic_lists (g : Graph) (view : ConnectionView) : list (gset EntityId) :=
  (fun s => at_key (semantics g) s) <$> merge_sort N.le (elements (semantic_grants view)).
Definition spatial_lists (g : Graph) (view : ConnectionView) : list (gset EntityId) :=
  (fun o => at_key (cells g) (cell_at (glimits g) (position o))) <$> observers view.

Definition collect_candidates (g : Graph) (c : ConnectionId) (view : ConnectionView)
  : result GatherError candidate_state :=
  let l := glimits g in
  let? st := add_list l (sorted_entities (globals g)) GLOBAL (∅, 0) in
  let? st := add_list l (sorted_entities (at_key (owners g) c)) OWNER st in
  let? st := add_lists l (semantic_lists g view) SEMANTIC st in
  add_lists l (spatial_lists g view) SPATIAL st.

(** One candidate, filtered. *)
Definition admit_candidate (g : Graph) (c : ConnectionId) (view : ConnectionView)
    (policy : DisclosurePolicy) (previous : gset EntityId) (id : EntityId) (why : EligibilityReasons)
  : option EligibleEntry :=
  match entities g !! id with
  | None => None
  | Some e =>
      match permitted c view e policy with
      | None => None
      | Some grant =>
          let why := if reasons_contains why SPATIAL
                        && negb (spatially_eligible (glimits g) e view (bool_decide (id ∈ previous)))
                     then without_spatial why else why in
          if reasons_is_empty why then None else Some (entry e grant why)
      end
  end.

(** ** The prediction group *)

(** The loop over the dependencies of one member. *)
Fixpoint follow (g : Graph) (c : ConnectionId) (policy : DisclosurePolicy) (source : EntityId)
    (targets : list EntityId) (visited : gmap EntityId EligibleEntry) (pending : gset EntityId)
    (edges : N) : result DependencyError (gset EntityId * N) :=
  match targets with
  | [] => Ok (pending, edges)
  | target :: targets =>
      if decide (max_dependency_edges (glimits g) <= edges) then Err EdgeLimit
      else if negb (permits_dependency policy c source target) then Err Denied
      else if bool_decide (visited !! target = None) && bool_decide (target ∉ pending) then
        if decide (max_required (glimits g) <= count_of visited + count_of pending)
        then Err EntityLimit
        else follow g c policy source targets visited ({[target]} ∪ pending) (edges + 1)
      else follow g c policy source targets visited pending (edges + 1)
  end.

(** [while let Some(id) = pending.pop_first()]. *)
Fixpoint required_loop (fuel : nat) (g : Graph) (c : ConnectionId) (view : ConnectionView)
    (policy : DisclosurePolicy) (visited : gmap EntityId EligibleEntry) (pending : gset EntityId)
    (edges : N) : option (result DependencyError (gmap EntityId EligibleEntry)) :=
  match sorted_entities pending with
  | [] => Some (Ok visited)
  | id :: _ =>
      match fuel with
      | O => None
      | S fuel =>
          let pending := pending ∖ {[id]} in
          match entities g !! id with
          | None => Some (Err Missing)
          | Some e =>
              match permitted c view e policy with
              | None => Some (Err Denied)
              | Some grant =>
                  if negb (prediction_allowed grant) then Some (Err IncompleteRepresentation)
                  else
                    let visited := <[id := entry e grant REQUIRED]> visited in
                    match follow g c policy id (sorted_entities (dependencies e)) visited pending edges with
                    | Err err => Some (Err err)
                    | Ok (pending, edges) => required_loop fuel g c view policy visited pending edges
                    end
              end
          end
      end
  end.

(** Every round visits one more of at most [max_required] entities. *)
Definition required (g : Graph) (c : ConnectionId) (view : ConnectionView) (roots : gset EntityId)
    (policy : DisclosurePolicy) : option (result DependencyError (gmap EntityId EligibleEntry)) :=
  if decide (max_required (glimits g) < count_of roots) then Some (Err EntityLimit)
  else required_loop (N.to_nat (max_required (glimits g))) g c view policy ∅ roots 0.

(** [entries.entry(id).and_modify(..).or_insert(..)] for each required entry. *)
Definition merge_required (entries needed : gmap EntityId EligibleEntry) : gmap EntityId EligibleEntry :=
  union_with (fun mine _ =>
    Some (mkEligibleEntry (entry_entity mine) (representation mine)
            (reasons_insert (reasons mine) REQUIRED) (entry_state_version mine)
            (entry_scene_revision mine))) entries needed.

Definition admit_group (g : Graph) (entries : gmap EntityId EligibleEntry) (roots : gset EntityId)
    (c : ConnectionId) (view : ConnectionView) (policy : DisclosurePolicy)
  : option (gmap EntityId EligibleEntry * PredictionAdmission) :=
  if decide (roots = ∅) then Some (entries, NotRequested)
  else
    match required g c view roots policy with
    | None => None
    | Some (Err error) => Some (entries, PredictionDenied error)
    | Some (Ok needed) =>
        let additional := count_of (dom needed ∖ dom entries) in
        if decide (max_candidates (glimits g) < count_of entries + additional)
        then Some (entries, PredictionDenied EntityLimit)
        else Some (merge_required entries needed, AdmittedGroup (dom needed))
    end.

(** The policy is borrowed for the call and answers one revision, so the check after the group repeats the one at
    the start; it is written as the source has it. *)
Definition gather (pg : PreparedGraph) (c : ConnectionId) (previous roots : gset EntityId)
    (policy : DisclosurePolicy) : option (result GatherError EligibleSet) :=
  let g := prepared pg in
  if decide (policy_revision_of policy <> prepared_policy pg) then Some (Err StalePolicy)
  else
    match connections g !! c with
    | None => Some (Err UnknownConnection)
    | Some view =>
        if decide (max_candidates (glimits g) < count_of previous) then Some (Err PreviousEligibilityLimit)
        else
          match collect_candidates g c view with
          | Err e => Some (Err e)
          | Ok (cands, visits) =>
              if decide (map_Forall (fun id _ => is_Some (entities g !! id)) cands) then
                let found := map_imap (admit_candidate g c view policy previous) cands in
                match admit_group g found roots c view policy with
                | None => None
                | Some (all, pred) =>
                    if decide (policy_revision_of policy <> prepared_policy pg)
                    then Some (Err StalePolicy)
                    else Some (Ok (mkEligibleSet c (graph_revision g) (prepared_policy pg)
                                     (prepared_frame pg) (prepared_tick pg) all pred visits
                                     (count_of cands)))
                end
              else None
          end
    end.
(** ** What the game allows *)

(** Who may see an entity at all. *)
Inductive may_see (c : ConnectionId) (view : ConnectionView) : Visibility -> Prop :=
| see_public : may_see c view Public
| see_owned : may_see c view (Owner c)
| see_granted s : s ∈ semantic_grants view -> may_see c view (Semantic s).

(** The representation a connection may be sent: visible, its scene loaded, and granted by the
    policy with a schema and at least one field. *)
Definition disclosed (c : ConnectionId) (view : ConnectionView) (e : EntityRegistration)
    (policy : DisclosurePolicy) (grant : RepresentationGrant) : Prop :=
  may_see c view (visibility e) /\ scene_revision e ∈ ready_scenes view
  /\ representation_of policy c e = Some grant /\ schema_id grant <> 0 /\ fields grant <> 0.

Lemma visible_iff c view e : visible c view e = true <-> may_see c view (visibility e).
Proof.
  unfold visible. destruct (visibility e) as [| o | s |]; rewrite ?bool_decide_eq_true; split;
    try done; try (intros; by constructor); intros H; try (by inversion H); by subst; constructor.
Qed.

Lemma permitted_iff c view e policy grant :
  permitted c view e policy = Some grant <-> disclosed c view e policy grant.
Proof.
  unfold permitted, disclosed. rewrite <- visible_iff.
  destruct (visible c view e); simpl; [| naive_solver].
  destruct (bool_decide _) eqn:Hs.
  - apply bool_decide_eq_true in Hs. naive_solver.
  - apply bool_decide_eq_false, dec_stable in Hs.
    destruct (representation_of policy c e) as [g |]; [| naive_solver].
    destruct (_ && _) eqn:Hg.
    + apply andb_true_iff in Hg as [?%bool_decide_eq_true ?%bool_decide_eq_true]. naive_solver.
    + apply andb_false_iff in Hg as [Hg%bool_decide_eq_false | Hg%bool_decide_eq_false];
        apply dec_stable in Hg; split; [done | | done |]; intros (_ & _ & [= ->] & ? & ?); congruence.
Qed.

(** ** The dependency closure *)

(** One permitted dependency edge of the registered entities. *)
Definition depends (g : Graph) (a b : EntityId) : Prop :=
  exists e, entities g !! a = Some e /\ b ∈ dependencies e.

(** What one member must satisfy. *)
Definition member_ok (g : Graph) (c : ConnectionId) (view : ConnectionView) (policy : DisclosurePolicy)
    (id : EntityId) (en : EligibleEntry) : Prop :=
  exists e grant, entities g !! id = Some e /\ disclosed c view e policy grant
    /\ prediction_allowed grant = true /\ en = entry e grant REQUIRED
    /\ forall d, d ∈ dependencies e -> permits_dependency policy c id d = true.

(** The loop's state: visited members are in order with their dependencies known, everything
    is reachable from the roots, and the two sets are disjoint and within the limit. *)
Record closure_inv (g : Graph) (c : ConnectionId) (view : ConnectionView) (policy : DisclosurePolicy)
    (roots : gset EntityId) (visited : gmap EntityId EligibleEntry) (pending : gset EntityId) : Prop := {
  cl_members : forall id en, visited !! id = Some en -> member_ok g c view policy id en;
  cl_closed : forall id d, is_Some (visited !! id) -> depends g id d -> is_Some (visited !! d) \/ d ∈ pending;
  cl_roots : forall id, id ∈ roots -> is_Some (visited !! id) \/ id ∈ pending;
  cl_reach : forall id, is_Some (visited !! id) \/ id ∈ pending ->
    exists r, r ∈ roots /\ rtc (depends g) r id;
  cl_disjoint : forall id, id ∈ pending -> visited !! id = None;
  cl_size : count_of visited + count_of pending <= max_required (glimits g);
}.

Lemma follow_ok g c policy source targets visited pending edges pending' edges' :
  follow g c policy source targets visited pending edges = Ok (pending', edges') ->
  (forall t, t ∈ pending' <-> t ∈ pending \/ (t ∈ targets /\ visited !! t = None))
  /\ (forall t, t ∈ targets -> permits_dependency policy c source t = true)
  /\ (count_of visited + count_of pending <= max_required (glimits g) ->
      count_of visited + count_of pending' <= max_required (glimits g)).
Proof.
  revert pending edges. induction targets as [| t ts IH]; intros pending edges H; simpl in H.
  { simplify_eq. split_and!; [| by intros ? ?%not_elem_of_nil | done].
    intros t. split; [by left |]. by intros [? | [?%not_elem_of_nil _]]. }
  destruct (decide _) as [| _]; [done |].
  destruct (permits_dependency policy c source t) eqn:Hp; [| done]. simpl in H.
  destruct (bool_decide (visited !! t = None) && bool_decide (t ∉ pending)) eqn:Hnew.
  - apply andb_prop in Hnew as [Hv%bool_decide_eq_true Hn%bool_decide_eq_true].
    destruct (decide _) as [| Hroom]; [done |].
    apply IH in H as (H1 & H2 & H3). split_and!.
    + intros x. rewrite H1, elem_of_union, elem_of_singleton, elem_of_cons. naive_solver.
    + intros x [-> | Hx]%elem_of_cons; auto.
    + intros _. apply H3. unfold count_of in *. rewrite size_union, size_singleton by set_solver. lia.
  - apply IH in H as (H1 & H2 & H3). split_and!; [| | done].
    + intros x. rewrite H1, elem_of_cons. split; [naive_solver |].
      intros [Hx | [[-> | Hx] Hv]]; auto. left.
      rewrite bool_decide_eq_true_2 in Hnew by done. simpl in Hnew.
      apply bool_decide_eq_false in Hnew. by apply dec_stable.
    + intros x [-> | Hx]%elem_of_cons; auto.
Qed.
Lemma closure_step g c view policy roots visited pending id e grant pending' edges edges' :
  closure_inv g c view policy roots visited pending -> id ∈ pending ->
  entities g !! id = Some e -> permitted c view e policy = Some grant ->
  prediction_allowed grant = true ->
  follow g c policy id (sorted_entities (dependencies e)) (<[id := entry e grant REQUIRED]> visited)
    (pending ∖ {[id]}) edges = Ok (pending', edges') ->
  closure_inv g c view policy roots (<[id := entry e grant REQUIRED]> visited) pending'.
Proof.
  intros [I1 I2 I3 I4 I5 I6] Hid He Hgrant Hpred Hf.
  set (visited' := <[id := entry e grant REQUIRED]> visited) in *.
  assert (forall x, is_Some (visited' !! x) <-> id = x \/ is_Some (visited !! x)) as Hv.
  { intros x. unfold visited'. rewrite lookup_insert_is_Some. destruct (decide (id = x)); naive_solver. }
  apply follow_ok in Hf as (F1 & F2 & F3).
  setoid_rewrite elem_of_sorted_entities in F1. setoid_rewrite elem_of_sorted_entities in F2.
  setoid_rewrite elem_of_difference in F1. setoid_rewrite elem_of_singleton in F1.
  constructor.
  - intros x en [[<- <-] | [_ Hx]]%lookup_insert_Some; [| by apply I1].
    exists e, grant. rewrite <- permitted_iff. auto.
  - intros x d Hx Hd. rewrite Hv, F1.
    destruct (decide (is_Some (visited' !! d))) as [Hs%Hv | Hn]; [by left |].
    rewrite <- eq_None_not_Some in Hn.
    apply Hv in Hx as [<- | Hx].
    + right. right. split; [| done]. destruct Hd as (e' & He' & Hd). simplify_eq. done.
    + right. left. destruct (I2 x d Hx Hd) as [Hd' | Hd'].
      * exfalso. eapply eq_None_not_Some; [exact Hn |]. apply Hv. by right.
      * split; [done |]. intros ->. eapply eq_None_not_Some; [exact Hn |]. apply Hv. by left.
  - intros r Hr. rewrite Hv, F1. destruct (decide (r = id)) as [-> | Hne]; [auto |].
    destruct (I3 r Hr); auto.
  - intros x Hx. rewrite Hv, F1 in Hx.
    assert (exists r, r ∈ roots /\ rtc (depends g) r id) as (r0 & Hr0 & Hreach) by (apply I4; auto).
    destruct Hx as [[<- | Hx] | [[Hx _] | [Hx _]]]; [eauto | apply I4; auto | apply I4; auto |].
    exists r0. split; [done |]. eapply rtc_r; [exact Hreach |]. exists e. done.
  - intros x Hx. apply F1 in Hx as [[Hx Hne] | [_ Hx]]; [| done].
    unfold visited'. rewrite lookup_insert_ne by done. by apply I5.
  - apply F3. unfold visited', count_of in *. rewrite map_size_insert_None by (by apply I5).
    rewrite size_difference by set_solver. rewrite size_singleton.
    assert (size pending <> 0)%nat by (intros H0; apply size_empty_inv in H0; set_solver). lia.
Qed.

Lemma required_loop_ok fuel g c view policy roots visited pending edges :
  closure_inv g c view policy roots visited pending ->
  max_required (glimits g) <= N.of_nat fuel + count_of visited ->
  exists r, required_loop fuel g c view policy visited pending edges = Some r
    /\ forall all, r = Ok all -> closure_inv g c view policy roots all ∅.
Proof.
  revert visited pending edges. induction fuel as [| fuel IH]; intros visited pending edges Hinv Hfuel.
  - cbn [required_loop]. destruct (sorted_entities pending) as [| id rest] eqn:Hs.
    + exists (Ok visited). split; [done |]. intros all [= <-].
      assert (pending = ∅) as -> by (apply set_eq; intros x; rewrite <- elem_of_sorted_entities, Hs; set_solver).
      done.
    + exfalso. pose proof (cl_size _ _ _ _ _ _ _ Hinv).
      assert (id ∈ pending) as Hid by (apply elem_of_sorted_entities; rewrite Hs; by left).
      unfold count_of in *.
      assert (size pending <> 0)%nat by (intros H0; apply size_empty_inv in H0; set_solver). lia.
  - cbn [required_loop]. destruct (sorted_entities pending) as [| id rest] eqn:Hs.
    + exists (Ok visited). split; [done |]. intros all [= <-].
      assert (pending = ∅) as -> by (apply set_eq; intros x; rewrite <- elem_of_sorted_entities, Hs; set_solver).
      done.
    + assert (id ∈ pending) as Hid by (apply elem_of_sorted_entities; rewrite Hs; by left).
      destruct (entities g !! id) as [e |] eqn:He; [| by eexists].
      destruct (permitted c view e policy) as [grant |] eqn:Hg; [| by eexists].
      destruct (prediction_allowed grant) eqn:Hp; [| by eexists]. simpl.
      destruct (follow _ _ _ _ _ _ _ _) as [[pending' edges'] | err] eqn:Hf; [| by eexists].
      apply IH; [by eapply closure_step |].
      unfold count_of in *. rewrite map_size_insert_None by (by apply (cl_disjoint _ _ _ _ _ _ _ Hinv)).
      lia.
Qed.

Lemma required_ok g c view roots policy :
  exists r, required g c view roots policy = Some r
    /\ forall all, r = Ok all -> closure_inv g c view policy roots all ∅.
Proof.
  unfold required. destruct (decide _) as [| Hn]; [by eexists |].
  apply required_loop_ok; [| unfold count_of; lia]. constructor.
  - by intros id en ?%lookup_empty_Some.
  - intros id d [en ?%lookup_empty_Some]. done.
  - by right.
  - intros id [[en ?%lookup_empty_Some] | Hid]; [done |]. exists id. split; [done | apply rtc_refl].
  - intros id _. apply lookup_empty.
  - unfold count_of in *. rewrite map_size_empty. lia.
Qed.

Lemma required_closed g c view roots policy all :
  closure_inv g c view policy roots all ∅ ->
  (forall id, is_Some (all !! id) <-> exists root, root ∈ roots /\ rtc (depends g) root id)
  /\ count_of all <= max_required (glimits g)
  /\ forall id en, all !! id = Some en -> member_ok g c view policy id en.
Proof.
  intros [I1 I2 I3 I4 I5 I6]. split_and!; [| | done].
  - intros id. split; [by intros H; apply I4; left |]. intros (root & Hroot & Hreach).
    assert (is_Some (all !! root)) as Hs by (destruct (I3 root Hroot); set_solver). clear Hroot.
    induction Hreach as [x | x y z Hxy _ IH]; [done |]. apply IH.
    destruct (I2 x y Hs Hxy); set_solver.
  - unfold count_of in *. rewrite size_empty in I6. lia.
Qed.

(** C35 The dependency search of a prediction group always ends within its budget, one round per
    member; when it admits a group, the members are exactly the entities reachable from the
    requested roots along registered dependencies, at most the configured number, each
    permitted to the connection in a representation complete enough to predict, with every
    dependency edge between them disclosed. *)
Theorem prediction_group_closed g c view roots policy :
  exists r, required g c view roots policy = Some r
    /\ forall all, r = Ok all ->
         (forall id, is_Some (all !! id) <-> exists root, root ∈ roots /\ rtc (depends g) root id)
         /\ count_of all <= max_required (glimits g)
         /\ forall id en, all !! id = Some en -> member_ok g c view policy id en.
Proof.
  destruct (required_ok g c view roots policy) as (r & Hr & Hok). exists r. split; [done |].
  intros all ->. by apply required_closed, Hok.
Qed.

(** ** Candidates and their reasons *)

(** Reason bit [m] is recorded for candidate [id]. *)
Definition has_reason (cands : gmap EntityId EligibilityReasons) (id : EntityId) (m : N) : Prop :=
  exists why, cands !! id = Some why /\ N.testbit why m = true.

(** Within the limits, and no candidate is without a reason. *)
Definition candidates_inv (l : Limits) (st : candidate_state) : Prop :=
  count_of st.1 <= max_candidates l /\ st.2 <= max_candidate_visits l
  /\ forall id, is_Some (st.1 !! id) -> exists m, has_reason st.1 id m.

Lemma has_reason_insert cands id why x m :
  has_reason (<[id := why]> cands) x m <->
  (x = id /\ N.testbit why m = true) \/ (x <> id /\ has_reason cands x m).
Proof.
  unfold has_reason. destruct (decide (x = id)) as [-> | Hne].
  - rewrite lookup_insert_eq. naive_solver.
  - rewrite lookup_insert_ne by done. naive_solver.
Qed.

Lemma has_reason_add cands id why n :
  (forall m, N.testbit why m = true <-> has_reason cands id m \/ m = n) ->
  forall x m, has_reason (<[id := why]> cands) x m <-> has_reason cands x m \/ (x = id /\ m = n).
Proof.
  intros Hw x m. rewrite has_reason_insert, Hw. destruct (decide (x = id)) as [-> | Hne]; tauto.
Qed.

(** Merging one reason bit keeps every candidate justified. *)
Lemma has_reason_total cands id why n :
  (forall x m, has_reason (<[id := why]> cands) x m <-> has_reason cands x m \/ (x = id /\ m = n)) ->
  (forall x, is_Some (cands !! x) -> exists m, has_reason cands x m) ->
  forall x, is_Some ((<[id := why]> cands) !! x) -> exists m, has_reason (<[id := why]> cands) x m.
Proof.
  intros Hiff Hr x Hx. setoid_rewrite Hiff. destruct (decide (x = id)) as [-> |].
  - exists n. by right.
  - rewrite lookup_insert_ne in Hx by done. destruct (Hr x Hx) as [m Hm]. exists m. by left.
Qed.

Lemma add_candidate_ok l st id n st' :
  candidates_inv l st -> add_candidate l st id (2 ^ n) = Ok st' ->
  candidates_inv l st'
  /\ forall x m, has_reason st'.1 x m <-> has_reason st.1 x m \/ (x = id /\ m = n).
Proof.
  intros (Hc & Hv & Hr) H. unfold add_candidate in H. destruct (decide _) as [| Hvis]; [done |].
  assert (forall m, N.testbit (2 ^ n) m = true <-> m = n) as Hbit.
  { intros m. rewrite N.pow2_bits_eqb, N.eqb_eq. split; congruence. }
  destruct (st.1 !! id) as [old |] eqn:Hold; [| destruct (decide _) as [| Hroom]; [done |]];
    injection H as <-; simpl.
  - assert (forall m, N.testbit (reasons_insert old (2 ^ n)) m = true <-> has_reason st.1 id m \/ m = n)
      as Hw.
    { intros m. unfold reasons_insert, has_reason. rewrite N.lor_spec, orb_true_iff, Hbit, Hold.
      split; intros [H | H]; auto; [eauto |]. destruct H as (w & [= <-] & H). auto. }
    pose proof (has_reason_add _ _ _ _ Hw) as Hiff. split; [| exact Hiff].
    split_and!; simpl; [| lia | by eapply has_reason_total].
    unfold count_of in *. rewrite map_size_insert_Some by (by eexists). done.
  - assert (forall m, N.testbit (2 ^ n) m = true <-> has_reason st.1 id m \/ m = n) as Hw.
    { intros m. unfold has_reason. rewrite Hbit, Hold. split; [auto |].
      intros [(w & ? & _) | H]; [discriminate | done]. }
    pose proof (has_reason_add _ _ _ _ Hw) as Hiff. split; [| exact Hiff].
    split_and!; simpl; [| lia | by eapply has_reason_total].
    unfold count_of in *. rewrite map_size_insert_None by done. lia.
Qed.

Lemma add_list_ok l ids n st st' :
  candidates_inv l st -> add_list l ids (2 ^ n) st = Ok st' ->
  candidates_inv l st'
  /\ forall x m, has_reason st'.1 x m <-> has_reason st.1 x m \/ (x ∈ ids /\ m = n).
Proof.
  revert st. induction ids as [| id ids IH]; intros st Hinv H; simpl in H.
  { simplify_eq. split; [done |]. intros x m. rewrite elem_of_nil. naive_solver. }
  destruct (add_candidate l st id (2 ^ n)) as [st1 |] eqn:H1; [| done].
  apply add_candidate_ok in H1 as [Hinv1 Hiff1]; [| done].
  apply IH in H as [Hinv' Hiff']; [| done]. split; [done |].
  intros x m. rewrite Hiff', Hiff1, elem_of_cons. naive_solver.
Qed.

Lemma add_lists_ok l lists n st st' :
  candidates_inv l st -> add_lists l lists (2 ^ n) st = Ok st' ->
  candidates_inv l st'
  /\ forall x m, has_reason st'.1 x m <->
       has_reason st.1 x m \/ ((exists ids, ids ∈ lists /\ x ∈ ids) /\ m = n).
Proof.
  revert st. induction lists as [| ids lists IH]; intros st Hinv H; simpl in H.
  { simplify_eq. split; [done |]. intros x m. setoid_rewrite elem_of_nil. naive_solver. }
  destruct (add_list l (sorted_entities ids) (2 ^ n) st) as [st1 |] eqn:H1; [| done].
  apply add_list_ok in H1 as [Hinv1 Hiff1]; [| done].
  apply IH in H as [Hinv' Hiff']; [| done]. split; [done |].
  intros x m. rewrite Hiff', Hiff1, elem_of_sorted_entities. setoid_rewrite elem_of_cons. naive_solver.
Qed.

(** Why the routing lists of a connection hold an entity, by reason bit. *)
Definition routed (g : Graph) (c : ConnectionId) (view : ConnectionView) (id : EntityId) (m : N) : Prop :=
  (id ∈ globals g /\ m = 1)
  \/ (id ∈ at_key (owners g) c /\ m = 2)
  \/ ((exists s, s ∈ semantic_grants view /\ id ∈ at_key (semantics g) s) /\ m = 3)
  \/ ((exists o, o ∈ observers view
         /\ id ∈ at_key (cells g) (cell_at (glimits g) (position o))) /\ m = 0).

Lemma collect_candidates_ok g c view st :
  collect_candidates g c view = Ok st ->
  candidates_inv (glimits g) st /\ forall id m, has_reason st.1 id m <-> routed g c view id m.
Proof.
  intros H. unfold collect_candidates in H.
  change GLOBAL with (2 ^ 1) in H. change OWNER with (2 ^ 2) in H.
  change SEMANTIC with (2 ^ 3) in H. change SPATIAL with (2 ^ 0) in H.
  destruct (add_list _ (sorted_entities (globals g)) _ _) as [s1 |] eqn:H1; [| done].
  apply add_list_ok in H1 as [I1 E1].
  2: { split_and!; simpl; [unfold count_of; rewrite map_size_empty; lia | lia |].
       intros id [w ?%lookup_empty_Some]. done. }
  simpl in H.
  destruct (add_list _ (sorted_entities (at_key (owners g) c)) _ _) as [s2 |] eqn:H2; [| done].
  apply add_list_ok in H2 as [I2 E2]; [| done]. simpl in H.
  destruct (add_lists _ (semantic_lists g view) _ _) as [s3 |] eqn:H3; [| done].
  apply add_lists_ok in H3 as [I3 E3]; [| done]. simpl in H.
  apply add_lists_ok in H as [I4 E4]; [| done]. split; [done |].
  intros id m. rewrite E4, E3, E2, E1, !elem_of_sorted_entities.
  assert (~ has_reason (∅, 0).1 id m) as Hno by (intros (w & Hw & _); simpl in Hw; by rewrite lookup_empty in Hw).
  assert ((exists ids, ids ∈ semantic_lists g view /\ id ∈ ids) <->
          exists s, s ∈ semantic_grants view /\ id ∈ at_key (semantics g) s) as ->.
  { unfold semantic_lists. setoid_rewrite list_elem_of_fmap.
    setoid_rewrite merge_sort_Permutation. setoid_rewrite elem_of_elements. naive_solver. }
  assert ((exists ids, ids ∈ spatial_lists g view /\ id ∈ ids) <->
          exists o, o ∈ observers view /\ id ∈ at_key (cells g) (cell_at (glimits g) (position o))) as ->.
  { unfold spatial_lists. setoid_rewrite list_elem_of_fmap. naive_solver. }
  unfold routed. tauto.
Qed.

(** ** The gathered set *)

(** What each reason bit of an eligible entity asserts. *)
Definition justified (g : Graph) (c : ConnectionId) (view : ConnectionView)
    (previous members : gset EntityId) (id : EntityId) (e : EntityRegistration) (m : N) : Prop :=
  (m = 0 /\ (exists o, o ∈ observers view /\ id ∈ at_key (cells g) (cell_at (glimits g) (position o)))
   /\ spatially_eligible (glimits g) e view (bool_decide (id ∈ previous)) = true)
  \/ (m = 1 /\ global (routes e) = true)
  \/ (m = 2 /\ route_owner (routes e) = Some c)
  \/ (m = 3 /\ exists s, s ∈ semantic_grants view /\ s ∈ semantic (routes e))
  \/ (m = 4 /\ id ∈ members).

(** The entry the policy authorizes for a registered entity, with exactly the justified reasons. *)
Definition entry_ok (g : Graph) (c : ConnectionId) (view : ConnectionView) (policy : DisclosurePolicy)
    (previous members : gset EntityId) (id : EntityId) (en : EligibleEntry) : Prop :=
  exists e grant, entities g !! id = Some e /\ disclosed c view e policy grant
    /\ en = entry e grant (reasons en)
    /\ reasons en <> 0
    /\ forall m, N.testbit (reasons en) m = true <-> justified g c view previous members id e m.

(** Every entry is authorized, and every permitted entity with a reason has one. *)
Definition entries_ok (g : Graph) (c : ConnectionId) (view : ConnectionView) (policy : DisclosurePolicy)
    (previous members : gset EntityId) (all : gmap EntityId EligibleEntry) : Prop :=
  (forall id en, all !! id = Some en -> entry_ok g c view policy previous members id en)
  /\ forall id e grant m, entities g !! id = Some e -> disclosed c view e policy grant ->
       justified g c view previous members id e m -> is_Some (all !! id).

Lemma routed_registered g c view id e m :
  index_inv g -> entities g !! id = Some e ->
  routed g c view id m <->
  (m = 0 /\ exists o, o ∈ observers view /\ id ∈ at_key (cells g) (cell_at (glimits g) (position o)))
  \/ (m = 1 /\ global (routes e) = true)
  \/ (m = 2 /\ route_owner (routes e) = Some c)
  \/ (m = 3 /\ exists s, s ∈ semantic_grants view /\ s ∈ semantic (routes e)).
Proof.
  intros Hi He. unfold routed. rewrite (ii_globals g Hi), (ii_owners g Hi).
  setoid_rewrite (ii_semantics g Hi). rewrite He.
  assert (forall P : EntityRegistration -> Prop, (exists x, Some e = Some x /\ P x) <-> P e) as Hx.
  { intros P. split; [by intros (x & [= <-] & ?) | eauto]. }
  rewrite !Hx. setoid_rewrite Hx. tauto.
Qed.

Lemma routed_known g c view id m :
  index_inv g -> routed g c view id m -> is_Some (entities g !! id).
Proof.
  intros Hi [[H _] | [[H _] | [[(s & _ & H) _] | [(o & _ & H) _]]]].
  - apply (ii_globals g Hi) in H as (e & -> & _). done.
  - apply (ii_owners g Hi) in H as (e & -> & _). done.
  - apply (ii_semantics g Hi) in H as (e & -> & _). done.
  - apply (ii_cells g Hi) in H as (fp & Hf & _). apply (ii_footprints g Hi). by eexists.
Qed.

Lemma trim_bits why ok m :
  (forall n, N.testbit why n = true -> n < 4) ->
  N.testbit (if reasons_contains why SPATIAL && negb ok then without_spatial why else why) m = true
  <-> N.testbit why m = true /\ (m = 0 -> ok = true).
Proof.
  intros Hlow. change SPATIAL with (2 ^ 0). rewrite reasons_contains_testbit.
  destruct ok; rewrite ?andb_false_r, ?andb_true_r; [tauto |].
  destruct (N.testbit why 0) eqn:H0; simpl.
  - unfold without_spatial. rewrite N.land_spec, andb_true_iff. split.
    + intros [H1 H2]. split; [done |]. by intros ->.
    + intros [H1 H2]. split; [done |]. specialize (Hlow m H1).
      assert (m = 0 \/ m = 1 \/ m = 2 \/ m = 3) as [-> | [-> | [-> | ->]]] by lia; try done.
      by specialize (H2 eq_refl).
  - split; [| tauto]. intros H. split; [done |]. intros ->. congruence.
Qed.

Lemma reasons_zero why : why = 0 <-> forall m, N.testbit why m = true -> False.
Proof.
  split; [intros -> m; by rewrite N.bits_0 |]. intros H. apply N.bits_inj. intros m.
  rewrite N.bits_0. destruct (N.testbit why m) eqn:Hm; [| done]. by destruct (H m).
Qed.

Lemma found_ok g c view policy previous st :
  index_inv g -> collect_candidates g c view = Ok st ->
  entries_ok g c view policy previous ∅ (map_imap (admit_candidate g c view policy previous) st.1).
Proof.
  intros Hi [(_ & _ & Hsome) Hiff]%collect_candidates_ok.
  assert (forall id why e, st.1 !! id = Some why -> entities g !! id = Some e -> forall m,
            N.testbit (if reasons_contains why SPATIAL
                          && negb (spatially_eligible (glimits g) e view (bool_decide (id ∈ previous)))
                       then without_spatial why else why) m = true
            <-> justified g c view previous ∅ id e m) as Hbits.
  { intros id why e Hw He m.
    assert (forall n, N.testbit why n = true <-> routed g c view id n) as Hr.
    { intros n. rewrite <- Hiff. unfold has_reason. rewrite Hw. split; [eauto |].
      by intros (w & [= <-] & ?). }
    rewrite trim_bits by (intros n [[_ ->] | [[_ ->] | [[_ ->] | [_ ->]]]]%Hr; lia).
    rewrite Hr, (routed_registered _ _ _ _ _ _ Hi He). unfold justified.
    rewrite elem_of_empty. split; [| naive_solver].
    intros [[[-> H] | [[-> H] | [[-> H] | [-> H]]]] Hz]; auto 6. }
  split.
  - intros id en. rewrite map_lookup_imap. intros (why & Hw & Hen)%bind_Some.
    unfold admit_candidate in Hen. destruct (entities g !! id) as [e |] eqn:He; [| done].
    destruct (permitted c view e policy) as [grant |] eqn:Hg; [| done].
    specialize (Hbits id why e Hw He).
    destruct (reasons_is_empty _) eqn:Hempty in Hen; [done |]. injection Hen as <-.
    apply bool_decide_eq_false in Hempty. exists e, grant. rewrite <- permitted_iff. done.
  - intros id e grant m He Hg%permitted_iff Hj. rewrite map_lookup_imap.
    assert (is_Some (st.1 !! id)) as [why Hw].
    { assert (routed g c view id m) as (w & Hw & _)%Hiff; [| by eexists].
      apply (routed_registered _ _ _ _ _ _ Hi He). unfold justified in Hj.
      rewrite elem_of_empty in Hj. tauto. }
    rewrite Hw. simpl. unfold admit_candidate. rewrite He, Hg.
    specialize (Hbits id why e Hw He m). apply Hbits in Hj. unfold reasons_is_empty.
    rewrite bool_decide_eq_false_2; [by eexists |]. intros H0. rewrite H0, N.bits_0 in Hj. done.
Qed.

Lemma found_bounded g c view policy previous st :
  collect_candidates g c view = Ok st ->
  count_of (map_imap (admit_candidate g c view policy previous) st.1) <= max_candidates (glimits g)
  /\ st.2 <= max_candidate_visits (glimits g) /\ count_of st.1 <= max_candidates (glimits g).
Proof.
  intros [(Hc & Hv & _) _]%collect_candidates_ok. split_and!; [| done | done].
  unfold count_of in *. rewrite <- !size_dom.
  assert (dom (map_imap (admit_candidate g c view policy previous) st.1) ⊆ dom st.1)
    as Hsub%subseteq_size by apply dom_imap_subseteq.
  rewrite <- !size_dom in Hc. lia.
Qed.

Lemma justified_members g c view previous members id e m :
  justified g c view previous members id e m <->
  justified g c view previous ∅ id e m \/ (m = 4 /\ id ∈ members).
Proof. unfold justified. rewrite elem_of_empty. tauto. Qed.

Lemma REQUIRED_bits why m : N.testbit (reasons_insert why REQUIRED) m = true
  <-> N.testbit why m = true \/ m = 4.
Proof.
  change REQUIRED with (2 ^ 4). unfold reasons_insert.
  rewrite N.lor_spec, orb_true_iff, N.pow2_bits_eqb, N.eqb_eq. split; intros [? | ?]; auto.
Qed.

Lemma merge_required_ok g c view policy previous found needed :
  entries_ok g c view policy previous ∅ found ->
  (forall id en, needed !! id = Some en -> member_ok g c view policy id en) ->
  entries_ok g c view policy previous (dom needed) (merge_required found needed).
Proof.
  intros [Hsound Hcomplete] Hneed. unfold merge_required. split.
  - intros id en. rewrite lookup_union_with.
    destruct (found !! id) as [mine |] eqn:Hf, (needed !! id) as [n |] eqn:Hn; intros Hen;
      simpl in Hen; simplify_eq.
    + destruct (Hsound id mine Hf) as (e & grant & He & Hg & Hmine & Hnz & Hbits).
      exists e, grant. split_and!; try done; simpl.
      * rewrite Hmine. done.
      * intros [Hz _]%N.lor_eq_0_iff. done.
      * intros m. rewrite REQUIRED_bits, Hbits, (justified_members _ _ _ _ (dom needed)), elem_of_dom, Hn.
        split; [intros [? | ->] | intros [? | [-> _]]]; eauto.
    + destruct (Hsound id en Hf) as (e & grant & He & Hg & Hmine & Hnz & Hbits).
      exists e, grant. split_and!; try done. intros m.
      rewrite Hbits, (justified_members _ _ _ _ (dom needed)), elem_of_dom, Hn.
      split; [by left |]. intros [? | [_ [? ?]]]; done.
    + destruct (Hneed id en Hn) as (e & grant & He & Hg & _ & -> & _).
      exists e, grant. split_and!; try done. intros m.
      change (reasons (entry e grant REQUIRED)) with (reasons_insert 0 REQUIRED).
      rewrite REQUIRED_bits, N.bits_0, (justified_members _ _ _ _ (dom needed)), elem_of_dom, Hn.
      split; [intros [? | ->]; [done | eauto] |]. intros [Hj | [-> _]]; [| by right].
      destruct (Hcomplete id e grant m He Hg Hj) as [? ?]. congruence.
  - intros id e grant m He Hg. rewrite justified_members, elem_of_dom, lookup_union_with.
    intros [Hj | [_ [n ->]]].
    + destruct (Hcomplete id e grant m He Hg Hj) as [mine ->]. destruct (needed !! id); by eexists.
    + destruct (found !! id); by eexists.
Qed.

Lemma merge_required_size found needed :
  count_of (merge_required found needed) = count_of found + count_of (dom needed ∖ dom found).
Proof.
  unfold count_of. rewrite <- Nat2N.inj_add. f_equal. rewrite <- !size_dom, <- size_union.
  2: { intros x Hx Hy. set_solver. }
  f_equal. apply set_eq. intros x. unfold merge_required.
  rewrite elem_of_union, elem_of_difference, !elem_of_dom, lookup_union_with.
  destruct (found !! x), (needed !! x); simpl; split; intros; try done; try (by left);
    try (by eexists); try (right; split; [by eexists | by intros [? ?]]); naive_solver.
Qed.

(** The members a prediction decision admits. *)
Definition group_of (p : PredictionAdmission) : gset EntityId :=
  match p with AdmittedGroup members => members | _ => ∅ end.

Lemma admit_group_ok g found roots c view policy previous :
  entries_ok g c view policy previous ∅ found ->
  count_of found <= max_candidates (glimits g) ->
  exists all p, admit_group g found roots c view policy = Some (all, p)
    /\ entries_ok g c view policy previous (group_of p) all
    /\ count_of all <= max_candidates (glimits g)
    /\ (p = NotRequested <-> roots = ∅)
    /\ forall members, p = AdmittedGroup members -> forall id, id ∈ members
         <-> exists root, root ∈ roots /\ rtc (depends g) root id.
Proof.
  intros Hfound Hsize. unfold admit_group.
  destruct (decide (roots = ∅)) as [-> | Hne]; [by eexists _, _ |].
  destruct (required_ok g c view roots policy) as (r & -> & Hok).
  destruct r as [needed | err]; [| by eexists _, _].
  destruct (required_closed _ _ _ _ _ _ (Hok needed eq_refl)) as (Hreach & _ & Hmem).
  destruct (decide _) as [| Hroom]; [by eexists _, _ |].
  eexists _, _. split; [done |]. split_and!.
  - by apply merge_required_ok.
  - rewrite merge_required_size. lia.
  - done.
  - intros members [= <-] id. by rewrite elem_of_dom.
Qed.

(** C6 Gathering for a connection never panics on a consistent graph, and what it hands out is
    exactly what was authorized: each entry is a registered entity whose visibility, scene and
    disclosure policy permit it, carrying the granted representation and its current version,
    and its reason bits are precisely the ones that hold (in range of an observer, global,
    owned by the connection, granted semantically, needed by the admitted prediction group).
    Every permitted entity with such a reason is present, a prediction group appears only as
    a whole, and the result and the work stay within the configured limits. *)
Theorem gather_authorized pg c previous roots policy :
  graph_inv (prepared pg) ->
  exists r, gather pg c previous roots policy = Some r
    /\ forall s, r = Ok s -> exists view, connections (prepared pg) !! c = Some view
         /\ connection s = c /\ policy_revision s = policy_revision_of policy
         /\ is_current s (graph_revision (prepared pg)) (prepared_policy pg) = true
         /\ entries_ok (prepared pg) c view policy previous (group_of (prediction s)) (entries s)
         /\ count_of (entries s) <= max_candidates (glimits (prepared pg))
         /\ candidate_visits s <= max_candidate_visits (glimits (prepared pg))
         /\ (forall members, prediction s = AdmittedGroup members -> forall id, id ∈ members
               <-> exists root, root ∈ roots /\ rtc (depends (prepared pg)) root id).
Proof.
  intros [Hi _]. unfold gather.
  destruct (decide _) as [| Hrev]; [by eexists |].
  destruct (connections (prepared pg) !! c) as [view |] eqn:Hview; [| by eexists].
  destruct (decide _) as [| _]; [by eexists |].
  destruct (collect_candidates (prepared pg) c view) as [[cands visits] |] eqn:Hc; [| by eexists].
  destruct (decide _) as [_ | Hmiss].
  2: { exfalso. apply Hmiss. intros id why Hid.
       destruct (collect_candidates_ok _ _ _ _ Hc) as [(_ & _ & Hs) Hiff].
       destruct (Hs id) as [m Hm]; [by eexists |]. by eapply routed_known, Hiff. }
  pose proof (found_ok _ c view policy previous _ Hi Hc) as Hfound.
  destruct (found_bounded _ c view policy previous _ Hc) as (Hn & Hv & _).
  cbn [fst snd] in Hfound, Hn, Hv.
  destruct (admit_group_ok _ _ roots c view policy previous Hfound Hn)
    as (all & p & -> & Hall & Hsize & _ & Hgroup).
  eexists. split; [done |].
  intros s [= <-]. exists view. simpl. apply dec_stable in Hrev.
  split_and!; try done. unfold is_current. simpl. by rewrite !bool_decide_eq_true_2.
Qed.
End Gather.

(** Two entities near an observer of connection 7, one depending on the other. *)
Module GatherDemo.
Definition a : EntityId := mkEntityId 1 1.
Definition b : EntityId := mkEntityId 2 1.
Definition reg_a : EntityRegistration :=
  mkEntityRegistration a (mkBounds (f64_of_Z 3, f64_of_Z 0, f64_of_Z (-40)) (f64_of_Z 1)) (f64_of_Z 20)
    (mkRoutes (Some Dynamic) false (Some 7) ∅) Public {[b]} 1 1 false.
Definition reg_b : EntityRegistration :=
  mkEntityRegistration b (mkBounds (f64_of_Z 900, f64_of_Z 0, f64_of_Z (-40)) (f64_of_Z 1)) (f64_of_Z 20)
    (mkRoutes (Some Static) false None ∅) Public ∅ 5 1 false.
Definition g : Graph :=
  default GraphDemo.g0 (@graph_run GraphDemo.allow GraphDemo.g0
    [EvApply 1 (Upsert reg_a); EvApply 1 (Upsert reg_b); EvSetConnection 2 7 GraphDemo.view]).
Definition policy : DisclosurePolicy :=
  mkDisclosurePolicy 3 (fun _ _ => Some (mkRepresentationGrant 1 1 7 true)) (fun _ _ _ => true).
Definition pg : PreparedGraph := mkPreparedGraph g 1 2 3.
Definition distance (x y : f64) : f64 := f64_add (f64_abs x) (f64_abs y).

Lemma g_inv : graph_inv g.
Proof.
  unfold g. edestruct (@graph_run_ok GraphDemo.allow) as (g' & -> & Hinv & _); [| | exact Hinv].
  - apply (Graph_new_inv Limits_default). vm_compute. reflexivity.
  - intros c v. vm_compute. discriminate.
Qed.
End GatherDemo.

Lemma gather_authorized_witness :
  exists s, gather GatherDemo.distance GatherDemo.pg 7 ∅ {[GatherDemo.a]} GatherDemo.policy = Some (Ok s)
    /\ (reasons <$> entries s !! GatherDemo.a) = Some 21
    /\ (reasons <$> entries s !! GatherDemo.b) = Some 16
    /\ count_of (entries s) <= 4096.
Proof.
  destruct (gather_authorized GatherDemo.distance GatherDemo.pg 7 ∅ {[GatherDemo.a]} GatherDemo.policy)
    as (r & Hr & Hs).
  { exact GatherDemo.g_inv. }
  destruct r as [s | err].
  2: { exfalso. revert Hr. vm_compute. discriminate. }
  exists s. split; [exact Hr |].
  destruct (Hs s eq_refl) as (view & _ & _ & _ & _ & _ & Hn & _).
  split; [| split; [| exact Hn]]; revert Hr; vm_compute; intros [= <-]; reflexivity.
Defined.
