(* ===== verification/Scheduling.v ===== *)
(** * Budgeted transmission scheduling

    Models [engine/net/src/scheduling.rs]: requests authorized by an eligible set are ranked by
    overdue age and priority and selected within a token bucket; only an accepted
    transmission spends tokens and advances a unit's cadence. [None] is a panic (an index, an
    [unwrap] or an arithmetic underflow). *)

From S2P Require Import Prelude Types InterestModel.
Local Open Scope N_scope.
Local Open Scope engine_scope.

Inductive UnitId := Entity (e : EntityId) | PredictionGroup (g : GroupId).
#[export] Instance UnitId_eq_dec : EqDecision UnitId.
Proof. solve_decision. Defined.
#[export] Instance UnitId_countable : Countable UnitId.
Proof.
  refine (inj_countable' (fun u => match u with Entity e => inl e | PredictionGroup g => inr g end)
            (fun s => match s with inl e => Entity e | inr g => PredictionGroup g end) _); by intros [].
Defined.

(** The derived order of [UnitId]. *)
Definition unit_key (u : UnitId) : list N :=
  match u with
  | Entity e => [0; index e; generation e]
  | PredictionGroup g => [1; g; 0]
  end.

Record Cadence := mkCadence {
  period_ticks : N;
  maximum_age_ticks : N;
  priority : N;
  critical : bool;
}.

Record UnitRequest := mkUnitRequest {
  id : UnitId;
  members : gset EntityId;
  wire_bytes : N;
  cadence : Cadence;
}.

Inductive ScheduleError := InvalidConfiguration | InvalidRequest | Unauthorized | Capacity | Stale.

Definition UnitRequest_entity (e : EntityId) (bytes : N) (c : Cadence) : UnitRequest :=
  mkUnitRequest (Entity e) {[e]} bytes c.

Definition prediction_group (eligible : EligibleSet) (group : GroupId) (bytes : N) (c : Cadence)
  : result ScheduleError UnitRequest :=
  match prediction eligible with
  | AdmittedGroup group_members =>
      if decide (group_members = ∅ \/ group = 0) then Err InvalidRequest
      else Ok (mkUnitRequest (PredictionGroup group) group_members bytes c)
  | _ => Err Unauthorized
  end.

Record SchedulerLimits := mkSchedulerLimits {
  limit_units : N;
  bytes_per_second : N;
  burst_bytes : N;
  critical_reserve : N;
  maximum_accumulated_age_ticks : N;
}.

Definition SchedulerLimits_default : SchedulerLimits :=
  mkSchedulerLimits 4096 60000 16384 4000 65535.

Record TransportBudget := mkTransportBudget {
  available_bytes : N;
  maximum_atomic_wire_bytes : N;
}.

Record ScheduleMetrics := mkScheduleMetrics {
  due_units : N;
  selected_units : N;
  selected_wire_bytes : N;
  deferred_units : N;
  infeasible_units : N;
  deadline_misses : N;
  critical_deadline_misses : N;
  maximum_update_age_ticks : N;
}.

Record History := mkHistory {
  first_due : ServerTick;
  last_transmitted : option ServerTick;
}.

Record SchedulePlan := mkSchedulePlan {
  plan_eligible : EligibleSet;
  plan_serial : N;
  selected : list UnitRequest;
  plan_metrics : ScheduleMetrics;
}.

(** [AuthorizedUnit::entries]; [None] is the panic of a member without an entry. *)
Definition unit_entries (eligible : EligibleSet) (request : UnitRequest) : option (list EligibleEntry) :=
  mapM (fun e => entries eligible !! e) (sorted_entities (members request)).

Record TransmitMetrics := mkTransmitMetrics {
  accepted_units : N;
  accepted_wire_bytes : N;
  rejected_units : N;
}.
#[export] Instance eta_TransmitMetrics : Eta TransmitMetrics := fun r =>
  mkTransmitMetrics (accepted_units r) (accepted_wire_bytes r) (rejected_units r).

Record Scheduler := mkScheduler {
  sched_connection : ConnectionId;
  limits : SchedulerLimits;
  history : gmap UnitId History;
  now : Duration;
  sched_tick : ServerTick;
  sched_world : N;
  sched_policy : PolicyRevision;
  serial : N;
  tokens : N;
}.
#[export] Instance eta_Scheduler : Eta Scheduler := fun r =>
  mkScheduler (sched_connection r) (limits r) (history r) (now r) (sched_tick r) (sched_world r)
    (sched_policy r) (serial r) (tokens r).

Definition nanobytes (bytes : N) : N := bytes * 1000000000.

Definition Scheduler_new (c : ConnectionId) (l : SchedulerLimits) : result ScheduleError Scheduler :=
  if decide (limit_units l = 0 \/ bytes_per_second l = 0 \/ burst_bytes l = 0
             \/ 10000 < critical_reserve l \/ maximum_accumulated_age_ticks l = 0)
  then Err InvalidConfiguration
  else Ok (mkScheduler c l ∅ 0 0 0 0 0 (nanobytes (burst_bytes l))).

(** The token balance at an instant, refilled and capped at the burst. *)
Definition refilled (s : Scheduler) (at_time : Duration) : N :=
  let refill := saturating_mul u128_max (saturating_sub at_time (now s)) (bytes_per_second (limits s)) in
  N.min (saturating_add u128_max (tokens s) refill) (nanobytes (burst_bytes (limits s))).

Definition available_wire_bytes (s : Scheduler) (at_time : Duration) : N :=
  refilled s at_time / 1000000000.

(** The members of one request: each eligible, none in an earlier request. *)
Fixpoint check_members (eligible : EligibleSet) (seen : gset EntityId) (es : list EntityId)
  : result ScheduleError (gset EntityId) :=
  match es with
  | [] => Ok seen
  | e :: es =>
      match entries eligible !! e with
      | None => Err Unauthorized
      | Some _ =>
          if decide (e ∈ seen) then Err InvalidRequest
          else check_members eligible ({[e]} ∪ seen) es
      end
  end.

Fixpoint check_requests (l : SchedulerLimits) (eligible : EligibleSet) (requests : list UnitRequest)
    (ids : gset UnitId) (seen : gset EntityId) : result ScheduleError (gset UnitId) :=
  match requests with
  | [] => Ok ids
  | r :: requests =>
      if decide (wire_bytes r = 0 \/ period_ticks (cadence r) = 0
                 \/ maximum_age_ticks (cadence r) < period_ticks (cadence r)
                 \/ maximum_accumulated_age_ticks l < maximum_age_ticks (cadence r)
                 \/ id r ∈ ids \/ members r = ∅)
      then Err InvalidRequest
      else if match id r, prediction eligible with
              | PredictionGroup _, AdmittedGroup group_members => bool_decide (group_members <> members r)
              | PredictionGroup _, _ => true
              | Entity _, _ => false
              end
      then Err Unauthorized
      else
        let? seen := check_members eligible seen (sorted_entities (members r)) in
        check_requests l eligible requests ({[id r]} ∪ ids) seen
  end.

(** A due request with its age, its score and whether it can never fit. *)
Record Due := mkDue {
  due_request : UnitRequest;
  due_age : N;
  due_score : N;
  infeasible : bool;
}.

(** The requests due at [at_tick], and the greatest age seen. *)
Fixpoint collect_due (l : SchedulerLimits) (hist : gmap UnitId History) (at_tick : ServerTick)
    (atomic : N) (requests : list UnitRequest) (oldest : N) : option (list Due * N) :=
  match requests with
  | [] => Some ([], oldest)
  | r :: requests =>
      match hist !! id r with
      | None => None
      | Some h =>
          match checked_sub at_tick (default (first_due h) (last_transmitted h)) with
          | None => None
          | Some age =>
              let oldest := N.max oldest age in
              if (match last_transmitted h with Some _ => true | None => false end)
                 && bool_decide (age < period_ticks (cadence r))
              then collect_due l hist at_tick atomic requests oldest
              else
                let never := bool_decide (burst_bytes l < wire_bytes r)
                             || bool_decide (atomic < wire_bytes r) in
                let score := N.min age (maximum_accumulated_age_ticks l) + priority (cadence r) in
                match collect_due l hist at_tick atomic requests oldest with
                | Some (due, oldest) => Some (mkDue r age score never :: due, oldest)
                | None => None
                end
          end
      end
  end.

(** The sort key: whether overdue, by how much, and the score. *)
Definition urgency (d : Due) : list N :=
  let limit := maximum_age_ticks (cadence (due_request d)) in
  [if decide (limit <= due_age d) then 1 else 0; saturating_sub (due_age d) limit; due_score d].

(** Most urgent first; equal urgency by identity. *)
Definition due_le (a b : Due) : Prop :=
  if decide (urgency a = urgency b)
  then lex_le (unit_key (id (due_request a))) (unit_key (id (due_request b))) = true
  else lex_le (urgency b) (urgency a) = true.
#[export] Instance due_le_dec : RelDecision due_le.
Proof. intros a b. unfold due_le. destruct (decide _); apply _. Defined.

(** The selection loops: [take] says which requests the pass considers. *)
Fixpoint select_pass (take : Due -> gset UnitId -> N -> bool) (budget : N) (due : list Due)
    (st : gset UnitId * list UnitRequest * N) : option (gset UnitId * list UnitRequest * N) :=
  match due with
  | [] => Some st
  | d :: due =>
      let '(chosen, plan, used) := st in
      if negb (infeasible d) && take d chosen used then
        match checked_sub budget used with
        | None => None
        | Some room =>
            if decide (wire_bytes (due_request d) <= room)
            then select_pass take budget due
                   ({[id (due_request d)]} ∪ chosen, plan ++ [due_request d],
                    used + wire_bytes (due_request d))
            else select_pass take budget due st
        end
      else select_pass take budget due st
  end.

Definition take_critical (reserve : N) (d : Due) (_ : gset UnitId) (used : N) : bool :=
  critical (cadence (due_request d)) && bool_decide (used < reserve).
Definition take_rest (d : Due) (chosen : gset UnitId) (_ : N) : bool :=
  bool_decide (id (due_request d) ∉ chosen).

Definition left_out (chosen : gset UnitId) (due : list Due) : list Due :=
  filter (fun d => id (due_request d) ∉ chosen) due.
Definition missed (ds : list Due) : list Due :=
  filter (fun d => maximum_age_ticks (cadence (due_request d)) <= due_age d) ds.

(** From the collected due requests to the plan. *)
Definition select_units (l : SchedulerLimits) (budget : N) (due : list Due) (oldest : N)
  : option (list UnitRequest * ScheduleMetrics) :=
  let ranked := merge_sort due_le due in
  let reserve := budget * critical_reserve l / 10000 in
  match select_pass (take_critical reserve) budget ranked (∅, [], 0) with
  | None => None
  | Some st =>
      match select_pass take_rest budget ranked st with
      | None => None
      | Some (chosen, plan, used) =>
          let out := left_out chosen ranked in
          Some (plan, mkScheduleMetrics (len due) (len plan) used (len out)
                        (len (filter (fun d => infeasible d = true) due)) (len (missed out))
                        (len (filter (fun d => critical (cadence (due_request d)) = true) (missed out)))
                        oldest)
      end
  end.

Definition schedule (s : Scheduler) (eligible : EligibleSet) (requests : list UnitRequest)
    (at_time : Duration) (transport : TransportBudget)
  : option (Scheduler * result ScheduleError SchedulePlan) :=
  if decide (connection eligible <> sched_connection s) then Some (s, Err Unauthorized)
  else if decide (at_time < now s \/ tick eligible < sched_tick s
                  \/ world_revision eligible < sched_world s
                  \/ policy_revision eligible < sched_policy s)
  then Some (s, Err Stale)
  else if decide (limit_units (limits s) < len requests) then Some (s, Err Capacity)
  else
    match check_requests (limits s) eligible requests ∅ ∅ with
    | Err e => Some (s, Err e)
    | Ok ids =>
        match checked_add u64_max (serial s) 1 with
        | None => Some (s, Err Capacity)
        | Some next =>
            let s := s <| tokens := refilled s at_time |> <| now := at_time |>
                       <| sched_tick := tick eligible |> <| sched_world := world_revision eligible |>
                       <| sched_policy := policy_revision eligible |> <| serial := next |> in
            let kept := filter (fun kv => kv.1 ∈ ids) (history s) in
            let s := s <| history :=
                       foldl (fun h r => match h !! id r with
                                         | Some _ => h
                                         | None => <[id r := mkHistory (sched_tick s) None]> h
                                         end) kept requests |> in
            let budget := N.min (available_bytes transport) (tokens s / 1000000000) in
            match collect_due (limits s) (history s) (sched_tick s)
                    (maximum_atomic_wire_bytes transport) requests 0 with
            | None => None
            | Some (due, oldest) =>
                match select_units (limits s) budget due oldest with
                | None => None
                | Some (plan, metrics) => Some (s, Ok (mkSchedulePlan eligible next plan metrics))
                end
            end
        end
    end.

(** The sending loop; [send n r] is the transport's answer to the [n]th attempt. *)
Fixpoint transmit_units (send : nat -> UnitRequest -> bool) (at_tick : ServerTick) (n : nat)
    (units : list UnitRequest) (s : Scheduler) (m : TransmitMetrics)
  : option (Scheduler * TransmitMetrics) :=
  match units with
  | [] => Some (s, m)
  | r :: units =>
      if send n r then
        match checked_sub (tokens s) (nanobytes (wire_bytes r)) with
        | None => None
        | Some rest =>
            let s := s <| tokens := rest |> in
            match history s !! id r with
            | None => None
            | Some h =>
                transmit_units send at_tick (S n) units
                  (s <| history := <[id r := mkHistory (first_due h) (Some at_tick)]> (history s) |>)
                  (m <| accepted_units := accepted_units m + 1 |>
                     <| accepted_wire_bytes := accepted_wire_bytes m + wire_bytes r |>)
            end
        end
      else transmit_units send at_tick (S n) units s (m <| rejected_units := rejected_units m + 1 |>)
  end.

Definition transmit (s : Scheduler) (plan : SchedulePlan) (world : N) (policy : PolicyRevision)
    (send : nat -> UnitRequest -> bool)
  : option (Scheduler * result ScheduleError TransmitMetrics) :=
  if bool_decide (plan_serial plan <> serial s) || negb (is_current (plan_eligible plan) world policy)
  then Some (s, Err Stale)
  else
    match checked_add u64_max (serial s) 1 with
    | None => Some (s, Err Capacity)
    | Some next =>
        match transmit_units send (tick (plan_eligible plan)) 0 (selected plan)
                (s <| serial := next |>) (mkTransmitMetrics 0 0 0) with
        | None => None
        | Some (s, m) => Some (s, Ok m)
        end
    end.

(** ** Selection *)

Fixpoint total_bytes (rs : list UnitRequest) : N :=
  match rs with [] => 0 | r :: rs => wire_bytes r + total_bytes rs end.

Lemma total_bytes_app a b : total_bytes (a ++ b) = total_bytes a + total_bytes b.
Proof. induction a as [| r a IH]; simpl; lia. Qed.

(** What the selection has so far: distinct feasible due units within the budget. *)
Record selection (budget : N) (due : list Due) (st : gset UnitId * list UnitRequest * N) : Prop := {
  sel_used : st.2 = total_bytes st.1.2 /\ st.2 <= budget;
  sel_chosen : st.1.1 = list_to_set (id <$> st.1.2);
  sel_distinct : NoDup (id <$> st.1.2);
  sel_due : Forall (fun r => exists d, d ∈ due /\ due_request d = r /\ infeasible d = false) st.1.2;
}.

Lemma selection_pick budget due chosen plan used d :
  selection budget due (chosen, plan, used) ->
  d ∈ due -> infeasible d = false -> id (due_request d) ∉ chosen ->
  wire_bytes (due_request d) <= budget - used ->
  selection budget due ({[id (due_request d)]} ∪ chosen, plan ++ [due_request d],
                        used + wire_bytes (due_request d)).
Proof.
  intros [[Hu Hb] Hc Hd Hf] Hin Hfeas Hnew Hfit. simpl in *. constructor; simpl.
  - rewrite total_bytes_app. simpl. lia.
  - rewrite fmap_app, list_to_set_app_L, Hc. simpl. set_solver.
  - rewrite fmap_app. apply NoDup_snoc; [done |]. rewrite Hc in Hnew. set_solver.
  - apply Forall_app. split; [done |]. repeat constructor. eauto.
Qed.

(** A pass never underflows the budget, keeps a sound selection and only adds to it; what it
    was willing to take and left out did not fit. *)
Lemma select_pass_ok take budget due ds st :
  selection budget due st -> NoDup ((fun d => id (due_request d)) <$> ds) -> ds ⊆ due ->
  (forall d, d ∈ ds -> id (due_request d) ∉ st.1.1)
    \/ (forall d c u, take d c u = true -> id (due_request d) ∉ c) ->
  exists st', select_pass take budget ds st = Some st' /\ selection budget due st'
    /\ st.2 <= st'.2 /\ st.1.1 ⊆ st'.1.1.
Proof.
  revert st. induction ds as [| d ds IH]; intros [[chosen plan] used] Hsel Hnd Hsub Hfresh.
  { eexists. by split_and!. }
  simpl in Hnd. apply NoDup_cons in Hnd as [Hd Hnd].
  assert (ds ⊆ due) as Hsub' by set_solver.
  assert (d ∈ due) as Hdin by set_solver.
  assert ((forall d, d ∈ ds -> id (due_request d) ∉ chosen)
          \/ (forall d c u, take d c u = true -> id (due_request d) ∉ c)) as Hfresh'.
  { destruct Hfresh as [Hf | Hf]; [left | by right]. intros x Hx. apply Hf. by right. }
  cbn [select_pass]. destruct (negb (infeasible d) && take d chosen used) eqn:Htake;
    [| by apply (IH (chosen, plan, used))].
  apply andb_prop in Htake as [Hfeas%negb_true_iff Htake].
  pose proof (sel_used _ _ _ Hsel) as [Hu Hb]. simpl in Hb.
  unfold checked_sub. rewrite decide_True by done.
  destruct (decide (wire_bytes (due_request d) <= budget - used)) as [Hfit | Hno];
    [| by apply (IH (chosen, plan, used))].
  assert (id (due_request d) ∉ chosen) as Hnew.
  { destruct Hfresh as [Hf | Hf]; [apply Hf; by left | by eapply Hf]. }
  edestruct (IH ({[id (due_request d)]} ∪ chosen, plan ++ [due_request d],
                 used + wire_bytes (due_request d))) as (st' & Hrun & Hsel' & Hle & Hch);
    [by apply selection_pick | done | done | |].
  - destruct Hfresh' as [Hf | Hf]; [left | by right]. simpl. intros x Hx.
    rewrite not_elem_of_union, not_elem_of_singleton. split; [| by apply Hf].
    intros Heq. apply Hd. rewrite <- Heq. by apply (list_elem_of_fmap_2 (fun d => id (due_request d))).
  - exists st'. simpl in *. split_and!; [done | done | lia | set_solver].
Qed.

Lemma select_pass_mono take budget ds st st' :
  select_pass take budget ds st = Some st' -> st.2 <= st'.2 /\ st.1.1 ⊆ st'.1.1.
Proof.
  revert st. induction ds as [| d ds IH]; intros [[chosen plan] used] Hrun; [by simplify_eq/= |].
  cbn [select_pass] in Hrun. destruct (negb _ && _); [| by apply IH in Hrun].
  destruct (checked_sub _ _); [| done]. destruct (decide _); apply IH in Hrun as [H1 H2]; simpl in *;
    [split; [lia | set_solver] | done].
Qed.

Lemma select_rest_maximal budget ds st st' :
  select_pass take_rest budget ds st = Some st' ->
  st.2 <= budget ->
  forall d, d ∈ ds -> infeasible d = false -> id (due_request d) ∉ st'.1.1 ->
    budget < st'.2 + wire_bytes (due_request d).
Proof.
  intros Hrun Hb d. revert st Hrun Hb.
  induction ds as [| x ds IH]; intros [[chosen plan] used] Hrun Hb Hd Hfeas Hout;
    [by apply not_elem_of_nil in Hd |].
  pose proof (select_pass_mono _ _ _ _ _ Hrun) as [Hle _].
  cbn [select_pass] in Hrun. simpl in Hb, Hle.
  apply elem_of_cons in Hd as [<- | Hd].
  - rewrite Hfeas in Hrun. cbn [negb andb] in Hrun. unfold take_rest in Hrun at 1.
    case_bool_decide as Hc.
    + unfold checked_sub in Hrun. rewrite decide_True in Hrun by done.
      destruct (decide _) as [Hfit | Hno].
      * apply select_pass_mono in Hrun as [_ Hch]. simpl in Hch. exfalso. apply Hout. set_solver.
      * lia.
    + apply select_pass_mono in Hrun as [_ Hch]. simpl in Hch. exfalso. apply Hout. set_solver.
  - destruct (negb _ && _); [| by eapply (IH (chosen, plan, used))].
    unfold checked_sub in Hrun. rewrite decide_True in Hrun by done.
    destruct (decide _) as [Hfit |]; [| by eapply (IH (chosen, plan, used))].
    eapply IH; [exact Hrun | simpl; lia | done | done | done].
Qed.

Lemma count_selected (ranked : list Due) (plan : list UnitRequest) :
  NoDup ((fun d => id (due_request d)) <$> ranked) -> NoDup (id <$> plan) ->
  (forall r, r ∈ plan -> exists d, d ∈ ranked /\ due_request d = r) ->
  len (left_out (list_to_set (id <$> plan)) ranked) + len plan = len ranked.
Proof.
  intros Hnd Hnp Hin. unfold left_out, len.
  set (chosen := list_to_set (id <$> plan)). set (f := fun d => id (due_request d)).
  assert (length (filter (fun d => f d ∈ chosen) ranked) = length plan) as Hsel.
  { rewrite <- (length_fmap f), <- (length_fmap id plan). apply Permutation_length.
    apply NoDup_Permutation; [| done |].
    - by apply NoDup_fmap_filter.
    - intros u. rewrite !list_elem_of_fmap. split.
      + intros (d & -> & [Hc _]%list_elem_of_filter). subst chosen.
        apply elem_of_list_to_set, list_elem_of_fmap in Hc as (r & Hr & Hrin). eauto.
      + intros (r & -> & Hr). destruct (Hin r Hr) as (d & Hd & <-). exists d. split; [done |].
        apply list_elem_of_filter. split; [| done].
        apply elem_of_list_to_set, list_elem_of_fmap. eauto. }
  rewrite <- Hsel, <- (length_filter_complement (fun d => f d ∈ chosen) ranked), Nat2N.inj_add.
  done.
Qed.

(** *** Validation and due requests *)

Lemma check_members_Ok eligible seen es seen' :
  check_members eligible seen es = Ok seen' -> forall e, e ∈ es -> is_Some (entries eligible !! e).
Proof.
  revert seen. induction es as [| e es IH]; intros seen H x Hx; [by apply not_elem_of_nil in Hx |].
  simpl in H. destruct (entries eligible !! e) eqn:He; [| done]. case_decide; [done |].
  apply elem_of_cons in Hx as [-> | Hx]; [by rewrite He | by eapply IH].
Qed.

(** A request the authorization covers. *)
Definition authorized (eligible : EligibleSet) (r : UnitRequest) : Prop :=
  (forall e, e ∈ members r -> is_Some (entries eligible !! e))
  /\ match id r with
     | PredictionGroup _ => prediction eligible = AdmittedGroup (members r)
     | Entity _ => True
     end.

Lemma check_requests_Ok l eligible requests ids seen ids' :
  check_requests l eligible requests ids seen = Ok ids' ->
  NoDup (id <$> requests) /\ ids' = list_to_set (id <$> requests) ∪ ids
  /\ (forall r, r ∈ requests -> id r ∉ ids /\ 0 < wire_bytes r /\ authorized eligible r).
Proof.
  revert ids seen. induction requests as [| r rs IH]; intros ids seen H; simpl in H.
  { simplify_eq. split_and!; [constructor | set_solver | by intros ? ?%not_elem_of_nil]. }
  destruct (decide _) as [| Hok]; [done |].
  destruct (match id r with Entity _ => _ | PredictionGroup _ => _ end) eqn:Hg; [done |].
  destruct (check_members _ _ _) as [seen' | e] eqn:Hm; [| done].
  apply IH in H as (Hnd & -> & Hall). split_and!.
  - simpl. constructor; [| done]. intros (x & Hx & Hin)%list_elem_of_fmap.
    destruct (Hall x Hin) as [Hn _]. rewrite <- Hx in Hn. set_solver.
  - simpl. set_solver.
  - intros x [-> | Hx]%elem_of_cons.
    + split_and!; [tauto | lia |]. split.
      * intros e He. eapply check_members_Ok; [done |]. by apply elem_of_sorted_entities.
      * destruct (id r); [done |]. destruct (prediction eligible) as [| ms |]; [done | | done].
        apply bool_decide_eq_false in Hg. f_equal.
        destruct (decide (ms = members r)); [done | tauto].
    + destruct (Hall x Hx) as (Hn & Hrest). split; [set_solver | done].
Qed.

(** The history a tick sees: nothing was due or sent later than it. *)
Definition history_before (hist : gmap UnitId History) (at_tick : ServerTick) : Prop :=
  forall u h, hist !! u = Some h -> default (first_due h) (last_transmitted h) <= at_tick.

Definition is_due (hist : gmap UnitId History) (at_tick : ServerTick) (r : UnitRequest) : Prop :=
  exists h, hist !! id r = Some h
    /\ (last_transmitted h = None
        \/ period_ticks (cadence r) <= at_tick - default (first_due h) (last_transmitted h)).

Lemma collect_due_ok l hist at_tick atomic requests oldest :
  history_before hist at_tick -> (forall r, r ∈ requests -> is_Some (hist !! id r)) ->
  exists due oldest', collect_due l hist at_tick atomic requests oldest = Some (due, oldest')
    /\ (due_request <$> due) `sublist_of` requests
    /\ (forall r, r ∈ requests -> is_due hist at_tick r -> exists d, d ∈ due /\ due_request d = r)
    /\ (forall d, d ∈ due -> is_due hist at_tick (due_request d)
          /\ (infeasible d = false <-> wire_bytes (due_request d) <= burst_bytes l
                                      /\ wire_bytes (due_request d) <= atomic)).
Proof.
  intros Hb. revert oldest. induction requests as [| r rs IH]; intros oldest Hdom.
  { exists [], oldest. split_and!; [done | done | by intros ? ?%not_elem_of_nil ..]. }
  assert (forall x, x ∈ rs -> is_Some (hist !! id x)) as Hdom' by (intros; apply Hdom; by right).
  destruct (Hdom r ltac:(by left)) as [h Hh]. cbn [collect_due]. rewrite Hh.
  unfold checked_sub. rewrite decide_True by (by eapply Hb).
  set (age := at_tick - _). destruct (_ && bool_decide _) eqn:Hskip.
  - destruct (IH (N.max oldest age) Hdom') as (due & o' & -> & Hsub & Hall & Hdue).
    exists due, o'. split_and!; [done | by apply sublist_cons | | done].
    intros x [-> | Hx]%elem_of_cons Hd; [| by apply Hall].
    exfalso. destruct Hd as (h' & Hh' & Hd).
    assert (h' = h) as -> by congruence. apply andb_prop in Hskip as [Hl Ha].
    apply bool_decide_eq_true in Ha. subst age. destruct (last_transmitted h); [| done].
    destruct Hd; [done | lia].
  - destruct (IH (N.max oldest age) Hdom') as (due & o' & -> & Hsub & Hall & Hdue).
    eexists _, o'. split; [done |]. split_and!.
    + simpl. by apply sublist_skip.
    + intros x [-> | Hx]%elem_of_cons Hd; [eexists; split; [by left | done] |].
      destruct (Hall x Hx Hd) as (d & ? & ?). exists d. split; [by right | done].
    + intros d [-> | Hd]%elem_of_cons; [| by apply Hdue]. simpl. split.
      * exists h. split; [done |]. fold age. destruct (last_transmitted h); [right | by left].
        apply bool_decide_eq_false in Hskip. lia.
      * rewrite orb_false_iff, !bool_decide_eq_false. lia.
Qed.

Lemma select_units_ok l budget due oldest :
  NoDup ((fun d => id (due_request d)) <$> due) ->
  exists plan m, select_units l budget due oldest = Some (plan, m)
    /\ NoDup (id <$> plan) /\ total_bytes plan <= budget
    /\ selected_wire_bytes m = total_bytes plan /\ selected_units m = len plan
    /\ due_units m = len due /\ deferred_units m + selected_units m = due_units m
    /\ (forall r, r ∈ plan -> exists d, d ∈ due /\ due_request d = r /\ infeasible d = false)
    /\ (forall d, d ∈ due -> infeasible d = false -> due_request d ∉ plan ->
          budget < total_bytes plan + wire_bytes (due_request d)).
Proof.
  intros Hnd. unfold select_units. set (ranked := merge_sort due_le due).
  assert (ranked ≡ₚ due) as Hp by apply merge_sort_Permutation. clearbody ranked.
  assert (NoDup ((fun d => id (due_request d)) <$> ranked)) as Hnr by (by rewrite Hp).
  assert (ranked ⊆ due) as Hsub by (intros x; by rewrite Hp).
  assert (selection budget due (∅, [], 0)) as Hsel0.
  { constructor; simpl; [lia | done | constructor | constructor]. }
  destruct (select_pass_ok (take_critical (budget * critical_reserve l / 10000)) budget due ranked _ Hsel0)
    as (st1 & -> & Hsel1 & _ & _); [done | done | left; set_solver |].
  destruct (select_pass_ok take_rest budget due ranked st1 Hsel1)
    as ([[chosen plan] used] & Hrun & Hsel2 & _ & _); [done | done | |].
  { right. intros d c u Ht. by apply bool_decide_eq_true in Ht. }
  rewrite Hrun.
  pose proof (select_rest_maximal _ _ _ _ Hrun (proj2 (sel_used _ _ _ Hsel1))) as Hmax.
  destruct Hsel2 as [[Hu Hb] Hc Hd Hf]. simpl in *. rewrite Forall_forall in Hf.
  eexists _, _. split; [done |]. simpl. split_and!; try done; [lia | |].
  - rewrite Hc, count_selected; [by rewrite Hp | done | done |].
    intros r Hr. destruct (Hf r Hr) as (d & Hd' & <- & _). exists d. by rewrite Hp.
  - intros d Hin Hfeas Hout. rewrite <- Hu. apply Hmax; [by rewrite Hp | done |].
    rewrite Hc, elem_of_list_to_set, list_elem_of_fmap. intros (r & Hr & Hrin).
    destruct (Hf r Hrin) as (d' & Hd' & <- & _). apply Hout.
    assert (d = d') as -> by (by eapply (NoDup_fmap_inj _ _ _ _ Hnd)). done.
Qed.

(** *** Cadence history *)

Definition enroll (at_tick : ServerTick) (hist : gmap UnitId History) (requests : list UnitRequest)
  : gmap UnitId History :=
  foldl (fun h r => match h !! id r with
                    | Some _ => h
                    | None => <[id r := mkHistory at_tick None]> h
                    end) hist requests.

Lemma enroll_ok at_tick hist requests :
  history_before hist at_tick ->
  history_before (enroll at_tick hist requests) at_tick
  /\ (forall u, is_Some (hist !! u) -> is_Some (enroll at_tick hist requests !! u))
  /\ (forall r, r ∈ requests -> is_Some (enroll at_tick hist requests !! id r)).
Proof.
  unfold enroll. revert hist. induction requests as [| r rs IH]; intros hist Hb; simpl.
  { split_and!; [done | done | by intros ? ?%not_elem_of_nil]. }
  set (h1 := match hist !! id r with Some _ => _ | None => _ end).
  assert (history_before h1 at_tick /\ (forall u, is_Some (hist !! u) -> is_Some (h1 !! u))
          /\ is_Some (h1 !! id r)) as (Hb1 & Hk1 & Hr1).
  { subst h1. destruct (hist !! id r) eqn:Hr; [by split_and!; [| | rewrite Hr] |]. split_and!.
    - intros u h [[<- <-] | [_ Hu]]%lookup_insert_Some; [simpl; lia | by eapply Hb].
    - intros u Hu. destruct (decide (u = id r)) as [-> | Hne];
        [by rewrite lookup_insert_eq | by rewrite lookup_insert_ne].
    - by rewrite lookup_insert_eq. }
  clearbody h1. destruct (IH h1 Hb1) as (H1 & H2 & H3). split_and!; [done | auto |].
  intros x [-> | Hx]%elem_of_cons; auto.
Qed.

Lemma enroll_lookup at_tick requests : forall hist u,
  enroll at_tick hist requests !! u
  = match hist !! u with
    | Some h => Some h
    | None => if decide (u ∈ id <$> requests) then Some (mkHistory at_tick None) else None
    end.
Proof.
  unfold enroll. induction requests as [| r rs IH]; intros hist u; simpl; [by destruct (hist !! u) |]. rewrite IH.
  assert (u <> id r -> (u ∈ id <$> rs) <-> (u ∈ id r :: (id <$> rs))) as Hiff by (intros ?; rewrite elem_of_cons; tauto).
  destruct (hist !! id r) as [h |] eqn:Hr.
  - destruct (hist !! u) as [h' |] eqn:Hu; [done |]. apply decide_ext, Hiff. congruence.
  - destruct (decide (u = id r)) as [-> | Hne].
    + rewrite lookup_insert_eq, Hr, decide_True; [done | left].
    + rewrite lookup_insert_ne by done. destruct (hist !! u); [done |]. by apply decide_ext, Hiff.
Qed.

(** A request is due when nothing of its unit was sent while it was requested, or its period has
    passed since. *)
Definition due_at (hist : gmap UnitId History) (at_tick : ServerTick) (r : UnitRequest) : Prop :=
  match hist !! id r with
  | Some (mkHistory _ (Some sent)) => sent + period_ticks (cadence r) <= at_tick
  | _ => True
  end.

Lemma enroll_due at_tick (hist : gmap UnitId History) (ids : gset UnitId) requests r :
  history_before (enroll at_tick (filter (fun kv => kv.1 ∈ ids) hist) requests) at_tick -> r ∈ requests -> id r ∈ ids ->
  is_due (enroll at_tick (filter (fun kv => kv.1 ∈ ids) hist) requests) at_tick r <-> due_at hist at_tick r.
Proof.
  intros Hb Hr Hid. unfold is_due, due_at, history_before in *.
  assert (filter (fun kv => kv.1 ∈ ids) hist !! id r = hist !! id r) as Hf.
  { destruct (hist !! id r) as [h |] eqn:Hh; [by apply map_lookup_filter_Some | apply map_lookup_filter_None; by left]. }
  specialize (Hb (id r)). rewrite enroll_lookup, Hf in Hb. rewrite enroll_lookup, Hf.
  destruct (hist !! id r) as [[first [sent |]] |] eqn:Hh.
  - specialize (Hb _ eq_refl). simpl in Hb. split.
    + intros (h & [= <-] & [? | Hp]); simpl in *; [done | lia].
    + intros Hp. eexists. split; [done |]. right. simpl. lia.
  - split; [done |]. intros _. eexists. split; [done |]. by left.
  - split; [done |]. intros _. rewrite decide_True by by apply list_elem_of_fmap_2.
    eexists. split; [done |]. by left.
Qed.

Lemma transmit_units_ok send at_tick units n s m :
  nanobytes (total_bytes units) <= tokens s ->
  (forall r, r ∈ units -> is_Some (history s !! id r)) ->
  at_tick <= sched_tick s -> history_before (history s) (sched_tick s) ->
  exists hist' tokens' m',
    transmit_units send at_tick n units s m = Some (s <| history := hist' |> <| tokens := tokens' |>, m')
    /\ history_before hist' (sched_tick s)
    /\ tokens' + nanobytes (accepted_wire_bytes m') = tokens s + nanobytes (accepted_wire_bytes m)
    /\ accepted_wire_bytes m' <= accepted_wire_bytes m + total_bytes units
    /\ accepted_units m' + rejected_units m' = accepted_units m + rejected_units m + len units.
Proof.
  revert n s m. induction units as [| r units IH]; intros n s m Htok Hdom Ht Hb.
  { exists (history s), (tokens s), m. destruct s. unfold len. simpl. split_and!; [done | done | lia..]. }
  assert (forall x, x ∈ units -> is_Some (history s !! id x)) as Hdom' by (intros; apply Hdom; by right).
  simpl in Htok. unfold nanobytes in *. cbn [transmit_units]. destruct (send n r).
  - unfold checked_sub. rewrite decide_True by (unfold nanobytes; lia).
    destruct (Hdom r ltac:(by left)) as [h Hh]. simpl. rewrite Hh.
    edestruct (IH (S n)
      (s <| tokens := tokens s - nanobytes (wire_bytes r) |>
         <| history := <[id r := mkHistory (first_due h) (Some at_tick)]> (history s) |>))
      as (hist' & tokens' & m' & Hrun & H1 & H2 & H3 & H4).
    + simpl. unfold nanobytes. lia.
    + intros x Hx. simpl. destruct (decide (id x = id r)) as [-> | Hne];
        [by rewrite lookup_insert_eq | rewrite lookup_insert_ne by done; auto].
    + done.
    + simpl. intros u x [[<- <-] | [_ Hu]]%lookup_insert_Some; [simpl; lia | by eapply Hb].
    + exists hist', tokens', m'. split; [exact Hrun |]. simpl in *. unfold nanobytes in *.
      rewrite len_cons. split_and!; [done | lia..].
  - edestruct (IH (S n) s) as (hist' & tokens' & m' & Hrun & H1 & H2 & H3 & H4); [lia | done.. |].
    exists hist', tokens', m'. split; [exact Hrun |]. simpl in *. rewrite len_cons.
    split_and!; [done | lia..].
Qed.

(** ** Runs *)

(** A scheduler, the plans it issued (a plan may be kept for any time) and the bytes its
    transport accepted. *)
Definition sched_state : Type := Scheduler * list SchedulePlan * N.

Inductive sched_step : sched_state -> sched_state -> Prop :=
| StepSchedule s plans sent eligible requests at_time transport s' res :
    schedule s eligible requests at_time transport = Some (s', res) ->
    sched_step (s, plans, sent) (s', match res with Ok p => p :: plans | Err _ => plans end, sent)
| StepTransmit s plans sent plan world policy send s' res :
    plan ∈ plans ->
    transmit s plan world policy send = Some (s', res) ->
    sched_step (s, plans, sent)
      (s', plans, sent + match res with Ok m => accepted_wire_bytes m | Err _ => 0 end).

(** What stays true of a plan, and what holds while no later call replaced it. *)
Definition plan_sound (c : ConnectionId) (l : SchedulerLimits) (p : SchedulePlan) : Prop :=
  connection (plan_eligible p) = c
  /\ NoDup (id <$> selected p)
  /\ total_bytes (selected p) <= burst_bytes l
  /\ forall r, r ∈ selected p -> authorized (plan_eligible p) r /\ 0 < wire_bytes r.

Definition plan_live (s : Scheduler) (p : SchedulePlan) : Prop :=
  nanobytes (total_bytes (selected p)) <= tokens s
  /\ (forall r, r ∈ selected p -> is_Some (history s !! id r))
  /\ tick (plan_eligible p) = sched_tick s.

Record sched_inv (c : ConnectionId) (l : SchedulerLimits) (st : sched_state) : Prop := mk_sched_inv {
  si_connection : sched_connection st.1.1 = c;
  si_limits : limits st.1.1 = l;
  si_tokens : tokens st.1.1 <= nanobytes (burst_bytes l);
  si_history : history_before (history st.1.1) (sched_tick st.1.1);
  si_plans : forall p, p ∈ st.1.2 ->
    plan_sound c l p /\ plan_serial p <= serial st.1.1
    /\ (plan_serial p = serial st.1.1 -> plan_live st.1.1 p);
}.

(** What a successful schedule returns. *)
Lemma schedule_cases s eligible requests at_time transport :
  history_before (history s) (sched_tick s) -> tokens s <= nanobytes (burst_bytes (limits s)) ->
  (exists e, schedule s eligible requests at_time transport = Some (s, Err e))
  \/ exists s' plan, schedule s eligible requests at_time transport = Some (s', Ok plan)
       /\ sched_connection s' = sched_connection s /\ limits s' = limits s
       /\ connection eligible = sched_connection s
       /\ plan_eligible plan = eligible /\ plan_serial plan = serial s + 1 /\ serial s' = serial s + 1
       /\ now s <= at_time /\ now s' = at_time /\ tokens s' = refilled s at_time
       /\ sched_tick s' = tick eligible /\ history_before (history s') (sched_tick s')
       /\ NoDup (id <$> selected plan)
       /\ total_bytes (selected plan) <= N.min (available_bytes transport) (tokens s' / 1000000000)
       /\ selected_wire_bytes (plan_metrics plan) = total_bytes (selected plan)
       /\ deferred_units (plan_metrics plan) + len (selected plan) = due_units (plan_metrics plan)
       /\ (forall r, r ∈ selected plan ->
             r ∈ requests /\ is_Some (history s' !! id r) /\ due_at (history s) (tick eligible) r
             /\ authorized eligible r /\ 0 < wire_bytes r <= burst_bytes (limits s)
             /\ wire_bytes r <= maximum_atomic_wire_bytes transport)
       /\ (forall r, r ∈ requests -> due_at (history s) (tick eligible) r -> r ∉ selected plan ->
             wire_bytes r <= burst_bytes (limits s) ->
             wire_bytes r <= maximum_atomic_wire_bytes transport ->
             N.min (available_bytes transport) (tokens s' / 1000000000)
             < total_bytes (selected plan) + wire_bytes r).
Proof.
  intros Hb Htok. unfold schedule. case_decide as Hc; [left; eauto |].
  destruct (decide (_ \/ _)) as [| Hstale]; [left; eauto |]. case_decide; [left; eauto |].
  destruct (check_requests _ _ _ _ _) as [ids |] eqn:Hcheck; [| left; eauto].
  destruct (checked_add _ _ _) as [next |] eqn:Hn; [| left; eauto]. right.
  apply checked_add_Some in Hn as [-> _].
  apply check_requests_Ok in Hcheck as (Hnd & Hids & Hreq).
  set (s1 := s <| tokens := _ |> <| now := _ |> <| sched_tick := _ |> <| sched_world := _ |>
               <| sched_policy := _ |> <| serial := _ |>).
  set (hist := foldl _ _ requests).
  assert (history_before (filter (fun kv => kv.1 ∈ ids) (history s)) (tick eligible)) as Hb0.
  { intros u h [Hu _]%map_lookup_filter_Some. specialize (Hb u h Hu). lia. }
  destruct (enroll_ok (tick eligible) _ requests Hb0) as (Hb1 & _ & Hdom).
  assert (forall r, r ∈ requests -> is_due hist (tick eligible) r <-> due_at (history s) (tick eligible) r) as Hiff.
  { intros r Hr. apply enroll_due; [done | done |]. rewrite Hids. apply elem_of_union_l, elem_of_list_to_set.
    by apply list_elem_of_fmap_2. }
  change (enroll _ _ _) with hist in Hb1, Hdom. clearbody hist.
  subst s1. simpl. set (budget := N.min _ _).
  destruct (collect_due_ok (limits s) hist (tick eligible) (maximum_atomic_wire_bytes transport)
              requests 0 Hb1 Hdom) as (due & oldest & -> & Hsub & Hall & Hdue).
  assert (NoDup ((fun d => id (due_request d)) <$> due)) as Hnd'.
  { rewrite (list_fmap_compose due_request id). eapply sublist_NoDup; [exact Hnd |].
    clear - Hsub. induction Hsub; simpl; [done | by apply sublist_skip | by apply sublist_cons]. }
  destruct (select_units_ok (limits s) budget due oldest Hnd')
    as (plan & m & -> & P1 & P2 & P3 & P4 & P5 & P6 & P7 & P8).
  eexists _, _. split; [done |]. simpl. split_and!; try done; [lia | lia | |].
  - intros r Hr. destruct (P7 r Hr) as (d & Hd & <- & Hf).
    destruct (Hdue d Hd) as [Hisdue Hfeas]. apply Hfeas in Hf as [Hf1 Hf2].
    assert (due_request d ∈ requests) as Hin.
    { eapply sublist_subseteq; [exact Hsub |]. by apply list_elem_of_fmap_2. }
    destruct (Hreq _ Hin) as (_ & Hpos & Hauth). split_and!; auto. by apply Hiff.
  - intros r Hr Hd Hout Hf1 Hf2. apply Hiff in Hd; [| done]. destruct (Hall r Hr Hd) as (d & Hin & <-).
    apply P8; [done | | done]. by apply Hdue.
Qed.

Lemma refilled_bounds s at_time :
  refilled s at_time <= nanobytes (burst_bytes (limits s))
  /\ refilled s at_time <= tokens s + bytes_per_second (limits s) * (at_time - now s).
Proof. unfold refilled, saturating_add, saturating_mul, saturating_sub. lia. Qed.

(** A call that does not panic keeps the invariant and spends no more than the refill adds. *)
Lemma sched_step_ok c l st st' :
  sched_inv c l st -> sched_step st st' ->
  sched_inv c l st' /\ now st.1.1 <= now st'.1.1
  /\ nanobytes st'.2 + tokens st'.1.1
     <= nanobytes st.2 + tokens st.1.1 + bytes_per_second l * (now st'.1.1 - now st.1.1).
Proof.
  intros [Ic Il It Ih Ip] Hstep.
  destruct Hstep as [s plans sent eligible requests at_time transport s' res Hrun
                    | s plans sent plan world policy send s' res Hplan Hrun]; simpl in *.
  - rewrite <- Il in It.
    destruct (schedule_cases s eligible requests at_time transport Ih It)
      as [[e He] | (s1 & p & Hok & H1 & H2 & H3 & H4 & H5 & H6 & H7 & H8 & H9 & H10 & H11 & H12 & H13 & _ & _ & H14 & _)].
    { rewrite Hrun in He. simplify_eq. split_and!; [by constructor | simpl; lia | simpl; lia]. }
    rewrite Hrun in Hok. simplify_eq. clear Hrun.
    destruct (refilled_bounds s (now s1)) as [Hcap Hgain]. rewrite <- H9 in Hcap, Hgain.
    pose proof (N.Div0.mul_div_le (tokens s1) 1000000000) as Hdiv.
    assert (nanobytes (total_bytes (selected p)) <= tokens s1) as Hlive by (unfold nanobytes; lia).
    split_and!; [| simpl; lia | simpl; lia]. constructor; simpl; [congruence | congruence | done | done |].
    intros q [-> | Hq]%elem_of_cons.
    + split_and!; [| lia |].
      * split_and!; [congruence | done | unfold nanobytes in *; lia |].
        intros r Hr. destruct (H14 r Hr) as (_ & _ & _ & Ha & Hw & _). split; [done | lia].
      * intros _. split_and!; [done | | done]. intros r Hr. by destruct (H14 r Hr) as (_ & ? & _).
    + destruct (Ip q Hq) as (Hs & Hle & _). split_and!; [done | lia | lia].
  - unfold transmit in Hrun. destruct (bool_decide _ || _) eqn:Hg.
    { simplify_eq. split_and!; [by constructor | lia | simpl; rewrite N.add_0_r; lia]. }
    apply orb_false_elim in Hg as [Hser _]. apply bool_decide_eq_false in Hser.
    apply dec_stable in Hser.
    destruct (checked_add _ _ _) as [next |] eqn:Hn.
    2: { simplify_eq. split_and!; [by constructor | lia | simpl; rewrite N.add_0_r; lia]. }
    apply checked_add_Some in Hn as [-> _].
    destruct (Ip plan Hplan) as (_ & _ & Hl). destruct (Hl Hser) as (L1 & L2 & L3).
    destruct (transmit_units_ok send (tick (plan_eligible plan)) (selected plan) 0
                (s <| serial := serial s + 1 |>) (mkTransmitMetrics 0 0 0)) as
      (hist & toks & m & Hrun' & T1 & T2 & T3 & _); [done | done | simpl; lia | done |].
    rewrite Hrun' in Hrun. simplify_eq. simpl in *.
    split_and!; [| lia | unfold nanobytes in *; lia].
    constructor; simpl; [done | done | unfold nanobytes in *; lia | done |].
    intros q Hq. destruct (Ip q Hq) as (Hs & Hle & _). split_and!; [done | lia | lia].
Qed.

Definition sched_start (c : ConnectionId) (l : SchedulerLimits) (st : sched_state) : Prop :=
  Scheduler_new c l = Ok st.1.1 /\ st.1.2 = [] /\ st.2 = 0.

Lemma sched_start_inv c l st : sched_start c l st -> sched_inv c l st.
Proof.
  destruct st as [[s plans] sent]. intros (Hn & Hp & Hs). simpl in *. subst.
  unfold Scheduler_new in Hn. destruct (decide _); [done |]. simplify_eq.
  constructor; simpl; try done. by intros p ?%not_elem_of_nil.
Qed.

Lemma sched_reach c l st st' :
  sched_inv c l st -> rtc sched_step st st' ->
  sched_inv c l st' /\ now st.1.1 <= now st'.1.1
  /\ nanobytes st'.2 + tokens st'.1.1
     <= nanobytes st.2 + tokens st.1.1 + bytes_per_second l * (now st'.1.1 - now st.1.1).
Proof.
  intros Hinv Hr. induction Hr as [x | x y z Hxy Hyz IH]; [split_and!; [done | lia | lia] |].
  destruct (sched_step_ok c l x y Hinv Hxy) as (Hinv' & Hn & Hb).
  destruct (IH Hinv') as (? & ? & ?). split_and!; [done | lia | nia].
Qed.

Lemma transmit_total c l s plans sent plan world policy send :
  sched_inv c l (s, plans, sent) -> plan ∈ plans ->
  exists s' r, transmit s plan world policy send = Some (s', r)
    /\ (plan_serial plan <> serial s -> s' = s /\ r = Err Stale).
Proof.
  intros [Ic Il It Ih Ip] Hplan. simpl in *. unfold transmit.
  destruct (bool_decide (plan_serial plan <> serial s)) eqn:Hser; simpl; [by eauto |].
  apply bool_decide_eq_false, dec_stable in Hser.
  destruct (negb _); [eexists _, _; done |].
  destruct (checked_add _ _ _); [| eexists _, _; done].
  destruct (Ip plan Hplan) as (_ & _ & Hl). destruct (Hl Hser) as (L1 & L2 & L3).
  edestruct (transmit_units_ok send (tick (plan_eligible plan)) (selected plan) 0)
    as (hist & toks & m & -> & _); [.. | eexists _, _; done]; simpl; [exact L1 | done | lia | done].
Qed.

(** C33 Between any two moments of a scheduler's life, whatever plans are made, kept, refused or
    sent, the bytes its transport accepted never exceed one burst plus the configured rate
    times the time between them. *)
Theorem transmission_rate_limited c l st0 st st' :
  sched_start c l st0 -> rtc sched_step st0 st -> rtc sched_step st st' ->
  nanobytes st'.2
  <= nanobytes st.2 + nanobytes (burst_bytes l) + bytes_per_second l * (now st'.1.1 - now st.1.1).
Proof.
  intros Hs H1 H2. destruct (sched_reach c l st0 st (sched_start_inv _ _ _ Hs) H1) as (Hinv & _).
  destruct (sched_reach c l st st' Hinv H2) as (_ & _ & Hb).
  pose proof (si_tokens _ _ _ Hinv). lia.
Qed.

(** C32 In any reachable scheduler neither scheduling nor sending a plan it issued panics. A plan
    selects distinct requests, each of which is due (its unit was never sent while it was
    requested, or its period has passed since), is authorized by the eligible set in full (every
    member has an entry, a prediction group is the admitted one), and is small enough for the
    burst and one transport unit, together within the transport's and the bucket's budget; every
    due request it leaves out would not have fitted beside the selection; and a plan that a later
    call replaced is refused without effect. *)
Theorem plans_safe_and_maximal c l st0 s plans sent eligible requests at_time transport :
  sched_start c l st0 -> rtc sched_step st0 (s, plans, sent) ->
  exists s' res, schedule s eligible requests at_time transport = Some (s', res)
    /\ match res with
       | Err _ => s' = s
       | Ok plan =>
           let budget := N.min (available_bytes transport) (available_wire_bytes s at_time) in
           NoDup (id <$> selected plan)
           /\ selected_wire_bytes (plan_metrics plan) = total_bytes (selected plan)
           /\ total_bytes (selected plan) <= budget
           /\ (forall r, r ∈ selected plan ->
                 r ∈ requests /\ due_at (history s) (tick eligible) r
                 /\ authorized eligible r /\ is_Some (unit_entries eligible r)
                 /\ 0 < wire_bytes r <= burst_bytes l
                 /\ wire_bytes r <= maximum_atomic_wire_bytes transport)
           /\ (forall r, r ∈ requests -> due_at (history s) (tick eligible) r -> r ∉ selected plan ->
                 wire_bytes r <= burst_bytes l -> wire_bytes r <= maximum_atomic_wire_bytes transport ->
                 budget < total_bytes (selected plan) + wire_bytes r)
       end
    /\ forall plan world policy send, plan ∈ plans ->
         exists s'' r, transmit s plan world policy send = Some (s'', r)
           /\ (plan_serial plan <> serial s -> s'' = s /\ r = Err Stale).
Proof.
  intros Hs Hr. destruct (sched_reach c l st0 _ (sched_start_inv _ _ _ Hs) Hr) as (Hinv & _).
  pose proof (fun p w q f => transmit_total c l s plans sent p w q f Hinv) as Htx.
  destruct Hinv as [Ic Il It Ih Ip]. simpl in *. rewrite <- Il in It.
  destruct (schedule_cases s eligible requests at_time transport Ih It)
    as [[e He] | (s1 & p & Hok & H1 & H2 & H3 & H4 & H5 & H6 & H7 & H8 & H9 & H10 & H11 & H12 & H13 & H14 & _ & H15 & H16)].
  - exists s, (Err e). by split_and!.
  - exists s1, (Ok p). rewrite H9 in *. rewrite Il in *. split_and!; try done.
    + intros r Hin. destruct (H15 r Hin) as (? & _ & ? & Hauth & ? & ?). pose proof Hauth as [Ha _]. split_and!; try done; try lia.
      unfold unit_entries. apply mapM_is_Some, Forall_forall. intros x Hx%elem_of_sorted_entities. auto.
Qed.

Module SchedulingDemo.
Definition e1 : EntityId := mkEntityId 1 1.
Definition e2 : EntityId := mkEntityId 2 1.
Definition grant : RepresentationGrant := mkRepresentationGrant 5 1 3 true.
Definition eligible : EligibleSet :=
  mkEligibleSet 7 1 1 1 10
    (<[e1 := mkEligibleEntry e1 grant 2 1 1]> (<[e2 := mkEligibleEntry e2 grant 2 1 1]> ∅))
    NotRequested 2 2.
Definition requests : list UnitRequest :=
  [UnitRequest_entity e1 900 (mkCadence 2 10 0 false); UnitRequest_entity e2 400 (mkCadence 2 10 9 true)].
Definition lim : SchedulerLimits := mkSchedulerLimits 16 1000 1000 4000 100.
Definition transport : TransportBudget := mkTransportBudget 5000 950.
Definition s0 : Scheduler := mkScheduler 7 lim ∅ 0 0 0 0 0 (nanobytes 1000).
Definition planned : Scheduler * SchedulePlan :=
  match schedule s0 eligible requests 1000000000 transport with
  | Some (s, Ok p) => (s, p)
  | _ => (s0, mkSchedulePlan eligible 0 [] (mkScheduleMetrics 0 0 0 0 0 0 0 0))
  end.
Definition s1 : Scheduler := Eval vm_compute in planned.1.
Definition p1 : SchedulePlan := Eval vm_compute in planned.2.
Definition sent_state : Scheduler * TransmitMetrics :=
  match transmit s1 p1 1 1 (fun _ _ => true) with
  | Some (s, Ok m) => (s, m)
  | _ => (s0, mkTransmitMetrics 0 0 0)
  end.
Definition s2 : Scheduler := Eval vm_compute in sent_state.1.
(** One tick later. *)
Definition later : EligibleSet :=
  mkEligibleSet 7 1 1 2 11
    (<[e1 := mkEligibleEntry e1 grant 2 1 1]> (<[e2 := mkEligibleEntry e2 grant 2 1 1]> ∅))
    NotRequested 2 2.
Lemma reached : rtc sched_step (s0, [], 0) (s2, [p1], 0 + 400).
Proof.
  eapply rtc_l.
  { apply (StepSchedule s0 [] 0 eligible requests 1000000000 transport s1 (Ok p1)). vm_compute. reflexivity. }
  eapply rtc_l; [| apply rtc_refl].
  apply (StepTransmit s1 [p1] 0 p1 1 1 (fun _ _ => true) s2 (Ok (mkTransmitMetrics 1 400 0))); [left |].
  vm_compute. reflexivity.
Qed.
End SchedulingDemo.

Lemma transmission_rate_limited_witness :
  accepted_wire_bytes SchedulingDemo.sent_state.2 = 400 /\
  nanobytes 400 <= nanobytes 0 + nanobytes 1000 + 1000 * 1000000000.
Proof.
  split; [vm_compute; reflexivity |].
  apply (transmission_rate_limited 7 SchedulingDemo.lim (SchedulingDemo.s0, [], 0)
           (SchedulingDemo.s0, [], 0) (SchedulingDemo.s2, [SchedulingDemo.p1], 0 + 400)).
  - split; [vm_compute; reflexivity | split; reflexivity].
  - apply rtc_refl.
  - exact SchedulingDemo.reached.
Defined.

(** The second unit was sent at tick 10 with a period of two: at tick 11 it is not due, and the plan
    holds the first alone although there is room for the second. *)
Lemma plans_safe_and_maximal_witness :
  exists s' plan, schedule SchedulingDemo.s2 SchedulingDemo.later SchedulingDemo.requests 2000000000
                    (mkTransportBudget 5000 950) = Some (s', Ok plan)
    /\ selected plan = [UnitRequest_entity SchedulingDemo.e1 900 (mkCadence 2 10 0 false)]
    /\ Forall (fun r => due_at (history SchedulingDemo.s2) 11 r /\ authorized SchedulingDemo.later r) (selected plan)
    /\ ~ due_at (history SchedulingDemo.s2) 11 (UnitRequest_entity SchedulingDemo.e2 400 (mkCadence 2 10 9 true)).
Proof.
  destruct (plans_safe_and_maximal 7 SchedulingDemo.lim (SchedulingDemo.s0, [], 0) SchedulingDemo.s2 [SchedulingDemo.p1] 400
              SchedulingDemo.later SchedulingDemo.requests 2000000000 (mkTransportBudget 5000 950))
    as (s' & res & Hs & Hres & _).
  - split; [vm_compute; reflexivity | split; reflexivity].
  - exact SchedulingDemo.reached.
  - assert (option_map (fun x => match x.2 with Ok p => selected p | Err _ => [] end)
              (schedule SchedulingDemo.s2 SchedulingDemo.later SchedulingDemo.requests 2000000000 (mkTransportBudget 5000 950))
            = Some [UnitRequest_entity SchedulingDemo.e1 900 (mkCadence 2 10 0 false)]) as Hv by (vm_compute; reflexivity).
    rewrite Hs in Hv. destruct res as [plan | e]; [| discriminate Hv]. exists s', plan. injection Hv as Hv.
    split; [exact Hs |]. split; [exact Hv |]. destruct Hres as (_ & _ & _ & Hsel & _). split.
    + apply Forall_forall. intros r Hr. destruct (Hsel r Hr) as (_ & Hd & Ha & _). exact (conj Hd Ha).
    + vm_compute. intros H. by apply H.
Defined.
