(* ===== verification/Canonical.v ===== *)
(** * Canonical payload reuse

    Models [CanonicalPayloadCache], [engine/net/src/interest/canonical.rs]: payload bytes that
    depend only on the committed entity and the exact grant are encoded once per frame barrier
    and shared. The charge of one entry ([size_of]) and the capacity of a cloned vector are
    parameters, the cost model of the platform's allocator. *)

From S2P Require Import Prelude Types Codec InterestModel.
Local Open Scope N_scope.
Local Open Scope engine_scope.

Record CanonicalCacheStats := mkStats {
  hits : N;
  encodes : N;
  uncached : N;
  stat_entries : N;
  retained_bytes : N;
}.
#[export] Instance eta_CanonicalCacheStats : Eta CanonicalCacheStats := fun r =>
  mkStats (hits r) (encodes r) (uncached r) (stat_entries r) (retained_bytes r).
Definition stats_default : CanonicalCacheStats := mkStats 0 0 0 0 0.

Inductive CanonicalCacheError (E : Type) :=
| StaleBarrier
| MissingGrant
| Encode (error : E).
Arguments StaleBarrier {E}.
Arguments MissingGrant {E}.
Arguments Encode {E} error.

Record Barrier := mkBarrier {
  barrier_frame : ReplicationFrame;
  barrier_tick : ServerTick;
  barrier_world : N;
  barrier_policy : PolicyRevision;
}.
#[export] Instance Barrier_eq_dec : EqDecision Barrier.
Proof. solve_decision. Defined.

Record Key := mkKey {
  key_entity : EntityId;
  key_state : StateVersion;
  key_scene : SceneRevision;
  key_schema : N;
  key_representation : RepresentationRevision;
  key_fields : N;
  key_prediction_allowed : bool;
}.
#[export] Instance Key_eq_dec : EqDecision Key.
Proof. solve_decision. Defined.
#[export] Instance Key_countable : Countable Key.
Proof.
  refine (inj_countable'
    (fun k => (key_entity k, key_state k, key_scene k, key_schema k, key_representation k,
               key_fields k, key_prediction_allowed k))
    (fun '(a, b, c, d, e, f, g) => mkKey a b c d e f g) _). by intros [].
Defined.

Record CanonicalPayloadCache := mkCache {
  barrier : option Barrier;
  cache_entries : gmap Key (list byte);
  max_cache_entries : N;
  max_bytes : N;
  stats : CanonicalCacheStats;
}.
#[export] Instance eta_CanonicalPayloadCache : Eta CanonicalPayloadCache := fun r =>
  mkCache (barrier r) (cache_entries r) (max_cache_entries r) (max_bytes r) (stats r).

Section Cache.
Context {E : Type}.
(** [size_of::<Key>() + size_of::<Vec<u8>>() + 128]. *)
Variable ENTRY_BYTES : N.
(** [bytes.clone().capacity()]. *)
Variable capacity : list byte -> N.

Definition Cache_new (entries bytes : N) : CanonicalPayloadCache :=
  mkCache None ∅ entries bytes stats_default.

Definition clear (c : CanonicalPayloadCache) : CanonicalPayloadCache :=
  c <| barrier := None |> <| cache_entries := ∅ |> <| stats := stats_default |>.

Definition begin_frame (c : CanonicalPayloadCache) (f : ReplicationFrame) (t : ServerTick) (world : N)
    (policy : PolicyRevision) : CanonicalPayloadCache :=
  (clear c) <| barrier := Some (mkBarrier f t world policy) |>.

Definition barrier_of (s : EligibleSet) : Barrier :=
  mkBarrier (frame s) (tick s) (world_revision s) (policy_revision s).

Definition key_of (entity : EntityId) (en : EligibleEntry) : Key :=
  let grant := representation en in
  mkKey entity (entry_state_version en) (entry_scene_revision en) (schema_id grant) (revision grant)
    (fields grant) (prediction_allowed grant).

Definition count_uncached (c : CanonicalPayloadCache) : CanonicalPayloadCache :=
  c <| stats := (stats c) <| uncached := saturating_add u64_max (uncached (stats c)) 1 |> |>.

(** [fresh] is what the encoder would return; it runs only on a miss. *)
Definition encode (c : CanonicalPayloadCache) (eligible : EligibleSet) (entity : EntityId)
    (fresh : result E (list byte))
  : CanonicalPayloadCache * result (CanonicalCacheError E) (list byte) :=
  if decide (barrier c <> Some (barrier_of eligible)) then (c, Err StaleBarrier)
  else
    match entries eligible !! entity with
    | None => (c, Err MissingGrant)
    | Some en =>
        let key := key_of entity en in
        match cache_entries c !! key with
        | Some bytes =>
            (c <| stats := (stats c) <| hits := saturating_add u64_max (hits (stats c)) 1 |> |>, Ok bytes)
        | None =>
            let c := c <| stats := (stats c) <| encodes := saturating_add u64_max (encodes (stats c)) 1 |> |> in
            match fresh with
            | Err e => (c, Err (Encode e))
            | Ok bytes =>
                let room := saturating_sub (max_bytes c) (retained_bytes (stats c)) in
                let charge := saturating_add usize_max (len bytes) ENTRY_BYTES in
                if bool_decide (max_cache_entries c <= N.of_nat (size (cache_entries c)))
                   || bool_decide (room < charge)
                then (count_uncached c, Ok bytes)
                else
                  let charge := saturating_add usize_max (capacity bytes) ENTRY_BYTES in
                  if bool_decide (room < charge) then (count_uncached c, Ok bytes)
                  else
                    let kept := <[key := bytes]> (cache_entries c) in
                    (c <| cache_entries := kept |>
                       <| stats := (stats c) <| stat_entries := N.of_nat (size kept) |>
                                           <| retained_bytes := retained_bytes (stats c) + charge |> |>,
                     Ok bytes)
            end
        end
    end.

(** ** Runs *)

Inductive cache_event :=
| EvBegin (f : ReplicationFrame) (t : ServerTick) (world : N) (policy : PolicyRevision)
| EvClear
| EvEncode (eligible : EligibleSet) (entity : EntityId).

(** The committed moment a frame is prepared at: its frame, tick, world and policy. *)
Definition moment : Type := ReplicationFrame * ServerTick * N * PolicyRevision.
Definition moment_of (s : EligibleSet) : moment := (frame s, tick s, world_revision s, policy_revision s).

(** The game's contract: at one moment the bytes depend on the committed entity, which is known by
    its identity, version and scene, and on the exact grant. *)
Definition encoder : Type :=
  moment -> EntityId -> StateVersion -> SceneRevision -> RepresentationGrant -> result E (list byte).

(** What the game would encode for an entity of a set. *)
Definition encode_entry (enc : encoder) (eligible : EligibleSet) (entity : EntityId) (en : EligibleEntry)
  : result E (list byte) :=
  enc (moment_of eligible) entity (entry_state_version en) (entry_scene_revision en) (representation en).

(** What encoding without a cache answers: no keys and no barriers, each request is encoded for the
    grant that its own set holds, provided that the set is of the current moment. *)
Definition reference (enc : encoder) (now : option moment) (eligible : EligibleSet) (entity : EntityId)
  : result (CanonicalCacheError E) (list byte) :=
  if decide (now <> Some (moment_of eligible)) then Err StaleBarrier
  else
    match entries eligible !! entity with
    | None => Err MissingGrant
    | Some en => match encode_entry enc eligible entity en with
                 | Ok bytes => Ok bytes
                 | Err e => Err (Encode e)
                 end
    end.

Definition fresh_of (enc : encoder) (eligible : EligibleSet) (entity : EntityId)
    (default : result E (list byte)) : result E (list byte) :=
  match entries eligible !! entity with
  | Some en => encode_entry enc eligible entity en
  | None => default
  end.

Definition cache_step (enc : encoder) (c : CanonicalPayloadCache) (ev : cache_event)
  : CanonicalPayloadCache * option (result (CanonicalCacheError E) (list byte)) :=
  match ev with
  | EvBegin f t world policy => (begin_frame c f t world policy, None)
  | EvClear => (clear c, None)
  | EvEncode eligible entity =>
      let out := encode c eligible entity (fresh_of enc eligible entity (Ok [])) in
      (out.1, Some out.2)
  end.

Fixpoint cache_run (enc : encoder) (c : CanonicalPayloadCache) (evs : list cache_event)
  : CanonicalPayloadCache * list (result (CanonicalCacheError E) (list byte)) :=
  match evs with
  | [] => (c, [])
  | ev :: evs =>
      let out := cache_step enc c ev in
      let rest := cache_run enc out.1 evs in
      (rest.1, match out.2 with Some r => r :: rest.2 | None => rest.2 end)
  end.

(** The same run without a cache, tracking the current moment alone. *)
Fixpoint reference_run (enc : encoder) (now : option moment) (evs : list cache_event)
  : list (result (CanonicalCacheError E) (list byte)) :=
  match evs with
  | [] => []
  | EvBegin f t world policy :: evs => reference_run enc (Some (f, t, world, policy)) evs
  | EvClear :: evs => reference_run enc None evs
  | EvEncode eligible entity :: evs => reference enc now eligible entity :: reference_run enc now evs
  end.

(** ** Invariant *)

Definition charge_of (bytes : list byte) : N := saturating_add usize_max (capacity bytes) ENTRY_BYTES.

Definition barrier_moment (b : Barrier) : moment :=
  (barrier_frame b, barrier_tick b, barrier_world b, barrier_policy b).
Definition encode_key (enc : encoder) (now : moment) (k : Key) : result E (list byte) :=
  enc now (key_entity k) (key_state k) (key_scene k)
    (mkRepresentationGrant (key_schema k) (key_representation k) (key_fields k) (key_prediction_allowed k)).

(** A key tells exactly the entities and grants apart that the game may encode differently, and a
    barrier exactly the moments. *)
Lemma encode_key_of enc eligible entity en :
  encode_key enc (moment_of eligible) (key_of entity en) = encode_entry enc eligible entity en.
Proof. unfold encode_key, encode_entry, key_of. simpl. by destruct (representation en). Qed.

Lemma barrier_moment_of b eligible : b = barrier_of eligible <-> barrier_moment b = moment_of eligible.
Proof.
  unfold barrier_of, barrier_moment, moment_of. destruct b as [f t w p]. simpl. split; [by intros [= -> -> -> ->] |].
  by intros [= -> -> -> ->].
Qed.

Record cache_inv (enc : encoder) (c : CanonicalPayloadCache) : Prop := mk_cache_inv {
  ca_fresh : forall k bytes, cache_entries c !! k = Some bytes ->
    exists b, barrier c = Some b /\ encode_key enc (barrier_moment b) k = Ok bytes;
  ca_entries : N.of_nat (size (cache_entries c)) <= max_cache_entries c;
  ca_stat : stat_entries (stats c) = N.of_nat (size (cache_entries c));
  ca_bytes : retained_bytes (stats c) = map_sum charge_of (cache_entries c);
  ca_limit : retained_bytes (stats c) <= max_bytes c;
}.

Lemma clear_inv enc c : cache_inv enc (clear c).
Proof.
  constructor; simpl; rewrite ?map_size_empty, ?map_sum_empty; try lia.
  by intros k bytes ?%lookup_empty_Some.
Qed.

Lemma begin_frame_inv enc c f t world policy : cache_inv enc (begin_frame c f t world policy).
Proof.
  destruct (clear_inv enc c) as [_ H2 H3 H4 H5]. constructor; done.
Qed.

Lemma encode_ok enc c eligible entity default :
  cache_inv enc c ->
  cache_inv enc (encode c eligible entity (fresh_of enc eligible entity default)).1
  /\ (encode c eligible entity (fresh_of enc eligible entity default)).2
     = reference enc (barrier_moment <$> barrier c) eligible entity
  /\ barrier (encode c eligible entity (fresh_of enc eligible entity default)).1 = barrier c
  /\ max_bytes (encode c eligible entity (fresh_of enc eligible entity default)).1 = max_bytes c
  /\ max_cache_entries (encode c eligible entity (fresh_of enc eligible entity default)).1
     = max_cache_entries c.
Proof.
  intros Hinv. pose proof Hinv as [H1 H2 H3 H4 H5]. unfold encode, reference, fresh_of.
  destruct (decide (barrier c <> Some (barrier_of eligible))) as [Hne | Hb].
  { rewrite decide_True; [done |]. intros (b & Hb & Hm)%fmap_Some. apply Hne. rewrite Hb. f_equal.
    by apply barrier_moment_of. }
  apply dec_stable in Hb. rewrite Hb. simpl. rewrite decide_False by tauto.
  destruct (entries eligible !! entity) as [en |] eqn:Hen; [| done].
  rewrite <- encode_key_of. set (key := key_of entity en). set (b := barrier_of eligible) in *.
  assert (barrier_moment b = moment_of eligible) as Hbm by by apply barrier_moment_of. rewrite <- Hbm.
  destruct (cache_entries c !! key) as [bytes |] eqn:Hk.
  { destruct (H1 key bytes Hk) as (b' & Hb' & He). rewrite Hb in Hb'. injection Hb' as <-.
    rewrite He. split_and!; done. }
  destruct (encode_key enc (barrier_moment b) key) as [bytes | e] eqn:Henc; [| by split_and!].
  destruct (bool_decide _ || _) eqn:Hfull; [by split_and! |].
  apply orb_false_iff in Hfull as [Hfull%bool_decide_eq_false _].
  destruct (bool_decide _) eqn:Hroom; [by split_and! |].
  apply bool_decide_eq_false in Hroom. simpl in *. split_and!; try done.
  constructor; simpl; try done.
  - intros k x [[<- <-] | [_ Hx]]%lookup_insert_Some; [by exists b | by apply H1].
  - rewrite map_size_insert_None by done. lia.
  - rewrite map_sum_insert by done. rewrite H4. unfold charge_of. lia.
  - unfold saturating_sub in Hroom. lia.
Qed.

Lemma cache_run_ok enc evs c :
  cache_inv enc c ->
  cache_inv enc (cache_run enc c evs).1
  /\ (cache_run enc c evs).2 = reference_run enc (barrier_moment <$> barrier c) evs
  /\ max_bytes (cache_run enc c evs).1 = max_bytes c
  /\ max_cache_entries (cache_run enc c evs).1 = max_cache_entries c.
Proof.
  revert c. induction evs as [| ev evs IH]; intros c Hinv; [done |].
  destruct ev as [f t world policy | | eligible entity]; cbn [cache_run cache_step reference_run fst snd].
  - destruct (IH _ (begin_frame_inv enc c f t world policy)) as (? & -> & ? & ?). done.
  - destruct (IH _ (clear_inv enc c)) as (? & -> & ? & ?). done.
  - destruct (encode_ok enc c eligible entity (Ok []) Hinv) as (Hinv' & Hout & Hb & Hm & Hn).
    destruct (IH _ Hinv') as (? & -> & ? & ?). rewrite Hout, Hb. split_and!; congruence.
Qed.

(** C30 The cache is transparent: over any sequence of frame barriers, clears and requests every
    answer, errors included, is the one an encoder without a cache gives. That encoder is any
    function of the frame, tick, world and policy of the request's own set and of the entity, its
    version and scene and the whole grant it has there (schema, revision, fields, prediction): a
    request whose set is of another frame, tick, world or policy than the one begun is refused as
    stale, and bytes are never shared across entities, versions, scenes or grants. The cache
    retains no more entries or bytes than configured, its statistics being the true ones. *)
Theorem cache_transparent enc entries bytes evs :
  let out := cache_run enc (Cache_new entries bytes) evs in
  out.2 = reference_run enc None evs
  /\ N.of_nat (size (cache_entries out.1)) <= entries
  /\ stat_entries (stats out.1) = N.of_nat (size (cache_entries out.1))
  /\ retained_bytes (stats out.1) = map_sum charge_of (cache_entries out.1)
  /\ retained_bytes (stats out.1) <= bytes.
Proof.
  cbv zeta. destruct (cache_run_ok enc evs (Cache_new entries bytes)) as ([H1 H2 H3 H4 H5] & Hout & Hm & Hn).
  { destruct (clear_inv enc (Cache_new entries bytes)) as [H1 H2 H3 H4 H5]. constructor; done. }
  rewrite Hm in H5. rewrite Hn in H2. done.
Qed.
End Cache.

(** A hit, other grants of the same entity (its revision, its fields, its prediction), another world
    and policy, and a new frame. *)
Module CanonicalDemo.
Definition e : EntityId := mkEntityId 1 1.
Definition set_with (f world policy revision fields : N) (prediction : bool) : EligibleSet :=
  mkEligibleSet 7 world policy f 5
    {[e := mkEligibleEntry e (mkRepresentationGrant 1 revision fields prediction) 2 1 1]} NotRequested 1 1.
Definition enc : @encoder unit := fun '(f, _, _, _) _ _ _ grant =>
  if decide (revision grant = 9) then Err tt
  else Ok [if decide (f = 1) then Byte.x02 else Byte.x03; if decide (fields grant = 3) then Byte.x01 else Byte.x00;
           if prediction_allowed grant then Byte.x01 else Byte.x00].
Definition evs : list cache_event :=
  [EvBegin 1 5 1 1; EvEncode (set_with 1 1 1 1 3 true) e; EvEncode (set_with 1 1 1 1 3 true) e;
   EvEncode (set_with 1 1 1 9 3 true) e; EvEncode (set_with 1 1 1 1 4 true) e; EvEncode (set_with 1 1 1 1 3 false) e;
   EvEncode (set_with 2 1 1 1 3 true) e; EvEncode (set_with 1 2 1 1 3 true) e; EvEncode (set_with 1 1 2 1 3 true) e;
   EvBegin 2 5 1 1; EvEncode (set_with 2 1 1 1 3 true) e].

Example canonical_demo :
  let out := cache_run 100 len enc (Cache_new 4 1000) evs in
  out.2 = [Ok [Byte.x02; Byte.x01; Byte.x01]; Ok [Byte.x02; Byte.x01; Byte.x01]; Err (Encode tt);
           Ok [Byte.x02; Byte.x00; Byte.x01]; Ok [Byte.x02; Byte.x01; Byte.x00];
           Err StaleBarrier; Err StaleBarrier; Err StaleBarrier; Ok [Byte.x03; Byte.x01; Byte.x01]]
  /\ stats out.1 = mkStats 0 1 0 1 103.
Proof. vm_compute. done. Qed.
End CanonicalDemo.
