(* ===== verification/Wire.v ===== *)
(** * The gameplay message codec

    Models [engine/net/src/wire.rs]: a tagged frame around serialized bytes, raw or deflated,
    with the expansion bounded before anything is inflated. The serializer and the compressor
    are third-party code and are parameters; their documented round trips are the hypotheses
    of the last section. [None] is the panic of a value that does not serialize. *)

From stdpp Require Import strings.
From S2P Require Import Prelude Types Codec.
Import Byte.
Local Open Scope N_scope.
Local Open Scope engine_scope.

Definition MAX_STATE_BYTES : N := 1024 * 1024.

(** [bincode::Error]: the serializer's own, or the custom message of [invalid]. *)
Inductive WireError (E : Type) := BincodeError (e : E) | Invalid (message : string).
Arguments BincodeError {E} e.
Arguments Invalid {E} message.

Inductive CompressionMode := Auto | Off.
#[export] Instance CompressionMode_eq_dec : EqDecision CompressionMode.
Proof. solve_decision. Defined.

Record CompressionPolicy := mkCompressionPolicy { mode : CompressionMode; minimum_bytes : N }.
Definition CompressionPolicy_default : CompressionPolicy := mkCompressionPolicy Auto 0.

(** What [decompress] reports: finished, bytes consumed, bytes written, and the buffer. *)
Record Inflated := mkInflated { done_ : bool; consumed : N; written : N; buffer : list byte }.

Section Wire.
Context {T E : Type}.
Variable bincode_serialize : T -> option (list byte).
(** Fixed-width integers, trailing bytes rejected, at most the given number of bytes. *)
Variable bincode_deserialize : N -> list byte -> result E T.
Variable compress_to_vec : list byte -> list byte.
(** [inflate input size] decompresses into a buffer of [size] bytes. *)
Variable inflate : list byte -> N -> Inflated.

Definition serialize (value : T) : option (list byte) := bincode_serialize value.

Definition deserialize (bytes : list byte) : result (WireError E) T :=
  if decide (MAX_STATE_BYTES < len bytes) then Err (Invalid "oversized state")
  else match bincode_deserialize MAX_STATE_BYTES bytes with
       | Ok v => Ok v
       | Err e => Err (BincodeError e)
       end.

Definition raw_frame (raw : list byte) : list byte := x00 :: raw.
Definition compressed_frame (raw compressed : list byte) : list byte :=
  x01 :: to_le_bytes 4 (len raw) ++ compressed.

Definition encode_with_compression (value : T) (policy : CompressionPolicy) : option (list byte) :=
  match serialize value with
  | None => None
  | Some raw =>
      if bool_decide (mode policy = Auto) && bool_decide (minimum_bytes policy <= len raw) then
        let compressed := compress_to_vec raw in
        if decide (len compressed + 5 < len raw + 1) then Some (compressed_frame raw compressed)
        else Some (raw_frame raw)
      else Some (raw_frame raw)
  end.

Definition encode (value : T) : option (list byte) :=
  encode_with_compression value CompressionPolicy_default.

Definition decode_with_limit (bytes : list byte) (limit : N) : result (WireError E) T :=
  let limit := N.min limit MAX_STATE_BYTES in
  if decide (limit + 1 < len bytes) then Err (Invalid "oversized message")
  else
    match bytes with
    | x00 :: raw =>
        if decide (len raw <= limit) then deserialize raw else Err (Invalid "invalid wire frame")
    | x01 :: body =>
        if decide (4 <= len body) then
          let size := from_le_bytes (take 4 body) in
          if decide (limit < size) then Err (Invalid "oversized inflated state")
          else
            let out := inflate (drop 4 body) size in
            if negb (done_ out) || bool_decide (consumed out <> len body - 4)
               || bool_decide (written out <> size)
            then Err (Invalid "invalid compressed state or trailing bytes")
            else deserialize (buffer out)
        else Err (Invalid "invalid wire frame")
    | _ => Err (Invalid "invalid wire frame")
    end.

Definition decode (bytes : list byte) : result (WireError E) T := decode_with_limit bytes MAX_STATE_BYTES.

(** ** Which frames are accepted *)

(** The two wire forms of serialized bytes. *)
Definition frames (bytes raw : list byte) : Prop :=
  bytes = raw_frame raw
  \/ exists input size, bytes = x01 :: to_le_bytes 4 size ++ input /\ size < 2 ^ 32
       /\ inflate input size = mkInflated true (len input) size raw.

(** The size a compressed frame announces. *)
Definition announced (bytes : list byte) : option N :=
  match bytes with
  | x01 :: body => if decide (4 <= len body) then Some (from_le_bytes (take 4 body)) else None
  | _ => None
  end.

Lemma deserialize_Ok bytes v :
  deserialize bytes = Ok v <->
  len bytes <= MAX_STATE_BYTES /\ bincode_deserialize MAX_STATE_BYTES bytes = Ok v.
Proof.
  unfold deserialize. destruct (decide _).
  - split; [done | lia].
  - destruct (bincode_deserialize _ bytes); split; intros; destruct_and?; simplify_eq; split; done || lia.
Qed.

Lemma split_body (body : list byte) : 4 <= len body ->
  body = to_le_bytes 4 (from_le_bytes (take 4 body)) ++ drop 4 body
  /\ from_le_bytes (take 4 body) < 2 ^ 32 /\ len (drop 4 body) = len body - 4.
Proof.
  unfold len. intros Hl. assert (length (take 4 body) = 4%nat) as Ht by (rewrite length_take; lia).
  split_and!.
  - pose proof (to_from_le_bytes (take 4 body)) as H. rewrite Ht in H. by rewrite H, take_drop.
  - pose proof (from_le_bytes_bound (take 4 body)) as H. unfold len in H. rewrite Ht in H. exact H.
  - rewrite length_drop. lia.
Qed.

Lemma compressed_body size input :
  size < 2 ^ 32 ->
  let body := to_le_bytes 4 size ++ input in
  4 <= len body /\ from_le_bytes (take 4 body) = size /\ drop 4 body = input /\ len body - 4 = len input.
Proof.
  intros Hs body.
  assert (take 4 body = to_le_bytes 4 size) as Ht by (by apply take_app_length'; rewrite length_to_le_bytes).
  assert (drop 4 body = input) as Hd by (by apply drop_app_length'; rewrite length_to_le_bytes).
  assert (len body = 4 + len input) as Hl by (unfold body; rewrite len_app; done).
  split_and!; [lia | | done | lia]. rewrite Ht. by apply le_bytes_fit.
Qed.

(** Which messages decode: exactly those no longer than the limit and a tag that are one of
    the two wire forms of bytes the serializer accepts, a compressed one announcing at most the
    limit, inflating completely to the announced size and using all of its input; anything else
    is an error. *)
Theorem decode_accepts_exactly bytes limit v :
  decode_with_limit bytes limit = Ok v <->
  len bytes <= N.min limit MAX_STATE_BYTES + 1
  /\ (forall size, announced bytes = Some size -> size <= N.min limit MAX_STATE_BYTES)
  /\ exists raw, frames bytes raw /\ len raw <= MAX_STATE_BYTES
       /\ bincode_deserialize MAX_STATE_BYTES raw = Ok v.
Proof.
  unfold decode_with_limit. set (l := N.min limit MAX_STATE_BYTES). split.
  - intros H. destruct (decide _) as [| Hlen]; [done |]. split; [lia |].
    destruct bytes as [| b rest]; [done |].
    destruct b; try done; unfold announced.
    + split; [done |]. destruct (decide _); [| done]. apply deserialize_Ok in H as [? ?].
      exists rest. split_and!; try done. by left.
    + destruct (decide (4 <= len rest)) as [Hb |]; [| done].
      destruct (split_body rest Hb) as (Hrest & Hsize & Hd).
      destruct (decide _) as [| Hs]; [done |].
      destruct (inflate (drop 4 rest) (from_le_bytes (take 4 rest))) as [dn cs wr buf] eqn:Hinf.
      simpl in H. destruct dn; [| done].
      destruct (bool_decide (cs <> _)) eqn:Hc; [done |].
      destruct (bool_decide (wr <> _)) eqn:Hw; [done |]. simpl in H.
      apply bool_decide_eq_false, dec_stable in Hc, Hw. subst cs wr.
      apply deserialize_Ok in H as [? ?]. split; [intros size [= <-]; lia |].
      exists buf. split_and!; try done. right. exists (drop 4 rest), (from_le_bytes (take 4 rest)).
      split_and!; [by rewrite <- Hrest | done |]. by rewrite Hinf, Hd.
  - intros (Hlen & Hann & raw & Hf & Hraw & Hv). destruct (decide _); [lia |].
    destruct Hf as [-> | (input & size & -> & Hsize & Hinf)].
    + unfold raw_frame in *. rewrite len_cons in Hlen. destruct (decide _); [| lia].
      by apply deserialize_Ok.
    + destruct (compressed_body size input Hsize) as (H4 & Ht & Hd & Hl).
      unfold announced in Hann. set (body := to_le_bytes 4 size ++ input) in *. clearbody body.
      destruct (decide (4 <= len body)) as [_ |]; [| done]. rewrite Ht in Hann |- *.
      specialize (Hann size eq_refl). destruct (decide _); [lia |].
      rewrite Hd, Hinf, Hl. simpl. rewrite !bool_decide_eq_false_2 by (intros Hn; by apply Hn).
      by apply deserialize_Ok.
Qed.

(** ** Round trip *)

Hypothesis deserialize_serialize : forall value raw,
  bincode_serialize value = Some raw -> len raw <= MAX_STATE_BYTES ->
  bincode_deserialize MAX_STATE_BYTES raw = Ok value.
Hypothesis inflate_compress : forall raw,
  inflate (compress_to_vec raw) (len raw)
  = mkInflated true (len (compress_to_vec raw)) (len raw) raw.

(** Encoding under any compression policy is lossless: the message is never longer than the
    raw framing, and a value whose serialized form fits the receiver's limit decodes to itself
    from either wire form. *)
Theorem wire_roundtrip value policy bytes limit :
  encode_with_compression value policy = Some bytes ->
  exists raw, bincode_serialize value = Some raw /\ len bytes <= len raw + 1
    /\ (len raw <= N.min limit MAX_STATE_BYTES -> decode_with_limit bytes limit = Ok value).
Proof.
  unfold encode_with_compression, serialize. intros H.
  destruct (bincode_serialize value) as [raw |] eqn:Hs; [| done]. exists raw. split; [done |].
  assert (bytes = raw_frame raw
          \/ (bytes = compressed_frame raw (compress_to_vec raw)
              /\ len (compress_to_vec raw) + 5 < len raw + 1)) as Hb.
  { destruct (bool_decide _ && _); [destruct (decide _) |]; simplify_eq; auto. }
  clear H. destruct Hb as [-> | [-> Hshort]].
  - unfold raw_frame. rewrite len_cons. split; [lia |]. intros Hl.
    apply decode_accepts_exactly. rewrite len_cons. split_and!; [lia | done |].
    exists raw. split_and!; [by left | lia |]. apply deserialize_serialize; [done | lia].
  - unfold compressed_frame.
    assert (len (x01 :: to_le_bytes 4 (len raw) ++ compress_to_vec raw)
            = 5 + len (compress_to_vec raw)) as Hlen
      by (rewrite len_cons, len_app; unfold len; rewrite length_to_le_bytes; lia).
    rewrite Hlen. split; [lia |]. intros Hl.
    assert (len raw < 2 ^ 32) as Hr by (unfold MAX_STATE_BYTES in Hl; lia).
    destruct (compressed_body (len raw) (compress_to_vec raw) Hr) as (H4 & Ht & _).
    apply decode_accepts_exactly. rewrite Hlen. split_and!; [lia | |].
    + intros size. unfold announced. rewrite Ht. destruct (decide _); [| done]. by intros [= <-].
    + exists raw. split_and!; [| lia | apply deserialize_serialize; [done | lia]].
      right. exists (compress_to_vec raw), (len raw). done.
Qed.
End Wire.

(** The decoder bounds expansion before it inflates: its answer does not depend on what the
    inflater does with any output larger than the limit, so such an inflation is never asked
    for, whatever size the message announces. *)
Theorem inflation_bounded {T E} (bincode_deserialize : N -> list byte -> result E T) inflate inflate'
    bytes limit :
  (forall input size, size <= N.min limit MAX_STATE_BYTES -> inflate input size = inflate' input size) ->
  decode_with_limit bincode_deserialize inflate bytes limit
  = decode_with_limit bincode_deserialize inflate' bytes limit.
Proof.
  intros Hagree. unfold decode_with_limit. destruct (decide _) as [| Hlen]; [done |].
  destruct bytes as [| b rest]; [done |]. destruct b; try done.
  destruct (decide (4 <= len rest)) as [Hb |]; [| done].
  destruct (decide _) as [| Hs]; [done |]. rewrite Hagree; [done | lia].
Qed.

(** Byte strings as values, with a compressor that only knows runs of zeros. *)
Module WireDemo.
Definition ser (v : list byte) : option (list byte) := Some v.
Definition de (limit : N) (bytes : list byte) : result unit (list byte) :=
  if decide (len bytes <= limit) then Ok bytes else Err tt.
Definition compress (raw : list byte) : list byte :=
  if decide (raw = replicate (length raw) x00) then [x00] else x01 :: raw.
Definition inflate (input : list byte) (size : N) : Inflated :=
  match input with
  | [x00] => mkInflated true 1 size (replicate (N.to_nat size) x00)
  | x01 :: raw => mkInflated true (len input) (len raw) raw
  | _ => mkInflated false 0 0 []
  end.
Lemma de_ser value raw : ser value = Some raw -> len raw <= MAX_STATE_BYTES ->
  de MAX_STATE_BYTES raw = Ok value.
Proof. intros [= <-] H. unfold de. by destruct (decide _). Qed.
Lemma inflate_ok raw :
  inflate (compress raw) (len raw) = mkInflated true (len (compress raw)) (len raw) raw.
Proof.
  unfold compress. destruct (decide _) as [Hz |]; [| done].
  unfold inflate, len. by rewrite Nat2N.id, <- Hz.
Qed.
(** Refuses to work beyond 64 bytes. *)
Definition inflate_small (input : list byte) (size : N) : Inflated :=
  if decide (size <= 64) then inflate input size else mkInflated false 0 0 [].
End WireDemo.

Lemma wire_roundtrip_witness :
  encode_with_compression WireDemo.ser WireDemo.compress (replicate 40 x00) CompressionPolicy_default
  = Some [x01; x28; x00; x00; x00; x00]
  /\ decode_with_limit WireDemo.de WireDemo.inflate [x01; x28; x00; x00; x00; x00] 64
     = Ok (replicate 40 x00).
Proof.
  assert (encode_with_compression WireDemo.ser WireDemo.compress (replicate 40 x00)
            CompressionPolicy_default = Some [x01; x28; x00; x00; x00; x00]) as H
    by (vm_compute; reflexivity).
  split; [exact H |].
  destruct (wire_roundtrip WireDemo.ser WireDemo.de WireDemo.compress WireDemo.inflate WireDemo.de_ser
              WireDemo.inflate_ok _ _ _ 64 H) as (raw & Hraw & _ & Hd).
  apply Hd. injection Hraw as <-. vm_compute. discriminate.
Defined.

Lemma inflation_bounded_witness :
  decode_with_limit WireDemo.de WireDemo.inflate [x01; xff; xff; xff; xff; x00] 64
  = decode_with_limit WireDemo.de WireDemo.inflate_small [x01; xff; xff; xff; xff; x00] 64.
Proof.
  apply (inflation_bounded WireDemo.de WireDemo.inflate WireDemo.inflate_small).
  intros input size Hs. unfold WireDemo.inflate_small.
  destruct (decide (size <= 64)) as [| Hn]; [reflexivity |]. exfalso. apply Hn.
  eapply N.le_trans; [exact Hs |]. apply N.le_min_l.
Defined.
