(* ===== verification/Events.v ===== *)
(** * The journal of predicted effects

    Models [engine/net/src/events/model.rs] and [engine/net/src/events/journal.rs]: effects
    (projectiles, sounds) that prediction shows before the server confirms them, keyed by the
    action that caused them, with the changes a presentation layer is told to make.

    The source keeps sorted vectors that are searched and filled by key only; they are maps
    and sets here, iterated in key order. Sizes of the platform ([size_of]) are parameters, and
    each operation takes the allocator's answers [mem size n]: the capacity obtained for [n]
    elements, or [None] when the reservation fails. *)

From S2P Require Import Prelude Types Payload.
Local Open Scope N_scope.
Local Open Scope engine_scope.

Record JournalScope := mkJournalScope { sc_connection : ConnectionEpoch; sc_stream : CommandStream }.
#[export] Instance JournalScope_eq_dec : EqDecision JournalScope.
Proof. solve_decision. Defined.
Definition scope_le (a b : JournalScope) : bool :=
  lex_le [sc_connection a; sc_stream a] [sc_connection b; sc_stream b].

Record EventKey := mkEventKey { action : ActionKey; kind : N; spawn_ordinal : N }.
#[export] Instance EventKey_eq_dec : EqDecision EventKey.
Proof. solve_decision. Defined.
#[export] Instance EventKey_countable : Countable EventKey.
Proof.
  refine (inj_countable' (fun k => (action k, kind k, spawn_ordinal k))
    (fun '(a, k, o) => mkEventKey a k o) _). by intros [].
Defined.

(** The derived order of keys, which the vectors are sorted by. *)
Definition event_key_le (a b : EventKey) : Prop :=
  lex_le [ak_connection (action a); ak_stream (action a); ak_command (action a); ak_slot (action a);
          kind a; spawn_ordinal a]
         [ak_connection (action b); ak_stream (action b); ak_command (action b); ak_slot (action b);
          kind b; spawn_ordinal b] = true.
#[export] Instance event_key_le_dec : RelDecision event_key_le.
Proof. intros a b. unfold event_key_le. apply _. Defined.

Record EventIdentity := mkEventIdentity { key : EventKey; origin_tick : ServerTick; schema : N }.
#[export] Instance EventIdentity_eq_dec : EqDecision EventIdentity.
Proof. solve_decision. Defined.

Inductive Delivery := Reversible | SimulationOwned | OneShot.
#[export] Instance Delivery_eq_dec : EqDecision Delivery.
Proof. solve_decision. Defined.

Record ReplayRange := mkReplayRange { first : ServerTick; last : ServerTick }.

Inductive Outcome := OutcomeAccepted (binding : option EntityId) | OutcomeRejected.

Inductive EventDecision := DecisionUnresolved | DecisionAccepted | DecisionRejected.
#[export] Instance EventDecision_eq_dec : EqDecision EventDecision.
Proof. solve_decision. Defined.

Inductive Phase := PhaseUnseen | PhaseLive | PhaseReplayAbsent | PhaseExpired | PhaseRejected.
#[export] Instance Phase_eq_dec : EqDecision Phase.
Proof. solve_decision. Defined.

Inductive CancelReason := CancelReplayAbsent | CancelRejected | CancelExpired.

Record Lifetime := mkLifetime { expires : ServerTick; life_delivery : Delivery }.
#[export] Instance Lifetime_eq_dec : EqDecision Lifetime.
Proof. solve_decision. Defined.

Record Limits := mkLimits {
  lim_records : N;
  lim_bindings : N;
  lim_action_fences : N;
  lim_payload_bytes : N;
  lim_resident_bytes : N;
  lim_transitions : N;
  lim_transition_bytes : N;
  lim_peak_bytes : N;
  lim_history_ticks : N;
  lim_lifetime_ticks : N;
}.
Definition Limits_default : Limits :=
  mkLimits 2048 2048 2048 (16 * 1024) (4 * 1024 * 1024) 1024 (2 * 1024 * 1024) (11 * 1024 * 1024) 256 4096.

Inductive EventError :=
| InvalidConfiguration
| InvalidIdentity
| InvalidPayload
| WrongScope
| Stale
| OutsideHistory
| DuplicateKey
| Conflict
| Unknown
| Capacity
| ResetRequired
| LiveHistory.

Record Binding := mkBinding { bound_entity : EntityId; bound_key : EventKey }.

(** The allocator's answer to [try_reserve_exact]: element size and count to capacity. *)
Definition allocator : Type := N -> N -> option N.

Section Journal.
Context {P : Type} `{!Payload P}.
Variables size_entry size_binding size_action size_change : N.

Record EventRecord := mkEventRecord {
  identity : EventIdentity;
  expires_at : ServerTick;
  delivery : Delivery;
  payload : P;
}.

Inductive Change :=
| Create (event : EventRecord) (committed : bool) (binding : option EntityId)
| Update (event : EventRecord)
| Cancel (k : EventKey) (reason : CancelReason)
| Confirm (k : EventKey)
| Bind (k : EventKey) (entity : EntityId)
| BindRetired (k : EventKey) (entity : EntityId)
| Reset (previous current : JournalScope).

Record Changes := mkChanges {
  values : list Change;
  values_capacity : N;
  payload_bytes : N;
}.
#[export] Instance eta_Changes : Eta Changes := fun r =>
  mkChanges (values r) (values_capacity r) (payload_bytes r).

Definition changes_retained_bytes (c : Changes) : N := values_capacity c * size_change + payload_bytes c.

Record Entry := mkEntry {
  e_identity : EventIdentity;
  lifetime : option Lifetime;
  e_payload : option P;
  phase : Phase;
  e_decision : EventDecision;
  delivered : bool;
  e_binding : option EntityId;
}.
#[export] Instance eta_Entry : Eta Entry := fun r =>
  mkEntry (e_identity r) (lifetime r) (e_payload r) (phase r) (e_decision r) (delivered r) (e_binding r).
Definition entry_key (e : Entry) : EventKey := key (e_identity e).

Record EventJournal := mkEventJournal {
  scope : JournalScope;
  limits : Limits;
  now : ServerTick;
  retired : CommandSeq;
  entries : gmap EventKey Entry;
  bindings : gmap N Binding;
  rejected_actions : gset ActionKey;
  entries_capacity : N;
  bindings_capacity : N;
  actions_capacity : N;
}.
#[export] Instance eta_EventJournal : Eta EventJournal := fun r =>
  mkEventJournal (scope r) (limits r) (now r) (retired r) (entries r) (bindings r)
    (rejected_actions r) (entries_capacity r) (bindings_capacity r) (actions_capacity r).

Definition reserved (mem : allocator) (size capacity : N) : result EventError N :=
  ok_or (mem size capacity) Capacity.

Definition metadata_bytes (l : Limits) : option N :=
  match checked_mul usize_max (lim_records l) size_entry,
        checked_mul usize_max (lim_bindings l) size_binding,
        checked_mul usize_max (lim_action_fences l) size_action with
  | Some a, Some b, Some c =>
      match checked_add usize_max a b with Some ab => checked_add usize_max ab c | None => None end
  | _, _, _ => None
  end.

Definition peak_bytes (l : Limits) : option N :=
  match checked_mul usize_max (lim_resident_bytes l) 2 with
  | Some n =>
      match checked_add usize_max n (lim_transition_bytes l) with
      | Some n => checked_add usize_max n (lim_payload_bytes l)
      | None => None
      end
  | None => None
  end.

(** [n.is_none_or(|n| n > budget || payload > budget - n)]. *)
Definition exceeds (n : option N) (payload budget : N) : bool :=
  match n with
  | None => true
  | Some n => bool_decide (budget < n) || bool_decide (budget - n < payload)
  end.

Definition limits_invalid (l : Limits) : bool :=
  bool_decide (0 ∈ [lim_records l; lim_bindings l; lim_action_fences l; lim_payload_bytes l; lim_transitions l])
  || bool_decide (lim_history_ticks l = 0)
  || bool_decide (lim_lifetime_ticks l = 0)
  || exceeds (metadata_bytes l) (lim_payload_bytes l) (lim_resident_bytes l)
  || exceeds (checked_mul usize_max (lim_transitions l) size_change) (lim_payload_bytes l)
       (lim_transition_bytes l)
  || match peak_bytes l with None => true | Some n => bool_decide (lim_peak_bytes l < n) end.

Definition EventJournal_new (mem : allocator) (s : JournalScope) (l : Limits)
  : result EventError EventJournal :=
  if decide (sc_connection s = 0 \/ sc_stream s = 0) then Err InvalidIdentity
  else if limits_invalid l then Err InvalidConfiguration
  else
    let? ce := reserved mem size_entry (lim_records l) in
    let? cb := reserved mem size_binding (lim_bindings l) in
    let? ca := reserved mem size_action (lim_action_fences l) in
    Ok (mkEventJournal s l 0 0 ∅ ∅ ∅ ce cb ca).

Definition payload_cost (e : Entry) : N := from_option retained_bytes 0 (e_payload e).

Definition journal_retained_bytes (j : EventJournal) : N :=
  entries_capacity j * size_entry + bindings_capacity j * size_binding
  + actions_capacity j * size_action + map_sum payload_cost (entries j).

Record EventView := mkEventView {
  v_identity : EventIdentity;
  v_phase : Phase;
  v_decision : EventDecision;
  v_binding : option EntityId;
  v_payload : option P;
}.
Definition view_of (e : Entry) : EventView :=
  mkEventView (e_identity e) (phase e) (e_decision e) (e_binding e) (e_payload e).
Definition get (j : EventJournal) (k : EventKey) : option EventView := view_of <$> entries j !! k.

(** The entries in key order. *)
Definition entry_keys (j : EventJournal) : list EventKey := merge_sort event_key_le (elements (dom (entries j))).
Definition iter (j : EventJournal) : list EventView := omap (get j) (entry_keys j).

Definition valid_action (j : EventJournal) (a : ActionKey) : result EventError unit :=
  if decide (ak_connection a <> sc_connection (scope j) \/ ak_stream a <> sc_stream (scope j))
  then Err WrongScope
  else if decide (ak_command a = 0) then Err InvalidIdentity
  else if decide (ak_command a <= retired j) then Err Stale
  else Ok tt.

Definition valid_identity (j : EventJournal) (i : EventIdentity) : result EventError unit :=
  let? _u := valid_action j (action (key i)) in
  if decide (kind (key i) = 0 \/ schema i = 0 \/ now j < origin_tick i) then Err InvalidIdentity
  else match entries j !! key i with
       | Some e => if decide (e_identity e <> i) then Err Conflict else Ok tt
       | None => Ok tt
       end.

Definition check_resident (j : EventJournal) : result EventError unit :=
  if decide (lim_resident_bytes (limits j) < journal_retained_bytes j) then Err Capacity else Ok tt.

Definition new_changes (mem : allocator) (j : EventJournal) : result EventError Changes :=
  let? cap := reserved mem size_change (lim_transitions (limits j)) in Ok (mkChanges [] cap 0).

Definition change_bytes (ch : Change) : N :=
  match ch with
  | Create event _ _ | Update event => retained_bytes (payload event)
  | _ => 0
  end.

Definition emit (l : Limits) (c : Changes) (ch : Change) : result EventError Changes :=
  let bytes := change_bytes ch in
  if bool_decide (lim_transitions l <= len (values c))
     || match checked_add usize_max (changes_retained_bytes c) bytes with
        | None => true
        | Some n => bool_decide (lim_transition_bytes l < n)
        end
  then Err Capacity
  else Ok (c <| payload_bytes := payload_bytes c + bytes |> <| values := values c ++ [ch] |>).

(** What the closures of a transaction thread: the staged journal and the changes so far. *)
Definition staged : Type := EventJournal * Changes.

Definition transaction (mem : allocator) (j : EventJournal)
    (apply : EventJournal -> Changes -> result EventError staged)
  : EventJournal * result EventError (list Change) :=
  let out :=
    let? st := EventJournal_new mem (scope j) (limits j) in
    let st := st <| now := now j |> <| retired := retired j |> <| entries := entries j |>
                 <| bindings := bindings j |> <| rejected_actions := rejected_actions j |> in
    let? _u := check_resident st in
    let? c := new_changes mem j in
    let? res := apply st c in
    let? _u := check_resident res.1 in
    Ok res in
  match out with
  | Ok (st, c) => (st, Ok (values c))
  | Err e => (j, Err e)
  end.

Definition set_now (j : EventJournal) (t : ServerTick) : result EventError EventJournal :=
  if decide (t < now j) then Err Stale else Ok (j <| now := t |>).

(** [self.entries[i] = e], at the entry's own key. *)
Definition set_entry (j : EventJournal) (e : Entry) : EventJournal :=
  j <| entries := <[entry_key e := e]> (entries j) |>.

Definition unseen (i : EventIdentity) : Entry :=
  mkEntry i None None PhaseUnseen DecisionUnresolved false None.

(** The entry of an identity, inserted when it is new. *)
Definition entry (j : EventJournal) (i : EventIdentity) : result EventError (EventJournal * Entry) :=
  let? _u := valid_identity j i in
  match entries j !! key i with
  | Some e => Ok (j, e)
  | None =>
      if decide (lim_records (limits j) <= N.of_nat (size (entries j))) then Err ResetRequired
      else Ok (set_entry j (unseen i), unseen i)
  end.

(** Live on screen and not a one-shot cue: what a cancellation takes back. *)
Definition cancellable (e : Entry) : bool :=
  bool_decide (phase e = PhaseLive)
  && match lifetime e with Some life => bool_decide (life_delivery life <> OneShot) | None => false end.

Definition cancel (j : EventJournal) (e : Entry) (p : Phase) (reason : CancelReason) (c : Changes)
  : result EventError staged :=
  let? c := if cancellable e then emit (limits j) c (Cancel (entry_key e) reason) else Ok c in
  Ok (set_entry j (e <| phase := p |> <| e_payload := None |>), c).

(** [for i in 0..self.entries.len()], with an early return; the loops add and remove no entry. *)
Fixpoint for_entries (body : EventJournal -> Entry -> Changes -> result EventError staged)
    (ks : list EventKey) (j : EventJournal) (c : Changes) : result EventError staged :=
  match ks with
  | [] => Ok (j, c)
  | k :: ks =>
      match entries j !! k with
      | None => for_entries body ks j c
      | Some e => let? st := body j e c in for_entries body ks st.1 st.2
      end
  end.

Definition due (t : ServerTick) (e : Entry) : bool :=
  bool_decide (e_decision e <> DecisionAccepted)
  && (bool_decide (phase e = PhaseLive) || bool_decide (phase e = PhaseReplayAbsent))
  && match lifetime e with
     | Some life => bool_decide (life_delivery life <> SimulationOwned) && bool_decide (expires life <= t)
     | None => false
     end.

Definition advance_entry (t : ServerTick) (j : EventJournal) (e : Entry) (c : Changes)
  : result EventError staged :=
  if due t e then cancel j e PhaseExpired CancelExpired c else Ok (j, c).

Definition advance_inner (t : ServerTick) (j : EventJournal) (c : Changes) : result EventError staged :=
  let? j := set_now j t in
  for_entries (advance_entry t) (entry_keys j) j c.

Definition advance (mem : allocator) (j : EventJournal) (t : ServerTick) :=
  transaction mem j (advance_inner t).

(** ** Reconciliation with a replay *)

Definition record_key (r : EventRecord) : EventKey := key (identity r).

(** The checks on one corrected event; [seen] are the earlier ones. *)
Definition check_record (j : EventJournal) (range : ReplayRange) (validate : P -> bool)
    (seen : list EventRecord) (r : EventRecord) : result EventError unit :=
  let? _u := valid_identity j (identity r) in
  if existsb (fun old => bool_decide (record_key old = record_key r)) seen then Err DuplicateKey
  else
    let t := origin_tick (identity r) in
    if bool_decide (t < first range) || bool_decide (last range < t) || bool_decide (expires_at r <= t)
       || bool_decide (lim_lifetime_ticks (limits j) < expires_at r - t)
    then Err InvalidIdentity
    else if bool_decide (lim_payload_bytes (limits j) < retained_bytes (payload r))
            || negb (validate (payload r))
    then Err InvalidPayload
    else Ok tt.

(** [entry.payload.as_ref() != Some(&event.payload)]. *)
Definition payload_changed (e : Entry) (r : EventRecord) : bool :=
  match e_payload e with Some old => negb (payload_eq old (payload r)) | None => true end.

(** The entry of an event that is on screen with this payload. *)
Definition live_entry (e : Entry) (p : P) : Entry :=
  e <| e_payload := Some p |> <| phase := PhaseLive |> <| delivered := true |>.

(** Showing a corrected event: its entry goes live and the presentation is told. *)
Definition present (j : EventJournal) (e : Entry) (r : EventRecord) (c : Changes)
  : result EventError staged :=
  let was_live := bool_decide (phase e = PhaseLive) in
  let create := negb was_live && (negb (delivered e) || bool_decide (delivery r <> OneShot)) in
  let changed := payload_changed e r in
  let committed := bool_decide (e_decision e = DecisionAccepted) in
  let j := set_entry j (live_entry e (payload r)) in
  let? _u := check_resident j in
  if create then let? c := emit (limits j) c (Create r committed (e_binding e)) in Ok (j, c)
  else if changed && (bool_decide (delivery r <> OneShot) || was_live)
  then let? c := emit (limits j) c (Update r) in Ok (j, c)
  else Ok (j, c).

(** Already over: a retired effect, or one whose replay absence was accepted. *)
Definition closed (e : Entry) : bool :=
  bool_decide (phase e = PhaseExpired) || bool_decide (phase e = PhaseRejected)
  || (bool_decide (phase e = PhaseReplayAbsent) && bool_decide (e_decision e = DecisionAccepted)).

Definition reconcile_record (t : ServerTick) (range : ReplayRange) (validate : P -> bool)
    (seen : list EventRecord) (r : EventRecord) (j : EventJournal) (c : Changes)
  : result EventError staged :=
  let? _u := check_record j range validate seen r in
  let? found := entry j (identity r) in
  let j := found.1 in
  let e := found.2 in
  let life := mkLifetime (expires_at r) (delivery r) in
  if match lifetime e with Some old => bool_decide (old <> life) | None => false end then Err Conflict
  else
    let e := e <| lifetime := Some life |> in
    let j := set_entry j e in
    if decide (action (record_key r) ∈ rejected_actions j)
    then cancel j (e <| e_decision := DecisionRejected |>) PhaseRejected CancelRejected c
    else if closed e then Ok (j, c)
    else if bool_decide (delivery r <> SimulationOwned) && bool_decide (expires_at r <= t)
            && bool_decide (phase e <> PhaseLive)
    then cancel j e PhaseExpired CancelExpired c
    else present j e r c.

Fixpoint reconcile_records (t : ServerTick) (range : ReplayRange) (validate : P -> bool)
    (seen todo : list EventRecord) (j : EventJournal) (c : Changes) : result EventError staged :=
  match todo with
  | [] => Ok (j, c)
  | r :: todo =>
      let? st := reconcile_record t range validate seen r j c in
      reconcile_records t range validate (seen ++ [r]) todo st.1 st.2
  end.

(** An unconfirmed live event of the replayed range that the replay did not produce. *)
Definition absent (range : ReplayRange) (corrected : list EventRecord) (e : Entry) : bool :=
  bool_decide (phase e = PhaseLive) && bool_decide (e_decision e <> DecisionAccepted)
  && bool_decide (first range <= origin_tick (e_identity e))
  && bool_decide (origin_tick (e_identity e) <= last range)
  && negb (existsb (fun r => bool_decide (record_key r = entry_key e)) corrected).

Definition drop_absent (range : ReplayRange) (corrected : list EventRecord) (j : EventJournal)
    (e : Entry) (c : Changes) : result EventError staged :=
  if absent range corrected e then cancel j e PhaseReplayAbsent CancelReplayAbsent c else Ok (j, c).

Definition reconcile_inner (t : ServerTick) (range : ReplayRange) (corrected : list EventRecord)
    (validate : P -> bool) (j : EventJournal) (c : Changes) : result EventError staged :=
  let? st := advance_inner t j c in
  if bool_decide (last range < first range) || bool_decide (t < last range) then Err InvalidIdentity
  else if decide (lim_history_ticks (limits st.1) <= t - first range) then Err OutsideHistory
  else if decide (lim_records (limits st.1) < len corrected) then Err Capacity
  else
    let? st := reconcile_records t range validate [] corrected st.1 st.2 in
    for_entries (drop_absent range corrected) (entry_keys st.1) st.1 st.2.

Definition reconcile (mem : allocator) (j : EventJournal) (t : ServerTick) (range : ReplayRange)
    (corrected : list EventRecord) (validate : P -> bool) :=
  transaction mem j (reconcile_inner t range corrected validate).

(** ** Authoritative outcomes *)

(** The write of a binding fence, retiring the event an older generation was bound to. *)
Definition bind_fence (j : EventJournal) (k : EventKey) (entity : EntityId) (c : Changes)
  : result EventError staged :=
  let fence (j : EventJournal) := j <| bindings := <[index entity := mkBinding entity k]> (bindings j) |> in
  match bindings j !! index entity with
  | Some old =>
      if decide (generation entity < generation (bound_entity old)) then Err Stale
      else if decide (generation entity = generation (bound_entity old) /\ bound_key old <> k)
      then Err Conflict
      else if decide (bound_key old <> k) then
        match entries j !! bound_key old with
        | Some e => let? st := cancel j e PhaseExpired CancelExpired c in Ok (fence st.1, st.2)
        | None => Ok (fence j, c)
        end
      else Ok (fence j, c)
  | None =>
      if decide (lim_bindings (limits j) <= N.of_nat (size (bindings j))) then Err ResetRequired
      else Ok (fence j, c)
  end.

Definition is_retired (p : Phase) : bool :=
  match p with PhaseReplayAbsent | PhaseExpired | PhaseRejected => true | _ => false end.

Definition bind (j : EventJournal) (e : Entry) (entity : EntityId) (c : Changes)
  : result EventError staged :=
  if decide (generation entity = 0) then Err InvalidIdentity
  else
    let k := entry_key e in
    match e_binding e with
    | Some old => if decide (old = entity) then Ok (j, c) else Err Conflict
    | None =>
        let? st := bind_fence j k entity c in
        let j := set_entry st.1 (e <| e_binding := Some entity |>) in
        let? c := emit (limits j) st.2 (if is_retired (phase e) then BindRetired k entity else Bind k entity) in
        Ok (j, c)
    end.

Definition resolve_inner (t : ServerTick) (i : EventIdentity) (outcome : Outcome) (j : EventJournal)
    (c : Changes) : result EventError staged :=
  let? st := advance_inner t j c in
  let? found := entry st.1 i in
  let j := found.1 in
  let e := found.2 in
  match outcome with
  | OutcomeRejected =>
      if decide (e_decision e = DecisionAccepted) then Err Conflict
      else cancel j (e <| e_decision := DecisionRejected |>) PhaseRejected CancelRejected st.2
  | OutcomeAccepted binding =>
      if decide (e_decision e = DecisionRejected \/ action (key i) ∈ rejected_actions j) then Err Conflict
      else
        let? st :=
          if decide (e_decision e <> DecisionAccepted)
          then let? c := emit (limits j) st.2 (Confirm (key i)) in
               Ok (set_entry j (e <| e_decision := DecisionAccepted |>), c)
          else Ok (j, st.2) in
        match binding with
        | Some entity => bind st.1 (e <| e_decision := DecisionAccepted |>) entity st.2
        | None => Ok st
        end
  end.

Definition resolve (mem : allocator) (j : EventJournal) (t : ServerTick) (i : EventIdentity)
    (outcome : Outcome) :=
  transaction mem j (resolve_inner t i outcome).

Definition reject_entry (a : ActionKey) (j : EventJournal) (e : Entry) (c : Changes)
  : result EventError staged :=
  if decide (action (entry_key e) = a)
  then cancel j (e <| e_decision := DecisionRejected |>) PhaseRejected CancelRejected c
  else Ok (j, c).

Definition reject_action_inner (t : ServerTick) (a : ActionKey) (j : EventJournal) (c : Changes)
  : result EventError staged :=
  let? st := advance_inner t j c in
  let j := st.1 in
  let? _u := valid_action j a in
  if decide (map_Exists (fun k e => action (entry_key e) = a /\ e_decision e = DecisionAccepted) (entries j))
  then Err Conflict
  else
    let? j :=
      if decide (a ∈ rejected_actions j) then Ok j
      else if decide (lim_action_fences (limits j) <= N.of_nat (size (rejected_actions j)))
      then Err ResetRequired
      else Ok (j <| rejected_actions := {[a]} ∪ rejected_actions j |>) in
    for_entries (reject_entry a) (entry_keys j) j st.2.

Definition reject_action (mem : allocator) (j : EventJournal) (t : ServerTick) (a : ActionKey) :=
  transaction mem j (reject_action_inner t a).

Definition expire_inner (t : ServerTick) (i : EventIdentity) (j : EventJournal) (c : Changes)
  : result EventError staged :=
  let? st := advance_inner t j c in
  let? found := entry st.1 i in
  if decide (phase found.2 <> PhaseRejected) then cancel found.1 found.2 PhaseExpired CancelExpired st.2
  else Ok (found.1, st.2).

Definition expire (mem : allocator) (j : EventJournal) (t : ServerTick) (i : EventIdentity) :=
  transaction mem j (expire_inner t i).

Definition retire_through (j : EventJournal) (sequence : CommandSeq)
  : EventJournal * result EventError unit :=
  if decide (sequence < retired j) then (j, Err Stale)
  else if decide (map_Exists (fun k e => ak_command (action (entry_key e)) <= sequence
                                         /\ phase e = PhaseLive) (entries j))
  then (j, Err LiveHistory)
  else (j <| entries := filter (fun ke => sequence < ak_command (action (entry_key ke.2))) (entries j) |>
          <| rejected_actions := filter (fun a => sequence < ak_command a) (rejected_actions j) |>
          <| retired := sequence |>, Ok tt).

Definition reset (mem : allocator) (j : EventJournal) (s : JournalScope)
  : EventJournal * result EventError (list Change) :=
  if scope_le s (scope j) then (j, Err Stale)
  else
    let out :=
      let? replacement := EventJournal_new mem s (limits j) in
      let? c := new_changes mem j in
      let? c := emit (limits j) c (Reset (scope j) s) in
      Ok (replacement, c) in
    match out with
    | Ok (replacement, c) => (replacement, Ok (values c))
    | Err e => (j, Err e)
    end.
End Journal.
Arguments EventRecord : clear implicits.
Arguments Change : clear implicits.
Arguments Changes : clear implicits.
Arguments Entry : clear implicits.
Arguments EventJournal : clear implicits.
