(* ===== verification/EventsProps.v ===== *)
(** * What the effect journal tells a presentation

    A presentation layer that applies the journal's changes one by one is modelled as a
    machine that refuses a change it could not carry out (showing an effect twice, updating or
    cancelling one it does not show, confirming or binding twice). The journal refines it: no
    change is ever refused, and what is on screen is what the journal holds live. *)

From Stdlib Require Import Strings.Byte.
From S2P Require Import Prelude Types Payload Events.
Local Open Scope N_scope.
Local Open Scope engine_scope.

Section Presentation.
Context {P : Type} `{!Payload P}.
Variables size_entry size_binding size_action size_change : N.

Abbreviation emit := (emit size_change).
Abbreviation check_resident := (check_resident size_entry size_binding size_action).

(** ** The presentation *)

Record Display := mkDisplay {
  d_scope : JournalScope;
  shown : gmap EventKey (EventRecord P);
  played : gset EventKey;
  confirmed : gset EventKey;
  bound : gmap EventKey EntityId;
}.
#[export] Instance eta_Display : Eta Display := fun r =>
  mkDisplay (d_scope r) (shown r) (played r) (confirmed r) (bound r).

Definition blank (s : JournalScope) : Display := mkDisplay s ∅ ∅ ∅ ∅.

(** Binding [k] to [entity] takes the slot over from older, no longer shown events only. *)
Definition may_bind (d : Display) (k : EventKey) (entity : EntityId) : Prop :=
  bound d !! k = None
  /\ map_Forall (fun k' old => index old = index entity ->
                   generation old < generation entity /\ shown d !! k' = None) (bound d).
#[export] Instance may_bind_dec d k entity : Decision (may_bind d k entity).
Proof. unfold may_bind. apply _. Defined.

Definition consume (d : Display) (ch : Change P) : option Display :=
  match ch with
  | Create r committed b =>
      let k := record_key r in
      if decide (committed = bool_decide (k ∈ confirmed d) /\ b = bound d !! k) then
        if decide (delivery r = OneShot)
        then if decide (k ∈ played d) then None else Some (d <| played := {[k]} ∪ played d |>)
        else if decide (shown d !! k = None) then Some (d <| shown := <[k := r]> (shown d) |>) else None
      else None
  | Update r =>
      let k := record_key r in
      if decide (delivery r = OneShot) then if decide (k ∈ played d) then Some d else None
      else
        match shown d !! k with
        | Some old =>
            if decide (identity old = identity r /\ expires_at old = expires_at r
                       /\ delivery old = delivery r)
            then Some (d <| shown := <[k := r]> (shown d) |>) else None
        | None => None
        end
  | Cancel k _ =>
      match shown d !! k with
      | Some _ => Some (d <| shown := delete k (shown d) |>)
      | None => None
      end
  | Confirm k =>
      if decide (k ∈ confirmed d) then None else Some (d <| confirmed := {[k]} ∪ confirmed d |>)
  | Bind k entity =>
      if decide (may_bind d k entity) then Some (d <| bound := <[k := entity]> (bound d) |>) else None
  | BindRetired k entity =>
      if decide (may_bind d k entity /\ shown d !! k = None)
      then Some (d <| bound := <[k := entity]> (bound d) |>) else None
  | Reset previous current => if decide (previous = d_scope d) then Some (blank current) else None
  end.

Fixpoint consume_all (d : Display) (chs : list (Change P)) : option Display :=
  match chs with
  | [] => Some d
  | ch :: chs => match consume d ch with Some d => consume_all d chs | None => None end
  end.

Lemma consume_all_app d a b :
  consume_all d (a ++ b) = match consume_all d a with Some d => consume_all d b | None => None end.
Proof. revert d. induction a as [| ch a IH]; intros d; [done |]. simpl. destruct (consume d ch); auto. Qed.

(** ** What relates a journal to a presentation *)

Definition oneshot (e : Entry P) : bool :=
  match lifetime e with Some life => bool_decide (life_delivery life = OneShot) | None => false end.

(** The record on screen is the entry's, its payload equal to the entry's along the
    comparisons that found no change. *)
Definition describes (e : Entry P) (r : EventRecord P) : Prop :=
  identity r = e_identity e /\ lifetime e = Some (mkLifetime (expires_at r) (delivery r))
  /\ exists p, e_payload e = Some p /\ rtc (fun a b => payload_eq a b = true) (payload r) p.

Definition shows (o : option (EventRecord P)) (e : Entry P) : Prop :=
  match o with
  | Some r => cancellable e = true /\ describes e r
  | None => cancellable e = false
  end.

Definition key_sim (d : Display) (retired_to : N) (k : EventKey) (o : option (Entry P)) : Prop :=
  match o with
  | Some e =>
      shows (shown d !! k) e
      /\ (k ∈ played d <-> delivered e = true /\ oneshot e = true)
      /\ (k ∈ confirmed d <-> e_decision e = DecisionAccepted)
      /\ bound d !! k = e_binding e
  | None =>
      shown d !! k = None
      /\ (k ∈ played d \/ k ∈ confirmed d \/ is_Some (bound d !! k) -> ak_command (action k) <= retired_to)
  end.

Record entry_wf (rejected : gset ActionKey) (s : JournalScope) (retired_to : N) (k : EventKey)
    (e : Entry P) : Prop := mk_entry_wf {
  wf_key : entry_key e = k;
  wf_scope : ak_connection (action k) = sc_connection s /\ ak_stream (action k) = sc_stream s;
  wf_fresh : retired_to < ak_command (action k);
  wf_payload : phase e = PhaseLive <-> is_Some (e_payload e);
  wf_delivered : phase e = PhaseLive -> delivered e = true;
  wf_lifetime : delivered e = true -> is_Some (lifetime e);
  wf_rejected : e_decision e = DecisionRejected <-> phase e = PhaseRejected;
  wf_bound : is_Some (e_binding e) -> e_decision e = DecisionAccepted;
  wf_fenced : action k ∈ rejected -> phase e <> PhaseLive /\ e_decision e <> DecisionAccepted;
}.

(** Each fence names the newest event bound to its slot; older ones are over. *)
Record fences_wf (j : EventJournal P) (d : Display) : Prop := mk_fences_wf {
  fw_named : forall i b, bindings j !! i = Some b ->
    index (bound_entity b) = i /\ bound d !! bound_key b = Some (bound_entity b);
  fw_newest : forall k old, bound d !! k = Some old -> exists b, bindings j !! index old = Some b
    /\ (b = mkBinding old k
        \/ (generation old < generation (bound_entity b)
            /\ forall e, entries j !! k = Some e -> phase e = PhaseExpired));
}.

Definition sizes_ok (j : EventJournal P) : Prop :=
  N.of_nat (size (entries j)) <= lim_records (limits j)
  /\ N.of_nat (size (bindings j)) <= lim_bindings (limits j)
  /\ N.of_nat (size (rejected_actions j)) <= lim_action_fences (limits j).

Record sim (rejected : gset ActionKey) (j : EventJournal P) (d : Display) : Prop := mk_sim {
  sim_scope : d_scope d = scope j;
  sim_keys : forall k, key_sim d (retired j) k (entries j !! k);
  sim_wf : forall k e, entries j !! k = Some e -> entry_wf rejected (scope j) (retired j) k e;
  sim_fences : fences_wf j d;
  sim_sizes : sizes_ok j;
}.

(** ** One entry at a time *)

(** The presentation changed at [k] alone. *)
Definition agree_off (k : EventKey) (d d' : Display) : Prop :=
  d_scope d' = d_scope d
  /\ forall x, x <> k -> shown d' !! x = shown d !! x /\ (x ∈ played d' <-> x ∈ played d)
       /\ (x ∈ confirmed d' <-> x ∈ confirmed d) /\ bound d' !! x = bound d !! x.

Lemma key_sim_agree d d' r k x o :
  agree_off k d d' -> x <> k -> key_sim d r x o -> key_sim d' r x o.
Proof.
  intros [_ H] Hx. destruct (H x Hx) as (H1 & H2 & H3 & H4).
  destruct o; simpl; rewrite H1, H2, H3, H4; done.
Qed.

(** Rewriting one entry and the presentation at its key, bindings apart. *)
Lemma sim_update ra j d d' e0 e :
  sim ra j d -> entries j !! entry_key e = Some e0 ->
  agree_off (entry_key e) d d' -> bound d' !! entry_key e = bound d !! entry_key e ->
  (is_Some (e_binding e0) -> phase e0 = PhaseExpired -> phase e = PhaseExpired) ->
  entry_wf ra (scope j) (retired j) (entry_key e) e ->
  key_sim d' (retired j) (entry_key e) (Some e) ->
  sim ra (set_entry j e) d'.
Proof.
  intros [S1 S2 S3 [F1 F2] S5] He0 Hoff Hb Hphase Hwf Hk. set (k := entry_key e) in *.
  assert (forall x, bound d' !! x = bound d !! x) as Hbound.
  { intros x. destruct (decide (x = k)) as [-> | Hne]; [done |]. by apply Hoff. }
  constructor; simpl.
  - rewrite <- S1. apply Hoff.
  - intros x. fold k. destruct (decide (x = k)) as [-> | Hne]; [by rewrite lookup_insert_eq |].
    rewrite lookup_insert_ne by done. by eapply key_sim_agree.
  - intros x e' [[<- <-] | [_ Hx]]%lookup_insert_Some; [done | by apply S3].
  - constructor; simpl.
    + intros i b Hi. rewrite Hbound. by apply F1.
    + intros x old. rewrite Hbound. intros Hx. destruct (F2 x old Hx) as (b & Hi & Hor).
      exists b. split; [done |]. destruct Hor as [? | [Hg Hover]]; [by left | right].
      split; [done |]. intros e' [[<- <-] | [_ He']]%lookup_insert_Some; [| by apply Hover].
      fold k in Hx. apply Hphase; [| by apply Hover].
      specialize (S2 k). rewrite He0 in S2. destruct S2 as (_ & _ & _ & <-). by eexists.
  - destruct S5 as (? & ? & ?). split_and!; simpl; try done.
    rewrite map_size_insert_Some by (by eexists). done.
Qed.

(** ** Refinement of staged steps *)

Definition changes_ok (l : Limits) (c : Changes P) : Prop :=
  len (values c) <= lim_transitions l
  /\ (values c <> [] -> changes_retained_bytes size_change c <= lim_transition_bytes l).

Record refines (ra : gset ActionKey) (j : EventJournal P) (c : Changes P) (j' : EventJournal P)
    (c' : Changes P) : Prop := mk_refines {
  rf_limits : limits j' = limits j;
  rf_scope : scope j' = scope j;
  rf_retired : retired j' = retired j;
  rf_rejected : rejected_actions j' = rejected_actions j;
  rf_dom : forall k, is_Some (entries j !! k) -> is_Some (entries j' !! k);
  rf_changes : changes_ok (limits j) c -> changes_ok (limits j) c';
  rf_sim : forall d, sim ra j d -> exists new d', values c' = values c ++ new
    /\ consume_all d new = Some d' /\ sim ra j' d';
}.

Lemma refines_refl ra j c : refines ra j c j c.
Proof. constructor; try done. intros d Hd. exists [], d. by rewrite app_nil_r. Qed.

Lemma refines_trans ra j c j1 c1 j2 c2 :
  refines ra j c j1 c1 -> refines ra j1 c1 j2 c2 -> refines ra j c j2 c2.
Proof.
  intros [A1 A2 A3 A4 A5 A6 A7] [B1 B2 B3 B4 B5 B6 B7]. constructor; try congruence; auto.
  - rewrite A1 in B6. auto.
  - intros d Hd. destruct (A7 d Hd) as (new & d1 & Hv & Hc & Hd1).
    destruct (B7 d1 Hd1) as (new' & d2 & Hv' & Hc' & Hd2). exists (new ++ new'), d2.
    rewrite consume_all_app, Hc, Hv', Hv, (assoc_L app). done.
Qed.

Lemma emit_ok l c ch c' :
  emit l c ch = Ok c' ->
  values c' = values c ++ [ch] /\ changes_ok l c'.
Proof.
  unfold Events.emit. intros H. destruct (_ || _) eqn:Hg; [done |]. injection H as <-.
  apply orb_false_iff in Hg as [Hn%bool_decide_eq_false Hb]. split; [done |]. unfold changes_ok. simpl.
  rewrite len_app, len_cons, len_nil. split; [lia |]. intros _.
  destruct (checked_add _ _ _) as [n |] eqn:Hadd; [| done].
  apply checked_add_Some in Hadd as [-> _]. apply bool_decide_eq_false in Hb.
  unfold changes_retained_bytes in *. simpl. lia.
Qed.

(** A step that rewrites one entry with nothing to say. *)
Lemma refines_silent ra j c e0 e :
  entries j !! entry_key e = Some e0 ->
  (is_Some (e_binding e0) -> phase e0 = PhaseExpired -> phase e = PhaseExpired) ->
  (forall d, sim ra j d -> entry_wf ra (scope j) (retired j) (entry_key e) e
     /\ key_sim d (retired j) (entry_key e) (Some e)) ->
  refines ra j c (set_entry j e) c.
Proof.
  intros He0 Hp Hd. constructor; try done.
  - intros k Hk. simpl. apply lookup_insert_is_Some'. by right.
  - intros d Hs. destruct (Hd d Hs) as [Hwf Hk]. exists [], d. rewrite app_nil_r. split_and!; try done.
    by eapply sim_update.
Qed.

(** A step that rewrites one entry and says one thing about it. *)
Lemma refines_emit ra j c e0 e ch c' :
  entries j !! entry_key e = Some e0 -> emit (limits j) c ch = Ok c' ->
  (is_Some (e_binding e0) -> phase e0 = PhaseExpired -> phase e = PhaseExpired) ->
  (forall d, sim ra j d -> exists d', consume d ch = Some d' /\ agree_off (entry_key e) d d'
     /\ bound d' !! entry_key e = bound d !! entry_key e
     /\ entry_wf ra (scope j) (retired j) (entry_key e) e
     /\ key_sim d' (retired j) (entry_key e) (Some e)) ->
  refines ra j c (set_entry j e) c'.
Proof.
  intros He0 [Hv Hc']%emit_ok Hp Hd. constructor; try done.
  - intros k Hk. simpl. apply lookup_insert_is_Some'. by right.
  - intros d Hs. destruct (Hd d Hs) as (d' & Hcons & Hoff & Hb & Hwf & Hk). exists [ch], d'.
    simpl. rewrite Hcons. split_and!; try done. by eapply sim_update.
Qed.

Lemma agree_off_refl k d : agree_off k d d.
Proof. split; [done |]. auto. Qed.

Lemma agree_off_shown k d m :
  (forall x, x <> k -> m !! x = shown d !! x) -> agree_off k d (d <| shown := m |>).
Proof. intros H. split; [done |]. intros x Hx. simpl. auto. Qed.

Lemma not_live_hidden (e : Entry P) : phase e <> PhaseLive -> cancellable e = false.
Proof. intros H. unfold cancellable. by rewrite bool_decide_eq_false_2. Qed.

Lemma sim_key ra j d k e : sim ra j d -> entries j !! k = Some e ->
  key_sim d (retired j) k (Some e) /\ entry_wf ra (scope j) (retired j) k e.
Proof. intros Hs He. split; [rewrite <- He; apply Hs | by eapply sim_wf]. Qed.

(** Taking an effect off screen, or closing one that is not on it. *)
Lemma cancel_refines ra j (e0 : Entry P) dec p reason c st :
  entries j !! entry_key e0 = Some e0 ->
  cancel size_change j (e0 <| e_decision := dec |>) p reason c = Ok st ->
  p <> PhaseLive -> (is_Some (e_binding e0) -> p = PhaseExpired) ->
  (dec = e_decision e0 \/ (dec = DecisionRejected /\ e_decision e0 <> DecisionAccepted)) ->
  (dec = DecisionRejected <-> p = PhaseRejected) ->
  refines ra j c st.1 st.2
  /\ st.1 = set_entry j (e0 <| e_decision := dec |> <| phase := p |> <| e_payload := None |>).
Proof.
  intros He0 H Hlive Hb Hdec Hrej. unfold cancel in H. cbn zeta in H.
  set (e := (e0 <| e_decision := dec |> <| phase := p |> <| e_payload := None |> : Entry P)).
  assert (forall d, sim ra j d -> entry_wf ra (scope j) (retired j) (entry_key e0) e) as Hwf.
  { intros d Hd. destruct (sim_wf _ _ _ Hd _ _ He0) as [W1 W2 W3 W4 W5 W6 W7 W8 W9].
    constructor; simpl; try done.
    - intros Hsome. specialize (W8 Hsome). destruct Hdec as [-> | [_ ?]]; [done | congruence].
    - intros Hf. destruct (W9 Hf) as [_ Ha]. split; [done |]. destruct Hdec as [-> | [-> _]]; done. }
  assert (forall d d', sim ra j d -> agree_off (entry_key e0) d d' ->
            played d' = played d -> confirmed d' = confirmed d -> bound d' = bound d ->
            shown d' !! entry_key e0 = None -> key_sim d' (retired j) (entry_key e0) (Some e)) as Hks.
  { intros d d' Hd _ Hp Hc Hbd Hs. destruct (sim_key _ _ _ _ _ Hd He0) as ((K1 & K2 & K3 & K4) & _).
    simpl. rewrite Hs, Hp, Hc, Hbd. split_and!; [by apply not_live_hidden | exact K2 | | exact K4].
    rewrite K3. destruct Hdec as [-> | [-> ?]]; [done |]. split; congruence. }
  destruct (cancellable (e0 <| e_decision := dec |>)) eqn:Hcan.
  - destruct (emit _ _ _) as [c1 |] eqn:Hemit; [| done]. injection H as <-. split; [| done].
    apply (refines_emit ra j c e0 e _ c1 He0 Hemit).
    { intros Hs _. simpl. by apply Hb. }
    intros d Hd. destruct (sim_key _ _ _ _ _ Hd He0) as ((K1 & K2 & K3 & K4) & _). simpl.
    change (entry_key e) with (entry_key e0). change (entry_key (set_field dec e0)) with (entry_key e0).
    destruct (shown d !! entry_key e0) as [r |] eqn:Hsh.
    2: { simpl in K1. change (cancellable (e0 <| e_decision := dec |>)) with (cancellable e0) in Hcan. congruence. }
    eexists. split; [done |].
    assert (agree_off (entry_key e0) d (d <| shown := delete (entry_key e0) (shown d) |>)) as Hoff.
    { apply agree_off_shown. intros x Hx. by rewrite lookup_delete_ne. }
    refine (conj Hoff (conj eq_refl (conj (Hwf d Hd) _))). apply (Hks d); try done. apply lookup_delete_eq.
  - injection H as <-. split; [| done]. apply (refines_silent ra j c e0 e He0).
    { intros Hs _. simpl. by apply Hb. }
    intros d Hd. split; [by apply (Hwf d) |]. apply (Hks d d); try done.
    destruct (sim_key _ _ _ _ _ Hd He0) as ((K1 & _) & _).
    change (cancellable (e0 <| e_decision := dec |>)) with (cancellable e0) in Hcan.
    destruct (shown d !! entry_key e0); [| done]. destruct K1 as [K1 _]. congruence.
Qed.

(** The common case: the decision stays. *)
Lemma cancel_refines' ra j (e : Entry P) p reason c st :
  entries j !! entry_key e = Some e -> cancel size_change j e p reason c = Ok st ->
  p <> PhaseLive -> (is_Some (e_binding e) -> p = PhaseExpired) ->
  (e_decision e = DecisionRejected <-> p = PhaseRejected) ->
  refines ra j c st.1 st.2 /\ st.1 = set_entry j (e <| phase := p |> <| e_payload := None |>).
Proof.
  intros He H Hl Hb Hr.
  apply (cancel_refines ra j e (e_decision e) p reason c st); try done; by left.
Qed.

(** ** Loops over the entries *)

Lemma for_entries_ind (Q : list EventKey -> EventJournal P -> Changes P -> Prop) body ks j c st :
  (forall k ks j c e st, Q (k :: ks) j c -> entries j !! k = Some e -> body j e c = Ok st ->
     Q ks st.1 st.2) ->
  (forall k ks j c, Q (k :: ks) j c -> entries j !! k = None -> Q ks j c) ->
  Q ks j c -> for_entries body ks j c = Ok st -> Q [] st.1 st.2.
Proof.
  intros Hb Hn. revert j c. induction ks as [| k ks IH]; intros j c HQ H; simpl in H.
  { by simplify_eq. }
  destruct (entries j !! k) as [e |] eqn:He; [| eauto].
  destruct (body j e c) as [st1 |] eqn:H1; [| done]. eauto.
Qed.

(** A loop whose body refines from any consistent state refines. *)
Lemma for_entries_refines ra body ks j c st :
  (forall j c e st, (exists d, sim ra j d) -> entries j !! entry_key e = Some e ->
     body j e c = Ok st -> refines ra j c st.1 st.2) ->
  (exists d, sim ra j d) -> for_entries body ks j c = Ok st -> refines ra j c st.1 st.2.
Proof.
  intros Hb Hd H.
  assert (refines ra j c st.1 st.2 /\ exists d, sim ra st.1 d) as [? _]; [| done].
  refine (for_entries_ind (fun _ j1 c1 => refines ra j c j1 c1 /\ exists d, sim ra j1 d) body ks j c st
            _ _ _ H); [| auto | split; [apply refines_refl | done]].
  intros k ks' j1 c1 e st1 [Href [d1 Hd1]] He Hbody.
  assert (entry_key e = k) as <- by (by eapply wf_key, sim_wf).
  pose proof (Hb j1 c1 e st1 (ex_intro _ d1 Hd1) He Hbody) as Hstep.
  split; [by eapply refines_trans |]. destruct (rf_sim _ _ _ _ _ Hstep d1 Hd1) as (? & d2 & _ & _ & ?). eauto.
Qed.

(** ** The operations *)

(** Times and capacities do not matter to the relation. *)
Lemma sim_ext ra j j' d :
  scope j' = scope j -> retired j' = retired j -> limits j' = limits j -> entries j' = entries j ->
  bindings j' = bindings j ->
  (rejected_actions j' = rejected_actions j
   \/ N.of_nat (size (rejected_actions j')) <= lim_action_fences (limits j')) ->
  sim ra j d -> sim ra j' d.
Proof.
  intros H1 H2 H3 H4 H5 H6 [S1 S2 S3 [F1 F2] S5]. unfold sizes_ok in *.
  constructor; rewrite ?H1, ?H2, ?H4; try done.
  - constructor; rewrite ?H5, ?H4; done.
  - unfold sizes_ok. rewrite H3 in H6 |- *. rewrite H4, H5. destruct S5 as (? & ? & ?).
    split_and!; try done. by destruct H6 as [-> |].
Qed.

Lemma advance_entry_refines ra t j c e st :
  (exists d, sim ra j d) -> entries j !! entry_key e = Some e ->
  advance_entry size_change t j e c = Ok st -> refines ra j c st.1 st.2.
Proof.
  intros [d Hd] He H. unfold advance_entry in H. destruct (due t e) eqn:Hdue.
  2: { injection H as <-. apply refines_refl. }
  unfold due in Hdue. rewrite !andb_true_iff, orb_true_iff, !bool_decide_eq_true in Hdue.
  destruct Hdue as [[Hna Hph] _]. destruct (sim_wf _ _ _ Hd _ _ He) as [W1 W2 W3 W4 W5 W6 W7 W8 W9].
  apply (cancel_refines' ra j e PhaseExpired CancelExpired c st) in H as [H _]; try done.
  rewrite W7. destruct Hph as [-> | ->]; done.
Qed.

Lemma advance_inner_refines ra t j c st :
  (exists d, sim ra j d) -> advance_inner size_change t j c = Ok st -> refines ra j c st.1 st.2.
Proof.
  intros [d Hd] H. unfold advance_inner, set_now in H. destruct (decide _) as [| Hnow]; [done |].
  eapply (refines_trans ra j c (j <| now := t |>) c).
  - constructor; try done. intros d' Hd'. exists [], d'. rewrite app_nil_r. split_and!; try done.
    apply (sim_ext ra j); auto.
  - eapply for_entries_refines; [| | exact H].
    + intros. by eapply advance_entry_refines.
    + exists d. apply (sim_ext ra j); auto.
Qed.

Lemma refines_sim ra j c j' c' :
  (exists d, sim ra j d) -> refines ra j c j' c' -> exists d, sim ra j' d.
Proof. intros [d Hd] Hr. destruct (rf_sim _ _ _ _ _ Hr d Hd) as (? & d' & _ & _ & ?). eauto. Qed.

Lemma valid_identity_ok j i :
  valid_identity (P:=P) j i = Ok tt ->
  ak_connection (action (key i)) = sc_connection (scope j)
  /\ ak_stream (action (key i)) = sc_stream (scope j)
  /\ retired j < ak_command (action (key i))
  /\ origin_tick i <= now j
  /\ forall e, entries j !! key i = Some e -> e_identity e = i.
Proof.
  unfold valid_identity, valid_action. intros H.
  destruct (decide _) as [| Hs] in H; [done |]. destruct (decide _) as [| Hz] in H; [done |].
  destruct (decide _) as [| Hr] in H; [done |]. destruct (decide _) as [| Hk] in H; [done |].
  split_and!; try lia.
  intros e He. rewrite He in H. destruct (decide _) in H; [done |]. by apply dec_stable.
Qed.

Lemma valid_identity_tt j i u : valid_identity (P:=P) j i = Ok u -> valid_identity j i = Ok tt.
Proof. by destruct u. Qed.

(** Looking an identity up, with a fresh entry when there is none. *)
Lemma entry_refines ra j c i j' e :
  (exists d, sim ra j d) -> entry (P:=P) j i = Ok (j', e) ->
  refines ra j c j' c /\ e_identity e = i /\ entries j' !! entry_key e = Some e
  /\ now j' = now j /\ (entries j' = entries j \/ e = unseen i).
Proof.
  intros [d0 Hd0] H. unfold entry in H. destruct (valid_identity j i) as [u |] eqn:Hv; [| done].
  apply valid_identity_tt, valid_identity_ok in Hv as (V1 & V2 & V3 & _ & V4).
  destruct (entries j !! key i) as [e1 |] eqn:He.
  - simplify_eq. pose proof (V4 e eq_refl) as Hi. unfold entry_key. rewrite Hi.
    split_and!; try done; [apply refines_refl | by left].
  - destruct (decide _) as [| Hroom]; [done |]. simplify_eq.
    split; [| split_and!; try done; [apply lookup_insert_eq | by right]].
    constructor; try done.
    + intros k Hk. simpl. apply lookup_insert_is_Some'. by right.
    + intros d [S1 S2 S3 [F1 F2] S5]. exists [], d. rewrite app_nil_r. split_and!; try done.
      assert (key_sim d (retired j) (key i) None) as Hk by (rewrite <- He; apply S2).
      destruct Hk as [Hsh Hknown].
      constructor; simpl; try done.
      * intros k. destruct (decide (k = key i)) as [-> | Hne].
        2: { rewrite lookup_insert_ne by done. apply S2. }
        unfold entry_key. simpl. rewrite lookup_insert_eq. simpl. rewrite Hsh. split_and!; try done.
        -- split; [| by intros [? _]]. intros Hin. specialize (Hknown (or_introl Hin)). lia.
        -- split; [| done]. intros Hin. specialize (Hknown (or_intror (or_introl Hin))). lia.
        -- destruct (bound d !! key i) eqn:Hb; [| done].
           specialize (Hknown (or_intror (or_intror (ex_intro _ _ eq_refl)))). lia.
      * intros k e' [[<- <-] | [_ Hk]]%lookup_insert_Some; [| by apply S3].
        constructor; simpl; done.
      * constructor; simpl; [done |]. intros k old Hk. destruct (F2 k old Hk) as (b & Hb & Hor).
        exists b. split; [done |]. destruct Hor as [? | [Hg Hover]]; [by left | right].
        split; [done |]. intros e' [[<- <-] | [_ He']]%lookup_insert_Some; [| by apply Hover].
        specialize (Hknown (or_intror (or_intror (ex_intro _ _ Hk)))). simpl in *. lia.
      * destruct S5 as (? & ? & ?). split_and!; simpl; try done.
        rewrite map_size_insert_None by done. lia.
Qed.

Lemma live_entry_wf ra s t k (e : Entry P) p :
  entry_wf ra s t k e -> is_Some (lifetime e) -> closed e = false -> action k ∉ ra ->
  entry_wf ra s t k (live_entry e p).
Proof.
  intros [W1 W2 W3 W4 W5 W6 W7 W8 W9] Hlife Hcl Hra. unfold closed in Hcl.
  apply orb_false_iff in Hcl as [[_ Hrej%bool_decide_eq_false]%orb_false_iff _].
  constructor; simpl; try done. rewrite W7. split; done.
Qed.

Lemma shows_live e r0 (r : EventRecord P) :
  shows (Some r0) e -> identity r = e_identity e ->
  lifetime e = Some (mkLifetime (expires_at r) (delivery r)) ->
  identity r0 = identity r /\ expires_at r0 = expires_at r /\ delivery r0 = delivery r.
Proof. intros (_ & H1 & H2 & _) H3 H4. rewrite H4 in H2. injection H2 as -> ->. split_and!; congruence. Qed.

Lemma cancellable_live (e : Entry P) p life :
  lifetime e = Some life ->
  cancellable (live_entry e p) = bool_decide (life_delivery life <> OneShot).
Proof. intros H. unfold cancellable. simpl. by rewrite H. Qed.

Lemma oneshot_of (e : Entry P) life : lifetime e = Some life ->
  oneshot e = bool_decide (life_delivery life = OneShot).
Proof. intros H. unfold oneshot. by rewrite H. Qed.

Lemma hidden_when (e : Entry P) o : shows o e -> cancellable e = false -> o = None.
Proof. destruct o; [| done]. intros [H _] ?. congruence. Qed.

Section Present.
Context (ra : gset ActionKey) (j : EventJournal P) (e : Entry P) (r : EventRecord P) (c : Changes P).
Hypothesis stored : entries j !! entry_key e = Some e.
Hypothesis same_identity : identity r = e_identity e.
Hypothesis same_life : lifetime e = Some (mkLifetime (expires_at r) (delivery r)).
Hypothesis open : closed e = false.
Hypothesis permitted : action (entry_key e) ∉ ra.

Lemma present_key : record_key r = entry_key e.
Proof. unfold record_key, entry_key. by rewrite same_identity. Qed.

Lemma present_not_expired : is_Some (e_binding e) -> phase e = PhaseExpired ->
  phase (live_entry e (payload r)) = PhaseExpired.
Proof. intros _ Hx. unfold closed in open. rewrite Hx in open. discriminate. Qed.

Lemma present_wf d : sim ra j d ->
  entry_wf ra (scope j) (retired j) (entry_key e) (live_entry e (payload r)).
Proof. intros Hd. apply live_entry_wf; try done. by eapply sim_wf. Qed.

(** Nothing to tell: the payload compares equal, or a cue already played came back. *)
Lemma present_silent :
  (phase e = PhaseLive \/ (delivered e = true /\ delivery r = OneShot)) ->
  payload_changed e r && (bool_decide (delivery r <> OneShot) || bool_decide (phase e = PhaseLive)) = false ->
  refines ra j c (set_entry j (live_entry e (payload r))) c.
Proof.
  intros Hlive Hch. apply (refines_silent ra j c e (live_entry e (payload r)) stored present_not_expired).
  intros d Hd. split; [by eapply present_wf |].
  change (entry_key (live_entry e (payload r))) with (entry_key e).
  destruct (sim_key _ _ _ _ _ Hd stored) as ((K1 & K2 & K3 & K4) & W).
  assert (delivered e = true) as Hdel by (destruct Hlive as [Hl | [? _]]; [by apply W | done]).
  simpl. split_and!; [| | done | done].
  - destruct (decide (delivery r = OneShot)) as [Hone | Hone].
    + rewrite (hidden_when e _ K1) by
        (unfold cancellable; rewrite same_life; simpl; rewrite Hone; apply andb_false_r).
      simpl. rewrite (cancellable_live e _ _ same_life). by rewrite bool_decide_eq_false_2 by naive_solver.
    + destruct Hlive as [Hl | [_ ?]]; [| done].
      rewrite (bool_decide_eq_true_2 (delivery r <> OneShot)), andb_true_r in Hch by done.
      assert (cancellable e = true) as Hcan.
      { unfold cancellable. rewrite same_life, Hl. simpl. by rewrite bool_decide_eq_true_2. }
      destruct (shown d !! entry_key e) as [r0 |]; [| simpl in K1; congruence].
      destruct K1 as (_ & D1 & D2 & p & Hp & Hchain). split.
      { rewrite (cancellable_live e _ _ same_life). by rewrite bool_decide_eq_true_2. }
      split_and!; [done | done |]. exists (payload r). split; [done |]. eapply rtc_r; [exact Hchain |].
      unfold payload_changed in Hch. rewrite Hp in Hch. by apply negb_false_iff.
  - rewrite K2, Hdel. done.
Qed.

(** An update reaches only what is on screen, or a cue that was played. *)
Lemma present_update c' :
  phase e = PhaseLive -> emit (limits j) c (Update r) = Ok c' ->
  refines ra j c (set_entry j (live_entry e (payload r))) c'.
Proof.
  intros Hl Hemit. apply (refines_emit ra j c e (live_entry e (payload r)) _ c' stored Hemit present_not_expired).
  intros d Hd. destruct (sim_key _ _ _ _ _ Hd stored) as ((K1 & K2 & K3 & K4) & W).
  assert (delivered e = true) as Hdel by (by apply W).
  change (entry_key (live_entry e (payload r))) with (entry_key e).
  unfold consume. rewrite present_key.
  destruct (decide (delivery r = OneShot)) as [Hone | Hone].
  - assert (oneshot e = true) as Hos by (rewrite (oneshot_of _ _ same_life); by apply bool_decide_eq_true_2).
    destruct (decide (entry_key e ∈ played d)) as [_ | Hn]; [| by destruct Hn; apply K2].
    exists d. refine (conj eq_refl (conj (agree_off_refl _ _) (conj eq_refl (conj (present_wf d Hd) _)))).
    simpl. split_and!; [| | done | done].
    + rewrite (hidden_when e _ K1) by
        (unfold cancellable; rewrite same_life; simpl; rewrite Hone; apply andb_false_r).
      simpl. rewrite (cancellable_live e _ _ same_life). by rewrite bool_decide_eq_false_2 by naive_solver.
    + rewrite K2, Hdel. done.
  - assert (cancellable e = true) as Hcan.
    { unfold cancellable. rewrite same_life, Hl. simpl. by rewrite bool_decide_eq_true_2. }
    destruct (shown d !! entry_key e) as [r0 |]; [| simpl in K1; congruence].
    destruct (decide _) as [_ | Hn]; [| by destruct Hn; eapply shows_live].
    eexists. split; [done |]. split; [apply agree_off_shown; intros x Hx; by rewrite lookup_insert_ne |].
    split; [done |]. split; [by eapply present_wf |].
    simpl. rewrite lookup_insert_eq. split_and!; [| | done | done].
    + split; [rewrite (cancellable_live e _ _ same_life); by apply bool_decide_eq_true_2 |].
      split_and!; [done | done |]. exists (payload r). split; [done | apply rtc_refl].
    + rewrite K2, Hdel. done.
Qed.

(** An effect is shown only when it is not on screen, and a cue only once. *)
Lemma present_create c' :
  phase e <> PhaseLive -> (delivered e = false \/ delivery r <> OneShot) ->
  emit (limits j) c (Create r (bool_decide (e_decision e = DecisionAccepted)) (e_binding e)) = Ok c' ->
  refines ra j c (set_entry j (live_entry e (payload r))) c'.
Proof.
  intros Hl Hor Hemit. apply (refines_emit ra j c e (live_entry e (payload r)) _ c' stored Hemit present_not_expired).
  intros d Hd. destruct (sim_key _ _ _ _ _ Hd stored) as ((K1 & K2 & K3 & K4) & W).
  pose proof (hidden_when e _ K1 (not_live_hidden e Hl)) as Hsh.
  change (entry_key (live_entry e (payload r))) with (entry_key e).
  unfold consume. rewrite present_key.
  destruct (decide _) as [_ | Hn].
  2: { destruct Hn. split; [| done]. by apply bool_decide_ext. }
  destruct (decide (delivery r = OneShot)) as [Hone | Hone].
  - destruct Hor as [Hdel | ?]; [| done].
    destruct (decide (entry_key e ∈ played d)) as [Hin | Hin]; [apply K2 in Hin as [? _]; congruence |].
    eexists. split; [done |]. split.
    { split; [done |]. intros x Hx. simpl. split_and!; try done. rewrite elem_of_union, elem_of_singleton. naive_solver. }
    split; [done |]. split; [by eapply present_wf |]. simpl. split_and!; [| | done | done].
    + rewrite Hsh. simpl. rewrite (cancellable_live e _ _ same_life). by rewrite bool_decide_eq_false_2 by naive_solver.
    + rewrite (oneshot_of (live_entry e (payload r)) _ same_life), Hone, bool_decide_eq_true_2 by done.
      set_solver.
  - destruct (decide _) as [_ | Hn]; [| done].
    eexists. split; [done |]. split; [apply agree_off_shown; intros x Hx; by rewrite lookup_insert_ne |].
    split; [done |]. split; [by eapply present_wf |].
    simpl. rewrite lookup_insert_eq. split_and!; [| | done | done].
    + split; [rewrite (cancellable_live e _ _ same_life); by apply bool_decide_eq_true_2 |].
      split_and!; [done | done |]. exists (payload r). split; [done | apply rtc_refl].
    + rewrite K2. rewrite (oneshot_of (live_entry e (payload r)) _ same_life), (oneshot_of e _ same_life).
      rewrite bool_decide_eq_false_2 by done. naive_solver.
Qed.

Lemma present_refines st :
  present size_entry size_binding size_action size_change j e r c = Ok st -> refines ra j c st.1 st.2.
Proof.
  unfold present. intros H. destruct (check_resident _) as [u |]; [| done].
  destruct (bool_decide (phase e = PhaseLive)) eqn:Hl; simpl in H.
  - apply bool_decide_eq_true in Hl. rewrite orb_true_r, andb_true_r in H.
    destruct (payload_changed e r) eqn:Hch.
    + destruct (emit _ _ _) as [c1 |] eqn:Hemit; [| done]. injection H as <-. by apply present_update.
    + injection H as <-. apply present_silent; [by left | by rewrite Hch].
  - apply bool_decide_eq_false in Hl.
    destruct (negb (delivered e) || bool_decide (delivery r <> OneShot)) eqn:Hcr.
    + destruct (emit _ _ _) as [c1 |] eqn:Hemit; [| done]. injection H as <-.
      apply present_create; try done. apply orb_true_iff in Hcr as [?%negb_true_iff | ?%bool_decide_eq_true]; auto.
    + apply orb_false_iff in Hcr as [Hdel%negb_false_iff Hone]. rewrite Hone in H. simpl in H.
      rewrite andb_false_r in H. injection H as <-. apply present_silent.
      * right. split; [done |]. by apply bool_decide_eq_false, dec_stable in Hone.
      * rewrite Hone, (bool_decide_eq_false_2 (phase e = PhaseLive)) by done. apply andb_false_r.
Qed.
End Present.

(** Recording the lifetime of an identity says nothing. *)
Lemma lifetime_refines ra j c (e : Entry P) life :
  entries j !! entry_key e = Some e ->
  match lifetime e with Some old => bool_decide (old <> life) | None => false end = false ->
  refines ra j c (set_entry j (e <| lifetime := Some life |>)) c.
Proof.
  intros He Hlife. set (e1 := (e <| lifetime := Some life |> : Entry P)).
  apply (refines_silent ra j c e e1 He); [done |].
  change (entry_key e1) with (entry_key e). intros d Hd. destruct (sim_key _ _ _ _ _ Hd He) as (K & W).
  destruct (lifetime e) as [old |] eqn:Hl.
  { apply bool_decide_eq_false, dec_stable in Hlife. subst old.
    assert (e1 = e) as -> by (unfold e1; destruct e; simpl in *; by rewrite <- Hl). done. }
  destruct W as [W1 W2 W3 W4 W5 W6 W7 W8 W9]. destruct K as (K1 & K2 & K3 & K4).
  assert (delivered e = false) as Hdel.
  { destruct (delivered e); [| done]. destruct W6 as [? ?]; [done |]. congruence. }
  assert (phase e <> PhaseLive) as Hnl by (intros Hx; specialize (W5 Hx); congruence).
  split; [constructor; simpl; done |]. simpl. rewrite (hidden_when e _ K1 (not_live_hidden e Hnl)).
  split_and!; [by apply not_live_hidden | rewrite K2, Hdel; naive_solver | done | done].
Qed.

Lemma reconcile_record_refines t range validate seen r j c st :
  (exists d, sim (rejected_actions j) j d) ->
  reconcile_record size_entry size_binding size_action size_change t range validate seen r j c = Ok st ->
  refines (rejected_actions j) j c st.1 st.2.
Proof.
  intros Hd H. unfold reconcile_record in H. set (ra := rejected_actions j) in *.
  destruct (check_record _ _ _ _ _) as [u |]; [| done].
  destruct (entry j (identity r)) as [[j1 e] |] eqn:Hent; [| done]. cbn [fst snd] in H.
  destruct (entry_refines ra j c _ _ _ Hd Hent) as (R1 & Hid & Hst & _).
  destruct (match lifetime e with Some old => _ | None => false end) eqn:Hlife; [done |].
  set (e1 := (e <| lifetime := Some (mkLifetime (expires_at r) (delivery r)) |> : Entry P)) in *.
  pose proof (lifetime_refines ra j1 c e _ Hst Hlife) as R2. fold e1 in R2.
  pose proof (refines_trans _ _ _ _ _ _ _ R1 R2) as R. clear R1 R2.
  set (j2 := set_entry j1 e1) in *. pose proof (refines_sim _ _ _ _ _ Hd R) as Hd2.
  assert (entries j2 !! entry_key e1 = Some e1) as Hst2 by apply lookup_insert_eq.
  assert (record_key r = entry_key e1) as Hkey by (unfold record_key, entry_key; simpl; by rewrite Hid).
  apply (refines_trans _ _ _ _ _ _ _ R). clear R.
  assert (rejected_actions j2 = ra) as Hra.
  { unfold j2. simpl. unfold entry in Hent. inv_op Hent; done. }
  destruct Hd2 as [d2 Hd2]. destruct (sim_wf _ _ _ Hd2 _ _ Hst2) as [W1 W2 W3 W4 W5 W6 W7 W8 W9].
  rewrite Hra, Hkey in H.
  destruct (decide (action (entry_key e1) ∈ ra)) as [Hin | Hin].
  { destruct (W9 Hin) as [Hnl Hna].
    eapply (cancel_refines ra j2 e1 DecisionRejected PhaseRejected) in H as [? _]; try done; [| by right].
    intros Hs. by destruct (W8 Hs). }
  destruct (closed e1) eqn:Hcl; [injection H as <-; apply refines_refl |].
  destruct (_ && _ && _) eqn:Hexp.
  { eapply (cancel_refines' ra j2 e1 PhaseExpired) in H as [? _]; try done.
    rewrite W7. split; [| done]. intros Hx. unfold closed in Hcl. rewrite Hx in Hcl. discriminate. }
  eapply present_refines; done.
Qed.

Lemma refines_rejected ra j c st :
  ra = rejected_actions j -> refines ra j c st.1 st.2 -> rejected_actions st.1 = ra.
Proof. intros -> H. apply H. Qed.

Lemma reconcile_records_refines t range validate todo seen j c st :
  (exists d, sim (rejected_actions j) j d) ->
  reconcile_records size_entry size_binding size_action size_change t range validate seen todo j c = Ok st ->
  refines (rejected_actions j) j c st.1 st.2.
Proof.
  revert seen j c. induction todo as [| r todo IH]; intros seen j c Hd H; simpl in H.
  { injection H as <-. apply refines_refl. }
  destruct (reconcile_record _ _ _ _ _ _ _ _ _ _ _) as [st1 |] eqn:H1; [| done].
  pose proof (reconcile_record_refines _ _ _ _ _ _ _ _ Hd H1) as R1.
  pose proof (rf_rejected _ _ _ _ _ R1) as Hra. pose proof (refines_sim _ _ _ _ _ Hd R1) as Hd1.
  rewrite <- Hra in Hd1. apply IH in H; [| done]. rewrite Hra in H. by eapply refines_trans.
Qed.

Lemma drop_absent_refines ra range corrected j c e st :
  (exists d, sim ra j d) -> entries j !! entry_key e = Some e ->
  drop_absent size_change range corrected j e c = Ok st -> refines ra j c st.1 st.2.
Proof.
  intros [d Hd] He H. unfold drop_absent in H. destruct (absent range corrected e) eqn:Hab.
  2: { injection H as <-. apply refines_refl. }
  unfold absent in Hab. rewrite !andb_true_iff, !bool_decide_eq_true in Hab.
  destruct Hab as [[[[Hl Hna] _] _] _].
  destruct (sim_wf _ _ _ Hd _ _ He) as [W1 W2 W3 W4 W5 W6 W7 W8 W9].
  apply (cancel_refines' ra j e PhaseReplayAbsent CancelReplayAbsent c st) in H as [H _]; try done.
  - intros Hs. by destruct (W8 Hs).
  - rewrite W7, Hl. done.
Qed.

Lemma reconcile_inner_refines t range corrected validate j c st :
  (exists d, sim (rejected_actions j) j d) ->
  reconcile_inner size_entry size_binding size_action size_change t range corrected validate j c = Ok st ->
  refines (rejected_actions j) j c st.1 st.2.
Proof.
  intros Hd H. unfold reconcile_inner in H.
  destruct (advance_inner _ _ _ _) as [st1 |] eqn:H1; [| done].
  pose proof (advance_inner_refines _ _ _ _ _ Hd H1) as R1.
  pose proof (rf_rejected _ _ _ _ _ R1) as Hra. pose proof (refines_sim _ _ _ _ _ Hd R1) as Hd1.
  destruct (_ || _); [done |]. destruct (decide _); [done |]. destruct (decide _); [done |].
  destruct (reconcile_records _ _ _ _ _ _ _ _ _ _ _) as [st2 |] eqn:H2; [| done].
  rewrite <- Hra in Hd1. pose proof (reconcile_records_refines _ _ _ _ _ _ _ _ Hd1 H2) as R2.
  rewrite Hra in R2, Hd1. pose proof (refines_sim _ _ _ _ _ Hd1 R2) as Hd2.
  eapply refines_trans; [exact R1 |]. eapply refines_trans; [exact R2 |].
  eapply for_entries_refines; [| exact Hd2 | exact H]. intros. by eapply drop_absent_refines.
Qed.

(** ** Bindings *)

(** Writing the fence of a slot and the binding of an entry. *)
Definition with_binding (j : EventJournal P) (e : Entry P) (entity : EntityId) : EventJournal P :=
  set_entry (j <| bindings := <[index entity := mkBinding entity (entry_key e)]> (bindings j) |>)
    (e <| e_binding := Some entity |>).

(** The slot is free, or held by an older event that is over. *)
Definition slot_open (j : EventJournal P) (entity : EntityId) : Prop :=
  (bindings j !! index entity = None -> N.of_nat (size (bindings j)) < lim_bindings (limits j))
  /\ forall old, bindings j !! index entity = Some old ->
       generation (bound_entity old) < generation entity
       /\ forall e, entries j !! bound_key old = Some e -> phase e = PhaseExpired.

Section Binding.
Context (ra : gset ActionKey) (j : EventJournal P) (d : Display) (e : Entry P) (entity : EntityId).
Hypothesis related : sim ra j d.
Hypothesis stored_entry : entries j !! entry_key e = Some e.
Hypothesis unbound : e_binding e = None.
Hypothesis accepted : e_decision e = DecisionAccepted.
Hypothesis free : slot_open j entity.

Lemma bound_hidden k old : bound d !! k = Some old ->
  (forall e, entries j !! k = Some e -> phase e = PhaseExpired) -> shown d !! k = None.
Proof.
  intros _ Hx. pose proof (sim_keys _ _ _ related k) as Hk.
  destruct (entries j !! k) as [e' |] eqn:He'; [| by destruct Hk].
  destruct Hk as (K1 & _). eapply hidden_when; [exact K1 |]. apply not_live_hidden. by rewrite (Hx e').
Qed.

(** Whoever was bound to the slot before is older and over. *)
Lemma slot_history k old : bound d !! k = Some old -> index old = index entity ->
  generation old < generation entity /\ forall e, entries j !! k = Some e -> phase e = PhaseExpired.
Proof.
  intros Hk Hi. destruct (fw_newest _ _ (sim_fences _ _ _ related) k old Hk) as (b & Hb & Hor).
  rewrite Hi in Hb. destruct free as [_ Hfree]. destruct (Hfree b Hb) as [Hg Hover].
  destruct Hor as [-> | [Hg' Hover']]; [done |]. split; [lia | done].
Qed.

Lemma binding_may : may_bind d (entry_key e) entity.
Proof.
  split.
  - destruct (sim_key _ _ _ _ _ related stored_entry) as ((_ & _ & _ & ->) & _). done.
  - intros k old Hk Hi. destruct (slot_history k old Hk Hi) as [Hg Hover].
    split; [done |]. by eapply bound_hidden.
Qed.

Lemma binding_unbound : bound d !! entry_key e = None.
Proof. apply binding_may. Qed.

Lemma binding_fences :
  fences_wf (with_binding j e entity) (d <| bound := <[entry_key e := entity]> (bound d) |>).
Proof.
  pose proof (sim_fences _ _ _ related) as [F1 F2]. pose proof binding_unbound as Hnone.
  constructor; simpl.
  - intros i b [[<- <-] | [Hi Hb]]%lookup_insert_Some; simpl.
    + by rewrite lookup_insert_eq.
    + destruct (F1 i b Hb) as [? Hbd]. split; [done |]. rewrite lookup_insert_ne; [done |]. congruence.
  - intros k old [[<- <-] | [Hne Hk]]%lookup_insert_Some.
    { exists (mkBinding entity (entry_key e)). rewrite lookup_insert_eq. auto. }
    assert (forall e', (<[entry_key e := e <| e_binding := Some entity |>]> (entries j)) !! k = Some e' ->
              entries j !! k = Some e') as Hent by (intros e'; by rewrite lookup_insert_ne).
    destruct (decide (index old = index entity)) as [Hi | Hi].
    + destruct (slot_history k old Hk Hi) as [Hg Hover]. exists (mkBinding entity (entry_key e)).
      rewrite Hi, lookup_insert_eq. split; [done |]. right. split; [done |]. intros e' He'. by apply Hover, Hent.
    + destruct (F2 k old Hk) as (b & Hb & Hor). exists b. rewrite lookup_insert_ne by done.
      split; [done |]. destruct Hor as [? | [? Hover]]; [by left | right]. split; [done |].
      intros e' He'. by apply Hover, Hent.
Qed.

Lemma binding_sim : sim ra (with_binding j e entity) (d <| bound := <[entry_key e := entity]> (bound d) |>).
Proof.
  destruct (sim_key _ _ _ _ _ related stored_entry) as ((K1 & K2 & K3 & K4) & W).
  pose proof binding_fences as Hfences. destruct related as [S1 S2 S3 S4 (Z1 & Z2 & Z3)].
  constructor; try done.
  - intros k. simpl. change (entry_key (e <| e_binding := Some entity |>)) with (entry_key e).
    destruct (decide (k = entry_key e)) as [-> | Hne].
    + rewrite lookup_insert_eq. simpl. rewrite lookup_insert_eq. split_and!; try done.
    + rewrite lookup_insert_ne by done. specialize (S2 k).
      destruct (entries j !! k); simpl in *; rewrite lookup_insert_ne by done; done.
  - simpl. intros k e' [[<- <-] | [_ Hk]]%lookup_insert_Some; [| by apply S3].
    destruct W as [W1 W2 W3 W4 W5 W6 W7 W8 W9]. constructor; done.
  - split_and!; simpl; [| | done].
    + by rewrite map_size_insert_Some.
    + destruct free as [Hroom _]. destruct (bindings j !! index entity) eqn:Hb.
      * by rewrite map_size_insert_Some.
      * rewrite map_size_insert_None by done. specialize (Hroom eq_refl). lia.
Qed.
End Binding.

Lemma bind_step_refines ra j c (e : Entry P) entity c' :
  entries j !! entry_key e = Some e -> e_binding e = None -> e_decision e = DecisionAccepted ->
  slot_open j entity ->
  emit (limits j) c (if is_retired (phase e) then BindRetired (entry_key e) entity
                     else Bind (entry_key e) entity) = Ok c' ->
  refines ra j c (with_binding j e entity) c'.
Proof.
  intros He Hun Hacc Hopen Hemit. apply emit_ok in Hemit as [Hv Hc']. constructor; try done.
  - intros k Hk. simpl. apply lookup_insert_is_Some'. by right.
  - intros d Hd. pose proof (binding_may ra j d e entity Hd He Hun Hopen) as Hmay.
    eexists [_], _. split; [exact Hv |]. split; [| by apply binding_sim].
    destruct (is_retired (phase e)) eqn:Hret; simpl.
    + destruct (decide _) as [_ | Hn]; [done |]. destruct Hn. split; [done |].
      destruct (sim_key _ _ _ _ _ Hd He) as ((K1 & _) & _). eapply hidden_when; [exact K1 |].
      apply not_live_hidden. by destruct (phase e).
    + by destruct (decide _).
Qed.

Lemma bind_refines ra j c (e : Entry P) entity st :
  (exists d, sim ra j d) -> entries j !! entry_key e = Some e -> e_decision e = DecisionAccepted ->
  bind size_change j e entity c = Ok st -> refines ra j c st.1 st.2.
Proof.
  intros [d Hd] He Hacc H. unfold bind in H. destruct (decide _); [done |].
  destruct (e_binding e) as [old |] eqn:Hb.
  { destruct (decide _); [| done]. injection H as <-. apply refines_refl. }
  destruct (bind_fence _ _ _ _ _) as [st1 |] eqn:Hf; [| done]. cbn zeta in H.
  destruct (emit _ _ _) as [c2 |] eqn:Hemit; [| done]. injection H as <-. cbn [fst snd].
  unfold bind_fence in Hf.
  destruct (sim_key _ _ _ _ _ Hd He) as ((_ & _ & _ & K4) & _). rewrite Hb in K4.
  destruct (bindings j !! index entity) as [old |] eqn:Hold.
  2: { destruct (decide _) as [| Hroom]; [done |]. injection Hf as <-. cbn [fst snd] in *.
       apply (bind_step_refines ra j c e entity c2); try done. split; [lia |]. congruence. }
  destruct (fw_named _ _ (sim_fences _ _ _ Hd) _ _ Hold) as [Hidx Hbd].
  destruct (decide _) as [| Hge]; [done |]. destruct (decide _) as [| Hne]; [done |].
  destruct (decide (bound_key old <> entry_key e)) as [Hk | Hk].
  2: { apply dec_stable in Hk. congruence. }
  assert (generation (bound_entity old) < generation entity) as Hg.
  { destruct (decide (generation entity = generation (bound_entity old))); [by destruct Hne | lia]. }
  destruct (entries j !! bound_key old) as [e0 |] eqn:He0.
  - destruct (cancel _ _ _ _ _ _) as [st2 |] eqn:Hcan; [| done]. injection Hf as <-. cbn [fst snd] in *.
    destruct (sim_key _ _ _ _ _ Hd He0) as ((_ & _ & _ & K4') & W). rewrite Hbd in K4'.
    pose proof (wf_key _ _ _ _ _ W) as Hk0. rewrite <- Hk0 in He0.
    apply (cancel_refines' ra j e0 PhaseExpired) in Hcan as [R Hst2]; try done.
    2: { rewrite (wf_bound _ _ _ _ _ W) by (by rewrite <- K4'). done. }
    eapply refines_trans; [exact R |].
    rewrite Hst2 in Hemit |- *. rewrite <- Hst2. subst. rewrite Hst2.
    apply (bind_step_refines ra _ st2.2 e entity c2); try done.
    + simpl. rewrite lookup_insert_ne; [done |]. change (entry_key e0 <> entry_key e). congruence.
    + split; simpl; [congruence |]. intros old'. rewrite Hold. intros [= <-]. split; [exact Hg |].
      intros e'. rewrite <- Hk0. change (entry_key (e0 <| phase := PhaseExpired |> <| e_payload := None |>)) with (entry_key e0).
      rewrite lookup_insert_eq. by intros [= <-].
  - injection Hf as <-. cbn [fst snd] in *.
    apply (bind_step_refines ra j c e entity c2); try done. split; [congruence |].
    intros old'. rewrite Hold. intros [= <-]. split; [exact Hg |]. congruence.
Qed.

(** ** Outcomes, rejection and expiry *)

Lemma confirm_refines ra j c (e : Entry P) c' :
  entries j !! entry_key e = Some e -> e_decision e = DecisionUnresolved -> action (entry_key e) ∉ ra ->
  emit (limits j) c (Confirm (entry_key e)) = Ok c' ->
  refines ra j c (set_entry j (e <| e_decision := DecisionAccepted |>)) c'.
Proof.
  intros He Hun Hra Hemit. set (e1 := (e <| e_decision := DecisionAccepted |> : Entry P)).
  apply (refines_emit ra j c e e1 _ c' He Hemit); [done |].
  change (entry_key e1) with (entry_key e). intros d Hd.
  destruct (sim_key _ _ _ _ _ Hd He) as ((K1 & K2 & K3 & K4) & [W1 W2 W3 W4 W5 W6 W7 W8 W9]). simpl.
  destruct (decide (entry_key e ∈ confirmed d)) as [Hin | Hin]; [apply K3 in Hin; congruence |].
  eexists. split; [done |]. split.
  { split; [done |]. intros x Hx. simpl. split_and!; try done. rewrite elem_of_union, elem_of_singleton. naive_solver. }
  split; [done |]. split.
  - constructor; simpl; try done. split; [done |]. intros Hp. apply W7 in Hp. congruence.
  - simpl. split_and!; [| done | | done].
    + destruct (shown d !! entry_key e); done.
    + set_solver.
Qed.

Lemma entry_rejected j i j' e : entry (P:=P) j i = Ok (j', e) -> rejected_actions j' = rejected_actions j.
Proof. unfold entry. intros H. inv_op H; done. Qed.

Lemma resolve_inner_refines t i outcome j c st :
  (exists d, sim (rejected_actions j) j d) -> resolve_inner size_change t i outcome j c = Ok st ->
  refines (rejected_actions j) j c st.1 st.2.
Proof.
  intros Hd H. unfold resolve_inner in H. set (ra := rejected_actions j) in *.
  destruct (advance_inner _ _ _ _) as [st1 |] eqn:H1; [| done].
  pose proof (advance_inner_refines _ _ _ _ _ Hd H1) as R1.
  pose proof (refines_sim _ _ _ _ _ Hd R1) as Hd1.
  destruct (entry st1.1 i) as [[j1 e] |] eqn:Hent; [| done]. cbn [fst snd] in H.
  destruct (entry_refines ra _ st1.2 _ _ _ Hd1 Hent) as (R2 & Hid & Hst & _).
  pose proof (refines_trans _ _ _ _ _ _ _ R1 R2) as R. clear R2.
  assert (rejected_actions j1 = ra) as Hra.
  { rewrite (entry_rejected _ _ _ _ Hent). apply R1. }
  pose proof (refines_sim _ _ _ _ _ Hd R) as Hd2. apply (refines_trans _ _ _ _ _ _ _ R).
  assert (key i = entry_key e) as Hk by (unfold entry_key; by rewrite Hid).
  destruct Hd2 as [d2 Hd2]. destruct (sim_wf _ _ _ Hd2 _ _ Hst) as [W1 W2 W3 W4 W5 W6 W7 W8 W9].
  destruct outcome as [binding |].
  - destruct (decide _) as [| Hn]; [done |]. rewrite Hra, Hk in Hn.
    destruct (decide (e_decision e <> DecisionAccepted)) as [Hna | Hna].
    + destruct (emit _ _ _) as [c2 |] eqn:Hemit; [| done]. rewrite Hk in Hemit. cbn [fst snd] in H.
      assert (refines ra j1 st1.2 (set_entry j1 (e <| e_decision := DecisionAccepted |>)) c2) as R3.
      { apply confirm_refines; try done; [| tauto]. destruct (e_decision e); [done | done | tauto]. }
      destruct binding as [entity |]; [| injection H as <-; done].
      eapply refines_trans; [exact R3 |]. eapply bind_refines; [| | | exact H].
      * eapply refines_sim; [| exact R3]. by exists d2.
      * apply lookup_insert_eq.
      * done.
    + apply dec_stable in Hna. cbn [fst snd] in H.
      destruct binding as [entity |]; [| injection H as <-; apply refines_refl].
      assert ((e <| e_decision := DecisionAccepted |>) = e) as Heq by (destruct e; simpl in *; by rewrite Hna).
      rewrite Heq in H. eapply bind_refines; [by exists d2 | done | done | exact H].
  - destruct (decide _) as [| Hna]; [done |].
    eapply (cancel_refines ra j1 e DecisionRejected PhaseRejected) in H as [? _]; try done; [| by right].
    intros Hs. by destruct (W8 Hs).
Qed.

Lemma expire_inner_refines ra t i j c st :
  (exists d, sim ra j d) -> expire_inner size_change t i j c = Ok st -> refines ra j c st.1 st.2.
Proof.
  intros Hd H. unfold expire_inner in H.
  destruct (advance_inner _ _ _ _) as [st1 |] eqn:H1; [| done].
  pose proof (advance_inner_refines _ _ _ _ _ Hd H1) as R1.
  destruct (entry st1.1 i) as [[j1 e] |] eqn:Hent; [| done]. cbn [fst snd] in H.
  destruct (entry_refines ra _ st1.2 _ _ _ (refines_sim _ _ _ _ _ Hd R1) Hent) as (R2 & _ & Hst & _).
  pose proof (refines_trans _ _ _ _ _ _ _ R1 R2) as R. apply (refines_trans _ _ _ _ _ _ _ R).
  destruct (decide _) as [Hnr |]; [| injection H as <-; apply refines_refl].
  destruct (refines_sim _ _ _ _ _ Hd R) as [d2 Hd2].
  apply (cancel_refines' ra j1 e PhaseExpired) in H as [? _]; try done.
  rewrite (wf_rejected _ _ _ _ _ (sim_wf _ _ _ Hd2 _ _ Hst)). done.
Qed.

(** The loop of a rejection leaves no event of the action undecided or confirmed. *)
Lemma reject_loop ra a j c st :
  (exists d, sim ra j d) ->
  (forall k e, entries j !! k = Some e -> action k = a -> e_decision e <> DecisionAccepted) ->
  for_entries (reject_entry size_change a) (entry_keys j) j c = Ok st ->
  refines ra j c st.1 st.2
  /\ forall k e, entries st.1 !! k = Some e -> action k = a -> e_decision e = DecisionRejected.
Proof.
  intros Hd Hna H.
  pose (Q (ks : list EventKey) (j1 : EventJournal P) (c1 : Changes P) :=
    refines ra j c j1 c1 /\ (exists d, sim ra j1 d)
    /\ (forall k e, entries j1 !! k = Some e -> action k = a ->
          e_decision e = DecisionRejected \/ (k ∈ ks /\ e_decision e <> DecisionAccepted))).
  assert (Q [] st.1 st.2) as (R & _ & Hall).
  { refine (for_entries_ind Q _ _ _ _ _ _ _ _ H).
    - intros k ks j1 c1 e st1 (R & [d1 Hd1] & Hall) He Hbody. unfold reject_entry in Hbody.
      assert (entry_key e = k) as <- by (by eapply wf_key, sim_wf).
      destruct (decide (action (entry_key e) = a)) as [Ha | Ha].
      + assert (e_decision e <> DecisionAccepted) as Hn by (destruct (Hall _ _ He Ha) as [-> | [_ ?]]; done).
        eapply (cancel_refines ra j1 e DecisionRejected PhaseRejected) in Hbody as [R' Hst1]; try done; [| | by right].
        * split; [exact (refines_trans _ _ _ _ _ _ _ R R') |].
          split; [eapply refines_sim; [| exact R']; eauto |]. rewrite Hst1.
          simpl. intros k e' [[<- <-] | [Hne Hk]]%lookup_insert_Some Hk'; [by left |].
          destruct (Hall _ _ Hk Hk') as [? | [[-> | ?]%elem_of_cons ?]]; [by left | done | by right].
        * intros Hs. by destruct (wf_bound _ _ _ _ _ (sim_wf _ _ _ Hd1 _ _ He) Hs).
      + injection Hbody as <-. split_and!; [done | eauto |]. intros k e' Hk Hk'.
        destruct (Hall _ _ Hk Hk') as [? | [[-> | ?]%elem_of_cons ?]]; [by left | done | by right].
    - intros k ks j1 c1 (R & Hd1 & Hall) Hnone. split_and!; [done | done |]. intros k' e' Hk Hk'.
      destruct (Hall _ _ Hk Hk') as [? | [[-> | ?]%elem_of_cons ?]]; [by left | congruence | by right].
    - split_and!; [apply refines_refl | done |]. intros k e Hk Ha. right. split; [| by eapply Hna].
      unfold entry_keys. rewrite merge_sort_Permutation, elem_of_elements. by apply elem_of_dom_2 in Hk. }
  split; [done |]. intros k e Hk Ha. destruct (Hall _ _ Hk Ha) as [? | [?%not_elem_of_nil _]]; done.
Qed.

(** Fencing an action whose events are all rejected. *)
Lemma sim_fence ra a j d :
  sim ra j d -> (forall k e, entries j !! k = Some e -> action k = a -> e_decision e = DecisionRejected) ->
  sim ({[a]} ∪ ra) j d.
Proof.
  intros [S1 S2 S3 S4 S5] Hall. constructor; try done. intros k e Hk.
  destruct (S3 k e Hk) as [W1 W2 W3 W4 W5 W6 W7 W8 W9]. constructor; try done.
  intros [Ha%elem_of_singleton | Hin]%elem_of_union; [| by apply W9].
  pose proof (Hall k e Hk Ha) as Hrej. pose proof (proj1 W7 Hrej) as Hph. split; congruence.
Qed.

(** What a staged operation does for a presentation that follows the journal. *)
Definition commits (j : EventJournal P) (c : Changes P) (st : staged) : Prop :=
  limits st.1 = limits j /\ scope st.1 = scope j
  /\ (changes_ok (limits j) c -> changes_ok (limits j) st.2)
  /\ forall d, sim (rejected_actions j) j d -> exists new d', values st.2 = values c ++ new
       /\ consume_all d new = Some d' /\ sim (rejected_actions st.1) st.1 d'.

Lemma refines_commits j c st : refines (rejected_actions j) j c st.1 st.2 -> commits j c st.
Proof.
  intros [A1 A2 A3 A4 A5 A6 A7]. unfold commits. split_and!; try done. intros d Hd.
  rewrite A4. by apply A7.
Qed.

Lemma reject_action_commits t a j c st :
  (exists d, sim (rejected_actions j) j d) ->
  reject_action_inner size_change t a j c = Ok st -> commits j c st.
Proof.
  intros Hd H. unfold reject_action_inner in H. set (ra := rejected_actions j) in *.
  destruct (advance_inner _ _ _ _) as [st1 |] eqn:H1; [| done].
  pose proof (advance_inner_refines _ _ _ _ _ Hd H1) as R1. destruct st1 as [j1 c1]. cbn [fst snd] in *.
  pose proof (refines_sim _ _ _ _ _ Hd R1) as Hd1. pose proof (rf_rejected _ _ _ _ _ R1) as Hra.
  destruct (valid_action j1 a) as [u |]; [| done]. destruct (decide _) as [| Hno]; [done |].
  destruct (if decide (a ∈ rejected_actions j1) then _ else _) as [j2 |] eqn:H2; [| done].
  assert (exists ra2, j2 = (j1 <| rejected_actions := ra2 |>) /\ ra2 = {[a]} ∪ ra
          /\ (ra2 = ra \/ N.of_nat (size ra2) <= lim_action_fences (limits j1))) as (ra2 & Hj2 & Hra2 & Hsize).
  { fold ra in Hra. destruct (decide _) as [Hin | Hin].
    - injection H2 as <-. exists ra. rewrite Hra in Hin. split_and!; [| set_solver | by left].
      destruct j1. simpl in *. by subst.
    - destruct (decide _) as [| Hroom]; [done |]. injection H2 as <-. exists ({[a]} ∪ rejected_actions j1).
      split_and!; [done | by rewrite Hra |]. right.
      rewrite size_union, size_singleton by set_solver. lia. }
  assert (forall d, sim ra j1 d -> sim ra j2 d) as Hup.
  { intros d Hs. subst j2. eapply (sim_ext ra j1); try done. simpl. rewrite Hra.
    destruct Hsize as [-> | ?]; auto. }
  destruct Hd1 as [d1 Hd1]. assert (limits j2 = limits j1 /\ scope j2 = scope j1 /\ retired j2 = retired j1
    /\ entries j2 = entries j1 /\ rejected_actions j2 = {[a]} ∪ ra) as (L1 & L2 & L3 & L4 & L5) by (by subst).
  apply (reject_loop ra a j2 c1 st) in H as [R2 Hall].
  2: { exists d1. by apply Hup. }
  2: { rewrite L4. intros k e Hk Ha Hacc. apply Hno. exists k, e. split; [done |].
       rewrite (wf_key _ _ _ _ _ (sim_wf _ _ _ Hd1 _ _ Hk)). done. }
  destruct R1 as [A1 A2 A3 A4 A5 A6 A7]. destruct R2 as [B1 B2 B3 B4 B5 B6 B7].
  unfold commits. split; [congruence |]. split; [congruence |]. split.
  { intros Hc. rewrite L1, A1 in B6. auto. }
  intros d Hd'. destruct (A7 d Hd') as (new & d2 & Hv & Hc & Hd2).
  destruct (B7 d2 (Hup d2 Hd2)) as (new' & d3 & Hv' & Hc' & Hd3). exists (new ++ new'), d3.
  rewrite consume_all_app, Hc, Hv', Hv, (assoc_L app), B4, L5. split_and!; try done. by apply sim_fence.
Qed.

(** ** Committed operations *)

(** A whole operation: refused without a trace, or applied so that the presentation can follow
    within the limits on one batch. *)
Definition follows (j j' : EventJournal P) (r : result EventError (list (Change P))) : Prop :=
  match r with
  | Err _ => j' = j
  | Ok chs =>
      limits j' = limits j /\ len chs <= lim_transitions (limits j)
      /\ forall d, sim (rejected_actions j) j d ->
           exists d', consume_all d chs = Some d' /\ sim (rejected_actions j') j' d'
  end.

Lemma transaction_follows mem j apply j' r :
  (forall j0 c st, (exists d, sim (rejected_actions j0) j0 d) -> apply j0 c = Ok st -> commits j0 c st) ->
  (exists d, sim (rejected_actions j) j d) ->
  transaction size_entry size_binding size_action size_change mem j apply = (j', r) ->
  follows j j' r
  /\ (is_ok r = true -> journal_retained_bytes size_entry size_binding size_action j'
                        <= lim_resident_bytes (limits j)).
Proof.
  intros Hap [d0 Hd0] H. unfold transaction in H.
  destruct (EventJournal_new _ _ _ _ _ _ _) as [st0 |] eqn:Hnew; [| by simplify_eq].
  set (j0 := st0 <| now := now j |> <| retired := retired j |> <| entries := entries j |>
               <| bindings := bindings j |> <| rejected_actions := rejected_actions j |>) in *.
  assert (scope j0 = scope j /\ limits j0 = limits j) as [Hs0 Hl0].
  { unfold EventJournal_new in Hnew. inv_op Hnew; done. }
  assert (forall d, sim (rejected_actions j) j d -> sim (rejected_actions j0) j0 d) as Hup.
  { intros d Hd. eapply (sim_ext _ j); try done. by left. }
  destruct (check_resident j0) as [u |]; [| by simplify_eq].
  destruct (new_changes _ _ _) as [c |] eqn:Hc; [| by simplify_eq].
  assert (values c = []) as Hv0 by (unfold new_changes in Hc; inv_op Hc; done).
  destruct (apply j0 c) as [[j1 c1] |] eqn:Happ; [| by simplify_eq]. cbn [fst snd] in H.
  destruct (check_resident j1) as [u1 |] eqn:Hres; [| by simplify_eq]. simplify_eq.
  destruct (Hap j0 c (j', c1)) as (Q1 & Q2 & Q3 & Q4); [exists d0; auto | done |]. cbn [fst snd] in *.
  split.
  - split; [congruence |]. split.
    + rewrite <- Hl0. apply Q3. unfold changes_ok. rewrite Hv0, len_nil. split; [lia | done].
    + intros d Hd. destruct (Q4 d (Hup d Hd)) as (new & d' & Hv & Hcon & Hd'). exists d'.
      rewrite Hv, Hv0. done.
  - intros _. unfold Events.check_resident in Hres. destruct (decide _) in Hres; [done |].
    rewrite Q1, Hl0 in *. lia.
Qed.

Lemma retire_follows j seq j' u :
  retire_through (P:=P) j seq = (j', Ok u) ->
  limits j' = limits j /\ forall d, sim (rejected_actions j) j d -> sim (rejected_actions j') j' d.
Proof.
  unfold retire_through. intros H. destruct (decide _) as [| Hold]; [done |].
  destruct (decide _) as [| Hlive]; [done |]. simplify_eq. split; [done |].
  intros d [S1 S2 S3 [F1 F2] (Z1 & Z2 & Z3)].
  set (kept := filter (fun ke : EventKey * Entry P => seq < ak_command (action (entry_key ke.2))) (entries j)).
  assert (forall k e, kept !! k = Some e <-> entries j !! k = Some e /\ seq < ak_command (action k)) as Hkept.
  { intros k e. unfold kept. rewrite map_lookup_filter_Some. simpl. split.
    - intros [Hk Hs]. by rewrite (wf_key _ _ _ _ _ (S3 k e Hk)) in Hs.
    - intros [Hk Hs]. by rewrite (wf_key _ _ _ _ _ (S3 k e Hk)). }
  constructor; simpl; fold kept; try done.
  - intros k. specialize (S2 k). destruct (kept !! k) as [e |] eqn:Hk.
    + apply Hkept in Hk as [Hk _]. by rewrite Hk in S2.
    + destruct (entries j !! k) as [e |] eqn:He.
      * assert (ak_command (action k) <= seq) as Hle.
        { destruct (decide (seq < ak_command (action k))) as [Hlt |]; [| lia].
          assert (kept !! k = Some e) by (by apply Hkept). congruence. }
        split; [| done]. destruct S2 as (K1 & _). eapply hidden_when; [exact K1 |]. apply not_live_hidden.
        intros Hl. apply Hlive. exists k, e. by rewrite (wf_key _ _ _ _ _ (S3 k e He)).
      * destruct S2 as [? Hkn]. split; [done |]. intros Hx. specialize (Hkn Hx). lia.
  - intros k e [Hk Hs]%Hkept. destruct (S3 k e Hk) as [W1 W2 W3 W4 W5 W6 W7 W8 W9].
    constructor; try done. intros [_ Hin]%elem_of_filter. by apply W9.
  - constructor; simpl; [done |]. fold kept. intros k old Hk. destruct (F2 k old Hk) as (b & Hb & Hor).
    exists b. split; [done |]. destruct Hor as [? | [? Hover]]; [by left | right]. split; [done |].
    intros e [He _]%Hkept. by apply Hover.
  - split_and!; simpl; [| done |].
    + fold kept. assert (size kept <= size (entries j))%nat; [| lia].
      unfold kept. apply map_size_filter.
    + enough (filter (fun a => seq < ak_command a) (rejected_actions j) ⊆ rejected_actions j)
        as Hsub%subseteq_size by lia. by intros x [_ ?]%elem_of_filter.
Qed.

Lemma new_sim mem s l j :
  EventJournal_new (P:=P) size_entry size_binding size_action size_change mem s l = Ok j ->
  limits j = l /\ scope j = s /\ sim (rejected_actions j) j (blank s).
Proof.
  intros H. unfold EventJournal_new in H. inv_op H. split; [done |]. split; [done |].
  constructor; simpl; try done.
  - intros k. rewrite lookup_empty. simpl. rewrite !lookup_empty. split; [done |].
    intros [? | [? | [? ?]]]; [set_solver | set_solver | done].
  - unfold sizes_ok. cbn [entries bindings rejected_actions limits].
    rewrite !map_size_empty, size_empty. split_and!; lia.
Qed.

(** ** Runs *)

Inductive journal_op :=
| OpAdvance (mem : allocator) (t : ServerTick)
| OpReconcile (mem : allocator) (t : ServerTick) (range : ReplayRange)
    (corrected : list (EventRecord P)) (validate : P -> bool)
| OpResolve (mem : allocator) (t : ServerTick) (i : EventIdentity) (outcome : Outcome)
| OpReject (mem : allocator) (t : ServerTick) (a : ActionKey)
| OpExpire (mem : allocator) (t : ServerTick) (i : EventIdentity)
| OpRetire (seq : CommandSeq)
| OpReset (mem : allocator) (s : JournalScope).

Definition journal_step (j : EventJournal P) (op : journal_op)
  : EventJournal P * result EventError (list (Change P)) :=
  match op with
  | OpAdvance mem t => advance size_entry size_binding size_action size_change mem j t
  | OpReconcile mem t range corrected validate =>
      reconcile size_entry size_binding size_action size_change mem j t range corrected validate
  | OpResolve mem t i outcome => resolve size_entry size_binding size_action size_change mem j t i outcome
  | OpReject mem t a => reject_action size_entry size_binding size_action size_change mem j t a
  | OpExpire mem t i => expire size_entry size_binding size_action size_change mem j t i
  | OpRetire seq =>
      let out := retire_through j seq in
      (out.1, match out.2 with Ok _ => Ok [] | Err e => Err e end)
  | OpReset mem s => reset size_entry size_binding size_action size_change mem j s
  end.

(** The journal after a list of calls, and every change they returned in order. *)
Fixpoint journal_run (j : EventJournal P) (ops : list journal_op) : EventJournal P * list (Change P) :=
  match ops with
  | [] => (j, [])
  | op :: ops =>
      let out := journal_step j op in
      let rest := journal_run out.1 ops in
      (rest.1, match out.2 with Ok chs => chs | Err _ => [] end ++ rest.2)
  end.

(** Whether a call replays through a transaction, which checks the resident bytes. *)
Definition transactional (op : journal_op) : bool :=
  match op with OpRetire _ | OpReset _ _ => false | _ => true end.

Lemma journal_step_follows j op j' r :
  (exists d, sim (rejected_actions j) j d) -> journal_step j op = (j', r) ->
  follows j j' r
  /\ (is_ok r = true -> transactional op = true ->
      journal_retained_bytes size_entry size_binding size_action j' <= lim_resident_bytes (limits j)).
Proof.
  intros Hd H. destruct op as [mem t | mem t range corrected validate | mem t i outcome | mem t a | mem t i | seq | mem s];
    simpl in H.
  - apply transaction_follows in H as [? ?]; [auto | | done].
    intros j0 c st Hd0 Hs. by apply refines_commits, (advance_inner_refines _ t).
  - apply transaction_follows in H as [? ?]; [auto | | done].
    intros j0 c st Hd0 Hs. by eapply refines_commits, reconcile_inner_refines.
  - apply transaction_follows in H as [? ?]; [auto | | done].
    intros j0 c st Hd0 Hs. by eapply refines_commits, resolve_inner_refines.
  - apply transaction_follows in H as [? ?]; [auto | | done].
    intros j0 c st Hd0 Hs. by eapply reject_action_commits.
  - apply transaction_follows in H as [? ?]; [auto | | done].
    intros j0 c st Hd0 Hs. by eapply refines_commits, expire_inner_refines.
  - split; [| done]. destruct (retire_through j seq) as [j1 [u | e]] eqn:Hr; simpl in H; simplify_eq.
    + apply retire_follows in Hr as [Hl Hs]. split_and!; [done | rewrite len_nil; lia |].
      intros d Hdd. exists d. auto.
    + unfold retire_through in Hr. simpl. by inv_op Hr.
  - split; [| done]. unfold reset in H. destruct (scope_le s (scope j)); [by simplify_eq |].
    destruct (EventJournal_new _ _ _ _ _ _ _) as [j1 |] eqn:Hnew; [| by simplify_eq].
    destruct (new_changes _ _ _) as [c |] eqn:Hc; [| by simplify_eq].
    destruct (emit _ _ _) as [c1 |] eqn:Hemit; simplify_eq; [| done].
    assert (values c = []) as Hv0 by (unfold new_changes in Hc; inv_op Hc; done).
    apply emit_ok in Hemit as [Hv [Hn _]]. apply new_sim in Hnew as (Hl & Hsc & Hsim).
    split_and!; [done | done |]. intros d Hdd. exists (blank s). split; [| done].
    rewrite Hv, Hv0. simpl. rewrite (sim_scope _ _ _ Hdd). by destruct (decide _).
Qed.

Lemma journal_run_sim ops j d :
  sim (rejected_actions j) j d ->
  limits (journal_run j ops).1 = limits j
  /\ exists d', consume_all d (journal_run j ops).2 = Some d'
       /\ sim (rejected_actions (journal_run j ops).1) (journal_run j ops).1 d'.
Proof.
  revert j d. induction ops as [| op ops IH]; intros j d Hd; [by eauto |].
  cbn [journal_run fst snd]. destruct (journal_step j op) as [j1 r] eqn:Hs.
  apply journal_step_follows in Hs as [Hf _]; [| by eauto]. cbn [fst snd].
  destruct r as [chs | e]; cbn [follows] in Hf.
  - destruct Hf as (Hl & _ & Hf). destruct (Hf d Hd) as (d1 & Hc1 & Hd1).
    destruct (IH j1 d1 Hd1) as (Hl' & d' & Hc' & Hd'). split; [congruence |]. exists d'.
    rewrite consume_all_app, Hc1. done.
  - subst j1. by apply IH.
Qed.

(** C5 A presentation that applies the journal's changes in order is never asked for something
    it cannot do: no effect is shown twice, updated or cancelled while not shown, no cue is
    played twice, nothing is confirmed or bound twice, and an entity slot is handed over only
    from an older effect that has left the screen. After any sequence of operations, resets
    included, what it shows is exactly the journal's live reversible effects with their
    current payloads, none of them rejected, and its confirmations and bindings are the
    journal's. *)
Theorem presentation_follows_journal mem s l j0 ops :
  EventJournal_new size_entry size_binding size_action size_change mem s l = Ok j0 ->
  let j := (journal_run j0 ops).1 in
  exists d, consume_all (blank s) (journal_run j0 ops).2 = Some d
    /\ d_scope d = scope j
    /\ (forall k r, shown d !! k = Some r -> exists e, entries j !! k = Some e /\ phase e = PhaseLive
          /\ describes e r /\ e_decision e <> DecisionRejected /\ action k ∉ rejected_actions j)
    /\ (forall k e, entries j !! k = Some e -> phase e = PhaseLive ->
          if oneshot e then k ∈ played d else is_Some (shown d !! k))
    /\ (forall k e, entries j !! k = Some e ->
          (k ∈ confirmed d <-> e_decision e = DecisionAccepted) /\ bound d !! k = e_binding e).
Proof.
  intros (_ & _ & Hsim)%new_sim j. destruct (journal_run_sim ops j0 (blank s) Hsim) as (_ & d & Hc & Hd).
  fold j in Hd. exists d. split; [done |]. split; [apply Hd |]. split; [| split].
  - intros k r Hr. pose proof (sim_keys _ _ _ Hd k) as Hk. destruct (entries j !! k) as [e |] eqn:He.
    2: { destruct Hk as [Hk _]. congruence. }
    destruct (sim_wf _ _ _ Hd k e He) as [W1 W2 W3 W4 W5 W6 W7 W8 W9].
    destruct Hk as (K1 & _). rewrite Hr in K1. destruct K1 as [Hcan Hdesc].
    unfold cancellable in Hcan. apply andb_true_iff in Hcan as [Hl%bool_decide_eq_true _].
    exists e. split; [done |]. split; [done |]. split; [done |]. split.
    + rewrite W7. congruence.
    + intros Hin. by destruct (W9 Hin).
  - intros k e He Hl. destruct (sim_key _ _ _ _ _ Hd He) as ((K1 & K2 & _) & W).
    pose proof (wf_delivered _ _ _ _ _ W Hl) as Hdel.
    destruct (wf_lifetime _ _ _ _ _ W Hdel) as [life Hlife].
    destruct (oneshot e) eqn:Hone; [by apply K2 |].
    destruct (shown d !! k) eqn:Hsh; [by eexists |]. simpl in K1.
    rewrite (oneshot_of _ _ Hlife) in Hone. apply bool_decide_eq_false in Hone.
    unfold cancellable in K1. rewrite Hl, Hlife in K1. simpl in K1.
    by rewrite bool_decide_eq_true_2 in K1.
  - intros k e He. destruct (sim_key _ _ _ _ _ Hd He) as ((_ & _ & K3 & K4) & _). done.
Qed.

(** The journal stays within its configured records, bindings and fences in every run; each
    call either refuses and leaves it exactly as it was, or returns at most the configured
    number of changes and, for every transaction, keeps the resident bytes within budget. *)
Theorem journal_bounded mem s l j0 ops :
  EventJournal_new size_entry size_binding size_action size_change mem s l = Ok j0 ->
  let j := (journal_run j0 ops).1 in
  limits j = l /\ sizes_ok j
  /\ forall op j' r, journal_step j op = (j', r) ->
       match r with
       | Err _ => j' = j
       | Ok chs => len chs <= lim_transitions l
                   /\ (transactional op = true ->
                       journal_retained_bytes size_entry size_binding size_action j'
                       <= lim_resident_bytes l)
       end.
Proof.
  intros (Hl & _ & Hsim)%new_sim j. destruct (journal_run_sim ops j0 (blank s) Hsim) as (Hl' & d & _ & Hd).
  fold j in Hd, Hl'. rewrite Hl in Hl'. split; [done |]. split; [by eapply sim_sizes |].
  intros op j' r Hs. apply journal_step_follows in Hs as [Hf Hres]; [| by eauto].
  rewrite Hl' in *. destruct r as [chs | e]; [| done]. destruct Hf as (_ & Hn & _).
  rewrite Hl' in Hn. split; [done |]. by apply Hres.
Qed.
End Presentation.

(** A projectile predicted, confirmed, bound and expired; a sound played; a late rejection. *)
Module EventsDemo.
Definition scope0 : JournalScope := mkJournalScope 1 1.
Definition mem : allocator := fun _ n => Some n.
Definition act (n : N) : ActionKey := mkActionKey 1 1 n 0.
Definition shot : EventIdentity := mkEventIdentity (mkEventKey (act 1) 1 0) 10 1.
Definition sound : EventIdentity := mkEventIdentity (mkEventKey (act 2) 2 0) 10 1.
Definition recs : list (EventRecord (list Byte.byte)) :=
  [mkEventRecord shot 40 Reversible [Byte.x01]; mkEventRecord sound 20 OneShot [Byte.x02]].
Definition ops : list (journal_op (P:=list Byte.byte)) :=
  [OpReconcile mem 10 (mkReplayRange 9 10) recs (fun _ => true);
   OpResolve mem 11 shot (OutcomeAccepted (Some (mkEntityId 5 1)));
   OpReconcile mem 12 (mkReplayRange 9 12) [] (fun _ => true);
   OpReject mem 12 (act 1); OpReject mem 12 (act 2);
   OpExpire mem 13 shot].
Definition start := EventJournal_new (P:=list Byte.byte) 80 40 24 96 mem scope0 Limits_default.
End EventsDemo.

Lemma presentation_follows_journal_witness :
  exists j0, EventsDemo.start = Ok j0
    /\ (journal_run 80 40 24 96 j0 EventsDemo.ops).2
       = [Create (mkEventRecord EventsDemo.shot 40 Reversible [Byte.x01]) false None;
          Create (mkEventRecord EventsDemo.sound 20 OneShot [Byte.x02]) false None;
          Confirm (key EventsDemo.shot); Bind (key EventsDemo.shot) (mkEntityId 5 1);
          Cancel (key EventsDemo.shot) CancelExpired]
    /\ exists d, consume_all (blank EventsDemo.scope0) (journal_run 80 40 24 96 j0 EventsDemo.ops).2 = Some d.
Proof.
  destruct EventsDemo.start as [j0 | e] eqn:Hs; [| discriminate]. exists j0. split; [reflexivity |]. split.
  - vm_compute in Hs. injection Hs as <-. vm_compute. reflexivity.
  - destruct (presentation_follows_journal 80 40 24 96 EventsDemo.mem EventsDemo.scope0 Limits_default j0
                EventsDemo.ops Hs) as (d & Hd & _). exists d. exact Hd.
Defined.

Lemma journal_bounded_witness :
  exists j0, EventsDemo.start = Ok j0
    /\ sizes_ok (journal_run 80 40 24 96 j0 EventsDemo.ops).1.
Proof.
  destruct EventsDemo.start as [j0 | e] eqn:Hs; [| discriminate]. exists j0. split; [reflexivity |].
  apply (journal_bounded 80 40 24 96 EventsDemo.mem EventsDemo.scope0 Limits_default j0 EventsDemo.ops Hs).
Defined.
