(* ===== verification/Replication.v ===== *)
(** * Scoped replication: messages and the receiving side

    Models the data of [engine/net/src/replication/mod.rs] and [ClientScopes] of
    [engine/net/src/replication/client.rs]: complete states under exact scope identities, and
    the client's record per entity index with its high-water fences. [None] is an arithmetic
    underflow, which does not happen on a consistent client. *)

From S2P Require Import Prelude Types InterestModel Payload.
Local Open Scope N_scope.
Local Open Scope engine_scope.

Abbreviation ScopeEpoch := N (only parsing).
Abbreviation BaselineGeneration := N (only parsing).

Record ScopeIdentity := mkScopeIdentity {
  scope_connection : ConnectionEpoch;
  scope_entity : EntityId;
  scope_epoch : ScopeEpoch;
  scope_representation : RepresentationRevision;
}.
#[export] Instance ScopeIdentity_eq_dec : EqDecision ScopeIdentity.
Proof. solve_decision. Defined.

Inductive ObsoleteReason := ObsoleteScope | ObsoletePublication | RetiredBaseline.

Inductive ReplicationError :=
| InvalidConfiguration
| InvalidIdentity
| Stale
| Obsolete (reason : ObsoleteReason)
| BaselineResetPending
| Conflict
| Unauthorized
| Unknown
| ResetRequired
| Capacity
| Expired
| Incomplete
| InvalidPayload.

Record ScopeLimits := mkScopeLimits {
  lim_known_entities : N;
  lim_pending_transitions : N;
  lim_retained_payload_bytes : N;
  lim_payload_bytes : N;
  lim_sent_proofs_per_scope : N;
}.
Definition ScopeLimits_default : ScopeLimits := mkScopeLimits 8192 1024 (4 * 1024 * 1024) 16384 8.

Definition ScopeLimits_validate (l : ScopeLimits) : result ReplicationError ScopeLimits :=
  if decide (lim_known_entities l = 0 \/ lim_pending_transitions l = 0 \/ lim_payload_bytes l = 0
             \/ lim_retained_payload_bytes l < lim_payload_bytes l \/ lim_sent_proofs_per_scope l = 0)
  then Err InvalidConfiguration
  else Ok l.

Record StateReceipt := mkStateReceipt {
  rc_scope : ScopeIdentity;
  rc_baseline_generation : BaselineGeneration;
  rc_snapshot : SnapshotId;
  rc_version : StateVersion;
}.
#[export] Instance StateReceipt_eq_dec : EqDecision StateReceipt.
Proof. solve_decision. Defined.

Record ScopeExit := mkScopeExit { exit_scope : ScopeIdentity }.
Record Destroy := mkDestroy { destroy_connection : ConnectionEpoch; destroy_entity : EntityId }.

Definition validate_scope (s : ScopeIdentity) (connection : ConnectionEpoch)
  : result ReplicationError unit :=
  if decide (scope_connection s <> connection) then Err Stale
  else if decide (connection = 0 \/ generation (scope_entity s) = 0 \/ scope_epoch s = 0
                  \/ scope_representation s = 0)
  then Err InvalidIdentity
  else Ok tt.

Section Client.
Context {P : Type} `{!Payload P}.

Record FullState := mkFullState {
  fs_scope : ScopeIdentity;
  baseline_generation : BaselineGeneration;
  snapshot : SnapshotId;
  version : StateVersion;
  end_tick : ServerTick;
  fs_payload : P;
}.

Definition receipt (s : FullState) : StateReceipt :=
  mkStateReceipt (fs_scope s) (baseline_generation s) (snapshot s) (version s).

Definition validate_identity (s : FullState) (connection : ConnectionEpoch)
  : result ReplicationError unit :=
  let? _u := validate_scope (fs_scope s) connection in
  if decide (baseline_generation s = 0 \/ snapshot s = 0 \/ version s = 0) then Err InvalidIdentity
  else Ok tt.

(** The derived [PartialEq] of [FullState]. *)
Definition state_eq (a b : FullState) : bool :=
  bool_decide (fs_scope a = fs_scope b) && bool_decide (baseline_generation a = baseline_generation b)
  && bool_decide (snapshot a = snapshot b) && bool_decide (version a = version b)
  && bool_decide (end_tick a = end_tick b) && payload_eq (fs_payload a) (fs_payload b).

Record Replica := mkReplica {
  r_scope : ScopeIdentity;
  closed : bool;
  destroyed : bool;
  r_state : option FullState;
}.

Record ClientScopes := mkClientScopes {
  cs_connection : ConnectionEpoch;
  cs_limits : ScopeLimits;
  cs_records : gmap N Replica;
  cs_bytes : N;
}.
#[export] Instance eta_ClientScopes : Eta ClientScopes := fun r =>
  mkClientScopes (cs_connection r) (cs_limits r) (cs_records r) (cs_bytes r).

Definition ClientScopes_new (connection : ConnectionEpoch) (l : ScopeLimits)
  : result ReplicationError ClientScopes :=
  if decide (connection = 0) then Err InvalidIdentity
  else let? l := ScopeLimits_validate l in Ok (mkClientScopes connection l ∅ 0).

Record ReplicaFence := mkReplicaFence {
  f_scope : ScopeIdentity;
  f_closed : bool;
  f_destroyed : bool;
  f_publication : option (StateReceipt * ServerTick);
}.
Definition fence (c : ClientScopes) (index : N) : option ReplicaFence :=
  (fun r => mkReplicaFence (r_scope r) (closed r) (destroyed r)
              ((fun s => (receipt s, end_tick s)) <$> r_state r)) <$> cs_records c !! index.

Definition client_state (c : ClientScopes) (entity : EntityId) : option FullState :=
  match cs_records c !! index entity with
  | Some r =>
      match r_state r with
      | Some s => if decide (scope_entity (fs_scope s) = entity) then Some s else None
      | None => None
      end
  | None => None
  end.

Definition capacity_for (c : ClientScopes) (index : N) : result ReplicationError unit :=
  if bool_decide (cs_records c !! index = None)
     && bool_decide (lim_known_entities (cs_limits c) <= N.of_nat (size (cs_records c)))
  then Err ResetRequired else Ok tt.

(** A publication under the scope already recorded: not a contradiction and not older. *)
Definition check_publication (previous s : FullState) : result ReplicationError unit :=
  if bool_decide (snapshot s = snapshot previous) && negb (state_eq s previous) then Err Conflict
  else if bool_decide (version s = version previous)
          && negb (payload_eq (fs_payload s) (fs_payload previous)) then Err Conflict
  else if bool_decide (snapshot s < snapshot previous)
          && bool_decide (baseline_generation s <= baseline_generation previous)
          && bool_decide (version s <= version previous)
          && bool_decide (end_tick s <= end_tick previous) then Err (Obsolete ObsoletePublication)
  else if bool_decide (baseline_generation s < baseline_generation previous)
          || bool_decide (snapshot s < snapshot previous)
          || bool_decide (version s < version previous)
          || bool_decide (end_tick s < end_tick previous) then Err Conflict
  else Ok tt.

(** A state against the record of its index. *)
Definition check_record (old : Replica) (s : FullState) : result ReplicationError unit :=
  let g := generation (scope_entity (fs_scope s)) in
  let g' := generation (scope_entity (r_scope old)) in
  if decide (g < g') then Err (Obsolete ObsoleteScope)
  else if decide (g = g') then
    if destroyed old || bool_decide (scope_epoch (fs_scope s) < scope_epoch (r_scope old))
    then Err (Obsolete ObsoleteScope)
    else if decide (scope_epoch (fs_scope s) = scope_epoch (r_scope old)) then
      if decide (fs_scope s <> r_scope old) then Err Conflict
      else if closed old then Err (Obsolete ObsoleteScope)
      else match r_state old with
           | Some previous => check_publication previous s
           | None => Ok tt
           end
    else Ok tt
  else Ok tt.

Definition replica_bytes (r : Replica) : N :=
  match r_state r with Some s => retained_bytes (fs_payload s) | None => 0 end.

Definition old_bytes (c : ClientScopes) (index : N) : N :=
  match cs_records c !! index with Some r => replica_bytes r | None => 0 end.

Definition apply_full (c : ClientScopes) (s : FullState) (validate : P -> bool)
  : ClientScopes * result ReplicationError StateReceipt :=
  let i := index (scope_entity (fs_scope s)) in
  let size := retained_bytes (fs_payload s) in
  let out :=
    let? _u := validate_identity s (cs_connection c) in
    let? _u := capacity_for c i in
    if decide (lim_payload_bytes (cs_limits c) < size) then Err Capacity
    else if negb (validate (fs_payload s)) then Err InvalidPayload
    else
      let? _u := match cs_records c !! i with Some old => check_record old s | None => Ok tt end in
      let? bytes := ok_or (match checked_sub (cs_bytes c) (old_bytes c i) with
                           | Some n => checked_add usize_max n size
                           | None => None
                           end) Capacity in
      if bool_decide (lim_payload_bytes (cs_limits c) < size)
         || bool_decide (lim_retained_payload_bytes (cs_limits c) < bytes)
      then Err Capacity
      else Ok bytes in
  match out with
  | Err e => (c, Err e)
  | Ok bytes =>
      (c <| cs_records := <[i := mkReplica (fs_scope s) false false (Some s)]> (cs_records c) |>
         <| cs_bytes := bytes |>, Ok (receipt s))
  end.

(** Replacing a record by a fence without a state. *)
Definition put_fence (c : ClientScopes) (s : ScopeIdentity) (dead : bool) : option ClientScopes :=
  let i := index (scope_entity s) in
  match checked_sub (cs_bytes c) (old_bytes c i) with
  | None => None
  | Some bytes =>
      Some (c <| cs_records := <[i := mkReplica s true dead None]> (cs_records c) |>
              <| cs_bytes := bytes |>)
  end.

(** Whether an exit is already covered by the record, or contradicts it. *)
Definition check_exit (old : Replica) (s : ScopeIdentity) : result ReplicationError bool :=
  let g := generation (scope_entity s) in
  let g' := generation (scope_entity (r_scope old)) in
  if bool_decide (g < g') || (bool_decide (g = g') && bool_decide (scope_epoch s < scope_epoch (r_scope old)))
  then Ok true
  else if bool_decide (g = g') && bool_decide (scope_epoch s = scope_epoch (r_scope old))
          && bool_decide (s <> r_scope old) then Err Conflict
  else Ok (destroyed old && bool_decide (g = g')).

Definition apply_exit (c : ClientScopes) (x : ScopeExit)
  : option (ClientScopes * result ReplicationError ScopeExit) :=
  let s := exit_scope x in
  let checks :=
    let? _u := validate_scope s (cs_connection c) in
    let? _u := capacity_for c (index (scope_entity s)) in
    match cs_records c !! index (scope_entity s) with
    | Some old => check_exit old s
    | None => Ok false
    end in
  match checks with
  | Err e => Some (c, Err e)
  | Ok true => Some (c, Ok x)
  | Ok false => match put_fence c s false with Some c => Some (c, Ok x) | None => None end
  end.

Definition apply_destroy (c : ClientScopes) (d : Destroy)
  : option (ClientScopes * result ReplicationError Destroy) :=
  let e := destroy_entity d in
  if decide (destroy_connection d <> cs_connection c) then Some (c, Err Stale)
  else if decide (generation e = 0) then Some (c, Err InvalidIdentity)
  else
    match capacity_for c (index e) with
    | Err err => Some (c, Err err)
    | Ok _ =>
        if match cs_records c !! index e with
           | Some r => bool_decide (generation e < generation (scope_entity (r_scope r)))
           | None => false
           end
        then Some (c, Ok d)
        else match put_fence c (mkScopeIdentity (destroy_connection d) e 1 1) true with
             | Some c => Some (c, Ok d)
             | None => None
             end
    end.

Definition client_reset (c : ClientScopes) (connection : ConnectionEpoch)
  : ClientScopes * result ReplicationError unit :=
  if decide (connection <= cs_connection c) then (c, Err Stale)
  else (c <| cs_connection := connection |> <| cs_records := ∅ |> <| cs_bytes := 0 |>, Ok tt).

(** ** Invariant *)

(** Progress of a record: a later incarnation, the end of one, or a later publication of it. *)
Definition replica_le (a b : Replica) : Prop :=
  let ga := generation (scope_entity (r_scope a)) in
  let gb := generation (scope_entity (r_scope b)) in
  ga < gb
  \/ (ga = gb
      /\ (destroyed b = true
          \/ (destroyed a = false
              /\ (scope_epoch (r_scope a) < scope_epoch (r_scope b)
                  \/ (r_scope a = r_scope b
                      /\ (closed b = true
                          \/ (closed a = false
                              /\ match r_state a, r_state b with
                                 | Some s, Some t => snapshot s <= snapshot t /\ version s <= version t
                                                     /\ end_tick s <= end_tick t
                                 | None, _ => True
                                 | Some _, None => False
                                 end))))))).

(** The account may be above what is retained: copying a whole client copies its account, and
    the copy of a payload may retain less. No operation of the client itself makes a difference. *)
Record client_inv (c : ClientScopes) : Prop := mk_client_inv {
  ci_bytes : map_sum replica_bytes (cs_records c) <= cs_bytes c;
  ci_budget : cs_bytes c <= lim_retained_payload_bytes (cs_limits c);
  ci_known : N.of_nat (size (cs_records c)) <= lim_known_entities (cs_limits c);
  ci_record : forall i r, cs_records c !! i = Some r ->
    index (scope_entity (r_scope r)) = i
    /\ scope_connection (r_scope r) = cs_connection c
    /\ match r_state r with
       | Some s => fs_scope s = r_scope r /\ closed r = false /\ destroyed r = false
                   /\ retained_bytes (fs_payload s) <= lim_payload_bytes (cs_limits c)
       | None => closed r = true
       end;
}.

(** Records of the same indices, none of them gone back. *)
Definition client_le (c c' : ClientScopes) : Prop :=
  forall i r, cs_records c !! i = Some r -> exists r', cs_records c' !! i = Some r' /\ replica_le r r'.

Lemma replica_le_refl r : replica_le r r.
Proof.
  right. split; [done |]. destruct (destroyed r); [by left | right]. split; [done |]. right.
  split; [done |]. destruct (closed r); [by left | right]. split; [done |]. destruct (r_state r); [lia | done].
Qed.

Lemma replica_le_trans a b c : replica_le a b -> replica_le b c -> replica_le a c.
Proof.
  unfold replica_le. intros [H1 | (E1 & H1)] [H2 | (E2 & H2)]; [left; lia | left; lia | left; lia |].
  right. split; [lia |]. destruct H2 as [? | (D2 & H2)]; [by left |].
  destruct H1 as [H1 | (D1 & H1)]; [congruence |]. right. split; [done |].
  destruct H1 as [H1 | (S1 & H1)], H2 as [H2 | (S2 & H2)]; [left; lia | left; congruence | left; congruence |].
  right. split; [congruence |]. destruct H2 as [? | (C2 & H2)]; [by left |].
  destruct H1 as [H1 | (C1 & H1)]; [congruence |]. right. split; [done |].
  destruct (r_state a), (r_state b), (r_state c); try done. lia.
Qed.

#[export] Instance client_le_preorder : PreOrder client_le.
Proof.
  split.
  - intros c i r Hr. exists r. split; [done | apply replica_le_refl].
  - intros a b c H1 H2 i r Hr. destruct (H1 i r Hr) as (r1 & Hr1 & L1).
    destruct (H2 i r1 Hr1) as (r2 & Hr2 & L2). exists r2. split; [done | by eapply replica_le_trans].
Qed.

(** Replacing one record by a later one. *)
Lemma client_le_insert (c : ClientScopes) i r bytes :
  (forall old, cs_records c !! i = Some old -> replica_le old r) ->
  client_le c (c <| cs_records := <[i := r]> (cs_records c) |> <| cs_bytes := bytes |>).
Proof.
  intros H x old Hx. simpl. destruct (decide (x = i)) as [-> | Hne].
  - exists r. rewrite lookup_insert_eq. auto.
  - exists old. rewrite lookup_insert_ne by done. split; [done | apply replica_le_refl].
Qed.

Lemma old_bytes_le c i : client_inv c -> old_bytes c i <= cs_bytes c.
Proof.
  intros Hc. pose proof (ci_bytes _ Hc) as Hsum. unfold old_bytes.
  destruct (cs_records c !! i) as [r |] eqn:Hr; [| lia].
  rewrite (map_sum_delete replica_bytes _ _ _ Hr) in Hsum. lia.
Qed.

Lemma capacity_size c i r : client_inv c -> capacity_for c i = Ok tt ->
  N.of_nat (size (<[i := r]> (cs_records c))) <= lim_known_entities (cs_limits c).
Proof.
  intros Hc H. unfold capacity_for in H. pose proof (ci_known _ Hc).
  destruct (cs_records c !! i) as [old |] eqn:Hi.
  - by rewrite map_size_insert_Some.
  - rewrite map_size_insert_None by done. rewrite bool_decide_eq_true_2 in H by done. simpl in H.
    destruct (bool_decide _) eqn:Hb; [done |]. apply bool_decide_eq_false in Hb. lia.
Qed.

(** A write of one record keeps the client consistent. *)
Lemma client_inv_insert c i r bytes :
  client_inv c -> capacity_for c i = Ok tt ->
  bytes + old_bytes c i = cs_bytes c + replica_bytes r ->
  bytes <= lim_retained_payload_bytes (cs_limits c) ->
  (index (scope_entity (r_scope r)) = i /\ scope_connection (r_scope r) = cs_connection c
   /\ match r_state r with
      | Some s => fs_scope s = r_scope r /\ closed r = false /\ destroyed r = false
                  /\ retained_bytes (fs_payload s) <= lim_payload_bytes (cs_limits c)
      | None => closed r = true
      end) ->
  client_inv (c <| cs_records := <[i := r]> (cs_records c) |> <| cs_bytes := bytes |>).
Proof.
  intros Hc Hcap Hb Hbud Hr. constructor; simpl.
  - pose proof (map_sum_update replica_bytes (cs_records c) i r) as Hs.
    pose proof (ci_bytes _ Hc) as Hsum. pose proof (old_bytes_le c i Hc) as Hle. unfold old_bytes in *.
    destruct (cs_records c !! i); simpl in *; lia.
  - done.
  - by apply capacity_size.
  - intros x r' [[<- <-] | [_ Hx]]%lookup_insert_Some; [done | by apply (ci_record _ Hc)].
Qed.

Lemma validate_scope_ok s connection u :
  validate_scope s connection = Ok u ->
  scope_connection s = connection /\ generation (scope_entity s) <> 0 /\ scope_epoch s <> 0
  /\ scope_representation s <> 0 /\ connection <> 0.
Proof.
  unfold validate_scope. intros H. destruct (decide _) as [| Hc] in H; [done |].
  destruct (decide _) as [| Hn] in H; [done |]. apply dec_stable in Hc. tauto.
Qed.

Lemma check_record_le old s u :
  check_record old s = Ok u -> replica_le old (mkReplica (fs_scope s) false false (Some s)).
Proof.
  unfold check_record, replica_le. simpl. intros H.
  destruct (decide _) as [| Hlt] in H; [done |]. destruct (decide _) as [Heq | Hne] in H; [| left; lia].
  right. split; [done |]. destruct (destroyed old) eqn:Hd; [done |]. simpl in H.
  destruct (bool_decide _) eqn:He in H; [done |]. apply bool_decide_eq_false in He.
  right. split; [done |]. destruct (decide _) as [Hse | Hse] in H; [| left; lia].
  destruct (decide _) as [| Hs] in H; [done |]. apply dec_stable in Hs.
  destruct (closed old) eqn:Hcl; [done |]. right. split; [done |]. right. split; [done |].
  destruct (r_state old) as [previous |]; [| done]. unfold check_publication in H.
  destruct (_ && _) in H; [done |]. destruct (_ && _) in H; [done |].
  destruct (_ && _ && _ && _) in H; [done |]. destruct (_ || _) eqn:Hor in H; [done |].
  rewrite !orb_false_iff, !bool_decide_eq_false in Hor. lia.
Qed.

Lemma apply_full_ok c s validate c' r :
  client_inv c -> apply_full c s validate = (c', r) ->
  client_inv c' /\ client_le c c' /\ cs_limits c' = cs_limits c /\ cs_connection c' = cs_connection c
  /\ match r with
     | Err _ => c' = c
     | Ok rc => rc = receipt s /\ client_state c' (scope_entity (fs_scope s)) = Some s
                /\ validate (fs_payload s) = true
                /\ cs_records c' = <[index (scope_entity (fs_scope s)) := mkReplica (fs_scope s) false false (Some s)]> (cs_records c)
     end.
Proof.
  intros Hc H. unfold apply_full in H. set (i := index (scope_entity (fs_scope s))) in *.
  destruct (validate_identity s (cs_connection c)) as [u |] eqn:Hv; [| by simplify_eq].
  destruct (capacity_for c i) as [[] |] eqn:Hcap; [| by simplify_eq].
  destruct (decide _) as [| Hsz] in H; [by simplify_eq |].
  destruct (validate (fs_payload s)) eqn:Hval; simpl in H; [| by simplify_eq].
  destruct (match cs_records c !! i with Some old => check_record old s | None => Ok tt end) as [u1 |] eqn:Hrec;
    [| by simplify_eq].
  destruct (checked_sub (cs_bytes c) (old_bytes c i)) as [n |] eqn:Hsub; simpl in H; [| by simplify_eq].
  apply checked_sub_Some in Hsub as [Hle ->].
  destruct (checked_add _ _ _) as [bytes |] eqn:Hadd; simpl in H; [| by simplify_eq].
  apply checked_add_Some in Hadd as [-> _].
  destruct (_ || _) eqn:Hlim in H; [by simplify_eq |]. simplify_eq.
  apply orb_false_iff in Hlim as [_ Hlim%bool_decide_eq_false].
  unfold validate_identity in Hv. destruct (validate_scope _ _) as [u2 |] eqn:Hvs; [| done].
  apply validate_scope_ok in Hvs as (Hconn & _).
  split; [| split; [| split; [done | split; [done |]]]].
  - apply client_inv_insert; try done; [unfold replica_bytes; simpl; lia | lia |]. simpl. split_and!; try done. lia.
  - apply client_le_insert. intros old Hold. rewrite Hold in Hrec. by eapply check_record_le.
  - split_and!; try done. unfold client_state. cbn [cs_records set_field].
    fold i. rewrite lookup_insert_eq. cbn [r_state]. by rewrite decide_True.
Qed.

Lemma put_fence_ok c s dead :
  client_inv c -> capacity_for c (index (scope_entity s)) = Ok tt -> scope_connection s = cs_connection c ->
  (forall old, cs_records c !! index (scope_entity s) = Some old -> replica_le old (mkReplica s true dead None)) ->
  exists c', put_fence c s dead = Some c' /\ client_inv c' /\ client_le c c'
    /\ cs_limits c' = cs_limits c /\ cs_connection c' = cs_connection c
    /\ cs_records c' = <[index (scope_entity s) := mkReplica s true dead None]> (cs_records c).
Proof.
  intros Hc Hcap Hconn Hle. unfold put_fence. pose proof (old_bytes_le c (index (scope_entity s)) Hc) as Hb.
  unfold checked_sub. destruct (decide _); [| done]. eexists. split; [done |].
  split; [| split; [by apply client_le_insert | done]].
  pose proof (ci_budget _ Hc). apply client_inv_insert; try done; [unfold replica_bytes; simpl; lia | lia].
Qed.

Lemma apply_exit_ok c x :
  client_inv c ->
  exists c' r, apply_exit c x = Some (c', r) /\ client_inv c' /\ client_le c c'
    /\ cs_limits c' = cs_limits c /\ cs_connection c' = cs_connection c
    /\ (c' = c \/ (r = Ok x /\ cs_records c' = <[index (scope_entity (exit_scope x)) :=
                      mkReplica (exit_scope x) true false None]> (cs_records c))).
Proof.
  intros Hc. assert (client_le c c) as Hrefl by reflexivity. unfold apply_exit. set (s := exit_scope x).
  destruct (validate_scope s (cs_connection c)) as [u |] eqn:Hv; [| by eexists _, _; auto 9].
  destruct (capacity_for c _) as [[] |] eqn:Hcap; [| by eexists _, _; auto 9].
  apply validate_scope_ok in Hv as (Hconn & _).
  destruct (match cs_records c !! _ with Some old => check_exit old s | None => Ok false end)
    as [[] |] eqn:Hchk; [by eexists _, _; auto 9 | | by eexists _, _; auto 9].
  destruct (put_fence_ok c s false Hc Hcap Hconn) as (c' & -> & Hinv & Hle & Hl & Hcn & Hrec).
  { intros old Hold. rewrite Hold in Hchk. unfold check_exit in Hchk. unfold replica_le. simpl.
    destruct (bool_decide (generation (scope_entity s) < generation (scope_entity (r_scope old)))) eqn:Hg in Hchk;
      [done |]. apply bool_decide_eq_false in Hg. simpl in Hchk.
    destruct (decide (generation (scope_entity (r_scope old)) < generation (scope_entity s))); [by left |].
    assert (generation (scope_entity s) = generation (scope_entity (r_scope old))) as Hge by lia.
    rewrite (bool_decide_eq_true_2 _ Hge) in Hchk. simpl in Hchk. right. split; [done |].
    destruct (bool_decide (scope_epoch s < _)) eqn:He in Hchk; [done |]. apply bool_decide_eq_false in He.
    destruct (bool_decide (scope_epoch s = _) && _) eqn:Hse in Hchk; [done |].
    rewrite andb_true_r in Hchk. injection Hchk as Hd. right. split; [done |].
    apply andb_false_iff in Hse as [Hse%bool_decide_eq_false | Hse%bool_decide_eq_false]; [left; lia | right].
    apply dec_stable in Hse. auto. }
  exists c', (Ok x). auto 8.
Qed.

Lemma apply_destroy_ok c d :
  client_inv c ->
  exists c' r, apply_destroy c d = Some (c', r) /\ client_inv c' /\ client_le c c'
    /\ cs_limits c' = cs_limits c /\ cs_connection c' = cs_connection c
    /\ (c' = c \/ (r = Ok d /\ destroy_connection d = cs_connection c
                   /\ cs_records c' = <[index (destroy_entity d) :=
                      mkReplica (mkScopeIdentity (destroy_connection d) (destroy_entity d) 1 1) true true None]> (cs_records c))).
Proof.
  intros Hc. assert (client_le c c) as Hrefl by reflexivity. unfold apply_destroy. destruct (decide _) as [| Hconn]; [by eexists _, _; auto 9 |].
  apply dec_stable in Hconn. destruct (decide _) as [| Hg0]; [by eexists _, _; auto 9 |].
  destruct (capacity_for c _) as [[] |] eqn:Hcap; [| by eexists _, _; auto 9].
  destruct (match cs_records c !! _ with Some r => _ | None => false end) eqn:Hold; [by eexists _, _; auto 9 |].
  destruct (put_fence_ok c (mkScopeIdentity (destroy_connection d) (destroy_entity d) 1 1) true Hc Hcap Hconn)
    as (c' & -> & Hinv & Hle & Hl & Hcn & Hrec).
  { intros old Ho. simpl in Ho. rewrite Ho in Hold. apply bool_decide_eq_false in Hold.
    unfold replica_le. simpl. destruct (decide (generation (scope_entity (r_scope old)) < generation (destroy_entity d)));
      [by left | right]. split; [lia | by left]. }
  exists c', (Ok d). auto 9.
Qed.

Lemma client_reset_ok c connection c' r :
  client_inv c -> client_reset c connection = (c', r) ->
  client_inv c' /\ match r with
                   | Ok _ => cs_connection c < cs_connection c' /\ cs_records c' = ∅
                   | Err _ => c' = c
                   end.
Proof.
  unfold client_reset. intros Hc H. destruct (decide _) in H; simplify_eq; [done |]. split; [| simpl; split; [lia | done]].
  constructor; simpl; rewrite ?map_sum_empty, ?map_size_empty; try done; lia.
Qed.

Lemma ClientScopes_new_inv epoch l c : ClientScopes_new epoch l = Ok c -> client_inv c /\ cs_limits c = l /\ cs_connection c = epoch.
Proof.
  unfold ClientScopes_new. intros Hnew. destruct (decide _) in Hnew; [done |].
  destruct (ScopeLimits_validate l) as [l1 |] eqn:Hv; [| done]. injection Hnew as <-.
  unfold ScopeLimits_validate in Hv. destruct (decide _) in Hv; [done |]. injection Hv as <-.
  split; [constructor; simpl; rewrite ?map_sum_empty, ?map_size_empty; try done; lia | done].
Qed.

(** ** Any message *)

Inductive client_msg :=
| MsgState (st : FullState) (validate : P -> bool)
| MsgExit (x : ScopeExit)
| MsgDestroy (d : Destroy).

(** One message, and the receipt it earned. *)
Definition client_receive (c : ClientScopes) (m : client_msg)
  : option (ClientScopes * option StateReceipt) :=
  match m with
  | MsgState st validate =>
      let out := apply_full c st validate in
      Some (out.1, match out.2 with Ok rc => Some rc | Err _ => None end)
  | MsgExit x => match apply_exit c x with Some out => Some (out.1, None) | None => None end
  | MsgDestroy d => match apply_destroy c d with Some out => Some (out.1, None) | None => None end
  end.

(** ** The account of a client that is never copied *)

Definition exact_account (c : ClientScopes) : Prop := cs_bytes c = map_sum replica_bytes (cs_records c).

Lemma ClientScopes_new_exact epoch l c : ClientScopes_new epoch l = Ok c -> exact_account c.
Proof.
  unfold ClientScopes_new, exact_account. intros Hnew. destruct (decide _) in Hnew; [done |].
  destruct (ScopeLimits_validate l) as [l1 |]; [| done]. injection Hnew as <-. simpl. by rewrite map_sum_empty.
Qed.

Lemma exact_account_insert c i r bytes :
  exact_account c -> bytes + old_bytes c i = cs_bytes c + replica_bytes r ->
  exact_account (c <| cs_records := <[i := r]> (cs_records c) |> <| cs_bytes := bytes |>).
Proof.
  unfold exact_account, old_bytes. simpl. intros Hc Hb.
  pose proof (map_sum_update replica_bytes (cs_records c) i r) as Hs. destruct (cs_records c !! i); simpl in *; lia.
Qed.

Lemma put_fence_exact c s dead c' : exact_account c -> put_fence c s dead = Some c' -> exact_account c'.
Proof.
  unfold put_fence. intros Hc H. destruct (checked_sub _ _) as [n |] eqn:Hsub; [| done].
  apply checked_sub_Some in Hsub as [? ->]. injection H as <-. apply exact_account_insert; [done |].
  unfold replica_bytes. simpl. lia.
Qed.

Lemma apply_full_exact c s validate c' r :
  exact_account c -> apply_full c s validate = (c', r) -> exact_account c'.
Proof.
  intros Hc H. unfold apply_full in H. destruct (let? _u := _ in _) as [bytes |] eqn:Hout in H; [| by injection H as <- _].
  destruct (validate_identity _ _) in Hout; [| done]. destruct (capacity_for _ _) in Hout; [| done].
  simpl in Hout. destruct (decide _) in Hout; [done |]. destruct (negb _) in Hout; [done |].
  destruct (match _ with Some _ => _ | None => _ end) in Hout; [| done]. simpl in Hout.
  destruct (checked_sub _ _) as [rest |] eqn:Hsub; [| done]. apply checked_sub_Some in Hsub as [? ->].
  destruct (checked_add _ _ _) as [total |] eqn:Hadd; [| done]. apply checked_add_Some in Hadd as [-> _]. simpl in Hout.
  destruct (_ || _) in Hout; [done |]. injection Hout as <-. injection H as <- _.
  apply exact_account_insert; [done |]. unfold replica_bytes. simpl. lia.
Qed.

Lemma client_receive_exact c m c' rc : exact_account c -> client_receive c m = Some (c', rc) -> exact_account c'.
Proof.
  intros Hc H. destruct m as [st validate | x | d]; simpl in H.
  - destruct (apply_full c st validate) as [c1 r] eqn:Happ. injection H as <- _. by eapply apply_full_exact.
  - destruct (apply_exit c x) as [[c1 r] |] eqn:Hx; [| done]. injection H as <- _. unfold apply_exit in Hx.
    destruct (let? _u := _ in _) as [[] |] in Hx; [by injection Hx as <- _ | | by injection Hx as <- _].
    destruct (put_fence c _ _) as [c2 |] eqn:Hp; [| done]. injection Hx as <- _. by eapply put_fence_exact.
  - destruct (apply_destroy c d) as [[c1 r] |] eqn:Hd; [| done]. injection H as <- _. unfold apply_destroy in Hd.
    repeat (case_decide || case_match); simplify_eq; try done; by eapply put_fence_exact.
Qed.

Lemma client_receive_ok c m :
  client_inv c -> exists c' rc, client_receive c m = Some (c', rc) /\ client_inv c' /\ client_le c c'
    /\ cs_limits c' = cs_limits c /\ cs_connection c' = cs_connection c
    /\ forall r, rc = Some r -> exists st validate, m = MsgState st validate /\ r = receipt st
         /\ client_state c' (scope_entity (fs_scope st)) = Some st /\ validate (fs_payload st) = true.
Proof.
  intros Hc. destruct m as [st validate | x | d]; simpl.
  - destruct (apply_full c st validate) as [c' r] eqn:Happ.
    apply apply_full_ok in Happ as (H1 & H2 & H3 & H3' & H4); [| done]. eexists _, _. split; [done |].
    split; [done |]. split; [done |]. split; [done |]. split; [done |]. simpl. intros rc.
    destruct r as [rc' |]; [| done]. intros [= <-]. destruct H4 as (-> & ? & ? & _). eauto 7.
  - destruct (apply_exit_ok c x Hc) as (c' & r & -> & ? & ? & ? & ? & _). eexists _, _. by split_and!.
  - destruct (apply_destroy_ok c d Hc) as (c' & r & -> & ? & ? & ? & ? & _). eexists _, _. by split_and!.
Qed.
End Client.
Arguments FullState : clear implicits.
Arguments Replica : clear implicits.
Arguments ClientScopes : clear implicits.
Arguments client_msg : clear implicits.
