(* ===== verification/ReplicationServer.v ===== *)
(** * Scoped replication: the sending side

    Models [ServerScopes], [engine/net/src/replication/server.rs]: for one peer, the scope each
    entity is known under, the complete state to deliver, the proofs of what was sent and what
    the peer decoded, and the exits and destructions in flight. [None] is an arithmetic
    underflow, which does not happen on a consistent server. *)

From S2P Require Import Prelude Types InterestModel Payload Replication.
Local Open Scope N_scope.
Local Open Scope engine_scope.

Inductive DeliveryPhase := Entering | Active | DormantKnown | Leaving | Forgotten.
#[export] Instance DeliveryPhase_eq_dec : EqDecision DeliveryPhase.
Proof. solve_decision. Defined.

(** [matches!(phase, Leaving | Forgotten)]. *)
Definition is_over (p : DeliveryPhase) : bool :=
  match p with Leaving | Forgotten => true | _ => false end.
(** [matches!(phase, Entering | Leaving)]. *)
Definition in_transition (p : DeliveryPhase) : bool :=
  match p with Entering | Leaving => true | _ => false end.

Section Server.
Context {P : Type} `{!Payload P}.

Record Delivery := mkDelivery {
  identity : ScopeIdentity;
  desired : option (FullState P);
  sent : gmap SnapshotId StateReceipt;
  decoded : option StateReceipt;
  is_dormant : bool;
  phase : DeliveryPhase;
  exit_sent : bool;
  dead : bool;
}.
#[export] Instance eta_Delivery : Eta Delivery := fun r =>
  mkDelivery (identity r) (desired r) (sent r) (decoded r) (is_dormant r) (phase r) (exit_sent r) (dead r).

Record ServerScopes := mkServerScopes {
  ss_connection : ConnectionId;
  ss_epoch : ConnectionEpoch;
  ss_world : N;
  ss_policy : PolicyRevision;
  ss_limits : ScopeLimits;
  ss_records : gmap N Delivery;
  next_snapshot : SnapshotId;
  ss_bytes : N;
  reset_required : bool;
}.
#[export] Instance eta_ServerScopes : Eta ServerScopes := fun r =>
  mkServerScopes (ss_connection r) (ss_epoch r) (ss_world r) (ss_policy r) (ss_limits r) (ss_records r)
    (next_snapshot r) (ss_bytes r) (reset_required r).

Definition ServerScopes_new (connection : ConnectionId) (epoch : ConnectionEpoch) (world : N)
    (policy : PolicyRevision) (l : ScopeLimits) : result ReplicationError ServerScopes :=
  if decide (epoch = 0) then Err InvalidIdentity
  else let? l := ScopeLimits_validate l in Ok (mkServerScopes connection epoch world policy l ∅ 1 0 false).

(** The record of exactly this entity. *)
Definition record_of (s : ServerScopes) (entity : EntityId) : option Delivery :=
  match ss_records s !! index entity with
  | Some r => if decide (scope_entity (identity r) = entity) then Some r else None
  | None => None
  end.

Definition phase_of (s : ServerScopes) (entity : EntityId) : option DeliveryPhase := phase <$> record_of s entity.

Definition count_where (f : Delivery -> bool) (s : ServerScopes) : N :=
  N.of_nat (size (filter (fun ir => f ir.2 = true) (ss_records s))).
Definition pending_transitions (s : ServerScopes) : N := count_where (fun r => in_transition (phase r)) s.

Definition put_record (s : ServerScopes) (i : N) (r : Delivery) : ServerScopes :=
  s <| ss_records := <[i := r]> (ss_records s) |>.

(** Dropping every payload and proof of a record, into the given phase. *)
Definition drop_payload (p : DeliveryPhase) (r : Delivery) : Delivery :=
  r <| phase := p |> <| desired := None |> <| sent := ∅ |> <| decoded := None |>.

Definition require_reset (s : ServerScopes) : ServerScopes :=
  s <| reset_required := true |> <| ss_records := drop_payload Forgotten <$> ss_records s |>
    <| ss_bytes := 0 |>.

(** What a policy change does to one record. *)
Definition revoke (r : Delivery) : Delivery :=
  if decide (phase r = Forgotten) then r
  else (drop_payload (if dead r then Forgotten else Leaving) r) <| exit_sent := false |>.

Definition advance_barrier (s : ServerScopes) (world : N) (policy : PolicyRevision)
  : ServerScopes * result ReplicationError unit :=
  if reset_required s then (s, Err ResetRequired)
  else if decide (world < ss_world s \/ policy < ss_policy s) then (s, Err Stale)
  else
    let advance (s : ServerScopes) := (s <| ss_world := world |> <| ss_policy := policy |>, Ok tt) in
    if decide (policy <> ss_policy s) then
      if decide (lim_pending_transitions (ss_limits s)
                 < count_where (fun r => bool_decide (phase r <> Forgotten)) s)
      then (require_reset s, Err ResetRequired)
      else advance (s <| ss_records := revoke <$> ss_records s |> <| ss_bytes := 0 |>)
    else advance s.

Definition refresh_phase (r : Delivery) : Delivery :=
  r <| phase :=
    match decoded r with
    | None => Entering
    | Some _ =>
        if is_dormant r
           && match desired r with Some s => bool_decide (Some (receipt s) = decoded r) | None => false end
        then DormantKnown else Active
    end |>.

Definition desired_bytes (r : Delivery) : N :=
  match desired r with Some s => retained_bytes (fs_payload s) | None => 0 end.

(** Whether an offer starts a new incarnation. *)
Definition needs_scope (old : option Delivery) (entity : EntityId) (representation : RepresentationRevision) : bool :=
  match old with
  | None => true
  | Some r => bool_decide (scope_entity (identity r) <> entity)
              || bool_decide (scope_representation (identity r) <> representation) || is_over (phase r)
  end.

(** The write of a new state, under a new scope or the old one. *)
Definition publish (s : ServerScopes) (old : option Delivery) (entity : EntityId)
    (representation : RepresentationRevision) (v : StateVersion) (t : ServerTick) (dormant : bool)
    (payload : P) : ServerScopes * result ReplicationError ScopeIdentity :=
  let size := retained_bytes payload in
  let new_scope := needs_scope old entity representation in
  let out :=
    let? bytes := ok_or (match checked_sub (ss_bytes s) (from_option desired_bytes 0 old) with
                         | Some n => checked_add usize_max n size
                         | None => None
                         end) Capacity in
    if bool_decide (lim_payload_bytes (ss_limits s) < size)
       || bool_decide (lim_retained_payload_bytes (ss_limits s) < bytes)
    then Err Capacity
    else
      let? scope :=
        match old with
        | None => Ok 1
        | Some r => if new_scope then ok_or (checked_next u64_max (scope_epoch (identity r))) ResetRequired
                    else Ok (scope_epoch (identity r))
        end in
      let? next := ok_or (checked_next u64_max (next_snapshot s)) ResetRequired in
      Ok (bytes, scope, next) in
  match out with
  | Err e => (s, Err e)
  | Ok (bytes, scope, next) =>
      let id := mkScopeIdentity (ss_epoch s) entity scope representation in
      let state := mkFullState id (next_snapshot s) (next_snapshot s) v t payload in
      let r := match old with
               | Some r => if new_scope then mkDelivery id (Some state) ∅ None dormant Entering false false
                           else refresh_phase (r <| desired := Some state |> <| is_dormant := dormant |>)
               | None => mkDelivery id (Some state) ∅ None dormant Entering false false
               end in
      ((put_record s (index entity) r) <| ss_bytes := bytes |> <| next_snapshot := next |>, Ok id)
  end.

Definition offer_projected (s : ServerScopes) (entity : EntityId) (representation : RepresentationRevision)
    (v : StateVersion) (t : ServerTick) (dormant : bool) (payload : P)
  : ServerScopes * result ReplicationError ScopeIdentity :=
  if reset_required s then (s, Err ResetRequired)
  else if decide (generation entity = 0 \/ representation = 0 \/ v = 0) then (s, Err InvalidIdentity)
  else
    let old := ss_records s !! index entity in
    if bool_decide (old = None)
       && bool_decide (lim_known_entities (ss_limits s) <= N.of_nat (size (ss_records s)))
    then (s, Err ResetRequired)
    else if match old with
            | Some r => bool_decide (generation entity < generation (scope_entity (identity r)))
                        || (bool_decide (generation entity = generation (scope_entity (identity r))) && dead r)
            | None => false
            end
    then (s, Err Stale)
    else if needs_scope old entity representation
            && match old with Some r => negb (in_transition (phase r)) | None => true end
            && bool_decide (lim_pending_transitions (ss_limits s) <= pending_transitions s)
    then (s, Err Capacity)
    else
      match (if needs_scope old entity representation then None else old) with
      | None => publish s old entity representation v t dormant payload
      | Some r =>
          match desired r with
          | None => (s, Err Unknown)
          | Some previous =>
              if decide (v < version previous \/ t < end_tick previous) then (s, Err Stale)
              else if decide (v = version previous) then
                if negb (payload_eq payload (fs_payload previous)) then (s, Err Conflict)
                else (put_record s (index entity) (refresh_phase (r <| is_dormant := dormant |>)), Ok (identity r))
              else publish s old entity representation v t dormant payload
          end
      end.

Definition offer (s : ServerScopes) (eligible : EligibleSet) (entity : EntityId) (dormant : bool)
    (project : RepresentationGrant -> P) : ServerScopes * result ReplicationError ScopeIdentity :=
  if reset_required s then (s, Err ResetRequired)
  else if bool_decide (connection eligible <> ss_connection s)
          || negb (is_current eligible (ss_world s) (ss_policy s))
  then (s, Err Unauthorized)
  else
    match entries eligible !! entity with
    | None => (s, Err Unauthorized)
    | Some en =>
        let grant := representation en in
        offer_projected s entity (revision grant) (entry_state_version en) (tick eligible) dormant (project grant)
    end.

(** The state of an entity that is still in scope. *)
Definition server_state (s : ServerScopes) (entity : EntityId) : option (FullState P) :=
  match record_of s entity with
  | Some r => if is_over (phase r) then None else desired r
  | None => None
  end.

Definition pending (s : ServerScopes) (entity : EntityId) : option (FullState P) :=
  match record_of s entity with
  | Some r =>
      if is_over (phase r) then None
      else match desired r with
           | Some st => if decide (Some (receipt st) = decoded r) then None else Some st
           | None => None
           end
  | None => None
  end.

(** [BTreeMap::pop_first]. *)
Definition pop_first (m : gmap SnapshotId StateReceipt) : gmap SnapshotId StateReceipt :=
  match merge_sort N.le (elements (dom m)) with
  | [] => m
  | k :: _ => delete k m
  end.

Definition mark_sent (s : ServerScopes) (rc : StateReceipt) : ServerScopes * result ReplicationError unit :=
  let i := index (scope_entity (rc_scope rc)) in
  match ss_records s !! i with
  | None => (s, Err Unknown)
  | Some r =>
      if bool_decide (identity r <> rc_scope rc) || is_over (phase r)
         || bool_decide ((receipt <$> desired r) <> Some rc)
      then (s, Err Stale)
      else
        let proofs := if bool_decide (sent r !! rc_snapshot rc = None)
                         && bool_decide (lim_sent_proofs_per_scope (ss_limits s) <= N.of_nat (size (sent r)))
                      then pop_first (sent r) else sent r in
        (put_record s i (r <| sent := <[rc_snapshot rc := rc]> proofs |>), Ok tt)
  end.

Definition transmit_pending (s : ServerScopes) (entity : EntityId) (send : FullState P -> bool)
  : ServerScopes * result ReplicationError bool :=
  if reset_required s then (s, Err ResetRequired)
  else
    match pending s entity with
    | None => (s, Ok false)
    | Some st =>
        if negb (send st) then (s, Ok false)
        else
          let out := mark_sent s (receipt st) in
          (out.1, match out.2 with Ok _ => Ok true | Err e => Err e end)
    end.

Definition validate_acknowledgment (s : ServerScopes) (rc : StateReceipt) : result ReplicationError unit :=
  match ss_records s !! index (scope_entity (rc_scope rc)) with
  | None => Err Unknown
  | Some r =>
      if bool_decide (rc_scope rc <> identity r) || is_over (phase r) then Err Stale
      else if decide (decoded r = Some rc) then Ok tt
      else if decide (sent r !! rc_snapshot rc <> Some rc) then Err Unknown
      else if match decoded r with
              | Some old => bool_decide (rc_snapshot rc < rc_snapshot old)
                            || bool_decide (rc_version rc < rc_version old)
              | None => false
              end
      then Err Stale
      else Ok tt
  end.

Definition acknowledge (s : ServerScopes) (rc : StateReceipt) : ServerScopes * result ReplicationError unit :=
  let i := index (scope_entity (rc_scope rc)) in
  match validate_acknowledgment s rc with
  | Err e => (s, Err e)
  | Ok _ =>
      match ss_records s !! i with
      | None => (s, Err Unknown)
      | Some r =>
          if decide (decoded r = Some rc) then (s, Ok tt)
          else
            let r := r <| decoded := Some rc |> in
            let r := r <| sent := filter (fun kr => rc_snapshot rc <= kr.1) (sent r) |> in
            (put_record s i (refresh_phase r), Ok tt)
      end
  end.

Definition decoded_current (s : ServerScopes) (entity : EntityId) : option StateReceipt :=
  match record_of s entity with
  | Some r =>
      match desired r with
      | Some st => if decide (decoded r = Some (receipt st)) then Some (receipt st) else None
      | None => None
      end
  | None => None
  end.

Definition exit (s : ServerScopes) (entity : EntityId)
  : option (ServerScopes * result ReplicationError ScopeExit) :=
  if reset_required s then Some (s, Err ResetRequired)
  else
    match record_of s entity with
    | None => Some (s, Err Unknown)
    | Some r =>
        if dead r then Some (s, Err Conflict)
        else if negb (in_transition (phase r) || is_over (phase r))
                && bool_decide (lim_pending_transitions (ss_limits s) <= pending_transitions s)
        then Some (require_reset s, Err ResetRequired)
        else if is_over (phase r) then Some (s, Ok (mkScopeExit (identity r)))
        else
          match checked_sub (ss_bytes s) (desired_bytes r) with
          | None => None
          | Some bytes =>
              Some ((put_record s (index entity) ((drop_payload Leaving r) <| exit_sent := false |>))
                      <| ss_bytes := bytes |>, Ok (mkScopeExit (identity r)))
          end
    end.

(** The identities of the records in a state, in index order. *)
Definition records_where (s : ServerScopes) (f : Delivery -> bool) : list ScopeIdentity :=
  omap (fun i => match ss_records s !! i with
                 | Some r => if f r then Some (identity r) else None
                 | None => None
                 end) (merge_sort N.le (elements (dom (ss_records s)))).

Definition pending_exits (s : ServerScopes) : list ScopeExit :=
  mkScopeExit <$> records_where s (fun r => bool_decide (phase r = Leaving) && negb (dead r)).
Definition unsent_exits (s : ServerScopes) : list ScopeExit :=
  mkScopeExit <$> records_where s (fun r =>
    bool_decide (phase r = Leaving) && negb (dead r) && negb (exit_sent r)).
Definition pending_destroys (s : ServerScopes) : list Destroy :=
  (fun id => mkDestroy (ss_epoch s) (scope_entity id)) <$>
    records_where s (fun r => bool_decide (phase r = Leaving) && dead r).
Definition unsent_destroys (s : ServerScopes) : list Destroy :=
  (fun id => mkDestroy (ss_epoch s) (scope_entity id)) <$>
    records_where s (fun r => bool_decide (phase r = Leaving) && dead r && negb (exit_sent r)).

Definition mark_exit_sent (s : ServerScopes) (x : ScopeExit) : ServerScopes * result ReplicationError unit :=
  let i := index (scope_entity (exit_scope x)) in
  match ss_records s !! i with
  | None => (s, Err Unknown)
  | Some r =>
      if bool_decide (identity r <> exit_scope x) || dead r || bool_decide (phase r <> Leaving)
      then (s, Err Stale)
      else (put_record s i (r <| exit_sent := true |>), Ok tt)
  end.

Definition acknowledge_exit (s : ServerScopes) (x : ScopeExit) : ServerScopes * result ReplicationError unit :=
  let i := index (scope_entity (exit_scope x)) in
  match ss_records s !! i with
  | None => (s, Err Unknown)
  | Some r =>
      if bool_decide (identity r <> exit_scope x) || dead r || negb (exit_sent r) || negb (is_over (phase r))
      then (s, Err Stale)
      else (put_record s i (r <| phase := Forgotten |>), Ok tt)
  end.

Definition destroy (s : ServerScopes) (entity : EntityId)
  : option (ServerScopes * result ReplicationError Destroy) :=
  if reset_required s then Some (s, Err ResetRequired)
  else
    match record_of s entity with
    | None => Some (s, Err Unknown)
    | Some r =>
        if dead r then
          Some (s, if decide (phase r = Leaving) then Ok (mkDestroy (ss_epoch s) entity) else Err Unauthorized)
        else if is_over (phase r) then Some (s, Err Unauthorized)
        else
          match exit s entity with
          | None => None
          | Some (s, Err e) => Some (s, Err e)
          | Some (s, Ok _) =>
              match ss_records s !! index entity with
              | None => None
              | Some r => Some (put_record s (index entity) (r <| dead := true |>),
                                Ok (mkDestroy (ss_epoch s) entity))
              end
          end
    end.

Definition mark_destroy_sent (s : ServerScopes) (d : Destroy) : ServerScopes * result ReplicationError unit :=
  if decide (destroy_connection d <> ss_epoch s) then (s, Err Stale)
  else
    let i := index (destroy_entity d) in
    match ss_records s !! i with
    | None => (s, Err Unknown)
    | Some r =>
        if bool_decide (scope_entity (identity r) <> destroy_entity d) || negb (dead r)
           || bool_decide (phase r <> Leaving)
        then (s, Err Stale)
        else (put_record s i (r <| exit_sent := true |>), Ok tt)
    end.

Definition acknowledge_destroy (s : ServerScopes) (d : Destroy) : ServerScopes * result ReplicationError unit :=
  if decide (destroy_connection d <> ss_epoch s) then (s, Err Stale)
  else
    let i := index (destroy_entity d) in
    match ss_records s !! i with
    | None => (s, Err Unknown)
    | Some r =>
        if bool_decide (scope_entity (identity r) <> destroy_entity d) || negb (dead r) || negb (exit_sent r)
        then (s, Err Stale)
        else (put_record s i (r <| phase := Forgotten |>), Ok tt)
    end.

Definition server_reset (s : ServerScopes) (epoch : ConnectionEpoch) : ServerScopes * result ReplicationError unit :=
  if decide (epoch <= ss_epoch s) then (s, Err Stale)
  else (s <| ss_epoch := epoch |> <| ss_records := ∅ |> <| ss_bytes := 0 |> <| next_snapshot := 1 |>
          <| reset_required := false |>, Ok tt).
End Server.
Arguments Delivery : clear implicits.
Arguments ServerScopes : clear implicits.
