(* ===== verification/ReplicationNet.v ===== *)
(** * Scoped replication end to end

    A server and a client joined by a network that loses, repeats and reorders messages: every
    state, exit and destruction ever sent may be delivered at any time, any number of times,
    and so may the client's receipts. *)

From Stdlib Require Import Strings.Byte.
From S2P Require Import Prelude Types InterestModel Payload Replication ReplicationServer.
Local Open Scope N_scope.
Local Open Scope engine_scope.

Section Net.
Context {P : Type} `{!Payload P}.

(** ** The system *)

Record World := mkWorld {
  srv : ServerScopes P;
  cli : ClientScopes P;
  states : list (FullState P);
  exits : list ScopeExit;
  deaths : list Destroy;
  acks : list StateReceipt;
}.
#[export] Instance eta_World : Eta World := fun w =>
  mkWorld (srv w) (cli w) (states w) (exits w) (deaths w) (acks w).

Inductive net_action :=
| ServerOffer (eligible : EligibleSet) (entity : EntityId) (dormant : bool) (project : RepresentationGrant -> P)
| ServerBarrier (world : N) (policy : PolicyRevision)
| ServerTransmit (entity : EntityId) (accepted : bool)
| ServerExit (entity : EntityId)
| ServerSendExit (n : nat)
| ServerDestroy (entity : EntityId)
| ServerSendDestroy (n : nat)
| ServerExitSent (x : ScopeExit)
| ServerDestroySent (d : Destroy)
| ServerExitAck (x : ScopeExit)
| ServerDestroyAck (d : Destroy)
| ServerAck (n : nat)
| ClientState (n : nat) (validate : P -> bool)
| ClientExit (n : nat)
| ClientDestroy (n : nat).

(** One action; messages are named by their position among those sent. [None] is a panic. *)
Definition net_step (w : World) (a : net_action) : option World :=
  match a with
  | ServerOffer eligible entity dormant project =>
      Some (w <| srv := (offer (srv w) eligible entity dormant project).1 |>)
  | ServerBarrier world policy => Some (w <| srv := (advance_barrier (srv w) world policy).1 |>)
  | ServerTransmit entity accepted =>
      let out := transmit_pending (srv w) entity (fun _ => accepted) in
      let w' := w <| srv := out.1 |> in
      match pending (srv w) entity with
      | Some st => Some (if accepted && negb (reset_required (srv w))
                         then w' <| states := states w ++ [st] |> else w')
      | None => Some w'
      end
  | ServerExit entity =>
      match exit (srv w) entity with
      | None => None
      | Some (s, Ok x) => Some (w <| srv := s |> <| exits := exits w ++ [x] |>)
      | Some (s, Err _) => Some (w <| srv := s |>)
      end
  | ServerSendExit n =>
      match pending_exits (srv w) !! n with
      | Some x => Some (w <| exits := exits w ++ [x] |>)
      | None => Some w
      end
  | ServerDestroy entity =>
      match destroy (srv w) entity with
      | None => None
      | Some (s, Ok d) => Some (w <| srv := s |> <| deaths := deaths w ++ [d] |>)
      | Some (s, Err _) => Some (w <| srv := s |>)
      end
  | ServerSendDestroy n =>
      match pending_destroys (srv w) !! n with
      | Some d => Some (w <| deaths := deaths w ++ [d] |>)
      | None => Some w
      end
  | ServerExitSent x => Some (w <| srv := (mark_exit_sent (srv w) x).1 |>)
  | ServerDestroySent d => Some (w <| srv := (mark_destroy_sent (srv w) d).1 |>)
  | ServerExitAck x => Some (w <| srv := (acknowledge_exit (srv w) x).1 |>)
  | ServerDestroyAck d => Some (w <| srv := (acknowledge_destroy (srv w) d).1 |>)
  | ServerAck n =>
      match acks w !! n with
      | Some rc => Some (w <| srv := (acknowledge (srv w) rc).1 |>)
      | None => Some w
      end
  | ClientState n validate =>
      match states w !! n with
      | Some st =>
          let out := apply_full (cli w) st validate in
          Some (match out.2 with
                | Ok rc => w <| cli := out.1 |> <| acks := acks w ++ [rc] |>
                | Err _ => w <| cli := out.1 |>
                end)
      | None => Some w
      end
  | ClientExit n =>
      match exits w !! n with
      | Some x => match apply_exit (cli w) x with Some out => Some (w <| cli := out.1 |>) | None => None end
      | None => Some w
      end
  | ClientDestroy n =>
      match deaths w !! n with
      | Some d => match apply_destroy (cli w) d with Some out => Some (w <| cli := out.1 |>) | None => None end
      | None => Some w
      end
  end.

Definition net_run (w : World) (acts : list net_action) : option World :=
  foldl (fun ow a => match ow with Some w => net_step w a | None => None end) (Some w) acts.

(** ** What the server has issued *)

(** Incarnations of one index in the order the server opens them. *)
Definition scope_before (a b : ScopeIdentity) : Prop :=
  index (scope_entity a) = index (scope_entity b)
  /\ (a = b \/ (scope_epoch a < scope_epoch b /\ generation (scope_entity a) <= generation (scope_entity b))).

Definition scope_valid (epoch : ConnectionEpoch) (s : ScopeIdentity) : Prop :=
  scope_connection s = epoch /\ generation (scope_entity s) <> 0 /\ scope_epoch s <> 0
  /\ scope_representation s <> 0.

Definition state_valid (epoch : ConnectionEpoch) (st : FullState P) : Prop :=
  scope_valid epoch (fs_scope st) /\ snapshot st <> 0 /\ version st <> 0
  /\ baseline_generation st = snapshot st.

(** Two publications of one scope: the same, or one before the other in every respect. *)
Definition published_before (a b : FullState P) : Prop :=
  snapshot a < snapshot b /\ version a < version b /\ end_tick a <= end_tick b.

Record record_ok (w : World) (i : N) (r : Delivery P) : Prop := mk_record_ok {
  ro_index : index (scope_entity (identity r)) = i;
  ro_valid : scope_valid (ss_epoch (srv w)) (identity r);
  ro_over : is_over (phase r) = true -> desired r = None /\ decoded r = None /\ sent r = ∅;
  ro_dead : dead r = true -> is_over (phase r) = true;
  ro_live : is_over (phase r) = false -> exists st, desired r = Some st;
  ro_sent : forall k rc, sent r !! k = Some rc -> rc_scope rc = identity r
    /\ exists st, st ∈ states w /\ receipt st = rc;
  ro_decoded : forall rc, decoded r = Some rc -> rc_scope rc = identity r /\ rc ∈ acks w;
}.

Record server_inv (issued : list (FullState P)) (w : World) : Prop := mk_server_inv {
  sv_record : forall i r, ss_records (srv w) !! i = Some r -> record_ok w i r;
  sv_desired : forall i r st, ss_records (srv w) !! i = Some r -> desired r = Some st ->
    st ∈ issued /\ fs_scope st = identity r;
  sv_bytes : ss_bytes (srv w) = map_sum desired_bytes (ss_records (srv w));
  sv_sent : forall st, st ∈ states w -> st ∈ issued;
  sv_issued : forall st, st ∈ issued -> state_valid (ss_epoch (srv w)) st
    /\ snapshot st < next_snapshot (srv w);
  sv_scope : forall st, st ∈ issued -> exists r,
    ss_records (srv w) !! index (scope_entity (fs_scope st)) = Some r
    /\ scope_before (fs_scope st) (identity r)
    /\ forall d, fs_scope st = identity r -> desired r = Some d -> st = d \/ published_before st d;
  sv_unique : forall a b, a ∈ issued -> b ∈ issued -> snapshot a = snapshot b -> a = b;
  sv_epoch : forall a b, a ∈ issued -> b ∈ issued ->
    index (scope_entity (fs_scope a)) = index (scope_entity (fs_scope b)) ->
    scope_epoch (fs_scope a) = scope_epoch (fs_scope b) -> fs_scope a = fs_scope b;
  sv_order : forall a b, a ∈ issued -> b ∈ issued -> fs_scope a = fs_scope b ->
    a = b \/ published_before a b \/ published_before b a;
  sv_exits : forall x, x ∈ exits w -> scope_valid (ss_epoch (srv w)) (exit_scope x) /\ exists r,
    ss_records (srv w) !! index (scope_entity (exit_scope x)) = Some r
    /\ scope_before (exit_scope x) (identity r)
    /\ (exit_scope x = identity r -> is_over (phase r) = true);
  sv_deaths : forall d, d ∈ deaths w -> destroy_connection d = ss_epoch (srv w) /\ exists r,
    ss_records (srv w) !! index (destroy_entity d) = Some r
    /\ generation (destroy_entity d) <= generation (scope_entity (identity r))
    /\ (destroy_entity d = scope_entity (identity r) -> dead r = true);
  sv_start : ss_epoch (srv w) <> 0 /\ 1 <= next_snapshot (srv w);
  sv_exit_epoch : forall x st, x ∈ exits w -> st ∈ issued ->
    index (scope_entity (exit_scope x)) = index (scope_entity (fs_scope st)) ->
    scope_epoch (exit_scope x) = scope_epoch (fs_scope st) -> exit_scope x = fs_scope st;
}.

(** The client's record is at or past a state. *)
Definition reached (c : ClientScopes P) (st : FullState P) : Prop :=
  exists r, cs_records c !! index (scope_entity (fs_scope st)) = Some r
    /\ replica_le (mkReplica (fs_scope st) false false (Some st)) r.

Record peer_inv (w : World) : Prop := mk_peer_inv {
  pv_client : client_inv (cli w);
  pv_epoch : cs_connection (cli w) = ss_epoch (srv w);
  pv_record : forall i r, cs_records (cli w) !! i = Some r ->
    match r_state r with
    | Some st => st ∈ states w
    | None => if destroyed r then mkDestroy (ss_epoch (srv w)) (scope_entity (r_scope r)) ∈ deaths w
              else mkScopeExit (r_scope r) ∈ exits w
    end;
  pv_acks : forall rc, rc ∈ acks w -> exists st, st ∈ states w /\ receipt st = rc /\ reached (cli w) st;
}.

Definition net_inv (w : World) : Prop := (exists issued, server_inv issued w) /\ peer_inv w.

(** ** Writing one record *)

(** A record of the same incarnation that has only moved forward. *)
Definition advances (r r' : Delivery P) : Prop :=
  identity r' = identity r /\ (desired r' = desired r \/ desired r' = None)
  /\ (dead r = true -> dead r' = true) /\ (is_over (phase r) = true -> is_over (phase r') = true).

(** The network's part of a world, unchanged. *)
Definition same_wire (w w' : World) : Prop :=
  states w' = states w /\ exits w' = exits w /\ deaths w' = deaths w /\ acks w' = acks w.

Lemma record_ok_wire w w' i r :
  same_wire w w' -> ss_epoch (srv w') = ss_epoch (srv w) -> record_ok w i r -> record_ok w' i r.
Proof. intros (H1 & H2 & H3 & H4) He [R1 R2 R3 R4 R5 R6 R7]. constructor; rewrite ?H1, ?H4, ?He; done. Qed.

(** Any pointwise progress of the records, with the bytes of what is left. *)
Lemma server_inv_advance issued w s :
  server_inv issued w -> ss_epoch s = ss_epoch (srv w) -> next_snapshot s = next_snapshot (srv w) ->
  ss_bytes s = map_sum desired_bytes (ss_records s) ->
  (forall i, ss_records (srv w) !! i = None -> ss_records s !! i = None) ->
  (forall i r, ss_records (srv w) !! i = Some r -> exists r', ss_records s !! i = Some r'
     /\ advances r r' /\ record_ok w i r') ->
  server_inv issued (w <| srv := s |>).
Proof.
  intros [S1 S2 S3 S4 S5 S6 S7 S8 S9 S10 S11 S12 S13] He Hn Hb Hnone Hadv.
  assert (forall i r', ss_records s !! i = Some r' -> exists r, ss_records (srv w) !! i = Some r
            /\ advances r r' /\ record_ok w i r') as Hback.
  { intros i r' Hr'. destruct (ss_records (srv w) !! i) as [r |] eqn:Hr.
    - destruct (Hadv i r Hr) as (r1 & Hr1 & H1 & H2). simplify_eq. eauto.
    - rewrite (Hnone i Hr) in Hr'. done. }
  constructor; simpl; rewrite ?He, ?Hn; try done.
  - intros i r' Hr'. destruct (Hback i r' Hr') as (r & _ & _ & Hok).
    eapply (record_ok_wire w); [by unfold same_wire | exact He | exact Hok].
  - intros i r' st Hr' Hd. destruct (Hback i r' Hr') as (r & Hr & (Hi & Hdes & _) & _).
    rewrite Hi. eapply S2; [exact Hr |]. destruct Hdes; congruence.
  - intros st Hst. destruct (S6 st Hst) as (r & Hr & Hbef & Hd).
    destruct (Hadv _ r Hr) as (r' & Hr' & (Hi & Hdes & _) & _). exists r'. rewrite Hi.
    split_and!; try done. intros d Hs Hdd. apply Hd; [done |]. destruct Hdes; congruence.
  - intros x Hx. destruct (S10 x Hx) as (Hv & r & Hr & Hbef & Hover). split; [done |].
    destruct (Hadv _ r Hr) as (r' & Hr' & (Hi & _ & _ & Ho) & _). exists r'. rewrite Hi. auto.
  - intros d Hd. destruct (S11 d Hd) as (Hv & r & Hr & Hg & Hdead). split; [done |].
    destruct (Hadv _ r Hr) as (r' & Hr' & (Hi & _ & Hdd & _) & _). exists r'. rewrite Hi. auto.
Qed.

Lemma advances_refl r : advances r r.
Proof. unfold advances. auto. Qed.

(** Progress of one record. *)
Lemma server_inv_put issued w i r r' s :
  server_inv issued w -> ss_records (srv w) !! i = Some r -> advances r r' -> record_ok w i r' ->
  ss_epoch s = ss_epoch (srv w) -> next_snapshot s = next_snapshot (srv w) ->
  ss_records s = <[i := r']> (ss_records (srv w)) ->
  ss_bytes s + desired_bytes r = ss_bytes (srv w) + desired_bytes r' ->
  server_inv issued (w <| srv := s |>).
Proof.
  intros Hinv Hr Hadv Hok He Hn Hrec Hb. apply server_inv_advance; try done.
  - rewrite Hrec. pose proof (map_sum_update desired_bytes (ss_records (srv w)) i r') as Hs.
    rewrite Hr in Hs. simpl in Hs. rewrite (sv_bytes _ _ Hinv) in Hb. lia.
  - intros x Hx. rewrite Hrec, lookup_insert_ne; [done |]. congruence.
  - intros x rx Hx. rewrite Hrec. destruct (decide (x = i)) as [-> | Hne].
    + simplify_eq. exists r'. rewrite lookup_insert_eq. done.
    + exists rx. rewrite lookup_insert_ne by done. split; [done |]. split; [apply advances_refl |].
      by apply (sv_record _ _ Hinv).
Qed.

(** ** Issuing a state *)

Lemma published_before_trans a b c :
  published_before a b -> published_before b c -> published_before a c.
Proof. unfold published_before. lia. Qed.

(** What the record of an index was before a state is issued for it. *)
Definition succeeds (r r' : Delivery P) (st : FullState P) : Prop :=
  generation (scope_entity (identity r)) <= generation (scope_entity (identity r'))
  /\ (scope_entity (identity r) = scope_entity (identity r') -> dead r = false)
  /\ (scope_epoch (identity r) < scope_epoch (identity r')
      \/ (identity r' = identity r /\ is_over (phase r) = false
          /\ exists previous, desired r = Some previous /\ published_before previous st)).

Section Issue.
Context (issued : list (FullState P)) (w : World) (s : ServerScopes P) (r' : Delivery P) (st : FullState P).
Let i := index (scope_entity (identity r')).
Hypothesis inv : server_inv issued w.
Hypothesis same_epoch : ss_epoch s = ss_epoch (srv w).
Hypothesis next : next_snapshot s = next_snapshot (srv w) + 1.
Hypothesis written : ss_records s = <[i := r']> (ss_records (srv w)).
Hypothesis wanted : desired r' = Some st.
Hypothesis scoped : fs_scope st = identity r'.
Hypothesis numbered : snapshot st = next_snapshot (srv w).
Hypothesis valid : state_valid (ss_epoch (srv w)) st.
Hypothesis fine : record_ok w i r'.
Hypothesis before : forall r, ss_records (srv w) !! i = Some r -> succeeds r r' st.

(** Issued states of the same index are of the old incarnation or an earlier one. *)
Lemma issued_before a :
  a ∈ issued -> index (scope_entity (fs_scope a)) = i ->
  scope_before (fs_scope a) (identity r')
  /\ (scope_epoch (fs_scope a) = scope_epoch (identity r') ->
      fs_scope a = identity r' /\ published_before a st).
Proof.
  intros Ha Hi. destruct (sv_scope _ _ inv a Ha) as (r & Hr & [_ Hbef] & Hd). rewrite Hi in Hr.
  destruct (before r Hr) as (Hg & _ & Hor). destruct Hor as [He | (Hid & _ & prev & Hprev & Hpb)].
  - split.
    + split; [by rewrite Hi |]. right. destruct Hbef as [-> | [? ?]]; lia.
    + intros Heq. destruct Hbef as [Hx | [? ?]]; [rewrite Hx in Heq |]; lia.
  - rewrite Hid. split; [split; [by rewrite Hi, <- Hid |]; done |].
    intros Heq. destruct Hbef as [Hx | [? ?]]; [| lia]. split; [done |].
    destruct (Hd prev Hx Hprev) as [-> | ?]; [done |]. by eapply published_before_trans.
Qed.

Lemma issue_unique a : a ∈ issued -> snapshot a < snapshot st.
Proof. intros Ha. rewrite numbered. by apply (sv_issued _ _ inv). Qed.

Lemma server_inv_issue :
  ss_bytes s + from_option desired_bytes 0 (ss_records (srv w) !! i) = ss_bytes (srv w) + desired_bytes r' ->
  server_inv (issued ++ [st]) (w <| srv := s |>).
Proof.
  intros Hb. pose proof inv as [S1 S2 S3 S4 S5 S6 S7 S8 S9 S10 S11 S12 S13].
  assert (forall a, a ∈ issued ++ [st] <-> a ∈ issued \/ a = st) as Hin.
  { intros a. rewrite elem_of_app, list_elem_of_singleton. done. }
  constructor; simpl; rewrite ?same_epoch; setoid_rewrite Hin || idtac.
  - rewrite written. intros x r [[<- <-] | [_ Hx]]%lookup_insert_Some;
      (eapply (record_ok_wire w); [by unfold same_wire | done |]); [done | by apply S1].
  - rewrite written. intros x r d [[<- <-] | [_ Hx]]%lookup_insert_Some Hd.
    + rewrite wanted in Hd. injection Hd as <-. auto.
    + destruct (S2 x r d Hx Hd). auto.
  - rewrite written. pose proof (map_sum_update desired_bytes (ss_records (srv w)) i r') as Hs.
    rewrite S3 in Hb. lia.
  - intros a Ha. left. by apply S4.
  - intros a [Ha | ->]; [destruct (S5 a Ha); split; [done | lia] |]. split; [done |]. lia.
  - intros a Ha. rewrite written. destruct (decide (index (scope_entity (fs_scope a)) = i)) as [Hi | Hi].
    + rewrite Hi, lookup_insert_eq. exists r'. split; [done |].
      destruct Ha as [Ha | ->].
      * destruct (issued_before a Ha Hi) as [Hbef Hsame]. split; [done |]. intros d Hs Hd.
        rewrite wanted in Hd. injection Hd as <-. right. apply Hsame. by rewrite Hs.
      * split; [split; [by rewrite scoped | by left] |]. intros d _ Hd. left. congruence.
    + rewrite lookup_insert_ne by done. destruct Ha as [Ha | ->]; [by apply S6 |].
      destruct Hi. by rewrite scoped.
  - intros a b [Ha | ->] [Hb' | ->] Heq; [by apply S7 | | | done].
    + pose proof (issue_unique a Ha). lia.
    + pose proof (issue_unique b Hb'). lia.
  - intros a b [Ha | ->] [Hb' | ->] Hi He; [by apply S8 | | | done].
    + rewrite scoped in *. by apply (issued_before a Ha).
    + rewrite scoped in *. symmetry. by apply (issued_before b Hb').
  - intros a b [Ha | ->] [Hb' | ->] Hs; [by apply S9 | | | by left].
    + right. left. destruct (issued_before a Ha) as [_ Hsame]; [by rewrite Hs, scoped |].
      apply Hsame. by rewrite Hs, scoped.
    + right. right. destruct (issued_before b Hb') as [_ Hsame]; [by rewrite <- Hs, scoped |].
      apply Hsame. by rewrite <- Hs, scoped.
  - intros x Hx. destruct (S10 x Hx) as (Hv & r & Hr & [Hidx Hbef] & Hover). split; [done |].
    rewrite written. destruct (decide (index (scope_entity (exit_scope x)) = i)) as [Hi | Hi].
    2: { exists r. rewrite lookup_insert_ne by done. done. }
    rewrite Hi, lookup_insert_eq. exists r'. split; [done |]. rewrite Hi in Hr.
    destruct (before r Hr) as (Hg & _ & [He | (Hid & Hno & _)]).
    + split; [split; [done |]; right; destruct Hbef as [-> | [? ?]]; lia |].
      intros Heq. destruct Hbef as [Hy | [? ?]]; [rewrite Hy in Heq |]; rewrite Heq in *; lia.
    + rewrite Hid. split; [done |]. intros Heq. rewrite Hover in Hno; done.
  - intros d Hd. destruct (S11 d Hd) as (Hv & r & Hr & Hg & Hdead). split; [done |].
    rewrite written. destruct (decide (index (destroy_entity d) = i)) as [Hi | Hi].
    2: { exists r. rewrite lookup_insert_ne by done. done. }
    rewrite Hi, lookup_insert_eq. exists r'. split; [done |]. rewrite Hi in Hr.
    destruct (before r Hr) as (Hg' & Halive & _). split; [lia |]. intros Heq.
    assert (destroy_entity d = scope_entity (identity r)) as Hde.
    { pose proof (ro_index _ _ _ (S1 _ _ Hr)) as Hri.
      destruct (destroy_entity d) as [x1 g1] eqn:E1, (scope_entity (identity r)) as [x2 g2] eqn:E2.
      rewrite <- Heq in Hg'. simpl in *. f_equal; [congruence | lia]. }
    specialize (Hdead Hde). rewrite Halive in Hdead; congruence.
  - rewrite next. split; [apply S12 | lia].
  - intros x a Hx [Ha | ->] Hidx He; [by apply S13 |]. rewrite scoped in *.
    destruct (S10 x Hx) as (_ & r & Hr & [_ Hbef] & _). rewrite Hidx in Hr.
    destruct (before r Hr) as (_ & _ & [Hlt | (Hid & _)]).
    + destruct Hbef as [Hy | [? ?]]; [rewrite Hy in He |]; lia.
    + rewrite Hid in *. destruct Hbef as [? | [? ?]]; [done | lia].
Qed.
End Issue.

(** ** The server's operations *)

(** A server that may follow another in a world. *)
Definition server_next (w : World) (s : ServerScopes P) : Prop :=
  ss_epoch s = ss_epoch (srv w) /\ exists issued, server_inv issued (w <| srv := s |>).

Lemma server_next_same w : (exists issued, server_inv issued w) -> server_next w (srv w).
Proof. intros [issued H]. split; [done |]. exists issued. by destruct w. Qed.

(** Fields the invariant does not read. *)
Lemma server_next_ext w s s' :
  ss_epoch s' = ss_epoch s -> ss_records s' = ss_records s -> next_snapshot s' = next_snapshot s ->
  ss_bytes s' = ss_bytes s -> server_next w s -> server_next w s'.
Proof.
  intros H1 H2 H3 H4 [He [issued [S1 S2 S3 S4 S5 S6 S7 S8 S9 S10 S11 S12 S13]]]. split; [congruence |].
  exists issued. simpl in *. constructor; simpl; rewrite ?H1, ?H2, ?H3, ?H4; try done.
  intros i r Hr. destruct (S1 i r Hr) as [R1 R2 R3 R4 R5 R6 R7]. constructor; simpl in *; rewrite ?H1; done.
Qed.

Lemma drop_payload_ok w i r p :
  record_ok w i r -> is_over p = true -> record_ok w i (drop_payload p r) /\ advances r (drop_payload p r).
Proof.
  intros [R1 R2 R3 R4 R5 R6 R7] Hp. split.
  - constructor; simpl; try done. by rewrite Hp.
  - unfold advances. simpl. auto.
Qed.

(** A change of every record that keeps no payload. *)
Lemma server_next_drop_all w s (f : Delivery P -> Delivery P) :
  (exists issued, server_inv issued w) ->
  ss_epoch s = ss_epoch (srv w) -> next_snapshot s = next_snapshot (srv w) -> ss_bytes s = 0 ->
  ss_records s = f <$> ss_records (srv w) ->
  (forall i r, record_ok w i r -> record_ok w i (f r) /\ advances r (f r) /\ desired (f r) = None) ->
  server_next w s.
Proof.
  intros [issued Hinv] He Hn Hb Hrec Hf. split; [done |]. exists issued.
  apply server_inv_advance; try done.
  - rewrite Hb, Hrec.
    assert (forall m : gmap N (Delivery P), (forall i r, m !! i = Some r -> desired r = None) ->
              map_sum desired_bytes m = 0) as Hz.
    { intros m. induction m as [| i r m Hi IH] using map_ind; intros Hm; [by rewrite map_sum_empty |].
      rewrite map_sum_insert by done. rewrite IH.
      - unfold desired_bytes. by rewrite (Hm i r) by apply lookup_insert_eq.
      - intros j q Hj. apply (Hm j). rewrite lookup_insert_ne; [done |]. congruence. }
    symmetry. apply Hz. intros i r. rewrite lookup_fmap. intros (r0 & Hr0 & ->)%fmap_Some.
    by apply (Hf i), (sv_record _ _ Hinv).
  - intros i Hi. by rewrite Hrec, lookup_fmap, Hi.
  - intros i r Hr. exists (f r). rewrite Hrec, lookup_fmap, Hr. split; [done |].
    destruct (Hf i r (sv_record _ _ Hinv i r Hr)) as (? & ? & _). done.
Qed.

Lemma require_reset_next w :
  (exists issued, server_inv issued w) -> server_next w (require_reset (srv w)).
Proof.
  intros Hinv. apply (server_next_drop_all w _ (drop_payload Forgotten)); try done.
  intros i r Hr. destruct (drop_payload_ok w i r Forgotten Hr eq_refl) as [? ?]. done.
Qed.

Lemma revoke_ok w i r :
  record_ok w i r -> record_ok w i (revoke r) /\ advances r (revoke r) /\ desired (revoke r) = None.
Proof.
  intros Hr. unfold revoke. destruct (decide (phase r = Forgotten)) as [Hf | Hf].
  - split; [done |]. split; [apply advances_refl |]. apply (ro_over _ _ _ Hr). by rewrite Hf.
  - destruct (drop_payload_ok w i r (if dead r then Forgotten else Leaving) Hr) as [Hok Hadv].
    { by destruct (dead r). }
    split; [| done]. destruct Hok as [R1 R2 R3 R4 R5 R6 R7]. constructor; done.
Qed.

Lemma advance_barrier_next w world policy :
  (exists issued, server_inv issued w) -> server_next w (advance_barrier (srv w) world policy).1.
Proof.
  intros Hinv. unfold advance_barrier. destruct (reset_required _); [by apply server_next_same |].
  destruct (decide _); [by apply server_next_same |].
  destruct (decide (policy <> _)) as [Hp | Hp].
  - destruct (decide _); [by apply require_reset_next |]. simpl.
    eapply (server_next_drop_all w _ revoke); try done. intros i r Hr. by apply revoke_ok.
  - simpl. eapply server_next_ext; [..| by apply server_next_same]; done.
Qed.

Lemma refresh_not_over (r : Delivery P) : is_over (phase (refresh_phase r)) = false.
Proof. unfold refresh_phase. simpl. destruct (decoded r); [| done]. by destruct (_ && _). Qed.

(** Recomputing the phase of a record in scope. *)
Lemma refresh_ok w i r :
  record_ok w i r -> is_over (phase r) = false -> record_ok w i (refresh_phase r).
Proof.
  intros [R1 R2 R3 R4 R5 R6 R7] Ho. pose proof (refresh_not_over r) as Hn. constructor; try done.
  - rewrite Hn. done.
  - intros Hd. change (dead r = true) in Hd. rewrite R4 in Ho; done.
  - intros _. exact (R5 Ho).
Qed.

Lemma refresh_advances (r r0 : Delivery P) :
  identity r = identity r0 -> desired r = desired r0 -> dead r = dead r0 -> is_over (phase r0) = false ->
  advances r0 (refresh_phase r).
Proof.
  intros H1 H2 H3 Ho. unfold advances. rewrite Ho. simpl. rewrite H1, H2, H3. split_and!; auto. done.
Qed.

(** One record moved forward, its bytes with it. *)
Lemma put_record_next w i r r' s :
  (exists issued, server_inv issued w) -> ss_records (srv w) !! i = Some r ->
  advances r r' -> record_ok w i r' ->
  ss_epoch s = ss_epoch (srv w) -> next_snapshot s = next_snapshot (srv w) ->
  ss_records s = <[i := r']> (ss_records (srv w)) ->
  ss_bytes s + desired_bytes r = ss_bytes (srv w) + desired_bytes r' ->
  server_next w s.
Proof. intros [issued Hinv] Hr Ha Hok He Hn Hrec Hb. split; [done |]. exists issued. by eapply server_inv_put. Qed.

Lemma put_same_next w i r r' :
  (exists issued, server_inv issued w) -> ss_records (srv w) !! i = Some r ->
  advances r r' -> desired r' = desired r -> record_ok w i r' -> server_next w (put_record (srv w) i r').
Proof.
  intros Hinv Hr Ha Hd Hok. eapply (put_record_next w i r r'); try done.
  unfold desired_bytes. by rewrite Hd.
Qed.

Lemma publish_next w entity rep v t dormant payload :
  (exists issued, server_inv issued w) ->
  let old := ss_records (srv w) !! index entity in
  generation entity <> 0 -> rep <> 0 -> v <> 0 ->
  (forall r, old = Some r -> generation (scope_entity (identity r)) <= generation entity
     /\ ~ (generation entity = generation (scope_entity (identity r)) /\ dead r = true)) ->
  (forall r, old = Some r -> needs_scope old entity rep = false -> exists previous, desired r = Some previous
     /\ version previous < v /\ end_tick previous <= t) ->
  server_next w (publish (srv w) old entity rep v t dormant payload).1.
Proof.
  intros [issued Hinv] old Hg Hrep Hv Hgen Hprev. destruct (sv_start _ _ Hinv) as [Hep Hns]. unfold publish.
  destruct (checked_sub (ss_bytes (srv w)) (from_option desired_bytes 0 old)) as [n |] eqn:Hsub; simpl;
    [| by apply server_next_same; eauto].
  apply checked_sub_Some in Hsub as [Hle ->].
  destruct (checked_add _ _ _) as [bytes |] eqn:Hadd; simpl; [| by apply server_next_same; eauto].
  apply checked_add_Some in Hadd as [-> _].
  destruct (_ || _); [by apply server_next_same; eauto |].
  destruct (match old with None => Ok 1 | Some r => _ end) as [scope |] eqn:Hscope;
    [| by apply server_next_same; eauto].
  destruct (checked_next u64_max (next_snapshot (srv w))) as [next |] eqn:Hnext; simpl;
    [| by apply server_next_same; eauto].
  apply checked_add_Some in Hnext as [-> _]. split; [done |].
  set (id := mkScopeIdentity (ss_epoch (srv w)) entity scope rep) in *.
  set (st := mkFullState id (next_snapshot (srv w)) (next_snapshot (srv w)) v t payload) in *.
  exists (issued ++ [st]).
  assert (scope <> 0) as Hs0.
  { destruct old as [r |] eqn:Hold; [| by injection Hscope as <-].
    destruct (needs_scope _ _ _).
    - destruct (checked_next _ _) as [m |] eqn:Hm in Hscope; [| done]. apply checked_add_Some in Hm as [-> _].
      injection Hscope as <-. lia.
    - injection Hscope as <-. by apply (sv_record _ _ Hinv _ _ Hold). }
  assert (state_valid (ss_epoch (srv w)) st) as Hvalid.
  { unfold state_valid, scope_valid. simpl. split_and!; try done; lia. }
  set (fresh := mkDelivery id (Some st) ∅ None dormant Entering false false) in *.
  assert (record_ok w (index entity) fresh) as Hfresh by (constructor; simpl; try done; eauto).
  destruct (needs_scope old entity rep) eqn:Hneeds.
  - assert (match old with Some _ => fresh | None => fresh end = fresh) as -> by (by destruct old).
    apply (server_inv_issue issued w _ fresh st Hinv); try done.
    2: { change (desired_bytes fresh) with (retained_bytes payload). simpl. fold old. lia. }
    simpl. intros r Hr. fold old in Hr. rewrite Hr in Hscope. destruct (Hgen r Hr) as [Hge Hnd].
    destruct (checked_next _ _) as [m |] eqn:Hm in Hscope; [| done]. apply checked_add_Some in Hm as [-> _].
    injection Hscope as <-. unfold succeeds. simpl. split_and!; [done | | left; lia].
    intros Heq. destruct (dead r) eqn:Hd; [| done]. destruct Hnd. rewrite Heq. done.
  - destruct old as [r |] eqn:Hold; [| done]. injection Hscope as <-.
    destruct (Hprev r eq_refl eq_refl) as (previous & Hpd & Hpv & Hpt).
    unfold needs_scope in Hneeds. rewrite !orb_false_iff, !bool_decide_eq_false in Hneeds.
    destruct Hneeds as [[He1%dec_stable He2%dec_stable] Hno].
    pose proof (sv_record _ _ Hinv _ _ Hold) as Hrok. pose proof (ro_valid _ _ _ Hrok) as [Hrc _].
    assert (id = identity r) as Hid.
    { unfold id. destruct (identity r) as [c0 e0 s0 p0] eqn:E. simpl in *. by subst. }
    apply (server_inv_issue issued w _ (refresh_phase (r <| desired := Some st |> <| is_dormant := dormant |>)) st Hinv);
      try done; simpl; rewrite ?He1; try done.
    + destruct Hrok as [R1 R2 R3 R4 R5 R6 R7]. apply refresh_ok; [| done]. constructor; simpl; try done; [| eauto].
      intros Hx. rewrite Hx in Hno. done.
    + intros r0 Hr0. change (old = Some r0) in Hr0. rewrite Hold in Hr0. injection Hr0 as <-. unfold succeeds. simpl. split_and!; [done | |].
      * intros _. destruct (dead r) eqn:Hd; [| done]. rewrite (ro_dead _ _ _ Hrok Hd) in Hno. done.
      * right. split_and!; try done. exists previous. split; [done |]. unfold published_before. simpl.
        destruct (sv_desired _ _ Hinv _ _ _ Hold Hpd) as [Hin _]. destruct (sv_issued _ _ Hinv _ Hin). lia.
    + change (ss_records (srv w) !! index entity) with old. rewrite Hold. simpl in Hle |- *.
      set (d := desired_bytes r) in *. unfold desired_bytes. simpl. lia.
Qed.

Lemma offer_projected_next w entity rep v t dormant payload :
  (exists issued, server_inv issued w) ->
  server_next w (offer_projected (srv w) entity rep v t dormant payload).1.
Proof.
  intros Hinv. pose proof (server_next_same w Hinv) as Hsame. unfold offer_projected.
  destruct (reset_required _); [done |]. destruct (decide _) as [| Hids]; [done |].
  destruct (_ && _); [done |].
  destruct (match ss_records (srv w) !! index entity with Some r => _ | None => false end) eqn:Hst; [done |].
  destruct (_ && _ && _); [done |].
  assert (forall r, ss_records (srv w) !! index entity = Some r ->
            generation (scope_entity (identity r)) <= generation entity
            /\ ~ (generation entity = generation (scope_entity (identity r)) /\ dead r = true)) as Hgen.
  { intros r Hr. rewrite Hr in Hst. apply orb_false_iff in Hst as [Hlt%bool_decide_eq_false Hd].
    split; [lia |]. intros [Heq Hdead]. by rewrite (bool_decide_eq_true_2 _ Heq), Hdead in Hd. }
  destruct (needs_scope (ss_records (srv w) !! index entity) entity rep) eqn:Hneeds.
  { apply publish_next; try done; try tauto. congruence. }
  destruct (ss_records (srv w) !! index entity) as [r |] eqn:Hr; [| done].
  destruct (desired r) as [previous |] eqn:Hd; [| done].
  destruct (decide _) as [| Hnew]; [done |]. destruct (decide _) as [Hv | Hv].
  - destruct (negb _); [done |]. simpl.
    unfold needs_scope in Hneeds. apply orb_false_iff in Hneeds as [_ Hno].
    destruct Hinv as [issued Hinv]. pose proof (sv_record _ _ Hinv _ _ Hr) as Hrok.
    apply (put_same_next w _ r); try done; [by eexists | by apply refresh_advances |].
    apply refresh_ok; [| done]. destruct Hrok as [R1 R2 R3 R4 R5 R6 R7]. constructor; done.
  - rewrite <- Hr in *. apply publish_next; try done; try tauto. intros r0 Hr0 _. rewrite Hr in Hr0. injection Hr0 as <-.
    exists previous. split; [done |]. lia.
Qed.

Lemma offer_next w eligible entity dormant project :
  (exists issued, server_inv issued w) -> server_next w (offer (srv w) eligible entity dormant project).1.
Proof.
  intros Hinv. pose proof (server_next_same w Hinv) as Hsame. unfold offer.
  destruct (reset_required _); [done |]. destruct (_ || _); [done |].
  destruct (entries eligible !! entity); [| done]. by apply offer_projected_next.
Qed.

Lemma record_of_Some (s : ServerScopes P) entity r : record_of s entity = Some r ->
  ss_records s !! index entity = Some r /\ scope_entity (identity r) = entity.
Proof.
  unfold record_of. destruct (ss_records s !! index entity) as [r0 |]; [| done].
  destruct (decide _); [| done]. by intros [= ->].
Qed.

(** ** Growing the wire *)

Lemma server_inv_send issued w st :
  server_inv issued w -> st ∈ issued -> server_inv issued (w <| states := states w ++ [st] |>).
Proof.
  intros [S1 S2 S3 S4 S5 S6 S7 S8 S9 S10 S11 S12 S13] Hst. constructor; simpl; try done.
  - intros i r Hr. destruct (S1 i r Hr) as [R1 R2 R3 R4 R5 R6 R7]. constructor; try done.
    intros k rc Hk. destruct (R6 k rc Hk) as (? & st' & ? & ?). split; [done |]. exists st'.
    split; [| done]. simpl. rewrite elem_of_app. by left.
  - intros a [Ha | ->%list_elem_of_singleton]%elem_of_app; auto.
Qed.

Lemma server_inv_exit issued w x r :
  server_inv issued w -> ss_records (srv w) !! index (scope_entity (exit_scope x)) = Some r ->
  identity r = exit_scope x -> is_over (phase r) = true ->
  server_inv issued (w <| exits := exits w ++ [x] |>).
Proof.
  intros [S1 S2 S3 S4 S5 S6 S7 S8 S9 S10 S11 S12 S13] Hr Hid Ho. constructor; simpl; try done.
  - intros i q Hq. destruct (S1 i q Hq) as [R1 R2 R3 R4 R5 R6 R7]. constructor; done.
  - intros y [Hy | ->%list_elem_of_singleton]%elem_of_app; [auto |].
    split; [rewrite <- Hid; by apply (S1 _ _ Hr) |]. exists r. rewrite Hid.
    split; [done |]. split; [split; [done | by left] | done].
  - intros y a [Hy | ->%list_elem_of_singleton]%elem_of_app Ha Hidx He; [by apply S13 |].
    destruct (S6 a Ha) as (q & Hq & [_ Hbef] & _). rewrite <- Hidx, Hr in Hq. injection Hq as <-.
    rewrite Hid in Hbef. destruct Hbef as [? | [? ?]]; [done | lia].
Qed.

Lemma server_inv_death issued w d r :
  server_inv issued w -> ss_records (srv w) !! index (destroy_entity d) = Some r ->
  destroy_connection d = ss_epoch (srv w) -> scope_entity (identity r) = destroy_entity d -> dead r = true ->
  server_inv issued (w <| deaths := deaths w ++ [d] |>).
Proof.
  intros [S1 S2 S3 S4 S5 S6 S7 S8 S9 S10 S11 S12 S13] Hr Hc Hid Hd. constructor; simpl; try done.
  - intros i q Hq. destruct (S1 i q Hq) as [R1 R2 R3 R4 R5 R6 R7]. constructor; done.
  - intros y [Hy | ->%list_elem_of_singleton]%elem_of_app; [auto |].
    split; [done |]. exists r. rewrite Hid. done.
Qed.

Lemma server_inv_acked issued w rc :
  server_inv issued w -> server_inv issued (w <| acks := acks w ++ [rc] |>).
Proof.
  intros [S1 S2 S3 S4 S5 S6 S7 S8 S9 S10 S11 S12 S13]. constructor; simpl; try done.
  intros i r Hr. destruct (S1 i r Hr) as [R1 R2 R3 R4 R5 R6 R7]. constructor; try done.
  intros rc' Hrc. destruct (R7 rc' Hrc). split; [done |]. simpl. rewrite elem_of_app. by left.
Qed.

(** The server's side does not see the client. *)
Lemma server_inv_client issued w c : server_inv issued w -> server_inv issued (w <| cli := c |>).
Proof.
  intros [S1 S2 S3 S4 S5 S6 S7 S8 S9 S10 S11 S12 S13]. constructor; simpl; try done.
  intros i r Hr. destruct (S1 i r Hr) as [R1 R2 R3 R4 R5 R6 R7]. constructor; done.
Qed.

(** ** Proofs of delivery, exits and destructions *)

Lemma pop_first_lookup m k rc : pop_first m !! k = Some rc -> m !! k = Some rc.
Proof. unfold pop_first. destruct (merge_sort _ _); [done |]. by intros [_ ?]%lookup_delete_Some. Qed.

Lemma mark_sent_next w rc st :
  (exists issued, server_inv issued w) -> st ∈ states w -> receipt st = rc ->
  server_next w (mark_sent (srv w) rc).1.
Proof.
  intros Hinv Hst Hrc. pose proof (server_next_same w Hinv) as Hsame. unfold mark_sent.
  destruct (ss_records (srv w) !! _) as [r |] eqn:Hr; [| done].
  destruct (_ || _) eqn:Hg; [done |]. rewrite !orb_false_iff, !bool_decide_eq_false in Hg.
  destruct Hg as [[Hid%dec_stable Hno] _]. destruct Hinv as [issued Hinv].
  pose proof (sv_record _ _ Hinv _ _ Hr) as [R1 R2 R3 R4 R5 R6 R7].
  apply (put_same_next w _ r); try done; [by eexists | split_and!; auto |].
  constructor; simpl; try done.
    + intros Hx. congruence.
    + intros k rc' [[<- <-] | [_ Hk]]%lookup_insert_Some; [by eauto |]. apply (R6 k).
      destruct (_ && _) in Hk; [by apply pop_first_lookup | done].
Qed.

Lemma pending_Some (s : ServerScopes P) entity st : pending s entity = Some st ->
  exists r, ss_records s !! index entity = Some r /\ desired r = Some st /\ is_over (phase r) = false.
Proof.
  unfold pending. destruct (record_of s entity) as [r |] eqn:Hr; [| done]. apply record_of_Some in Hr as [Hr _].
  destruct (is_over (phase r)) eqn:Ho; [done |]. destruct (desired r) as [d |] eqn:Hd; [| done].
  destruct (decide _); [done |]. intros [= ->]. eauto.
Qed.

Lemma acknowledge_next w rc :
  (exists issued, server_inv issued w) -> rc ∈ acks w -> server_next w (acknowledge (srv w) rc).1.
Proof.
  intros Hinv Hrc. pose proof (server_next_same w Hinv) as Hsame. unfold acknowledge.
  destruct (validate_acknowledgment (srv w) rc) as [u |] eqn:Hv; [| done].
  unfold validate_acknowledgment in Hv. destruct (ss_records (srv w) !! _) as [r |] eqn:Hr; [| done].
  destruct (_ || _) eqn:Hg in Hv; [done |]. apply orb_false_iff in Hg as [Hid%bool_decide_eq_false Hno].
  apply dec_stable in Hid. destruct (decide (decoded r = Some rc)); [done |].
  destruct Hinv as [issued Hinv]. pose proof (sv_record _ _ Hinv _ _ Hr) as [R1 R2 R3 R4 R5 R6 R7].
  apply (put_same_next w _ r); try done; [by eexists | by apply refresh_advances |].
  apply refresh_ok; [| done]. constructor; simpl; try done.
    + intros Hx. congruence.
    + intros k rc' [Hk _]%map_lookup_filter_Some. by apply (R6 k).
    + intros rc' [= <-]. done.
Qed.

Lemma desired_bytes_le issued w i r :
  server_inv issued w -> ss_records (srv w) !! i = Some r -> desired_bytes r <= ss_bytes (srv w).
Proof. intros Hinv Hr. rewrite (sv_bytes _ _ Hinv), (map_sum_delete desired_bytes _ _ _ Hr). lia. Qed.

(** Leaving a scope: never a panic, and afterwards the record is over. *)
Lemma exit_next w entity :
  (exists issued, server_inv issued w) ->
  exists s res, exit (srv w) entity = Some (s, res) /\ server_next w s
    /\ forall x, res = Ok x -> index (scope_entity (exit_scope x)) = index entity
         /\ exists r, ss_records s !! index entity = Some r /\ identity r = exit_scope x
              /\ scope_entity (identity r) = entity /\ is_over (phase r) = true.
Proof.
  intros Hinv. pose proof (server_next_same w Hinv) as Hsame. unfold exit.
  destruct (reset_required _); [by eexists _, _ |].
  destruct (record_of (srv w) entity) as [r |] eqn:Hr; [| by eexists _, _].
  apply record_of_Some in Hr as [Hr Hent]. destruct (dead r) eqn:Hd; [by eexists _, _ |].
  destruct (_ && _).
  { eexists _, _. split; [done |]. split; [by apply require_reset_next | done]. }
  destruct (is_over (phase r)) eqn:Ho.
  { eexists _, _. split; [done |]. split; [done |]. intros x [= <-]. simpl. rewrite Hent.
    split; [done |]. exists r. done. }
  destruct Hinv as [issued Hinv]. pose proof (desired_bytes_le _ _ _ _ Hinv Hr) as Hle.
  unfold checked_sub. destruct (decide _); [| done]. eexists _, _. split; [done |].
  pose proof (sv_record _ _ Hinv _ _ Hr) as Hrok.
  destruct (drop_payload_ok w _ r Leaving Hrok eq_refl) as [[R1 R2 R3 R4 R5 R6 R7] Hadv]. split.
  - eapply (put_record_next w (index entity) r ((drop_payload Leaving r) <| exit_sent := false |>));
      [by eexists | exact Hr | exact Hadv | constructor; done | done | done | done |].
    change (desired_bytes ((drop_payload Leaving r) <| exit_sent := false |>)) with 0. simpl. lia.
  - intros x [= <-]. simpl. rewrite Hent. split; [done |]. rewrite lookup_insert_eq. eexists. done.
Qed.

Lemma destroy_next w entity :
  (exists issued, server_inv issued w) ->
  exists s res, destroy (srv w) entity = Some (s, res) /\ server_next w s
    /\ forall d, res = Ok d -> d = mkDestroy (ss_epoch (srv w)) entity
         /\ exists r, ss_records s !! index entity = Some r /\ scope_entity (identity r) = entity /\ dead r = true.
Proof.
  intros Hinv. pose proof (server_next_same w Hinv) as Hsame. unfold destroy.
  destruct (reset_required _); [by eexists _, _ |].
  destruct (record_of (srv w) entity) as [r |] eqn:Hr; [| by eexists _, _].
  apply record_of_Some in Hr as [Hr Hent]. destruct (dead r) eqn:Hd.
  { eexists _, _. split; [done |]. split; [done |]. intros d. destruct (decide _); [| done]. intros [= <-]. eauto. }
  destruct (is_over (phase r)) eqn:Ho; [by eexists _, _ |].
  destruct (exit_next w entity Hinv) as (s & res & -> & Hs & Hx).
  destruct res as [x | e]; [| by eexists _, _].
  destruct (Hx x eq_refl) as (Hi & r1 & Hr1 & Hid & Hent1 & Ho1). rewrite Hr1.
  eexists _, _. split; [done |]. destruct Hs as [He [issued Hs]]. split.
  - pose proof (sv_record _ _ Hs _ _ Hr1) as [R1 R2 R3 R4 R5 R6 R7]. simpl in *.
    assert (server_next (w <| srv := s |>) (put_record s (index entity) (r1 <| dead := true |>))) as [_ Hs'].
    { set (r2 := (r1 <| dead := true |> : Delivery P)).
      refine (put_same_next (w <| srv := s |>) (index entity) r1 r2 _ Hr1 _ _ _);
        [by eexists | unfold advances; simpl; auto | done | constructor; done]. }
    split; [exact He | exact Hs'].
  - intros d [= <-]. rewrite He. split; [done |]. simpl. rewrite lookup_insert_eq. eexists. done.
Qed.

(** Bookkeeping of what transport accepted or the peer confirmed. *)
Lemma flag_next w i r r' s :
  (exists issued, server_inv issued w) -> ss_records (srv w) !! i = Some r ->
  identity r' = identity r -> desired r' = desired r -> sent r' = sent r -> decoded r' = decoded r ->
  dead r' = dead r -> (is_over (phase r) = true /\ is_over (phase r') = true) ->
  s = put_record (srv w) i r' -> server_next w s.
Proof.
  intros [issued Hinv] Hr H1 H2 H3 H4 H5 [Ho Ho'] ->.
  pose proof (sv_record _ _ Hinv _ _ Hr) as [R1 R2 R3 R4 R5 R6 R7].
  apply (put_same_next w i r); try done; [by eexists | |].
  - unfold advances. rewrite H1, H2, H5. auto.
  - constructor; rewrite ?H1, ?H2, ?H3, ?H4; try done.
    + intros _. by apply R3.
    + congruence.
Qed.

(** ** The peer *)

Lemma peer_inv_grow w w' :
  peer_inv w -> cli w' = cli w -> ss_epoch (srv w') = ss_epoch (srv w) -> acks w' = acks w ->
  states w ⊆ states w' -> exits w ⊆ exits w' -> deaths w ⊆ deaths w' -> peer_inv w'.
Proof.
  intros [P1 P2 P3 P4] Hc He Ha Hs Hx Hd. constructor; rewrite ?Hc, ?He, ?Ha; try done.
  - intros i r Hr. specialize (P3 i r Hr). destruct (r_state r); [by apply Hs |].
    destruct (destroyed r); [by apply Hd | by apply Hx].
  - intros rc Hrc. destruct (P4 rc Hrc) as (st & ? & ? & ?). exists st. auto.
Qed.

Lemma reached_le c c' st : client_le c c' -> reached c st -> reached c' st.
Proof.
  intros Hle (r & Hr & Hrl). destruct (Hle _ r Hr) as (r' & Hr' & Hl). exists r'.
  split; [done | by eapply replica_le_trans].
Qed.

(** A client step that writes at most one justified record. *)
Lemma peer_inv_client w c' i r' :
  peer_inv w -> client_inv c' -> client_le (cli w) c' -> cs_connection c' = cs_connection (cli w) ->
  (c' = cli w \/ cs_records c' = <[i := r']> (cs_records (cli w))) ->
  match r_state r' with
  | Some st => st ∈ states w
  | None => if destroyed r' then mkDestroy (ss_epoch (srv w)) (scope_entity (r_scope r')) ∈ deaths w
            else mkScopeExit (r_scope r') ∈ exits w
  end ->
  peer_inv (w <| cli := c' |>).
Proof.
  intros [P1 P2 P3 P4] Hi Hle Hc Hrec Hr'. constructor; simpl; try done; [congruence | |].
  - destruct Hrec as [-> | ->]; [done |]. intros x r [[<- <-] | [_ Hx]]%lookup_insert_Some; [done | by eapply P3].
  - intros rc Hrc. destruct (P4 rc Hrc) as (st & ? & ? & ?). exists st. split_and!; try done.
    by eapply reached_le.
Qed.

Lemma peer_inv_ack w rc st :
  peer_inv w -> st ∈ states w -> receipt st = rc -> reached (cli w) st ->
  peer_inv (w <| acks := acks w ++ [rc] |>).
Proof.
  intros [P1 P2 P3 P4] Hst Hrc Hre. constructor; simpl; try done.
  intros rc' [Hin | ->%list_elem_of_singleton]%elem_of_app; [auto |]. eauto.
Qed.

Lemma server_step_ok w s : net_inv w -> server_next w s -> net_inv (w <| srv := s |>).
Proof.
  intros [_ Hp] [He Hs]. split; [done |]. by eapply (peer_inv_grow w).
Qed.

Lemma elem_of_records_where (s : ServerScopes P) f id :
  id ∈ records_where s f -> exists i r, ss_records s !! i = Some r /\ f r = true /\ identity r = id.
Proof.
  unfold records_where. intros (i & _ & Hi)%list_elem_of_omap. destruct (ss_records s !! i) as [r |] eqn:Hr; [| done].
  destruct (f r) eqn:Hf; [| done]. injection Hi as <-. eauto.
Qed.

(** ** Every action *)

Lemma transmit_ok w entity accepted :
  net_inv w -> exists w', net_step w (ServerTransmit entity accepted) = Some w' /\ net_inv w'.
Proof.
  intros Hinv. pose proof Hinv as [[issued Hs] Hp]. simpl.
  assert (exists issued, server_inv issued w) as Hex by eauto.
  pose proof (server_step_ok w _ Hinv (server_next_same w Hex)) as Hid.
  unfold transmit_pending. destruct (pending (srv w) entity) as [st |] eqn:Hpend; [| by destruct (reset_required _); eexists].
  destruct (reset_required (srv w)) eqn:Hres; simpl; [rewrite andb_false_r; by eexists |].
  destruct accepted; simpl; [| by eexists]. eexists. split; [done |].
  apply pending_Some in Hpend as (r & Hr & Hd & Ho).
  destruct (sv_desired _ _ Hs _ _ _ Hr Hd) as [Hiss _].
  set (w1 := w <| states := states w ++ [st] |>).
  assert (net_inv w1) as Hinv1.
  { split; [exists issued; by apply server_inv_send |]. apply (peer_inv_grow w); try done.
    intros x Hx. simpl. rewrite elem_of_app. by left. }
  apply (server_step_ok w1 _ Hinv1). apply (mark_sent_next w1 _ st); [apply Hinv1 | | done].
  simpl. rewrite elem_of_app, list_elem_of_singleton. by right.
Qed.

Lemma exits_ok w : net_inv w ->
  (forall entity, exists w', net_step w (ServerExit entity) = Some w' /\ net_inv w')
  /\ (forall n, exists w', net_step w (ServerSendExit n) = Some w' /\ net_inv w').
Proof.
  intros Hinv. assert (forall w1 x r, net_inv w1 ->
      ss_records (srv w1) !! index (scope_entity (exit_scope x)) = Some r ->
      identity r = exit_scope x -> is_over (phase r) = true -> net_inv (w1 <| exits := exits w1 ++ [x] |>)) as Hadd.
  { intros w1 x r [[issued Hs] Hp] Hr Hid Ho. split; [exists issued; by eapply server_inv_exit |].
    apply (peer_inv_grow w1); try done. intros y Hy. simpl. rewrite elem_of_app. by left. }
  split.
  - intros entity. simpl. destruct (exit_next w entity (proj1 Hinv)) as (s & res & -> & Hs & Hx).
    pose proof (server_step_ok w s Hinv Hs) as Hinv1. destruct res as [x | e]; [| by eexists].
    destruct (Hx x eq_refl) as (Hi & r & Hr & Hid & _ & Ho). eexists. split; [done |].
    set (w1 := w <| srv := s |>) in *. change (net_inv (w1 <| exits := exits w1 ++ [x] |>)).
    apply (Hadd w1 x r); try done. simpl. by rewrite Hi.
  - intros n. simpl. destruct (pending_exits (srv w) !! n) as [x |] eqn:Hn; [| by eexists].
    eexists. split; [done |]. apply list_elem_of_lookup_2 in Hn. unfold pending_exits in Hn.
    apply list_elem_of_fmap in Hn as (id & -> & Hid). apply elem_of_records_where in Hid as (i & r & Hr & Hf & <-).
    apply andb_true_iff in Hf as [Hf%bool_decide_eq_true _]. destruct Hinv as [[issued Hs] Hp] eqn:?.
    apply (Hadd w _ r); try done; [| simpl; by rewrite Hf]. simpl.
    by rewrite (ro_index _ _ _ (sv_record _ _ Hs _ _ Hr)).
Qed.

Lemma deaths_ok w : net_inv w ->
  (forall entity, exists w', net_step w (ServerDestroy entity) = Some w' /\ net_inv w')
  /\ (forall n, exists w', net_step w (ServerSendDestroy n) = Some w' /\ net_inv w').
Proof.
  intros Hinv. assert (forall w1 d r, net_inv w1 ->
      ss_records (srv w1) !! index (destroy_entity d) = Some r -> destroy_connection d = ss_epoch (srv w1) ->
      scope_entity (identity r) = destroy_entity d -> dead r = true ->
      net_inv (w1 <| deaths := deaths w1 ++ [d] |>)) as Hadd.
  { intros w1 d r [[issued Hs] Hp] Hr Hc Hid Ho. split; [exists issued; by eapply server_inv_death |].
    apply (peer_inv_grow w1); try done. intros y Hy. simpl. rewrite elem_of_app. by left. }
  split.
  - intros entity. simpl. destruct (destroy_next w entity (proj1 Hinv)) as (s & res & -> & Hs & Hx).
    pose proof (server_step_ok w s Hinv Hs) as Hinv1. destruct res as [d | e]; [| by eexists].
    destruct (Hx d eq_refl) as (-> & r & Hr & Hid & Ho). eexists. split; [done |].
    set (w1 := w <| srv := s |>) in *.
    change (net_inv (w1 <| deaths := deaths w1 ++ [mkDestroy (ss_epoch (srv w)) entity] |>)).
    apply (Hadd w1 _ r); try done. simpl. symmetry. apply Hs.
  - intros n. simpl. destruct (pending_destroys (srv w) !! n) as [d |] eqn:Hn; [| by eexists].
    eexists. split; [done |]. apply list_elem_of_lookup_2 in Hn. unfold pending_destroys in Hn.
    apply list_elem_of_fmap in Hn as (id & -> & Hid). apply elem_of_records_where in Hid as (i & r & Hr & Hf & <-).
    apply andb_true_iff in Hf as [_ Hf]. destruct Hinv as [[issued Hs] Hp] eqn:?.
    apply (Hadd w _ r); try done. simpl. by rewrite (ro_index _ _ _ (sv_record _ _ Hs _ _ Hr)).
Qed.

Lemma flags_next w : (exists issued, server_inv issued w) ->
  (forall x, server_next w (mark_exit_sent (srv w) x).1) /\ (forall x, server_next w (acknowledge_exit (srv w) x).1)
  /\ (forall d, server_next w (mark_destroy_sent (srv w) d).1)
  /\ (forall d, server_next w (acknowledge_destroy (srv w) d).1).
Proof.
  intros Hinv. pose proof (server_next_same w Hinv) as Hsame. split_and!.
  - intros x. unfold mark_exit_sent. destruct (ss_records (srv w) !! _) as [r |] eqn:Hr; [| done].
    destruct (_ || _) eqn:Hg; [done |]. rewrite !orb_false_iff, !bool_decide_eq_false in Hg.
    destruct Hg as [_ Hp%dec_stable]. by eapply (flag_next w _ r (r <| exit_sent := true |>)); simpl; rewrite ?Hp.
  - intros x. unfold acknowledge_exit. destruct (ss_records (srv w) !! _) as [r |] eqn:Hr; [| done].
    destruct (_ || _) eqn:Hg; [done |]. apply orb_false_iff in Hg as [_ Hp%negb_false_iff].
    by eapply (flag_next w _ r (r <| phase := Forgotten |>)).
  - intros d. unfold mark_destroy_sent. destruct (decide _); [done |].
    destruct (ss_records (srv w) !! _) as [r |] eqn:Hr; [| done].
    destruct (_ || _) eqn:Hg; [done |]. rewrite !orb_false_iff, !bool_decide_eq_false in Hg.
    destruct Hg as [_ Hp%dec_stable]. by eapply (flag_next w _ r (r <| exit_sent := true |>)); simpl; rewrite ?Hp.
  - intros d. unfold acknowledge_destroy. destruct (decide _); [done |].
    destruct (ss_records (srv w) !! _) as [r |] eqn:Hr; [| done].
    destruct (_ || _) eqn:Hg; [done |]. rewrite !orb_false_iff in Hg. destruct Hg as [[_ Hd%negb_false_iff] _].
    destruct Hinv as [issued Hinv]. pose proof (ro_dead _ _ _ (sv_record _ _ Hinv _ _ Hr) Hd).
    eapply (flag_next w _ r (r <| phase := Forgotten |>)); try done. by eexists.
Qed.

Lemma client_step_ok w a :
  net_inv w -> match a with ClientState _ _ | ClientExit _ | ClientDestroy _ => True | _ => False end ->
  exists w', net_step w a = Some w' /\ net_inv w'.
Proof.
  intros [[issued Hs] Hp] Ha. destruct a as [| | | | | | | | | | | | n validate | n | n]; try done; simpl; clear Ha.
  - destruct (states w !! n) as [st |] eqn:Hst; [| by eexists; split; [| split; [eexists |]]].
    apply list_elem_of_lookup_2 in Hst.
    destruct (apply_full (cli w) st validate) as [c r] eqn:Happ. cbn [fst snd].
    apply apply_full_ok in Happ as (Hi & Hle & Hl & Hc & Hr); [| apply Hp].
    destruct r as [rc | e].
    + destruct Hr as (-> & _ & _ & Hrec). eexists. split; [done |].
      assert (peer_inv (w <| cli := c |>)) as Hp' by (eapply (peer_inv_client w); eauto; done).
      set (w1 := w <| cli := c |>) in *. change (net_inv (w1 <| acks := acks w1 ++ [receipt st] |>)).
      split; [exists issued; by apply server_inv_acked, server_inv_client |].
      apply (peer_inv_ack w1 _ st); try done. unfold reached. simpl.
      rewrite Hrec, lookup_insert_eq. eexists. split; [done | apply replica_le_refl].
    + subst c. eexists. split; [done |]. split; [exists issued; by apply server_inv_client |].
      by destruct w.
  - destruct (exits w !! n) as [x |] eqn:Hx; [| by eexists; split; [| split; [eexists |]]].
    apply list_elem_of_lookup_2 in Hx.
    destruct (apply_exit_ok (cli w) x (pv_client _ Hp)) as (c & r & -> & Hi & Hle & Hl & Hc & Hrec). cbn [fst].
    eexists. split; [done |]. split; [exists issued; by apply server_inv_client |].
    eapply (peer_inv_client w c _ (mkReplica (exit_scope x) true false None)); try done; [naive_solver |].
    simpl. by destruct x.
  - destruct (deaths w !! n) as [d |] eqn:Hd; [| by eexists; split; [| split; [eexists |]]].
    apply list_elem_of_lookup_2 in Hd.
    destruct (apply_destroy_ok (cli w) d (pv_client _ Hp)) as (c & r & -> & Hi & Hle & Hl & Hc & Hrec). cbn [fst].
    eexists. split; [done |]. split; [exists issued; by apply server_inv_client |].
    destruct (sv_deaths _ _ Hs d Hd) as [Hconn _].
    eapply (peer_inv_client w c _ (mkReplica (mkScopeIdentity (destroy_connection d) (destroy_entity d) 1 1) true true None));
      try done; [naive_solver |].
    simpl. rewrite <- Hconn. by destruct d.
Qed.

Lemma net_step_ok w a : net_inv w -> exists w', net_step w a = Some w' /\ net_inv w'.
Proof.
  intros Hinv. pose proof (proj1 Hinv) as Hs. destruct (flags_next w Hs) as (F1 & F2 & F3 & F4).
  destruct (exits_ok w Hinv) as [X1 X2]. destruct (deaths_ok w Hinv) as [D1 D2].
  destruct a; auto using client_step_ok, transmit_ok; simpl;
    try (eexists; split; [done | apply server_step_ok; [done |]];
         auto using offer_next, advance_barrier_next).
  destruct (acks w !! n) as [rc |] eqn:Hrc; [| by eexists]. eexists. split; [done |].
  apply server_step_ok; [done |]. apply acknowledge_next; [done |]. by eapply list_elem_of_lookup_2.
Qed.

Lemma net_run_ok acts w : net_inv w -> exists w', net_run w acts = Some w' /\ net_inv w'.
Proof.
  unfold net_run. revert w. induction acts as [| a acts IH]; intros w Hw; [by eauto |].
  cbn [foldl]. destruct (net_step_ok w a Hw) as (w1 & -> & Hw1). by apply IH.
Qed.

(** ** What holds in every reachable world *)

Lemma scope_before_eq a b :
  scope_before a b -> ~ (scope_epoch a < scope_epoch b) -> a = b.
Proof. intros [_ [-> | [Hlt _]]] Hn; [done | lia]. Qed.

(** The client's record of an index is never ahead of the server's incarnation. *)
Lemma client_behind w i r q :
  net_inv w -> cs_records (cli w) !! i = Some r -> ss_records (srv w) !! i = Some q ->
  (destroyed r = false -> scope_before (r_scope r) (identity q))
  /\ generation (scope_entity (r_scope r)) <= generation (scope_entity (identity q)).
Proof.
  intros [[issued Hs] Hp] Hr Hq. pose proof (pv_record _ Hp i r Hr) as Hwhy.
  destruct (ci_record _ (pv_client _ Hp) i r Hr) as (Hi & _ & Hst).
  assert (forall a, index (scope_entity a) = i -> scope_before a (identity q) ->
            generation (scope_entity a) <= generation (scope_entity (identity q))) as Hgen.
  { intros a _ [_ [-> | [_ ?]]]; [lia | done]. }
  destruct (r_state r) as [st |].
  - destruct Hst as (Hsc & _). destruct (sv_scope _ _ Hs st (sv_sent _ _ Hs st Hwhy)) as (q' & Hq' & Hbef & _).
    rewrite Hsc, Hi, Hq in Hq'. injection Hq' as <-. rewrite Hsc in Hbef. auto.
  - destruct (destroyed r).
    + destruct (sv_deaths _ _ Hs _ Hwhy) as (_ & q' & Hq' & Hg & _). simpl in *. rewrite Hi, Hq in Hq'.
      injection Hq' as <-. done.
    + destruct (sv_exits _ _ Hs _ Hwhy) as (_ & q' & Hq' & Hbef & _). simpl in *. rewrite Hi, Hq in Hq'.
      injection Hq' as <-. auto.
Qed.

Lemma caught_up w e rc :
  net_inv w -> decoded_current (srv w) e = Some rc ->
  exists st, server_state (srv w) e = Some st /\ client_state (cli w) e = Some st /\ receipt st = rc.
Proof.
  intros Hinv H. pose proof Hinv as [[issued Hs] Hp]. unfold decoded_current in H.
  destruct (record_of (srv w) e) as [q |] eqn:Hrec; [| done]. pose proof Hrec as Hq.
  apply record_of_Some in Hq as [Hq Hent].
  destruct (desired q) as [st |] eqn:Hd; [| done]. destruct (decide _) as [Hdec |]; [| done]. injection H as <-.
  destruct (sv_record _ _ Hs _ _ Hq) as [R1 R2 R3 R4 R5 R6 R7].
  assert (is_over (phase q) = false) as Ho.
  { destruct (is_over (phase q)) eqn:Ho; [| done]. destruct (R3 eq_refl) as (? & _). congruence. }
  exists st. unfold server_state. rewrite Hrec, Ho. split; [done |]. split; [| done].
  destruct (sv_desired _ _ Hs _ _ _ Hq Hd) as [Hiss Hsc].
  destruct (R7 _ Hdec) as [_ Hack]. destruct (pv_acks _ Hp _ Hack) as (st' & Hst' & Heq & (r & Hr & Hle)).
  assert (st' = st) as ->.
  { apply (sv_unique _ _ Hs); [by apply (sv_sent _ _ Hs) | done |]. by injection Heq. }
  rewrite Hsc, Hent in Hr. destruct (client_behind w _ r q Hinv Hr Hq) as [Hbef Hgen].
  pose proof (pv_record _ Hp _ _ Hr) as Hwhy.
  destruct (ci_record _ (pv_client _ Hp) _ _ Hr) as (Hri & _ & Hrst).
  unfold replica_le in Hle. cbn [r_scope closed destroyed r_state] in Hle. rewrite Hsc in Hle.
  destruct Hle as [? | (Hg & Hle)]; [lia |].
  destruct (destroyed r) eqn:Hdes.
  { destruct (r_state r); [by destruct Hrst as (_ & _ & ? & _) |].
    destruct (sv_deaths _ _ Hs _ Hwhy) as (_ & q' & Hq' & _ & Hdead). simpl in *. rewrite Hri, Hq in Hq'.
    injection Hq' as <-. assert (scope_entity (r_scope r) = scope_entity (identity q)) as Hse.
    { destruct (scope_entity (r_scope r)), (scope_entity (identity q)). simpl in *. f_equal; congruence. }
    rewrite (R4 (Hdead Hse)) in Ho. done. }
  destruct Hle as [? | (_ & Hle)]; [done |].
  assert (r_scope r = identity q) as Hsame.
  { apply scope_before_eq; [by apply Hbef |]. destruct Hle as [? | [-> _]]; lia. }
  destruct Hle as [Hlt | (_ & Hle)]; [rewrite Hsame in Hlt; lia |].
  destruct (r_state r) as [cur |] eqn:Hcur.
  - destruct Hle as [Hcl | (_ & Hsn & _)]; [destruct Hrst as (_ & ? & _); congruence |].
    destruct Hrst as (Hcs & _).
    assert (cur = st) as ->.
    { destruct (sv_scope _ _ Hs cur (sv_sent _ _ Hs _ Hwhy)) as (q' & Hq' & _ & Hpub).
      rewrite Hcs, Hsame, R1, Hq in Hq'. injection Hq' as <-.
      destruct (Hpub st) as [? | (? & _)]; [congruence | done | done | lia]. }
    unfold client_state. rewrite Hr, Hcur. by rewrite decide_True by congruence.
  - destruct (sv_exits _ _ Hs _ Hwhy) as (_ & q' & Hq' & _ & Hover). simpl in *. rewrite Hri, Hq in Hq'.
    injection Hq' as <-. rewrite (Hover Hsame) in Ho. done.
Qed.

(** The answers a client gives to a state it can be sent. *)
Definition benign (r : result ReplicationError StateReceipt) : Prop :=
  match r with
  | Ok _ | Err (Obsolete _) | Err Capacity | Err ResetRequired | Err InvalidPayload => True
  | _ => False
  end.

Hypothesis payload_eq_refl : forall p : P, payload_eq p p = true.

Lemma state_eq_refl st : state_eq st st = true.
Proof. unfold state_eq. rewrite !bool_decide_eq_true_2 by done. by rewrite payload_eq_refl. Qed.

Lemma check_publication_benign prev st :
  (st = prev \/ published_before st prev \/ published_before prev st) ->
  baseline_generation st = snapshot st -> baseline_generation prev = snapshot prev ->
  match check_publication prev st with Ok _ | Err (Obsolete _) => True | _ => False end.
Proof.
  intros Hor Hb Hb'. unfold check_publication. rewrite Hb, Hb'. destruct Hor as [-> | [Hpb | Hpb]].
  - rewrite state_eq_refl, payload_eq_refl, !andb_false_r.
    rewrite (bool_decide_eq_false_2 (snapshot prev < _)) by lia. simpl.
    by rewrite !bool_decide_eq_false_2 by lia.
  - destruct Hpb as (H1 & H2 & H3).
    rewrite (bool_decide_eq_false_2 (snapshot st = _)), (bool_decide_eq_false_2 (version st = _)) by lia. simpl.
    by rewrite !bool_decide_eq_true_2 by lia.
  - destruct Hpb as (H1 & H2 & H3).
    rewrite (bool_decide_eq_false_2 (snapshot st = _)), (bool_decide_eq_false_2 (version st = _)) by lia. simpl.
    rewrite (bool_decide_eq_false_2 (snapshot st < _)) by lia. simpl.
    by rewrite !bool_decide_eq_false_2 by lia.
Qed.

Lemma check_record_benign w st r :
  net_inv w -> st ∈ states w -> cs_records (cli w) !! index (scope_entity (fs_scope st)) = Some r ->
  match check_record r st with Ok _ | Err (Obsolete _) => True | _ => False end.
Proof.
  intros Hinv Hst Hr. pose proof Hinv as [[issued Hs] Hp]. pose proof (sv_sent _ _ Hs st Hst) as Hiss.
  destruct (sv_scope _ _ Hs st Hiss) as (q & Hq & Hbef & _).
  pose proof (pv_record _ Hp _ _ Hr) as Hwhy.
  destruct (ci_record _ (pv_client _ Hp) _ _ Hr) as (Hri & _ & Hrst).
  unfold check_record. destruct (decide _) as [| Hg1]; [done |]. destruct (decide _) as [Hg |]; [| done].
  destruct (destroyed r) eqn:Hdes; [done |]. simpl. destruct (bool_decide _) eqn:He1; [done |].
  destruct (decide (scope_epoch (fs_scope st) = _)) as [He | He]; [| done].
  destruct (r_state r) as [prev |] eqn:Hprev.
  - destruct Hrst as (Hsc & Hcl & _). rewrite Hcl. pose proof (sv_sent _ _ Hs prev Hwhy) as Hiss'.
    assert (fs_scope st = fs_scope prev) as Hsame.
    { apply (sv_epoch _ _ Hs); try done; rewrite Hsc; [by rewrite Hri | done]. }
    destruct (decide _) as [Hn |]; [by destruct Hn; rewrite <- Hsc |].
    destruct (sv_issued _ _ Hs st Hiss) as [(_ & _ & _ & Hb) _].
    destruct (sv_issued _ _ Hs prev Hiss') as [(_ & _ & _ & Hb') _].
    apply check_publication_benign; try done.
    destruct (sv_order _ _ Hs st prev Hiss Hiss' Hsame) as [? | [? | ?]]; auto.
  - rewrite Hrst. destruct (decide _) as [Hn |]; [| done].
    destruct (sv_exits _ _ Hs _ Hwhy) as (_ & q' & Hq' & Hbef' & _). simpl in *. rewrite Hri, Hq in Hq'.
    injection Hq' as <-. destruct Hn. symmetry. by apply (sv_exit_epoch _ _ Hs _ st Hwhy).
Qed.

Lemma apply_full_benign w st validate :
  net_inv w -> st ∈ states w -> benign (apply_full (cli w) st validate).2.
Proof.
  intros Hinv Hst. pose proof Hinv as [[issued Hs] Hp]. pose proof (sv_sent _ _ Hs st Hst) as Hiss.
  destruct (sv_issued _ _ Hs st Hiss) as [((V1 & V2 & V3 & V4) & V5 & V6 & V7) _].
  destruct (sv_start _ _ Hs) as [Hep _]. unfold apply_full.
  assert (validate_identity st (cs_connection (cli w)) = Ok tt) as ->.
  { unfold validate_identity, validate_scope. rewrite (pv_epoch _ Hp).
    destruct (decide _) as [| _]; [done |]. destruct (decide _) as [Hn | _]; [tauto |].
    destruct (decide _) as [Hn | _]; [| done]. rewrite V7 in Hn. tauto. }
  unfold capacity_for. destruct (_ && _); [done |]. destruct (decide _); [done |].
  destruct (negb _); [done |].
  destruct (cs_records (cli w) !! index (scope_entity (fs_scope st))) as [r |] eqn:Hr.
  - pose proof (check_record_benign w st r Hinv Hst Hr) as Hben.
    destruct (check_record r st) as [u | e]; [| by destruct e].
    destruct (ok_or _ _) as [bytes | e] eqn:Hok; [by destruct (_ || _) |].
    unfold ok_or in Hok. inv_op Hok; done.
  - destruct (ok_or _ _) as [bytes | e] eqn:Hok; [by destruct (_ || _) |].
    unfold ok_or in Hok. inv_op Hok; done.
Qed.

Lemma net_start connection epoch world policy l l' s c :
  ServerScopes_new connection epoch world policy l = Ok s -> ClientScopes_new epoch l' = Ok c ->
  net_inv (mkWorld s c [] [] [] []).
Proof.
  unfold ServerScopes_new, ClientScopes_new. intros Hs Hc.
  destruct (decide _) as [| He] in Hs; [done |]. destruct (ScopeLimits_validate l) as [l1 |]; [| done].
  destruct (decide _) in Hc; [done |]. destruct (ScopeLimits_validate l') as [l2 |]; [| done]. simplify_eq.
  split.
  - exists []. constructor; simpl; try done; try (by intros ? ?%not_elem_of_nil);
      try (by intros ? ? ?%not_elem_of_nil).
  - constructor; simpl; try done; [| by intros ? ?%not_elem_of_nil].
    constructor; simpl; rewrite ?map_sum_empty, ?map_size_empty; try done; lia.
Qed.

(** C2 Replication over a lossy, duplicating, reordering network is consistent end to end.
    Whatever the schedule of offers, policy barriers, sends, exits, destructions, deliveries and
    receipts, neither side ever panics; when the server believes a peer is up to date with an
    entity, the peer holds exactly the state the server wants it to have; the peer only ever
    shows states the server sent; and no message the server sent is ever taken for a corrupt,
    contradictory or misaddressed one. *)
Theorem replication_end_to_end connection epoch world policy l l' s c acts :
  ServerScopes_new connection epoch world policy l = Ok s -> ClientScopes_new epoch l' = Ok c ->
  exists w, net_run (mkWorld s c [] [] [] []) acts = Some w
    /\ (forall e rc, decoded_current (srv w) e = Some rc ->
          exists st, server_state (srv w) e = Some st /\ client_state (cli w) e = Some st /\ receipt st = rc)
    /\ (forall e st, client_state (cli w) e = Some st -> st ∈ states w)
    /\ (forall st validate, st ∈ states w -> benign (apply_full (cli w) st validate).2).
Proof.
  intros Hs Hc. destruct (net_run_ok acts _ (net_start _ _ _ _ _ _ _ _ Hs Hc)) as (w & Hrun & Hinv).
  exists w. split; [done |]. split; [intros e rc; by apply caught_up |]. split.
  - intros e st. unfold client_state. destruct (cs_records (cli w) !! index e) as [r |] eqn:Hr; [| done].
    pose proof (pv_record _ (proj2 Hinv) _ _ Hr) as Hwhy. destruct (r_state r) as [st' |]; [| done].
    destruct (decide _); [| done]. by intros [= <-].
  - intros st validate Hst. by apply apply_full_benign.
Qed.
End Net.

(** ** Any traffic at all *)

Section Hostile.
Context {P : Type} `{!Payload P}.

Definition client_run (c : ClientScopes P) (ms : list (client_msg P)) : option (ClientScopes P) :=
  foldl (fun oc m => match oc with
                     | Some c => match client_receive c m with Some out => Some out.1 | None => None end
                     | None => None
                     end) (Some c) ms.

Lemma client_run_ok ms c :
  client_inv c -> exists c', client_run c ms = Some c' /\ client_inv c' /\ client_le c c'
    /\ cs_limits c' = cs_limits c.
Proof.
  unfold client_run. revert c. induction ms as [| m ms IH]; intros c Hc; [by exists c; split_and!|].
  cbn [foldl]. destruct (client_receive_ok c m Hc) as (c1 & rc & -> & H1 & H2 & H3 & _). cbn [fst].
  destruct (IH c1 H1) as (c2 & -> & H4 & H5 & H6). exists c2. split_and!; [done | done | by etransitivity | congruence].
Qed.

Lemma client_run_exact ms : forall c c', exact_account c -> client_run c ms = Some c' -> exact_account c'.
Proof.
  induction ms as [| m ms IH]; intros c c' Hc H; [by injection H as <- |]. unfold client_run in *. cbn [foldl] in H.
  destruct (client_receive c m) as [[c1 rc] |] eqn:Hr; cbn [fst] in H.
  - eapply IH; [| exact H]. by eapply client_receive_exact.
  - exfalso. revert H. clear. by induction ms.
Qed.

(** C38 Against any messages at all, a replication client never panics and never goes back: per
    entity index its record only moves to a later generation, a later scope of one, its end, or
    a later publication; the payload bytes it keeps are the sum of what it retains and within
    budget, as are its known entities; and a receipt is issued only for a validated state that
    the client now publishes. *)
Theorem client_never_regresses epoch l c ms m :
  ClientScopes_new epoch l = Ok c ->
  exists c1 c2 rc, client_run c ms = Some c1 /\ client_receive c1 m = Some (c2, rc)
    /\ client_le c1 c2
    /\ cs_bytes c2 = map_sum replica_bytes (cs_records c2)
    /\ cs_bytes c2 <= lim_retained_payload_bytes l
    /\ N.of_nat (size (cs_records c2)) <= lim_known_entities l
    /\ forall r, rc = Some r -> exists st validate, m = MsgState st validate /\ r = receipt st
         /\ client_state c2 (scope_entity (fs_scope st)) = Some st /\ validate (fs_payload st) = true.
Proof.
  intros Hnew. pose proof (ClientScopes_new_exact _ _ _ Hnew) as Hex. apply ClientScopes_new_inv in Hnew as (Hc & Hl & _).
  destruct (client_run_ok ms c Hc) as (c1 & Hrun & Hc1 & _ & Hl1).
  destruct (client_receive_ok c1 m Hc1) as (c2 & rc & Hrec & [_ B2 B3 _] & Hle & Hl2 & _ & Hrc).
  pose proof (client_receive_exact _ _ _ _ (client_run_exact ms c c1 Hex Hrun) Hrec) as B1.
  exists c1, c2, rc. rewrite Hl2, Hl1, Hl in *. done.
Qed.

(** The record of the entity's index belongs to a later incarnation. *)
Definition superseded (c : ClientScopes P) (e : EntityId) : bool :=
  match cs_records c !! index e with
  | Some r => bool_decide (generation e < generation (scope_entity (r_scope r)))
  | None => false
  end.

(** C40 Destruction is final for the exits that follow it: whatever a destroyed entity's exit
    says, the client is left as it is. The exit is acknowledged, as a delayed exit should be,
    unless it names scope 1 under a representation other than 1 and the index was not already
    taken by a later incarnation: then it is answered with a conflict, because the fence that
    [apply_destroy] leaves carries scope 1 and representation 1, which no publication chose. *)
Theorem exit_after_destroy (c c' : ClientScopes P) d x :
  apply_destroy c d = Some (c', Ok d) ->
  validate_scope (exit_scope x) (destroy_connection d) = Ok tt ->
  scope_entity (exit_scope x) = destroy_entity d ->
  apply_exit c' x
  = Some (c', if bool_decide (scope_epoch (exit_scope x) = 1) && negb (superseded c (destroy_entity d))
                 && bool_decide (scope_representation (exit_scope x) <> 1)
              then Err Conflict else Ok x).
Proof.
  unfold apply_destroy, superseded. intros Hd Hv He.
  destruct (decide (destroy_connection d <> cs_connection c)) as [| Hconn] in Hd; [done |].
  apply dec_stable in Hconn. destruct (decide _) in Hd; [done |].
  destruct (capacity_for c _) in Hd; [| done].
  destruct d as [conn e], x as [[xconn xe ep rep]]; simpl in *; subst xe.
  assert (xconn = conn /\ ep <> 0) as [-> Hep].
  { unfold validate_scope in Hv; simpl in Hv. destruct (decide (xconn <> conn)) in Hv; [done |].
    destruct (decide _) as [| Hz] in Hv; [done |]. split; [by apply dec_stable | tauto]. }
  unfold apply_exit, capacity_for; simpl.
  destruct (match cs_records c !! index e with Some r => _ | None => _ end) eqn:Hsup.
  - injection Hd as <-. rewrite <- Hconn, Hv.
    destruct (cs_records c !! index e) as [r |] eqn:Hr; [| done]. simpl.
    unfold check_exit; simpl. rewrite Hsup. simpl. by rewrite andb_false_r.
  - unfold put_fence in Hd. destruct (checked_sub _ _) as [b |] in Hd; [| done]. injection Hd as <-.
    simpl. rewrite <- Hconn, Hv, lookup_insert_eq. simpl.
    unfold check_exit; simpl. rewrite (bool_decide_eq_false_2 (generation e < generation e)) by lia.
    rewrite (bool_decide_eq_true_2 (generation e = generation e)) by done.
    rewrite (bool_decide_eq_false_2 (ep < 1)) by lia. simpl. rewrite andb_true_r.
    destruct (decide (ep = 1)) as [-> |]; [| by rewrite (bool_decide_eq_false_2 (ep = 1))].
    rewrite bool_decide_eq_true_2 by done. simpl.
    destruct (decide (rep = 1)) as [-> |].
    + by rewrite !bool_decide_eq_false_2 by congruence.
    + by rewrite !bool_decide_eq_true_2 by congruence.
Qed.
End Hostile.

(** An entity enters, changes, is acknowledged, leaves and dies, with messages out of order. *)
Module ReplicationDemo.
Definition e : EntityId := mkEntityId 3 1.
Definition set_at (v t : N) : EligibleSet :=
  mkEligibleSet 7 1 1 1 t {[e := mkEligibleEntry e (mkRepresentationGrant 1 7 3 true) 2 v 1]} NotRequested 1 1.
Definition bytes (v : N) (_ : RepresentationGrant) : list Byte.byte := if decide (v = 1) then [Byte.x01] else [Byte.x02].
Definition any (_ : list Byte.byte) : bool := true.
Definition server : ServerScopes (list Byte.byte) := mkServerScopes 7 4 1 1 ScopeLimits_default ∅ 1 0 false.
Definition client : ClientScopes (list Byte.byte) := mkClientScopes 4 ScopeLimits_default ∅ 0.
Definition world : World := mkWorld server client [] [] [] [].
Definition acts : list (net_action (P:=list Byte.byte)) :=
  [ServerOffer (set_at 1 10) e false (bytes 1); ServerTransmit e true;
   ServerOffer (set_at 2 11) e false (bytes 2); ServerTransmit e true;
   ClientState 1 any; ClientState 0 any; ServerAck 0].
(** Left, entered again and destroyed; the destruction overtakes the first exit. *)
Definition late_exit : list (net_action (P:=list Byte.byte)) :=
  [ServerOffer (set_at 1 10) e false (bytes 1); ServerTransmit e true; ServerExit e;
   ServerOffer (set_at 2 11) e false (bytes 2); ServerTransmit e true; ServerDestroy e; ClientDestroy 0].
Lemma refl (p : list Byte.byte) : payload_eq p p = true.
Proof. simpl. by apply bool_decide_eq_true_2. Qed.
End ReplicationDemo.

Lemma replication_end_to_end_witness :
  exists w, net_run ReplicationDemo.world ReplicationDemo.acts = Some w
    /\ decoded_current (srv w) ReplicationDemo.e
       = Some (mkStateReceipt (mkScopeIdentity 4 ReplicationDemo.e 1 7) 2 2 2)
    /\ exists st, client_state (cli w) ReplicationDemo.e = Some st /\ fs_payload st = [Byte.x02].
Proof.
  destruct (replication_end_to_end ReplicationDemo.refl 7 4 1 1 ScopeLimits_default ScopeLimits_default
              ReplicationDemo.server ReplicationDemo.client ReplicationDemo.acts)
    as (w & Hrun & Hcur & _).
  { vm_compute. reflexivity. }
  { vm_compute. reflexivity. }
  exists w. split; [exact Hrun |].
  assert (decoded_current (srv w) ReplicationDemo.e
          = Some (mkStateReceipt (mkScopeIdentity 4 ReplicationDemo.e 1 7) 2 2 2)) as Hdec.
  { revert Hrun. vm_compute. intros [= <-]. reflexivity. }
  split; [exact Hdec |].
  destruct (Hcur _ _ Hdec) as (st & _ & Hst & _). exists st. split; [exact Hst |].
  revert Hrun Hst. vm_compute. intros [= <-] [= <-]. reflexivity.
Defined.

Lemma client_never_regresses_witness :
  exists c1 c2 rc, client_run ReplicationDemo.client [] = Some c1
    /\ client_receive c1 (MsgDestroy (mkDestroy 4 ReplicationDemo.e)) = Some (c2, rc)
    /\ cs_bytes c2 <= lim_retained_payload_bytes ScopeLimits_default.
Proof.
  destruct (client_never_regresses 4 ScopeLimits_default ReplicationDemo.client []
              (MsgDestroy (mkDestroy 4 ReplicationDemo.e))) as (c1 & c2 & rc & H1 & H2 & _ & _ & H3 & _).
  { vm_compute. reflexivity. }
  exists c1, c2, rc. split; [exact H1 |]. split; [exact H2 | exact H3].
Defined.

Lemma exit_after_destroy_witness :
  exists w c x, net_run ReplicationDemo.world ReplicationDemo.late_exit = Some w /\ exits w = [x]
    /\ apply_destroy c (mkDestroy 4 ReplicationDemo.e) = Some (cli w, Ok (mkDestroy 4 ReplicationDemo.e))
    /\ apply_exit (cli w) x = Some (cli w, Err Conflict).
Proof.
  destruct (net_run ReplicationDemo.world ReplicationDemo.late_exit) as [w |] eqn:Hrun.
  2: { exfalso. revert Hrun. vm_compute. discriminate. }
  set (x := mkScopeExit (mkScopeIdentity 4 ReplicationDemo.e 1 7)).
  assert (apply_destroy ReplicationDemo.client (mkDestroy 4 ReplicationDemo.e)
          = Some (cli w, Ok (mkDestroy 4 ReplicationDemo.e))) as Hd.
  { revert Hrun. vm_compute. intros [= <-]. reflexivity. }
  exists w, ReplicationDemo.client, x. split; [reflexivity |].
  split; [revert Hrun; vm_compute; intros [= <-]; reflexivity |]. split; [exact Hd |].
  exact (exit_after_destroy _ _ _ x Hd eq_refl eq_refl).
Defined.
