(* ===== verification/Groups.v ===== *)
(** * Atomic group publication

    Models [engine/net/src/replication/groups.rs]: a group of entities is sent as fragments of
    whole member states that repeat one manifest; the client stages the fragments within
    bounds and publishes the group to its scopes in one step, or not at all. A vector whose
    capacity is charged carries it. The sizes of the two structs charged are parameters.
    [None] is a panic (an index, an [unwrap] or an arithmetic underflow). *)

From S2P Require Import Prelude Types InterestModel Payload Replication.
Local Open Scope N_scope.
Local Open Scope engine_scope.

(** ** Data *)

Record GroupPublication := mkGroupPublication {
  gp_connection : ConnectionEpoch;
  gp_group : GroupId;
  gp_revision : GroupRevision;
  gp_snapshot : SnapshotId;
}.
#[export] Instance GroupPublication_eq_dec : EqDecision GroupPublication.
Proof. solve_decision. Defined.

Record GroupLimits := mkGroupLimits {
  gl_members : N;
  gl_chunks : N;
  gl_incomplete : N;
  gl_known_groups : N;
  gl_staging_bytes : N;
  gl_group_bytes : N;
  gl_max_age_ms : N;
}.
Definition GroupLimits_default : GroupLimits := mkGroupLimits 32 16 8 8 (128 * 1024) 16384 2000.

Inductive GroupProgress :=
| Staged
| Published (receipts : list StateReceipt).

Record GroupFence := mkGroupFence {
  gf_publication : GroupPublication;
  gf_end_tick : ServerTick;
  gf_manifest : list ScopeIdentity;
  gf_receipts : option (list StateReceipt);
}.
#[export] Instance eta_GroupFence : Eta GroupFence := fun r =>
  mkGroupFence (gf_publication r) (gf_end_tick r) (gf_manifest r) (gf_receipts r).

(** The derived order of [ScopeIdentity]. *)
Definition scope_fields (s : ScopeIdentity) : list N :=
  [scope_connection s; index (scope_entity s); generation (scope_entity s); scope_epoch s; scope_representation s].
Definition scope_le (a b : ScopeIdentity) : bool := lex_le (scope_fields a) (scope_fields b).

(** What a fence says of a fragment: the answer to repeat, or how to stage it. *)
Inductive FenceVerdict :=
| AlreadyPublished (receipts : list StateReceipt)
| Proceed (replace : bool) (started_ms : N).

Section Groups.
Context {P : Type} `{!Payload P}.
Variables size_full_state size_scope_identity : N.
(** The payload type's [Clone]. The clone of a vector is allocated for its length, so it may
    retain less than the original. *)
Variable clone : P -> P.

Record GroupChunk := mkGroupChunk {
  ch_publication : GroupPublication;
  ch_end_tick : ServerTick;
  ch_manifest : list ScopeIdentity;
  ch_manifest_capacity : N;
  ch_index : N;
  ch_count : N;
  ch_members : list (FullState P);
  ch_members_capacity : N;
}.

Record Assembly := mkAssembly {
  as_end_tick : ServerTick;
  as_manifest : list ScopeIdentity;
  as_chunks : list (option (list (FullState P)));
  as_started_ms : N;
  as_bytes : N;
}.
#[export] Instance eta_Assembly : Eta Assembly := fun r =>
  mkAssembly (as_end_tick r) (as_manifest r) (as_chunks r) (as_started_ms r) (as_bytes r).

Record GroupAssembler := mkGroupAssembler {
  ga_connection : ConnectionEpoch;
  ga_limits : GroupLimits;
  assemblies : gmap GroupId Assembly;
  fences : gmap GroupId GroupFence;
  ga_bytes : N;
  ga_now_ms : N;
}.
#[export] Instance eta_GroupAssembler : Eta GroupAssembler := fun r =>
  mkGroupAssembler (ga_connection r) (ga_limits r) (assemblies r) (fences r) (ga_bytes r) (ga_now_ms r).

Definition GroupAssembler_new (connection : ConnectionEpoch) (l : GroupLimits)
  : result ReplicationError GroupAssembler :=
  if decide (connection = 0 \/ gl_members l = 0 \/ gl_chunks l = 0 \/ gl_incomplete l = 0
             \/ gl_known_groups l < gl_incomplete l \/ gl_group_bytes l = 0
             \/ gl_staging_bytes l < gl_group_bytes l \/ gl_max_age_ms l = 0)
  then Err InvalidConfiguration
  else Ok (mkGroupAssembler connection l ∅ ∅ 0 0).

Definition staged_bytes (g : GroupAssembler) : N := ga_bytes g.
Definition incomplete (g : GroupAssembler) : N := N.of_nat (size (assemblies g)).
Definition publication (g : GroupAssembler) (group : GroupId) : option GroupPublication :=
  gf_publication <$> fences g !! group.
Definition manifest (g : GroupAssembler) (group : GroupId) : option (list ScopeIdentity) :=
  gf_manifest <$> fences g !! group.

(** ** Expiry *)

(** [retain] over the assemblies in key order, with the bytes that remain charged. *)
Fixpoint retain_young (now max_age : N) (l : list (GroupId * Assembly)) (bytes : N)
  : option (list (GroupId * Assembly) * N) :=
  match l with
  | [] => Some ([], bytes)
  | (k, a) :: l =>
      match checked_sub now (as_started_ms a) with
      | None => None
      | Some age =>
          if decide (age < max_age) then
            match retain_young now max_age l bytes with
            | Some (kept, bytes) => Some ((k, a) :: kept, bytes)
            | None => None
            end
          else
            match checked_sub bytes (as_bytes a) with
            | Some bytes => retain_young now max_age l bytes
            | None => None
            end
      end
  end.

Definition by_group (a b : GroupId * Assembly) : Prop := a.1 <= b.1.
#[export] Instance by_group_dec a b : Decision (by_group a b).
Proof. unfold by_group. apply _. Defined.

Definition expire (g : GroupAssembler) (now : N)
  : option (GroupAssembler * result ReplicationError N) :=
  if decide (now < ga_now_ms g) then Some (g, Err Stale)
  else
    match retain_young now (gl_max_age_ms (ga_limits g)) (merge_sort by_group (map_to_list (assemblies g)))
            (ga_bytes g) with
    | None => None
    | Some (kept, bytes) =>
        let m := list_to_map kept in
        Some (g <| ga_now_ms := now |> <| assemblies := m |> <| ga_bytes := bytes |>,
              Ok (N.of_nat (size (assemblies g)) - N.of_nat (size m)))
    end.

(** ** Receiving a fragment *)

Definition check_shape (g : GroupAssembler) (ch : GroupChunk) (client : ConnectionEpoch)
  : result ReplicationError unit :=
  let key := ch_publication ch in
  if decide (gp_connection key <> ga_connection g \/ client <> ga_connection g) then Err Stale
  else if decide (gp_revision key = 0 \/ gp_snapshot key = 0 \/ ch_manifest ch = []
                  \/ gl_members (ga_limits g) < len (ch_manifest ch)
                  \/ ch_count ch = 0 \/ gl_chunks (ga_limits g) < ch_count ch
                  \/ len (ch_manifest ch) < ch_count ch \/ ch_count ch <= ch_index ch
                  \/ ch_members ch = [] \/ len (ch_manifest ch) < len (ch_members ch))
  then Err InvalidIdentity
  else Ok tt.

(** The manifest names valid scopes of distinct indices in strictly increasing order. *)
Fixpoint check_manifest (connection : ConnectionEpoch) (indices : gset N) (previous : option ScopeIdentity)
    (l : list ScopeIdentity) : result ReplicationError unit :=
  match l with
  | [] => Ok tt
  | s :: l =>
      let? _u := validate_scope s connection in
      if decide (index (scope_entity s) ∈ indices) then Err Conflict
      else if match previous with Some before => scope_le s before | None => false end then Err Conflict
      else check_manifest connection ({[index (scope_entity s)]} ∪ indices) (Some s) l
  end.

(** The members are distinct, of the manifest and of its tick; their bytes are added up. The
    search of the manifest is a membership test, since the manifest is sorted by now. *)
Fixpoint check_members (connection : ConnectionEpoch) (ch : GroupChunk) (validate : P -> bool)
    (ids : list ScopeIdentity) (bytes : N) (l : list (FullState P))
  : result ReplicationError (list ScopeIdentity * N) :=
  match l with
  | [] => Ok (ids, bytes)
  | s :: l =>
      let? _u := validate_identity s connection in
      if decide (end_tick s <> ch_end_tick ch \/ fs_scope s ∉ ch_manifest ch \/ fs_scope s ∈ ids)
      then Err Conflict
      else if negb (validate (fs_payload s)) then Err InvalidPayload
      else
        let? bytes := ok_or (checked_add usize_max bytes (retained_bytes (fs_payload s))) Capacity in
        check_members connection ch validate (fs_scope s :: ids) bytes l
  end.

(** [client.state(s.scope.entity) == Some(s)]. *)
Definition holds (c : ClientScopes P) (s : FullState P) : bool :=
  match client_state c (scope_entity (fs_scope s)) with Some t => state_eq t s | None => false end.
(** The state a receipt promises is still the one retained. *)
Definition still_held (c : ClientScopes P) (r : StateReceipt) : bool :=
  match client_state c (scope_entity (rc_scope r)) with
  | Some s => bool_decide (receipt s = r)
  | None => false
  end.

Definition check_fence (g : GroupAssembler) (ch : GroupChunk) (c : ClientScopes P) (now : N)
  : result ReplicationError FenceVerdict :=
  let key := ch_publication ch in
  match fences g !! gp_group key with
  | None =>
      if decide (gl_known_groups (ga_limits g) <= N.of_nat (size (fences g))) then Err ResetRequired
      else Ok (Proceed false now)
  | Some fence =>
      let old := gf_publication fence in
      if decide (gp_revision key = gp_revision old
                 /\ (ch_manifest ch <> gf_manifest fence
                     \/ (gp_snapshot key = gp_snapshot old /\ ch_end_tick ch <> gf_end_tick fence)
                     \/ (gp_snapshot key < gp_snapshot old /\ gf_end_tick fence < ch_end_tick ch)
                     \/ (gp_snapshot old < gp_snapshot key /\ ch_end_tick ch < gf_end_tick fence)))
      then Err Conflict
      else if decide (gp_revision key < gp_revision old
                      \/ (gp_revision key = gp_revision old /\ gp_snapshot key < gp_snapshot old))
      then Err (Obsolete ObsoletePublication)
      else if decide (gf_receipts fence = None /\ assemblies g !! gp_group key = None) then Err Expired
      else if decide (key = old) then
        match gf_receipts fence with
        | Some receipts =>
            if negb (forallb (still_held c) receipts) then Err Stale
            else if negb (forallb (holds c) (ch_members ch)) then Err Conflict
            else Ok (AlreadyPublished receipts)
        | None =>
            if decide (assemblies g !! gp_group key = None) then Err Expired
            else Ok (Proceed false now)
        end
      else
        Ok (Proceed true match assemblies g !! gp_group key with
                         | Some a => as_started_ms a
                         | None => now
                         end)
  end.

(** The derived equality of two vectors of states. *)
Fixpoint states_eq (a b : list (FullState P)) : bool :=
  match a, b with
  | [], [] => true
  | x :: a, y :: b => state_eq x y && states_eq a b
  | _, _ => false
  end.

Definition staged_states (a : Assembly) : list (FullState P) := concat (omap id (as_chunks a)).

(** Whether the fragment is already staged, or may be. *)
Definition check_existing (g : GroupAssembler) (ch : GroupChunk) (ids : list ScopeIdentity)
    (existing : option Assembly) : option (result ReplicationError bool) :=
  match existing with
  | Some a =>
      if decide (as_end_tick a <> ch_end_tick ch \/ len (as_chunks a) <> ch_count ch
                 \/ as_manifest a <> ch_manifest ch)
      then Some (Err Conflict)
      else
        match as_chunks a !! N.to_nat (ch_index ch) with
        | None => None
        | Some (Some previous) =>
            Some (if states_eq previous (ch_members ch) then Ok true else Err Conflict)
        | Some None =>
            Some (if existsb (fun s => bool_decide (fs_scope s ∈ ids)) (staged_states a)
                  then Err Conflict else Ok false)
        end
  | None =>
      if decide (assemblies g !! gp_group (ch_publication ch) = None
                 /\ gl_incomplete (ga_limits g) <= N.of_nat (size (assemblies g)))
      then Some (Err Capacity)
      else Some (Ok false)
  end.

(** The group's and the assembler's charge with the fragment in. *)
Definition charges (g : GroupAssembler) (ch : GroupChunk) (replace : bool) (existing : option Assembly)
    (member_bytes : N) : result ReplicationError (N * N) :=
  let old_bytes :=
    if replace then from_option as_bytes 0 (assemblies g !! gp_group (ch_publication ch)) else 0 in
  let? more :=
    (match existing with
     | None => ok_or (checked_mul usize_max (ch_manifest_capacity ch) size_scope_identity) Capacity
     | Some _ => Ok 0
     end : result ReplicationError N) in
  let? added := ok_or (checked_add usize_max member_bytes more) Capacity in
  let? group_bytes := ok_or (checked_add usize_max (from_option as_bytes 0 existing) added) Capacity in
  let? bytes := ok_or (match checked_sub (ga_bytes g) old_bytes with
                       | Some n => checked_add usize_max n added
                       | None => None
                       end) Capacity in
  if decide (gl_group_bytes (ga_limits g) < group_bytes \/ gl_staging_bytes (ga_limits g) < bytes)
  then Err Capacity
  else Ok (group_bytes, bytes).

(** The fragment put in its place, with the fence of the publication. *)
Definition stage (g : GroupAssembler) (ch : GroupChunk) (replace : bool) (started group_bytes bytes : N)
  : option (GroupAssembler * Assembly) :=
  let k := gp_group (ch_publication ch) in
  let base := if replace then delete k (assemblies g) else assemblies g in
  let a := match base !! k with
           | Some a => a
           | None => mkAssembly (ch_end_tick ch) (ch_manifest ch) (replicate (N.to_nat (ch_count ch)) None)
                       started 0
           end in
  if decide (ch_index ch < len (as_chunks a)) then
    let a := a <| as_chunks := <[N.to_nat (ch_index ch) := Some (ch_members ch)]> (as_chunks a) |>
               <| as_bytes := group_bytes |> in
    Some (g <| assemblies := <[k := a]> base |> <| ga_bytes := bytes |>
            <| fences := <[k := mkGroupFence (ch_publication ch) (ch_end_tick ch) (ch_manifest ch) None]>
                           (fences g) |>, a)
  else None.

(** [self.assemblies.remove(&group).unwrap()] and the bytes it frees. *)
Definition discard (g : GroupAssembler) (k : GroupId) : option GroupAssembler :=
  match assemblies g !! k with
  | None => None
  | Some a =>
      match checked_sub (ga_bytes g) (as_bytes a) with
      | Some bytes => Some (g <| assemblies := delete k (assemblies g) |> <| ga_bytes := bytes |>)
      | None => None
      end
  end.

(** [states.map(apply_full).collect::<Result<Vec<_>, _>>()] on the copy of the client. *)
Fixpoint apply_all (c : ClientScopes P) (validate : P -> bool) (l : list (FullState P))
  : ClientScopes P * result ReplicationError (list StateReceipt) :=
  match l with
  | [] => (c, Ok [])
  | s :: l =>
      match apply_full c s validate with
      | (c, Err e) => (c, Err e)
      | (c, Ok r) =>
          match apply_all c validate l with
          | (c, Ok rs) => (c, Ok (r :: rs))
          | (c, Err e) => (c, Err e)
          end
      end
  end.

(** [Clone] of a client: the account is copied, the payloads are cloned one by one. *)
Definition clone_state (s : FullState P) : FullState P :=
  mkFullState (fs_scope s) (baseline_generation s) (snapshot s) (version s) (end_tick s) (clone (fs_payload s)).
Definition clone_replica (r : Replica P) : Replica P :=
  mkReplica (r_scope r) (closed r) (destroyed r) (clone_state <$> r_state r).
Definition clone_client (c : ClientScopes P) : ClientScopes P :=
  c <| cs_records := clone_replica <$> cs_records c |>.

Definition is_none {A} (o : option A) : bool := match o with None => true | Some _ => false end.

(** Nothing while a fragment is missing; otherwise the whole group or nothing of it. *)
Definition complete (g : GroupAssembler) (a : Assembly) (k : GroupId) (c : ClientScopes P)
    (validate : P -> bool) : option (GroupAssembler * ClientScopes P * result ReplicationError GroupProgress) :=
  if existsb is_none (as_chunks a) then Some (g, c, Ok Staged)
  else if decide (len (staged_states a) <> len (as_manifest a)) then
    match discard g k with Some g => Some (g, c, Err Incomplete) | None => None end
  else
    let '(staged, r) := apply_all (clone_client c) validate (clone_state <$> staged_states a) in
    match discard g k with
    | None => None
    | Some g =>
        match r with
        | Err e => Some (g, c, Err e)
        | Ok receipts =>
            match fences g !! k with
            | None => None
            | Some f =>
                Some (g <| fences := <[k := f <| gf_receipts := Some receipts |>]> (fences g) |>,
                      staged, Ok (Published receipts))
            end
        end
    end.

(** [receive] after the expiry: the tests in order, then the staging. *)
Definition receive_live (g : GroupAssembler) (ch : GroupChunk) (now : N) (c : ClientScopes P)
    (validate : P -> bool) : option (GroupAssembler * ClientScopes P * result ReplicationError GroupProgress) :=
  let checks :=
    let? _u := check_shape g ch (cs_connection c) in
    let? _u := check_manifest (ga_connection g) ∅ None (ch_manifest ch) in
    let? start := ok_or (checked_mul usize_max (ch_members_capacity ch) size_full_state) Capacity in
    let? members := check_members (ga_connection g) ch validate [] start (ch_members ch) in
    let? verdict := check_fence g ch c now in
    Ok (members, verdict) in
  match checks with
  | Err e => Some (g, c, Err e)
  | Ok (_, AlreadyPublished receipts) => Some (g, c, Ok (Published receipts))
  | Ok ((ids, member_bytes), Proceed replace started) =>
      let existing := if replace then None else assemblies g !! gp_group (ch_publication ch) in
      match check_existing g ch ids existing with
      | None => None
      | Some (Err e) => Some (g, c, Err e)
      | Some (Ok true) => Some (g, c, Ok Staged)
      | Some (Ok false) =>
          match charges g ch replace existing member_bytes with
          | Err e => Some (g, c, Err e)
          | Ok (group_bytes, bytes) =>
              match stage g ch replace started group_bytes bytes with
              | None => None
              | Some (g, a) => complete g a (gp_group (ch_publication ch)) c validate
              end
          end
      end
  end.

Definition receive (g : GroupAssembler) (ch : GroupChunk) (now : N) (c : ClientScopes P)
    (validate : P -> bool) : option (GroupAssembler * ClientScopes P * result ReplicationError GroupProgress) :=
  match expire g now with
  | None => None
  | Some (g, Err e) => Some (g, c, Err e)
  | Some (g, Ok _) => receive_live g ch now c validate
  end.

Definition assembler_reset (g : GroupAssembler) (connection : ConnectionEpoch)
  : GroupAssembler * result ReplicationError unit :=
  if decide (connection <= ga_connection g) then (g, Err Stale)
  else (g <| ga_connection := connection |> <| assemblies := ∅ |> <| fences := ∅ |>
          <| ga_bytes := 0 |> <| ga_now_ms := 0 |>, Ok tt).

(** ** The proof that a whole group is retained *)

Record PublishedGroup := mkPublishedGroup {
  pg_publication : GroupPublication;
  pg_end_tick : ServerTick;
  pg_manifest : list ScopeIdentity;
  pg_client : ClientScopes P;
}.

(** [states]: [None] is the failed [expect]. *)
Definition pg_states (pg : PublishedGroup) : option (list (FullState P)) :=
  mapM (fun s => client_state (pg_client pg) (scope_entity s)) (pg_manifest pg).

Definition published_group (g : GroupAssembler) (group : GroupId) (c : ClientScopes P)
  : option PublishedGroup :=
  if decide (cs_connection c <> ga_connection g) then None
  else
    match fences g !! group with
    | None => None
    | Some fence =>
        match gf_receipts fence, gf_manifest fence with
        | Some receipts, first :: _ =>
            if decide (len receipts <> len (gf_manifest fence)) then None
            else
              match client_state c (scope_entity first) with
              | None => None
              | Some lead =>
                  if forallb (fun s =>
                       match client_state c (scope_entity s) with
                       | Some t => bool_decide (fs_scope t = s) && bool_decide (end_tick t = end_tick lead)
                                   && existsb (fun r => bool_decide (r = receipt t)) receipts
                       | None => false
                       end) (gf_manifest fence)
                  then Some (mkPublishedGroup (gf_publication fence) (end_tick lead) (gf_manifest fence) c)
                  else None
              end
        | _, _ => None
        end
    end.
End Groups.
Arguments GroupChunk : clear implicits.
Arguments Assembly : clear implicits.
Arguments GroupAssembler : clear implicits.
Arguments PublishedGroup : clear implicits.
