(* ===== verification/GroupsProps.v ===== *)
(** * What group assembly guarantees

    The invariant of the assembler, and runs of an assembler together with the client it
    publishes to, in which fragments, expiries, resets and the client's own messages
    interleave in any order. *)

From S2P Require Import Prelude Types InterestModel Payload Replication Groups.
Local Open Scope N_scope.
Local Open Scope engine_scope.

(** ** The client moves on from a published state *)

Section Passed.
Context {P : Type} `{!Payload P}.
Variable clone : P -> P.

(** What a client holds once a state was cloned, or delivered again and accepted by the derived
    comparison of states, any number of times over. Nothing is asked of the comparison of
    payloads, which for a byte vector ignores the capacity and for floats identifies the two
    zeros. *)
Definition copied (a b : FullState P) : Prop := state_eq a b = true \/ a = clone_state clone b.
Definition same_state : relation (FullState P) := rtc copied.

Lemma same_state_spec (a b : FullState P) :
  same_state a b ->
  receipt a = receipt b /\ end_tick a = end_tick b
  /\ rtc (fun p q => payload_eq p q = true \/ p = clone q) (fs_payload a) (fs_payload b).
Proof.
  induction 1 as [a | a b c H _ (IH1 & IH2 & IH3)]; [done |]. destruct H as [H | ->].
  - unfold state_eq in H. rewrite !andb_true_iff, !bool_decide_eq_true in H.
    destruct H as (((((E1 & E2) & E3) & E4) & E5) & Hp).
    unfold receipt in *. split_and!; [congruence.. | by eapply rtc_l; [left |]].
  - split_and!; [done | done |]. by eapply rtc_l; [right |].
Qed.

(** A view of the payload that comparing and cloning respect is kept: the bytes, for a vector. *)
Lemma same_state_view {V} (view : P -> V) (a b : FullState P) :
  (forall p q, payload_eq p q = true -> view p = view q) -> (forall p, view (clone p) = view p) ->
  same_state a b -> view (fs_payload a) = view (fs_payload b).
Proof.
  intros Heq Hclone (_ & _ & Hp)%same_state_spec. induction Hp as [| p q r [H | ->] _ IH]; [done | |].
  - rewrite <- IH. by apply Heq.
  - by rewrite <- IH.
Qed.

Lemma same_state_receipt a b : same_state a b -> receipt a = receipt b.
Proof. by intros (? & _)%same_state_spec. Qed.

Lemma same_state_scope a b : same_state a b -> fs_scope a = fs_scope b.
Proof. intros H%same_state_receipt. by injection H. Qed.

Lemma same_state_snapshot a b : same_state a b -> snapshot a = snapshot b.
Proof. intros H%same_state_receipt. by injection H. Qed.

Lemma same_state_tick a b : same_state a b -> end_tick a = end_tick b.
Proof. by intros (_ & ? & _)%same_state_spec. Qed.

(** A record that holds the state, or can never hold it again. *)
Definition passed_record (st : FullState P) (r : Replica P) : Prop :=
  let g := generation (scope_entity (fs_scope st)) in
  let g' := generation (scope_entity (r_scope r)) in
  g < g'
  \/ (g = g'
      /\ (destroyed r = true
          \/ scope_epoch (fs_scope st) < scope_epoch (r_scope r)
          \/ (r_scope r = fs_scope st
              /\ (closed r = true
                  \/ exists t, r_state r = Some t /\ (snapshot st < snapshot t \/ same_state t st))))).

Definition passed (c : ClientScopes P) (st : FullState P) : Prop :=
  exists r, cs_records c !! index (scope_entity (fs_scope st)) = Some r /\ passed_record st r.

(** A client that reports the receipt of a state it has passed holds that state. *)
Lemma passed_receipt c st t :
  client_inv c -> passed c st -> client_state c (scope_entity (fs_scope st)) = Some t ->
  receipt t = receipt st -> same_state t st.
Proof.
  intros Hc (r & Hr & Hp) Ht Hrc. unfold client_state in Ht. rewrite Hr in Ht.
  pose proof (ci_record _ Hc _ _ Hr) as (_ & _ & Hst).
  destruct (r_state r) as [s |] eqn:Hs; [| done]. destruct (decide _) in Ht; [| done]. injection Ht as ->.
  destruct Hst as (Hscope & Hcl & Hd & _). unfold receipt in Hrc. injection Hrc as E1 E2 E3 E4.
  unfold passed_record in Hp. rewrite <- Hscope, E1 in Hp.
  destruct Hp as [? | (_ & [? | [? | (_ & [? | (t' & Ht' & [? | ?])])]])]; try lia; try congruence.
  simplify_eq. lia.
Qed.

Lemma check_publication_next (t s : FullState P) :
  check_publication t s = Ok tt -> snapshot t < snapshot s \/ state_eq s t = true.
Proof.
  unfold check_publication. intros H. destruct (_ && _) eqn:Hsnap in H; [done |].
  destruct (_ && _) in H; [done |]. destruct (_ && _ && _ && _) in H; [done |].
  destruct (_ || _) eqn:Hor in H; [done |]. rewrite !orb_false_iff, !bool_decide_eq_false in Hor.
  apply andb_false_iff in Hsnap as [Hne%bool_decide_eq_false | Heq%negb_false_iff]; [left; lia |].
  by right.
Qed.

Lemma passed_record_full st old (s : FullState P) :
  passed_record st old -> check_record old s = Ok tt ->
  passed_record st (mkReplica (fs_scope s) false false (Some s)).
Proof.
  unfold passed_record, check_record. simpl. intros Hp H.
  destruct (decide _) as [| Hlt] in H; [done |].
  destruct (decide _) as [Heq | Hne] in H; [| left; lia].
  destruct (destroyed old) eqn:Hd; [done |]. simpl in H.
  destruct (bool_decide _) eqn:He in H; [done |]. apply bool_decide_eq_false in He.
  destruct Hp as [? | (Hg & Hp)]; [left; lia | right]. split; [lia |]. right.
  destruct Hp as [? | [? | (Hs & Hp)]]; [done | left; lia |].
  destruct (decide _) as [Hse | Hse] in H; [| left; rewrite Hs in *; lia].
  destruct (decide _) as [| Hsc] in H; [done |]. apply dec_stable in Hsc.
  destruct (closed old) eqn:Hcl; [done |]. right. split; [congruence |].
  destruct Hp as [? | (t & Ht & Hp)]; [done |]. rewrite Ht in H. right. exists s. split; [done |].
  apply check_publication_next in H as [? | Hsame].
  - left. destruct Hp as [? | Hp%same_state_snapshot]; lia.
  - assert (same_state s t) as Hst by (by eapply rtc_l; [left |]). pose proof (same_state_snapshot _ _ Hst).
    destruct Hp as [? | Hp]; [left; lia | right]. unfold same_state in *. by etrans.
Qed.

(** Closing a record passes every state that was passed. *)
Lemma passed_record_closed st old new :
  passed_record st old -> replica_le old new -> closed new = true ->
  passed_record st new.
Proof.
  unfold passed_record, replica_le. intros Hp Hle Hcl.
  destruct Hle as [? | (Hg & Hle)]; [left; destruct Hp as [? | [? _]]; lia |].
  destruct Hp as [? | (Hg' & Hp)]; [left; lia | right]. split; [lia |].
  destruct Hle as [? | (Hd & Hle)]; [by left | right].
  destruct Hp as [? | Hp]; [congruence |].
  destruct Hle as [? | (Hs & _)].
  - left. destruct Hp as [? | (Hs & _)]; [lia |]. rewrite Hs in *. lia.
  - rewrite <- Hs. destruct Hp as [? | (Hs' & _)]; [by left | right]. auto.
Qed.

Lemma passed_insert (c c' : ClientScopes P) st i new :
  passed c st -> cs_records c' = <[i := new]> (cs_records c) ->
  (forall old, cs_records c !! i = Some old -> passed_record st old -> passed_record st new) -> passed c' st.
Proof.
  intros (r & Hr & Hp) Hrec Hnew. unfold passed. rewrite Hrec.
  destruct (decide (index (scope_entity (fs_scope st)) = i)) as [<- | Hne].
  - rewrite lookup_insert_eq. eauto.
  - rewrite lookup_insert_ne by done. eauto.
Qed.

Lemma apply_full_checked (c : ClientScopes P) s validate c' rc old :
  apply_full c s validate = (c', Ok rc) -> cs_records c !! index (scope_entity (fs_scope s)) = Some old ->
  check_record old s = Ok tt.
Proof.
  unfold apply_full. intros H Hold. rewrite Hold in H.
  destruct (validate_identity _ _) in H; [| done]. destruct (capacity_for _ _) in H; [| done].
  destruct (decide _) in H; [done |]. destruct (negb _) in H; [done |].
  destruct (check_record old s) as [[] |]; [done | done].
Qed.

Lemma apply_full_passed (c : ClientScopes P) s validate c' r st :
  client_inv c -> apply_full c s validate = (c', r) -> passed c st -> passed c' st.
Proof.
  intros Hc H Hp. pose proof (apply_full_ok _ _ _ _ _ Hc H) as (_ & _ & _ & _ & Hr).
  destruct r as [rc | e]; [| by subst]. destruct Hr as (_ & _ & _ & Hrec).
  eapply passed_insert; [done | done |]. intros old Hold Hpo.
  eapply passed_record_full; [done |]. by eapply apply_full_checked.
Qed.

(** Whatever the client receives, a state it has passed it has passed for good. *)
Lemma client_receive_passed (c : ClientScopes P) m c' rc st :
  client_inv c -> client_receive c m = Some (c', rc) -> passed c st -> passed c' st.
Proof.
  intros Hc H Hp. destruct m as [s validate | x | d]; simpl in H.
  - destruct (apply_full c s validate) as [c1 r] eqn:Happ. injection H as <- _. by eapply apply_full_passed.
  - destruct (apply_exit_ok c x Hc) as (c1 & r & Hx & _ & Hle & _ & _ & Hcase). rewrite Hx in H.
    injection H as <- _. destruct Hcase as [-> | (_ & Hrec)]; [done |].
    eapply passed_insert; [done | done |]. intros old Hold Hpo. eapply passed_record_closed; [done | | done].
    destruct (Hle _ _ Hold) as (r' & Hr' & Hlr). rewrite Hrec, lookup_insert_eq in Hr'. by injection Hr' as <-.
  - destruct (apply_destroy_ok c d Hc) as (c1 & r & Hx & _ & Hle & _ & _ & Hcase). rewrite Hx in H.
    injection H as <- _. destruct Hcase as [-> | (_ & _ & Hrec)]; [done |].
    eapply passed_insert; [done | done |]. intros old Hold Hpo. eapply passed_record_closed; [done | | done].
    destruct (Hle _ _ Hold) as (r' & Hr' & Hlr). rewrite Hrec, lookup_insert_eq in Hr'. by injection Hr' as <-.
Qed.

(** ** The copy of a client *)

(** A clone retains no more than its original. *)
Definition clone_fits : Prop := forall p, retained_bytes (clone p) <= retained_bytes p.

Lemma clone_replica_bytes r : clone_fits -> replica_bytes (clone_replica clone r) <= replica_bytes r.
Proof. intros Hfit. unfold replica_bytes. simpl. destruct (r_state r); simpl; [apply Hfit | lia]. Qed.

Lemma clone_sum (m : gmap N (Replica P)) :
  clone_fits -> map_sum replica_bytes (clone_replica clone <$> m) <= map_sum replica_bytes m.
Proof.
  intros Hfit. induction m as [| i r m Hi IH] using map_ind; [by rewrite fmap_empty |].
  rewrite fmap_insert, !map_sum_insert by (rewrite ?lookup_fmap, ?Hi; done).
  pose proof (clone_replica_bytes r Hfit). lia.
Qed.

Lemma clone_client_inv c : clone_fits -> client_inv c -> client_inv (clone_client clone c).
Proof.
  intros Hfit [H1 H2 H3 H4]. constructor; simpl; try done.
  - pose proof (clone_sum (cs_records c) Hfit). lia.
  - by rewrite map_size_fmap.
  - intros i r'. rewrite lookup_fmap. intros (r & Hr & ->)%fmap_Some. destruct (H4 i r Hr) as (E1 & E2 & E3).
    split_and!; try done. simpl. destruct (r_state r) as [s |]; simpl; [| done].
    destruct E3 as (? & ? & ? & ?). split_and!; try done. etrans; [apply Hfit | done].
Qed.

Lemma clone_client_passed c st : passed c st -> passed (clone_client clone c) st.
Proof.
  intros (r & Hr & Hp). exists (clone_replica clone r). split; [simpl; by rewrite lookup_fmap, Hr |].
  destruct Hp as [? | (Hg & Hp)]; [by left | right]. split; [done |].
  destruct Hp as [? | [? | (Hs & Hp)]]; [by left | by right; left |]. right. right. split; [done |].
  destruct Hp as [? | (t & Ht & Hp)]; [by left |]. right. exists (clone_state clone t). simpl. rewrite Ht. split; [done |].
  destruct Hp as [? | Hp]; [by left | right]. by eapply rtc_l; [right |].
Qed.

(** ** Applying a whole group *)

Definition state_index (s : FullState P) : N := index (scope_entity (fs_scope s)).

Lemma apply_all_ok l (c : ClientScopes P) validate c' r :
  client_inv c -> apply_all c validate l = (c', r) ->
  client_inv c' /\ cs_connection c' = cs_connection c /\ cs_limits c' = cs_limits c
  /\ (forall st, passed c st -> passed c' st)
  /\ (forall i, i ∉ state_index <$> l -> cs_records c' !! i = cs_records c !! i)
  /\ forall rs, r = Ok rs -> rs = receipt <$> l
      /\ (NoDup (state_index <$> l) ->
          Forall (fun s => cs_records c' !! state_index s = Some (mkReplica (fs_scope s) false false (Some s))) l).
Proof.
  revert c c' r. induction l as [| s l IH]; intros c c' r Hc H; simpl in H.
  { simplify_eq. split_and!; try done. intros rs [= <-]. done. }
  destruct (apply_full c s validate) as [c1 [rc | e]] eqn:Happ.
  - pose proof (apply_full_ok _ _ _ _ _ Hc Happ) as (Hc1 & _ & Hl1 & Hn1 & -> & _ & _ & Hrec).
    destruct (apply_all c1 validate l) as [c2 r2] eqn:Hall.
    destruct (IH _ _ _ Hc1 Hall) as (Hc2 & Hn2 & Hl2 & Hp2 & Hsame & Hok).
    assert (c' = c2 /\ r = match r2 with Ok rs => Ok (receipt s :: rs) | Err e => Err e end) as [-> ->].
    { destruct r2; by simplify_eq. }
    split; [done |]. split; [congruence |]. split; [congruence |].
    split; [intros st Hst; apply Hp2; exact (apply_full_passed _ _ _ _ _ _ Hc Happ Hst) |].
    split.
    { intros i Hi. rewrite fmap_cons, not_elem_of_cons in Hi. destruct Hi as [Hne Hi].
      rewrite Hsame, Hrec by done. by rewrite lookup_insert_ne. }
    intros rs Hrs. destruct r2 as [rs2 |]; [| done]. injection Hrs as <-.
    destruct (Hok rs2 eq_refl) as (-> & Hall2). split; [done |]. rewrite fmap_cons, NoDup_cons. intros [Hs Hnd].
    constructor; [| by apply Hall2]. rewrite Hsame, Hrec by done. by rewrite lookup_insert_eq.
  - apply apply_full_ok in Happ as (_ & _ & _ & _ & ->); [| done]. injection H as <- <-.
    split_and!; try done.
Qed.
End Passed.

(** ** The assembler's invariant *)

Section Assembler.
Context {P : Type} `{!Payload P}.
Variables size_full_state size_scope_identity : N.
Variable clone : P -> P.
#[local] Abbreviation passed := (passed clone).
#[local] Abbreviation same_state := (same_state clone).

Definition scope_index (s : ScopeIdentity) : N := index (scope_entity s).

Record manifest_ok (connection : ConnectionEpoch) (l : GroupLimits) (m : list ScopeIdentity) : Prop := {
  mo_some : m <> [];
  mo_size : len m <= gl_members l;
  mo_indices : NoDup (scope_index <$> m);
}.

Record fence_ok (g : GroupAssembler P) (k : GroupId) (f : GroupFence) : Prop := {
  fo_group : gp_group (gf_publication f) = k;
  fo_connection : gp_connection (gf_publication f) = ga_connection g;
  fo_manifest : manifest_ok (ga_connection g) (ga_limits g) (gf_manifest f);
}.

Definition member_ok (m : list ScopeIdentity) (tick : ServerTick) (s : FullState P) : Prop :=
  fs_scope s ∈ m /\ end_tick s = tick.

Record assembly_ok (g : GroupAssembler P) (k : GroupId) (a : Assembly P) : Prop := {
  ao_fence : exists f, fences g !! k = Some f /\ gf_receipts f = None
    /\ gf_manifest f = as_manifest a /\ gf_end_tick f = as_end_tick a;
  ao_age : as_started_ms a <= ga_now_ms g < as_started_ms a + gl_max_age_ms (ga_limits g);
  ao_bytes : as_bytes a <= gl_group_bytes (ga_limits g);
  ao_chunks : len (as_chunks a) <= gl_chunks (ga_limits g);
  ao_states : NoDup (fs_scope <$> staged_states a);
  ao_members : Forall (member_ok (as_manifest a) (as_end_tick a)) (staged_states a);
}.

Record asm_inv (g : GroupAssembler P) : Prop := {
  ai_age : 0 < gl_max_age_ms (ga_limits g);
  ai_bytes : ga_bytes g = map_sum as_bytes (assemblies g);
  ai_budget : ga_bytes g <= gl_staging_bytes (ga_limits g);
  ai_incomplete : N.of_nat (size (assemblies g)) <= gl_incomplete (ga_limits g);
  ai_known : N.of_nat (size (fences g)) <= gl_known_groups (ga_limits g);
  ai_fence : forall k f, fences g !! k = Some f -> fence_ok g k f;
  ai_assembly : forall k a, assemblies g !! k = Some a -> assembly_ok g k a;
}.

Lemma GroupAssembler_new_ok connection l (g : GroupAssembler P) :
  GroupAssembler_new connection l = Ok g -> asm_inv g /\ ga_connection g = connection /\ ga_limits g = l
    /\ fences g = ∅ /\ assemblies g = ∅.
Proof.
  unfold GroupAssembler_new. intros H. destruct (decide _) as [| Hn] in H; [done |]. injection H as <-.
  split; [| done]. constructor; simpl; rewrite ?map_sum_empty, ?map_size_empty; try done; lia.
Qed.

(** ** Expiry *)

Definition young (now max_age : N) (a : Assembly P) : Prop := now < as_started_ms a + max_age.
#[local] Instance young_dec now max_age a : Decision (young now max_age a).
Proof. unfold young. apply _. Defined.

Lemma retain_young_ok now max_age l bytes :
  Forall (fun ka => as_started_ms ka.2 <= now) l -> sum_over (as_bytes ∘ snd) l <= bytes ->
  exists bytes', retain_young now max_age l bytes
                 = Some (filter (fun ka => young now max_age ka.2) l, bytes')
    /\ bytes' + sum_over (as_bytes ∘ snd) l
       = bytes + sum_over (as_bytes ∘ snd) (filter (fun ka => young now max_age ka.2) l).
Proof.
  revert bytes. induction l as [| [k a] l IH]; intros bytes Hl Hb; simpl.
  { exists bytes. split; [done | lia]. }
  apply Forall_cons in Hl as [Ha Hl]. simpl in *. unfold compose in *. simpl in *.
  destruct (checked_sub now (as_started_ms a)) as [age |] eqn:Hs;
    [| apply checked_sub_None in Hs; lia]. apply checked_sub_Some in Hs as [_ ->].
  destruct (decide (now - as_started_ms a < max_age)) as [Hy | Hy].
  - destruct (IH bytes) as (bytes' & -> & Heq); [done | lia |].
    rewrite filter_cons_True by (unfold young; simpl; lia). eexists. split; [done |]. simpl. lia.
  - destruct (checked_sub bytes (as_bytes a)) as [b |] eqn:Hs; [| apply checked_sub_None in Hs; lia].
    apply checked_sub_Some in Hs as [? ->]. destruct (IH (bytes - as_bytes a)) as (bytes' & -> & Heq); [done | lia |].
    rewrite filter_cons_False by (unfold young; simpl; lia). eexists. split; [done |]. lia.
Qed.

(** The assemblies that survive an expiry. *)
Definition surviving (g : GroupAssembler P) (now : N) : gmap GroupId (Assembly P) :=
  filter (fun ka => young now (gl_max_age_ms (ga_limits g)) ka.2) (assemblies g).

Lemma asm_inv_filter g now bytes :
  asm_inv g -> ga_now_ms g <= now -> bytes = map_sum as_bytes (surviving g now) -> bytes <= ga_bytes g ->
  asm_inv (g <| ga_now_ms := now |> <| assemblies := surviving g now |> <| ga_bytes := bytes |>).
Proof.
  intros Hg Hnow Hb Hle. pose proof (ai_budget _ Hg). pose proof (ai_incomplete _ Hg) as Hi.
  assert (size (surviving g now) <= size (assemblies g))%nat
    by (apply map_subseteq_size, map_filter_subseteq).
  constructor; simpl; try apply Hg; [done | lia | lia | |].
  - intros k f Hf. destruct (ai_fence _ Hg k f Hf). by constructor.
  - intros k a [Ha Hy]%map_lookup_filter_Some. destruct (ai_assembly _ Hg k a Ha). unfold young in Hy. simpl in Hy.
    constructor; try done. simpl. lia.
Qed.

Lemma group_expire_ok g now :
  asm_inv g ->
  exists g' r, expire g now = Some (g', r) /\ asm_inv g'
    /\ ga_connection g' = ga_connection g /\ ga_limits g' = ga_limits g /\ fences g' = fences g
    /\ match r with
       | Err e => e = Stale /\ g' = g /\ now < ga_now_ms g
       | Ok n => ga_now_ms g <= now /\ ga_now_ms g' = now /\ assemblies g' = surviving g now
                 /\ n + N.of_nat (size (surviving g now)) = N.of_nat (size (assemblies g))
                 /\ ga_bytes g' <= ga_bytes g
       end.
Proof.
  intros Hg. unfold expire. destruct (decide _) as [Hlt | Hge]; [by eexists _, _; split_and! |].
  set (l := merge_sort by_group (map_to_list (assemblies g))).
  assert (l ≡ₚ map_to_list (assemblies g)) as Hp by apply merge_sort_Permutation.
  pose proof (ai_bytes _ Hg) as Hb. rewrite map_sum_list, <- (sum_over_Permutation _ _ _ Hp) in Hb.
  destruct (retain_young_ok now (gl_max_age_ms (ga_limits g)) l (ga_bytes g)) as (bytes & -> & Heq); [| lia |].
  { rewrite Hp. apply Forall_forall. intros [k a] Ha%elem_of_map_to_list.
    pose proof (ao_age _ _ _ (ai_assembly _ Hg k a Ha)). simpl. lia. }
  assert (list_to_map (filter (fun ka => young now (gl_max_age_ms (ga_limits g)) ka.2) l) = surviving g now) as ->.
  { unfold surviving. rewrite map_filter_alt. apply list_to_map_proper; [| by rewrite Hp].
    apply NoDup_fmap_filter. rewrite Hp. apply NoDup_fst_map_to_list. }
  assert (bytes = map_sum as_bytes (surviving g now)) as Hbytes.
  { rewrite map_sum_list. unfold surviving. rewrite map_filter_alt.
    assert (filter (fun ka => young now (gl_max_age_ms (ga_limits g)) ka.2) (map_to_list (assemblies g))
            ≡ₚ filter (fun ka => young now (gl_max_age_ms (ga_limits g)) ka.2) l) as Hpf by (by rewrite Hp).
    rewrite (sum_over_Permutation _ _ _ (map_to_list_to_map _ (NoDup_fmap_filter _ _ _ (NoDup_fst_map_to_list _)))).
    rewrite (sum_over_Permutation _ _ _ Hpf). lia. }
  assert (sum_over (as_bytes ∘ snd) (filter (fun ka => young now (gl_max_age_ms (ga_limits g)) ka.2) l)
          <= sum_over (as_bytes ∘ snd) l) as Hle.
  { clear. induction l as [| x l IH]; [done |]. rewrite filter_cons. destruct (decide _); simpl; unfold sum_over in *; simpl in *; lia. }
  eexists _, _. split; [done |]. split; [apply asm_inv_filter; [done | lia | done | lia] |].
  split_and!; try done; [lia | | simpl; lia].
  assert (size (surviving g now) <= size (assemblies g))%nat; [| lia].
  apply map_subseteq_size, map_filter_subseteq.
Qed.

(** ** What the tests of a fragment establish *)

Lemma check_manifest_ok connection seen previous l :
  check_manifest connection seen previous l = Ok tt ->
  NoDup (scope_index <$> l) /\ Forall (fun s => scope_index s ∉ seen) l.
Proof.
  revert seen previous. induction l as [| s l IH]; intros seen previous H; simpl in H; [by split; constructor |].
  destruct (validate_scope s connection) in H; [| done]. destruct (decide _) as [| Hs] in H; [done |].
  destruct (match previous with Some _ => _ | None => _ end) in H; [done |].
  apply IH in H as [Hnd Hl]. rewrite Forall_forall in Hl. split; constructor; try done.
  - intros (t & Ht & Htl)%list_elem_of_fmap. apply (Hl t Htl). unfold scope_index in *. set_solver.
  - apply Forall_forall. intros t Ht Hin. apply (Hl t Ht). set_solver.
Qed.

Lemma check_members_ok connection (ch : GroupChunk P) validate ids bytes l ids' bytes' :
  check_members connection ch validate ids bytes l = Ok (ids', bytes') ->
  ids' ≡ₚ (fs_scope <$> l) ++ ids /\ (NoDup ids -> NoDup ids')
  /\ Forall (member_ok (ch_manifest ch) (ch_end_tick ch)) l.
Proof.
  revert ids bytes. induction l as [| s l IH]; intros ids bytes H; simpl in H; [by simplify_eq |].
  destruct (validate_identity s connection) in H; [| done].
  destruct (decide _) as [| Hs] in H; [done |]. destruct (negb _) in H; [done |].
  destruct (checked_add _ _ _) in H; simpl in H; [| done].
  apply IH in H as (Hp & Hnd & Hl). split_and!.
  - rewrite Hp, fmap_cons. simpl. by rewrite Permutation_middle.
  - intros Hids. apply Hnd. constructor; [tauto | done].
  - constructor; [| done]. unfold member_ok. destruct (decide (end_tick s = ch_end_tick ch)); [| tauto].
    destruct (decide (fs_scope s ∈ ch_manifest ch)); tauto.
Qed.

Lemma check_shape_ok (g : GroupAssembler P) ch connection :
  check_shape g ch connection = Ok tt ->
  gp_connection (ch_publication ch) = ga_connection g /\ connection = ga_connection g
  /\ ch_manifest ch <> [] /\ len (ch_manifest ch) <= gl_members (ga_limits g)
  /\ ch_count ch <= gl_chunks (ga_limits g) /\ ch_index ch < ch_count ch.
Proof.
  unfold check_shape. intros H. destruct (decide _) as [| H1] in H; [done |].
  destruct (decide _) as [| H2] in H; [done |].
  destruct (decide (gp_connection (ch_publication ch) = ga_connection g)); [| tauto].
  destruct (decide (connection = ga_connection g)); [| tauto]. split_and!; try done; try tauto; lia.
Qed.

Lemma charges_ok (g : GroupAssembler P) ch replace existing member_bytes group_bytes bytes :
  charges size_scope_identity g ch replace existing member_bytes = Ok (group_bytes, bytes) ->
  group_bytes <= gl_group_bytes (ga_limits g) /\ bytes <= gl_staging_bytes (ga_limits g)
  /\ bytes + from_option as_bytes 0 existing
      + (if replace then from_option as_bytes 0 (assemblies g !! gp_group (ch_publication ch)) else 0)
     = ga_bytes g + group_bytes.
Proof.
  unfold charges. intros H.
  destruct (match existing with Some _ => _ | None => _ end) as [more |] in H; [| done].
  destruct (checked_add _ member_bytes more) as [added |] in H; [| done]. simpl in H.
  destruct (checked_add _ (from_option _ _ _) added) as [gb |] eqn:Hgb in H; [| done]. simpl in H.
  apply checked_add_Some in Hgb as [-> _].
  set (old := if replace then _ else 0) in *.
  destruct (checked_sub (ga_bytes g) old) as [n |] eqn:Hsub in H; [| done].
  apply checked_sub_Some in Hsub as [? ->]. destruct (checked_add _ (_ - _) added) as [b |] eqn:Hb in H; [| done].
  apply checked_add_Some in Hb as [-> _]. simpl in H. destruct (decide _) in H; [done |]. simplify_eq. lia.
Qed.

Lemma check_existing_some (g : GroupAssembler P) ch ids existing :
  ch_index ch < ch_count ch -> is_Some (check_existing g ch ids existing).
Proof.
  intros Hi. unfold check_existing. destruct existing as [a |]; [| by destruct (decide _)].
  destruct (decide _) as [| Hn]; [done |].
  destruct (as_chunks a !! N.to_nat (ch_index ch)) as [[|] |] eqn:Hl; [done | done |].
  apply lookup_ge_None in Hl. unfold len in *.
  destruct (decide (N.of_nat (length (as_chunks a)) = ch_count ch)); [lia | tauto].
Qed.

Lemma staged_insert (l : list (option (list (FullState P)))) i m :
  l !! i = Some None -> concat (omap id (<[i := Some m]> l)) ≡ₚ m ++ concat (omap id l).
Proof.
  intros Hi. rewrite insert_take_drop by (by eapply lookup_lt_Some).
  rewrite <- (take_drop_middle l i None Hi) at 3. rewrite !omap_app. simpl. rewrite !concat_app. simpl.
  rewrite !app_assoc. by rewrite (Permutation_app_comm m).
Qed.

(** A fragment that may proceed: of the publication in progress, or of one that replaces it. *)
Lemma check_fence_proceed (g : GroupAssembler P) ch c now replace started :
  asm_inv g -> check_fence g ch c now = Ok (Proceed replace started) ->
  let k := gp_group (ch_publication ch) in
  (fences g !! k = None -> N.of_nat (size (fences g)) < gl_known_groups (ga_limits g))
  /\ match assemblies g !! k with
     | None => started = now
     | Some a => (replace = true /\ started = as_started_ms a)
         \/ (replace = false /\ exists f, fences g !! k = Some f /\ gf_publication f = ch_publication ch)
     end
  /\ (forall f, fences g !! k = Some f -> gf_receipts f = None -> assemblies g !! k <> None).
Proof.
  intros Hg H k. unfold check_fence in H. fold k in H.
  destruct (fences g !! k) as [f |] eqn:Hf.
  - split; [done |]. destruct (decide _) in H; [done |]. destruct (decide _) in H; [done |].
    destruct (decide _) as [| Hno] in H; [done |]. split; [| intros f' [= <-]; tauto].
    destruct (decide _) as [Hkey | Hkey] in H.
    + destruct (gf_receipts f) as [rs |] eqn:Hrs.
      { destruct (negb _) in H; [done |]. by destruct (negb _) in H. }
      destruct (assemblies g !! k) as [a |] eqn:Ha; [| by destruct (decide _) in H].
      rewrite decide_False in H by done. simplify_eq. right. split; [done |]. by exists f.
    + destruct (assemblies g !! k) as [a |] eqn:Ha; simplify_eq; [by left | done].
  - destruct (decide _) as [| Hk] in H; [done |]. simplify_eq. split; [lia |]. split; [| done].
    destruct (assemblies g !! k) as [a |] eqn:Ha; [| done].
    destruct (ao_fence _ _ _ (ai_assembly _ Hg k a Ha)) as (f & ? & _). congruence.
Qed.

Lemma map_size_insert_le {V} (m : gmap N V) k v bound :
  N.of_nat (size m) <= bound -> (m !! k = None -> N.of_nat (size m) < bound) ->
  N.of_nat (size (<[k := v]> m)) <= bound.
Proof. intros H Hnone. rewrite map_size_insert. destruct (m !! k); simpl; [done |]. specialize (Hnone eq_refl). lia. Qed.

(** Writing one assembly with its fence keeps the invariant. *)
Lemma asm_inv_write (g : GroupAssembler P) k a f bytes :
  let g' := g <| assemblies := <[k := a]> (assemblies g) |> <| ga_bytes := bytes |>
              <| fences := <[k := f]> (fences g) |> in
  asm_inv g -> fence_ok g' k f -> assembly_ok g' k a ->
  bytes + from_option as_bytes 0 (assemblies g !! k) = as_bytes a + ga_bytes g ->
  bytes <= gl_staging_bytes (ga_limits g) ->
  (assemblies g !! k = None -> N.of_nat (size (assemblies g)) < gl_incomplete (ga_limits g)) ->
  (fences g !! k = None -> N.of_nat (size (fences g)) < gl_known_groups (ga_limits g)) -> asm_inv g'.
Proof.
  intros g' Hg Hf Ha Hb Hbud Hinc Hkn. constructor; simpl.
  - apply Hg.
  - pose proof (map_sum_update as_bytes (assemblies g) k a). pose proof (ai_bytes _ Hg). lia.
  - done.
  - apply map_size_insert_le; [apply Hg | done].
  - apply map_size_insert_le; [apply Hg | done].
  - intros k' f' [[<- <-] | [Hne Hf']]%lookup_insert_Some; [done |].
    destruct (ai_fence _ Hg k' f' Hf'). by constructor.
  - intros k' a' [[<- <-] | [Hne Ha']]%lookup_insert_Some; [done |].
    destruct (ai_assembly _ Hg k' a' Ha') as [Hfence]. constructor; try done. simpl.
    by rewrite lookup_insert_ne.
Qed.

(** The existing assembly, when the fragment continues it. *)
Lemma check_existing_continue (g : GroupAssembler P) ch ids a :
  check_existing g ch ids (Some a) = Some (Ok false) ->
  as_end_tick a = ch_end_tick ch /\ len (as_chunks a) = ch_count ch /\ as_manifest a = ch_manifest ch
  /\ as_chunks a !! N.to_nat (ch_index ch) = Some None
  /\ forall s, s ∈ staged_states a -> fs_scope s ∉ ids.
Proof.
  unfold check_existing. intros H. destruct (decide _) as [| Hn] in H; [done |].
  destruct (as_chunks a !! _) as [[prev |] |] eqn:Hl in H; [by destruct (states_eq _ _) in H | | done].
  destruct (existsb _ _) eqn:He in H; [done |].
  destruct (decide (as_end_tick a = ch_end_tick ch)); [| tauto].
  destruct (decide (len (as_chunks a) = ch_count ch)); [| tauto].
  destruct (decide (as_manifest a = ch_manifest ch)); [| tauto]. split_and!; try done.
  intros s Hs Hin. rewrite <- not_true_iff_false in He. apply He, existsb_exists. exists s.
  rewrite bool_decide_eq_true. split; [| done]. by apply list_elem_of_In.
Qed.

(** The fragments' members with this one's: distinct, of the manifest, of the tick. *)
Lemma staged_add (a : Assembly P) i members gb :
  as_chunks a !! i = Some None ->
  NoDup (fs_scope <$> members) -> Forall (member_ok (as_manifest a) (as_end_tick a)) members ->
  NoDup (fs_scope <$> staged_states a) -> Forall (member_ok (as_manifest a) (as_end_tick a)) (staged_states a) ->
  (forall s, s ∈ staged_states a -> fs_scope s ∉ fs_scope <$> members) ->
  let a' := a <| as_chunks := <[i := Some members]> (as_chunks a) |> <| as_bytes := gb |> in
  NoDup (fs_scope <$> staged_states a') /\ Forall (member_ok (as_manifest a) (as_end_tick a)) (staged_states a')
  /\ staged_states a' ≡ₚ members ++ staged_states a.
Proof.
  intros Hi Hnd Hm Hnda Hma Hdis a'.
  assert (staged_states a' ≡ₚ members ++ staged_states a) as Hp by by apply staged_insert.
  split_and!; [| | done].
  - rewrite Hp, fmap_app. apply NoDup_app. split_and!; [done | | done].
    intros s Hs (t & -> & Ht)%list_elem_of_fmap. by apply (Hdis t).
  - rewrite Hp. by apply Forall_app.
Qed.

Definition fresh_assembly (ch : GroupChunk P) (started : N) : Assembly P :=
  mkAssembly (ch_end_tick ch) (ch_manifest ch) (replicate (N.to_nat (ch_count ch)) None) started 0.

Lemma fresh_staged ch started : staged_states (fresh_assembly ch started) = [].
Proof. unfold staged_states. simpl. by induction (N.to_nat (ch_count ch)). Qed.

Lemma fresh_chunks ch started :
  ch_index ch < ch_count ch ->
  len (as_chunks (fresh_assembly ch started)) = ch_count ch
  /\ as_chunks (fresh_assembly ch started) !! N.to_nat (ch_index ch) = Some None
  /\ NoDup (fs_scope <$> staged_states (fresh_assembly ch started))
  /\ Forall (member_ok (ch_manifest ch) (ch_end_tick ch)) (staged_states (fresh_assembly ch started))
  /\ forall s, s ∈ staged_states (fresh_assembly ch started) -> fs_scope s ∉ fs_scope <$> ch_members ch.
Proof.
  intros Hi. rewrite fresh_staged. split_and!.
  - simpl. unfold len. rewrite length_replicate. lia.
  - apply lookup_replicate_2. lia.
  - constructor.
  - constructor.
  - intros s Hs. by apply elem_of_nil in Hs.
Qed.

(** The assembly the fragment is put into. *)
Definition base_assembly (g : GroupAssembler P) ch (replace : bool) started : Assembly P :=
  if replace then fresh_assembly ch started
  else default (fresh_assembly ch started) (assemblies g !! gp_group (ch_publication ch)).

Lemma stage_eq (g : GroupAssembler P) ch replace started gb bytes :
  let k := gp_group (ch_publication ch) in
  let a := base_assembly g ch replace started in
  ch_index ch < len (as_chunks a) ->
  let a' := a <| as_chunks := <[N.to_nat (ch_index ch) := Some (ch_members ch)]> (as_chunks a) |>
              <| as_bytes := gb |> in
  stage g ch replace started gb bytes
  = Some (g <| assemblies := <[k := a']> (assemblies g) |> <| ga_bytes := bytes |>
            <| fences := <[k := mkGroupFence (ch_publication ch) (ch_end_tick ch) (ch_manifest ch) None]>
                           (fences g) |>, a').
Proof.
  intros k a Hi a'. unfold stage. fold k.
  assert (match (if replace then delete k (assemblies g) else assemblies g) !! k with
          | Some a => a
          | None => mkAssembly (ch_end_tick ch) (ch_manifest ch) (replicate (N.to_nat (ch_count ch)) None) started 0
          end = a) as ->.
  { subst a. unfold base_assembly. fold k. destruct replace; [by rewrite lookup_delete_eq |].
    by destruct (assemblies g !! k). }
  rewrite decide_True by done. fold a'. f_equal. f_equal. f_equal. destruct replace; [| done].
  simpl. by rewrite insert_delete_eq.
Qed.

(** A fragment that passed the tests of its shape. *)
Record fragment_ok (g : GroupAssembler P) (ch : GroupChunk P) (ids : list ScopeIdentity) : Prop := {
  fr_connection : gp_connection (ch_publication ch) = ga_connection g;
  fr_manifest : manifest_ok (ga_connection g) (ga_limits g) (ch_manifest ch);
  fr_count : ch_count ch <= gl_chunks (ga_limits g);
  fr_index : ch_index ch < ch_count ch;
  fr_ids : ids ≡ₚ fs_scope <$> ch_members ch;
  fr_distinct : NoDup (fs_scope <$> ch_members ch);
  fr_members : Forall (member_ok (ch_manifest ch) (ch_end_tick ch)) (ch_members ch);
}.

Lemma fragment_checked (g : GroupAssembler P) ch connection validate start ids bytes :
  check_shape g ch connection = Ok tt -> check_manifest (ga_connection g) ∅ None (ch_manifest ch) = Ok tt ->
  check_members (ga_connection g) ch validate [] start (ch_members ch) = Ok (ids, bytes) ->
  fragment_ok g ch ids /\ connection = ga_connection g.
Proof.
  intros (H1 & H2 & H3 & H4 & H5 & H6)%check_shape_ok [Hnd _]%check_manifest_ok
    (Hp & Hids & Hm)%check_members_ok. rewrite app_nil_r in Hp.
  split; [| done]. constructor; try done. rewrite <- Hp. apply Hids. constructor.
Qed.

(** What the assembly in front of the fragment satisfies before it is written. *)
Lemma base_assembly_ok (g : GroupAssembler P) ch c now ids replace started :
  asm_inv g -> fragment_ok g ch ids -> ga_now_ms g = now ->
  check_fence g ch c now = Ok (Proceed replace started) ->
  let k := gp_group (ch_publication ch) in
  let existing := if replace then None else assemblies g !! k in
  check_existing g ch ids existing = Some (Ok false) ->
  let a := base_assembly g ch replace started in
  as_end_tick a = ch_end_tick ch /\ as_manifest a = ch_manifest ch /\ len (as_chunks a) = ch_count ch
  /\ as_chunks a !! N.to_nat (ch_index ch) = Some None
  /\ as_started_ms a <= now < as_started_ms a + gl_max_age_ms (ga_limits g)
  /\ NoDup (fs_scope <$> staged_states a) /\ Forall (member_ok (as_manifest a) (as_end_tick a)) (staged_states a)
  /\ (forall s, s ∈ staged_states a -> fs_scope s ∉ fs_scope <$> ch_members ch)
  /\ (forall a0, assemblies g !! k = Some a0 -> as_started_ms a = as_started_ms a0).
Proof.
  intros Hg Hfr Hnow Hfence k existing Hex a. pose proof (fr_index _ _ _ Hfr) as Hidx.
  destruct (check_fence_proceed _ _ _ _ _ _ Hg Hfence) as (_ & Hcase & _). fold k in Hcase.
  pose proof (ai_age _ Hg) as Hage. subst a. unfold base_assembly. fold k.
  destruct (assemblies g !! k) as [a0 |] eqn:Ha0, replace; try (destruct Hcase as [(? & ?) | (? & ?)]; done).
  - destruct Hcase as [(_ & ->) | (? & _)]; [| done]. destruct (ai_assembly _ Hg k a0 Ha0) as [_ ? _ _ _ _].
    destruct (fresh_chunks ch (as_started_ms a0) Hidx) as (? & ? & ? & ? & ?).
    repeat split; try done; [simpl; lia | simpl; lia | by intros ? [= ->]].
  - subst existing. simpl. destruct (check_existing_continue _ _ _ _ Hex) as (H1 & H2 & H3 & H4 & H5).
    destruct (ai_assembly _ Hg k a0 Ha0) as [_ ? _ _ ? ?].
    repeat split; try done; [lia | lia | | by intros ? [= ->]].
    intros s Hs. rewrite <- (fr_ids _ _ _ Hfr). by apply H5.
  - subst started. destruct (fresh_chunks ch now Hidx) as (? & ? & ? & ? & ?).
    repeat split; try done; simpl; lia.
  - subst started. simpl. destruct (fresh_chunks ch now Hidx) as (? & ? & ? & ? & ?).
    repeat split; try done; simpl; lia.
Qed.

Lemma stage_ok (g : GroupAssembler P) ch c now ids replace started member_bytes gb bytes :
  asm_inv g -> fragment_ok g ch ids -> ga_now_ms g = now ->
  check_fence g ch c now = Ok (Proceed replace started) ->
  let k := gp_group (ch_publication ch) in
  let existing := if replace then None else assemblies g !! k in
  check_existing g ch ids existing = Some (Ok false) ->
  charges size_scope_identity g ch replace existing member_bytes = Ok (gb, bytes) ->
  exists g' a', stage g ch replace started gb bytes = Some (g', a') /\ asm_inv g'
    /\ ga_connection g' = ga_connection g /\ ga_limits g' = ga_limits g /\ ga_now_ms g' = now
    /\ assemblies g' = <[k := a']> (assemblies g)
    /\ fences g' = <[k := mkGroupFence (ch_publication ch) (ch_end_tick ch) (ch_manifest ch) None]> (fences g)
    /\ as_manifest a' = ch_manifest ch /\ as_end_tick a' = ch_end_tick ch
    /\ (forall a0, assemblies g !! k = Some a0 -> as_started_ms a' = as_started_ms a0).
Proof.
  intros Hg Hfr Hnow Hfence k existing Hex Hch.
  destruct (base_assembly_ok g ch c now ids replace started Hg Hfr Hnow Hfence Hex)
    as (E1 & E2 & E3 & E4 & E5 & E6 & E7 & E8 & E9). fold k in E9.
  apply charges_ok in Hch as (Hgb & Hbytes & Hsum). fold k in Hsum.
  destruct (check_fence_proceed _ _ _ _ _ _ Hg Hfence) as (Hkn & Hcase & _). fold k in Hkn, Hcase.
  rewrite stage_eq by (rewrite E3; apply Hfr). fold k. set (a := base_assembly g ch replace started) in *.
  set (a' := (a <| as_chunks := <[N.to_nat (ch_index ch) := Some (ch_members ch)]> (as_chunks a) |>
                <| as_bytes := gb |>) : Assembly P).
  destruct (staged_add a _ (ch_members ch) gb E4) as (F1 & F2 & _); try done; [apply Hfr | by rewrite E1, E2; apply Hfr |].
  fold a' in F1, F2. eexists _, a'. split; [done |]. split; [| split_and!; try done].
  apply asm_inv_write; try done.
  - constructor; simpl; [done | apply Hfr | apply Hfr].
  - constructor; simpl; try done; [| lia |].
    + rewrite lookup_insert_eq. eexists. split; [done |]. simpl. auto.
    + unfold len. rewrite length_insert. fold (len (as_chunks a)). rewrite E3. apply Hfr.
  - simpl. subst existing. destruct replace; simpl in Hsum; [lia |]. destruct (assemblies g !! k); simpl in *; lia.
  - intros Hnone. subst existing. unfold check_existing in Hex. fold k in Hex. rewrite Hnone in Hex.
    assert ((if replace then None else None) = None (A:=Assembly P)) as Heq by by destruct replace.
    rewrite Heq in Hex. destruct (decide _) as [| Hd] in Hex; [done |]. apply not_and_l in Hd as [? | ?]; [done | lia].
Qed.

(** ** Publication *)

Definition held (c : ClientScopes P) (s : FullState P) : Prop :=
  cs_records c !! state_index s = Some (mkReplica (fs_scope s) false false (Some s)).

Lemma held_state c s : held c s -> client_state c (scope_entity (fs_scope s)) = Some s.
Proof. unfold held, client_state, state_index. intros ->. simpl. by rewrite decide_True. Qed.

Lemma held_passed c s : held c s -> passed c s.
Proof.
  intros H. eexists. split; [exact H |]. right. simpl. split; [done |]. right. right.
  split; [done |]. right. exists s. split; [done |]. right. apply rtc_refl.
Qed.

(** As many distinct members of the manifest as it has entries are all of it. *)
Lemma staged_all connection l (m : list ScopeIdentity) (sts : list (FullState P)) tick :
  manifest_ok connection l m -> NoDup (fs_scope <$> sts) -> Forall (member_ok m tick) sts ->
  len sts = len m -> fs_scope <$> sts ≡ₚ m.
Proof.
  intros Hm Hnd Hmem Hlen. apply submseteq_length_Permutation.
  - apply NoDup_submseteq; [done |]. intros s (t & -> & Ht)%list_elem_of_fmap.
    rewrite Forall_forall in Hmem. by destruct (Hmem t Ht).
  - rewrite length_fmap. unfold len in Hlen. lia.
Qed.

Lemma discard_ok (g : GroupAssembler P) k a :
  asm_inv g -> assemblies g !! k = Some a ->
  exists g', discard g k = Some g' /\ asm_inv g' /\ assemblies g' = delete k (assemblies g)
    /\ fences g' = fences g /\ ga_connection g' = ga_connection g /\ ga_limits g' = ga_limits g
    /\ ga_now_ms g' = ga_now_ms g.
Proof.
  intros Hg Ha. unfold discard. rewrite Ha. pose proof (ai_bytes _ Hg) as Hb.
  rewrite (map_sum_delete as_bytes _ _ _ Ha) in Hb. pose proof (ai_budget _ Hg). pose proof (ai_incomplete _ Hg).
  pose proof (map_size_delete_le (assemblies g) k).
  destruct (checked_sub _ _) as [n |] eqn:Hs; [| apply checked_sub_None in Hs; lia].
  apply checked_sub_Some in Hs as [_ ->]. eexists. split; [done |]. split; [| done].
  constructor; simpl; try apply Hg; [lia | lia | lia | |].
  - intros k' f Hf. destruct (ai_fence _ Hg k' f Hf). by constructor.
  - intros k' a' [_ Ha']%lookup_delete_Some. destruct (ai_assembly _ Hg k' a' Ha'). by constructor.
Qed.

(** Recording the receipts of a published group, once its assembly is gone. *)
Lemma asm_inv_receipts (g : GroupAssembler P) k f rs :
  asm_inv g -> fences g !! k = Some f -> assemblies g !! k = None ->
  asm_inv (g <| fences := <[k := f <| gf_receipts := Some rs |>]> (fences g) |>).
Proof.
  intros Hg Hf Hk. pose proof (ai_known _ Hg). constructor; simpl; try apply Hg.
  - by rewrite map_size_insert_Some by done.
  - intros k' f' [[<- <-] | [_ Hf']]%lookup_insert_Some.
    + destruct (ai_fence _ Hg k f Hf). by constructor.
    + destruct (ai_fence _ Hg k' f' Hf'). by constructor.
  - intros k' a' Ha'. assert (k <> k') by congruence. destruct (ai_assembly _ Hg k' a' Ha').
    constructor; try done. simpl. by rewrite lookup_insert_ne.
Qed.

(** Entities outside the manifest are left alone, but for the copying of the client. *)
Definition others_kept (manifest : list ScopeIdentity) (c c' : ClientScopes P) : Prop :=
  c' = c \/ forall i, i ∉ scope_index <$> manifest -> cs_records c' !! i = clone_replica clone <$> cs_records c !! i.

Lemma complete_ok (g : GroupAssembler P) a k f (c : ClientScopes P) validate :
  clone_fits clone -> asm_inv g -> client_inv c -> assemblies g !! k = Some a -> fences g !! k = Some f ->
  exists g' c' r, complete clone g a k c validate = Some (g', c', r) /\ asm_inv g' /\ client_inv c'
    /\ ga_connection g' = ga_connection g /\ ga_limits g' = ga_limits g /\ ga_now_ms g' = ga_now_ms g
    /\ match r with
       | Ok Staged => g' = g /\ c' = c
       | Err _ => c' = c /\ fences g' = fences g /\ assemblies g' = delete k (assemblies g)
       | Ok (Published rs) =>
           cs_connection c' = cs_connection c /\ cs_limits c' = cs_limits c
           /\ (forall st, passed c st -> passed c' st)
           /\ fences g' = <[k := f <| gf_receipts := Some rs |>]> (fences g)
           /\ assemblies g' = delete k (assemblies g)
           /\ rs = receipt <$> staged_states a /\ Forall (held c') (clone_state clone <$> staged_states a)
           /\ fs_scope <$> staged_states a ≡ₚ as_manifest a
           /\ others_kept (as_manifest a) c c'
       end.
Proof.
  intros Hfit Hg Hc Ha Hf. unfold complete. destruct (existsb is_none (as_chunks a)); [by eexists _, _, _ |].
  destruct (discard_ok g k a Hg Ha) as (g1 & -> & Hg1 & Hasm & Hfen & Hcon & Hlim & Hnow).
  destruct (decide _) as [| Hlen]; [by eexists _, _, _; split_and! |]. apply dec_stable in Hlen.
  destruct (apply_all (clone_client clone c) validate _) as [c' r] eqn:Hall.
  destruct (apply_all_ok clone _ _ _ _ _ (clone_client_inv clone c Hfit Hc) Hall) as (Hc' & Hconn & Hcl & Hp & Hoth & Hrs).
  destruct r as [rs | e]; [| by eexists _, _, _; split_and!]. rewrite Hfen, Hf.
  destruct (Hrs rs eq_refl) as (-> & Hheld). destruct (ai_assembly _ Hg k a Ha) as [(f' & Hf' & _ & Hman & _) _ _ _ Hnd Hmem].
  assert (f' = f) as -> by congruence. pose proof (fo_manifest _ _ _ (ai_fence _ Hg k f Hf)) as Hmok. rewrite Hman in Hmok.
  pose proof (staged_all _ _ _ _ _ Hmok Hnd Hmem Hlen) as Hperm.
  eexists _, _, _. split; [done |]. split.
  { rewrite <- Hfen. apply asm_inv_receipts; [done | by rewrite Hfen | by rewrite Hasm, lookup_delete_eq]. }
  assert (state_index <$> (clone_state clone <$> staged_states a) ≡ₚ scope_index <$> as_manifest a) as Hidx.
  { rewrite <- list_fmap_compose. change (scope_index ∘ fs_scope <$> staged_states a ≡ₚ scope_index <$> as_manifest a).
    by rewrite (list_fmap_compose fs_scope scope_index), Hperm. }
  split_and!; try done.
  - intros st Hst. by apply Hp, clone_client_passed.
  - by rewrite <- list_fmap_compose.
  - apply Hheld. rewrite Hidx. apply Hmok.
  - right. intros i Hi. rewrite Hoth by by rewrite Hidx. simpl. by rewrite lookup_fmap.
Qed.

(** ** One fragment *)

(** What a published answer promises: every member named, of one tick, retained as received. *)
Definition promised (c : ClientScopes P) (manifest : list ScopeIdentity) (tick : ServerTick)
    (rs : list StateReceipt) (sts : list (FullState P)) : Prop :=
  fs_scope <$> sts = manifest /\ rs ≡ₚ receipt <$> sts
  /\ Forall (fun s => end_tick s = tick) sts
  /\ Forall (fun s => client_state c (scope_entity (fs_scope s)) = Some s) sts.

(** The group is published for the first time, or the answer of its publication is repeated. *)
Definition receive_post (g : GroupAssembler P) (ch : GroupChunk P) (c : ClientScopes P) (g' : GroupAssembler P)
    (c' : ClientScopes P) (r : result ReplicationError GroupProgress) : Prop :=
  let k := gp_group (ch_publication ch) in
  match r with
  | Ok (Published rs) =>
      (exists f sts, fences g' = <[k := f]> (fences g) /\ gf_publication f = ch_publication ch
         /\ gf_manifest f = ch_manifest ch /\ gf_receipts f = Some rs /\ gf_end_tick f = ch_end_tick ch
         /\ Forall (held c') sts
         /\ promised c' (ch_manifest ch) (ch_end_tick ch) rs sts /\ cs_connection c' = ga_connection g
         /\ others_kept (ch_manifest ch) c c')
      \/ (c' = c /\ fences g' = fences g
          /\ exists f, fences g !! k = Some f /\ gf_publication f = ch_publication ch /\ gf_receipts f = Some rs
               /\ forallb (still_held c) rs = true /\ cs_connection c = ga_connection g
               /\ gf_manifest f = ch_manifest ch /\ gf_end_tick f = ch_end_tick ch)
  | _ => c' = c
         /\ (fences g' = fences g \/ exists f, fences g' = <[k := f]> (fences g) /\ gf_receipts f = None
              /\ cs_connection c = ga_connection g)
  end.

Lemma check_fence_repeat (g : GroupAssembler P) ch c now rs :
  check_fence g ch c now = Ok (AlreadyPublished rs) ->
  exists f, fences g !! gp_group (ch_publication ch) = Some f /\ gf_publication f = ch_publication ch
    /\ gf_receipts f = Some rs /\ forallb (still_held c) rs = true
    /\ gf_manifest f = ch_manifest ch /\ gf_end_tick f = ch_end_tick ch.
Proof.
  unfold check_fence. intros H. destruct (fences g !! _) as [f |]; [| by destruct (decide _) in H].
  destruct (decide _) as [| Hman] in H; [done |]. destruct (decide _) in H; [done |]. destruct (decide _) in H; [done |].
  destruct (decide (ch_publication ch = gf_publication f)) as [Hkey |] in H; [| done].
  destruct (gf_receipts f) as [rs' |] eqn:Hr in H; [| by destruct (decide _) in H].
  destruct (forallb (still_held c) rs') eqn:Hs in H; simpl in H; [| done].
  destruct (negb _) in H; [done |]. simplify_eq. exists f. rewrite Hkey in Hman.
  destruct (decide (ch_manifest ch = gf_manifest f)); [| tauto].
  destruct (decide (ch_end_tick ch = gf_end_tick f)); [| tauto]. by split_and!.
Qed.

Definition starts_kept (g g' : GroupAssembler P) : Prop :=
  forall k a a', assemblies g !! k = Some a -> assemblies g' !! k = Some a' -> as_started_ms a' = as_started_ms a.

(** An incomplete group that was dropped is not taken up again. *)
Definition dropped (g : GroupAssembler P) (k : GroupId) : Prop :=
  assemblies g !! k = None /\ exists f, fences g !! k = Some f /\ gf_receipts f = None.

Lemma dropped_frame (g g' : GroupAssembler P) k :
  (forall k', k' <> k -> assemblies g' !! k' = assemblies g !! k' /\ fences g' !! k' = fences g !! k') ->
  (forall k', dropped g k' -> k' <> k) -> forall k', dropped g k' -> dropped g' k'.
Proof.
  intros Hsame Hne k' Hd. destruct (Hsame k' (Hne k' Hd)) as [Ha Hf]. unfold dropped. by rewrite Ha, Hf.
Qed.

(** The staged states in the order of the manifest are what the publication promises. *)
Lemma staged_promised (g : GroupAssembler P) k a c :
  assembly_ok g k a -> fs_scope <$> staged_states a ≡ₚ as_manifest a ->
  Forall (held c) (clone_state clone <$> staged_states a) ->
  exists sts, Forall (held c) sts
    /\ promised c (as_manifest a) (as_end_tick a) (receipt <$> staged_states a) sts.
Proof.
  intros Ha Hp Hheld. symmetry in Hp. apply Permutation_map_inv in Hp as (sts & Hsts & Hperm).
  exists (clone_state clone <$> sts). rewrite Hperm in Hheld. split; [done |]. split_and!.
  - rewrite <- list_fmap_compose. by symmetry.
  - rewrite <- list_fmap_compose. by rewrite Hperm.
  - apply Forall_fmap. rewrite <- Hperm. apply (List.Forall_impl _ (P := member_ok (as_manifest a) (as_end_tick a))).
    + by intros s [_ ?].
    + apply Ha.
  - apply (List.Forall_impl _ (P := held c)); [apply held_state | done].
Qed.

(** A branch that answers without touching anything. *)
Ltac unchanged := eexists _, _, _; split_and!; eauto; split; auto.

Lemma receive_live_ok (g : GroupAssembler P) ch now (c : ClientScopes P) validate :
  clone_fits clone -> asm_inv g -> client_inv c -> ga_now_ms g = now ->
  exists g' c' r, receive_live size_full_state size_scope_identity clone g ch now c validate = Some (g', c', r)
    /\ asm_inv g' /\ client_inv c'
    /\ ga_connection g' = ga_connection g /\ ga_limits g' = ga_limits g /\ ga_now_ms g' = now
    /\ cs_connection c' = cs_connection c /\ (forall st, passed c st -> passed c' st)
    /\ starts_kept g g' /\ (forall k, dropped g k -> dropped g' k) /\ receive_post g ch c g' c' r.
Proof.
  intros Hfit Hg Hc Hnow. assert (starts_kept g g) as Hrefl by (intros k a a'; congruence).
  unfold receive_live.
  destruct (check_shape g ch (cs_connection c)) as [[] |] eqn:Hshape; [| unchanged].
  destruct (check_manifest _ _ _ _) as [[] |] eqn:Hman; [| unchanged].
  destruct (ok_or _ _) as [start |] ; [| unchanged].
  destruct (check_members _ _ _ _ _ _) as [[ids mb] |] eqn:Hmem; [| unchanged].
  destruct (fragment_checked _ _ _ _ _ _ _ Hshape Hman Hmem) as [Hfr Hcon].
  destruct (check_fence g ch c now) as [[rs | replace started] |] eqn:Hf;
    [| | unchanged].
  { destruct (check_fence_repeat _ _ _ _ _ Hf) as (f & ? & ? & ? & ? & ? & ?).
    eexists _, _, _; split_and!; eauto. right. split_and!; eauto. by exists f. }
  set (k := gp_group (ch_publication ch)). set (existing := if replace then None else assemblies g !! k).
  destruct (check_existing_some g ch ids existing (fr_index _ _ _ Hfr)) as [ex Hex]. rewrite Hex.
  destruct ex as [[] |]; [unchanged | | unchanged].
  destruct (charges _ _ _ _ _ _) as [[gb bytes] |] eqn:Hch; [| unchanged].
  destruct (stage_ok g ch c now ids replace started mb gb bytes Hg Hfr Hnow Hf Hex Hch)
    as (g1 & a & -> & Hg1 & S1 & S2 & S3 & Hasm & Hfen & Hm & Ht & Hst). fold k in Hasm, Hfen, Hst.
  set (f := mkGroupFence (ch_publication ch) (ch_end_tick ch) (ch_manifest ch) None) in *.
  assert (starts_kept g g1) as Hk1.
  { intros k' a0 a1 Ha0 Ha1. rewrite Hasm in Ha1. apply lookup_insert_Some in Ha1 as [[<- <-] | [? ?]]; [by apply Hst | congruence]. }
  assert (forall k', dropped g k' -> k' <> k) as Hdrop.
  { intros k' (Hna & f' & Hf' & Hrec) ->.
    destruct (check_fence_proceed _ _ _ _ _ _ Hg Hf) as (_ & _ & Hno). by apply (Hno f'). }
  destruct (complete_ok g1 a k f c validate Hfit Hg1 Hc) as (g2 & c2 & r & -> & Hg2 & Hc2 & T1 & T2 & T3 & Hr);
    [by rewrite Hasm, lookup_insert_eq | by rewrite Hfen, lookup_insert_eq |].
  eexists _, _, _. split; [done |]. split; [done |]. split; [done |]. split; [congruence |]. split; [congruence |].
  split; [congruence |].
  destruct r as [[| rs] | e].
  - destruct Hr as [-> ->]. split; [done |]. split; [done |]. split; [done |]. split.
    { apply (dropped_frame _ _ k); [| done]. intros k' Hne. rewrite Hasm, Hfen. by rewrite !lookup_insert_ne. }
    split; [done |]. right. exists f. by split_and!.
  - destruct Hr as (R1 & _ & R3 & R4 & R5 & -> & R7 & R8 & R9). split; [done |]. split; [done |]. split.
    { intros k' a0 a1 Ha0 Ha1. rewrite R5 in Ha1. apply lookup_delete_Some in Ha1 as [_ Ha1]. by eapply Hk1. }
    split.
    { apply (dropped_frame _ _ k); [| done]. intros k' Hne. rewrite R5, R4, Hasm, Hfen.
      by rewrite lookup_delete_ne, !lookup_insert_ne. }
    left. assert (assemblies g1 !! k = Some a) as Ha by by rewrite Hasm, lookup_insert_eq.
    destruct (staged_promised g1 k a c2 (ai_assembly _ Hg1 k a Ha) R8 R7) as (sts & Hheld & Hpr).
    rewrite Hm, Ht in Hpr. exists (f <| gf_receipts := Some (receipt <$> staged_states a) |>), sts.
    rewrite R4, Hfen, insert_insert_eq. rewrite Hm in R9. split_and!; try done. congruence.
  - destruct Hr as (-> & R2 & R3). split; [done |]. split; [done |]. split.
    { intros k' a0 a1 Ha0 Ha1. rewrite R3 in Ha1. apply lookup_delete_Some in Ha1 as [_ Ha1]. by eapply Hk1. }
    split.
    { apply (dropped_frame _ _ k); [| done]. intros k' Hne. rewrite R3, R2, Hasm, Hfen.
      by rewrite lookup_delete_ne, !lookup_insert_ne. }
    split; [done |]. right. exists f. rewrite R2, Hfen. by split_and!.
Qed.

Lemma receive_ok (g : GroupAssembler P) ch now (c : ClientScopes P) validate :
  clone_fits clone -> asm_inv g -> client_inv c ->
  exists g' c' r, receive size_full_state size_scope_identity clone g ch now c validate = Some (g', c', r)
    /\ asm_inv g' /\ client_inv c'
    /\ ga_connection g' = ga_connection g /\ ga_limits g' = ga_limits g
    /\ cs_connection c' = cs_connection c /\ (forall st, passed c st -> passed c' st)
    /\ starts_kept g g' /\ (forall k, dropped g k -> dropped g' k) /\ receive_post g ch c g' c' r.
Proof.
  intros Hfit Hg Hc. assert (starts_kept g g) as Hrefl by (intros k a a'; congruence). unfold receive.
  destruct (group_expire_ok g now Hg) as (g1 & r1 & -> & Hg1 & E1 & E2 & E3 & E4).
  destruct r1 as [n | e]; [| destruct E4 as (_ & -> & _); unchanged].
  destruct E4 as (_ & Hnow & Hasm & _).
  destruct (receive_live_ok g1 ch now c validate Hfit Hg1 Hc Hnow)
    as (g' & c' & r & -> & Hg' & Hc' & R1 & R2 & _ & R4 & R5 & R6 & R7 & R8).
  assert (forall k, assemblies g !! k = None -> assemblies g1 !! k = None) as Hnone.
  { intros k Hk. rewrite Hasm. apply map_lookup_filter_None. by left. }
  eexists _, _, _. split; [done |]. split; [done |]. split; [done |]. split; [congruence |]. split; [congruence |].
  split; [done |]. split; [done |]. split; [| split].
  - intros k a a' Ha Ha'. destruct (assemblies g1 !! k) as [a1 |] eqn:Ha1.
    + rewrite (R6 k a1 a' Ha1 Ha'). rewrite Hasm in Ha1. apply map_lookup_filter_Some in Ha1 as [? _]. congruence.
    + destruct (R7 k) as [? _]; [| congruence]. split; [done |]. rewrite E3.
      destruct (ao_fence _ _ _ (ai_assembly _ Hg k a Ha)) as (f & ? & ? & _). eauto.
  - intros k (Hk & Hf). apply R7. split; [by apply Hnone | by rewrite E3].
  - unfold receive_post in *. by rewrite E1, E3 in R8.
Qed.

(** ** Runs *)

Record GroupWorld := mkGroupWorld {
  gw_asm : GroupAssembler P;
  gw_cli : ClientScopes P;
  (** Every answer that said published, with the members the client held at that moment. *)
  gw_log : list (GroupPublication * list (FullState P));
}.

Inductive group_action :=
| GroupReceive (ch : GroupChunk P) (now : N) (validate : P -> bool)
| GroupExpire (now : N)
| GroupReset (connection : ConnectionEpoch)
| ClientMessage (m : client_msg P)
| ClientReset (connection : ConnectionEpoch).

Definition members_held (c : ClientScopes P) (manifest : list ScopeIdentity) : list (FullState P) :=
  omap (fun s => client_state c (scope_entity s)) manifest.

Definition group_step (w : GroupWorld) (act : group_action) : option GroupWorld :=
  match act with
  | GroupReceive ch now validate =>
      match receive size_full_state size_scope_identity clone (gw_asm w) ch now (gw_cli w) validate with
      | None => None
      | Some (g, c, Ok (Published _)) =>
          Some (mkGroupWorld g c ((ch_publication ch, members_held c (ch_manifest ch)) :: gw_log w))
      | Some (g, c, _) => Some (mkGroupWorld g c (gw_log w))
      end
  | GroupExpire now =>
      match expire (gw_asm w) now with
      | None => None
      | Some (g, _) => Some (mkGroupWorld g (gw_cli w) (gw_log w))
      end
  | GroupReset connection => Some (mkGroupWorld (assembler_reset (gw_asm w) connection).1 (gw_cli w) (gw_log w))
  | ClientMessage m =>
      match client_receive (gw_cli w) m with
      | None => None
      | Some (c, _) => Some (mkGroupWorld (gw_asm w) c (gw_log w))
      end
  | ClientReset connection => Some (mkGroupWorld (gw_asm w) (client_reset (gw_cli w) connection).1 (gw_log w))
  end.

Definition group_run (w : GroupWorld) (acts : list group_action) : option GroupWorld :=
  foldl (fun ow act => match ow with Some w => group_step w act | None => None end) (Some w) acts.

(** A published fence remembers the members of an answer, which the client holds or has passed. *)
Definition fence_history (g : GroupAssembler P) (c : ClientScopes P)
    (log : list (GroupPublication * list (FullState P))) (f : GroupFence) : Prop :=
  forall rs, gf_receipts f = Some rs ->
  exists sts, (gf_publication f, sts) ∈ log /\ fs_scope <$> sts = gf_manifest f /\ rs ≡ₚ receipt <$> sts
    /\ Forall (fun s => end_tick s = gf_end_tick f) sts
    /\ (cs_connection c = ga_connection g -> Forall (passed c) sts).

Record group_inv (w : GroupWorld) : Prop := {
  gi_asm : asm_inv (gw_asm w);
  gi_cli : client_inv (gw_cli w);
  gi_connection : fences (gw_asm w) <> ∅ -> ga_connection (gw_asm w) <= cs_connection (gw_cli w);
  gi_history : forall k f, fences (gw_asm w) !! k = Some f -> fence_history (gw_asm w) (gw_cli w) (gw_log w) f;
}.

Lemma fence_history_mono g g' c c' log log' f :
  fence_history g c log f -> ga_connection g' = ga_connection g ->
  (cs_connection c' = ga_connection g -> cs_connection c = ga_connection g /\ forall st, passed c st -> passed c' st) ->
  log ⊆ log' -> fence_history g' c' log' f.
Proof.
  intros Hh Hg Hc Hlog rs Hrs. destruct (Hh rs Hrs) as (sts & H1 & H2 & H3 & H4 & H5).
  exists sts. split; [by apply Hlog |]. split; [done |]. split; [done |]. split; [done |].
  rewrite Hg. intros Hconn. destruct (Hc Hconn) as [Hconn' Hp].
  apply (List.Forall_impl _ (P := passed c)); auto.
Qed.

Lemma members_held_promised c manifest tick rs sts :
  promised c manifest tick rs sts -> members_held c manifest = sts.
Proof.
  intros (<- & _ & _ & Hst). unfold members_held. induction Hst as [| s l Hs Hl IH]; [done |].
  simpl. rewrite Hs. by f_equal.
Qed.

Lemma group_inv_receive w ch g' c' r :
  group_inv w -> asm_inv g' -> client_inv c' -> ga_connection g' = ga_connection (gw_asm w) ->
  cs_connection c' = cs_connection (gw_cli w) -> (forall st, passed (gw_cli w) st -> passed c' st) ->
  receive_post (gw_asm w) ch (gw_cli w) g' c' r ->
  group_inv (mkGroupWorld g' c' match r with
                                | Ok (Published _) => (ch_publication ch, members_held c' (ch_manifest ch)) :: gw_log w
                                | _ => gw_log w
                                end).
Proof.
  intros [Hg Hc Hle Hh] Hg' Hc' Hgc Hcc Hp Hpost. set (log := match r with Ok (Published _) => _ | _ => _ end).
  assert (gw_log w ⊆ log) as Hlog.
  { subst log. destruct r as [[| rs] |]; [done | | done]. intros x Hx. by right. }
  assert (forall f, fence_history (gw_asm w) (gw_cli w) (gw_log w) f -> fence_history g' c' log f) as Hmono.
  { intros f Hf. eapply fence_history_mono; [exact Hf | done | | done]. by rewrite Hcc. }
  unfold receive_post in Hpost. set (k := gp_group (ch_publication ch)) in *.
  assert ((fences g' = fences (gw_asm w)
           \/ exists f, fences g' = <[k := f]> (fences (gw_asm w)) /\ cs_connection (gw_cli w) = ga_connection (gw_asm w)
                /\ fence_history g' c' log f)) as Hcases.
  { destruct r as [[| rs] |].
    - destruct Hpost as (_ & [? | (f & H1 & H2 & H3)]); [by left | right]. exists f. split_and!; try done.
      intros rs Hrs. congruence.
    - destruct Hpost as [(f & sts & H1 & H2 & H3 & H4 & H5 & H6 & H7 & H8 & _) | (_ & ? & _)]; [right | by left].
      exists f. split; [done |]. split; [congruence |]. intros rs' Hrs'. assert (rs' = rs) as -> by congruence.
      pose proof (members_held_promised _ _ _ _ _ H7) as Hmem. destruct H7 as (P1 & P2 & P3 & _).
      exists sts. rewrite H2, H3, H5. split; [subst log; rewrite Hmem; left |]. split_and!; try done.
      intros _. apply (List.Forall_impl _ (P := held c')); [apply held_passed | done].
    - destruct Hpost as (_ & [? | (f & H1 & H2 & H3)]); [by left | right]. exists f. split_and!; try done.
      intros rs Hrs. congruence. }
  constructor; simpl; [done | done | |]; destruct Hcases as [-> | (f & -> & Hconn & Hf)].
  - rewrite Hgc, Hcc. done.
  - intros _. rewrite Hgc, Hcc. lia.
  - intros k' f' Hf'. by apply Hmono, (Hh k').
  - intros k' f' [[<- <-] | [_ Hf']]%lookup_insert_Some; [done |]. by apply Hmono, (Hh k').
Qed.

Lemma group_step_ok w act :
  clone_fits clone -> group_inv w -> exists w', group_step w act = Some w' /\ group_inv w'
    /\ ga_limits (gw_asm w') = ga_limits (gw_asm w).
Proof.
  intros Hfit Hw. pose proof Hw as [Hg Hc Hle Hh]. destruct act as [ch now validate | now | conn | m | conn]; simpl.
  - destruct (receive_ok (gw_asm w) ch now (gw_cli w) validate Hfit Hg Hc)
      as (g' & c' & r & -> & Hg' & Hc' & R1 & R2 & R3 & R4 & _ & _ & R5).
    pose proof (group_inv_receive w ch g' c' r Hw Hg' Hc' R1 R3 R4 R5) as Hw'.
    destruct r as [[| rs] |]; by eexists.
  - destruct (group_expire_ok (gw_asm w) now Hg) as (g' & r & -> & Hg' & E1 & E2 & E3 & _). eexists. split; [done |].
    split; [| done]. constructor; simpl; try done; rewrite ?E1, ?E3; [done |].
    intros k f Hf. eapply fence_history_mono; [by eapply Hh | done | done | done].
  - unfold assembler_reset. destruct (decide _); simpl; [by destruct w; eexists |]. eexists. split; [done |].
    split; [| done]. constructor; simpl; try done. constructor; simpl; try apply Hg; try done;
      rewrite ?map_sum_empty, ?map_size_empty; try done; lia.
  - destruct (client_receive_ok (gw_cli w) m Hc) as (c' & rc & Hr & Hc' & _ & _ & Hconn & _). rewrite Hr.
    eexists. split; [done |]. split; [| done]. constructor; simpl; try done; [by rewrite Hconn |].
    intros k f Hf. eapply fence_history_mono; [by eapply Hh | done | | done]. rewrite Hconn. intros ?. split; [done |].
    intros st. by apply (client_receive_passed clone _ _ _ _ _ Hc Hr).
  - destruct (client_reset (gw_cli w) conn) as [c' r] eqn:Hr.
    destruct (client_reset_ok _ _ _ _ Hc Hr) as (Hc' & Hcase). simpl. eexists. split; [done |]. split; [| done].
    destruct r as [u |]; [| subst; by constructor]. destruct Hcase as [Hlt _].
    constructor; simpl; try done; [intros Hne; specialize (Hle Hne); lia |].
    intros k f Hf. eapply fence_history_mono; [by eapply Hh | done | | done]. intros Heq.
    assert (fences (gw_asm w) <> ∅) as Hne by (intros E; by rewrite E, lookup_empty in Hf).
    specialize (Hle Hne). lia.
Qed.

Lemma group_run_ok acts w :
  clone_fits clone -> group_inv w -> exists w', group_run w acts = Some w' /\ group_inv w' /\ ga_limits (gw_asm w') = ga_limits (gw_asm w).
Proof.
  intros Hfit. revert w. induction acts as [| act acts IH]; intros w Hw; [by exists w |].
  destruct (group_step_ok w act Hfit Hw) as (w1 & Hs & Hw1 & Hl1). destruct (IH w1 Hw1) as (w2 & Hr & Hw2 & Hl2).
  exists w2. split; [| split; [done | congruence]]. unfold group_run in *. cbn [foldl]. by rewrite Hs.
Qed.

(** ** The proof handed to a predictor *)

(** A client that reports the receipts of a publication holds its states, as delivered or as
    delivered again. *)
Lemma history_held w f sts st t :
  group_inv w -> cs_connection (gw_cli w) = ga_connection (gw_asm w) ->
  NoDup (scope_index <$> gf_manifest f) -> fs_scope <$> sts = gf_manifest f ->
  Forall (passed (gw_cli w)) sts -> st ∈ sts ->
  client_state (gw_cli w) (scope_entity (fs_scope st)) = Some t -> fs_scope t = fs_scope st ->
  receipt t ∈ receipt <$> sts -> same_state t st.
Proof.
  intros Hw Hconn Hnd Hman Hp Hst Ht Hscope (st' & Hrc & Hst')%list_elem_of_fmap.
  assert (st' = st) as ->.
  { apply (NoDup_fmap_inj (scope_index ∘ fs_scope) sts); try done.
    - by rewrite list_fmap_compose, Hman.
    - unfold compose. f_equal. transitivity (fs_scope t); [| done]. by injection Hrc. }
  rewrite Forall_forall in Hp. by apply (passed_receipt clone (gw_cli w)); [apply Hw | apply Hp | | ].
Qed.

Lemma Forall_choice {A B} (R : A -> B -> Prop) l :
  Forall (fun x => exists y, R x y) l -> exists l', Forall2 R l l'.
Proof.
  induction 1 as [| x l (y & Hy) _ (l' & IH)]; [exists []; constructor |].
  exists (y :: l'). by constructor.
Qed.

(** What the client reads in place of the states of a publication. *)
Definition reads (c : ClientScopes P) (st t : FullState P) : Prop :=
  client_state c (scope_entity (fs_scope st)) = Some t /\ same_state t st.

Lemma reads_scopes c sts ts : Forall2 (reads c) sts ts -> fs_scope <$> ts = fs_scope <$> sts.
Proof. induction 1 as [| st t sts ts [_ H%same_state_scope] _ IH]; [done |]. rewrite !fmap_cons. by f_equal. Qed.

Lemma reads_receipts c sts ts : Forall2 (reads c) sts ts -> receipt <$> ts = receipt <$> sts.
Proof. induction 1 as [| st t sts ts [_ H%same_state_receipt] _ IH]; [done |]. rewrite !fmap_cons. by f_equal. Qed.

Lemma reads_ticks c sts ts tick :
  Forall2 (reads c) sts ts -> Forall (fun s => end_tick s = tick) sts -> Forall (fun s => end_tick s = tick) ts.
Proof.
  induction 1 as [| st t sts ts [_ H%same_state_tick] _ IH]; [done |].
  rewrite !Forall_cons. intros [? ?]. split; [congruence | auto].
Qed.

Lemma reads_states c sts ts :
  Forall2 (reads c) sts ts -> mapM (fun s => client_state c (scope_entity s)) (fs_scope <$> sts) = Some ts.
Proof. intros H. apply mapM_Some, Forall2_fmap_l. by eapply Forall2_impl; [exact H | intros ? ? [? _]]. Qed.

Lemma reads_same c sts ts : Forall2 (reads c) sts ts -> Forall2 same_state ts sts.
Proof. intros H. apply Forall2_flip. by eapply Forall2_impl; [exact H | intros ? ? [_ ?]]. Qed.

Lemma published_group_sound w k pg :
  group_inv w -> published_group (gw_asm w) k (gw_cli w) = Some pg ->
  exists delivered sts, pg_states pg = Some sts /\ (pg_publication pg, delivered) ∈ gw_log w
    /\ Forall2 same_state sts delivered
    /\ fs_scope <$> sts = pg_manifest pg /\ Forall (fun s => end_tick s = pg_end_tick pg) sts.
Proof.
  intros Hw H. unfold published_group in H.
  destruct (decide _) as [| Hconn] in H; [done |]. apply dec_stable in Hconn.
  destruct (fences (gw_asm w) !! k) as [f |] eqn:Hf; [| done].
  destruct (gf_receipts f) as [rs |] eqn:Hrs; [| done].
  destruct (gf_manifest f) as [| first rest] eqn:Hm; [done |]. rewrite <- Hm in H.
  destruct (decide _) in H; [done |]. destruct (client_state _ (scope_entity first)) as [lead |]; [| done].
  destruct (forallb _ _) eqn:Hall in H; [| done]. injection H as <-. simpl. rewrite forallb_forall in Hall.
  destruct (gi_history _ Hw k f Hf rs Hrs) as (sts & Hlog & Hman & Hperm & _ & Hp). specialize (Hp Hconn).
  pose proof (mo_indices _ _ _ (fo_manifest _ _ _ (ai_fence _ (gi_asm _ Hw) k f Hf))) as Hnd.
  assert (Forall (fun s => exists t, reads (gw_cli w) s t /\ end_tick t = end_tick lead) sts) as Hst.
  { apply Forall_forall. intros st Hst.
    assert (fs_scope st ∈ gf_manifest f) as Hin by (rewrite <- Hman; by apply list_elem_of_fmap_2).
    specialize (Hall _ (proj1 (list_elem_of_In _ _) Hin)). cbv beta in Hall.
    destruct (client_state _ _) as [t |] eqn:Ht; [| done].
    rewrite !andb_true_iff, !bool_decide_eq_true, existsb_exists in Hall.
    destruct Hall as ((Hsc & Htick) & (r & Hr & ->%bool_decide_eq_true)).
    apply list_elem_of_In in Hr. rewrite Hperm in Hr. exists t. split; [| done]. split; [done |].
    exact (history_held w f sts st t Hw Hconn Hnd Hman Hp Hst Ht Hsc Hr). }
  apply Forall_choice in Hst as (ts & Hts). exists sts, ts.
  assert (Forall2 (reads (gw_cli w)) sts ts) as Hreads by (by eapply Forall2_impl; [exact Hts | intros ? ? [? _]]).
  split_and!; try done.
  - unfold pg_states. simpl. rewrite <- Hman. by apply reads_states.
  - by eapply reads_same.
  - by rewrite (reads_scopes _ _ _ Hreads).
  - by eapply Forall2_Forall_r; [exact Hts | apply Forall_true; intros ? ? [_ ?]].
Qed.

Lemma published_group_complete (g : GroupAssembler P) k f c rs tick sts :
  cs_connection c = ga_connection g -> fences g !! k = Some f -> gf_receipts f = Some rs -> gf_manifest f <> [] ->
  promised c (gf_manifest f) tick rs sts ->
  published_group g k c = Some (mkPublishedGroup (gf_publication f) tick (gf_manifest f) c).
Proof.
  intros Hconn Hf Hrs Hne (Hman & Hperm & Htick & Hheld). unfold published_group.
  rewrite decide_False by tauto. rewrite Hf, Hrs.
  assert (len rs = len (gf_manifest f)) as Hlen.
  { rewrite Hperm, <- Hman. unfold len. by rewrite !length_fmap. }
  destruct (gf_manifest f) as [| first rest] eqn:Hm; [done |]. rewrite <- Hm in *.
  rewrite decide_False by tauto. rewrite Forall_forall in Htick, Hheld.
  assert (forall s, s ∈ gf_manifest f -> exists t, client_state c (scope_entity s) = Some t /\ fs_scope t = s
            /\ end_tick t = tick /\ receipt t ∈ rs) as Hall.
  { intros s Hs. rewrite <- Hman in Hs. apply list_elem_of_fmap in Hs as (t & -> & Ht). exists t.
    split_and!; auto. rewrite Hperm. by apply list_elem_of_fmap_2. }
  destruct (Hall first) as (lead & Hlead & _ & Hlt & _); [rewrite Hm; left |]. rewrite Hlead.
  match goal with |- context [forallb ?p ?l] => replace (forallb p l) with true; [by rewrite Hlt |] end.
  symmetry. apply forallb_forall. intros s Hs%list_elem_of_In. destruct (Hall s Hs) as (t & -> & <- & Ht & Hin).
  rewrite Ht, Hlt, !bool_decide_eq_true_2 by done. simpl. apply existsb_exists. exists (receipt t).
  split; [by apply list_elem_of_In | by apply bool_decide_eq_true_2].
Qed.

(** The answer of a publication is repeated only while every member is retained. *)
Lemma repeat_promised w f rs :
  group_inv w -> cs_connection (gw_cli w) = ga_connection (gw_asm w) ->
  NoDup (scope_index <$> gf_manifest f) -> fence_history (gw_asm w) (gw_cli w) (gw_log w) f ->
  gf_receipts f = Some rs -> forallb (still_held (gw_cli w)) rs = true ->
  exists sts, promised (gw_cli w) (gf_manifest f) (gf_end_tick f) rs sts.
Proof.
  intros Hw Hconn Hnd Hh Hrs Hall. destruct (Hh rs Hrs) as (sts & _ & Hman & Hperm & Htick & Hp).
  specialize (Hp Hconn). rewrite forallb_forall in Hall.
  assert (Forall (fun st => exists t, reads (gw_cli w) st t) sts) as (ts & Hts)%Forall_choice.
  { apply Forall_forall. intros st Hst.
    assert (receipt st ∈ rs) as Hin by (rewrite Hperm; by apply list_elem_of_fmap_2).
    specialize (Hall _ (proj1 (list_elem_of_In _ _) Hin)). unfold still_held in Hall. simpl in Hall.
    destruct (client_state _ _) as [t |] eqn:Ht; [| done]. apply bool_decide_eq_true in Hall.
    exists t. split; [done |]. apply (history_held w f sts st t); try done; [by injection Hall |].
    rewrite Hall. by apply list_elem_of_fmap_2. }
  pose proof (reads_scopes _ _ _ Hts) as Hsc. exists ts. split_and!.
  - congruence.
  - by rewrite (reads_receipts _ _ _ Hts).
  - by eapply reads_ticks.
  - clear -Hts. induction Hts as [| st t sts ts [H1 H2%same_state_scope] _ IH]; constructor; [by rewrite H2 | done].
Qed.

(** What an answer to one fragment means for the client. *)
Lemma receive_answer w ch now validate :
  clone_fits clone -> group_inv w ->
  exists g c r, receive size_full_state size_scope_identity clone (gw_asm w) ch now (gw_cli w) validate = Some (g, c, r)
    /\ match r with
       | Ok (Published rs) =>
           published_group g (gp_group (ch_publication ch)) c
           = Some (mkPublishedGroup (ch_publication ch) (ch_end_tick ch) (ch_manifest ch) c)
           /\ (exists sts, promised c (ch_manifest ch) (ch_end_tick ch) rs sts)
           /\ others_kept (ch_manifest ch) (gw_cli w) c
       | _ => c = gw_cli w
       end.
Proof.
  intros Hfit Hw. destruct (receive_ok (gw_asm w) ch now (gw_cli w) validate Hfit (gi_asm _ Hw) (gi_cli _ Hw))
    as (g & c & r & -> & Hg & Hc & R1 & _ & R3 & _ & _ & _ & R5).
  exists g, c, r. split; [done |]. unfold receive_post in R5. set (k := gp_group (ch_publication ch)) in *.
  destruct r as [[| rs] | e]; [by destruct R5 | | by destruct R5].
  destruct R5 as [(f & sts & H1 & <- & H3 & H4 & _ & _ & H7 & H8 & H9) |
                  (-> & H1 & f & H2 & <- & H4 & H5 & H6 & H7 & H8)].
  - assert (fences g !! k = Some f) as Hf by by rewrite H1, lookup_insert_eq.
    pose proof (fo_manifest _ _ _ (ai_fence _ Hg k f Hf)) as Hm. rewrite <- H3 in *.
    split; [| by eauto]. apply (published_group_complete _ _ _ _ rs _ sts); try done; [congruence | apply Hm].
  - assert (fences g !! k = Some f) as Hf by by rewrite H1.
    pose proof (fo_manifest _ _ _ (ai_fence _ Hg k f Hf)) as Hm. rewrite <- H7, <- H8 in *.
    destruct (repeat_promised w f rs) as (sts & Hsts); try done; [apply Hm | by apply (gi_history _ Hw k) |].
    split; [| by split; [eauto | by left]].
    apply (published_group_complete _ _ _ _ rs _ sts); try done; [congruence | apply Hm].
Qed.

Lemma group_start connection connection' l cl (g : GroupAssembler P) (c : ClientScopes P) :
  GroupAssembler_new connection l = Ok g -> ClientScopes_new connection' cl = Ok c ->
  group_inv (mkGroupWorld g c []) /\ ga_limits g = l.
Proof.
  intros (Hg & _ & Hl & Hf & _)%GroupAssembler_new_ok Hnew. split; [| done]. constructor; simpl; [done | | by rewrite Hf |].
  - unfold ClientScopes_new in Hnew. destruct (decide _) in Hnew; [done |].
    destruct (ScopeLimits_validate cl) as [l1 |]; [| done]. simplify_eq.
    constructor; simpl; rewrite ?map_sum_empty, ?map_size_empty; try done; lia.
  - intros k f Hk. by rewrite Hf, lookup_empty in Hk.
Qed.

(** C8 A group is seen whole or not at all. However fragments, expiries, resets, and the
    client's own states, exits and destructions interleave, nothing panics; the proof that
    [published_group] hands out reads, without its [expect] failing, the states that a published
    answer delivered together: every member of the manifest, all of one tick, never a mixture
    of two publications; each is the state delivered, but for cloning and for a redelivery in
    its place that the derived comparison called equal, so with the same receipt, tick and every
    view of the payload which cloning and comparing respect; and a fragment changes the client
    only by publishing its whole group, after which the proof can be had and every other entity
    is as it was, or a clone of it. The payload's comparison is arbitrary; a clone retains no
    more than its original, without which the accounts of the client could run below zero. *)
Theorem group_publication_atomic connection connection' l cl g c acts :
  clone_fits clone -> GroupAssembler_new connection l = Ok g -> ClientScopes_new connection' cl = Ok c ->
  exists w, group_run (mkGroupWorld g c []) acts = Some w
  /\ (forall k pg, published_group (gw_asm w) k (gw_cli w) = Some pg ->
      exists delivered sts, pg_states pg = Some sts /\ (pg_publication pg, delivered) ∈ gw_log w
        /\ Forall2 same_state sts delivered
        /\ fs_scope <$> sts = pg_manifest pg /\ Forall (fun s => end_tick s = pg_end_tick pg) sts)
  /\ forall ch now validate, exists g' c' r,
      receive size_full_state size_scope_identity clone (gw_asm w) ch now (gw_cli w) validate = Some (g', c', r)
      /\ match r with
         | Ok (Published rs) =>
             published_group g' (gp_group (ch_publication ch)) c'
             = Some (mkPublishedGroup (ch_publication ch) (ch_end_tick ch) (ch_manifest ch) c')
             /\ (exists sts, promised c' (ch_manifest ch) (ch_end_tick ch) rs sts)
             /\ others_kept (ch_manifest ch) (gw_cli w) c'
         | _ => c' = gw_cli w
         end.
Proof.
  intros Hfit Hg Hc. destruct (group_start _ _ _ _ _ _ Hg Hc) as [Hw _].
  destruct (group_run_ok acts _ Hfit Hw) as (w & Hrun & Hw' & _). exists w. split; [done |]. split.
  - intros k pg. by apply published_group_sound.
  - intros ch now validate. by apply receive_answer.
Qed.

(** A step neither restarts the deadline of an assembly nor takes up a dropped group again. *)
Lemma group_step_deadlines w act w' :
  clone_fits clone -> group_inv w -> group_step w act = Some w' ->
  starts_kept (gw_asm w) (gw_asm w')
  /\ forall k, dropped (gw_asm w) k ->
       dropped (gw_asm w') k \/ ga_connection (gw_asm w) < ga_connection (gw_asm w').
Proof.
  intros Hfit Hw H. pose proof Hw as [Hg Hc _ _].
  assert (starts_kept (gw_asm w) (gw_asm w)) as Hrefl by (intros k a a'; congruence).
  destruct act as [ch now validate | now | conn | m | conn]; simpl in H.
  - destruct (receive_ok (gw_asm w) ch now (gw_cli w) validate Hfit Hg Hc)
      as (g' & c' & r & Hr & _ & _ & _ & _ & _ & _ & R1 & R2 & _). rewrite Hr in H.
    assert (gw_asm w' = g') as -> by by destruct r as [[| rs] |]; simplify_eq. auto.
  - destruct (group_expire_ok (gw_asm w) now Hg) as (g' & r & He & _ & _ & _ & E3 & E4). rewrite He in H. simplify_eq/=.
    destruct r as [n |]; [| destruct E4 as (_ & -> & _); auto]. destruct E4 as (_ & _ & Hasm & _). split.
    + intros k a a' Ha Ha'. rewrite Hasm in Ha'. apply map_lookup_filter_Some in Ha' as [? _]. congruence.
    + intros k (Hk & Hf). left. split; [| by rewrite E3]. rewrite Hasm. apply map_lookup_filter_None. by left.
  - unfold assembler_reset in H. destruct (decide _) in H; simplify_eq/=; [auto |]. split; [by intros k a a' _ ? |].
    intros k _. right. simpl. lia.
  - destruct (client_receive _ _) as [[c' rc] |]; simplify_eq/=. auto.
  - simplify_eq/=. auto.
Qed.

(** Staging is bounded and cannot be kept alive. In every run the bytes charged are the sum of
    the incomplete groups and within the budget, as are each group's bytes and fragments, the
    number of incomplete groups and of known ones; no incomplete group is older than the
    maximum age; and no step postpones a group's deadline, though a newer snapshot replaces its
    fragments, or takes up a group again that expired or failed, before the connection is reset. *)
Theorem group_staging_bounded connection connection' l cl g c acts :
  clone_fits clone -> GroupAssembler_new connection l = Ok g -> ClientScopes_new connection' cl = Ok c ->
  exists w, group_run (mkGroupWorld g c []) acts = Some w
  /\ staged_bytes (gw_asm w) = map_sum as_bytes (assemblies (gw_asm w))
  /\ staged_bytes (gw_asm w) <= gl_staging_bytes l
  /\ incomplete (gw_asm w) <= gl_incomplete l
  /\ N.of_nat (size (fences (gw_asm w))) <= gl_known_groups l
  /\ (forall k a, assemblies (gw_asm w) !! k = Some a ->
        as_bytes a <= gl_group_bytes l /\ len (as_chunks a) <= gl_chunks l /\ len (as_manifest a) <= gl_members l
        /\ ga_now_ms (gw_asm w) < as_started_ms a + gl_max_age_ms l)
  /\ forall act, exists w', group_step w act = Some w' /\ starts_kept (gw_asm w) (gw_asm w')
       /\ forall k, dropped (gw_asm w) k ->
            dropped (gw_asm w') k \/ ga_connection (gw_asm w) < ga_connection (gw_asm w').
Proof.
  intros Hfit Hg Hc. destruct (group_start _ _ _ _ _ _ Hg Hc) as [Hw Hl0].
  destruct (group_run_ok acts _ Hfit Hw) as (w & Hrun & Hw' & Hl). simpl in Hl. rewrite Hl0 in Hl.
  pose proof (gi_asm _ Hw') as [_ B1 B2 B3 B4 B5 B6]. rewrite Hl in *. exists w.
  split; [done |]. split; [done |]. split; [done |]. split; [done |]. split; [done |]. split.
  - intros k a Ha. destruct (B6 k a Ha) as [(f & Hf & _ & Hm & _) A2 A3 A4 _ _]. rewrite Hl in *.
    pose proof (mo_size _ _ _ (fo_manifest _ _ _ (B5 k f Hf))) as Hs. rewrite Hm, Hl in Hs. split_and!; try done; lia.
  - intros act. destruct (group_step_ok w act Hfit Hw') as (w' & Hs & _). exists w'. split; [done |].
    by apply (group_step_deadlines w act).
Qed.
End Assembler.
