(* ===== verification/GroupsDelivery.v ===== *)
(** * Fragments that arrive do publish their group

    A transfer is a group split in fragments. Delivered in any order, before the deadline and
    within the budgets, every fragment but the last is staged and the last publishes. *)

From Stdlib Require Import Strings.Byte.
From S2P Require Import Prelude Types InterestModel Payload Replication Groups GroupsProps.
Local Open Scope N_scope.
Local Open Scope engine_scope.

Section Delivery.
Context {P : Type} `{!Payload P}.
Variables size_full_state size_scope_identity : N.
Variable clone : P -> P.

(** A group's publication split in fragments, each with the capacity of its vector. *)
Record Transfer := mkTransfer {
  tr_publication : GroupPublication;
  tr_end_tick : ServerTick;
  tr_manifest : list ScopeIdentity;
  tr_manifest_capacity : N;
  tr_fragments : list (list (FullState P) * N);
}.

Definition fragment (t : Transfer) (i : nat) : GroupChunk P :=
  let fr := default ([], 0) (tr_fragments t !! i) in
  mkGroupChunk (tr_publication t) (tr_end_tick t) (tr_manifest t) (tr_manifest_capacity t)
    (N.of_nat i) (len (tr_fragments t)) fr.1 fr.2.

Definition tr_group (t : Transfer) : GroupId := gp_group (tr_publication t).
Definition tr_states (t : Transfer) : list (FullState P) := concat (tr_fragments t).*1.

Definition payload_sum (l : list (FullState P)) : N := sum_over (fun s => retained_bytes (fs_payload s)) l.
Definition cost (t : Transfer) (i : nat) : N :=
  ch_members_capacity (fragment t i) * size_full_state + payload_sum (ch_members (fragment t i)).
(** What is charged once the fragments [p] are staged. *)
Definition charge (t : Transfer) (p : list nat) : N :=
  (if decide (p = []) then 0 else tr_manifest_capacity t * size_scope_identity) + sum_over (cost t) p.
Definition total (t : Transfer) : N := charge t (seq 0 (length (tr_fragments t))).

Record transfer_ok (connection : ConnectionEpoch) (l : GroupLimits) (validate : P -> bool) (t : Transfer) : Prop := {
  to_connection : gp_connection (tr_publication t) = connection;
  to_identity : gp_revision (tr_publication t) <> 0 /\ gp_snapshot (tr_publication t) <> 0;
  to_manifest : check_manifest connection ∅ None (tr_manifest t) = Ok tt;
  to_size : len (tr_manifest t) <= gl_members l;
  to_some : tr_fragments t <> [];
  to_count : len (tr_fragments t) <= gl_chunks l;
  to_nonempty : Forall (fun fr => fr.1 <> []) (tr_fragments t);
  to_scopes : fs_scope <$> tr_states t ≡ₚ tr_manifest t;
  to_members : Forall (fun s => validate_identity s connection = Ok tt /\ end_tick s = tr_end_tick t
                                /\ validate (fs_payload s) = true) (tr_states t);
  to_group : total t <= gl_group_bytes l;
}.

(** Delivering the fragments [order] at their times, with every answer. *)
Fixpoint deliver (g : GroupAssembler P) (c : ClientScopes P) (validate : P -> bool) (t : Transfer)
    (order : list (nat * N)) : option (GroupAssembler P * ClientScopes P * list (result ReplicationError GroupProgress)) :=
  match order with
  | [] => Some (g, c, [])
  | (i, now) :: order =>
      match receive size_full_state size_scope_identity clone g (fragment t i) now c validate with
      | None => None
      | Some (g, c, r) =>
          match deliver g c validate t order with
          | Some (g, c, rs) => Some (g, c, r :: rs)
          | None => None
          end
      end
  end.

(** ** Sums and fragments *)

Lemma charge_le t p : NoDup p -> p ⊆ seq 0 (length (tr_fragments t)) -> charge t p <= total t.
Proof.
  intros Hnd Hp. unfold total, charge.
  pose proof (sum_over_submseteq (cost t) _ _ (NoDup_submseteq _ _ Hnd Hp)).
  destruct (decide (p = [])) as [-> | Hne]; [destruct (decide _); lia |].
  destruct (decide (seq 0 (length (tr_fragments t)) = [])) as [Hs |]; [| lia].
  rewrite Hs in Hp. destruct p as [| x p]; [done |]. exfalso. apply (not_elem_of_nil x), Hp. left.
Qed.

Lemma fragment_lookup t i : (i < length (tr_fragments t))%nat ->
  tr_fragments t !! i = Some (ch_members (fragment t i), ch_members_capacity (fragment t i)).
Proof.
  intros Hi. unfold fragment. simpl. destruct (lookup_lt_is_Some_2 _ _ Hi) as [[m cap] Hl]. by rewrite Hl.
Qed.

Lemma fragment_states t i s : (i < length (tr_fragments t))%nat -> s ∈ ch_members (fragment t i) -> s ∈ tr_states t.
Proof.
  intros Hi Hs. unfold tr_states. apply list_elem_of_In, in_concat. exists (ch_members (fragment t i)).
  split; [| by apply list_elem_of_In]. apply list_elem_of_In, list_elem_of_fmap. eexists. split; [| by eapply list_elem_of_lookup_2, fragment_lookup].
  done.
Qed.

(** The members of two fragments are members at two places of the transfer. *)
Lemma states_split t i : (i < length (tr_fragments t))%nat ->
  tr_states t ≡ₚ ch_members (fragment t i) ++ concat (delete i (tr_fragments t)).*1.
Proof.
  intros Hi. unfold tr_states. pose proof (delete_Permutation _ _ _ (fragment_lookup t i Hi)) as Hp.
  rewrite Hp at 1. done.
Qed.

(** The fragments staged once those of [p] have arrived. *)
Definition chunks_at (t : Transfer) (p : list nat) : list (option (list (FullState P))) :=
  imap (fun i fr => if decide (i ∈ p) then Some fr.1 else None) (tr_fragments t).

Lemma chunks_at_lookup t p i : (i < length (tr_fragments t))%nat ->
  chunks_at t p !! i = Some (if decide (i ∈ p) then Some (ch_members (fragment t i)) else None).
Proof. intros Hi. unfold chunks_at. by rewrite list_lookup_imap, (fragment_lookup t i Hi). Qed.

Lemma length_chunks_at t p : length (chunks_at t p) = length (tr_fragments t).
Proof. apply length_imap. Qed.

Lemma chunks_at_insert t p i : (i < length (tr_fragments t))%nat ->
  <[i := Some (ch_members (fragment t i))]> (chunks_at t p) = chunks_at t (i :: p).
Proof.
  intros Hi. apply list_eq. intros j. destruct (decide (i = j)) as [<- | Hne].
  - rewrite list_lookup_insert_eq by (by rewrite length_chunks_at). rewrite chunks_at_lookup by done.
    by rewrite decide_True by left.
  - rewrite list_lookup_insert_ne by done.
    destruct (decide (j < length (tr_fragments t))%nat) as [Hj | Hj].
    + rewrite !chunks_at_lookup by done. destruct (decide (j ∈ p)) as [Hin | Hin].
      * by rewrite decide_True by by right.
      * rewrite decide_False; [done |]. rewrite elem_of_cons. intros [-> | ?]; done.
    + rewrite !lookup_ge_None_2; [done | |]; rewrite length_chunks_at; lia.
Qed.

Lemma chunks_at_nil t : chunks_at t [] = replicate (length (tr_fragments t)) None.
Proof.
  apply list_eq. intros j. destruct (decide (j < length (tr_fragments t))%nat) as [Hj | Hj].
  - rewrite chunks_at_lookup, lookup_replicate_2 by done. by rewrite decide_False by apply not_elem_of_nil.
  - rewrite !lookup_ge_None_2; [done | rewrite length_replicate; lia | rewrite length_chunks_at; lia].
Qed.

Lemma chunks_at_staged t p s : s ∈ concat (omap id (chunks_at t p)) ->
  exists j, j ∈ p /\ (j < length (tr_fragments t))%nat /\ s ∈ ch_members (fragment t j).
Proof.
  intros (m & Hm & Hs)%list_elem_of_In%in_concat. apply list_elem_of_In in Hm, Hs.
  apply list_elem_of_omap in Hm as (o & [j Hj]%list_elem_of_lookup & Ho). simpl in Ho. subst o.
  assert (j < length (tr_fragments t))%nat as Hlt by (rewrite <- (length_chunks_at t p); by eapply lookup_lt_Some).
  rewrite chunks_at_lookup in Hj by done. destruct (decide (j ∈ p)); simplify_eq. eauto.
Qed.

(** Distinct fragments name distinct members. *)
Lemma fragments_disjoint t i j s s' :
  NoDup (fs_scope <$> tr_states t) -> (i < length (tr_fragments t))%nat -> (j < length (tr_fragments t))%nat ->
  i <> j -> s ∈ ch_members (fragment t i) -> s' ∈ ch_members (fragment t j) -> fs_scope s <> fs_scope s'.
Proof.
  intros Hnd Hi Hj Hne Hs Hs' Heq. rewrite (states_split t i Hi), fmap_app in Hnd.
  apply NoDup_app in Hnd as (_ & Hdis & _). apply (Hdis (fs_scope s)); [by apply list_elem_of_fmap_2 |].
  rewrite Heq. apply list_elem_of_fmap_2, list_elem_of_In, in_concat. exists (ch_members (fragment t j)).
  split; [| by apply list_elem_of_In]. apply list_elem_of_In, list_elem_of_fmap.
  exists (ch_members (fragment t j), ch_members_capacity (fragment t j)). split; [done |].
  apply list_elem_of_lookup. pose proof (fragment_lookup t j Hj) as Hl. destruct (decide (j < i)%nat).
  - exists j. rewrite list_lookup_delete_lt by lia. exact Hl.
  - exists (j - 1)%nat. rewrite list_lookup_delete_ge by lia. replace (S (j - 1)) with j by lia. exact Hl.
Qed.

Lemma chunks_at_missing t p :
  existsb is_none (chunks_at t p) = false <-> forall i, (i < length (tr_fragments t))%nat -> i ∈ p.
Proof.
  rewrite <- not_true_iff_false, existsb_exists. split.
  - intros Hno i Hi. destruct (decide (i ∈ p)) as [| Hn]; [done |]. exfalso. apply Hno. exists None. split; [| done].
    apply list_elem_of_In. apply (list_elem_of_lookup_2 _ i). rewrite chunks_at_lookup by done. by rewrite decide_False.
  - intros Hall ([m |] & Hx & Hn); [done |]. apply list_elem_of_In, list_elem_of_lookup in Hx as [j Hj].
    assert (j < length (tr_fragments t))%nat as Hlt by (rewrite <- (length_chunks_at t p); by eapply lookup_lt_Some).
    rewrite chunks_at_lookup in Hj by done. rewrite decide_True in Hj by auto. done.
Qed.

Lemma chunks_at_all t p : (forall i, (i < length (tr_fragments t))%nat -> i ∈ p) ->
  concat (omap id (chunks_at t p)) = tr_states t.
Proof.
  intros Hall. assert (chunks_at t p = Some <$> (tr_fragments t).*1) as ->.
  { apply list_eq. intros j. destruct (decide (j < length (tr_fragments t))%nat) as [Hj | Hj].
    - rewrite chunks_at_lookup, decide_True by auto. by rewrite !list_lookup_fmap, (fragment_lookup t j Hj).
    - rewrite !lookup_ge_None_2; [done | rewrite !length_fmap; lia | rewrite length_chunks_at; lia]. }
  unfold tr_states. f_equal. induction (tr_fragments t).*1 as [| x l IH]; [done |]. simpl. by f_equal.
Qed.

(** The members of a fragment pass their tests. *)
Lemma check_members_pass connection (ch : GroupChunk P) validate ids bytes l :
  Forall (fun s => validate_identity s connection = Ok tt /\ end_tick s = ch_end_tick ch
                   /\ validate (fs_payload s) = true /\ fs_scope s ∈ ch_manifest ch) l ->
  NoDup ((fs_scope <$> l) ++ ids) -> bytes + payload_sum l <= usize_max ->
  exists ids', check_members connection ch validate ids bytes l = Ok (ids', bytes + payload_sum l).
Proof.
  intros Hl. revert ids bytes. induction Hl as [| s l (H1 & H2 & H3 & H4) Hl IH]; intros ids bytes Hnd Hb; simpl.
  { exists ids. by rewrite N.add_0_r. }
  rewrite H1, H3. simpl. rewrite fmap_cons in Hnd. simpl in Hnd. apply NoDup_cons in Hnd as [Hs Hnd].
  rewrite decide_False; [| rewrite elem_of_app in Hs; tauto].
  unfold payload_sum, sum_over in *. simpl in *.
  destruct (checked_add _ _ _) as [b |] eqn:Hadd; [| apply checked_add_None in Hadd; lia].
  apply checked_add_Some in Hadd as [-> _]. simpl.
  destruct (IH (fs_scope s :: ids) (bytes + retained_bytes (fs_payload s))) as (ids' & ->); [| lia |].
  - rewrite <- Permutation_middle. by constructor.
  - exists ids'. do 2 f_equal. lia.
Qed.

Lemma charges_pass (g : GroupAssembler P) ch existing member_bytes :
  let more := match existing with None => ch_manifest_capacity ch * size_scope_identity | Some _ => 0 end in
  from_option as_bytes 0 existing + (member_bytes + more) <= gl_group_bytes (ga_limits g) ->
  ga_bytes g + (member_bytes + more) <= gl_staging_bytes (ga_limits g) ->
  from_option as_bytes 0 existing + (member_bytes + more) <= usize_max ->
  gl_staging_bytes (ga_limits g) <= usize_max ->
  charges size_scope_identity g ch false existing member_bytes
  = Ok (from_option as_bytes 0 existing + (member_bytes + more), ga_bytes g + (member_bytes + more)).
Proof.
  intros more H1 H2 H3 H4. unfold charges.
  assert (match existing with
          | None => ok_or (checked_mul usize_max (ch_manifest_capacity ch) size_scope_identity) Capacity
          | Some _ => Ok 0
          end = Ok more :> result ReplicationError N) as ->.
  { subst more. destruct existing; [done |]. unfold checked_mul. rewrite decide_True by (simpl in *; lia). done. }
  unfold checked_add at 1. rewrite decide_True by lia. simpl.
  unfold checked_add at 1. rewrite decide_True by lia. simpl.
  unfold checked_sub. rewrite decide_True by lia. rewrite N.sub_0_r. unfold checked_add. rewrite decide_True by lia.
  simpl. by rewrite decide_False by lia.
Qed.

(** ** Collecting the fragments *)

Variables (connection : ConnectionEpoch) (l : GroupLimits) (validate : P -> bool) (t : Transfer).
Hypothesis fine : transfer_ok connection l validate t.

Lemma transfer_scopes : NoDup (fs_scope <$> tr_states t).
Proof.
  rewrite (to_scopes _ _ _ _ fine). pose proof (check_manifest_ok _ _ _ _ (to_manifest _ _ _ _ fine)) as [Hnd _].
  by apply NoDup_fmap_1 in Hnd.
Qed.

Lemma transfer_len : len (tr_states t) = len (tr_manifest t).
Proof. rewrite <- (to_scopes _ _ _ _ fine). unfold len. by rewrite length_fmap. Qed.

Lemma transfer_count : len (tr_fragments t) <= len (tr_manifest t).
Proof.
  rewrite <- transfer_len. unfold tr_states. generalize (to_nonempty _ _ _ _ fine). unfold len.
  induction (tr_fragments t) as [| [m cap] frs IH]; intros Hne; [simpl; lia |].
  apply Forall_cons in Hne as [Hm Hne]. specialize (IH Hne). rewrite fmap_cons. cbn [concat fst]. rewrite length_app.
  destruct m; [done |]. cbn [length] in *. lia.
Qed.

(** A fragment of the transfer passes every test before the fence. *)
Lemma fragment_passes (g : GroupAssembler P) i (c : ClientScopes P) :
  (i < length (tr_fragments t))%nat -> ga_connection g = connection -> ga_limits g = l ->
  cs_connection c = connection -> total t <= usize_max ->
  check_shape g (fragment t i) (cs_connection c) = Ok tt
  /\ check_manifest (ga_connection g) ∅ None (ch_manifest (fragment t i)) = Ok tt
  /\ exists start ids, ok_or (checked_mul usize_max (ch_members_capacity (fragment t i)) size_full_state) Capacity
                        = Ok start :> result ReplicationError N
       /\ check_members (ga_connection g) (fragment t i) validate [] start (ch_members (fragment t i))
          = Ok (ids, cost t i)
       /\ fragment_ok g (fragment t i) ids.
Proof.
  intros Hi Hconn Hl Hc Htot. pose proof transfer_count as Hcount. pose proof transfer_len as Hlen.
  pose proof (to_manifest _ _ _ _ fine) as Hman. destruct (to_identity _ _ _ _ fine) as [Hrev Hsnap].
  assert (ch_members (fragment t i) <> []) as Hne.
  { pose proof (to_nonempty _ _ _ _ fine) as Hne. rewrite Forall_forall in Hne.
    apply (Hne (ch_members (fragment t i), ch_members_capacity (fragment t i))).
    apply (list_elem_of_lookup_2 _ i). by apply fragment_lookup. }
  assert (check_shape g (fragment t i) (cs_connection c) = Ok tt) as Hshape.
  { unfold check_shape. rewrite decide_False by (simpl; rewrite (to_connection _ _ _ _ fine); intros [? | ?]; congruence).
    rewrite decide_False; [done |].
    assert (len (ch_members (fragment t i)) <= len (tr_manifest t)).
    { rewrite <- Hlen, (states_split t i Hi), len_app. lia. }
    pose proof (to_size _ _ _ _ fine). pose proof (to_count _ _ _ _ fine). rewrite Hl.
    intros Hbad. repeat destruct Hbad as [Hbad | Hbad]; revert Hbad; simpl in *; try done; try lia; unfold len in *; try lia.
    intros Hm. rewrite Hm in Hcount. simpl in Hcount. lia. }
  rewrite Hconn. split; [done |]. split; [done |].
  assert (cost t i <= total t) as Hcost.
  { unfold total, charge. pose proof (sum_over_In (cost t) (seq 0 (length (tr_fragments t))) i) as Hin.
    rewrite elem_of_seq in Hin. destruct (decide _); lia. }
  assert (checked_mul usize_max (ch_members_capacity (fragment t i)) size_full_state
          = Some (ch_members_capacity (fragment t i) * size_full_state)) as Hmul.
  { unfold checked_mul. rewrite decide_True; [done |]. unfold cost in Hcost. lia. }
  destruct (check_members_pass connection (fragment t i) validate [] (ch_members_capacity (fragment t i) * size_full_state)
              (ch_members (fragment t i))) as (ids & Hids).
  - apply Forall_forall. intros s Hs. pose proof (fragment_states t i s Hi Hs) as Hst.
    pose proof (to_members _ _ _ _ fine) as Hm. rewrite Forall_forall in Hm. destruct (Hm s Hst) as (? & ? & ?).
    split_and!; try done. simpl. rewrite <- (to_scopes _ _ _ _ fine). by apply list_elem_of_fmap_2.
  - rewrite app_nil_r. pose proof transfer_scopes as Hnd. rewrite (states_split t i Hi), fmap_app in Hnd.
    by apply NoDup_app in Hnd as (? & _).
  - unfold cost in Hcost. lia.
  - eexists _, ids. rewrite Hmul. split; [done |]. split; [exact Hids |].
    rewrite <- Hconn in Hids, Hman. by destruct (fragment_checked _ _ _ _ _ _ _ Hshape Hman Hids).
Qed.

Variables (held_bytes start : N).
Hypothesis room : held_bytes + total t <= gl_staging_bytes l.
Hypothesis width : gl_staging_bytes l <= usize_max.

Definition staged_with (p : list nat) : Assembly P :=
  mkAssembly (tr_end_tick t) (tr_manifest t) (chunks_at t p) start (charge t p).
Definition open_fence : GroupFence := mkGroupFence (tr_publication t) (tr_end_tick t) (tr_manifest t) None.

(** The fragments [p] have arrived, the first of them at [start]. *)
Record collecting (g : GroupAssembler P) (p : list nat) : Prop := {
  cg_inv : asm_inv g;
  cg_connection : ga_connection g = connection;
  cg_limits : ga_limits g = l;
  cg_bytes : ga_bytes g <= held_bytes + charge t p;
  cg_arrived : NoDup p /\ p ⊆ seq 0 (length (tr_fragments t));
  cg_state :
    match p with
    | [] => fences g !! tr_group t = None /\ N.of_nat (size (fences g)) < gl_known_groups l
            /\ N.of_nat (size (assemblies g)) < gl_incomplete l
    | _ => fences g !! tr_group t = Some open_fence /\ assemblies g !! tr_group t = Some (staged_with p)
    end;
}.

Lemma charge_cons i p :
  charge t (i :: p) = charge t p + (cost t i + if decide (p = []) then tr_manifest_capacity t * size_scope_identity else 0).
Proof.
  unfold charge. rewrite (decide_False (P := i :: p = [])) by done. unfold sum_over. simpl.
  destruct (decide (p = [])); lia.
Qed.

Lemma collecting_none g p : collecting g p -> assemblies g !! tr_group t = match p with [] => None | _ => Some (staged_with p) end.
Proof.
  intros [Hg _ _ _ _ Hs]. destruct p; [| by destruct Hs].
  destruct (assemblies g !! tr_group t) as [a |] eqn:Ha; [| done].
  destruct (ao_fence _ _ _ (ai_assembly _ Hg _ _ Ha)) as (f & Hf & _). destruct Hs. congruence.
Qed.

Lemma collecting_expire g p now :
  collecting g p -> ga_now_ms g <= now -> (p = [] \/ now < start + gl_max_age_ms l) ->
  exists g' n, expire g now = Some (g', Ok n) /\ collecting g' p /\ ga_now_ms g' = now.
Proof.
  intros Hcg Hnow Hage. pose proof (collecting_none g p Hcg) as Ha. destruct Hcg as [Hg Hconn Hl Hb Hp Hs].
  destruct (group_expire_ok g now Hg) as (g' & r & He & Hg' & E1 & E2 & E3 & E4).
  destruct r as [n |]; [| destruct E4 as (_ & _ & ?); lia]. destruct E4 as (_ & Hn & Hasm & Hsz & Hbytes).
  exists g', n. split; [done |]. split; [| done]. constructor; [exact Hg' | congruence | congruence | lia | exact Hp |]. destruct p as [| i p].
  - rewrite E3, Hasm. destruct Hs as (H1 & H2 & H3). split_and!; try done. lia.
  - rewrite E3, Hasm. destruct Hs as [H1 H2]. split; [done |]. unfold surviving. apply map_lookup_filter_Some. split; [done |].
    unfold young. simpl. rewrite Hl. destruct Hage as [? | ?]; [done | lia].
Qed.

(** The tests against the fence and the assembly let a missing fragment through. *)
Lemma collecting_checks g p i now c ids :
  collecting g p -> ga_now_ms g = now -> (i < length (tr_fragments t))%nat -> i ∉ p ->
  fragment_ok g (fragment t i) ids ->
  check_fence g (fragment t i) c now = Ok (Proceed false now)
  /\ check_existing g (fragment t i) ids (assemblies g !! tr_group t) = Some (Ok false).
Proof.
  intros Hcg Hnow Hi Hip Hfr. pose proof (collecting_none g p Hcg) as Ha. destruct Hcg as [Hg Hconn Hl Hb Hp Hs].
  unfold check_fence, check_existing. simpl. fold (tr_group t). rewrite Ha, Hl. destruct p as [| j p].
  - destruct Hs as (-> & H2 & H3). rewrite decide_False by lia. split; [done |]. by rewrite decide_False by lia.
  - destruct Hs as [-> _]. simpl.
    rewrite decide_False by (intros (_ & [? | [[_ ?] | [[? _] | [? _]]]]); done || lia).
    rewrite decide_False by lia. rewrite decide_True by done. split; [done |].
    rewrite decide_False; [| intros [? | [Hn | ?]]; try done; apply Hn; unfold len; by rewrite length_chunks_at].
    rewrite Nat2N.id, chunks_at_lookup, decide_False by done.
    match goal with |- context [existsb ?q ?k] => replace (existsb q k) with false; [done |] end.
    symmetry. rewrite <- not_true_iff_false, existsb_exists. intros (s & Hs & Hin%bool_decide_eq_true).
    apply list_elem_of_In, chunks_at_staged in Hs as (k & Hk & Hkl & Hs).
    rewrite (fr_ids _ _ _ Hfr) in Hin. apply list_elem_of_fmap in Hin as (s' & Heq & Hs').
    apply (fragments_disjoint t k i s s' transfer_scopes Hkl Hi); [by intros -> | done | done | done].
Qed.

Lemma collecting_stage g p i now (c : ClientScopes P) :
  collecting g p -> ga_now_ms g = now -> (p = [] -> start = now) -> (i < length (tr_fragments t))%nat -> i ∉ p ->
  cs_connection c = connection ->
  exists g', collecting g' (i :: p) /\ ga_now_ms g' = now
    /\ receive_live size_full_state size_scope_identity clone g (fragment t i) now c validate
       = complete clone g' (staged_with (i :: p)) (tr_group t) c validate.
Proof.
  intros Hcg Hnow Hst Hi Hip Hc. pose proof (collecting_none g p Hcg) as Ha. pose proof Hcg as [Hg Hconn Hl Hb [Hnd Hsub] Hs].
  assert (NoDup (i :: p) /\ i :: p ⊆ seq 0 (length (tr_fragments t))) as Hp'.
  { split; [by constructor |]. intros j [-> | Hj]%elem_of_cons; [apply elem_of_seq; lia | by apply Hsub]. }
  pose proof (charge_le t (i :: p) (proj1 Hp') (proj2 Hp')) as Hle. pose proof (charge_cons i p) as Hcons.
  destruct (fragment_passes g i c Hi Hconn Hl Hc ltac:(lia)) as (F1 & F2 & st & ids & F3 & F4 & Hfr).
  destruct (collecting_checks g p i now c ids Hcg Hnow Hi Hip Hfr) as [F5 F6].
  set (more := match assemblies g !! tr_group t with
               | None => ch_manifest_capacity (fragment t i) * size_scope_identity | Some _ => 0 end).
  assert (from_option as_bytes 0 (assemblies g !! tr_group t) + (cost t i + more) = charge t (i :: p)) as Hgb.
  { subst more. rewrite Ha, Hcons. destruct p; simpl; [unfold charge, sum_over; simpl; lia | lia]. }
  assert (cost t i + more = charge t (i :: p) - charge t p /\ charge t p <= charge t (i :: p)) as [Hadd Hcle].
  { subst more. rewrite Ha, Hcons. destruct p; simpl; lia. }
  pose proof (to_group _ _ _ _ fine) as Htot.
  assert (charges size_scope_identity g (fragment t i) false (assemblies g !! tr_group t) (cost t i)
          = Ok (charge t (i :: p), ga_bytes g + (cost t i + more))) as F7.
  { rewrite <- Hgb. apply charges_pass; fold more; rewrite ?Hl, ?Hgb; lia. }
  destruct (stage_ok size_scope_identity g (fragment t i) c now ids false now (cost t i) _ _ Hg Hfr Hnow F5 F6 F7)
    as (g' & a & Hstage & Hg' & S1 & S2 & S3 & Hasm & Hfen & Hm & Htk & Hstart).
  assert (a = staged_with (i :: p)) as ->.
  { revert Hstage. rewrite stage_eq.
    - intros [= _ <-]. unfold base_assembly. simpl. fold (tr_group t). rewrite Ha. unfold staged_with.
      rewrite <- chunks_at_insert by done. destruct p as [| j p]; simpl; rewrite Nat2N.id; [| done].
      rewrite chunks_at_nil, (Hst eq_refl). unfold len. by rewrite Nat2N.id.
    - unfold base_assembly. simpl. fold (tr_group t). rewrite Ha. destruct p; simpl; unfold len;
        rewrite ?length_replicate, ?length_chunks_at; lia. }
  exists g'. split; [| split; [done |]].
  - constructor; [exact Hg' | congruence | congruence | | exact Hp' |].
    + revert Hstage. rewrite stage_eq; [intros [= <- _]; simpl; lia |].
      unfold base_assembly. simpl. fold (tr_group t). rewrite Ha. destruct p; simpl; unfold len;
        rewrite ?length_replicate, ?length_chunks_at; lia.
    + rewrite Hfen, Hasm. fold (tr_group t). by rewrite !lookup_insert_eq.
  - unfold receive_live. rewrite F1, F2, F3, F4, F5. cbn [ch_publication fragment]. fold (tr_group t).
    rewrite F6, F7, Hstage. done.
Qed.

(** The last fragment publishes what the client accepts. *)
Lemma collecting_publish g p (c c' : ClientScopes P) rs :
  collecting g p -> p <> [] -> (forall i, (i < length (tr_fragments t))%nat -> i ∈ p) ->
  apply_all (clone_client clone c) validate (clone_state clone <$> tr_states t) = (c', Ok rs) ->
  exists g', complete clone g (staged_with p) (tr_group t) c validate = Some (g', c', Ok (Published rs)).
Proof.
  intros Hcg Hne Hall Happ. pose proof (collecting_none g p Hcg) as Ha. destruct Hcg as [Hg _ _ _ _ Hs].
  destruct p as [| j p]; [done |]. destruct Hs as [Hf _]. unfold complete.
  simpl. rewrite (proj2 (chunks_at_missing t (j :: p)) Hall).
  assert (staged_states (staged_with (j :: p)) = tr_states t) as Hst by by apply chunks_at_all.
  rewrite Hst, decide_False by (intros Hn; apply Hn, transfer_len). rewrite Happ.
  destruct (discard_ok g _ _ Hg Ha) as (g' & -> & _ & _ & Hfen & _). rewrite Hfen, Hf. by eexists.
Qed.

Lemma deliver_completes order : forall g p (c c' : ClientScopes P) rs,
  collecting g p -> order <> [] -> order.*1 ++ p ≡ₚ seq 0 (length (tr_fragments t)) ->
  (p = [] -> head order.*2 = Some start) -> Sorted N.le (ga_now_ms g :: order.*2) ->
  Forall (fun now => now < start + gl_max_age_ms l) order.*2 ->
  cs_connection c = connection ->
  apply_all (clone_client clone c) validate (clone_state clone <$> tr_states t) = (c', Ok rs) ->
  exists g', deliver g c validate t order
             = Some (g', c', replicate (length order - 1) (Ok Staged) ++ [Ok (Published rs)]).
Proof.
  induction order as [| [i now] order IH]; intros g p c c' rs Hcg Hne Hperm Hstart Hsort Hages Hc Happ; [done |].
  simpl in Hsort, Hstart, Hages. apply Forall_cons in Hages as [Hage Hages].
  apply Sorted_inv in Hsort as [Hsort Hnow]. inversion Hnow as [| ? ? Hle]; subst.
  assert (NoDup ((i :: order.*1) ++ p)) as Hnd by (rewrite fmap_cons in Hperm; simpl in *; rewrite Hperm; apply NoDup_seq).
  assert (i < length (tr_fragments t))%nat as Hi.
  { assert (i ∈ seq 0 (length (tr_fragments t))) as Hin by (rewrite <- Hperm; left). apply elem_of_seq in Hin. lia. }
  assert (i ∉ p) as Hip.
  { simpl in Hnd. apply NoDup_cons in Hnd as [Hn _]. rewrite elem_of_app in Hn. tauto. }
  destruct (collecting_expire g p now Hcg Hle) as (g1 & n & He & Hcg1 & Hn1); [by right |].
  destruct (collecting_stage g1 p i now c Hcg1 Hn1) as (g2 & Hcg2 & Hn2 & Hlive); try done.
  { intros Hp. specialize (Hstart Hp). congruence. }
  simpl. unfold receive. rewrite He, Hlive.
  assert (order.*1 ++ i :: p ≡ₚ seq 0 (length (tr_fragments t))) as Hperm'.
  { rewrite <- Hperm. simpl. by rewrite Permutation_middle. }
  destruct order as [| x order].
  - destruct (collecting_publish g2 (i :: p) c c' rs Hcg2) as (g' & ->); try done; [| by exists g'].
    intros j Hj. simpl in Hperm'. rewrite Hperm'. apply elem_of_seq. lia.
  - assert (complete clone g2 (staged_with (i :: p)) (tr_group t) c validate = Some (g2, c, Ok Staged)) as ->.
    { unfold complete. simpl. destruct (existsb is_none (chunks_at t (i :: p))) eqn:Hex; [done |]. exfalso.
      rewrite chunks_at_missing in Hex. destruct x as [j tj]. simpl in *.
      assert (j ∈ i :: p) as Hj.
      { apply Hex. assert (j ∈ seq 0 (length (tr_fragments t))) as Hin by (rewrite <- Hperm'; left).
        apply elem_of_seq in Hin. lia. }
      assert (NoDup (j :: (order.*1 ++ i :: p))) as Hnd' by (rewrite Hperm'; apply NoDup_seq).
      apply NoDup_cons in Hnd' as [Hn _]. apply Hn, elem_of_app. by right. }
    destruct (IH g2 (i :: p) c c' rs Hcg2) as (g' & ->); try done; [by rewrite Hn2 |].
    exists g'. do 2 f_equal. simpl. by rewrite Nat.sub_0_r.
Qed.
End Delivery.

Section Completes.
Context {P : Type} `{!Payload P}.

(** C39 A transfer that arrives is published. In any reachable state that has never seen the group
    and has room for it (a free group, a free assembly, and the bytes of all its fragments in the
    staging budget), the fragments of a well-formed transfer, delivered each once in any order, at
    times that do not go back and before the first one's deadline, are all staged but the last,
    and the last publishes, provided that a copy of the client accepts the members' copies: the
    client ends as that copy with every member applied to it one by one, and the answer carries
    their receipts. A clone retains no more than its original. *)
Theorem group_delivery_completes size_full_state size_scope_identity clone connection connection' l cl g c acts w
    (t : Transfer (P:=P)) validate c' rs i first rest :
  clone_fits clone ->
  GroupAssembler_new connection l = Ok g -> ClientScopes_new connection' cl = Ok c ->
  group_run size_full_state size_scope_identity clone (mkGroupWorld g c []) acts = Some w ->
  transfer_ok size_full_state size_scope_identity (ga_connection (gw_asm w)) l validate t ->
  fences (gw_asm w) !! tr_group t = None -> N.of_nat (size (fences (gw_asm w))) < gl_known_groups l ->
  incomplete (gw_asm w) < gl_incomplete l ->
  staged_bytes (gw_asm w) + total size_full_state size_scope_identity t <= gl_staging_bytes l ->
  gl_staging_bytes l <= usize_max -> cs_connection (gw_cli w) = ga_connection (gw_asm w) ->
  apply_all (clone_client clone (gw_cli w)) validate (clone_state clone <$> tr_states t) = (c', Ok rs) ->
  i :: rest.*1 ≡ₚ seq 0 (length (tr_fragments t)) ->
  Sorted N.le (ga_now_ms (gw_asm w) :: first :: rest.*2) ->
  Forall (fun now => now < first + gl_max_age_ms l) rest.*2 ->
  exists g', deliver size_full_state size_scope_identity clone (gw_asm w) (gw_cli w) validate t ((i, first) :: rest)
             = Some (g', c', replicate (length rest) (Ok Staged) ++ [Ok (Published rs)]).
Proof.
  intros Hfit Hg Hc Hrun Hok Hf Hkn Hinc Hroom Hwidth Hconn Happ Hperm Hsort Hages.
  destruct (group_start clone _ _ _ _ _ _ Hg Hc) as [Hw Hl0].
  destruct (group_run_ok size_full_state size_scope_identity clone acts _ Hfit Hw) as (w' & Hrun' & Hw' & Hl).
  rewrite Hrun in Hrun'. injection Hrun' as <-. simpl in Hl. rewrite Hl0 in Hl.
  pose proof (ai_age _ (gi_asm _ _ Hw')) as Hage. rewrite Hl in Hage.
  destruct (deliver_completes size_full_state size_scope_identity clone (ga_connection (gw_asm w)) l validate t Hok
              (ga_bytes (gw_asm w)) first Hroom Hwidth ((i, first) :: rest) (gw_asm w) [] (gw_cli w) c' rs)
    as (g' & Hd); try done.
  - constructor; try done; [apply Hw' | unfold charge, sum_over; simpl; lia |]. split; [constructor | by intros ? ?%elem_of_nil].
  - rewrite app_nil_r. exact Hperm.
  - rewrite fmap_cons. constructor; [simpl; lia | done].
  - exists g'. rewrite Hd. simpl. by rewrite Nat.sub_0_r.
Qed.
End Completes.

(** Two members in two fragments that arrive in the wrong order. Their payloads are byte
    vectors, and the first member is delivered once more with a larger allocation. A clone of a
    vector is allocated for its length, which the capacity is never below. *)
Module GroupDemo.
Definition scope (i : N) : ScopeIdentity := mkScopeIdentity 4 (mkEntityId i 1) 1 7.
Definition state (i : N) (b : byte) : FullState ByteVec := mkFullState (scope i) 1 1 1 10 (mkByteVec [b] 4).
Definition again : FullState ByteVec := mkFullState (scope 1) 1 1 1 10 (mkByteVec [Byte.x01] 9).
Definition key : GroupPublication := mkGroupPublication 4 9 1 1.
Definition transfer : Transfer (P:=ByteVec) :=
  mkTransfer key 10 [scope 1; scope 2] 2 [([state 1 Byte.x01], 4); ([state 2 Byte.x02], 4)].
Definition clone (v : ByteVec) : ByteVec := mkByteVec (vec_bytes v) (N.min (vec_capacity v) (len (vec_bytes v))).
Lemma clone_fit : clone_fits clone.
Proof. intros v. simpl. lia. Qed.
Definition any (_ : ByteVec) : bool := true.
Definition assembler : GroupAssembler ByteVec := mkGroupAssembler 4 GroupLimits_default ∅ ∅ 0 0.
Definition client : ClientScopes ByteVec := mkClientScopes 4 ScopeLimits_default ∅ 0.
Definition world : GroupWorld := mkGroupWorld assembler client [].
Definition arrivals : list (group_action (P:=ByteVec)) :=
  [GroupReceive (fragment transfer 1) 5 any; GroupReceive (fragment transfer 0) 8 any;
   ClientMessage (MsgState again any)].
Definition accepted : ClientScopes ByteVec := (apply_all client any (clone_state clone <$> tr_states transfer)).1.
Lemma transfer_fine : transfer_ok 80 40 4 GroupLimits_default any transfer.
Proof.
  constructor; try (vm_compute; reflexivity); try (vm_compute; discriminate); try done.
  - repeat constructor; simpl; discriminate.
  - repeat constructor.
Qed.
End GroupDemo.

Lemma group_publication_atomic_witness :
  exists w pg delivered, group_run 80 40 GroupDemo.clone GroupDemo.world GroupDemo.arrivals = Some w
    /\ published_group (gw_asm w) 9 (gw_cli w) = Some pg
    /\ pg_states pg = Some [GroupDemo.again; clone_state GroupDemo.clone (GroupDemo.state 2 Byte.x02)]
    /\ (GroupDemo.key, delivered) ∈ gw_log w
    /\ Forall2 (same_state GroupDemo.clone) [GroupDemo.again; clone_state GroupDemo.clone (GroupDemo.state 2 Byte.x02)] delivered.
Proof.
  destruct (group_publication_atomic 80 40 GroupDemo.clone 4 4 GroupLimits_default ScopeLimits_default
              GroupDemo.assembler GroupDemo.client GroupDemo.arrivals) as (w & Hrun & Hproof & _).
  { exact GroupDemo.clone_fit. }
  { vm_compute. reflexivity. }
  { vm_compute. reflexivity. }
  destruct (published_group (gw_asm w) 9 (gw_cli w)) as [pg |] eqn:Hpg.
  2: { exfalso. revert Hrun Hpg. vm_compute. intros [= <-]. discriminate. }
  destruct (Hproof _ _ Hpg) as (delivered & sts & Hst & Hlog & Hsame & _).
  assert (sts = [GroupDemo.again; clone_state GroupDemo.clone (GroupDemo.state 2 Byte.x02)] /\ pg_publication pg = GroupDemo.key) as [-> Hkey].
  { revert Hrun Hpg Hst. clear. vm_compute. intros [= <-] [= <-] [= <-]. split; reflexivity. }
  rewrite Hkey in Hlog. exists w, pg, delivered. split_and!; assumption.
Defined.

(** The account of a client that a publication copied is above what it retains: an entity outside
    the group was charged for a vector of nine bytes, of which its clone keeps one. *)
Example copied_account_exceeds :
  let large := mkFullState (GroupDemo.scope 3) 1 1 1 10 (mkByteVec [Byte.x01] 9) in
  option_map (fun w => (cs_bytes (gw_cli w), map_sum replica_bytes (cs_records (gw_cli w))))
    (group_run 80 40 GroupDemo.clone GroupDemo.world
       (ClientMessage (MsgState large GroupDemo.any) :: take 2 GroupDemo.arrivals))
  = Some (11, 3).
Proof. vm_compute. reflexivity. Qed.

Lemma group_staging_bounded_witness :
  exists w, group_run 80 40 GroupDemo.clone GroupDemo.world GroupDemo.arrivals = Some w
    /\ staged_bytes (gw_asm w) <= gl_staging_bytes GroupLimits_default /\ incomplete (gw_asm w) <= 8.
Proof.
  destruct (group_staging_bounded 80 40 GroupDemo.clone 4 4 GroupLimits_default ScopeLimits_default
              GroupDemo.assembler GroupDemo.client GroupDemo.arrivals) as (w & Hrun & _ & H1 & H2 & _).
  { exact GroupDemo.clone_fit. }
  { vm_compute. reflexivity. }
  { vm_compute. reflexivity. }
  exists w. split; [exact Hrun |]. split; [exact H1 | exact H2].
Defined.

Lemma group_delivery_completes_witness :
  exists g', deliver 80 40 GroupDemo.clone GroupDemo.assembler GroupDemo.client GroupDemo.any GroupDemo.transfer [(1%nat, 5); (0%nat, 8)]
    = Some (g', GroupDemo.accepted, [Ok Staged; Ok (Published (receipt <$> tr_states GroupDemo.transfer))]).
Proof.
  apply (group_delivery_completes 80 40 GroupDemo.clone 4 4 GroupLimits_default ScopeLimits_default
           GroupDemo.assembler GroupDemo.client [] GroupDemo.world GroupDemo.transfer GroupDemo.any
           GroupDemo.accepted (receipt <$> tr_states GroupDemo.transfer) 1 5 [(0%nat, 8)]);
    try (vm_compute; reflexivity); try exact GroupDemo.transfer_fine; try exact GroupDemo.clone_fit.
  - vm_compute. discriminate.
  - vm_compute. discriminate.
  - simpl. apply perm_swap.
  - repeat constructor; vm_compute; discriminate.
  - repeat constructor.
Defined.
