(* ===== verification/Prediction.v ===== *)
(** * Prediction with checkpoints and transactional replay

    Models [engine/net/src/prediction/history.rs] and [engine/net/src/prediction/manager.rs]:
    the client simulates ahead of the server, keeps every predicted tick with its input and
    the dependency samples it used, and when an authoritative checkpoint disagrees replays the
    recorded inputs from it.

    A [PredictionModel] is the game's pure simulation. A step that fails leaves its staging
    state to be dropped, so a step is a function to a result. Sizes of the platform's layout are
    a class. [None] is a panic (an index, an [expect] or an arithmetic underflow). *)

From S2P Require Import Prelude Types InterestModel Payload Commands Replication Groups.
Local Open Scope N_scope.
Local Open Scope engine_scope.

(** ** Ordered maps keyed by a tick *)

(** The key that [pick] prefers to all others. *)
Definition extreme_key {A} (pick : N -> N -> N) (m : gmap N A) : option N :=
  foldr (fun ka acc => Some match acc with Some k => pick ka.1 k | None => ka.1 end) None (map_to_list m).
(** [BTreeMap::last_key_value] and [first_key_value], the key. *)
Definition last_key {A} : gmap N A -> option N := extreme_key N.max.
Definition first_key {A} : gmap N A -> option N := extreme_key N.min.

(** ** Layout of the platform *)

Class Layout := {
  size_State : N;
  size_Command : N;
  size_HistoryFrame : N;
  size_GroupHistory : N;
  size_PredictionManager : N;
  size_DependencyFrame : N;
  size_DependencyRecord : N;
  size_EntityId : N;
  size_ActionKey : N;
  size_ScopeIdentity : N;
  size_GroupId : N;
  size_fence_group : N;
  size_fence_member : N;
}.

(** ** Data *)

Inductive DependencyValue (D : Type) :=
| Known (value : D)
| ExplicitlyAbsent
| Unavailable.
Arguments Known {D} value.
Arguments ExplicitlyAbsent {D}.
Arguments Unavailable {D}.

Record DependencyRecord (D : Type) := mkDependencyRecord {
  dr_scope : ScopeIdentity;
  dr_scene_revision : SceneRevision;
  dr_version : StateVersion;
  dr_value : DependencyValue D;
}.
Arguments mkDependencyRecord {D} _ _ _ _.
Arguments dr_scope {D} _.
Arguments dr_scene_revision {D} _.
Arguments dr_version {D} _.
Arguments dr_value {D} _.

(** [DependencyFrame] is its map of records; the default is the empty map. *)
Definition DependencyFrame (D : Type) : Type := gmap EntityId (DependencyRecord D).

Definition dependency_value {D} (f : DependencyFrame D) (e : EntityId) : option (DependencyValue D) :=
  dr_value <$> (f : gmap EntityId (DependencyRecord D)) !! e.

Record PredictionBinding := mkPredictionBinding {
  pb_owner : OwnerStream;
  pb_scene_revision : SceneRevision;
  pb_teleport_segment : N;
}.
#[export] Instance PredictionBinding_eq_dec : EqDecision PredictionBinding.
Proof. solve_decision. Defined.

#[export] Instance ScopeIdentity_countable : Countable ScopeIdentity.
Proof.
  refine (inj_countable' (fun s => (scope_connection s, scope_entity s, scope_epoch s, scope_representation s))
                         (fun '(c, e, s, r) => mkScopeIdentity c e s r) _); by intros [].
Defined.

Record PredictionIdentity := mkPredictionIdentity {
  pi_binding : PredictionBinding;
  pi_group : GroupId;
  pi_group_revision : GroupRevision;
  pi_scopes : gset ScopeIdentity;
}.
#[export] Instance PredictionIdentity_eq_dec : EqDecision PredictionIdentity.
Proof. solve_decision. Defined.

Record DecodedPrediction (St D : Type) := mkDecodedPrediction {
  dp_state : St;
  dp_dependencies : DependencyFrame D;
}.
Arguments mkDecodedPrediction {St D} _ _.
Arguments dp_state {St D} _.
Arguments dp_dependencies {St D} _.

Inductive ReplayInput (C : Type) :=
| InputCommand (command : C)
| Substitute.
Arguments InputCommand {C} command.
Arguments Substitute {C}.

(** [ReplayInput::command]. *)
Definition input_command {C} (i : ReplayInput C) : option C :=
  match i with InputCommand c => Some c | Substitute => None end.

Inductive RecoveryReason :=
| IdentityChanged
| CheckpointAhead
| MissingHistory
| MissingDependency
| ReplayBudget
| MemoryBudget
| InvalidStateRecovery
| DisclosureRevoked.

Inductive PredictionError :=
| PInvalidConfiguration
| PInvalidIdentity
| PInvalidState
| PInvalidCommand
| PInvalidDependency
| PEquivocation
| PWrongTick
| PAlreadyInitialized
| PUnknownGroup
| PNoFrame
| PNonMonotonicFrame
| PStaleDependency
| PCapacity
| PResyncRequired (reason : RecoveryReason).

(** [PredictionModel]: the game's simulation. *)
Class PredictionModel (W St C D : Type) := {
  decode_group : PublishedGroup W -> PredictionBinding -> result PredictionError (DecodedPrediction St D);
  valid_state : St -> bool;
  command_identity : C -> OwnerStream * CommandSeq * TargetTick;
  valid_command : C -> bool;
  required_dependencies : St -> option C -> list EntityId;
  step : St -> ServerTick -> C -> DependencyFrame D -> result PredictionError (St * gset ActionKey);
  step_substitute : St -> ServerTick -> DependencyFrame D -> result PredictionError (St * gset ActionKey);
}.

(** The default [step_substitute] of the trait. *)
Definition unsupported_substitute {St D} (_ : St) (_ : ServerTick) (_ : DependencyFrame D)
  : result PredictionError (St * gset ActionKey) := Err PInvalidCommand.

Record PredictionLimits := mkPredictionLimits {
  pl_groups : N;
  pl_entities_per_group : N;
  pl_total_entities : N;
  pl_history_ticks : N;
  pl_checkpoint_bytes : N;
  pl_command_bytes : N;
  pl_dependency_entities : N;
  pl_dependency_bytes : N;
  pl_events_per_tick : N;
  pl_history_bytes : N;
  pl_replay_ticks_per_frame : N;
  pl_replay_entity_steps_per_frame : N;
  pl_prediction_ticks_per_frame : N;
  pl_prediction_entity_steps_per_frame : N;
}.
Definition PredictionLimits_default : PredictionLimits :=
  mkPredictionLimits 8 32 128 256 16384 2048 128 16384 32 (64 * 1024 * 1024) 32 2048 32 2048.

Record PredictionWork := mkPredictionWork {
  replay_ticks : N;
  replay_entity_steps : N;
  predicted_ticks : N;
  predicted_entity_steps : N;
}.
#[export] Instance eta_PredictionWork : Eta PredictionWork := fun r =>
  mkPredictionWork (replay_ticks r) (replay_entity_steps r) (predicted_ticks r) (predicted_entity_steps r).
Definition PredictionWork_default : PredictionWork := mkPredictionWork 0 0 0 0.

Record EventChanges := mkEventChanges {
  started : gset ActionKey;
  canceled : gset ActionKey;
}.
Record AuthoritativeRebase := mkAuthoritativeRebase {
  ar_tick : ServerTick;
  ar_events : EventChanges;
}.
Inductive Correction :=
| CorrectionStale
| CorrectionEqual
| CorrectionReplaced
| CorrectionReplayed (from through : ServerTick) (events : EventChanges).

Definition ENTRY_OVERHEAD : N := 128.

Definition topology_member : Type := ScopeIdentity * SceneRevision * option PredictionBinding.
Record TopologyFences := mkTopologyFences {
  tf_groups : gmap GroupId (GroupRevision * SnapshotId * ServerTick);
  tf_members : gmap N topology_member;
}.
#[export] Instance eta_TopologyFences : Eta TopologyFences := fun r =>
  mkTopologyFences (tf_groups r) (tf_members r).

Section Manager.
Context `{LA : !Layout}.
Context {W St C D : Type} `{PW : !Payload W, PS : !Payload St, PC : !Payload C, PD : !Payload D}.
Context `{model : !PredictionModel W St C D}.

Record HistoryFrame := mkHistoryFrame {
  hf_state : St;
  hf_input : option (ReplayInput C);
  hf_dependencies : DependencyFrame D;
  hf_events : gset ActionKey;
  hf_bytes : N;
}.
#[export] Instance eta_HistoryFrame : Eta HistoryFrame := fun r =>
  mkHistoryFrame (hf_state r) (hf_input r) (hf_dependencies r) (hf_events r) (hf_bytes r).

Record GroupHistory := mkGroupHistory {
  gh_identity : PredictionIdentity;
  gh_frames : gmap ServerTick HistoryFrame;
  gh_last_snapshot : SnapshotId;
  gh_last_checkpoint : ServerTick;
  gh_last_sequence : option CommandSeq;
  gh_dirty_from : option ServerTick;
  gh_recovery : option RecoveryReason;
  gh_bytes : N;
}.
#[export] Instance eta_GroupHistory : Eta GroupHistory := fun r =>
  mkGroupHistory (gh_identity r) (gh_frames r) (gh_last_snapshot r) (gh_last_checkpoint r)
    (gh_last_sequence r) (gh_dirty_from r) (gh_recovery r) (gh_bytes r).

Record PredictionManager := mkPredictionManager {
  pm_connection : ConnectionEpoch;
  pm_limits : PredictionLimits;
  pm_groups : gmap GroupId GroupHistory;
  pm_bytes : N;
  pm_entities : N;
  pm_frame : option ReplicationFrame;
  pm_work : PredictionWork;
  pm_topology : TopologyFences;
}.
#[export] Instance eta_PredictionManager : Eta PredictionManager := fun r =>
  mkPredictionManager (pm_connection r) (pm_limits r) (pm_groups r) (pm_bytes r) (pm_entities r)
    (pm_frame r) (pm_work r) (pm_topology r).

(** ** Charges *)

Definition payload_bytes {P} `{!Payload P} (size : N) (p : P) : result PredictionError N :=
  ok_or (checked_add usize_max size (retained_bytes p)) PCapacity.

Definition value_bytes (v : DependencyValue D) : N :=
  match v with Known d => retained_bytes d | _ => 0 end.

(** The loop over the records; a sum does not depend on their order. *)
Definition dependency_bytes (f : DependencyFrame D) : result PredictionError N :=
  foldl (fun acc er =>
           let? n := acc in
           ok_or (match checked_add usize_max n (ENTRY_OVERHEAD + size_EntityId + size_DependencyRecord) with
                  | Some n => checked_add usize_max n (value_bytes (dr_value er.2))
                  | None => None
                  end) PCapacity)
        (Ok size_DependencyFrame) (map_to_list (f : gmap EntityId (DependencyRecord D))).

Definition event_bytes (events : gset ActionKey) : result PredictionError N :=
  ok_or (checked_mul usize_max (N.of_nat (size events)) (ENTRY_OVERHEAD + size_ActionKey)) PCapacity.

Definition frame_parts_bytes (state : St) (input : option (ReplayInput C)) (deps : DependencyFrame D)
    (events : gset ActionKey) : result PredictionError N :=
  let command := match input with
                 | Some i => match input_command i with Some c => retained_bytes c | None => 0 end
                 | None => 0
                 end in
  let? n := ok_or (checked_add usize_max (size_HistoryFrame + ENTRY_OVERHEAD) (retained_bytes state)) PCapacity in
  let? n := ok_or (checked_add usize_max n command) PCapacity in
  let? d := dependency_bytes deps in
  let? n := ok_or (checked_add usize_max n d) PCapacity in
  let? e := event_bytes events in
  ok_or (checked_add usize_max n e) PCapacity.

Definition frame_bytes (f : HistoryFrame) : result PredictionError N :=
  frame_parts_bytes (hf_state f) (hf_input f) (hf_dependencies f) (hf_events f).

(** ** Topology fences *)

Definition topology_bytes_for (groups members : N) : result PredictionError N :=
  ok_or (match checked_mul usize_max groups (ENTRY_OVERHEAD + size_fence_group) with
         | Some n =>
             match checked_mul usize_max members (ENTRY_OVERHEAD + size_fence_member) with
             | Some m => checked_add usize_max n m
             | None => None
             end
         | None => None
         end) PCapacity.
Definition topology_bytes (t : TopologyFences) : option N :=
  ok (topology_bytes_for (N.of_nat (size (tf_groups t))) (N.of_nat (size (tf_members t)))).

(** The scopes of an identity in the order of the set. *)
Definition scope_before (a b : ScopeIdentity) : Prop := scope_le a b = true.
#[export] Instance scope_before_dec a b : Decision (scope_before a b).
Proof. unfold scope_before. apply _. Defined.
Definition scope_list (scopes : gset ScopeIdentity) : list ScopeIdentity :=
  merge_sort scope_before (elements scopes).

Definition record_member (id : PredictionIdentity) (m : gmap N topology_member) (s : ScopeIdentity)
  : gmap N topology_member :=
  let i := index (scope_entity s) in
  let previous_owner := match m !! i with Some v => v.2 | None => None end in
  let owner := if decide (i = index (os_owner (pb_owner (pi_binding id)))) then Some (pi_binding id)
               else previous_owner in
  <[i := (s, pb_scene_revision (pi_binding id), owner)]> m.

Definition topology_record (t : TopologyFences) (id : PredictionIdentity) (snapshot : SnapshotId)
    (tick : ServerTick) : TopologyFences :=
  mkTopologyFences (<[pi_group id := (pi_group_revision id, snapshot, tick)]> (tf_groups t))
    (foldl (record_member id) (tf_members t) (scope_list (pi_scopes id))).

(** A later owner of the same entity: nothing of its stream goes back. *)
Definition owner_regresses (previous next : PredictionBinding) : bool :=
  bool_decide (os_connection (pb_owner next) <> os_connection (pb_owner previous)
               \/ generation (os_owner (pb_owner next)) < generation (os_owner (pb_owner previous))
               \/ os_ownership (pb_owner next) < os_ownership (pb_owner previous)
               \/ os_stream (pb_owner next) < os_stream (pb_owner previous)
               \/ pb_teleport_segment next < pb_teleport_segment previous).

Definition scope_regresses (previous next : ScopeIdentity) : bool :=
  bool_decide (generation (scope_entity next) < generation (scope_entity previous)
               \/ scope_epoch next < scope_epoch previous
               \/ scope_representation next < scope_representation previous).

Definition member_allowed (t : TopologyFences) (binding : PredictionBinding) (s : ScopeIdentity) : bool :=
  match tf_members t !! index (scope_entity s) with
  | None => true
  | Some (old, scene, owner) =>
      negb (scope_regresses old s || bool_decide (pb_scene_revision binding < scene))
      && (if decide (index (scope_entity s) = index (os_owner (pb_owner binding))) then
            match owner with Some previous => negb (owner_regresses previous binding) | None => true end
          else true)
  end.

Definition topology_validate (t : TopologyFences) (proof : PublishedGroup W) (binding : PredictionBinding)
  : result PredictionError unit :=
  let publication := pg_publication proof in
  if match tf_groups t !! gp_group publication with
     | Some (revision, snapshot, tick) =>
         bool_decide (gp_revision publication <= revision \/ gp_snapshot publication <= snapshot
                      \/ pg_end_tick proof < tick)
     | None => false
     end
  then Err PInvalidIdentity
  else if forallb (member_allowed t binding) (pg_manifest proof) then Ok tt
  else Err PInvalidIdentity.

(** ** The manager *)

(** [value.is_none_or(|n| n > limit)]. *)
Definition exceeds (value : option N) (limit : N) : bool :=
  match value with Some n => bool_decide (limit < n) | None => true end.
Definition is_some {A} (o : option A) : bool := match o with Some _ => true | None => false end.

Definition limits_nonzero (l : PredictionLimits) : bool :=
  forallb (fun n => negb (bool_decide (n = 0)))
    [pl_groups l; pl_entities_per_group l; pl_total_entities l; pl_history_ticks l; pl_checkpoint_bytes l;
     pl_command_bytes l; pl_dependency_entities l; pl_dependency_bytes l; pl_events_per_tick l;
     pl_history_bytes l; pl_replay_ticks_per_frame l; pl_replay_entity_steps_per_frame l;
     pl_prediction_ticks_per_frame l; pl_prediction_entity_steps_per_frame l].

Definition Manager_new (connection : ConnectionEpoch) (l : PredictionLimits)
  : result PredictionError PredictionManager :=
  if bool_decide (connection = 0) || negb (limits_nonzero l)
     || bool_decide (pl_total_entities l < pl_entities_per_group l)
     || bool_decide (pl_history_ticks l = usize_max)
     || bool_decide (pl_history_bytes l < pl_checkpoint_bytes l)
  then Err PInvalidConfiguration
  else Ok (mkPredictionManager connection l ∅ 0 0 None PredictionWork_default (mkTopologyFences ∅ ∅)).

Definition prediction_begin_frame (m : PredictionManager) (frame : ReplicationFrame)
  : PredictionManager * result PredictionError unit :=
  if match pm_frame m with Some previous => bool_decide (frame <= previous) | None => false end
  then (m, Err PNonMonotonicFrame)
  else (m <| pm_frame := Some frame |> <| pm_work := PredictionWork_default |>, Ok tt).

Definition remaining_prediction_ticks (m : PredictionManager) (group : GroupId) : option N :=
  match pm_groups m !! group with
  | None => None
  | Some h =>
      if bool_decide (pm_frame m = None) || is_some (gh_recovery h)
      then Some 0
      else
        let ticks := saturating_sub (pl_prediction_ticks_per_frame (pm_limits m)) (predicted_ticks (pm_work m)) in
        let entities := saturating_sub (pl_prediction_entity_steps_per_frame (pm_limits m))
                          (predicted_entity_steps (pm_work m)) in
        let members := N.of_nat (size (pi_scopes (gh_identity h))) in
        Some (N.min ticks (if decide (members = 0) then 0 else entities / members))
  end.

Definition newest (h : GroupHistory) : option (ServerTick * HistoryFrame) :=
  match last_key (gh_frames h) with
  | Some t => match gh_frames h !! t with Some f => Some (t, f) | None => None end
  | None => None
  end.

Definition manager_state (m : PredictionManager) (group : GroupId) : option St :=
  match pm_groups m !! group with
  | Some h => match newest h with Some (_, f) => Some (hf_state f) | None => None end
  | None => None
  end.
Definition predicted_tick (m : PredictionManager) (group : GroupId) : option ServerTick :=
  match pm_groups m !! group with
  | Some h => match newest h with Some (t, _) => Some t | None => None end
  | None => None
  end.
Definition manager_identity (m : PredictionManager) (group : GroupId) : option PredictionIdentity :=
  gh_identity <$> pm_groups m !! group.
Definition manager_recovery (m : PredictionManager) (group : GroupId) : option RecoveryReason :=
  match pm_groups m !! group with Some h => gh_recovery h | None => None end.
Definition frame_at (m : PredictionManager) (group : GroupId) (tick : ServerTick) : option HistoryFrame :=
  match pm_groups m !! group with Some h => gh_frames h !! tick | None => None end.
Definition history_state (m : PredictionManager) (group : GroupId) (tick : ServerTick) : option St :=
  hf_state <$> frame_at m group tick.
Definition replay_input_history (m : PredictionManager) (group : GroupId) (tick : ServerTick)
  : option (ReplayInput C) :=
  match frame_at m group tick with Some f => hf_input f | None => None end.
Definition command_history (m : PredictionManager) (group : GroupId) (tick : ServerTick) : option C :=
  match replay_input_history m group tick with Some i => input_command i | None => None end.
Definition dependency_history (m : PredictionManager) (group : GroupId) (tick : ServerTick)
  : option (DependencyFrame D) := hf_dependencies <$> frame_at m group tick.
Definition checkpoint_dependencies (m : PredictionManager) (group : GroupId) : option (DependencyFrame D) :=
  match pm_groups m !! group with
  | Some h => hf_dependencies <$> gh_frames h !! gh_last_checkpoint h
  | None => None
  end.

(** ** Shared tests *)

Definition require_frame (m : PredictionManager) : result PredictionError unit :=
  match pm_frame m with Some _ => Ok tt | None => Err PNoFrame end.

Definition reserve (m : PredictionManager) (bytes : N) : result PredictionError unit :=
  match checked_add usize_max (pm_bytes m) bytes with
  | Some n => if decide (pl_history_bytes (pm_limits m) < n) then Err PCapacity else Ok tt
  | None => Err PCapacity
  end.

Definition event_scratch (m : PredictionManager) (copies : N) : result PredictionError N :=
  ok_or (match checked_mul usize_max (pl_events_per_tick (pm_limits m)) (size_ActionKey + ENTRY_OVERHEAD) with
         | Some n => checked_mul usize_max n copies
         | None => None
         end) PCapacity.

Definition event_fits (connection : ConnectionEpoch) (e : ActionKey) : bool :=
  bool_decide (ak_connection e = connection) && negb (bool_decide (ak_stream e = 0))
  && negb (bool_decide (ak_command e = 0)).
Definition valid_events (m : PredictionManager) (connection : ConnectionEpoch) (events : gset ActionKey) : bool :=
  bool_decide (N.of_nat (size events) <= pl_events_per_tick (pm_limits m))
  && forallb (event_fits connection) (elements events).

Definition validate_state (m : PredictionManager) (state : St) : result PredictionError unit :=
  if negb (valid_state state) then Err PInvalidState
  else
    let? n := payload_bytes size_State state in
    if decide (pl_checkpoint_bytes (pm_limits m) < n) then Err PInvalidState else Ok tt.

Definition record_fits (m : PredictionManager) (binding : PredictionBinding) (e : EntityId)
    (r : DependencyRecord D) : bool :=
  negb (bool_decide (scope_entity (dr_scope r) <> e
                     \/ scope_connection (dr_scope r) <> pm_connection m
                     \/ generation e = 0 \/ scope_epoch (dr_scope r) = 0
                     \/ scope_representation (dr_scope r) = 0 \/ dr_version r = 0
                     \/ dr_scene_revision r <> pb_scene_revision binding)).

Definition validate_dependency_records (m : PredictionManager) (binding : PredictionBinding)
    (f : DependencyFrame D) : result PredictionError unit :=
  let records : gmap EntityId (DependencyRecord D) := f in
  if decide (pl_dependency_entities (pm_limits m) < N.of_nat (size records)) then Err PCapacity
  else
    let? n := dependency_bytes f in
    if decide (pl_dependency_bytes (pm_limits m) < n) then Err PCapacity
    else if forallb (fun er => record_fits m binding er.1 er.2) (map_to_list records) then Ok tt
    else Err PInvalidDependency.

(** The declared dependencies are distinct and none is missing or unavailable. *)
Fixpoint check_required (f : DependencyFrame D) (seen : gset EntityId) (required : list EntityId)
  : result PredictionError unit :=
  match required with
  | [] => Ok tt
  | e :: required =>
      if decide (e ∈ seen) then Err PInvalidDependency
      else match dependency_value f e with
           | None | Some Unavailable => Err (PResyncRequired MissingDependency)
           | Some _ => check_required f ({[e]} ∪ seen) required
           end
  end.

Definition validate_dependencies (m : PredictionManager) (binding : PredictionBinding) (state : St)
    (command : option C) (f : DependencyFrame D) : result PredictionError unit :=
  let? _u := validate_dependency_records m binding f in
  let required := required_dependencies state command in
  if decide (pl_dependency_entities (pm_limits m) < len required) then Err PCapacity
  else check_required f ∅ required.

Definition active (h : GroupHistory) : result PredictionError unit :=
  match gh_recovery h with Some reason => Err (PResyncRequired reason) | None => Ok tt end.

Definition recovery_reason (e : PredictionError) (fallback : RecoveryReason) : RecoveryReason :=
  match e with
  | PResyncRequired reason => reason
  | PCapacity => MemoryBudget
  | _ => fallback
  end.

Definition step_input (state : St) (tick : ServerTick) (input : ReplayInput C) (deps : DependencyFrame D)
  : result PredictionError (St * gset ActionKey) :=
  match input with
  | InputCommand c => step state tick c deps
  | Substitute => step_substitute state tick deps
  end.

(** ** Starting a group *)

Definition shares_entity (scopes : gset ScopeIdentity) (manifest : list ScopeIdentity) : bool :=
  existsb (fun old => existsb (fun new => bool_decide (index (scope_entity old) = index (scope_entity new))) manifest)
    (elements scopes).

(** The tests before anything is decoded. *)
Definition check_initialize (m : PredictionManager) (proof : PublishedGroup W) (binding : PredictionBinding)
  : result PredictionError unit :=
  let publication := pg_publication proof in
  if is_some (pm_groups m !! gp_group publication) then Err PAlreadyInitialized
  else
    let? _u := topology_validate (pm_topology m) proof binding in
    if decide (gp_connection publication <> pm_connection m \/ os_epoch (pb_owner binding) <> pm_connection m
               \/ generation (os_owner (pb_owner binding)) = 0 \/ os_ownership (pb_owner binding) = 0
               \/ os_stream (pb_owner binding) = 0
               \/ Forall (fun s => scope_entity s <> os_owner (pb_owner binding)) (pg_manifest proof))
    then Err PInvalidIdentity
    else if bool_decide (pl_groups (pm_limits m) <= N.of_nat (size (pm_groups m)))
            || bool_decide (pl_entities_per_group (pm_limits m) < len (pg_manifest proof))
            || exceeds (checked_add usize_max (pm_entities m) (len (pg_manifest proof)))
                 (pl_total_entities (pm_limits m))
    then Err PCapacity
    else if existsb (fun gh => shares_entity (pi_scopes (gh_identity gh.2)) (pg_manifest proof))
              (map_to_list (pm_groups m))
    then Err PInvalidIdentity
    else
      let? scratch := ok_or (checked_add usize_max (pl_checkpoint_bytes (pm_limits m))
                               (pl_dependency_bytes (pm_limits m))) PCapacity in
      reserve m scratch.

(** The checkpoint decoded and tested. *)
Definition decode_checkpoint (m : PredictionManager) (proof : PublishedGroup W) (binding : PredictionBinding)
  : result PredictionError (DecodedPrediction St D) :=
  let? decoded := decode_group proof binding in
  let? _u := validate_state m (dp_state decoded) in
  let? _u := validate_dependencies m binding (dp_state decoded) None (dp_dependencies decoded) in
  Ok decoded.

Definition identity_bytes (scopes : gset ScopeIdentity) : result PredictionError N :=
  ok_or (match checked_mul usize_max (N.of_nat (size scopes)) (ENTRY_OVERHEAD + size_ScopeIdentity) with
         | Some n => checked_add usize_max n (size_GroupHistory + ENTRY_OVERHEAD)
         | None => None
         end) PCapacity.

Definition initialize (m : PredictionManager) (proof : PublishedGroup W) (binding : PredictionBinding)
  : PredictionManager * result PredictionError unit :=
  let publication := pg_publication proof in
  let out :=
    let? _u := check_initialize m proof binding in
    let? decoded := decode_checkpoint m proof binding in
    let? size := frame_parts_bytes (dp_state decoded) None (dp_dependencies decoded) ∅ in
    let id := mkPredictionIdentity binding (gp_group publication) (gp_revision publication)
                (list_to_set (pg_manifest proof)) in
    let? own := identity_bytes (pi_scopes id) in
    let? bytes := ok_or (checked_add usize_max own size) PCapacity in
    let? _u := reserve m bytes in
    Ok (mkGroupHistory id
          {[pg_end_tick proof := mkHistoryFrame (dp_state decoded) None (dp_dependencies decoded) ∅ size]}
          (gp_snapshot publication) (pg_end_tick proof) None None None bytes) in
  match out with
  | Err e => (m, Err e)
  | Ok h =>
      (m <| pm_groups := <[gp_group publication := h]> (pm_groups m) |>
         <| pm_bytes := pm_bytes m + gh_bytes h |>
         <| pm_entities := pm_entities m + len (pg_manifest proof) |>, Ok tt)
  end.

Definition remove_group (m : PredictionManager) (group : GroupId) : option (PredictionManager * bool) :=
  match pm_groups m !! group with
  | None => Some (m, false)
  | Some old =>
      match checked_sub (pm_bytes m) (gh_bytes old),
            checked_sub (pm_entities m) (N.of_nat (size (pi_scopes (gh_identity old)))) with
      | Some bytes, Some entities =>
          Some (m <| pm_groups := delete group (pm_groups m) |> <| pm_bytes := bytes |>
                  <| pm_entities := entities |>, true)
      | _, _ => None
      end
  end.

(** ** Work on one group *)

(** What a closure given to [with_group] leaves: the work done, the history and the result. *)
Definition group_result (R : Type) : Type := PredictionWork * GroupHistory * result PredictionError R.

Definition with_group {R} (m : PredictionManager) (group : GroupId)
    (apply : PredictionManager -> GroupHistory -> option (group_result R))
  : option (PredictionManager * result PredictionError R) :=
  match pm_groups m !! group with
  | None => Some (m, Err PUnknownGroup)
  | Some h =>
      let m1 := m <| pm_groups := delete group (pm_groups m) |> in
      match apply m1 h with
      | None => None
      | Some (work, h', r) =>
          match checked_sub (pm_bytes m) (gh_bytes h) with
          | None => None
          | Some n =>
              Some (m1 <| pm_work := work |> <| pm_bytes := n + gh_bytes h' |>
                       <| pm_groups := <[group := h']> (pm_groups m1) |>, r)
          end
      end
  end.

(** [return Err(e)], and [return recover(history, reason)]. *)
Definition refuse {R} (m : PredictionManager) (h : GroupHistory) (e : PredictionError)
  : option (group_result R) := Some (pm_work m, h, Err e).
Definition recover {R} (m : PredictionManager) (h : GroupHistory) (reason : RecoveryReason)
  : option (group_result R) :=
  Some (pm_work m, h <| gh_recovery := Some reason |>, Err (PResyncRequired reason)).

(** ** Predicting a tick *)

Definition input_eq (a b : ReplayInput C) : bool :=
  match a, b with
  | InputCommand x, InputCommand y => payload_eq x y
  | Substitute, Substitute => true
  | _, _ => false
  end.

(** The sequence of a command of the group's owner for this tick. *)
Definition check_command (h : GroupHistory) (target : ServerTick) (input : ReplayInput C)
  : result PredictionError (option CommandSeq) :=
  match input_command input with
  | None => Ok None
  | Some c =>
      let '(owner, sequence, command_target) := command_identity c in
      if bool_decide (owner <> pb_owner (pi_binding (gh_identity h)) \/ sequence = 0 \/ command_target <> target)
         || negb (valid_command c)
      then Err PInvalidCommand
      else Ok (Some sequence)
  end.

Definition past_events (h : GroupHistory) : gset ActionKey :=
  ⋃ ((fun tf => hf_events tf.2) <$> map_to_list (gh_frames h)).

(** [while frames.len() > history_ticks + 1 { pop_first }]: at most one round per frame. *)
Fixpoint trim_history (rounds : nat) (keep : N) (frames : gmap ServerTick HistoryFrame) (bytes : N)
  : option (gmap ServerTick HistoryFrame * N) :=
  match rounds with
  | O => Some (frames, bytes)
  | S rounds =>
      if decide (keep < N.of_nat (size frames)) then
        match first_key frames with
        | None => None
        | Some t =>
            match frames !! t with
            | None => None
            | Some f =>
                match checked_sub bytes (hf_bytes f) with
                | None => None
                | Some bytes => trim_history rounds keep (delete t frames) bytes
                end
            end
        end
      else Some (frames, bytes)
  end.

Definition command_charge (input : ReplayInput C) : result PredictionError N :=
  match input_command input with Some c => payload_bytes size_Command c | None => Ok 0 end.

Definition prediction_scratch (m : PredictionManager) (deps : DependencyFrame D) (command_bytes : N)
  : result PredictionError N :=
  let? d := dependency_bytes deps in
  let? n := ok_or (checked_add usize_max (pl_checkpoint_bytes (pm_limits m)) d) PCapacity in
  let? n := ok_or (checked_add usize_max n command_bytes) PCapacity in
  let? e := event_scratch m 2 in
  let? n := ok_or (checked_add usize_max n e) PCapacity in
  ok_or (checked_add usize_max n (size_HistoryFrame + ENTRY_OVERHEAD)) PCapacity.

(** The simulated tick recorded, once the budgets allow it. *)
Definition record_prediction (m : PredictionManager) (h : GroupHistory) (target : ServerTick)
    (input : ReplayInput C) (deps : DependencyFrame D) (sequence : option CommandSeq) (previous : HistoryFrame)
  : option (group_result EventChanges) :=
  match step_input (hf_state previous) target input deps with
  | Err e => recover m h (recovery_reason e InvalidStateRecovery)
  | Ok (state, events) =>
      if negb (is_ok (validate_state m state))
         || negb (valid_events m (os_epoch (pb_owner (pi_binding (gh_identity h)))) events)
      then recover m h InvalidStateRecovery
      else
        let fresh := events ∖ past_events h in
        match frame_parts_bytes state (Some input) deps events with
        | Err e => refuse m h e
        | Ok size =>
            if negb (is_ok (reserve m size)) then recover m h MemoryBudget
            else
              let frames := <[target := mkHistoryFrame state (Some input) deps events size]> (gh_frames h) in
              match trim_history (base.size frames) (pl_history_ticks (pm_limits m) + 1) frames (gh_bytes h + size) with
              | None => None
              | Some (frames, bytes) =>
                  Some (pm_work m,
                        h <| gh_frames := frames |> <| gh_bytes := bytes |>
                          <| gh_last_sequence := match sequence with Some s => Some s | None => gh_last_sequence h end |>,
                        Ok (mkEventChanges fresh ∅))
              end
        end
  end.

(** The input recorded for a tick, if one was. *)
Definition recorded_input (h : GroupHistory) (t : ServerTick) : option (ReplayInput C) :=
  match gh_frames h !! t with Some f => hf_input f | None => None end.

(** A tick that is not recorded yet must be the next one, of a newer command, within the budgets. *)
Definition predict_next (m : PredictionManager) (h : GroupHistory) (target : ServerTick)
    (input : ReplayInput C) (deps : DependencyFrame D) (sequence : option CommandSeq)
  : option (group_result EventChanges) :=
  match newest h with
  | None => None
  | Some (current, previous) =>
      if bool_decide (checked_next u64_max current <> Some target)
         || match sequence, gh_last_sequence h with
            | Some s, Some old => bool_decide (s <= old)
            | _, _ => false
            end
      then refuse m h PWrongTick
      else
        match command_charge input with
        | Err e => refuse m h e
        | Ok command_bytes =>
            if decide (pl_command_bytes (pm_limits m) < command_bytes) then refuse m h PCapacity
            else
              match validate_dependencies m (pi_binding (gh_identity h)) (hf_state previous)
                      (input_command input) deps with
              | Err e => recover m h (recovery_reason e MissingDependency)
              | Ok _ =>
                  let members := N.of_nat (size (pi_scopes (gh_identity h))) in
                  if bool_decide (pl_prediction_ticks_per_frame (pm_limits m) <= predicted_ticks (pm_work m))
                     || exceeds (checked_add usize_max (predicted_entity_steps (pm_work m)) members)
                          (pl_prediction_entity_steps_per_frame (pm_limits m))
                  then recover m h ReplayBudget
                  else
                    match prediction_scratch m deps command_bytes with
                    | Err e => refuse m h e
                    | Ok scratch =>
                        if negb (is_ok (reserve m scratch)) then recover m h MemoryBudget
                        else
                          let work := (pm_work m)
                            <| predicted_ticks := predicted_ticks (pm_work m) + 1 |>
                            <| predicted_entity_steps := predicted_entity_steps (pm_work m) + members |> in
                          record_prediction (m <| pm_work := work |>) h target input deps sequence previous
                    end
              end
        end
  end.

Definition predict_in (target : ServerTick) (input : ReplayInput C) (deps : DependencyFrame D)
    (m : PredictionManager) (h : GroupHistory) : option (group_result EventChanges) :=
  match (let? _u := require_frame m in let? _u := active h in check_command h target input) with
  | Err e => refuse m h e
  | Ok sequence =>
      match recorded_input h target with
      | Some old =>
          if input_eq old input then Some (pm_work m, h, Ok (mkEventChanges ∅ ∅)) else refuse m h PEquivocation
      | None => predict_next m h target input deps sequence
      end
  end.

Definition predict_input (m : PredictionManager) (group : GroupId) (target : ServerTick)
    (input : ReplayInput C) (deps : DependencyFrame D)
  : option (PredictionManager * result PredictionError EventChanges) :=
  with_group m group (predict_in target input deps).

Definition predict (m : PredictionManager) (group : GroupId) (command : C) (deps : DependencyFrame D)
  : option (PredictionManager * result PredictionError EventChanges) :=
  predict_input m group (command_identity command).2 (InputCommand command) deps.

Definition predict_substitute (m : PredictionManager) (group : GroupId) (target : ServerTick)
    (deps : DependencyFrame D) : option (PredictionManager * result PredictionError EventChanges) :=
  predict_input m group target Substitute deps.

(** ** Dependency samples *)

Definition value_eq (a b : DependencyValue D) : bool :=
  match a, b with
  | Known x, Known y => payload_eq x y
  | ExplicitlyAbsent, ExplicitlyAbsent => true
  | Unavailable, Unavailable => true
  | _, _ => false
  end.
Definition record_eq (a b : DependencyRecord D) : bool :=
  bool_decide (dr_scope a = dr_scope b) && bool_decide (dr_scene_revision a = dr_scene_revision b)
  && bool_decide (dr_version a = dr_version b) && value_eq (dr_value a) (dr_value b).
(** The derived equality of two maps of records. *)
Definition dependencies_eq (a b : DependencyFrame D) : bool :=
  let a : gmap EntityId (DependencyRecord D) := a in
  let b : gmap EntityId (DependencyRecord D) := b in
  bool_decide (size a = size b)
  && forallb (fun er => match b !! er.1 with Some r => record_eq er.2 r | None => false end) (map_to_list a).

(** A sample against the one it replaces. *)
Definition check_sample (old : DependencyFrame D) (e : EntityId) (r : DependencyRecord D)
  : result PredictionError unit :=
  match (old : gmap EntityId (DependencyRecord D)) !! e with
  | None => Ok tt
  | Some previous =>
      if decide (dr_scope r <> dr_scope previous \/ dr_scene_revision r <> dr_scene_revision previous)
      then Err PInvalidDependency
      else if decide (dr_version r < dr_version previous) then Err PStaleDependency
      else if bool_decide (dr_version r = dr_version previous) && negb (record_eq r previous)
      then Err PEquivocation
      else Ok tt
  end.

(** The records in the order of the map; the first refusal is the answer. *)
Definition by_entity (a b : EntityId * DependencyRecord D) : Prop :=
  lex_le [index a.1; generation a.1] [index b.1; generation b.1] = true.
#[export] Instance by_entity_dec a b : Decision (by_entity a b).
Proof. unfold by_entity. apply _. Defined.
Fixpoint check_samples (old : DependencyFrame D) (l : list (EntityId * DependencyRecord D))
  : result PredictionError unit :=
  match l with
  | [] => Ok tt
  | (e, r) :: l => let? _u := check_sample old e r in check_samples old l
  end.

Definition update_in (tick : ServerTick) (deps : DependencyFrame D) (m : PredictionManager) (h : GroupHistory)
  : option (group_result unit) :=
  match (let? _u := active h in
         let? _u := validate_dependency_records m (pi_binding (gh_identity h)) deps in
         let? old := ok_or (gh_frames h !! tick) (PResyncRequired MissingHistory) in
         let? _u := check_samples (hf_dependencies old)
                      (merge_sort by_entity (map_to_list (deps : gmap EntityId (DependencyRecord D)))) in
         Ok old) with
  | Err e => refuse m h e
  | Ok old =>
      if dependencies_eq deps (hf_dependencies old) then Some (pm_work m, h, Ok tt)
      else
        match (let? n := dependency_bytes deps in
               let? _u := reserve m n in
               frame_parts_bytes (hf_state old) (hf_input old) deps (hf_events old)) with
        | Err e => refuse m h e
        | Ok size =>
            match checked_sub (gh_bytes h) (hf_bytes old) with
            | None => None
            | Some n =>
                Some (pm_work m,
                      h <| gh_frames := <[tick := old <| hf_dependencies := deps |> <| hf_bytes := size |>]>
                                          (gh_frames h) |>
                        <| gh_bytes := n + size |>
                        <| gh_dirty_from := Some match gh_dirty_from h with
                                                 | Some d => N.min d tick
                                                 | None => tick
                                                 end |>,
                      Ok tt)
            end
        end
  end.

Definition update_dependencies (m : PredictionManager) (group : GroupId) (tick : ServerTick)
    (deps : DependencyFrame D) : option (PredictionManager * result PredictionError unit) :=
  with_group m group (update_in tick deps).

(** ** Reconciling with a checkpoint *)

(** [while first < tick { pop_first }]: at most one round per frame. *)
Fixpoint retire_before (rounds : nat) (tick : ServerTick) (frames : gmap ServerTick HistoryFrame) (bytes : N)
  : option (gmap ServerTick HistoryFrame * N) :=
  match rounds with
  | O => Some (frames, bytes)
  | S rounds =>
      match first_key frames with
      | None => Some (frames, bytes)
      | Some t =>
          if decide (t < tick) then
            match frames !! t with
            | None => None
            | Some f =>
                match checked_sub bytes (hf_bytes f) with
                | None => None
                | Some bytes => retire_before rounds tick (delete t frames) bytes
                end
            end
          else Some (frames, bytes)
      end
  end.

(** The history with everything before the checkpoint retired. *)
Definition settle (h : GroupHistory) (tick : ServerTick) (snapshot : SnapshotId) : option GroupHistory :=
  match retire_before (size (gh_frames h)) tick (gh_frames h) (gh_bytes h) with
  | None => None
  | Some (frames, bytes) =>
      Some (h <| gh_frames := frames |> <| gh_bytes := bytes |> <| gh_last_snapshot := snapshot |>
              <| gh_last_checkpoint := tick |>)
  end.

(** A replayed tick: its number, state, events and charge. *)
Definition staged_frame : Type := ServerTick * St * gset ActionKey * N.

(** The replay loop over [n] ticks after [tick], from the last staged state. An error is either
    a recovery or, for the charge alone, a plain refusal. *)
Fixpoint replay (m : PredictionManager) (h : GroupHistory) (binding : PredictionBinding) (n : nat)
    (tick : ServerTick) (previous : St) : RecoveryReason + PredictionError + list staged_frame :=
  match n with
  | O => inr []
  | S n =>
      let tick := tick + 1 in
      match gh_frames h !! tick with
      | None => inl (inl MissingHistory)
      | Some frame =>
          match hf_input frame with
          | None => inl (inl MissingHistory)
          | Some input =>
              match validate_dependencies m binding previous (input_command input) (hf_dependencies frame) with
              | Err e => inl (inl (recovery_reason e MissingDependency))
              | Ok _ =>
                  match step_input previous tick input (hf_dependencies frame) with
                  | Err e => inl (inl (recovery_reason e InvalidStateRecovery))
                  | Ok (state, events) =>
                      if negb (is_ok (validate_state m state))
                         || negb (valid_events m (os_epoch (pb_owner binding)) events)
                      then inl (inl InvalidStateRecovery)
                      else
                        match frame_parts_bytes state (hf_input frame) (hf_dependencies frame) events with
                        | Err e => inl (inr e)
                        | Ok bytes =>
                            match replay m h binding n tick state with
                            | inl stop => inl stop
                            | inr staged => inr ((tick, state, events, bytes) :: staged)
                            end
                        end
                  end
              end
          end
      end
  end.

(** Writing one staged frame into the history. *)
Definition commit_frame (checkpoint : ServerTick) (acc : option (gmap ServerTick HistoryFrame * N))
    (s : staged_frame) : option (gmap ServerTick HistoryFrame * N) :=
  match acc with
  | None => None
  | Some (frames, total) =>
      let '(tick, state, events, bytes) := s in
      match frames !! tick with
      | None => None
      | Some f =>
          match checked_sub total (hf_bytes f) with
          | None => None
          | Some n =>
              let input := if decide (tick = checkpoint) then None else hf_input f in
              Some (<[tick := mkHistoryFrame state input (hf_dependencies f) events bytes]> frames, n + bytes)
          end
      end
  end.

Definition events_between (h : GroupHistory) (after through : ServerTick) : gset ActionKey :=
  ⋃ ((fun tf => hf_events tf.2)
       <$> filter (fun tf => after < tf.1 /\ tf.1 <= through) (map_to_list (gh_frames h))).

(** The correction committed: no published state changed before. *)
Definition commit_replay (m : PredictionManager) (h : GroupHistory) (checkpoint predicted : ServerTick)
    (snapshot : SnapshotId) (decoded : DecodedPrediction St D) (bytes : N) (staged : list staged_frame)
  : option (group_result Correction) :=
  let old_events := events_between h checkpoint predicted in
  let new_events := ⋃ ((fun s : staged_frame => s.1.2) <$> staged) in
  match foldl (commit_frame checkpoint) (Some (gh_frames h, gh_bytes h))
          ((checkpoint, dp_state decoded, ∅, bytes) :: staged) with
  | None => None
  | Some (frames, total) =>
      match frames !! checkpoint with
      | None => None
      | Some f =>
          let h := h <| gh_frames := <[checkpoint := f <| hf_dependencies := dp_dependencies decoded |>]> frames |>
                     <| gh_bytes := total |> in
          match settle h checkpoint snapshot with
          | None => None
          | Some h =>
              Some (pm_work m, h <| gh_dirty_from := None |>,
                    Ok (if decide (predicted - checkpoint = 0) then CorrectionReplaced
                        else CorrectionReplayed (checkpoint + 1) predicted
                               (mkEventChanges (new_events ∖ old_events) (old_events ∖ new_events))))
          end
      end
  end.

(** A checkpoint that agrees with the prediction is kept as it is. *)
Definition keep_checkpoint (m : PredictionManager) (h : GroupHistory) (checkpoint : ServerTick)
    (snapshot : SnapshotId) (decoded : DecodedPrediction St D) (frame : HistoryFrame)
  : option (group_result Correction) :=
  match frame_parts_bytes (dp_state decoded) None (dp_dependencies decoded) ∅ with
  | Err e => refuse m h e
  | Ok size =>
      match checked_sub (gh_bytes h) (hf_bytes frame) with
      | None => None
      | Some n =>
          let h := h <| gh_frames := <[checkpoint := mkHistoryFrame (dp_state decoded) None (dp_dependencies decoded) ∅ size]>
                                       (gh_frames h) |>
                     <| gh_bytes := n + size |> in
          match settle h checkpoint snapshot with
          | None => None
          | Some h => Some (pm_work m, h, Ok CorrectionEqual)
          end
      end
  end.

(** [None] is the overflow of [replay_ticks + 1]. *)
Definition replay_scratch (m : PredictionManager) (ticks : N) : option (result PredictionError N) :=
  match (let? e := event_scratch m 5 in
         let? n := ok_or (checked_add usize_max (pl_checkpoint_bytes (pm_limits m)) e) PCapacity in
         ok_or (checked_add usize_max n ENTRY_OVERHEAD) PCapacity) with
  | Err e => Some (Err e)
  | Ok per_frame =>
      match checked_add usize_max ticks 1 with
      | None => None
      | Some rounds =>
          Some (let? n := ok_or (checked_mul usize_max rounds per_frame) PCapacity in
                ok_or (checked_add usize_max n (pl_dependency_bytes (pm_limits m))) PCapacity)
      end
  end.

(** The replay within its budgets, charged before it steps. *)
Definition replay_from (m : PredictionManager) (h : GroupHistory) (binding : PredictionBinding)
    (checkpoint predicted : ServerTick) (snapshot : SnapshotId) (decoded : DecodedPrediction St D)
  : option (group_result Correction) :=
  match checked_sub predicted checkpoint with
  | None => None
  | Some ticks =>
      match (let? ticks := ok_or (try_from usize_max ticks) PCapacity in
             ok_or (checked_mul usize_max ticks (N.of_nat (size (pi_scopes (gh_identity h))))) PCapacity) with
      | Err e => refuse m h e
      | Ok steps =>
          if exceeds (checked_add usize_max (replay_ticks (pm_work m)) ticks) (pl_replay_ticks_per_frame (pm_limits m))
             || exceeds (checked_add usize_max (replay_entity_steps (pm_work m)) steps)
                  (pl_replay_entity_steps_per_frame (pm_limits m))
          then recover m h ReplayBudget
          else
            match replay_scratch m ticks with
            | None => None
            | Some (Err e) => refuse m h e
            | Some (Ok scratch) =>
                if negb (is_ok (reserve m scratch)) then recover m h MemoryBudget
                else
                  let m := m <| pm_work := (pm_work m)
                                  <| replay_ticks := replay_ticks (pm_work m) + ticks |>
                                  <| replay_entity_steps := replay_entity_steps (pm_work m) + steps |> |> in
                  match frame_parts_bytes (dp_state decoded) None (dp_dependencies decoded) ∅ with
                  | Err e => refuse m h e
                  | Ok bytes =>
                      match replay m h binding (N.to_nat ticks) checkpoint (dp_state decoded) with
                      | inl (inl reason) => recover m h reason
                      | inl (inr e) => refuse m h e
                      | inr staged => commit_replay m h checkpoint predicted snapshot decoded bytes staged
                      end
                  end
            end
      end
  end.

Definition reconcile_in (proof : PublishedGroup W) (binding : PredictionBinding) (finalized : ServerTick)
    (m : PredictionManager) (h : GroupHistory) : option (group_result Correction) :=
  let publication := pg_publication proof in
  let checkpoint := pg_end_tick proof in
  match (let? _u := require_frame m in active h) with
  | Err e => refuse m h e
  | Ok _ =>
      if decide (gp_revision publication < pi_group_revision (gh_identity h)
                 \/ (gp_revision publication = pi_group_revision (gh_identity h)
                     /\ gp_snapshot publication <= gh_last_snapshot h)
                 \/ checkpoint < gh_last_checkpoint h)
      then Some (pm_work m, h, Ok CorrectionStale)
      else if decide (gp_revision publication <> pi_group_revision (gh_identity h)
                      \/ binding <> pi_binding (gh_identity h)
                      \/ list_to_set (pg_manifest proof) <> pi_scopes (gh_identity h))
      then recover m h IdentityChanged
      else
        match newest h with
        | None => None
        | Some (predicted, _) =>
            if decide (predicted < checkpoint) then recover m h CheckpointAhead
            else if decide (finalized < checkpoint) then refuse m h PInvalidCommand
            else
              match gh_frames h !! checkpoint with
              | None => recover m h MissingHistory
              | Some at_checkpoint =>
                  match ok_or (checked_add usize_max (pl_checkpoint_bytes (pm_limits m))
                                 (pl_dependency_bytes (pm_limits m))) PCapacity with
                  | Err e => refuse m h e
                  | Ok scratch =>
                      if negb (is_ok (reserve m scratch)) then recover m h MemoryBudget
                      else
                        match decode_group proof binding with
                        | Err e => recover m h (recovery_reason e InvalidStateRecovery)
                        | Ok decoded =>
                            if negb (is_ok (validate_state m (dp_state decoded))) then recover m h InvalidStateRecovery
                            else
                              match validate_dependencies m binding (dp_state decoded) None (dp_dependencies decoded) with
                              | Err e => recover m h (recovery_reason e MissingDependency)
                              | Ok _ =>
                                  if negb (payload_eq (dp_state decoded) (hf_state at_checkpoint))
                                     || negb (dependencies_eq (dp_dependencies decoded) (hf_dependencies at_checkpoint))
                                     || is_some (gh_dirty_from h)
                                  then replay_from m h binding checkpoint predicted (gp_snapshot publication) decoded
                                  else keep_checkpoint m h checkpoint (gp_snapshot publication) decoded at_checkpoint
                              end
                        end
                  end
              end
        end
  end.

Definition reconcile (m : PredictionManager) (proof : PublishedGroup W) (binding : PredictionBinding)
    (finalized : ServerTick) : option (PredictionManager * result PredictionError Correction) :=
  if decide (gp_connection (pg_publication proof) <> pm_connection m) then Some (m, Err PInvalidIdentity)
  else with_group m (gp_group (pg_publication proof)) (reconcile_in proof binding finalized).

(** ** Revocation *)

Definition depends_on (h : GroupHistory) (scope : ScopeIdentity) : bool :=
  bool_decide (scope ∈ pi_scopes (gh_identity h))
  || existsb (fun tf => existsb (fun er => bool_decide (dr_scope er.2 = scope))
                          (map_to_list (hf_dependencies tf.2 : gmap EntityId (DependencyRecord D))))
       (map_to_list (gh_frames h)).

Definition revoke_scope (m : PredictionManager) (scope : ScopeIdentity) : PredictionManager :=
  m <| pm_groups := (fun h => if depends_on h scope then h <| gh_recovery := Some DisclosureRevoked |> else h)
                      <$> pm_groups m |>.

(** ** Replacing groups *)

(** The retired identities are distinct and exactly the current ones; their groups. *)
Fixpoint check_retired (m : PredictionManager) (retiring : gset GroupId) (l : list PredictionIdentity)
  : result PredictionError (gset GroupId) :=
  match l with
  | [] => Ok retiring
  | id :: l =>
      if decide (pi_group id ∈ retiring \/ manager_identity m (pi_group id) <> Some id) then Err PInvalidIdentity
      else check_retired m ({[pi_group id]} ∪ retiring) l
  end.

Definition scopes_total (l : list PredictionIdentity) : N :=
  foldr (fun id acc => N.of_nat (size (pi_scopes id)) + acc) 0 l.

Fixpoint manifests_total (count : N) (l : list (PublishedGroup W * PredictionBinding)) : result PredictionError N :=
  match l with
  | [] => Ok count
  | pb :: l =>
      let? count := ok_or (checked_add usize_max count (len (pg_manifest pb.1))) PCapacity in
      manifests_total count l
  end.

(** The fences with the retired groups recorded. *)
Fixpoint record_retired (m : PredictionManager) (t : TopologyFences) (l : list PredictionIdentity)
  : option TopologyFences :=
  match l with
  | [] => Some t
  | id :: l =>
      match pm_groups m !! pi_group id with
      | None => None
      | Some h => record_retired m (topology_record t id (gh_last_snapshot h) (gh_last_checkpoint h)) l
      end
  end.

(** A replacement against one retired group. *)
Definition check_succession (m : PredictionManager) (tick : ServerTick) (proof : PublishedGroup W)
    (binding : PredictionBinding) (old : PredictionIdentity) : option (result PredictionError unit) :=
  match pm_groups m !! pi_group old with
  | None => None
  | Some h =>
      Some (if decide (tick < gh_last_checkpoint h) then Err PWrongTick
            else if decide (pb_scene_revision binding < pb_scene_revision (pi_binding old)
                            \/ (gp_group (pg_publication proof) = pi_group old
                                /\ (gp_revision (pg_publication proof) <= pi_group_revision old
                                    \/ gp_snapshot (pg_publication proof) <= gh_last_snapshot h)))
            then Err PInvalidIdentity
            else if bool_decide (index (os_owner (pb_owner binding)) = index (os_owner (pb_owner (pi_binding old))))
                    && owner_regresses (pi_binding old) binding
            then Err PInvalidIdentity
            else if existsb (fun new =>
                      existsb (fun previous =>
                        bool_decide (index (scope_entity previous) = index (scope_entity new))
                        && scope_regresses previous new) (scope_list (pi_scopes old))) (pg_manifest proof)
            then Err PInvalidIdentity
            else Ok tt)
  end.

Fixpoint check_successions (m : PredictionManager) (tick : ServerTick) (proof : PublishedGroup W)
    (binding : PredictionBinding) (l : list PredictionIdentity) : option (result PredictionError unit) :=
  match l with
  | [] => Some (Ok tt)
  | old :: l =>
      match check_succession m tick proof binding old with
      | Some (Ok _) => check_successions m tick proof binding l
      | stop => stop
      end
  end.

Definition check_replacement (m : PredictionManager) (t : TopologyFences) (retiring : gset GroupId)
    (retired : list PredictionIdentity) (tick : ServerTick) (proof : PublishedGroup W)
    (binding : PredictionBinding) : option (result PredictionError unit) :=
  match topology_validate t proof binding with
  | Err e => Some (Err e)
  | Ok _ =>
      if decide (pg_end_tick proof <> tick) then Some (Err PWrongTick)
      else if is_some (pm_groups m !! gp_group (pg_publication proof))
              && negb (bool_decide (gp_group (pg_publication proof) ∈ retiring))
      then Some (Err PInvalidIdentity)
      else
        match check_successions m tick proof binding retired with
        | Some (Ok _) =>
            if existsb (fun gh => negb (bool_decide (gh.1 ∈ retiring))
                                  && shares_entity (pi_scopes (gh_identity gh.2)) (pg_manifest proof))
                 (map_to_list (pm_groups m))
            then Some (Err PInvalidIdentity)
            else Some (Ok tt)
        | stop => stop
        end
  end.

Fixpoint check_replacements (m : PredictionManager) (t : TopologyFences) (retiring : gset GroupId)
    (retired : list PredictionIdentity) (tick : ServerTick) (l : list (PublishedGroup W * PredictionBinding))
  : option (result PredictionError unit) :=
  match l with
  | [] => Some (Ok tt)
  | (proof, binding) :: l =>
      match check_replacement m t retiring retired tick proof binding with
      | Some (Ok _) => check_replacements m t retiring retired tick l
      | stop => stop
      end
  end.

(** The replacements decoded into a manager of their own. *)
Fixpoint stage_replacements (m : PredictionManager) (l : list (PublishedGroup W * PredictionBinding))
  : result PredictionError PredictionManager :=
  match l with
  | [] => Ok m
  | (proof, binding) :: l =>
      match initialize m proof binding with
      | (_, Err e) => Err e
      | (m, Ok _) => stage_replacements m l
      end
  end.

(** The histories of a manager in the order of the map. *)
Definition by_group_id (a b : GroupId * GroupHistory) : Prop := a.1 <= b.1.
#[export] Instance by_group_id_dec a b : Decision (by_group_id a b).
Proof. unfold by_group_id. apply _. Defined.
Definition histories (m : PredictionManager) : list GroupHistory :=
  (merge_sort by_group_id (map_to_list (pm_groups m))).*2.
Definition record_staged (t : TopologyFences) (staged : PredictionManager) : TopologyFences :=
  foldl (fun t h => topology_record t (gh_identity h) (gh_last_snapshot h) (gh_last_checkpoint h)) t
    (histories staged).

Definition frames_after (h : GroupHistory) (tick : ServerTick) : list HistoryFrame :=
  snd <$> filter (fun tf => tick < tf.1) (map_to_list (gh_frames h)).

(** The number of events the retired groups predicted after the tick; [None] is a missing group. *)
Fixpoint count_events (m : PredictionManager) (tick : ServerTick) (count : N) (l : list PredictionIdentity)
  : option (result PredictionError N) :=
  match l with
  | [] => Some (Ok count)
  | id :: l =>
      match pm_groups m !! pi_group id with
      | None => None
      | Some h =>
          match foldl (fun acc f => let? n := acc in
                         ok_or (checked_add usize_max n (N.of_nat (size (hf_events f)))) PCapacity)
                  (Ok count) (frames_after h tick) with
          | Err e => Some (Err e)
          | Ok count => count_events m tick count l
          end
      end
  end.

(** Events that only the discarded future of the retired groups had. *)
Definition canceled_events (m : PredictionManager) (retiring : gset GroupId) (retired : list PredictionIdentity)
    (tick : ServerTick) : gset ActionKey :=
  let future := ⋃ ((fun id => match pm_groups m !! pi_group id with
                              | Some h => ⋃ (hf_events <$> frames_after h tick)
                              | None => ∅
                              end) <$> retired) in
  let kept := ⋃ ((fun gh : GroupId * GroupHistory =>
                    ⋃ ((fun tf => hf_events tf.2)
                         <$> filter (fun tf => gh.1 ∉ retiring \/ tf.1 <= tick) (map_to_list (gh_frames gh.2))))
                   <$> map_to_list (pm_groups m)) in
  future ∖ kept.

Fixpoint remove_groups (m : PredictionManager) (l : list PredictionIdentity) : option PredictionManager :=
  match l with
  | [] => Some m
  | id :: l =>
      match remove_group m (pi_group id) with
      | Some (m, _) => remove_groups m l
      | None => None
      end
  end.

(** What the checks of [replace_groups] leave for the staging. *)
Record ReplacePlan := mkReplacePlan {
  rp_retiring : gset GroupId;
  rp_tick : ServerTick;
  rp_added : N;
  rp_metadata : N;
  rp_fence_scratch : N;
  rp_fences : TopologyFences;
}.

Definition plan_budget (m : PredictionManager) (retired : list PredictionIdentity)
    (replacements : list (PublishedGroup W * PredictionBinding)) (removed added metadata : N)
  : result PredictionError N :=
  let? groups := ok_or (match checked_add usize_max (N.of_nat (size (tf_groups (pm_topology m)))) (len retired) with
                        | Some n => checked_add usize_max n (len replacements)
                        | None => None
                        end) PCapacity in
  let? members := ok_or (match checked_add usize_max (N.of_nat (size (tf_members (pm_topology m)))) removed with
                         | Some n => checked_add usize_max n added
                         | None => None
                         end) PCapacity in
  let? scratch := topology_bytes_for groups members in
  let? n := ok_or (checked_add usize_max metadata scratch) PCapacity in
  let? _u := reserve m n in
  Ok scratch.

Definition plan_replacement (m : PredictionManager) (retired : list PredictionIdentity)
    (replacements : list (PublishedGroup W * PredictionBinding)) : option (result PredictionError ReplacePlan) :=
  match (let? _u := require_frame m in
         if decide (retired = [] \/ len replacements = 0 \/ pl_groups (pm_limits m) < len retired
                    \/ pl_groups (pm_limits m) < len replacements)
         then Err PCapacity
         else
           let? metadata := ok_or (match checked_mul usize_max (len retired) (ENTRY_OVERHEAD + size_GroupId) with
                                   | Some n => checked_add usize_max n size_PredictionManager
                                   | None => None
                                   end) PCapacity in
           let? _u := reserve m metadata in
           let? retiring := check_retired m ∅ retired in
           Ok (metadata, retiring)) with
  | Err e => Some (Err e)
  | Ok (metadata, retiring) =>
      match replacements, checked_sub (N.of_nat (size (pm_groups m))) (len retired) with
      | (first, _) :: _, Some left_over =>
          let tick := pg_end_tick first in
          if decide (pl_groups (pm_limits m) < left_over + len replacements) then Some (Err PCapacity)
          else
            match manifests_total 0 replacements with
            | Err e => Some (Err e)
            | Ok added =>
                match checked_sub (pm_entities m) (scopes_total retired) with
                | None => None
                | Some others =>
                    if exceeds (checked_add usize_max others added) (pl_total_entities (pm_limits m))
                    then Some (Err PCapacity)
                    else
                      match plan_budget m retired replacements (scopes_total retired) added metadata with
                      | Err e => Some (Err e)
                      | Ok scratch =>
                          match record_retired m (pm_topology m) retired with
                          | None => None
                          | Some fences =>
                              match check_replacements m fences retiring retired tick replacements with
                              | None => None
                              | Some (Err e) => Some (Err e)
                              | Some (Ok _) => Some (Ok (mkReplacePlan retiring tick added metadata scratch fences))
                              end
                          end
                      end
                end
            end
      | _, _ => None
      end
  end.

(** The staged groups and the fences with them, within the caps. *)
Definition stage_plan (m : PredictionManager) (retired : list PredictionIdentity)
    (replacements : list (PublishedGroup W * PredictionBinding)) (p : ReplacePlan)
  : option (result PredictionError (PredictionManager * TopologyFences)) :=
  match (let? fresh := Manager_new (pm_connection m) (pm_limits m) in
         stage_replacements (fresh <| pm_bytes := pm_bytes m + rp_metadata p + rp_fence_scratch p |>) replacements) with
  | Err e => Some (Err e)
  | Ok staged =>
      let fences := record_staged (rp_fences p) staged in
      let over cap count := match checked_mul usize_max cap (pl_history_ticks (pm_limits m) + 1) with
                            | Some n => bool_decide (n < count)
                            | None => true
                            end in
      if over (pl_groups (pm_limits m)) (N.of_nat (size (tf_groups fences)))
         || over (pl_total_entities (pm_limits m)) (N.of_nat (size (tf_members fences)))
      then Some (Err PCapacity)
      else
        match count_events m (rp_tick p) 0 retired with
        | None => None
        | Some (Err e) => Some (Err e)
        | Some (Ok events) =>
            Some (let? n := ok_or (checked_mul usize_max events (ENTRY_OVERHEAD + size_ActionKey)) PCapacity in
                  let? _u := reserve staged n in
                  Ok (staged, fences))
        end
  end.

Definition replace_groups (m : PredictionManager) (retired : list PredictionIdentity)
    (replacements : list (PublishedGroup W * PredictionBinding))
  : option (PredictionManager * result PredictionError AuthoritativeRebase) :=
  match plan_replacement m retired replacements with
  | None => None
  | Some (Err e) => Some (m, Err e)
  | Some (Ok p) =>
      match stage_plan m retired replacements p with
      | None => None
      | Some (Err e) => Some (m, Err e)
      | Some (Ok (staged, fences)) =>
          match checked_sub (pm_bytes staged) (pm_bytes m + rp_metadata p + rp_fence_scratch p),
                remove_groups m retired, topology_bytes (pm_topology m), topology_bytes fences with
          | Some staged_bytes, Some m', Some old_fences, Some new_fences =>
              match checked_sub (pm_bytes m') old_fences with
              | None => None
              | Some n =>
                  Some (m' <| pm_groups := pm_groups staged ∪ pm_groups m' |>
                           <| pm_bytes := n + staged_bytes + new_fences |>
                           <| pm_topology := fences |>
                           <| pm_entities := pm_entities m' + rp_added p |>,
                        Ok (mkAuthoritativeRebase (rp_tick p)
                              (mkEventChanges ∅ (canceled_events m (rp_retiring p) retired (rp_tick p)))))
              end
          | _, _, _, _ => None
          end
      end
  end.
End Manager.
Arguments HistoryFrame : clear implicits.
Arguments GroupHistory : clear implicits.
Arguments PredictionManager : clear implicits.
