(* ===== verification/PredictionFacts.v ===== *)
(** * Correctness of prediction histories

    Histories as unbroken runs of ticks, what each operation does to one, and the invariant of
    the manager that owns them. *)

From S2P Require Import Prelude Types InterestModel Payload Commands Replication Groups Prediction.
Local Open Scope N_scope.
Local Open Scope engine_scope.

(** ** Maps over an unbroken run of ticks *)

Section Spans.
Context {A : Type}.
Implicit Types (m : gmap N A) (t : N).

Lemma extreme_key_spec (pick : N -> N -> N) (le : relation N) `{!Reflexive le, !Transitive le} m t :
  (forall a b, le b a -> le a b -> a = b) ->
  (forall a b, (pick a b = a \/ pick a b = b) /\ le (pick a b) a /\ le (pick a b) b) ->
  extreme_key pick m = Some t <-> is_Some (m !! t) /\ forall t', is_Some (m !! t') -> le t t'.
Proof.
  intros Hanti Hpick. unfold extreme_key. set (f := fun (ka : N * A) acc => Some match acc with Some k => pick ka.1 k | None => ka.1 end).
  assert (forall l, foldr f None l = None -> l = []) as Hnil by (intros [| ? ?]; done).
  assert (forall l k, foldr f None l = Some k -> k ∈ l.*1 /\ forall k', k' ∈ l.*1 -> le k k') as Hl.
  { induction l as [| [k0 a0] l IH]; simpl; intros k; [done |]. intros [= Hk].
    destruct (foldr f None l) as [k1 |] eqn:Hf.
    - destruct (IH k1 eq_refl) as [Hin Hmin]. destruct (Hpick k0 k1) as (Hone & H0 & H1). rewrite Hk in *. split.
      + destruct Hone as [-> | ->]; [by left | by right].
      + intros k' [-> | Hk']%elem_of_cons; [done |]. transitivity k1; auto.
    - apply Hnil in Hf. subst. split; [by left |]. by intros k' [-> | ?%elem_of_nil]%elem_of_cons. }
  assert (forall k, k ∈ (map_to_list m).*1 <-> is_Some (m !! k)) as Hkeys.
  { intros k. rewrite list_elem_of_fmap. split.
    - intros ([k' a] & -> & Ha%elem_of_map_to_list). by exists a.
    - intros [a Ha]. exists (k, a). by rewrite elem_of_map_to_list. }
  split.
  - intros [Hin Hmin]%Hl. rewrite Hkeys in Hin. split; [done |]. intros t' Ht'. by apply Hmin, Hkeys.
  - intros [Hin Hmin]. destruct (foldr f None (map_to_list m)) as [k |] eqn:Hf.
    + apply Hl in Hf as [Hk Hkmin]. rewrite Hkeys in Hk. f_equal. apply Hanti; [by apply Hmin | by apply Hkmin, Hkeys].
    + apply Hnil in Hf. apply Hkeys in Hin. rewrite Hf in Hin. by apply elem_of_nil in Hin.
Qed.

Lemma last_key_spec m t :
  last_key m = Some t <-> is_Some (m !! t) /\ forall t', is_Some (m !! t') -> t' <= t.
Proof.
  assert (Reflexive (fun a b => b <= a)) by (intros a; lia).
  assert (Transitive (fun a b => b <= a)) by (intros a b c; lia).
  apply (extreme_key_spec N.max (fun a b => b <= a)); lia.
Qed.

Lemma first_key_spec m t :
  first_key m = Some t <-> is_Some (m !! t) /\ forall t', is_Some (m !! t') -> t <= t'.
Proof. apply (extreme_key_spec N.min N.le); lia. Qed.

(** The ticks from [first] to [last], and no other. *)
Definition spans m (first last : N) : Prop :=
  first <= last /\ forall t, is_Some (m !! t) <-> first <= t <= last.

Lemma spans_keys m first last : spans m first last -> first_key m = Some first /\ last_key m = Some last.
Proof.
  intros [Hle H]. rewrite first_key_spec, last_key_spec. split; (split; [apply H; lia | intros t' Ht'%H; lia]).
Qed.

Lemma spans_size m first last : spans m first last -> N.of_nat (size m) = last - first + 1.
Proof.
  intros [Hle H]. set (l := (fun i => first + N.of_nat i) <$> seq 0 (N.to_nat (last - first + 1))).
  assert (NoDup l) as Hnd by (apply NoDup_fmap; [intros i j; lia | apply NoDup_seq]).
  assert (dom m = list_to_set (C:=gset N) l) as Hdom.
  { apply set_eq. intros t. rewrite elem_of_dom, H, elem_of_list_to_set. unfold l. rewrite list_elem_of_fmap. split.
    - intros Ht. exists (N.to_nat (t - first)). rewrite elem_of_seq. lia.
    - intros (i & -> & Hi%elem_of_seq). lia. }
  rewrite <- size_dom, Hdom, size_list_to_set by done. unfold l. rewrite length_fmap, length_seq. lia.
Qed.

Lemma spans_agree m a b a' b' : spans m a b -> spans m a' b' -> a = a' /\ b = b'.
Proof.
  intros H1 H2. destruct (spans_keys _ _ _ H1) as [F1 L1], (spans_keys _ _ _ H2) as [F2 L2]. split; congruence.
Qed.

(** What is left from a tick on. *)
Definition from_tick m (t : N) : gmap N A := filter (fun ka => t <= ka.1) m.

Lemma from_tick_lookup m t t' a : from_tick m t !! t' = Some a <-> m !! t' = Some a /\ t <= t'.
Proof. apply map_lookup_filter_Some. Qed.

Lemma spans_from m first last t : spans m first last -> t <= last -> spans (from_tick m t) (N.max first t) last.
Proof.
  intros [Hle H] Ht. split; [lia |]. intros t'. specialize (H t'). split.
  - intros [a [Ha Hge]%from_tick_lookup]. assert (is_Some (m !! t')) as Hs by eauto. apply H in Hs. lia.
  - intros Hr. destruct (proj2 H) as [a Ha]; [lia |]. exists a. apply from_tick_lookup. split; [done | lia].
Qed.

Lemma from_tick_id m t : (forall t', is_Some (m !! t') -> t <= t') -> from_tick m t = m.
Proof. intros H. apply map_filter_id. intros t' a Ha. apply H. by exists a. Qed.

Lemma from_tick_delete m t : first_key m = Some t -> delete t m = from_tick m (t + 1).
Proof.
  intros [_ Hmin]%first_key_spec. apply map_eq. intros t'. apply option_eq. intros a.
  rewrite lookup_delete_Some, from_tick_lookup. split; [| intros [? ?]; split; [lia | done]].
  intros [Hne Ha]. split; [done |]. specialize (Hmin t' (ex_intro _ a Ha)). lia.
Qed.

Lemma from_tick_twice m t t' : t <= t' -> from_tick (from_tick m t) t' = from_tick m t'.
Proof.
  intros Hle. apply map_eq. intros k. apply option_eq. intros a. rewrite !from_tick_lookup. split; [tauto |].
  intros [? ?]. split; [split; [done | lia] | done].
Qed.

Lemma spans_insert_last m first last a : spans m first last -> spans (<[last + 1 := a]> m) first (last + 1).
Proof.
  intros [Hle H]. split; [lia |]. intros t. specialize (H t). destruct (decide (t = last + 1)) as [-> | Hne].
  - rewrite lookup_insert_eq. split; [intros _; lia | intros _; by eexists].
  - rewrite lookup_insert_ne by done. rewrite H. lia.
Qed.

Lemma spans_replace m first last t a : spans m first last -> is_Some (m !! t) -> spans (<[t := a]> m) first last.
Proof.
  intros [Hle H] Ht. split; [done |]. intros t'. destruct (decide (t' = t)) as [-> | Hne].
  - rewrite lookup_insert_eq. rewrite <- H. split; [done | intros _; by eexists].
  - by rewrite lookup_insert_ne.
Qed.
End Spans.

Section Histories.
Context `{LA : !Layout}.
Context {W St C D : Type} `{PW : !Payload W, PS : !Payload St, PC : !Payload C, PD : !Payload D}.
Context `{model : !PredictionModel W St C D}.
Implicit Types (frames : gmap ServerTick (HistoryFrame St C D)) (h : GroupHistory St C D)
  (m : PredictionManager St C D).

(** ** Dropping the oldest frames *)

Lemma pop_oldest frames a b :
  spans frames a b -> a < b ->
  exists f, first_key frames = Some a /\ frames !! a = Some f
    /\ map_sum hf_bytes frames = hf_bytes f + map_sum hf_bytes (delete a frames)
    /\ spans (delete a frames) (a + 1) b /\ delete a frames = from_tick frames (a + 1)
    /\ (size frames = S (size (delete a frames)))%nat.
Proof.
  intros Hs Hlt. destruct (spans_keys _ _ _ Hs) as [Hfirst _]. destruct (proj2 (proj2 Hs a)) as [f Hf]; [lia |].
  exists f. split; [done |]. split; [done |]. split; [by apply map_sum_delete |].
  pose proof (from_tick_delete _ _ Hfirst) as Hdel. split.
  { rewrite Hdel. replace (a + 1) with (N.max a (a + 1)) at 2 by lia. apply spans_from; [done | lia]. }
  split; [done |]. rewrite map_size_delete_Some by by exists f.
  pose proof (spans_size _ _ _ Hs). lia.
Qed.

(** The sums before and after frames are dropped. *)
Definition dropped_bytes frames frames' (bytes bytes' : N) : Prop :=
  bytes' + map_sum hf_bytes frames = bytes + map_sum hf_bytes frames'.

Lemma trim_ok rounds keep frames bytes a b :
  spans frames a b -> 1 <= keep -> map_sum hf_bytes frames <= bytes -> (size frames <= rounds)%nat ->
  exists t bytes', trim_history rounds keep frames bytes = Some (from_tick frames t, bytes') /\ t <= b
    /\ N.of_nat (size (from_tick frames t)) <= keep /\ dropped_bytes frames (from_tick frames t) bytes bytes'.
Proof.
  revert frames bytes a. induction rounds as [| rounds IH]; intros frames bytes a Hs Hk Hb Hr; simpl.
  { pose proof (spans_size _ _ _ Hs). lia. }
  destruct (decide _) as [Hlong | Hshort].
  - pose proof (spans_size _ _ _ Hs) as Hsz. pose proof (proj1 Hs).
    destruct (pop_oldest frames a b Hs) as (f & -> & -> & Hsum & Hs' & Hdel & Hsize); [lia |].
    destruct (checked_sub bytes (hf_bytes f)) as [n |] eqn:Hn; [| apply checked_sub_None in Hn; lia].
    apply checked_sub_Some in Hn as [_ ->].
    destruct (IH (delete a frames) (bytes - hf_bytes f) (a + 1) Hs' Hk) as (t & bytes' & -> & Ht & Hsz' & Hd); [lia | lia |].
    assert (a + 1 <= N.max t (a + 1)) as Hmax by lia.
    exists (N.max t (a + 1)), bytes'. rewrite Hdel in *.
    assert (from_tick (from_tick frames (a + 1)) t = from_tick frames (N.max t (a + 1))) as Heq.
    { apply map_eq. intros k. apply option_eq. intros x. rewrite !from_tick_lookup. split; [intros [[? ?] ?] | intros [? ?]]; split_and?; try done; lia. }
    rewrite Heq in *. split; [done |]. split; [destruct Hs'; lia |]. split; [done |]. unfold dropped_bytes in *. lia.
  - exists 0, bytes. assert (from_tick frames 0 = frames) as -> by (apply from_tick_id; lia).
    split; [done |]. split; [lia |]. split; [lia | done].
Qed.

Lemma retire_ok rounds tick frames bytes a b :
  spans frames a b -> tick <= b -> map_sum hf_bytes frames <= bytes -> (size frames <= rounds)%nat ->
  exists bytes', retire_before rounds tick frames bytes = Some (from_tick frames tick, bytes')
    /\ dropped_bytes frames (from_tick frames tick) bytes bytes'.
Proof.
  revert frames bytes a. induction rounds as [| rounds IH]; intros frames bytes a Hs Ht Hb Hr; simpl.
  { pose proof (spans_size _ _ _ Hs). lia. }
  destruct (spans_keys _ _ _ Hs) as [Hfirst _]. rewrite Hfirst. destruct (decide (a < tick)) as [Hlt | Hge].
  - destruct (pop_oldest frames a b Hs) as (f & _ & -> & Hsum & Hs' & Hdel & Hsize); [lia |].
    destruct (checked_sub bytes (hf_bytes f)) as [n |] eqn:Hn; [| apply checked_sub_None in Hn; lia].
    apply checked_sub_Some in Hn as [_ ->].
    destruct (IH (delete a frames) (bytes - hf_bytes f) (a + 1) Hs' Ht) as (bytes' & -> & Hd); [lia | lia |].
    exists bytes'. rewrite Hdel in *. rewrite from_tick_twice in * by lia. split; [done |]. unfold dropped_bytes in *. lia.
  - exists bytes. rewrite from_tick_id; [done |]. intros t' Ht'. apply (proj2 Hs) in Ht'. lia.
Qed.

Lemma from_tick_sum frames t : map_sum hf_bytes (from_tick frames t) <= map_sum hf_bytes frames.
Proof. apply map_sum_subseteq, map_filter_subseteq. Qed.

(** ** Charges *)

Lemma frame_parts_Ok (state : St) (input : option (ReplayInput C)) (deps : DependencyFrame D) events n :
  frame_parts_bytes state input deps events = Ok n ->
  exists d e, dependency_bytes deps = Ok d /\ event_bytes events = Ok e
    /\ n = size_HistoryFrame + ENTRY_OVERHEAD + retained_bytes state
           + match input with
             | Some i => match input_command i with Some c => retained_bytes c | None => 0 end
             | None => 0
             end + d + e /\ n <= usize_max.
Proof.
  unfold frame_parts_bytes. intros H. set (cmd := match input with Some _ => _ | None => _ end) in *.
  destruct (checked_add usize_max (_ + _) (retained_bytes state)) as [n1 |] eqn:H1; [| done]. simpl in H.
  destruct (checked_add usize_max n1 cmd) as [n2 |] eqn:H2; [| done]. simpl in H.
  destruct (dependency_bytes deps) as [d |]; [| done].
  destruct (checked_add usize_max n2 d) as [n3 |] eqn:H3; [| done]. simpl in H.
  destruct (event_bytes events) as [e |]; [| done].
  destruct (checked_add usize_max n3 e) as [n4 |] eqn:H4; [| done]. simpl in H. injection H as <-.
  apply checked_add_Some in H1 as [-> _], H2 as [-> _], H3 as [-> _], H4 as [-> ?]. exists d, e. split_and!; try done; lia.
Qed.

Lemma reserved_within m n : is_ok (reserve m n) = true -> pm_bytes m + n <= pl_history_bytes (pm_limits m).
Proof.
  unfold reserve. destruct (checked_add _ _ _) as [k |] eqn:Hk; [| done]. apply checked_add_Some in Hk as [-> _].
  destruct (decide _); simpl; [done | lia].
Qed.

Lemma validate_state_Ok m (s : St) :
  is_ok (validate_state m s) = true ->
  valid_state s = true /\ retained_bytes s <= pl_checkpoint_bytes (pm_limits m).
Proof.
  unfold validate_state, payload_bytes. destruct (valid_state s); [| done]. simpl.
  destruct (checked_add _ _ _) as [n |] eqn:Hn; [| done]. apply checked_add_Some in Hn as [-> _]. simpl.
  destruct (decide _); simpl; [done |]. lia.
Qed.

Lemma validate_records_Ok m binding (deps : DependencyFrame D) u :
  validate_dependency_records m binding deps = Ok u ->
  exists d, dependency_bytes deps = Ok d /\ d <= pl_dependency_bytes (pm_limits m).
Proof.
  unfold validate_dependency_records. intros H. destruct (decide _) in H; [done |].
  destruct (dependency_bytes deps) as [d |]; [| done]. destruct (decide _) in H; [done |]. exists d. split; [done | lia].
Qed.

Lemma validate_dependencies_Ok m binding (s : St) command (deps : DependencyFrame D) u :
  validate_dependencies m binding s command deps = Ok u ->
  exists d, dependency_bytes deps = Ok d /\ d <= pl_dependency_bytes (pm_limits m).
Proof.
  unfold validate_dependencies. intros H. destruct (validate_dependency_records m binding deps) as [u' |] eqn:Hr; [| done].
  by eapply validate_records_Ok.
Qed.

(** ** The invariant of a history *)

(** The step into a tick is the model's step with the recorded input and samples. *)
Definition simulated frames (t : ServerTick) : Prop :=
  forall f f', frames !! t = Some f -> frames !! (t + 1) = Some f' ->
  exists input, hf_input f' = Some input
    /\ step_input (hf_state f) (t + 1) input (hf_dependencies f') = Ok (hf_state f', hf_events f').

(** Copies of a state that the model's own comparison called equal, one after the other. *)
Definition same_value : relation St := rtc (fun a b => payload_eq a b = true).

(** The same, but for a checkpoint that was found equal to the prediction: it replaces the state
    it was compared with, and the step after it was made from that one. *)
Definition followed frames (t : ServerTick) : Prop :=
  forall f f', frames !! t = Some f -> frames !! (t + 1) = Some f' ->
  exists input from, hf_input f' = Some input
    /\ same_value (hf_state f) from /\ (is_Some (hf_input f) -> from = hf_state f)
    /\ step_input from (t + 1) input (hf_dependencies f') = Ok (hf_state f', hf_events f').

Lemma simulated_followed frames t : simulated frames t -> followed frames t.
Proof.
  intros Hs f f' Hf Hf'. destruct (Hs f f' Hf Hf') as (input & Hi & Hstep). exists input, (hf_state f).
  by split_and!.
Qed.

Definition unchanged_before (dirty : option ServerTick) (t : ServerTick) : Prop :=
  forall d, dirty = Some d -> t < d.

Definition frame_ok (f : HistoryFrame St C D) : Prop :=
  frame_bytes f = Ok (hf_bytes f) /\ valid_state (hf_state f) = true.

Record history_core h : Prop := {
  hi_span : exists first last, spans (gh_frames h) first last /\ gh_last_checkpoint h <= last
    /\ forall t f, gh_frames h !! t = Some f -> first < t -> is_Some (hf_input f);
  hi_steps : forall t, unchanged_before (gh_dirty_from h) (t + 1) -> followed (gh_frames h) t;
  hi_frames : forall t f, gh_frames h !! t = Some f -> frame_ok f;
  hi_bytes : exists own, identity_bytes (pi_scopes (gh_identity h)) = Ok own
    /\ gh_bytes h = own + map_sum hf_bytes (gh_frames h);
}.

Definition history_inv (l : PredictionLimits) h : Prop :=
  history_core h /\ N.of_nat (size (gh_frames h)) <= pl_history_ticks l + 1.

Lemma from_tick_steps frames t0 t : followed frames t -> followed (from_tick frames t0) t.
Proof. intros Hs f f' [Hf _]%from_tick_lookup [Hf' _]%from_tick_lookup. by apply Hs. Qed.

(** Dropping old frames keeps the invariant. *)
Lemma history_core_from h t bytes :
  history_core h -> (forall first last, spans (gh_frames h) first last -> t <= last) ->
  dropped_bytes (gh_frames h) (from_tick (gh_frames h) t) (gh_bytes h) bytes ->
  history_core (h <| gh_frames := from_tick (gh_frames h) t |> <| gh_bytes := bytes |>).
Proof.
  intros [(first & last & Hs & Hc & Hin) Hst Hfr (own & Hown & Hb)] Ht Hd. constructor; simpl.
  - exists (N.max first t), last. split; [by apply spans_from; [| eapply Ht] |]. split; [done |].
    intros k f [Hf Hge]%from_tick_lookup Hlt. apply (Hin k f Hf). lia.
  - intros k Hk. by apply from_tick_steps, Hst.
  - intros k f [Hf _]%from_tick_lookup. by eapply Hfr.
  - exists own. split; [done |]. unfold dropped_bytes in Hd. lia.
Qed.

Lemma from_tick_size frames t : (size (from_tick frames t) <= size frames)%nat.
Proof. apply map_subseteq_size, map_filter_subseteq. Qed.

(** A tick simulated on top keeps it too. *)
Lemma history_core_extend h first last f new input :
  history_core h -> spans (gh_frames h) first last -> gh_frames h !! last = Some f ->
  hf_input new = Some input -> frame_ok new ->
  step_input (hf_state f) (last + 1) input (hf_dependencies new) = Ok (hf_state new, hf_events new) ->
  history_core (h <| gh_frames := <[last + 1 := new]> (gh_frames h) |> <| gh_bytes := gh_bytes h + hf_bytes new |>).
Proof.
  intros [(first' & last' & Hs' & Hc & Hin) Hst Hfr (own & Hown & Hb)] Hs Hf Hinput Hnew Hstep.
  destruct (spans_agree _ _ _ _ _ Hs' Hs) as [-> ->].
  assert (gh_frames h !! (last + 1) = None) as Hnone.
  { destruct (gh_frames h !! (last + 1)) eqn:Heq; [| done]. assert (is_Some (gh_frames h !! (last + 1))) as Hsome by eauto.
    apply (proj2 Hs) in Hsome. lia. }
  constructor; simpl.
  - exists first, (last + 1). split; [by apply spans_insert_last |]. split; [lia |].
    intros t f' [[<- <-] | [_ Hf']]%lookup_insert_Some Hlt; [by eexists | by eapply Hin].
  - intros t Ht g g' [[Heq <-] | [Hne Hg]]%lookup_insert_Some [[Heq' <-] | [Hne' Hg']]%lookup_insert_Some.
    + lia.
    + exfalso. assert (is_Some (gh_frames h !! (t + 1))) as Hsome by eauto. apply (proj2 Hs) in Hsome. lia.
    + assert (t = last) as -> by lia. assert (g = f) as -> by congruence. exists input, (hf_state f).
      by split_and!.
    + by eapply Hst.
  - intros t g [[<- <-] | [_ Hg]]%lookup_insert_Some; [done | by eapply Hfr].
  - exists own. split; [done |]. rewrite map_sum_insert by done. lia.
Qed.

(** ** What an operation on one group may do *)

Definition work_ok (l : PredictionLimits) (w : PredictionWork) : Prop :=
  replay_ticks w <= pl_replay_ticks_per_frame l /\ replay_entity_steps w <= pl_replay_entity_steps_per_frame l
  /\ predicted_ticks w <= pl_prediction_ticks_per_frame l
  /\ predicted_entity_steps w <= pl_prediction_entity_steps_per_frame l.

(** A failed operation at most flags the group for recovery. *)
Definition failed_as h h' (e : PredictionError) : Prop :=
  h' = h \/ exists reason, h' = h <| gh_recovery := Some reason |> /\ e = PResyncRequired reason.

Record outcome_ok {R} m h (out : group_result R) : Prop := {
  oo_inv : history_inv (pm_limits m) out.1.2;
  oo_identity : gh_identity out.1.2 = gh_identity h;
  oo_budget : pm_bytes m + gh_bytes out.1.2 <= pl_history_bytes (pm_limits m) + gh_bytes h;
  oo_work : work_ok (pm_limits m) out.1.1;
  oo_failed : forall e, out.2 = Err e -> failed_as h out.1.2 e;
}.

(** What the manager guarantees a closure. *)
Record ready m h : Prop := {
  rd_inv : history_inv (pm_limits m) h;
  rd_budget : pm_bytes m <= pl_history_bytes (pm_limits m);
  rd_work : work_ok (pm_limits m) (pm_work m);
  rd_ticks : pl_history_ticks (pm_limits m) < usize_max;
}.

Lemma refuse_ok {R} m h e : ready m h -> exists out, refuse m h e = Some out /\ outcome_ok (R:=R) m h out
  /\ forall x, out.2 = Ok x -> False.
Proof.
  intros [H1 H2 H3 _]. eexists. split; [done |]. split; [| done]. constructor; simpl; try done; [lia |].
  intros e' _. by left.
Qed.

Lemma recover_ok {R} m h reason :
  ready m h -> exists out, recover m h reason = Some out /\ outcome_ok (R:=R) m h out
  /\ forall x, out.2 = Ok x -> False.
Proof.
  intros [[H1 Hsz] H2 H3 _]. eexists. split; [done |]. split; [| done]. constructor; simpl; try done; [| lia |].
  - split; [| done]. destruct H1. by constructor.
  - intros e' [= <-]. right. eauto.
Qed.

(** Close a branch that fails, by the lemma for it. *)
Ltac stops lem :=
  let out := fresh "out" in let Heq := fresh "Heq" in let Ho := fresh "Ho" in let Hf := fresh "Hf" in
  destruct lem as (out & Heq & Ho & Hf); [assumption |]; rewrite Heq; exists out;
  split; [reflexivity |]; split; [exact Ho |]; intros ? Hf'; destruct (Hf _ Hf').

(** ** Predicting *)

(** A new tick on top, with what remains of the old ones as it was. *)
Definition predicted h h' (target : ServerTick) (input : ReplayInput C) (deps : DependencyFrame D)
    (changes : EventChanges) : Prop :=
  exists f, gh_frames h' !! target = Some f /\ hf_input f = Some input /\ hf_dependencies f = deps
    /\ last_key (gh_frames h') = Some target
    /\ (forall t g, t <> target -> gh_frames h' !! t = Some g -> gh_frames h !! t = Some g)
    /\ changes = mkEventChanges (hf_events f ∖ past_events h) ∅
    /\ gh_dirty_from h' = gh_dirty_from h.

Lemma history_sum_le h : history_core h -> map_sum hf_bytes (gh_frames h) <= gh_bytes h.
Proof. intros Hc. destruct (hi_bytes _ Hc) as (own & _ & ->). lia. Qed.

Lemma record_prediction_ok m h first last target input deps sequence previous :
  ready m h -> spans (gh_frames h) first last -> gh_frames h !! last = Some previous -> target = last + 1 ->
  exists out, record_prediction m h target input deps sequence previous = Some out /\ outcome_ok m h out
    /\ forall changes, out.2 = Ok changes -> predicted h out.1.2 target input deps changes.
Proof.
  intros Hr Hs Hprev ->. unfold record_prediction.
  destruct (step_input (hf_state previous) (last + 1) input deps) as [[state events] | e] eqn:Hstep.
  2: stops (recover_ok (R:=EventChanges) m h (recovery_reason e InvalidStateRecovery)).
  destruct (negb _ || negb _) eqn:Hval.
  { stops (recover_ok (R:=EventChanges) m h InvalidStateRecovery). }
  apply orb_false_iff in Hval as [Hval%negb_false_iff _]. apply validate_state_Ok in Hval as [Hvalid _].
  destruct (frame_parts_bytes state (Some input) deps events) as [n | e] eqn:Hn.
  2: stops (refuse_ok (R:=EventChanges) m h e).
  destruct (is_ok (reserve m n)) eqn:Hres; simpl.
  2: stops (recover_ok (R:=EventChanges) m h MemoryBudget).
  apply reserved_within in Hres. destruct Hr as [[Hc Hsz] Hb Hw _].
  set (new := mkHistoryFrame state (Some input) deps events n).
  set (h1 := (h <| gh_frames := <[last + 1 := new]> (gh_frames h) |> <| gh_bytes := gh_bytes h + n |>) : GroupHistory St C D).
  assert (history_core h1) as Hc1 by (apply (history_core_extend h first last previous new input); done).
  pose proof (history_sum_le h1 Hc1) as Hsum. simpl in Hsum.
  pose proof (spans_insert_last _ _ _ new Hs) as Hs1.
  destruct (trim_ok (size (gh_frames h1)) (pl_history_ticks (pm_limits m) + 1) (gh_frames h1) (gh_bytes h + n) first (last + 1))
    as (t & bytes & Htrim & Ht & Hkeep & Hdrop); [done | lia | done | done |].
  simpl in Htrim. rewrite Htrim.
  assert (history_core (h1 <| gh_frames := from_tick (gh_frames h1) t |> <| gh_bytes := bytes |>)) as Hc2.
  { apply history_core_from; [done | | done]. intros a b Hab. by destruct (spans_agree _ _ _ _ _ Hs1 Hab) as [_ <-]. }
  eexists. split; [done |]. split.
  - constructor; simpl; try done.
    + split; [| done]. destruct Hc2. by constructor.
    + unfold dropped_bytes in Hdrop.
      pose proof (from_tick_sum (gh_frames h1) t). simpl in *. lia.
  - simpl. intros ch [= <-]. exists new. split_and!; try done.
    + apply from_tick_lookup. split; [by apply lookup_insert_eq | lia].
    + by destruct (spans_keys _ _ _ (spans_from _ _ _ t Hs1 Ht)).
    + intros k g Hne [Hg _]%from_tick_lookup. simpl in Hg. by rewrite lookup_insert_ne in Hg.
Qed.

Lemma newest_spans h first last :
  spans (gh_frames h) first last -> exists f, newest h = Some (last, f) /\ gh_frames h !! last = Some f.
Proof.
  intros Hs. unfold newest. destruct (spans_keys _ _ _ Hs) as [_ ->]. destruct (proj2 (proj2 Hs last)) as [f Hf].
  - destruct Hs. lia.
  - exists f. by rewrite Hf.
Qed.

Lemma exceeds_false o limit : exceeds o limit = false -> exists n, o = Some n /\ n <= limit.
Proof. destruct o as [n |]; [| done]. simpl. intros H%bool_decide_eq_false. exists n. split; [done | lia]. Qed.

Lemma outcome_work {R} m w h (out : group_result R) : outcome_ok (m <| pm_work := w |>) h out -> outcome_ok m h out.
Proof. intros []. by constructor. Qed.

Lemma ready_work m w h : ready m h -> work_ok (pm_limits m) w -> ready (m <| pm_work := w |>) h.
Proof. intros [] Hw. by constructor. Qed.

Lemma predict_next_ok m h target input deps sequence :
  ready m h ->
  exists out, predict_next m h target input deps sequence = Some out /\ outcome_ok m h out
    /\ forall changes, out.2 = Ok changes -> predicted h out.1.2 target input deps changes.
Proof.
  intros Hr. pose proof (hi_span _ (proj1 (rd_inv _ _ Hr))) as (first & last & Hs & _).
  unfold predict_next. destruct (newest_spans h first last Hs) as (previous & -> & Hprev).
  destruct (bool_decide _ || _) eqn:Hnext; [stops (refuse_ok (R:=EventChanges) m h PWrongTick) |].
  apply orb_false_iff in Hnext as [Hnext%bool_decide_eq_false%dec_stable _].
  apply checked_add_Some in Hnext as [Htarget _].
  destruct (command_charge input) as [cb | e]; [| stops (refuse_ok (R:=EventChanges) m h e)].
  destruct (decide _); [stops (refuse_ok (R:=EventChanges) m h PCapacity) |].
  destruct (validate_dependencies _ _ _ _ _) as [u | e];
    [| stops (recover_ok (R:=EventChanges) m h (recovery_reason e MissingDependency))].
  destruct (bool_decide _ || exceeds _ _) eqn:Hbudget; [stops (recover_ok (R:=EventChanges) m h ReplayBudget) |].
  apply orb_false_iff in Hbudget as [Hticks%bool_decide_eq_false (steps & Hn & Hsteps)%exceeds_false].
  apply checked_add_Some in Hn as [-> _].
  destruct (prediction_scratch m deps cb) as [scratch | e]; [| stops (refuse_ok (R:=EventChanges) m h e)].
  destruct (negb _); [stops (recover_ok (R:=EventChanges) m h MemoryBudget) |].
  match goal with |- context [m <| pm_work := ?w |>] => set (work := w) end.
  assert (ready (m <| pm_work := work |>) h) as Hr'.
  { apply ready_work; [done |]. destruct (rd_work _ _ Hr) as (? & ? & ? & ?). subst work. split_and!; simpl; lia. }
  destruct (record_prediction_ok _ h first last target input deps sequence previous Hr' Hs Hprev Htarget)
    as (out & -> & Ho & Hp). exists out. split; [done |]. split; [by eapply outcome_work | done].
Qed.

Lemma predict_in_ok target input deps m h :
  ready m h ->
  exists out, predict_in target input deps m h = Some out /\ outcome_ok m h out
    /\ forall changes, out.2 = Ok changes ->
         predicted h out.1.2 target input deps changes
         \/ (out.1.2 = h /\ changes = mkEventChanges ∅ ∅
             /\ exists old, recorded_input h target = Some old /\ input_eq old input = true).
Proof.
  intros Hr. unfold predict_in.
  destruct (let? _u := require_frame m in _) as [sequence | e]; [| stops (refuse_ok (R:=EventChanges) m h e)].
  destruct (recorded_input h target) as [old |] eqn:Hold.
  - destruct (input_eq old input) eqn:Heq; [| stops (refuse_ok (R:=EventChanges) m h PEquivocation)].
    eexists. split; [done |]. split.
    + destruct Hr as [H1 H2 H3 _]. constructor; simpl; try done; lia.
    + intros ch [= <-]. right. eauto.
  - destruct (predict_next_ok m h target input deps sequence Hr) as (out & -> & Ho & Hp).
    exists out. split; [done |]. split; [done |]. intros ch Hch. left. auto.
Qed.

(** ** Replacing samples *)

Definition min_dirty (dirty : option ServerTick) (t : ServerTick) : ServerTick :=
  match dirty with Some d => N.min d t | None => t end.

(** A frame rewritten in place; the steps into it and after it are to be redone. *)
Lemma history_core_rewrite h t old new :
  history_core h -> gh_frames h !! t = Some old -> hf_state new = hf_state old -> hf_input new = hf_input old ->
  frame_ok new ->
  history_core (h <| gh_frames := <[t := new]> (gh_frames h) |>
                  <| gh_bytes := gh_bytes h - hf_bytes old + hf_bytes new |>
                  <| gh_dirty_from := Some (min_dirty (gh_dirty_from h) t) |>).
Proof.
  intros Hcore Hold Hst Hinp Hnew. pose proof (history_sum_le h Hcore) as Hsum.
  destruct Hcore as [(first & last & Hs & Hc & Hin) Hsteps Hfr (own & Hown & Hb)].
  pose proof (map_sum_update hf_bytes (gh_frames h) t new) as Hu. rewrite Hold in Hu. simpl in Hu.
  pose proof (map_sum_delete hf_bytes _ _ _ Hold) as Hd. constructor; simpl.
  - exists first, last. split; [apply spans_replace; [done | by eexists] |]. split; [done |].
    intros k f [[<- <-] | [_ Hf]]%lookup_insert_Some Hlt; [rewrite Hinp; by eapply Hin | by eapply Hin].
  - intros k Hk. assert (k + 1 < t /\ unchanged_before (gh_dirty_from h) (k + 1)) as [Hlt Hun].
    { specialize (Hk _ eq_refl). unfold min_dirty in Hk. unfold unchanged_before.
      destruct (gh_dirty_from h) as [d |]; [| done]. split; [lia |]. intros d' [= <-]. lia. }
    intros f f'. rewrite !lookup_insert_ne by lia. by apply Hsteps.
  - intros k f [[<- <-] | [_ Hf]]%lookup_insert_Some; [done | by eapply Hfr].
  - exists own. split; [done |]. lia.
Qed.

Lemma update_in_ok tick deps m h :
  ready m h ->
  exists out, update_in tick deps m h = Some out /\ outcome_ok m h out
    /\ forall u, out.2 = Ok u ->
         out.1.2 = h
         \/ exists old, gh_frames h !! tick = Some old /\ gh_dirty_from out.1.2 = Some (min_dirty (gh_dirty_from h) tick)
              /\ exists bytes, gh_frames out.1.2 = <[tick := old <| hf_dependencies := deps |> <| hf_bytes := bytes |>]> (gh_frames h).
Proof.
  intros Hr. unfold update_in.
  destruct (let? _u := active h in _) as [old | e] eqn:Hchk; [| stops (refuse_ok (R:=unit) m h e)].
  assert (gh_frames h !! tick = Some old) as Hold.
  { destruct (active h) in Hchk; [| done]. destruct (validate_dependency_records _ _ _) in Hchk; [| done].
    destruct (gh_frames h !! tick) as [f |]; simpl in Hchk; [| done]. destruct (check_samples _ _) in Hchk; [| done]. by simplify_eq. }
  destruct (dependencies_eq deps (hf_dependencies old)).
  { eexists. split; [done |]. split; [| simpl; intros u _; by left].
    destruct Hr as [H1 H2 H3 _]. constructor; simpl; try done; lia. }
  destruct (dependency_bytes deps) as [d | e] eqn:Hd; [| stops (refuse_ok (R:=unit) m h e)].
  destruct (reserve m d) as [u | e] eqn:Hres; [| stops (refuse_ok (R:=unit) m h e)].
  destruct (frame_parts_bytes (hf_state old) (hf_input old) deps (hf_events old)) as [n | e] eqn:Hn;
    [| stops (refuse_ok (R:=unit) m h e)].
  assert (is_ok (reserve m d) = true) as Hbud%reserved_within by by rewrite Hres.
  destruct Hr as [[Hc Hsz] Hb Hw _]. pose proof (history_sum_le h Hc) as Hsum.
  pose proof (map_sum_delete hf_bytes _ _ _ Hold) as Hdel.
  destruct (checked_sub (gh_bytes h) (hf_bytes old)) as [k |] eqn:Hk; [| apply checked_sub_None in Hk; lia].
  apply checked_sub_Some in Hk as [_ ->].
  destruct (hi_frames _ Hc tick old Hold) as [Hfb Hvalid].
  set (new := (old <| hf_dependencies := deps |> <| hf_bytes := n |>) : HistoryFrame St C D).
  assert (frame_ok new) as Hnew by (split; [exact Hn | exact Hvalid]).
  eexists. split; [reflexivity |]. split.
  - constructor; simpl; try done.
    + split; [by apply (history_core_rewrite h tick old new) |]. simpl. by rewrite map_size_insert_Some by by eexists.
    + unfold frame_bytes in Hfb. apply frame_parts_Ok in Hfb as (d0 & e0 & _ & He0 & Hb0 & _).
      apply frame_parts_Ok in Hn as (d1 & e1 & Hd1 & He1 & Hb1 & _). rewrite Hd in Hd1.
      rewrite He0 in He1. injection Hd1 as <-. injection He1 as <-.
      set (cmd := match hf_input old with Some i => _ | None => 0 end) in *. lia.
  - intros u' _. right. exists old. split; [done |]. split; [done |]. by exists n.
Qed.

(** ** Replaying *)

(** The bytes of the events of one tick at most. *)
Definition events_max (l : PredictionLimits) : N := pl_events_per_tick l * (ENTRY_OVERHEAD + size_ActionKey).

(** The model run over the recorded inputs and samples, from a state at a tick. *)
Inductive replayed (l : PredictionLimits) frames : ServerTick -> St -> list staged_frame -> Prop :=
| replayed_nil tick state : replayed l frames tick state []
| replayed_cons tick state f input state' events bytes rest :
    frames !! (tick + 1) = Some f -> hf_input f = Some input ->
    step_input state (tick + 1) input (hf_dependencies f) = Ok (state', events) ->
    frame_ok (mkHistoryFrame state' (hf_input f) (hf_dependencies f) events bytes) ->
    retained_bytes state' <= pl_checkpoint_bytes l -> N.of_nat (size events) <= pl_events_per_tick l ->
    replayed l frames (tick + 1) state' rest ->
    replayed l frames tick state ((tick + 1, state', events, bytes) :: rest).

Lemma replay_ok m h binding n : forall tick state staged,
  replay m h binding n tick state = inr staged ->
  replayed (pm_limits m) (gh_frames h) tick state staged /\ length staged = n.
Proof.
  induction n as [| n IH]; intros tick state staged Hrep; simpl in Hrep; [simplify_eq; split; [constructor | done] |].
  destruct (gh_frames h !! (tick + 1)) as [f |] eqn:Hf; [| done].
  destruct (hf_input f) as [input |] eqn:Hi; [| done].
  destruct (validate_dependencies _ _ _ _ _) in Hrep; [| done].
  destruct (step_input state (tick + 1) input (hf_dependencies f)) as [[state' events] |] eqn:Hstep; [| done].
  destruct (negb _ || negb _) eqn:Hv in Hrep; [done |].
  apply orb_false_iff in Hv as [Hv%negb_false_iff%validate_state_Ok Hev%negb_false_iff].
  unfold valid_events in Hev. apply andb_true_iff in Hev as [Hev%bool_decide_eq_true _].
  destruct (frame_parts_bytes state' (Some input) (hf_dependencies f) events) as [bytes |] eqn:Hb; [| done].
  destruct (replay m h binding n (tick + 1) state') as [| rest] eqn:Hrest; [done |]. simplify_eq.
  destruct (IH _ _ _ Hrest) as [Hr Hl]. destruct Hv as [Hv Hsz]. split; [| simpl; by f_equal].
  econstructor; try done. split; [| done]. unfold frame_bytes. simpl. by rewrite Hi.
Qed.

(** A frame replayed in place costs at most its new state and events more. *)
Lemma replayed_charge l f (state : St) events bytes :
  frame_ok f -> frame_ok (mkHistoryFrame state (hf_input f) (hf_dependencies f) events bytes) ->
  retained_bytes state <= pl_checkpoint_bytes l -> N.of_nat (size events) <= pl_events_per_tick l ->
  bytes <= hf_bytes f + (pl_checkpoint_bytes l + events_max l).
Proof.
  intros [Hf _] [Hn _] Hs He. unfold frame_bytes in *. simpl in Hn.
  apply frame_parts_Ok in Hf as (d & e & Hd & _ & Hb & _). apply frame_parts_Ok in Hn as (d' & e' & Hd' & He' & Hb' & _).
  rewrite Hd in Hd'. injection Hd' as <-.
  assert (e' <= events_max l).
  { unfold event_bytes in He'. destruct (checked_mul _ _ _) as [k |] eqn:Hk; [| done]. apply checked_mul_Some in Hk as [-> _].
    simpl in He'. injection He' as <-. unfold events_max. apply N.mul_le_mono_r. done. }
  set (cmd := match hf_input f with Some i => _ | None => 0 end) in *. lia.
Qed.

(** The rest of a replay written over its frames. *)
Lemma commit_ok l checkpoint frames0 tick state staged :
  replayed l frames0 tick state staged -> (forall t f, frames0 !! t = Some f -> frame_ok f) -> checkpoint <= tick ->
  forall frames total,
  (forall t, tick < t -> frames !! t = frames0 !! t) -> map_sum hf_bytes frames <= total ->
  exists frames' total',
    foldl (commit_frame checkpoint) (Some (frames, total)) staged = Some (frames', total')
    /\ dropped_bytes frames frames' total total'
    /\ total' <= total + len staged * (pl_checkpoint_bytes l + events_max l)
    /\ (forall t, t <= tick -> frames' !! t = frames !! t)
    /\ (forall t, is_Some (frames' !! t) <-> is_Some (frames !! t))
    /\ (forall t f', tick < t -> frames' !! t = Some f' ->
          exists f, frames0 !! t = Some f /\ hf_input f' = hf_input f /\ hf_dependencies f' = hf_dependencies f
            /\ frame_ok f')
    /\ (forall g, frames !! tick = Some g -> hf_state g = state ->
          forall t, tick <= t < tick + len staged -> simulated frames' t)
    /\ (forall t f', tick < t <= tick + len staged -> frames' !! t = Some f' ->
          exists bytes, (t, hf_state f', hf_events f', bytes) ∈ staged)
    /\ (forall t state' events bytes, (t, state', events, bytes) ∈ staged ->
          tick < t <= tick + len staged /\ exists f', frames' !! t = Some f' /\ hf_events f' = events).
Proof.
  intros Hrep Hok. induction Hrep as [tick state | tick state f input state' events bytes rest Hf Hi Hstep Hnew Hs He Hrep IH];
    intros Hck frames total Hsame Hsum.
  { exists frames, total. cbn [foldl]. split_and!; try done; try lia.
    - intros t f' Ht Hf'. rewrite Hsame in Hf' by done. exists f'. split_and!; eauto.
    - intros g _ _ t Ht. rewrite len_nil in Ht. lia.
    - intros t f' Ht. rewrite len_nil in Ht. lia.
    - by intros t s e b Hin%elem_of_nil. }
  cbn [foldl]. set (out := commit_frame _ _ _).
  assert (frames !! (tick + 1) = Some f) as Hf1 by (rewrite Hsame by lia; done).
  pose proof (map_sum_delete hf_bytes _ _ _ Hf1) as Hdel.
  set (new := mkHistoryFrame state' (hf_input f) (hf_dependencies f) events bytes) in *.
  assert (out = Some (<[tick + 1 := new]> frames, total - hf_bytes f + bytes)) as ->.
  { subst out. unfold commit_frame. rewrite Hf1. unfold checked_sub. rewrite decide_True by lia.
    rewrite (decide_False (P := tick + 1 = checkpoint)) by lia. done. }
  pose proof (map_sum_update hf_bytes frames (tick + 1) new) as Hupd. rewrite Hf1 in Hupd. simpl in Hupd.
  destruct (IH ltac:(lia) (<[tick + 1 := new]> frames) (total - hf_bytes f + bytes))
    as (frames' & total' & Hfold & Hdrop & Hbud & Hlow & Hdom & Hkeep & Hsim & Hst1 & Hst2).
  { intros t Ht. rewrite lookup_insert_ne by lia. apply Hsame. lia. }
  { lia. }
  pose proof (replayed_charge l f state' events bytes (Hok _ _ Hf) Hnew Hs He) as Hcost.
  assert (frames' !! (tick + 1) = Some new) as Hnew'.
  { rewrite Hlow by lia. by rewrite lookup_insert_eq. }
  exists frames', total'. rewrite len_cons in *. split_and!.
  - done.
  - unfold dropped_bytes in *. lia.
  - lia.
  - intros t Ht. rewrite Hlow by lia. by rewrite lookup_insert_ne by lia.
  - intros t. rewrite Hdom. destruct (decide (t = tick + 1)) as [-> | Hne].
    + rewrite lookup_insert_eq, Hf1. split; eauto.
    + by rewrite lookup_insert_ne by done.
  - intros t f' Ht Hf'. destruct (decide (t = tick + 1)) as [-> | Hne]; [| apply (Hkeep t f'); [lia | done]].
    rewrite Hnew' in Hf'. injection Hf' as <-. exists f. by split_and!.
  - intros g Hg Hgs t Ht. destruct (decide (t = tick)) as [-> | Hne].
    + intros a b Ha Hb. rewrite Hlow, lookup_insert_ne in Ha by lia. rewrite Hnew' in Hb. simplify_eq.
      exists input. simpl. split; done.
    + apply (Hsim new); [by rewrite lookup_insert_eq | done | lia].
  - intros t f' Ht Hf'. destruct (decide (t = tick + 1)) as [-> | Hne].
    + rewrite Hnew' in Hf'. injection Hf' as <-. exists bytes. left.
    + destruct (Hst1 t f') as (b & Hb); [lia | done |]. exists b. by right.
  - intros t st ev b [[= -> -> -> ->] | Hin]%elem_of_cons.
    + split; [lia |]. by exists new.
    + destruct (Hst2 _ _ _ _ Hin) as (? & ?). split; [lia | done].
Qed.

(** Retiring everything before a checkpoint from which on the history is a run of the model. *)
Lemma settle_ok h first last tick snapshot own :
  spans (gh_frames h) first last -> first <= tick <= last ->
  (forall t f, gh_frames h !! t = Some f -> tick <= t -> frame_ok f /\ (tick < t -> is_Some (hf_input f))) ->
  (forall t, tick <= t -> followed (gh_frames h) t) ->
  identity_bytes (pi_scopes (gh_identity h)) = Ok own -> gh_bytes h = own + map_sum hf_bytes (gh_frames h) ->
  exists bytes, bytes <= gh_bytes h
    /\ settle h tick snapshot
       = Some (h <| gh_frames := from_tick (gh_frames h) tick |> <| gh_bytes := bytes |>
                 <| gh_last_snapshot := snapshot |> <| gh_last_checkpoint := tick |>)
    /\ history_core (h <| gh_frames := from_tick (gh_frames h) tick |> <| gh_bytes := bytes |>
                       <| gh_last_snapshot := snapshot |> <| gh_last_checkpoint := tick |>
                       <| gh_dirty_from := None |>).
Proof.
  intros Hs Ht Hfr Hsim Hown Hb. unfold settle.
  destruct (retire_ok (size (gh_frames h)) tick (gh_frames h) (gh_bytes h) first last) as (bytes & -> & Hd);
    [done | lia | lia | done |].
  pose proof (from_tick_sum (gh_frames h) tick) as Hsum. unfold dropped_bytes in Hd.
  exists bytes. split; [lia |]. split; [done |]. constructor; simpl.
  - exists tick, last. split; [| split; [lia |]].
    + replace tick with (N.max first tick) at 2 by lia. apply spans_from; [done | lia].
    + intros t f [Hf Hge]%from_tick_lookup Hlt. by apply (Hfr t f).
  - intros t _ f f' [Hf Hge]%from_tick_lookup [Hf' _]%from_tick_lookup. by apply (Hsim t).
  - intros t f [Hf Hge]%from_tick_lookup. by apply (Hfr t f).
  - exists own. split; [done |]. lia.
Qed.

Definition changes_between h h' (after through : ServerTick) : EventChanges :=
  let old := events_between h after through in
  let new := events_between h' after through in
  mkEventChanges (new ∖ old) (old ∖ new).

(** The history after a checkpoint was taken over: it starts there with the decoded state, keeps
    the inputs and samples recorded after it, and is a run of the model, from the decoded state
    itself unless the checkpoint was found equal to the prediction. *)
Definition reconciled h h' (checkpoint : ServerTick) (snapshot : SnapshotId) (decoded : DecodedPrediction St D)
    (correction : Correction) : Prop :=
  exists last, last_key (gh_frames h) = Some last /\ spans (gh_frames h') checkpoint last
  /\ (exists f, gh_frames h' !! checkpoint = Some f /\ hf_state f = dp_state decoded
        /\ hf_dependencies f = dp_dependencies decoded /\ hf_input f = None)
  /\ (forall t f', checkpoint < t -> gh_frames h' !! t = Some f' ->
        exists f, gh_frames h !! t = Some f /\ hf_input f' = hf_input f /\ hf_dependencies f' = hf_dependencies f)
  /\ (forall t, followed (gh_frames h') t)
  /\ (correction <> CorrectionEqual -> forall t, simulated (gh_frames h') t)
  /\ gh_dirty_from h' = None /\ gh_last_snapshot h' = snapshot /\ gh_last_checkpoint h' = checkpoint
  /\ match correction with
     | CorrectionStale => False
     | CorrectionEqual => forall t, checkpoint < t -> gh_frames h' !! t = gh_frames h !! t
     | CorrectionReplaced => checkpoint = last
     | CorrectionReplayed from through changes =>
         from = checkpoint + 1 /\ through = last /\ checkpoint < last
         /\ changes = changes_between h h' checkpoint last
     end.

Lemma elem_of_events_between h after through e :
  e ∈ events_between h after through
  <-> exists t f, gh_frames h !! t = Some f /\ after < t /\ t <= through /\ e ∈ hf_events f.
Proof.
  unfold events_between. rewrite elem_of_union_list. split.
  - intros (X & (tf & -> & [Hr Hin]%list_elem_of_filter)%list_elem_of_fmap & He). destruct tf as [t f].
    apply elem_of_map_to_list in Hin. simpl in *. exists t, f. tauto.
  - intros (t & f & Hf & H1 & H2 & He). exists (hf_events f). split; [| done]. apply list_elem_of_fmap.
    exists (t, f). split; [done |]. apply list_elem_of_filter. split; [done |]. by apply elem_of_map_to_list.
Qed.

Lemma keep_checkpoint_ok m h first last checkpoint snapshot decoded frame :
  ready m h -> spans (gh_frames h) first last -> gh_frames h !! checkpoint = Some frame ->
  gh_dirty_from h = None -> payload_eq (dp_state decoded) (hf_state frame) = true ->
  valid_state (dp_state decoded) = true -> retained_bytes (dp_state decoded) <= pl_checkpoint_bytes (pm_limits m) ->
  (exists d, dependency_bytes (dp_dependencies decoded) = Ok d /\ d <= pl_dependency_bytes (pm_limits m)) ->
  pm_bytes m + (pl_checkpoint_bytes (pm_limits m) + pl_dependency_bytes (pm_limits m)) <= pl_history_bytes (pm_limits m) ->
  exists out, keep_checkpoint m h checkpoint snapshot decoded frame = Some out /\ outcome_ok m h out
    /\ forall correction, out.2 = Ok correction -> reconciled h out.1.2 checkpoint snapshot decoded correction.
Proof.
  intros Hr Hs Hf Hdirty Heq Hvalid Hret (d & Hd & Hdb) Hroom. unfold keep_checkpoint.
  destruct (frame_parts_bytes (dp_state decoded) None (dp_dependencies decoded) ∅) as [n | e] eqn:Hn;
    [| stops (refuse_ok (R:=Correction) m h e)].
  destruct Hr as [[Hc Hsz] Hb Hw _]. pose proof (history_sum_le h Hc) as Hsum.
  pose proof (map_sum_delete hf_bytes _ _ _ Hf) as Hdel.
  destruct (checked_sub (gh_bytes h) (hf_bytes frame)) as [k |] eqn:Hk; [| apply checked_sub_None in Hk; lia].
  apply checked_sub_Some in Hk as [_ ->].
  set (new := mkHistoryFrame (dp_state decoded) None (dp_dependencies decoded) ∅ n).
  set (h1 := (h <| gh_frames := <[checkpoint := new]> (gh_frames h) |>
                <| gh_bytes := gh_bytes h - hf_bytes frame + n |>) : GroupHistory St C D).
  destruct Hc as [(first' & last' & Hs' & Hck & Hin) Hst Hfr (own & Hown & Hown')].
  destruct (spans_agree _ _ _ _ _ Hs' Hs) as [-> ->].
  assert (first <= checkpoint <= last) as Hrange by (apply (proj2 Hs); eauto).
  assert (spans (gh_frames h1) first last) as Hs1 by (apply spans_replace; [done | by eexists]).
  pose proof (map_sum_update hf_bytes (gh_frames h) checkpoint new) as Hupd. rewrite Hf in Hupd. simpl in Hupd.
  assert (forall t, checkpoint <= t -> followed (gh_frames h1) t) as Hsim.
  { intros t Ht f f' Hft Hft'. simpl in Hft, Hft'. rewrite lookup_insert_ne in Hft' by lia.
    assert (followed (gh_frames h) t) as Hfol by (apply Hst; by rewrite Hdirty).
    apply lookup_insert_Some in Hft as [[<- <-] | [_ Hft]]; [| by apply Hfol].
    destruct (Hfol frame f' Hf Hft') as (input & from & Hi & Hfrom & _ & Hstep). exists input, from.
    split_and!; try done; [by eapply rtc_l | by intros [? ?]]. }
  destruct (settle_ok h1 first last checkpoint snapshot own Hs1 Hrange) as (bytes & Hbytes & -> & Hcore); try done.
  { simpl. intros t f [[<- <-] | [Hne Hft]]%lookup_insert_Some Hge; [split; [done | lia] |].
    split; [by eapply Hfr |]. intros Hlt. apply (Hin t f Hft). lia. }
  { simpl. lia. }
  apply frame_parts_Ok in Hn as (d' & e' & Hd' & He' & Hnb & _). rewrite Hd in Hd'. injection Hd' as <-.
  assert (e' = 0) as -> by (unfold event_bytes in He'; rewrite size_empty in He'; simpl in He'; by injection He').
  destruct (Hfr _ _ Hf) as [Hfb _]. apply frame_parts_Ok in Hfb as (d0 & e0 & _ & _ & Hfb & _).
  eexists. split; [reflexivity |]. split.
  - constructor; simpl; try done.
    + split.
      * destruct Hcore as [C1 C2 C3 C4]. constructor; try done. intros t _. by apply C2.
      * simpl. etransitivity; [| exact Hsz]. pose proof (from_tick_size (<[checkpoint := new]> (gh_frames h)) checkpoint) as Hft.
        rewrite map_size_insert_Some in Hft by by eexists. lia.
    + simpl in Hbytes. set (cmd := match hf_input frame with Some i => _ | None => 0 end) in *. lia.
  - simpl. intros corr [= <-]. exists last. destruct (spans_keys _ _ _ Hs) as [_ ->]. split; [done |].
    assert (forall t, checkpoint < t -> from_tick (<[checkpoint := new]> (gh_frames h)) checkpoint !! t = gh_frames h !! t) as Hkeep.
    { intros t Ht. apply option_eq. intros f. rewrite from_tick_lookup, lookup_insert_ne by lia. split; [tauto |]. intros ?. split; [done | lia]. }
    split; [by pose proof (spans_from _ _ _ checkpoint Hs1 (proj2 Hrange)) as Hx; rewrite N.max_r in Hx by lia |].
    split; [exists new; split_and!; try done; apply from_tick_lookup; split; [by apply lookup_insert_eq | lia] |].
    split; [intros t f' Ht Hf'; simpl in Hf'; rewrite Hkeep in Hf' by done; eauto |].
    split_and!; try done. intros t. simpl. destruct Hcore as [_ C2 _ _]. by apply C2.
Qed.

(** The frames after the whole correction is written, before the old ones are retired. *)
Lemma commit_all h checkpoint frame decoded n staged l :
  history_core h -> gh_frames h !! checkpoint = Some frame ->
  replayed l (gh_frames h) checkpoint (dp_state decoded) staged ->
  frame_parts_bytes (dp_state decoded) None (dp_dependencies decoded) ∅ = Ok n ->
  valid_state (dp_state decoded) = true ->
  exists frames total f,
    foldl (commit_frame checkpoint) (Some (gh_frames h, gh_bytes h)) ((checkpoint, dp_state decoded, ∅, n) :: staged)
      = Some (frames, total)
    /\ frames !! checkpoint = Some f
    /\ let frames2 := <[checkpoint := f <| hf_dependencies := dp_dependencies decoded |>]> frames in
       frame_ok (f <| hf_dependencies := dp_dependencies decoded |>) /\ hf_state f = dp_state decoded /\ hf_input f = None
       /\ (exists own, identity_bytes (pi_scopes (gh_identity h)) = Ok own /\ total = own + map_sum hf_bytes frames2)
       /\ total + hf_bytes frame <= gh_bytes h + n + len staged * (pl_checkpoint_bytes l + events_max l)
       /\ (forall t, is_Some (frames2 !! t) <-> is_Some (gh_frames h !! t))
       /\ (forall t f', checkpoint < t -> frames2 !! t = Some f' ->
             exists f, gh_frames h !! t = Some f /\ hf_input f' = hf_input f /\ hf_dependencies f' = hf_dependencies f
               /\ frame_ok f')
       /\ (forall t, checkpoint <= t < checkpoint + len staged -> simulated frames2 t)
       /\ (forall t f', checkpoint < t <= checkpoint + len staged -> frames2 !! t = Some f' ->
             exists bytes, (t, hf_state f', hf_events f', bytes) ∈ staged)
       /\ (forall t state' events bytes, (t, state', events, bytes) ∈ staged ->
             checkpoint < t <= checkpoint + len staged /\ exists f', frames2 !! t = Some f' /\ hf_events f' = events).
Proof.
  intros Hc Hf Hrep Hn Hvalid. pose proof (history_sum_le h Hc) as Hsum.
  pose proof (map_sum_delete hf_bytes _ _ _ Hf) as Hdel. destruct (hi_bytes _ Hc) as (own & Hown & Hb).
  set (new := mkHistoryFrame (dp_state decoded) None (hf_dependencies frame) ∅ n : HistoryFrame St C D).
  pose proof (map_sum_update hf_bytes (gh_frames h) checkpoint new) as Hupd. rewrite Hf in Hupd. simpl in Hupd.
  destruct (commit_ok l checkpoint (gh_frames h) checkpoint (dp_state decoded) staged Hrep (hi_frames _ Hc) ltac:(lia)
              (<[checkpoint := new]> (gh_frames h)) (gh_bytes h - hf_bytes frame + n))
    as (frames & total & Hfold & Hdrop & Hbud & Hlow & Hdom & Hkeep & Hsim & Hst1 & Hst2).
  { intros t Ht. by rewrite lookup_insert_ne by lia. }
  { lia. }
  assert (frames !! checkpoint = Some new) as Hnew by (rewrite Hlow by lia; by rewrite lookup_insert_eq).
  exists frames, total, new. split.
  { cbn [foldl]. unfold commit_frame at 2. rewrite Hf. unfold checked_sub. rewrite decide_True by lia.
    rewrite (decide_True (P := checkpoint = checkpoint)) by done. exact Hfold. }
  split; [done |]. set (last_frame := (new <| hf_dependencies := dp_dependencies decoded |>) : HistoryFrame St C D).
  pose proof (map_sum_update hf_bytes frames checkpoint last_frame) as Hupd2. rewrite Hnew in Hupd2. simpl in Hupd2.
  assert (forall t f', checkpoint < t -> <[checkpoint := last_frame]> frames !! t = Some f' -> frames !! t = Some f') as Hup.
  { intros t f' Ht. by rewrite lookup_insert_ne by lia. }
  cbn zeta. split; [split; [exact Hn | exact Hvalid] |]. split; [done |]. split; [done |].
  split; [exists own; split; [done |]; unfold dropped_bytes in Hdrop; lia |]. split; [lia |]. split_and!.
  - intros t. destruct (decide (t = checkpoint)) as [-> | Hne].
    + rewrite lookup_insert_eq, Hf. split; eauto.
    + rewrite lookup_insert_ne by done. rewrite Hdom. by rewrite lookup_insert_ne by done.
  - intros t f' Ht Hf'. by apply Hkeep, Hup.
  - intros t Ht a b Ha Hb'. rewrite lookup_insert_ne in Hb' by lia.
    assert (exists a', frames !! t = Some a' /\ hf_state a' = hf_state a) as (a' & Ha' & <-).
    { apply lookup_insert_Some in Ha as [[<- <-] | [_ Ha]]; [by exists new | by exists a]. }
    apply (Hsim new) with (t := t); try done. by rewrite lookup_insert_eq.
  - intros t f' Ht Hf'. apply Hst1; [done |]. apply Hup; [lia | done].
  - intros t st ev b Hin. destruct (Hst2 _ _ _ _ Hin) as (Hr & f' & Hf' & He). split; [done |]. exists f'.
    split; [| done]. by rewrite lookup_insert_ne by lia.
Qed.

(** What was decoded from a checkpoint and may be taken over. *)
Record decoded_ok m (decoded : DecodedPrediction St D) : Prop := {
  do_valid : valid_state (dp_state decoded) = true;
  do_state : retained_bytes (dp_state decoded) <= pl_checkpoint_bytes (pm_limits m);
  do_dependencies : exists d, dependency_bytes (dp_dependencies decoded) = Ok d /\ d <= pl_dependency_bytes (pm_limits m);
}.

(** The bytes a replay of so many ticks may add. *)
Definition replay_room m (ticks : N) : N :=
  (ticks + 1) * (pl_checkpoint_bytes (pm_limits m) + events_max (pm_limits m)) + pl_dependency_bytes (pm_limits m).

Lemma decoded_charge m (decoded : DecodedPrediction St D) (f : HistoryFrame St C D) n :
  decoded_ok m decoded -> frame_ok f ->
  frame_parts_bytes (C:=C) (dp_state decoded) None (dp_dependencies decoded) ∅ = Ok n ->
  n <= hf_bytes f + (pl_checkpoint_bytes (pm_limits m) + pl_dependency_bytes (pm_limits m)).
Proof.
  intros [_ Hs (d & Hd & Hdb)] [Hf _] Hn. apply frame_parts_Ok in Hn as (d' & e' & Hd' & He' & Hnb & _).
  rewrite Hd in Hd'. injection Hd' as <-.
  assert (e' = 0) as -> by (unfold event_bytes in He'; rewrite size_empty in He'; simpl in He'; by injection He').
  apply frame_parts_Ok in Hf as (d0 & e0 & _ & _ & Hfb & _).
  set (cmd := match hf_input f with Some i => _ | None => 0 end) in *. lia.
Qed.

(** The events of the replayed ticks are those of the frames they are written to. *)
Lemma staged_events frames checkpoint last staged h' :
  gh_frames h' = from_tick frames checkpoint ->
  (forall t f', checkpoint < t <= last -> frames !! t = Some f' ->
     exists bytes, (t, hf_state f', hf_events f', bytes) ∈ staged) ->
  (forall t state' events bytes, (t, state', events, bytes) ∈ staged ->
     checkpoint < t <= last /\ exists f', frames !! t = Some f' /\ hf_events f' = events) ->
  ⋃ ((fun s : staged_frame => s.1.2) <$> staged) = events_between h' checkpoint last.
Proof.
  intros Hh H1 H2. apply set_eq. intros e. rewrite elem_of_events_between, elem_of_union_list, Hh. split.
  - intros (X & ([[[t st] ev] b] & -> & Hin)%list_elem_of_fmap & He). simpl in He.
    destruct (H2 _ _ _ _ Hin) as (Hr & f & Hf & <-). exists t, f. rewrite from_tick_lookup. split_and!; try done; lia.
  - intros (t & f & [Hf _]%from_tick_lookup & Hlt & Hle & He). destruct (H1 t f ltac:(lia) Hf) as (b & Hin).
    exists (hf_events f). split; [| done]. apply list_elem_of_fmap. by exists (t, hf_state f, hf_events f, b).
Qed.

Lemma commit_replay_ok m h first last checkpoint snapshot decoded frame n staged :
  ready m h -> spans (gh_frames h) first last -> gh_frames h !! checkpoint = Some frame -> decoded_ok m decoded ->
  replayed (pm_limits m) (gh_frames h) checkpoint (dp_state decoded) staged -> checkpoint + len staged = last ->
  frame_parts_bytes (dp_state decoded) None (dp_dependencies decoded) ∅ = Ok n ->
  pm_bytes m + replay_room m (len staged) <= pl_history_bytes (pm_limits m) ->
  exists out, commit_replay m h checkpoint last snapshot decoded n staged = Some out /\ outcome_ok m h out
    /\ forall correction, out.2 = Ok correction -> reconciled h out.1.2 checkpoint snapshot decoded correction.
Proof.
  intros [[Hc Hsz] Hb Hw _] Hs Hf Hdec Hrep Hlen Hn Hroom. unfold commit_replay.
  destruct (commit_all h checkpoint frame decoded n staged (pm_limits m) Hc Hf Hrep Hn (do_valid _ _ Hdec))
    as (frames & total & f & -> & -> & Hok & Hst & Hinp & (own & Hown & Htot) & Hbud & Hdom & Hkeep & Hsim & Hs1 & Hs2).
  pose proof (decoded_charge m decoded frame n Hdec (hi_frames _ Hc _ _ Hf) Hn) as Hcost.
  destruct (hi_span _ Hc) as (first' & last' & Hs' & _ & Hin). destruct (spans_agree _ _ _ _ _ Hs' Hs) as [-> ->].
  assert (first <= checkpoint <= last) as Hrange by (apply (proj2 Hs); eauto).
  set (frames2 := <[checkpoint := f <| hf_dependencies := dp_dependencies decoded |>]> frames) in *.
  set (h1 := (h <| gh_frames := frames2 |> <| gh_bytes := total |>) : GroupHistory St C D).
  assert (spans (gh_frames h1) first last) as Hspan.
  { split; [apply (proj1 Hs) |]. intros t. simpl. rewrite Hdom. apply (proj2 Hs). }
  assert (forall t, checkpoint <= t -> simulated frames2 t) as Hexact.
  { intros t Ht. destruct (decide (t < last)) as [Hlt | Hge]; [apply Hsim; lia |].
    intros a b _ Hb'. exfalso. assert (is_Some (frames2 !! (t + 1))) as Hsome by eauto.
    apply Hdom, (proj2 Hs) in Hsome. lia. }
  destruct (settle_ok h1 first last checkpoint snapshot own Hspan Hrange) as (bytes & Hbytes & -> & Hcore); try done.
  { simpl. intros t g Hg Hge. destruct (decide (t = checkpoint)) as [-> | Hne].
    - unfold frames2 in Hg. rewrite lookup_insert_eq in Hg. injection Hg as <-. split; [done | lia].
    - destruct (Hkeep t g ltac:(lia) Hg) as (g0 & Hg0 & Hi & _ & Hfok). split; [done |].
      intros _. rewrite Hi. apply (Hin t g0 Hg0). lia. }
  { intros t Ht. by apply simulated_followed, Hexact. }
  eexists. split; [reflexivity |]. split.
  - constructor; simpl; try done.
    + split; [done |]. simpl. etransitivity; [| exact Hsz]. pose proof (from_tick_size frames2 checkpoint) as Hft.
      pose proof (spans_size _ _ _ Hspan) as Hz. pose proof (spans_size _ _ _ Hs) as Hz'. simpl in Hz. lia.
    + simpl in Hbytes. unfold replay_room in Hroom. lia.
  - simpl. intros corr [= <-]. exists last. destruct (spans_keys _ _ _ Hs) as [_ ->]. split; [done |].
    pose proof (spans_from _ _ _ checkpoint Hspan (proj2 Hrange)) as Hsp. rewrite N.max_r in Hsp by lia.
    split; [done |]. split.
    { exists (f <| hf_dependencies := dp_dependencies decoded |>). split_and!; try done.
      apply from_tick_lookup. unfold frames2. rewrite lookup_insert_eq. split; [done | lia]. }
    split.
    { intros t f' Ht [Hf' _]%from_tick_lookup. destruct (Hkeep t f' Ht Hf') as (g & ? & ? & ? & _). eauto. }
    split; [destruct Hcore as [_ C2 _ _]; intros t; by apply C2 |].
    split; [intros _ t a b [Ha Hge]%from_tick_lookup [Hb' _]%from_tick_lookup; by apply (Hexact t) |].
    split_and!; try done. destruct (decide _) as [Hz | Hz]; [lia |]. split_and!; try done; [lia |].
    unfold changes_between. rewrite Hlen in Hs1, Hs2.
    match goal with |- context [events_between (set_field _ ?x) checkpoint last] =>
      rewrite (staged_events frames2 checkpoint last staged (x <| gh_dirty_from := None |>)) by done end. done.
Qed.

Lemma replay_scratch_ok m ticks scratch :
  replay_scratch m ticks = Some (Ok scratch) -> replay_room m ticks <= scratch.
Proof.
  unfold replay_scratch, event_scratch. intros Hs.
  destruct (checked_mul usize_max _ (size_ActionKey + ENTRY_OVERHEAD)) as [k |] eqn:Hk; [| done]. simpl in Hs.
  apply checked_mul_Some in Hk as [-> _].
  destruct (checked_mul usize_max _ 5) as [e |] eqn:He; [| done]. apply checked_mul_Some in He as [-> _]. simpl in Hs.
  destruct (checked_add _ (pl_checkpoint_bytes _) _) as [n1 |] eqn:H1; [| done]. apply checked_add_Some in H1 as [-> _]. simpl in Hs.
  destruct (checked_add _ _ ENTRY_OVERHEAD) as [n2 |] eqn:H2; [| done]. apply checked_add_Some in H2 as [-> _]. simpl in Hs.
  destruct (checked_add _ ticks 1) as [r |] eqn:Hr; [| done]. apply checked_add_Some in Hr as [-> _].
  destruct (checked_mul _ (ticks + 1) _) as [n3 |] eqn:H3; [| done]. apply checked_mul_Some in H3 as [-> _]. simpl in Hs.
  destruct (checked_add _ _ (pl_dependency_bytes _)) as [n4 |] eqn:H4; [| done]. apply checked_add_Some in H4 as [-> _].
  simpl in Hs. injection Hs as <-. unfold replay_room, events_max.
  rewrite (N.add_comm ENTRY_OVERHEAD size_ActionKey). set (x := pl_events_per_tick _ * _).
  assert ((ticks + 1) * (pl_checkpoint_bytes (pm_limits m) + x)
          <= (ticks + 1) * (pl_checkpoint_bytes (pm_limits m) + x * 5 + ENTRY_OVERHEAD)); [| lia].
  apply N.mul_le_mono_l. lia.
Qed.

Lemma replay_from_ok m h first last binding checkpoint snapshot decoded frame :
  ready m h -> spans (gh_frames h) first last -> gh_frames h !! checkpoint = Some frame -> decoded_ok m decoded ->
  exists out, replay_from m h binding checkpoint last snapshot decoded = Some out /\ outcome_ok m h out
    /\ forall correction, out.2 = Ok correction -> reconciled h out.1.2 checkpoint snapshot decoded correction.
Proof.
  intros Hr Hs Hf Hdec. unfold replay_from.
  assert (first <= checkpoint <= last) as Hrange by (apply (proj2 Hs); eauto).
  destruct (checked_sub last checkpoint) as [ticks |] eqn:Ht; [| apply checked_sub_None in Ht; lia].
  apply checked_sub_Some in Ht as [_ Hticks].
  destruct (let? ticks := ok_or _ _ in _) as [steps | e]; [| stops (refuse_ok (R:=Correction) m h e)].
  destruct (exceeds _ _ || exceeds _ _) eqn:Hbud; [stops (recover_ok (R:=Correction) m h ReplayBudget) |].
  apply orb_false_iff in Hbud as [(w1 & Hw1 & Hl1)%exceeds_false (w2 & Hw2 & Hl2)%exceeds_false].
  apply checked_add_Some in Hw1 as [-> _], Hw2 as [-> _].
  destruct (replay_scratch m ticks) as [[scratch | e] |] eqn:Hscr.
  2: stops (refuse_ok (R:=Correction) m h e).
  2: { exfalso. unfold replay_scratch in Hscr. destruct (let? e := event_scratch m 5 in _) in Hscr; [| done].
       destruct (checked_add _ ticks 1) eqn:Hadd in Hscr; [done |]. apply checked_add_None in Hadd.
       pose proof (spans_size _ _ _ Hs). pose proof (proj2 (rd_inv _ _ Hr)). pose proof (rd_ticks _ _ Hr). lia. }
  apply replay_scratch_ok in Hscr.
  destruct (is_ok (reserve m scratch)) eqn:Hres; [| stops (recover_ok (R:=Correction) m h MemoryBudget)].
  apply reserved_within in Hres. cbn [negb].
  match goal with |- context [m <| pm_work := ?w |>] => set (m' := (m <| pm_work := w |>) : PredictionManager St C D) end.
  assert (ready m' h) as Hr'.
  { apply ready_work; [done |]. destruct (rd_work _ _ Hr) as (? & ? & ? & ?). split_and!; simpl; lia. }
  assert (forall out : group_result Correction, outcome_ok m' h out -> outcome_ok m h out) as Hback.
  { intros out Ho. by eapply outcome_work. }
  destruct (frame_parts_bytes (dp_state decoded) None (dp_dependencies decoded) ∅) as [n | e] eqn:Hn.
  2: { destruct (refuse_ok (R:=Correction) m' h e Hr') as (out & -> & Ho & Hno). exists out. split; [done |].
       split; [by apply Hback |]. intros c Hc. destruct (Hno c Hc). }
  destruct (replay m' h binding (N.to_nat ticks) checkpoint (dp_state decoded)) as [[reason | e] | staged] eqn:Hrep.
  - destruct (recover_ok (R:=Correction) m' h reason Hr') as (out & -> & Ho & Hno). exists out. split; [done |].
    split; [by apply Hback |]. intros c Hc. destruct (Hno c Hc).
  - destruct (refuse_ok (R:=Correction) m' h e Hr') as (out & -> & Ho & Hno). exists out. split; [done |].
    split; [by apply Hback |]. intros c Hc. destruct (Hno c Hc).
  - apply replay_ok in Hrep as [Hrep Hlen]. assert (len staged = ticks) as Hlen' by (unfold len; lia).
    destruct (commit_replay_ok m' h first last checkpoint snapshot decoded frame n staged Hr' Hs Hf) as (out & -> & Ho & Hc);
      try done; [by destruct Hdec | lia | rewrite Hlen'; unfold replay_room in *; simpl; lia |].
    exists out. split; [done |]. split; [by apply Hback | done].
Qed.

(** Whether the checkpoint was taken over, and from what. *)
Lemma reconcile_in_ok proof binding finalized m h :
  ready m h ->
  exists out, reconcile_in proof binding finalized m h = Some out /\ outcome_ok m h out
    /\ forall correction, out.2 = Ok correction ->
         (correction = CorrectionStale /\ out.1.2 = h)
         \/ exists decoded, decode_group proof binding = Ok decoded
              /\ reconciled h out.1.2 (pg_end_tick proof) (gp_snapshot (pg_publication proof)) decoded correction.
Proof.
  intros Hr. pose proof (hi_span _ (proj1 (rd_inv _ _ Hr))) as (first & last & Hs & _).
  unfold reconcile_in.
  destruct (let? _u := require_frame m in _) as [u | e]; [| stops (refuse_ok (R:=Correction) m h e)].
  destruct (decide _).
  { eexists. split; [done |]. split; [| intros c [= <-]; by left]. destruct Hr. constructor; simpl; try done; lia. }
  destruct (decide _); [stops (recover_ok (R:=Correction) m h IdentityChanged) |].
  destruct (newest_spans h first last Hs) as (f & -> & Hlast).
  destruct (decide _); [stops (recover_ok (R:=Correction) m h CheckpointAhead) |].
  destruct (decide _); [stops (refuse_ok (R:=Correction) m h PInvalidCommand) |].
  destruct (gh_frames h !! pg_end_tick proof) as [frame |] eqn:Hf; [| stops (recover_ok (R:=Correction) m h MissingHistory)].
  destruct (ok_or _ PCapacity) as [scratch | e] eqn:Hscr; [| stops (refuse_ok (R:=Correction) m h e)].
  destruct (checked_add _ _ _) as [k |] eqn:Hk in Hscr; simpl in Hscr; [| done]. injection Hscr as <-.
  apply checked_add_Some in Hk as [-> _].
  destruct (is_ok (reserve m _)) eqn:Hres; [| stops (recover_ok (R:=Correction) m h MemoryBudget)].
  apply reserved_within in Hres. cbn [negb].
  destruct (decode_group proof binding) as [decoded | e];
    [| stops (recover_ok (R:=Correction) m h (recovery_reason e InvalidStateRecovery))].
  destruct (is_ok (validate_state m (dp_state decoded))) eqn:Hv; [| stops (recover_ok (R:=Correction) m h InvalidStateRecovery)].
  apply validate_state_Ok in Hv as [Hv1 Hv2]. cbn [negb].
  destruct (validate_dependencies _ _ _ _ _) as [u' | e] eqn:Hdep;
    [| stops (recover_ok (R:=Correction) m h (recovery_reason e MissingDependency))].
  apply validate_dependencies_Ok in Hdep. assert (decoded_ok m decoded) as Hdec by by constructor.
  destruct (negb _ || negb _ || is_some _) eqn:Hneed.
  - destruct (replay_from_ok m h first last binding (pg_end_tick proof) (gp_snapshot (pg_publication proof)) decoded frame Hr Hs Hf Hdec)
      as (out & -> & Ho & Hrec). exists out. split; [done |]. split; [done |]. intros c Hc. right. eauto.
  - rewrite !orb_false_iff, !negb_false_iff in Hneed. destruct Hneed as ((Heq & _) & Hdirty).
    assert (gh_dirty_from h = None) as Hclean by by destruct (gh_dirty_from h).
    destruct (keep_checkpoint_ok m h first last (pg_end_tick proof) (gp_snapshot (pg_publication proof)) decoded frame
                Hr Hs Hf Hclean Heq Hv1 Hv2 Hdep Hres) as (out & -> & Ho & Hrec).
    exists out. split; [done |]. split; [done |]. intros c Hc. right. eauto.
Qed.
End Histories.
