(* ===== verification/PredictionManager.v ===== *)
(** * The prediction manager

    The invariant of the manager over its groups: exact accounts within the limits, one writer
    per entity, and a consistent history in every group; and that every operation keeps it. *)

From S2P Require Import Prelude Types InterestModel Payload Commands Replication Groups GroupsProps Prediction PredictionFacts.
Local Open Scope N_scope.
Local Open Scope engine_scope.

Section Manager.
Context `{LA : !Layout}.
Context {W St C D : Type} `{PW : !Payload W, PS : !Payload St, PC : !Payload C, PD : !Payload D}.
Context `{model : !PredictionModel W St C D}.
Implicit Types (h : GroupHistory St C D) (m : PredictionManager St C D).

Definition members h : N := N.of_nat (size (pi_scopes (gh_identity h))).

(** No two scopes name one entity index. *)
Definition one_scope_each (scopes : gset ScopeIdentity) : Prop :=
  forall s s', s ∈ scopes -> s' ∈ scopes -> scope_index s = scope_index s' -> s = s'.
Definition no_shared_entity (a b : gset ScopeIdentity) : Prop :=
  forall s s', s ∈ a -> s' ∈ b -> scope_index s <> scope_index s'.

(** The manager's accounts, with [base] bytes charged beside the groups. *)
Record manager_core (base : N) m : Prop := {
  mc_ticks : pl_history_ticks (pm_limits m) < usize_max;
  mc_bytes : pm_bytes m = base + map_sum gh_bytes (pm_groups m);
  mc_budget : pm_bytes m <= pl_history_bytes (pm_limits m);
  mc_entities : pm_entities m = map_sum members (pm_groups m);
  mc_total : pm_entities m <= pl_total_entities (pm_limits m);
  mc_groups : N.of_nat (size (pm_groups m)) <= pl_groups (pm_limits m);
  mc_work : work_ok (pm_limits m) (pm_work m);
  mc_history : forall k h, pm_groups m !! k = Some h ->
    history_inv (pm_limits m) h /\ pi_group (gh_identity h) = k /\ one_scope_each (pi_scopes (gh_identity h));
  mc_disjoint : forall k k' h h', pm_groups m !! k = Some h -> pm_groups m !! k' = Some h' -> k <> k' ->
    no_shared_entity (pi_scopes (gh_identity h)) (pi_scopes (gh_identity h'));
}.

Definition manager_inv m : Prop :=
  exists base, topology_bytes (pm_topology m) = Some base /\ manager_core base m.

(** A history of the same identity in place of another. *)
Lemma manager_core_update base m k h h' work :
  manager_core base m -> pm_groups m !! k = Some h -> gh_identity h' = gh_identity h ->
  history_inv (pm_limits m) h' -> pm_bytes m + gh_bytes h' <= pl_history_bytes (pm_limits m) + gh_bytes h ->
  work_ok (pm_limits m) work ->
  manager_core base (m <| pm_groups := <[k := h']> (pm_groups m) |> <| pm_work := work |>
                       <| pm_bytes := pm_bytes m - gh_bytes h + gh_bytes h' |>).
Proof.
  intros Hc Hk Hid Hinv Hbud Hwork.
  pose proof (map_sum_update gh_bytes (pm_groups m) k h') as Hu. rewrite Hk in Hu. simpl in Hu.
  pose proof (map_sum_delete gh_bytes _ _ _ Hk) as Hd.
  pose proof (map_sum_update members (pm_groups m) k h') as Hu'. rewrite Hk in Hu'. simpl in Hu'.
  assert (members h' = members h) as Hm by (unfold members; by rewrite Hid).
  pose proof (mc_bytes _ _ Hc). pose proof (mc_entities _ _ Hc).
  assert (forall k' g, <[k := h']> (pm_groups m) !! k' = Some g -> exists g0, pm_groups m !! k' = Some g0 /\ gh_identity g = gh_identity g0) as Hids.
  { intros k' g [[<- <-] | [_ Hg]]%lookup_insert_Some; eauto. }
  constructor; simpl; try apply Hc; try done; try lia.
  - rewrite map_size_insert_Some by by eexists. apply Hc.
  - intros k' g [[<- <-] | [_ Hg]]%lookup_insert_Some; [| by apply Hc].
    rewrite Hid. split; [done |]. by apply (mc_history _ _ Hc).
  - intros k1 k2 g1 g2 (g1' & H1 & ->)%Hids (g2' & H2 & ->)%Hids Hne. by eapply (mc_disjoint _ _ Hc).
Qed.

Lemma group_bytes_le base m k h : manager_core base m -> pm_groups m !! k = Some h -> gh_bytes h <= pm_bytes m.
Proof. intros Hc Hk. rewrite (mc_bytes _ _ Hc), (map_sum_delete gh_bytes _ _ _ Hk). lia. Qed.

(** ** Work on one group *)

Lemma with_group_ok {R} base m k (apply : PredictionManager St C D -> GroupHistory St C D -> option (group_result R))
    (Q : GroupHistory St C D -> group_result R -> Prop) :
  manager_core base m ->
  (forall m1 h, ready m1 h -> exists out, apply m1 h = Some out /\ outcome_ok m1 h out /\ Q h out) ->
  exists m' r, with_group m k apply = Some (m', r) /\ manager_core base m'
    /\ pm_limits m' = pm_limits m /\ pm_topology m' = pm_topology m /\ pm_connection m' = pm_connection m
    /\ match pm_groups m !! k with
       | None => m' = m /\ r = Err PUnknownGroup
       | Some h => exists out, Q h out /\ outcome_ok m h out /\ r = out.2
                   /\ m' = m <| pm_groups := <[k := out.1.2]> (pm_groups m) |> <| pm_work := out.1.1 |>
                             <| pm_bytes := pm_bytes m - gh_bytes h + gh_bytes out.1.2 |>
       end.
Proof.
  intros Hc Happly. unfold with_group. destruct (pm_groups m !! k) as [h |] eqn:Hk; [| by eexists _, _; split_and!].
  set (m1 := (m <| pm_groups := delete k (pm_groups m) |>) : PredictionManager St C D).
  assert (ready m1 h) as Hr.
  { destruct (mc_history _ _ Hc k h Hk) as [Hh _]. constructor; [exact Hh | apply Hc | apply Hc | apply Hc]. }
  destruct (Happly m1 h Hr) as ([[work h'] r] & -> & Ho & HQ).
  pose proof (group_bytes_le base m k h Hc Hk) as Hle. unfold checked_sub. rewrite decide_True by done.
  pose proof (manager_core_update base m k h h' work Hc Hk (oo_identity _ _ _ Ho) (oo_inv _ _ _ Ho) (oo_budget _ _ _ Ho)
                (oo_work _ _ _ Ho)) as Hc'.
  eexists _, _. split; [reflexivity |]. split.
  { simpl. rewrite insert_delete_eq. destruct Hc'. by constructor. }
  split_and!; try done. exists (work, h', r). split; [done |]. split; [destruct Ho; by constructor |].
  split; [done |]. simpl. by rewrite insert_delete_eq.
Qed.

(** ** Starting and removing a group *)

(** What every proof of a published group satisfies. *)
Record proof_ok (p : PublishedGroup W) : Prop := {
  po_some : pg_manifest p <> [];
  po_indices : NoDup (scope_index <$> pg_manifest p);
}.

Lemma published_proof_ok (g : GroupAssembler W) k c p : asm_inv g -> published_group g k c = Some p -> proof_ok p.
Proof.
  intros Hg H. unfold published_group in H. destruct (decide _) in H; [done |].
  destruct (fences g !! k) as [f |] eqn:Hf; [| done]. destruct (gf_receipts f); [| done].
  pose proof (fo_manifest _ _ _ (ai_fence _ Hg k f Hf)) as Hm.
  destruct (gf_manifest f) as [| s rest] eqn:Hman; [done |]. destruct (decide _) in H; [done |].
  destruct (client_state c _) in H; [| done]. destruct (forallb _ _) in H; [| done]. injection H as <-.
  constructor; simpl; [done | apply Hm].
Qed.

Lemma manifest_scopes (p : PublishedGroup W) :
  proof_ok p -> one_scope_each (list_to_set (pg_manifest p))
  /\ N.of_nat (size (list_to_set (C:=gset ScopeIdentity) (pg_manifest p))) = len (pg_manifest p).
Proof.
  intros [_ Hnd]. split.
  - intros s s' Hs%elem_of_list_to_set Hs'%elem_of_list_to_set Heq. by apply (NoDup_fmap_inj scope_index (pg_manifest p)).
  - rewrite size_list_to_set; [done |]. by apply NoDup_fmap_1 in Hnd.
Qed.

Lemma shares_entity_false scopes manifest :
  shares_entity scopes manifest = false -> no_shared_entity scopes (list_to_set manifest).
Proof.
  unfold shares_entity. intros Hno s s' Hs Hs'%elem_of_list_to_set Heq. rewrite <- not_true_iff_false in Hno. apply Hno.
  apply existsb_exists. exists s. split; [by apply list_elem_of_In, elem_of_elements |].
  apply existsb_exists. exists s'. split; [by apply list_elem_of_In |]. by apply bool_decide_eq_true_2.
Qed.

Lemma check_initialize_ok m (p : PublishedGroup W) binding u :
  check_initialize m p binding = Ok u ->
  pm_groups m !! gp_group (pg_publication p) = None
  /\ N.of_nat (size (pm_groups m)) < pl_groups (pm_limits m)
  /\ pm_entities m + len (pg_manifest p) <= pl_total_entities (pm_limits m)
  /\ (forall k h, pm_groups m !! k = Some h -> no_shared_entity (pi_scopes (gh_identity h)) (list_to_set (pg_manifest p)))
  /\ topology_validate (pm_topology m) p binding = Ok tt.
Proof.
  unfold check_initialize. intros H. destruct (pm_groups m !! gp_group (pg_publication p)) eqn:Hk; [done |]. simpl in H.
  destruct (topology_validate _ _ _) as [[] |] eqn:Htop; [| done]. destruct (decide _) in H; [done |].
  destruct (_ || _ || exceeds _ _) eqn:Hlim in H; [done |]. rewrite !orb_false_iff in Hlim.
  destruct Hlim as ((Hg%bool_decide_eq_false & _) & (count & Hn & Htot)%exceeds_false).
  apply checked_add_Some in Hn as [-> _]. destruct (existsb _ _) eqn:Hsh in H; [done |].
  split; [done |]. split; [lia |]. split; [done |]. split; [| done].
  intros k h Hh. apply shares_entity_false. rewrite <- not_true_iff_false in Hsh. apply not_true_iff_false.
  intros Hs. apply Hsh, existsb_exists. exists (k, h). split; [| done]. by apply list_elem_of_In, elem_of_map_to_list.
Qed.

(** A group that starts from one checkpoint. *)
Definition starts_from (p : PublishedGroup W) (binding : PredictionBinding) h : Prop :=
  exists decoded bytes, decode_group p binding = Ok decoded
    /\ gh_frames h = {[pg_end_tick p := mkHistoryFrame (dp_state decoded) None (dp_dependencies decoded) ∅ bytes]}
    /\ gh_identity h = mkPredictionIdentity binding (gp_group (pg_publication p)) (gp_revision (pg_publication p))
                         (list_to_set (pg_manifest p))
    /\ gh_last_snapshot h = gp_snapshot (pg_publication p) /\ gh_last_checkpoint h = pg_end_tick p
    /\ gh_dirty_from h = None /\ gh_recovery h = None.

Lemma single_history_inv (l : PredictionLimits) h tick f own :
  gh_frames h = {[tick := f]} -> gh_last_checkpoint h = tick -> frame_ok f ->
  identity_bytes (pi_scopes (gh_identity h)) = Ok own -> gh_bytes h = own + hf_bytes f -> history_inv l h.
Proof.
  intros Hf Hck Hok Hown Hb. unfold history_inv. rewrite Hf. split; [| rewrite map_size_singleton; lia].
  constructor; rewrite ?Hf.
  - exists tick, tick. split; [| split; [lia |]].
    + split; [lia |]. intros t. rewrite lookup_singleton_is_Some. lia.
    + intros t f' [-> <-]%lookup_singleton_Some Hlt. lia.
  - intros t _ a b [Ha _]%lookup_singleton_Some [Hb' _]%lookup_singleton_Some. lia.
  - by intros t f' [-> <-]%lookup_singleton_Some.
  - exists own. split; [done |]. rewrite Hb. f_equal.
    rewrite <- insert_empty, map_sum_insert, map_sum_empty by apply lookup_empty. lia.
Qed.

Lemma initialize_ok base m (p : PublishedGroup W) binding m' r :
  manager_core base m -> proof_ok p -> initialize m p binding = (m', r) ->
  manager_core base m' /\ pm_limits m' = pm_limits m /\ pm_topology m' = pm_topology m
  /\ pm_connection m' = pm_connection m
  /\ match r with
     | Err _ => m' = m
     | Ok _ => exists h, pm_groups m !! gp_group (pg_publication p) = None
         /\ pm_groups m' = <[gp_group (pg_publication p) := h]> (pm_groups m) /\ starts_from p binding h
         /\ pm_entities m' = pm_entities m + len (pg_manifest p)
         /\ topology_validate (pm_topology m) p binding = Ok tt
     end.
Proof.
  intros Hc Hp H. unfold initialize in H.
  destruct (check_initialize m p binding) as [u | e] eqn:Hchk; [| by simplify_eq].
  destruct (decode_checkpoint m p binding) as [decoded | e] eqn:Hdec; [| by simplify_eq].
  destruct (frame_parts_bytes _ None _ ∅) as [n | e] eqn:Hn in H; [| by simplify_eq].
  destruct (identity_bytes _) as [own | e] eqn:Hown in H; [| by simplify_eq].
  destruct (checked_add usize_max own n) as [bytes |] eqn:Hb; simpl in H; [| by simplify_eq].
  apply checked_add_Some in Hb as [-> _].
  destruct (reserve m (own + n)) as [u' | e] eqn:Hres; [| by simplify_eq].
  assert (is_ok (reserve m (own + n)) = true) as Hroom%reserved_within by by rewrite Hres.
  destruct (check_initialize_ok m p binding u Hchk) as (Hnone & Hgr & Htot & Hsh & Htop). injection H as <- <-.
  unfold decode_checkpoint in Hdec. destruct (decode_group p binding) as [decoded' |] eqn:Hd; [| done].
  destruct (validate_state m (dp_state decoded')) as [u1 |] eqn:Hv; [| done].
  destruct (validate_dependencies _ _ _ _ _) in Hdec; [| done]. injection Hdec as ->.
  assert (is_ok (validate_state m (dp_state decoded)) = true) as [Hvalid _]%validate_state_Ok by by rewrite Hv.
  destruct (manifest_scopes p Hp) as [Hone Hlen].
  match goal with |- context [<[gp_group (pg_publication p) := ?x]> _] => set (h := x : GroupHistory St C D) end.
  assert (history_inv (pm_limits m) h) as Hh by (eapply (single_history_inv _ h _ _ own); try done; reflexivity).
  split; [| split_and!; try done].
  - pose proof (mc_bytes _ _ Hc). pose proof (mc_entities _ _ Hc).
    constructor; simpl; try apply Hc; try done; try lia.
    + rewrite map_sum_insert by done. simpl. lia.
    + rewrite map_sum_insert by done. unfold members at 1. simpl. rewrite Hlen. lia.
    + rewrite map_size_insert_None by done. lia.
    + intros k g [[<- <-] | [_ Hg]]%lookup_insert_Some; [by split_and! | by apply Hc].
    + intros k k' g g' [[<- <-] | [_ Hg]]%lookup_insert_Some [[<- <-] | [_ Hg']]%lookup_insert_Some Hne.
      * done.
      * intros s s' Hs Hs' Heq. by apply (Hsh _ _ Hg' s' s).
      * by apply Hsh in Hg.
      * by eapply (mc_disjoint _ _ Hc).
  - exists h. split; [done |]. split; [done |]. split; [| done]. exists decoded, n. by split_and!.
Qed.

Lemma remove_group_ok base m k :
  manager_core base m ->
  exists m' b, remove_group m k = Some (m', b) /\ manager_core base m' /\ pm_limits m' = pm_limits m
    /\ pm_topology m' = pm_topology m /\ pm_connection m' = pm_connection m
    /\ pm_groups m' = delete k (pm_groups m)
    /\ pm_entities m' + from_option members 0 (pm_groups m !! k) = pm_entities m /\ pm_bytes m' <= pm_bytes m.
Proof.
  intros Hc. unfold remove_group. destruct (pm_groups m !! k) as [h |] eqn:Hk.
  - pose proof (map_sum_delete gh_bytes _ _ _ Hk) as Hd. pose proof (map_sum_delete members _ _ _ Hk) as Hd'.
    pose proof (mc_bytes _ _ Hc). pose proof (mc_entities _ _ Hc) as He. unfold members at 2 in Hd'. unfold checked_sub.
    rewrite !decide_True by (unfold members in *; lia). eexists _, _. split; [done |].
    pose proof (mc_budget _ _ Hc). pose proof (mc_total _ _ Hc). pose proof (mc_groups _ _ Hc).
    pose proof (map_size_delete_le (pm_groups m) k).
    split; [| split_and!; simpl; try done; unfold members in *; lia].
    constructor; simpl; try apply Hc; try (unfold members in *; lia).
    + intros k' g [_ Hg]%lookup_delete_Some. by apply Hc.
    + intros k1 k2 g1 g2 [_ Hg1]%lookup_delete_Some [_ Hg2]%lookup_delete_Some. by eapply (mc_disjoint _ _ Hc).
  - eexists _, _. split; [done |]. rewrite delete_id by done. split_and!; try done; simpl; lia.
Qed.

(** ** Replacing groups *)

Lemma check_retired_ok m retiring l retiring' :
  check_retired m retiring l = Ok retiring' ->
  NoDup (pi_group <$> l) /\ retiring' = list_to_set (pi_group <$> l) ∪ retiring
  /\ (forall id, id ∈ l -> pi_group id ∉ retiring /\ manager_identity m (pi_group id) = Some id).
Proof.
  revert retiring. induction l as [| id l IH]; intros retiring Hr; simpl in Hr.
  { simplify_eq. split_and!; [constructor | set_solver | by intros ? ?%elem_of_nil]. }
  destruct (decide _) as [| Hn] in Hr; [done |]. apply IH in Hr as (Hnd & -> & Hl).
  assert (manager_identity m (pi_group id) = Some id) as Hid by (destruct (decide (manager_identity m (pi_group id) = Some id)); tauto).
  split_and!.
  - rewrite fmap_cons. constructor; [| done]. intros (id' & Heq & Hin)%list_elem_of_fmap.
    destruct (Hl id' Hin) as [Hno _]. rewrite <- Heq in Hno. set_solver.
  - rewrite fmap_cons, list_to_set_cons. set_solver.
  - intros id' [-> | Hin]%elem_of_cons; [tauto |]. destruct (Hl id' Hin) as [Hno ?]. split; [set_solver | done].
Qed.

(** The current groups that are to be retired. *)
Definition current m (l : list PredictionIdentity) : Prop :=
  NoDup (pi_group <$> l)
  /\ forall id, id ∈ l -> exists h, pm_groups m !! pi_group id = Some h /\ gh_identity h = id.

Lemma check_retired_current m l retiring :
  check_retired m ∅ l = Ok retiring -> current m l /\ retiring = list_to_set (pi_group <$> l).
Proof.
  intros (Hnd & -> & Hl)%check_retired_ok. split; [| set_solver]. split; [done |].
  intros id Hid. destruct (Hl id Hid) as [_ Hm]. unfold manager_identity in Hm.
  destruct (pm_groups m !! pi_group id) as [h |]; [| done]. simpl in Hm. exists h. split; [done | congruence].
Qed.

Lemma current_totals (groups : gmap GroupId (GroupHistory St C D)) l :
  NoDup (pi_group <$> l) -> (forall id, id ∈ l -> exists h, groups !! pi_group id = Some h /\ gh_identity h = id) ->
  len l <= N.of_nat (size groups) /\ scopes_total l <= map_sum members groups.
Proof.
  revert groups. induction l as [| id l IH]; intros groups Hnd Hl; [unfold len; simpl; lia |].
  rewrite fmap_cons in Hnd. apply NoDup_cons in Hnd as [Hid Hnd].
  destruct (Hl id (list_elem_of_here _ _)) as (h & Hh & Hhid).
  destruct (IH (delete (pi_group id) groups) Hnd) as [IH1 IH2].
  { intros id' Hin. destruct (Hl id' (list_elem_of_further _ _ _ Hin)) as (h' & Hh' & ?). exists h'. split; [| done].
    rewrite lookup_delete_ne; [done |]. intros Heq. apply Hid. rewrite Heq. by apply list_elem_of_fmap_2. }
  rewrite map_size_delete_Some in IH1 by by eexists. rewrite (map_sum_delete members _ _ _ Hh), len_cons. simpl.
  assert (size groups <> 0%nat). { intros Hz. apply map_size_empty_inv in Hz. subst. by rewrite lookup_empty in Hh. }
  fold (scopes_total l). unfold members at 1. rewrite Hhid. lia.
Qed.

(** Fences grow by no more than what is recorded. *)
Lemma topology_record_size t id snapshot tick :
  (size (tf_groups (topology_record t id snapshot tick)) <= size (tf_groups t) + 1)%nat
  /\ (size (tf_members (topology_record t id snapshot tick)) <= size (tf_members t) + size (pi_scopes id))%nat.
Proof.
  assert (forall {V} (x : gmap N V) k v, size (<[k := v]> x) <= size x + 1)%nat as Hins.
  { intros V x k v. rewrite map_size_insert. destruct (x !! k); simpl; lia. }
  split; [apply Hins |]. unfold topology_record. simpl.
  assert (length (scope_list (pi_scopes id)) = size (pi_scopes id)) as <-.
  { unfold scope_list. rewrite merge_sort_Permutation. done. }
  generalize (tf_members t). induction (scope_list (pi_scopes id)) as [| s l IH]; intros x; simpl; [lia |].
  etransitivity; [apply IH |]. unfold record_member. cbv zeta.
  etransitivity; [apply Nat.add_le_mono_r, Hins |]. lia.
Qed.

Lemma record_retired_ok m l t :
  (forall id, id ∈ l -> exists h, pm_groups m !! pi_group id = Some h /\ gh_identity h = id) ->
  exists t', record_retired m t l = Some t'
    /\ N.of_nat (size (tf_groups t')) <= N.of_nat (size (tf_groups t)) + len l
    /\ N.of_nat (size (tf_members t')) <= N.of_nat (size (tf_members t)) + scopes_total l.
Proof.
  revert t. induction l as [| id l IH]; intros t Hl; simpl.
  { exists t. unfold len. simpl. split_and!; [done | lia | lia]. }
  destruct (Hl id (list_elem_of_here _ _)) as (h & -> & _).
  destruct (IH (topology_record t id (gh_last_snapshot h) (gh_last_checkpoint h))) as (t' & -> & H1 & H2).
  { intros id' Hin. apply Hl. by right. }
  pose proof (topology_record_size t id (gh_last_snapshot h) (gh_last_checkpoint h)) as [Hs1 Hs2].
  exists t'. split; [done |]. rewrite len_cons. fold (scopes_total l). lia.
Qed.

Lemma record_staged_size (t : TopologyFences) m :
  N.of_nat (size (tf_groups (record_staged t m))) <= N.of_nat (size (tf_groups t)) + N.of_nat (size (pm_groups m))
  /\ N.of_nat (size (tf_members (record_staged t m))) <= N.of_nat (size (tf_members t)) + map_sum members (pm_groups m).
Proof.
  unfold record_staged, histories.
  assert (merge_sort by_group_id (map_to_list (pm_groups m)) ≡ₚ map_to_list (pm_groups m)) as Hp by apply merge_sort_Permutation.
  assert (length (merge_sort by_group_id (map_to_list (pm_groups m))) = size (pm_groups m)) as Hlen by (rewrite Hp; apply length_map_to_list).
  rewrite map_sum_list, <- (sum_over_Permutation _ _ _ Hp), <- Hlen.
  generalize (merge_sort by_group_id (map_to_list (pm_groups m))). intros l. revert t.
  induction l as [| [k h] l IH]; intros t; cbn [foldl fmap list_fmap snd length sum_over foldr]; [unfold sum_over; simpl; lia |].
  pose proof (topology_record_size t (gh_identity h) (gh_last_snapshot h) (gh_last_checkpoint h)) as [Hs1 Hs2].
  destruct (IH (topology_record t (gh_identity h) (gh_last_snapshot h) (gh_last_checkpoint h))) as [IH1 IH2].
  change (snd <$> (k, h) :: l) with (h :: l.*2). cbn [foldl]. unfold sum_over in *. simpl in *. unfold members at 1. lia.
Qed.

Lemma topology_bytes_mono groups members groups' members' n :
  topology_bytes_for groups' members' = Ok n -> groups <= groups' -> members <= members' ->
  exists n', topology_bytes_for groups members = Ok n' /\ n' <= n.
Proof.
  unfold topology_bytes_for. intros Hn Hg Hm.
  destruct (checked_mul usize_max groups' _) as [a |] eqn:Ha; [| done]. apply checked_mul_Some in Ha as [-> Ha].
  destruct (checked_mul usize_max members' _) as [b |] eqn:Hb; [| done]. apply checked_mul_Some in Hb as [-> Hb].
  destruct (checked_add _ _ _) as [c |] eqn:Hc; [| done]. apply checked_add_Some in Hc as [-> Hc]. simpl in Hn. injection Hn as <-.
  assert (groups * (ENTRY_OVERHEAD + size_fence_group) <= groups' * (ENTRY_OVERHEAD + size_fence_group)) by by apply N.mul_le_mono_r.
  assert (members * (ENTRY_OVERHEAD + size_fence_member) <= members' * (ENTRY_OVERHEAD + size_fence_member)) by by apply N.mul_le_mono_r.
  unfold checked_mul. rewrite !decide_True by lia. unfold checked_add. rewrite decide_True by lia. simpl. eexists. split; [done | lia].
Qed.

Lemma topology_bytes_empty : topology_bytes (mkTopologyFences ∅ ∅) = Some 0.
Proof. unfold topology_bytes. simpl. rewrite !map_size_empty. by unfold topology_bytes_for, checked_mul, checked_add; rewrite !decide_True by lia. Qed.

(** The successions of current groups are always checked to the end. *)
Lemma check_replacements_total m t retiring retired tick (l : list (PublishedGroup W * PredictionBinding)) :
  current m retired -> exists r, check_replacements m t retiring retired tick l = Some r
    /\ forall u, r = Ok u -> forall p b, (p, b) ∈ l ->
         pg_end_tick p = tick
         /\ (is_Some (pm_groups m !! gp_group (pg_publication p)) -> gp_group (pg_publication p) ∈ retiring)
         /\ forall k h, pm_groups m !! k = Some h -> k ∉ retiring ->
              no_shared_entity (pi_scopes (gh_identity h)) (list_to_set (pg_manifest p)).
Proof.
  intros [_ Hcur]. assert (forall (p : PublishedGroup W) b, exists r, check_successions m tick p b retired = Some r) as Hsucc.
  { intros p b. induction retired as [| id l' IH]; simpl; [by eexists |]. unfold check_succession.
    destruct (Hcur id (list_elem_of_here _ _)) as (h & -> & _). destruct (decide _); [by eexists |].
    destruct (decide _); [by eexists |]. destruct (_ && _); [by eexists |]. destruct (existsb _ _); [by eexists |].
    apply IH. intros id' Hid'. apply Hcur. by right. }
  induction l as [| [p b] l IH]; simpl. { eexists. split; [done |]. by intros u _ p b ?%elem_of_nil. }
  unfold check_replacement. destruct (topology_validate t p b) as [[] |]; [| by eexists].
  destruct (decide _) as [| Htick%dec_stable]; [by eexists |]. destruct (_ && _) eqn:Hnew; [by eexists |].
  destruct (Hsucc p b) as ([[] | e] & ->); [| by eexists]. destruct (existsb _ _) eqn:Hsh; [by eexists |].
  destruct IH as (r & -> & Hr). exists r. split; [done |]. intros u Hu p' b' [[= -> ->] | Hin]%elem_of_cons; [| by eapply Hr].
  split; [done |]. split.
  - intros [h Hh]. rewrite Hh in Hnew. simpl in Hnew. by apply negb_false_iff, bool_decide_eq_true in Hnew.
  - intros k h Hh Hk. apply shares_entity_false. rewrite <- not_true_iff_false in Hsh. apply not_true_iff_false.
    intros Hs. apply Hsh, existsb_exists. exists (k, h). split; [by apply list_elem_of_In, elem_of_map_to_list |].
    simpl. by rewrite bool_decide_eq_false_2.
Qed.

Lemma manifests_total_ok count l n :
  manifests_total count l = Ok n -> n = count + sum_over (fun pb : PublishedGroup W * PredictionBinding => len (pg_manifest pb.1)) l.
Proof.
  revert count. induction l as [| pb l IH]; intros count Hn; simpl in Hn; [injection Hn as <-; unfold sum_over; simpl; lia |].
  destruct (checked_add _ _ _) as [c |] eqn:Hc; [| done]. apply checked_add_Some in Hc as [-> _]. simpl in Hn.
  apply IH in Hn. unfold sum_over in *. simpl. lia.
Qed.

Lemma stage_replacements_ok base l : forall m staged,
  manager_core base m -> (forall p b, (p, b) ∈ l -> proof_ok p) -> stage_replacements m l = Ok staged ->
  manager_core base staged /\ pm_limits staged = pm_limits m
  /\ pm_entities staged = pm_entities m + sum_over (fun pb : PublishedGroup W * PredictionBinding => len (pg_manifest pb.1)) l
  /\ N.of_nat (size (pm_groups staged)) = N.of_nat (size (pm_groups m)) + len l
  /\ pm_groups m ⊆ pm_groups staged
  /\ (forall k h, pm_groups staged !! k = Some h -> pm_groups m !! k = Some h
       \/ exists p b, (p, b) ∈ l /\ k = gp_group (pg_publication p) /\ starts_from p b h)
  /\ forall p b, (p, b) ∈ l -> exists h, pm_groups staged !! gp_group (pg_publication p) = Some h /\ starts_from p b h.
Proof.
  induction l as [| [p b] l IH]; intros m staged Hc Hl Hs; simpl in Hs.
  { injection Hs as <-. unfold sum_over, len. simpl. split_and!; try done; [lia | lia | by left | by intros ? ? ?%elem_of_nil]. }
  destruct (initialize m p b) as [m1 [[] | e]] eqn:Hi; [| done].
  destruct (initialize_ok base m p b m1 (Ok tt) Hc (Hl p b (list_elem_of_here _ _)) Hi)
    as (Hc1 & Hl1 & _ & _ & h1 & Hnone & Hg1 & Hst & He1 & _).
  destruct (IH m1 staged Hc1) as (Hcs & Hls & Hes & Hzs & Hsub & Hgs & Hall); [intros p' b' Hin; apply (Hl p' b'); by right | done |].
  rewrite Hg1, map_size_insert_None in Hzs by done. rewrite len_cons. unfold sum_over in *. simpl.
  rewrite Hg1 in Hsub. assert (pm_groups staged !! gp_group (pg_publication p) = Some h1) as Hh1.
  { eapply lookup_weaken; [apply lookup_insert_eq | exact Hsub]. }
  split_and!; [done | congruence | lia | lia | | |].
  - etransitivity; [by apply insert_subseteq | exact Hsub].
  - intros k h [Hk | (p' & b' & Hin & Hp')]%Hgs.
    + rewrite Hg1 in Hk. apply lookup_insert_Some in Hk as [[<- <-] | [_ Hk]]; [| by left].
      right. exists p, b. split; [by left | done].
    + right. exists p', b'. split; [by right | done].
  - intros p' b' [[= -> ->] | Hin]%elem_of_cons; [by exists h1 | by apply Hall].
Qed.

Lemma remove_groups_ok base l : forall m,
  manager_core base m -> current m l ->
  exists m', remove_groups m l = Some m' /\ manager_core base m' /\ pm_limits m' = pm_limits m
    /\ pm_topology m' = pm_topology m /\ pm_connection m' = pm_connection m
    /\ pm_entities m' + scopes_total l = pm_entities m /\ pm_bytes m' <= pm_bytes m
    /\ N.of_nat (size (pm_groups m')) + len l = N.of_nat (size (pm_groups m))
    /\ forall k h, pm_groups m' !! k = Some h <-> pm_groups m !! k = Some h /\ k ∉ (pi_group <$> l).
Proof.
  induction l as [| id l IH]; intros m Hc [Hnd Hcur]; simpl.
  { exists m. unfold len. simpl. split_and!; try done; try lia. intros k h. rewrite elem_of_nil. tauto. }
  rewrite fmap_cons in Hnd. apply NoDup_cons in Hnd as [Hid Hnd].
  destruct (remove_group_ok base m (pi_group id) Hc) as (m1 & b & -> & Hc1 & Hl1 & Ht1 & Hx1 & Hg1 & He1 & Hb1).
  destruct (Hcur id (list_elem_of_here _ _)) as (h & Hh & Hhid). rewrite Hh in He1. simpl in He1.
  destruct (IH m1 Hc1) as (m' & -> & Hc' & Hl' & Ht' & Hx' & He' & Hb' & Hz' & Hg').
  { split; [done |]. intros id' Hin. destruct (Hcur id' (list_elem_of_further _ _ _ Hin)) as (h' & Hh' & ?).
    exists h'. split; [| done]. rewrite Hg1, lookup_delete_ne; [done |]. intros Heq. apply Hid. rewrite Heq.
    by apply list_elem_of_fmap_2. }
  exists m'. rewrite Hg1, map_size_delete_Some in Hz' by by eexists. rewrite len_cons.
  assert (size (pm_groups m) <> 0%nat). { intros Hz. apply map_size_empty_inv in Hz. by rewrite Hz, lookup_empty in Hh. }
  unfold members in He1. rewrite Hhid in He1. fold (scopes_total l).
  split_and!; try congruence; try done; try lia.
  intros k g. rewrite Hg', Hg1, lookup_delete_Some, not_elem_of_cons. naive_solver.
Qed.

(** What a plan has checked. *)
Record plan_ok m (retired : list PredictionIdentity) (replacements : list (PublishedGroup W * PredictionBinding))
    (p : ReplacePlan) : Prop := {
  pk_current : current m retired;
  pk_retiring : rp_retiring p = list_to_set (pi_group <$> retired);
  pk_groups : N.of_nat (size (pm_groups m)) - len retired + len replacements <= pl_groups (pm_limits m);
  pk_added : rp_added p = sum_over (fun pb => len (pg_manifest pb.1)) replacements;
  pk_entities : pm_entities m - scopes_total retired + rp_added p <= pl_total_entities (pm_limits m);
  pk_room : pm_bytes m + (rp_metadata p + rp_fence_scratch p) <= pl_history_bytes (pm_limits m);
  pk_fences : forall groups members,
    groups <= N.of_nat (size (tf_groups (rp_fences p))) + len replacements ->
    members <= N.of_nat (size (tf_members (rp_fences p))) + rp_added p ->
    exists n, topology_bytes_for groups members = Ok n /\ n <= rp_fence_scratch p;
  pk_replacements : forall q b, (q, b) ∈ replacements ->
    pg_end_tick q = rp_tick p
    /\ (is_Some (pm_groups m !! gp_group (pg_publication q)) -> gp_group (pg_publication q) ∈ rp_retiring p)
    /\ forall k h, pm_groups m !! k = Some h -> k ∉ rp_retiring p ->
         no_shared_entity (pi_scopes (gh_identity h)) (list_to_set (pg_manifest q));
}.

Lemma plan_budget_ok m retired (replacements : list (PublishedGroup W * PredictionBinding)) removed added metadata scratch :
  plan_budget m retired replacements removed added metadata = Ok scratch ->
  pm_bytes m + (metadata + scratch) <= pl_history_bytes (pm_limits m)
  /\ topology_bytes_for (N.of_nat (size (tf_groups (pm_topology m))) + len retired + len replacements)
       (N.of_nat (size (tf_members (pm_topology m))) + removed + added) = Ok scratch.
Proof.
  unfold plan_budget. intros Hb.
  destruct (checked_add _ _ (len retired)) as [a |] eqn:Ha; [| done]. apply checked_add_Some in Ha as [-> _].
  destruct (checked_add _ _ (len replacements)) as [g |] eqn:Hg; [| done]. apply checked_add_Some in Hg as [-> _]. simpl in Hb.
  destruct (checked_add _ _ removed) as [c |] eqn:Hc; [| done]. apply checked_add_Some in Hc as [-> _].
  destruct (checked_add _ _ added) as [d |] eqn:Hd; [| done]. apply checked_add_Some in Hd as [-> _]. simpl in Hb.
  destruct (topology_bytes_for _ _) as [x |] eqn:Hx; [| done].
  destruct (checked_add _ metadata x) as [y |] eqn:Hy; [| done]. apply checked_add_Some in Hy as [-> _]. simpl in Hb.
  destruct (reserve m _) as [u |] eqn:Hr; [| done]. injection Hb as <-.
  assert (is_ok (reserve m (metadata + x)) = true) as Hroom%reserved_within by by rewrite Hr. done.
Qed.

Lemma plan_replacement_ok base m retired (replacements : list (PublishedGroup W * PredictionBinding)) :
  manager_core base m ->
  exists r, plan_replacement m retired replacements = Some r
    /\ forall p, r = Ok p -> plan_ok m retired replacements p.
Proof.
  intros Hc. unfold plan_replacement.
  destruct (let? _u := require_frame m in _) as [[metadata retiring] | e] eqn:Hpre; [| by eexists].
  assert (replacements <> [] /\ check_retired m ∅ retired = Ok retiring) as [Hne Hret].
  { destruct (require_frame m) in Hpre; [| done]. destruct (decide _) as [| Hn] in Hpre; [done |].
    destruct (ok_or _ _) in Hpre; [| done]. destruct (reserve m _) in Hpre; [| done].
    destruct (check_retired m ∅ retired) as [x |]; [| done]. simpl in Hpre. injection Hpre as _ ->. split; [| done].
    intros ->. apply Hn. right. by left. }
  clear Hpre.
  apply check_retired_current in Hret as [Hcur ->].
  destruct (current_totals (pm_groups m) retired (proj1 Hcur) (proj2 Hcur)) as [Hlen Htot].
  rewrite <- (mc_entities _ _ Hc) in Htot.
  destruct replacements as [| [first fb] rest] eqn:Hrep; [done |]. cbv match beta. rewrite <- Hrep in *.
  unfold checked_sub at 1. rewrite decide_True by done.
  destruct (decide _) as [| Hgr]; [by eexists |].
  destruct (manifests_total 0 replacements) as [added |] eqn:Hadd; [| by eexists]. apply manifests_total_ok in Hadd.
  unfold checked_sub. rewrite decide_True by done.
  destruct (exceeds _ _) eqn:Hex; [by eexists |]. apply exceeds_false in Hex as (n & Hn & Hle). apply checked_add_Some in Hn as [-> _].
  destruct (plan_budget _ _ _ _ _ _) as [scratch |] eqn:Hb; [| by eexists]. apply plan_budget_ok in Hb as [Hroom Hf].
  destruct (record_retired_ok m retired (pm_topology m) (proj2 Hcur)) as (fences & -> & Hf1 & Hf2).
  destruct (check_replacements_total m fences (list_to_set (pi_group <$> retired)) retired (pg_end_tick first) replacements Hcur)
    as ([u | e] & -> & Hall); [| by eexists].
  eexists. split; [done |]. intros p [= <-]. constructor; simpl; try done; try lia.
  - intros groups members Hg Hm. eapply topology_bytes_mono; [exact Hf | lia | lia].
  - intros q b. by apply (Hall u).
Qed.

(** What a successful staging holds: a new group from every replacement, and nothing else. *)
Record staging_ok m (replacements : list (PublishedGroup W * PredictionBinding)) (p : ReplacePlan)
    (staged : PredictionManager St C D) (fences : TopologyFences) : Prop := {
  so_core : manager_core (pm_bytes m + rp_metadata p + rp_fence_scratch p) staged;
  so_limits : pm_limits staged = pm_limits m;
  so_entities : pm_entities staged = rp_added p;
  so_size : N.of_nat (size (pm_groups staged)) = len replacements;
  so_origin : forall k h, pm_groups staged !! k = Some h ->
    exists q b, (q, b) ∈ replacements /\ k = gp_group (pg_publication q) /\ starts_from q b h;
  so_all : forall q b, (q, b) ∈ replacements ->
    exists h, pm_groups staged !! gp_group (pg_publication q) = Some h /\ starts_from q b h;
  so_fences : exists n, topology_bytes fences = Some n /\ n <= rp_fence_scratch p;
}.

Lemma count_events_total m tick count retired :
  (forall id, id ∈ retired -> exists h, pm_groups m !! pi_group id = Some h /\ gh_identity h = id) ->
  exists r, count_events m tick count retired = Some r.
Proof.
  revert count. induction retired as [| id l IH]; intros count Hcur; simpl; [by eexists |].
  destruct (Hcur id (list_elem_of_here _ _)) as (h & -> & _). destruct (foldl _ _ _); [| by eexists].
  apply IH. intros id' Hin. apply Hcur. by right.
Qed.

Lemma stage_plan_ok base m retired replacements p :
  manager_core base m -> plan_ok m retired replacements p -> (forall q b, (q, b) ∈ replacements -> proof_ok q) ->
  exists r, stage_plan m retired replacements p = Some r
    /\ forall staged fences, r = Ok (staged, fences) -> staging_ok m replacements p staged fences.
Proof.
  intros Hc Hp Hproofs. unfold stage_plan.
  destruct (let? fresh := Manager_new _ _ in _) as [staged |] eqn:Hst; [| by eexists].
  unfold Manager_new in Hst. destruct (_ || _) in Hst; [done |].
  apply (stage_replacements_ok (pm_bytes m + rp_metadata p + rp_fence_scratch p)) in Hst; [| | exact Hproofs].
  2: { pose proof (pk_room _ _ _ _ Hp). destruct Hc. constructor; simpl; try done; rewrite ?map_sum_empty, ?map_size_empty; try lia.
       split_and!; simpl; lia. }
  destruct Hst as (Hcs & Hls & Hes & Hzs & _ & Horig & Hall). simpl in *.
  destruct (_ || _); [by eexists |].
  destruct (count_events_total m (rp_tick p) 0 retired (proj2 (pk_current _ _ _ _ Hp))) as ([events | e] & ->); [| by eexists].
  eexists. split; [done |]. intros staged' fences' Hr.
  destruct (checked_mul _ _ _); simpl in Hr; [| done]. destruct (reserve staged _); [| done]. injection Hr as <- <-.
  rewrite map_size_empty in Hzs. constructor; try done; try lia.
  - by rewrite (pk_added _ _ _ _ Hp).
  - intros k h Hk. destruct (Horig k h Hk) as [He | Hq]; [by rewrite lookup_empty in He | done].
  - pose proof (record_staged_size (rp_fences p) staged) as [Hs1 Hs2]. rewrite <- (mc_entities _ _ Hcs) in Hs2.
    rewrite Hes, N.add_0_l, <- (pk_added _ _ _ _ Hp) in Hs2.
    destruct (pk_fences _ _ _ _ Hp (N.of_nat (size (tf_groups (record_staged (rp_fences p) staged))))
                (N.of_nat (size (tf_members (record_staged (rp_fences p) staged))))) as (cost & Hn & Hle); [lia | lia |].
    exists cost. split; [| done]. unfold topology_bytes. by rewrite Hn.
Qed.

(** The manager after a replacement. *)
Record rebased m m' (retired : list PredictionIdentity) (replacements : list (PublishedGroup W * PredictionBinding))
    (rebase : AuthoritativeRebase) : Prop := {
  rb_tick : forall q b, (q, b) ∈ replacements -> pg_end_tick q = ar_tick rebase;
  rb_kept : forall k h, k ∉ (pi_group <$> retired) -> pm_groups m !! k = Some h -> pm_groups m' !! k = Some h;
  rb_started : forall q b, (q, b) ∈ replacements ->
    exists h, pm_groups m' !! gp_group (pg_publication q) = Some h /\ starts_from q b h;
  rb_only : forall k h, pm_groups m' !! k = Some h ->
    (k ∉ (pi_group <$> retired) /\ pm_groups m !! k = Some h)
    \/ exists q b, (q, b) ∈ replacements /\ k = gp_group (pg_publication q) /\ starts_from q b h;
  rb_current : current m retired;
  rb_events : ar_events rebase
    = mkEventChanges ∅ (canceled_events m (list_to_set (pi_group <$> retired)) retired (ar_tick rebase));
}.

(** Two managers with nothing in common make one. *)
Lemma manager_core_union base base1 base' m1 (staged : PredictionManager St C D) fences bytes :
  manager_core base1 m1 -> manager_core base' staged -> pm_limits staged = pm_limits m1 ->
  pm_groups staged ##ₘ pm_groups m1 ->
  (forall k k' h h', pm_groups m1 !! k = Some h -> pm_groups staged !! k' = Some h' ->
     no_shared_entity (pi_scopes (gh_identity h)) (pi_scopes (gh_identity h'))) ->
  N.of_nat (size (pm_groups staged)) + N.of_nat (size (pm_groups m1)) <= pl_groups (pm_limits m1) ->
  pm_entities m1 + pm_entities staged <= pl_total_entities (pm_limits m1) ->
  bytes = base + map_sum gh_bytes (pm_groups staged) + map_sum gh_bytes (pm_groups m1) ->
  bytes <= pl_history_bytes (pm_limits m1) ->
  manager_core base (m1 <| pm_groups := pm_groups staged ∪ pm_groups m1 |> <| pm_bytes := bytes |>
                       <| pm_topology := fences |> <| pm_entities := pm_entities m1 + pm_entities staged |>).
Proof.
  intros Hc Hs Hl Hd Hno Hg He Hb Hbud. constructor; simpl; rewrite ?map_sum_union by done; try apply Hc; try lia.
  - rewrite (mc_entities _ _ Hc), (mc_entities _ _ Hs). lia.
  - rewrite map_size_disj_union by done. lia.
  - intros k h [Hk | [_ Hk]]%lookup_union_Some_raw; [| by apply Hc]. rewrite <- Hl. by apply Hs.
  - intros k k' h h' [Hk | [_ Hk]]%lookup_union_Some_raw [Hk' | [_ Hk']]%lookup_union_Some_raw Hne.
    + by eapply (mc_disjoint _ _ Hs).
    + intros s s' Hs1 Hs2 Heq. by apply (Hno _ _ _ _ Hk' Hk s' s).
    + by eapply Hno.
    + by eapply (mc_disjoint _ _ Hc).
Qed.

Lemma replace_groups_ok m retired (replacements : list (PublishedGroup W * PredictionBinding)) :
  manager_inv m -> (forall q b, (q, b) ∈ replacements -> proof_ok q) ->
  exists m' r, replace_groups m retired replacements = Some (m', r) /\ manager_inv m'
    /\ pm_limits m' = pm_limits m /\ pm_connection m' = pm_connection m
    /\ match r with Err _ => m' = m | Ok rebase => rebased m m' retired replacements rebase end.
Proof.
  intros (base & Hbase & Hc) Hproofs. unfold replace_groups.
  assert (manager_inv m) as Hinv by (exists base; done).
  destruct (plan_replacement_ok base m retired replacements Hc) as ([p | e] & -> & Hplan); [| by eexists _, _].
  specialize (Hplan p eq_refl).
  destruct (stage_plan_ok base m retired replacements p Hc Hplan Hproofs) as ([[staged fences] | e] & -> & Hst); [| by eexists _, _].
  specialize (Hst _ _ eq_refl). pose proof (so_core _ _ _ _ _ Hst) as Hcs.
  destruct (remove_groups_ok base retired m Hc (pk_current _ _ _ _ Hplan)) as (m1 & -> & Hc1 & Hl1 & Ht1 & Hx1 & He1 & Hb1 & Hz1 & Hg1).
  destruct (so_fences _ _ _ _ _ Hst) as (cost & Hcost & Hle). rewrite Hbase, Hcost.
  pose proof (mc_bytes _ _ Hcs) as Hsb. pose proof (mc_bytes _ _ Hc1) as Hmb. pose proof (mc_budget _ _ Hcs) as Hbud.
  rewrite (so_limits _ _ _ _ _ Hst) in Hbud.
  unfold checked_sub. rewrite !decide_True by lia.
  assert (forall k h h', pm_groups staged !! k = Some h -> pm_groups m1 !! k = Some h' -> False) as Hfresh.
  { intros k h h' (q & b & Hin & -> & _)%(so_origin _ _ _ _ _ Hst) [Hk Hno]%Hg1.
    destruct (pk_replacements _ _ _ _ Hplan q b Hin) as (_ & Hret & _). rewrite (pk_retiring _ _ _ _ Hplan) in Hret.
    apply Hno. apply (elem_of_list_to_set (C:=gset GroupId)), Hret. by eexists. }
  assert (pm_groups staged ##ₘ pm_groups m1) as Hdisj by (apply map_disjoint_spec; exact Hfresh).
  assert (forall q b, (q, b) ∈ replacements -> pg_end_tick q = rp_tick p) as Htick.
  { intros q b Hin. by apply (pk_replacements _ _ _ _ Hplan q b). }
  eexists _, _. split; [reflexivity |]. rewrite <- (so_entities _ _ _ _ _ Hst). split; [| split; [exact Hl1 |]; split; [exact Hx1 |]].
  - exists cost. split; [exact Hcost |]. eapply manager_core_union; try done; rewrite ?(so_size _ _ _ _ _ Hst), ?Hl1.
    + by rewrite (so_limits _ _ _ _ _ Hst).
    + intros k k' h h' [Hk Hno]%Hg1 (q & b & Hin & -> & (dec & n & _ & _ & -> & _))%(so_origin _ _ _ _ _ Hst). simpl.
      apply (proj2 (proj2 (pk_replacements _ _ _ _ Hplan q b Hin)) k); [done |]. by rewrite (pk_retiring _ _ _ _ Hplan), elem_of_list_to_set.
    + pose proof (pk_groups _ _ _ _ Hplan). lia.
    + rewrite (so_entities _ _ _ _ _ Hst). pose proof (pk_entities _ _ _ _ Hplan). lia.
    + rewrite Hmb. lia.
    + lia.
  - constructor; simpl; try done.
    + intros k h Hno Hk. apply lookup_union_Some; [done |]. right. by apply Hg1.
    + intros q b Hin. destruct (so_all _ _ _ _ _ Hst q b Hin) as (h & Hh & Hs). exists h. split; [| done].
      apply lookup_union_Some; [done |]. by left.
    + intros k h [Hk | Hk]%lookup_union_Some; [| | done]; [right; by apply (so_origin _ _ _ _ _ Hst) | left].
      apply Hg1 in Hk. tauto.
    + apply (pk_current _ _ _ _ Hplan).
    + by rewrite (pk_retiring _ _ _ _ Hplan).
Qed.
End Manager.
