(* ===== verification/PredictionProps.v ===== *)
(** * Properties of prediction

    Every sequence of operations on a prediction manager, given only proofs that group
    assemblers hand out: histories are runs of the model, a reconciliation is the re-simulation
    of the recorded inputs, accounts are exact and bounded, and failures keep what was there.
    Nothing is assumed of the comparisons of payloads and states: a checkpoint that a comparison
    calls equal to the prediction replaces it without a replay, and the theorems say so. *)

From Stdlib Require Import Strings.Byte.
From S2P Require Import Prelude Types InterestModel Payload Commands Replication Groups GroupsProps GroupsDelivery Prediction PredictionFacts PredictionManager.
Local Open Scope N_scope.
Local Open Scope engine_scope.

Section Props.
Context `{LA : !Layout}.
Context {W St C D : Type} `{PW : !Payload W, PS : !Payload St, PC : !Payload C, PD : !Payload D}.
Context `{model : !PredictionModel W St C D}.
Implicit Types (h : GroupHistory St C D) (m : PredictionManager St C D).

(** ** Runs of a manager *)

(** A proof that some assembler hands out. The clone of a wire payload retains no more than its
    original. *)
Definition genuine (p : PublishedGroup W) : Prop :=
  exists size_full_state size_scope_identity clone connection connection' l cl g c acts w k,
    clone_fits clone /\ GroupAssembler_new connection l = Ok g /\ ClientScopes_new connection' cl = Ok c
    /\ group_run size_full_state size_scope_identity clone (mkGroupWorld g c []) acts = Some w
    /\ published_group (gw_asm w) k (gw_cli w) = Some p.

Lemma genuine_ok p : genuine p -> proof_ok p.
Proof.
  intros (sfs & ssi & clone & connection & connection' & lim & cl & g & c & acts & w & k & Hfit & Hg & Hc & Hrun & Hp).
  destruct (group_start clone _ _ _ _ _ _ Hg Hc) as [Hw _].
  destruct (group_run_ok sfs ssi clone acts _ Hfit Hw) as (w' & Hrun' & Hw' & _).
  assert (w' = w) as -> by congruence. by apply (published_proof_ok (gw_asm w) k (gw_cli w)), Hp; apply Hw'.
Qed.

Inductive prediction_action :=
| BeginFrame (frame : ReplicationFrame)
| Initialize (proof : PublishedGroup W) (binding : PredictionBinding)
| RemoveGroup (group : GroupId)
| Predict (group : GroupId) (command : C) (deps : DependencyFrame D)
| PredictSubstitute (group : GroupId) (target : ServerTick) (deps : DependencyFrame D)
| UpdateDependencies (group : GroupId) (tick : ServerTick) (deps : DependencyFrame D)
| Reconcile (proof : PublishedGroup W) (binding : PredictionBinding) (finalized : ServerTick)
| RevokeScope (scope : ScopeIdentity)
| ReplaceGroups (retired : list PredictionIdentity) (replacements : list (PublishedGroup W * PredictionBinding)).

Definition genuine_action (act : prediction_action) : Prop :=
  match act with
  | Initialize p _ | Reconcile p _ _ => genuine p
  | ReplaceGroups _ replacements => forall p b, (p, b) ∈ replacements -> genuine p
  | _ => True
  end.

(** The answer without its value. *)
Definition answer {R} (r : result PredictionError R) : result PredictionError unit :=
  match r with Ok _ => Ok tt | Err e => Err e end.
Definition answered {R} (o : option (PredictionManager St C D * result PredictionError R))
  : option (PredictionManager St C D * result PredictionError unit) :=
  match o with Some (m, r) => Some (m, answer r) | None => None end.

Definition prediction_step m (act : prediction_action)
  : option (PredictionManager St C D * result PredictionError unit) :=
  match act with
  | BeginFrame frame => Some (prediction_begin_frame m frame)
  | Initialize p b => Some (initialize m p b)
  | RemoveGroup k => match remove_group m k with Some (m, _) => Some (m, Ok tt) | None => None end
  | Predict k command deps => answered (predict m k command deps)
  | PredictSubstitute k target deps => answered (predict_substitute m k target deps)
  | UpdateDependencies k tick deps => answered (update_dependencies m k tick deps)
  | Reconcile p b finalized => answered (reconcile m p b finalized)
  | RevokeScope scope => Some (revoke_scope m scope, Ok tt)
  | ReplaceGroups retired replacements => answered (replace_groups m retired replacements)
  end.

Definition prediction_run m (acts : list prediction_action) : option (PredictionManager St C D) :=
  foldl (fun om act => match om with
                       | Some m => match prediction_step m act with Some (m, _) => Some m | None => None end
                       | None => None
                       end) (Some m) acts.

(** ** Every operation keeps the invariant *)

(** A failure changes at most the work counters and the recovery flag of one group. *)
Definition failure_keeps m m' (e : PredictionError) : Prop :=
  exists work, m' = m <| pm_work := work |>
  \/ exists k h reason, pm_groups m !! k = Some h /\ e = PResyncRequired reason
       /\ m' = m <| pm_work := work |> <| pm_groups := <[k := h <| gh_recovery := Some reason |>]> (pm_groups m) |>.

Definition step_ok m m' (r : result PredictionError unit) : Prop :=
  manager_inv m' /\ pm_limits m' = pm_limits m /\ pm_connection m' = pm_connection m
  /\ forall e, r = Err e -> failure_keeps m m' e.

Lemma failure_same m e : failure_keeps m m e.
Proof. exists (pm_work m). left. by destruct m. Qed.

Lemma with_group_step {R} m k (apply : PredictionManager St C D -> GroupHistory St C D -> option (group_result R))
    (Q : GroupHistory St C D -> group_result R -> Prop) :
  manager_inv m ->
  (forall m1 h, ready m1 h -> exists out, apply m1 h = Some out /\ outcome_ok m1 h out /\ Q h out) ->
  exists m' r, with_group m k apply = Some (m', r) /\ step_ok m m' (answer r)
    /\ forall x, r = Ok x -> exists h out, pm_groups m !! k = Some h /\ pm_groups m' = <[k := out.1.2]> (pm_groups m)
                             /\ Q h out /\ out.2 = Ok x.
Proof.
  intros (base & Hbase & Hc) Happly.
  destruct (with_group_ok base m k apply Q Hc Happly) as (m' & r & Hw & Hc' & Hl & Ht & Hx & Hcase).
  exists m', r. split; [done |].
  assert (manager_inv m') as Hinv by (exists base; rewrite Ht; done).
  destruct (pm_groups m !! k) as [h |] eqn:Hk.
  - destruct Hcase as (out & HQ & Ho & -> & Hm'). split.
    + split; [done |]. split; [done |]. split; [done |]. intros e He.
      assert (out.2 = Err e) as Hout by (destruct out.2; simpl in He; congruence).
      pose proof (group_bytes_le base m k h Hc Hk) as Hle. exists out.1.1.
      destruct (oo_failed _ _ _ Ho e Hout) as [Heq | (reason & Heq & ->)]; rewrite Hm', Heq; [left | right].
      * rewrite insert_id by done. destruct m; unfold set_field; simpl in *. f_equal. lia.
      * exists k, h, reason. split; [done |]. split; [done |]. destruct m; unfold set_field; simpl in *. f_equal. lia.
    + intros x Hxx. exists h, out. rewrite Hm'. by split_and!.
  - destruct Hcase as [-> ->]. split; [| done]. split_and!; try done. intros e _. apply failure_same.
Qed.

Lemma begin_frame_step m frame m' r :
  manager_inv m -> prediction_begin_frame m frame = (m', r) -> step_ok m m' r.
Proof.
  intros (base & Hbase & Hc) Hf. unfold prediction_begin_frame in Hf. destruct (match pm_frame m with Some _ => _ | None => _ end).
  - injection Hf as <- <-. split_and!; try done; [by exists base |]. intros e _. apply failure_same.
  - injection Hf as <- <-. split; [| by split_and!]. exists base. split; [done |]. destruct Hc. constructor; simpl; try done.
    split_and!; simpl; lia.
Qed.

Lemma revoke_scope_step m scope : manager_inv m -> step_ok m (revoke_scope m scope) (Ok tt).
Proof.
  intros (base & Hbase & Hc). split; [| by split_and!]. exists base. split; [done |]. unfold revoke_scope.
  set (f := fun h => if depends_on h scope then h <| gh_recovery := Some DisclosureRevoked |> else h).
  assert (forall h, gh_bytes (f h) = gh_bytes h /\ gh_identity (f h) = gh_identity h
                    /\ (history_inv (pm_limits m) h -> history_inv (pm_limits m) (f h))) as Hf.
  { intros h. unfold f. destruct (depends_on h scope); [| done]. split_and!; try done.
    intros [[] Hsz]. split; [by constructor | done]. }
  assert (forall (g : GroupHistory St C D -> N) (x : gmap GroupId (GroupHistory St C D)),
            (forall h, g (f h) = g h) -> map_sum g (f <$> x) = map_sum g x) as Hsum.
  { intros g x Hg. induction x as [| k h x Hk IH] using map_ind; [by rewrite fmap_empty |].
    rewrite fmap_insert, !map_sum_insert by (rewrite ?lookup_fmap, ?Hk; done). by rewrite IH, Hg. }
  assert (forall k h, (f <$> pm_groups m) !! k = Some h -> exists h0, pm_groups m !! k = Some h0 /\ h = f h0) as Hlook.
  { intros k h. rewrite lookup_fmap. intros (h0 & -> & ?)%fmap_Some. eauto. }
  constructor; simpl; try apply Hc.
  - rewrite Hsum by apply Hf. apply Hc.
  - rewrite Hsum; [apply Hc |]. intros h. unfold members. by rewrite (proj1 (proj2 (Hf h))).
  - rewrite map_size_fmap. apply Hc.
  - intros k h (h0 & Hk & ->)%Hlook. destruct (mc_history _ _ Hc k h0 Hk) as (? & ? & ?).
    rewrite (proj1 (proj2 (Hf h0))). split_and!; try done. by apply Hf.
  - intros k k' h h' (h0 & Hk & ->)%Hlook (h0' & Hk' & ->)%Hlook Hne. rewrite !(proj1 (proj2 (Hf _))).
    by eapply (mc_disjoint _ _ Hc).
Qed.

(** What a reconciliation leaves of one history. *)
Definition reconcile_spec (p : PublishedGroup W) (b : PredictionBinding) h (out : group_result Correction) : Prop :=
  forall correction, out.2 = Ok correction ->
    (correction = CorrectionStale /\ out.1.2 = h)
    \/ exists decoded, decode_group p b = Ok decoded
         /\ reconciled h out.1.2 (pg_end_tick p) (gp_snapshot (pg_publication p)) decoded correction.

Lemma reconcile_step m (p : PublishedGroup W) b finalized :
  manager_inv m ->
  exists m' r, reconcile m p b finalized = Some (m', r) /\ step_ok m m' (answer r)
    /\ forall correction, r = Ok correction -> exists h out,
         pm_groups m !! gp_group (pg_publication p) = Some h
         /\ pm_groups m' = <[gp_group (pg_publication p) := out.1.2]> (pm_groups m)
         /\ reconcile_spec p b h out /\ out.2 = Ok correction.
Proof.
  intros Hm. unfold reconcile. destruct (decide _).
  - exists m, (Err PInvalidIdentity). split; [done |]. split; [| done]. split_and!; try done. intros e _. apply failure_same.
  - apply with_group_step; [done |]. intros m1 h Hr. by apply reconcile_in_ok.
Qed.

Lemma prediction_step_ok m act :
  manager_inv m -> genuine_action act -> exists m' r, prediction_step m act = Some (m', r) /\ step_ok m m' r.
Proof.
  intros Hm Hact. destruct act as [frame | p b | k | k command deps | k target deps | k tick deps | p b fin | scope | retired repl];
    simpl in *.
  - destruct (prediction_begin_frame m frame) as [m' r] eqn:Hf. eexists _, _. split; [done |]. by eapply begin_frame_step.
  - destruct Hm as (base & Hbase & Hc). destruct (initialize m p b) as [m' r] eqn:Hi. eexists _, _. split; [done |].
    destruct (initialize_ok base m p b m' r Hc (genuine_ok p Hact) Hi) as (Hc' & Hl & Ht & Hx & Hcase).
    split; [exists base; by rewrite Ht |]. split; [done |]. split; [done |]. intros e ->. subst m'. apply failure_same.
  - destruct Hm as (base & Hbase & Hc).
    destruct (remove_group_ok base m k Hc) as (m' & b & -> & Hc' & Hl & Ht & Hx & _). eexists _, _. split; [done |].
    split; [exists base; by rewrite Ht | by split_and!].
  - destruct (with_group_step m k (predict_in (command_identity command).2 (InputCommand command) deps) (fun _ _ => True) Hm)
      as (m' & r & Hw & Hs & _).
    { intros m1 h Hr. destruct (predict_in_ok (command_identity command).2 (InputCommand command) deps m1 h Hr) as (out & ? & ? & _). eauto. }
    unfold predict, predict_input. rewrite Hw. by eexists _, _.
  - destruct (with_group_step m k (predict_in target Substitute deps) (fun _ _ => True) Hm) as (m' & r & Hw & Hs & _).
    { intros m1 h Hr. destruct (predict_in_ok target Substitute deps m1 h Hr) as (out & ? & ? & _). eauto. }
    unfold predict_substitute, predict_input. rewrite Hw. by eexists _, _.
  - destruct (with_group_step m k (update_in tick deps) (fun _ _ => True) Hm) as (m' & r & Hw & Hs & _).
    { intros m1 h Hr. destruct (update_in_ok tick deps m1 h Hr) as (out & ? & ? & _). eauto. }
    unfold update_dependencies. rewrite Hw. by eexists _, _.
  - destruct (reconcile_step m p b fin Hm) as (m' & r & -> & Hs & _). by eexists _, _.
  - eexists _, _. split; [done |]. by apply revoke_scope_step.
  - destruct (replace_groups_ok m retired repl Hm) as (m' & r & -> & Hm' & Hl & Hx & Hcase).
    { intros q b Hin. by eapply genuine_ok, Hact. }
    eexists _, _. split; [done |]. split; [done |]. split; [done |]. split; [done |].
    intros e He. destruct r as [x | e']; [done |]. subst m'. apply failure_same.
Qed.

Lemma manager_start connection l m :
  Manager_new connection l = Ok m -> pl_history_ticks l <= usize_max -> manager_inv m /\ pm_limits m = l.
Proof.
  unfold Manager_new. intros Hnew Hle. destruct (_ || _) eqn:Hbad in Hnew; [done |]. injection Hnew as <-. split; [| done].
  rewrite !orb_false_iff in Hbad. destruct Hbad as (((_ & _) & Ht%bool_decide_eq_false) & _).
  exists 0. split; [apply topology_bytes_empty |].
  constructor; simpl; rewrite ?map_sum_empty, ?map_size_empty; try done; try lia. split_and!; simpl; lia.
Qed.

Lemma prediction_run_ok acts : forall m,
  manager_inv m -> Forall genuine_action acts ->
  exists m', prediction_run m acts = Some m' /\ manager_inv m' /\ pm_limits m' = pm_limits m.
Proof.
  induction acts as [| act acts IH]; intros m Hm Hacts; [by exists m |]. apply Forall_cons in Hacts as [Hact Hacts].
  destruct (prediction_step_ok m act Hm Hact) as (m1 & r & Hs & Hm1 & Hl & _).
  destruct (IH m1 Hm1 Hacts) as (m' & Hrun & Hm' & Hl'). exists m'. split; [| split; [done | congruence]].
  unfold prediction_run in *. cbn [foldl]. by rewrite Hs.
Qed.

(** A manager that some run has reached. *)
Definition reached (l : PredictionLimits) m : Prop :=
  exists connection m0 acts, Manager_new connection l = Ok m0 /\ Forall genuine_action acts
    /\ prediction_run m0 acts = Some m.

Lemma reached_inv l m : pl_history_ticks l <= usize_max -> reached l m -> manager_inv m /\ pm_limits m = l.
Proof.
  intros Hle (connection & m0 & acts & Hnew & Hacts & Hrun). destruct (manager_start _ _ _ Hnew Hle) as [Hm0 Hl0].
  destruct (prediction_run_ok acts m0 Hm0 Hacts) as (m' & Hrun' & Hm' & Hl'). assert (m' = m) as -> by congruence.
  split; [done | congruence].
Qed.

(** ** Histories are runs of the model *)

(** The model run for [n] ticks after [tick] over the recorded inputs and samples: the reference
    that stored states are compared with. *)
Fixpoint resimulate (frames : gmap ServerTick (HistoryFrame St C D)) (n : nat) (tick : ServerTick) (state : St)
  : option St :=
  match n with
  | O => Some state
  | S n =>
      match frames !! (tick + 1) with
      | Some f =>
          match hf_input f with
          | Some input =>
              match step_input state (tick + 1) input (hf_dependencies f) with
              | Ok (state, _) => resimulate frames n (tick + 1) state
              | Err _ => None
              end
          | None => None
          end
      | None => None
      end
  end.

Lemma resimulate_simulated frames first last n : forall tick f,
  spans frames first last -> frames !! tick = Some f -> tick + N.of_nat n <= last ->
  (forall t, tick <= t < tick + N.of_nat n -> simulated frames t) ->
  exists f', frames !! (tick + N.of_nat n) = Some f' /\ resimulate frames n tick (hf_state f) = Some (hf_state f').
Proof.
  induction n as [| n IH]; intros tick f Hs Hf Hle Hsim; [exists f; simpl; by rewrite N.add_0_r |].
  assert (first <= tick) as Hge by (apply (proj2 Hs tick); eauto).
  destruct (proj2 (proj2 Hs (tick + 1))) as [f1 Hf1]; [lia |].
  destruct (Hsim tick ltac:(lia) f f1 Hf Hf1) as (input & Hi & Hstep).
  destruct (IH (tick + 1) f1 Hs Hf1) as (f' & Hf' & Hre); [lia | intros t Ht; apply Hsim; lia |].
  exists f'. split; [by replace (tick + N.of_nat (S n)) with (tick + 1 + N.of_nat n) by lia |].
  cbn [resimulate]. by rewrite Hf1, Hi, Hstep.
Qed.

(** Only inputs and samples after the start matter. *)
Lemma resimulate_agree frames frames' n : forall tick state state',
  (forall t f', tick < t -> frames' !! t = Some f' ->
     exists f, frames !! t = Some f /\ hf_input f' = hf_input f /\ hf_dependencies f' = hf_dependencies f) ->
  resimulate frames' n tick state = Some state' -> resimulate frames n tick state = Some state'.
Proof.
  induction n as [| n IH]; intros tick state state' Hag Hre; [done |]. simpl in *.
  destruct (frames' !! (tick + 1)) as [f' |] eqn:Hf'; [| done].
  destruct (Hag (tick + 1) f' ltac:(lia) Hf') as (f & -> & Hi & Hd). rewrite Hi, Hd in Hre.
  destruct (hf_input f) as [input |]; [| done]. destruct (step_input _ _ _ _) as [[s' e] |]; [| done].
  apply IH; [| done]. intros t g Ht. apply Hag. lia.
Qed.

(** A tick with its own input was simulated, so the next step was made from its very state. *)
Lemma followed_simulated frames t :
  followed frames t -> (forall f : HistoryFrame St C D, frames !! t = Some f -> is_Some (hf_input f)) ->
  simulated frames t.
Proof.
  intros Hfol Hin f f' Hf Hf'. destruct (Hfol f f' Hf Hf') as (input & from & Hi & _ & Hfrom & Hstep).
  exists input. split; [done |]. by rewrite <- (Hfrom (Hin f Hf)).
Qed.

(** The states after a tick are the run from one base, the stored state or, at a checkpoint, one
    it was found equal to. *)
Lemma run_followed frames first last tick stop (f : HistoryFrame St C D) :
  spans frames first last -> frames !! tick = Some f -> tick <= stop <= last ->
  (forall t g, frames !! t = Some g -> first < t -> is_Some (hf_input g)) ->
  (forall t, tick <= t < stop -> followed frames t) ->
  exists base, same_value (hf_state f) base /\ (is_Some (hf_input f) -> base = hf_state f)
    /\ forall n, (0 < n)%nat -> tick + N.of_nat n <= stop ->
         exists f', frames !! (tick + N.of_nat n) = Some f' /\ resimulate frames n tick base = Some (hf_state f').
Proof.
  intros Hs Hf Hstop Hin Hfol. assert (first <= tick) as Hge by (apply (proj2 Hs tick); eauto).
  destruct (decide (tick = stop)) as [-> | Hne].
  { exists (hf_state f). split; [apply rtc_refl |]. split; [done |]. lia. }
  destruct (proj2 (proj2 Hs (tick + 1))) as [f1 Hf1]; [lia |].
  destruct (Hfol tick ltac:(lia) f f1 Hf Hf1) as (input & base & Hi & Hbase & Hexact & Hstep).
  exists base. split; [done |]. split; [done |]. intros [| n] Hn Hle; [lia |].
  destruct (resimulate_simulated frames first last n (tick + 1) f1 Hs Hf1) as (f' & Hf' & Hre); [lia | |].
  { intros t Ht. apply followed_simulated; [apply Hfol; lia |]. intros g Hg. apply (Hin t g Hg). lia. }
  exists f'. split; [by replace (tick + N.of_nat (S n)) with (tick + 1 + N.of_nat n) by lia |].
  cbn [resimulate]. by rewrite Hf1, Hi, Hstep.
Qed.

(** A model that steps alike from states its comparison calls equal. *)
Definition steps_alike : Prop := forall (a b : St) tick input (deps : DependencyFrame D),
  payload_eq a b = true -> step_input a tick input deps = step_input b tick input deps.

Lemma resimulate_same frames n tick a b :
  steps_alike -> same_value a b -> (0 < n)%nat -> resimulate frames n tick a = resimulate frames n tick b.
Proof.
  intros Hal Hab Hn. induction Hab as [| a b c Heq _ IH]; [done |]. rewrite <- IH.
  destruct n as [| n]; [lia |]. cbn [resimulate]. destruct (frames !! (tick + 1)) as [f |]; [| done].
  destruct (hf_input f) as [input |]; [| done]. by rewrite (Hal a b _ _ _ Heq).
Qed.

(** C4 What is predicted is what the game computes. In every run nothing panics; the ticks of
    each history are unbroken from the oldest to the newest, the checkpoint is not after the
    newest, every tick after the oldest has its input, and the states stored after any tick are
    the model's run over the recorded inputs and samples, as long as no sample in between was
    replaced since. The run starts from the state stored at the tick; only where that is a
    checkpoint, which has no input of its own, it may start from a state that the comparison
    called equal to it, which is no difference for a model that steps alike from equal states. *)
Theorem prediction_histories_consistent connection l m0 acts :
  Manager_new connection l = Ok m0 -> pl_history_ticks l <= usize_max -> Forall genuine_action acts ->
  exists m, prediction_run m0 acts = Some m
  /\ forall k h, pm_groups m !! k = Some h -> exists first last,
       (forall t, is_Some (gh_frames h !! t) <-> first <= t <= last)
       /\ predicted_tick m k = Some last /\ gh_last_checkpoint h <= last
       /\ (forall t, first < t <= last -> is_Some (replay_input_history m k t))
       /\ forall t stop state, history_state m k t = Some state -> t <= stop <= last ->
            unchanged_before (gh_dirty_from h) stop ->
            exists base, same_value state base /\ (is_Some (replay_input_history m k t) -> base = state)
              /\ forall n, (0 < n)%nat -> t + N.of_nat n <= stop ->
                   is_Some (history_state m k (t + N.of_nat n))
                   /\ resimulate (gh_frames h) n t base = history_state m k (t + N.of_nat n)
                   /\ (steps_alike -> resimulate (gh_frames h) n t state = history_state m k (t + N.of_nat n)).
Proof.
  intros Hnew Hle Hacts. destruct (manager_start _ _ _ Hnew Hle) as [Hm0 _].
  destruct (prediction_run_ok acts m0 Hm0 Hacts) as (m & Hrun & (base & _ & Hc) & _). exists m. split; [done |].
  intros k h Hk. destruct (mc_history _ _ Hc k h Hk) as ([Hh _] & _). destruct (hi_span _ Hh) as (first & last & Hs & Hck & Hin).
  exists first, last. split; [apply Hs |]. split.
  { unfold predicted_tick. rewrite Hk. by destruct (newest_spans h first last Hs) as (f & -> & _). }
  split; [done |]. unfold replay_input_history, history_state, frame_at. rewrite Hk. split.
  { intros t Ht. destruct (proj2 (proj2 Hs t)) as [f Hf]; [lia |]. rewrite Hf. apply (Hin t f Hf). lia. }
  intros t stop state (f & Hf & ->)%fmap_Some Hstop Hdirty. rewrite Hf. cbn.
  destruct (run_followed (gh_frames h) first last t stop f Hs Hf Hstop Hin) as (from & Hfrom & Hexact & Hre).
  { intros t' Ht'. apply (hi_steps _ Hh). intros d Hd. specialize (Hdirty d Hd). lia. }
  exists from. split; [done |]. split; [done |]. intros n Hn Hnle. destruct (Hre n Hn Hnle) as (f' & -> & Hrun').
  split; [by eexists |]. split; [done |]. intros Hal. by rewrite (resimulate_same _ n t _ from Hal Hfrom Hn).
Qed.

(** ** Reconciliation is re-simulation *)

(** The states after the checkpoint, as a run over the inputs and samples recorded before it. *)
Lemma reconciled_run h h' checkpoint last snapshot decoded correction :
  history_core h' -> reconciled h h' checkpoint snapshot decoded correction -> last_key (gh_frames h) = Some last ->
  exists base, same_value (dp_state decoded) base /\ (correction <> CorrectionEqual -> base = dp_state decoded)
    /\ forall n, (0 < n)%nat -> checkpoint + N.of_nat n <= last ->
         exists f, gh_frames h' !! (checkpoint + N.of_nat n) = Some f
           /\ resimulate (gh_frames h) n checkpoint base = Some (hf_state f)
           /\ (steps_alike -> resimulate (gh_frames h) n checkpoint (dp_state decoded) = Some (hf_state f)).
Proof.
  intros Hh' (last' & Hlast & Hs & (f0 & Hf0 & Hst0 & _) & Hag & Hfol & Hsim & _) Hl. assert (last' = last) as -> by congruence.
  destruct (hi_span _ Hh') as (first & last' & Hs' & _ & Hin). destruct (spans_agree _ _ _ _ _ Hs' Hs) as [-> ->].
  assert (exists base, same_value (dp_state decoded) base /\ (correction <> CorrectionEqual -> base = dp_state decoded)
            /\ forall n, (0 < n)%nat -> checkpoint + N.of_nat n <= last ->
                 exists f, gh_frames h' !! (checkpoint + N.of_nat n) = Some f
                   /\ resimulate (gh_frames h') n checkpoint base = Some (hf_state f)) as (base & H1 & H2 & H3).
  { destruct correction as [| | | from through changes] eqn:Hcor.
    2: { destruct (run_followed (gh_frames h') checkpoint last checkpoint last f0 Hs Hf0) as (base & H1 & _ & H3); try done;
           [pose proof (proj1 Hs); lia |]. exists base. rewrite <- Hst0. by split_and!. }
    all: exists (dp_state decoded); split; [apply rtc_refl |]; split; [done |]; intros n _ Hle; rewrite <- Hst0;
      apply (resimulate_simulated _ checkpoint last); try done; intros; by apply Hsim. }
  exists base. split; [done |]. split; [done |]. intros n Hn Hle. destruct (H3 n Hn Hle) as (f & Hf & Hre).
  apply (resimulate_agree (gh_frames h)) in Hre; [| done]. exists f. split; [done |]. split; [done |].
  intros Hal. by rewrite (resimulate_same _ n checkpoint _ base Hal H1 Hn).
Qed.

(** C3 In every reachable manager a checkpoint is reconciled without panic, and when it is taken
    over the history starts at it, with the state decoded from it; the state at each later tick
    up to the newest predicted one is what the model gives when it is run from the decoded state
    over the inputs and samples recorded before; nothing is left to redo; and the reported event
    changes are exactly those between the old and the new history. A checkpoint answered as equal
    keeps the later states: these are the run from a state that the comparison called equal to
    the decoded one, hence from the decoded one itself for a model that steps alike from equal
    states. A stale one changes no history. *)
Theorem reconcile_is_resimulation l m (p : PublishedGroup W) b finalized :
  pl_history_ticks l <= usize_max -> reached l m ->
  exists m' r, reconcile m p b finalized = Some (m', r)
  /\ forall correction, r = Ok correction ->
       (correction = CorrectionStale /\ pm_groups m' = pm_groups m)
       \/ exists decoded h h' last, decode_group p b = Ok decoded
            /\ pm_groups m !! gp_group (pg_publication p) = Some h
            /\ pm_groups m' = <[gp_group (pg_publication p) := h']> (pm_groups m)
            /\ last_key (gh_frames h) = Some last /\ first_key (gh_frames h') = Some (pg_end_tick p)
            /\ last_key (gh_frames h') = Some last /\ gh_dirty_from h' = None
            /\ history_state m' (gp_group (pg_publication p)) (pg_end_tick p) = Some (dp_state decoded)
            /\ (exists base, same_value (dp_state decoded) base
                  /\ (correction <> CorrectionEqual -> base = dp_state decoded)
                  /\ forall n, (0 < n)%nat -> pg_end_tick p + N.of_nat n <= last ->
                       exists f, gh_frames h' !! (pg_end_tick p + N.of_nat n) = Some f
                         /\ resimulate (gh_frames h) n (pg_end_tick p) base = Some (hf_state f)
                         /\ (steps_alike ->
                             resimulate (gh_frames h) n (pg_end_tick p) (dp_state decoded) = Some (hf_state f)))
            /\ match correction with
               | CorrectionStale => False
               | CorrectionEqual => forall t, pg_end_tick p < t -> gh_frames h' !! t = gh_frames h !! t
               | CorrectionReplaced => pg_end_tick p = last
               | CorrectionReplayed from through changes =>
                   from = pg_end_tick p + 1 /\ through = last /\ from <= through
                   /\ forall e, (e ∈ started changes <-> e ∈ events_between h' (pg_end_tick p) last
                                                          /\ e ∉ events_between h (pg_end_tick p) last)
                             /\ (e ∈ canceled changes <-> e ∈ events_between h (pg_end_tick p) last
                                                           /\ e ∉ events_between h' (pg_end_tick p) last)
               end.
Proof.
  intros Hle Hreach. destruct (reached_inv l m Hle Hreach) as [Hm _].
  destruct (reconcile_step m p b finalized Hm) as (m' & r & Hrec & ((base & _ & Hc') & _) & Hok).
  exists m', r. split; [done |]. intros correction Hr. destruct (Hok correction Hr) as (h & out & Hk & Hm' & Hspec & Hout).
  destruct (Hspec correction Hout) as [[-> Heq] | (decoded & Hdec & Hrd)].
  { left. split; [done |]. by rewrite Hm', Heq, insert_id. }
  right. pose proof Hrd as (last & Hlast & Hs & (f0 & Hf0 & Hst0 & _ & _) & _ & _ & _ & Hclean & _ & _ & Hcase).
  destruct (spans_keys _ _ _ Hs) as [Hfirst' Hlast']. exists decoded, h, out.1.2, last. split_and!; try done.
  - unfold history_state, frame_at. rewrite Hm', lookup_insert_eq, Hf0. simpl. by rewrite Hst0.
  - assert (pm_groups m' !! gp_group (pg_publication p) = Some out.1.2) as Hk' by by rewrite Hm', lookup_insert_eq.
    destruct (mc_history _ _ Hc' _ _ Hk') as ([Hh' _] & _).
    exact (reconciled_run h out.1.2 _ last _ decoded correction Hh' Hrd Hlast).
  - destruct correction as [| | | from through changes]; try done. destruct Hcase as (-> & -> & Hlt & ->).
    split; [done |]. split; [done |]. split; [lia |]. intros e. simpl. by rewrite !elem_of_difference.
Qed.

(** ** Accounts and budgets *)

(** C21 In every run the bytes of a manager are exactly those of its fences and groups, each
    group's exactly those of its identity and frames, and each frame's exactly the charge of what
    it holds; the members are exactly those of the groups; all stay within the limits, as do the
    groups, the ticks of each history and the work of the current frame; and no entity is
    predicted by two groups, or twice by one. *)
Theorem prediction_accounts_exact connection l m0 acts :
  Manager_new connection l = Ok m0 -> pl_history_ticks l <= usize_max -> Forall genuine_action acts ->
  exists m fences, prediction_run m0 acts = Some m /\ topology_bytes (pm_topology m) = Some fences
  /\ pm_bytes m = fences + map_sum gh_bytes (pm_groups m) /\ pm_bytes m <= pl_history_bytes l
  /\ pm_entities m = map_sum (fun h => N.of_nat (size (pi_scopes (gh_identity h)))) (pm_groups m)
  /\ pm_entities m <= pl_total_entities l /\ N.of_nat (size (pm_groups m)) <= pl_groups l
  /\ replay_ticks (pm_work m) <= pl_replay_ticks_per_frame l
  /\ replay_entity_steps (pm_work m) <= pl_replay_entity_steps_per_frame l
  /\ predicted_ticks (pm_work m) <= pl_prediction_ticks_per_frame l
  /\ predicted_entity_steps (pm_work m) <= pl_prediction_entity_steps_per_frame l
  /\ (forall k h, pm_groups m !! k = Some h ->
        N.of_nat (size (gh_frames h)) <= pl_history_ticks l + 1
        /\ (exists own, identity_bytes (pi_scopes (gh_identity h)) = Ok own
             /\ gh_bytes h = own + map_sum hf_bytes (gh_frames h))
        /\ forall t f, gh_frames h !! t = Some f -> frame_bytes f = Ok (hf_bytes f) /\ valid_state (hf_state f) = true)
  /\ forall k k' h h' s s', pm_groups m !! k = Some h -> pm_groups m !! k' = Some h' ->
       s ∈ pi_scopes (gh_identity h) -> s' ∈ pi_scopes (gh_identity h') ->
       index (scope_entity s) = index (scope_entity s') -> k = k' /\ s = s'.
Proof.
  intros Hnew Hle Hacts. destruct (manager_start _ _ _ Hnew Hle) as [Hm0 Hl0].
  destruct (prediction_run_ok acts m0 Hm0 Hacts) as (m & Hrun & (base & Hbase & Hc) & Hl). rewrite Hl0 in Hl. exists m, base.
  destruct (mc_work _ _ Hc) as (? & ? & ? & ?). rewrite <- Hl. do 2 (split; [done |]). do 9 (split; [by apply Hc |]). split.
  - intros k h Hk. destruct (mc_history _ _ Hc k h Hk) as ([Hh Hsz] & _). split; [done |].
    split; [apply (hi_bytes _ Hh) | apply (hi_frames _ Hh)].
  - intros k k' h h' s s' Hk Hk' Hs Hs' Hidx. destruct (decide (k = k')) as [-> | Hne].
    + split; [done |]. assert (h' = h) as -> by congruence. destruct (mc_history _ _ Hc k' h Hk) as (_ & _ & Hone). by apply Hone.
    + destruct (mc_disjoint _ _ Hc k k' h h' Hk Hk' Hne s s' Hs Hs' Hidx).
Qed.

(** ** Failures *)

(** C22 In every reachable manager no operation panics, and one that fails leaves everything as it
    was, but for the counters of the frame's work and, when it answers that a group must be
    resynchronized, the flag of that group. *)
Theorem prediction_failures_keep_state l m act :
  pl_history_ticks l <= usize_max -> reached l m -> genuine_action act ->
  exists m' r, prediction_step m act = Some (m', r)
  /\ forall e, r = Err e -> exists work,
       m' = m <| pm_work := work |>
       \/ exists k h reason, pm_groups m !! k = Some h /\ e = PResyncRequired reason
            /\ m' = m <| pm_work := work |>
                      <| pm_groups := <[k := h <| gh_recovery := Some reason |>]> (pm_groups m) |>.
Proof.
  intros Hle Hreach Hact. destruct (reached_inv l m Hle Hreach) as [Hm _].
  destruct (prediction_step_ok m act Hm Hact) as (m' & r & Hs & _ & _ & _ & Hfail). exists m', r. by split.
Qed.

(** ** Replacing groups *)

Definition in_future m (retired : list PredictionIdentity) (tick : ServerTick) (e : ActionKey) : Prop :=
  exists id h t f, id ∈ retired /\ pm_groups m !! pi_group id = Some h /\ gh_frames h !! t = Some f
    /\ tick < t /\ e ∈ hf_events f.
Definition still_predicted m (retiring : gset GroupId) (tick : ServerTick) (e : ActionKey) : Prop :=
  exists k h t f, pm_groups m !! k = Some h /\ gh_frames h !! t = Some f /\ (k ∉ retiring \/ t <= tick) /\ e ∈ hf_events f.

Lemma elem_of_canceled m retiring retired tick e :
  e ∈ canceled_events m retiring retired tick
  <-> in_future m retired tick e /\ ~ still_predicted m retiring tick e.
Proof.
  unfold canceled_events. rewrite elem_of_difference, !elem_of_union_list. f_equiv; [| f_equiv].
  - split.
    + intros (X & (id & -> & Hid)%list_elem_of_fmap & He). destruct (pm_groups m !! pi_group id) as [h |] eqn:Hh; [| set_solver].
      apply elem_of_union_list in He as (Y & (f & -> & Hf)%list_elem_of_fmap & He). unfold frames_after in Hf.
      apply list_elem_of_fmap in Hf as ([t f'] & -> & [Hlt Hin]%list_elem_of_filter). apply elem_of_map_to_list in Hin.
      exists id, h, t, f'. by split_and!.
    + intros (id & h & t & f & Hid & Hh & Hf & Hlt & He). eexists. split; [apply list_elem_of_fmap; by exists id |]. rewrite Hh.
      apply elem_of_union_list. exists (hf_events f). split; [| done]. apply list_elem_of_fmap_2. unfold frames_after.
      apply list_elem_of_fmap. exists (t, f). split; [done |]. apply list_elem_of_filter. split; [done |]. by apply elem_of_map_to_list.
  - split.
    + intros (X & ([k h] & -> & Hk%elem_of_map_to_list)%list_elem_of_fmap & He).
      apply elem_of_union_list in He as (Y & ([t f] & -> & [Hor Hin%elem_of_map_to_list]%list_elem_of_filter)%list_elem_of_fmap & He).
      exists k, h, t, f. by split_and!.
    + intros (k & h & t & f & Hk & Hf & Hor & He). eexists. split; [apply list_elem_of_fmap; exists (k, h); split; [done |]; by apply elem_of_map_to_list |].
      apply elem_of_union_list. exists (hf_events f). split; [| done]. apply list_elem_of_fmap. exists (t, f). split; [done |].
      apply list_elem_of_filter. split; [done |]. by apply elem_of_map_to_list.
Qed.

(** C19 In every reachable manager a replacement of groups happens whole or not at all. When it
    fails, the manager is exactly as it was. When it succeeds, the retired identities were the
    current ones, every other group is untouched, each replacement starts from the state decoded
    from its own publication at the one common tick, there is no other group, and the canceled
    events are exactly those the retired groups predicted after that tick and nothing kept
    predicts. *)
Theorem replacement_is_atomic l m retired (replacements : list (PublishedGroup W * PredictionBinding)) :
  pl_history_ticks l <= usize_max -> reached l m -> (forall p b, (p, b) ∈ replacements -> genuine p) ->
  exists m' r, replace_groups m retired replacements = Some (m', r)
  /\ match r with
     | Err _ => m' = m
     | Ok rebase =>
         (forall id, id ∈ retired -> manager_identity m (pi_group id) = Some id)
         /\ (forall k, k ∉ (pi_group <$> retired) -> is_Some (pm_groups m !! k) -> pm_groups m' !! k = pm_groups m !! k)
         /\ (forall p b, (p, b) ∈ replacements ->
              pg_end_tick p = ar_tick rebase
              /\ exists decoded, decode_group p b = Ok decoded
                   /\ manager_state m' (gp_group (pg_publication p)) = Some (dp_state decoded)
                   /\ predicted_tick m' (gp_group (pg_publication p)) = Some (ar_tick rebase)
                   /\ manager_identity m' (gp_group (pg_publication p))
                      = Some (mkPredictionIdentity b (gp_group (pg_publication p)) (gp_revision (pg_publication p))
                                (list_to_set (pg_manifest p))))
         /\ (forall k, is_Some (pm_groups m' !! k) ->
              ((k ∉ (pi_group <$> retired)) /\ is_Some (pm_groups m !! k))
              \/ exists p b, (p, b) ∈ replacements /\ k = gp_group (pg_publication p))
         /\ started (ar_events rebase) = ∅
         /\ forall e, e ∈ canceled (ar_events rebase)
              <-> in_future m retired (ar_tick rebase) e
                  /\ ~ still_predicted m (list_to_set (pi_group <$> retired)) (ar_tick rebase) e
     end.
Proof.
  intros Hle Hreach Hgen. destruct (reached_inv l m Hle Hreach) as [Hm _].
  destruct (replace_groups_ok m retired replacements Hm) as (m' & r & Hr & _ & _ & _ & Hcase).
  { intros q b Hin. by eapply genuine_ok, Hgen. }
  exists m', r. split; [done |]. destruct r as [rebase | e]; [| done]. destruct Hcase as [R1 R2 R3 R4 R5 R6].
  rewrite R6. simpl. split_and!; [| | | | done | intros e; apply elem_of_canceled].
  - intros id Hid. destruct (proj2 R5 id Hid) as (h & Hh & Heq). unfold manager_identity. rewrite Hh. simpl. by rewrite Heq.
  - intros k Hk [h Hh]. rewrite Hh. by apply R2.
  - intros p b Hin. rewrite <- (R1 p b Hin). split; [done |].
    destruct (R3 p b Hin) as (h & Hh & decoded & bytes & Hdec & Hf & Hid & _). exists decoded. split; [done |].
    unfold manager_state, predicted_tick, manager_identity, newest. rewrite Hh, Hf.
    assert (last_key (A:=HistoryFrame St C D) {[pg_end_tick p := mkHistoryFrame (dp_state decoded) None (dp_dependencies decoded) ∅ bytes]}
            = Some (pg_end_tick p)) as ->.
    { apply last_key_spec. rewrite lookup_singleton_eq. split; [by eexists |]. intros t. rewrite lookup_singleton_is_Some. lia. }
    rewrite lookup_singleton_eq. simpl. by rewrite Hid.
  - intros k [h [[Hk Hh] | (q & b & Hin & -> & _)]%R4]; [left; split; [done | by eexists] | right; by exists q, b].
Qed.
End Props.

(** A game of two entities whose state is one count: a command doubles it and adds its own value,
    an odd count is an event; a substitute doubles only. A state also keeps the room of the vectors
    it was decoded from, which its comparison ignores as that of vectors does. *)
Module PredictionDemo.
#[export] Instance layout : Layout := {|
  size_State := 8; size_Command := 24; size_HistoryFrame := 96; size_GroupHistory := 160;
  size_PredictionManager := 256; size_DependencyFrame := 24; size_DependencyRecord := 72; size_EntityId := 16;
  size_ActionKey := 32; size_ScopeIdentity := 40; size_GroupId := 8; size_fence_group := 32; size_fence_member := 144 |}.
Record Command := mkCommand { sequence : N; target : N; value : N }.
Record Tally := mkTally { count : N; room : N }.
#[export] Instance tally_payload : Payload Tally := {|
  payload_eq a b := bool_decide (count a = count b); retained_bytes := room |}.
#[export] Instance command_payload : Payload Command := {|
  payload_eq a b := bool_decide (sequence a = sequence b /\ target a = target b /\ value a = value b);
  retained_bytes _ := 0 |}.
Definition owner : OwnerStream := mkOwnerStream 1 4 1 (mkEntityId 1 1) 1.
Definition binding : PredictionBinding := mkPredictionBinding owner 1 0.
Definition advance (s : Tally) (tick : ServerTick) (n : N) : result PredictionError (Tally * gset ActionKey) :=
  let s := mkTally (2 * count s + n) (room s) in Ok (s, if N.odd (count s) then {[mkActionKey 4 1 tick 0]} else ∅).
Definition decode_member (c : ClientScopes ByteVec) (s : ScopeIdentity) (acc : Tally) : Tally :=
  match client_state c (scope_entity s) with
  | Some st => mkTally (foldr (fun b n => Byte.to_N b + n) (count acc) (vec_bytes (fs_payload st)))
                 (vec_capacity (fs_payload st) + room acc)
  | None => acc
  end.
#[export] Instance model : PredictionModel ByteVec Tally Command (list byte) := {|
  decode_group p _ := Ok (mkDecodedPrediction (foldr (decode_member (pg_client p)) (mkTally 0 0) (pg_manifest p)) ∅);
  valid_state s := bool_decide (count s < 1000);
  command_identity c := (owner, sequence c, target c);
  valid_command _ := true;
  required_dependencies _ _ := [];
  step s tick c _ := advance s tick (value c);
  step_substitute s tick _ := advance s tick 0 |}.

(** The two members published together with [b] in each, in vectors of the given capacity. *)
Definition publish (revision snapshot tick : N) (b : byte) (capacity : N) : group_action (P:=ByteVec) :=
  GroupReceive (mkGroupChunk (mkGroupPublication 4 9 revision snapshot) tick [GroupDemo.scope 1; GroupDemo.scope 2]
                  2 0 1 [mkFullState (GroupDemo.scope 1) 1 snapshot snapshot tick (mkByteVec [b] capacity);
                         mkFullState (GroupDemo.scope 2) 1 snapshot snapshot tick (mkByteVec [b] capacity)] (2 * capacity)) 5 GroupDemo.any.

Definition world_after (acts : list (group_action (P:=ByteVec))) : GroupWorld :=
  match group_run 80 40 GroupDemo.clone GroupDemo.world acts with Some w => w | None => GroupDemo.world end.
Definition proof_of (acts : list (group_action (P:=ByteVec))) : PublishedGroup ByteVec :=
  match published_group (gw_asm (world_after acts)) 9 (gw_cli (world_after acts)) with
  | Some p => p
  | None => mkPublishedGroup GroupDemo.key 0 [] GroupDemo.client
  end.
Lemma proof_genuine acts :
  is_some (group_run 80 40 GroupDemo.clone GroupDemo.world acts) = true ->
  is_some (published_group (gw_asm (world_after acts)) 9 (gw_cli (world_after acts))) = true -> genuine (proof_of acts).
Proof.
  intros Hrun Hpub. exists 80, 40, GroupDemo.clone, 4, 4, GroupLimits_default, ScopeLimits_default, GroupDemo.assembler, GroupDemo.client, acts,
    (world_after acts), 9. split; [exact GroupDemo.clone_fit |]. split; [by vm_compute |]. split; [by vm_compute |]. split.
  - change (mkGroupWorld GroupDemo.assembler GroupDemo.client []) with GroupDemo.world. unfold world_after.
    by destruct (group_run 80 40 GroupDemo.clone GroupDemo.world acts).
  - unfold proof_of. by destruct (published_group (gw_asm (world_after acts)) 9 (gw_cli (world_after acts))).
Qed.

(** Authority at tick 10, at tick 12 of the same revision with another state and with the one
    predicted, once in a larger vector, and at tick 12 of the next revision. *)
Definition first_proof : PublishedGroup ByteVec := proof_of [publish 1 1 10 Byte.x01 1].
Definition later_proof : PublishedGroup ByteVec := proof_of [publish 1 1 10 Byte.x01 1; publish 1 2 12 Byte.x04 1].
Definition equal_proof : PublishedGroup ByteVec := proof_of
  [publish 1 1 10 Byte.x01 1; publish 1 2 12 Byte.x05 1;
   ClientMessage (MsgState (mkFullState (GroupDemo.scope 1) 1 2 2 12 (mkByteVec [Byte.x05] 8)) GroupDemo.any)].
Definition next_proof : PublishedGroup ByteVec := proof_of [publish 2 3 12 Byte.x05 1].
Lemma first_genuine : genuine first_proof.
Proof. apply proof_genuine; by vm_compute. Qed.
Lemma later_genuine : genuine later_proof.
Proof. apply proof_genuine; by vm_compute. Qed.
Lemma next_genuine : genuine next_proof.
Proof. apply proof_genuine; by vm_compute. Qed.

Definition limits : PredictionLimits := PredictionLimits_default.
Definition fresh : PredictionManager Tally Command (list byte) :=
  mkPredictionManager 4 limits ∅ 0 0 None PredictionWork_default (mkTopologyFences ∅ ∅).
(** Three ticks ahead of tick 10: 2, then 5, 10, 21. *)
Definition ahead : list (prediction_action (W:=ByteVec) (C:=Command) (D:=list byte)) :=
  [BeginFrame 1; Initialize first_proof binding; Predict 9 (mkCommand 1 11 1) ∅; PredictSubstitute 9 12 ∅;
   Predict 9 (mkCommand 2 13 1) ∅].
Lemma ahead_genuine : Forall genuine_action ahead.
Proof. repeat constructor. apply first_genuine. Qed.
Definition reached_ahead : PredictionManager Tally Command (list byte) :=
  match prediction_run fresh ahead with Some m => m | None => fresh end.
Lemma ahead_runs : prediction_run fresh ahead = Some reached_ahead.
Proof.
  unfold reached_ahead. assert (is_some (prediction_run fresh ahead) = true) as Hs by by vm_compute.
  by destruct (prediction_run fresh ahead).
Qed.
Lemma ahead_reached : reached (W:=ByteVec) limits reached_ahead.
Proof. exists 4, fresh, ahead. split; [by vm_compute |]. split; [apply ahead_genuine | apply ahead_runs]. Qed.
Lemma ahead_group : exists h, pm_groups reached_ahead !! 9 = Some h /\ gh_dirty_from h = None.
Proof.
  destruct (pm_groups reached_ahead !! 9) as [h |] eqn:Hh.
  - exists h. split; [done |].
    assert (match pm_groups reached_ahead !! 9 with Some h => gh_dirty_from h | None => None end = None) as Hd by by vm_compute.
    by rewrite Hh in Hd.
  - assert (is_some (pm_groups reached_ahead !! 9) = true) as Hs by by vm_compute. by rewrite Hh in Hs.
Qed.
Lemma state_work (m : PredictionManager Tally Command (list byte)) work k :
  manager_state (m <| pm_work := work |>) k = manager_state m k.
Proof. done. Qed.
Definition predicted_identity : PredictionIdentity :=
  mkPredictionIdentity binding 9 1 {[GroupDemo.scope 1; GroupDemo.scope 2]}.
End PredictionDemo.
Import PredictionDemo.

Lemma prediction_histories_consistent_witness :
  exists h, pm_groups reached_ahead !! 9 = Some h /\ predicted_tick reached_ahead 9 = Some 13
    /\ resimulate (gh_frames h) 2 11 (mkTally 5 2) = Some (mkTally 21 2).
Proof.
  destruct (prediction_histories_consistent 4 limits fresh ahead) as (m & Hrun & Hm).
  { vm_compute. reflexivity. }
  { vm_compute. discriminate. }
  { exact ahead_genuine. }
  rewrite ahead_runs in Hrun. apply (inj Some) in Hrun as <-. destruct ahead_group as (h & Hh & Hclean). exists h. split; [exact Hh |].
  destruct (Hm 9 h Hh) as (first & last & _ & Hlast & _ & _ & Hre).
  assert (last = 13) as -> by (revert Hlast; vm_compute; by intros [= <-]). split; [exact Hlast |].
  destruct (Hre 11 13 (mkTally 5 2)) as (base & _ & Hbase & Hn).
  { by vm_compute. }
  { split; by vm_compute. }
  { rewrite Hclean. by intros d [=]. }
  rewrite Hbase in Hn by (vm_compute; eexists; reflexivity).
  destruct (Hn 2%nat) as (_ & Hrun' & _); [lia | by vm_compute |]. rewrite Hrun'. by vm_compute.
Defined.

(** The prediction is corrected by another state, and kept by an equal one: then the state at the
    checkpoint has the room of the vectors it was decoded from and the one after it that of the earlier ones. *)
Lemma reconcile_is_resimulation_witness :
  (exists m' changes, reconcile reached_ahead later_proof binding 12 = Some (m', Ok (CorrectionReplayed 13 13 changes))
    /\ history_state m' 9 12 = Some (mkTally 8 2) /\ manager_state m' 9 = Some (mkTally 17 2))
  /\ exists m', reconcile reached_ahead equal_proof binding 12 = Some (m', Ok CorrectionEqual)
    /\ history_state m' 9 12 = Some (mkTally 10 9) /\ manager_state m' 9 = Some (mkTally 21 2).
Proof.
  split.
  - destruct (reconcile_is_resimulation limits reached_ahead later_proof binding 12) as (m' & r & Hrec & Hok).
    { vm_compute. discriminate. }
    { exact ahead_reached. }
    assert (exists changes, r = Ok (CorrectionReplayed 13 13 changes)) as (changes & ->).
    { assert (match reconcile reached_ahead later_proof binding 12 with
              | Some (_, Ok (CorrectionReplayed a b _)) => (a, b) | _ => (0, 0) end = (13, 13)) as Hr by by vm_compute.
      rewrite Hrec in Hr. clear Hrec Hok. destruct r as [[| | | a b changes] |]; try discriminate Hr. injection Hr as -> ->. by exists changes. }
    exists m', changes. split; [exact Hrec |].
    destruct (Hok _ eq_refl) as [[[=] _] | (decoded & h & h' & last & Hdec & _ & Hm' & _ & _ & Hlast & _ & Hat & _)].
    assert (gp_group (pg_publication later_proof) = 9 /\ pg_end_tick later_proof = 12) as [E1 E2] by (split; by vm_compute).
    rewrite E1, E2 in Hat. split; [rewrite Hat; revert Hdec; clear; vm_compute; by intros [= <-] |].
    assert (option_map (fun x => manager_state x.1 9) (reconcile reached_ahead later_proof binding 12)
            = Some (Some (mkTally 17 2))) as Hv by by vm_compute.
    rewrite Hrec in Hv. by injection Hv.
  - destruct (reconcile_is_resimulation limits reached_ahead equal_proof binding 12) as (m' & r & Hrec & Hok).
    { vm_compute. discriminate. }
    { exact ahead_reached. }
    assert (r = Ok CorrectionEqual) as ->.
    { assert (option_map snd (reconcile reached_ahead equal_proof binding 12) = Some (Ok CorrectionEqual)) as Hr by by vm_compute.
      rewrite Hrec in Hr. by injection Hr. }
    exists m'. split; [exact Hrec |].
    destruct (Hok _ eq_refl) as [[[=] _] | (decoded & h & h' & last & Hdec & _ & Hm' & _ & _ & Hlast & _ & Hat & _)].
    assert (gp_group (pg_publication equal_proof) = 9 /\ pg_end_tick equal_proof = 12) as [E1 E2] by (split; by vm_compute).
    rewrite E1, E2 in Hat. split; [rewrite Hat; revert Hdec; clear; vm_compute; by intros [= <-] |].
    assert (option_map (fun x => manager_state x.1 9) (reconcile reached_ahead equal_proof binding 12)
            = Some (Some (mkTally 21 2))) as Hv by by vm_compute.
    rewrite Hrec in Hv. by injection Hv.
Defined.

Lemma prediction_accounts_exact_witness :
  exists m fences, prediction_run fresh ahead = Some m /\ topology_bytes (pm_topology m) = Some fences
    /\ pm_bytes m = fences + map_sum gh_bytes (pm_groups m) /\ pm_entities m = 2 /\ predicted_ticks (pm_work m) = 3.
Proof.
  destruct (prediction_accounts_exact 4 limits fresh ahead) as (m & cost & Hrun & Hf & Hb & _).
  { vm_compute. reflexivity. }
  { vm_compute. discriminate. }
  { exact ahead_genuine. }
  exists m, cost. split; [exact Hrun |]. split; [exact Hf |]. split; [exact Hb |].
  rewrite ahead_runs in Hrun. apply (inj Some) in Hrun as <-. split; vm_compute; reflexivity.
Defined.

Lemma prediction_failures_keep_state_witness :
  exists m' e, prediction_step reached_ahead (Predict 9 (mkCommand 2 12 1) ∅) = Some (m', Err e) /\ e = PEquivocation
    /\ manager_state m' 9 = manager_state reached_ahead 9.
Proof.
  destruct (prediction_failures_keep_state limits reached_ahead (Predict 9 (mkCommand 2 12 1) ∅))
    as (m' & r & Hs & Hfail).
  { vm_compute. discriminate. }
  { exact ahead_reached. }
  { exact I. }
  assert (option_map snd (prediction_step (W:=ByteVec) reached_ahead (Predict 9 (mkCommand 2 12 1) ∅))
          = Some (Err PEquivocation)) as Hr by by vm_compute.
  rewrite Hs in Hr. injection Hr as ->. exists m', PEquivocation. split; [exact Hs |]. split; [reflexivity |].
  destruct (Hfail _ eq_refl) as (work & [-> | (k & h & reason & _ & [=] & _)]). apply state_work.
Defined.

Lemma replacement_is_atomic_witness :
  exists m' rebase, replace_groups reached_ahead [predicted_identity] [(next_proof, binding)] = Some (m', Ok rebase)
    /\ manager_state m' 9 = Some (mkTally 10 2) /\ predicted_tick m' 9 = Some 12 /\ mkActionKey 4 1 13 0 ∈ canceled (ar_events rebase).
Proof.
  destruct (replacement_is_atomic limits reached_ahead [predicted_identity] [(next_proof, binding)])
    as (m' & r & Hrep & Hcase).
  { vm_compute. discriminate. }
  { exact ahead_reached. }
  { intros p b [[= -> ->] | ?%elem_of_nil]%elem_of_cons; [exact next_genuine | done]. }
  assert (option_map (fun x => is_ok x.2) (replace_groups reached_ahead [predicted_identity] [(next_proof, binding)])
          = Some true) as Hr by by vm_compute.
  rewrite Hrep in Hr. destruct r as [rebase | e]; [| discriminate Hr]. exists m', rebase. split; [exact Hrep |].
  assert (option_map (fun x => (manager_state x.1 9, predicted_tick x.1 9,
            match x.2 with Ok rebase => bool_decide (mkActionKey 4 1 13 0 ∈ canceled (ar_events rebase)) | Err _ => false end))
            (replace_groups reached_ahead [predicted_identity] [(next_proof, binding)])
          = Some (Some (mkTally 10 2), Some 12, true)) as Hv by by vm_compute.
  rewrite Hrep in Hv. injection Hv as Hv1 Hv2 Hv3. split; [exact Hv1 |]. split; [exact Hv2 |].
  exact (bool_decide_eq_true_1 _ Hv3).
Defined.
