(* ===== verification/Baselines.v ===== *)
(** * Delta baselines

    Models [engine/net/src/replication/baselines/]: the opt-in layer that sends a state as the
    difference to one the receiver is known to retain. [ServerBaselines] keeps the states it
    sent, [ClientBaselines] those it decoded; both are a bounded cache in the order of
    snapshots. A [Vec<u8>] is its bytes with their capacity; [allocate] is the capacity an
    allocation gets, and the sizes of the entries' layout are parameters. [None] is a panic. *)

From Stdlib Require Import Strings.Byte.
From S2P Require Import Prelude Types InterestModel Codec Payload Replication.
Local Open Scope N_scope.
Local Open Scope engine_scope.

(** ** Data *)

Record BaselineContext := mkBaselineContext {
  bc_scope : ScopeIdentity;
  bc_schema : SchemaId;
  bc_group : option (GroupId * GroupRevision);
}.
#[export] Instance BaselineContext_eq_dec : EqDecision BaselineContext.
Proof. solve_decision. Defined.

Definition context_validate (c : BaselineContext) : result ReplicationError unit :=
  let? _u := validate_scope (bc_scope c) (scope_connection (bc_scope c)) in
  if bool_decide (bc_schema c = 0)
     || match bc_group c with Some (id, rev) => bool_decide (id = 0) || bool_decide (rev = 0) | None => false end
  then Err InvalidIdentity
  else Ok tt.

Record BaselineReceipt := mkBaselineReceipt {
  br_context : BaselineContext;
  br_generation : BaselineGeneration;
  br_snapshot : SnapshotId;
  br_version : StateVersion;
  br_end_tick : ServerTick;
}.
#[export] Instance BaselineReceipt_eq_dec : EqDecision BaselineReceipt.
Proof. solve_decision. Defined.

Inductive BaselineEncoding :=
| EncodedFull
| EncodedDelta (base : BaselineReceipt).

Record BaselinePacket := mkBaselinePacket {
  bp_target : BaselineReceipt;
  bp_encoding : BaselineEncoding;
  bp_bytes : ByteVec;
}.

Definition is_full (e : BaselineEncoding) : bool := match e with EncodedFull => true | EncodedDelta _ => false end.

Record BaselineRetirement := mkBaselineRetirement {
  rt_context : BaselineContext;
  rt_generation : BaselineGeneration;
  rt_through : SnapshotId;
}.
#[export] Instance BaselineRetirement_eq_dec : EqDecision BaselineRetirement.
Proof. solve_decision. Defined.

Record BaselineReset := mkBaselineReset { rs_context : BaselineContext; rs_generation : BaselineGeneration }.
Record BaselineRepair := mkBaselineRepair { rq_context : BaselineContext; rq_generation : BaselineGeneration }.

Record BaselineLimits := mkBaselineLimits {
  bl_slots : N;
  bl_payload_bytes : N;
  bl_packet_bytes : N;
  bl_resident_bytes : N;
  bl_peak_bytes : N;
  bl_repair_interval_ms : N;
}.
Definition BaselineLimits_default : BaselineLimits :=
  mkBaselineLimits 8 16384 (16384 + 12) (160 * 1024) (200 * 1024) 1000.

(** ** Codecs *)

(** [trait BaselineCodec<P>]. *)
Class BaselineCodec (P : Type) := {
  encode_full : P -> N -> result ReplicationError ByteVec;
  encode_delta : P -> P -> N -> result ReplicationError ByteVec;
  decode_full : list byte -> N -> result ReplicationError P;
  decode_delta : P -> list byte -> N -> result ReplicationError P;
  codec_validate : P -> bool;
}.

Section Cache.
(** [size_of::<Entry<P>>()] and [size_of::<ClientBaselines<P>>()], and what an allocation gets. *)
Context (size_Entry size_ClientBaselines : N) (allocate : N -> N).
Context {P : Type} `{PP : !Payload P, codec : !BaselineCodec P}.

Record BaselineState := mkBaselineState {
  bs_receipt : BaselineReceipt;
  bs_payload : P;
}.
(** The derived [PartialEq]. *)
Definition baseline_eq (a b : BaselineState) : bool :=
  bool_decide (bs_receipt a = bs_receipt b) && payload_eq (bs_payload a) (bs_payload b).

Record Entry := mkEntry {
  en_state : BaselineState;
  en_decoded : bool;
}.
#[export] Instance eta_Entry : Eta Entry := fun r => mkEntry (en_state r) (en_decoded r).
Definition en_receipt (e : Entry) : BaselineReceipt := bs_receipt (en_state e).
Definition en_snapshot (e : Entry) : SnapshotId := br_snapshot (en_receipt e).
Definition en_bytes (e : Entry) : N := retained_bytes (bs_payload (en_state e)).

Record Cache := mkCache {
  ca_context : BaselineContext;
  ca_generation : BaselineGeneration;
  ca_limits : BaselineLimits;
  ca_entries : list Entry;
  ca_bytes : N;
  ca_retired : SnapshotId;
  ca_latest : option BaselineReceipt;
  ca_closed : bool;
}.
#[export] Instance eta_Cache : Eta Cache := fun r =>
  mkCache (ca_context r) (ca_generation r) (ca_limits r) (ca_entries r) (ca_bytes r) (ca_retired r)
    (ca_latest r) (ca_closed r).

Definition metadata_bytes (slots : N) : option N :=
  match checked_mul usize_max slots size_Entry with
  | Some n => checked_add usize_max n size_ClientBaselines
  | None => None
  end.

Definition Cache_new (context : BaselineContext) (generation : BaselineGeneration) (l : BaselineLimits)
  : result ReplicationError Cache :=
  let? _u := context_validate context in
  if decide (generation = 0) then Err InvalidIdentity
  else
    let? metadata := ok_or (metadata_bytes (bl_slots l)) InvalidConfiguration in
    let? minimum := ok_or (checked_add usize_max metadata (bl_payload_bytes l)) InvalidConfiguration in
    let? peak := ok_or (match checked_add usize_max (bl_resident_bytes l) (bl_payload_bytes l) with
                        | Some n => checked_add usize_max n (bl_packet_bytes l)
                        | None => None
                        end) InvalidConfiguration in
    if decide (bl_slots l < 2 \/ bl_payload_bytes l = 0 \/ bl_packet_bytes l = 0 \/ bl_resident_bytes l < minimum
               \/ bl_peak_bytes l < peak \/ bl_repair_interval_ms l = 0)
    then Err InvalidConfiguration
    else
      let? bytes := ok_or (metadata_bytes (allocate (bl_slots l))) Capacity in
      if match checked_add usize_max bytes (bl_payload_bytes l) with
         | Some n => bool_decide (bl_resident_bytes l < n)
         | None => true
         end
      then Err Capacity
      else Ok (mkCache context generation l [] bytes 0 None false).

Definition envelope (c : Cache) (context : BaselineContext) (generation : BaselineGeneration)
  : result ReplicationError unit :=
  if ca_closed c || bool_decide (context <> ca_context c) || bool_decide (generation <> ca_generation c)
  then Err Stale else Ok tt.

Definition identity (c : Cache) (r : BaselineReceipt) : result ReplicationError unit :=
  let? _u := envelope c (br_context r) (br_generation r) in
  if decide (br_snapshot r = 0 \/ br_version r = 0) then Err InvalidIdentity
  else if decide (br_snapshot r <= ca_retired c) then Err (Obsolete RetiredBaseline)
  else Ok tt.

(** [entries.iter().find(|e| e.state.receipt.snapshot == snapshot)]. *)
Definition find_snapshot (c : Cache) (snapshot : SnapshotId) : option Entry :=
  List.find (fun e => bool_decide (en_snapshot e = snapshot)) (ca_entries c).

Definition entry (c : Cache) (r : BaselineReceipt) : result ReplicationError Entry :=
  let? _u := identity c r in
  let? e := ok_or (find_snapshot c (br_snapshot r)) Unknown in
  if decide (en_receipt e <> r) then Err Conflict else Ok e.

(** Whether the state is new and may be inserted. *)
Definition check (c : Cache) (s : BaselineState) : result ReplicationError bool :=
  let r := bs_receipt s in
  let? _u := identity c r in
  let size := retained_bytes (bs_payload s) in
  if decide (bl_payload_bytes (ca_limits c) < size) then Err Capacity
  else
    match find_snapshot c (br_snapshot r) with
    | Some e => if baseline_eq (en_state e) s then Ok false else Err Conflict
    | None =>
        let? _u := match ca_latest c with
                   | None => Ok tt
                   | Some latest =>
                       if bool_decide (br_version r = br_version latest)
                          && match last (ca_entries c) with
                             | Some e => negb (payload_eq (bs_payload (en_state e)) (bs_payload s))
                             | None => false
                             end
                       then Err Conflict
                       else if decide (br_snapshot r < br_snapshot latest /\ br_version r <= br_version latest
                                       /\ br_end_tick r <= br_end_tick latest)
                       then Err (Obsolete ObsoletePublication)
                       else if decide (br_snapshot r <= br_snapshot latest \/ br_version r < br_version latest
                                       \/ br_end_tick r < br_end_tick latest)
                       then Err Conflict
                       else Ok tt
                   end in
        if bool_decide (bl_slots (ca_limits c) <= len (ca_entries c))
           || match checked_add usize_max (ca_bytes c) size with
              | Some n => bool_decide (bl_resident_bytes (ca_limits c) < n)
              | None => true
              end
        then Err Capacity
        else Ok true
    end.

Definition insert_state (c : Cache) (s : BaselineState) (decoded : bool) : Cache :=
  c <| ca_bytes := ca_bytes c + retained_bytes (bs_payload s) |> <| ca_latest := Some (bs_receipt s) |>
    <| ca_entries := ca_entries c ++ [mkEntry s decoded] |>.

Definition retirement (c : Cache) (f : BaselineRetirement) : result ReplicationError unit :=
  let? _u := envelope c (rt_context f) (rt_generation f) in
  if decide (rt_through f = 0) then Err InvalidIdentity
  else if decide (rt_through f <= ca_retired c) then Ok tt
  else if negb (existsb (fun e => en_decoded e && bool_decide (rt_through f < en_snapshot e)) (ca_entries c))
  then Err Incomplete
  else Ok tt.

(** The bytes left when the entries are dropped one by one. *)
Fixpoint release (l : list Entry) (bytes : N) : option N :=
  match l with
  | [] => Some bytes
  | e :: l => match checked_sub bytes (en_bytes e) with Some n => release l n | None => None end
  end.

Definition discard_through (c : Cache) (through : SnapshotId) : option Cache :=
  if decide (through <= ca_retired c) then Some c
  else
    match release (filter (fun e => en_snapshot e <= through) (ca_entries c)) (ca_bytes c) with
    | None => None
    | Some bytes =>
        Some (c <| ca_entries := filter (fun e => ~ en_snapshot e <= through) (ca_entries c) |>
                <| ca_bytes := bytes |> <| ca_retired := through |>)
    end.

Definition clear_entries (c : Cache) : option Cache :=
  match release (ca_entries c) (ca_bytes c) with
  | Some bytes => Some (c <| ca_entries := [] |> <| ca_bytes := bytes |>)
  | None => None
  end.

(** [reset]: a failure is answered with the cache as it was. *)
Definition reset_cache (c : Cache) (r : BaselineReset) : option (Cache * result ReplicationError unit) :=
  if ca_closed c || bool_decide (rs_context r <> ca_context c) || bool_decide (rs_generation r < ca_generation c)
  then Some (c, Err Stale)
  else if decide (rs_generation r = ca_generation c) then Some (c, Ok tt)
  else match clear_entries c with
       | Some c => Some (c <| ca_generation := rs_generation r |>, Ok tt)
       | None => None
       end.

Definition close_cache (c : Cache) : option Cache :=
  match clear_entries c with Some c => Some (c <| ca_closed := true |>) | None => None end.

(** ** The server *)

(** [ServerBaselines] is its cache. *)
Definition newest_decoded (c : Cache) : option BaselineReceipt :=
  en_receipt <$> List.find en_decoded (rev (ca_entries c)).

(** A full encoding within the packet limit. *)
Definition keyframe (c : Cache) (p : P) : result ReplicationError (BaselineEncoding * ByteVec) :=
  let? bytes := encode_full p (bl_packet_bytes (ca_limits c)) in
  Ok (EncodedFull, bytes).

Definition encode_against (c : Cache) (s : BaselineState) (base : BaselineReceipt)
  : result ReplicationError (BaselineEncoding * ByteVec) :=
  let? e := entry c base in
  if negb (en_decoded e) then Err Unknown
  else if decide (br_snapshot (bs_receipt s) <= br_snapshot base) then Err InvalidIdentity
  else
    let limit := bl_packet_bytes (ca_limits c) in
    let? full := encode_full (bs_payload s) limit in
    if decide (limit < vec_capacity full) then Err Capacity
    else
      match encode_delta (bs_payload (en_state e)) (bs_payload s) limit with
      | Ok delta =>
          if decide (limit < vec_capacity delta) then Err Capacity
          else if decide (len (vec_bytes delta) < len (vec_bytes full)) then Ok (EncodedDelta base, delta)
          else keyframe c (bs_payload s)
      | Err Capacity => keyframe c (bs_payload s)
      | Err e => Err e
      end.

(** What [transmit] offers to the transport, and whether the state is new. *)
Definition prepare_packet (c : Cache) (s : BaselineState) (base : option BaselineReceipt)
  : result ReplicationError (bool * BaselinePacket) :=
  let? fresh := check c s in
  if negb (codec_validate (bs_payload s)) then Err InvalidPayload
  else
    let? encoded := match base with
                    | Some base => encode_against c s base
                    | None => keyframe c (bs_payload s)
                    end in
    if decide (bl_packet_bytes (ca_limits c) < vec_capacity encoded.2) then Err Capacity
    else Ok (fresh, mkBaselinePacket (bs_receipt s) encoded.1 encoded.2).

Definition transmit_state (c : Cache) (s : BaselineState) (base : option BaselineReceipt)
    (send : BaselinePacket -> bool) : Cache * result ReplicationError bool :=
  match prepare_packet c s base with
  | Err e => (c, Err e)
  | Ok (fresh, packet) =>
      if negb (send packet) then (c, Ok false)
      else ((if fresh then insert_state c s false else c), Ok true)
  end.

Definition validate_acknowledgment (c : Cache) (r : BaselineReceipt) : result ReplicationError unit :=
  let? _e := entry c r in Ok tt.

(** [iter_mut().find(|e| e.state.receipt == receipt).unwrap().decoded = true]. *)
Fixpoint mark_decoded (r : BaselineReceipt) (l : list Entry) : option (list Entry) :=
  match l with
  | [] => None
  | e :: l =>
      if decide (en_receipt e = r) then Some (e <| en_decoded := true |> :: l)
      else match mark_decoded r l with Some l => Some (e :: l) | None => None end
  end.

Definition acknowledge_state (c : Cache) (r : BaselineReceipt) : option (Cache * result ReplicationError unit) :=
  match validate_acknowledgment c r with
  | Err e => Some (c, Err e)
  | Ok _ => match mark_decoded r (ca_entries c) with
            | Some l => Some (c <| ca_entries := l |>, Ok tt)
            | None => None
            end
  end.

Definition validate_retirement (c : Cache) (f : BaselineRetirement) : result ReplicationError unit := retirement c f.

Definition retire (c : Cache) (f : BaselineRetirement)
  : option (Cache * result ReplicationError BaselineRetirement) :=
  match validate_retirement c f with
  | Err e => Some (c, Err e)
  | Ok _ => match discard_through c (rt_through f) with Some c => Some (c, Ok f) | None => None end
  end.

Definition begin_reset (c : Cache) : option (Cache * result ReplicationError BaselineReset) :=
  match checked_next u64_max (ca_generation c) with
  | None => Some (c, Err ResetRequired)
  | Some generation =>
      let r := mkBaselineReset (ca_context c) generation in
      match reset_cache c r with
      | None => None
      | Some (c, Err e) => Some (c, Err e)
      | Some (c, Ok _) => Some (c, Ok r)
      end
  end.

(** ** The client *)

Record ClientBaselines := mkClientBaselines {
  cb_cache : Cache;
  cb_proposed : option BaselineRetirement;
  cb_repair_pending : bool;
  cb_last_repair_ms : option N;
}.
#[export] Instance eta_ClientBaselines : Eta ClientBaselines := fun r =>
  mkClientBaselines (cb_cache r) (cb_proposed r) (cb_repair_pending r) (cb_last_repair_ms r).

Definition ClientBaselines_new (context : BaselineContext) (generation : BaselineGeneration) (l : BaselineLimits)
  : result ReplicationError ClientBaselines :=
  let? cache := Cache_new context generation l in
  Ok (mkClientBaselines cache None false None).

Definition current_state (b : ClientBaselines) : option BaselineState :=
  en_state <$> last (ca_entries (cb_cache b)).
Definition baseline_state (b : ClientBaselines) (r : BaselineReceipt) : result ReplicationError BaselineState :=
  let? e := entry (cb_cache b) r in Ok (en_state e).

(** The envelope on its own: a delta refers to an earlier state of the same cache. *)
Definition check_packet (p : BaselinePacket) : result ReplicationError unit :=
  let t := bp_target p in
  let? _u := context_validate (br_context t) in
  if decide (br_generation t = 0 \/ br_snapshot t = 0 \/ br_version t = 0) then Err InvalidIdentity
  else match bp_encoding p with
       | EncodedDelta base =>
           if decide (br_context base <> br_context t \/ br_generation base <> br_generation t
                      \/ br_snapshot base = 0 \/ br_version base = 0 \/ br_snapshot t <= br_snapshot base
                      \/ br_version t < br_version base \/ br_end_tick t < br_end_tick base)
           then Err InvalidIdentity else Ok tt
       | EncodedFull => Ok tt
       end.

(** Snapshot order agrees with the order of versions and ticks. *)
Definition check_order (latest : option BaselineReceipt) (t : BaselineReceipt) : result ReplicationError unit :=
  match latest with
  | None => Ok tt
  | Some r =>
      if decide ((br_snapshot t < br_snapshot r /\ (br_version r < br_version t \/ br_end_tick r < br_end_tick t))
                 \/ (br_snapshot r < br_snapshot t /\ (br_version t < br_version r \/ br_end_tick t < br_end_tick r))
                 \/ (br_snapshot t = br_snapshot r /\ (br_version t <> br_version r \/ br_end_tick t <> br_end_tick r)))
      then Err Conflict else Ok tt
  end.

(** A full payload that will not be kept is still decoded and validated before the answer. *)
Definition validated_then {A} (c : Cache) (p : BaselinePacket) (validate : P -> bool) (e : ReplicationError)
  : result ReplicationError A :=
  if is_full (bp_encoding p) then
    let? payload := decode_full (vec_bytes (bp_bytes p)) (bl_payload_bytes (ca_limits c)) in
    if negb (codec_validate payload) || negb (validate payload) then Err InvalidPayload else Err e
  else Err e.

Definition is_obsolete (e : ReplicationError) : bool := match e with Obsolete _ => true | _ => false end.

(** Everything that is refused before the payload is decoded to be kept. *)
Definition screen (c : Cache) (p : BaselinePacket) (validate : P -> bool) : result ReplicationError unit :=
  let t := bp_target p in
  if decide (bl_packet_bytes (ca_limits c) < vec_capacity (bp_bytes p)) then Err Capacity
  else
    let? _u := check_packet p in
    let? _u := check_order (ca_latest c) t in
    if negb (ca_closed c) && bool_decide (br_context t = ca_context c)
       && bool_decide (br_generation t < ca_generation c)
    then validated_then c p validate (Obsolete RetiredBaseline)
    else if negb (ca_closed c) && bool_decide (br_context t = ca_context c)
            && bool_decide (checked_next u64_max (ca_generation c) = Some (br_generation t))
            && is_full (bp_encoding p)
    then validated_then c p validate BaselineResetPending
    else match identity c t with
         | Err e => if is_obsolete e then validated_then c p validate e else Err e
         | Ok _ =>
             match ca_latest c with
             | Some latest =>
                 if bool_decide (br_snapshot t < br_snapshot latest)
                    && negb (existsb (fun e => bool_decide (en_snapshot e = br_snapshot t)) (ca_entries c))
                 then if decide (br_version latest < br_version t \/ br_end_tick latest < br_end_tick t)
                      then Err Conflict
                      else validated_then c p validate (Obsolete ObsoletePublication)
                 else Ok tt
             | None => Ok tt
             end
         end.

(** The payload, or the error and whether a repair is wanted. *)
Definition decode_packet (c : Cache) (p : BaselinePacket) : (ReplicationError * bool) + P :=
  let t := bp_target p in
  let answer r := match r with Ok payload => inr payload | Err e => inl (e, false) end in
  match bp_encoding p with
  | EncodedFull => answer (decode_full (vec_bytes (bp_bytes p)) (bl_payload_bytes (ca_limits c)))
  | EncodedDelta base =>
      if decide (br_context base <> br_context t \/ br_generation base <> br_generation t
                 \/ br_snapshot t <= br_snapshot base)
      then inl (InvalidIdentity, false)
      else match entry c base with
           | Ok e => answer (decode_delta (bs_payload (en_state e)) (vec_bytes (bp_bytes p)) (bl_payload_bytes (ca_limits c)))
           | Err err =>
               inl (err, negb (is_obsolete err)
                         && match ca_latest c with Some r => bool_decide (br_snapshot r < br_snapshot t) | None => true end)
           end
  end.

Definition receive_baseline (b : ClientBaselines) (p : BaselinePacket) (validate : P -> bool)
  : ClientBaselines * result ReplicationError BaselineReceipt :=
  let c := cb_cache b in
  match screen c p validate with
  | Err e => (b, Err e)
  | Ok _ =>
      match decode_packet c p with
      | inl (e, repair) => ((if repair then b <| cb_repair_pending := true |> else b), Err e)
      | inr payload =>
          if negb (codec_validate payload) || negb (validate payload) then (b, Err InvalidPayload)
          else
            let s := mkBaselineState (bp_target p) payload in
            match check c s with
            | Err e => (b, Err e)
            | Ok fresh =>
                let b := if fresh then b <| cb_cache := insert_state c s true |> else b in
                ((if is_full (bp_encoding p) then b <| cb_repair_pending := false |> else b), Ok (bp_target p))
            end
      end
  end.

Definition propose_retirement (b : ClientBaselines) (through : SnapshotId)
  : ClientBaselines * result ReplicationError BaselineRetirement :=
  let c := cb_cache b in
  let request := mkBaselineRetirement (ca_context c) (ca_generation c) through in
  match retirement c request with
  | Err e => (b, Err e)
  | Ok _ =>
      if decide (through <= ca_retired c) then (b, Err Stale)
      else if match cb_proposed b with Some old => bool_decide (old <> request) | None => false end
      then (b, Err Incomplete)
      else (b <| cb_proposed := Some request |>, Ok request)
  end.

Definition acknowledge_retirement (b : ClientBaselines) (f : BaselineRetirement)
  : option (ClientBaselines * result ReplicationError unit) :=
  let c := cb_cache b in
  match envelope c (rt_context f) (rt_generation f) with
  | Err e => Some (b, Err e)
  | Ok _ =>
      if decide (rt_through f <= ca_retired c) then Some (b, Ok tt)
      else if decide (cb_proposed b <> Some f) then Some (b, Err Unknown)
      else match retirement c f with
           | Err e => Some (b, Err e)
           | Ok _ =>
               match discard_through c (rt_through f) with
               | Some c => Some (b <| cb_cache := c |> <| cb_proposed := None |>, Ok tt)
               | None => None
               end
           end
  end.

Definition request_reset (b : ClientBaselines) : ClientBaselines := b <| cb_repair_pending := true |>.

Definition repair_request (b : ClientBaselines) (now_ms : N) : ClientBaselines * option BaselineRepair :=
  let c := cb_cache b in
  if ca_closed c || negb (cb_repair_pending b)
     || match cb_last_repair_ms b with
        | Some last => bool_decide (now_ms < saturating_add u64_max last (bl_repair_interval_ms (ca_limits c)))
        | None => false
        end
  then (b, None)
  else (b <| cb_last_repair_ms := Some now_ms |>, Some (mkBaselineRepair (ca_context c) (ca_generation c))).

Definition apply_reset (b : ClientBaselines) (r : BaselineReset)
  : option (ClientBaselines * result ReplicationError unit) :=
  let changed := bool_decide (rs_generation r <> ca_generation (cb_cache b)) in
  match reset_cache (cb_cache b) r with
  | None => None
  | Some (_, Err e) => Some (b, Err e)
  | Some (c, Ok _) =>
      let b := b <| cb_cache := c |> in
      Some (if changed then b <| cb_proposed := None |> <| cb_repair_pending := true |> else b, Ok tt)
  end.

Definition close_client (b : ClientBaselines) : option ClientBaselines :=
  match close_cache (cb_cache b) with
  | Some c => Some (b <| cb_cache := c |> <| cb_proposed := None |> <| cb_repair_pending := false |>)
  | None => None
  end.
End Cache.
Arguments BaselineState : clear implicits.
Arguments Entry : clear implicits.
Arguments Cache : clear implicits.
Arguments ClientBaselines : clear implicits.
