(* ===== verification/BytePatch.v ===== *)
(** * The byte patch codec

    Models [engine/net/src/replication/baselines/bytes.rs]: a state is sent as the length of the
    whole, the lengths of the prefix and suffix it shares with the base, and what is between.
    The laws that the baseline caches need of a codec are a class; this codec is an instance. *)

From Stdlib Require Import Strings.Byte.
From S2P Require Import Prelude Types Codec Payload Replication Baselines.
Local Open Scope N_scope.
Local Open Scope engine_scope.

(** ** What the caches need of a codec *)

(** Payloads that compare equal. *)
Definition same {P} `{Payload P} (a b : P) : Prop := payload_eq a b = true.

(** Decoding gives back the encoded payload or refuses for its size; payloads that compare equal
    serve equally as bases and in validation. *)
Class LawfulCodec (P : Type) `{PP : !Payload P, codec : !BaselineCodec P} := {
  same_equivalence :: Equivalence (same (P:=P));
  full_decodes (v : P) limit bytes limit' :
    encode_full v limit = Ok bytes ->
    match decode_full (vec_bytes bytes) limit' with Ok v' => same v' v | Err e => e = Capacity end;
  delta_decodes (base base' v : P) limit bytes limit' :
    same base' base -> encode_delta base v limit = Ok bytes ->
    match decode_delta base' (vec_bytes bytes) limit' with Ok v' => same v' v | Err e => e = Capacity end;
  validate_same (a b : P) : same a b -> codec_validate a = codec_validate b;
}.

(** ** The codec *)

(** [a.iter().zip(b).take_while(|(a, b)| a == b).count()]. *)
Fixpoint shared_prefix (a b : list byte) : nat :=
  match a, b with
  | x :: a, y :: b => if decide (x = y) then S (shared_prefix a b) else 0%nat
  | _, _ => 0%nat
  end.

Section Patch.
(** The capacity of an allocation for so many bytes. *)
Context (allocate : N -> N).

#[local] Abbreviation to_vec := (to_vec allocate).

Definition patch_decode_full (bytes : list byte) (limit : N) : result ReplicationError ByteVec :=
  if decide (limit < len bytes) then Err Capacity else Ok (to_vec bytes).

Definition patch_encode_full (value : ByteVec) (limit : N) : result ReplicationError ByteVec :=
  patch_decode_full (vec_bytes value) limit.

Definition shared_suffix (base value : list byte) (prefix : nat) : nat :=
  shared_prefix (reverse (drop prefix base)) (reverse (drop prefix value)).

Definition patch_encode_delta (base value : ByteVec) (limit : N) : result ReplicationError ByteVec :=
  let b := vec_bytes base in
  let v := vec_bytes value in
  let prefix := shared_prefix b v in
  let suffix := shared_suffix b v prefix in
  let middle := slice prefix (length v - suffix) v in
  let? size := ok_or (checked_add usize_max (len middle) 12) Capacity in
  if decide (limit < size) then Err Capacity
  else match try_from u32_max (len v), try_from u32_max (N.of_nat prefix), try_from u32_max (N.of_nat suffix) with
       | Some n, Some p, Some s =>
           Ok (mkByteVec (to_le_bytes 4 n ++ to_le_bytes 4 p ++ to_le_bytes 4 s ++ middle) (allocate size))
       | _, _, _ => Err Capacity
       end.

(** [field(offset)]. *)
Definition patch_field (bytes : list byte) (offset : nat) : N := from_le_bytes (slice offset (offset + 4) bytes).

Definition patch_decode_delta (base : ByteVec) (bytes : list byte) (limit : N) : result ReplicationError ByteVec :=
  let b := vec_bytes base in
  if decide (len bytes < 12) then Err InvalidPayload
  else
    let length := patch_field bytes 0 in
    let prefix := patch_field bytes 4 in
    let suffix := patch_field bytes 8 in
    if decide (limit < length) then Err Capacity
    else
      let? shared := ok_or (checked_add usize_max prefix suffix) InvalidPayload in
      if decide (len b < shared \/ length < shared \/ length - shared <> len bytes - 12) then Err InvalidPayload
      else Ok (mkByteVec (take (N.to_nat prefix) b ++ drop 12 bytes ++ drop (N.to_nat (len b - suffix)) b)
                 (allocate length)).

#[export] Instance BytePatch : BaselineCodec ByteVec := {
  encode_full := patch_encode_full;
  encode_delta := patch_encode_delta;
  decode_full := patch_decode_full;
  decode_delta := patch_decode_delta;
  codec_validate _ := true;
}.

(** ** Round trip *)

Lemma shared_prefix_spec a b :
  take (shared_prefix a b) a = take (shared_prefix a b) b /\ (shared_prefix a b <= length a)%nat /\ (shared_prefix a b <= length b)%nat.
Proof.
  revert b. induction a as [| x a IH]; intros [| y b]; simpl; try (split_and!; [done | lia | lia]).
  destruct (decide (x = y)) as [-> | Hne]; simpl; [| split_and!; [done | lia | lia]].
  destruct (IH b) as (-> & ? & ?). split_and!; [done | lia | lia].
Qed.

(** The prefix and the suffix do not overlap, and with the middle they make the value. *)
Lemma patch_split (b v : list byte) :
  let p := shared_prefix b v in
  let s := shared_suffix b v p in
  (p + s <= length b)%nat /\ (p + s <= length v)%nat
  /\ v = take p b ++ slice p (length v - s) v ++ drop (length b - s) b.
Proof.
  cbn zeta. destruct (shared_prefix_spec b v) as (Hp & Hb & Hv). set (p := shared_prefix b v) in *.
  unfold shared_suffix. set (s := shared_prefix (reverse (drop p b)) (reverse (drop p v))).
  destruct (shared_prefix_spec (reverse (drop p b)) (reverse (drop p v))) as (Hs & Hsb & Hsv). fold s in Hs, Hsb, Hsv.
  rewrite !length_reverse, !length_drop in *. rewrite !take_reverse in Hs. apply (inj reverse) in Hs.
  rewrite !length_drop, !drop_drop in Hs.
  replace (p + (length b - p - s))%nat with (length b - s)%nat in Hs by lia.
  replace (p + (length v - p - s))%nat with (length v - s)%nat in Hs by lia.
  split; [lia |]. split; [lia |]. rewrite Hs, Hp. unfold slice.
  rewrite <- (take_drop p v) at 1. f_equal. rewrite <- (take_drop (length v - s - p) (drop p v)) at 1. f_equal.
  rewrite drop_drop. f_equal. lia.
Qed.

(** The fields of an encoded patch. *)
Lemma patch_fields n p s middle :
  n <= u32_max -> p <= u32_max -> s <= u32_max ->
  let bytes := to_le_bytes 4 n ++ to_le_bytes 4 p ++ to_le_bytes 4 s ++ middle in
  patch_field bytes 0 = n /\ patch_field bytes 4 = p /\ patch_field bytes 8 = s /\ drop 12 bytes = middle
  /\ len bytes = len middle + 12.
Proof.
  intros Hn Hp Hs. cbn zeta. unfold patch_field, slice.
  assert (forall x, x <= u32_max -> from_le_bytes (to_le_bytes 4 x) = x) as Hle.
  { intros x Hx. rewrite from_to_le_bytes. apply N.mod_small. unfold u32_max in Hx. change (256 ^ N.of_nat 4) with 4294967296. lia. }
  pose proof (length_to_le_bytes 4 n) as L1. pose proof (length_to_le_bytes 4 p) as L2. pose proof (length_to_le_bytes 4 s) as L3.
  split_and!.
  - simpl Nat.sub. rewrite drop_0, take_app_le, take_ge by lia. by apply Hle.
  - rewrite drop_app_ge, L1 by lia. rewrite drop_0, take_app_le, take_ge by lia. by apply Hle.
  - rewrite drop_app_ge, L1 by lia. rewrite drop_app_ge, L2 by lia. rewrite drop_0, take_app_le, take_ge by lia. by apply Hle.
  - rewrite !app_assoc, drop_app_ge by (rewrite !length_app; lia). rewrite !length_app. by replace (12 - _)%nat with 0%nat by lia.
  - rewrite !len_app. unfold len. lia.
Qed.

Lemma patch_delta_decodes (base base' value : ByteVec) limit bytes limit' :
  vec_bytes base' = vec_bytes base -> patch_encode_delta base value limit = Ok bytes ->
  patch_decode_delta base' (vec_bytes bytes) limit'
  = if decide (limit' < len (vec_bytes value)) then Err Capacity
    else Ok (to_vec (vec_bytes value)).
Proof.
  intros Hbase Henc. unfold patch_encode_delta in Henc.
  destruct (patch_split (vec_bytes base) (vec_bytes value)) as (Hpb & Hpv & Hval).
  set (b := vec_bytes base) in *. set (v := vec_bytes value) in *. set (p := shared_prefix b v) in *.
  set (s := shared_suffix b v p) in *. set (middle := slice p (length v - s) v) in *.
  destruct (checked_add _ _ _) as [size |]; [| done]. cbn [ok_or] in Henc. destruct (decide _) in Henc; [done |].
  destruct (try_from u32_max (len v)) as [count |] eqn:Hn; [| done]. apply try_from_Some in Hn as [-> Hn].
  destruct (try_from u32_max (N.of_nat p)) as [p' |] eqn:Hp; [| done]. apply try_from_Some in Hp as [-> Hp].
  destruct (try_from u32_max (N.of_nat s)) as [s' |] eqn:Hs; [| done]. apply try_from_Some in Hs as [-> Hs].
  assert (vec_bytes bytes = to_le_bytes 4 (len v) ++ to_le_bytes 4 (N.of_nat p) ++ to_le_bytes 4 (N.of_nat s) ++ middle) as ->.
  { assert (forall (A B : ByteVec), Ok (E:=ReplicationError) A = Ok B -> vec_bytes B = vec_bytes A) as Hinj by congruence.
    exact (Hinj _ _ Henc). }
  unfold patch_decode_delta.
  destruct (patch_fields (len v) (N.of_nat p) (N.of_nat s) middle) as (F1 & F2 & F3 & F4 & F5); [lia | lia | lia |].
  rewrite F1, F2, F3, F4, F5, Hbase. rewrite decide_False by lia. destruct (decide (limit' < len v)); [done |].
  assert (len v = N.of_nat p + len middle + N.of_nat s) as Hlen.
  { rewrite Hval at 1. rewrite !len_app. unfold len. rewrite length_take, length_drop. fold b. lia. }
  unfold checked_add. rewrite decide_True by (unfold u32_max, usize_max, u64_max in *; lia). simpl.
  rewrite decide_False by (fold b; unfold len in *; lia). f_equal. unfold to_vec. f_equal.
  rewrite Nat2N.id. fold b. replace (N.to_nat (len b - N.of_nat s)) with (length b - s)%nat by (unfold len; lia).
  by symmetry.
Qed.

#[export] Instance vec_same_equivalence : Equivalence (same (P:=ByteVec)).
Proof.
  unfold same. simpl. split; [intros a | intros a b | intros a b c]; rewrite ?bool_decide_eq_true; congruence.
Qed.

#[export] Instance BytePatch_lawful : LawfulCodec ByteVec.
Proof.
  constructor; simpl.
  - apply _.
  - intros v limit bytes limit' Henc. unfold patch_encode_full, patch_decode_full in *.
    destruct (decide _) in Henc; [done |]. injection Henc as <-. simpl. destruct (decide _); [done |].
    unfold same. simpl. by apply bool_decide_eq_true.
  - intros base base' v limit bytes limit' Hsame Henc. apply bool_decide_eq_true in Hsame.
    rewrite (patch_delta_decodes base base' v limit bytes limit' Hsame Henc). destruct (decide _); [done |].
    unfold same. simpl. by apply bool_decide_eq_true.
  - done.
Qed.

Lemma patch_rebuild (bytes : list byte) :
  12 <= len bytes ->
  bytes = to_le_bytes 4 (patch_field bytes 0) ++ to_le_bytes 4 (patch_field bytes 4)
          ++ to_le_bytes 4 (patch_field bytes 8) ++ drop 12 bytes
  /\ patch_field bytes 0 <= u32_max /\ patch_field bytes 4 <= u32_max /\ patch_field bytes 8 <= u32_max.
Proof.
  intros Hlen. unfold patch_field.
  assert (forall o, (o + 4 <= length bytes)%nat ->
            to_le_bytes 4 (from_le_bytes (slice o (o + 4) bytes)) = take 4 (drop o bytes)
            /\ from_le_bytes (slice o (o + 4) bytes) <= u32_max) as Hf.
  { intros o Ho. unfold slice. replace (o + 4 - o)%nat with 4%nat by lia.
    assert (length (take 4 (drop o bytes)) = 4%nat) as H4 by (rewrite length_take, length_drop; lia).
    rewrite <- H4 at 1. rewrite to_from_le_bytes. split; [done |].
    pose proof (from_le_bytes_bound (take 4 (drop o bytes))) as Hb. unfold len in Hb. rewrite H4 in Hb.
    change (256 ^ N.of_nat 4) with 4294967296 in Hb. unfold u32_max. lia. }
  unfold len in Hlen. destruct (Hf 0%nat) as [-> ?]; [lia |]. destruct (Hf 4%nat) as [-> ?]; [lia |].
  destruct (Hf 8%nat) as [-> ?]; [lia |]. split; [| done]. rewrite drop_0.
  rewrite <- (take_drop 4 bytes) at 1. f_equal. rewrite <- (take_drop 4 (drop 4 bytes)) at 1. rewrite drop_drop. f_equal.
  rewrite <- (take_drop 4 (drop (4 + 4) bytes)) at 1. by rewrite drop_drop.
Qed.

(** A patch is decoded exactly when it is well formed: an encoded one gives back the value
    against any base with the same bytes, unless the value is over the limit, and the bytes that
    are accepted are exactly the three lengths and a middle such that the prefix and suffix are
    within the base without overlapping and the whole has the stated length within the limit. *)
Theorem byte_patch_exact (base : ByteVec) :
  (forall base' value limit bytes limit',
     vec_bytes base' = vec_bytes base -> patch_encode_delta base value limit = Ok bytes ->
     len (vec_bytes bytes) <= limit
     /\ patch_decode_delta base' (vec_bytes bytes) limit'
        = if decide (limit' < len (vec_bytes value)) then Err Capacity else Ok (to_vec (vec_bytes value)))
  /\ forall bytes limit v,
     patch_decode_delta base bytes limit = Ok v
     <-> exists prefix suffix middle,
           bytes = to_le_bytes 4 (len (vec_bytes v)) ++ to_le_bytes 4 prefix ++ to_le_bytes 4 suffix ++ middle
           /\ prefix + suffix <= len (vec_bytes base) /\ prefix <= u32_max /\ suffix <= u32_max
           /\ len (vec_bytes v) <= u32_max /\ len (vec_bytes v) <= limit
           /\ v = to_vec (take (N.to_nat prefix) (vec_bytes base) ++ middle
                           ++ drop (N.to_nat (len (vec_bytes base) - suffix)) (vec_bytes base)).
Proof.
  split.
  - intros base' value limit bytes limit' Hb Henc. split; [| by eapply patch_delta_decodes].
    unfold patch_encode_delta in Henc. destruct (checked_add _ _ _) as [size |] eqn:Hs; [| done]. cbn [ok_or] in Henc.
    destruct (decide _) in Henc; [done |]. apply checked_add_Some in Hs as [-> _].
    destruct (try_from _ _); [| done]. destruct (try_from _ _); [| done]. destruct (try_from _ _); [| done].
    injection Henc as <-. unfold len in *. simpl. lia.
  - intros bytes limit v. unfold patch_decode_delta. set (b := vec_bytes base). split.
    + intros Hdec. destruct (decide (len bytes < 12)) in Hdec; [done |].
      destruct (patch_rebuild bytes) as (Hb & B0 & B4 & B8); [lia |].
      set (n0 := patch_field bytes 0) in *. set (p := patch_field bytes 4) in *. set (s := patch_field bytes 8) in *.
      destruct (decide (limit < n0)) in Hdec; [done |]. destruct (checked_add _ _ _) as [shared |] eqn:Hsh; [| done].
      apply checked_add_Some in Hsh as [-> _]. cbn [ok_or] in Hdec. destruct (decide _) as [| Hok] in Hdec; [done |].
      injection Hdec as <-. exists p, s, (drop 12 bytes). cbn [vec_bytes].
      assert (len (take (N.to_nat p) b ++ drop 12 bytes ++ drop (N.to_nat (len b - s)) b) = n0) as Hn.
      { rewrite !len_app. unfold len in *. rewrite length_take, !length_drop. lia. }
      rewrite Hn. split; [exact Hb |]. unfold to_vec. rewrite Hn. split_and!; try done; lia.
    + intros (p & s & middle & -> & Hps & Hp & Hs & Hv & Hlim & Heq).
      destruct (patch_fields (len (vec_bytes v)) p s middle Hv Hp Hs) as (-> & -> & -> & -> & ->).
      assert (len (vec_bytes v) = p + len middle + s) as Hlen.
      { rewrite Heq. unfold to_vec. cbn [vec_bytes]. rewrite !len_app. unfold len in *. rewrite length_take, length_drop. fold b in Hps. lia. }
      rewrite decide_False by lia. rewrite decide_False by lia. unfold checked_add.
      rewrite decide_True by (unfold u32_max, usize_max, u64_max in *; lia). cbn [ok_or].
      rewrite decide_False by (fold b in Hps; lia). rewrite Heq at 2. unfold to_vec. do 2 f_equal.
      rewrite Heq. done.
Qed.
End Patch.

Lemma byte_patch_exact_witness :
  let base := mkByteVec [x01; x02; x03; x04] 4 in
  let value := mkByteVec [x01; x02; x09; x09; x04] 5 in
  patch_encode_delta id base value 64
  = Ok (mkByteVec (to_le_bytes 4 5 ++ to_le_bytes 4 2 ++ to_le_bytes 4 1 ++ [x09; x09]) 14)
  /\ patch_decode_delta id base (to_le_bytes 4 5 ++ to_le_bytes 4 2 ++ to_le_bytes 4 1 ++ [x09; x09]) 5 = Ok value.
Proof.
  cbn zeta. split; [vm_compute; reflexivity |].
  destruct (byte_patch_exact id (mkByteVec [x01; x02; x03; x04] 4)) as [Hround _].
  destruct (Hround (mkByteVec [x01; x02; x03; x04] 4) (mkByteVec [x01; x02; x09; x09; x04] 5) 64
              (mkByteVec (to_le_bytes 4 5 ++ to_le_bytes 4 2 ++ to_le_bytes 4 1 ++ [x09; x09]) 14) 5 eq_refl
              ltac:(vm_compute; reflexivity)) as [_ H].
  etransitivity; [exact H | vm_compute; reflexivity].
Defined.
