(* ===== verification/BaselinesFacts.v ===== *)
(** * Facts on baseline caches

    The invariant of a cache, and what each operation of the server and of the client does to
    it, whatever it is called with. *)

From Stdlib Require Import Strings.Byte.
From S2P Require Import Prelude Types InterestModel Codec Payload Replication Baselines BytePatch.
Local Open Scope N_scope.
Local Open Scope engine_scope.

(** ** The invariant of a cache *)

Section Caches.
Context (size_Entry size_ClientBaselines : N) (allocate : N -> N).
Context {P : Type} `{PP : !Payload P, codec : !BaselineCodec P}.
Implicit Types (c : Cache P) (e : Entry P) (s : BaselineState P) (b : ClientBaselines P).

(** A later publication of the same cache. *)
Definition publishes_after (r r' : BaselineReceipt) : Prop :=
  br_snapshot r < br_snapshot r' /\ br_version r <= br_version r' /\ br_end_tick r <= br_end_tick r'.
Definition entry_before (e e' : Entry P) : Prop := publishes_after (en_receipt e) (en_receipt e').

Record entry_ok c e : Prop := {
  eo_context : br_context (en_receipt e) = ca_context c;
  eo_generation : br_generation (en_receipt e) = ca_generation c;
  eo_retired : ca_retired c < en_snapshot e;
  eo_version : br_version (en_receipt e) <> 0;
  eo_size : en_bytes e <= bl_payload_bytes (ca_limits c);
}.

Record cache_inv c : Prop := {
  bi_bytes : exists metadata, metadata_bytes size_Entry size_ClientBaselines (allocate (bl_slots (ca_limits c))) = Some metadata
    /\ ca_bytes c = metadata + sum_over en_bytes (ca_entries c);
  bi_budget : ca_bytes c <= bl_resident_bytes (ca_limits c);
  bi_slots : len (ca_entries c) <= bl_slots (ca_limits c);
  bi_sorted : StronglySorted entry_before (ca_entries c);
  bi_entries : Forall (entry_ok c) (ca_entries c);
  bi_latest : forall e, last (ca_entries c) = Some e -> ca_latest c = Some (en_receipt e);
  bi_closed : ca_closed c = true -> ca_entries c = [];
  bi_current : forall r, ca_latest c = Some r -> br_generation r <= ca_generation c
    /\ (br_generation r = ca_generation c -> ca_closed c = false ->
        exists e, last (ca_entries c) = Some e /\ en_receipt e = r);
}.

Lemma Cache_new_ok context g l c :
  Cache_new size_Entry size_ClientBaselines allocate context g l = Ok c ->
  cache_inv c /\ ca_context c = context /\ ca_generation c = g /\ ca_limits c = l /\ ca_entries c = []
  /\ ca_retired c = 0 /\ ca_latest c = None /\ ca_closed c = false /\ context_validate context = Ok tt /\ g <> 0.
Proof.
  unfold Cache_new. intros H. destruct (context_validate context) as [[] |]; [| done]. destruct (decide _) in H; [done |].
  destruct (metadata_bytes _ _ (bl_slots l)); [| done]. cbn [ok_or] in H.
  destruct (ok_or _ _) in H; [| done]. destruct (ok_or _ _) in H; [| done]. destruct (decide _) in H; [done |].
  destruct (metadata_bytes _ _ (allocate _)) as [bytes |] eqn:Hb; [| done]. cbn [ok_or] in H.
  destruct (checked_add _ _ _) as [total |] eqn:Ht; [| done]. apply checked_add_Some in Ht as [-> _].
  destruct (bool_decide _) eqn:Hroom in H; [done |]. apply bool_decide_eq_false in Hroom. injection H as <-.
  split; [| by split_and!]. constructor; simpl; try done; try lia; try constructor; unfold sum_over, len; simpl; try lia.
  exists bytes. split; [done | lia].
Qed.

(** ** Finding an entry *)

Lemma find_snapshot_Some c x e :
  find_snapshot c x = Some e -> e ∈ ca_entries c /\ en_snapshot e = x.
Proof. intros [Hin Hx]%find_some. split; [by apply list_elem_of_In | by apply bool_decide_eq_true in Hx]. Qed.

Lemma find_snapshot_None c x e : find_snapshot c x = None -> e ∈ ca_entries c -> en_snapshot e <> x.
Proof.
  intros Hf Hin Hx. apply list_elem_of_In in Hin. pose proof (find_none _ _ Hf e Hin) as Hb. simpl in Hb.
  by apply bool_decide_eq_false in Hb.
Qed.

Lemma entry_unique c e e' : cache_inv c -> e ∈ ca_entries c -> e' ∈ ca_entries c -> en_snapshot e = en_snapshot e' -> e = e'.
Proof. intros Hc. apply (sorted_unique entry_before en_snapshot); [apply Hc |]. by intros a b' [? _]. Qed.

Lemma entry_Ok c r e : entry c r = Ok e -> e ∈ ca_entries c /\ en_receipt e = r /\ identity c r = Ok tt.
Proof.
  unfold entry. intros H. destruct (identity c r) as [[] |]; [| done].
  destruct (find_snapshot c (br_snapshot r)) as [e' |] eqn:Hf; [| done]. cbn [ok_or] in H.
  destruct (decide _) as [| Heq%dec_stable] in H; [done |]. injection H as <-. apply find_snapshot_Some in Hf as [? _]. done.
Qed.

Lemma identity_Ok c r :
  identity c r = Ok tt -> ca_closed c = false /\ br_context r = ca_context c /\ br_generation r = ca_generation c
  /\ br_snapshot r <> 0 /\ br_version r <> 0 /\ ca_retired c < br_snapshot r.
Proof.
  unfold identity, envelope. intros H. destruct (ca_closed c || _ || _) eqn:He in H; [done |].
  rewrite !orb_false_iff in He. destruct He as ((? & ?%bool_decide_eq_false%dec_stable) & ?%bool_decide_eq_false%dec_stable).
  destruct (decide _) in H; [done |]. destruct (decide _) in H; [done |]. split_and!; try done; lia.
Qed.

(** A state that is held is found under its receipt. *)
Lemma entry_held c e : cache_inv c -> e ∈ ca_entries c -> entry c (en_receipt e) = Ok e.
Proof.
  intros Hc He. pose proof (bi_entries _ Hc) as Hall. rewrite Forall_forall in Hall. destruct (Hall e He) as [H1 H2 H3 H4 _].
  unfold entry, identity, envelope.
  assert (ca_closed c = false) as ->. { destruct (ca_closed c) eqn:Hcl; [| done]. rewrite (bi_closed _ Hc Hcl) in He. by apply elem_of_nil in He. }
  rewrite !bool_decide_eq_false_2 by (by intros []). simpl. unfold en_snapshot in H3.
  rewrite decide_False by lia. rewrite decide_False by lia.
  destruct (find_snapshot c (br_snapshot (en_receipt e))) as [e' |] eqn:Hf; simpl.
  - apply find_snapshot_Some in Hf as [He' Heq]. rewrite (entry_unique c e' e Hc He' He Heq). by rewrite decide_False by (by intros []).
  - by destruct (find_snapshot_None c _ e Hf He).
Qed.

(** ** Inserting *)

Record check_fresh c s : Prop := {
  cf_identity : identity c (bs_receipt s) = Ok tt;
  cf_size : retained_bytes (bs_payload s) <= bl_payload_bytes (ca_limits c);
  cf_latest : forall r, ca_latest c = Some r -> publishes_after r (bs_receipt s);
  cf_payload : forall r e, ca_latest c = Some r -> last (ca_entries c) = Some e ->
    br_version (bs_receipt s) = br_version r -> payload_eq (bs_payload (en_state e)) (bs_payload s) = true;
  cf_slots : len (ca_entries c) < bl_slots (ca_limits c);
  cf_room : ca_bytes c + retained_bytes (bs_payload s) <= bl_resident_bytes (ca_limits c);
}.

Lemma check_true c s : check c s = Ok true -> check_fresh c s.
Proof.
  unfold check. intros H. destruct (identity c (bs_receipt s)) as [[] |] eqn:Hid; [| done].
  destruct (decide _) in H; [done |]. destruct (find_snapshot c _) as [e |]; [by destruct (baseline_eq _ _) |].
  destruct (match ca_latest c with Some _ => _ | None => _ end) as [[] |] eqn:Hl in H; [| done].
  destruct (_ || _) eqn:Hcap in H; [done |]. apply orb_false_iff in Hcap as [Hslots%bool_decide_eq_false Hbytes].
  destruct (checked_add _ _ _) as [total |] eqn:Ht; [| done]. apply checked_add_Some in Ht as [-> _].
  apply bool_decide_eq_false in Hbytes. constructor; try done; try lia.
  - intros r Hr. rewrite Hr in Hl. destruct (_ && _) in Hl; [done |]. destruct (decide _) in Hl; [done |].
    destruct (decide _) in Hl; [done |]. unfold publishes_after. lia.
  - intros r e Hr He Hv. rewrite Hr, He, Hv, bool_decide_eq_true_2 in Hl by done. simpl in Hl.
    by destruct (payload_eq _ _).
Qed.

Lemma check_false c s : check c s = Ok false -> exists e, e ∈ ca_entries c /\ en_snapshot e = br_snapshot (bs_receipt s)
  /\ en_receipt e = bs_receipt s /\ payload_eq (bs_payload (en_state e)) (bs_payload s) = true.
Proof.
  unfold check. intros H. destruct (identity c (bs_receipt s)) as [[] |] eqn:Hid; [| done].
  destruct (decide _) in H; [done |]. destruct (find_snapshot c _) as [e |] eqn:Hf.
  - apply find_snapshot_Some in Hf as [He Hx]. unfold baseline_eq in H.
    destruct (bool_decide _) eqn:Hr in H; [| done]. apply bool_decide_eq_true in Hr.
    destruct (payload_eq _ _) eqn:Hp in H; [| done]. exists e. done.
  - destruct (match ca_latest c with Some _ => _ | None => _ end); [| done]. by destruct (_ || _).
Qed.

Lemma insert_ok c s d : cache_inv c -> check_fresh c s -> cache_inv (insert_state c s d).
Proof.
  intros Hc Hf. destruct (identity_Ok _ _ (cf_identity _ _ Hf)) as (Hop & I1 & I2 & I3 & I4 & I5).
  destruct (bi_bytes _ Hc) as (metadata & Hm & Hb). pose proof (cf_slots _ _ Hf). pose proof (cf_room _ _ Hf).
  constructor; simpl; try done.
  - exists metadata. split; [done |]. rewrite Hb, sum_over_app. unfold sum_over at 3. simpl. unfold en_bytes at 3. simpl. lia.
  - rewrite len_app. unfold len in *. simpl. lia.
  - apply StronglySorted_app. split_and!; [| apply Hc | repeat constructor].
    intros e e' He [-> | ?%elem_of_nil]%elem_of_cons; [| done].
    destruct (last (ca_entries c)) as [z |] eqn:Hz; [| by apply last_None in Hz; rewrite Hz in He; apply elem_of_nil in He].
    pose proof (cf_latest _ _ Hf _ (bi_latest _ Hc z Hz)) as Hp.
    destruct (sorted_last _ _ e z (bi_sorted _ Hc) Hz He) as [-> | Hez]; [exact Hp |].
    unfold entry_before, publishes_after, en_receipt in *. simpl in *. lia.
  - apply Forall_app. split.
    + eapply Forall_impl; [apply Hc |]. intros e []. by constructor.
    + repeat constructor; simpl; try done. apply Hf.
  - intros e. rewrite last_snoc. intros [= <-]. done.
  - congruence.
  - intros r [= <-]. split; [lia |]. intros _ _. eexists. by rewrite last_snoc.
Qed.

(** ** Dropping *)

Lemma release_ok l bytes : sum_over en_bytes l <= bytes -> release l bytes = Some (bytes - sum_over en_bytes l).
Proof.
  revert bytes. induction l as [| e l IH]; intros bytes Hle; simpl; [f_equal; unfold sum_over; simpl; lia |].
  unfold sum_over in Hle. simpl in Hle. fold (sum_over en_bytes l) in Hle. unfold checked_sub. rewrite decide_True by lia.
  rewrite IH by lia. f_equal. unfold sum_over at 2. simpl. fold (sum_over en_bytes l). lia.
Qed.

Lemma sum_over_filter {A} (f : A -> N) (Q : A -> Prop) `{!forall x, Decision (Q x)} (l : list A) :
  sum_over f (filter Q l) + sum_over f (filter (fun x => ~ Q x) l) = sum_over f l.
Proof.
  induction l as [| x l IH]; [done |]. rewrite !filter_cons.
  destruct (decide (Q x)); [rewrite decide_False by tauto | rewrite decide_True by done]; unfold sum_over in *; simpl; lia.
Qed.

(** The rest after a cumulative fence. *)
Definition kept_above (through : SnapshotId) (l : list (Entry P)) : list (Entry P) :=
  filter (fun e => ~ en_snapshot e <= through) l.

Lemma kept_last through l e : StronglySorted entry_before l -> last (kept_above through l) = Some e -> last l = Some e.
Proof.
  unfold kept_above. intros Hs. induction Hs as [| a l Hs IH Ha]; [done |]. rewrite filter_cons. rewrite Forall_forall in Ha.
  destruct (decide _) as [Hk | Hk].
  - intros Hl. destruct l as [| b' l]; [done |].
    destruct (filter _ (b' :: l)) as [| f fs] eqn:Hf.
    + exfalso. assert (b' ∈ filter (fun e => ~ en_snapshot e <= through) (b' :: l)) as Hin.
      { apply list_elem_of_filter. split; [| by left]. destruct (Ha b' (list_elem_of_here _ _)) as [Hlt _]. unfold en_snapshot in *. lia. }
      rewrite Hf in Hin. by apply elem_of_nil in Hin.
    + change (last (a :: b' :: l)) with (last (b' :: l)). apply IH. exact Hl.
  - intros Hl. apply IH in Hl. destruct l; [done |]. exact Hl.
Qed.

(** The newest entry is kept when anything is. *)
Lemma kept_above_last through l e z :
  StronglySorted entry_before l -> e ∈ l -> through < en_snapshot e -> last l = Some z -> last (kept_above through l) = Some z.
Proof.
  intros Hs He Hlt Hz. assert (z ∈ kept_above through l) as Hkept.
  { apply list_elem_of_filter. split; [| by apply last_Some_elem_of].
    destruct (sorted_last _ _ e z Hs Hz He) as [-> | [Hb _]]; unfold en_snapshot in *; lia. }
  destruct (last (kept_above through l)) as [y |] eqn:Hy.
  - pose proof (kept_last _ _ y Hs Hy). congruence.
  - apply last_None in Hy. rewrite Hy in Hkept. by apply elem_of_nil in Hkept.
Qed.

Lemma discard_through_ok c through :
  cache_inv c -> ca_retired c < through -> (exists e, e ∈ ca_entries c /\ through < en_snapshot e) ->
  exists c', discard_through c through = Some c' /\ cache_inv c'
    /\ ca_entries c' = kept_above through (ca_entries c) /\ ca_retired c' = through
    /\ ca_context c' = ca_context c /\ ca_generation c' = ca_generation c /\ ca_limits c' = ca_limits c
    /\ ca_latest c' = ca_latest c /\ ca_closed c' = ca_closed c.
Proof.
  intros Hc Hlt (e & Hin & Habove). unfold discard_through. rewrite decide_False by lia. destruct (bi_bytes _ Hc) as (metadata & Hm & Hb).
  pose proof (sum_over_filter en_bytes (fun e => en_snapshot e <= through) (ca_entries c)) as Hsum. simpl in Hsum.
  rewrite release_ok by lia. eexists. split; [done |]. split; [| by split_and!].
  pose proof (bi_budget _ Hc). constructor; simpl; try done.
  - exists metadata. split; [done |]. lia.
  - lia.
  - etransitivity; [| apply Hc]. unfold len. pose proof (length_filter (fun e => ~ en_snapshot e <= through) (ca_entries c)). lia.
  - apply StronglySorted_filter, Hc.
  - apply Forall_forall. intros x [Hk Hx]%list_elem_of_filter. pose proof (bi_entries _ Hc) as Hall. rewrite Forall_forall in Hall.
    destruct (Hall x Hx). constructor; simpl; try done. lia.
  - intros x Hx. apply (bi_latest _ Hc). eapply kept_last; [apply Hc | exact Hx].
  - intros Hcl. by rewrite (bi_closed _ Hc Hcl).
  - intros r Hr. destruct (bi_current _ Hc r Hr) as [Hg Hcur]. split; [done |]. intros Hg' Hop.
    destruct (Hcur Hg' Hop) as (z & Hz & Hzr). exists z. split; [| done]. apply (kept_above_last through _ e); [apply Hc | done | done | done].
Qed.

Lemma clear_ok c :
  cache_inv c -> exists bytes, clear_entries c = Some (c <| ca_entries := [] |> <| ca_bytes := bytes |>)
    /\ (forall g cl, ca_generation c < g \/ (g = ca_generation c /\ cl = true) -> cache_inv (c <| ca_entries := [] |> <| ca_bytes := bytes |> <| ca_generation := g |> <| ca_closed := cl |>)).
Proof.
  intros Hc. unfold clear_entries. destruct (bi_bytes _ Hc) as (metadata & Hm & Hb). rewrite release_ok by lia.
  eexists. split; [done |]. intros g cl Hg. pose proof (bi_budget _ Hc).
  constructor; simpl; try done; try constructor; try (unfold len; simpl; lia).
  - exists metadata. split; [done |]. rewrite Hb. unfold sum_over. simpl. lia.
  - destruct (bi_current _ Hc r H0) as [Hr _]. lia.
  - destruct (bi_current _ Hc r H0) as [Hr _]. intros Hrg Hcl. destruct Hg as [Hg | [_ Hg]]; [lia | congruence].
Qed.

(** ** Marking an entry decoded *)

Lemma same_states_inv c l :
  en_state <$> l = en_state <$> ca_entries c -> cache_inv c -> cache_inv (c <| ca_entries := l |>).
Proof.
  intros Heq Hc.
  assert (forall (f : BaselineState P -> N) (x : list (Entry P)), sum_over (f ∘ en_state) x = sum_over f (en_state <$> x)) as Hsum.
  { intros f x. induction x as [| e x IH]; [done |]. rewrite fmap_cons. unfold sum_over in *. simpl in *. by rewrite IH. }
  assert (forall x, StronglySorted entry_before x <-> StronglySorted (fun a a' => publishes_after (bs_receipt a) (bs_receipt a')) (en_state <$> x)) as Hso.
  { intros x. induction x as [| e x IH]; [split; constructor |]. rewrite fmap_cons, !StronglySorted_cons, IH, Forall_fmap. done. }
  constructor; simpl; try apply Hc.
  - destruct (bi_bytes _ Hc) as (metadata & Hm & Hb). exists metadata. split; [done |]. rewrite Hb. f_equal.
    change en_bytes with ((fun a : BaselineState P => retained_bytes (bs_payload a)) ∘ en_state). by rewrite !Hsum, Heq.
  - pose proof (bi_slots _ Hc) as Hs. unfold len in *. rewrite <- (length_fmap en_state), Heq, length_fmap. done.
  - rewrite Hso, Heq, <- Hso. apply Hc.
  - apply Forall_forall. intros e He. pose proof (bi_entries _ Hc) as Hall. rewrite Forall_forall in Hall.
    apply (list_elem_of_fmap_2 en_state) in He. rewrite Heq in He. apply list_elem_of_fmap in He as (e0 & He0 & Hin).
    destruct (Hall e0 Hin). unfold en_snapshot, en_receipt, en_bytes in *. constructor; simpl; unfold en_snapshot, en_receipt, en_bytes; by rewrite He0.
  - intros e He. assert (last (en_state <$> l) = Some (en_state e)) as Hl by by rewrite fmap_last, He.
    rewrite Heq, fmap_last in Hl. apply fmap_Some in Hl as (e0 & He0 & Hst). rewrite (bi_latest _ Hc e0 He0).
    unfold en_receipt. by rewrite Hst.
  - intros Hcl. rewrite (bi_closed _ Hc Hcl) in Heq. by destruct l.
  - intros r Hr. destruct (bi_current _ Hc r Hr) as [Hg Hcur]. split; [done |]. intros Hg' Hop.
    destruct (Hcur Hg' Hop) as (z & Hz & Hzr).
    assert (last (en_state <$> l) = Some (en_state z)) as Hl by by rewrite Heq, fmap_last, Hz.
    rewrite fmap_last in Hl. apply fmap_Some in Hl as (e & He & Hst). exists e. split; [done |]. unfold en_receipt in *. congruence.
Qed.

Lemma mark_decoded_ok r l :
  (exists e, e ∈ l /\ en_receipt e = r) ->
  exists l', mark_decoded r l = Some l' /\ en_state <$> l' = en_state <$> l
    /\ forall e', e' ∈ l' -> e' ∈ l \/ en_receipt e' = r.
Proof.
  induction l as [| a l IH]; intros (e & He & Hr); [by apply elem_of_nil in He |]. simpl. destruct (decide _) as [Ha | Ha].
  - eexists. split; [done |]. split; [done |]. intros e' [-> | He']%elem_of_cons; [by right | left; by right].
  - apply elem_of_cons in He as [-> | He]; [done |]. destruct IH as (l' & -> & Hst & Hin); [eauto |]. eexists. split; [done |].
    split; [by rewrite !fmap_cons, Hst |]. intros e' [-> | He']%elem_of_cons; [left; by left |].
    destruct (Hin e' He'); [left; by right | by right].
Qed.

(** ** The operations of the server *)

Definition same_fields c c' : Prop :=
  ca_context c' = ca_context c /\ ca_limits c' = ca_limits c.

Lemma transmit_state_ok c s base send c' r :
  cache_inv c -> transmit_state c s base send = (c', r) ->
  cache_inv c' /\ same_fields c c' /\ (r <> Ok true -> c' = c).
Proof.
  intros Hc. unfold transmit_state. destruct (prepare_packet c s base) as [[fresh p] | e] eqn:Hp.
  - destruct (negb (send p)); intros [= <- <-]; [done |]. destruct fresh; [| done]. split; [| done].
    unfold prepare_packet in Hp. destruct (check c s) as [f |] eqn:Hck; [| done].
    destruct (negb _) in Hp; [done |]. destruct (match base with Some _ => _ | None => _ end); [| done].
    destruct (decide _) in Hp; [done |]. injection Hp as -> _. by apply insert_ok, check_true.
  - by intros [= <- <-].
Qed.

Lemma acknowledge_ok c r :
  cache_inv c -> exists c' x, acknowledge_state c r = Some (c', x) /\ cache_inv c' /\ same_fields c c'
    /\ match x with
       | Err _ => c' = c
       | Ok _ => exists l, c' = c <| ca_entries := l |> /\ en_state <$> l = en_state <$> ca_entries c
                          /\ forall e, e ∈ l -> e ∈ ca_entries c \/ en_receipt e = r
       end.
Proof.
  intros Hc. unfold acknowledge_state, validate_acknowledgment. destruct (entry c r) as [e | err] eqn:He; [| by eexists _, _].
  apply entry_Ok in He as (Hin & Hr & _). destruct (mark_decoded_ok r (ca_entries c)) as (l & -> & Hst & Hl); [eauto |].
  eexists _, _. split; [done |]. split; [by apply same_states_inv |]. split; [done |]. by exists l.
Qed.

(** What is left after a fence; nothing if it is not new. *)
Definition fenced c c' (through : SnapshotId) : Prop :=
  (through <= ca_retired c /\ c' = c)
  \/ (ca_retired c < through /\ ca_entries c' = kept_above through (ca_entries c) /\ ca_retired c' = through
      /\ ca_generation c' = ca_generation c /\ ca_latest c' = ca_latest c /\ ca_closed c' = ca_closed c
      /\ exists e, e ∈ ca_entries c /\ through < en_snapshot e).

Lemma retirement_discard c f :
  cache_inv c -> retirement c f = Ok tt ->
  exists c', discard_through c (rt_through f) = Some c' /\ cache_inv c' /\ same_fields c c' /\ fenced c c' (rt_through f).
Proof.
  intros Hc Hr. destruct (decide (rt_through f <= ca_retired c)) as [Hle | Hgt].
  - exists c. unfold discard_through. rewrite decide_True by done. split; [done |]. split; [done |]. split; [done |]. by left.
  - assert (exists e, e ∈ ca_entries c /\ rt_through f < en_snapshot e) as Hex.
    { unfold retirement in Hr. destruct (envelope c _ _); [| done]. destruct (decide _) in Hr; [done |]. rewrite decide_False in Hr by done.
    destruct (existsb _ _) eqn:Hex in Hr; [| done]. apply existsb_exists in Hex as (e & Hin & Hd). apply list_elem_of_In in Hin.
    apply andb_true_iff in Hd as [_ Hd%bool_decide_eq_true]. eauto. }
    destruct (discard_through_ok c (rt_through f) Hc ltac:(lia) Hex) as (c' & -> & Hc' & He & Hret & H1 & H2 & H3 & H4 & H5).
    exists c'. split; [done |]. split; [done |]. split; [done |]. right. split_and!; try done; lia.
Qed.

Lemma retire_request_ok c f :
  cache_inv c -> exists c' x, retire c f = Some (c', x) /\ cache_inv c' /\ same_fields c c'
    /\ match x with Err _ => c' = c | Ok f' => f' = f /\ fenced c c' (rt_through f) end.
Proof.
  intros Hc. unfold retire, validate_retirement. destruct (retirement c f) as [[] | e] eqn:Hr; [| by eexists _, _].
  destruct (retirement_discard c f Hc Hr) as (c' & -> & Hc' & Hs & Hf). by eexists _, _.
Qed.

(** A reset empties the cache for a later generation, keeping its high-water marks. *)
Definition restarted c c' (g : BaselineGeneration) : Prop :=
  (g = ca_generation c /\ c' = c)
  \/ (ca_generation c < g /\ ca_entries c' = [] /\ ca_generation c' = g /\ ca_retired c' = ca_retired c
      /\ ca_latest c' = ca_latest c /\ ca_closed c' = false).

Lemma reset_cache_ok c r :
  cache_inv c -> exists c' x, reset_cache c r = Some (c', x) /\ cache_inv c' /\ same_fields c c'
    /\ match x with Err _ => c' = c | Ok _ => ca_closed c = false /\ restarted c c' (rs_generation r) end.
Proof.
  intros Hc. unfold reset_cache. destruct (ca_closed c || _ || _) eqn:He; [by eexists _, _ |].
  rewrite !orb_false_iff in He. destruct He as ((Hcl & _) & Hg%bool_decide_eq_false).
  destruct (decide _) as [Heq | Hne].
  - eexists _, _. split; [done |]. split; [done |]. split; [done |]. split; [done |]. by left.
  - destruct (clear_ok c Hc) as (bytes & -> & Hinv). eexists _, _. split; [done |].
    specialize (Hinv (rs_generation r) (ca_closed c) ltac:(left; lia)). split; [destruct Hinv; by constructor |]. split; [done |].
    split; [done |]. right. simpl. split_and!; try done. lia.
Qed.

Lemma begin_reset_ok c :
  cache_inv c -> exists c' x, begin_reset c = Some (c', x) /\ cache_inv c' /\ same_fields c c'
    /\ match x with
       | Err _ => c' = c
       | Ok r => ca_closed c = false /\ restarted c c' (rs_generation r) /\ rs_context r = ca_context c
                 /\ ca_generation c' = rs_generation r
       end.
Proof.
  intros Hc. unfold begin_reset. destruct (checked_next u64_max (ca_generation c)) as [g |]; [| by eexists _, _].
  destruct (reset_cache_ok c (mkBaselineReset (ca_context c) g) Hc) as (c' & [[] | e] & -> & Hc' & Hs & Hx); [| by eexists _, _].
  eexists _, _. split; [done |]. split; [done |]. split; [done |]. destruct Hx as [Hcl Hr]. split_and!; try done.
  destruct Hr as [[-> ->] | (_ & _ & ? & _)]; done.
Qed.

Lemma close_cache_ok c :
  cache_inv c -> exists c', close_cache c = Some c' /\ cache_inv c' /\ same_fields c c' /\ ca_closed c' = true
    /\ ca_entries c' = [] /\ ca_retired c' = ca_retired c /\ ca_latest c' = ca_latest c /\ ca_generation c' = ca_generation c.
Proof.
  intros Hc. unfold close_cache. destruct (clear_ok c Hc) as (bytes & -> & Hinv). eexists. split; [done |].
  specialize (Hinv (ca_generation c) true ltac:(by right)). split; [destruct Hinv; by constructor | done].
Qed.

(** ** The operations of the client *)

Definition client_same b b' : Prop := same_fields (cb_cache b) (cb_cache b').

(** How a packet is answered: refused with the cache as it was, or decoded and held. *)
Lemma receive_cases b p validate b' r :
  receive_baseline b p validate = (b', r) ->
  match r with
  | Err e => cb_cache b' = cb_cache b /\ cb_proposed b' = cb_proposed b
      /\ (screen (cb_cache b) p validate = Err e /\ b' = b
          \/ screen (cb_cache b) p validate = Ok tt
             /\ ((exists repair, decode_packet (cb_cache b) p = inl (e, repair) /\ (repair = false -> b' = b))
                 \/ exists payload, decode_packet (cb_cache b) p = inr payload /\ b' = b
                      /\ ((e = InvalidPayload /\ (codec_validate payload && validate payload) = false)
                          \/ check (cb_cache b) (mkBaselineState (bp_target p) payload) = Err e)))
  | Ok rc => rc = bp_target p /\ screen (cb_cache b) p validate = Ok tt
      /\ exists payload, decode_packet (cb_cache b) p = inr payload /\ codec_validate payload = true
           /\ validate payload = true
           /\ ((check (cb_cache b) (mkBaselineState rc payload) = Ok true
                /\ cb_cache b' = insert_state (cb_cache b) (mkBaselineState rc payload) true)
               \/ (check (cb_cache b) (mkBaselineState rc payload) = Ok false /\ cb_cache b' = cb_cache b))
  end.
Proof.
  unfold receive_baseline. intros H. destruct (screen (cb_cache b) p validate) as [[] | e] eqn:Hs; [| by simplify_eq; auto].
  destruct (decode_packet (cb_cache b) p) as [[e repair] | payload] eqn:Hd.
  - injection H as <- <-. split; [by destruct repair |]. split; [by destruct repair |]. right. split; [done |]. left.
    exists repair. split; [done |]. by intros ->.
  - destruct (codec_validate payload) eqn:Hv1; simpl in H.
    2: { injection H as <- <-. split_and!; try done. right. split; [done |]. right. exists payload. rewrite Hv1. auto. }
    destruct (validate payload) eqn:Hv2; simpl in H.
    2: { injection H as <- <-. split_and!; try done. right. split; [done |]. right. exists payload. rewrite Hv1, Hv2. auto. }
    destruct (check (cb_cache b) (mkBaselineState (bp_target p) payload)) as [fresh | e] eqn:Hck.
    2: { injection H as <- <-. split_and!; try done. right. split; [done |]. right. exists payload. auto. }
    injection H as <- <-. split; [done |]. split; [done |]. exists payload. split_and!; try done.
    destruct fresh; [left | right]; (split; [done |]); by destruct (is_full _).
Qed.

Lemma receive_inv b p validate b' r :
  cache_inv (cb_cache b) -> receive_baseline b p validate = (b', r) ->
  cache_inv (cb_cache b') /\ client_same b b' /\ (forall err, r = Err err -> cb_cache b' = cb_cache b).
Proof.
  intros Hc H. apply receive_cases in H. unfold client_same, same_fields. destruct r as [rc | err].
  - destruct H as (-> & _ & payload & _ & _ & _ & [[Hck ->] | [_ ->]]); [| by split_and!].
    split; [by apply insert_ok, check_true | by split_and!].
  - destruct H as [-> _]. by split_and!.
Qed.

Lemma acknowledge_retirement_ok b f :
  cache_inv (cb_cache b) -> exists b' x, acknowledge_retirement b f = Some (b', x) /\ cache_inv (cb_cache b')
    /\ client_same b b' /\ (cb_cache b' = cb_cache b \/ fenced (cb_cache b) (cb_cache b') (rt_through f)).
Proof.
  intros Hc. unfold acknowledge_retirement. destruct (envelope _ _ _); [| by eexists _, _; split_and!; try done; left].
  destruct (decide _); [by eexists _, _; split_and!; try done; left |].
  destruct (decide _); [by eexists _, _; split_and!; try done; left |].
  destruct (retirement (cb_cache b) f) as [[] | e] eqn:Hr; [| by eexists _, _; split_and!; try done; left].
  destruct (retirement_discard _ f Hc Hr) as (c' & -> & Hc' & Hs & Hf). eexists _, _. split; [done |]. simpl.
  split; [done |]. split; [done |]. by right.
Qed.

Lemma apply_reset_ok b r :
  cache_inv (cb_cache b) -> exists b' x, apply_reset b r = Some (b', x) /\ cache_inv (cb_cache b')
    /\ client_same b b'
    /\ (cb_cache b' = cb_cache b \/ (ca_closed (cb_cache b) = false /\ restarted (cb_cache b) (cb_cache b') (rs_generation r))).
Proof.
  intros Hc. unfold apply_reset. destruct (reset_cache_ok (cb_cache b) r Hc) as (c' & [[] | e] & -> & Hc' & Hs & Hx).
  - eexists _, _. split; [done |]. destruct (bool_decide _); simpl; split_and!; try done; by right.
  - eexists _, _. split; [done |]. split_and!; try done. by left.
Qed.

Lemma close_client_ok b :
  cache_inv (cb_cache b) -> exists b', close_client b = Some b' /\ cache_inv (cb_cache b') /\ client_same b b'
    /\ ca_closed (cb_cache b') = true /\ ca_entries (cb_cache b') = [] /\ ca_retired (cb_cache b') = ca_retired (cb_cache b)
    /\ ca_latest (cb_cache b') = ca_latest (cb_cache b) /\ ca_generation (cb_cache b') = ca_generation (cb_cache b).
Proof.
  intros Hc. unfold close_client. destruct (close_cache_ok _ Hc) as (c' & -> & Hc' & Hs & Hrest). eexists. split; [done |]. done.
Qed.
End Caches.
