(* ===== verification/BaselinesNet.v ===== *)
(** * Delta baselines over an unreliable network

    The server and the client of one representation joined by a network that loses, repeats and
    reorders: what the client holds is what the server sent, and what the server relies on is
    held by the client. And each side alone against arbitrary calls. *)

From Stdlib Require Import Strings.Byte.
From S2P Require Import Prelude Types InterestModel Codec Payload Replication Baselines BytePatch BaselinesFacts.
Local Open Scope N_scope.
Local Open Scope engine_scope.

Section Net.
Context (size_Entry size_ClientBaselines : N) (allocate : N -> N).
Context {P : Type} `{PP : !Payload P, codec : !BaselineCodec P, laws : !LawfulCodec P}.
Implicit Types (c : Cache P) (e : Entry P) (s : BaselineState P) (b : ClientBaselines P).
#[local] Notation inv := (cache_inv size_Entry size_ClientBaselines allocate).

(** ** The world *)

Record BaselineWorld := mkBaselineWorld {
  w_server : Cache P;
  w_client : ClientBaselines P;
  (** The states sent, in the order they were first sent. *)
  w_log : list (BaselineState P);
  (** Everything ever put on the network. *)
  w_packets : list BaselinePacket;
  w_acks : list BaselineReceipt;
  w_fences : list BaselineRetirement;
  w_resets : list BaselineReset;
}.
#[local] Instance eta_BaselineWorld : Eta BaselineWorld := fun r =>
  mkBaselineWorld (w_server r) (w_client r) (w_log r) (w_packets r) (w_acks r) (w_fences r) (w_resets r).

(** What happens next; an index picks a message on the network, which stays on it. *)
Inductive baseline_action :=
| ServerTransmit (s : BaselineState P) (base : option BaselineReceipt) (send : BaselinePacket -> bool)
| ServerAcknowledge (ack : nat)
| ServerRetire (f : BaselineRetirement)
| ServerReset
| ServerClose
| ClientReceive (packet : nat) (capacity : N) (validate : P -> bool)
| ClientPropose (through : SnapshotId)
| ClientFence (fence : nat)
| ClientReset (reset : nat)
| ClientRequestReset
| ClientRepair (now_ms : N)
| ClientClose.

(** The packet in the receiver's own buffer. *)
Definition received (p : BaselinePacket) (capacity : N) : BaselinePacket :=
  mkBaselinePacket (bp_target p) (bp_encoding p) (mkByteVec (vec_bytes (bp_bytes p)) capacity).

Definition server_step (w : BaselineWorld) (act : baseline_action) : option BaselineWorld :=
  match act with
  | ServerTransmit s base send =>
      match transmit_state (w_server w) s base send, prepare_packet (w_server w) s base with
      | (c, Ok true), Ok (fresh, p) =>
          Some (w <| w_server := c |> <| w_packets := p :: w_packets w |>
                  <| w_log := if fresh then w_log w ++ [s] else w_log w |>)
      | (c, _), _ => Some (w <| w_server := c |>)
      end
  | ServerAcknowledge i =>
      match w_acks w !! i with
      | None => Some w
      | Some r => match acknowledge_state (w_server w) r with
                  | Some (c, _) => Some (w <| w_server := c |>)
                  | None => None
                  end
      end
  | ServerRetire f =>
      match retire (w_server w) f with
      | None => None
      | Some (c, Ok f) => Some (w <| w_server := c |> <| w_fences := f :: w_fences w |>)
      | Some (c, Err _) => Some (w <| w_server := c |>)
      end
  | ServerReset =>
      match begin_reset (w_server w) with
      | None => None
      | Some (c, Ok r) => Some (w <| w_server := c |> <| w_resets := r :: w_resets w |>)
      | Some (c, Err _) => Some (w <| w_server := c |>)
      end
  | ServerClose => match close_cache (w_server w) with Some c => Some (w <| w_server := c |>) | None => None end
  | _ => Some w
  end.

Definition client_step (w : BaselineWorld) (act : baseline_action) : option BaselineWorld :=
  match act with
  | ClientReceive i capacity validate =>
      match w_packets w !! i with
      | None => Some w
      | Some p =>
          match receive_baseline (w_client w) (received p capacity) validate with
          | (b, Ok r) => Some (w <| w_client := b |> <| w_acks := r :: w_acks w |>)
          | (b, Err _) => Some (w <| w_client := b |>)
          end
      end
  | ClientPropose through => Some (w <| w_client := (propose_retirement (w_client w) through).1 |>)
  | ClientFence i =>
      match w_fences w !! i with
      | None => Some w
      | Some f => match acknowledge_retirement (w_client w) f with
                  | Some (b, _) => Some (w <| w_client := b |>)
                  | None => None
                  end
      end
  | ClientReset i =>
      match w_resets w !! i with
      | None => Some w
      | Some r => match apply_reset (w_client w) r with
                  | Some (b, _) => Some (w <| w_client := b |>)
                  | None => None
                  end
      end
  | ClientRequestReset => Some (w <| w_client := request_reset (w_client w) |>)
  | ClientRepair now => Some (w <| w_client := (repair_request (w_client w) now).1 |>)
  | ClientClose => match close_client (w_client w) with Some b => Some (w <| w_client := b |>) | None => None end
  | _ => Some w
  end.

Definition baseline_step (w : BaselineWorld) (act : baseline_action) : option BaselineWorld :=
  match server_step w act with Some w => client_step w act | None => None end.

Definition baseline_run (w : BaselineWorld) (acts : list baseline_action) : option BaselineWorld :=
  foldl (fun ow act => match ow with Some w => baseline_step w act | None => None end) (Some w) acts.

(** ** The invariant *)

(** A state sent after another. *)
Definition follows s s' : Prop :=
  publishes_after (bs_receipt s) (bs_receipt s')
  /\ br_generation (bs_receipt s) <= br_generation (bs_receipt s')
  /\ (br_generation (bs_receipt s) = br_generation (bs_receipt s') ->
      br_version (bs_receipt s) = br_version (bs_receipt s') -> same (bs_payload s) (bs_payload s')).

Record sent_ok (context : BaselineContext) (g : BaselineGeneration) s : Prop := {
  so_context : br_context (bs_receipt s) = context;
  so_generation : br_generation (bs_receipt s) <> 0 /\ br_generation (bs_receipt s) <= g;
  so_snapshot : br_snapshot (bs_receipt s) <> 0;
  so_version : br_version (bs_receipt s) <> 0;
  so_valid : codec_validate (bs_payload s) = true;
}.

(** The client has kept its promise to retain, or it was released from it. *)
Definition held c (r : BaselineReceipt) : Prop :=
  ca_closed c = true \/ br_generation r < ca_generation c \/ br_snapshot r <= ca_retired c
  \/ exists e, e ∈ ca_entries c /\ en_receipt e = r.

(** A packet is the encoding of a sent state, a delta against one that was acknowledged. *)
Definition packet_ok (log : list (BaselineState P)) (acks : list BaselineReceipt) (p : BaselinePacket) : Prop :=
  exists s v, s ∈ log /\ bs_receipt s = bp_target p /\ same v (bs_payload s)
  /\ match bp_encoding p with
     | EncodedFull => exists limit cap, encode_full v limit = Ok (mkByteVec (vec_bytes (bp_bytes p)) cap)
     | EncodedDelta base =>
         exists sb vb limit cap, sb ∈ log /\ bs_receipt sb = base /\ base ∈ acks /\ same vb (bs_payload sb)
           /\ br_generation base = br_generation (bp_target p) /\ br_snapshot base < br_snapshot (bp_target p)
           /\ encode_delta vb v limit = Ok (mkByteVec (vec_bytes (bp_bytes p)) cap)
     end.

Record server_inv (context : BaselineContext) (w : BaselineWorld) : Prop := {
  ni_server : inv (w_server w);
  ni_context : ca_context (w_server w) = context;
  ni_generation : ca_generation (w_server w) <> 0;
  ni_log : StronglySorted follows (w_log w);
  ni_sent_ok : Forall (sent_ok context (ca_generation (w_server w))) (w_log w);
  ni_latest : ca_latest (w_server w) = bs_receipt <$> last (w_log w);
  ni_last : forall s, last (w_log w) = Some s -> br_generation (bs_receipt s) = ca_generation (w_server w) ->
    ca_closed (w_server w) = true \/ exists e, last (ca_entries (w_server w)) = Some e /\ en_state e = s;
  ni_sent : forall e, e ∈ ca_entries (w_server w) -> en_state e ∈ w_log w;
  ni_decoded : forall e, e ∈ ca_entries (w_server w) -> en_decoded e = true -> en_receipt e ∈ w_acks w;
  ni_packets : Forall (packet_ok (w_log w) (w_acks w)) (w_packets w);
  ni_fences : Forall (fun f => rt_through f <= ca_retired (w_server w)) (w_fences w);
}.

Record client_side (context : BaselineContext) (w : BaselineWorld) : Prop := {
  nc_client : inv (cb_cache (w_client w));
  nc_context : ca_context (cb_cache (w_client w)) = context;
  nc_held : forall e, e ∈ ca_entries (cb_cache (w_client w)) ->
    exists s, s ∈ w_log w /\ en_receipt e = bs_receipt s /\ same (bs_payload (en_state e)) (bs_payload s);
  nc_latest : forall r, ca_latest (cb_cache (w_client w)) = Some r -> exists s, s ∈ w_log w /\ bs_receipt s = r;
  nc_acks : Forall (held (cb_cache (w_client w))) (w_acks w);
  nc_retired : ca_retired (cb_cache (w_client w)) <= ca_retired (w_server w);
}.

(** ** The server's steps *)

Lemma prepare_packet_ok c s base fresh p :
  prepare_packet c s base = Ok (fresh, p) ->
  check c s = Ok fresh /\ codec_validate (bs_payload s) = true /\ bp_target p = bs_receipt s
  /\ match bp_encoding p with
     | EncodedFull => exists limit, encode_full (bs_payload s) limit = Ok (bp_bytes p)
     | EncodedDelta r =>
         exists e limit, entry c r = Ok e /\ en_decoded e = true /\ br_snapshot r < br_snapshot (bs_receipt s)
           /\ encode_delta (bs_payload (en_state e)) (bs_payload s) limit = Ok (bp_bytes p)
     end.
Proof.
  unfold prepare_packet. intros H. destruct (check c s) as [fresh' |]; [| done].
  destruct (codec_validate (bs_payload s)); [| done]. cbn [negb] in H.
  assert (forall q, keyframe c (bs_payload s) = Ok q -> q.1 = EncodedFull /\ exists limit, encode_full (bs_payload s) limit = Ok q.2) as Hkey.
  { intros q Hq. unfold keyframe in Hq. destruct (encode_full _ _) as [bytes |] eqn:He; [| done]. injection Hq as <-. eauto. }
  destruct (match base with Some _ => _ | None => _ end) as [q |] eqn:Hq; [| done]. destruct (decide _) in H; [done |].
  injection H as <- <-. cbn [bp_target bp_encoding bp_bytes]. do 3 (split; [done |]).
  destruct base as [r |]; [| by destruct (Hkey q Hq) as [-> ?]].
  unfold encode_against in Hq. destruct (entry c r) as [e |] eqn:He; [| done].
  destruct (en_decoded e) eqn:Hd; [| done]. cbn [negb] in Hq. destruct (decide _) in Hq; [done |].
  destruct (encode_full _ _) as [full |]; [| done]. destruct (decide _) in Hq; [done |].
  destruct (encode_delta _ _ _) as [delta | err] eqn:Hdel.
  - destruct (decide _) in Hq; [done |]. destruct (decide _) in Hq; [| by destruct (Hkey q Hq) as [-> ?]].
    injection Hq as <-. simpl. exists e, (bl_packet_bytes (ca_limits c)). split_and!; try done. lia.
  - destruct err; try done. by destruct (Hkey q Hq) as [-> ?].
Qed.

Lemma packet_ok_mono log log' acks acks' p :
  packet_ok log acks p -> (forall s, s ∈ log -> s ∈ log') -> (forall r, r ∈ acks -> r ∈ acks') -> packet_ok log' acks' p.
Proof.
  intros (s & v & Hs & Ht & Hv & Henc) Hl Ha. exists s, v. split_and!; try done; [by apply Hl |].
  destruct (bp_encoding p) as [| base]; [done |]. destruct Henc as (sb & vb & limit & cap & H1 & H2 & H3 & Hrest).
  exists sb, vb, limit, cap. split; [by apply Hl |]. split; [done |]. split; [by apply Ha | exact Hrest].
Qed.

(** A new state follows all that were sent before. *)
Lemma fresh_follows context w s :
  server_inv context w -> check (w_server w) s = Ok true -> forall x, x ∈ w_log w -> follows x s.
Proof.
  intros Hw Hck x Hx. apply check_true in Hck as Hf. destruct (identity_Ok _ _ (cf_identity _ _ Hf)) as (Hop & _ & Hg & _).
  destruct (last (w_log w)) as [z |] eqn:Hz; [| by apply last_None in Hz; rewrite Hz in Hx; apply elem_of_nil in Hx].
  pose proof (ni_latest _ _ Hw) as Hlat. rewrite Hz in Hlat. simpl in Hlat.
  pose proof (cf_latest _ _ Hf _ Hlat) as (P1 & P2 & P3).
  pose proof (ni_sent_ok _ _ Hw) as Hall. rewrite Forall_forall in Hall.
  destruct (so_generation _ _ _ (Hall x Hx)) as [_ Gx]. assert (z ∈ w_log w) as Hzin by by apply last_Some_elem_of.
  destruct (so_generation _ _ _ (Hall z Hzin)) as [_ Gz].
  assert (x = z \/ follows x z) as Hxz by (eapply sorted_last; [apply Hw | done | done]).
  assert (publishes_after (bs_receipt x) (bs_receipt s)) as Hpub.
  { destruct Hxz as [-> | [(Q1 & Q2 & Q3) _]]; unfold publishes_after; lia. }
  split; [done |]. split; [lia |]. intros Hgen Hver. destruct Hpub as (_ & V1 & _).
  assert (br_version (bs_receipt x) = br_version (bs_receipt z) /\ br_generation (bs_receipt x) = br_generation (bs_receipt z)) as [Hv' Hg'].
  { destruct Hxz as [-> | [(_ & Q2 & _) [Q4 _]]]; [done | lia]. }
  destruct (ni_last _ _ Hw z Hz ltac:(congruence)) as [Hcl | (e & He & Hst)]; [congruence |].
  pose proof (cf_payload _ _ Hf _ e Hlat He ltac:(congruence)) as Hpay. rewrite Hst in Hpay.
  transitivity (bs_payload z); [| exact Hpay]. destruct Hxz as [-> | [_ [_ Q5]]]; [done | by apply Q5].
Qed.

Lemma transmit_step context w s base send c fresh p :
  server_inv context w -> transmit_state (w_server w) s base send = (c, Ok true) ->
  prepare_packet (w_server w) s base = Ok (fresh, p) ->
  server_inv context (w <| w_server := c |> <| w_packets := p :: w_packets w |>
                        <| w_log := if fresh then w_log w ++ [s] else w_log w |>).
Proof.
  intros Hw Htr Hp. destruct (transmit_state_ok size_Entry size_ClientBaselines allocate _ _ _ _ _ _ (ni_server _ _ Hw) Htr) as (Hc & [Hctx Hlim] & _).
  destruct (prepare_packet_ok _ _ _ _ _ Hp) as (Hck & Hval & Ht & Henc). unfold transmit_state in Htr. rewrite Hp in Htr.
  destruct (negb (send p)); [done |]. injection Htr as <-.
  assert (forall log, (forall x, x ∈ w_log w -> x ∈ log) -> (exists x, x ∈ log /\ bs_receipt x = bs_receipt s /\ same (bs_payload s) (bs_payload x)) ->
            Forall (packet_ok log (w_acks w)) (p :: w_packets w)) as Hpackets.
  { intros log Hsub (x & Hx & Hxr & Hxp). constructor.
    - exists x, (bs_payload s). split; [done |]. split; [congruence |]. split; [done |].
      destruct (bp_encoding p) as [| r] eqn:He.
      + destruct Henc as (limit & Henc). exists limit, (vec_capacity (bp_bytes p)). by destruct (bp_bytes p).
      + destruct Henc as (e & limit & Hent & Hd & Hlt & Henc). apply entry_Ok in Hent as (Hin & Hr & Hid).
        apply identity_Ok in Hid as (_ & _ & Hg & _).
        exists (en_state e), (bs_payload (en_state e)), limit, (vec_capacity (bp_bytes p)).
        split; [by apply Hsub, (ni_sent _ _ Hw) |]. split; [done |]. split; [rewrite <- Hr; by apply (ni_decoded _ _ Hw) |].
        split; [done |]. rewrite Ht. split; [| split; [done | by destruct (bp_bytes p)]].
        assert (exists f, check (w_server w) s = Ok f) as [f Hf] by eauto. unfold check in Hf.
        destruct (identity (w_server w) (bs_receipt s)) as [[] |] eqn:Hid; [| done]. apply identity_Ok in Hid as (_ & _ & Hg' & _). congruence.
    - eapply Forall_impl; [apply Hw |]. intros q Hq. by eapply packet_ok_mono. }
  destruct fresh.
  - pose proof (check_true _ _ Hck) as Hf. destruct (identity_Ok _ _ (cf_identity _ _ Hf)) as (Hop & I1 & I2 & I3 & I4 & _).
    constructor; simpl; try done; try apply Hw.
    + apply StronglySorted_app. split_and!; [| apply Hw | repeat constructor].
      intros x y Hx [-> | ?%elem_of_nil]%elem_of_cons; [| done]. by eapply fresh_follows.
    + apply Forall_app. split; [apply Hw |]. repeat constructor; try done; rewrite ?I1, ?I2; try apply Hw. lia.
    + by rewrite last_snoc.
    + intros z. rewrite last_snoc. intros [= <-] _. right. eexists. rewrite last_snoc. done.
    + intros e. rewrite elem_of_app, list_elem_of_singleton. intros [He | ->]; apply elem_of_app;
        [left; by apply (ni_sent _ _ Hw) | right; by left].
    + intros e. rewrite elem_of_app, list_elem_of_singleton. intros [He | ->]; [| done]. by apply (ni_decoded _ _ Hw).
    + apply Hpackets; [intros x Hx; apply elem_of_app; by left |]. exists s. split; [apply elem_of_app; right; by left |]. done.
  - destruct (check_false _ _ Hck) as (e & He & _ & Hr & Hpay).
    destruct Hw. constructor; simpl; try done. apply Hpackets; [done |]. exists (en_state e). split; [by auto |]. split; [done |]. by symmetry.
Qed.

Lemma held_later c r c' :
  held c r -> ca_closed c' = ca_closed c -> ca_generation c' = ca_generation c -> ca_retired c <= ca_retired c' ->
  (forall e, e ∈ ca_entries c -> e ∈ ca_entries c' \/ en_snapshot e <= ca_retired c') -> held c' r.
Proof.
  intros [H | [H | [H | (e & He & <-)]]] Hcl Hg Hr Hin.
  - left. congruence.
  - right. left. by rewrite Hg.
  - right. right. left. lia.
  - destruct (Hin e He) as [H | H]; right; right; [right; eauto | by left].
Qed.

(** The server's other calls change neither the log nor what is on the network for the client. *)
Lemma server_shrinks context w c :
  server_inv context w -> inv c -> ca_context c = context ->
  ca_generation c <> 0 -> ca_generation (w_server w) <= ca_generation c -> ca_retired (w_server w) <= ca_retired c ->
  ca_latest c = ca_latest (w_server w) ->
  (forall e, e ∈ ca_entries c -> exists e0, e0 ∈ ca_entries (w_server w) /\ en_state e = en_state e0
     /\ (en_decoded e = true -> en_decoded e0 = true \/ en_receipt e ∈ w_acks w)) ->
  (forall z, last (w_log w) = Some z -> br_generation (bs_receipt z) = ca_generation c ->
     ca_closed c = true \/ exists e, last (ca_entries c) = Some e /\ en_state e = z) ->
  server_inv context (w <| w_server := c |>).
Proof.
  intros Hw Hc Hctx Hg Hge Hret Hlat Hent Hlast. constructor; simpl; try done; try apply Hw.
  - eapply Forall_impl; [apply Hw |]. intros x []. constructor; try done. lia.
  - by rewrite Hlat, (ni_latest _ _ Hw).
  - intros e (e0 & He0 & -> & _)%Hent. by apply (ni_sent _ _ Hw).
  - intros e He Hd. destruct (Hent e He) as (e0 & He0 & Hst & Hdec). destruct (Hdec Hd) as [Hd0 | ?]; [| done].
    unfold en_receipt. rewrite Hst. by apply (ni_decoded _ _ Hw).
  - eapply Forall_impl; [apply Hw |]. simpl. lia.
Qed.

Lemma server_fenced context w c f :
  server_inv context w -> inv c -> same_fields (w_server w) c -> fenced (w_server w) c (rt_through f) ->
  server_inv context (w <| w_server := c |> <| w_fences := f :: w_fences w |>) /\ ca_retired (w_server w) <= ca_retired c.
Proof.
  intros Hw Hc [Hctx _] Hf.
  assert (server_inv context (w <| w_server := c |>) /\ ca_retired (w_server w) <= ca_retired c /\ rt_through f <= ca_retired c) as (Hw' & Hle & Hth).
  { destruct Hf as [[Hle ->] | (Hlt & He & Hr & Hg & Hl & Hcl & (e & Hin & Hsn))].
    - split; [destruct Hw; by constructor |]. lia.
    - split; [| lia]. apply server_shrinks; try done; try (rewrite ?Hctx, ?Hg; apply Hw); try lia.
      + intros e' He'. rewrite He in He'. unfold kept_above in He'. apply list_elem_of_filter in He' as [_ He']. eauto.
      + intros z Hz Hzg. rewrite Hg in Hzg. rewrite Hcl. destruct (ni_last _ _ Hw z Hz Hzg) as [? | (e' & He' & Hst)]; [by left |].
        right. exists e'. split; [| done]. rewrite He. eapply kept_above_last; [apply (ni_server _ _ Hw) | done..]. }
  split; [| done]. destruct Hw'. constructor; simpl in *; try done. by constructor.
Qed.

Lemma baseline_server_step_ok context w act :
  server_inv context w -> client_side context w ->
  exists w', server_step w act = Some w' /\ server_inv context w' /\ client_side context w'
    /\ ca_limits (w_server w') = ca_limits (w_server w) /\ w_client w' = w_client w.
Proof.
  intros Hw Hcl.
  assert (forall w', w_client w' = w_client w -> w_acks w' = w_acks w -> (forall s, s ∈ w_log w -> s ∈ w_log w') ->
            ca_retired (w_server w) <= ca_retired (w_server w') -> client_side context w') as Hkeep.
  { intros w' Hc Ha Hl Hr. destruct Hcl as [C1 C2 C3 C4 C5 C6]. constructor; rewrite ?Hc, ?Ha; try done; try lia.
    - intros e He. destruct (C3 e He) as (s & ? & ?). eauto.
    - intros r Hr'. destruct (C4 r Hr') as (s & ? & ?). eauto. }
  assert (forall w', server_inv context w' -> inv (w_server w')) as Hinv by (intros w' Hw'; apply Hw').
  destruct act as [s base send | i | f | | | | | | | | |]; simpl; try (by exists w).
  - destruct (transmit_state (w_server w) s base send) as [c r] eqn:Htr.
    destruct (transmit_state_ok size_Entry size_ClientBaselines allocate _ _ _ _ _ _ (ni_server _ _ Hw) Htr) as (Hc & [Hctx Hlim] & Hsame).
    assert (r <> Ok true -> exists w', Some (w <| w_server := c |>) = Some w' /\ server_inv context w' /\ client_side context w'
              /\ ca_limits (w_server w') = ca_limits (w_server w) /\ w_client w' = w_client w) as Hno.
    { intros Hr. rewrite (Hsame Hr). eexists. split; [done |]. split; [destruct Hw; by constructor |]. split; [| done].
      by apply Hkeep. }
    destruct r as [[|] | err]; [| by apply Hno | by apply Hno].
    destruct (prepare_packet (w_server w) s base) as [[fresh p] | err] eqn:Hp.
    2: { unfold transmit_state in Htr. by rewrite Hp in Htr. }
    eexists. split; [done |]. split; [by eapply transmit_step |]. split; [| done]. apply Hkeep; simpl; try done.
    + intros x Hx. destruct fresh; [apply elem_of_app; by left | done].
    + unfold transmit_state in Htr. rewrite Hp in Htr. destruct (negb _); [done |]. injection Htr as <-. by destruct fresh.
  - destruct (w_acks w !! i) as [r |] eqn:Hi; [| by exists w].
    destruct (acknowledge_ok size_Entry size_ClientBaselines allocate (w_server w) r (ni_server _ _ Hw)) as (c & x & -> & Hc & [Hctx Hlim] & Hx).
    eexists. split; [done |]. assert (server_inv context (w <| w_server := c |>) /\ ca_retired c = ca_retired (w_server w)) as [Hw' Hret].
    { destruct x as [u | err]; [| subst c; split; [destruct Hw; by constructor | done]].
      destruct Hx as (l & -> & Hst & Hl). split; [| done]. apply server_shrinks; try done; try apply Hw; simpl; try lia.
      - intros e He. destruct (Hl e He) as [He0 | Hr]; [by exists e; auto |].
        assert (en_state e ∈ en_state <$> ca_entries (w_server w)) as Hin by (rewrite <- Hst; by apply list_elem_of_fmap_2).
        apply list_elem_of_fmap in Hin as (e0 & Heq & He0). exists e0. split; [done |]. split; [done |]. intros _. right.
        rewrite Hr. by eapply list_elem_of_lookup_2.
      - intros z Hz Hzg. destruct (ni_last _ _ Hw z Hz Hzg) as [? | (e & He & Hez)]; [by left |]. right.
        assert (last (en_state <$> l) = Some z) as Hl'. { rewrite Hst, fmap_last, He. simpl. by rewrite Hez. }
        rewrite fmap_last in Hl'. apply fmap_Some in Hl' as (e' & ? & ?). eauto. }
    split; [done |]. split; [| done]. apply Hkeep; simpl; try done. lia.
  - destruct (retire_request_ok size_Entry size_ClientBaselines allocate (w_server w) f (ni_server _ _ Hw)) as (c & x & -> & Hc & Hs & Hx).
    destruct x as [f' | err]; [destruct Hx as [-> Hf] | subst c].
    + destruct (server_fenced context w c f Hw Hc Hs Hf) as [Hw' Hle]. eexists. split; [done |]. split; [done |].
      split; [by apply Hkeep | split; [apply Hs | done]].
    + eexists. split; [done |]. split; [destruct Hw; by constructor |]. split; [by apply Hkeep | done].
  - destruct (begin_reset_ok size_Entry size_ClientBaselines allocate (w_server w) (ni_server _ _ Hw)) as (c & x & -> & Hc & [Hctx Hlim] & Hx).
    destruct x as [r | err].
    + destruct Hx as (Hop & Hr & _ & Hg). eexists. split; [done |].
      assert (ca_retired (w_server w) <= ca_retired c /\ server_inv context (w <| w_server := c |>)) as [Hret Hw'].
      { destruct Hr as [[_ ->] | (Hlt & He & Hg' & Hret & Hl & Hcl')]; [split; [lia | destruct Hw; by constructor] |]. split; [lia |].
        apply server_shrinks; try done; try (rewrite ?Hctx; apply Hw); try lia.
        - intros e. rewrite He. by intros ?%elem_of_nil.
        - intros z Hz Hzg. exfalso. pose proof (ni_sent_ok _ _ Hw) as Hall. rewrite Forall_forall in Hall.
          destruct (so_generation _ _ _ (Hall z (last_Some_elem_of _ _ Hz))). lia. }
      split; [destruct Hw'; by constructor |]. split; [by apply Hkeep | done].
    + subst c. eexists. split; [done |]. split; [destruct Hw; by constructor |]. split; [by apply Hkeep | done].
  - destruct (close_cache_ok size_Entry size_ClientBaselines allocate (w_server w) (ni_server _ _ Hw)) as (c & -> & Hc & [Hctx Hlim] & Hcl' & He & Hret & Hl & Hg).
    eexists. split; [done |]. split; [| split; [apply Hkeep; simpl; try done; lia | done]].
    apply server_shrinks; try done; try (rewrite ?Hctx, ?Hg; apply Hw); try lia.
    + intros e. rewrite He. by intros ?%elem_of_nil.
    + intros z _ _. by left.
Qed.

(** ** The client's steps *)

Lemma screen_Ok c p validate :
  screen c p validate = Ok tt ->
  identity c (bp_target p) = Ok tt /\ check_packet p = Ok tt
  /\ forall r, ca_latest c = Some r -> br_snapshot (bp_target p) < br_snapshot r ->
       exists e, e ∈ ca_entries c /\ en_snapshot e = br_snapshot (bp_target p).
Proof.
  unfold screen. intros H. destruct (decide _) in H; [done |]. destruct (check_packet p) as [[] |]; [| done].
  destruct (check_order _ _); [| done].
  assert (forall err, validated_then (A:=unit) c p validate err <> Ok tt) as Hno.
  { intros err. unfold validated_then. destruct (is_full _); [| done]. destruct (decode_full _ _); [| done]. by destruct (_ || _). }
  destruct (_ && _ && _) in H; [by destruct (Hno _ H) |]. destruct (_ && _ && _ && _) in H; [by destruct (Hno _ H) |].
  destruct (identity c (bp_target p)) as [[] | err]; [| destruct (is_obsolete err); [by destruct (Hno _ H) | done]].
  split; [done |]. split; [done |]. intros r Hr Hlt. rewrite Hr, bool_decide_eq_true_2 in H by done. simpl in H.
  destruct (existsb _ _) eqn:Hex; simpl in H.
  - apply existsb_exists in Hex as (e & He%list_elem_of_In & Hx%bool_decide_eq_true). eauto.
  - destruct (decide _) in H; [done |]. by destruct (Hno _ H).
Qed.

Lemma log_unique context w s s' :
  server_inv context w -> s ∈ w_log w -> s' ∈ w_log w -> br_snapshot (bs_receipt s) = br_snapshot (bs_receipt s') -> s = s'.
Proof.
  intros Hw. apply (sorted_unique follows (fun x => br_snapshot (bs_receipt x))); [apply Hw |]. by intros x y [[? _] _].
Qed.

(** A sent packet that passes the screen decodes to the state it was made of; a delta never
    misses its base. *)
Lemma decode_genuine context w p validate :
  server_inv context w -> client_side context w -> packet_ok (w_log w) (w_acks w) p ->
  screen (cb_cache (w_client w)) p validate = Ok tt ->
  match decode_packet (cb_cache (w_client w)) p with
  | inr payload => exists s, s ∈ w_log w /\ bs_receipt s = bp_target p /\ same payload (bs_payload s)
  | inl (err, repair) => repair = false /\ (err = Capacity \/ is_obsolete err = true)
  end.
Proof.
  intros Hw Hcl (s & v & Hs & Ht & Hv & Henc) Hsc. set (c := cb_cache (w_client w)) in *.
  destruct (screen_Ok _ _ _ Hsc) as (Hid & _ & _). destruct (identity_Ok _ _ Hid) as (Hop & Hctx & Hg & _).
  unfold decode_packet. destruct (bp_encoding p) as [| base].
  - destruct Henc as (limit & cap & Henc). pose proof (full_decodes v limit _ (bl_payload_bytes (ca_limits c)) Henc) as Hd.
    cbn [vec_bytes] in Hd. destruct (decode_full _ _) as [payload | err]; [| by auto].
    exists s. split_and!; try done. by transitivity v.
  - destruct Henc as (sb & vb & limit & cap & Hsb & Hbr & Hack & Hvb & Hbg & Hlt & Henc).
    pose proof (ni_sent_ok _ _ Hw) as Hall. rewrite Forall_forall in Hall.
    rewrite decide_False.
    2: { rewrite <- Hbr, <- Ht. rewrite (so_context _ _ _ (Hall sb Hsb)), (so_context _ _ _ (Hall s Hs)), Hbr, Ht. intros [? | [? | ?]]; [done | done | lia]. }
    pose proof (nc_acks _ _ Hcl) as Hacks. rewrite Forall_forall in Hacks. destruct (Hacks base Hack) as [H | [H | [H | (e & He & Her)]]].
    + fold c in H. congruence.
    + fold c in H. lia.
    + assert (entry c base = Err (Obsolete RetiredBaseline)) as ->; [| by auto].
      unfold entry, identity, envelope. rewrite Hop. simpl.
      rewrite bool_decide_eq_false_2 by (rewrite <- Hctx, <- Hbr, <- Ht, (so_context _ _ _ (Hall sb Hsb)), (so_context _ _ _ (Hall s Hs)); by intros []).
      rewrite bool_decide_eq_false_2 by (rewrite Hbg, Hg; by intros []). simpl.
      rewrite decide_False by (rewrite <- Hbr; pose proof (so_snapshot _ _ _ (Hall sb Hsb)); pose proof (so_version _ _ _ (Hall sb Hsb)); tauto).
      by rewrite decide_True.
    + fold c in He. rewrite <- Her, (entry_held size_Entry size_ClientBaselines allocate c e (nc_client _ _ Hcl) He).
      destruct (nc_held _ _ Hcl e He) as (x & Hx & Hxr & Hxp).
      assert (x = sb) as -> by (eapply log_unique; try done; congruence).
      assert (same (bs_payload (en_state e)) vb) as Hsame by (transitivity (bs_payload sb); [done | by symmetry]).
      pose proof (delta_decodes vb (bs_payload (en_state e)) v limit _ (bl_payload_bytes (ca_limits c)) Hsame Henc) as Hd.
      cbn [vec_bytes] in Hd. destruct (decode_delta _ _ _) as [payload | err]; [| by auto].
      exists s. split_and!; try done. by transitivity v.
Qed.

(** What the client keeps of a smaller or restarted cache. *)
Lemma client_shrinks context w b :
  client_side context w -> inv (cb_cache b) -> ca_context (cb_cache b) = context ->
  (forall e, e ∈ ca_entries (cb_cache b) -> e ∈ ca_entries (cb_cache (w_client w))) ->
  ca_latest (cb_cache b) = ca_latest (cb_cache (w_client w)) ->
  ca_retired (cb_cache b) <= ca_retired (w_server w) ->
  (forall r, r ∈ w_acks w -> held (cb_cache (w_client w)) r -> held (cb_cache b) r) ->
  client_side context (w <| w_client := b |>).
Proof.
  intros Hcl Hinv Hctx Hent Hlat Hret Hheld. constructor; simpl; try done.
  - intros e He. by apply (nc_held _ _ Hcl), Hent.
  - intros r. rewrite Hlat. apply (nc_latest _ _ Hcl).
  - pose proof (nc_acks _ _ Hcl) as Hall. rewrite Forall_forall in *. auto.
Qed.

Lemma server_acks context w acks :
  server_inv context w -> (forall r, r ∈ w_acks w -> r ∈ acks) -> server_inv context (w <| w_acks := acks |>).
Proof.
  intros [] Ha. constructor; simpl; try done; [by auto |]. eapply Forall_impl; [done |]. intros p Hp. by eapply packet_ok_mono.
Qed.

Lemma server_client context w b : server_inv context w -> server_inv context (w <| w_client := b |>).
Proof. intros []. by constructor. Qed.

Lemma receive_step context w p validate b r :
  server_inv context w -> client_side context w -> packet_ok (w_log w) (w_acks w) p ->
  receive_baseline (w_client w) p validate = (b, Ok r) ->
  client_side context (w <| w_client := b |> <| w_acks := r :: w_acks w |>).
Proof.
  intros Hw Hcl Hp Hr. pose proof (receive_inv size_Entry size_ClientBaselines allocate _ _ _ _ _ (nc_client _ _ Hcl) Hr) as (Hinv & [Hctx _] & _).
  apply receive_cases in Hr as (-> & Hsc & payload & Hd & _ & _ & Hcase).
  pose proof (decode_genuine context w p validate Hw Hcl Hp Hsc) as Hgen. rewrite Hd in Hgen. destruct Hgen as (s & Hs & Hsr & Hsp).
  destruct Hcase as [[Hck Hb] | [Hck Hb]].
  - constructor; simpl; rewrite ?Hctx; try apply Hcl; try done; rewrite Hb; simpl.
    + intros e. rewrite elem_of_app, list_elem_of_singleton. intros [He | ->]; [by apply (nc_held _ _ Hcl) |]. by exists s.
    + intros r [= <-]. eauto.
    + constructor.
      * right. right. right. eexists. split; [apply elem_of_app; right; by left | done].
      * eapply Forall_impl; [apply Hcl |]. intros x Hx. eapply held_later; [done | done | done | done |].
        intros e He. left. apply elem_of_app. by left.
    + apply Hcl.
  - destruct (check_false _ _ Hck) as (e & He & _ & Her & _).
    constructor; simpl; rewrite ?Hctx, ?Hb; try apply Hcl; try done. constructor; [| apply Hcl].
    right. right. right. eauto.
Qed.

Lemma baseline_client_step_ok context w act :
  server_inv context w -> client_side context w ->
  exists w', client_step w act = Some w' /\ server_inv context w' /\ client_side context w'
    /\ w_server w' = w_server w /\ ca_limits (cb_cache (w_client w')) = ca_limits (cb_cache (w_client w)).
Proof.
  intros Hw Hcl. pose proof (nc_context _ _ Hcl) as Hcx.
  assert (forall b, cb_cache b = cb_cache (w_client w) -> exists w', Some (w <| w_client := b |>) = Some w'
            /\ server_inv context w' /\ client_side context w' /\ w_server w' = w_server w
            /\ ca_limits (cb_cache (w_client w')) = ca_limits (cb_cache (w_client w))) as Hsame.
  { intros b Hb. eexists. split; [done |]. split; [by apply server_client |]. simpl. rewrite Hb. split; [| done].
    destruct Hcl. constructor; simpl; by rewrite ?Hb. }
  destruct act as [| | | | | i capacity validate | through | i | i | | now |]; simpl; try (by exists w).
  - destruct (w_packets w !! i) as [p |] eqn:Hi; [| by exists w].
    assert (packet_ok (w_log w) (w_acks w) (received p capacity)) as Hp.
    { pose proof (ni_packets _ _ Hw) as Hall. rewrite Forall_forall in Hall. apply (Hall p). by eapply list_elem_of_lookup_2. }
    destruct (receive_baseline (w_client w) (received p capacity) validate) as [b r] eqn:Hr.
    destruct (receive_inv size_Entry size_ClientBaselines allocate _ _ _ _ _ (nc_client _ _ Hcl) Hr) as (_ & [_ Hlim] & Herr).
    destruct r as [r | err]; [| by apply Hsame, (Herr err)].
    eexists. split; [done |]. split; [apply server_acks; [by apply server_client |]; intros x Hx; by right |].
    split; [by eapply receive_step | done].
  - apply Hsame. unfold propose_retirement. destruct (retirement _ _); [| done]. destruct (decide _); [done |].
    by destruct (match cb_proposed (w_client w) with Some _ => _ | None => _ end).
  - destruct (w_fences w !! i) as [f |] eqn:Hi; [| by exists w].
    destruct (acknowledge_retirement_ok size_Entry size_ClientBaselines allocate (w_client w) f (nc_client _ _ Hcl)) as (b & x & -> & Hinv & [Hctx Hlim] & [Hb | Hf]); [by apply Hsame |].
    destruct Hf as [[_ Hb] | (Hlt & He & Hret & Hg & Hl & Hclo & _)]; [by apply Hsame |].
    eexists. split; [done |]. split; [by apply server_client |]. split; [| done].
    apply client_shrinks; try done; [congruence | | |].
    + intros e. rewrite He. by intros [_ ?]%list_elem_of_filter.
    + rewrite Hret. pose proof (ni_fences _ _ Hw) as Hall. rewrite Forall_forall in Hall. apply (Hall f). by eapply list_elem_of_lookup_2.
    + intros r _ Hr. eapply held_later; try done; [lia |]. intros e Hin. rewrite He, Hret. unfold kept_above. rewrite list_elem_of_filter.
      destruct (decide (en_snapshot e <= rt_through f)); auto.
  - destruct (w_resets w !! i) as [r |] eqn:Hi; [| by exists w].
    destruct (apply_reset_ok size_Entry size_ClientBaselines allocate (w_client w) r (nc_client _ _ Hcl)) as (b & x & -> & Hinv & [Hctx Hlim] & [Hb | (Hop & Hr)]); [by apply Hsame |].
    destruct Hr as [[_ Hb] | (Hlt & He & Hg & Hret & Hl & Hclo)]; [by apply Hsame |].
    eexists. split; [done |]. split; [by apply server_client |]. split; [| done].
    apply client_shrinks; try done; [congruence | | |].
    + intros e. rewrite He. by intros ?%elem_of_nil.
    + rewrite Hret. apply Hcl.
    + intros q _ [H | [H | [H | (e & Hin & <-)]]]; [congruence | right; left; lia | right; right; left; lia |].
      right. left. pose proof (bi_entries _ _ _ _ (nc_client _ _ Hcl)) as Hall. rewrite Forall_forall in Hall.
      rewrite (eo_generation _ _ (Hall e Hin)). lia.
  - by apply Hsame.
  - apply Hsame. unfold repair_request. by destruct (_ || _).
  - destruct (close_client_ok size_Entry size_ClientBaselines allocate (w_client w) (nc_client _ _ Hcl)) as (b & -> & Hinv & [Hctx Hlim] & Hclo & He & Hret & Hl & _).
    eexists. split; [done |]. split; [by apply server_client |]. split; [| done].
    apply client_shrinks; try done; [congruence | | |].
    + intros e. rewrite He. by intros ?%elem_of_nil.
    + rewrite Hret. apply Hcl.
    + intros q _ _. by left.
Qed.

(** ** Runs *)

Lemma baseline_step_ok context w act :
  server_inv context w -> client_side context w ->
  exists w', baseline_step w act = Some w' /\ server_inv context w' /\ client_side context w'.
Proof.
  intros Hw Hcl. unfold baseline_step. destruct (baseline_server_step_ok context w act Hw Hcl) as (w1 & -> & Hw1 & Hcl1 & _).
  destruct (baseline_client_step_ok context w1 act Hw1 Hcl1) as (w2 & -> & Hw2 & Hcl2 & _). by exists w2.
Qed.

Lemma baseline_run_ok context acts : forall w,
  server_inv context w -> client_side context w ->
  exists w', baseline_run w acts = Some w' /\ server_inv context w' /\ client_side context w'.
Proof.
  induction acts as [| act acts IH]; intros w Hw Hcl; [by exists w |].
  destruct (baseline_step_ok context w act Hw Hcl) as (w1 & Hs & Hw1 & Hcl1). destruct (IH w1 Hw1 Hcl1) as (w2 & Hr & ?).
  exists w2. split; [| done]. unfold baseline_run in *. cbn [foldl]. by rewrite Hs.
Qed.

Lemma baseline_start context g ls lc c b :
  Cache_new size_Entry size_ClientBaselines allocate context g ls = Ok c ->
  ClientBaselines_new size_Entry size_ClientBaselines allocate context g lc = Ok b ->
  server_inv context (mkBaselineWorld c b [] [] [] [] []) /\ client_side context (mkBaselineWorld c b [] [] [] [] [])
  /\ context_validate context = Ok tt.
Proof.
  intros Hnew Hb. destruct (Cache_new_ok _ _ _ _ _ _ _ Hnew) as (Hc & C1 & C2 & _ & C3 & C4 & C5 & C6 & Hval & Hg).
  unfold ClientBaselines_new in Hb. destruct (Cache_new _ _ _ context g lc) as [cc |] eqn:Hcc; [| done]. injection Hb as <-.
  destruct (Cache_new_ok _ _ _ _ _ _ _ Hcc) as (Hcc' & D1 & D2 & _ & D3 & D4 & D5 & D6 & _). split_and!; try done.
  - constructor; simpl; rewrite ?C3; try done; try constructor; try congruence; by intros ? ?%elem_of_nil.
  - constructor; simpl; rewrite ?D3, ?D5; try done; try constructor; [by intros ? ?%elem_of_nil | lia].
Qed.

(** ** What is on the network is answered properly *)

Lemma log_order context w s s' :
  server_inv context w -> s ∈ w_log w -> s' ∈ w_log w -> br_snapshot (bs_receipt s) < br_snapshot (bs_receipt s') -> follows s s'.
Proof.
  intros Hw Hs Hs' Hlt. apply list_elem_of_lookup in Hs as (i & Hi), Hs' as (j & Hj).
  destruct (decide (i < j)%nat) as [Hij | Hij]; [by eapply (StronglySorted_positions _ (w_log w) i j); [apply Hw | ..] |].
  destruct (decide (i = j)) as [-> | Hne]; [simplify_eq; lia |].
  assert (follows s' s) as [[? _] _]; [| lia]. eapply (StronglySorted_positions _ (w_log w) j i); [apply Hw | lia | done | done].
Qed.

(** The answers a sent packet may get besides success. *)
Definition excusable (log : list (BaselineState P)) (p : BaselinePacket) (validate : P -> bool) (err : ReplicationError) : Prop :=
  err = Capacity \/ err = Stale \/ err = BaselineResetPending \/ is_obsolete err = true
  \/ (err = InvalidPayload /\ exists s v, s ∈ log /\ bs_receipt s = bp_target p /\ same v (bs_payload s) /\ validate v = false).

Lemma genuine_packet context w p :
  context_validate context = Ok tt -> server_inv context w -> packet_ok (w_log w) (w_acks w) p -> check_packet p = Ok tt.
Proof.
  intros Hval Hw (s & v & Hs & Ht & _ & Henc). pose proof (ni_sent_ok _ _ Hw) as Hall. rewrite Forall_forall in Hall.
  destruct (Hall s Hs) as [S1 [S2 _] S3 S4 _]. unfold check_packet. rewrite <- Ht, S1, Hval. rewrite decide_False by tauto.
  destruct (bp_encoding p) as [| base]; [done |]. destruct Henc as (sb & vb & limit & cap & Hsb & Hbr & _ & _ & Hg & Hlt & _).
  destruct (Hall sb Hsb) as [B1 _ B3 B4 _]. rewrite Hbr in *. rewrite <- Ht in Hg, Hlt.
  assert (follows sb s) as [(_ & F2 & F3) _] by (eapply log_order; [done | done | done |]; by rewrite Hbr).
  rewrite Hbr in *. rewrite decide_False; [done |]. intros H. destruct H as [H | [H | [H | [H | [H | [H | H]]]]]]; try done; lia.
Qed.

Lemma genuine_order context w p r :
  server_inv context w -> client_side context w -> packet_ok (w_log w) (w_acks w) p ->
  ca_latest (cb_cache (w_client w)) = Some r ->
  exists s x, s ∈ w_log w /\ bs_receipt s = bp_target p /\ x ∈ w_log w /\ bs_receipt x = r
    /\ ((br_snapshot (bp_target p) < br_snapshot r /\ follows s x) \/ s = x
        \/ (br_snapshot r < br_snapshot (bp_target p) /\ follows x s)).
Proof.
  intros Hw Hcl (s & v & Hs & Ht & _) Hr. destruct (nc_latest _ _ Hcl r Hr) as (x & Hx & Hxr). exists s, x.
  split_and!; try done. rewrite <- Ht, <- Hxr.
  destruct (N.lt_trichotomy (br_snapshot (bs_receipt s)) (br_snapshot (bs_receipt x))) as [Hlt | [Heq | Hgt]].
  - left. split; [done |]. by eapply log_order.
  - right. left. by eapply log_unique.
  - right. right. split; [done |]. by eapply log_order.
Qed.

Lemma validated_excusable context w p validate err err' :
  server_inv context w -> packet_ok (w_log w) (w_acks w) p -> excusable (w_log w) p validate err ->
  validated_then (A:=unit) (cb_cache (w_client w)) p validate err = Err err' -> excusable (w_log w) p validate err'.
Proof.
  intros Hw (s & v & Hs & Ht & Hv & Henc) Hex. unfold validated_then. destruct (bp_encoding p) as [| base] eqn:He; simpl; [| by intros [= <-]].
  destruct Henc as (limit & cap & Henc). pose proof (full_decodes v limit _ (bl_payload_bytes (ca_limits (cb_cache (w_client w)))) Henc) as Hd.
  cbn [vec_bytes] in Hd. destruct (decode_full _ _) as [payload | e2]; [| intros [= <-]; by left].
  assert (same payload (bs_payload s)) as Hp by by transitivity v.
  pose proof (ni_sent_ok _ _ Hw) as Hall. rewrite Forall_forall in Hall.
  rewrite (validate_same _ _ Hp), (so_valid _ _ _ (Hall s Hs)). simpl.
  destruct (validate payload) eqn:Hval; simpl; intros [= <-]; [done |]. do 4 right. split; [done |]. by exists s, payload.
Qed.

Lemma screen_excusable context w p validate err :
  context_validate context = Ok tt -> server_inv context w -> client_side context w -> packet_ok (w_log w) (w_acks w) p ->
  screen (cb_cache (w_client w)) p validate = Err err -> excusable (w_log w) p validate err.
Proof.
  intros Hval Hw Hcl Hp. set (c := cb_cache (w_client w)). unfold screen. destruct (decide _); [intros [= <-]; by left |].
  rewrite (genuine_packet context w p Hval Hw Hp).
  assert (check_order (ca_latest c) (bp_target p) = Ok tt) as ->.
  { unfold check_order. destruct (ca_latest c) as [r |] eqn:Hr; [| done].
    destruct (genuine_order context w p r Hw Hcl Hp Hr) as (s & x & _ & Ht & _ & Hxr & Hord). rewrite decide_False; [done |]. rewrite <- Ht, <- Hxr in *.
    destruct Hord as [(_ & (F1 & F2 & F3) & _) | [-> | (_ & (F1 & F2 & F3) & _)]]; lia. }
  assert (forall x0 x1, excusable (w_log w) p validate x0 -> validated_then (A:=unit) c p validate x0 = Err x1 -> excusable (w_log w) p validate x1) as Hthen.
  { intros x0 x1. by apply (validated_excusable context). }
  destruct (_ && _ && _); [apply Hthen; do 3 right; by left |]. destruct (_ && _ && _ && _); [apply Hthen; do 2 right; by left |].
  pose proof Hp as (s & v & Hs & Ht & _). pose proof (ni_sent_ok _ _ Hw) as Hall. rewrite Forall_forall in Hall.
  destruct (identity c (bp_target p)) as [[] | e0] eqn:Hid.
  - destruct (ca_latest c) as [r |] eqn:Hr; [| done]. destruct (bool_decide _ && _) eqn:Hold; [| done].
    apply andb_true_iff in Hold as [Hlt%bool_decide_eq_true _].
    destruct (genuine_order context w p r Hw Hcl Hp Hr) as (s' & x & _ & Ht' & _ & Hxr & Hord).
    rewrite decide_False; [apply Hthen; do 3 right; by left |]. rewrite <- Ht', <- Hxr in *.
    destruct Hord as [(_ & (F1 & F2 & F3) & _) | [-> | (F0 & _)]]; lia.
  - assert (e0 = Stale \/ e0 = Obsolete RetiredBaseline) as [-> | ->].
    { unfold identity, envelope in Hid. destruct (_ || _ || _) in Hid; [injection Hid as <-; by left |].
      rewrite decide_False in Hid by (rewrite <- Ht; pose proof (so_snapshot _ _ _ (Hall s Hs)); pose proof (so_version _ _ _ (Hall s Hs)); tauto).
      destruct (decide _) in Hid; [injection Hid as <-; by right | done]. }
    + simpl. intros [= <-]. right. by left.
    + simpl. apply Hthen. do 3 right. by left.
Qed.

(** The state decoded from a packet is refused only for lack of room. *)
Lemma check_excusable context w p validate payload s err :
  server_inv context w -> client_side context w -> packet_ok (w_log w) (w_acks w) p ->
  screen (cb_cache (w_client w)) p validate = Ok tt ->
  s ∈ w_log w -> bs_receipt s = bp_target p -> same payload (bs_payload s) ->
  check (cb_cache (w_client w)) (mkBaselineState (bp_target p) payload) = Err err -> excusable (w_log w) p validate err.
Proof.
  intros Hw Hcl Hp Hsc Hs Ht Hpay. set (c := cb_cache (w_client w)) in *. destruct (screen_Ok _ _ _ Hsc) as (Hid & _ & Hnew).
  destruct (identity_Ok _ _ Hid) as (Hop & _ & Hg & _). unfold check. cbn [bs_receipt bs_payload]. rewrite Hid.
  destruct (decide _); [intros [= <-]; by left |].
  destruct (find_snapshot c (br_snapshot (bp_target p))) as [e |] eqn:Hf.
  { apply find_snapshot_Some in Hf as [He Hx]. destruct (nc_held _ _ Hcl e He) as (x & Hxin & Hxr & Hxp).
    assert (x = s) as ->. { eapply log_unique; try done. rewrite <- Hxr, Ht. exact Hx. }
    assert (baseline_eq (en_state e) (mkBaselineState (bp_target p) payload) = true) as ->; [| done].
    unfold baseline_eq. cbn [bs_receipt bs_payload]. apply andb_true_iff. split; [apply bool_decide_eq_true; unfold en_receipt in Hxr; congruence |].
    assert (same (bs_payload (en_state e)) payload) as Hsm by (transitivity (bs_payload s); [done | by symmetry]). exact Hsm. }
  destruct (match ca_latest c with Some _ => _ | None => _ end) as [u | e0] eqn:Hl; [destruct (_ || _); [intros [= <-]; by left | done] |].
  intros [= <-]. destruct (ca_latest c) as [r |] eqn:Hr; [| done].
  destruct (genuine_order context w p r Hw Hcl Hp Hr) as (s' & x & Hs' & Ht' & Hx & Hxr & Hord).
  assert (s' = s) as -> by (eapply log_unique; [done | done | done |]; congruence).
  assert (br_snapshot r < br_snapshot (bp_target p) /\ follows x s) as [Hlt ((F1 & F2 & F3) & F4 & F5)].
  { destruct Hord as [[Hlt _] | [-> | H]]; [| | done].
    - destruct (Hnew r eq_refl Hlt) as (e & He & Hx'). by destruct (find_snapshot_None c _ e Hf He).
    - exfalso. destruct (bi_current _ _ _ _ (nc_client _ _ Hcl) r Hr) as [_ Hcur].
      destruct Hcur as (el & Hel & Helr); [fold c; congruence | done |].
      destruct (find_snapshot_None c _ el Hf (last_Some_elem_of _ _ Hel)). unfold en_snapshot. congruence. }
  exfalso. destruct (bool_decide _ && _) eqn:Hver in Hl.
  - apply andb_true_iff in Hver as [Hver%bool_decide_eq_true Hdiff].
    destruct (last (ca_entries c)) as [el |] eqn:Hel; [| done]. apply negb_true_iff in Hdiff.
    pose proof (bi_latest _ _ _ _ (nc_client _ _ Hcl) el Hel) as Hlat. fold c in Hlat. rewrite Hr in Hlat. injection Hlat as Hlat.
    pose proof (bi_entries _ _ _ _ (nc_client _ _ Hcl)) as Hall. rewrite Forall_forall in Hall.
    pose proof (eo_generation _ _ (Hall el (last_Some_elem_of _ _ Hel))) as Hgl. fold c in Hgl.
    destruct (nc_held _ _ Hcl el (last_Some_elem_of _ _ Hel)) as (y & Hy & Hyr & Hyp).
    assert (y = x) as -> by (eapply log_unique; [done | done | done |]; congruence).
    assert (same (bs_payload (en_state el)) payload) as Hsm; [| unfold same in Hsm; congruence].
    transitivity (bs_payload x); [done |]. transitivity (bs_payload s); [apply F5; congruence | by symmetry].
  - rewrite decide_False in Hl by lia. rewrite decide_False in Hl; [done |]. rewrite <- Ht, <- Hxr. lia.
Qed.

(** C9 Over a network that loses, repeats and reorders packets, receipts, fences and resets,
    nothing panics; every state the client holds is one the server sent under that receipt, with
    an equal payload; a state the server takes for decoded, and may encode against, is held by
    the client as long as both are in the same generation and the client is open; and the client
    never gives up a state before the server has fenced it. *)
Theorem baselines_agree context g ls lc c b acts :
  Cache_new size_Entry size_ClientBaselines allocate context g ls = Ok c ->
  ClientBaselines_new size_Entry size_ClientBaselines allocate context g lc = Ok b ->
  exists w, baseline_run (mkBaselineWorld c b [] [] [] [] []) acts = Some w
  /\ (forall r st, baseline_state (w_client w) r = Ok st ->
      exists s, s ∈ w_log w /\ bs_receipt s = r /\ bs_receipt st = r /\ payload_eq (bs_payload st) (bs_payload s) = true)
  /\ (forall e, e ∈ ca_entries (w_server w) -> en_decoded e = true ->
      ca_generation (cb_cache (w_client w)) = ca_generation (w_server w) -> ca_closed (cb_cache (w_client w)) = false ->
      exists st, baseline_state (w_client w) (en_receipt e) = Ok st
        /\ payload_eq (bs_payload st) (bs_payload (en_state e)) = true)
  /\ ca_retired (cb_cache (w_client w)) <= ca_retired (w_server w).
Proof.
  intros Hc Hb. destruct (baseline_start _ _ _ _ _ _ Hc Hb) as (Hs0 & Hc0 & _).
  destruct (baseline_run_ok context acts _ Hs0 Hc0) as (w & Hrun & Hw & Hcl). exists w. split; [done |]. split_and!.
  - intros r st Hst. unfold baseline_state in Hst. destruct (entry (cb_cache (w_client w)) r) as [e |] eqn:He; [| done]. injection Hst as <-.
    apply entry_Ok in He as (Hin & Hr & _). destruct (nc_held _ _ Hcl e Hin) as (s & Hs & Hsr & Hsp). exists s.
    split_and!; try done. congruence.
  - intros e He Hd Hg Hop. pose proof (nc_acks _ _ Hcl) as Hall. rewrite Forall_forall in Hall.
    pose proof (bi_entries _ _ _ _ (ni_server _ _ Hw)) as Hent. rewrite Forall_forall in Hent. destruct (Hent e He) as [_ Eg Er _ _].
    pose proof (nc_retired _ _ Hcl). unfold en_snapshot in Er.
    destruct (Hall _ (ni_decoded _ _ Hw e He Hd)) as [H0 | [H0 | [H0 | (e' & He' & Heq)]]]; [congruence | lia | lia |].
    exists (en_state e'). unfold baseline_state. rewrite <- Heq, (entry_held _ _ _ _ e' (nc_client _ _ Hcl) He'). split; [done |].
    destruct (nc_held _ _ Hcl e' He') as (s & Hs & Hsr & Hsp).
    assert (s = en_state e) as <- by (eapply log_unique; [done | done | by apply (ni_sent _ _ Hw) | unfold en_receipt in *; congruence]). exact Hsp.
  - apply Hcl.
Qed.

(** C20 Whatever was lost or reordered before, a packet the server has sent, delivered into any
    buffer, is either decoded to exactly the state it was made of, which is then held under its
    receipt, or refused without any change, and only because it is obsolete, the client is
    closed or in another generation, there is no room, or the caller's own validation rejects
    that state. In particular a delta never misses its base, never conflicts with what is held,
    and never causes a repair. *)
Theorem sent_packets_decode context g ls lc c b acts w i p capacity validate :
  Cache_new size_Entry size_ClientBaselines allocate context g ls = Ok c ->
  ClientBaselines_new size_Entry size_ClientBaselines allocate context g lc = Ok b ->
  baseline_run (mkBaselineWorld c b [] [] [] [] []) acts = Some w -> w_packets w !! i = Some p ->
  match receive_baseline (w_client w) (received p capacity) validate with
  | (b', Ok r) => r = bp_target p
      /\ exists s st, s ∈ w_log w /\ bs_receipt s = r /\ baseline_state b' r = Ok st
           /\ payload_eq (bs_payload st) (bs_payload s) = true
  | (b', Err err) => b' = w_client w /\ excusable (w_log w) p validate err
  end.
Proof.
  intros Hc Hb Hrun Hi. destruct (baseline_start _ _ _ _ _ _ Hc Hb) as (Hs0 & Hc0 & Hval).
  destruct (baseline_run_ok context acts _ Hs0 Hc0) as (w' & Hrun' & Hw & Hcl). assert (w' = w) as -> by congruence.
  assert (packet_ok (w_log w) (w_acks w) (received p capacity)) as Hp.
  { pose proof (ni_packets _ _ Hw) as Hall. rewrite Forall_forall in Hall. apply (Hall p). by eapply list_elem_of_lookup_2. }
  destruct (receive_baseline (w_client w) (received p capacity) validate) as [b' r] eqn:Hr.
  pose proof (receive_inv size_Entry size_ClientBaselines allocate _ _ _ _ _ (nc_client _ _ Hcl) Hr) as (Hinv & _ & _).
  apply receive_cases in Hr. destruct r as [r | err].
  - destruct Hr as (-> & Hsc & payload & Hd & _ & _ & Hcase). split; [done |].
    pose proof (decode_genuine context w _ validate Hw Hcl Hp Hsc) as Hgen. rewrite Hd in Hgen. destruct Hgen as (s & Hs & Hsr & Hsp).
    assert (exists e, e ∈ ca_entries (cb_cache b') /\ en_receipt e = bp_target (received p capacity)
              /\ same (bs_payload (en_state e)) (bs_payload s)) as (e & He & Her & Hep).
    { destruct Hcase as [[_ ->] | [Hck ->]].
      - eexists. split; [apply elem_of_app; right; by left |]. done.
      - destruct (check_false _ _ Hck) as (e & He & _ & Her & Hep). exists e. split_and!; try done.
        transitivity payload; [exact Hep | done]. }
    exists s, (en_state e). split_and!; try done. unfold baseline_state. by rewrite <- Her, (entry_held _ _ _ _ e Hinv He).
  - destruct Hr as (_ & _ & [[Hsc ->] | [Hsc [(repair & Hd & Hsame) | (payload & Hd & -> & Hbad)]]]).
    + split; [done |]. by apply (screen_excusable context w (received p capacity) validate).
    + pose proof (decode_genuine context w _ validate Hw Hcl Hp Hsc) as Hgen. rewrite Hd in Hgen. destruct Hgen as [-> Herr].
      split; [by apply Hsame |]. destruct Herr as [-> | Herr]; [by left | do 3 right; by left].
    + split; [done |]. pose proof (decode_genuine context w _ validate Hw Hcl Hp Hsc) as Hgen. rewrite Hd in Hgen.
      destruct Hgen as (s & Hs & Hsr & Hsp). destruct Hbad as [[-> Hbad] | Hck].
      * pose proof (ni_sent_ok _ _ Hw) as Hall. rewrite Forall_forall in Hall.
        rewrite (validate_same _ _ Hsp), (so_valid _ _ _ (Hall s Hs)) in Hbad. simpl in Hbad. do 4 right. split; [done |]. by exists s, payload.
      * by apply (check_excusable context w (received p capacity) validate payload s).
Qed.
End Net.

(** ** Each side against arbitrary calls *)

Section Alone.
Context (size_Entry size_ClientBaselines : N) (allocate : N -> N).
Context {P : Type} `{PP : !Payload P, codec : !BaselineCodec P}.
Implicit Types (c : Cache P) (b : ClientBaselines P).

Inductive server_call :=
| CallTransmit (s : BaselineState P) (base : option BaselineReceipt) (send : BaselinePacket -> bool)
| CallAcknowledge (r : BaselineReceipt)
| CallRetire (f : BaselineRetirement)
| CallBeginReset
| CallClose.

Definition serve c (call : server_call) : option (Cache P) :=
  match call with
  | CallTransmit s base send => Some (transmit_state c s base send).1
  | CallAcknowledge r => fst <$> acknowledge_state c r
  | CallRetire f => fst <$> retire c f
  | CallBeginReset => fst <$> begin_reset c
  | CallClose => close_cache c
  end.

Inductive client_call :=
| CallReceive (p : BaselinePacket) (validate : P -> bool)
| CallPropose (through : SnapshotId)
| CallAcknowledgeRetirement (f : BaselineRetirement)
| CallRequestReset
| CallRepair (now_ms : N)
| CallApplyReset (r : BaselineReset)
| CallCloseClient.

Definition use b (call : client_call) : option (ClientBaselines P) :=
  match call with
  | CallReceive p validate => Some (receive_baseline b p validate).1
  | CallPropose through => Some (propose_retirement b through).1
  | CallAcknowledgeRetirement f => fst <$> acknowledge_retirement b f
  | CallRequestReset => Some (request_reset b)
  | CallRepair now => Some (repair_request b now).1
  | CallApplyReset r => fst <$> apply_reset b r
  | CallCloseClient => close_client b
  end.

Definition call_all {S C} (f : S -> C -> option S) (s : S) (calls : list C) : option S :=
  foldl (fun os call => match os with Some s => f s call | None => None end) (Some s) calls.

Lemma call_all_ok {S C} (f : S -> C -> option S) (I : S -> Prop) :
  (forall s call, I s -> exists s', f s call = Some s' /\ I s') ->
  forall calls s, I s -> exists s', call_all f s calls = Some s' /\ I s'.
Proof.
  intros Hf calls. induction calls as [| call calls IH]; intros s Hs; [by exists s |].
  destruct (Hf s call Hs) as (s1 & H1 & Hs1). destruct (IH s1 Hs1) as (s2 & H2 & Hs2). exists s2. split; [| done].
  unfold call_all in *. cbn [foldl]. by rewrite H1.
Qed.

(** What holds of a cache under given limits. *)
Record within (l : BaselineLimits) c : Prop := {
  wn_bytes : exists metadata,
    metadata_bytes size_Entry size_ClientBaselines (allocate (bl_slots l)) = Some metadata
    /\ ca_bytes c = metadata + sum_over (fun e => retained_bytes (bs_payload (en_state e))) (ca_entries c);
  wn_resident : ca_bytes c <= bl_resident_bytes l;
  wn_slots : len (ca_entries c) <= bl_slots l;
  wn_order : forall i j e e', (i < j)%nat -> ca_entries c !! i = Some e -> ca_entries c !! j = Some e' ->
    br_snapshot (en_receipt e) < br_snapshot (en_receipt e') /\ br_version (en_receipt e) <= br_version (en_receipt e')
    /\ br_end_tick (en_receipt e) <= br_end_tick (en_receipt e');
  wn_live : forall e, e ∈ ca_entries c -> br_generation (en_receipt e) = ca_generation c
    /\ ca_retired c < br_snapshot (en_receipt e) /\ retained_bytes (bs_payload (en_state e)) <= bl_payload_bytes l;
  wn_closed : ca_closed c = true -> ca_entries c = [];
}.

Lemma inv_within l c : cache_inv size_Entry size_ClientBaselines allocate c -> ca_limits c = l -> within l c.
Proof.
  intros Hc <-. constructor; try apply Hc.
  - intros i j e e' Hij Hi Hj. by apply (StronglySorted_positions _ _ i j _ _ (bi_sorted _ _ _ _ Hc)).
  - intros e He. pose proof (bi_entries _ _ _ _ Hc) as Hall. rewrite Forall_forall in Hall. by destruct (Hall e He).
Qed.

(** A call that keeps the invariant and the limits. *)
Ltac kept := eexists; split; [done |]; split; [done | simpl; congruence].

(** Called with anything in any order, neither side panics; the bytes it accounts for are
    exactly the fixed metadata and the payloads it holds, within its resident limit, in no more
    slots than it has; what it holds is of the current generation, above the retired fence and
    in strictly increasing snapshots with versions and ticks that never fall. *)
Theorem baselines_bounded context g l c b server_calls client_calls :
  Cache_new size_Entry size_ClientBaselines allocate context g l = Ok c ->
  ClientBaselines_new size_Entry size_ClientBaselines allocate context g l = Ok b ->
  (exists c', call_all serve c server_calls = Some c' /\ within l c')
  /\ exists b', call_all use b client_calls = Some b' /\ within l (cb_cache b').
Proof.
  intros Hc Hb. set (I := fun c' => cache_inv size_Entry size_ClientBaselines allocate c' /\ ca_limits c' = l).
  assert (forall c', I c' -> within l c') as HI by (intros c' [? ?]; by apply inv_within).
  destruct (Cache_new_ok _ _ _ _ _ _ _ Hc) as (Hinv & _ & _ & Hl & _). unfold ClientBaselines_new in Hb. rewrite Hc in Hb. injection Hb as <-. split.
  - destruct (call_all_ok serve I) with (calls := server_calls) (s := c) as (c' & Hr & Hi); [| by split | by eauto].
    intros x call [Hx Hxl]. destruct call as [s base send | r | f | |]; simpl.
    + destruct (transmit_state x s base send) as [x' r] eqn:Ht.
      destruct (transmit_state_ok size_Entry size_ClientBaselines allocate _ _ _ _ _ _ Hx Ht) as (? & [_ ?] & _). kept.
    + destruct (acknowledge_ok size_Entry size_ClientBaselines allocate x r Hx) as (x' & y & -> & ? & [_ ?] & _). kept.
    + destruct (retire_request_ok size_Entry size_ClientBaselines allocate x f Hx) as (x' & y & -> & ? & [_ ?] & _). kept.
    + destruct (begin_reset_ok size_Entry size_ClientBaselines allocate x Hx) as (x' & y & -> & ? & [_ ?] & _). kept.
    + destruct (close_cache_ok size_Entry size_ClientBaselines allocate x Hx) as (x' & -> & ? & [_ ?] & _). kept.
  - destruct (call_all_ok use (fun b' => I (cb_cache b'))) with (calls := client_calls) (s := mkClientBaselines c None false None) as (b' & Hr & Hi); [| by split | by eauto].
    intros x call [Hx Hxl]. destruct call as [p validate | through | f | | now | r |]; simpl.
    + destruct (receive_baseline x p validate) as [x' r] eqn:Ht.
      destruct (receive_inv size_Entry size_ClientBaselines allocate _ _ _ _ _ Hx Ht) as (? & [_ ?] & _). kept.
    + eexists. split; [done |]. unfold propose_retirement. destruct (retirement _ _); [| done]. destruct (decide _); [done |].
      by destruct (match cb_proposed x with Some _ => _ | None => _ end).
    + destruct (acknowledge_retirement_ok size_Entry size_ClientBaselines allocate x f Hx) as (x' & y & -> & ? & [_ ?] & _). kept.
    + by eexists.
    + eexists. split; [done |]. unfold repair_request. by destruct (_ || _).
    + destruct (apply_reset_ok size_Entry size_ClientBaselines allocate x r Hx) as (x' & y & -> & ? & [_ ?] & _). kept.
    + destruct (close_client_ok size_Entry size_ClientBaselines allocate x Hx) as (x' & -> & ? & [_ ?] & _). kept.
Qed.
End Alone.

(** Three states of thirty-two bytes that differ in one; the second delta overtakes the first. *)
Module BaselineDemo.
Definition allocate (n : N) : N := n.
#[export] Instance patch : BaselineCodec ByteVec := BytePatch allocate.
#[export] Instance patch_lawful : LawfulCodec ByteVec := BytePatch_lawful allocate.
Definition context : BaselineContext := mkBaselineContext (mkScopeIdentity 4 (mkEntityId 1 1) 1 7) 3 (Some (9, 1)).
Definition payload (x : byte) : ByteVec := mkByteVec (replicate 16 x00 ++ [x] ++ replicate 15 x00) 32.
Definition receipt_of (snapshot : N) : BaselineReceipt := mkBaselineReceipt context 1 snapshot snapshot (10 * snapshot).
Definition state_of (snapshot : N) (x : byte) : BaselineState ByteVec := mkBaselineState (receipt_of snapshot) (payload x).
Definition server : Cache ByteVec := mkCache context 1 BaselineLimits_default [] (8 * 100 + 200) 0 None false.
Definition client : ClientBaselines ByteVec := mkClientBaselines server None false None.
Definition sent (_ : BaselinePacket) : bool := true.
Definition valid (_ : ByteVec) : bool := true.
Definition actions : list (baseline_action (P:=ByteVec)) :=
  [ServerTransmit (state_of 1 x01) None sent; ClientReceive 0 32 valid; ServerAcknowledge 0;
   ServerTransmit (state_of 2 x02) (Some (receipt_of 1)) sent; ServerTransmit (state_of 3 x03) (Some (receipt_of 1)) sent;
   ClientReceive 0 16 valid; ServerAcknowledge 0].
Definition world : BaselineWorld := mkBaselineWorld server client [] [] [] [] [].
Definition after : BaselineWorld := match baseline_run world actions with Some w => w | None => world end.
Lemma runs : baseline_run world actions = Some after.
Proof.
  unfold after. assert (match baseline_run world actions with Some _ => true | None => false end = true) as H by by vm_compute.
  by destruct (baseline_run world actions).
Qed.
End BaselineDemo.
#[local] Existing Instance BaselineDemo.patch.
#[local] Existing Instance BaselineDemo.patch_lawful.

Lemma baselines_agree_witness :
  exists w st, baseline_run BaselineDemo.world BaselineDemo.actions = Some w
    /\ newest_decoded (w_server w) = Some (BaselineDemo.receipt_of 3)
    /\ baseline_state (w_client w) (BaselineDemo.receipt_of 3) = Ok st
    /\ payload_eq (bs_payload st) (BaselineDemo.payload x03) = true.
Proof.
  destruct (baselines_agree 100 200 BaselineDemo.allocate BaselineDemo.context 1 BaselineLimits_default BaselineLimits_default
              BaselineDemo.server BaselineDemo.client BaselineDemo.actions) as (w & Hrun & _ & Hheld & _).
  { vm_compute. reflexivity. }
  { vm_compute. reflexivity. }
  pose proof (eq_trans (eq_sym BaselineDemo.runs) Hrun) as Heq. apply (inj Some) in Heq as <-.
  destruct (Hheld (mkEntry (BaselineDemo.state_of 3 x03) true)) as (st & Hst & Hp).
  { apply list_elem_of_In. vm_compute. tauto. }
  { reflexivity. }
  { vm_compute. reflexivity. }
  { vm_compute. reflexivity. }
  exists BaselineDemo.after, st. split; [exact Hrun |]. split; [vm_compute; reflexivity |]. split; [exact Hst | exact Hp].
Defined.

Lemma sent_packets_decode_witness :
  exists p, w_packets BaselineDemo.after !! 1%nat = Some p
    /\ is_full (bp_encoding p) = false /\ bp_target p = BaselineDemo.receipt_of 2
    /\ exists err, receive_baseline (w_client BaselineDemo.after) (received p 16) BaselineDemo.valid
                   = (w_client BaselineDemo.after, Err err)
       /\ excusable (w_log BaselineDemo.after) p BaselineDemo.valid err.
Proof.
  destruct (w_packets BaselineDemo.after !! 1%nat) as [p |] eqn:Hp.
  2: { exfalso. revert Hp. vm_compute. discriminate. }
  exists p. split; [reflexivity |].
  pose proof (sent_packets_decode 100 200 BaselineDemo.allocate BaselineDemo.context 1 BaselineLimits_default BaselineLimits_default
                BaselineDemo.server BaselineDemo.client BaselineDemo.actions BaselineDemo.after 1 p 16 BaselineDemo.valid) as Hdec.
  specialize (Hdec ltac:(vm_compute; reflexivity) ltac:(vm_compute; reflexivity) BaselineDemo.runs Hp).
  assert (option_map (fun p => (is_full (bp_encoding p), bp_target p,
            is_ok (receive_baseline (w_client BaselineDemo.after) (received p 16) BaselineDemo.valid).2))
            (w_packets BaselineDemo.after !! 1%nat) = Some (false, BaselineDemo.receipt_of 2, false)) as Hv by (vm_compute; reflexivity).
  rewrite Hp in Hv. cbn [option_map] in Hv. apply (inj Some) in Hv.
  assert (Hv1 := f_equal (fun x => x.1.1) Hv). assert (Hv2 := f_equal (fun x => x.1.2) Hv). assert (Hv3 := f_equal (fun x => x.2) Hv).
  cbn [fst snd] in Hv1, Hv2, Hv3. split; [exact Hv1 |]. split; [exact Hv2 |].
  destruct (receive_baseline (w_client BaselineDemo.after) (received p 16) BaselineDemo.valid) as [b' [r | err]]; cbn [snd is_ok] in Hv3.
  - discriminate Hv3.
  - destruct Hdec as [-> Hex]. exists err. split; [reflexivity | exact Hex].
Defined.

Lemma baselines_bounded_witness :
  exists c', call_all serve BaselineDemo.server [CallTransmit (BaselineDemo.state_of 1 x01) None BaselineDemo.sent; CallClose] = Some c'
    /\ within 100 200 BaselineDemo.allocate BaselineLimits_default c'.
Proof.
  destruct (baselines_bounded 100 200 BaselineDemo.allocate BaselineDemo.context 1 BaselineLimits_default BaselineDemo.server
              BaselineDemo.client [CallTransmit (BaselineDemo.state_of 1 x01) None BaselineDemo.sent; CallClose] []) as [H _].
  { vm_compute. reflexivity. }
  { vm_compute. reflexivity. }
  exact H.
Defined.
