(* ===== verification/Reader.v ===== *)
(** * Reading bytes

    The cursor over a byte slice that the decoders of [replication/codec.rs] and [schema/]
    advance field by field: a reader takes the bytes that are left and gives a value with what
    remains. An encoder and a reader are [Exact] for each other when the reader accepts the
    encodings of the values in the domain and nothing else. *)

From S2P Require Import Prelude Codec.
Local Open Scope N_scope.
Local Open Scope engine_scope.

Section Reader.
Context {E : Type}.
Implicit Types (bs rest : list byte) (short : E).

Definition reader (A : Type) : Type := list byte -> result E (A * list byte).

Definition read_ret {A} (a : A) : reader A := fun bs => Ok (a, bs).
Definition read_fail {A} (e : E) : reader A := fun _ => Err e.
Definition read_bind {A B} (r : reader A) (k : A -> reader B) : reader B :=
  fun bs => match r bs with Ok (a, rest) => k a rest | Err e => Err e end.
(** A check that reads nothing. *)
Definition read_check {A} (r : result E A) : reader A :=
  fun bs => match r with Ok a => Ok (a, bs) | Err e => Err e end.
(** [input.0.len()]. *)
Definition read_left : reader N := fun bs => Ok (len bs, bs).

Definition read_take short (count : N) : reader (list byte) := fun bs =>
  if decide (len bs < count) then Err short
  else Ok (take (N.to_nat count) bs, drop (N.to_nat count) bs).
(** [uN::from_le_bytes] of the next [n] bytes. *)
Definition read_le short (n : nat) : reader N := fun bs =>
  match read_take short (N.of_nat n) bs with
  | Ok (field, rest) => Ok (from_le_bytes field, rest)
  | Err e => Err e
  end.

(** ** Exact pairs *)

Class Exact {A} (dom : A -> Prop) (enc : A -> list byte) (dec : reader A) := {
  exact_dec : forall a rest, dom a -> dec (enc a ++ rest) = Ok (a, rest);
  exact_enc : forall bs a rest, dec bs = Ok (a, rest) -> dom a /\ bs = enc a ++ rest;
}.

Lemma read_bind_Ok {A B} (r : reader A) (k : A -> reader B) bs x :
  read_bind r k bs = Ok x -> exists a rest, r bs = Ok (a, rest) /\ k a rest = Ok x.
Proof. unfold read_bind. destruct (r bs) as [[a rest] |]; [by eauto | done]. Qed.

(** The step of every decoding proof, in both directions. *)
Lemma exact_bind {A B} dom enc (dec : reader A) `{!Exact dom enc dec} (k : A -> reader B) bs x :
  read_bind dec k bs = Ok x <-> exists a rest, dom a /\ bs = enc a ++ rest /\ k a rest = Ok x.
Proof.
  split.
  - intros (a & rest & Hr & Hk)%read_bind_Ok. destruct (exact_enc _ _ _ Hr) as [Hd ->]. eauto.
  - intros (a & rest & Hd & -> & Hk). unfold read_bind. by rewrite exact_dec.
Qed.

Lemma exact_step {A B} dom enc (dec : reader A) `{!Exact dom enc dec} (k : A -> reader B) a rest :
  dom a -> read_bind dec k (enc a ++ rest) = k a rest.
Proof. intros Hd. unfold read_bind. by rewrite exact_dec. Qed.

Lemma check_bind {A B} (r : result E A) (k : A -> reader B) bs x :
  read_bind (read_check r) k bs = Ok x <-> exists a, r = Ok a /\ k a bs = Ok x.
Proof.
  unfold read_bind, read_check. destruct r as [a |]; split; [by eauto | | done |].
  - by intros (a' & [= ->] & Hk).
  - by intros (? & ? & _).
Qed.

Lemma read_take_app short n a rest : len a = n -> read_take short n (a ++ rest) = Ok (a, rest).
Proof.
  intros <-. unfold read_take. rewrite decide_False by (rewrite len_app; lia). unfold len. rewrite Nat2N.id.
  by rewrite take_app_length, drop_app_length.
Qed.

#[export] Instance read_take_exact short n : Exact (fun a => len a = n) (fun a => a) (read_take short n).
Proof.
  constructor.
  - intros a rest. apply read_take_app.
  - intros bs a rest. unfold read_take. destruct (decide _) as [| Hn]; [done |]. intros [= <- <-].
    rewrite take_drop. split; [| done]. unfold len in *. rewrite length_take. lia.
Qed.

#[export] Instance read_le_exact short n : Exact (fun v => v < 256 ^ N.of_nat n) (to_le_bytes n) (read_le short n).
Proof.
  constructor.
  - intros v rest Hv. unfold read_le. rewrite read_take_app by (unfold len; by rewrite length_to_le_bytes).
    by rewrite from_to_le_bytes, N.mod_small.
  - intros bs v rest. unfold read_le. destruct (read_take _ _ _) as [[field rest'] |] eqn:Ht; [| done]. intros [= <- <-].
    apply (exact_enc _ _ _) in Ht as [Hl ->]. unfold len in Hl. apply Nat2N.inj in Hl as <-.
    split; [apply from_le_bytes_bound | by rewrite to_from_le_bytes].
Qed.

Lemma Exact_weaken {A} (dom dom' : A -> Prop) enc (dec : reader A) :
  (forall a, dom a <-> dom' a) -> Exact dom enc dec -> Exact dom' enc dec.
Proof.
  intros Hd [Hdec Henc]. constructor.
  - intros a rest Ha. by apply Hdec, Hd.
  - intros bs a rest Hr. destruct (Henc _ _ _ Hr) as [Ha ->]. by rewrite <- Hd.
Qed.
End Reader.
Arguments reader E A : clear implicits.

(** [let! x := r in k] reads [x] and goes on with [k]. *)
Notation "'let!' x ':=' r 'in' k" := (read_bind r (fun x => k))
  (at level 10, x name, r at level 200, k at level 200,
   format "'[v' '[' 'let!'  x  ':='  r  'in' ']' '/' k ']'") : engine_scope.
