(* ===== verification/ReplicationCodec.v ===== *)
(** * The replication wire codec

    Models [engine/net/src/replication/codec.rs]: complete scope states in the fixed-width and
    in the compact form, and whole groups. *)

From S2P Require Import Prelude Types InterestModel Codec Reader Payload Replication Groups.
Local Open Scope N_scope.
Local Open Scope engine_scope.

(** ** Fields *)

Definition put_scope (s : ScopeIdentity) : list byte :=
  to_le_bytes 8 (scope_connection s) ++ to_le_bytes 8 (index (scope_entity s))
  ++ to_le_bytes 4 (generation (scope_entity s)) ++ to_le_bytes 8 (scope_epoch s)
  ++ to_le_bytes 4 (scope_representation s).

(** [put_varint]: seven bits a byte, the lowest first. A [u64] takes ten bytes at most. *)
Fixpoint put_varint_from (fuel : nat) (value : N) : list byte :=
  match fuel with
  | O => []
  | S fuel =>
      if decide (128 <= value) then byte_of (N.lor (N.land (value mod 256) 127) 128) :: put_varint_from fuel (N.shiftr value 7)
      else [byte_of value]
  end.
Definition put_varint (value : N) : list byte := put_varint_from 10 value.

Definition reader := reader ReplicationError.
Definition take_bytes (count : N) : reader (list byte) := read_take InvalidPayload count.
Definition read_u16 : reader N := read_le InvalidPayload 2.
Definition read_u32 : reader N := read_le InvalidPayload 4.
Definition read_u64 : reader N := read_le InvalidPayload 8.

(** [varint]: the loop over [byte_index]; [rounds] is what remains of its ten. *)
Fixpoint read_varint_from (rounds : nat) (byte_index : N) (value : N) : reader N :=
  match rounds with
  | O => read_fail InvalidPayload
  | S rounds =>
      let! bytes := take_bytes 1 in
      let byte := from_le_bytes bytes in
      if decide (byte_index = 9 /\ 1 < byte) then read_fail InvalidPayload
      else
        let value := N.lor value (N.land (N.shiftl (N.land byte 127) (byte_index * 7)) u64_max) in
        if decide (N.land byte 128 = 0) then
          if decide (byte_index <> 0 /\ byte = 0) then read_fail InvalidPayload else read_ret value
        else read_varint_from rounds (byte_index + 1) value
  end.
Definition read_varint : reader N := read_varint_from 10 0 0.
Definition read_varint_u32 : reader N :=
  let! value := read_varint in
  read_check (ok_or (try_from u32_max value) InvalidPayload).

Definition read_scope : reader ScopeIdentity :=
  let! connection := read_u64 in
  let! index := read_u64 in
  let! generation := read_u32 in
  let! scope := read_u64 in
  let! representation := read_u32 in
  read_ret (mkScopeIdentity connection (mkEntityId index generation) scope representation).

(** ** Complete states *)

Section States.
(** The capacity of an allocation for so many bytes. *)
Context (allocate : N -> N).

Definition put_state (s : FullState ByteVec) : list byte :=
  put_scope (fs_scope s) ++ to_le_bytes 8 (baseline_generation s) ++ to_le_bytes 8 (snapshot s)
  ++ to_le_bytes 8 (version s) ++ to_le_bytes 8 (end_tick s).

Definition encode_full_state (s : FullState ByteVec) (limit : N) : result ReplicationError (list byte) :=
  let? _u := validate_identity s (scope_connection (fs_scope s)) in
  let payload := vec_bytes (fs_payload s) in
  if match checked_add usize_max (len payload) 68 with Some n => bool_decide (limit < n) | None => true end
  then Err Capacity
  else
    let? length := ok_or (try_from u32_max (len payload)) Capacity in
    Ok (put_state s ++ to_le_bytes 4 length ++ payload).

Definition read_full_state (connection : ConnectionEpoch) (limit : N) : reader (FullState ByteVec) :=
  let! scope := read_scope in
  let! _u := read_check (validate_scope scope connection) in
  let! baseline_generation := read_u64 in
  let! snapshot := read_u64 in
  let! version := read_u64 in
  let! end_tick := read_u64 in
  let! length := read_u32 in
  let! remaining := read_left in
  if decide (limit < length \/ length <> remaining) then read_fail InvalidPayload
  else
    let state payload := mkFullState scope baseline_generation snapshot version end_tick payload in
    let! _u := read_check (validate_identity (state (mkByteVec [] 0)) connection) in
    let! payload := take_bytes length in
    read_ret (state (to_vec allocate payload)).

Definition decode_full_state (bytes : list byte) (connection : ConnectionEpoch) (limit : N)
  : result ReplicationError (FullState ByteVec) :=
  if decide (limit < len bytes) then Err Capacity
  else match read_full_state connection limit bytes with Ok (s, _) => Ok s | Err e => Err e end.

Definition put_compact_header (s : FullState ByteVec) (length : N) : list byte :=
  mjoin (put_varint <$> [index (scope_entity (fs_scope s)); generation (scope_entity (fs_scope s));
     scope_epoch (fs_scope s); scope_representation (fs_scope s); baseline_generation s; snapshot s;
     version s; end_tick s; length]).

Definition encode_compact_full_state (s : FullState ByteVec) (limit : N) : result ReplicationError (list byte) :=
  let? _u := validate_identity s (scope_connection (fs_scope s)) in
  let payload := vec_bytes (fs_payload s) in
  let? length := ok_or (try_from u64_max (len payload)) Capacity in
  let header := put_compact_header s length in
  if match checked_add usize_max (len header) (len payload) with Some n => bool_decide (limit < n) | None => true end
  then Err Capacity
  else Ok (header ++ payload).

Definition read_compact_full_state (connection : ConnectionEpoch) (limit : N) : reader (FullState ByteVec) :=
  let! index := read_varint in
  let! generation := read_varint_u32 in
  let! scope := read_varint in
  let! representation := read_varint_u32 in
  let! baseline_generation := read_varint in
  let! snapshot := read_varint in
  let! version := read_varint in
  let! end_tick := read_varint in
  let state payload :=
    mkFullState (mkScopeIdentity connection (mkEntityId index generation) scope representation)
      baseline_generation snapshot version end_tick payload in
  let! _u := read_check (validate_identity (state (mkByteVec [] 0)) connection) in
  let! declared := read_varint in
  let! length := read_check (ok_or (try_from usize_max declared) InvalidPayload) in
  let! remaining := read_left in
  if decide (limit < length \/ length <> remaining) then read_fail InvalidPayload
  else
    let! payload := take_bytes length in
    read_ret (state (to_vec allocate payload)).

Definition decode_compact_full_state (bytes : list byte) (connection : ConnectionEpoch) (limit : N)
  : result ReplicationError (FullState ByteVec) :=
  if decide (limit < len bytes) then Err Capacity
  else match read_compact_full_state connection limit bytes with Ok (s, _) => Ok s | Err e => Err e end.
End States.

(** ** Groups *)

Section GroupCodec.
Context {P : Type} `{PP : !Payload P}.
(** The capacities of the vectors a decoded group owns. *)
Context (allocate_scopes allocate_states : N -> N).
Implicit Types (g : GroupChunk P) (s : FullState P).

(** The manifest in order; adjacent scopes differ in more than their revisions. *)
Definition follows (previous : option ScopeIdentity) (s : ScopeIdentity) : bool :=
  match previous with
  | Some old => negb (scope_le s old) && bool_decide (index (scope_entity old) <> index (scope_entity s))
  | None => true
  end.

Fixpoint encode_manifest (connection : ConnectionEpoch) (previous : option ScopeIdentity) (l : list ScopeIdentity)
  : result ReplicationError (list byte) :=
  match l with
  | [] => Ok []
  | s :: l =>
      let? _u := validate_scope s connection in
      if negb (follows previous s) then Err Conflict
      else
        let? rest := encode_manifest connection (Some s) l in
        Ok (put_scope s ++ rest)
  end.

Definition put_member_header s : list byte :=
  put_scope (fs_scope s) ++ to_le_bytes 8 (baseline_generation s) ++ to_le_bytes 8 (snapshot s)
  ++ to_le_bytes 8 (version s) ++ to_le_bytes 8 (end_tick s).

(** The states in the order of the manifest; [out] is what was written before. *)
Fixpoint encode_members (limits : GroupLimits) (encode_payload : P -> result ReplicationError (list byte)) g
    (manifest : list ScopeIdentity) (out : list byte) : result ReplicationError (list byte) :=
  match manifest with
  | [] => Ok out
  | scope :: manifest =>
      match List.filter (fun s => bool_decide (fs_scope s = scope)) (ch_members g) with
      | [] => Err Incomplete
      | s :: others =>
          if negb (bool_decide (others = [] /\ end_tick s = ch_end_tick g)) then Err Conflict
          else
            let? _u := validate_identity s (gp_connection (ch_publication g)) in
            let? payload := encode_payload (fs_payload s) in
            let? total := ok_or (match checked_add usize_max (len out) 68 with
                                 | Some n => checked_add usize_max n (len payload)
                                 | None => None
                                 end) Capacity in
            if decide (gl_group_bytes limits < total) then Err Capacity
            else
              let? length := ok_or (try_from u32_max (len payload)) Capacity in
              encode_members limits encode_payload g manifest
                (out ++ put_member_header s ++ to_le_bytes 4 length ++ payload)
      end
  end.

Definition put_publication (p : GroupPublication) (tick : ServerTick) (count : N) : list byte :=
  [x01] ++ to_le_bytes 8 (gp_connection p) ++ to_le_bytes 4 (gp_group p) ++ to_le_bytes 8 (gp_revision p)
  ++ to_le_bytes 8 (gp_snapshot p) ++ to_le_bytes 8 tick ++ to_le_bytes 2 count.

Definition encode_group g (limits : GroupLimits) (encode_payload : P -> result ReplicationError (list byte))
  : result ReplicationError (list byte) :=
  let p := ch_publication g in
  let members := len (ch_manifest g) in
  if decide (ch_count g <> 1 \/ ch_index g <> 0 \/ ch_manifest g = [] \/ gl_members limits < members
             \/ len (ch_members g) <> members \/ gp_connection p = 0 \/ gp_revision p = 0 \/ gp_snapshot p = 0)
  then Err InvalidIdentity
  else
    let? count := ok_or (try_from u16_max members) Capacity in
    let? bytes := ok_or (checked_mul usize_max members 100) Capacity in
    let? minimum := ok_or (checked_add usize_max 39 bytes) Capacity in
    if decide (gl_group_bytes limits < minimum) then Err Capacity
    else
      let? manifest := encode_manifest (gp_connection p) None (ch_manifest g) in
      encode_members limits encode_payload g (ch_manifest g) (put_publication p (ch_end_tick g) count ++ manifest).

Fixpoint read_manifest (connection : ConnectionEpoch) (count : nat) (previous : option ScopeIdentity)
  : reader (list ScopeIdentity) :=
  match count with
  | O => read_ret []
  | S count =>
      let! s := read_scope in
      let! _u := read_check (validate_scope s connection) in
      if negb (follows previous s) then read_fail Conflict
      else
        let! rest := read_manifest connection count (Some s) in
        read_ret (s :: rest)
  end.

Definition read_member (limits : GroupLimits) (decode_payload : list byte -> result ReplicationError P)
    (connection : ConnectionEpoch) (tick : ServerTick) (retained : N) (scope : ScopeIdentity)
  : reader (N * FullState P) :=
  let! member_scope := read_scope in
  if decide (member_scope <> scope) then read_fail Conflict
  else
    let! baseline_generation := read_u64 in
    let! snapshot := read_u64 in
    let! version := read_u64 in
    let! member_tick := read_u64 in
    let! length := read_u32 in
    if decide (gl_group_bytes limits < length \/ member_tick <> tick) then read_fail InvalidPayload
    else
      let! bytes := take_bytes length in
      let! payload := read_check (decode_payload bytes) in
      let! retained := read_check (ok_or (checked_add usize_max retained (retained_bytes payload)) Capacity) in
      if decide (gl_group_bytes limits < retained) then read_fail Capacity
      else
        let s := mkFullState member_scope baseline_generation snapshot version member_tick payload in
        let! _u := read_check (validate_identity s connection) in
        read_ret (retained, s).

Fixpoint read_members (limits : GroupLimits) (decode_payload : list byte -> result ReplicationError P)
    (connection : ConnectionEpoch) (tick : ServerTick) (retained : N) (manifest : list ScopeIdentity)
  : reader (list (FullState P)) :=
  match manifest with
  | [] => read_ret []
  | scope :: manifest =>
      let! member := read_member limits decode_payload connection tick retained scope in
      let! rest := read_members limits decode_payload connection tick member.1 manifest in
      read_ret (member.2 :: rest)
  end.

Definition read_publication : reader GroupPublication :=
  let! version := take_bytes 1 in
  if decide (version <> [x01]) then read_fail InvalidPayload
  else
    let! connection := read_u64 in
    let! group := read_u32 in
    let! revision := read_u64 in
    let! snapshot := read_u64 in
    if decide (connection = 0 \/ revision = 0 \/ snapshot = 0) then read_fail InvalidIdentity
    else read_ret (mkGroupPublication connection group revision snapshot).

Definition read_group (limits : GroupLimits) (decode_payload : list byte -> result ReplicationError P)
  : reader (GroupChunk P) :=
  let! p := read_publication in
  let! tick := read_u64 in
  let! count := read_u16 in
  let! remaining := read_left in
  if bool_decide (count = 0) || bool_decide (gl_members limits < count)
     || match checked_mul usize_max count 100 with Some n => bool_decide (remaining < n) | None => true end
  then read_fail Capacity
  else
    let! manifest := read_manifest (gp_connection p) (N.to_nat count) None in
    let! members := read_members limits decode_payload (gp_connection p) tick 0 manifest in
    let! remaining := read_left in
    if decide (remaining <> 0) then read_fail InvalidPayload
    else read_ret (mkGroupChunk p tick manifest (allocate_scopes count) 0 1 members (allocate_states count)).

Definition decode_group (bytes : list byte) (limits : GroupLimits)
    (decode_payload : list byte -> result ReplicationError P) : result ReplicationError (GroupChunk P) :=
  if decide (gl_group_bytes limits < len bytes) then Err Capacity
  else match read_group limits decode_payload bytes with Ok (g, _) => Ok g | Err e => Err e end.
End GroupCodec.
