(* ===== verification/ReplicationCodecProps.v ===== *)
(** * One meaning per message

    Every decoder of [replication/codec.rs] accepts exactly the encodings of what it returns. *)

From S2P Require Import Prelude Types InterestModel Codec Reader Payload Replication Groups ReplicationCodec.
Local Open Scope N_scope.
Local Open Scope engine_scope.

(** ** Variable-length integers *)

Lemma lor_shifted a b n : a < 2 ^ n -> N.lor a (N.shiftl b n) = a + b * 2 ^ n.
Proof.
  intros Ha. rewrite <- N.shiftl_mul_pow2. symmetry.
  assert (N.land a (N.shiftl b n) = 0) as H0.
  { apply N.bits_inj. intros k. rewrite N.land_spec, N.bits_0. destruct (N.lt_ge_cases k n) as [Hk | Hk].
    - rewrite N.shiftl_spec_low by done. by rewrite andb_false_r.
    - rewrite <- (N.mod_small a (2 ^ n)) by done. by rewrite N.mod_pow2_bits_high. }
  rewrite N.add_nocarry_lxor by done. by apply N.lxor_lor.
Qed.

Lemma continuation_byte x : N.lor (N.land (x mod 256) 127) 128 = x mod 128 + 128.
Proof.
  change 127 with (N.ones 7). rewrite N.land_ones. change (2 ^ 7) with 128.
  assert (x mod 256 mod 128 = x mod 128) as ->.
  { change 256 with (128 * 2). rewrite N.Div0.mod_mul_r. rewrite N.mul_comm, N.Div0.mod_add. by rewrite N.Div0.mod_mod. }
  change 128 with (N.shiftl 1 7) at 2. rewrite lor_shifted; [done |]. by apply N.mod_lt.
Qed.

Lemma byte_flag (b : byte) : N.land (Byte.to_N b) 128 = 0 <-> Byte.to_N b < 128.
Proof. destruct b; vm_compute; split; (done || discriminate). Qed.

Lemma byte_low (b : byte) : N.land (Byte.to_N b) 127 = Byte.to_N b mod 128.
Proof. change 127 with (N.ones 7). by rewrite N.land_ones. Qed.

(** What a round adds to the value. *)
Lemma varint_value acc b i :
  acc < 2 ^ (i * 7) -> b * 2 ^ (i * 7) <= u64_max ->
  N.lor acc (N.land (N.shiftl b (i * 7)) u64_max) = acc + b * 2 ^ (i * 7).
Proof.
  intros Ha Hb. change u64_max with (N.ones 64) in *. rewrite N.land_ones, N.mod_small.
  - by apply lor_shifted.
  - rewrite N.shiftl_mul_pow2. change (N.ones 64) with (2 ^ 64 - 1) in Hb. lia.
Qed.

(** The room left in a [u64] before byte [i], which is a power of two for each of the ten. *)
Definition room (i : N) : N := 2 ^ (64 - i * 7).

Lemma room_step i : i < 9 -> 2 ^ (i * 7) * room i = 2 ^ 64 /\ room i = 128 * room (i + 1) /\ 256 <= room i
  /\ 2 ^ ((i + 1) * 7) = 128 * 2 ^ (i * 7).
Proof.
  intros Hi. unfold room. split_and!.
  - rewrite <- N.pow_add_r. f_equal. lia.
  - change 128 with (2 ^ 7). rewrite <- N.pow_add_r. f_equal. lia.
  - change 256 with (2 ^ 8). apply N.pow_le_mono_r; lia.
  - change 128 with (2 ^ 7). rewrite <- N.pow_add_r. f_equal. lia.
Qed.

Lemma one_byte (b : byte) rest : take_bytes 1 (b :: rest) = Ok ([b], rest).
Proof. change (b :: rest) with ([b] ++ rest). by apply read_take_app. Qed.

Lemma byte_of_round v : v < 256 -> Byte.to_N (byte_of v) = v.
Proof. intros Hv. rewrite to_N_byte_of. by apply N.mod_small. Qed.

Lemma varint_decodes rounds : forall i acc x rest,
  N.of_nat rounds + i = 10 -> i < 10 -> acc < 2 ^ (i * 7) -> x < room i -> (i = 0 \/ x <> 0) ->
  read_varint_from rounds i acc (put_varint_from rounds x ++ rest) = Ok (acc + x * 2 ^ (i * 7), rest).
Proof.
  induction rounds as [| rounds IH]; intros i acc x rest Hr Hi Hacc Hx Hz; [lia |]. simpl.
  assert (i = 9 /\ x < 2 \/ i < 9) as Hcase.
  { destruct (N.eq_dec i 9) as [-> | Hne]; [left; by split | right; lia]. }
  destruct (decide (128 <= x)) as [Hbig | Hsmall].
  - destruct Hcase as [[_ ?] | H9]; [lia |]. destruct (room_step i H9) as (Hroom & Hnext & Hbyte & Hpow).
    unfold read_bind. simpl. rewrite one_byte. rewrite continuation_byte.
    assert (x mod 128 < 128) as Hm by (by apply N.mod_lt).
    cbn [from_le_bytes]. rewrite byte_of_round by lia. rewrite N.mul_0_r, N.add_0_r.
    rewrite decide_False by lia.
    assert (N.land (x mod 128 + 128) 127 = x mod 128) as Hlow.
    { change 127 with (N.ones 7). rewrite N.land_ones. change (2 ^ 7) with 128.
      replace (x mod 128 + 128) with (x mod 128 + 1 * 128) by lia. by rewrite N.Div0.mod_add, N.Div0.mod_mod. }
    rewrite Hlow, decide_False.
    2: { rewrite <- (byte_of_round (x mod 128 + 128)) by lia. rewrite byte_flag, byte_of_round by lia. lia. }
    rewrite varint_value; [| done |].
    2: { unfold u64_max. change (2 ^ 64) with 18446744073709551616 in Hroom. nia. }
    pose proof (N.div_mod' x 128) as Hdm. rewrite N.shiftr_div_pow2. change (2 ^ 7) with 128.
    assert (x / 128 < room (i + 1)) by (apply N.Div0.div_lt_upper_bound; lia).
    assert (x / 128 <> 0) by (intros H0; rewrite H0 in Hdm; lia).
    rewrite IH; [| lia | lia | rewrite Hpow; nia | done | by right].
    f_equal. f_equal. rewrite Hpow. rewrite Hdm at 3. nia.
  - unfold read_bind. simpl. rewrite one_byte. cbn [from_le_bytes]. rewrite byte_of_round by lia.
    rewrite N.mul_0_r, N.add_0_r. rewrite decide_False by (destruct Hcase; lia).
    assert (N.land x 127 = x) as Hlow.
    { change 127 with (N.ones 7). rewrite N.land_ones. apply N.mod_small. by change (2 ^ 7) with 128; lia. }
    rewrite Hlow, decide_True.
    2: { rewrite <- (byte_of_round x) by lia. rewrite byte_flag, byte_of_round by lia. lia. }
    rewrite decide_False by lia. rewrite varint_value; [done | done |].
    unfold u64_max. destruct Hcase as [[-> Hx2] | H9].
    + change (2 ^ (9 * 7)) with 9223372036854775808. lia.
    + destruct (room_step i H9) as (Hroom & _). change (2 ^ 64) with 18446744073709551616 in Hroom. nia.
Qed.

Lemma varint_encodes rounds : forall i acc bs v rest,
  N.of_nat rounds + i = 10 -> acc < 2 ^ (i * 7) ->
  read_varint_from rounds i acc bs = Ok (v, rest) ->
  exists x, x < room i /\ (i = 0 \/ x <> 0) /\ v = acc + x * 2 ^ (i * 7) /\ bs = put_varint_from rounds x ++ rest.
Proof.
  induction rounds as [| rounds IH]; intros i acc bs v rest Hr Hacc Hread; [done |]. simpl in Hread.
  apply read_bind_Ok in Hread as (bytes & bs' & Ht & Hread). apply (exact_enc _ _ _) in Ht as [Hl ->].
  destruct bytes as [| b [| ? ?]]; [done | | rewrite !len_cons in Hl; lia]. cbn [from_le_bytes] in Hread.
  rewrite N.mul_0_r, N.add_0_r in Hread. pose proof (Byte.to_N_bounded b) as Hb.
  set (B := Byte.to_N b) in *. destruct (decide (i = 9 /\ 1 < B)) as [| H9] in Hread; [done |].
  assert (B < room i /\ B * 2 ^ (i * 7) <= u64_max) as [HBroom HBmax].
  { destruct (N.eq_dec i 9) as [-> | Hne].
    - unfold room, u64_max. change (2 ^ (9 * 7)) with 9223372036854775808. change (2 ^ (64 - 9 * 7)) with 2. lia.
    - destruct (room_step i) as (Hroom & _ & H256 & _); [lia |]. unfold u64_max.
      change (2 ^ 64) with 18446744073709551616 in Hroom. split; [lia | nia]. }
  destruct (decide (N.land B 128 = 0)) as [Hf | Hf] in Hread.
  - apply byte_flag in Hf. fold B in Hf. destruct (decide _) as [| Hz] in Hread; [done |]. injection Hread as <- <-.
    exists B. split; [done |]. split; [lia |]. unfold B at 1. rewrite byte_low. fold B. rewrite N.mod_small by done.
    split; [by apply varint_value |]. simpl. rewrite decide_False by lia. unfold B. by rewrite byte_of_to_N.
  - unfold B in Hf. rewrite byte_flag in Hf. fold B in Hf. assert (i < 9) as Hi by lia.
    destruct (room_step i Hi) as (Hroom & Hnext & H256 & Hpow).
    assert (B mod 128 + 128 = B) as HB.
    { pose proof (N.Div0.mod_add (B - 128) 1 128) as Hm. rewrite (N.mod_small (B - 128)) in Hm by lia.
      replace (B - 128 + 1 * 128) with B in Hm by lia. lia. }
    rewrite (varint_value acc (N.land B 127)) in Hread; [| done |].
    2: { unfold B. rewrite byte_low. fold B. nia. }
    replace (N.land B 127) with (B - 128) in Hread by (unfold B; rewrite byte_low; fold B; lia).
    apply IH in Hread as (x & Hx & Hz & -> & ->); [| lia | rewrite Hpow; nia].
    exists (B - 128 + x * 128). split; [nia |]. split; [right; lia |]. split; [rewrite Hpow; nia |].
    simpl. rewrite decide_True by lia. rewrite continuation_byte, N.Div0.mod_add, N.mod_small by lia.
    replace (B - 128 + 128) with B by lia. unfold B. rewrite byte_of_to_N. do 2 f_equal.
    rewrite N.shiftr_div_pow2. change (2 ^ 7) with 128. rewrite N.div_add, N.div_small by lia. done.
Qed.

#[export] Instance read_varint_exact : Exact (fun v => v <= u64_max) put_varint read_varint.
Proof.
  constructor.
  - intros v rest Hv. unfold read_varint, put_varint.
    rewrite varint_decodes; [| done | done | done | unfold room, u64_max in *; change (2 ^ (64 - 0 * 7)) with 18446744073709551616; lia | by left].
    f_equal. f_equal. change (2 ^ (0 * 7)) with 1. lia.
  - intros bs v rest Hr. apply varint_encodes in Hr as (x & Hx & _ & -> & ->); [| done | done].
    change (2 ^ (0 * 7)) with 1. rewrite N.add_0_l, N.mul_1_r. split; [| done].
    unfold room, u64_max in *. change (2 ^ (64 - 0 * 7)) with 18446744073709551616 in Hx. lia.
Qed.

#[export] Instance read_varint_u32_exact : Exact (fun v => v <= u32_max) put_varint read_varint_u32.
Proof.
  constructor.
  - intros v rest Hv. unfold read_varint_u32, u32_max in *. rewrite (exact_step _ _ _) by (unfold u64_max; lia).
    unfold read_check, try_from. by rewrite decide_True.
  - intros bs v rest (a & rest' & Ha & -> & Hr)%(exact_bind _ _ _). unfold read_check in Hr.
    destruct (try_from u32_max a) as [a' |] eqn:Ht; [| done]. apply try_from_Some in Ht as [-> Ht]. cbn in Hr. by simplify_eq.
Qed.

(** ** Scopes and states *)

Definition scope_wf (s : ScopeIdentity) : Prop :=
  scope_connection s <= u64_max /\ index (scope_entity s) <= u64_max /\ generation (scope_entity s) <= u32_max
  /\ scope_epoch s <= u64_max /\ scope_representation s <= u32_max.

Lemma pow_u16 : 256 ^ N.of_nat 2 = u16_max + 1.
Proof. done. Qed.
Lemma pow_u32 : 256 ^ N.of_nat 4 = u32_max + 1.
Proof. done. Qed.
Lemma pow_u64 : 256 ^ N.of_nat 8 = u64_max + 1.
Proof. done. Qed.

#[export] Instance read_u16_exact : Exact (fun v => v <= u16_max) (to_le_bytes 2) read_u16.
Proof. eapply Exact_weaken, read_le_exact. intros v. rewrite pow_u16. lia. Qed.
#[export] Instance read_u32_exact : Exact (fun v => v <= u32_max) (to_le_bytes 4) read_u32.
Proof. eapply Exact_weaken, read_le_exact. intros v. rewrite pow_u32. lia. Qed.
#[export] Instance read_u64_exact : Exact (fun v => v <= u64_max) (to_le_bytes 8) read_u64.
Proof. eapply Exact_weaken, read_le_exact. intros v. rewrite pow_u64. lia. Qed.
#[export] Instance take_bytes_exact n : Exact (fun a => len a = n) (fun a => a) (take_bytes n).
Proof. apply read_take_exact. Qed.
#[local] Opaque to_le_bytes read_u16 read_u32 read_u64 take_bytes read_varint read_varint_u32 put_varint.

#[export] Instance read_scope_exact : Exact scope_wf put_scope read_scope.
Proof.
  constructor.
  - intros [c [i g] e r] rest (? & ? & ? & ? & ?). unfold read_scope, put_scope. simpl in *. rewrite <- !app_assoc.
    by do 5 (rewrite (exact_step _ _ _) by done).
  - intros bs s rest. unfold read_scope.
    intros (c & ? & Hc & -> & (i & ? & Hi & -> & (g & ? & Hg & -> & (e & ? & He & -> & (r & ? & Hr & -> & Hs)
      %(exact_bind _ _ _))%(exact_bind _ _ _))%(exact_bind _ _ _))%(exact_bind _ _ _))%(exact_bind _ _ _).
    injection Hs as <- <-. unfold scope_wf, put_scope. simpl. rewrite <- !app_assoc. split_and!; done.
Qed.
#[local] Opaque put_scope read_scope.

Definition state_wf {P} (s : FullState P) : Prop :=
  scope_wf (fs_scope s) /\ baseline_generation s <= u64_max /\ snapshot s <= u64_max /\ version s <= u64_max
  /\ end_tick s <= u64_max.

Lemma len_put_scope s : len (put_scope s) = 32.
Proof. Transparent put_scope. unfold put_scope. rewrite !len_app, !len_le_bytes. done. Opaque put_scope. Qed.

Lemma len_put_state s : len (put_state s) = 64.
Proof. unfold put_state. rewrite !len_app, !len_le_bytes, len_put_scope. done. Qed.

(** One field read: forwards on an encoding, backwards on what was accepted. *)
Ltac read_forward := rewrite (exact_step _ _ _) by done.
Ltac read_back H :=
  let x := fresh "x" in let rest := fresh "rest" in let Hx := fresh "Hx" in
  apply (exact_bind _ _ _) in H as (x & rest & Hx & -> & H).

Lemma read_payload_back (k : list byte -> FullState ByteVec) n bs s rest :
  read_bind (take_bytes n) (fun payload => read_ret (k payload)) bs = Ok (s, rest) -> n = len bs ->
  s = k bs /\ rest = [].
Proof.
  intros Hr ->. read_back Hr. injection Hr as <- <-. rewrite len_app in Hx.
  assert (rest0 = []) as -> by (destruct rest0; [done | rewrite len_cons in Hx; lia]). by rewrite app_nil_r.
Qed.

Lemma read_payload_forward (k : list byte -> FullState ByteVec) bs :
  read_bind (take_bytes (len bs)) (fun payload => read_ret (k payload)) bs = Ok (k bs, []).
Proof.
  unfold read_bind. rewrite <- (app_nil_r bs) at 2. Transparent take_bytes. unfold take_bytes. by rewrite read_take_app.
  Opaque take_bytes.
Qed.

Lemma encode_full_state_Ok s limit bytes : limit <= usize_max ->
  encode_full_state s limit = Ok bytes <->
  validate_identity s (scope_connection (fs_scope s)) = Ok tt /\ len bytes <= limit
  /\ len (vec_bytes (fs_payload s)) <= u32_max
  /\ bytes = put_state s ++ to_le_bytes 4 (len (vec_bytes (fs_payload s))) ++ vec_bytes (fs_payload s).
Proof.
  intros Hlimit. unfold encode_full_state. set (n := len (vec_bytes (fs_payload s))).
  assert (forall b, b = put_state s ++ to_le_bytes 4 n ++ vec_bytes (fs_payload s) -> len b = n + 68) as Hlen.
  { intros b ->. rewrite !len_app, len_put_state, len_le_bytes. fold n. lia. }
  destruct (validate_identity _ _) as [[] |]; [| split; [done | by intros [? _]]].
  unfold checked_add, try_from. split.
  - destruct (decide (n + 68 <= usize_max)); [| done]. rewrite bool_decide_decide. destruct (decide (limit < n + 68)); [done |].
    destruct (decide (n <= u32_max)); [| done]. intros [= <-]. split_and!; try done. rewrite Hlen by done. lia.
  - intros (_ & Hb & Hn & Heq). rewrite (Hlen _ Heq) in Hb. rewrite decide_True by lia. rewrite bool_decide_eq_false_2 by lia.
    rewrite decide_True by done. by rewrite Heq.
Qed.

(** The payload of a decoded state is a fresh vector. *)
Definition fresh_payload (allocate : N -> N) (s : FullState ByteVec) : Prop :=
  fs_payload s = to_vec allocate (vec_bytes (fs_payload s)).

Lemma decode_full_state_exact allocate bytes connection limit s : limit <= usize_max ->
  decode_full_state allocate bytes connection limit = Ok s <->
  state_wf s /\ scope_connection (fs_scope s) = connection /\ fresh_payload allocate s
  /\ encode_full_state s limit = Ok bytes.
Proof.
  intros Hlimit. rewrite encode_full_state_Ok by done. unfold decode_full_state. split.
  - destruct (decide _) as [| Hb]; [done |]. destruct (read_full_state _ _ _ _) as [[s' rest'] |] eqn:Hr; [| done].
    intros [= ->]. unfold read_full_state in Hr. read_back Hr. apply check_bind in Hr as ([] & Hscope & Hr). do 5 read_back Hr.
    unfold read_bind at 1, read_left in Hr. cbv beta iota in Hr.
    destruct (decide _) as [| Hc] in Hr; [done |]. apply check_bind in Hr as ([] & Hid & Hr).
    apply read_payload_back in Hr as [-> ->]; [| lia]. simpl.
    assert (scope_connection x = connection) as Hconn by (by destruct (validate_scope_ok _ _ _ Hscope)).
    rewrite Hconn. unfold state_wf, fresh_payload. simpl. split_and!; try done; try lia.
    unfold put_state. simpl. rewrite <- !app_assoc. by replace x4 with (len rest0) by lia.
  - intros ((Hs & Hg & Hn & Hv & Ht) & <- & Hp & Hid & Hlen & Hu & Heq). rewrite decide_False by lia.
    destruct s as [scope g n v t payload]. unfold fresh_payload in Hp. cbn [fs_scope baseline_generation snapshot version end_tick fs_payload] in *.
    assert (len (vec_bytes payload) <= len bytes) by (rewrite Heq, !len_app; lia).
    rewrite Heq. unfold read_full_state, put_state. simpl. rewrite <- !app_assoc. read_forward.
    unfold read_bind at 1, read_check.
    assert (validate_scope scope (scope_connection scope) = Ok tt) as ->.
    { unfold validate_identity in Hid. simpl in Hid. by destruct (validate_scope _ _) as [[] |]. }
    do 5 read_forward. unfold read_bind at 1, read_left. rewrite decide_False by lia.
    unfold read_bind at 1, read_check. unfold validate_identity in *. simpl in *. rewrite Hid.
    rewrite (read_payload_forward (fun p => mkFullState scope g n v t (to_vec allocate p))). by rewrite <- Hp.
Qed.

Lemma put_compact_header_app s length rest :
  put_compact_header s length ++ rest
  = put_varint (index (scope_entity (fs_scope s))) ++ put_varint (generation (scope_entity (fs_scope s)))
    ++ put_varint (scope_epoch (fs_scope s)) ++ put_varint (scope_representation (fs_scope s))
    ++ put_varint (baseline_generation s) ++ put_varint (snapshot s) ++ put_varint (version s)
    ++ put_varint (end_tick s) ++ put_varint length ++ rest.
Proof. unfold put_compact_header. cbn [fmap list_fmap mjoin list_join]. rewrite <- !app_assoc. by rewrite app_nil_l. Qed.

Lemma encode_compact_Ok s limit bytes : limit <= usize_max ->
  encode_compact_full_state s limit = Ok bytes <->
  validate_identity s (scope_connection (fs_scope s)) = Ok tt /\ len bytes <= limit
  /\ bytes = put_compact_header s (len (vec_bytes (fs_payload s))) ++ vec_bytes (fs_payload s).
Proof.
  intros Hlimit. unfold encode_compact_full_state, try_from, checked_add. set (payload := vec_bytes (fs_payload s)).
  destruct (validate_identity _ _) as [[] |]; [| split; [done | by intros [? _]]]. split.
  - destruct (decide (len payload <= u64_max)); [| done]. cbn [ok_or]. destruct (decide _) as [Hmax |]; [| done].
    rewrite bool_decide_decide. destruct (decide _); [done |]. intros [= <-]. split_and!; [done | rewrite len_app; lia | done].
  - intros (_ & Hlen & ->). rewrite len_app in Hlen. rewrite decide_True by (unfold usize_max in *; lia). cbn [ok_or].
    rewrite decide_True by lia. by rewrite bool_decide_eq_false_2 by lia.
Qed.

Lemma decode_compact_exact allocate bytes connection limit s : limit <= usize_max -> connection <= u64_max ->
  decode_compact_full_state allocate bytes connection limit = Ok s <->
  state_wf s /\ scope_connection (fs_scope s) = connection /\ fresh_payload allocate s
  /\ encode_compact_full_state s limit = Ok bytes.
Proof.
  intros Hlimit Hconn. rewrite encode_compact_Ok by done. unfold decode_compact_full_state. split.
  - destruct (decide _) as [| Hb]; [done |]. destruct (read_compact_full_state _ _ _ _) as [[s' rest'] |] eqn:Hr; [| done].
    intros [= ->]. unfold read_compact_full_state in Hr. do 8 read_back Hr. apply check_bind in Hr as ([] & Hid & Hr).
    read_back Hr. apply check_bind in Hr as (length & Hlength & Hr).
    unfold read_bind at 1, read_left in Hr. cbv beta iota in Hr. destruct (decide _) as [| Hc] in Hr; [done |].
    apply read_payload_back in Hr as [-> ->]; [| lia].
    destruct (try_from usize_max x7) as [y |] eqn:Hy; [| done]. apply try_from_Some in Hy as [-> Hy]. injection Hlength as <-.
    rewrite put_compact_header_app. unfold state_wf, scope_wf, fresh_payload. simpl.
    split_and!; try done; try lia. by replace x7 with (len rest) by lia.
  - intros ((Hs & Hg & Hn & Hv & Ht) & <- & Hp & Hid & Hlen & Heq). rewrite decide_False by lia.
    destruct s as [[c [i gen] e r] g n v t payload]. destruct Hs as (_ & Hi & Hgen & He & Hrep). unfold fresh_payload in Hp.
    cbn [fs_scope baseline_generation snapshot version end_tick fs_payload scope_connection scope_entity index generation
         scope_epoch scope_representation] in *.
    assert (len (vec_bytes payload) <= len bytes) by (rewrite Heq, len_app; lia). unfold usize_max in *.
    rewrite Heq, put_compact_header_app. unfold read_compact_full_state. simpl. do 8 read_forward.
    unfold read_bind at 1, read_check. unfold validate_identity in *. simpl in *. rewrite Hid.
    rewrite (exact_step _ _ _) by (simpl; lia). unfold read_bind at 1, read_check, try_from.
    rewrite decide_True by (unfold usize_max; lia). cbn [ok_or]. unfold read_bind at 1, read_left. rewrite decide_False by lia.
    rewrite (read_payload_forward (fun p => mkFullState (mkScopeIdentity c (mkEntityId i gen) e r) g n v t (to_vec allocate p))).
    by rewrite <- Hp.
Qed.

(** A complete state has one encoding in each wire form: the bytes a decoder accepts within
    the limit are exactly the encoding, under that limit, of the state it returns, which is of
    the authenticated connection and owns a payload of its own. *)
Theorem full_state_codecs_exact allocate bytes connection limit s :
  limit <= usize_max -> connection <= u64_max ->
  (decode_full_state allocate bytes connection limit = Ok s
   <-> state_wf s /\ scope_connection (fs_scope s) = connection /\ fresh_payload allocate s
       /\ encode_full_state s limit = Ok bytes)
  /\ (decode_compact_full_state allocate bytes connection limit = Ok s
      <-> state_wf s /\ scope_connection (fs_scope s) = connection /\ fresh_payload allocate s
          /\ encode_compact_full_state s limit = Ok bytes).
Proof. intros Hlimit Hc. split; [by apply decode_full_state_exact | by apply decode_compact_exact]. Qed.

(** ** Groups *)

Section GroupFacts.
Context {P : Type} `{PP : !Payload P}.
Context (allocate_scopes allocate_states : N -> N).
Implicit Types (g : GroupChunk P) (s : FullState P).

(** What both sides ask of a manifest: valid scopes, each after the one before. *)
Fixpoint manifest_valid (connection : ConnectionEpoch) (previous : option ScopeIdentity) (l : list ScopeIdentity) : Prop :=
  match l with
  | [] => True
  | s :: l => validate_scope s connection = Ok tt /\ follows previous s = true /\ manifest_valid connection (Some s) l
  end.

Definition put_manifest (l : list ScopeIdentity) : list byte := mjoin (put_scope <$> l).

Lemma len_put_manifest l : len (put_manifest l) = 32 * len l.
Proof.
  induction l as [| s l IH]; [done |]. change (put_manifest (s :: l)) with (put_scope s ++ put_manifest l).
  rewrite len_app, len_put_scope, len_cons. lia.
Qed.

Lemma encode_manifest_Ok connection l : forall previous bytes,
  encode_manifest connection previous l = Ok bytes <-> manifest_valid connection previous l /\ bytes = put_manifest l.
Proof.
  induction l as [| s l IH]; intros previous bytes; simpl; [split; [intros [= <-] | intros [_ ->]]; done |].
  destruct (validate_scope s connection) as [[] |]; [| split; [done | by intros [[? _] _]]].
  destruct (follows previous s); simpl; [| split; [done | by intros [(_ & ? & _) _]]].
  specialize (IH (Some s)). destruct (encode_manifest connection (Some s) l) as [rest |].
  - destruct (proj1 (IH rest) eq_refl) as [Hv ->]. split; [intros [= <-]; by split_and! | by intros [_ ->]].
  - split; [done |]. intros [(_ & _ & Hv) _]. discriminate (proj2 (IH _) (conj Hv eq_refl)).
Qed.

#[export] Instance read_manifest_exact connection n previous :
  Exact (fun l => length l = n /\ Forall scope_wf l /\ manifest_valid connection previous l) put_manifest
    (read_manifest connection n previous).
Proof.
  revert previous. induction n as [| n IH]; intros previous; constructor.
  - by intros [] rest (Hl & _).
  - intros bs l rest [= <- <-]. split_and!; done.
  - intros [| s l] rest (Hl & Hwf & Hv); [done |]. apply Forall_cons in Hwf as [Hws Hwl]. destruct Hv as (Hs & Hf & Hv).
    change (put_manifest (s :: l)) with (put_scope s ++ put_manifest l). simpl. rewrite <- app_assoc. read_forward. unfold read_bind at 1, read_check. rewrite Hs, Hf. simpl.
    rewrite (exact_step _ _ _) by (split_and!; [by injection Hl | done | done]). done.
  - intros bs l rest Hr. simpl in Hr. read_back Hr. apply check_bind in Hr as ([] & Hs & Hr).
    destruct (follows previous x) eqn:Hf; simpl in Hr; [| done]. read_back Hr. destruct Hx0 as (Hl & Hwf & Hv).
    injection Hr as <- <-. simpl. split_and!; try done; [by rewrite Hl | by constructor].
Qed.

Lemma follows_index connection (old s : ScopeIdentity) :
  validate_scope old connection = Ok tt -> validate_scope s connection = Ok tt -> follows (Some old) s = true ->
  index (scope_entity old) < index (scope_entity s).
Proof.
  intros Ho Hs Hf. destruct (validate_scope_ok _ _ _ Ho) as [Hco _]. destruct (validate_scope_ok _ _ _ Hs) as [Hcs _].
  unfold follows in Hf. apply andb_true_iff in Hf as [Hle Hne]. apply bool_decide_eq_true in Hne. apply negb_true_iff in Hle.
  unfold scope_le, scope_fields in Hle. rewrite Hco, Hcs in Hle. simpl in Hle.
  rewrite (bool_decide_eq_false_2 (connection < connection)), (bool_decide_eq_true_2 (connection = connection)) in Hle by lia.
  simpl in Hle. apply orb_false_iff in Hle as [Hlt _]. apply bool_decide_eq_false in Hlt. lia.
Qed.

Definition scope_before (a b : ScopeIdentity) : Prop := index (scope_entity a) < index (scope_entity b).

Lemma manifest_sorted connection l : forall previous, manifest_valid connection previous l ->
  StronglySorted scope_before l
  /\ match previous with
     | Some old => validate_scope old connection = Ok tt -> Forall (scope_before old) l
     | None => True
     end.
Proof.
  induction l as [| s l IH]; intros previous; simpl; [intros _; split; [constructor | by destruct previous] |].
  intros (Hs & Hf & Hv). destruct (IH _ Hv) as [Hsort Hall]. specialize (Hall Hs). split; [by constructor |].
  destruct previous as [old |]; [| done]. intros Ho. pose proof (follows_index _ _ _ Ho Hs Hf) as Hlt.
  constructor; [done |]. eapply Forall_impl; [done |]. intros t Ht. unfold scope_before in *. lia.
Qed.

Lemma manifest_NoDup connection l : manifest_valid connection None l -> NoDup l.
Proof.
  intros [Hsort _]%manifest_sorted. induction Hsort as [| s l Hsort IH Hall]; constructor; [| done].
  intros Hin. rewrite Forall_forall in Hall. specialize (Hall s Hin). unfold scope_before in Hall. lia.
Qed.

(** The assembler's own test of a manifest accepts it too. *)
Lemma manifest_checked connection l : forall previous indices,
  manifest_valid connection previous l ->
  (forall i, i ∈ indices -> exists old, previous = Some old /\ validate_scope old connection = Ok tt /\ i <= index (scope_entity old)) ->
  check_manifest connection indices previous l = Ok tt.
Proof.
  induction l as [| s l IH]; intros previous indices; simpl; [done |]. intros (Hs & Hf & Hv) Hin. rewrite Hs.
  assert (forall i, i ∈ indices -> i < index (scope_entity s)) as Hlt.
  { intros i Hi. destruct (Hin i Hi) as (old & -> & Ho & Hle). pose proof (follows_index _ _ _ Ho Hs Hf). lia. }
  rewrite decide_False by (intros Hi; specialize (Hlt _ Hi); lia).
  assert (match previous with Some before => scope_le s before | None => false end = false) as ->.
  { destruct previous as [old |]; [| done]. unfold follows in Hf. by apply andb_true_iff in Hf as [?%negb_true_iff _]. }
  apply IH; [done |]. intros i [->%elem_of_singleton | Hi]%elem_of_union; exists s; split_and!; try done.
  specialize (Hlt _ Hi). lia.
Qed.

(** ** Members *)

(** A state and its encoded payload, as one item of the wire. *)
Definition put_member (m : FullState P * list byte) : list byte :=
  put_member_header m.1 ++ to_le_bytes 4 (len m.2) ++ m.2.
Definition put_members (l : list (FullState P * list byte)) : list byte := mjoin (put_member <$> l).

Lemma len_put_member m : len (put_member m) = 68 + len m.2.
Proof. unfold put_member, put_member_header. rewrite !len_app, !len_le_bytes, len_put_scope. lia. Qed.

Definition sole_member (members : list (FullState P)) s : Prop :=
  List.filter (fun t => bool_decide (fs_scope t = fs_scope s)) members = [s].

Section Codec.
Context (limits : GroupLimits) (fits : gl_group_bytes limits <= usize_max).
Context (encode_payload : P -> result ReplicationError (list byte)).
Context (decode_payload : list byte -> result ReplicationError P).

Definition sent_member connection (tick : ServerTick) (members : list (FullState P)) (m : FullState P * list byte) : Prop :=
  sole_member members m.1 /\ end_tick m.1 = tick /\ validate_identity m.1 connection = Ok tt
  /\ encode_payload (fs_payload m.1) = Ok m.2 /\ len m.2 <= u32_max.

Lemma encode_members_Ok g manifest : forall out bytes, len out <= gl_group_bytes limits ->
  encode_members limits encode_payload g manifest out = Ok bytes <->
  exists l, fs_scope ∘ fst <$> l = manifest
    /\ Forall (sent_member (gp_connection (ch_publication g)) (ch_end_tick g) (ch_members g)) l
    /\ bytes = out ++ put_members l /\ len bytes <= gl_group_bytes limits.
Proof.
  induction manifest as [| scope manifest IH]; intros out bytes Hout; simpl.
  - split.
    + intros [= <-]. exists []. rewrite app_nil_r. split_and!; (done || constructor).
    + intros (l & Hl & _ & -> & _). apply fmap_nil_inv in Hl as ->. by rewrite app_nil_r.
  - split.
    + intros Henc. destruct (List.filter _ _) as [| s others] eqn:Hfilter; [done |].
      assert (fs_scope s = scope) as <-.
      { assert (In s (s :: others)) as Hin by (by left). rewrite <- Hfilter, filter_In in Hin. destruct Hin as [_ Hin]. by apply bool_decide_eq_true in Hin. }
      destruct (bool_decide _) eqn:Hb in Henc; [| done]. apply bool_decide_eq_true in Hb as [-> Htick]. simpl in Henc.
      destruct (validate_identity _ _) as [[] |] eqn:Hid; [| done]. destruct (encode_payload _) as [payload |] eqn:Hp; [| done].
      destruct (match checked_add _ _ _ with Some _ => _ | None => _ end) as [total |] eqn:Htotal; [| done]. cbn [ok_or] in Henc.
      assert (total = len out + 68 + len payload) as ->.
      { destruct (checked_add _ _ _) as [n1 |] eqn:H1 in Htotal; [| done]. apply checked_add_Some in H1 as [-> _].
        by apply checked_add_Some in Htotal as [-> _]. }
      destruct (decide _) as [| Hfit] in Henc; [done |].
      destruct (try_from _ _) as [n |] eqn:Hn; [| done]. apply try_from_Some in Hn as [-> Hn]. cbn [ok_or] in Henc.
      pose proof (len_put_member (s, payload)) as Hlen. unfold put_member in Hlen. cbn [fst snd] in Hlen.
      apply IH in Henc as (l & <- & Hl & -> & Hbytes); [| rewrite len_app; lia].
      exists ((s, payload) :: l). split_and!; [done | | | done].
      * constructor; [| done]. by split_and!.
      * unfold put_members. cbn [fmap list_fmap mjoin list_join]. unfold put_member at 2. cbn [fst snd]. by rewrite <- !app_assoc.
    + intros (l & Hl & Hsent & -> & Hlen). destruct l as [| [s payload] l]; [done |]. injection Hl as <- Hl.
      apply Forall_cons in Hsent as [(Hsole & Htick & Hid & Hp & Hu) Hsent]. unfold sole_member in Hsole. cbn [fst snd compose] in *.
      change (put_members ((s, payload) :: l)) with (put_member (s, payload) ++ put_members l) in *.
      pose proof (len_put_member (s, payload)) as Hm. rewrite !len_app in Hlen. cbn [fst snd] in *.
      rewrite Hsole, bool_decide_eq_true_2 by done. simpl. rewrite Hid, Hp. unfold checked_add.
      rewrite !decide_True by lia. cbn [ok_or]. rewrite decide_False by lia. unfold try_from. rewrite decide_True by done. cbn [ok_or].
      pose proof Hm as Hm'. unfold put_member in Hm'. cbn [fst snd] in Hm'. apply IH; [rewrite len_app; lia |].
      exists l. split_and!; [done | done | | by rewrite !len_app].
      unfold put_member. cbn [fst snd]. by rewrite <- !app_assoc.
Qed.

Definition held_member connection (tick : ServerTick) (m : FullState P * list byte) : Prop :=
  state_wf m.1 /\ end_tick m.1 = tick /\ validate_identity m.1 connection = Ok tt
  /\ decode_payload m.2 = Ok (fs_payload m.1) /\ len m.2 <= u32_max /\ len m.2 <= gl_group_bytes limits.

Lemma read_member_forward connection tick retained m rest : held_member connection tick m ->
  read_member limits decode_payload connection tick retained (fs_scope m.1) (put_member m ++ rest)
  = if decide (gl_group_bytes limits < retained + retained_bytes (fs_payload m.1)) then Err Capacity
    else Ok ((retained + retained_bytes (fs_payload m.1), m.1), rest).
Proof.
  destruct m as [[scope b n v t payload] bytes]. intros ((Hs & Hb & Hn & Hv & Ht) & Htick & Hid & Hp & Hu & Hl). simpl in *. subst t.
  unfold read_member, put_member, put_member_header. simpl. rewrite <- !app_assoc. read_forward. rewrite decide_False by tauto.
  do 5 read_forward. rewrite decide_False by (intros [? | ?]; [lia | done]).
  unfold read_bind at 1. Transparent take_bytes. unfold take_bytes. Opaque take_bytes. rewrite read_take_app by done.
  unfold read_bind at 1, read_check. rewrite Hp. unfold read_bind at 1, read_check, checked_add.
  destruct (decide (gl_group_bytes limits < _)) as [Hbig | Hfit].
  - destruct (decide (_ <= usize_max)); cbn [ok_or]; [by rewrite decide_True | done].
  - rewrite decide_True by lia. cbn [ok_or]. rewrite decide_False by lia. unfold read_bind, read_check. by rewrite Hid.
Qed.

Lemma read_member_back connection tick retained scope bs r rest :
  read_member limits decode_payload connection tick retained scope bs = Ok (r, rest) ->
  exists bytes, held_member connection tick (r.2, bytes) /\ fs_scope r.2 = scope
    /\ r.1 = retained + retained_bytes (fs_payload r.2) /\ r.1 <= gl_group_bytes limits /\ bs = put_member (r.2, bytes) ++ rest.
Proof.
  unfold read_member. intros Hr. read_back Hr. destruct (decide (x <> scope)) as [| Hscope]; [done |]. apply dec_stable in Hscope as ->.
  do 5 read_back Hr. destruct (decide _) as [| Hc] in Hr; [done |]. read_back Hr. apply check_bind in Hr as (payload & Hp & Hr).
  apply check_bind in Hr as (retained' & Hret & Hr). destruct (checked_add _ _ _) as [y |] eqn:Hy in Hret; [| done].
  apply checked_add_Some in Hy as [-> _]. injection Hret as <-. destruct (decide _) as [| Hfit] in Hr; [done |].
  apply check_bind in Hr as ([] & Hid & Hr). injection Hr as <- <-. exists x4. simpl.
  assert (x2 = tick) as -> by (destruct (decide (x2 = tick)); [done | tauto]).
  unfold held_member, state_wf, put_member, put_member_header. simpl. rewrite <- !app_assoc.
  subst x3. split_and!; try done; try lia.
Qed.

(** Over a whole list of members, with what their payloads retain in total. *)
Definition retained_total (l : list (FullState P)) : N := sum_over (fun s => retained_bytes (fs_payload s)) l.

Lemma read_members_forward connection tick l : forall retained rest, Forall (held_member connection tick) l ->
  retained <= gl_group_bytes limits ->
  read_members limits decode_payload connection tick retained (fs_scope ∘ fst <$> l) (put_members l ++ rest)
  = if decide (gl_group_bytes limits < retained + retained_total l.*1) then Err Capacity else Ok (l.*1, rest).
Proof.
  induction l as [| m l IH]; intros retained rest Hall Hret.
  - unfold retained_total. simpl. by rewrite decide_False by lia.
  - apply Forall_cons in Hall as [Hm Hl]. change (put_members (m :: l)) with (put_member m ++ put_members l). simpl.
    rewrite <- app_assoc. unfold read_bind at 1. rewrite read_member_forward by done. unfold retained_total in *. simpl.
    destruct (decide (gl_group_bytes limits < retained + retained_bytes _)); [by rewrite decide_True by lia |].
    unfold read_bind at 1. simpl. rewrite IH by (done || lia). rewrite <- N.add_assoc. by destruct (decide _).
Qed.

Lemma read_members_back connection tick manifest : forall retained bs members rest, retained <= gl_group_bytes limits ->
  read_members limits decode_payload connection tick retained manifest bs = Ok (members, rest) ->
  exists l, l.*1 = members /\ fs_scope ∘ fst <$> l = manifest /\ Forall (held_member connection tick) l
    /\ retained + retained_total members <= gl_group_bytes limits /\ bs = put_members l ++ rest.
Proof.
  induction manifest as [| scope manifest IH]; intros retained bs members rest Hret Hr; simpl in Hr.
  - injection Hr as <- <-. exists []. unfold retained_total. simpl. split_and!; (done || constructor || lia).
  - apply read_bind_Ok in Hr as (r & rest1 & Hm & Hr). apply read_member_back in Hm as (bytes & Hheld & Hscope & Heq & Hfit & ->).
    apply read_bind_Ok in Hr as (members' & rest2 & Hr & Hret'). apply IH in Hr as (l & <- & <- & Hall & Hsum & ->); [| done].
    injection Hret' as <- <-. exists ((r.2, bytes) :: l). unfold retained_total in *. simpl.
    split_and!; [done | by rewrite Hscope | by constructor | lia |].
    change (put_members ((r.2, bytes) :: l)) with (put_member (r.2, bytes) ++ put_members l). by rewrite <- app_assoc.
Qed.

(** ** Whole groups *)

Definition publication_wf (p : GroupPublication) : Prop :=
  gp_connection p <= u64_max /\ gp_group p <= u32_max /\ gp_revision p <= u64_max /\ gp_snapshot p <= u64_max.
Definition group_wf g : Prop :=
  publication_wf (ch_publication g) /\ ch_end_tick g <= u64_max /\ Forall scope_wf (ch_manifest g)
  /\ Forall state_wf (ch_members g).

Definition put_identity (p : GroupPublication) : list byte :=
  [x01] ++ to_le_bytes 8 (gp_connection p) ++ to_le_bytes 4 (gp_group p) ++ to_le_bytes 8 (gp_revision p)
  ++ to_le_bytes 8 (gp_snapshot p).

#[export] Instance read_publication_exact :
  Exact (fun p => publication_wf p /\ gp_connection p <> 0 /\ gp_revision p <> 0 /\ gp_snapshot p <> 0) put_identity read_publication.
Proof.
  constructor.
  - intros [c k r n] rest ((Hc & Hk & Hr & Hn) & H0). unfold read_publication, put_identity. simpl in *.
    rewrite <- !app_assoc. unfold read_bind at 1. rewrite one_byte. rewrite decide_False by tauto. do 4 read_forward.
    rewrite decide_False by tauto. done.
  - intros bs p rest Hr. unfold read_publication in Hr. read_back Hr. destruct (decide (x <> [x01])) as [| Hv] in Hr; [done |].
    apply dec_stable in Hv as ->. do 4 read_back Hr. destruct (decide _) as [| H0] in Hr; [done |]. injection Hr as <- <-.
    unfold publication_wf, put_identity. simpl. rewrite <- !app_assoc. split_and!; try done; tauto.
Qed.

(** The group a decoder makes of one with these members in the order of the manifest. *)
Definition received_group g (members : list (FullState P)) : GroupChunk P :=
  mkGroupChunk (ch_publication g) (ch_end_tick g) (ch_manifest g) (allocate_scopes (len (ch_manifest g))) 0 1 members
    (allocate_states (len (ch_manifest g))).

Definition put_group g (l : list (FullState P * list byte)) : list byte :=
  put_publication (ch_publication g) (ch_end_tick g) (len (ch_manifest g)) ++ put_manifest (ch_manifest g) ++ put_members l.

Lemma put_publication_split p tick count :
  put_publication p tick count = put_identity p ++ to_le_bytes 8 tick ++ to_le_bytes 2 count.
Proof. unfold put_publication, put_identity. by rewrite <- !app_assoc. Qed.

Lemma len_put_publication p tick count : len (put_publication p tick count) = 39.
Proof. unfold put_publication. rewrite !len_app, !len_le_bytes. done. Qed.

(** What makes a group well formed on the wire, apart from its members. *)
Definition group_envelope g : Prop :=
  ch_count g = 1 /\ ch_index g = 0 /\ ch_manifest g <> [] /\ len (ch_manifest g) <= gl_members limits
  /\ len (ch_manifest g) <= u16_max /\ gp_connection (ch_publication g) <> 0 /\ gp_revision (ch_publication g) <> 0
  /\ gp_snapshot (ch_publication g) <> 0 /\ manifest_valid (gp_connection (ch_publication g)) None (ch_manifest g).

Lemma len_put_members l : 68 * len l <= len (put_members l).
Proof.
  induction l as [| m l IH]; [done |]. change (put_members (m :: l)) with (put_member m ++ put_members l).
  rewrite len_app, len_put_member, len_cons. lia.
Qed.

Lemma encode_group_Ok g bytes :
  encode_group g limits encode_payload = Ok bytes <->
  group_envelope g /\ len (ch_members g) = len (ch_manifest g)
  /\ exists l, fs_scope ∘ fst <$> l = ch_manifest g
       /\ Forall (sent_member (gp_connection (ch_publication g)) (ch_end_tick g) (ch_members g)) l
       /\ bytes = put_group g l /\ len bytes <= gl_group_bytes limits.
Proof.
  unfold encode_group, group_envelope, put_group. set (n := len (ch_manifest g)). split.
  - destruct (decide _) as [| Hc]; [done |]. intros Henc.
    destruct (try_from u16_max n) as [count |] eqn:Hn; [| done]. apply try_from_Some in Hn as [-> Hn]. cbn [ok_or] in Henc.
    destruct (checked_mul usize_max n 100) as [b |] eqn:Hb; [| done]. apply checked_mul_Some in Hb as [-> _]. cbn [ok_or] in Henc.
    destruct (checked_add usize_max 39 _) as [minimum |] eqn:Hm; [| done]. apply checked_add_Some in Hm as [-> _]. cbn [ok_or] in Henc.
    destruct (decide _) as [| Hfit] in Henc; [done |]. destruct (encode_manifest _ _ _) as [manifest |] eqn:Hman; [| done].
    apply encode_manifest_Ok in Hman as [Hv ->].
    apply encode_members_Ok in Henc as (l & Hl & Hsent & -> & Hlen); [| rewrite len_app, len_put_publication, len_put_manifest; lia].
    assert (ch_count g = 1) by (destruct (decide (ch_count g = 1)); tauto).
    assert (ch_index g = 0) by (destruct (decide (ch_index g = 0)); tauto).
    assert (len (ch_members g) = n) by (destruct (decide (len (ch_members g) = n)); tauto).
    assert (n <= gl_members limits) by (destruct (decide (gl_members limits < n)); [tauto | lia]).
    split_and!; try tauto. exists l. rewrite <- app_assoc in *. by split_and!.
  - intros ((Hcount & Hindex & Hne & Hmem & Hu & Hc & Hr & Hs & Hv) & Hlen & l & Hl & Hsent & -> & Hfit).
    assert (len l = n) as Hll by (unfold n, len; rewrite <- Hl, length_fmap; done).
    pose proof (len_put_members l) as Hmin. rewrite !len_app, len_put_publication, len_put_manifest in Hfit. fold n in Hfit.
    rewrite decide_False by (rewrite Hlen; intuition lia). unfold try_from. rewrite decide_True by done. cbn [ok_or].
    unfold checked_mul. rewrite decide_True by lia. cbn [ok_or]. unfold checked_add. rewrite decide_True by lia. cbn [ok_or].
    rewrite decide_False by lia. rewrite (proj2 (encode_manifest_Ok _ _ _ _) (conj Hv eq_refl)).
    apply encode_members_Ok; [rewrite len_app, len_put_publication, len_put_manifest; fold n; lia |].
    exists l. rewrite <- app_assoc. split_and!; try done. rewrite !len_app, len_put_publication, len_put_manifest. fold n. lia.
Qed.

Lemma decode_put_group g l :
  group_envelope g -> publication_wf (ch_publication g) -> ch_end_tick g <= u64_max -> Forall scope_wf (ch_manifest g) ->
  fs_scope ∘ fst <$> l = ch_manifest g -> Forall (held_member (gp_connection (ch_publication g)) (ch_end_tick g)) l ->
  len (put_group g l) <= gl_group_bytes limits ->
  decode_group allocate_scopes allocate_states (put_group g l) limits decode_payload
  = if decide (gl_group_bytes limits < retained_total l.*1) then Err Capacity else Ok (received_group g l.*1).
Proof.
  intros (Hcount & Hindex & Hne & Hmem & Hu & Hc & Hr & Hs & Hv) Hp Ht Hwf Hl Hheld Hfit.
  unfold decode_group. rewrite decide_False by lia. unfold put_group, read_group in *. rewrite put_publication_split.
  set (n := len (ch_manifest g)) in *.
  assert (len l = n) as Hll by (unfold n, len; rewrite <- Hl, length_fmap; done).
  assert (n <> 0) as Hn0 by (unfold n; destruct (ch_manifest g); [done | rewrite len_cons; lia]).
  pose proof (len_put_members l) as Hmin. rewrite !len_app, len_put_publication, len_put_manifest in Hfit. fold n in Hfit.
  rewrite <- !app_assoc. rewrite (exact_step _ _ _) by (by split_and!). do 2 read_forward.
  unfold read_bind at 1, read_left. rewrite !len_app, len_put_manifest. fold n.
  rewrite (bool_decide_eq_false_2 (n = 0)), (bool_decide_eq_false_2 (gl_members limits < n)) by lia. simpl.
  unfold checked_mul. rewrite decide_True by lia. rewrite bool_decide_eq_false_2 by lia.
  assert (N.to_nat n = length (ch_manifest g)) as -> by (unfold n, len; lia).
  rewrite (exact_step _ _ _) by (by split_and!). unfold read_bind at 1. rewrite <- (app_nil_r (put_members l)), <- Hl.
  rewrite read_members_forward by (done || lia). rewrite N.add_0_l. destruct (decide _); [done |].
  unfold read_bind, read_left. rewrite decide_False by (rewrite len_nil; lia). unfold read_ret, received_group. rewrite Hl. done.
Qed.

Lemma decode_group_back bytes g :
  decode_group allocate_scopes allocate_states bytes limits decode_payload = Ok g ->
  group_envelope g /\ group_wf g /\ g = received_group g (ch_members g)
  /\ exists l, l.*1 = ch_members g /\ fs_scope ∘ fst <$> l = ch_manifest g
       /\ Forall (held_member (gp_connection (ch_publication g)) (ch_end_tick g)) l
       /\ bytes = put_group g l /\ len bytes <= gl_group_bytes limits.
Proof.
  unfold decode_group. destruct (decide _) as [| Hlen]; [done |].
  destruct (read_group _ _ _ _ _) as [[g' rest'] |] eqn:Hr; [| done]. intros [= ->]. unfold read_group in Hr.
  read_back Hr. destruct Hx as (Hwf & Hc & Hrev & Hsnap). do 2 read_back Hr. unfold read_bind at 1, read_left in Hr. cbv beta iota in Hr.
  destruct (_ || _) eqn:Hcap in Hr; [done |]. apply orb_false_iff in Hcap as [Hcap _]. apply orb_false_iff in Hcap as [H0 Hmem].
  apply bool_decide_eq_false in H0, Hmem. read_back Hr. destruct Hx1 as (Hl & Hswf & Hv).
  apply read_bind_Ok in Hr as (members & rest2 & Hm & Hr). unfold read_bind, read_left in Hr.
  destruct (decide (len rest2 <> 0)) as [| Hend] in Hr; [done |]. apply dec_stable in Hend.
  assert (rest2 = []) as -> by (destruct rest2; [done | rewrite len_cons in Hend; lia]).
  apply read_members_back in Hm as (l & <- & <- & Hheld & _ & ->); [| lia]. injection Hr as <- <-.
  assert (x1 = len (fs_scope ∘ fst <$> l)) as -> by (unfold len; lia).
  unfold group_envelope, group_wf, received_group, put_group.
  cbn [ch_publication ch_end_tick ch_manifest ch_members ch_count ch_index]. rewrite app_nil_r in *. split_and!; try done; try lia.
  - by intros ->%fmap_nil_inv.
  - rewrite Forall_fmap. eapply Forall_impl; [done |]. by intros ? [? _].
  - exists l. rewrite put_publication_split, <- !app_assoc. split_and!; try done. lia.
Qed.

Lemma sole_member_of (members : list (FullState P)) s :
  NoDup (fs_scope <$> members) -> s ∈ members -> sole_member members s.
Proof.
  unfold sole_member. induction members as [| t members IH]; intros Hnd Hin; [by apply not_elem_of_nil in Hin |].
  apply NoDup_cons in Hnd as [Hnot Hnd]. simpl. apply elem_of_cons in Hin as [-> | Hin].
  - rewrite bool_decide_eq_true_2 by done. f_equal. clear IH. induction members as [| u members IH]; [done |]. simpl in *.
    rewrite not_elem_of_cons in Hnot. apply NoDup_cons in Hnd as [_ Hnd]. rewrite bool_decide_eq_false_2 by intuition congruence.
    apply IH; tauto.
  - rewrite bool_decide_eq_false_2; [by apply IH |]. intros Heq. apply Hnot. rewrite Heq. by apply list_elem_of_fmap_2.
Qed.

Lemma sole_member_In (members : list (FullState P)) s : sole_member members s -> s ∈ members.
Proof.
  unfold sole_member. intros Hs. assert (In s [s]) as Hin by (by left). rewrite <- Hs, filter_In in Hin.
  apply list_elem_of_In. by destruct Hin.
Qed.

(** The members found for a manifest without repetitions are all of them. *)
Lemma members_permuted connection tick (members : list (FullState P)) l manifest :
  NoDup manifest -> fs_scope ∘ fst <$> l = manifest -> len members = len manifest ->
  Forall (sent_member connection tick members) l -> l.*1 ≡ₚ members.
Proof.
  intros Hnd Hl Hlen Hsent. rewrite list_fmap_compose in Hl. apply submseteq_length_Permutation.
  - apply NoDup_submseteq; [apply (NoDup_fmap_1 fs_scope); by rewrite Hl |].
    intros s (m & -> & Hm)%list_elem_of_fmap. rewrite Forall_forall in Hsent. destruct (Hsent m Hm) as [Hs _].
    by apply sole_member_In.
  - rewrite <- (length_fmap fs_scope l.*1), Hl. unfold len in Hlen. lia.
Qed.

(** Encoded groups are decoded, the members in the manifest's order. *)
Lemma encode_group_decodes g bytes :
  (forall s p, s ∈ ch_members g -> encode_payload (fs_payload s) = Ok p -> decode_payload p = Ok (fs_payload s)) ->
  group_wf g -> encode_group g limits encode_payload = Ok bytes ->
  exists members, members ≡ₚ ch_members g /\ fs_scope <$> members = ch_manifest g
  /\ decode_group allocate_scopes allocate_states bytes limits decode_payload
     = if decide (gl_group_bytes limits < retained_total (ch_members g)) then Err Capacity
       else Ok (received_group g members).
Proof.
  intros Hlaw (Hp & Ht & Hsw & Hmw) (Henv & Hlen & l & Hl & Hsent & -> & Hfit)%encode_group_Ok.
  assert (NoDup (ch_manifest g)) as Hnd by (eapply manifest_NoDup, Henv).
  pose proof (members_permuted _ _ _ _ _ Hnd Hl Hlen Hsent) as Hperm. exists l.*1. split; [done |].
  split; [by rewrite <- list_fmap_compose |].
  replace (retained_total (ch_members g)) with (retained_total l.*1) by (by apply sum_over_Permutation).
  apply decode_put_group; try done. rewrite Forall_forall in Hmw. rewrite Forall_forall in Hsent. apply Forall_forall. intros m Hm.
  destruct (Hsent m Hm) as (Hsole & Htick & Hid & Henc & Hu). apply sole_member_In in Hsole as Hin. split_and!; try done.
  - by apply Hmw.
  - by apply Hlaw.
  - assert (put_member m ∈ (put_member <$> l)) as Hput by (by apply list_elem_of_fmap_2).
    apply list_elem_of_split in Hput as (l1 & l2 & Hsplit). unfold put_group, put_members in Hfit.
    rewrite Hsplit, join_app in Hfit. cbn [mjoin list_join] in Hfit. rewrite !len_app, len_put_member in Hfit. lia.
Qed.

(** Decoded groups are canonical. *)
Lemma decode_group_encodes g bytes :
  (forall v p, decode_payload p = Ok v -> encode_payload v = Ok p) ->
  decode_group allocate_scopes allocate_states bytes limits decode_payload = Ok g ->
  encode_group g limits encode_payload = Ok bytes /\ group_wf g /\ g = received_group g (ch_members g)
  /\ check_manifest (gp_connection (ch_publication g)) ∅ None (ch_manifest g) = Ok tt.
Proof.
  intros Hlaw (Henv & Hwf & Hrec & l & Hl1 & Hl & Hheld & -> & Hfit)%decode_group_back.
  assert (manifest_valid (gp_connection (ch_publication g)) None (ch_manifest g)) as Hv by apply Henv.
  split_and!; try done; [| apply manifest_checked; [done | by intros i Hi%not_elem_of_empty]].
  apply encode_group_Ok. split_and!; [done | |].
  - rewrite <- Hl1, <- Hl. unfold len. by rewrite !length_fmap.
  - exists l. split_and!; try done. rewrite Forall_forall in Hheld. apply Forall_forall. intros m Hm.
    destruct (Hheld m Hm) as (_ & Htick & Hid & Hdec & Hu & _). split_and!; try done; [| by apply Hlaw].
    apply sole_member_of; [| rewrite <- Hl1; by apply list_elem_of_fmap_2].
    rewrite <- Hl1, <- list_fmap_compose, Hl. by eapply manifest_NoDup.
Qed.

(** A group on the wire has one meaning: an encoded group is decoded to the same publication,
    tick and manifest with the members in the manifest's order, unless their payloads retain more
    than a group may; and bytes that are accepted are the encoding of the group they give, whose
    manifest the assembler accepts as well. *)
Theorem group_codec_canonical g bytes :
  ((forall v p, encode_payload v = Ok p -> decode_payload p = Ok v) -> group_wf g ->
   encode_group g limits encode_payload = Ok bytes ->
   exists members, members ≡ₚ ch_members g /\ fs_scope <$> members = ch_manifest g
   /\ decode_group allocate_scopes allocate_states bytes limits decode_payload
      = if decide (gl_group_bytes limits < retained_total (ch_members g)) then Err Capacity
        else Ok (received_group g members))
  /\ ((forall v p, decode_payload p = Ok v -> encode_payload v = Ok p) ->
      decode_group allocate_scopes allocate_states bytes limits decode_payload = Ok g ->
      encode_group g limits encode_payload = Ok bytes /\ group_wf g /\ g = received_group g (ch_members g)
      /\ check_manifest (gp_connection (ch_publication g)) ∅ None (ch_manifest g) = Ok tt).
Proof. split; intros Hlaw; [apply encode_group_decodes; eauto | by apply decode_group_encodes]. Qed.
End Codec.
End GroupFacts.

(** ** Witnesses *)

Module CodecDemo.
Definition scope (i : N) : ScopeIdentity := mkScopeIdentity 4 (mkEntityId i 1) 1 7.
Definition bytes_state (i : N) : FullState ByteVec :=
  mkFullState (scope i) 1 300 2 70 (to_vec id [x0a; x0b]).
Definition boxed_state (i : N) (payload : list byte) : FullState (list byte) := mkFullState (scope i) 1 3 2 70 payload.
(** The members are out of order. *)
Definition group : GroupChunk (list byte) :=
  mkGroupChunk (mkGroupPublication 4 9 2 5) 70 [scope 1; scope 2] 2 0 1 [boxed_state 2 [x0b]; boxed_state 1 [x0a]] 2.
Definition encode (p : list byte) : result ReplicationError (list byte) := Ok p.
Definition wire : list byte :=
  match encode_group group GroupLimits_default encode with Ok b => b | Err _ => [] end.
Lemma encodes : encode_group group GroupLimits_default encode = Ok wire.
Proof. vm_compute. reflexivity. Qed.
End CodecDemo.

Lemma full_state_codecs_exact_witness :
  decode_full_state id (put_state (CodecDemo.bytes_state 9) ++ to_le_bytes 4 2 ++ [x0a; x0b]) 4 1024
    = Ok (CodecDemo.bytes_state 9)
  /\ decode_compact_full_state id [x09; x01; x01; x07; x01; xac; x02; x02; x46; x02; x0a; x0b] 4 1024
    = Ok (CodecDemo.bytes_state 9).
Proof.
  assert (state_wf (CodecDemo.bytes_state 9)) as Hwf by (vm_compute; intuition discriminate).
  split; eapply full_state_codecs_exact; try (vm_compute; discriminate); (split; [exact Hwf |]); (split; [reflexivity |]);
    (split; [reflexivity |]); vm_compute; reflexivity.
Defined.

Lemma group_codec_canonical_witness :
  exists members, members ≡ₚ ch_members CodecDemo.group
  /\ fs_scope <$> members = [CodecDemo.scope 1; CodecDemo.scope 2]
  /\ decode_group id id CodecDemo.wire GroupLimits_default Ok = Ok (received_group id id CodecDemo.group members).
Proof.
  destruct (group_codec_canonical (P:=list byte) id id GroupLimits_default ltac:(vm_compute; discriminate) CodecDemo.encode Ok
              CodecDemo.group CodecDemo.wire) as [Hround _].
  destruct Hround as (members & Hp & Hm & Hd).
  { intros v p Hv. unfold CodecDemo.encode in Hv. congruence. }
  { repeat split; repeat constructor; vm_compute; discriminate. }
  { exact CodecDemo.encodes. }
  exists members. split; [exact Hp |]. split; [exact Hm |]. exact Hd.
Defined.
