(* ===== verification/Disclosure.v ===== *)
(** * Audiences, attachments and regions

    Models [engine/net/src/replication/audience.rs], [attachments.rs] and [regions.rs]: who may
    be told of an event, what a presentation is attached to, and what a region says of its map
    objects. Each answers only from what was authorized or published under an exact identity. *)

From S2P Require Import Prelude Types InterestModel Codec Payload Replication ReplicationServer ReplicationNet.
Local Open Scope N_scope.
Local Open Scope engine_scope.

(** ** Event audiences *)

Module Audience.
Inductive EventDisclosure := SourceVisible | Anonymous.

(** [trait EventAudiencePolicy]: the policy may be revised between calls, so [revision] is what
    each call in turn answers. *)
Record EventAudiencePolicy (Ev : Type) := mkPolicy {
  revision : nat -> PolicyRevision;
  disclosure : N -> Ev -> option EventDisclosure;
}.
Arguments revision {Ev}.
Arguments disclosure {Ev}.

Record EventAudience (Ev : Type) := mkEventAudience {
  event : Ev;
  audience_connection : N;
  audience_policy : PolicyRevision;
  audience_disclosure : EventDisclosure;
}.
Arguments event {Ev}.
Arguments audience_connection {Ev}.
Arguments audience_policy {Ev}.
Arguments audience_disclosure {Ev}.
Arguments mkEventAudience {Ev}.

Definition authorize {Ev} (connection : N) (ev : Ev) (policy : EventAudiencePolicy Ev) : option (EventAudience Ev) :=
  let r := revision policy 0 in
  if decide (connection = 0 \/ r = 0) then None
  else match disclosure policy connection ev with
       | None => None
       | Some d => if decide (revision policy 1 <> r) then None else Some (mkEventAudience ev connection r d)
       end.

Definition project {Ev P} (a : EventAudience Ev) (connection : N) (current : PolicyRevision)
    (visible anonymous : Ev -> option P) : result ReplicationError P :=
  if decide (audience_connection a <> connection \/ audience_policy a <> current) then Err Unauthorized
  else ok_or (match audience_disclosure a with
              | SourceVisible => visible (event a)
              | Anonymous => anonymous (event a)
              end) Unauthorized.

(** A payload is projected only for the connection and the policy revision that the approval
    was made for, by the projection that the policy chose. *)
Theorem projected_as_authorized {Ev P} connection (ev : Ev) policy a connection' current (visible anonymous : Ev -> option P) p :
  authorize connection ev policy = Some a -> project a connection' current visible anonymous = Ok p ->
  connection' = connection /\ connection <> 0 /\ current <> 0 /\ revision policy 0 = current /\ revision policy 1 = current
  /\ match disclosure policy connection ev with
     | Some SourceVisible => visible ev = Some p
     | Some Anonymous => anonymous ev = Some p
     | None => False
     end.
Proof.
  unfold authorize, project. intros Ha Hp. destruct (decide _) as [| Hnz] in Ha; [done |].
  destruct (disclosure policy connection ev) as [d |]; [| done]. destruct (decide _) as [| Hr] in Ha; [done |].
  apply dec_stable in Hr. injection Ha as <-. simpl in Hp. destruct (decide _) as [| Hcur] in Hp; [done |].
  assert (connection = connection') as <- by (destruct (decide (connection = connection')); tauto).
  assert (revision policy 0 = current) as <- by (destruct (decide (revision policy 0 = current)); tauto).
  split_and!; try done; try tauto. destruct d; [destruct (visible ev) | destruct (anonymous ev)]; try done; by injection Hp as ->.
Qed.
End Audience.

(** ** Attachments *)

Module Attachments.
Section Attachments.
Context {T P : Type} `{PP : !Payload P}.
Implicit Types (c : ClientScopes P).

Record Attachment := mkAttachment {
  parent : ScopeIdentity;
  attachment_revision : N;
  local : T;
  independent : option T;
}.

Inductive AttachmentResolution :=
| Parent (local : T) (payload : P)
| Independent (value : T)
| Staged.

Definition resolve (a : Attachment) (child : ScopeIdentity) c : result ReplicationError AttachmentResolution :=
  let? _u := validate_scope child (cs_connection c) in
  let? _u := validate_scope (parent a) (cs_connection c) in
  if decide (attachment_revision a = 0 \/ scope_entity (parent a) = scope_entity child) then Err InvalidIdentity
  else if match client_state c (scope_entity child) with
          | None => true
          | Some s => bool_decide (fs_scope s <> child)
          end
  then Err Stale
  else
    let fallback := match independent a with Some v => Independent v | None => Staged end in
    match client_state c (scope_entity (parent a)) with
    | Some s => Ok (if decide (fs_scope s = parent a) then Parent (local a) (fs_payload s) else fallback)
    | None => Ok fallback
    end.

(** The client holds a state under this very identity. *)
Definition holds c (s : ScopeIdentity) (payload : P) : Prop :=
  exists st, client_state c (scope_entity s) = Some st /\ fs_scope st = s /\ fs_payload st = payload.

Lemma resolve_parent a child c t payload :
  resolve a child c = Ok (Parent t payload) -> t = local a /\ holds c (parent a) payload /\ exists q, holds c child q.
Proof.
  unfold resolve. intros Hr. destruct (validate_scope child _); [| done]. destruct (validate_scope (parent a) _); [| done].
  destruct (decide _) in Hr; [done |]. destruct (client_state c (scope_entity child)) as [ch |] eqn:Hch; [| done].
  destruct (bool_decide _) eqn:Hb in Hr; [done |]. apply bool_decide_eq_false, dec_stable in Hb.
  assert (forall x, match independent a with Some v => Independent v | None => Staged end <> Parent x payload) as Hfb
    by (by destruct (independent a)).
  destruct (client_state c (scope_entity (parent a))) as [st |] eqn:Hst; [| by destruct (independent a)].
  destruct (decide _) as [Heq |] in Hr; [| by destruct (independent a)]. injection Hr as <- <-.
  split; [done |]. split; [by exists st | by exists (fs_payload ch), ch].
Qed.

(** Held means recorded, open and not destroyed. *)
Lemma holds_record c s payload : client_inv c -> holds c s payload ->
  exists r, cs_records c !! index (scope_entity s) = Some r /\ r_scope r = s /\ closed r = false /\ destroyed r = false.
Proof.
  intros Hc (st & Hst & Hs & _). unfold client_state in Hst. destruct (cs_records c !! _) as [r |] eqn:Hr; [| done].
  pose proof (ci_record _ Hc _ _ Hr) as (_ & _ & Hrec). destruct (r_state r) as [st' |]; [| done].
  destruct (decide _) in Hst; [| done]. injection Hst as ->. destruct Hrec as (Hfs & Hcl & Hd & _). exists r. split_and!; congruence.
Qed.

(** A record after which this identity cannot be held again. *)
Definition past (s : ScopeIdentity) (r : Replica P) : Prop :=
  generation (scope_entity s) < generation (scope_entity (r_scope r))
  \/ generation (scope_entity s) = generation (scope_entity (r_scope r))
     /\ (destroyed r = true \/ scope_epoch s < scope_epoch (r_scope r) \/ (r_scope r = s /\ closed r = true)).

Lemma past_forever s r r' : past s r -> replica_le r r' -> r_scope r' = s -> closed r' = false -> destroyed r' = false -> False.
Proof.
  unfold past, replica_le. intros Hp Hle Hs Hc Hd. rewrite Hs, Hd, Hc in Hle.
  destruct Hp as [Hp | (Hg & Hp)]; [lia |]. destruct Hle as [Hle | (_ & Hle)]; [lia |].
  destruct Hle as [| (Hrd & Hle)]; [done |]. destruct Hp as [Hp | [Hp | (Hrs & Hrc)]]; [congruence | |].
  - destruct Hle as [Hle | (Heq & _)]; [lia |]. rewrite Heq in Hp. lia.
  - destruct Hle as [Hle | (_ & Hle)]; [rewrite Hrs in Hle; lia |]. destruct Hle as [| (Hle & _)]; [done | congruence].
Qed.

Definition passed c (s : ScopeIdentity) : Prop :=
  exists r, cs_records c !! index (scope_entity s) = Some r /\ past s r.

Lemma passed_forever c c' s payload : client_inv c' -> client_le c c' -> passed c s -> ~ holds c' s payload.
Proof.
  intros Hc' Hle (r & Hr & Hp) Hh. destruct (Hle _ _ Hr) as (r' & Hr' & Hle').
  destruct (holds_record _ _ _ Hc' Hh) as (r2 & Hr2 & Hs & Hcl & Hd). assert (r2 = r') as -> by congruence.
  by eapply past_forever.
Qed.

(** What was held and is not any more. *)
Lemma lost_passed c c' s payload : client_inv c -> client_inv c' -> client_le c c' ->
  holds c s payload -> (forall q, ~ holds c' s q) -> passed c' s.
Proof.
  intros Hc Hc' Hle Hh Hno. destruct (holds_record _ _ _ Hc Hh) as (r & Hr & Hs & Hcl & Hd).
  destruct (Hle _ _ Hr) as (r' & Hr' & Hle'). exists r'. split; [done |]. unfold past, replica_le in *.
  rewrite Hs in Hle'. destruct Hle' as [| (Hg & Hle')]; [by left | right]. split; [done |].
  destruct Hle' as [| (_ & Hle')]; [by left | right]. destruct Hle' as [| (Heq & Hle')]; [by left | right].
  split; [done |]. destruct (closed r') eqn:Hc2; [done |]. exfalso.
  pose proof (ci_record _ Hc' _ _ Hr') as (_ & _ & Hrec). destruct (r_state r') as [st |] eqn:Hst; [| congruence].
  destruct Hrec as (Hfs & _). apply (Hno (fs_payload st)). exists st. unfold client_state. rewrite Hr', Hst.
  rewrite decide_True by congruence. split_and!; congruence.
Qed.

Lemma exit_passed c x c' y : client_inv c -> apply_exit c x = Some (c', Ok y) -> passed c' (exit_scope x).
Proof.
  intros Hc. unfold apply_exit, passed. set (s := exit_scope x). destruct (validate_scope s _); [| done].
  destruct (capacity_for c _) as [[] |]; [| done].
  destruct (match cs_records c !! _ with Some old => check_exit old s | None => Ok false end) as [[] |] eqn:Hchk; [| | done].
  - intros [= <- _]. destruct (cs_records c !! _) as [old |]; [| done]. exists old. split; [done |].
    unfold check_exit in Hchk. unfold past.
    destruct (bool_decide (generation (scope_entity s) < _)) eqn:Hg in Hchk; [left; by apply bool_decide_eq_true in Hg |].
    destruct (bool_decide (generation (scope_entity s) = _)) eqn:He in Hchk; simpl in Hchk.
    + apply bool_decide_eq_true in He. right. split; [done |].
      destruct (bool_decide (scope_epoch s < _)) eqn:Hlt in Hchk; [right; left; by apply bool_decide_eq_true in Hlt |].
      destruct (bool_decide (scope_epoch s = _) && _) in Hchk; [done |]. left. injection Hchk as Hchk. by apply andb_true_iff in Hchk as [? _].
    + injection Hchk as Hchk. by rewrite andb_false_r in Hchk.
  - unfold put_fence. destruct (checked_sub _ _); [| done]. intros [= <- _]. exists (mkReplica s true false None). cbn.
    rewrite lookup_insert_eq. split; [done |]. right. split; [done |]. right. by right.
Qed.

(** An attachment shows its parent only as the client publishes it under the very identity
    it names, and only for a child that is published under its own; and binding does not come
    back: once the parent's exit was accepted, or a parent that was held is no longer held,
    no later messages make the attachment resolve to it again, so neither a re-entered scope
    nor a reused index is taken for the parent. *)
Theorem attachment_binds_one_incarnation epoch l c a child ms c1 :
  ClientScopes_new epoch l = Ok c -> client_run c ms = Some c1 ->
  (forall t payload, resolve a child c1 = Ok (Parent t payload) ->
     t = local a /\ holds c1 (parent a) payload /\ exists q, holds c1 child q)
  /\ (forall later c2 x c1', exit_scope x = parent a -> apply_exit c1 x = Some (c1', Ok x) -> client_run c1' later = Some c2 ->
      forall t payload, resolve a child c2 <> Ok (Parent t payload))
  /\ (forall p later c2 latest c3, holds c1 (parent a) p -> client_run c1 later = Some c2 -> (forall q, ~ holds c2 (parent a) q) ->
      client_run c2 latest = Some c3 -> forall t payload, resolve a child c3 <> Ok (Parent t payload)).
Proof.
  intros (Hc & _)%ClientScopes_new_inv Hrun.
  assert (forall c ms c', client_inv c -> client_run c ms = Some c' -> client_inv c' /\ client_le c c') as Hstep.
  { intros x xs x' Hx Hxs. destruct (client_run_ok xs x Hx) as (y & Hy & ? & ? & _). assert (y = x') as -> by congruence. done. }
  destruct (Hstep _ _ _ Hc Hrun) as [Hc1 _]. split_and!.
  - apply resolve_parent.
  - intros later c2 x c1' Hx Hexit Hlater t payload Hr. destruct (apply_exit_ok c1 x Hc1) as (c' & r & He & Hc1' & _).
    assert (c' = c1') as -> by congruence. destruct (Hstep _ _ _ Hc1' Hlater) as [Hc2 Hle].
    apply exit_passed in Hexit; [| done]. rewrite Hx in Hexit. apply resolve_parent in Hr as (_ & Hr & _).
    by apply (passed_forever _ _ _ _ Hc2 Hle Hexit Hr).
  - intros p later c2 latest c3 Hheld Hlater Hno Hlatest t payload Hr. destruct (Hstep _ _ _ Hc1 Hlater) as [Hc2 Hle2].
    destruct (Hstep _ _ _ Hc2 Hlatest) as [Hc3 Hle3]. pose proof (lost_passed _ _ _ _ Hc1 Hc2 Hle2 Hheld Hno) as Hp.
    apply resolve_parent in Hr as (_ & Hr & _). by apply (passed_forever _ _ _ _ Hc3 Hle3 Hp Hr).
Qed.
End Attachments.
Arguments Attachment : clear implicits.
Arguments AttachmentResolution : clear implicits.
End Attachments.

(** ** Regions *)

Module Regions.
Record MapObjectState := mkMapObjectState { slot : N; object_generation : N; present : bool }.
#[export] Instance MapObjectState_eq_dec : EqDecision MapObjectState.
Proof. solve_decision. Defined.

Record RegionManifest := mkRegionManifest {
  scene : SceneRevision;
  region : N;
  region_revision : N;
  objects : list MapObjectState;
}.

Inductive MapObjectPresence := Present | Absent | Unavailable.

Fixpoint validate_objects (previous : N) (l : list MapObjectState) : result ReplicationError unit :=
  match l with
  | [] => Ok tt
  | o :: l => if decide (slot o <= previous \/ object_generation o = 0) then Err InvalidPayload
              else validate_objects (slot o) l
  end.

Definition validate (m : RegionManifest) : result ReplicationError unit :=
  if decide (scene m = 0 \/ region m = 0 \/ region_revision m = 0) then Err InvalidIdentity
  else validate_objects 0 (objects m).

Definition presence (m : RegionManifest) (s generation : N) : MapObjectPresence :=
  if negb (is_ok (validate m)) then Unavailable
  else match List.find (fun o => bool_decide (slot o = s)) (objects m) with
       | Some o => if decide (object_generation o = generation) then if present o then Present else Absent
                   else Unavailable
       | None => Unavailable
       end.

Lemma validate_objects_Ok l : forall previous,
  validate_objects previous l = Ok tt <->
  StronglySorted (fun a b => slot a < slot b) l /\ Forall (fun o => previous < slot o /\ object_generation o <> 0) l.
Proof.
  induction l as [| o l IH]; intros previous; simpl; [split; [split; constructor | done] |]. destruct (decide _) as [Hbad | Hok].
  - split; [done |]. intros [_ [? _]%Forall_cons]. lia.
  - rewrite IH, Forall_cons. split.
    + intros [Hs Hall]. split; [| split; [lia |]].
      * constructor; [done |]. eapply Forall_impl; [done |]. intros x [? _]. done.
      * eapply Forall_impl; [done |]. intros x [? ?]. split; [lia | done].
    + intros [Hs [_ Hall]]. apply StronglySorted_inv in Hs as [Hs Hlt]. split; [done |].
      rewrite Forall_forall in Hall. rewrite Forall_forall in Hlt. apply Forall_forall. intros x Hx.
      split; [by apply Hlt | by apply Hall].
Qed.

Lemma find_slot l s o : StronglySorted (fun a b => slot a < slot b) l ->
  List.find (fun x => bool_decide (slot x = s)) l = Some o <-> o ∈ l /\ slot o = s.
Proof.
  intros Hs. split.
  - intros Hf. apply find_some in Hf as [Hin Hslot]. apply bool_decide_eq_true in Hslot. split; [by apply list_elem_of_In | done].
  - intros [Hin Hslot]. destruct (List.find _ l) as [o' |] eqn:Hf.
    + apply find_some in Hf as [Hin' Hslot']. apply bool_decide_eq_true in Hslot'. apply list_elem_of_In in Hin'.
      f_equal. eapply (sorted_unique (fun a b => slot a < slot b) slot l); try done. congruence.
    + apply list_elem_of_In in Hin. pose proof (find_none _ _ Hf _ Hin) as Hne. by apply bool_decide_eq_false in Hne.
Qed.

(** A manifest is valid exactly when its identity is set, its slots are positive and strictly
    increasing and its generations are set; and a map object is reported present or absent
    exactly when a valid manifest lists it with that generation and that state, so a missing
    region, slot or generation never lets a cached default appear. *)
Theorem region_presence_exact m s generation :
  (validate m = Ok tt <-> scene m <> 0 /\ region m <> 0 /\ region_revision m <> 0
     /\ StronglySorted (fun a b => slot a < slot b) (objects m)
     /\ Forall (fun o => 0 < slot o /\ object_generation o <> 0) (objects m))
  /\ (presence m s generation = Present <-> validate m = Ok tt /\ mkMapObjectState s generation true ∈ objects m)
  /\ (presence m s generation = Absent <-> validate m = Ok tt /\ mkMapObjectState s generation false ∈ objects m).
Proof.
  assert (validate m = Ok tt <-> scene m <> 0 /\ region m <> 0 /\ region_revision m <> 0
     /\ StronglySorted (fun a b => slot a < slot b) (objects m)
     /\ Forall (fun o => 0 < slot o /\ object_generation o <> 0) (objects m)) as Hvalid.
  { unfold validate. destruct (decide _) as [Hbad | Hok]; [split; [done | tauto] |]. rewrite validate_objects_Ok. tauto. }
  split; [done |].
  assert (forall p : bool, presence m s generation = (if p then Present else Absent)
                    <-> validate m = Ok tt /\ mkMapObjectState s generation p ∈ objects m) as Hp.
  { intros p. unfold presence. destruct (validate m) as [[] | err] eqn:Hv; simpl; [| destruct p; (split; [done | by intros [? _]])].
    destruct (proj1 Hvalid eq_refl) as (_ & _ & _ & Hs & _). destruct (List.find _ _) as [o |] eqn:Hf.
    - apply find_slot in Hf as [Hin Hslot]; [| done].
      assert (mkMapObjectState s generation p ∈ objects m <-> object_generation o = generation /\ present o = p) as ->.
      { split; [| intros [<- <-]; subst s; by destruct o].
        intros Hin'. assert (o = mkMapObjectState s generation p) as ->
          by (by eapply (sorted_unique (fun a b => slot a < slot b) slot (objects m)); try done). done. }
      destruct (decide _) as [Hg | Hg]; destruct (present o), p; split; try done; tauto || (intros; intuition congruence).
    - assert (mkMapObjectState s generation p ∉ objects m) as Hno.
      { intros Hin. pose proof (proj2 (find_slot _ s _ Hs) (conj Hin eq_refl)). congruence. }
      destruct p; split; try done; tauto. }
  split; [exact (Hp true) | exact (Hp false)].
Qed.
End Regions.

(** ** Witness *)

Module AttachmentDemo.
Import Attachments.
Definition scope (i epoch : N) : ScopeIdentity := mkScopeIdentity 4 (mkEntityId i 1) epoch 7.
Definition publish (s : ScopeIdentity) : client_msg (list byte) := MsgState (mkFullState s 1 1 1 1 [x0a]) (fun _ => true).
Definition client : ClientScopes (list byte) := mkClientScopes 4 ScopeLimits_default ∅ 0.
Definition attachment : Attachment N := mkAttachment (scope 1 1) 1 5 None.
Definition before : ClientScopes (list byte) := default client (client_run client [publish (scope 2 1); publish (scope 1 1)]).
Definition exited : ClientScopes (list byte) :=
  match apply_exit before (mkScopeExit (scope 1 1)) with Some (c, _) => c | None => client end.
(** The parent's entity comes back under a new scope. *)
Definition reentered : ClientScopes (list byte) := default client (client_run exited [publish (scope 1 2)]).
End AttachmentDemo.

Lemma attachment_binds_one_incarnation_witness :
  Attachments.resolve AttachmentDemo.attachment (AttachmentDemo.scope 2 1) AttachmentDemo.before = Ok (Attachments.Parent 5 [x0a])
  /\ Attachments.resolve AttachmentDemo.attachment (AttachmentDemo.scope 2 1) AttachmentDemo.reentered = Ok Attachments.Staged
  /\ Attachments.holds AttachmentDemo.before (AttachmentDemo.scope 1 1) [x0a]
  /\ forall t payload, Attachments.resolve AttachmentDemo.attachment (AttachmentDemo.scope 2 1) AttachmentDemo.reentered
       <> Ok (Attachments.Parent t payload).
Proof.
  split; [vm_compute; reflexivity |]. split; [vm_compute; reflexivity |].
  destruct (Attachments.attachment_binds_one_incarnation 4 ScopeLimits_default AttachmentDemo.client AttachmentDemo.attachment
              (AttachmentDemo.scope 2 1) [AttachmentDemo.publish (AttachmentDemo.scope 2 1); AttachmentDemo.publish (AttachmentDemo.scope 1 1)]
              AttachmentDemo.before) as (Hbind & Hexit & _); [vm_compute; reflexivity | vm_compute; reflexivity |].
  split; [apply (Hbind 5 [x0a]); vm_compute; reflexivity |].
  apply (Hexit [AttachmentDemo.publish (AttachmentDemo.scope 1 2)] AttachmentDemo.reentered
           (mkScopeExit (AttachmentDemo.scope 1 1)) AttachmentDemo.exited); vm_compute; reflexivity.
Defined.
