(* ===== verification/Interpolation.v ===== *)
(** * Interpolation of remote samples

    Models [engine/net/src/interpolation/mod.rs]: per entity a short history of authenticated
    samples, a presentation cursor behind the estimated server time, and the pose to draw at
    the cursor. The pose policy of the game is a record of functions. *)

From S2P Require Import Prelude Types Floats Payload Replication Synchronization.
Local Open Scope N_scope.
Local Open Scope engine_scope.

Record RemoteIdentity := mkRemoteIdentity {
  ri_scope : ScopeIdentity;
  ri_scene : SceneRevision;
  ri_segment : N;
}.
#[export] Instance RemoteIdentity_eq_dec : EqDecision RemoteIdentity.
Proof. solve_decision. Defined.

Record Limits := mkLimits {
  il_known_entities : N;
  il_samples_per_entity : N;
  il_total_samples : N;
  il_history_ticks : N;
  il_sample_heap_bytes : N;
  il_retained_bytes : N;
}.
Definition Limits_default : Limits := mkLimits 4096 32 32768 120 4096 (8 * 1024 * 1024).

Record Config := mkConfig {
  cf_rate : TickRate;
  cf_delay : Duration;
  cf_extrapolation_cap : Duration;
  cf_limits : Limits;
}.
#[export] Instance eta_Config : Eta Config := fun r =>
  mkConfig (cf_rate r) (cf_delay r) (cf_extrapolation_cap r) (cf_limits r).

Inductive Error :=
| InvalidConfiguration | InvalidIdentity | InvalidPayload | WrongEpoch | Stale | Conflict | Capacity | TimeRange.
Inductive Received := Inserted | Duplicate | TooOld | Discontinuity.
Inductive FreezeReason := ExtrapolationLimit | InsufficientHistory | Policy.
Inductive Status := Buffering | Sampled | Interpolated | Extrapolated | Frozen (reason : FreezeReason).

Record Accounting := mkAccounting {
  ac_known_entities : N;
  ac_active_entities : N;
  ac_samples : N;
  ac_retained_bytes : N;
}.
#[export] Instance eta_Accounting : Eta Accounting := fun r =>
  mkAccounting (ac_known_entities r) (ac_active_entities r) (ac_samples r) (ac_retained_bytes r).

Definition validate_remote (i : RemoteIdentity) (connection : ConnectionEpoch) : result Error unit :=
  if decide (scope_connection (ri_scope i) <> connection) then Err WrongEpoch
  else if decide (generation (scope_entity (ri_scope i)) = 0 \/ scope_epoch (ri_scope i) = 0
                  \/ scope_representation (ri_scope i) = 0 \/ ri_scene i = 0 \/ ri_segment i = 0)
  then Err InvalidIdentity
  else Ok tt.

Definition newer_identity (new old : RemoteIdentity) : bool :=
  let g := generation (scope_entity (ri_scope new)) in
  let g' := generation (scope_entity (ri_scope old)) in
  if decide (ri_scene new < ri_scene old) then false
  else if decide (g <> g') then bool_decide (g' < g)
  else if decide (scope_epoch (ri_scope new) <> scope_epoch (ri_scope old))
  then bool_decide (scope_epoch (ri_scope old) < scope_epoch (ri_scope new))
  else if decide (scope_representation (ri_scope new) <> scope_representation (ri_scope old))
  then bool_decide (scope_representation (ri_scope old) < scope_representation (ri_scope new))
  else if decide (ri_scene new <> ri_scene old) then bool_decide (ri_scene old < ri_scene new)
  else bool_decide (ri_segment old < ri_segment new).

(** [Duration::as_secs_f64]. *)
Definition as_secs_f64 (d : Duration) : f64 :=
  f64_add (f64_of_Z (Z.of_N (d / nanos_per_sec)))
          (f64_div (f64_of_Z (Z.of_N (d mod nanos_per_sec))) (f64_of_Z 1000000000)).

Definition millis (n : N) : Duration := n * 1000000.

Section Buffer.
(** [size_of::<RemoteSample<P>>()] and [size_of::<(u64, Track<P>)>()]. *)
Context (size_sample size_track : N).
Context {P : Type} `{PP : !Payload P}.

Record PosePolicy := mkPosePolicy {
  pose_valid : P -> bool;
  interpolate : P -> P -> spec_float -> option P;
  project_latest : P -> Duration -> option P;
  extrapolate : P -> P -> Duration -> Duration -> option P;
}.

Record RemoteSample := mkRemoteSample {
  sm_identity : RemoteIdentity;
  sm_tick : ServerTick;
  sm_value : P;
}.
(** The derived [PartialEq]. *)
Definition sample_eq (a b : RemoteSample) : bool :=
  bool_decide (sm_identity a = sm_identity b) && bool_decide (sm_tick a = sm_tick b)
  && payload_eq (sm_value a) (sm_value b).

Record Presented := mkPresented {
  pr_identity : RemoteIdentity;
  pr_value : P;
  pr_status : Status;
  pr_cursor : Duration;
  pr_newest_tick : ServerTick;
  pr_pose_time : Duration;
  pr_total_age : Duration;
}.

Record Track := mkTrack {
  tr_identity : RemoteIdentity;
  tr_retired : bool;
  tr_samples : list RemoteSample;
}.

Record RemoteBuffer := mkRemoteBuffer {
  rb_connection : ConnectionEpoch;
  rb_config : Config;
  rb_tracks : gmap N Track;
  rb_accounting : Accounting;
  rb_clock : PresentationCursor;
  rb_at : Duration;
  rb_estimated_now : Duration;
}.
#[export] Instance eta_RemoteBuffer : Eta RemoteBuffer := fun r =>
  mkRemoteBuffer (rb_connection r) (rb_config r) (rb_tracks r) (rb_accounting r) (rb_clock r) (rb_at r) (rb_estimated_now r).

Definition track_charge : N := size_track + 64.
Definition samples_charge (l : list RemoteSample) : N :=
  foldl (fun sum s => saturating_add usize_max sum (retained_bytes (sm_value s))) (len l * size_sample) l.

Definition RemoteBuffer_new (connection : ConnectionEpoch) (config : Config) : result Error RemoteBuffer :=
  let l := cf_limits config in
  if decide (connection = 0) then Err InvalidIdentity
  else if decide (il_known_entities l = 0 \/ il_samples_per_entity l < 2 \/ il_total_samples l < 2
                  \/ il_history_ticks l = 0 \/ il_retained_bytes l < track_charge
                  \/ millis 100 < cf_extrapolation_cap config)
  then Err InvalidConfiguration
  else Ok (mkRemoteBuffer connection config ∅ (mkAccounting 0 0 0 0) (mkPresentationCursor None 0) 0 0).

Definition remote_identity (b : RemoteBuffer) (entity : EntityId) : option RemoteIdentity :=
  match rb_tracks b !! index entity with
  | Some t => if negb (tr_retired t) && bool_decide (scope_entity (ri_scope (tr_identity t)) = entity)
              then Some (tr_identity t) else None
  | None => None
  end.

Definition latest (b : RemoteBuffer) (scope : ScopeIdentity) : option RemoteSample :=
  match rb_tracks b !! index (scope_entity scope) with
  | Some t => if negb (tr_retired t) && bool_decide (ri_scope (tr_identity t) = scope) then last (tr_samples t) else None
  | None => None
  end.

Definition set_delay (b : RemoteBuffer) (delay : Duration) : RemoteBuffer :=
  b <| rb_config := (rb_config b) <| cf_delay := delay |> |>.

Definition remote_advance (b : RemoteBuffer) (estimated_server_now : Duration) : RemoteBuffer * Duration :=
  let now := N.max (rb_estimated_now b) estimated_server_now in
  let '(clock, at_time) := cursor_advance (rb_clock b) now (cf_delay (rb_config b)) in
  (b <| rb_estimated_now := now |> <| rb_clock := clock |> <| rb_at := at_time |>, at_time).

(** ** Receiving *)

(** Whether the identity starts a new history, or is refused. *)
Definition admit_identity (identity : RemoteIdentity) (old : option Track) : result Error bool :=
  match old with
  | None => Ok true
  | Some t =>
      let s := ri_scope identity in
      let s' := ri_scope (tr_identity t) in
      if tr_retired t && bool_decide (generation (scope_entity s) = generation (scope_entity s'))
         && bool_decide (scope_epoch s <= scope_epoch s') then Err Stale
      else if decide (identity <> tr_identity t) then
        if negb (newer_identity identity (tr_identity t)) then Err Stale else Ok true
      else if tr_retired t then Err Stale
      else Ok false
  end.

(** [samples.insert(samples.partition_point(|v| v.tick < sample.tick), sample)] on sorted ticks. *)
Fixpoint insert_sample (s : RemoteSample) (l : list RemoteSample) : list RemoteSample :=
  match l with
  | [] => [s]
  | x :: l' => if decide (sm_tick x < sm_tick s) then x :: insert_sample s l' else s :: l
  end.

(** The history with the sample: [None] when it is too old, a panic is an indexing of nothing. *)
Definition stage_samples (l : Limits) (prior : list RemoteSample) (s : RemoteSample)
  : option (option (list RemoteSample)) :=
  let newest := match last prior with Some v => N.max (sm_tick v) (sm_tick s) | None => sm_tick s end in
  let floor := saturating_sub newest (il_history_ticks l) in
  let store :=
    let kept := filter (fun v => floor <= sm_tick v) prior in
    let samples := insert_sample s kept in
    Some (Some (if decide (il_samples_per_entity l < len samples) then tail samples else samples)) in
  if decide (sm_tick s < floor) then Some None
  else if decide (len prior = il_samples_per_entity l) then
    match prior with
    | [] => None
    | first :: _ => if decide (sm_tick s < sm_tick first) then Some None else store
    end
  else store.

Definition receive (b : RemoteBuffer) (s : RemoteSample) (policy : PosePolicy)
  : option (RemoteBuffer * result Error Received) :=
  let identity := sm_identity s in
  let l := cf_limits (rb_config b) in
  let key := index (scope_entity (ri_scope identity)) in
  let a := rb_accounting b in
  match validate_remote identity (rb_connection b) with
  | Err e => Some (b, Err e)
  | Ok _ =>
    match deadline (cf_rate (rb_config b)) (sm_tick s) with
    | None => Some (b, Err TimeRange)
    | Some _ =>
      if negb (pose_valid policy (sm_value s)) then Some (b, Err InvalidPayload)
      else if decide (il_sample_heap_bytes l < retained_bytes (sm_value s)) then Some (b, Err Capacity)
      else
        let old := rb_tracks b !! key in
        match admit_identity identity old with
        | Err e => Some (b, Err e)
        | Ok changed =>
          if bool_decide (old = None) && bool_decide (ac_known_entities a = il_known_entities l) then Some (b, Err Capacity)
          else
            let prior := match old with Some t => if changed then [] else tr_samples t | None => [] end in
            match List.find (fun v => bool_decide (sm_tick v = sm_tick s)) prior with
            | Some existing => Some (b, if sample_eq existing s then Ok Duplicate else Err Conflict)
            | None =>
              match stage_samples l prior s with
              | None => None
              | Some None => Some (b, Ok TooOld)
              | Some (Some samples) =>
                let old_samples := match old with Some t => tr_samples t | None => [] end in
                match checked_sub (ac_samples a) (len old_samples) with
                | None => None
                | Some others =>
                  match checked_add usize_max others (len samples) with
                  | None => None
                  | Some sample_count =>
                    let old_bytes := match old with Some t => samples_charge (tr_samples t) | None => 0 end in
                    let bytes :=
                      match checked_sub (ac_retained_bytes a) old_bytes with
                      | Some v => match checked_add usize_max v (samples_charge samples) with
                                  | Some v => checked_add usize_max v (if old then 0 else track_charge)
                                  | None => None
                                  end
                      | None => None
                      end in
                    match bytes with
                    | None => Some (b, Err Capacity)
                    | Some bytes =>
                      if decide (il_total_samples l < sample_count \/ il_retained_bytes l < bytes) then Some (b, Err Capacity)
                      else
                        let newly_active := match old with Some t => tr_retired t | None => true end in
                        Some (b <| rb_accounting :=
                                    mkAccounting (ac_known_entities a + (if old then 0 else 1))
                                      (ac_active_entities a + (if newly_active then 1 else 0)) sample_count bytes |>
                                <| rb_tracks := <[key := mkTrack identity false samples]> (rb_tracks b) |>,
                              Ok (if changed && negb (bool_decide (old = None)) then Discontinuity else Inserted))
                    end
                  end
                end
              end
            end
        end
    end
  end.

Definition exit_track (b : RemoteBuffer) (scope : ScopeIdentity) : option (RemoteBuffer * result Error unit) :=
  let key := index (scope_entity scope) in
  match rb_tracks b !! key with
  | None => Some (b, Err Stale)
  | Some t =>
      if decide (ri_scope (tr_identity t) <> scope) then Some (b, Err Stale)
      else if tr_retired t then Some (b, Ok tt)
      else
        let a := rb_accounting b in
        match checked_sub (ac_active_entities a) 1, checked_sub (ac_samples a) (len (tr_samples t)),
              checked_sub (ac_retained_bytes a) (samples_charge (tr_samples t)) with
        | Some active, Some samples, Some bytes =>
            Some (b <| rb_accounting := mkAccounting (ac_known_entities a) active samples bytes |>
                    <| rb_tracks := <[key := mkTrack (tr_identity t) true []]> (rb_tracks b) |>, Ok tt)
        | _, _, _ => None
        end
  end.

(** ** Presenting *)

(** How far the cursor is from one deadline to the next. *)
Definition blend (at_time start stop : Duration) : option spec_float :=
  match checked_sub stop start with
  | None => None
  | Some interval =>
      Some (f32_of_f64 (f64_clamp (f64_div (as_secs_f64 (saturating_sub at_time start)) (as_secs_f64 interval))
                                  f64_zero (f64_of_Z 1)))
  end.

(** What is shown: the value, the status and the time the pose stands for. The outer option is
    a panic. *)
Definition pose : Type := P * Status * Duration.

Definition between (rate : TickRate) (policy : PosePolicy) (at_time : Duration) (earlier later : RemoteSample)
  : option (result Error pose) :=
  match deadline rate (sm_tick earlier), deadline rate (sm_tick later) with
  | Some start, Some stop =>
      match blend at_time start stop with
      | None => None
      | Some alpha =>
          if SFeqb alpha f64_zero then Some (Ok (sm_value earlier, Sampled, at_time))
          else match interpolate policy (sm_value earlier) (sm_value later) alpha with
               | Some value => Some (Ok (value, Interpolated, at_time))
               | None => Some (Ok (sm_value earlier, Frozen Policy, start))
               end
      end
  | _, _ => Some (Err TimeRange)
  end.

Definition limited (ahead cap : Duration) : Status :=
  if decide (cap < ahead) then Frozen ExtrapolationLimit else Extrapolated.

(** [latest_time.checked_add(..).ok_or(Error::TimeRange)]. *)
Definition pose_at (time ahead : Duration) : result Error Duration :=
  ok_or (checked_add duration_max time ahead) TimeRange.

Definition beyond (config : Config) (policy : PosePolicy) (at_time : Duration) (samples : list RemoteSample)
    (newest : RemoteSample) : option (result Error pose) :=
  let rate := cf_rate config in
  let cap := cf_extrapolation_cap config in
  match deadline rate (sm_tick newest) with
  | None => Some (Err TimeRange)
  | Some latest_time =>
      let ahead := saturating_sub at_time latest_time in
      let projected := N.min ahead cap in
      if decide (ahead = 0) then Some (Ok (sm_value newest, Sampled, at_time))
      else if decide (len samples < 2) then
        match project_latest policy (sm_value newest) projected with
        | Some value => Some (let? time := pose_at latest_time projected in Ok (value, limited ahead cap, time))
        | None => Some (Ok (sm_value newest, Frozen InsufficientHistory, latest_time))
        end
      else if decide (cap = 0) then Some (Ok (sm_value newest, Frozen ExtrapolationLimit, latest_time))
      else
        match samples !! (length samples - 2)%nat with
        | None => None
        | Some previous =>
            match deadline rate (sm_tick previous) with
            | None => Some (Err TimeRange)
            | Some previous_time =>
                match checked_sub latest_time previous_time with
                | None => None
                | Some interval =>
                    Some (let? time := pose_at latest_time projected in
                          match extrapolate policy (sm_value previous) (sm_value newest) interval projected with
                          | Some value => Ok (value, limited ahead cap, time)
                          | None => Ok (sm_value newest, Frozen Policy, latest_time)
                          end)
                end
            end
        end
  end.

(** [samples.partition_point(..)]: the deadlines that were reached come first. *)
Definition reached (rate : TickRate) (at_time : Duration) (s : RemoteSample) : bool :=
  match deadline rate (sm_tick s) with Some time => bool_decide (time <= at_time) | None => false end.

Definition choose_pose (config : Config) (policy : PosePolicy) (at_time : Duration) (samples : list RemoteSample)
    (first newest : RemoteSample) : option (result Error pose) :=
  let rate := cf_rate config in
  match deadline rate (sm_tick first) with
  | None => Some (Err TimeRange)
  | Some first_time =>
      if decide (at_time < first_time) then Some (Ok (sm_value first, Buffering, first_time))
      else
        let upper := length (take_while (reached rate at_time) samples) in
        if decide (upper < length samples)%nat then
          match upper with
          | O => None
          | S before => match samples !! before, samples !! upper with
                        | Some earlier, Some later => between rate policy at_time earlier later
                        | _, _ => None
                        end
          end
        else beyond config policy at_time samples newest
  end.

Definition sample (b : RemoteBuffer) (scope : ScopeIdentity) (policy : PosePolicy)
  : option (result Error (option Presented)) :=
  match rb_tracks b !! index (scope_entity scope) with
  | None => Some (Ok None)
  | Some t =>
      if tr_retired t || bool_decide (ri_scope (tr_identity t) <> scope) then Some (Ok None)
      else match last (tr_samples t), tr_samples t with
           | Some newest, first :: _ =>
               match choose_pose (rb_config b) policy (rb_at b) (tr_samples t) first newest with
               | None => None
               | Some (Err e) => Some (Err e)
               | Some (Ok (value, status, pose_time)) =>
                   if negb (pose_valid policy value) then Some (Err InvalidPayload)
                   else Some (Ok (Some (mkPresented (tr_identity t) value status (rb_at b) (sm_tick newest) pose_time
                                          (saturating_sub (rb_estimated_now b) pose_time))))
               end
           | _, _ => Some (Ok None)
           end
  end.
End Buffer.
Arguments PosePolicy : clear implicits.
Arguments RemoteSample : clear implicits.
Arguments Presented : clear implicits.
Arguments Track : clear implicits.
Arguments RemoteBuffer : clear implicits.
