(* ===== verification/FloatFacts.v ===== *)
(** * Magnitudes of rounded numbers

    What rounding does to the binary magnitude (the number of digits plus the exponent) of a
    positive number, for the conversions and quotients the interpolation uses: results that are
    finite, not zero, and within one of the exact magnitude; and what any rounding gives. *)

From S2P Require Import Prelude Floats.
Local Open Scope Z_scope.

(** ** Digits and shifts *)

Lemma digits_log2 m : Zpos (digits2_pos m) = Z.log2 (Zpos m) + 1.
Proof.
  assert (forall p, digits2_pos p = Pos.size p) as Hsize by (induction p as [p IH | p IH |]; simpl; congruence).
  rewrite Hsize. destruct m as [p | p |]; simpl; lia.
Qed.

Lemma shr_1_m r : 0 <= shr_m r -> shr_m (shr_1 r) = shr_m r / 2.
Proof.
  destruct r as [m b c]. simpl. intros Hm. rewrite <- Z.div2_div. destruct m as [| [p | p |] | p]; simpl; done.
Qed.

Lemma shr_iter_m p : forall r, 0 <= shr_m r -> shr_m (iter_pos shr_1 p r) = shr_m r / 2 ^ Zpos p.
Proof.
  assert (forall a b, 0 <= a -> 0 <= b -> forall x, 0 <= x -> x / 2 ^ a / 2 ^ b = x / 2 ^ (a + b)) as Hdiv.
  { intros a b Ha Hb x Hx. rewrite Z.div_div by (try apply Z.pow_nonzero; try apply Z.pow_pos_nonneg; lia). by rewrite Z.pow_add_r. }
  induction p as [p IH | p IH |]; intros r Hr; simpl iter_pos.
  - assert (0 <= shr_m (shr_1 r)) as H1 by (rewrite shr_1_m by done; apply Z.div_pos; lia).
    assert (0 <= shr_m (iter_pos shr_1 p (shr_1 r))) as H2 by (rewrite IH by done; apply Z.div_pos; [done | lia]).
    rewrite IH, IH, shr_1_m by done. rewrite <- (Z.pow_1_r 2) at 1. rewrite !Hdiv; try lia; [f_equal; f_equal; lia |].
    apply Z.div_pos; [done | lia].
  - assert (0 <= shr_m (iter_pos shr_1 p r)) as H2 by (rewrite IH by done; apply Z.div_pos; [done | lia]).
    rewrite IH, IH by done. rewrite Hdiv by lia. f_equal. f_equal. lia.
  - by rewrite shr_1_m.
Qed.

Section Round.
Context (prec emax : Z) (Hprec : 0 < prec) (Hemax : prec < emax).
#[local] Abbreviation fexp := (fexp prec emax).
#[local] Abbreviation emin := (emin prec emax).

Lemma fexp_mono a b : a <= b -> fexp a <= fexp b.
Proof. unfold SpecFloat.fexp. lia. Qed.

(** A shift to the exponent of the format leaves the number's magnitude. *)
Lemma shr_fexp_ok m e l : 0 < m -> emin < Z.log2 m + 1 + e ->
  exists r e', shr_fexp prec emax m e l = (r, e') /\ e' = Z.max e (fexp (Z.log2 m + 1 + e))
    /\ 0 < shr_m r /\ shr_m r = m / 2 ^ (e' - e) /\ Z.log2 (shr_m r) + e' = Z.log2 m + e.
Proof.
  intros Hm He. unfold shr_fexp, shr. destruct m as [| m | m]; try lia. simpl Zdigits2. rewrite digits_log2.
  set (M := Zpos m) in *. remember (fexp (Z.log2 M + 1 + e) - e) as k eqn:Hk.
  assert (shr_m (shr_record_of_loc M l) = M) as Hs by (by destruct l as [| []]).
  destruct k as [| n | n].
  - eexists _, _. split; [done |]. rewrite Hs. split; [lia |]. replace (e - e) with 0 by lia. rewrite Z.div_1_r. lia.
  - eexists _, _. split; [done |]. rewrite shr_iter_m, Hs by (rewrite Hs; lia).
    assert (Zpos n <= Z.log2 M) as Hle by (unfold SpecFloat.fexp in Hk; lia).
    assert (Z.log2 (M / 2 ^ Zpos n) = Z.log2 M - Zpos n) as Hlog.
    { rewrite <- Z.shiftr_div_pow2 by lia. rewrite Z.log2_shiftr by lia. lia. }
    assert (0 < M / 2 ^ Zpos n) as Hpos.
    { apply Z.div_str_pos. split; [lia |]. destruct (Z.log2_spec M Hm) as [H1 _]. etransitivity; [| exact H1].
      apply Z.pow_le_mono_r; lia. }
    split; [lia |]. split; [done |]. split; [f_equal; f_equal; lia | lia].
  - eexists _, _. split; [done |]. rewrite Hs. split; [lia |]. replace (e - e) with 0 by lia. rewrite Z.div_1_r. lia.
Qed.

Definition mag (m : positive) (e : Z) : Z := Z.log2 (Zpos m) + 1 + e.

(** A result of magnitude [k], or the power of two just above. *)
Definition near (k : Z) (m : positive) (e : Z) : Prop :=
  mag m e = k \/ (mag m e = k + 1 /\ Zpos m = 2 ^ Z.log2 (Zpos m)).

Lemma log2_pow_div n k : 0 <= k -> k <= n -> 2 ^ n / 2 ^ k = 2 ^ (n - k).
Proof. intros Hk Hn. replace n with (n - k + k) at 1 by lia. rewrite Z.pow_add_r by lia. apply Z.div_mul. lia. Qed.

Lemma round_up_log2 m l : 0 < m ->
  let m' := round_nearest_even m l in
  0 < m' /\ (Z.log2 m' = Z.log2 m \/ (Z.log2 m' = Z.log2 m + 1 /\ m' = 2 ^ Z.log2 m')).
Proof.
  intros Hm. cbn zeta.
  assert (round_nearest_even m l = m \/ round_nearest_even m l = m + 1) as [-> | ->].
  { destruct l as [| []]; simpl; try tauto. destruct (Z.even m); tauto. }
  - tauto.
  - split; [lia |]. destruct (Z.log2_succ_or m) as [Hl | Hl]; unfold Z.succ in Hl; [right | by left].
    split; [done |]. destruct (Z.log2_spec m Hm) as [_ H1]. destruct (Z.log2_spec (m + 1) ltac:(lia)) as [H2 _].
    rewrite Hl in *. unfold Z.succ in H1. lia.
Qed.

Lemma round_aux_ok sx m e l : 0 < m -> emin < Z.log2 m + 1 + e -> Z.log2 m + 1 + e < emax -> e <= emax - prec ->
  exists m' e', binary_round_aux prec emax sx m e l = S754_finite sx m' e' /\ Z.log2 (Zpos m') + 1 <= prec
    /\ near (Z.log2 m + 1 + e) m' e' /\ (e <= fexp (Z.log2 m + 1 + e) -> e' = fexp (mag m' e')).
Proof.
  intros Hm Hlo Hhi He. unfold binary_round_aux.
  destruct (shr_fexp_ok m e l Hm Hlo) as (r1 & e1 & -> & He1 & Hr1 & _ & Hl1).
  destruct (round_up_log2 (shr_m r1) (loc_of_shr_record r1) Hr1) as [Hm2 Hup]. set (m2 := round_nearest_even _ _) in *.
  assert (emin < Z.log2 m2 + 1 + e1) as Hlo2 by (destruct Hup as [Hup | [Hup _]]; rewrite Hup; lia).
  destruct (shr_fexp_ok m2 e1 loc_Exact Hm2 Hlo2) as (r2 & e2 & -> & He2 & Hr2 & Hdiv & Hl2).
  destruct (shr_m r2) as [| m3 | m3] eqn:Hr; try lia.
  assert (e2 <= emax - prec) as Hfin.
  { unfold SpecFloat.fexp, SpecFloat.emin in *. destruct Hup as [Hup | [Hup _]]; rewrite Hup in *; lia. }
  rewrite (proj2 (Z.leb_le _ _) Hfin). exists m3, e2. split; [done |].
  assert (Z.log2 (Zpos m3) + 1 <= prec) as Hd by (unfold SpecFloat.fexp in *; lia).
  split; [done |]. unfold near, mag. split.
  - destruct Hup as [Hup | [Hup Hpow]]; [left; lia | right]. split; [lia |]. rewrite Hdiv.
    rewrite Hpow at 1. assert (e2 - e1 = Z.log2 m2 - Z.log2 (Zpos m3)) as Hn by lia. rewrite Hn at 1.
    pose proof (Z.log2_nonneg (Zpos m3)). pose proof (Z.log2_nonneg m2).
    rewrite log2_pow_div by lia. rewrite <- Hdiv. f_equal. lia.
  - intros Hcan. replace (Z.log2 (Zpos m3) + 1 + e2) with (Z.log2 m2 + 1 + e1) by lia.
    rewrite He2, He1 at 1. rewrite Z.max_r with (n := e) by done. apply Z.max_r. apply fexp_mono. destruct Hup as [Hup | [Hup _]]; lia.
Qed.

Lemma shl_align_ok m e e' : let r := shl_align m e e' in
  Zpos r.1 = Zpos m * 2 ^ (e - r.2) /\ r.2 = Z.min e e' /\ Z.log2 (Zpos r.1) + r.2 = Z.log2 (Zpos m) + e.
Proof.
  cbn zeta. unfold shl_align.
  assert (forall d, Zpos (Pos.iter xO m d) = Zpos m * 2 ^ Zpos d) as Hiter.
  { intros d. induction d as [| d IH] using Pos.peano_ind.
    - simpl. lia.
    - rewrite Pos.iter_succ, Pos2Z.inj_succ, Z.pow_succ_r by lia. change (Zpos (Pos.iter xO m d)~0) with (2 * Zpos (Pos.iter xO m d)). lia. }
  destruct (e' - e) as [| d | d] eqn:Hd; cbn [fst snd].
  - replace (e - e) with 0 by lia. split_and!; lia.
  - replace (e - e) with 0 by lia. split_and!; lia.
  - replace (e - e') with (Zpos d) by lia. rewrite Hiter. split; [done |]. split; [lia |].
    rewrite <- Z.shiftl_mul_pow2 by lia. rewrite Z.log2_shiftl by lia. lia.
Qed.

Lemma round_ok sx m e : emin < mag m e -> mag m e < emax ->
  exists m' e', binary_round prec emax sx m e = S754_finite sx m' e' /\ Z.log2 (Zpos m') + 1 <= prec
    /\ near (mag m e) m' e' /\ e' = fexp (mag m' e').
Proof.
  intros Hlo Hhi. unfold binary_round. rewrite digits_log2. fold (mag m e).
  destruct (shl_align_ok m e (fexp (mag m e))) as (Hv & He & Hl). destruct (shl_align m e (fexp (mag m e))) as [mz ez]. cbn [fst snd] in *.
  assert (Z.log2 (Zpos mz) + 1 + ez = mag m e) as Hmag by (unfold mag; lia).
  destruct (round_aux_ok sx (Zpos mz) ez loc_Exact) as (m' & e' & Heq & Hd & Hn & Hc); try lia.
  - unfold SpecFloat.fexp, SpecFloat.emin in *. lia.
  - rewrite Hmag in *. exists m', e'. split_and!; try done. apply Hc. lia.
Qed.
(** ** Any rounding *)

(** A shift to the exponent of the format never lowers the exponent and leaves at most the
    format's digits. *)
Lemma shr_fexp_any m e l : 0 <= m ->
  exists r e', shr_fexp prec emax m e l = (r, e') /\ e <= e' /\ 0 <= shr_m r < 2 ^ prec.
Proof.
  intros Hm. unfold shr_fexp, shr.
  assert (shr_m (shr_record_of_loc m l) = m) as Hs by (by destruct l as [| []]).
  assert (m < 2 ^ (Zdigits2 m)) as Hd.
  { destruct m as [| m | m]; [done | | lia]. simpl Zdigits2. rewrite digits_log2. apply Z.log2_spec. lia. }
  remember (fexp (Zdigits2 m + e) - e) as k eqn:Hk. assert (Zdigits2 m - prec <= k) as Hle by (unfold SpecFloat.fexp in Hk; lia).
  assert (0 <= Zdigits2 m) as Hd0 by (destruct m; simpl; lia).
  destruct k as [| n | n]; eexists _, _; (split; [reflexivity |]); (split; [lia |]).
  - rewrite Hs. split; [done |]. eapply Z.lt_le_trans; [exact Hd |]. apply Z.pow_le_mono_r; lia.
  - rewrite shr_iter_m, Hs by (rewrite Hs; lia). split; [apply Z.div_pos; lia |].
    apply Z.div_lt_upper_bound; [lia |]. rewrite <- Z.pow_add_r by lia. eapply Z.lt_le_trans; [exact Hd |].
    apply Z.pow_le_mono_r; lia.
  - rewrite Hs. split; [done |]. eapply Z.lt_le_trans; [exact Hd |]. apply Z.pow_le_mono_r; lia.
Qed.

Lemma round_aux_shape sx m e l : 0 <= m ->
  let v := binary_round_aux prec emax sx m e l in
  v = S754_zero sx \/ v = S754_infinity sx
  \/ exists m' e', v = S754_finite sx m' e' /\ Zpos m' < 2 ^ prec /\ e <= e'.
Proof.
  intros Hm. cbn zeta. unfold binary_round_aux. destruct (shr_fexp_any m e l Hm) as (r1 & e1 & -> & He1 & Hr1).
  assert (0 <= round_nearest_even (shr_m r1) (loc_of_shr_record r1)) as Hm2.
  { destruct (loc_of_shr_record r1) as [| []]; simpl; try lia. destruct (Z.even _); lia. }
  destruct (shr_fexp_any _ e1 loc_Exact Hm2) as (r2 & e2 & -> & He2 & Hr2).
  destruct (shr_m r2) as [| m3 | m3]; [by left | | lia]. right. destruct (Z.leb _ _); [right | by left].
  exists m3, e2. split_and!; [done | lia | lia].
Qed.

Lemma round_shape sx m e :
  let v := binary_round prec emax sx m e in
  v = S754_zero sx \/ v = S754_infinity sx \/ exists m' e', v = S754_finite sx m' e' /\ Zpos m' < 2 ^ prec.
Proof.
  cbn zeta. unfold binary_round. destruct (shl_align _ _ _) as [mz ez].
  destruct (round_aux_shape sx (Zpos mz) ez loc_Exact) as [-> | [-> | (m' & e' & -> & ? & _)]]; eauto 9; lia.
Qed.

(** A result with a lower exponent than the number it rounds is that number. *)
Lemma round_below sx m e s m' e' :
  binary_round prec emax sx m e = S754_finite s m' e' -> e' < e -> Zpos m' = Zpos m * 2 ^ (e - e').
Proof.
  unfold binary_round. rewrite digits_log2. fold (mag m e). intros H Hlt.
  destruct (shl_align_ok m e (fexp (mag m e))) as (Hv & He & Hl).
  destruct (shl_align m e (fexp (mag m e))) as [mz ez]. cbn [fst snd] in *.
  destruct (decide (e <= fexp (mag m e))) as [Hge | Hsh].
  { destruct (round_aux_shape sx (Zpos mz) ez loc_Exact) as [Hz | [Hz | (m2 & e2 & Hz & _ & Hle)]]; try lia; rewrite Hz in H; try done.
    injection H as _ _ <-. lia. }
  assert (ez = fexp (mag m e)) as Hez by lia.
  assert (forall l, shr_fexp prec emax (Zpos mz) ez l = (shr_record_of_loc (Zpos mz) l, ez)) as Hshr.
  { intros l. unfold shr_fexp, shr. simpl Zdigits2. rewrite digits_log2.
    replace (Z.log2 (Zpos mz) + 1 + ez) with (mag m e) by (unfold mag; lia). by replace (fexp (mag m e) - ez) with 0 by lia. }
  unfold binary_round_aux in H. rewrite Hshr in H. simpl in H. rewrite Hshr in H. simpl in H.
  destruct (Z.leb _ _); [| done]. injection H as _ <- <-. by rewrite Hv, Hez.
Qed.
End Round.

(** ** Binary64 *)

Definition within (lo hi : Z) (v : f64) : Prop :=
  exists m e, v = S754_finite false m e /\ Z.log2 (Zpos m) + 1 <= 53 /\ lo <= mag m e <= hi.

Lemma within_weaken lo hi lo' hi' v : within lo hi v -> lo' <= lo -> hi <= hi' -> within lo' hi' v.
Proof. intros (m & e & -> & Hd & Hm) ? ?. exists m, e. split_and!; (done || lia). Qed.

Lemma near_within k m e : near k m e -> k <= mag m e <= k + 1.
Proof. intros [-> | [-> _]]; lia. Qed.

Lemma of_Z_within z k : 0 < z -> z < 2 ^ k -> k <= 900 -> within 1 (k + 1) (f64_of_Z z).
Proof.
  intros Hz Hk Hk'. unfold f64_of_Z, binary_normalize. destruct z as [| m | m]; try lia.
  assert (0 <= Z.log2 (Zpos m) < k) as Hl by (split; [apply Z.log2_nonneg | by apply Z.log2_lt_pow2]).
  destruct (round_ok 53 1024 ltac:(lia) ltac:(lia) false m 0) as (m' & e' & -> & Hd & Hn & _).
  - unfold mag. change (emin 53 1024) with (-1074). lia.
  - unfold mag. lia.
  - exists m', e'. apply near_within in Hn. unfold mag in *. split_and!; (done || lia).
Qed.

Lemma div_core m1 e1 m2 e2 :
  let '(q, e', l) := SFdiv_core_binary 53 1024 (Zpos m1) e1 (Zpos m2) e2 in
  -1000 < mag m1 e1 - mag m2 e2 ->
  0 < q /\ e' <= fexp 53 1024 (mag m1 e1 - mag m2 e2) /\ mag m1 e1 - mag m2 e2 <= Z.log2 q + 1 + e' <= mag m1 e1 - mag m2 e2 + 1.
Proof.
  unfold SFdiv_core_binary. simpl Zdigits2. rewrite !digits_log2.
  replace (Z.log2 (Zpos m1) + 1 + e1 - (Z.log2 (Zpos m2) + 1 + e2)) with (mag m1 e1 - mag m2 e2) by (unfold mag; lia).
  set (k := mag m1 e1 - mag m2 e2). set (e' := Z.min (fexp 53 1024 k) (e1 - e2)). set (s := e1 - e2 - e').
  assert (0 <= s) as Hs by lia.
  assert (match s with Zpos _ => Z.shiftl (Zpos m1) s | Z0 => Zpos m1 | Zneg _ => 0 end = Zpos m1 * 2 ^ s) as ->.
  { destruct s as [| p | p] eqn:E; [lia | | lia]. by rewrite Z.shiftl_mul_pow2 by lia. }
  destruct (Z.div_eucl (Zpos m1 * 2 ^ s) (Zpos m2)) as [q r] eqn:Hq. intros Hk.
  assert (q = Zpos m1 * 2 ^ s / Zpos m2) as -> by (unfold Z.div; by rewrite Hq).
  set (l1 := Z.log2 (Zpos m1)). set (l2 := Z.log2 (Zpos m2)).
  assert (0 <= l1 /\ 0 <= l2) as [Hl1 Hl2] by (split; apply Z.log2_nonneg).
  assert (mag m1 e1 = l1 + 1 + e1 /\ mag m2 e2 = l2 + 1 + e2) as [Hg1 Hg2] by done.
  destruct (Z.log2_spec (Zpos m1) ltac:(lia)) as [A1 A2]. destruct (Z.log2_spec (Zpos m2) ltac:(lia)) as [B1 B2].
  fold l1 in A1, A2. fold l2 in B1, B2. rewrite Z.pow_succ_r in A2, B2 by lia.
  assert (l2 + 1 <= l1 + s) as Hbig.
  { assert (e' <= k - 53) by (unfold e', fexp; change (emin 53 1024) with (-1074); lia). lia. }
  set (q := Zpos m1 * 2 ^ s / Zpos m2).
  assert (2 ^ (l1 + s - l2 - 1) <= q) as Qlo.
  { apply Z.div_le_lower_bound; [lia |].
    assert (2 ^ (l1 + s) = 2 * 2 ^ l2 * 2 ^ (l1 + s - l2 - 1)) as Hp.
    { rewrite <- Z.pow_succ_r, <- Z.pow_add_r by lia. f_equal. lia. }
    rewrite Z.pow_add_r in Hp by lia. pose proof (Z.pow_pos_nonneg 2 s ltac:(lia) Hs).
    pose proof (Z.pow_pos_nonneg 2 (l1 + s - l2 - 1) ltac:(lia) ltac:(lia)). nia. }
  assert (q < 2 ^ (l1 + s - l2 + 1)) as Qhi.
  { apply Z.div_lt_upper_bound; [lia |].
    assert (2 * 2 ^ l1 * 2 ^ s = 2 ^ l2 * 2 ^ (l1 + s - l2 + 1)) as Hp.
    { rewrite <- Z.pow_succ_r, <- !Z.pow_add_r by lia. f_equal. lia. }
    pose proof (Z.pow_pos_nonneg 2 s ltac:(lia) Hs). pose proof (Z.pow_pos_nonneg 2 (l1 + s - l2 + 1) ltac:(lia) ltac:(lia)). nia. }
  assert (0 < q) as Hqpos by (pose proof (Z.pow_pos_nonneg 2 (l1 + s - l2 - 1) ltac:(lia) ltac:(lia)); lia).
  split; [done |]. split; [lia |].
  assert (l1 + s - l2 - 1 <= Z.log2 q) by (apply Z.log2_le_pow2; lia).
  assert (Z.log2 q < l1 + s - l2 + 1) by (apply Z.log2_lt_pow2; lia).
  lia.
Qed.

Lemma div_within a b c d x y : within a b x -> within c d y -> -900 <= a - d -> b - c <= 900 ->
  within (a - d) (b - c + 2) (f64_div x y).
Proof.
  intros (m1 & e1 & -> & D1 & M1) (m2 & e2 & -> & D2 & M2) Hlo Hhi. unfold f64_div, SFdiv.
  pose proof (div_core m1 e1 m2 e2) as Hcore. destruct (SFdiv_core_binary 53 1024 _ _ _ _) as [[q e'] l].
  destruct Hcore as (Hq & He & Hm); [lia |].
  destruct (round_aux_ok 53 1024 ltac:(lia) ltac:(lia) (xorb false false) q e' l) as (m' & e'' & -> & Hd & Hn & _); try lia.
  - change (emin 53 1024) with (-1074). lia.
  - unfold fexp in He. change (emin 53 1024) with (-1074) in He. lia.
  - apply near_within in Hn. exists m', e''. split_and!; (done || lia).
Qed.

Lemma add_within a b c d x y : within a b x -> within c d y -> -900 <= a -> -900 <= c -> b <= 900 -> d <= 900 ->
  within (Z.min a c) (Z.max b d + 2) (f64_add x y).
Proof.
  intros (m1 & e1 & -> & D1 & M1) (m2 & e2 & -> & D2 & M2) ? ? ? ?. unfold f64_add, SFadd, cond_Zopp.
  destruct (shl_align_ok m1 e1 (Z.min e1 e2)) as (_ & E1 & L1). destruct (shl_align_ok m2 e2 (Z.min e1 e2)) as (_ & E2 & L2).
  destruct (shl_align m1 e1 _) as [p1 f1]. destruct (shl_align m2 e2 _) as [p2 f2]. cbn [fst snd] in *.
  assert (f1 = Z.min e1 e2) as -> by lia. assert (f2 = Z.min e1 e2) as -> by lia. set (ez := Z.min e1 e2) in *.
  change (binary_normalize 53 1024 (Zpos p1 + Zpos p2) ez false) with (binary_round 53 1024 false (p1 + p2) ez).
  set (p := (p1 + p2)%positive).
  assert (Z.max (Z.log2 (Zpos p1)) (Z.log2 (Zpos p2)) <= Z.log2 (Zpos p) <= Z.max (Z.log2 (Zpos p1)) (Z.log2 (Zpos p2)) + 1) as Hp.
  { split; [apply Z.max_lub; apply Z.log2_le_mono; lia |].
    assert (Z.log2 (Zpos p) < Z.max (Z.log2 (Zpos p1)) (Z.log2 (Zpos p2)) + 2); [| lia]. apply Z.log2_lt_pow2; [lia |].
    destruct (Z.log2_spec (Zpos p1) ltac:(lia)) as [_ P1]. destruct (Z.log2_spec (Zpos p2) ltac:(lia)) as [_ P2].
    set (mx := Z.max _ _). pose proof (Z.log2_nonneg (Zpos p1)). pose proof (Z.log2_nonneg (Zpos p2)).
    assert (2 ^ Z.succ (Z.log2 (Zpos p1)) <= 2 ^ (mx + 1)) by (apply Z.pow_le_mono_r; lia).
    assert (2 ^ Z.succ (Z.log2 (Zpos p2)) <= 2 ^ (mx + 1)) by (apply Z.pow_le_mono_r; lia).
    replace (mx + 2) with (Z.succ (mx + 1)) by lia. rewrite Z.pow_succ_r by lia. unfold p. lia. }
  unfold mag in *.
  destruct (round_ok 53 1024 ltac:(lia) ltac:(lia) false p ez) as (m' & e' & -> & Hd & Hn & _).
  - unfold mag. change (emin 53 1024) with (-1074). lia.
  - unfold mag. lia.
  - apply near_within in Hn. exists m', e'. unfold mag in *. split_and!; (done || lia).
Qed.

(** ** Quotients clamped to the unit interval *)

Definition f64_one : f64 := f64_of_Z 1.
Definition f32_one : spec_float := S754_finite false 8388608 (-23).

Lemma clamp_unit x lo hi : within lo hi x ->
  let y := f64_clamp x f64_zero f64_one in y = f64_one \/ within lo 0 y.
Proof.
  intros (m & e & -> & Hd & Hm). unfold f64_clamp. change (f64_lt (S754_finite false m e) f64_zero) with false. cbv iota zeta.
  change f64_one with (S754_finite false 4503599627370496 (-52)). unfold f64_lt, SFltb, SFcompare.
  destruct (Z.compare_spec (-52) e) as [He | He | He]; [| by left |].
  - rewrite <- He in *. change (Pos.compare_cont Eq 4503599627370496 m) with (Pos.compare 4503599627370496 m).
    destruct (Pos.compare_spec 4503599627370496 m) as [<- | Hlt | Hgt]; [by left | by left | right].
    exists m, (-52). split; [done |]. split; [done |]. split; [apply Hm |]. unfold mag.
    assert (Z.log2 (Zpos m) < 52) as Hl by (apply Z.log2_lt_pow2; [done | exact Hgt]). clear Hgt. lia.
  - right. exists m, e. split; [done |]. split; [done |]. unfold mag in *. lia.
Qed.

Lemma f32_unit y lo : -140 <= lo -> y = f64_one \/ within lo 0 y ->
  SFltb f64_zero (f32_of_f64 y) = true /\ SFleb (f32_of_f64 y) f32_one = true.
Proof.
  intros Hlo [-> | (m & e & -> & Hd & Hm)]; [split; vm_compute; reflexivity |]. unfold f32_of_f64.
  destruct (round_ok 24 128 ltac:(lia) ltac:(lia) false m e) as (m' & e' & -> & Hd' & Hn & He').
  - change (emin 24 128) with (-149). lia.
  - lia.
  - split; [done |]. unfold SFleb, SFcompare, f32_one. unfold fexp in He'. change (emin 24 128) with (-149) in He'.
    destruct Hn as [Hn | [Hn Hpow]].
    + rewrite (proj2 (Z.compare_lt_iff e' (-23))) by lia. done.
    + destruct (Z.compare_spec e' (-23)) as [He | He | He]; [| done | lia].
      assert (Z.log2 (Zpos m') = 23) as Hl by (unfold mag in *; lia). rewrite Hl in Hpow. change (2 ^ 23) with 8388608 in Hpow.
      assert (m' = 8388608%positive) as -> by lia. done.
Qed.
