(* ===== verification/InterpolationProps.v ===== *)
(** * Remote histories

    The invariant of a remote buffer over any calls, the accounts it keeps, that identities only
    move forward, and that a presented pose stays within the evidence. *)

From S2P Require Import Prelude Types Floats Payload Replication Synchronization Interpolation.
Local Open Scope N_scope.
Local Open Scope engine_scope.

Section Buffer.
Context (size_sample size_track : N).
Context {P : Type} `{PP : !Payload P}.
Context (policy : PosePolicy P).
Implicit Types (b : RemoteBuffer P) (t : Track P) (s : RemoteSample P).
#[local] Abbreviation charge := (samples_charge size_sample).
#[local] Abbreviation receive := (receive size_sample size_track).
#[local] Abbreviation exit_track := (exit_track size_sample).

Definition earlier_sample s s' : Prop := sm_tick s < sm_tick s'.

Record history_ok (l : Limits) (samples : list (RemoteSample P)) : Prop := {
  ho_sorted : StronglySorted earlier_sample samples;
  ho_count : len samples <= il_samples_per_entity l;
  ho_span : forall s s', s ∈ samples -> s' ∈ samples -> sm_tick s' <= sm_tick s + il_history_ticks l;
}.

Definition sample_ok (config : Config) (identity : RemoteIdentity) s : Prop :=
  sm_identity s = identity /\ deadline (cf_rate config) (sm_tick s) <> None /\ pose_valid policy (sm_value s) = true
  /\ retained_bytes (sm_value s) <= il_sample_heap_bytes (cf_limits config).

Record track_ok b (key : N) t : Prop := {
  to_key : index (scope_entity (ri_scope (tr_identity t))) = key;
  to_valid : validate_remote (tr_identity t) (rb_connection b) = Ok tt;
  to_live : if tr_retired t then tr_samples t = [] else tr_samples t <> [];
  to_history : history_ok (cf_limits (rb_config b)) (tr_samples t);
  to_samples : Forall (sample_ok (rb_config b) (tr_identity t)) (tr_samples t);
}.

Definition active_count t : N := if tr_retired t then 0 else 1.
Definition track_bytes t : N := track_charge size_track + charge (tr_samples t).

Record buffer_inv b : Prop := {
  bu_known : ac_known_entities (rb_accounting b) = N.of_nat (size (rb_tracks b));
  bu_active : ac_active_entities (rb_accounting b) = map_sum active_count (rb_tracks b);
  bu_samples : ac_samples (rb_accounting b) = map_sum (fun t => len (tr_samples t)) (rb_tracks b);
  bu_bytes : ac_retained_bytes (rb_accounting b) = map_sum track_bytes (rb_tracks b);
  bu_known_max : ac_known_entities (rb_accounting b) <= il_known_entities (cf_limits (rb_config b));
  bu_samples_max : ac_samples (rb_accounting b) <= il_total_samples (cf_limits (rb_config b));
  bu_bytes_max : ac_retained_bytes (rb_accounting b) <= il_retained_bytes (cf_limits (rb_config b));
  bu_tracks : forall key t, rb_tracks b !! key = Some t -> track_ok b key t;
  bu_cursor : rb_at b = default 0 (cursor_last (rb_clock b));
}.

(** What does not change in the life of a buffer. *)
Definition same_limits b b' : Prop :=
  rb_connection b' = rb_connection b /\ cf_limits (rb_config b') = cf_limits (rb_config b)
  /\ cf_rate (rb_config b') = cf_rate (rb_config b)
  /\ cf_extrapolation_cap (rb_config b') = cf_extrapolation_cap (rb_config b).

(** ** Histories *)

Lemma insert_sample_elem s l x : x ∈ insert_sample s l <-> x = s \/ x ∈ l.
Proof.
  induction l as [| y l IH]; simpl; [by rewrite list_elem_of_singleton, elem_of_nil; intuition |].
  destruct (decide _); rewrite !elem_of_cons; [rewrite IH |]; tauto.
Qed.

Lemma length_insert_sample s l : length (insert_sample s l) = S (length l).
Proof. induction l as [| y l IH]; simpl; [done |]. destruct (decide _); simpl; congruence. Qed.

Lemma insert_sample_sorted s l :
  StronglySorted earlier_sample l -> (forall x, x ∈ l -> sm_tick x <> sm_tick s) -> StronglySorted earlier_sample (insert_sample s l).
Proof.
  induction 1 as [| y l Hl IH Hy]; intros Hne; simpl; [repeat constructor |]. destruct (decide _) as [Hlt | Hge].
  - constructor; [apply IH; intros x Hx; apply Hne; by right |]. apply Forall_forall.
    intros x [-> | Hx]%insert_sample_elem; [done |]. rewrite Forall_forall in Hy. by apply Hy.
  - assert (sm_tick s < sm_tick y) as Hs by (specialize (Hne y ltac:(by left)); lia).
    constructor; [by constructor |]. constructor; [done |]. eapply Forall_impl; [done |]. unfold earlier_sample. lia.
Qed.

Lemma last_newest l s : StronglySorted earlier_sample l -> last l = Some s -> forall x, x ∈ l -> sm_tick x <= sm_tick s.
Proof.
  intros Hs Hl x Hx. destruct (sorted_last earlier_sample l x s Hs Hl Hx) as [-> | H]; [done |]. unfold earlier_sample in H. lia.
Qed.

Lemma stage_samples_ok l prior s :
  2 <= il_samples_per_entity l -> history_ok l prior -> (forall x, x ∈ prior -> sm_tick x <> sm_tick s) ->
  match stage_samples l prior s with
  | None => False
  | Some None => prior <> []
  | Some (Some samples) => history_ok l samples /\ s ∈ samples /\ forall x, x ∈ samples -> x = s \/ x ∈ prior
  end.
Proof.
  intros H2 [Hs Hc Hspan] Hne. unfold stage_samples, saturating_sub.
  set (newest := match last prior with Some v => N.max (sm_tick v) (sm_tick s) | None => sm_tick s end).
  set (floor := newest - il_history_ticks l).
  assert (forall x, x ∈ prior -> sm_tick x <= newest) as Hnew.
  { intros x Hx. unfold newest. destruct (last prior) as [v |] eqn:Hl.
    - pose proof (last_newest _ _ Hs Hl x Hx). lia.
    - apply last_None in Hl as ->. by apply not_elem_of_nil in Hx. }
  assert (sm_tick s <= newest) as Hsn by (unfold newest; destruct (last prior); lia).
  destruct (decide (sm_tick s < floor)) as [Hold | Hfloor].
  { intros ->. unfold floor, newest in Hold. simpl in Hold. lia. }
  set (kept := filter (fun v => floor <= sm_tick v) prior).
  assert (StronglySorted earlier_sample (insert_sample s kept)) as Hsort.
  { apply insert_sample_sorted; [by apply StronglySorted_filter |]. intros x [_ Hx]%list_elem_of_filter. by apply Hne. }
  assert (forall x, x ∈ insert_sample s kept -> floor <= sm_tick x <= newest /\ (x = s \/ x ∈ prior)) as Hin.
  { intros x [-> | Hx]%insert_sample_elem; [split; [lia | by left] |]. apply list_elem_of_filter in Hx as [Hf Hx].
    split; [split; [done | by apply Hnew] | by right]. }
  assert (forall tail', (forall x, x ∈ tail' -> x ∈ insert_sample s kept) -> s ∈ tail' -> StronglySorted earlier_sample tail' ->
            len tail' <= il_samples_per_entity l ->
            history_ok l tail' /\ s ∈ tail' /\ forall x, x ∈ tail' -> x = s \/ x ∈ prior) as Hdone.
  { intros tail' Hsub Hst Hso Hco. split; [| split; [done |]].
    - constructor; try done. intros x y Hx Hy. destruct (Hin _ (Hsub _ Hx)) as [Hx' _]. destruct (Hin _ (Hsub _ Hy)) as [Hy' _].
      unfold floor in *. lia.
    - intros x Hx. by apply Hin, Hsub. }
  assert (length kept <= length prior)%nat as Hkl by apply length_filter.
  assert (s ∈ insert_sample s kept) as Hself by (apply insert_sample_elem; by left).
  set (store := if decide (il_samples_per_entity l < len (insert_sample s kept)) then tail (insert_sample s kept) else insert_sample s kept).
  assert (prior = [] \/ (len prior = il_samples_per_entity l -> forall first rest, prior = first :: rest -> ~ sm_tick s < sm_tick first) ->
          history_ok l store /\ s ∈ store /\ forall x, x ∈ store -> x = s \/ x ∈ prior) as Hstore.
  { intros Hfirst. unfold store. destruct (decide _) as [Hover |]; [| apply Hdone; [done | done | done | lia]].
    unfold len in Hover, Hc. rewrite length_insert_sample in Hover.
    assert (length kept = length prior) as Hall by lia.
    assert (kept = prior) as Hkp.
    { apply filter_Forall_id. apply Forall_forall. intros x Hx. destruct (decide (floor <= sm_tick x)); [done |]. exfalso.
      pose proof (length_filter_lt (fun v : RemoteSample P => floor <= sm_tick v) prior x Hx ltac:(done)) as Hshort. fold kept in Hshort. lia. }
    destruct prior as [| first rest]; [simpl in *; lia |].
    destruct Hfirst as [| Hfirst]; [done |].
    assert (sm_tick first < sm_tick s) as Hlt.
    { specialize (Hfirst ltac:(unfold len; lia) first rest eq_refl). specialize (Hne first ltac:(by left)). lia. }
    rewrite Hkp in *. simpl in *. rewrite decide_True in * by done. simpl in *. apply Hdone.
    + intros x Hx. by right.
    + apply insert_sample_elem. by left.
    + by apply StronglySorted_inv in Hsort as [? _].
    + unfold len. rewrite length_insert_sample. lia. }
  destruct (decide (len prior = il_samples_per_entity l)) as [Hfull | Hroom].
  - destruct prior as [| first rest]; [unfold len in Hfull; simpl in Hfull; lia |].
    destruct (decide (sm_tick s < sm_tick first)) as [| Hge]; [done |]. apply Hstore. right. intros _ f r [= <- <-]. done.
  - apply Hstore. right. done.
Qed.

(** ** Tracks *)

(** An identity is followed by a later one; a retired scope by a later scope. *)
Definition scope_after (new old : ScopeIdentity) : Prop :=
  generation (scope_entity old) < generation (scope_entity new)
  \/ generation (scope_entity old) = generation (scope_entity new) /\ scope_epoch old < scope_epoch new.

Definition track_next t t' : Prop :=
  (tr_identity t' = tr_identity t /\ (tr_retired t = true -> tr_retired t' = true))
  \/ (newer_identity (tr_identity t') (tr_identity t) = true
      /\ (tr_retired t = true -> scope_after (ri_scope (tr_identity t')) (ri_scope (tr_identity t)))).

Definition buffer_next b b' : Prop :=
  (forall key t, rb_tracks b !! key = Some t -> exists t', rb_tracks b' !! key = Some t' /\ track_next t t')
  /\ rb_at b <= rb_at b' /\ rb_estimated_now b <= rb_estimated_now b'.

Lemma track_next_refl t : track_next t t.
Proof. by left. Qed.

Lemma newer_scope i j : newer_identity i j = true ->
  scope_after (ri_scope i) (ri_scope j)
  \/ generation (scope_entity (ri_scope i)) = generation (scope_entity (ri_scope j)) /\ scope_epoch (ri_scope i) = scope_epoch (ri_scope j).
Proof.
  unfold newer_identity, scope_after. intros H. destruct (decide _) in H; [done |].
  destruct (decide (generation _ <> generation _)) as [Hg | Hg] in H; [apply bool_decide_eq_true in H; left; left; lia |].
  apply dec_stable in Hg. destruct (decide (scope_epoch _ <> scope_epoch _)) as [He | He] in H.
  - apply bool_decide_eq_true in H. left. right. split; [done | lia].
  - apply dec_stable in He. by right.
Qed.

Lemma newer_trans i j k : newer_identity i j = true -> newer_identity j k = true -> newer_identity i k = true.
Proof.
  unfold newer_identity. intros Hij Hjk. destruct (decide (ri_scene i < ri_scene j)) in Hij; [done |].
  destruct (decide (ri_scene j < ri_scene k)) in Hjk; [done |]. rewrite decide_False by lia.
  repeat match goal with
  | H : context [decide ?p] |- _ => destruct (decide p); rewrite ?bool_decide_eq_true in H
  | |- context [decide ?p] => destruct (decide p); rewrite ?bool_decide_eq_true
  end; try lia.
Qed.

Lemma scope_after_trans x y z : scope_after x y -> scope_after y z -> scope_after x z.
Proof. unfold scope_after. lia. Qed.

Lemma track_next_trans t t1 t2 : track_next t t1 -> track_next t1 t2 -> track_next t t2.
Proof.
  intros [[E1 R1] | [N1 R1]] [[E2 R2] | [N2 R2]].
  - left. split; [congruence | auto].
  - right. rewrite E1 in *. auto.
  - right. rewrite E2 in *. auto.
  - right. split; [by eapply newer_trans |]. intros Hr. specialize (R1 Hr).
    destruct (newer_scope _ _ N2) as [Ha | [Hg He]]; [by eapply scope_after_trans |]. unfold scope_after in *. lia.
Qed.

#[export] Instance buffer_next_preorder : PreOrder buffer_next.
Proof.
  split.
  - intros b. split; [intros key t Ht; exists t; split; [done | apply track_next_refl] | lia].
  - intros b1 b2 b3 [H12 [A12 E12]] [H23 [A23 E23]]. split; [| lia]. intros key t Ht.
    destruct (H12 key t Ht) as (t2 & Ht2 & N2). destruct (H23 key t2 Ht2) as (t3 & Ht3 & N3).
    exists t3. split; [done | by eapply track_next_trans].
Qed.

(** One track written, and the accounts with it. *)
Lemma put_track_ok b key t a :
  buffer_inv b -> track_ok b key t ->
  ac_known_entities a = N.of_nat (size (<[key := t]> (rb_tracks b))) ->
  ac_active_entities a = map_sum active_count (<[key := t]> (rb_tracks b)) ->
  ac_samples a = map_sum (fun t => len (tr_samples t)) (<[key := t]> (rb_tracks b)) ->
  ac_retained_bytes a = map_sum track_bytes (<[key := t]> (rb_tracks b)) ->
  ac_known_entities a <= il_known_entities (cf_limits (rb_config b)) ->
  ac_samples a <= il_total_samples (cf_limits (rb_config b)) ->
  ac_retained_bytes a <= il_retained_bytes (cf_limits (rb_config b)) ->
  (forall old, rb_tracks b !! key = Some old -> track_next old t) ->
  let b' := b <| rb_accounting := a |> <| rb_tracks := <[key := t]> (rb_tracks b) |> in
  buffer_inv b' /\ same_limits b b' /\ buffer_next b b'.
Proof.
  intros Hb Ht Hk Hac Hs By Km Sm Bm Hn b'. split; [| split; [done |]].
  - constructor; try done; [| by apply (bu_cursor b)]. intros key' t' Hl. unfold b' in Hl. simpl in Hl.
    destruct (decide (key' = key)) as [-> | Hne].
    + rewrite lookup_insert_eq in Hl. injection Hl as <-. by destruct Ht.
    + rewrite lookup_insert_ne in Hl by done. by destruct (bu_tracks b Hb key' t' Hl).
  - split; [| unfold b'; simpl; lia]. intros key' t' Hl. unfold b'. simpl. destruct (decide (key' = key)) as [-> | Hne].
    + rewrite lookup_insert_eq. exists t. split; [done | by apply Hn].
    + rewrite lookup_insert_ne by done. exists t'. split; [done | apply track_next_refl].
Qed.

Lemma admit_identity_ok identity (old : option (Track P)) changed : admit_identity identity old = Ok changed ->
  match old with
  | None => changed = true
  | Some t => if changed then newer_identity identity (tr_identity t) = true
                              /\ (tr_retired t = true -> scope_after (ri_scope identity) (ri_scope (tr_identity t)))
              else identity = tr_identity t /\ tr_retired t = false
  end.
Proof.
  destruct old as [t |]; simpl; [| by intros [= <-]]. intros H. destruct (tr_retired t && _ && _) eqn:Hr in H; [done |].
  destruct (decide _) as [Hne | Heq] in H.
  - destruct (newer_identity _ _) eqn:Hn in H; simpl in H; [| done]. injection H as <-. split; [done |]. intros Hret.
    rewrite Hret in Hr. simpl in Hr. destruct (newer_scope _ _ Hn) as [| [Hg He]]; [done |].
    rewrite (bool_decide_eq_true_2 _ Hg), bool_decide_eq_true_2 in Hr by lia. done.
  - apply dec_stable in Heq. destruct (tr_retired t); [done |]. by injection H as <-.
Qed.

(** ** The operations *)

Section Fits.
(** The configured counts fit the machine's arithmetic. *)
Definition config_ok (config : Config) : Prop :=
  2 <= il_samples_per_entity (cf_limits config)
  /\ il_total_samples (cf_limits config) + il_samples_per_entity (cf_limits config) <= usize_max.

Lemma history_nil l : history_ok l (@nil (RemoteSample P)).
Proof. constructor; [constructor | unfold len; simpl; lia |]. intros s s' Hs. by apply not_elem_of_nil in Hs. Qed.

(** The sums with one track rewritten. *)
Lemma sums_update b key t :
  let old := rb_tracks b !! key in
  map_sum active_count (<[key := t]> (rb_tracks b)) + from_option active_count 0 old = active_count t + map_sum active_count (rb_tracks b)
  /\ map_sum (fun t => len (tr_samples t)) (<[key := t]> (rb_tracks b)) + from_option (fun t => len (tr_samples t)) 0 old
     = len (tr_samples t) + map_sum (fun t => len (tr_samples t)) (rb_tracks b)
  /\ map_sum track_bytes (<[key := t]> (rb_tracks b)) + from_option track_bytes 0 old = track_bytes t + map_sum track_bytes (rb_tracks b)
  /\ N.of_nat (size (<[key := t]> (rb_tracks b))) = N.of_nat (size (rb_tracks b)) + (if old then 0 else 1).
Proof.
  cbn zeta. split; [apply (map_sum_update active_count) |]. split; [apply (map_sum_update (fun t => len (tr_samples t))) |].
  split; [apply (map_sum_update track_bytes) |]. rewrite map_size_insert. unfold id. destruct (rb_tracks b !! key); lia.
Qed.

Definition stored s b b' : Prop :=
  exists t, rb_tracks b' !! index (scope_entity (ri_scope (sm_identity s))) = Some t /\ tr_identity t = sm_identity s
    /\ tr_retired t = false /\ s ∈ tr_samples t.

Lemma remote_receive_ok b s : config_ok (rb_config b) -> buffer_inv b ->
  exists b' r, receive b s policy = Some (b', r) /\ buffer_inv b' /\ same_limits b b' /\ buffer_next b b'
    /\ match r with Ok Inserted | Ok Discontinuity => stored s b b' | _ => b' = b end.
Proof.
  intros [H2 Hfits] Hb. unfold Interpolation.receive.
  assert (forall e : result Error Received, match e with Ok Inserted | Ok Discontinuity => False | _ => True end ->
            exists b' r, Some (b, e) = Some (b', r) /\ buffer_inv b' /\ same_limits b b' /\ buffer_next b b'
              /\ match r with Ok Inserted | Ok Discontinuity => stored s b b' | _ => b' = b end) as Hkeep.
  { intros e He. exists b, e. split_and!; try done. by destruct e as [[] |]. }
  destruct (validate_remote _ _) as [[] |] eqn:Hval; [| by apply Hkeep].
  destruct (deadline _ _) as [d |] eqn:Hd; [| by apply Hkeep]. destruct (pose_valid _ _) eqn:Hpose; simpl; [| by apply Hkeep].
  destruct (decide _) as [| Hheap]; [by apply Hkeep |]. set (key := index (scope_entity (ri_scope (sm_identity s)))).
  destruct (admit_identity _ _) as [changed |] eqn:Hadm; [| by apply Hkeep]. apply admit_identity_ok in Hadm.
  destruct (bool_decide (rb_tracks b !! key = None) && _) eqn:Hknown; [by apply Hkeep |].
  set (prior := match rb_tracks b !! key with Some t => if changed then [] else tr_samples t | None => [] end).
  assert (history_ok (cf_limits (rb_config b)) prior /\ Forall (sample_ok (rb_config b) (sm_identity s)) prior) as [Hprior Hall].
  { unfold prior. destruct (rb_tracks b !! key) as [t |] eqn:Ht; [| by split; [apply history_nil | constructor]].
    destruct changed; [by split; [apply history_nil | constructor] |]. destruct (bu_tracks b Hb key t Ht). destruct Hadm as [-> _]. done. }
  destruct (List.find _ prior) as [existing |] eqn:Hfind; [apply Hkeep; by destruct (sample_eq _ _) |].
  assert (forall x, x ∈ prior -> sm_tick x <> sm_tick s) as Hne.
  { intros x Hx Heq. apply list_elem_of_In in Hx. pose proof (find_none _ _ Hfind x Hx) as Hf. by apply bool_decide_eq_false in Hf. }
  pose proof (stage_samples_ok _ _ _ H2 Hprior Hne) as Hstage.
  destruct (stage_samples _ _ _) as [[samples |] |]; [| by apply Hkeep | done]. destruct Hstage as (Hhist & Hself & Hsub).
  set (t' := mkTrack (sm_identity s) false samples). destruct (sums_update b key t') as (Sa & Ss & Sb & Sk).
  destruct Hb as [Bk Ba Bs Bb Bkm Bsm Bbm Bt Bc]. rewrite <- Bk in Sk. rewrite <- Ba in Sa. rewrite <- Bs in Ss. rewrite <- Bb in Sb.
  assert (buffer_inv b) as Hb by (by constructor).
  assert (track_ok b key t') as Htrack.
  { constructor; try done; [intros Hnil; simpl in Hnil; subst; by apply not_elem_of_nil in Hself |]. simpl. apply Forall_forall.
    rewrite Forall_forall in Hall. intros x [-> | Hx]%Hsub; [| by apply Hall]. split_and!; try done; [congruence | lia]. }
  assert (forall old, rb_tracks b !! key = Some old -> track_next old t') as Hnext.
  { intros old Hold. rewrite Hold in Hadm. destruct changed; [right; done | left]. destruct Hadm as [Heq Hr]. split; [done | congruence]. }
  set (old_samples := match rb_tracks b !! key with Some t => tr_samples t | None => [] end).
  assert (len old_samples = from_option (fun t => len (tr_samples t)) 0 (rb_tracks b !! key)) as Hos by (unfold old_samples; by destruct (rb_tracks b !! key)).
  assert (len old_samples <= ac_samples (rb_accounting b)) as Hle.
  { rewrite Hos, Bs. destruct (rb_tracks b !! key) as [t |] eqn:Ht; simpl; [| lia]. rewrite (map_sum_delete _ _ _ _ Ht). lia. }
  unfold checked_sub at 1. rewrite decide_True by done. unfold checked_add at 1.
  rewrite decide_True by (pose proof (ho_count _ _ Hhist); simpl in Ss; lia).
  destruct (match checked_sub _ _ with Some _ => _ | None => _ end) as [bytes |] eqn:Hbytes; [| by apply Hkeep].
  destruct (decide _) as [| Hbudget]; [by apply Hkeep |]. eexists _, _. split; [done |].
  assert (bytes = map_sum track_bytes (<[key := t']> (rb_tracks b))) as Hbe.
  { destruct (checked_sub _ _) as [v1 |] eqn:H1 in Hbytes; [| done]. destruct (checked_add _ _ _) as [v2 |] eqn:H3 in Hbytes; [| done].
    apply checked_sub_Some in H1. apply checked_add_Some in H3. apply checked_add_Some in Hbytes. unfold track_bytes in Sb.
    destruct (rb_tracks b !! key) as [t |]; simpl in Sb, H1, Hbytes; unfold track_bytes in *; lia. }
  destruct (put_track_ok b key t'
    (mkAccounting (ac_known_entities (rb_accounting b) + (if rb_tracks b !! key then 0 else 1))
       (ac_active_entities (rb_accounting b) + (if match rb_tracks b !! key with Some t => tr_retired t | None => true end then 1 else 0))
       (ac_samples (rb_accounting b) - len old_samples + len samples) bytes) Hb Htrack) as (Hi & Hl & Hn); simpl; try done; try lia.
  - change (active_count t') with 1 in Sa. destruct (rb_tracks b !! key) as [t |]; simpl in Sa; [| lia].
    assert (active_count t = if tr_retired t then 0 else 1) by done. destruct (tr_retired t); lia.
  - change (tr_samples t') with samples in Ss. lia.
  - destruct (rb_tracks b !! key) as [t |] eqn:Ht; [lia |]. rewrite bool_decide_eq_true_2 in Hknown by done. simpl in Hknown.
    apply bool_decide_eq_false in Hknown. lia.
  - split_and!; try done. destruct (changed && _); exists t'; simpl; by rewrite lookup_insert_eq.
Qed.

Lemma exit_ok b scope : buffer_inv b ->
  exists b' r, exit_track b scope = Some (b', r) /\ buffer_inv b' /\ same_limits b b' /\ buffer_next b b'
    /\ match r with
       | Ok _ => exists t, rb_tracks b' !! index (scope_entity scope) = Some t /\ ri_scope (tr_identity t) = scope /\ tr_retired t = true
       | Err _ => b' = b
       end.
Proof.
  intros Hb. unfold Interpolation.exit_track. set (key := index (scope_entity scope)).
  destruct (rb_tracks b !! key) as [t |] eqn:Ht; [| by exists b, (Err Stale)].
  destruct (decide _) as [| Hs]; [by exists b, (Err Stale) |]. apply dec_stable in Hs.
  destruct (tr_retired t) eqn:Hr; [exists b, (Ok tt); split_and!; try done; by exists t |].
  destruct (bu_tracks b Hb key t Ht) as [Tk Tv Tl Th Ts]. set (t' := mkTrack (tr_identity t) true []).
  destruct (sums_update b key t') as (Sa & Ss & Sb & Sk). rewrite Ht in Sa, Ss, Sb, Sk. simpl in Sa, Ss, Sb, Sk.
  assert (active_count t = 1) as Hac by (unfold active_count; by rewrite Hr). change (active_count t') with 0 in Sa.
  assert (track_bytes t' = track_charge size_track) as Hbt by apply N.add_0_r.
  rewrite Hbt in Sb. unfold track_bytes in Sb at 2. change (len []) with 0 in Ss.
  pose proof (map_sum_delete track_bytes _ _ _ Ht) as Hdel. unfold track_bytes in Hdel at 2.
  pose proof (map_sum_delete (fun t => len (tr_samples t)) _ _ _ Ht) as Hdel2. simpl in Hdel2.
  pose proof (map_sum_delete active_count _ _ _ Ht) as Hdel3.
  pose proof Hb as [Bk Ba Bs Bb Bkm Bsm Bbm Bt Bc].
  unfold checked_sub. rewrite !decide_True by lia. eexists _, _. split; [done |].
  assert (track_ok b key t') as Htrack by (constructor; try done; apply history_nil).
  destruct (put_track_ok b key t'
    (mkAccounting (ac_known_entities (rb_accounting b)) (ac_active_entities (rb_accounting b) - 1)
       (ac_samples (rb_accounting b) - len (tr_samples t)) (ac_retained_bytes (rb_accounting b) - charge (tr_samples t))) Hb Htrack)
    as (Hi & Hl & Hn); simpl; try lia.
  - intros old Hold. left. split; [| done]. rewrite Ht in Hold. by injection Hold as <-.
  - split_and!; try done. exists t'. simpl. by rewrite lookup_insert_eq.
Qed.

Lemma advance_ok b now : buffer_inv b ->
  let b' := (remote_advance b now).1 in buffer_inv b' /\ same_limits b b' /\ buffer_next b b'.
Proof.
  intros [Bk Ba Bs Bb Bkm Bsm Bbm Bt Bc]. unfold remote_advance, cursor_advance. cbn zeta. simpl.
  split; [| split; [done |]].
  - constructor; simpl; try done. intros key t Ht. by destruct (Bt key t Ht).
  - split; [intros key t Ht; exists t; split; [done | apply track_next_refl] |]. simpl. rewrite Bc. destruct (cursor_last _); simpl; lia.
Qed.

Lemma set_delay_ok b d : buffer_inv b -> buffer_inv (set_delay b d) /\ same_limits b (set_delay b d) /\ buffer_next b (set_delay b d).
Proof.
  intros [Bk Ba Bs Bb Bkm Bsm Bbm Bt Bc]. split; [| split; [done |]].
  - constructor; simpl; try done. intros key t Ht. by destruct (Bt key t Ht).
  - split; [intros key t Ht; exists t; split; [done | apply track_next_refl] | simpl; lia].
Qed.

(** ** Runs *)

Inductive remote_action :=
| Receive (s : RemoteSample P)
| Exit (scope : ScopeIdentity)
| Advance (estimated_server_now : Duration)
| SetDelay (delay : Duration).

Definition remote_step b (act : remote_action) : option (RemoteBuffer P) :=
  match act with
  | Receive s => match receive b s policy with Some (b, _) => Some b | None => None end
  | Exit scope => match exit_track b scope with Some (b, _) => Some b | None => None end
  | Advance now => Some (remote_advance b now).1
  | SetDelay delay => Some (set_delay b delay)
  end.

Fixpoint remote_run b (acts : list remote_action) : option (RemoteBuffer P) :=
  match acts with
  | [] => Some b
  | act :: acts => match remote_step b act with Some b => remote_run b acts | None => None end
  end.

Lemma same_limits_refl b : same_limits b b.
Proof. done. Qed.
Lemma same_limits_trans b1 b2 b3 : same_limits b1 b2 -> same_limits b2 b3 -> same_limits b1 b3.
Proof. unfold same_limits. intuition congruence. Qed.
Lemma same_limits_config b b' : same_limits b b' -> config_ok (rb_config b) -> config_ok (rb_config b').
Proof. unfold same_limits, config_ok. intros (_ & -> & _) H. done. Qed.

Lemma remote_step_ok b act : config_ok (rb_config b) -> buffer_inv b ->
  exists b', remote_step b act = Some b' /\ buffer_inv b' /\ same_limits b b' /\ buffer_next b b'.
Proof.
  intros Hc Hb. destruct act as [s | scope | now | d]; simpl.
  - destruct (remote_receive_ok b s Hc Hb) as (b' & r & -> & ? & ? & ? & _). eauto.
  - destruct (exit_ok b scope Hb) as (b' & r & -> & ? & ? & ? & _). eauto.
  - destruct (advance_ok b now Hb) as (? & ? & ?). eauto.
  - destruct (set_delay_ok b d Hb) as (? & ? & ?). eauto.
Qed.

Lemma remote_run_ok acts : forall b, config_ok (rb_config b) -> buffer_inv b ->
  exists b', remote_run b acts = Some b' /\ buffer_inv b' /\ same_limits b b' /\ buffer_next b b'.
Proof.
  induction acts as [| act acts IH]; intros b Hc Hb; simpl; [exists b; split_and!; (done || reflexivity) |].
  destruct (remote_step_ok b act Hc Hb) as (b1 & -> & Hb1 & Hs1 & Hn1).
  destruct (IH b1 (same_limits_config _ _ Hs1 Hc) Hb1) as (b2 & Hr & Hb2 & Hs2 & Hn2).
  exists b2. split_and!; [done | done | by eapply same_limits_trans | by etransitivity].
Qed.

Lemma RemoteBuffer_new_ok connection config b : RemoteBuffer_new size_track connection config = Ok b ->
  buffer_inv b /\ rb_connection b = connection /\ rb_config b = config /\ 2 <= il_samples_per_entity (cf_limits config)
  /\ cf_extrapolation_cap config <= millis 100.
Proof.
  unfold RemoteBuffer_new. intros H. destruct (decide _) in H; [done |]. destruct (decide _) as [| Hc] in H; [done |]. injection H as <-.
  split; [| simpl; split_and!; (done || lia)].
  constructor; simpl; rewrite ?map_sum_empty, ?map_size_empty; try done; lia.
Qed.

(** ** Accounts and histories *)

(** Called with anything in any order a remote buffer does not panic; its counts and bytes are
    exactly those of the tracks it keeps and within the limits; and every history is in strictly
    increasing ticks, of one identity of this connection, no longer than allowed in samples or in
    ticks, of valid poses, and gone once the scope was left. *)
Theorem remote_buffer_bounded connection config b acts :
  RemoteBuffer_new size_track connection config = Ok b ->
  il_total_samples (cf_limits config) + il_samples_per_entity (cf_limits config) <= usize_max ->
  exists b', remote_run b acts = Some b'
  /\ (let a := rb_accounting b' in let l := cf_limits config in
      ac_known_entities a = N.of_nat (size (rb_tracks b')) /\ ac_known_entities a <= il_known_entities l
      /\ ac_active_entities a = map_sum active_count (rb_tracks b')
      /\ ac_samples a = map_sum (fun t => len (tr_samples t)) (rb_tracks b') /\ ac_samples a <= il_total_samples l
      /\ ac_retained_bytes a = map_sum track_bytes (rb_tracks b') /\ ac_retained_bytes a <= il_retained_bytes l)
  /\ forall key t, rb_tracks b' !! key = Some t ->
      validate_remote (tr_identity t) connection = Ok tt /\ (tr_samples t = [] <-> tr_retired t = true)
      /\ len (tr_samples t) <= il_samples_per_entity (cf_limits config)
      /\ StronglySorted earlier_sample (tr_samples t)
      /\ (forall s s', s ∈ tr_samples t -> s' ∈ tr_samples t -> sm_tick s' <= sm_tick s + il_history_ticks (cf_limits config))
      /\ forall s, s ∈ tr_samples t -> sm_identity s = tr_identity t /\ pose_valid policy (sm_value s) = true
           /\ retained_bytes (sm_value s) <= il_sample_heap_bytes (cf_limits config).
Proof.
  intros (Hb & Hconn & Hcfg & H2 & _)%RemoteBuffer_new_ok Hfits. subst.
  destruct (remote_run_ok acts b (conj H2 Hfits) Hb) as (b' & Hrun & Hb' & (Hc & Hl & _) & _).
  exists b'. split; [done |]. rewrite <- Hl. destruct Hb' as [Bk Ba Bs Bb Bkm Bsm Bbm Bt Bc].
  split; [split_and!; done |]. intros key t Ht. destruct (Bt key t Ht) as [Tk Tv Tl [Hs Hcnt Hspan] Ts].
  rewrite Hc in Tv. split_and!; try done.
  - destruct (tr_retired t); [by split | by split].
  - intros s Hin. rewrite Forall_forall in Ts. destruct (Ts s Hin) as (? & _ & ? & ?). done.
Qed.

(** ** No way back *)

Lemma scope_after_irrefl x : ~ scope_after x x.
Proof. unfold scope_after. lia. Qed.

(** A track that has passed a scope. *)
Definition left_behind (scope : ScopeIdentity) t : Prop :=
  (ri_scope (tr_identity t) = scope /\ tr_retired t = true) \/ scope_after (ri_scope (tr_identity t)) scope.

Lemma left_behind_next scope t t' : left_behind scope t -> track_next t t' -> left_behind scope t'.
Proof.
  intros Hl [[E R] | [N R]].
  - unfold left_behind. rewrite E. destruct Hl as [[Hs Hr] |]; [left; auto | by right].
  - destruct Hl as [[Hs Hr] | Ha]; right; [rewrite <- Hs; auto |].
    destruct (newer_scope _ _ N) as [Hb | [Hg He]]; [by eapply scope_after_trans |]. unfold scope_after in *. lia.
Qed.

Lemma left_behind_refused scope t identity changed : left_behind scope t -> ri_scope identity = scope ->
  admit_identity identity (Some t) <> Ok changed.
Proof.
  intros Hl Hi Ha. apply admit_identity_ok in Ha. destruct changed.
  - destruct Ha as [Hn Hr]. rewrite Hi in *. destruct Hl as [[Hs Hret] | Haft].
    + specialize (Hr Hret). rewrite Hs in Hr. by apply scope_after_irrefl in Hr.
    + destruct (newer_scope _ _ Hn) as [Hb | [Hg He]]; rewrite Hi in *; unfold scope_after in *; lia.
  - destruct Ha as [Heq Hr]. rewrite Heq in Hi. destruct Hl as [[_ Hret] | Haft]; [congruence |].
    rewrite Hi in Haft. by apply scope_after_irrefl in Haft.
Qed.

(** Presentation does not go back: the cursor never falls, and a scope that was left stays
    left, whatever arrives later: it has no latest sample and nothing to present, and a late
    sample of it is refused and changes nothing. *)
Theorem remote_scopes_stay_left connection config b acts b1 scope b2 later b3 :
  RemoteBuffer_new size_track connection config = Ok b ->
  il_total_samples (cf_limits config) + il_samples_per_entity (cf_limits config) <= usize_max ->
  remote_run b acts = Some b1 -> exit_track b1 scope = Some (b2, Ok tt) -> remote_run b2 later = Some b3 ->
  rb_at b1 <= rb_at b3 /\ latest b3 scope = None /\ sample b3 scope policy = Some (Ok None)
  /\ forall s, ri_scope (sm_identity s) = scope -> exists e, receive b3 s policy = Some (b3, Err e).
Proof.
  intros (Hb & Hconn & Hcfg & H2 & _)%RemoteBuffer_new_ok Hfits Hrun1 Hexit Hrun2. subst.
  destruct (remote_run_ok acts b (conj H2 Hfits) Hb) as (x & Hx & Hb1 & Hs1 & _). assert (x = b1) as -> by congruence.
  pose proof (same_limits_config _ _ Hs1 (conj H2 Hfits)) as Hc1.
  destruct (exit_ok b1 scope Hb1) as (y & r & Hy & Hb2 & Hs2 & Hn2 & Hr). rewrite Hexit in Hy. injection Hy as <- <-.
  destruct Hr as (t & Ht & Hts & Hret). pose proof (same_limits_config _ _ Hs2 Hc1) as Hc2.
  destruct (remote_run_ok later b2 Hc2 Hb2) as (z & Hz & Hb3 & Hs3 & Hn3). assert (z = b3) as -> by congruence.
  pose proof (same_limits_config _ _ Hs3 Hc2) as Hc3.
  destruct (proj1 Hn3 _ _ Ht) as (t3 & Ht3 & Hnext).
  assert (left_behind scope t3) as Hleft by (eapply left_behind_next; [by left | done]).
  assert (tr_retired t3 = true \/ ri_scope (tr_identity t3) <> scope) as Hgone.
  { destruct Hleft as [[_ ?] | Ha]; [by left | right]. intros Heq. rewrite Heq in Ha. by apply scope_after_irrefl in Ha. }
  destruct Hn2 as [_ [At2 _]]. destruct Hn3 as [_ [At3 _]]. split; [lia |]. unfold latest, sample. rewrite Ht3. split_and!.
  - destruct Hgone as [-> | Hne]; [done |]. rewrite (bool_decide_eq_false_2 _ Hne). by rewrite andb_false_r.
  - destruct Hgone as [-> | Hne]; [done |]. rewrite (bool_decide_eq_true_2 _ Hne). by rewrite orb_true_r.
  - intros s Hsc. unfold Interpolation.receive. destruct (validate_remote _ _); [| by eexists]. destruct (deadline _ _); [| by eexists].
    destruct (negb _); [by eexists |]. destruct (decide _); [by eexists |]. rewrite Hsc, Ht3.
    destruct (admit_identity _ _) as [changed |] eqn:Hadm; [| by eexists]. by apply (left_behind_refused scope) in Hadm.
Qed.
End Fits.
End Buffer.
