(* ===== verification/InterpolationPose.v ===== *)
(** * Presented poses

    The pose a remote buffer gives at its cursor, against a specification by the deadlines of
    the samples around it; the blend factor is a number between zero and one. *)

From S2P Require Import Prelude Types Floats FloatFacts Payload Replication Synchronization Interpolation InterpolationProps.
Local Open Scope N_scope.
Local Open Scope engine_scope.

(** ** The blend factor *)

Lemma as_secs_zero : as_secs_f64 0 = f64_zero.
Proof. vm_compute. reflexivity. Qed.

Lemma as_secs_within d : 0 < d -> d <= duration_max -> within (-30) 67 (as_secs_f64 d).
Proof.
  intros Hd Hmax. unfold as_secs_f64. set (s := d / nanos_per_sec). set (r := d mod nanos_per_sec).
  assert (d = nanos_per_sec * s + r) as Heq by apply N.Div0.div_mod. assert (r < nanos_per_sec) as Hr by (by apply N.mod_lt).
  assert (s <= u64_max) as Hs.
  { unfold duration_max, nanos_per_sec, u64_max in *. nia. }
  assert (within 1 31 (f64_of_Z 1000000000)) as Hbase by (by apply (of_Z_within _ 30)).
  assert (r <> 0 -> within (-30) 32 (f64_div (f64_of_Z (Z.of_N r)) (f64_of_Z 1000000000))) as Hfrac.
  { intros Hr0. apply (div_within 1 31 1 31); try done. apply (of_Z_within _ 30); [lia | | done].
    unfold nanos_per_sec in Hr. change (2 ^ 30)%Z with 1073741824%Z. lia. }
  assert (s <> 0 -> within 1 65 (f64_of_Z (Z.of_N s))) as Hsec.
  { intros Hs0. apply (of_Z_within _ 64); [lia | | done]. unfold u64_max in Hs. change (2 ^ 64)%Z with 18446744073709551616%Z. lia. }
  destruct (decide (s = 0)) as [-> | Hs0], (decide (r = 0)) as [-> | Hr0].
  - unfold nanos_per_sec in *. lia.
  - change (f64_of_Z (Z.of_N 0)) with f64_zero. destruct (Hfrac Hr0) as (m & e & -> & H1 & H2).
    exists m, e. split_and!; (done || lia).
  - change (f64_div (f64_of_Z (Z.of_N 0)) (f64_of_Z 1000000000)) with f64_zero. destruct (Hsec Hs0) as (m & e & -> & H1 & H2).
    exists m, e. split_and!; (done || lia).
  - apply (add_within 1 65 (-30) 32); auto; lia.
Qed.

(** A factor that is a number in the unit interval. *)
Definition unit_factor (alpha : spec_float) : Prop := SFleb f64_zero alpha = true /\ SFleb alpha f32_one = true.

Lemma blend_ok at_time start stop :
  start <= at_time -> at_time < stop -> stop <= duration_max ->
  exists alpha, blend at_time start stop = Some alpha /\ unit_factor alpha /\ (SFeqb alpha f64_zero = true <-> at_time = start).
Proof.
  intros H1 H2 H3. unfold blend, checked_sub, saturating_sub. rewrite decide_True by lia. eexists. split; [done |].
  assert (within (-30) 67 (as_secs_f64 (stop - start))) as Hden by (apply as_secs_within; lia).
  destruct (decide (at_time = start)) as [-> | Hne].
  - rewrite N.sub_diag, as_secs_zero. destruct Hden as (m & e & -> & _ & _). by split; [| done].
  - assert (within (-30) 67 (as_secs_f64 (at_time - start))) as Hnum by (apply as_secs_within; lia).
    assert (within (-97) 99 (f64_div (as_secs_f64 (at_time - start)) (as_secs_f64 (stop - start)))) as Hq
      by (apply (div_within (-30) 67 (-30) 67); done).
    apply clamp_unit in Hq. fold f64_one. set (y := f64_clamp _ _ _) in *.
    destruct (f32_unit y (-97)) as [Hpos Hle]; [done | done |]. unfold unit_factor, SFleb, SFeqb, SFltb in *.
    destruct (SFcompare f64_zero (f32_of_f64 y)) as [[] |] eqn:Hc; try done. split; [done |]. split; [| done].
    destruct (f32_of_f64 y) as [[] | [] | | []]; done.
Qed.

(** ** What may be shown *)

Section Pose.
Context {P : Type} `{PP : !Payload P}.
Context (config : Config) (policy : PosePolicy P).
Implicit Types (s : RemoteSample P).

(** The deadline of a sample's tick. *)
Definition due s : Duration := default 0 (deadline (cf_rate config) (sm_tick s)).

Inductive shown (at_time : Duration) (samples : list (RemoteSample P)) : Status -> P -> Duration -> Prop :=
| shown_buffering first rest :
    samples = first :: rest -> at_time < due first -> shown at_time samples Buffering (sm_value first) (due first)
| shown_sampled s : s ∈ samples -> at_time = due s -> shown at_time samples Sampled (sm_value s) at_time
| shown_interpolated i earlier later alpha value :
    samples !! i = Some earlier -> samples !! S i = Some later -> due earlier < at_time < due later ->
    blend at_time (due earlier) (due later) = Some alpha -> unit_factor alpha ->
    interpolate policy (sm_value earlier) (sm_value later) alpha = Some value ->
    shown at_time samples Interpolated value at_time
| shown_held i earlier later alpha :
    samples !! i = Some earlier -> samples !! S i = Some later -> due earlier < at_time < due later ->
    unit_factor alpha -> interpolate policy (sm_value earlier) (sm_value later) alpha = None ->
    shown at_time samples (Frozen Policy) (sm_value earlier) (due earlier)
| shown_projected newest value :
    samples = [newest] -> due newest < at_time ->
    project_latest policy (sm_value newest) (N.min (at_time - due newest) (cf_extrapolation_cap config)) = Some value ->
    shown at_time samples (limited (at_time - due newest) (cf_extrapolation_cap config)) value
      (due newest + N.min (at_time - due newest) (cf_extrapolation_cap config))
| shown_alone newest :
    samples = [newest] -> due newest < at_time ->
    shown at_time samples (Frozen InsufficientHistory) (sm_value newest) (due newest)
| shown_stopped older newest :
    samples = older ++ [newest] -> older <> [] -> due newest < at_time -> cf_extrapolation_cap config = 0 ->
    shown at_time samples (Frozen ExtrapolationLimit) (sm_value newest) (due newest)
| shown_extrapolated older previous newest value :
    samples = older ++ [previous; newest] -> due previous < due newest < at_time ->
    extrapolate policy (sm_value previous) (sm_value newest) (due newest - due previous)
      (N.min (at_time - due newest) (cf_extrapolation_cap config)) = Some value ->
    shown at_time samples (limited (at_time - due newest) (cf_extrapolation_cap config)) value
      (due newest + N.min (at_time - due newest) (cf_extrapolation_cap config))
| shown_declined older previous newest :
    samples = older ++ [previous; newest] -> due newest < at_time ->
    shown at_time samples (Frozen Policy) (sm_value newest) (due newest).

Context (Hrate : valid_rate (cf_rate config)).

Definition dated s : Prop := deadline (cf_rate config) (sm_tick s) <> None.

Lemma dated_due s : dated s -> deadline (cf_rate config) (sm_tick s) = Some (due s).
Proof. unfold dated, due. by destruct (deadline _ _). Qed.

Lemma due_max s : dated s -> due s <= duration_max.
Proof. intros Hd%dated_due. by apply deadline_eq in Hd as [_ ?]. Qed.

Lemma due_mono s s' : dated s -> dated s' -> sm_tick s < sm_tick s' -> due s < due s'.
Proof.
  intros Hs%dated_due Hs'%dated_due Hlt. apply deadline_eq in Hs as [-> _]. apply deadline_eq in Hs' as [-> _].
  destruct (N.lt_ge_cases (div_ceil (sm_tick s * nanos_per_sec) (hz (cf_rate config)))
              (div_ceil (sm_tick s' * nanos_per_sec) (hz (cf_rate config)))) as [| Hge]; [done |]. exfalso.
  pose proof (elapsed_of_deadline _ (sm_tick s) Hrate) as E1. pose proof (elapsed_of_deadline _ (sm_tick s') Hrate) as E2.
  assert (sm_tick s' <= sm_tick s); [| lia]. rewrite <- E1, <- E2 at 1. apply N.Div0.div_le_mono. nia.
Qed.

(** The samples whose deadline was reached are those up to the cursor. *)
Lemma reached_prefix at_time samples : StronglySorted earlier_sample samples -> Forall dated samples ->
  let upper := length (take_while (reached (cf_rate config) at_time) samples) in
  (upper <= length samples)%nat
  /\ (forall i s, samples !! i = Some s -> (i < upper)%nat <-> due s <= at_time).
Proof.
  intros Hs Hd. cbn zeta. induction Hs as [| x l Hl IH Hx]; simpl; [split; [lia | by intros i s Hi] |].
  apply Forall_cons in Hd as [Hdx Hdl]. destruct (IH Hdl) as [IH1 IH2]. unfold reached at 1 3. rewrite (dated_due x Hdx).
  rewrite Forall_forall in Hx. rewrite Forall_forall in Hdl.
  destruct (bool_decide (due x <= at_time)) eqn:Hb; simpl.
  - apply bool_decide_eq_true in Hb. split; [lia |]. intros [| i] s Hi; simpl in Hi.
    + injection Hi as <-. split; [done | lia].
    + rewrite <- (IH2 i s Hi). lia.
  - apply bool_decide_eq_false in Hb. split; [lia |]. intros i s Hi. split; [lia |]. intros Hle. exfalso.
    destruct i as [| i]; simpl in Hi; [injection Hi as <-; lia |]. apply list_elem_of_lookup_2 in Hi.
    pose proof (due_mono x s Hdx (Hdl s Hi) (Hx s Hi)). lia.
Qed.

Lemma shown_after_between at_time earlier later samples i :
  samples !! i = Some earlier -> samples !! S i = Some later -> dated earlier -> dated later ->
  due earlier <= at_time -> at_time < due later ->
  exists value status time, between (cf_rate config) policy at_time earlier later = Some (Ok (value, status, time))
    /\ shown at_time samples status value time.
Proof.
  intros Hi Hj He Hl Hle Hlt. unfold between. rewrite (dated_due _ He), (dated_due _ Hl).
  destruct (blend_ok at_time (due earlier) (due later) Hle Hlt (due_max _ Hl)) as (alpha & Hb & Hu & Hz). rewrite Hb.
  destruct (SFeqb alpha f64_zero) eqn:Hq.
  - pose proof (proj1 Hz eq_refl) as Heq. eexists _, _, _. split; [done |]. apply shown_sampled; [by eapply list_elem_of_lookup_2 | done].
  - assert (due earlier < at_time) as Hstrict.
    { destruct (N.eq_dec at_time (due earlier)) as [Heq |]; [| lia]. discriminate (proj2 Hz Heq). }
    destruct (interpolate policy _ _ alpha) as [value |] eqn:Hv; eexists _, _, _; (split; [done |]).
    + by apply (shown_interpolated _ _ i earlier later alpha); try done; lia.
    + by apply (shown_held _ _ i earlier later alpha); try done; lia.
Qed.

Lemma shown_after_beyond at_time samples newest :
  last samples = Some newest -> StronglySorted earlier_sample samples -> Forall dated samples -> due newest <= at_time ->
  exists r, beyond config policy at_time samples newest = Some r
    /\ match r with
       | Ok (value, status, time) => shown at_time samples status value time
       | Err e => e = TimeRange
       end.
Proof.
  intros Hlast Hs Hd Hle. apply last_Some in Hlast as [older ->]. apply Forall_app in Hd as [Hd [Hn _]%Forall_cons].
  unfold beyond, pose_at, saturating_sub. rewrite (dated_due _ Hn). set (cap := cf_extrapolation_cap config).
  destruct (decide (at_time - due newest = 0)) as [H0 | H0].
  { eexists. split; [done |]. simpl. apply shown_sampled; [apply elem_of_app; right; by left | lia]. }
  rewrite len_app. change (len [newest]) with 1. destruct (decide (len older + 1 < 2)) as [Hshort | Hlong].
  - assert (older = []) as -> by (destruct older; [done | rewrite len_cons in Hshort; lia]).
    destruct (project_latest _ _ _) as [value |] eqn:Hv.
    + eexists. split; [done |]. destruct (checked_add _ _ _) as [time |] eqn:Ht; [| done]. apply checked_add_Some in Ht as [-> _].
      cbn [ok_or]. apply (shown_projected _ _ newest); [done | lia | done].
    + eexists. split; [done |]. simpl. apply shown_alone; [done | lia].
  - assert (older <> []) as Hne by (intros ->; unfold len in Hlong; simpl in Hlong; lia).
    destruct (decide (cap = 0)) as [Hcap | Hcap].
    { eexists. split; [done |]. simpl. apply (shown_stopped _ _ older newest); try done. lia. }
    destruct (exists_last Hne) as (older' & previous & ->). rewrite <- app_assoc. change ([previous] ++ [newest]) with [previous; newest].
    rewrite length_app. simpl length. replace (length older' + 2 - 2)%nat with (length older') by lia.
    rewrite lookup_app_r, Nat.sub_diag by lia. cbn [lookup list_lookup].
    apply Forall_app in Hd as [_ [Hp _]%Forall_cons]. rewrite (dated_due _ Hp).
    assert (due previous < due newest) as Hlt.
    { apply due_mono; [done | done |]. rewrite <- app_assoc in Hs. apply (StronglySorted_positions _ _ (length older') (S (length older')) _ _ Hs); [lia | |].
      - by rewrite lookup_app_r, Nat.sub_diag by lia.
      - rewrite lookup_app_r by lia. by replace (S (length older') - length older')%nat with 1%nat by lia. }
    unfold checked_sub. rewrite decide_True by lia. eexists. split; [done |].
    destruct (checked_add _ _ _) as [time |] eqn:Ht; [| done]. apply checked_add_Some in Ht as [-> _]. cbn [ok_or].
    destruct (extrapolate _ _ _ _ _) as [value |] eqn:Hv.
    + apply (shown_extrapolated _ _ older' previous newest); [done | lia | done].
    + apply (shown_declined _ _ older' previous newest); [done | lia].
Qed.

Lemma choose_pose_ok at_time samples first rest newest :
  samples = first :: rest -> last samples = Some newest -> StronglySorted earlier_sample samples -> Forall dated samples ->
  exists r, choose_pose config policy at_time samples first newest = Some r
    /\ match r with
       | Ok (value, status, time) => shown at_time samples status value time
       | Err e => e = TimeRange
       end.
Proof.
  intros Hfirst Hlast Hs Hd. unfold choose_pose.
  assert (dated first) as Hdf by (rewrite Hfirst in Hd; by apply Forall_cons in Hd as [? _]). rewrite (dated_due _ Hdf).
  destruct (decide (at_time < due first)) as [Hlt | Hge].
  { eexists. split; [done |]. simpl. by eapply shown_buffering. }
  destruct (reached_prefix at_time samples Hs Hd) as [Hup Hpre]. set (upper := length (take_while _ samples)) in *.
  assert (0 < upper)%nat as Hpos by (apply (Hpre 0%nat first); [by rewrite Hfirst | lia]).
  destruct (decide (upper < length samples)%nat) as [Hin | Hout].
  - destruct upper as [| before]; [lia |].
    destruct (lookup_lt_is_Some_2 samples before ltac:(lia)) as [earlier He]. destruct (lookup_lt_is_Some_2 samples (S before) Hin) as [later Hl].
    rewrite He, Hl. rewrite Forall_forall in Hd.
    assert (due earlier <= at_time) as H1 by (apply (Hpre before earlier He); lia).
    assert (at_time < due later) as H2.
    { destruct (N.lt_ge_cases at_time (due later)) as [| Hle]; [done |]. apply (Hpre (S before) later Hl) in Hle. lia. }
    destruct (shown_after_between at_time earlier later samples before) as (v & st & tm & -> & Hshow); try done.
    + apply Hd. by eapply list_elem_of_lookup_2.
    + apply Hd. by eapply list_elem_of_lookup_2.
    + by eexists.
  - apply shown_after_beyond; try done. rewrite last_lookup in Hlast. apply (Hpre _ _ Hlast).
    rewrite Hfirst in *. simpl in *. lia.
Qed.

(** Nothing shown stands for a time past the newest evidence by more than the cap. *)
Lemma shown_time at_time samples newest status value time :
  shown at_time samples status value time -> last samples = Some newest -> StronglySorted earlier_sample samples -> Forall dated samples ->
  time <= due newest + cf_extrapolation_cap config
  /\ (time <= at_time \/ status = Buffering).
Proof.
  intros Hshow Hlast Hs Hd.
  assert (forall s, s ∈ samples -> due s <= due newest) as Hmax.
  { intros s Hin. destruct (sorted_last _ _ _ _ Hs Hlast Hin) as [-> | Hlt]; [done |]. rewrite Forall_forall in Hd.
    apply N.lt_le_incl, due_mono; [by apply Hd | | done]. apply Hd. rewrite last_lookup in Hlast. by eapply list_elem_of_lookup_2. }
  assert (forall l x, samples = l ++ [x] -> x = newest) as Hx by (intros l x ->; rewrite last_snoc in Hlast; by injection Hlast).
  destruct Hshow as [first rest -> Hlt | s Hin -> | i e l alpha v Hi Hj Hb _ _ _ | i e l alpha Hi Hj Hb _ _ | n v -> Hlt _ | n -> Hlt
                    | older n -> _ Hlt _ | older p n v -> Hlt _ | older p n -> Hlt].
  - split; [| by right]. specialize (Hmax first ltac:(by left)). lia.
  - split; [| by left]. specialize (Hmax s Hin). lia.
  - split; [| by left]. specialize (Hmax l (list_elem_of_lookup_2 _ _ _ Hj)). lia.
  - split; [| left; lia]. specialize (Hmax e (list_elem_of_lookup_2 _ _ _ Hi)). lia.
  - pose proof (Hx [] n eq_refl) as ->. split; [lia | left; lia].
  - pose proof (Hx [] n eq_refl) as ->. split; [lia | left; lia].
  - pose proof (Hx older n eq_refl) as ->. split; [lia | left; lia].
  - pose proof (Hx (older ++ [p]) n ltac:(by rewrite <- app_assoc)) as ->. split; [lia | left; lia].
  - pose proof (Hx (older ++ [p]) n ltac:(by rewrite <- app_assoc)) as ->. split; [lia | left; lia].
Qed.
End Pose.

(** ** Presentation *)

Section Present.
Context (size_sample size_track : N).
Context {P : Type} `{PP : !Payload P}.
Context (policy : PosePolicy P).

(** C23 In any run a buffer presents without panicking: nothing exactly when the scope has no
    sample; otherwise the identity of the scope and a valid pose that the samples around the
    cursor justify, interpolated only between neighbours on both sides with a factor between
    zero and one, and extrapolated only past the newest sample and never beyond the cap; the
    time it stands for is never ahead of the cursor except while the first sample is awaited.
    An error is an invalid computed pose or a time beyond the range of durations. *)
Theorem presented_within_evidence connection config b acts b' scope :
  RemoteBuffer_new size_track connection config = Ok b ->
  il_total_samples (cf_limits config) + il_samples_per_entity (cf_limits config) <= usize_max ->
  valid_rate (cf_rate config) -> remote_run size_sample size_track policy b acts = Some b' ->
  exists r, sample b' scope policy = Some r
  /\ (r = Ok None <-> latest b' scope = None)
  /\ (forall p, r = Ok (Some p) -> exists t newest,
        rb_tracks b' !! index (scope_entity scope) = Some t /\ last (tr_samples t) = Some newest
        /\ pr_identity p = tr_identity t /\ ri_scope (tr_identity t) = scope /\ pr_newest_tick p = sm_tick newest
        /\ pr_cursor p = rb_at b' /\ pr_total_age p = rb_estimated_now b' - pr_pose_time p
        /\ shown config policy (rb_at b') (tr_samples t) (pr_status p) (pr_value p) (pr_pose_time p)
        /\ pose_valid policy (pr_value p) = true
        /\ pr_pose_time p <= due config newest + millis 100
        /\ (pr_pose_time p <= rb_at b' \/ pr_status p = Buffering))
  /\ (forall e, r = Err e -> e = InvalidPayload \/ e = TimeRange).
Proof.
  intros (Hb & Hconn & Hcfg & H2 & Hcap)%(RemoteBuffer_new_ok size_sample size_track policy) Hfits Hrate Hrun. subst.
  destruct (remote_run_ok size_sample size_track policy acts b (conj H2 Hfits) Hb) as (x & Hx & Hb' & (_ & Hl & Hr & Hc) & _).
  assert (x = b') as -> by congruence. unfold sample, latest.
  destruct (rb_tracks b' !! index (scope_entity scope)) as [t |] eqn:Ht; [| by eexists; split_and!].
  destruct (bu_tracks _ _ _ _ Hb' _ _ Ht) as [_ _ Tl [Hs _ _] Ts].
  destruct (tr_retired t) eqn:Hret; simpl; [by eexists; split_and! |].
  destruct (bool_decide (ri_scope (tr_identity t) <> scope)) eqn:Hsc.
  { apply bool_decide_eq_true in Hsc. rewrite bool_decide_eq_false_2 by done. by eexists; split_and!. }
  apply bool_decide_eq_false, dec_stable in Hsc. rewrite bool_decide_eq_true_2 by done.
  destruct (tr_samples t) as [| first rest] eqn:Hsamples; [done |]. rewrite <- Hsamples in *.
  assert (exists newest, last (tr_samples t) = Some newest) as [newest Hlast].
  { rewrite Hsamples. apply last_is_Some. done. }
  rewrite Hlast.
  assert (Forall (dated (rb_config b)) (tr_samples t)) as Hd.
  { eapply Forall_impl; [done |]. intros s (_ & Hdl & _). unfold dated. by rewrite <- Hr. }
  assert (choose_pose (rb_config b') policy (rb_at b') (tr_samples t) first newest
          = choose_pose (rb_config b) policy (rb_at b') (tr_samples t) first newest) as ->.
  { unfold choose_pose, beyond. by rewrite Hr, Hc. }
  destruct (choose_pose_ok (rb_config b) policy Hrate (rb_at b') (tr_samples t) first rest newest Hsamples Hlast Hs Hd) as (r & Hpose & Hshow).
  rewrite Hpose. destruct r as [[[value status] time] | e].
  - destruct (pose_valid policy value) eqn:Hv; simpl; eexists; (split; [done |]); split_and!; try done.
    + intros p [= <-]. exists t, newest. simpl. destruct (shown_time _ _ Hrate _ _ _ _ _ _ Hshow Hlast Hs Hd) as [Ht1 Ht2].
      split_and!; try done. lia.
    + intros e [= <-]. by left.
  - eexists. split; [done |]. split_and!; try done. intros e' [= <-]. right. done.
Qed.
End Present.

(** ** Witnesses *)

Module RemoteDemo.
Definition policy : PosePolicy (list Byte.byte) :=
  mkPosePolicy (fun _ => true) (fun a b _ => Some (a ++ b)) (fun _ _ => None) (fun _ b _ _ => Some b).
Definition scope (epoch : N) : ScopeIdentity := mkScopeIdentity 4 (mkEntityId 1 1) epoch 7.
Definition at_tick (tick : N) (value : list Byte.byte) : RemoteSample (list Byte.byte) :=
  mkRemoteSample (mkRemoteIdentity (scope 1) 1 1) tick value.
Definition config : Config := mkConfig (mkTickRate 10) (millis 100) (millis 100) Limits_default.
Definition start : RemoteBuffer (list Byte.byte) :=
  mkRemoteBuffer 4 config ∅ (mkAccounting 0 0 0 0) (mkPresentationCursor None 0) 0 0.
(** Two samples a second apart, the cursor half way between. *)
Definition acts : list (remote_action (P:=list Byte.byte)) :=
  [Receive (at_tick 20 [Byte.x02]); Receive (at_tick 10 [Byte.x01]); Advance (millis 1600)].
Definition step_all (b : RemoteBuffer (list Byte.byte)) acts : RemoteBuffer (list Byte.byte) :=
  default b (remote_run 64 128 policy b acts).
Definition playing : RemoteBuffer (list Byte.byte) := step_all start acts.
Definition gone : RemoteBuffer (list Byte.byte) := match exit_track 64 playing (scope 1) with Some (b, _) => b | None => start end.
End RemoteDemo.

Lemma remote_buffer_bounded_witness :
  exists b', remote_run 64 128 RemoteDemo.policy RemoteDemo.start RemoteDemo.acts = Some b'
  /\ ac_samples (rb_accounting b') <= 32768.
Proof.
  destruct (remote_buffer_bounded 64 128 RemoteDemo.policy 4 RemoteDemo.config RemoteDemo.start RemoteDemo.acts) as (b' & Hrun & Ha & _).
  { vm_compute. reflexivity. }
  { vm_compute. discriminate. }
  exists b'. split; [exact Hrun |]. apply Ha.
Defined.

Lemma remote_scopes_stay_left_witness :
  latest RemoteDemo.playing (RemoteDemo.scope 1) = Some (RemoteDemo.at_tick 20 [Byte.x02])
  /\ latest (RemoteDemo.step_all RemoteDemo.gone RemoteDemo.acts) (RemoteDemo.scope 1) = None
  /\ exists e, Interpolation.receive 64 128 (RemoteDemo.step_all RemoteDemo.gone RemoteDemo.acts)
       (RemoteDemo.at_tick 30 [Byte.x03]) RemoteDemo.policy
       = Some (RemoteDemo.step_all RemoteDemo.gone RemoteDemo.acts, Err e).
Proof.
  split; [vm_compute; reflexivity |].
  destruct (remote_scopes_stay_left 64 128 RemoteDemo.policy 4 RemoteDemo.config RemoteDemo.start RemoteDemo.acts RemoteDemo.playing
              (RemoteDemo.scope 1) RemoteDemo.gone RemoteDemo.acts (RemoteDemo.step_all RemoteDemo.gone RemoteDemo.acts))
    as (_ & Hl & _ & Hr).
  { vm_compute. reflexivity. }
  { vm_compute. discriminate. }
  { vm_compute. reflexivity. }
  { vm_compute. reflexivity. }
  { vm_compute. reflexivity. }
  split; [exact Hl |]. apply Hr. reflexivity.
Defined.

Lemma presented_within_evidence_witness :
  exists p, sample RemoteDemo.playing (RemoteDemo.scope 1) RemoteDemo.policy = Some (Ok (Some p))
  /\ pr_status p = Interpolated /\ pr_value p = [Byte.x01; Byte.x02]
  /\ pr_pose_time p <= due RemoteDemo.config (RemoteDemo.at_tick 20 [Byte.x02]) + millis 100.
Proof.
  destruct (presented_within_evidence 64 128 RemoteDemo.policy 4 RemoteDemo.config RemoteDemo.start RemoteDemo.acts RemoteDemo.playing
              (RemoteDemo.scope 1)) as (r & Hs & _ & Hp & _).
  { vm_compute. reflexivity. }
  { vm_compute. discriminate. }
  { vm_compute. split; discriminate. }
  { vm_compute. reflexivity. }
  assert (exists p, r = Ok (Some p) /\ pr_status p = Interpolated /\ pr_value p = [Byte.x01; Byte.x02]) as (p & Hr & Hst & Hv).
  { revert Hs. vm_compute. intros [= <-]. eexists. split; [reflexivity |]. split; reflexivity. }
  exists p. split; [rewrite Hs, Hr; reflexivity |]. split; [exact Hst |]. split; [exact Hv |].
  destruct (Hp p Hr) as (t & newest & Ht & Hl & _ & _ & _ & _ & _ & _ & _ & Htime & _).
  assert (newest = RemoteDemo.at_tick 20 [Byte.x02]) as <-.
  { revert Ht Hl. vm_compute. intros [= <-] [= <-]. reflexivity. }
  exact Htime.
Defined.
