(* ===== verification/FloatBits.v ===== *)
(** * The bits of binary floating-point numbers

    [to_bits] and [from_bits] of [f32] and [f64] on specification floats: a number in the format
    is the integer that counts the floats below it, with the sign in the highest bit. *)

From S2P Require Import Prelude Floats FloatFacts.
Local Open Scope Z_scope.

Section Bits.
(** Precision and exponent range: [24, 128] for [f32], [53, 1024] for [f64]; [top] is the number
    of bits below the sign. *)
Context (prec emax top : Z).

Definition float_to_bits (v : spec_float) : N :=
  let sign (s : bool) := if s then 2 ^ top else 0 in
  Z.to_N match v with
  | S754_zero s => sign s
  | S754_infinity s => sign s + (2 * emax - 1) * 2 ^ (prec - 1)
  | S754_nan => (2 * emax - 1) * 2 ^ (prec - 1) + 2 ^ (prec - 2)
  | S754_finite s m e => sign s + (e - emin prec emax) * 2 ^ (prec - 1) + Zpos m
  end.

Definition float_from_bits (bits : N) : spec_float :=
  let b := Z.of_N bits in
  let s := 2 ^ top <=? b in
  let b := b mod 2 ^ top in
  let field := b / 2 ^ (prec - 1) in
  let mantissa := b mod 2 ^ (prec - 1) in
  if field =? 2 * emax - 1 then if mantissa =? 0 then S754_infinity s else S754_nan
  else if field =? 0 then
    match mantissa with Zpos m => S754_finite s m (emin prec emax) | _ => S754_zero s end
  else match mantissa + 2 ^ (prec - 1) with
    | Zpos m => S754_finite s m (emin prec emax + field - 1)
    | _ => S754_zero s
    end.

(** ** The two are inverse *)

Context (Hprec : 2 <= prec) (Hemax : prec < emax) (Htop : 2 ^ top = 2 * emax * 2 ^ (prec - 1)).
#[local] Abbreviation M := (2 ^ (prec - 1)).

Lemma M_pos : 0 < M.
Proof. apply Z.pow_pos_nonneg; lia. Qed.

(** The mantissas of the format: below [2 M], and from [M] on above the least exponent. *)
Lemma bounded_iff m e : bounded prec emax m e = true <->
  e <= emax - prec /\ emin prec emax <= e /\ Zpos m < 2 * M /\ (emin prec emax < e -> M <= Zpos m).
Proof.
  unfold bounded, canonical_mantissa. rewrite andb_true_iff, Z.leb_le, Z.eqb_eq, digits_log2. unfold fexp.
  pose proof (Z.log2_nonneg (Zpos m)). destruct (Z.log2_spec (Zpos m) ltac:(lia)) as [Hlo Hhi].
  replace (2 * M) with (2 ^ prec) by (rewrite <- Z.pow_succ_r by lia; f_equal; lia). split.
  - intros [He Hle]. assert (Z.log2 (Zpos m) + 1 <= prec) as Hd by lia. split_and!; try lia.
    + eapply Z.lt_le_trans; [exact Hhi |]. apply Z.pow_le_mono_r; lia.
    + intros Hmin. etransitivity; [| exact Hlo]. apply Z.pow_le_mono_r; lia.
  - intros (Hle & Hmin & Hm & Hnorm). split; [| done]. assert (Z.log2 (Zpos m) < prec) as Hd by (apply Z.log2_lt_pow2; lia).
    destruct (decide (e = emin prec emax)) as [-> |]; [lia |]. specialize (Hnorm ltac:(lia)).
    assert (prec - 1 <= Z.log2 (Zpos m)) by (apply Z.log2_le_pow2; lia). lia.
Qed.

(** A finite number's bits below the sign. *)
Definition magnitude_bits (v : spec_float) : Z :=
  match v with S754_finite _ m e => (e - emin prec emax) * M + Zpos m | _ => 0 end.

Definition sign_of (v : spec_float) : bool :=
  match v with S754_zero s | S754_infinity s | S754_finite s _ _ => s | S754_nan => false end.

Lemma to_bits_finite v : is_finite v = true ->
  float_to_bits v = Z.to_N ((if sign_of v then 2 ^ top else 0) + magnitude_bits v).
Proof. destruct v; try done; intros _; unfold float_to_bits, magnitude_bits; cbn; f_equal; lia. Qed.

Lemma magnitude_small v : is_finite v = true -> valid_binary prec emax v = true -> 0 <= magnitude_bits v < (2 * emax - 1) * M.
Proof.
  pose proof M_pos. destruct v as [| | | s m e]; try done; intros _; [intros _; simpl; nia |].
  intros (He & Hmin & Hm & Hn)%bounded_iff. unfold magnitude_bits. unfold emin in *. nia.
Qed.

(** The parts that [float_from_bits] looks at. *)
Lemma from_bits_parts (s : bool) b : 0 <= b < 2 ^ top ->
  let bits := Z.to_N ((if s then 2 ^ top else 0) + b) in
  (2 ^ top <=? Z.of_N bits) = s /\ Z.of_N bits mod 2 ^ top = b /\ Z.of_N bits < 2 * 2 ^ top.
Proof.
  intros Hb. cbv zeta. rewrite Z2N.id by (destruct s; lia). destruct s.
  - split_and!; [apply Z.leb_le; lia | | lia]. replace (2 ^ top + b) with (b + 1 * 2 ^ top) by lia. by rewrite Z_mod_plus_full, Z.mod_small.
  - split_and!; [apply Z.leb_gt; lia | | lia]. by rewrite Z.add_0_l, Z.mod_small.
Qed.

Lemma from_to_bits v : is_finite v = true -> valid_binary prec emax v = true ->
  float_from_bits (float_to_bits v) = v /\ Z.of_N (float_to_bits v) < 2 * 2 ^ top.
Proof.
  intros Hf Hv. pose proof M_pos as HM. pose proof (magnitude_small v Hf Hv) as Hb. rewrite to_bits_finite by done.
  destruct (from_bits_parts (sign_of v) (magnitude_bits v)) as (Hs & Hmod & Hlt); [nia |]. split; [| done].
  unfold float_from_bits. cbv zeta. rewrite Hs, Hmod. destruct v as [s | | | s m e]; try done.
  - unfold magnitude_bits. rewrite Z.div_0_l, Z.mod_0_l by lia. rewrite (proj2 (Z.eqb_neq _ _)) by lia. done.
  - apply bounded_iff in Hv as (He & Hmin & Hm & Hn). unfold magnitude_bits in *. cbn [sign_of].
    destruct (decide (Zpos m < M)) as [Hsmall | Hbig].
    + assert (e = emin prec emax) as -> by (destruct (decide (e = emin prec emax)); [done |]; specialize (Hn ltac:(lia)); lia).
      replace ((emin prec emax - emin prec emax) * M + Zpos m) with (Zpos m) by lia. rewrite Z.div_small, Z.mod_small by lia.
      rewrite (proj2 (Z.eqb_neq _ _)) by lia. done.
    + replace ((e - emin prec emax) * M + Zpos m) with ((Zpos m - M) + (e - emin prec emax + 1) * M) by lia.
      rewrite Z.div_add, Z_mod_plus_full, Z.div_small, Z.mod_small by lia.
      rewrite (proj2 (Z.eqb_neq _ (2 * emax - 1))) by (unfold emin in *; lia). rewrite (proj2 (Z.eqb_neq _ 0)) by lia.
      replace (Zpos m - M + M) with (Zpos m) by lia. f_equal. lia.
Qed.

Lemma to_from_bits bits : Z.of_N bits < 2 * 2 ^ top -> is_finite (float_from_bits bits) = true ->
  valid_binary prec emax (float_from_bits bits) = true /\ float_to_bits (float_from_bits bits) = bits.
Proof.
  intros Hlt Hf. pose proof M_pos as HM. set (b := Z.of_N bits mod 2 ^ top).
  assert (0 <= b < 2 ^ top) as Hb by (apply Z.mod_pos_bound; nia).
  set (s := 2 ^ top <=? Z.of_N bits).
  assert (Z.of_N bits = (if s then 2 ^ top else 0) + b) as Hbits.
  { unfold s, b. destruct (Z.leb_spec (2 ^ top) (Z.of_N bits)) as [Hle | Hgt].
    - rewrite <- (Z_mod_plus_full _ (-1)), Z.mod_small by lia. lia.
    - rewrite Z.mod_small by lia. lia. }
  pose proof (Z.div_mod b M ltac:(lia)) as Hdm. pose proof (Z.mod_pos_bound b M HM) as Hmb.
  assert (0 <= b / M < 2 * emax) as Hfield by (split; [apply Z.div_pos; lia | apply Z.div_lt_upper_bound; [lia | nia]]).
  assert (valid_binary prec emax (float_from_bits bits) = true /\ sign_of (float_from_bits bits) = s /\ magnitude_bits (float_from_bits bits) = b) as (Hv & Hs & Hm).
  { revert Hf. unfold float_from_bits. cbv zeta. fold s b. destruct (Z.eqb_spec (b / M) (2 * emax - 1)); [by destruct (_ =? 0) |].
    destruct (Z.eqb_spec (b / M) 0) as [H0 | H0].
    - destruct (b mod M) as [| m | m] eqn:Em; [| | lia]; intros _; (split; [| split; [done | unfold magnitude_bits; lia]]); [done |].
      apply bounded_iff. unfold emin in *. lia.
    - destruct (b mod M + M) as [| m | m] eqn:Em; [lia | | lia]. intros _.
      split; [| split; [done | unfold magnitude_bits; nia]]. apply bounded_iff. unfold emin in *. lia. }
  split; [done |]. rewrite to_bits_finite, Hs, Hm, <- Hbits by done. apply N2Z.id.
Qed.
End Bits.

Definition f32_to_bits : spec_float -> N := float_to_bits 24 128 31.
Definition f64_to_bits : spec_float -> N := float_to_bits 53 1024 63.
Definition f32_from_bits : N -> spec_float := float_from_bits 24 128 31.
Definition f64_from_bits : N -> spec_float := float_from_bits 53 1024 63.

(** One is [0x3f800000]. *)
Example f32_one_bits : f32_to_bits (S754_finite false 8388608 (-23)) = 1065353216%N.
Proof. reflexivity. Qed.
