(* ===== verification/Schema.v ===== *)
(** * Schema declarations and the budgets of one traversal

    Models [schema/model.rs], the budgets and the cursor of [schema/wire.rs], the state of an
    [schema/inspection.rs] and the traits of [schema/value.rs] and [schema/compact.rs]. A value's
    operations spend from a [Work] as they go and stop at the first budget they exceed: they are
    written in a monad whose state is the [Work] next to the buffer that is written or the cursor
    that is read. *)

From S2P Require Import Prelude Types Floats Codec Reader.
Local Open Scope N_scope.
Local Open Scope engine_scope.

(** ** Declarations *)

Abbreviation FieldId := N (only parsing).

Inductive Representation := PublicPresentation | OwnerCheckpoint | OfflineCheckpoint.
Inductive Visibility := Public | Owner | ServerOnly.
Inductive Authority := Server | ClientIntent | Derived.
Inductive Prediction := PredictNone | Dependency | Replayed.
Inductive Interpolation := InterpolateNone | Step | Linear | AngleRadians.
Inductive ChangeRule := CanonicalEquality | Always.
Inductive Quantizer := ExactCanonical | Lossy (policy version : N).
Inductive Units := Unitless | Metres | Seconds | Ticks | Radians | Custom (text : list byte).
Inductive Range :=
| RangeNone
| Unsigned (minimum maximum : N)
| Signed (minimum maximum : Z)
| Float32 (minimum maximum : spec_float)
| Float64 (minimum maximum : spec_float).

#[global] Instance Visibility_eq_dec : EqDecision Visibility.
Proof. solve_decision. Defined.
#[global] Instance Authority_eq_dec : EqDecision Authority.
Proof. solve_decision. Defined.
#[global] Instance Prediction_eq_dec : EqDecision Prediction.
Proof. solve_decision. Defined.
#[global] Instance Interpolation_eq_dec : EqDecision Interpolation.
Proof. solve_decision. Defined.
#[global] Instance ChangeRule_eq_dec : EqDecision ChangeRule.
Proof. solve_decision. Defined.
#[global] Instance Quantizer_eq_dec : EqDecision Quantizer.
Proof. solve_decision. Defined.
#[global] Instance Units_eq_dec : EqDecision Units.
Proof. solve_decision. Defined.

(** The casts [as u8]; the derived orders of [Visibility] and [Prediction] compare them. *)
Definition representation_u8 (r : Representation) : N :=
  match r with PublicPresentation => 0 | OwnerCheckpoint => 1 | OfflineCheckpoint => 2 end.
Definition visibility_u8 (v : Visibility) : N :=
  match v with Public => 0 | Owner => 1 | ServerOnly => 2 end.
Definition authority_u8 (a : Authority) : N :=
  match a with Server => 0 | ClientIntent => 1 | Derived => 2 end.
Definition prediction_u8 (p : Prediction) : N :=
  match p with PredictNone => 0 | Dependency => 1 | Replayed => 2 end.
Definition interpolation_u8 (i : Interpolation) : N :=
  match i with InterpolateNone => 0 | Step => 1 | Linear => 2 | AngleRadians => 3 end.
Definition change_u8 (c : ChangeRule) : N :=
  match c with CanonicalEquality => 0 | Always => 1 end.

(** [Representation::visibility]. *)
Definition representation_visibility (r : Representation) : Visibility :=
  match r with
  | PublicPresentation => Public
  | OwnerCheckpoint => Owner
  | OfflineCheckpoint => ServerOnly
  end.

Record Compatibility := mkCompatibility { introduced : N; required : bool }.

Record FieldSpec := mkFieldSpec {
  units : Units;
  range : Range;
  quantizer : Quantizer;
  authority : Authority;
  visibility : Visibility;
  prediction : Prediction;
  interpolation : Interpolation;
  change : ChangeRule;
  compatibility : Compatibility;
}.

Definition FieldSpec_exact (units : Units) (range : Range) (visibility : Visibility) (prediction : Prediction)
  : FieldSpec := {|
  units := units;
  range := range;
  quantizer := ExactCanonical;
  authority := Server;
  visibility := visibility;
  prediction := prediction;
  interpolation := InterpolateNone;
  change := CanonicalEquality;
  compatibility := mkCompatibility 1 true;
|}.

Record FieldDescriptor := mkFieldDescriptor { fd_id : FieldId; fd_name : list byte; fd_spec : FieldSpec }.

Record SchemaLimits := mkSchemaLimits {
  schemas : N;
  fields : N;
  nesting : N;
  collection : N;
  collection_items : N;
  text_bytes : N;
  value_nodes : N;
  wire_bytes : N;
  allocation_bytes : N;
}.

Definition SchemaLimits_default : SchemaLimits := {|
  schemas := 128;
  fields := 128;
  nesting := 8;
  collection := 256;
  collection_items := 8192;
  text_bytes := 8192;
  value_nodes := 8192;
  wire_bytes := 65535;
  allocation_bytes := 2 * 1024 * 1024;
|}.

Record SchemaIdentity := mkSchemaIdentity { si_schema : SchemaId; si_version : N; si_fingerprint : list byte }.

#[global] Instance SchemaIdentity_eq_dec : EqDecision SchemaIdentity.
Proof. solve_decision. Defined.

Inductive SchemaError :=
| InvalidLimits | InvalidSchema | DuplicateSchema
| DuplicateField (id : FieldId) | InvalidField (id : FieldId)
| InvalidRange | InvalidDefault | OutOfRange | NonFinite
| UnsupportedQuantizer | UnsupportedCompatibility | VisibilityDowngrade | PredictionDowngrade
| InvalidInterpolation | MissingRestore | MissingDependencyDeclaration | DependencyContextRequired
| InvalidLifecycleDeclaration | RestoreMismatch | NoRestore | InvalidDependency | IncompatibleSchema
| UnknownField (id : FieldId) | MissingField (id : FieldId)
| NonCanonicalOrder | Truncated | TrailingBytes | WireBudget | AllocationBudget | CountBudget
| NestingBudget | ValueBudget | TextBudget | InvalidEncoding.

Definition limits_valid (l : SchemaLimits) : bool :=
  bool_decide (1 <= schemas l <= 256) && bool_decide (1 <= fields l <= 256)
  && bool_decide (1 <= nesting l <= 16) && bool_decide (1 <= collection l <= 4096)
  && bool_decide (1 <= collection_items l <= 65536) && bool_decide (1 <= text_bytes l <= 65535)
  && bool_decide (1 <= value_nodes l <= 65536) && bool_decide (48 <= wire_bytes l <= 65535)
  && negb (bool_decide (allocation_bytes l < wire_bytes l))
  && negb (bool_decide (8 * 1024 * 1024 < allocation_bytes l)).

Definition SchemaLimits_validate (l : SchemaLimits) : result SchemaError SchemaLimits :=
  if limits_valid l then Ok l else Err InvalidLimits.

Record FieldChange := mkFieldChange {
  fc_field : FieldId;
  fc_before : option (list byte);
  fc_after : option (list byte);
}.

Inductive DiagnosticAccess :=
| FieldIdsOnly
| Authorized (allow : FieldDescriptor -> bool).

Definition permits (access : DiagnosticAccess) (field : FieldDescriptor) : bool :=
  match access with FieldIdsOnly => false | Authorized allow => allow field end.

(** ** Work *)

Record Work := mkWork {
  limits : SchemaLimits;
  nodes : N;
  allocated : N;
  items : N;
  text_used : N;
}.

#[export] Instance Work_eta : Eta Work :=
  fun w => mkWork (limits w) (nodes w) (allocated w) (items w) (text_used w).

Definition Work_new (l : SchemaLimits) : Work := mkWork l 0 0 0 0.

(** An operation that spends [Work], with [X] the buffer or cursor beside it. What an operation
    that fails has spent or written is not observed: every caller returns its error. *)
Definition spends (X A : Type) : Type := X -> Work -> result SchemaError (A * X * Work).

Section Monad.
Context {X : Type}.

Definition ret {A} (a : A) : spends X A := fun x w => Ok (a, x, w).
Definition fail {A} (e : SchemaError) : spends X A := fun _ _ => Err e.
Definition bind {A B} (m : spends X A) (k : A -> spends X B) : spends X B := fun x w =>
  match m x w with Ok (a, x', w') => k a x' w' | Err e => Err e end.
Definition of_result {A} (r : result SchemaError A) : spends X A := fun x w =>
  match r with Ok a => Ok (a, x, w) | Err e => Err e end.
(** Reading and replacing the work. *)
Definition get_work : spends X Work := fun x w => Ok (w, x, w).
Definition set_work (w' : Work) : spends X unit := fun x _ => Ok (tt, x, w').
End Monad.

Notation "'let*' x ':=' m 'in' k" := (bind m (fun x => k))
  (at level 10, x name, m at level 200, k at level 200,
   format "'[v' '[' 'let*'  x  ':='  m  'in' ']' '/' k ']'") : engine_scope.

(** An operation that has no buffer of its own, next to one. *)
Definition lift {X A} (m : spends unit A) : spends X A := fun x w =>
  match m tt w with Ok (a, _, w') => Ok (a, x, w') | Err e => Err e end.

Section Work.
Context {X : Type}.

Definition node (depth : N) : spends X unit := fun x w =>
  if decide (nesting (limits w) < depth) then Err NestingBudget
  else
    let? n := ok_or (checked_add usize_max (nodes w) 1) ValueBudget in
    if decide (value_nodes (limits w) < n) then Err ValueBudget
    else Ok (tt, x, w <| nodes := n |>).

Definition count (n : N) : spends X unit := fun x w =>
  let? total := ok_or (checked_add usize_max (items w) n) CountBudget in
  if decide (collection (limits w) < n \/ collection_items (limits w) < total) then Err CountBudget
  else Ok (tt, x, w <| items := total |>).

Definition text (bytes : N) : spends X unit := fun x w =>
  let? total := ok_or (checked_add usize_max (text_used w) bytes) TextBudget in
  if decide (text_bytes (limits w) < total) then Err TextBudget
  else Ok (tt, x, w <| text_used := total |>).

Definition size (n : N) : spends X N := fun x w =>
  if decide (wire_bytes (limits w) < n) then Err WireBudget else Ok (n, x, w).

Definition allocate (bytes : N) : spends X unit := fun x w =>
  let? total := ok_or (checked_add usize_max (allocated w) bytes) AllocationBudget in
  if decide (allocation_bytes (limits w) < total) then Err AllocationBudget
  else Ok (tt, x, w <| allocated := total |>).

(** [work.reserve::<T>(count)], with [size_of::<T>()]. *)
Definition reserve (size_of : N) (n : N) : spends X unit :=
  let* bytes := of_result (ok_or (checked_mul usize_max n size_of) AllocationBudget) in
  allocate bytes.

Definition checkpoint (w : Work) : N * N * N * N := (nodes w, allocated w, items w, text_used w).

(** [repeat_since]: the resources spent since [before], [extra] more times. *)
Definition repeat_since (before : N * N * N * N) (extra : N) : spends X unit := fun x w =>
  let '(n0, a0, i0, t0) := before in
  let? n := ok_or (checked_mul usize_max (nodes w - n0) extra) ValueBudget in
  let? n := ok_or (checked_add usize_max (nodes w) n) ValueBudget in
  if decide (value_nodes (limits w) < n) then Err ValueBudget
  else
    (let* _ := set_work (w <| nodes := n |>) in
     let* bytes := of_result (ok_or (checked_mul usize_max (allocated w - a0) extra) AllocationBudget) in
     let* _ := allocate bytes in
     let* w := get_work in
     let* i := of_result (ok_or (checked_mul usize_max (items w - i0) extra) CountBudget) in
     let* i := of_result (ok_or (checked_add usize_max (items w) i) CountBudget) in
     if decide (collection_items (limits w) < i) then fail CountBudget
     else
       let* _ := set_work (w <| items := i |>) in
       let* t := of_result (ok_or (checked_mul usize_max (text_used w - t0) extra) TextBudget) in
       text t) x w.
End Work.

Definition merge_max (w other : Work) : Work :=
  mkWork (limits w) (N.max (nodes w) (nodes other)) (N.max (allocated w) (allocated other))
    (N.max (items w) (items other)) (N.max (text_used w) (text_used other)).

Definition append (bytes : list byte) : spends (list byte) unit := fun out w =>
  match checked_add usize_max (len out) (len bytes) with
  | None => Err WireBudget
  | Some n => match size n out w with Ok _ => Ok (tt, out ++ bytes, w) | Err e => Err e end
  end.

(** [out.len()], and [out[start..start + 4].copy_from_slice(..)]. *)
Definition out_len : spends (list byte) N := fun out w => Ok (len out, out, w).
Definition patch (start : N) (bytes : list byte) : spends (list byte) unit := fun out w =>
  Ok (tt, take (N.to_nat start) out ++ bytes ++ drop (N.to_nat start + length bytes) out, w).

(** The length of what was written after [start], back-patched into the four bytes there. *)
Definition patch_length (start : N) : spends (list byte) unit :=
  let* now := out_len in
  let* length := of_result (ok_or (try_from u32_max (now - start - 4)) WireBudget) in
  patch start (to_le_bytes 4 length).

(** ** The cursor *)

Record Cursor := mkCursor { cu_bytes : list byte; cu_previous : FieldId }.

Definition Cursor_new (bytes : list byte) : Cursor := mkCursor bytes 0.

(** A read of the cursor's bytes. *)
Definition reading {A} (r : reader SchemaError A) : spends Cursor A := fun c w =>
  match r (cu_bytes c) with
  | Ok (a, rest) => Ok (a, mkCursor rest (cu_previous c), w)
  | Err e => Err e
  end.

Definition remaining : spends Cursor N := reading read_left.
Definition take_bytes (n : N) : spends Cursor (list byte) := reading (read_take Truncated n).
Definition get_u16 : spends Cursor N := reading (read_le Truncated 2).
Definition get_u32 : spends Cursor N := reading (read_le Truncated 4).

Definition set_previous (id : FieldId) : spends Cursor unit := fun c w => Ok (tt, mkCursor (cu_bytes c) id, w).
Definition get_previous : spends Cursor FieldId := fun c w => Ok (cu_previous c, c, w).

(** [Reader::field]. *)
Definition get_field : spends Cursor (FieldId * list byte) :=
  let* id := get_u16 in
  let* previous := get_previous in
  if decide (id = 0 \/ id <= previous) then fail NonCanonicalOrder
  else
    let* _ := set_previous id in
    let* n := get_u32 in
    let* bytes := take_bytes n in
    ret (id, bytes).

Definition finish : spends Cursor unit := fun c w =>
  if decide (cu_bytes c = []) then Ok (tt, c, w) else Err TrailingBytes.

(** The body of a function that reads [bytes] through a cursor of its own. *)
Definition with_cursor {X A} (bytes : list byte) (m : spends Cursor A) : spends X A := fun x w =>
  match m (Cursor_new bytes) w with Ok (a, _, w') => Ok (a, x, w') | Err e => Err e end.

(** ** Ordering by stable identity *)

(** [windows(2).find(|p| p[0] == p[1])] of a list of identities. *)
Fixpoint first_repeat (ids : list N) : option N :=
  match ids with
  | a :: ((b :: _) as rest) => if decide (a = b) then Some a else first_repeat rest
  | _ => None
  end.

(** The identities in wire order; the fixed array of 256 and the count are the list. *)
Definition ordered (ids : list FieldId) (limit : N) : result SchemaError (list FieldId) :=
  if decide (ids = [] \/ limit < len ids \/ 256 < len ids) then Err CountBudget
  else match list_find (fun id => id = 0) ids with
  | Some (_, id) => Err (InvalidField id)
  | None =>
      let sorted := merge_sort N.le ids in
      match first_repeat sorted with
      | Some id => Err (DuplicateField id)
      | None => Ok sorted
      end
  end.

Definition enum_ids (ids : list N) : result SchemaError (list N) :=
  if decide (ids = [] \/ 256 < len ids) then Err CountBudget
  else
    let sorted := merge_sort N.le ids in
    if decide (head sorted = Some 0 \/ first_repeat sorted <> None) then Err InvalidSchema
    else Ok sorted.

(** ** Inspection *)

(** A [blake3::Hasher] is the bytes it was updated with. *)
Record Inspection := mkInspection {
  i_limits : SchemaLimits;
  i_hash : list byte;
  i_nodes : N;
  i_restore_required : bool;
  i_known : list SchemaIdentity;
  i_root : list byte;
}.

#[export] Instance Inspection_eta : Eta Inspection :=
  fun i => mkInspection (i_limits i) (i_hash i) (i_nodes i) (i_restore_required i) (i_known i) (i_root i).

(** [hash.update(bytes)]. *)
Definition update (bytes : list byte) (i : Inspection) : Inspection := i <| i_hash := i_hash i ++ bytes |>.
Definition i_tag (tag : N) : Inspection -> Inspection := update [byte_of tag].
Definition i_number (value : N) : Inspection -> Inspection := update (to_le_bytes 8 value).
Definition i_count (value : N) (i : Inspection) : result SchemaError unit :=
  if decide (collection (i_limits i) < value) then Err CountBudget else Ok tt.
Definition i_text (value : list byte) (i : Inspection) : result SchemaError Inspection :=
  if decide (128 < len value) then Err InvalidSchema
  else Ok (update value (i_number (len value) i)).

(** ** The traits *)

(** [FieldValue] with [PartialEq] and [size_of::<Self>()]. *)
Class FieldValue (T : Type) := mkFieldValue {
  eqb : T -> T -> bool;
  size_of : N;
  inspect : FieldSpec -> N -> Inspection -> result SchemaError Inspection;
  maximum_size : N -> spends unit N;
  value_size : T -> FieldSpec -> N -> spends unit N;
  write : T -> N -> spends (list byte) unit;
  read : list byte -> N -> spends unit T;
}.

(** [CompactValue]. *)
Class CompactValue (T : Type) := mkCompactValue {
  write_compact : T -> N -> spends (list byte) unit;
  read_compact : N -> spends Cursor T;
}.
