(* ===== verification/SchemaValues.v ===== *)
(** * The values a field can hold

    Models [schema/value.rs], [schema/composites.rs] and the implementations of
    [schema/compact.rs]: scalars, arrays and bounded vectors, byte and text strings, options, the
    unit value and [enum_ids]' tagged sums. Each is the operations of the trait over the element's
    operations, as the source's generic implementations are. The serializer of scalars is
    [bincode], a parameter; [size_of] of a composite is the compiler's choice, and a parameter. *)

From S2P Require Import Prelude Types Floats Codec Reader Schema.
Local Open Scope N_scope.
Local Open Scope engine_scope.

(** ** Scalars *)

(** [bincode] with the options of [codec.rs], for one type, at a byte limit. *)
Class Bincode (T : Type) := {
  bin_size : N -> T -> result string N;
  bin_serialize : N -> T -> result string (list byte);
  bin_deserialize : N -> list byte -> result string T;
}.

(** The trait [Scalar], with [size_of]. *)
Record Scalar (T : Type) := mkScalar {
  sc_width : nat;
  sc_valid : T -> bool;
  sc_canonical : T -> T;
  sc_eqb : T -> T -> bool;
}.
Arguments mkScalar {T}.
Arguments sc_width {T}.
Arguments sc_valid {T}.
Arguments sc_canonical {T}.
Arguments sc_eqb {T}.

Section Scalars.
Context {T : Type} `{B : Bincode T} (sc : Scalar T).

(** [ScalarWire<T>], which validates what [bincode] carries. *)
Definition ScalarWire : PayloadCodec T := {|
  serialized_size := bin_size;
  serialize := bin_serialize;
  deserialize := bin_deserialize;
  validate := fun v => if sc_valid sc v then Ok tt else Err (InvalidPayload "nonfinite scalar");
|}.

Definition write_scalar (value : T) : spends (list byte) unit :=
  match @encode_payload _ ScalarWire (sc_canonical sc value) 16 with
  | Ok bytes => append bytes
  | Err _ => fail InvalidEncoding
  end.

Definition read_scalar (bytes : list byte) : spends unit T :=
  match @decode_payload _ ScalarWire bytes 16 with
  | Ok v => ret (sc_canonical sc v)
  | Err _ => fail InvalidEncoding
  end.

(** The operations the three scalar families share: what differs is the inspection and the
    check of a value against the field's range. *)
Definition scalar_value (inspect : FieldSpec -> N -> Inspection -> result SchemaError Inspection)
    (check : FieldSpec -> T -> result SchemaError unit) : FieldValue T := {|
  eqb := sc_eqb sc;
  size_of := N.of_nat (sc_width sc);
  inspect := inspect;
  maximum_size d := let* _ := node d in ret (N.of_nat (sc_width sc));
  value_size v s d :=
    let* _ := node d in
    let* _ := of_result (check s v) in
    ret (N.of_nat (sc_width sc));
  write v d := let* _ := node d in write_scalar v;
  read bytes d := let* _ := node d in read_scalar bytes;
|}.

(** [scalar!] of [compact.rs]. *)
Definition scalar_compact (FV : FieldValue T) : CompactValue T := {|
  write_compact v d := write v d;
  read_compact d :=
    let* bytes := take_bytes (N.of_nat (sc_width sc)) in
    lift (read bytes d);
|}.
End Scalars.

Definition discrete (s : FieldSpec) : result SchemaError unit :=
  match interpolation s with
  | InterpolateNone | Step => Ok tt
  | Linear | AngleRadians => Err InvalidInterpolation
  end.

(** *** Integers *)

(** The arguments of [integer!]: signedness, width in bytes and tag. *)
Inductive IntTy := U8 | U16 | U32 | U64 | I8 | I16 | I32 | I64.

Definition int_signed (t : IntTy) : bool :=
  match t with U8 | U16 | U32 | U64 => false | I8 | I16 | I32 | I64 => true end.
Definition int_width (t : IntTy) : nat :=
  match t with U8 | I8 => 1 | U16 | I16 => 2 | U32 | I32 => 4 | U64 | I64 => 8 end.
Definition int_tag (t : IntTy) : N :=
  match t with U8 => 1 | U16 => 2 | U32 => 3 | U64 => 4 | I8 => 5 | I16 => 6 | I32 => 7 | I64 => 8 end.

(** [<$ty>::MIN] and [<$ty>::MAX]. *)
Definition int_min (t : IntTy) : Z := if int_signed t then - 2 ^ (8 * Z.of_nat (int_width t) - 1) else 0.
Definition int_max (t : IntTy) : Z :=
  if int_signed t then 2 ^ (8 * Z.of_nat (int_width t) - 1) - 1 else 2 ^ (8 * Z.of_nat (int_width t)) - 1.

(** [let Range::$range { minimum, maximum } = spec.range else { InvalidRange }], at the bound
    type of the family. *)
Definition int_range (t : IntTy) (r : Range) : result SchemaError (Z * Z) :=
  match r with
  | Unsigned low high => if int_signed t then Err InvalidRange else Ok (Z.of_N low, Z.of_N high)
  | Signed low high => if int_signed t then Ok (low, high) else Err InvalidRange
  | _ => Err InvalidRange
  end.

Definition int_inspect (t : IntTy) (s : FieldSpec) (_ : N) (i : Inspection) : result SchemaError Inspection :=
  let? _ := discrete s in
  let? b := int_range t (range s) in
  let '(low, high) := b in
  if decide (high < low \/ low < int_min t \/ int_max t < high)%Z then Err InvalidRange
  else Ok (i_tag (int_tag t) i).

Definition int_check (t : IntTy) (s : FieldSpec) (v : Z) : result SchemaError unit :=
  let? b := int_range t (range s) in
  let '(low, high) := b in
  if decide (v < low \/ high < v)%Z then Err OutOfRange else Ok tt.

Definition int_scalar (t : IntTy) : Scalar Z :=
  mkScalar (int_width t) (fun _ => true) (fun v => v) (fun a b => bool_decide (a = b)).

Definition integer `{Bincode Z} (t : IntTy) : FieldValue Z :=
  scalar_value (int_scalar t) (int_inspect t) (int_check t).

(** *** Booleans *)

(** [spec.range != Range::None] is refused. *)
Definition no_range (s : FieldSpec) : result SchemaError unit :=
  match range s with RangeNone => Ok tt | _ => Err InvalidRange end.

Definition bool_inspect (s : FieldSpec) (_ : N) (i : Inspection) : result SchemaError Inspection :=
  let? _ := discrete s in
  let? _ := no_range s in
  Ok (i_tag 9 i).

Definition bool_scalar : Scalar bool := mkScalar 1 (fun _ => true) (fun v => v) Bool.eqb.

Definition boolean `{Bincode bool} : FieldValue bool :=
  scalar_value bool_scalar bool_inspect (fun s _ => no_range s).

(** *** Floats *)

(** The arguments of [float!]. *)
Inductive FloatTy := F32 | F64.

Definition float_width (t : FloatTy) : nat := match t with F32 => 4 | F64 => 8 end.
Definition float_tag (t : FloatTy) : N := match t with F32 => 10 | F64 => 11 end.
Definition float_range (t : FloatTy) (r : Range) : result SchemaError (spec_float * spec_float) :=
  match t, r with
  | F32, Float32 low high | F64, Float64 low high => Ok (low, high)
  | _, _ => Err InvalidRange
  end.

(** [if self == 0.0 { 0.0 } else { self }]. *)
Definition float_canonical (v : spec_float) : spec_float :=
  if SFeqb v (S754_zero false) then S754_zero false else v.

Definition float_inspect (t : FloatTy) (s : FieldSpec) (_ : N) (i : Inspection) : result SchemaError Inspection :=
  let? b := float_range t (range s) in
  let '(low, high) := b in
  if negb (is_finite low) || negb (is_finite high) || SFltb high low then Err InvalidRange
  else if decide (interpolation s = AngleRadians /\ units s <> Radians) then Err InvalidInterpolation
  else Ok (i_tag (float_tag t) i).

Definition float_check (t : FloatTy) (s : FieldSpec) (v : spec_float) : result SchemaError unit :=
  if negb (is_finite v) then Err NonFinite
  else
    let? b := float_range t (range s) in
    let '(low, high) := b in
    if SFltb v low || SFltb high v then Err OutOfRange else Ok tt.

Definition float_scalar (t : FloatTy) : Scalar spec_float :=
  mkScalar (float_width t) is_finite float_canonical SFeqb.

Definition float `{Bincode spec_float} (t : FloatTy) : FieldValue spec_float :=
  scalar_value (float_scalar t) (float_inspect t) (float_check t).

(** ** Sequences *)

Section Sequences.
Context {T : Type} (FV : FieldValue T).

Definition sequence_max (n d : N) : spends unit N :=
  let* _ := node d in
  let* _ := count n in
  let* _ := reserve (size_of (T:=T)) n in
  let* w := get_work in
  let before := checkpoint w in
  let* element := maximum_size (T:=T) (d + 1) in
  let* _ := repeat_since before (saturating_sub n 1) in
  let* framed := of_result (ok_or (checked_add usize_max 4 element) WireBudget) in
  let* bodies := of_result (ok_or (checked_mul usize_max n framed) WireBudget) in
  let* total := of_result (ok_or (checked_add usize_max 4 bodies) WireBudget) in
  size total.

Fixpoint sizes (values : list T) (s : FieldSpec) (d bytes : N) : spends unit N :=
  match values with
  | [] => ret bytes
  | value :: rest =>
      let* value_bytes := value_size value s (d + 1) in
      let* bytes := size (bytes + 4 + value_bytes) in
      sizes rest s d bytes
  end.

Definition sequence_size (values : list T) (s : FieldSpec) (d : N) : spends unit N :=
  let* _ := node d in
  let* _ := count (len values) in
  sizes values s d 4.

(** One element behind its length. *)
Definition write_framed (value : T) (d : N) : spends (list byte) unit :=
  let* start := out_len in
  let* _ := append (to_le_bytes 4 0) in
  let* _ := write value (d + 1) in
  patch_length start.

Fixpoint writes (values : list T) (d : N) : spends (list byte) unit :=
  match values with
  | [] => ret tt
  | value :: rest => let* _ := write_framed value d in writes rest d
  end.

Definition sequence_write (values : list T) (d : N) : spends (list byte) unit :=
  let* _ := node d in
  let* _ := count (len values) in
  let* _ := append (to_le_bytes 4 (len values)) in
  writes values d.

Fixpoint reads (n : nat) (d : N) (values : list T) : spends Cursor (list T) :=
  match n with
  | O => ret values
  | S n =>
      let* bytes := get_u32 in
      let* body := take_bytes bytes in
      let* value := lift (read body (d + 1)) in
      reads n d (values ++ [value])
  end.

Definition sequence_read (bound : N) (fixed : bool) (bytes : list byte) (d : N) : spends unit (list T) :=
  let* _ := node d in
  with_cursor bytes
    (let* n := get_u32 in
     let* _ := count n in
     if decide (bound < n \/ (fixed = true /\ n <> bound)) then fail CountBudget
     else
       let* left := remaining in
       match checked_mul usize_max n 4 with
       | None => fail Truncated
       | Some needed =>
           if decide (left < needed) then fail Truncated
           else
             let* _ := reserve (size_of (T:=T)) n in
             let* values := reads (N.to_nat n) d [] in
             let* _ := finish in
             ret values
       end).

Definition sequence_inspect (tag bound : N) (s : FieldSpec) (d : N) (i : Inspection) : result SchemaError Inspection :=
  let? _ := i_count bound i in
  inspect (T:=T) s (d + 1) (i_number bound (i_tag tag i)).

Fixpoint list_eqb (a b : list T) : bool :=
  match a, b with
  | [], [] => true
  | x :: a, y :: b => eqb x y && list_eqb a b
  | _, _ => false
  end.

(** [[T; N]]: its values have exactly [bound] elements. *)
Definition array (layout bound : N) : FieldValue (list T) := {|
  eqb := list_eqb;
  size_of := layout;
  inspect := sequence_inspect 12 bound;
  maximum_size := sequence_max bound;
  value_size := sequence_size;
  write := sequence_write;
  read bytes d :=
    let* values := sequence_read bound true bytes d in
    if decide (len values = bound) then ret values else fail CountBudget;
|}.

(** [BoundedVec<T, N>]. *)
Definition bounded_vec (layout bound : N) : FieldValue (list T) := {|
  eqb := list_eqb;
  size_of := layout;
  inspect := sequence_inspect 13 bound;
  maximum_size := sequence_max bound;
  value_size := sequence_size;
  write := sequence_write;
  read bytes d :=
    let* values := sequence_read bound false bytes d in
    match BoundedVec_new bound values with Ok v => ret v | Err _ => fail CountBudget end;
|}.

Context (CV : CompactValue T).

Fixpoint writes_compact (values : list T) (d : N) : spends (list byte) unit :=
  match values with
  | [] => ret tt
  | value :: rest => let* _ := write_compact value (d + 1) in writes_compact rest d
  end.

Fixpoint reads_compact (n : nat) (d : N) (values : list T) : spends Cursor (list T) :=
  match n with
  | O => ret values
  | S n =>
      let* value := read_compact (d + 1) in
      reads_compact n d (values ++ [value])
  end.

Definition array_compact (bound : N) : CompactValue (list T) := {|
  write_compact values d :=
    let* _ := node d in
    let* _ := count bound in
    writes_compact values d;
  read_compact d :=
    let* _ := node d in
    let* _ := count bound in
    let* _ := reserve (size_of (T:=T)) bound in
    let* values := reads_compact (N.to_nat bound) d [] in
    if decide (len values = bound) then ret values else fail CountBudget;
|}.

Definition bounded_vec_compact (bound : N) : CompactValue (list T) := {|
  write_compact values d :=
    let* _ := node d in
    let* _ := count (len values) in
    let* n := of_result (ok_or (try_from u32_max (len values)) CountBudget) in
    let* _ := append (to_le_bytes 4 n) in
    writes_compact values d;
  read_compact d :=
    let* _ := node d in
    let* n := get_u32 in
    if decide (bound < n) then fail CountBudget
    else
      let* _ := count n in
      let* _ := reserve (size_of (T:=T)) n in
      let* values := reads_compact (N.to_nat n) d [] in
      match BoundedVec_new bound values with Ok v => ret v | Err _ => fail CountBudget end;
|}.
End Sequences.

(** ** Bytes and text *)

Definition BoundedBytes_new (bound : N) (value : list byte) : result SchemaError (list byte) :=
  if decide (bound < len value) then Err CountBudget else Ok value.

Definition bytes_inspect (bound : N) (s : FieldSpec) (_ : N) (i : Inspection) : result SchemaError Inspection :=
  let? _ := no_range s in
  let? _ := discrete s in
  let? _ := ok_or (try_from u32_max bound) CountBudget in
  Ok (i_number bound (i_tag 19 i)).

Definition bounded_bytes (layout bound : N) : FieldValue (list byte) := {|
  eqb a b := bool_decide (a = b);
  size_of := layout;
  inspect := bytes_inspect bound;
  maximum_size d :=
    let* _ := node d in
    let* _ := allocate bound in
    let* n := of_result (ok_or (checked_add usize_max bound 4) WireBudget) in
    size n;
  value_size v s d :=
    let* _ := of_result (no_range s) in
    let* _ := node d in
    let* n := of_result (ok_or (checked_add usize_max (len v) 4) WireBudget) in
    size n;
  write v d :=
    let* _ := node d in
    let* n := of_result (ok_or (try_from u32_max (len v)) CountBudget) in
    let* _ := append (to_le_bytes 4 n) in
    append v;
  read bytes d :=
    let* _ := node d in
    with_cursor bytes
      (let* n := get_u32 in
       if decide (bound < n) then fail CountBudget
       else
         let* value := take_bytes n in
         let* _ := finish in
         let* _ := allocate n in
         ret value);
|}.

Definition bounded_bytes_compact (layout bound : N) : CompactValue (list byte) := {|
  write_compact v d := write (FieldValue := bounded_bytes layout bound) v d;
  read_compact d :=
    let* _ := node d in
    let* n := get_u32 in
    if decide (bound < n) then fail CountBudget
    else
      let* value := take_bytes n in
      let* _ := allocate n in
      of_result (BoundedBytes_new bound value);
|}.

(** [std::str::from_utf8(bytes).is_ok()]: the well-formed sequences of one to four bytes. *)
Definition between (low high : N) (b : byte) : bool :=
  bool_decide (low <= Byte.to_N b) && bool_decide (Byte.to_N b <= high).

Fixpoint utf8 (bytes : list byte) : bool :=
  match bytes with
  | [] => true
  | a :: rest =>
      if between 0 127 a then utf8 rest
      else match rest with
      | [] => false
      | b :: rest =>
          if between 194 223 a then between 128 191 b && utf8 rest
          else match rest with
          | [] => false
          | c :: rest =>
              let second :=
                if between 224 224 a then between 160 191 b
                else if between 237 237 a then between 128 159 b
                else between 225 239 a && between 128 191 b in
              if second then between 128 191 c && utf8 rest
              else match rest with
              | [] => false
              | e :: rest =>
                  (if between 240 240 a then between 144 191 b
                   else if between 244 244 a then between 128 143 b
                   else between 241 243 a && between 128 191 b)
                  && between 128 191 c && between 128 191 e && utf8 rest
              end
          end
      end
  end.

Definition from_utf8 (bytes : list byte) : result SchemaError (list byte) :=
  if utf8 bytes then Ok bytes else Err InvalidEncoding.

Definition BoundedString_new (bound : N) (value : list byte) : result SchemaError (list byte) :=
  if decide (bound < len value) then Err TextBudget else Ok value.

Definition string_inspect (bound : N) (s : FieldSpec) (_ : N) (i : Inspection) : result SchemaError Inspection :=
  let? _ := no_range s in
  let? _ := discrete s in
  if decide (text_bytes (i_limits i) < bound) then Err TextBudget
  else Ok (i_number bound (i_tag 15 i)).

(** A [BoundedString<N>] is its UTF-8 bytes. *)
Definition bounded_string (layout bound : N) : FieldValue (list byte) := {|
  eqb a b := bool_decide (a = b);
  size_of := layout;
  inspect := string_inspect bound;
  maximum_size d :=
    let* _ := node d in
    let* _ := text bound in
    let* _ := allocate bound in
    size (4 + bound);
  value_size v s d :=
    let* _ := of_result (no_range s) in
    let* _ := node d in
    let* _ := text (len v) in
    size (4 + len v);
  write v d :=
    let* _ := node d in
    let* _ := text (len v) in
    let* _ := append (to_le_bytes 4 (len v)) in
    append v;
  read bytes d :=
    let* _ := node d in
    with_cursor bytes
      (let* n := get_u32 in
       if decide (bound < n) then fail TextBudget
       else
         let* _ := text n in
         let* value := take_bytes n in
         let* value := of_result (from_utf8 value) in
         let* _ := finish in
         let* _ := allocate n in
         ret value);
|}.

Definition bounded_string_compact (layout bound : N) : CompactValue (list byte) := {|
  write_compact v d := write (FieldValue := bounded_string layout bound) v d;
  read_compact d :=
    let* _ := node d in
    let* n := get_u32 in
    if decide (bound < n) then fail TextBudget
    else
      let* _ := text n in
      let* value := take_bytes n in
      let* value := of_result (from_utf8 value) in
      let* _ := allocate n in
      of_result (BoundedString_new bound value);
|}.

(** ** Options and the unit value *)

Section Options.
Context {T : Type} (FV : FieldValue T).

Definition option_eqb (a b : option T) : bool :=
  match a, b with Some x, Some y => eqb x y | None, None => true | _, _ => false end.

Definition option_value (layout : N) : FieldValue (option T) := {|
  eqb := option_eqb;
  size_of := layout;
  inspect s d i := inspect (T:=T) s (d + 1) (i_tag 14 i);
  maximum_size d :=
    let* _ := node d in
    let* n := maximum_size (T:=T) (d + 1) in
    size (1 + n);
  value_size v s d :=
    let* _ := node d in
    let* n := match v with Some value => value_size value s (d + 1) | None => ret 0 end in
    size (1 + n);
  write v d :=
    let* _ := node d in
    let* _ := append [match v with Some _ => x01 | None => x00 end] in
    match v with Some value => write value (d + 1) | None => ret tt end;
  read bytes d :=
    let* _ := node d in
    match bytes with
    | [] => fail Truncated
    | tag :: body =>
        if decide (tag = x00 /\ body = []) then ret None
        else if decide (tag = x01) then let* value := read body (d + 1) in ret (Some value)
        else fail InvalidEncoding
    end;
|}.

Context (CV : CompactValue T).

Definition option_compact : CompactValue (option T) := {|
  write_compact v d :=
    let* _ := node d in
    let* _ := append [match v with Some _ => x01 | None => x00 end] in
    match v with Some value => write_compact value (d + 1) | None => ret tt end;
  read_compact d :=
    let* _ := node d in
    let* tag := take_bytes 1 in
    if decide (tag = [x00]) then ret None
    else if decide (tag = [x01]) then let* value := read_compact (d + 1) in ret (Some value)
    else fail InvalidEncoding;
|}.
End Options.

Definition unit_inspect (s : FieldSpec) (_ : N) (i : Inspection) : result SchemaError Inspection :=
  let? _ := no_range s in
  let? _ := discrete s in
  Ok (i_tag 18 i).

Definition unit_value : FieldValue unit := {|
  eqb _ _ := true;
  size_of := 0;
  inspect := unit_inspect;
  maximum_size d := let* _ := node d in ret 0;
  value_size _ _ d := let* _ := node d in ret 0;
  write _ d := node d;
  read bytes d := let* _ := node d in if decide (bytes = []) then ret tt else fail InvalidEncoding;
|}.

Definition unit_compact : CompactValue unit := {|
  write_compact _ d := node d;
  read_compact d := node d;
|}.
