(* ===== verification/SchemaRecords.v ===== *)
(** * Records, tagged sums and their codecs

    Models [schema/macros.rs] (what [schema!] and [schema_enum!] generate), the record functions
    and [SchemaCodec] of [schema/wire.rs] and [schema/compact.rs], and [schema/inspection.rs]. A
    struct declared with [schema!] is the list of its fields, in declaration order, with each
    field's descriptor, operations and default; its values are tuples. An enum declared with
    [schema_enum!] is the list of its variants and its values are sums. The hash is [blake3], a
    parameter. *)

From S2P Require Import Prelude Types Floats FloatBits Codec Reader Schema SchemaValues.
Local Open Scope N_scope.
Local Open Scope engine_scope.

(** [b"NSC1"] and its length with the fingerprint's. *)
Definition MAGIC : list byte := [x4e; x53; x43; x31].
Definition ENVELOPE : N := 36.

(** ** The declarations of [schema!] *)

Inductive Fields : Type -> Type :=
| FNil : Fields unit
| FCons {T R : Type} (field : FieldDescriptor) (FV : FieldValue T) (CV : CompactValue T) (default : T)
    (rest : Fields R) : Fields (T * R).

Record Schema (R : Type) := mkSchema {
  sch_id : SchemaId;
  sch_version : N;
  sch_representation : Representation;
  sch_fields : Fields R;
}.
Arguments mkSchema {R}.
Arguments sch_id {R}.
Arguments sch_version {R}.
Arguments sch_representation {R}.
Arguments sch_fields {R}.

(** [S::FIELDS] and [S::defaults()]. *)
Fixpoint descriptors {R} (fs : Fields R) : list FieldDescriptor :=
  match fs with FNil => [] | FCons field _ _ _ rest => field :: descriptors rest end.
Definition field_ids {R} (fs : Fields R) : list FieldId := fd_id <$> descriptors fs.
Fixpoint defaults {R} (fs : Fields R) : R :=
  match fs with FNil => tt | FCons _ _ _ default rest => (default, defaults rest) end.

Fixpoint fields_eqb {R} (fs : Fields R) : R -> R -> bool :=
  match fs with
  | FNil => fun _ _ => true
  | FCons _ FV _ _ rest => fun a b => eqb a.1 b.1 && fields_eqb rest a.2 b.2
  end.

(** The generated [match id.0 { .. _ => unreachable!() }], a panic: the identities that are looked up are
    those of the fields ([ordered FIELDS]), so the answer given here is never reached. *)
Definition unreachable {X A} : spends X A := fail InvalidSchema.

Fixpoint maximum_fields {R} (fs : Fields R) (d total : N) : spends unit N :=
  match fs with
  | FNil => ret total
  | @FCons T _ _ FV _ _ rest =>
      let* field_size := maximum_size (T:=T) (d + 1) in
      let* total := size (total + 6 + field_size) in
      maximum_fields rest d total
  end.

Fixpoint fields_size {R} (fs : Fields R) (d total : N) : R -> spends unit N :=
  match fs with
  | FNil => fun _ => ret total
  | FCons field FV _ _ rest => fun v =>
      let* field_size := value_size v.1 (fd_spec field) (d + 1) in
      let* total := size (total + 6 + field_size) in
      fields_size rest d total v.2
  end.

(** [ordered(Self::FIELDS, work.limits.fields)?]. *)
Definition ordered_fields {X R} (fs : Fields R) : spends X (list FieldId) :=
  let* w := get_work in
  of_result (ordered (field_ids fs) (fields (limits w))).

(** [write_field]. *)
Definition write_field {T} (FV : FieldValue T) (id : FieldId) (value : T) (d : N) : spends (list byte) unit :=
  let* _ := append (to_le_bytes 2 id) in
  let* start := out_len in
  let* _ := append (to_le_bytes 4 0) in
  let* _ := write value (d + 1) in
  patch_length start.

Fixpoint write_field_at {R} (fs : Fields R) (id : FieldId) (d : N) : R -> spends (list byte) unit :=
  match fs with
  | FNil => fun _ => unreachable
  | FCons field FV _ _ rest => fun v =>
      if decide (id = fd_id field) then write_field FV id v.1 d else write_field_at rest id d v.2
  end.

(** A [for] loop over identities. *)
Fixpoint for_ids {X} (ids : list FieldId) (body : FieldId -> spends X unit) : spends X unit :=
  match ids with
  | [] => ret tt
  | id :: ids => let* _ := body id in for_ids ids body
  end.

Definition write_fields {R} (fs : Fields R) (v : R) (d : N) : spends (list byte) unit :=
  let* ids := ordered_fields fs in
  for_ids ids (fun id => write_field_at fs id d v).

(** The locals [let mut $field: Option<$ty> = None], one per field. *)
Fixpoint slots {R} (fs : Fields R) : Type :=
  match fs with FNil => unit | @FCons T _ _ _ _ _ rest => (option T * slots rest)%type end.
Fixpoint no_slots {R} (fs : Fields R) : slots fs :=
  match fs with FNil => tt | FCons _ _ _ _ rest => (None, no_slots rest) end.

(** [Ok(Self { $field: $field.ok_or(MissingField)? })]. *)
Fixpoint collect {R} (fs : Fields R) : slots fs -> result SchemaError R :=
  match fs with
  | FNil => fun _ => Ok tt
  | FCons field _ _ _ rest => fun s =>
      let? v := ok_or s.1 (MissingField (fd_id field)) in
      let? r := collect rest s.2 in
      Ok (v, r)
  end.

Fixpoint read_field_at {R} (fs : Fields R) (id : FieldId) (bytes : list byte) (d : N)
  : slots fs -> spends unit (slots fs) :=
  match fs with
  | FNil => fun _ => fail (UnknownField id)
  | FCons field FV _ _ rest => fun s =>
      if decide (id = fd_id field)
      then let* v := read bytes (d + 1) in ret (Some v, s.2)
      else let* s' := read_field_at rest id bytes d s.2 in ret (s.1, s')
  end.

Fixpoint read_loop {R} (fs : Fields R) (n : nat) (d : N) (s : slots fs) : spends Cursor (slots fs) :=
  match n with
  | O => ret s
  | S n =>
      let* f := get_field in
      let '(id, bytes) := f in
      let* s := lift (read_field_at fs id bytes d s) in
      read_loop fs n d s
  end.

Definition read_fields {R} (fs : Fields R) (d n : N) : spends Cursor R :=
  let* s := read_loop fs (N.to_nat n) d (no_slots fs) in
  of_result (collect fs s).

(** ** Records *)

Section Record.
Context {R : Type} (sch : Schema R).

Definition record_maximum (d : N) : spends unit N :=
  let* _ := node d in
  let* _ := ordered_fields (sch_fields sch) in
  let* n := maximum_fields (sch_fields sch) d 0 in
  size (10 + n).

Definition record_size (value : R) (d : N) : spends unit N :=
  let* _ := node d in
  let* _ := ordered_fields (sch_fields sch) in
  let* n := fields_size (sch_fields sch) d 0 value in
  size (10 + n).

Definition write_record (value : R) (d : N) : spends (list byte) unit :=
  let* _ := node d in
  let* _ := append (to_le_bytes 4 (sch_id sch)) in
  let* _ := append (to_le_bytes 4 (sch_version sch)) in
  let* _ := append (to_le_bytes 2 (len (field_ids (sch_fields sch)))) in
  write_fields (sch_fields sch) value d.

Definition read_record (bytes : list byte) (d : N) : spends unit R :=
  let* _ := node d in
  let* _ := size (len bytes) in
  with_cursor bytes
    (let* id := get_u32 in
     if decide (id <> sch_id sch) then fail IncompatibleSchema
     else
       let* version := get_u32 in
       if decide (version <> sch_version sch) then fail IncompatibleSchema
       else
         let* n := get_u16 in
         let* w := get_work in
         if decide (fields (limits w) < n \/ len (field_ids (sch_fields sch)) < n) then fail CountBudget
         else
           let* left := remaining in
           match checked_mul usize_max n 6 with
           | None => fail Truncated
           | Some needed =>
               if decide (left < needed) then fail Truncated
               else
                 let* value := read_fields (sch_fields sch) d n in
                 let* _ := finish in
                 ret value
           end).

(** [op(.., &mut Work::new(limits), ..)]. *)
Definition run {X A} (m : spends X A) (l : SchemaLimits) (x : X) : result SchemaError (A * X) :=
  match m x (Work_new l) with Ok (a, x, _) => Ok (a, x) | Err e => Err e end.

Definition raw_encode (value : R) (l : SchemaLimits) : result SchemaError (list byte) :=
  let? _ := run (record_size value 0) l tt in
  let? r := run (write_record value 0) l [] in
  Ok r.2.
End Record.

(** ** Inspection *)

Section Inspection.
Context (blake3 : list byte -> list byte).

(** [b"engine_net/schema/exact-canonical/v1"]. *)
Definition DOMAIN : list byte :=
  Eval compute in String.list_byte_of_string "engine_net/schema/exact-canonical/v1".

Definition Inspection_new (l : SchemaLimits) : Inspection :=
  mkInspection l DOMAIN 0 false [] (repeat x00 32).

Definition hash_units (u : Units) (i : Inspection) : result SchemaError Inspection :=
  match u with
  | Custom name => i_text name (i_tag 5 i)
  | Unitless => Ok (i_tag 0 i)
  | Metres => Ok (i_tag 1 i)
  | Seconds => Ok (i_tag 2 i)
  | Ticks => Ok (i_tag 3 i)
  | Radians => Ok (i_tag 4 i)
  end.

(** [i64::to_le_bytes]. *)
Definition i64_le_bytes (v : Z) : list byte := to_le_bytes 8 (Z.to_N (v mod 2 ^ 64)).

Definition hash_range (r : Range) (i : Inspection) : Inspection :=
  match r with
  | RangeNone => i_tag 0 i
  | Unsigned low high => i_number high (i_number low (i_tag 1 i))
  | Signed low high => update (i64_le_bytes high) (update (i64_le_bytes low) (i_tag 2 i))
  | Float32 low high =>
      update (to_le_bytes 4 (f32_to_bits (float_canonical high)))
        (update (to_le_bytes 4 (f32_to_bits (float_canonical low))) (i_tag 3 i))
  | Float64 low high =>
      update (to_le_bytes 8 (f64_to_bits (float_canonical high)))
        (update (to_le_bytes 8 (f64_to_bits (float_canonical low))) (i_tag 4 i))
  end.

(** The part of [Inspection::field] that hashes the field's policies. *)
Definition hash_policies (s : FieldSpec) (i : Inspection) : Inspection :=
  let i := i_tag 0 i in
  let i := i_tag (authority_u8 (authority s)) i in
  let i := i_tag (visibility_u8 (visibility s)) i in
  let i := i_tag (prediction_u8 (prediction s)) i in
  let i := i_tag (interpolation_u8 (interpolation s)) i in
  let i := i_tag (change_u8 (change s)) i in
  let i := i_number (introduced (compatibility s)) i in
  i_tag (if required (compatibility s) then 1 else 0) i.

(** The checks of [Inspection::field]. *)
Definition check_field (field : FieldDescriptor) (bound : Visibility) (replay : Prediction) (version : N)
    (i : Inspection) : result SchemaError Inspection :=
  let? n := ok_or (checked_add usize_max (i_nodes i) 1) ValueBudget in
  if decide (value_nodes (i_limits i) < n) then Err ValueBudget
  else
    let i := i <| i_nodes := n |> in
    let s := fd_spec field in
    if decide (fd_id field = 0 \/ fd_name field = [] \/ 128 < len (fd_name field))
    then Err (InvalidField (fd_id field))
    else if decide (quantizer s <> ExactCanonical) then Err UnsupportedQuantizer
    else if decide (required (compatibility s) = false) then Err UnsupportedCompatibility
    else if decide (introduced (compatibility s) = 0 \/ version < introduced (compatibility s))
    then Err (InvalidField (fd_id field))
    else if decide (visibility_u8 bound < visibility_u8 (visibility s)) then Err VisibilityDowngrade
    else if decide (prediction_u8 replay < prediction_u8 (prediction s)) then Err PredictionDowngrade
    else if decide (prediction s = Replayed) then
      if decide (authority s <> Server \/ interpolation s <> InterpolateNone) then Err InvalidInterpolation
      else if decide (bound = Public) then Err PredictionDowngrade
      else Ok (i <| i_restore_required := true |>)
    else Ok i.

Definition inspect_field {T} (FV : FieldValue T) (field : FieldDescriptor) (d : N) (bound : Visibility)
    (replay : Prediction) (version : N) (i : Inspection) : result SchemaError Inspection :=
  let? i := check_field field bound replay version i in
  let s := fd_spec field in
  let? i := hash_units (units s) (i_number (fd_id field) i) in
  inspect (T:=T) s (d + 1) (hash_policies s (hash_range (range s) i)).

Fixpoint inspect_field_at {R} (fs : Fields R) (id : FieldId) (d : N) (bound : Visibility) (replay : Prediction)
    (version : N) (i : Inspection) : result SchemaError Inspection :=
  match fs with
  | FNil => Err InvalidSchema
  | FCons field FV _ _ rest =>
      if decide (id = fd_id field) then inspect_field FV field d bound replay version i
      else inspect_field_at rest id d bound replay version i
  end.

Fixpoint inspect_loop {R} (fs : Fields R) (ids : list FieldId) (d : N) (bound : Visibility) (replay : Prediction)
    (version : N) (i : Inspection) : result SchemaError Inspection :=
  match ids with
  | [] => Ok i
  | id :: ids =>
      let? i := inspect_field_at fs id d bound replay version i in
      inspect_loop fs ids d bound replay version i
  end.

Definition inspect_fields {R} (fs : Fields R) (d : N) (bound : Visibility) (replay : Prediction) (version : N)
    (i : Inspection) : result SchemaError Inspection :=
  let? ids := ordered (field_ids fs) (fields (i_limits i)) in
  inspect_loop fs ids d bound replay version i.

(** The last part of [Inspection::schema]: the identity is compared with one of the same schema
    that is known already, or remembered. *)
Definition remember (identity : SchemaIdentity) (i : Inspection) : result SchemaError Inspection :=
  match list_find (fun e => si_schema e = si_schema identity) (i_known i) with
  | Some (_, existing) => if decide (existing <> identity) then Err DuplicateSchema else Ok i
  | None =>
      if decide (schemas (i_limits i) <= len (i_known i)) then Err CountBudget
      else Ok (i <| i_known := i_known i ++ [identity] |>)
  end.

Definition inspect_schema {R} (sch : Schema R) (d : N) (bound : Visibility) (replay : Prediction) (i : Inspection)
  : result SchemaError Inspection :=
  let l := i_limits i in
  if decide (nesting l < d) then Err NestingBudget
  else if decide (sch_id sch = 0 \/ sch_version sch = 0) then Err InvalidSchema
  else if decide (visibility_u8 bound < visibility_u8 (representation_visibility (sch_representation sch)))
  then Err VisibilityDowngrade
  else
    let? maximum := run (record_maximum sch d) l tt in
    match checked_add usize_max maximum.1 36 with
    | None => Err WireBudget
    | Some n =>
        if decide (wire_bytes l < n) then Err WireBudget
        else
          let parent := i_hash i in
          let i := i <| i_hash := DOMAIN |> in
          let i := i_number (sch_version sch) (i_number (sch_id sch) (i_tag 20 i)) in
          let i := i_tag (representation_u8 (sch_representation sch)) i in
          let? ids := ordered (field_ids (sch_fields sch)) (fields l) in
          let i := i_number (len ids) i in
          let? i := inspect_fields (sch_fields sch) d (representation_visibility (sch_representation sch))
                      replay (sch_version sch) i in
          match raw_encode sch (defaults (sch_fields sch)) l with
          | Err _ => Err InvalidDefault
          | Ok encoded =>
              let i := update encoded (i_number (len encoded) i) in
              let identity := mkSchemaIdentity (sch_id sch) (sch_version sch) (blake3 (i_hash i)) in
              let? i := remember identity i in
              let i := update (si_fingerprint identity) (i <| i_hash := parent |>) in
              Ok (if decide (d = 0) then i <| i_root := si_fingerprint identity |> else i)
          end
    end.

(** [impl FieldValue for $name]. *)
Definition record_value {R} (layout : N) (sch : Schema R) : FieldValue R := {|
  eqb := fields_eqb (sch_fields sch);
  size_of := layout;
  inspect s d i :=
    let? _ := no_range s in
    let? _ := discrete s in
    inspect_schema sch d (visibility s) (prediction s) i;
  maximum_size := record_maximum sch;
  value_size v s d :=
    let* _ := of_result (no_range s) in
    record_size sch v d;
  write := write_record sch;
  read := read_record sch;
|}.
End Inspection.

(** [impl CompactValue for $name]. *)
Fixpoint write_compact_at {R} (fs : Fields R) (id : FieldId) (d : N) : R -> spends (list byte) unit :=
  match fs with
  | FNil => fun _ => unreachable
  | FCons field _ CV _ rest => fun v =>
      if decide (id = fd_id field) then write_compact v.1 (d + 1) else write_compact_at rest id d v.2
  end.

Fixpoint read_compact_at {R} (fs : Fields R) (id : FieldId) (d : N) : slots fs -> spends Cursor (slots fs) :=
  match fs with
  | FNil => fun _ => unreachable
  | FCons field _ CV _ rest => fun s =>
      if decide (id = fd_id field)
      then let* v := read_compact (d + 1) in ret (Some v, s.2)
      else let* s' := read_compact_at rest id d s.2 in ret (s.1, s')
  end.

Fixpoint read_compact_loop {R} (fs : Fields R) (ids : list FieldId) (d : N) (s : slots fs)
  : spends Cursor (slots fs) :=
  match ids with
  | [] => ret s
  | id :: ids => let* s := read_compact_at fs id d s in read_compact_loop fs ids d s
  end.

Definition record_compact {R} (sch : Schema R) : CompactValue R := {|
  write_compact v d :=
    let* _ := node d in
    let* ids := ordered_fields (sch_fields sch) in
    for_ids ids (fun id => write_compact_at (sch_fields sch) id d v);
  read_compact d :=
    let* _ := node d in
    let* ids := ordered_fields (sch_fields sch) in
    let* s := read_compact_loop (sch_fields sch) ids d (no_slots (sch_fields sch)) in
    of_result (collect (sch_fields sch) s);
|}.

(** ** The declarations of [schema_enum!] *)

(** *** Variants without payload: a value is the position of its variant *)

Definition enum_inspect (ids : list N) (s : FieldSpec) (_ : N) (i : Inspection) : result SchemaError Inspection :=
  let? _ := no_range s in
  let? _ := discrete s in
  let? sorted := enum_ids ids in
  Ok (foldl (fun i id => i_number id i) (i_number (len sorted) (i_tag 16 i)) sorted).

Definition enum_value (layout : N) (ids : list N) : FieldValue nat := {|
  eqb a b := bool_decide (a = b);
  size_of := layout;
  inspect := enum_inspect ids;
  maximum_size d := let* _ := node d in ret 2;
  value_size _ _ d := let* _ := node d in ret 2;
  write v d := let* _ := node d in append (to_le_bytes 2 (nth v ids 0));
  read bytes d :=
    let* _ := node d in
    if decide (length bytes = 2%nat) then
      match list_find (eq (from_le_bytes bytes)) ids with
      | Some (v, _) => ret v
      | None => fail InvalidEncoding
      end
    else fail InvalidEncoding;
|}.

Definition enum_compact (layout : N) (ids : list N) : CompactValue nat := {|
  write_compact v d := write (FieldValue := enum_value layout ids) v d;
  read_compact d :=
    let* bytes := take_bytes 2 in
    lift (read (FieldValue := enum_value layout ids) bytes d);
|}.

(** *** Variants with a payload *)

Inductive Variants : Type -> Type :=
| VNil : Variants Empty_set
| VCons {T R : Type} (id : N) (FV : FieldValue T) (CV : CompactValue T) (rest : Variants R) : Variants (T + R).

Fixpoint variant_ids {R} (vs : Variants R) : list N :=
  match vs with VNil => [] | VCons id _ _ rest => id :: variant_ids rest end.

Fixpoint variants_eqb {R} (vs : Variants R) : R -> R -> bool :=
  match vs with
  | VNil => fun _ _ => false
  | VCons _ FV _ rest => fun a b =>
      match a, b with
      | inl x, inl y => eqb x y
      | inr x, inr y => variants_eqb rest x y
      | _, _ => false
      end
  end.

Fixpoint inspect_variant_at {R} (vs : Variants R) (id : N) (s : FieldSpec) (d : N) (i : Inspection)
  : result SchemaError Inspection :=
  match vs with
  | VNil => Err InvalidSchema
  | @VCons T _ id' FV _ rest =>
      if decide (id = id') then inspect (T:=T) s (d + 1) i else inspect_variant_at rest id s d i
  end.

Fixpoint inspect_variants {R} (vs : Variants R) (ids : list N) (s : FieldSpec) (d : N) (i : Inspection)
  : result SchemaError Inspection :=
  match ids with
  | [] => Ok i
  | id :: ids =>
      let? i := inspect_variant_at vs id s d (i_number id i) in
      inspect_variants vs ids s d i
  end.

Definition sum_inspect {R} (vs : Variants R) (s : FieldSpec) (d : N) (i : Inspection)
  : result SchemaError Inspection :=
  let? _ := no_range s in
  let? _ := discrete s in
  let? sorted := enum_ids (variant_ids vs) in
  inspect_variants vs sorted s d (i_number (len sorted) (i_tag 17 i)).

Fixpoint variants_max {R} (vs : Variants R) (before : Work) (d total : N) : spends unit N :=
  match vs with
  | VNil => ret total
  | @VCons T _ _ FV _ rest =>
      match maximum_size (T:=T) (d + 1) tt before with
      | Err e => fail e
      | Ok (n, _, branch) =>
          let* w := get_work in
          let* _ := set_work (merge_max w branch) in
          variants_max rest before d (N.max total n)
      end
  end.

Fixpoint variant_size {R} (vs : Variants R) (s : FieldSpec) (d : N) : R -> spends unit N :=
  match vs with
  | VNil => fun v => match v with end
  | VCons _ FV _ rest => fun v =>
      match v with inl x => value_size x s (d + 1) | inr v => variant_size rest s d v end
  end.

Fixpoint write_variant {R} (vs : Variants R) (d : N) : R -> spends (list byte) unit :=
  match vs with
  | VNil => fun v => match v with end
  | VCons id FV _ rest => fun v =>
      match v with
      | inl x => let* _ := append (to_le_bytes 2 id) in write x (d + 1)
      | inr v => write_variant rest d v
      end
  end.

Fixpoint read_variant {R} (vs : Variants R) (tag : N) (body : list byte) (d : N) : spends unit R :=
  match vs with
  | VNil => fail InvalidEncoding
  | VCons id FV _ rest =>
      if decide (tag = id) then let* x := read body (d + 1) in ret (inl x)
      else let* v := read_variant rest tag body d in ret (inr v)
  end.

Definition sum_value {R} (layout : N) (vs : Variants R) : FieldValue R := {|
  eqb := variants_eqb vs;
  size_of := layout;
  inspect := sum_inspect vs;
  maximum_size d :=
    let* _ := node d in
    let* before := get_work in
    let* n := variants_max vs before d 0 in
    size (2 + n);
  value_size v s d :=
    let* _ := node d in
    let* n := variant_size vs s d v in
    size (2 + n);
  write v d := let* _ := node d in write_variant vs d v;
  read bytes d :=
    let* _ := node d in
    let* b := with_cursor bytes
      (let* tag := get_u16 in
       let* left := remaining in
       let* body := take_bytes left in
       ret (tag, body)) in
    read_variant vs b.1 b.2 d;
|}.

Fixpoint write_variant_compact {R} (vs : Variants R) (d : N) : R -> spends (list byte) unit :=
  match vs with
  | VNil => fun v => match v with end
  | VCons id _ CV rest => fun v =>
      match v with
      | inl x => let* _ := append (to_le_bytes 2 id) in write_compact x (d + 1)
      | inr v => write_variant_compact rest d v
      end
  end.

Fixpoint read_variant_compact {R} (vs : Variants R) (tag d : N) : spends Cursor R :=
  match vs with
  | VNil => fail InvalidEncoding
  | VCons id _ CV rest =>
      if decide (tag = id) then let* x := read_compact (d + 1) in ret (inl x)
      else let* v := read_variant_compact rest tag d in ret (inr v)
  end.

Definition sum_compact {R} (vs : Variants R) : CompactValue R := {|
  write_compact v d := let* _ := node d in write_variant_compact vs d v;
  read_compact d :=
    let* _ := node d in
    let* tag := get_u16 in
    read_variant_compact vs tag d;
|}.

(** ** The codec of a registered schema *)

Record SchemaCodec := mkSchemaCodec { co_identity : SchemaIdentity; co_limits : SchemaLimits }.

Section Codec.
Context {R : Type} (sch : Schema R) (codec : SchemaCodec).

Definition encode (value : R) : result SchemaError (list byte) :=
  let l := co_limits codec in
  let? n := run (record_size sch value 0) l tt in
  match checked_add usize_max n.1 ENVELOPE with
  | None => Err WireBudget
  | Some total =>
      if decide (wire_bytes l < total) then Err WireBudget
      else
        let? r := run (write_record sch value 0) l (MAGIC ++ si_fingerprint (co_identity codec)) in
        Ok r.2
  end.

Definition decode (bytes : list byte) : result SchemaError R :=
  let l := co_limits codec in
  if decide (wire_bytes l < len bytes) then Err WireBudget
  else
    let? magic := read_take Truncated 4 bytes in
    if decide (magic.1 <> MAGIC) then Err IncompatibleSchema
    else
      let? fingerprint := read_take Truncated 32 magic.2 in
      if decide (fingerprint.1 <> si_fingerprint (co_identity codec)) then Err IncompatibleSchema
      else
        let? value := run (read_record sch fingerprint.2 0) l tt in
        let? _ := run (record_size sch value.1 0) l tt in
        Ok value.1.

Definition default_value : result SchemaError R :=
  let? bytes := encode (defaults (sch_fields sch)) in
  decode bytes.

Definition encode_compact (value : R) : result SchemaError (list byte) :=
  let l := co_limits codec in
  let? _ := run (record_size sch value 0) l tt in
  let? r := run (write_compact (CompactValue := record_compact sch) value 0) l [] in
  Ok r.2.

Definition decode_compact (bytes : list byte) : result SchemaError R :=
  let l := co_limits codec in
  if decide (wire_bytes l < len bytes) then Err WireBudget
  else
    let? value := run (let* v := read_compact (CompactValue := record_compact sch) 0 in
                       let* _ := finish in
                       ret v) l (Cursor_new bytes) in
    let? _ := run (record_size sch value.1 0) l tt in
    Ok value.1.

(** *** Diagnostics *)

Definition diagnostic_field {T} (FV : FieldValue T) (field : FieldDescriptor) (before after : T)
    (access : DiagnosticAccess) : spends (list FieldChange) unit := fun out w =>
  if decide (eqb before after = true /\ change (fd_spec field) = CanonicalEquality) then Ok (tt, out, w)
  else if permits access field then
    let? a := run (value_size before (fd_spec field) 0) (limits w) tt in
    let? b := run (value_size after (fd_spec field) 0) (limits w) tt in
    let? r := allocate (a.1 + b.1) tt w in
    let '(_, _, w) := r in
    let? old := run (write before 0) (limits w) [] in
    let? new := run (write after 0) (limits w) [] in
    Ok (tt, out ++ [mkFieldChange (fd_id field) (Some old.2) (Some new.2)], w)
  else Ok (tt, out ++ [mkFieldChange (fd_id field) None None], w).

Fixpoint diagnose_at {S} (fs : Fields S) (id : FieldId) (access : DiagnosticAccess)
  : S -> S -> spends (list FieldChange) unit :=
  match fs with
  | FNil => fun _ _ => unreachable
  | FCons field FV _ _ rest => fun a b =>
      if decide (id = fd_id field)
      then diagnostic_field FV field a.1 b.1 access
      else diagnose_at rest id access a.2 b.2
  end.

Definition diagnose {S} (fs : Fields S) (before after : S) (access : DiagnosticAccess)
  : spends (list FieldChange) unit :=
  let* ids := ordered_fields fs in
  for_ids ids (fun id => diagnose_at fs id access before after).

(** [change_bytes] is [size_of::<FieldChange>()]. *)
Definition changes (change_bytes : N) (before after : R) (access : DiagnosticAccess)
  : result SchemaError (list FieldChange) :=
  let l := co_limits codec in
  let? _ := run (record_size sch before 0) l tt in
  let? _ := run (record_size sch after 0) l tt in
  let? r := run (let* _ := reserve change_bytes (len (field_ids (sch_fields sch))) in
                 diagnose (sch_fields sch) before after access) l [] in
  Ok r.2.
End Codec.
