(* ===== verification/SchemaRegistry.v ===== *)
(** * Registered schemas

    Models [schema/registry.rs]: a registry admits a schema after inspecting its whole declaration,
    remembers the identity of every schema nested in it, and compares its identities with a
    peer's. The world a schema captures from and the game's hooks are parameters. *)

From S2P Require Import Prelude Types Floats Codec InterestModel Reader Schema SchemaValues SchemaRecords.
Local Open Scope N_scope.
Local Open Scope engine_scope.

Section Hooks.
Context {R W : Type}.

Inductive DependencyDeclaration :=
| Unspecified
| NoneRequired
| DependsExternal (policy : N)
| Declared (policy : N) (collect : R -> result SchemaError (list EntityId)).

Inductive LifecycleDeclaration :=
| StaticOnly
| LivesExternal (policy : N).

Record Registration := mkRegistration {
  capture_hook : W -> result SchemaError R;
  restore_hook : option (W -> R -> result SchemaError W);
  dependencies : DependencyDeclaration;
  lifecycle : LifecycleDeclaration;
}.

Record RegisteredSchema := mkRegisteredSchema { rs_codec : SchemaCodec; rs_hooks : Registration }.
End Hooks.
Arguments DependencyDeclaration : clear implicits.
Arguments Registration : clear implicits.
Arguments RegisteredSchema : clear implicits.

Fixpoint has_repeat {A} `{EqDecision A} (l : list A) : bool :=
  match l with
  | a :: ((b :: _) as rest) => bool_decide (a = b) || has_repeat rest
  | _ => false
  end.

Section Registered.
Context {R W : Type} (sch : Schema R) (r : RegisteredSchema R W).

Definition capture (world : W) : result SchemaError R :=
  let? value := capture_hook (rs_hooks r) world in
  let? _ := encode sch (rs_codec r) value in
  Ok value.

Definition restore_replacement (world : W) (state : R) : result SchemaError W :=
  let? expected := encode sch (rs_codec r) state in
  let? restore := ok_or (restore_hook (rs_hooks r)) NoRestore in
  let? replacement := restore world state in
  let? restored := capture_hook (rs_hooks r) replacement in
  let? encoded := encode sch (rs_codec r) restored in
  if decide (encoded <> expected) then Err RestoreMismatch else Ok replacement.

Definition declared_dependencies (state : R) : result SchemaError (list EntityId) :=
  let? _ := encode sch (rs_codec r) state in
  let? collected :=
    match dependencies (rs_hooks r) with
    | NoneRequired => Ok []
    | DependsExternal _ => Err DependencyContextRequired
    | Declared _ collect => collect state
    | Unspecified => Err MissingDependencyDeclaration
    end in
  let sorted := merge_sort entity_le collected in
  if decide (Exists (fun id => index id = 0 \/ generation id = 0) sorted) then Err InvalidDependency
  else if has_repeat sorted then Err InvalidDependency
  else match BoundedVec_new 64 sorted with Ok v => Ok v | Err _ => Err CountBudget end.

Definition external_dependency_policy : option N :=
  match dependencies (rs_hooks r) with DependsExternal policy => Some policy | _ => None end.

Definition lifecycle_declaration : LifecycleDeclaration := lifecycle (rs_hooks r).
End Registered.

(** ** The registry *)

Record SchemaRegistry := mkSchemaRegistry {
  sr_limits : SchemaLimits;
  sr_entries : list SchemaIdentity;
  sr_roots : gset SchemaId;
}.

Definition SchemaRegistry_new (l : SchemaLimits) : result SchemaError SchemaRegistry :=
  let? l := SchemaLimits_validate l in
  Ok (mkSchemaRegistry l [] ∅).

Definition identity_le (a b : SchemaIdentity) : Prop := si_schema a <= si_schema b.
#[global] Instance identity_le_dec : RelDecision identity_le.
Proof. intros a b. unfold identity_le. apply _. Defined.

(** The entry with a schema's identity; the entries are sorted and [binary_search_by_key] finds
    the one there is. *)
Definition find_entry (id : SchemaId) (entries : list SchemaIdentity) : option SchemaIdentity :=
  snd <$> list_find (fun e => si_schema e = id) entries.

Fixpoint additions (entries known : list SchemaIdentity) : result SchemaError (list SchemaIdentity) :=
  match known with
  | [] => Ok []
  | candidate :: known =>
      match find_entry (si_schema candidate) entries with
      | Some e =>
          if decide (e <> candidate) then Err DuplicateSchema else additions entries known
      | None => let? rest := additions entries known in Ok (candidate :: rest)
      end
  end.

(** The checks of the hooks against the inspected declaration. *)
Definition check_hooks {R W} (hooks : Registration R W) (restore_required : bool) : result SchemaError unit :=
  if restore_required && negb (bool_decide (is_Some (restore_hook hooks))) then Err MissingRestore
  else match dependencies hooks with
  | Unspecified => Err MissingDependencyDeclaration
  | Declared 0 _ | DependsExternal 0 => Err MissingDependencyDeclaration
  | _ =>
      match lifecycle hooks with
      | LivesExternal 0 => Err InvalidLifecycleDeclaration
      | _ => Ok tt
      end
  end.

Section Registry.
Context (blake3 : list byte -> list byte) {R W : Type}.

Definition register (reg : SchemaRegistry) (sch : Schema R) (hooks : Registration R W)
  : result SchemaError (SchemaRegistry * RegisteredSchema R W) :=
  if decide (sch_id sch ∈ sr_roots reg) then Err DuplicateSchema
  else
    let? i := inspect_schema blake3 sch 0 ServerOnly Replayed (Inspection_new (sr_limits reg)) in
    let? _ := check_hooks hooks (i_restore_required i) in
    let identity := mkSchemaIdentity (sch_id sch) (sch_version sch) (i_root i) in
    let? added := additions (sr_entries reg) (i_known i) in
    if decide (schemas (sr_limits reg) < len (sr_entries reg) + len added) then Err CountBudget
    else Ok (mkSchemaRegistry (sr_limits reg) (merge_sort identity_le (sr_entries reg ++ added))
               ({[sch_id sch]} ∪ sr_roots reg),
             mkRegisteredSchema (mkSchemaCodec identity (sr_limits reg)) hooks).
End Registry.

Definition require_exact_match (reg : SchemaRegistry) (peer : list SchemaIdentity) : result SchemaError unit :=
  if decide (schemas (sr_limits reg) < len peer) then Err CountBudget
  else if decide (len peer <> len (sr_entries reg)) then Err IncompatibleSchema
  else if decide (merge_sort identity_le peer <> sr_entries reg) then Err IncompatibleSchema
  else Ok tt.
