(* ===== verification/SchemaLaws.v ===== *)
(** * What a field value promises

    The contract the source states of a [FieldValue] (bounded, exact, canonical), as the class
    [Lawful]: every value has one encoding, the operations spend a cost that depends on the value
    only, and the declared maximum bounds it. Costs are commutative, so the order in which the
    source visits fields does not matter. *)

From S2P Require Import Prelude Types Floats Codec Reader Schema.
Local Open Scope N_scope.
Local Open Scope engine_scope.

(** ** Costs *)

Record Cost := mkCost { c_nodes : N; c_alloc : N; c_items : N; c_text : N }.

Definition cost0 : Cost := mkCost 0 0 0 0.
Definition cost_add (a b : Cost) : Cost :=
  mkCost (c_nodes a + c_nodes b) (c_alloc a + c_alloc b) (c_items a + c_items b) (c_text a + c_text b).
Definition cost_le (a b : Cost) : Prop :=
  c_nodes a <= c_nodes b /\ c_alloc a <= c_alloc b /\ c_items a <= c_items b /\ c_text a <= c_text b.
Definition node1 : Cost := mkCost 1 0 0 0.
Definition cost_items (n : N) : Cost := mkCost 0 0 n 0.
Definition cost_text (n : N) : Cost := mkCost 0 0 0 n.
Definition cost_alloc (n : N) : Cost := mkCost 0 n 0 0.
Definition cost_sum (l : list Cost) : Cost := foldr cost_add cost0 l.

Infix "⊕" := cost_add (at level 50, left associativity) : engine_scope.
Infix "⪯" := cost_le (at level 70) : engine_scope.

Definition charge (w : Work) (c : Cost) : Work :=
  mkWork (limits w) (nodes w + c_nodes c) (allocated w + c_alloc c) (items w + c_items c) (text_used w + c_text c).

(** Valid limits, none of them exceeded. *)
Definition good (w : Work) : Prop :=
  limits_valid (limits w) = true
  /\ nodes w <= value_nodes (limits w) /\ allocated w <= allocation_bytes (limits w)
  /\ items w <= collection_items (limits w) /\ text_used w <= text_bytes (limits w).

(** Equations and inequations between costs, one resource at a time. *)
Ltac cost_arith :=
  unfold set_field, charge, cost_le, cost_add, cost0, node1, cost_items, cost_text, cost_alloc in *;
  cbn [c_nodes c_alloc c_items c_text limits nodes allocated items text_used] in *;
  try (f_equal; lia); try lia.

Lemma charge_add w a b : charge (charge w a) b = charge w (a ⊕ b).
Proof. cost_arith. Qed.
Lemma charge_0 w : charge w cost0 = w.
Proof. destruct w. cost_arith. Qed.
Lemma cost_add_0_l a : cost0 ⊕ a = a.
Proof. destruct a. cost_arith. Qed.
Lemma cost_add_0_r a : a ⊕ cost0 = a.
Proof. destruct a. cost_arith. Qed.
Lemma cost_add_assoc a b c : a ⊕ (b ⊕ c) = a ⊕ b ⊕ c.
Proof. cost_arith. Qed.
Lemma cost_add_comm a b : a ⊕ b = b ⊕ a.
Proof. cost_arith. Qed.
Lemma limits_charge w c : limits (charge w c) = limits w.
Proof. done. Qed.
#[export] Hint Rewrite charge_add charge_0 cost_add_0_l cost_add_0_r limits_charge : engine.

#[export] Instance cost_le_preorder : PreOrder cost_le.
Proof. split; [intros a | intros a b c]; cost_arith. Qed.
#[export] Instance cost_add_mono : Proper (cost_le ==> cost_le ==> cost_le) cost_add.
Proof. intros a b H c d H'. cost_arith. Qed.
Lemma cost_le_l a b : a ⪯ a ⊕ b.
Proof. cost_arith. Qed.
Lemma cost_le_r a b : b ⪯ a ⊕ b.
Proof. cost_arith. Qed.

Lemma good_mono w a b : a ⪯ b -> good (charge w b) -> good (charge w a).
Proof. intros Hle (H1 & H2). unfold good in *. split; [done |]. cost_arith. Qed.
Lemma good_prefix w a b : good (charge w (a ⊕ b)) -> good (charge w a).
Proof. apply good_mono, cost_le_l. Qed.
Lemma good_charged w a : good (charge w a) -> good w.
Proof. intros H. rewrite <- (charge_0 w). eapply good_mono; [| exact H]. cost_arith. Qed.

Lemma cost_sum_app l k : cost_sum (l ++ k) = cost_sum l ⊕ cost_sum k.
Proof. induction l as [| a l IH]; simpl; [by rewrite cost_add_0_l |]. by rewrite IH, cost_add_assoc. Qed.
Lemma cost_sum_Permutation l k : l ≡ₚ k -> cost_sum l = cost_sum k.
Proof. induction 1; simpl; [done | by f_equal | cost_arith | congruence]. Qed.
Lemma cost_sum_mono {A} (f g : A -> Cost) l : (forall a, a ∈ l -> f a ⪯ g a) -> cost_sum (f <$> l) ⪯ cost_sum (g <$> l).
Proof.
  induction l as [| a l IH]; intros H; simpl; [done |]. apply cost_add_mono; [apply H; by left |].
  apply IH. intros b Hb. apply H. by right.
Qed.

Lemma limits_bounds l : limits_valid l = true ->
  schemas l <= 256 /\ 1 <= fields l <= 256 /\ nesting l <= 16 /\ collection l <= 4096 /\ collection_items l <= 65536
  /\ text_bytes l <= 65535 /\ value_nodes l <= 65536 /\ wire_bytes l <= 65535 /\ allocation_bytes l <= 8388608.
Proof.
  unfold limits_valid. rewrite !andb_true_iff, !bool_decide_eq_true, !negb_true_iff, !bool_decide_eq_false. lia.
Qed.

(** ** The operations of a [Work] *)

Section Spends.
Context {X : Type}.

Lemma bind_Ok {A B} (m : spends X A) (k : A -> spends X B) x w r :
  bind m k x w = Ok r -> exists a x' w', m x w = Ok (a, x', w') /\ k a x' w' = Ok r.
Proof. unfold bind. destruct (m x w) as [[[a x'] w'] |]; [by eauto 6 | done]. Qed.

Lemma bind_step {A B} (m : spends X A) (k : A -> spends X B) x w a x' w' :
  m x w = Ok (a, x', w') -> bind m k x w = k a x' w'.
Proof. unfold bind. by intros ->. Qed.

Lemma of_result_Ok {A} (r : result SchemaError A) (x : X) w a x' w' :
  of_result r x w = Ok (a, x', w') <-> r = Ok a /\ x' = x /\ w' = w.
Proof. unfold of_result. destruct r; naive_solver. Qed.

Lemma ok_or_Ok {E A} (o : option A) (e : E) a : ok_or o e = Ok a <-> o = Some a.
Proof. destruct o; naive_solver. Qed.

Lemma node_Ok d (x : X) w u x' w' : good w ->
  node d x w = Ok (u, x', w') <-> d <= nesting (limits w) /\ x' = x /\ w' = charge w node1 /\ good w'.
Proof.
  intros (Hl & Hg). pose proof (limits_bounds _ Hl) as Hb. unfold node.
  assert (charge w node1 = w <| nodes := nodes w + 1 |>) as -> by (destruct w; cost_arith).
  unfold checked_add. rewrite (decide_True (P := _ <= usize_max)) by (unfold usize_max, u64_max; lia). cbn [ok_or].
  case_decide; [naive_solver lia |]. case_decide; split.
  - done.
  - intros (_ & _ & -> & _ & H' & _). cbn in H'. lia.
  - intros [= <- <- <-]. unfold good, set_field; cbn; split_and?; (done || lia).
  - intros (_ & -> & -> & _). by destruct u.
Qed.

Lemma count_Ok n (x : X) w u x' w' : good w ->
  count n x w = Ok (u, x', w') <-> n <= collection (limits w) /\ x' = x /\ w' = charge w (cost_items n) /\ good w'.
Proof.
  intros (Hl & Hg). pose proof (limits_bounds _ Hl) as Hb. unfold count.
  assert (charge w (cost_items n) = w <| items := items w + n |>) as -> by (destruct w; cost_arith).
  unfold checked_add. case_decide; cbn [ok_or]; [case_decide |]; split.
  - done.
  - intros (? & _ & -> & _ & _ & _ & H' & _). cbn in H'. lia.
  - intros [= <- <- <-]. unfold good, set_field; cbn; split_and?; (done || lia).
  - intros (_ & -> & -> & _). by destruct u.
  - done.
  - intros (? & _). unfold usize_max, u64_max in *. lia.
Qed.

Lemma text_Ok n (x : X) w u x' w' : good w ->
  text n x w = Ok (u, x', w') <-> x' = x /\ w' = charge w (cost_text n) /\ good w'.
Proof.
  intros (Hl & Hg). pose proof (limits_bounds _ Hl) as Hb. unfold text.
  assert (charge w (cost_text n) = w <| text_used := text_used w + n |>) as -> by (destruct w; cost_arith).
  unfold checked_add. case_decide; cbn [ok_or]; [case_decide |]; split.
  - done.
  - intros (_ & -> & _ & _ & _ & _ & H'). cbn in H'. lia.
  - intros [= <- <- <-]. unfold good, set_field; cbn; split_and?; (done || lia).
  - intros (-> & -> & _). by destruct u.
  - done.
  - intros (_ & -> & _ & _ & _ & _ & H'). cbn in H'. unfold usize_max, u64_max in *. lia.
Qed.

Lemma allocate_Ok n (x : X) w u x' w' : good w ->
  allocate n x w = Ok (u, x', w') <-> x' = x /\ w' = charge w (cost_alloc n) /\ good w'.
Proof.
  intros (Hl & Hg). pose proof (limits_bounds _ Hl) as Hb. unfold allocate.
  assert (charge w (cost_alloc n) = w <| allocated := allocated w + n |>) as -> by (destruct w; cost_arith).
  unfold checked_add. case_decide; cbn [ok_or]; [case_decide |]; split.
  - done.
  - intros (_ & -> & _ & _ & H' & _). cbn in H'. lia.
  - intros [= <- <- <-]. unfold good, set_field; cbn; split_and?; (done || lia).
  - intros (-> & -> & _). by destruct u.
  - done.
  - intros (_ & -> & _ & _ & H' & _). cbn in H'. unfold usize_max, u64_max in *. lia.
Qed.

Lemma reserve_spends b n (x : X) w u x' w' : good w ->
  reserve b n x w = Ok (u, x', w') <-> x' = x /\ w' = charge w (cost_alloc (n * b)) /\ good w'.
Proof.
  intros Hg. unfold reserve, bind, of_result, checked_mul. case_decide; cbn [ok_or]; [by apply allocate_Ok |].
  split; [done |]. intros (_ & -> & Hl & _ & H' & _). pose proof (limits_bounds _ Hl) as Hb. cbn in H', Hb.
  unfold usize_max, u64_max in *. lia.
Qed.

Lemma size_Ok n (x : X) w m x' w' :
  size n x w = Ok (m, x', w') <-> m = n /\ x' = x /\ w' = w /\ n <= wire_bytes (limits w).
Proof. unfold size. case_decide; split; try done; [naive_solver lia | | ]; naive_solver lia. Qed.
End Spends.

Lemma lift_Ok {X A} (m : spends unit A) (x : X) w a x' w' :
  lift m x w = Ok (a, x', w') <-> m tt w = Ok (a, tt, w') /\ x' = x.
Proof. unfold lift. destruct (m tt w) as [[[a0 []] w0] |]; naive_solver. Qed.

Lemma append_Ok bytes out w u out' w' : good w ->
  append bytes out w = Ok (u, out', w') <-> out' = out ++ bytes /\ w' = w /\ len out + len bytes <= wire_bytes (limits w).
Proof.
  intros (Hl & _). pose proof (limits_bounds _ Hl) as Hb. unfold append, checked_add, size.
  case_decide; [case_decide |]; split; try done.
  - intros (_ & _ & ?). lia.
  - intros [= <- <- <-]. split_and!; (done || lia).
  - intros (-> & -> & _). by destruct u.
  - intros (_ & _ & ?). unfold usize_max, u64_max in *. lia.
Qed.

(** The four bytes reserved for a length hold it afterwards. *)
Lemma patch_length_Ok before body w : len body <= u32_max ->
  patch_length (len before) (before ++ to_le_bytes 4 0 ++ body) w
  = Ok (tt, before ++ to_le_bytes 4 (len body) ++ body, w).
Proof.
  intros Hb. unfold patch_length, bind, out_len, patch, of_result, try_from.
  assert (len (before ++ to_le_bytes 4 0 ++ body) - len before - 4 = len body) as ->.
  { rewrite !len_app. change (len (to_le_bytes 4 0)) with 4. lia. }
  rewrite decide_True by done. cbn [ok_or]. do 3 f_equal. unfold len at 1. rewrite Nat2N.id, take_app_length. f_equal.
  unfold len at 2. rewrite Nat2N.id, length_to_le_bytes, <- drop_drop, drop_app_length. done.
Qed.

(** Reading through a cursor. *)
Lemma reading_bind {A B} dom enc (dec : reader SchemaError A) `{!Exact dom enc dec} (k : A -> spends Cursor B) c w r :
  bind (reading dec) k c w = Ok r
  <-> exists a rest, dom a /\ cu_bytes c = enc a ++ rest /\ k a (mkCursor rest (cu_previous c)) w = Ok r.
Proof.
  unfold bind, reading. split.
  - destruct (dec (cu_bytes c)) as [[a rest] |] eqn:E; [| done]. intros Hk. apply exact_enc in E as [Hd ->]. eauto.
  - intros (a & rest & Hd & -> & Hk). by rewrite exact_dec.
Qed.

Lemma reading_step {A B} dom enc (dec : reader SchemaError A) `{!Exact dom enc dec} (k : A -> spends Cursor B) a rest p w :
  dom a -> bind (reading dec) k (mkCursor (enc a ++ rest) p) w = k a (mkCursor rest p) w.
Proof. intros Hd. unfold bind, reading. cbn [cu_bytes]. by rewrite exact_dec. Qed.

Lemma take_step {B} n (k : list byte -> spends Cursor B) a rest p w :
  len a = n -> bind (take_bytes n) k (mkCursor (a ++ rest) p) w = k a (mkCursor rest p) w.
Proof. intros Ha. exact (reading_step (fun a => len a = n) (fun a => a) (read_take Truncated n) k a rest p w Ha). Qed.

Lemma u16_step {B} (k : N -> spends Cursor B) v rest p w :
  v < 65536 -> bind get_u16 k (mkCursor (to_le_bytes 2 v ++ rest) p) w = k v (mkCursor rest p) w.
Proof. intros Hv. exact (reading_step (fun v => v < 256 ^ N.of_nat 2) (to_le_bytes 2) (read_le Truncated 2) k v rest p w Hv). Qed.

Lemma u32_step {B} (k : N -> spends Cursor B) v rest p w :
  v < 4294967296 -> bind get_u32 k (mkCursor (to_le_bytes 4 v ++ rest) p) w = k v (mkCursor rest p) w.
Proof. intros Hv. exact (reading_step (fun v => v < 256 ^ N.of_nat 4) (to_le_bytes 4) (read_le Truncated 4) k v rest p w Hv). Qed.

Lemma take_bind {B} n (k : list byte -> spends Cursor B) c w r : bind (take_bytes n) k c w = Ok r ->
  exists a rest, len a = n /\ cu_bytes c = a ++ rest /\ k a (mkCursor rest (cu_previous c)) w = Ok r.
Proof. apply (reading_bind (fun a => len a = n) (fun a => a) (read_take Truncated n)). Qed.

Lemma u16_bind {B} (k : N -> spends Cursor B) c w r : bind get_u16 k c w = Ok r ->
  exists v rest, v < 65536 /\ cu_bytes c = to_le_bytes 2 v ++ rest /\ k v (mkCursor rest (cu_previous c)) w = Ok r.
Proof. apply (reading_bind (fun v => v < 256 ^ N.of_nat 2) (to_le_bytes 2) (read_le Truncated 2)). Qed.

Lemma u32_bind {B} (k : N -> spends Cursor B) c w r : bind get_u32 k c w = Ok r ->
  exists v rest, v < 4294967296 /\ cu_bytes c = to_le_bytes 4 v ++ rest /\ k v (mkCursor rest (cu_previous c)) w = Ok r.
Proof. apply (reading_bind (fun v => v < 256 ^ N.of_nat 4) (to_le_bytes 4) (read_le Truncated 4)). Qed.

Lemma remaining_step {B} (k : N -> spends Cursor B) c w : bind remaining k c w = k (len (cu_bytes c)) c w.
Proof. by destruct c. Qed.

Lemma finish_Ok c w u c' w' : finish c w = Ok (u, c', w') <-> cu_bytes c = [] /\ c' = c /\ w' = w.
Proof. unfold finish. destruct u. case_decide; naive_solver. Qed.

Lemma with_cursor_Ok {X A} bytes (m : spends Cursor A) (x : X) w a x' w' :
  with_cursor bytes m x w = Ok (a, x', w') <-> x' = x /\ exists c, m (Cursor_new bytes) w = Ok (a, c, w').
Proof.
  unfold with_cursor. destruct (m _ w) as [[[a0 c] w0] |]; [| naive_solver].
  split; [naive_solver |]. intros (-> & c' & [= -> -> ->]). done.
Qed.

(** ** The contract *)

(** A length in front of what it counts. *)
Definition framed (bytes : list byte) : list byte := to_le_bytes 4 (len bytes) ++ bytes.

Lemma len_framed bytes : len (framed bytes) = 4 + len bytes.
Proof. unfold framed. rewrite len_app. done. Qed.

Lemma len_fmap {A B} (f : A -> B) l : len (f <$> l) = len l.
Proof. unfold len. by rewrite length_fmap. Qed.

(** A field below one with spec [s] is no more private and no more predicted; when it is replayed
    it is not below a public one, and the inspection asks for a restore hook. *)
Definition sealed (s : FieldSpec) (i : Inspection) (n : FieldSpec) : Prop :=
  visibility_u8 (visibility n) <= visibility_u8 (visibility s)
  /\ prediction_u8 (prediction n) <= prediction_u8 (prediction s)
  /\ (prediction n = Replayed -> visibility s <> Public /\ i_restore_required i = true).

(** An inspection that goes on keeps its limits, its demand for a restore hook, and that every schema
    it knows is known once. *)
Definition grows (i i' : Inspection) : Prop :=
  i_limits i' = i_limits i /\ (i_restore_required i = true -> i_restore_required i' = true)
  /\ (NoDup (si_schema <$> i_known i) -> NoDup (si_schema <$> i_known i')).

#[export] Instance grows_preorder : PreOrder grows.
Proof. split; [done |]. intros a b c (H1 & H2 & H3) (K1 & K2 & K3). split_and!; [congruence | auto | auto]. Qed.

(** Only what was hashed differs. *)
Definition hashed (i i' : Inspection) : Prop :=
  i_limits i' = i_limits i /\ i_restore_required i' = i_restore_required i /\ i_known i' = i_known i.

Lemma hashed_grows i i' : hashed i i' -> grows i i'.
Proof. intros (Hl & Hr & Hk). unfold grows. by rewrite Hl, Hr, Hk. Qed.

Lemma sealed_mono s i i' l : grows i i' ->
  Forall (sealed s i) l -> Forall (sealed s i') l.
Proof. intros (_ & Hi & _) Hl. eapply Forall_impl; [exact Hl |]. intros n (? & ? & ?). unfold sealed. naive_solver. Qed.

(** What every implementation promises of a type, its operations [FV] and [CV]. [wf] is the
    type's own invariant, [writable] holds of values that have an encoding (finite numbers),
    [canon] is the value the decoder gives back (zero without its sign), [fits] says that a value's
    shape is within limits from a depth on and [conforms] that its scalars are within the field's
    range. [declared] collects the conditions on the declaration that inspection establishes. *)
Class Lawful {T : Type} (FV : FieldValue T) (CV : CompactValue T) := {
  wf : T -> Prop;
  writable : T -> Prop;
  canon : T -> T;
  enc : T -> list byte;
  cenc : T -> list byte;
  wcost : T -> Cost;
  rcost : T -> Cost;
  fits : SchemaLimits -> N -> T -> Prop;
  conforms : FieldSpec -> T -> Prop;
  exact : Prop;
  declared : Prop;
  nested : list FieldSpec;

  law_canon v : wf v -> writable v ->
    wf (canon v) /\ writable (canon v) /\ enc (canon v) = enc v /\ wcost (canon v) = wcost v
    /\ (forall l d, fits l d v -> fits l d (canon v)) /\ (forall s, conforms s v -> conforms s (canon v));
  law_conforms s v : wf v -> conforms s v -> writable v;
  law_exact v : exact -> canon v = v;
  law_costs v : wcost v ⪯ rcost v;
  law_compact v : wf v -> writable v -> len (cenc v) <= len (enc v);
  law_size v s d w n u w' : declared -> good w -> wf v -> value_size v s d tt w = Ok (n, u, w') ->
    conforms s v /\ fits (limits w) d v /\ w' = charge w (wcost v) /\ good w' /\ n = len (enc v);
  law_size_ok v s d w : declared -> wf v -> conforms s v -> fits (limits w) d v -> good (charge w (wcost v)) ->
    len (enc v) <= wire_bytes (limits w) -> value_size v s d tt w = Ok (len (enc v), tt, charge w (wcost v));
  law_write v d out w : declared -> wf v -> writable v -> fits (limits w) d v -> good (charge w (wcost v)) ->
    len out + len (enc v) <= wire_bytes (limits w) -> write v d out w = Ok (tt, out ++ enc v, charge w (wcost v));
  law_write_compact v d out w : declared -> wf v -> writable v -> fits (limits w) d v -> good (charge w (wcost v)) ->
    len out + len (cenc v) <= wire_bytes (limits w) ->
    write_compact v d out w = Ok (tt, out ++ cenc v, charge w (wcost v));
  law_read v d w : declared -> wf v -> writable v -> fits (limits w) d v -> good (charge w (rcost v)) ->
    len (enc v) <= wire_bytes (limits w) -> read (enc v) d tt w = Ok (canon v, tt, charge w (rcost v));
  law_read_inv bytes d w v u w' : declared -> good w -> read bytes d tt w = Ok (v, u, w') ->
    wf v /\ writable v /\ canon v = v /\ fits (limits w) d v /\ w' = charge w (rcost v) /\ good w'
    /\ len bytes = len (enc v) /\ (exact -> bytes = enc v);
  law_read_compact v d rest p w : declared -> wf v -> writable v -> fits (limits w) d v -> good (charge w (rcost v)) ->
    read_compact d (mkCursor (cenc v ++ rest) p) w = Ok (canon v, mkCursor rest p, charge w (rcost v));
  law_read_compact_inv d c w v c' w' : declared -> good w -> read_compact d c w = Ok (v, c', w') ->
    wf v /\ writable v /\ canon v = v /\ fits (limits w) d v /\ w' = charge w (rcost v) /\ good w'
    /\ cu_previous c' = cu_previous c
    /\ exists bytes, cu_bytes c = bytes ++ cu_bytes c' /\ len bytes = len (cenc v) /\ (exact -> bytes = cenc v);
  law_max d w m u w' : good w -> maximum_size d tt w = Ok (m, u, w') ->
    exists c, w' = charge w c /\ good w'
      /\ forall v, wf v -> len (enc v) <= m /\ rcost v ⪯ c /\ fits (limits w) d v;
  law_inspect s d i i' : inspect s d i = Ok i' ->
    declared /\ grows i i' /\ Forall (sealed s i') nested;
  law_eqb a b : wf a -> wf b -> writable a -> writable b -> eqb a b = true <-> canon a = canon b;
}.

(** ** Stable identities *)

Lemma first_repeat_None ids : StronglySorted N.le ids -> first_repeat ids = None <-> NoDup ids.
Proof.
  induction ids as [| a [| b ids] IH]; intros Hs.
  - split; [constructor | done].
  - split; [intros _; apply NoDup_singleton | done].
  - apply StronglySorted_inv in Hs as [Hs Ha]. cbn [first_repeat]. case_decide as Hab.
    + split; [done |]. subst. intros [Hn _]%NoDup_cons. destruct Hn. by left.
    + rewrite (IH Hs), (NoDup_cons a). split; [| by intros []]. intros Hnd. split; [| done].
      intros Hin. apply StronglySorted_inv in Hs as [_ Hb]. rewrite elem_of_cons in Hin. destruct Hin as [-> | Hin]; [done |].
      rewrite Forall_forall in Hb. rewrite Forall_forall in Ha. specialize (Hb _ Hin). specialize (Ha b ltac:(by left)). lia.
Qed.

#[export] Instance N_le_total : Total N.le.
Proof. intros a b. lia. Qed.

Lemma sorted_ids ids : StronglySorted N.le (merge_sort N.le ids).
Proof. apply (StronglySorted_merge_sort _). Qed.

Lemma sorted_ids_strict ids : NoDup ids -> StronglySorted N.lt (merge_sort N.le ids).
Proof.
  intros Hnd. assert (NoDup (merge_sort N.le ids)) as Hnd' by (by rewrite merge_sort_Permutation).
  pose proof (sorted_ids ids) as Hs. revert Hnd' Hs. generalize (merge_sort N.le ids) as k.
  induction k as [| a k IH]; intros Hn Hs; constructor; apply NoDup_cons in Hn as [Ha Hn]; apply StronglySorted_inv in Hs as [Hs Hle].
  - auto.
  - rewrite Forall_forall in Hle |- *. intros b Hb. specialize (Hle b Hb). assert (a <> b) by (by intros ->). lia.
Qed.

(** What [ordered] requires of a declaration, besides the limit. *)
Definition valid_ids (ids : list N) : Prop :=
  ids <> [] /\ len ids <= 256 /\ Forall (fun id => id <> 0) ids /\ NoDup ids.

Lemma ordered_Ok ids limit sorted :
  ordered ids limit = Ok sorted <-> valid_ids ids /\ len ids <= limit /\ sorted = merge_sort N.le ids.
Proof.
  unfold ordered, valid_ids. case_decide as Hc; [split; [done | naive_solver lia] |].
  destruct (list_find _ ids) as [[i id] |] eqn:E.
  - split; [done |]. intros ((_ & _ & Hz & _) & _). apply list_find_Some in E as (Hi & -> & _).
    rewrite Forall_forall in Hz. by destruct (Hz 0 ltac:(by eapply list_elem_of_lookup_2)).
  - apply list_find_None in E. cbv zeta. destruct (first_repeat (merge_sort N.le ids)) as [id |] eqn:F.
    + split; [done |]. intros ((_ & _ & _ & Hnd) & _). rewrite (proj2 (first_repeat_None _ (sorted_ids ids))) in F; [done |].
      by rewrite merge_sort_Permutation.
    + apply first_repeat_None in F; [| apply sorted_ids]. rewrite merge_sort_Permutation in F. split.
      * intros [= <-]. split_and!; try done; [naive_solver | lia | lia].
      * by intros (_ & _ & ->).
Qed.

Lemma enum_ids_Ok ids sorted : enum_ids ids = Ok sorted -> NoDup ids /\ sorted = merge_sort N.le ids.
Proof.
  unfold enum_ids. case_decide; [done |]. cbv zeta. case_decide as Hc; [done |]. intros [= <-]. split; [| done].
  assert (first_repeat (merge_sort N.le ids) = None) as F by (destruct (first_repeat _); naive_solver).
  apply first_repeat_None in F; [| apply sorted_ids]. by rewrite merge_sort_Permutation in F.
Qed.

(** ** Automation

    [good_tac] shows that a part of an affordable cost is affordable; [spend] runs the next
    operation of the goal and [inv_spend H] takes apart the first operation of a run that
    succeeded. *)

(** One charge, associated to the left. *)
Ltac charges := rewrite ?charge_add, ?cost_add_assoc in *.

Ltac good_tac :=
  rewrite ?charge_add in *;
  lazymatch goal with
  | H : good (charge ?w ?c) |- good (charge ?w _) => apply (good_mono w _ c); [solve [cost_arith] | exact H]
  | H : good (charge ?w _) |- good ?w => exact (good_charged _ _ H)
  | H : good ?w |- good ?w => exact H
  end.

Ltac spend :=
  lazymatch goal with
  | |- bind (node ?d) _ ?x ?w = _ =>
      rewrite (bind_step _ _ _ _ tt x (charge w node1))
        by (apply node_Ok; [good_tac | split_and!; [done || lia | done | done | good_tac]])
  | |- bind (count ?n) _ ?x ?w = _ =>
      rewrite (bind_step _ _ _ _ tt x (charge w (cost_items n)))
        by (apply count_Ok; [good_tac | split_and!; [done || lia | done | done | good_tac]])
  | |- bind (text ?n) _ ?x ?w = _ =>
      rewrite (bind_step _ _ _ _ tt x (charge w (cost_text n)))
        by (apply text_Ok; [good_tac | split_and!; [done | done | good_tac]])
  | |- bind (allocate ?n) _ ?x ?w = _ =>
      rewrite (bind_step _ _ _ _ tt x (charge w (cost_alloc n)))
        by (apply allocate_Ok; [good_tac | split_and!; [done | done | good_tac]])
  | |- bind (reserve ?b ?n) _ ?x ?w = _ =>
      rewrite (bind_step _ _ _ _ tt x (charge w (cost_alloc (n * b))))
        by (apply reserve_spends; [good_tac | split_and!; [done | done | good_tac]])
  | |- bind (append ?bytes) _ ?out ?w = _ =>
      rewrite (bind_step _ _ _ _ tt (out ++ bytes) w)
        by (apply append_Ok; [good_tac | split_and!; [done | done | rewrite ?len_app, ?len_le_bytes; cbn [limits charge]; lia]])
  | |- bind (size ?n) _ ?x ?w = _ =>
      rewrite (bind_step _ _ _ _ n x w)
        by (apply size_Ok; split_and!; [done | done | done | cbn [limits charge]; lia])
  end.

Ltac inv_spend H :=
  let E := fresh "E" in
  lazymatch type of H with
  | bind (node _) _ _ _ = Ok _ => apply bind_Ok in H as ([] & ? & ? & E & H); apply node_Ok in E as (? & -> & -> & ?); [| good_tac]
  | bind (count _) _ _ _ = Ok _ => apply bind_Ok in H as ([] & ? & ? & E & H); apply count_Ok in E as (? & -> & -> & ?); [| good_tac]
  | bind (text _) _ _ _ = Ok _ => apply bind_Ok in H as ([] & ? & ? & E & H); apply text_Ok in E as (-> & -> & ?); [| good_tac]
  | bind (allocate _) _ _ _ = Ok _ => apply bind_Ok in H as ([] & ? & ? & E & H); apply allocate_Ok in E as (-> & -> & ?); [| good_tac]
  | bind (reserve _ _) _ _ _ = Ok _ => apply bind_Ok in H as ([] & ? & ? & E & H); apply reserve_spends in E as (-> & -> & ?); [| good_tac]
  | bind (size _) _ _ _ = Ok _ => apply bind_Ok in H as (? & ? & ? & E & H); apply size_Ok in E as (-> & -> & -> & ?)
  | bind (@of_result _ unit _) _ _ _ = Ok _ => apply bind_Ok in H as ([] & ? & ? & E & H); apply of_result_Ok in E as (E & -> & ->)
  | bind (of_result _) _ _ _ = Ok _ => apply bind_Ok in H as (? & ? & ? & E & H); apply of_result_Ok in E as (E & -> & ->)
  | bind get_work _ _ _ = Ok _ => unfold bind at 1, get_work at 1 in H
  | bind finish _ _ _ = Ok _ => apply bind_Ok in H as ([] & ? & ? & E & H); apply finish_Ok in E as (E & -> & ->)
  | bind (lift _) _ _ _ = Ok _ => apply bind_Ok in H as (? & ? & ? & E & H); apply lift_Ok in E as (E & ->)
  | bind (take_bytes _) _ _ _ = Ok _ => apply take_bind in H as (? & ? & ? & E & H); cbn [cu_bytes cu_previous] in E, H
  | bind get_u16 _ _ _ = Ok _ => apply u16_bind in H as (? & ? & ? & E & H); cbn [cu_bytes cu_previous] in E, H
  | bind get_u32 _ _ _ = Ok _ => apply u32_bind in H as (? & ? & ? & E & H); cbn [cu_bytes cu_previous] in E, H
  | bind remaining _ _ _ = Ok _ => rewrite remaining_step in H; cbn [cu_bytes] in H
  | bind _ _ _ _ = Ok _ => apply bind_Ok in H as (? & ? & ? & E & H)
  end.
