(* ===== verification/SchemaValueLaws.v ===== *)
(** * Scalars are lawful

    The integers, booleans and floats of [value.rs] and [compact.rs] keep the contract of
    [SchemaLaws] when [bincode] writes fixed-width little-endian integers, as the options of
    [codec.rs] ask of it. *)

From S2P Require Import Prelude Types Floats FloatBits Codec Reader Schema SchemaValues SchemaLaws.
Local Open Scope N_scope.
Local Open Scope engine_scope.

(** ** Scalars *)

(** [bincode]'s documented fixed-width little-endian encoding of the values in [dom], with [bits]
    the value's bits. A value that passes the scalar's check is read from its own bits only. *)
Class Fixint {T} (B : Bincode T) (sc : Scalar T) (dom : T -> Prop) (bits : T -> N) := {
  fixint_bits v : dom v -> bits v < 256 ^ N.of_nat (sc_width sc);
  fixint_size limit v : dom v -> N.of_nat (sc_width sc) <= limit -> bin_size limit v = Ok (N.of_nat (sc_width sc));
  fixint_serialize limit v : dom v -> N.of_nat (sc_width sc) <= limit ->
    bin_serialize limit v = Ok (to_le_bytes (sc_width sc) (bits v));
  fixint_deserialize limit v : dom v -> sc_valid sc v = true -> N.of_nat (sc_width sc) <= limit ->
    bin_deserialize limit (to_le_bytes (sc_width sc) (bits v)) = Ok v;
  fixint_only limit bytes v : bin_deserialize limit bytes = Ok v ->
    dom v /\ (sc_valid sc v = true -> bytes = to_le_bytes (sc_width sc) (bits v));
}.

Section ScalarLaws.
Context {T : Type} {B : Bincode T} (sc : Scalar T) (dom : T -> Prop) (bits : T -> N) `{!Fixint B sc dom bits}.
Context (insp : FieldSpec -> N -> Inspection -> result SchemaError Inspection)
        (check : FieldSpec -> T -> result SchemaError unit).

(** What is particular to a family of scalars. *)
Record scalar_laws : Prop := {
  sl_width : (sc_width sc <= 16)%nat;
  sl_canonical v : dom v -> sc_valid sc v = true ->
    dom (sc_canonical sc v) /\ sc_valid sc (sc_canonical sc v) = true
    /\ sc_canonical sc (sc_canonical sc v) = sc_canonical sc v
    /\ forall s, check s v = Ok tt -> check s (sc_canonical sc v) = Ok tt;
  sl_check s v : dom v -> check s v = Ok tt -> sc_valid sc v = true;
  sl_inspect s d i i' : insp s d i = Ok i' -> hashed i i';
  sl_eqb a b : sc_valid sc a = true -> sc_valid sc b = true ->
    sc_eqb sc a b = true <-> sc_canonical sc a = sc_canonical sc b;
}.
Context (L : scalar_laws).

Definition scalar_enc (v : T) : list byte := to_le_bytes (sc_width sc) (bits (sc_canonical sc v)).

Lemma encode_scalar v : dom v -> sc_valid sc v = true ->
  @encode_payload _ (ScalarWire sc) (sc_canonical sc v) 16 = Ok (scalar_enc v).
Proof.
  intros Hd Hv. pose proof (sl_width L). destruct (sl_canonical L v Hd Hv) as (Hd' & Hv' & _).
  unfold encode_payload. rewrite decide_False by (unfold u16_max; lia). cbn [validate ScalarWire]. rewrite Hv'.
  cbn [serialized_size serialize ScalarWire]. rewrite fixint_size by (done || lia). rewrite decide_False by lia.
  by rewrite fixint_serialize by (done || lia).
Qed.

Lemma decode_scalar v : dom v -> sc_valid sc v = true ->
  @decode_payload _ (ScalarWire sc) (scalar_enc v) 16 = Ok (sc_canonical sc v).
Proof.
  intros Hd Hv. pose proof (sl_width L). destruct (sl_canonical L v Hd Hv) as (Hd' & Hv' & _).
  unfold decode_payload. rewrite decide_False by (unfold u16_max; lia).
  unfold scalar_enc. rewrite len_le_bytes, decide_False by lia.
  cbn [deserialize ScalarWire validate]. rewrite fixint_deserialize by (done || lia). by rewrite Hv'.
Qed.

Lemma read_scalar_enc v w : dom v -> sc_valid sc v = true ->
  read_scalar sc (scalar_enc v) tt w = Ok (sc_canonical sc v, tt, w).
Proof.
  intros Hd Hv. unfold read_scalar. rewrite decode_scalar by done. destruct (sl_canonical L v Hd Hv) as (_ & _ & Hi & _).
  unfold ret. by rewrite Hi.
Qed.

Lemma decode_scalar_inv bytes v : @decode_payload _ (ScalarWire sc) bytes 16 = Ok v ->
  dom v /\ sc_valid sc v = true /\ bytes = to_le_bytes (sc_width sc) (bits v).
Proof.
  unfold decode_payload. do 2 (case_decide; [done |]). cbn [deserialize validate ScalarWire].
  destruct (bin_deserialize 16 bytes) as [x |] eqn:E; [| done]. destruct (fixint_only _ _ _ E) as [Hd Hb].
  destruct (sc_valid sc x) eqn:Hv; [| done]. intros [= <-]. auto.
Qed.

Lemma scalar_read_inv bytes d w v u w' : good w ->
  read (FieldValue := scalar_value sc insp check) bytes d tt w = Ok (v, u, w') ->
  dom v /\ sc_valid sc v = true /\ sc_canonical sc v = v /\ d <= nesting (limits w) /\ w' = charge w node1 /\ good w'
  /\ len bytes = len (scalar_enc v) /\ ((forall v, sc_canonical sc v = v) -> bytes = scalar_enc v).
Proof.
  intros Hg. cbn [read scalar_value]. intros H. inv_spend H. unfold read_scalar in H.
  destruct (decode_payload bytes 16) as [x |] eqn:E; [| done].
  destruct (decode_scalar_inv _ _ E) as (Hd & Hv & ->). destruct (sl_canonical L _ Hd Hv) as (Hd' & Hv' & Hi & _).
  injection H as <- _ <-. unfold scalar_enc. rewrite !len_le_bytes. split_and!; try done.
  intros Hex. by rewrite !Hex.
Qed.

#[export] Instance scalar_lawful : Lawful (scalar_value sc insp check) (scalar_compact sc (scalar_value sc insp check)).
Proof.
  refine {|
    wf := dom; writable v := sc_valid sc v = true; canon := sc_canonical sc; enc := scalar_enc; cenc := scalar_enc;
    wcost _ := node1; rcost _ := node1; fits l d _ := d <= nesting l; conforms s v := check s v = Ok tt;
    exact := forall v, sc_canonical sc v = v; declared := True; nested := [] |}.
  - intros v Hd Hv. destruct (sl_canonical L v Hd Hv) as (? & ? & Hi & ?). split_and!; try done. unfold scalar_enc. by rewrite Hi.
  - intros s v. apply (sl_check L).
  - auto.
  - done.
  - done.
  - intros v s d w n u w' _ Hg _. cbn [value_size scalar_value]. intros H. inv_spend H. inv_spend H. injection H as <- _ <-.
    unfold scalar_enc. rewrite len_le_bytes. done.
  - intros v s d w _ _ Hc Hd Hg _. cbn [value_size scalar_value]. spend. unfold bind, of_result. rewrite Hc.
    unfold scalar_enc. by rewrite len_le_bytes.
  - intros v d out w _ Hd Hv Hf Hg Hl. cbn [write scalar_value]. spend. unfold write_scalar. rewrite encode_scalar by done.
    by apply append_Ok.
  - intros v d out w _ Hd Hv Hf Hg Hl. cbn [write_compact write scalar_value scalar_compact]. spend. unfold write_scalar.
    rewrite encode_scalar by done. by apply append_Ok.
  - intros v d w _ Hd Hv Hf Hg Hl. cbn [read scalar_value]. spend. by apply read_scalar_enc.
  - intros bytes d w v u w' _ Hg. by apply scalar_read_inv.
  - intros v d rest p w _ Hd Hv Hf Hg. cbn [read_compact scalar_compact].
    rewrite take_step by (unfold scalar_enc; apply len_le_bytes). apply lift_Ok. split; [| done].
    cbn [read scalar_value]. spend. by apply read_scalar_enc.
  - intros d c w v c' w' _ Hg. cbn [read_compact scalar_compact].
    intros (bytes & rest & Hl & Hc & H)%take_bind. apply lift_Ok in H as [H ->].
    destruct (scalar_read_inv _ _ _ _ _ _ Hg H) as (? & ? & ? & ? & ? & ? & ? & ?). split_and!; eauto.
  - intros d w m u w' Hg. cbn [maximum_size scalar_value]. intros H. inv_spend H. injection H as <- _ <-.
    exists node1. split_and!; [done | done |]. intros v _. unfold scalar_enc. rewrite len_le_bytes. done.
  - intros s d i i' H. cbn [inspect scalar_value] in H. split_and!; try done. eapply hashed_grows, (sl_inspect L), H.
  - intros a b _ _. apply (sl_eqb L).
Defined.
End ScalarLaws.

(** *** The three families *)

Definition int_dom (t : IntTy) (v : Z) : Prop := (int_min t <= v <= int_max t)%Z.
(** Two's complement. *)
Definition int_bits (t : IntTy) (v : Z) : N := Z.to_N (v mod 2 ^ (8 * Z.of_nat (int_width t))).

Lemma int_scalar_laws t : scalar_laws (int_scalar t) (int_dom t) (int_inspect t) (int_check t).
Proof.
  constructor.
  - destruct t; simpl; lia.
  - done.
  - done.
  - intros s d i i'. unfold int_inspect. intros H. inv_op H. done.
  - intros a b _ _. simpl. apply bool_decide_eq_true.
Qed.

#[export] Instance integer_lawful {B : Bincode Z} t `{!Fixint B (int_scalar t) (int_dom t) (int_bits t)} :
  Lawful (integer t) (scalar_compact (int_scalar t) (integer t)) :=
  scalar_lawful _ _ _ _ _ (int_scalar_laws t).

Definition bool_bits (b : bool) : N := if b then 1 else 0.

Lemma bool_scalar_laws : scalar_laws bool_scalar (fun _ => True) bool_inspect (fun s _ => no_range s).
Proof.
  constructor; try done.
  - simpl. lia.
  - intros s d i i'. unfold bool_inspect. intros H. inv_op H. done.
  - intros a b _ _. simpl. apply Bool.eqb_true_iff.
Qed.

#[export] Instance boolean_lawful {B : Bincode bool} `{!Fixint B bool_scalar (fun _ => True) bool_bits} :
  Lawful boolean (scalar_compact bool_scalar boolean) := scalar_lawful _ _ _ _ _ bool_scalar_laws.

(** The numbers of the format. *)
Definition float_dom (t : FloatTy) (v : spec_float) : Prop :=
  match t with F32 => valid_binary 24 128 v | F64 => valid_binary 53 1024 v end = true.
Definition float_bits (t : FloatTy) : spec_float -> N := match t with F32 => f32_to_bits | F64 => f64_to_bits end.

Lemma compare_magnitudes m1 m2 e1 e2 :
  match (e1 ?= e2)%Z with Eq => Pos.compare_cont Eq m1 m2 | c => c end = Eq <-> m1 = m2 /\ e1 = e2.
Proof.
  change (Pos.compare_cont Eq m1 m2) with (Pos.compare m1 m2).
  destruct (Z.compare_spec e1 e2), (Pos.compare_spec m1 m2); subst; split; try done; intros []; lia.
Qed.

Lemma float_eqb_canonical a b : is_finite a = true -> is_finite b = true ->
  SFeqb a b = true <-> float_canonical a = float_canonical b.
Proof.
  destruct a as [[] | | | [] m1 e1], b as [[] | | | [] m2 e2]; try done; intros _ _; unfold float_canonical, SFeqb; cbn; try done.
  - trans (match (e1 ?= e2)%Z with Eq => Pos.compare_cont Eq m1 m2 | c => c end = Eq).
    + destruct (e1 ?= e2)%Z; try done. destruct (Pos.compare_cont Eq m1 m2); done.
    + rewrite compare_magnitudes. naive_solver.
  - trans (match (e1 ?= e2)%Z with Eq => Pos.compare_cont Eq m1 m2 | c => c end = Eq).
    + destruct (e1 ?= e2)%Z; try done. destruct (Pos.compare_cont Eq m1 m2); done.
    + rewrite compare_magnitudes. naive_solver.
Qed.

Lemma float_scalar_laws t : scalar_laws (float_scalar t) (float_dom t) (float_inspect t) (float_check t).
Proof.
  constructor.
  - destruct t; simpl; lia.
  - intros v Hd Hv. destruct v as [[] | | | [] m e]; cbn in *; try done; split_and!; try done; try by destruct t.
  - intros s v _. unfold float_check. cbn. by destruct (is_finite v).
  - intros s d i i'. unfold float_inspect. intros H. inv_op H. done.
  - intros a b. cbn. apply float_eqb_canonical.
Qed.

#[export] Instance float_lawful {B : Bincode spec_float} t `{!Fixint B (float_scalar t) (float_dom t) (float_bits t)} :
  Lawful (float t) (scalar_compact (float_scalar t) (float t)) := scalar_lawful _ _ _ _ _ (float_scalar_laws t).
