(* ===== verification/SchemaSequenceLaws.v ===== *)
(** * Sequences are lawful

    Arrays and bounded vectors of [value.rs] and [compact.rs] keep the contract of [SchemaLaws]
    when their element does. *)

From S2P Require Import Prelude Types Floats FloatBits Codec Reader Schema SchemaValues SchemaLaws SchemaValueLaws.
Local Open Scope N_scope.
Local Open Scope engine_scope.

Section SequenceLaws.
Context {T : Type} {FV : FieldValue T} {CV : CompactValue T} {L : Lawful FV CV}.
Implicit Types (l : list T) (w : Work).

Definition bodies l : list byte := concat ((fun v => framed (enc v)) <$> l).
Definition compact_bodies l : list byte := concat (cenc <$> l).
Definition seq_enc l : list byte := to_le_bytes 4 (len l) ++ bodies l.
Definition seq_wcost l : Cost := node1 ⊕ cost_items (len l) ⊕ cost_sum (wcost <$> l).
Definition seq_rcost l : Cost := node1 ⊕ cost_items (len l) ⊕ cost_alloc (len l * size_of (T:=T)) ⊕ cost_sum (rcost <$> l).
Definition seq_fits (lim : SchemaLimits) (d : N) l : Prop :=
  d <= nesting lim /\ len l <= collection lim /\ Forall (fits lim (d + 1)) l.

Lemma len_bodies_cons v l : len (bodies (v :: l)) = 4 + len (enc v) + len (bodies l).
Proof. unfold bodies. rewrite fmap_cons. cbn [concat]. by rewrite len_app, len_framed. Qed.
Lemma bodies_cons v l : bodies (v :: l) = to_le_bytes 4 (len (enc v)) ++ enc v ++ bodies l.
Proof. unfold bodies. rewrite fmap_cons. cbn [concat]. unfold framed. by rewrite <- app_assoc. Qed.

Lemma sizes_Ok s d l : forall b w n u w', declared -> good w -> Forall wf l ->
  sizes FV l s d b tt w = Ok (n, u, w') ->
  Forall (conforms s) l /\ Forall (fits (limits w) (d + 1)) l /\ w' = charge w (cost_sum (wcost <$> l)) /\ good w'
  /\ n = b + len (bodies l).
Proof.
  induction l as [| v l IH]; intros b w n u w' Hdec Hg Hwf H; cbn [sizes] in H.
  { injection H as <- _ <-. rewrite fmap_nil. cbn [cost_sum foldr]. rewrite charge_0. split_and!; try done. change (len (bodies [])) with 0. lia. }
  apply Forall_cons in Hwf as [Hv Hwf]. inv_spend H. destruct x0.
  apply law_size in E as (Hc & Hf & -> & Hg' & ->); try done. inv_spend H.
  apply IH in H as (? & ? & -> & ? & ->); try done. rewrite len_bodies_cons, fmap_cons. cbn [cost_sum foldr].
  rewrite charge_add. split_and!; try (by constructor); try done; [good_tac | lia].
Qed.

Lemma sizes_ok s d l : forall b w, declared -> Forall wf l -> Forall (conforms s) l -> Forall (fits (limits w) (d + 1)) l ->
  good (charge w (cost_sum (wcost <$> l))) -> b + len (bodies l) <= wire_bytes (limits w) ->
  sizes FV l s d b tt w = Ok (b + len (bodies l), tt, charge w (cost_sum (wcost <$> l))).
Proof.
  induction l as [| v l IH]; intros b w Hdec Hwf Hc Hf Hg Hl; cbn [sizes].
  { rewrite fmap_nil. cbn [cost_sum foldr]. rewrite charge_0. change (len (bodies [])) with 0. by rewrite N.add_0_r. }
  apply Forall_cons in Hwf as [Hv Hwf], Hc as [Hcv Hc], Hf as [Hfv Hf]. rewrite len_bodies_cons in *. rewrite fmap_cons in *. cbn [cost_sum foldr] in *.
  fold (cost_sum (wcost <$> l)) in *. rewrite <- charge_add in *.
  erewrite bind_step; [| apply law_size_ok; try done; [good_tac | lia]]. spend.
  rewrite IH; try done; [do 3 f_equal; lia | cbn [limits charge]; lia].
Qed.

Lemma write_framed_ok v d out w : declared -> wf v -> writable v -> fits (limits w) (d + 1) v -> good (charge w (wcost v)) ->
  len out + 4 + len (enc v) <= wire_bytes (limits w) ->
  write_framed FV v d out w = Ok (tt, out ++ framed (enc v), charge w (wcost v)).
Proof.
  intros Hdec Hv Hw Hf Hg Hl. unfold write_framed. rewrite (bind_step out_len _ _ _ (len out) out w) by done.
  assert (limits_valid (limits w) = true) as Hlim%limits_bounds by apply (good_charged _ _ Hg).
  rewrite (bind_step _ _ _ _ tt (out ++ to_le_bytes 4 0) w) by (apply append_Ok; [good_tac | rewrite len_le_bytes; split_and!; try done; lia]).
  erewrite bind_step by (apply law_write; try done; rewrite len_app, len_le_bytes; lia).
  rewrite <- app_assoc, patch_length_Ok by (unfold u32_max; lia). done.
Qed.

Lemma writes_ok d l : forall out w, declared -> Forall wf l -> Forall writable l -> Forall (fits (limits w) (d + 1)) l ->
  good (charge w (cost_sum (wcost <$> l))) -> len out + len (bodies l) <= wire_bytes (limits w) ->
  writes FV l d out w = Ok (tt, out ++ bodies l, charge w (cost_sum (wcost <$> l))).
Proof.
  induction l as [| v l IH]; intros out w Hdec Hwf Hw Hf Hg Hl; cbn [writes].
  { rewrite fmap_nil. cbn [cost_sum foldr]. rewrite charge_0. by rewrite app_nil_r. }
  apply Forall_cons in Hwf as [Hv Hwf], Hw as [Hwv Hw], Hf as [Hfv Hf]. rewrite len_bodies_cons in *. rewrite fmap_cons in *. cbn [cost_sum foldr] in *.
  fold (cost_sum (wcost <$> l)) in *. rewrite <- charge_add in *.
  erewrite bind_step by (apply write_framed_ok; try done; [good_tac | lia]).
  rewrite IH; try done; [by rewrite bodies_cons; unfold framed; rewrite <- !app_assoc |]. rewrite len_app, len_framed. cbn [limits charge]. lia.
Qed.

Lemma reads_ok d l : forall acc rest p w, declared -> Forall wf l -> Forall writable l -> Forall (fits (limits w) (d + 1)) l ->
  good (charge w (cost_sum (rcost <$> l))) -> len (bodies l) <= wire_bytes (limits w) ->
  reads FV (length l) d acc (mkCursor (bodies l ++ rest) p) w
  = Ok (acc ++ (canon <$> l), mkCursor rest p, charge w (cost_sum (rcost <$> l))).
Proof.
  induction l as [| v l IH]; intros acc rest p w Hdec Hwf Hw Hf Hg Hl; cbn [reads length].
  { rewrite !fmap_nil. cbn [cost_sum foldr]. rewrite charge_0. by rewrite app_nil_r. }
  apply Forall_cons in Hwf as [Hv Hwf], Hw as [Hwv Hw], Hf as [Hfv Hf]. rewrite len_bodies_cons in *. rewrite !fmap_cons in *. cbn [cost_sum foldr] in *.
  fold (cost_sum (rcost <$> l)) in *. rewrite <- charge_add in *.
  assert (limits_valid (limits w) = true) as Hlim%limits_bounds by apply (good_charged _ _ (good_charged _ _ Hg)).
  rewrite bodies_cons, <- !app_assoc. rewrite u32_step by lia. rewrite take_step by done.
  erewrite bind_step by (apply lift_Ok; split; [apply law_read; try done; [good_tac | lia] | done]).
  rewrite IH; try done; [by rewrite <- app_assoc |]. cbn [limits charge]. lia.
Qed.

Lemma reads_inv d n : forall acc c w l c' w', declared -> good w -> reads FV n d acc c w = Ok (l, c', w') ->
  exists k bytes, l = acc ++ k /\ length k = n /\ Forall wf k /\ Forall writable k /\ canon <$> k = k
    /\ Forall (fits (limits w) (d + 1)) k /\ w' = charge w (cost_sum (rcost <$> k)) /\ good w'
    /\ cu_bytes c = bytes ++ cu_bytes c' /\ len bytes = len (bodies k) /\ (exact -> bytes = bodies k).
Proof.
  induction n as [| n IH]; intros acc c w l c' w' Hdec Hg H; cbn [reads] in H.
  { injection H as <- <- <-. exists [], []. rewrite app_nil_r, fmap_nil. cbn [cost_sum foldr]. rewrite charge_0. split_and!; done. }
  inv_spend H. inv_spend H. subst. inv_spend H.
  apply law_read_inv in E0 as (Hv & Hwv & Hcv & Hfv & -> & Hg' & Hlv & Hexv); try done.
  apply IH in H as (k & bytes & -> & <- & Hk & Hwk & Hck & Hfk & -> & Hg'' & Hc' & Hlk & Hexk); try done.
  match type of E with cu_bytes c = _ ++ ?a ++ _ => rename a into body end.
  eexists (_ :: k), (to_le_bytes 4 (len body) ++ body ++ bytes). rewrite <- app_assoc. split; [done |]. rewrite !fmap_cons. cbn [cost_sum foldr].
  rewrite len_bodies_cons, charge_add. split_and!; try (by constructor); try done.
  - by rewrite Hcv, Hck.
  - good_tac.
  - rewrite E. cbn [cu_bytes] in Hc'. rewrite Hc'. by rewrite <- !app_assoc.
  - rewrite !len_app, len_le_bytes. lia.
  - intros Hex. rewrite bodies_cons, <- Hexk, <- Hexv by done. done.
Qed.

(** *** Whole sequences, fixed in length or not *)

Context (bound : N).

Definition seq_wf (fixed : bool) l : Prop := Forall wf l /\ if fixed then len l = bound else len l <= bound.

Lemma seq_wf_bound fixed l : seq_wf fixed l -> len l <= bound.
Proof. intros [_ H]. destruct fixed; lia. Qed.

Lemma len_seq_enc l : len (seq_enc l) = 4 + len (bodies l).
Proof. unfold seq_enc. by rewrite len_app, len_le_bytes. Qed.

Lemma bodies_long l : 4 * len l <= len (bodies l).
Proof. induction l as [| v l IH]; [done |]. rewrite len_bodies_cons, len_cons. lia. Qed.

Lemma sequence_size_Ok l s d w n u w' : declared -> good w -> Forall wf l -> sequence_size FV l s d tt w = Ok (n, u, w') ->
  Forall (conforms s) l /\ seq_fits (limits w) d l /\ w' = charge w (seq_wcost l) /\ good w' /\ n = len (seq_enc l).
Proof.
  intros Hdec Hg Hwf H. unfold sequence_size in H. inv_spend H. inv_spend H.
  apply sizes_Ok in H as (? & ? & -> & ? & ->); try done. rewrite len_seq_enc. unfold seq_wcost, seq_fits.
  charges. split_and!; done.
Qed.

Lemma sequence_size_ok l s d w : declared -> Forall wf l -> Forall (conforms s) l -> seq_fits (limits w) d l ->
  good (charge w (seq_wcost l)) -> len (seq_enc l) <= wire_bytes (limits w) ->
  sequence_size FV l s d tt w = Ok (len (seq_enc l), tt, charge w (seq_wcost l)).
Proof.
  intros Hdec Hwf Hc (Hd & Hn & Hf) Hg Hl. rewrite len_seq_enc in *. unfold seq_wcost in *. unfold sequence_size. spend. spend.
  rewrite sizes_ok; try done; [by charges | good_tac].
Qed.

Lemma sequence_write_ok l d out w : declared -> Forall wf l -> Forall writable l -> seq_fits (limits w) d l ->
  good (charge w (seq_wcost l)) -> len out + len (seq_enc l) <= wire_bytes (limits w) ->
  sequence_write FV l d out w = Ok (tt, out ++ seq_enc l, charge w (seq_wcost l)).
Proof.
  intros Hdec Hwf Hw (Hd & Hn & Hf) Hg Hl. rewrite len_seq_enc in *. unfold seq_wcost in *. unfold sequence_write. spend. spend.
  pose proof (len_le_bytes 4 (len l)). spend.
  rewrite writes_ok; try done; [| good_tac | rewrite len_app; cbn [limits charge]; lia].
  charges. unfold seq_enc. by rewrite <- app_assoc.
Qed.

Lemma sequence_read_ok fixed l d w : declared -> seq_wf fixed l -> Forall writable l -> seq_fits (limits w) d l ->
  good (charge w (seq_rcost l)) -> len (seq_enc l) <= wire_bytes (limits w) ->
  sequence_read FV bound fixed (seq_enc l) d tt w = Ok (canon <$> l, tt, charge w (seq_rcost l)).
Proof.
  intros Hdec Hwf Hw (Hd & Hn & Hf) Hg Hl. rewrite len_seq_enc in *. unfold seq_rcost in *. unfold sequence_read. spend.
  assert (limits_valid (limits w) = true) as Hlim%limits_bounds by apply (good_charged _ _ Hg).
  apply with_cursor_Ok. split; [done |]. exists (mkCursor [] 0). unfold Cursor_new, seq_enc.
  rewrite u32_step by lia. spend.
  pose proof (seq_wf_bound _ _ Hwf). rewrite decide_False by (destruct fixed, Hwf as [_ ?]; naive_solver lia).
  rewrite remaining_step. cbn [cu_bytes]. unfold checked_mul. rewrite decide_True by (unfold usize_max, u64_max; lia).
  pose proof (bodies_long l). rewrite decide_False by lia. spend.
  rewrite <- (app_nil_r (bodies l)). replace (N.to_nat (len l)) with (length l) by (unfold len; lia).
  erewrite bind_step by (apply reads_ok; try done; [apply Hwf | good_tac | cbn [limits charge]; lia]).
  unfold bind, finish, ret. cbn [cu_bytes]. rewrite decide_True by done. by charges.
Qed.

Lemma sequence_read_inv fixed bytes d w l u w' : declared -> good w -> sequence_read FV bound fixed bytes d tt w = Ok (l, u, w') ->
  seq_wf fixed l /\ Forall writable l /\ canon <$> l = l /\ seq_fits (limits w) d l /\ w' = charge w (seq_rcost l) /\ good w'
  /\ len bytes = len (seq_enc l) /\ (exact -> bytes = seq_enc l).
Proof.
  intros Hdec Hg H. unfold sequence_read in H. inv_spend H. apply with_cursor_Ok in H as (_ & c & H). inv_spend H. inv_spend H.
  case_decide as Hb; [done |]. inv_spend H. destruct (checked_mul usize_max x 4); [| done]. case_decide; [done |].
  inv_spend H. inv_spend H. inv_spend H. injection H as <- <- <-.
  apply reads_inv in E0 as (k & body & -> & Hk & Hwf & Hw & Hc & Hf & -> & Hg' & Hbytes & Hl & Hex); try done.
  cbn [app cu_bytes Cursor_new] in *. assert (len k = x) as Hlen by (unfold len; rewrite Hk; lia).
  rewrite E1, app_nil_r in Hbytes. subst. rewrite len_seq_enc in *. charges. unfold seq_rcost, seq_fits, seq_wf.
  split_and!; try done.
  - destruct fixed; [| lia]. destruct (decide (len k = bound)); [done |]. naive_solver lia.
  - rewrite len_app, len_le_bytes. lia.
  - intros Hx. unfold seq_enc. by rewrite <- Hex.
Qed.

(** *** Compact sequences *)

Lemma writes_compact_ok d l : forall out w, declared -> Forall wf l -> Forall writable l -> Forall (fits (limits w) (d + 1)) l ->
  good (charge w (cost_sum (wcost <$> l))) -> len out + len (compact_bodies l) <= wire_bytes (limits w) ->
  writes_compact CV l d out w = Ok (tt, out ++ compact_bodies l, charge w (cost_sum (wcost <$> l))).
Proof.
  unfold compact_bodies.
  induction l as [| v l IH]; intros out w Hdec Hwf Hw Hf Hg Hl; cbn [writes_compact].
  { rewrite !fmap_nil. cbn [cost_sum foldr concat]. rewrite charge_0. by rewrite app_nil_r. }
  apply Forall_cons in Hwf as [Hv Hwf], Hw as [Hwv Hw], Hf as [Hfv Hf]. rewrite !fmap_cons in *. cbn [cost_sum foldr concat] in *.
  fold (cost_sum (wcost <$> l)) in *. rewrite <- charge_add in *. rewrite len_app in Hl.
  erewrite bind_step by (apply law_write_compact; try done; [good_tac | lia]).
  rewrite IH; try done; [by rewrite <- app_assoc |]. rewrite len_app. cbn [limits charge]. lia.
Qed.

Lemma reads_compact_ok d l : forall acc rest p w, declared -> Forall wf l -> Forall writable l -> Forall (fits (limits w) (d + 1)) l ->
  good (charge w (cost_sum (rcost <$> l))) ->
  reads_compact CV (length l) d acc (mkCursor (compact_bodies l ++ rest) p) w
  = Ok (acc ++ (canon <$> l), mkCursor rest p, charge w (cost_sum (rcost <$> l))).
Proof.
  unfold compact_bodies.
  induction l as [| v l IH]; intros acc rest p w Hdec Hwf Hw Hf Hg; cbn [reads_compact length].
  { rewrite !fmap_nil. cbn [cost_sum foldr concat]. rewrite charge_0. by rewrite app_nil_r. }
  apply Forall_cons in Hwf as [Hv Hwf], Hw as [Hwv Hw], Hf as [Hfv Hf]. rewrite !fmap_cons in *. cbn [cost_sum foldr concat] in *.
  fold (cost_sum (rcost <$> l)) in *. rewrite <- charge_add in *. rewrite <- app_assoc.
  erewrite bind_step by (apply law_read_compact; try done; good_tac).
  rewrite IH; try done. by rewrite <- app_assoc.
Qed.

Lemma reads_compact_inv d n : forall acc c w l c' w', declared -> good w -> reads_compact CV n d acc c w = Ok (l, c', w') ->
  exists k bytes, l = acc ++ k /\ length k = n /\ Forall wf k /\ Forall writable k /\ canon <$> k = k
    /\ Forall (fits (limits w) (d + 1)) k /\ w' = charge w (cost_sum (rcost <$> k)) /\ good w' /\ cu_previous c' = cu_previous c
    /\ cu_bytes c = bytes ++ cu_bytes c' /\ len bytes = len (compact_bodies k) /\ (exact -> bytes = compact_bodies k).
Proof.
  unfold compact_bodies.
  induction n as [| n IH]; intros acc c w l c' w' Hdec Hg H; cbn [reads_compact] in H.
  { injection H as <- <- <-. exists [], []. rewrite app_nil_r, !fmap_nil. cbn [cost_sum foldr]. rewrite charge_0. split_and!; done. }
  inv_spend H.
  apply law_read_compact_inv in E as (Hv & Hwv & Hcv & Hfv & -> & Hg' & Hp & b0 & Hb0 & Hlv & Hexv); try done.
  apply IH in H as (k & bytes & -> & <- & Hk & Hwk & Hck & Hfk & -> & Hg'' & Hp' & Hc' & Hlk & Hexk); try done.
  eexists (_ :: k), (b0 ++ bytes). rewrite <- app_assoc. split; [done |]. rewrite !fmap_cons. cbn [cost_sum foldr concat].
  rewrite !len_app, charge_add. split_and!; try (by constructor); try done.
  - by rewrite Hcv, Hck.
  - good_tac.
  - congruence.
  - by rewrite Hb0, Hc', app_assoc.
  - lia.
  - intros Hex. by rewrite Hexk, Hexv.
Qed.

Lemma compact_bodies_le l : Forall wf l -> Forall writable l -> len (compact_bodies l) <= len (bodies l).
Proof.
  unfold compact_bodies. induction l as [| v l IH]; [done |]. rewrite !Forall_cons. intros [Hv Hl] [Hw Hwl].
  rewrite len_bodies_cons, fmap_cons. cbn [concat]. rewrite len_app. pose proof (law_compact v Hv Hw). specialize (IH Hl Hwl). lia.
Qed.

(** *** What is the same for both *)

Lemma canon_map (P : T -> Prop) l :
  Forall wf l -> Forall writable l -> (forall v, wf v -> writable v -> P v -> P (canon v)) -> Forall P l -> Forall P (canon <$> l).
Proof.
  intros Hwf Hw HP Hl. rewrite Forall_fmap. rewrite Forall_forall in Hwf. rewrite Forall_forall in Hw. rewrite Forall_forall in Hl. rewrite Forall_forall.
  intros v Hv. apply HP; auto.
Qed.

Lemma canon_same {B} (f : T -> B) l : Forall wf l -> Forall writable l -> (forall v, wf v -> writable v -> f (canon v) = f v) ->
  f <$> (canon <$> l) = f <$> l.
Proof.
  intros Hwf Hw Hf. rewrite <- list_fmap_compose. apply list_fmap_ext. intros i v Hv. unfold compose.
  rewrite Forall_lookup in Hwf. rewrite Forall_lookup in Hw. eauto.
Qed.

Lemma seq_canon fixed l : seq_wf fixed l -> Forall writable l ->
  seq_wf fixed (canon <$> l) /\ Forall writable (canon <$> l) /\ seq_enc (canon <$> l) = seq_enc l /\ seq_wcost (canon <$> l) = seq_wcost l
  /\ (forall lim d, seq_fits lim d l -> seq_fits lim d (canon <$> l)) /\ (forall s, Forall (conforms s) l -> Forall (conforms s) (canon <$> l)).
Proof.
  intros [Hwf Hn] Hw. assert (len (canon <$> l) = len l) as Hlen by apply len_fmap.
  unfold seq_wf, seq_enc, seq_wcost, seq_fits, bodies. rewrite Hlen.
  rewrite (canon_same wcost l Hwf Hw) by (intros v ? ?; by apply law_canon).
  rewrite (canon_same (fun v => framed (enc v)) l Hwf Hw) by (intros v ? ?; f_equal; by apply law_canon).
  split_and!; try done.
  - apply canon_map; try done. intros v ? ? _. by apply law_canon.
  - apply canon_map; try done. intros v ? ? _. by apply law_canon.
  - intros lim d (? & ? & ?). split_and!; try done. apply canon_map; try done. intros v ? ?. by apply law_canon.
  - intros s ?. apply canon_map; try done. intros v ? ?. by apply law_canon.
Qed.

Lemma seq_conforms s l : Forall wf l -> Forall (conforms s) l -> Forall writable l.
Proof.
  rewrite !Forall_forall. intros Hwf Hc v Hv. eapply law_conforms; [by apply Hwf | by apply Hc].
Qed.

Lemma seq_exact l : exact -> canon <$> l = l.
Proof. intros Hx. rewrite <- (list_fmap_id l) at 2. apply list_fmap_ext. intros i v _. by apply law_exact. Qed.

Lemma seq_costs l : seq_wcost l ⪯ seq_rcost l.
Proof.
  unfold seq_wcost, seq_rcost. pose proof (cost_sum_mono wcost rcost l (fun v _ => law_costs v)). cost_arith.
Qed.

Lemma seq_eqb a : forall b, Forall wf a -> Forall wf b -> Forall writable a -> Forall writable b ->
  list_eqb FV a b = true <-> canon <$> a = canon <$> b.
Proof.
  induction a as [| x a IH]; intros [| y b] Ha Hb Hwa Hwb; try done.
  rewrite Forall_cons in Ha. rewrite Forall_cons in Hb. rewrite Forall_cons in Hwa. rewrite Forall_cons in Hwb. destruct_and!.
  cbn [list_eqb]. rewrite andb_true_iff, IH, law_eqb by done. rewrite !fmap_cons. split.
  - intros [Hx Hl]. by rewrite Hx, Hl.
  - by intros [= Hx Hl].
Qed.

(** *** The declared maximum *)

Fixpoint cost_times (n : nat) (c : Cost) : Cost :=
  match n with O => cost0 | S n => c ⊕ cost_times n c end.

Lemma cost_times_eq n c : cost_times n c =
  mkCost (N.of_nat n * c_nodes c) (N.of_nat n * c_alloc c) (N.of_nat n * c_items c) (N.of_nat n * c_text c).
Proof. induction n as [| n IH]; cbn [cost_times]; [done |]. rewrite IH. unfold cost_add. cbn. f_equal; lia. Qed.

Lemma cost_sum_times {A} (f : A -> Cost) (k : list A) c n : (forall a, a ∈ k -> f a ⪯ c) -> (length k <= n)%nat ->
  cost_sum (f <$> k) ⪯ cost_times n c.
Proof.
  revert n. induction k as [| a k IH]; intros n Hf Hn; rewrite ?fmap_nil, ?fmap_cons; cbn [cost_sum foldr].
  - rewrite cost_times_eq. cost_arith.
  - destruct n as [| n]; simpl in Hn; [lia |]. cbn [cost_times]. apply cost_add_mono; [apply Hf; by left |].
    apply IH; [| lia]. intros b Hb. apply Hf. by right.
Qed.

Lemma repeat_since_Ok w c extra (x : unit) u x' w' : good (charge w c) ->
  repeat_since (checkpoint w) extra x (charge w c) = Ok (u, x', w') ->
  w' = charge w (c ⊕ cost_times (N.to_nat extra) c) /\ good w'.
Proof.
  intros Hg H. unfold repeat_since, checkpoint in H. cbn [nodes allocated items text_used charge] in H.
  replace (nodes w + c_nodes c - nodes w) with (c_nodes c) in H by lia.
  replace (allocated w + c_alloc c - allocated w) with (c_alloc c) in H by lia.
  destruct (checked_mul usize_max (c_nodes c) extra) as [n1 |] eqn:N1; [| done]. cbn [ok_or] in H.
  destruct (checked_add usize_max _ n1) as [n2 |] eqn:N2; [| done]. cbn [ok_or] in H.
  apply checked_mul_Some in N1 as [-> _]. apply checked_add_Some in N2 as [-> _]. case_decide as Hn; [done |].
  unfold bind at 1, set_work at 1 in H.
  set (w1 := set_field _ _) in H. assert (w1 = charge w (c ⊕ mkCost (c_nodes c * extra) 0 0 0)) as E1 by (unfold w1; cost_arith).
  assert (good w1) as Hg1.
  { rewrite E1. destruct Hg as (Hl & Hg). unfold good. split; [done |]. cost_arith. }
  clearbody w1. subst w1. inv_spend H. apply ok_or_Ok, checked_mul_Some in E as [-> _].
  inv_spend H. inv_spend H. inv_spend H. apply ok_or_Ok, checked_mul_Some in E as [-> _].
  inv_spend H. apply ok_or_Ok, checked_add_Some in E as [-> _]. case_decide as Hi; [done |].
  unfold bind at 1, set_work at 1 in H. rewrite charge_add in H.
  set (w2 := set_field _ _) in H.
  assert (w2 = charge w (c ⊕ mkCost (c_nodes c * extra) (c_alloc c * extra) (c_items c * extra) 0)) as E2.
  { unfold w2. replace (items (charge _ _) - items w) with (c_items c) by cost_arith. cost_arith. }
  assert (good w2) as Hg2.
  { rewrite E2. match goal with G : good (charge _ (cost_alloc _)) |- _ => destruct G as (Hl & Hgg) end. unfold good. split; [done |].
    replace (items (charge _ _) - items w) with (c_items c) in Hi by cost_arith. cost_arith. }
  clearbody w2. subst w2. inv_spend H. apply ok_or_Ok, checked_mul_Some in E as [-> _].
  apply text_Ok in H as (_ & -> & Hg3); [| done]. split; [| done]. charges. f_equal. rewrite cost_times_eq, N2Nat.id.
  replace (text_used (charge w (c ⊕ mkCost (c_nodes c * extra) (c_alloc c * extra) (c_items c * extra) 0)) - text_used w) with (c_text c) by cost_arith.
  cost_arith.
Qed.

Lemma bodies_max l m : (forall v, v ∈ l -> len (enc v) <= m) -> len (bodies l) <= len l * (4 + m).
Proof.
  induction l as [| v l IH]; intros Hm; [done |]. rewrite len_bodies_cons, len_cons.
  pose proof (Hm v ltac:(by left)). specialize (IH (fun x Hx => Hm x ltac:(by right))). lia.
Qed.

Lemma sequence_max_Ok fixed d w m u w' : good w -> sequence_max FV bound d tt w = Ok (m, u, w') ->
  exists c, w' = charge w c /\ good w'
    /\ forall l, seq_wf fixed l -> len (seq_enc l) <= m /\ seq_rcost l ⪯ c /\ seq_fits (limits w) d l.
Proof.
  intros Hg H. unfold sequence_max in H. do 4 inv_spend H. cbv zeta in H.
  inv_spend H. destruct x0. apply law_max in E as (c & -> & Hgc & Hmax); [| done].
  inv_spend H. apply repeat_since_Ok in E as [-> Hg']; [| done].
  inv_spend H. apply ok_or_Ok, checked_add_Some in E as [-> _]. inv_spend H. apply ok_or_Ok, checked_mul_Some in E as [-> _].
  inv_spend H. apply ok_or_Ok, checked_add_Some in E as [-> _]. apply size_Ok in H as (-> & _ & -> & _).
  charges. eexists. split; [done |]. split; [done |]. intros l Hwf. pose proof (seq_wf_bound _ _ Hwf) as Hb. destruct Hwf as [Hwf _].
  rewrite Forall_forall in Hwf. rewrite len_seq_enc. split_and!.
  - pose proof (bodies_max l x (fun v Hv => proj1 (Hmax v (Hwf v Hv)))). nia.
  - assert (cost_sum (rcost <$> l) ⪯ c ⊕ cost_times (N.to_nat (saturating_sub bound 1)) c) as Hs.
    { change (c ⊕ cost_times ?n c) with (cost_times (S n) c). apply cost_sum_times.
      - intros v Hv. by apply Hmax, Hwf.
      - unfold saturating_sub, len in *. lia. }
    unfold seq_rcost. assert (len l * size_of (T:=T) <= bound * size_of (T:=T)) by nia. cost_arith.
  - split_and!; [done | etransitivity; [exact Hb | done] |]. apply Forall_forall. intros v Hv. by apply Hmax, Hwf.
Qed.

(** *** Arrays and bounded vectors *)

#[export] Instance array_lawful layout : Lawful (array FV layout bound) (array_compact FV CV bound).
Proof.
  refine {|
    wf := seq_wf true; writable := Forall writable; canon l := canon <$> l; enc := seq_enc; cenc := compact_bodies;
    wcost := seq_wcost; rcost := seq_rcost; fits := seq_fits; conforms s := Forall (conforms s);
    exact := exact; declared := declared; nested := nested |}.
  - apply seq_canon.
  - intros s l [Hwf _]. by apply seq_conforms.
  - apply seq_exact.
  - apply seq_costs.
  - intros l [Hwf _] Hw. rewrite len_seq_enc. pose proof (compact_bodies_le l Hwf Hw). lia.
  - intros l s d w n u w' Hdec Hg [Hwf _]. by apply sequence_size_Ok.
  - intros l s d w Hdec [Hwf _]. by apply sequence_size_ok.
  - intros l d out w Hdec [Hwf _]. by apply sequence_write_ok.
  - intros l d out w Hdec [Hwf Hn] Hw (Hd & Hc & Hf) Hg Hl. cbn [write_compact array_compact]. unfold seq_wcost in *. rewrite Hn in *.
    spend. spend. rewrite writes_compact_ok; try done; [by charges | good_tac].
  - intros l d w Hdec Hwf Hw Hf Hg Hl. cbn [read array]. erewrite bind_step by (by apply sequence_read_ok).
    destruct Hwf as [_ Hn]. by rewrite decide_True by (by rewrite len_fmap).
  - intros bytes d w l u w' Hdec Hg H. cbn [read array] in H. inv_spend H. case_decide; [| done]. injection H as -> _ ->.
    by apply sequence_read_inv in E.
  - intros l d rest p w Hdec [Hwf Hn] Hw (Hd & Hc & Hf) Hg. cbn [read_compact array_compact]. unfold seq_rcost in *. rewrite Hn in *.
    do 3 spend. replace (N.to_nat bound) with (length l) by (unfold len in Hn; lia).
    erewrite bind_step by (apply reads_compact_ok; try done; good_tac). cbn [app].
    rewrite decide_True by (by rewrite len_fmap). by charges.
  - intros d c w l c' w' Hdec Hg H. cbn [read_compact array_compact] in H. do 4 inv_spend H. case_decide as Hn; [| done]. injection H as -> -> ->.
    apply reads_compact_inv in E as (k & bytes & -> & Hk & Hwf & Hw & Hcn & Hf & -> & Hg' & Hp & Hb & Hl & Hex); try done.
    cbn [app] in *. unfold seq_wf, seq_fits, seq_rcost. rewrite Hn. charges. split_and!; try done. eauto.
  - intros d w m u w' Hg. by apply sequence_max_Ok.
  - intros s d i i' H. cbn [inspect array] in H. unfold sequence_inspect, i_count in H. case_decide; [done |].
    by apply law_inspect in H.
  - intros a b [Ha _] [Hb _]. by apply seq_eqb.
Defined.

#[export] Instance bounded_vec_lawful layout : Lawful (bounded_vec FV layout bound) (bounded_vec_compact FV CV bound).
Proof.
  refine {|
    wf := seq_wf false; writable := Forall writable; canon l := canon <$> l; enc := seq_enc;
    cenc l := to_le_bytes 4 (len l) ++ compact_bodies l;
    wcost := seq_wcost; rcost := seq_rcost; fits := seq_fits; conforms s := Forall (conforms s);
    exact := exact; declared := declared; nested := nested |}.
  - apply seq_canon.
  - intros s l [Hwf _]. by apply seq_conforms.
  - apply seq_exact.
  - apply seq_costs.
  - intros l [Hwf _] Hw. rewrite len_seq_enc, len_app, len_le_bytes. pose proof (compact_bodies_le l Hwf Hw). lia.
  - intros l s d w n u w' Hdec Hg [Hwf _]. by apply sequence_size_Ok.
  - intros l s d w Hdec [Hwf _]. by apply sequence_size_ok.
  - intros l d out w Hdec [Hwf _]. by apply sequence_write_ok.
  - intros l d out w Hdec [Hwf Hn] Hw (Hd & Hc & Hf) Hg Hl. cbn [write_compact bounded_vec_compact]. unfold seq_wcost in *.
    assert (limits_valid (limits w) = true) as Hlim%limits_bounds by apply (good_charged _ _ Hg).
    spend. spend. unfold try_from. rewrite decide_True by (unfold u32_max; lia). cbn [ok_or].
    rewrite (bind_step (of_result (Ok (len l))) _ _ _ (len l) out (charge (charge w node1) (cost_items (len l)))) by done.
    rewrite len_app, len_le_bytes in Hl. spend. rewrite writes_compact_ok; try done; [by charges; rewrite <- app_assoc | good_tac |].
    rewrite len_app, len_le_bytes. cbn [limits charge]. lia.
  - intros l d w Hdec Hwf Hw Hf Hg Hl. cbn [read bounded_vec]. erewrite bind_step by (by apply sequence_read_ok).
    destruct Hwf as [_ Hn]. unfold BoundedVec_new. rewrite decide_False by (rewrite len_fmap; lia). done.
  - intros bytes d w l u w' Hdec Hg H. cbn [read bounded_vec] in H. inv_spend H. unfold BoundedVec_new in H. case_decide; [done |].
    injection H as -> _ ->. by apply sequence_read_inv in E.
  - intros l d rest p w Hdec [Hwf Hn] Hw (Hd & Hc & Hf) Hg. cbn [read_compact bounded_vec_compact]. unfold seq_rcost in *.
    assert (limits_valid (limits w) = true) as Hlim%limits_bounds by apply (good_charged _ _ Hg).
    spend. rewrite <- app_assoc, u32_step by lia. rewrite decide_False by lia. do 2 spend.
    replace (N.to_nat (len l)) with (length l) by (unfold len; lia).
    erewrite bind_step by (apply reads_compact_ok; try done; good_tac). cbn [app]. unfold BoundedVec_new.
    rewrite decide_False by (rewrite len_fmap; lia). by charges.
  - intros d c w l c' w' Hdec Hg H. cbn [read_compact bounded_vec_compact] in H. do 2 inv_spend H. case_decide as Hn; [done |].
    do 3 inv_spend H. unfold BoundedVec_new in H. case_decide as Hn'; [done |]. injection H as -> -> ->.
    apply reads_compact_inv in E0 as (k & bytes & -> & Hk & Hwf & Hw & Hcn & Hf & -> & Hg' & Hp & Hb & Hl & Hex); try done.
    cbn [app cu_bytes cu_previous] in *. assert (len k = x) as <- by (unfold len; lia).
    unfold seq_wf, seq_fits, seq_rcost. charges. split_and!; try done; [lia |].
    exists (to_le_bytes 4 (len k) ++ bytes). rewrite !len_app. split_and!; [by rewrite E, Hb, <- app_assoc | lia |]. intros Hx. by rewrite Hex.
  - intros d w m u w' Hg. by apply sequence_max_Ok.
  - intros s d i i' H. cbn [inspect bounded_vec] in H. unfold sequence_inspect, i_count in H. case_decide; [done |].
    by apply law_inspect in H.
  - intros a b [Ha _] [Hb _]. by apply seq_eqb.
Defined.
End SequenceLaws.
