(* ===== verification/SchemaCompositeLaws.v ===== *)
(** * Bytes, text, options and the unit value are lawful *)

From S2P Require Import Prelude Types Floats Codec Reader Schema SchemaValues SchemaLaws.
Local Open Scope N_scope.
Local Open Scope engine_scope.

(** A step that only passes a result on. *)
Lemma result_step {X A B} (a : A) (k : A -> spends X B) x w : bind (of_result (Ok a)) k x w = k a x w.
Proof. done. Qed.

(** The end of what a cursor reads. *)
Lemma finish_step {B} (k : unit -> spends Cursor B) p w : bind finish k (mkCursor [] p) w = k tt (mkCursor [] p) w.
Proof. done. Qed.

(** ** Bytes *)

Section Bytes.
Context (layout bound : N).

Lemma bytes_write_ok v d out w : d <= nesting (limits w) -> good (charge w node1) ->
  len out + len (framed v) <= wire_bytes (limits w) ->
  write (FieldValue := bounded_bytes layout bound) v d out w = Ok (tt, out ++ framed v, charge w node1).
Proof.
  intros Hd Hg Hl. rewrite len_framed in Hl. cbn [write bounded_bytes]. spend.
  assert (limits_valid (limits w) = true) as Hlim%limits_bounds by apply (good_charged _ _ Hg).
  unfold try_from. rewrite decide_True by (unfold u32_max; lia). cbn [ok_or]. rewrite result_step.
  pose proof (len_le_bytes 4 (len v)). spend. apply append_Ok; [good_tac |]. rewrite len_app. unfold framed. rewrite <- app_assoc.
  split_and!; try done. cbn [limits charge]. lia.
Qed.

#[export] Instance bounded_bytes_lawful : Lawful (bounded_bytes layout bound) (bounded_bytes_compact layout bound).
Proof.
  refine {|
    wf v := len v <= bound; writable _ := True; canon v := v; enc := framed; cenc := framed;
    wcost _ := node1; rcost v := node1 ⊕ cost_alloc (len v); fits l d _ := d <= nesting l;
    conforms s _ := no_range s = Ok tt; exact := True; declared := True; nested := [] |}.
  - done.
  - done.
  - done.
  - intros v. cost_arith.
  - done.
  - intros v s d w n u w' _ Hg _ H. cbn [value_size bounded_bytes] in H. do 3 inv_spend H. apply ok_or_Ok, checked_add_Some in E0 as [-> _].
    apply size_Ok in H as (-> & _ & -> & _). rewrite len_framed. split_and!; (done || lia).
  - intros v s d w _ _ Hc Hd Hg Hl. rewrite len_framed in *. cbn [value_size bounded_bytes]. rewrite Hc, result_step. spend.
    assert (limits_valid (limits w) = true) as Hlim%limits_bounds by apply (good_charged _ _ Hg).
    unfold checked_add. rewrite decide_True by (unfold usize_max, u64_max; lia). cbn [ok_or]. rewrite result_step.
    apply size_Ok. split_and!; try done; cbn [limits charge]; lia.
  - intros v d out w _ _ _. apply bytes_write_ok.
  - intros v d out w _ _ _. apply bytes_write_ok.
  - intros v d w _ Hb _ Hd Hg Hl. rewrite len_framed in Hl. cbn [read bounded_bytes]. spend.
    assert (limits_valid (limits w) = true) as Hlim%limits_bounds by apply (good_charged _ _ Hg).
    apply with_cursor_Ok. split; [done |]. exists (mkCursor [] 0). unfold Cursor_new, framed. rewrite u32_step by lia.
    rewrite decide_False by lia. rewrite <- (app_nil_r v) at 2. rewrite take_step by done. rewrite finish_step. spend. by charges.
  - intros bytes d w v u w' _ Hg H. cbn [read bounded_bytes] in H. inv_spend H. apply with_cursor_Ok in H as (_ & c & H). inv_spend H.
    case_decide; [done |]. do 3 inv_spend H. injection H as <- <- <-. cbn [cu_bytes Cursor_new] in *. subst. rewrite app_nil_r. charges.
    fold (framed x1). split_and!; try done. lia.
  - intros v d rest p w _ Hb _ Hd Hg. cbn [read_compact bounded_bytes_compact]. spend.
    assert (len v <= 8388608) as Hv by (destruct Hg as (Hlim%limits_bounds & _ & Ha & _); cost_arith).
    unfold framed. rewrite <- app_assoc, u32_step by lia. rewrite decide_False by lia. rewrite take_step by done. spend. charges.
    unfold BoundedBytes_new. by rewrite decide_False by lia.
  - intros d c w v c' w' _ Hg H. cbn [read_compact bounded_bytes_compact] in H. do 2 inv_spend H. case_decide; [done |]. do 2 inv_spend H.
    apply of_result_Ok in H as (H & -> & ->). unfold BoundedBytes_new in H. case_decide; [done |]. injection H as <-. subst. charges.
    cbn [cu_previous cu_bytes]. split_and!; try done; [lia |]. exists (framed x1). split_and!; done.
  - intros d w m u w' Hg H. cbn [maximum_size bounded_bytes] in H. do 3 inv_spend H. apply ok_or_Ok, checked_add_Some in E as [-> _].
    apply size_Ok in H as (-> & _ & -> & _). charges. eexists. split; [done |]. split; [done |]. intros v Hv. rewrite len_framed.
    (split; [lia | split; [cost_arith | done]]).
  - intros s d i i' H. cbn [inspect bounded_bytes] in H. unfold bytes_inspect in H. inv_op H. done.
  - intros a b _ _ _ _. apply bool_decide_eq_true.
Defined.
End Bytes.

(** ** Text *)

Section Text.
Context (layout bound : N).

Definition text_wcost (v : list byte) : Cost := node1 ⊕ cost_text (len v).
Definition text_rcost (v : list byte) : Cost := node1 ⊕ cost_text (len v) ⊕ cost_alloc (len v).

Lemma text_short v w : good (charge w (text_wcost v)) -> len v <= 65535.
Proof. intros (Hlim%limits_bounds & _ & _ & _ & Ht). unfold text_wcost in *. cost_arith. Qed.

Lemma string_write_ok v d out w : d <= nesting (limits w) -> good (charge w (text_wcost v)) ->
  len out + len (framed v) <= wire_bytes (limits w) ->
  write (FieldValue := bounded_string layout bound) v d out w = Ok (tt, out ++ framed v, charge w (text_wcost v)).
Proof.
  intros Hd Hg Hl. unfold text_wcost in *. rewrite len_framed in Hl. cbn [write bounded_string]. do 2 spend.
  pose proof (len_le_bytes 4 (len v)). spend. charges. apply append_Ok; [good_tac |]. rewrite len_app. unfold framed. rewrite <- app_assoc.
  split_and!; try done. cbn [limits charge]. lia.
Qed.

Lemma from_utf8_Ok v t : from_utf8 v = Ok t <-> t = v /\ utf8 v = true.
Proof. unfold from_utf8. destruct (utf8 v); naive_solver. Qed.

#[export] Instance bounded_string_lawful : Lawful (bounded_string layout bound) (bounded_string_compact layout bound).
Proof.
  refine {|
    wf v := len v <= bound /\ utf8 v = true; writable _ := True; canon v := v; enc := framed; cenc := framed;
    wcost := text_wcost; rcost := text_rcost; fits l d _ := d <= nesting l;
    conforms s _ := no_range s = Ok tt; exact := True; declared := True; nested := [] |}.
  - done.
  - done.
  - done.
  - intros v. unfold text_wcost, text_rcost. cost_arith.
  - done.
  - intros v s d w n u w' _ Hg _ H. cbn [value_size bounded_string] in H. do 3 inv_spend H.
    apply size_Ok in H as (-> & _ & -> & _). rewrite len_framed. unfold text_wcost. charges. split_and!; done.
  - intros v s d w _ _ Hc Hd Hg Hl. unfold text_wcost in *. rewrite len_framed in *. cbn [value_size bounded_string]. rewrite Hc, result_step. do 2 spend.
    apply size_Ok. charges. split_and!; try done; cbn [limits charge]; lia.
  - intros v d out w _ _ _. apply string_write_ok.
  - intros v d out w _ _ _. apply string_write_ok.
  - intros v d w _ [Hb Hu] _ Hd Hg Hl. pose proof (text_short v w (good_prefix _ _ _ Hg)). unfold text_rcost in *. cbn [read bounded_string]. spend.
    apply with_cursor_Ok. split; [done |]. exists (mkCursor [] 0). unfold Cursor_new, framed. rewrite u32_step by lia.
    rewrite decide_False by lia. spend. rewrite <- (app_nil_r v) at 2. rewrite take_step by done.
    rewrite (proj2 (from_utf8_Ok v v)) by done. rewrite result_step, finish_step. spend. by charges.
  - intros bytes d w v u w' _ Hg H. cbn [read bounded_string] in H. inv_spend H. apply with_cursor_Ok in H as (_ & c & H). inv_spend H.
    case_decide; [done |]. do 3 inv_spend H. apply from_utf8_Ok in E1 as [-> Hu]. do 2 inv_spend H. injection H as <- <- <-.
    cbn [cu_bytes Cursor_new] in *. subst. rewrite app_nil_r. unfold text_rcost. charges. fold (framed x1). split_and!; try done. lia.
  - intros v d rest p w _ [Hb Hu] _ Hd Hg. pose proof (text_short v w (good_prefix _ _ _ Hg)). unfold text_rcost in *.
    cbn [read_compact bounded_string_compact]. spend. unfold framed. rewrite <- app_assoc, u32_step by lia. rewrite decide_False by lia. spend.
    rewrite take_step by done. rewrite (proj2 (from_utf8_Ok v v)) by done. rewrite result_step. spend. charges.
    unfold BoundedString_new. by rewrite decide_False by lia.
  - intros d c w v c' w' _ Hg H. cbn [read_compact bounded_string_compact] in H. do 2 inv_spend H. case_decide; [done |]. do 3 inv_spend H.
    apply from_utf8_Ok in E1 as [-> Hu]. inv_spend H. apply of_result_Ok in H as (H & -> & ->). unfold BoundedString_new in H. case_decide; [done |].
    injection H as <-. subst. unfold text_rcost. charges. cbn [cu_previous cu_bytes]. split_and!; try done; [lia |].
    exists (framed x1). split_and!; done.
  - intros d w m u w' Hg H. cbn [maximum_size bounded_string] in H. do 3 inv_spend H. apply size_Ok in H as (-> & _ & -> & _). charges.
    eexists. split; [done |]. split; [done |]. intros v [Hv _]. rewrite len_framed. unfold text_rcost. (split; [lia | split; [cost_arith | done]]).
  - intros s d i i' H. cbn [inspect bounded_string] in H. unfold string_inspect in H. inv_op H. done.
  - intros a b _ _ _ _. apply bool_decide_eq_true.
Defined.
End Text.

(** ** Options and the unit value *)

Section OptionLaws.
Context {T : Type} {FV : FieldValue T} {CV : CompactValue T} {L : Lawful FV CV} (layout : N).

Definition option_all (P : T -> Prop) (v : option T) : Prop := match v with Some x => P x | None => True end.
Definition option_enc (f : T -> list byte) (v : option T) : list byte :=
  match v with Some x => x01 :: f x | None => [x00] end.
Definition option_cost (f : T -> Cost) (v : option T) : Cost :=
  node1 ⊕ match v with Some x => f x | None => cost0 end.
Definition option_fits (l : SchemaLimits) (d : N) (v : option T) : Prop :=
  d <= nesting l /\ option_all (fits l (d + 1)) v.

#[export] Instance option_lawful : Lawful (option_value FV layout) (option_compact CV).
Proof.
  refine {|
    wf := option_all wf; writable := option_all writable; canon v := canon <$> v; enc := option_enc enc; cenc := option_enc cenc;
    wcost := option_cost wcost; rcost := option_cost rcost; fits := option_fits; conforms s := option_all (conforms s);
    exact := exact; declared := declared; nested := nested |}.
  - intros [x |] Hwf Hw; [| done]. cbn [option_all fmap option_fmap option_map] in *.
    destruct (law_canon x Hwf Hw) as (? & ? & He & Hc & Hf & ?). unfold option_enc, option_cost, option_fits. cbn [option_all]. rewrite He, Hc.
    split_and!; naive_solver.
  - intros s [x |]; [| done]. apply law_conforms.
  - intros [x |] Hx; [| done]. cbn. f_equal. by apply law_exact.
  - intros [x |]; unfold option_cost; [| done]. pose proof (law_costs x). cost_arith.
  - intros [x |] Hwf Hw; [| done]. cbn [option_enc]. rewrite !len_cons. pose proof (law_compact x Hwf Hw). lia.
  - intros v s d w n u w' Hdec Hg Hwf H. cbn [value_size option_value] in H. do 2 inv_spend H. apply size_Ok in H as (-> & _ & -> & _).
    unfold option_fits, option_cost. destruct v as [v |].
    + destruct x0. apply law_size in E as (? & ? & -> & ? & ->); try done. charges. cbn [option_enc]. rewrite len_cons. split_and!; done.
    + injection E as <- _ <-. rewrite cost_add_0_r. split_and!; done.
  - intros v s d w Hdec Hwf Hc [Hd Hf] Hg Hl. cbn [value_size option_value]. unfold option_cost in *. spend. destruct v as [v |]; cbn [option_all option_enc] in *.
    + rewrite len_cons in *. erewrite bind_step by (apply law_size_ok; try done; [good_tac | cbn [limits charge]; lia]).
      charges. apply size_Ok. split_and!; try done; cbn [limits charge]; lia.
    + rewrite cost_add_0_r in *. rewrite (bind_step (ret 0) _ _ _ 0 tt (charge w node1)) by done. apply size_Ok. done.
  - intros v d out w Hdec Hwf Hw [Hd Hf] Hg Hl. cbn [write option_value]. unfold option_cost in *. spend. destruct v as [v |]; cbn [option_all option_enc] in *.
    + rewrite len_cons in *. pose proof (@len_nil byte). pose proof (len_cons x01 []). spend.
      rewrite law_write; try done; [by charges; rewrite <- app_assoc | good_tac | rewrite len_app; cbn [limits charge]; lia].
    + rewrite cost_add_0_r in *. spend. done.
  - intros v d out w Hdec Hwf Hw [Hd Hf] Hg Hl. cbn [write_compact option_compact]. unfold option_cost in *. spend. destruct v as [v |]; cbn [option_all option_enc] in *.
    + rewrite len_cons in *. pose proof (@len_nil byte). pose proof (len_cons x01 []). spend.
      rewrite law_write_compact; try done; [by charges; rewrite <- app_assoc | good_tac | rewrite len_app; cbn [limits charge]; lia].
    + rewrite cost_add_0_r in *. spend. done.
  - intros v d w Hdec Hwf Hw [Hd Hf] Hg Hl. cbn [read option_value]. unfold option_cost in *. spend. destruct v as [v |]; cbn [option_all option_enc fmap option_fmap option_map] in *.
    + rewrite len_cons in *. rewrite decide_False by naive_solver. rewrite decide_True by done.
      erewrite bind_step by (apply law_read; try done; [good_tac | cbn [limits charge]; lia]). by charges.
    + rewrite cost_add_0_r in *. by rewrite decide_True.
  - intros bytes d w v u w' Hdec Hg H. cbn [read option_value] in H. inv_spend H. destruct bytes as [| tag body]; [done |].
    case_decide as Ht; [| case_decide as Ht'; [| done]].
    + destruct Ht as [-> ->]. injection H as <- <- <-. unfold option_fits, option_cost. rewrite cost_add_0_r. split_and!; done.
    + subst. inv_spend H. apply law_read_inv in E as (? & ? & Hc & ? & -> & ? & Hl & Hex); try done. injection H as <- _ <-.
      unfold option_fits, option_cost. cbn [option_all option_enc fmap option_fmap option_map]. charges. rewrite Hc, !len_cons. split_and!; try done; [lia |].
      intros Hx. by rewrite Hex.
  - intros v d rest p w Hdec Hwf Hw [Hd Hf] Hg. cbn [read_compact option_compact]. unfold option_cost in *. spend.
    destruct v as [v |]; cbn [option_all option_enc fmap option_fmap option_map] in *.
    + change (x01 :: cenc v) with ([x01] ++ cenc v). rewrite <- app_assoc, take_step by done. rewrite decide_False by done. rewrite decide_True by done.
      erewrite bind_step by (apply law_read_compact; try done; good_tac). by charges.
    + rewrite cost_add_0_r in *. rewrite take_step by done. by rewrite decide_True.
  - intros d c w v c' w' Hdec Hg H. cbn [read_compact option_compact] in H. do 2 inv_spend H.
    case_decide as Ht; [| case_decide as Ht'; [| done]]; subst.
    + injection H as <- <- <-. unfold option_fits, option_cost. rewrite cost_add_0_r. split_and!; try done. by exists [x00].
    + inv_spend H. injection H as <- <- <-. apply law_read_compact_inv in E0 as (? & ? & Hc & ? & -> & ? & Hp & bytes & Hb & Hl & Hex); try done.
      unfold option_fits, option_cost. cbn [option_all option_enc fmap option_fmap option_map cu_bytes cu_previous] in *. charges. rewrite Hc.
      split_and!; try done. exists (x01 :: bytes). rewrite E, Hb, !len_cons. split_and!; [done | lia |]. intros Hx. by rewrite Hex.
  - intros d w m u w' Hg H. cbn [maximum_size option_value] in H. do 2 inv_spend H. destruct x0. apply size_Ok in H as (-> & _ & -> & _).
    apply law_max in E as (c & -> & Hg' & Hmax); [| done]. charges. eexists. split; [done |]. split; [done |].
    unfold option_cost, option_fits. intros [v |] Hv; cbn [option_all option_enc] in *.
    + destruct (Hmax v Hv) as (? & ? & ?). rewrite len_cons. (split; [lia | split; [cost_arith | done]]).
    + (split; [change (len [x00]) with 1; lia | split; [cost_arith | done]]).
  - intros s d i i' H. cbn [inspect option_value] in H. by apply law_inspect in H.
  - intros [a |] [b |] Ha Hb Hwa Hwb; try done. cbn [eqb option_value option_eqb fmap option_fmap option_map]. rewrite law_eqb by done. split; [by intros -> | by intros [=]].
Defined.
End OptionLaws.

#[export] Instance unit_lawful : Lawful unit_value unit_compact.
Proof.
  refine {|
    wf _ := True; writable _ := True; canon v := v; enc _ := []; cenc _ := []; wcost _ := node1; rcost _ := node1;
    fits l d _ := d <= nesting l; conforms _ _ := True; exact := True; declared := True; nested := [] |}; try done.
  - intros v s d w n u w' _ Hg _ H. cbn [value_size unit_value] in H. inv_spend H. injection H as <- _ <-. done.
  - intros v s d w _ _ _ Hd Hg _. cbn [value_size unit_value]. spend. done.
  - intros v d out w _ _ _ Hd Hg _. cbn [write unit_value]. rewrite app_nil_r. apply node_Ok; [good_tac | done].
  - intros v d out w _ _ _ Hd Hg _. cbn [write_compact unit_compact]. rewrite app_nil_r. apply node_Ok; [good_tac | done].
  - intros [] d w _ _ _ Hd Hg _. cbn [read unit_value]. spend. done.
  - intros bytes d w v u w' _ Hg H. cbn [read unit_value] in H. inv_spend H. case_decide; [| done]. injection H as <- _ <-. subst. done.
  - intros [] d rest p w _ _ _ Hd Hg. cbn [read_compact unit_compact]. apply node_Ok; [good_tac | done].
  - intros d c w v c' w' _ Hg H. cbn [read_compact unit_compact] in H. apply node_Ok in H as (? & -> & -> & ?); [| done].
    split_and!; try done. by exists [].
  - intros d w m u w' Hg H. cbn [maximum_size unit_value] in H. inv_spend H. injection H as <- _ <-. exists node1. done.
  - intros s d i i' H. cbn [inspect unit_value] in H. unfold unit_inspect in H. inv_op H. done.
  - intros [] [] _ _ _ _. done.
Defined.
