(* ===== verification/SchemaSumLaws.v ===== *)
(** * Enums and tagged sums are lawful

    A value of a tagged sum is one payload of one variant's type. [payload] packs a value with the
    operations and the laws of its type, so that what the generated code does with a variant or a
    field is a statement about a payload. *)

From S2P Require Import Prelude Types Floats FloatBits Codec Reader Schema SchemaValues SchemaRecords SchemaLaws SchemaCompositeLaws.
Local Open Scope N_scope.
Local Open Scope engine_scope.

(** ** Payloads *)

Record payload := mkPayload {
  p_type : Type;
  p_FV : FieldValue p_type;
  p_CV : CompactValue p_type;
  p_law : Lawful p_FV p_CV;
  p_value : p_type;
}.
#[export] Existing Instances p_FV p_CV p_law.

Definition canon_payload (p : payload) : payload :=
  {| p_value := canon (p_value p); p_law := p_law p |}.

(** ** Enums without payload *)

Lemma list_find_eq_Some (ids : list N) (v : nat) id :
  list_find (eq id) ids = Some (v, id) <-> ids !! v = Some id /\ forall j, (j < v)%nat -> ids !! j <> Some id.
Proof.
  rewrite list_find_Some. split.
  - intros (Hv & _ & Hj). split; [done |]. intros j Hjv Hid. by apply (Hj j id Hid).
  - intros (Hv & Hj). split_and!; try done. intros j y Hy Hjv ->. by apply (Hj j).
Qed.

Section EnumLaws.
Context (layout : N) (ids : list N) (typed : Forall (fun id => id < 65536) ids).

Definition enum_wf (v : nat) : Prop := (v < length ids)%nat.
Definition enum_enc (v : nat) : list byte := to_le_bytes 2 (nth v ids 0).

Lemma enum_lookup v : enum_wf v -> ids !! v = Some (nth v ids 0) /\ nth v ids 0 < 65536.
Proof.
  intros Hv. destruct (lookup_lt_is_Some_2 ids v Hv) as [id Hid]. rewrite (nth_lookup_Some _ _ _ _ Hid). split; [done |].
  rewrite Forall_lookup in typed. eauto.
Qed.

Lemma enum_read_ok v d w : NoDup ids -> enum_wf v -> d <= nesting (limits w) -> good (charge w node1) ->
  read (FieldValue := enum_value layout ids) (enum_enc v) d tt w = Ok (v, tt, charge w node1).
Proof.
  intros Hnd Hv Hd Hg. cbn [read enum_value]. spend. destruct (enum_lookup v Hv) as [Hl Ht].
  unfold enum_enc. rewrite decide_True by apply length_to_le_bytes. rewrite le_bytes_fit by done.
  rewrite (proj2 (list_find_eq_Some ids v (nth v ids 0))); [done |]. split; [done |].
  intros j Hj Hid. pose proof (NoDup_lookup _ _ _ _ Hnd Hid Hl). lia.
Qed.

Lemma enum_read_inv bytes d w v u w' : good w -> read (FieldValue := enum_value layout ids) bytes d tt w = Ok (v, u, w') ->
  enum_wf v /\ d <= nesting (limits w) /\ w' = charge w node1 /\ good w' /\ bytes = enum_enc v.
Proof.
  intros Hg H. cbn [read enum_value] in H. inv_spend H. case_decide as Hl; [| done].
  destruct (list_find _ ids) as [[v' id] |] eqn:E; [| done]. injection H as <- _ <-.
  assert (id = from_le_bytes bytes) as -> by (by apply list_find_Some in E as (_ & -> & _)).
  apply list_find_eq_Some in E as [Hv _]. pose proof (lookup_lt_Some _ _ _ Hv). split_and!; try done.
  unfold enum_enc. rewrite (nth_lookup_Some _ _ _ _ Hv). rewrite <- (to_from_le_bytes bytes) at 1. by rewrite Hl.
Qed.

Lemma enum_write_ok v d out w : d <= nesting (limits w) -> good (charge w node1) -> len out + len (enum_enc v) <= wire_bytes (limits w) ->
  write (FieldValue := enum_value layout ids) v d out w = Ok (tt, out ++ enum_enc v, charge w node1).
Proof. intros Hd Hg Hl. cbn [write enum_value]. spend. by apply append_Ok. Qed.

#[export] Instance enum_lawful : Lawful (enum_value layout ids) (enum_compact layout ids).
Proof.
  refine {|
    wf := enum_wf; writable _ := True; canon v := v; enc := enum_enc; cenc := enum_enc; wcost _ := node1; rcost _ := node1;
    fits l d _ := d <= nesting l; conforms _ _ := True; exact := True; declared := NoDup ids; nested := [] |}; try done.
  - intros v s d w n u w' _ Hg _ H. cbn [value_size enum_value] in H. inv_spend H. injection H as <- _ <-.
    unfold enum_enc. rewrite len_le_bytes. done.
  - intros v s d w _ _ _ Hd Hg _. cbn [value_size enum_value]. spend. unfold enum_enc. by rewrite len_le_bytes.
  - intros v d out w _ _ _. apply enum_write_ok.
  - intros v d out w _ _ _. apply enum_write_ok.
  - intros v d w Hnd Hv _ Hd Hg _. by apply enum_read_ok.
  - intros bytes d w v u w' _ Hg H. apply enum_read_inv in H as (? & ? & ? & ? & ->); done.
  - intros v d rest p w Hnd Hv _ Hd Hg. cbn [read_compact enum_compact]. rewrite take_step by apply len_le_bytes.
    apply lift_Ok. split; [| done]. by apply enum_read_ok.
  - intros d c w v c' w' _ Hg H. cbn [read_compact enum_compact] in H. inv_spend H. apply lift_Ok in H as [H ->].
    apply enum_read_inv in H as (? & ? & ? & ? & ->); [| done]. split_and!; eauto.
  - intros d w m u w' Hg H. cbn [maximum_size enum_value] in H. inv_spend H. injection H as <- _ <-. exists node1.
    split; [done |]. split; [done |]. intros v _. unfold enum_enc. by rewrite len_le_bytes.
  - intros s d i i' H. cbn [inspect enum_value] in H. unfold enum_inspect in H.
    destruct (no_range s); [| done]. destruct (discrete s); [| done]. destruct (enum_ids ids) as [sorted |] eqn:E; [| done].
    apply enum_ids_Ok in E as [Hnd ->]. injection H as <-.
    assert (forall k j, hashed j (foldl (fun i id => i_number id i) j k)) as Hfold.
    { induction k as [| id k IH]; intros j; [done |]. exact (IH (i_number id j)). }
    split; [done |]. split; [| done]. apply hashed_grows. exact (Hfold _ (i_number (len (merge_sort N.le ids)) (i_tag 16 i))).
  - intros a b _ _ _ _. apply bool_decide_eq_true.
Defined.
End EnumLaws.

(** ** Tagged sums *)

Fixpoint variants_lawful {R} (vs : Variants R) : Type :=
  match vs with
  | VNil => unit
  | VCons id FV CV rest => ((id < 65536) * Lawful FV CV * variants_lawful rest)%type
  end.

Fixpoint variant_payload {R} (vs : Variants R) : variants_lawful vs -> R -> N * payload :=
  match vs with
  | VNil => fun _ v => match v with end
  | VCons id FV CV rest => fun L v =>
      match v with
      | inl x => (id, {| p_law := L.1.2; p_value := x |})
      | inr v => variant_payload rest L.2 v
      end
  end.

Fixpoint variant_canon {R} (vs : Variants R) : variants_lawful vs -> R -> R :=
  match vs with
  | VNil => fun _ v => v
  | VCons id FV CV rest => fun L v =>
      match v with inl x => inl (canon (Lawful := L.1.2) x) | inr v => inr (variant_canon rest L.2 v) end
  end.

(** A condition on the laws of every variant. *)
Fixpoint variants_all {R} (P : forall T (FV : FieldValue T) (CV : CompactValue T), Lawful FV CV -> Prop) (vs : Variants R)
  : variants_lawful vs -> Prop :=
  match vs with
  | VNil => fun _ => True
  | VCons id FV CV rest => fun L => P _ FV CV L.1.2 /\ variants_all P rest L.2
  end.

Fixpoint variants_nested {R} (vs : Variants R) : variants_lawful vs -> list FieldSpec :=
  match vs with
  | VNil => fun _ => []
  | VCons id FV CV rest => fun L => nested (Lawful := L.1.2) ++ variants_nested rest L.2
  end.

Section SumLaws.
Context (layout : N).

Lemma variant_size_payload {R} (vs : Variants R) L s d v :
  variant_size vs s d v = value_size (p_value (variant_payload vs L v).2) s (d + 1).
Proof. induction vs as [| T R id FV CV rest IH]; [done |]. destruct v as [x | v]; [done |]. apply IH. Qed.

Lemma write_variant_payload {R} (vs : Variants R) L d v :
  write_variant vs d v = let* _ := append (to_le_bytes 2 (variant_payload vs L v).1) in write (p_value (variant_payload vs L v).2) (d + 1).
Proof. induction vs as [| T R id FV CV rest IH]; [done |]. destruct v as [x | v]; [done |]. apply IH. Qed.

Lemma write_variant_compact_payload {R} (vs : Variants R) L d v :
  write_variant_compact vs d v
  = let* _ := append (to_le_bytes 2 (variant_payload vs L v).1) in write_compact (p_value (variant_payload vs L v).2) (d + 1).
Proof. induction vs as [| T R id FV CV rest IH]; [done |]. destruct v as [x | v]; [done |]. apply IH. Qed.

Lemma variant_payload_canon {R} (vs : Variants R) L v :
  variant_payload vs L (variant_canon vs L v) = ((variant_payload vs L v).1, canon_payload (variant_payload vs L v).2).
Proof. induction vs as [| T R id FV CV rest IH]; [done |]. destruct v as [x | v]; [done |]. apply IH. Qed.

Lemma variant_payload_all {R} P (vs : Variants R) L v : variants_all P vs L -> P _ _ _ (p_law (variant_payload vs L v).2).
Proof. induction vs as [| T R id FV CV rest IH]; [done |]. intros [? ?]. destruct v as [x | v]; [done |]. by apply IH. Qed.

Lemma variant_payload_id {R} (vs : Variants R) L v :
  (variant_payload vs L v).1 ∈ variant_ids vs /\ (variant_payload vs L v).1 < 65536.
Proof.
  induction vs as [| T R id FV CV rest IH]; [done |]. cbn [variant_ids]. destruct v as [x | v]; cbn [variant_payload fst].
  - split; [by left | apply L].
  - destruct (IH L.2 v) as [? ?]. split; [by right | done].
Qed.

(** Reading a tag reads the payload of its variant, canonical when the payload is. *)
Lemma read_variant_ok {R} (vs : Variants R) L v body d w w' : NoDup (variant_ids vs) ->
  (forall p, p = (variant_payload vs L v).2 -> read (FieldValue := p_FV p) body (d + 1) tt w = Ok (canon (p_value p), tt, w')) ->
  read_variant vs (variant_payload vs L v).1 body d tt w = Ok (variant_canon vs L v, tt, w').
Proof.
  induction vs as [| T R id FV CV rest IH]; [done |]. cbn [variant_ids]. intros [Hid Hnd]%NoDup_cons Hr. cbn [read_variant].
  destruct v as [x | v]; cbn [variant_payload fst variant_canon] in *.
  - rewrite decide_True by done. specialize (Hr _ eq_refl). cbn [p_type p_FV p_CV p_law p_value snd] in Hr. unfold bind. by rewrite Hr.
  - rewrite decide_False by (intros Heq; apply Hid; rewrite <- Heq; apply variant_payload_id).
    unfold bind. by rewrite (IH L.2 v Hnd Hr).
Qed.

Lemma read_variant_inv {R} (vs : Variants R) L tag body d w v u w' : read_variant vs tag body d tt w = Ok (v, u, w') ->
  tag = (variant_payload vs L v).1
  /\ exists p, p = (variant_payload vs L v).2 /\ read (FieldValue := p_FV p) body (d + 1) tt w = Ok (p_value p, tt, w').
Proof.
  destruct u. induction vs as [| T R id FV CV rest IH]; [done |]. cbn [read_variant]. case_decide as Ht; intros H; inv_spend H; destruct x0; injection H as <- <-.
  - split; [done |]. eauto.
  - exact (IH L.2 _ E).
Qed.

Lemma read_variant_compact_ok {R} (vs : Variants R) L v d c c' w w' : NoDup (variant_ids vs) ->
  (forall p, p = (variant_payload vs L v).2 -> read_compact (CompactValue := p_CV p) (d + 1) c w = Ok (canon (p_value p), c', w')) ->
  read_variant_compact vs (variant_payload vs L v).1 d c w = Ok (variant_canon vs L v, c', w').
Proof.
  induction vs as [| T R id FV CV rest IH]; [done |]. cbn [variant_ids]. intros [Hid Hnd]%NoDup_cons Hr. cbn [read_variant_compact].
  destruct v as [x | v]; cbn [variant_payload fst variant_canon] in *.
  - rewrite decide_True by done. specialize (Hr _ eq_refl). cbn [p_type p_FV p_CV p_law p_value snd] in Hr. unfold bind. by rewrite Hr.
  - rewrite decide_False by (intros Heq; apply Hid; rewrite <- Heq; apply variant_payload_id).
    unfold bind. by rewrite (IH L.2 v Hnd Hr).
Qed.

Lemma read_variant_compact_inv {R} (vs : Variants R) L tag d c w v c' w' : read_variant_compact vs tag d c w = Ok (v, c', w') ->
  tag = (variant_payload vs L v).1
  /\ exists p, p = (variant_payload vs L v).2 /\ read_compact (CompactValue := p_CV p) (d + 1) c w = Ok (p_value p, c', w').
Proof.
  induction vs as [| T R id FV CV rest IH]; [done |]. cbn [read_variant_compact]. case_decide as Ht; intros H; inv_spend H; injection H as <- <- <-.
  - split; [done |]. eauto.
  - exact (IH L.2 _ E).
Qed.

(** A payload that is canonical is the payload of a canonical value. *)
Lemma variant_canon_id {R} (vs : Variants R) L v :
  (forall p, p = (variant_payload vs L v).2 -> canon (p_value p) = p_value p) -> variant_canon vs L v = v.
Proof.
  induction vs as [| T R id FV CV rest IH]; [done |]. intros Hc. destruct v as [x | v]; cbn [variant_canon].
  - f_equal. exact (Hc _ eq_refl).
  - f_equal. by apply IH.
Qed.

Lemma variants_eqb_canon {R} (vs : Variants R) L a b :
  wf (p_value (variant_payload vs L a).2) -> wf (p_value (variant_payload vs L b).2) ->
  writable (p_value (variant_payload vs L a).2) -> writable (p_value (variant_payload vs L b).2) ->
  variants_eqb vs a b = true <-> variant_canon vs L a = variant_canon vs L b.
Proof.
  induction vs as [| T R id FV CV rest IH]; [done |]. intros Ha Hb Hwa Hwb.
  destruct a as [a | a], b as [b | b]; cbn [variants_eqb variant_canon variant_payload snd] in *; try done.
  - rewrite (law_eqb (Lawful := L.1.2)) by done. split; [by intros -> | by intros [=]].
  - rewrite (IH L.2) by done. split; [by intros -> | by intros [=]].
Qed.

Definition cost_max (a b : Cost) : Cost :=
  mkCost (N.max (c_nodes a) (c_nodes b)) (N.max (c_alloc a) (c_alloc b)) (N.max (c_items a) (c_items b)) (N.max (c_text a) (c_text b)).

Lemma cost_max_le a b : a ⪯ cost_max a b /\ b ⪯ cost_max a b.
Proof. unfold cost_max, cost_le. cbn. lia. Qed.

Lemma merge_max_charge w a b : good (charge w a) -> good (charge w b) ->
  merge_max (charge w a) (charge w b) = charge w (cost_max a b) /\ good (charge w (cost_max a b)).
Proof. intros (Hl & Ha) (_ & Hb). unfold merge_max, good, cost_max. cost_arith. split; [f_equal; lia |]. split; [done |]. lia. Qed.

(** The merged maximum covers every variant. *)
Lemma variants_max_Ok {R} (vs : Variants R) L before d : good before -> forall total c0 u n w',
  good (charge before c0) -> variants_max vs before d total tt (charge before c0) = Ok (n, u, w') ->
  exists c, w' = charge before c /\ good w' /\ c0 ⪯ c /\ total <= n
    /\ forall v, wf (p_value (variant_payload vs L v).2) ->
        len (enc (p_value (variant_payload vs L v).2)) <= n /\ rcost (p_value (variant_payload vs L v).2) ⪯ c
        /\ fits (limits before) (d + 1) (p_value (variant_payload vs L v).2).
Proof.
  intros Hb. induction vs as [| T R id FV CV rest IH]; intros total c0 u n w' Hg H; cbn [variants_max] in H.
  { injection H as <- _ <-. exists c0. split_and!; done. }
  destruct (maximum_size (d + 1) tt before) as [[[m []] branch] |] eqn:E; [| done].
  apply (law_max (Lawful := L.1.2)) in E as (c1 & -> & Hg1 & Hmax); [| done].
  destruct (merge_max_charge before c0 c1 Hg Hg1) as [Hm Hgm]. unfold bind, get_work, set_work in H. rewrite Hm in H.
  apply (IH L.2) in H as (c & -> & Hg' & Hc & Hn & Hv); [| done]. destruct (cost_max_le c0 c1) as [H0 H1].
  exists c. split; [done |]. split; [done |]. split; [by etransitivity |]. split; [lia |]. intros [x | v] Hw; [| by apply Hv].
  cbn [variant_payload snd p_value p_law p_FV p_CV p_type] in *. destruct (Hmax x Hw) as (? & ? & ?).
  split; [lia |]. split; [| done]. etransitivity; [| exact Hc]. by etransitivity.
Qed.

(** What inspecting the variant of a tag establishes. *)
Fixpoint variant_sound {R} (vs : Variants R) : variants_lawful vs -> N -> FieldSpec -> Inspection -> Prop :=
  match vs with
  | VNil => fun _ _ _ _ => False
  | VCons id' FV CV rest => fun L id s i =>
      if decide (id = id') then declared (Lawful := L.1.2) /\ Forall (sealed s i) (nested (Lawful := L.1.2))
      else variant_sound rest L.2 id s i
  end.

Lemma inspect_variant_at_Ok {R} (vs : Variants R) L id s d i i' : inspect_variant_at vs id s d i = Ok i' ->
  variant_sound vs L id s i' /\ grows i i'.
Proof.
  induction vs as [| T R id' FV CV rest IH]; [done |]. cbn [inspect_variant_at variant_sound]. case_decide; [| by apply IH].
  intros Hi. apply (law_inspect (Lawful := L.1.2)) in Hi as (? & ? & ?). done.
Qed.

Lemma variant_sound_mono {R} (vs : Variants R) L id s i i' : grows i i' ->
  variant_sound vs L id s i -> variant_sound vs L id s i'.
Proof.
  intros Hi. induction vs as [| T R id' FV CV rest IH]; [done |]. cbn [variant_sound]. case_decide; [| by apply IH].
  intros [? ?]. split; [done |]. by eapply sealed_mono.
Qed.

Lemma inspect_variants_Ok {R} (vs : Variants R) L s d ids : forall i i', inspect_variants vs ids s d i = Ok i' ->
  Forall (fun id => variant_sound vs L id s i') ids /\ grows i i'.
Proof.
  induction ids as [| id ids IH]; intros i i' H; cbn [inspect_variants] in H.
  { injection H as <-. split_and!; done. }
  destruct (inspect_variant_at vs id s d (i_number id i)) as [i1 |] eqn:E; [| done].
  apply (inspect_variant_at_Ok _ L) in E as (Hs & Hr). apply IH in H as (Hall & Hr').
  split; [| by etransitivity; [exact Hr |]]. constructor; [| done]. by eapply variant_sound_mono.
Qed.

Lemma variants_sound {R} (vs : Variants R) L s i : NoDup (variant_ids vs) ->
  Forall (fun id => variant_sound vs L id s i) (variant_ids vs) ->
  variants_all (fun _ _ _ L => declared (Lawful := L)) vs L /\ Forall (sealed s i) (variants_nested vs L).
Proof.
  induction vs as [| T R id FV CV rest IH]; [done |]. cbn [variant_ids variants_all variants_nested].
  intros [Hid Hnd]%NoDup_cons [Hs Hall]%Forall_cons. cbn [variant_sound] in Hs. rewrite decide_True in Hs by done. destruct Hs as [? ?].
  destruct (IH L.2 Hnd) as [? ?].
  { rewrite Forall_forall in Hall |- *. intros id' Hid'. specialize (Hall id' Hid'). cbn [variant_sound] in Hall.
    by rewrite decide_False in Hall by (by intros ->). }
  split; [done |]. by apply Forall_app.
Qed.

Context {R : Type} (vs : Variants R) (L : variants_lawful vs).
#[local] Abbreviation tag v := (variant_payload vs L v).1.
#[local] Abbreviation inner v := (p_value (variant_payload vs L v).2).

Definition sum_declared : Prop :=
  NoDup (variant_ids vs) /\ variants_all (fun _ _ _ L => declared (Lawful := L)) vs L.
Definition sum_enc (v : R) : list byte := to_le_bytes 2 (tag v) ++ enc (inner v).
Definition sum_cenc (v : R) : list byte := to_le_bytes 2 (tag v) ++ cenc (inner v).
Definition sum_fits (l : SchemaLimits) (d : N) (v : R) : Prop := d <= nesting l /\ fits l (d + 1) (inner v).

Lemma inner_declared v : sum_declared -> declared (Lawful := p_law (variant_payload vs L v).2).
Proof. intros [_ H]. exact (variant_payload_all _ vs L v H). Qed.

Lemma len_sum_enc v : len (sum_enc v) = 2 + len (enc (inner v)).
Proof. unfold sum_enc. by rewrite len_app, len_le_bytes. Qed.
Lemma len_sum_cenc v : len (sum_cenc v) = 2 + len (cenc (inner v)).
Proof. unfold sum_cenc. by rewrite len_app, len_le_bytes. Qed.

#[export] Instance sum_lawful : Lawful (sum_value layout vs) (sum_compact vs).
Proof.
  refine {|
    wf v := wf (inner v); writable v := writable (inner v); canon := variant_canon vs L; enc := sum_enc; cenc := sum_cenc;
    wcost v := node1 ⊕ wcost (inner v); rcost v := node1 ⊕ rcost (inner v); fits := sum_fits;
    conforms s v := conforms s (inner v);
    exact := variants_all (fun _ _ _ L => exact (Lawful := L)) vs L; declared := sum_declared;
    nested := variants_nested vs L |}.
  - intros v Hwf Hw. unfold sum_enc, sum_fits. rewrite !variant_payload_canon. cbn [fst snd canon_payload p_value p_law p_FV p_CV p_type].
    destruct (law_canon (inner v) Hwf Hw) as (? & ? & -> & -> & Hf & Hc). split_and!; try done. intros l d [? ?]. auto.
  - intros s v Hwf. by apply law_conforms.
  - intros v Hx. apply variant_canon_id. intros p ->. apply law_exact. exact (variant_payload_all _ vs L v Hx).
  - intros v. pose proof (law_costs (inner v)). cost_arith.
  - intros v Hwf Hw. rewrite len_sum_enc, len_sum_cenc. pose proof (law_compact (inner v) Hwf Hw). lia.
  - intros v s d w n u w' Hdec Hg Hwf H. cbn [value_size sum_value] in H. inv_spend H. rewrite (variant_size_payload _ L) in H. inv_spend H. destruct x0.
    apply size_Ok in H as (-> & _ & -> & _). apply law_size in E as (? & ? & -> & ? & ->); try done; [| by apply inner_declared].
    charges. rewrite len_sum_enc. split_and!; done.
  - intros v s d w Hdec Hwf Hc [Hd Hf] Hg Hl. rewrite len_sum_enc in *. cbn [value_size sum_value]. spend. rewrite (variant_size_payload _ L).
    erewrite bind_step by (apply law_size_ok; try done; [by apply inner_declared | good_tac | cbn [limits charge]; lia]).
    charges. apply size_Ok. split_and!; done.
  - intros v d out w Hdec Hwf Hw [Hd Hf] Hg Hl. rewrite len_sum_enc in Hl. cbn [write sum_value]. spend. rewrite (write_variant_payload _ L).
    pose proof (len_le_bytes 2 (tag v)). spend.
    rewrite law_write; try done; [| by apply inner_declared | good_tac | rewrite len_app; cbn [limits charge]; lia].
    charges. unfold sum_enc. by rewrite <- app_assoc.
  - intros v d out w Hdec Hwf Hw [Hd Hf] Hg Hl. rewrite len_sum_cenc in Hl. cbn [write_compact sum_compact]. spend. rewrite (write_variant_compact_payload _ L).
    pose proof (len_le_bytes 2 (tag v)). spend.
    rewrite law_write_compact; try done; [| by apply inner_declared | good_tac | rewrite len_app; cbn [limits charge]; lia].
    charges. unfold sum_cenc. by rewrite <- app_assoc.
  - intros v d w Hdec Hwf Hw [Hd Hf] Hg Hl. rewrite len_sum_enc in Hl. cbn [read sum_value]. spend. destruct (variant_payload_id vs L v) as [_ Ht].
    rewrite (bind_step _ _ _ _ (tag v, enc (inner v)) tt (charge w node1)).
    + change ((tag v, enc (inner v)).1) with (tag v). change ((tag v, enc (inner v)).2) with (enc (inner v)).
      apply read_variant_ok; [apply Hdec |]. intros p ->. rewrite law_read; try done; [by charges | by apply inner_declared | good_tac | cbn [limits charge]; lia].
    + apply with_cursor_Ok. split; [done |]. exists (mkCursor [] 0). unfold Cursor_new, sum_enc. rewrite u16_step by done.
      rewrite remaining_step. cbn [cu_bytes]. rewrite <- (app_nil_r (enc (inner v))) at 2. by rewrite take_step.
  - intros bytes d w v u w' Hdec Hg H. cbn [read sum_value] in H. do 2 inv_spend H. destruct x0. apply with_cursor_Ok in E as (_ & c & E).
    do 3 inv_spend E. injection E as <- <- <-. cbn [cu_bytes Cursor_new fst snd] in *. apply (read_variant_inv _ L) in H as (-> & p & -> & H).
    assert (x4 = []) as ->. { rewrite E1, len_app in H3. destruct x4; [done |]. rewrite len_cons in H3. lia. }
    apply law_read_inv in H as (? & ? & ? & ? & -> & ? & Hl & Hex); try done; [| by apply inner_declared]. rewrite app_nil_r in *. subst.
    charges. rewrite len_sum_enc, len_app, len_le_bytes. unfold sum_fits. split_and!; try done; [| lia |].
    + apply variant_canon_id. by intros p ->.
    + intros Hx. unfold sum_enc. rewrite <- Hex; [done |]. exact (variant_payload_all _ vs L v Hx).
  - intros v d rest p w Hdec Hwf Hw [Hd Hf] Hg. cbn [read_compact sum_compact]. spend. destruct (variant_payload_id vs L v) as [_ Ht].
    unfold sum_cenc. rewrite <- app_assoc, u16_step by done. apply read_variant_compact_ok; [apply Hdec |]. intros q ->.
    rewrite law_read_compact; try done; [by charges | by apply inner_declared | good_tac].
  - intros d c w v c' w' Hdec Hg H. cbn [read_compact sum_compact] in H. do 2 inv_spend H.
    apply (read_variant_compact_inv _ L) in H as (-> & p & -> & H).
    apply law_read_compact_inv in H as (? & ? & ? & ? & -> & ? & Hp & bytes & Hb & Hl & Hex); try done; [| by apply inner_declared].
    charges. rewrite len_sum_cenc. unfold sum_fits. cbn [cu_bytes cu_previous] in *. split_and!; try done.
    + apply variant_canon_id. by intros p ->.
    + exists (to_le_bytes 2 (tag v) ++ bytes). rewrite E, Hb, len_app, len_le_bytes, <- app_assoc. split_and!; [done | lia |].
      intros Hx. unfold sum_cenc. rewrite <- Hex; [done |]. exact (variant_payload_all _ vs L v Hx).
  - intros d w m u w' Hg H. cbn [maximum_size sum_value] in H. do 3 inv_spend H. destruct x0. apply size_Ok in H as (-> & _ & -> & _).
    rewrite <- (charge_0 (charge w node1)) in E at 2. apply (variants_max_Ok _ L) in E as (c & -> & Hg' & _ & _ & Hv); [| done | by rewrite charge_0].
    charges. eexists. split; [done |]. split; [done |]. intros v Hwf. destruct (Hv v Hwf) as (? & ? & ?). rewrite len_sum_enc.
    split; [lia |]. split; [cost_arith | done].
  - intros s d i i' H. cbn [inspect sum_value] in H. unfold sum_inspect in H. destruct (no_range s); [| done]. destruct (discrete s); [| done].
    destruct (enum_ids _) as [sorted |] eqn:E; [| done]. apply enum_ids_Ok in E as [Hnd ->].
    apply (inspect_variants_Ok _ L) in H as (Hall & Hr). rewrite merge_sort_Permutation in Hall.
    destruct (variants_sound vs L s i' Hnd Hall) as [? ?]. done.
  - intros a b. apply variants_eqb_canon.
Defined.
End SumLaws.
