(* ===== verification/SchemaRecordLaws.v ===== *)
(** * Records are lawful

    What [schema!] generates keeps the contract when every field's type does. The fields of a
    value are listed as payloads, in declaration order for sizes and in the order of their
    identities for bytes; the two are permutations, and costs do not depend on the order. *)

From S2P Require Import Prelude Types Floats FloatBits Codec Reader Schema SchemaValues SchemaRecords SchemaLaws SchemaCompositeLaws SchemaSumLaws.
Local Open Scope N_scope.
Local Open Scope engine_scope.

Fixpoint fields_lawful {R} (fs : Fields R) : Type :=
  match fs with
  | FNil => unit
  | FCons field FV CV _ rest => ((fd_id field < 65536) * Lawful FV CV * fields_lawful rest)%type
  end.

(** One field of a value. *)
Definition entry : Type := FieldDescriptor * payload.
Definition e_id (e : entry) : FieldId := fd_id e.1.
#[local] Abbreviation e_value e := (p_value (snd e)).

Fixpoint entries {R} (fs : Fields R) : fields_lawful fs -> R -> list entry :=
  match fs with
  | FNil => fun _ _ => []
  | FCons field FV CV _ rest => fun L v => (field, {| p_law := L.1.2; p_value := v.1 |}) :: entries rest L.2 v.2
  end.

Fixpoint fields_canon {R} (fs : Fields R) : fields_lawful fs -> R -> R :=
  match fs with
  | FNil => fun _ v => v
  | FCons field FV CV _ rest => fun L v => (canon (Lawful := L.1.2) v.1, fields_canon rest L.2 v.2)
  end.

Fixpoint fields_all {R} (P : forall T (FV : FieldValue T) (CV : CompactValue T), Lawful FV CV -> Prop) (fs : Fields R)
  : fields_lawful fs -> Prop :=
  match fs with
  | FNil => fun _ => True
  | FCons _ FV CV _ rest => fun L => P _ FV CV L.1.2 /\ fields_all P rest L.2
  end.

Fixpoint fields_nested {R} (fs : Fields R) : fields_lawful fs -> list FieldSpec :=
  match fs with
  | FNil => fun _ => []
  | FCons field FV CV _ rest => fun L => fd_spec field :: nested (Lawful := L.1.2) ++ fields_nested rest L.2
  end.

(** The entry of an identity: the first in declaration order. *)
Fixpoint entry_at (id : FieldId) (es : list entry) : option entry :=
  match es with
  | [] => None
  | e :: es => if decide (id = e_id e) then Some e else entry_at id es
  end.

Definition sorted_entries (es : list entry) : list entry :=
  omap (fun id => entry_at id es) (merge_sort N.le (e_id <$> es)).

(** ** Entries *)

Lemma entries_ids {R} (fs : Fields R) L v : e_id <$> entries fs L v = field_ids fs.
Proof.
  unfold field_ids. induction fs as [| T R field FV CV def rest IH]; [done |]. cbn [entries descriptors]. rewrite !fmap_cons. by rewrite IH.
Qed.

Lemma entries_typed {R} (fs : Fields R) L v : Forall (fun e : entry => e_id e < 65536) (entries fs L v).
Proof. induction fs as [| T R field FV CV def rest IH]; constructor; [apply L | apply IH]. Qed.

Lemma entries_all {R} P (fs : Fields R) L v : fields_all P fs L -> Forall (fun e : entry => P _ _ _ (p_law e.2)) (entries fs L v).
Proof. induction fs as [| T R field FV CV def rest IH]; intros H; constructor; [apply H | apply IH, H]. Qed.

Lemma entries_canon {R} (fs : Fields R) L v :
  entries fs L (fields_canon fs L v) = (fun e => (e.1, canon_payload e.2)) <$> entries fs L v.
Proof. induction fs as [| T R field FV CV def rest IH]; [done |]. cbn [entries fields_canon fst snd]. by rewrite fmap_cons, IH. Qed.

Lemma fields_canon_id {R} (fs : Fields R) L v :
  Forall (fun e : entry => canon (e_value e) = e_value e) (entries fs L v) -> fields_canon fs L v = v.
Proof.
  induction fs as [| T R field FV CV def rest IH]; [done |]. cbn [entries fields_canon]. intros [Hx Hc]%Forall_cons. destruct v as [x v].
  cbn [fst snd] in *. rewrite (IH L.2 v Hc). f_equal. exact Hx.
Qed.

Lemma fields_eqb_canon {R} (fs : Fields R) L a b :
  Forall (fun e : entry => wf (e_value e)) (entries fs L a) -> Forall (fun e : entry => wf (e_value e)) (entries fs L b) ->
  Forall (fun e : entry => writable (e_value e)) (entries fs L a) -> Forall (fun e : entry => writable (e_value e)) (entries fs L b) ->
  fields_eqb fs a b = true <-> fields_canon fs L a = fields_canon fs L b.
Proof.
  induction fs as [| T R field FV CV def rest IH]; [by destruct a, b |]. cbn [entries fields_eqb fields_canon].
  intros [Ha1 Ha]%Forall_cons [Hb1 Hb]%Forall_cons [Hwa1 Hwa]%Forall_cons [Hwb1 Hwb]%Forall_cons.
  rewrite andb_true_iff, (IH L.2) by done. rewrite (law_eqb (Lawful := L.1.2)) by done. split; [by intros [-> ->] | by intros [=]].
Qed.

Lemma entry_at_Some id (es : list entry) e : NoDup (e_id <$> es) -> entry_at id es = Some e <-> e ∈ es /\ e_id e = id.
Proof.
  induction es as [| x es IH]; intros Hnd; cbn [entry_at].
  { split; [done | intros [?%not_elem_of_nil _]; done]. }
  rewrite fmap_cons, NoDup_cons in Hnd. destruct Hnd as [Hx Hnd]. rewrite elem_of_cons. case_decide as Hd; subst.
  - split; [intros [= ->]; auto |]. intros [[-> | He] Hid]; [done |]. destruct Hx. rewrite <- Hid. apply list_elem_of_fmap. eauto.
  - rewrite (IH Hnd). naive_solver.
Qed.

Lemma entry_at_in id (es : list entry) e : entry_at id es = Some e -> e ∈ es.
Proof.
  induction es as [| x es IH]; cbn [entry_at]; [done |]. case_decide; [intros [= ->]; by left |]. intros Hin. right. auto.
Qed.

Lemma sorted_entries_in (es : list entry) e : e ∈ sorted_entries es -> e ∈ es.
Proof. unfold sorted_entries. intros (id & _ & H)%list_elem_of_omap. by apply entry_at_in in H. Qed.

(** A change of payloads that keeps the identities commutes with sorting. *)
Lemma sorted_entries_fmap (g : entry -> entry) (es : list entry) : (forall e, e_id (g e) = e_id e) ->
  sorted_entries (g <$> es) = g <$> sorted_entries es.
Proof.
  intros Hg. unfold sorted_entries. rewrite <- list_fmap_compose. rewrite (list_fmap_ext (e_id ∘ g) e_id es) by (intros i e _; apply Hg).
  generalize (merge_sort N.le (e_id <$> es)) as ids. induction ids as [| id ids IH]; [done |]. cbn [omap list_omap].
  assert (entry_at id (g <$> es) = g <$> entry_at id es) as ->.
  { clear IH. induction es as [| e es IH]; [done |]. rewrite fmap_cons. cbn [entry_at]. rewrite Hg. case_decide; [done | apply IH]. }
  destruct (entry_at id es) as [e |]; cbn [fmap option_fmap option_map]; [rewrite fmap_cons; f_equal |]; exact IH.
Qed.

Lemma omap_entry_at (es xs : list entry) : NoDup (e_id <$> es) -> (forall x, x ∈ xs -> x ∈ es) -> omap (fun id => entry_at id es) (e_id <$> xs) = xs.
Proof.
  intros Hnd. induction xs as [| x xs IH]; intros Hin; [done |]. rewrite fmap_cons. cbn [omap list_omap].
  rewrite (proj2 (entry_at_Some (e_id x) es x Hnd)) by (split; [apply Hin; by left | done]).
  f_equal. apply IH. intros y Hy. apply Hin. by right.
Qed.

Lemma sorted_unique_le (l k : list N) : StronglySorted N.le l -> StronglySorted N.le k -> l ≡ₚ k -> l = k.
Proof. intros Hl Hk. by apply (StronglySorted_unique N.le). Qed.

(** The entries in wire order: a permutation of them, with the identities sorted; and any such
    permutation is it. *)
Lemma sorted_entries_spec es : NoDup (e_id <$> es) ->
  sorted_entries es ≡ₚ es /\ e_id <$> sorted_entries es = merge_sort N.le (e_id <$> es).
Proof.
  intros Hnd. destruct (Permutation_map_inv e_id es (merge_sort_Permutation N.le (e_id <$> es))) as (xs & Hxs & Hp).
  change (merge_sort N.le (e_id <$> es) = e_id <$> xs) in Hxs. unfold sorted_entries. rewrite Hxs.
  rewrite omap_entry_at by (try done; intros x Hx; by rewrite Hp). split; [done | done].
Qed.

Lemma sorted_entries_unique (es xs : list entry) : NoDup (e_id <$> es) -> xs ≡ₚ es -> StronglySorted N.le (e_id <$> xs) -> xs = sorted_entries es.
Proof.
  intros Hnd Hp Hs. unfold sorted_entries. rewrite (sorted_unique_le (merge_sort N.le (e_id <$> es)) (e_id <$> xs)).
  - symmetry. apply omap_entry_at; [done |]. intros x Hx. by rewrite <- Hp.
  - apply sorted_ids.
  - done.
  - rewrite merge_sort_Permutation. by rewrite Hp.
Qed.

(** ** Sizes, in declaration order *)

Fixpoint sizes_of (es : list entry) (d total : N) : spends unit N :=
  match es with
  | [] => ret total
  | e :: es =>
      let* field_size := value_size (e_value e) (fd_spec e.1) (d + 1) in
      let* total := size (total + 6 + field_size) in
      sizes_of es d total
  end.

Lemma fields_size_entries {R} (fs : Fields R) L d v : forall total x w,
  fields_size fs d total v x w = sizes_of (entries fs L v) d total x w.
Proof.
  induction fs as [| T R field FV CV def rest IH]; intros total x w; [done |]. cbn [fields_size entries sizes_of fst snd p_value p_FV].
  unfold bind. destruct (value_size _ _ _ _ _) as [[[n x1] w1] |]; [| done]. destruct (size _ x1 w1) as [[[m x2] w2] |]; [| done]. apply IH.
Qed.

(** The bytes of an entry, and how many entries' sizes add up to. *)
Definition entry_bytes (e : entry) : list byte := to_le_bytes 2 (e_id e) ++ framed (enc (e_value e)).
Definition entries_bytes (es : list entry) : list byte := concat (entry_bytes <$> es).
Definition entries_cbytes (es : list entry) : list byte := concat ((fun e : entry => cenc (e_value e)) <$> es).
Definition ok_entry (e : entry) : Prop := declared (Lawful := p_law e.2) /\ wf (e_value e).

Lemma len_entry_bytes e : len (entry_bytes e) = 6 + len (enc (e_value e)).
Proof. unfold entry_bytes. rewrite len_app, len_le_bytes, len_framed. lia. Qed.
Lemma entries_bytes_cons e es : entries_bytes (e :: es) = entry_bytes e ++ entries_bytes es.
Proof. done. Qed.
Lemma entries_cbytes_cons e es : entries_cbytes (e :: es) = cenc (e_value e) ++ entries_cbytes es.
Proof. done. Qed.
Lemma cost_sum_cons c l : cost_sum (c :: l) = c ⊕ cost_sum l.
Proof. done. Qed.

Lemma len_concat {A} (l k : list (list A)) : l ≡ₚ k -> len (concat l) = len (concat k).
Proof. induction 1; cbn [concat]; rewrite ?len_app; lia. Qed.
Lemma len_entries_bytes_Permutation es es' : es ≡ₚ es' -> len (entries_bytes es) = len (entries_bytes es').
Proof. intros H. apply len_concat. by rewrite H. Qed.
Lemma len_entries_cbytes_Permutation es es' : es ≡ₚ es' -> len (entries_cbytes es) = len (entries_cbytes es').
Proof. intros H. apply len_concat. by rewrite H. Qed.

Lemma sizes_of_Ok d es : forall total w n u w', good w -> Forall ok_entry es ->
  sizes_of es d total tt w = Ok (n, u, w') ->
  Forall (fun e : entry => conforms (fd_spec e.1) (e_value e)) es /\ Forall (fun e : entry => fits (limits w) (d + 1) (e_value e)) es
  /\ w' = charge w (cost_sum ((fun e : entry => wcost (e_value e)) <$> es)) /\ good w' /\ n = total + len (entries_bytes es).
Proof.
  induction es as [| e es IH]; intros total w n u w' Hg Hok H; cbn [sizes_of] in H.
  { injection H as <- _ <-. rewrite fmap_nil. cbn [cost_sum foldr]. rewrite charge_0. split_and!; try done. change (len (entries_bytes [])) with 0. lia. }
  apply Forall_cons in Hok as [[Hd Hv] Hok]. inv_spend H. destruct x0. apply law_size in E as (? & ? & -> & ? & ->); try done.
  inv_spend H. apply IH in H as (? & ? & -> & ? & ->); try done. rewrite fmap_cons, cost_sum_cons, entries_bytes_cons, len_app, len_entry_bytes, <- charge_add.
  split_and!; try (by constructor); try done. lia.
Qed.

Lemma sizes_of_ok d es : forall total w, Forall ok_entry es -> Forall (fun e : entry => conforms (fd_spec e.1) (e_value e)) es ->
  Forall (fun e : entry => fits (limits w) (d + 1) (e_value e)) es -> good (charge w (cost_sum ((fun e : entry => wcost (e_value e)) <$> es))) ->
  total + len (entries_bytes es) <= wire_bytes (limits w) ->
  sizes_of es d total tt w = Ok (total + len (entries_bytes es), tt, charge w (cost_sum ((fun e : entry => wcost (e_value e)) <$> es))).
Proof.
  induction es as [| e es IH]; intros total w Hok Hc Hf Hg Hl; cbn [sizes_of].
  { rewrite fmap_nil. cbn [cost_sum foldr]. rewrite charge_0. change (len (entries_bytes [])) with 0. by rewrite N.add_0_r. }
  apply Forall_cons in Hok as [[Hd Hv] Hok], Hc as [Hcv Hc], Hf as [Hfv Hf].
  rewrite fmap_cons, cost_sum_cons, entries_bytes_cons, len_app, len_entry_bytes, <- ?charge_add in *.
  erewrite bind_step by (apply law_size_ok; try done; [good_tac | lia]). spend.
  rewrite IH; try done; [do 3 f_equal; lia | cbn [limits charge]; lia].
Qed.

(** ** Writing, in the order of identities *)

Lemma write_field_at_entries {R} (fs : Fields R) L v id d : forall out w,
  write_field_at fs id d v out w
  = match entry_at id (entries fs L v) with
    | Some e => write_field (p_FV e.2) id (e_value e) d out w
    | None => Err InvalidSchema
    end.
Proof.
  induction fs as [| T R field FV CV def rest IH]; intros out w; [done |]. cbn [write_field_at entries entry_at]. unfold e_id; cbn [fst]; fold e_id.
  case_decide; [done | apply IH].
Qed.

Lemma write_compact_at_entries {R} (fs : Fields R) L v id d : forall out w,
  write_compact_at fs id d v out w
  = match entry_at id (entries fs L v) with
    | Some e => write_compact (CompactValue := p_CV e.2) (e_value e) (d + 1) out w
    | None => Err InvalidSchema
    end.
Proof.
  induction fs as [| T R field FV CV def rest IH]; intros out w; [done |]. cbn [write_compact_at entries entry_at]. unfold e_id; cbn [fst]; fold e_id.
  case_decide; [done | apply IH].
Qed.

Lemma write_field_ok (e : entry) d out w : ok_entry e -> writable (e_value e) -> fits (limits w) (d + 1) (e_value e) ->
  good (charge w (wcost (e_value e))) -> len out + len (entry_bytes e) <= wire_bytes (limits w) ->
  write_field (p_FV e.2) (e_id e) (e_value e) d out w = Ok (tt, out ++ entry_bytes e, charge w (wcost (e_value e))).
Proof.
  intros [Hd Hv] Hw Hf Hg Hl. rewrite len_entry_bytes in Hl. unfold write_field.
  assert (limits_valid (limits w) = true) as Hlim%limits_bounds by apply (good_charged _ _ Hg).
  pose proof (len_le_bytes 2 (e_id e)). spend. rewrite (bind_step out_len _ _ _ (len (out ++ to_le_bytes 2 (e_id e))) _ w) by done.
  rewrite (bind_step _ _ _ _ tt ((out ++ to_le_bytes 2 (e_id e)) ++ to_le_bytes 4 0) w)
    by (apply append_Ok; [good_tac | rewrite !len_app, !len_le_bytes; split_and!; try done; lia]).
  erewrite bind_step by (apply law_write; try done; rewrite !len_app, !len_le_bytes; lia).
  rewrite <- (app_assoc _ (to_le_bytes 4 0)), patch_length_Ok by (unfold u32_max; lia).
  unfold entry_bytes, framed. by rewrite <- !app_assoc.
Qed.

Lemma write_ids_ok {R} (fs : Fields R) L v d xs : NoDup (field_ids fs) -> forall out w,
  (forall x, x ∈ xs -> x ∈ entries fs L v) -> Forall ok_entry xs -> Forall (fun e : entry => writable (e_value e)) xs ->
  Forall (fun e : entry => fits (limits w) (d + 1) (e_value e)) xs -> good (charge w (cost_sum ((fun e : entry => wcost (e_value e)) <$> xs))) ->
  len out + len (entries_bytes xs) <= wire_bytes (limits w) ->
  for_ids (e_id <$> xs) (fun id => write_field_at fs id d v) out w
  = Ok (tt, out ++ entries_bytes xs, charge w (cost_sum ((fun e : entry => wcost (e_value e)) <$> xs))).
Proof.
  intros Hnd. induction xs as [| x xs IH]; intros out w Hin Hok Hw Hf Hg Hl.
  { rewrite !fmap_nil. cbn [for_ids cost_sum foldr]. rewrite charge_0. unfold ret. by rewrite app_nil_r. }
  apply Forall_cons in Hok as [Hx Hok], Hw as [Hwx Hw], Hf as [Hfx Hf]. rewrite !fmap_cons. cbn [for_ids].
  rewrite fmap_cons, cost_sum_cons, entries_bytes_cons, len_app, <- ?charge_add in *.
  assert (NoDup (e_id <$> entries fs L v)) as Hnd' by (by rewrite entries_ids).
  rewrite (bind_step _ _ _ _ tt (out ++ entry_bytes x) (charge w (wcost (e_value x)))).
  - rewrite IH; try done; [by rewrite <- app_assoc | intros y Hy; apply Hin; by right | rewrite len_app; cbn [limits charge]; lia].
  - rewrite (write_field_at_entries _ L), (proj2 (entry_at_Some (e_id x) _ x Hnd')) by (split; [apply Hin; by left | done]).
    apply write_field_ok; try done; [good_tac | lia].
Qed.

Lemma write_compact_ids_ok {R} (fs : Fields R) L v d xs : NoDup (field_ids fs) -> forall out w,
  (forall x, x ∈ xs -> x ∈ entries fs L v) -> Forall ok_entry xs -> Forall (fun e : entry => writable (e_value e)) xs ->
  Forall (fun e : entry => fits (limits w) (d + 1) (e_value e)) xs -> good (charge w (cost_sum ((fun e : entry => wcost (e_value e)) <$> xs))) ->
  len out + len (entries_cbytes xs) <= wire_bytes (limits w) ->
  for_ids (e_id <$> xs) (fun id => write_compact_at fs id d v) out w
  = Ok (tt, out ++ entries_cbytes xs, charge w (cost_sum ((fun e : entry => wcost (e_value e)) <$> xs))).
Proof.
  intros Hnd. induction xs as [| x xs IH]; intros out w Hin Hok Hw Hf Hg Hl.
  { rewrite !fmap_nil. cbn [for_ids cost_sum foldr]. rewrite charge_0. unfold ret. by rewrite app_nil_r. }
  apply Forall_cons in Hok as [Hx Hok], Hw as [Hwx Hw], Hf as [Hfx Hf]. rewrite !fmap_cons. cbn [for_ids].
  rewrite fmap_cons, cost_sum_cons, entries_cbytes_cons, len_app, <- ?charge_add in *.
  assert (NoDup (e_id <$> entries fs L v)) as Hnd' by (by rewrite entries_ids).
  rewrite (bind_step _ _ _ _ tt (out ++ cenc (e_value x)) (charge w (wcost (e_value x)))).
  - rewrite IH; try done; [by rewrite <- app_assoc | intros y Hy; apply Hin; by right | rewrite len_app; cbn [limits charge]; lia].
  - rewrite (write_compact_at_entries _ L), (proj2 (entry_at_Some (e_id x) _ x Hnd')) by (split; [apply Hin; by left | done]).
    destruct Hx. apply law_write_compact; try done; [good_tac | lia].
Qed.

(** ** Reading, into slots *)

(** The slots after the fields in [seen] were read. *)
Fixpoint fill {R} (fs : Fields R) : fields_lawful fs -> R -> list FieldId -> slots fs :=
  match fs with
  | FNil => fun _ _ _ => tt
  | FCons field FV CV _ rest => fun L v seen =>
      (if decide (fd_id field ∈ seen) then Some (canon (Lawful := L.1.2) v.1) else None, fill rest L.2 v.2 seen)
  end.

Lemma fill_nil {R} (fs : Fields R) L v : fill fs L v [] = no_slots fs.
Proof.
  induction fs as [| T R field FV CV def rest IH]; [done |]. cbn [fill no_slots]. rewrite IH, decide_False; [done |]. apply not_elem_of_nil.
Qed.

Lemma fill_all {R} (fs : Fields R) L v seen : (forall id, id ∈ field_ids fs -> id ∈ seen) -> collect fs (fill fs L v seen) = Ok (fields_canon fs L v).
Proof.
  unfold field_ids. induction fs as [| T R field FV CV def rest IH]; intros Hin; [by destruct v |]. cbn [fill collect fields_canon descriptors fst snd] in *.
  rewrite fmap_cons in Hin. rewrite decide_True by (apply Hin; by left). cbn [ok_or].
  by rewrite IH by (intros id Hid; apply Hin; by right).
Qed.

Lemma fill_other {R} (fs : Fields R) L v id seen : id ∉ field_ids fs -> fill fs L v (id :: seen) = fill fs L v seen.
Proof.
  unfold field_ids. induction fs as [| T R field FV CV def rest IH]; intros Hid; [done |]. cbn [fill descriptors] in *.
  rewrite fmap_cons, not_elem_of_cons in Hid. destruct Hid as [Hf Hid]. rewrite IH by done. f_equal.
  apply decide_ext. rewrite elem_of_cons. naive_solver.
Qed.

(** Both readers run the reader of the identity's type and set its slot. *)
Fixpoint at_slot {X R} (fs : Fields R) (none : SchemaError)
    (k : forall T, FieldValue T -> CompactValue T -> spends X T) (id : FieldId) : slots fs -> spends X (slots fs) :=
  match fs with
  | FNil => fun _ => fail none
  | FCons field FV CV _ rest => fun s =>
      if decide (id = fd_id field)
      then let* v := k _ FV CV in ret (Some v, s.2)
      else let* s' := at_slot rest none k id s.2 in ret (s.1, s')
  end.

Lemma read_field_at_slot {R} (fs : Fields R) id bytes d : forall s x w,
  read_field_at fs id bytes d s x w = at_slot fs (UnknownField id) (fun T FV _ => read bytes (d + 1)) id s x w.
Proof.
  induction fs as [| T R field FV CV def rest IH]; intros s x w; [done |]. cbn [read_field_at at_slot]. case_decide; [done |].
  unfold bind. by rewrite IH.
Qed.

Lemma read_compact_at_slot {R} (fs : Fields R) id d : forall s x w,
  read_compact_at fs id d s x w = at_slot fs InvalidSchema (fun T _ CV => read_compact (d + 1)) id s x w.
Proof.
  induction fs as [| T R field FV CV def rest IH]; intros s x w; [done |]. cbn [read_compact_at at_slot]. case_decide; [done |].
  unfold bind. by rewrite IH.
Qed.

(** Reading a field that gives its canonical value fills its slot. *)
Lemma at_slot_ok {X R} (fs : Fields R) none (k : forall T, FieldValue T -> CompactValue T -> spends X T) L v seen (e : entry) (x x' : X) w w' : NoDup (field_ids fs) -> e ∈ entries fs L v ->
  k _ (p_FV e.2) (p_CV e.2) x w = Ok (canon (e_value e), x', w') ->
  at_slot fs none k (e_id e) (fill fs L v seen) x w = Ok (fill fs L v (e_id e :: seen), x', w').
Proof.
  unfold field_ids. intros Hnd Hin Hr. revert Hnd Hin. induction fs as [| T R field FV CV def rest IH]; intros Hnd Hin; cbn [entries] in Hin.
  { by apply not_elem_of_nil in Hin. }
  cbn [descriptors] in Hnd. rewrite fmap_cons, NoDup_cons in Hnd. destruct Hnd as [Hf Hnd]. cbn [at_slot fill]. rewrite elem_of_cons in Hin. destruct Hin as [-> | Hin].
  - cbn [e_id fst snd p_FV p_CV p_value p_type p_law] in *. unfold e_id. cbn [fst]. rewrite decide_True by done. unfold bind. rewrite Hr. unfold ret. do 3 f_equal.
    rewrite decide_True by (by left). f_equal. symmetry. by apply fill_other.
  - assert (e_id e ∈ field_ids rest) as He by (rewrite <- (entries_ids rest L.2 v.2); apply list_elem_of_fmap; eauto).
    rewrite decide_False by (intros Heq; apply Hf; by rewrite <- Heq). cbn [fst snd]. unfold bind. rewrite (IH L.2 v.2 Hnd Hin). unfold ret. do 4 f_equal.
    apply decide_ext. rewrite elem_of_cons. split; [naive_solver |]. intros [Heq |]; [| done]. destruct Hf. by rewrite Heq.
Qed.

(** The entries of the slots that are filled. *)
Fixpoint filled {R} (fs : Fields R) : fields_lawful fs -> slots fs -> list entry :=
  match fs with
  | FNil => fun _ _ => []
  | FCons field FV CV _ rest => fun L s =>
      match s.1 with Some v => [(field, {| p_law := L.1.2; p_value := v |})] | None => [] end ++ filled rest L.2 s.2
  end.

Lemma filled_none {R} (fs : Fields R) L : filled fs L (no_slots fs) = [].
Proof. induction fs as [| T R field FV CV def rest IH]; [done |]. apply IH. Qed.

Lemma collect_filled {R} (fs : Fields R) L s v : collect fs s = Ok v -> filled fs L s = entries fs L v.
Proof.
  induction fs as [| T R field FV CV def rest IH]; [done |]. cbn [collect filled entries]. destruct (s.1) as [x |]; [| done]. cbn [ok_or].
  destruct (collect rest s.2) as [r |] eqn:E; [| done]. intros [= <-]. cbn [app fst snd]. by rewrite (IH L.2 _ _ E).
Qed.

Lemma filled_ids {R} (fs : Fields R) L s id : id ∈ e_id <$> filled fs L s -> id ∈ field_ids fs.
Proof.
  unfold field_ids. induction fs as [| T R field FV CV def rest IH]; [done |]. cbn [filled descriptors]. rewrite fmap_app, elem_of_app, fmap_cons, elem_of_cons.
  intros [Hid | Hid]; [left | right; by eapply IH]. destruct (s.1); cbn in Hid; [by apply list_elem_of_singleton in Hid | by apply not_elem_of_nil in Hid].
Qed.

(** A slot that is set was empty, or held an entry with the same identity. *)
Lemma at_slot_inv {X R} (fs : Fields R) none (k : forall T, FieldValue T -> CompactValue T -> spends X T) L id s (x : X) w s' x' w' : id ∉ e_id <$> filled fs L s ->
  at_slot fs none k id s x w = Ok (s', x', w') ->
  exists e : entry, e_id e = id /\ id < 65536 /\ filled fs L s' ≡ₚ e :: filled fs L s
    /\ k _ (p_FV e.2) (p_CV e.2) x w = Ok (e_value e, x', w')
    /\ forall P, fields_all P fs L -> P _ _ _ (p_law e.2).
Proof.
  induction fs as [| T R field FV CV def rest IH]; [done |]. cbn [filled at_slot]. rewrite fmap_app, not_elem_of_app. intros [Hh Hid].
  case_decide as Hd; intros H; inv_spend H; injection H as <- <- <-.
  - exists (field, {| p_law := L.1.2; p_value := x0 |}). cbn [fst snd]. split; [done |]. split; [rewrite Hd; apply L |].
    destruct (s.1); [destruct Hh; rewrite Hd; cbn; by left |]. split; [done |]. split; [done |]. by intros P [? ?].
  - destruct (IH L.2 _ _ Hid E) as (e & He & Ht & Hp & Hk & HP). exists e. cbn [fst snd]. split; [done |]. split; [done |]. split.
    + rewrite Hp. by rewrite Permutation_middle.
    + split; [done |]. intros P [_ ?]. by apply HP.
Qed.

Lemma get_field_ok id body rest p w : id <> 0 -> p < id -> id < 65536 -> len body < 4294967296 ->
  get_field (mkCursor (to_le_bytes 2 id ++ framed body ++ rest) p) w = Ok ((id, body), mkCursor rest id, w).
Proof.
  intros H0 Hp Hid Hb. unfold get_field. rewrite u16_step by done. unfold get_previous, set_previous. unfold bind at 1. cbn [cu_previous].
  rewrite decide_False by lia. unfold bind at 1. cbn [cu_bytes]. unfold framed. rewrite <- app_assoc, u32_step by done. by rewrite take_step.
Qed.

Lemma get_field_inv c w id body c' w' : get_field c w = Ok ((id, body), c', w') ->
  cu_previous c < id /\ id < 65536 /\ len body < 4294967296 /\ w' = w /\ cu_previous c' = id
  /\ cu_bytes c = to_le_bytes 2 id ++ framed body ++ cu_bytes c'.
Proof.
  intros H. unfold get_field in H. inv_spend H. unfold get_previous, set_previous in H. unfold bind at 1 in H. cbn [cu_previous] in H. case_decide; [done |].
  unfold bind at 1 in H. cbn [cu_bytes] in H. do 2 inv_spend H. injection H as <- <- <- <-. subst. cbn [cu_previous cu_bytes].
  split_and!; (done || lia || (rewrite E; unfold framed; by rewrite <- app_assoc)).
Qed.

Lemma read_loop_ok {R} (fs : Fields R) L v d xs : NoDup (field_ids fs) -> forall seen rest p w,
  (forall x, x ∈ xs -> x ∈ entries fs L v) -> Forall ok_entry xs -> Forall (fun e : entry => writable (e_value e)) xs ->
  Forall (fun e : entry => fits (limits w) (d + 1) (e_value e)) xs -> good (charge w (cost_sum ((fun e : entry => rcost (e_value e)) <$> xs))) ->
  len (entries_bytes xs) <= wire_bytes (limits w) -> StronglySorted N.lt (p :: (e_id <$> xs)) ->
  exists seen' p', (forall id, id ∈ seen' <-> id ∈ e_id <$> xs \/ id ∈ seen)
    /\ read_loop fs (length xs) d (fill fs L v seen) (mkCursor (entries_bytes xs ++ rest) p) w
       = Ok (fill fs L v seen', mkCursor rest p', charge w (cost_sum ((fun e : entry => rcost (e_value e)) <$> xs))).
Proof.
  intros Hnd. induction xs as [| x xs IH]; intros seen rest p w Hin Hok Hw Hf Hg Hl Hs.
  { exists seen, p. rewrite !fmap_nil. cbn [read_loop length cost_sum foldr]. rewrite charge_0. split; [| done]. intros id. rewrite elem_of_nil. naive_solver. }
  assert (e_id x < 65536) as Ht.
  { pose proof (entries_typed fs L v) as Ht. rewrite Forall_forall in Ht. apply Ht, Hin. by left. }
  apply Forall_cons in Hok as [[Hd Hx] Hok], Hw as [Hwx Hw], Hf as [Hfx Hf].
  rewrite !fmap_cons, cost_sum_cons, entries_bytes_cons, len_app, len_entry_bytes, <- ?charge_add in *.
  apply StronglySorted_inv in Hs as [Hs Hp]. apply Forall_cons in Hp as [Hp _].
  assert (limits_valid (limits w) = true) as Hlim%limits_bounds by apply (good_charged _ _ (good_charged _ _ Hg)).
  destruct (IH (e_id x :: seen) rest (e_id x) (charge w (rcost (e_value x)))) as (seen' & p' & Hseen & Hread); try done.
  { intros y Hy. apply Hin. by right. }
  { cbn [limits charge]. lia. }
  exists seen', p'. split. { intros id. rewrite Hseen, !elem_of_cons. tauto. }
  cbn [read_loop length]. unfold entry_bytes. rewrite <- !app_assoc. erewrite bind_step by (apply get_field_ok; (done || lia)). cbv beta iota.
  erewrite bind_step; [exact Hread |]. apply lift_Ok. split; [| done]. rewrite read_field_at_slot. apply at_slot_ok; [done | apply Hin; by left |].
  apply law_read; try done; [good_tac | lia].
Qed.

(** What a successful read of a field's bytes says of its entry. *)
Definition read_entry (w : Work) (d : N) (e : entry) : Prop :=
  wf (e_value e) /\ writable (e_value e) /\ canon (e_value e) = e_value e /\ fits (limits w) (d + 1) (e_value e).

Lemma read_loop_inv {R} (fs : Fields R) L d n : fields_all (fun _ _ _ L => declared (Lawful := L)) fs L ->
  forall s c w s' c' w', good w -> Forall (fun e : entry => e_id e <= cu_previous c) (filled fs L s) -> read_loop fs n d s c w = Ok (s', c', w') ->
  exists xs bytes, length xs = n /\ filled fs L s' ≡ₚ xs ++ filled fs L s /\ StronglySorted N.lt (cu_previous c :: (e_id <$> xs))
    /\ Forall (read_entry w d) xs /\ w' = charge w (cost_sum ((fun e : entry => rcost (e_value e)) <$> xs)) /\ good w'
    /\ cu_bytes c = bytes ++ cu_bytes c' /\ len bytes = len (entries_bytes xs)
    /\ (fields_all (fun _ _ _ L => exact (Lawful := L)) fs L -> bytes = entries_bytes xs).
Proof.
  intros Hdec. induction n as [| n IH]; intros s c w s' c' w' Hg Hprev H; cbn [read_loop] in H.
  { injection H as <- <- <-. exists [], []. rewrite !fmap_nil. cbn [cost_sum foldr]. rewrite charge_0. split_and!; try done. repeat constructor. }
  inv_spend H. match type of E with get_field _ _ = Ok (?f, _, _) => destruct f as [id body] end.
  apply get_field_inv in E as (Hlt & Ht & Hlb & -> & Hc1 & Hb1). cbv beta iota in H. inv_spend H. rewrite read_field_at_slot in E.
  apply (at_slot_inv _ _ _ L) in E as (e & <- & _ & Hfill & Hr & HP).
  2:{ intros (y & -> & Hy)%list_elem_of_fmap. rewrite Forall_forall in Hprev. specialize (Hprev y Hy). lia. }
  apply law_read_inv in Hr as (He1 & He2 & He3 & He4 & -> & Hg' & Hl & Hex); [| exact (HP _ Hdec) | done].
  apply IH in H as (xs & bytes & <- & Hp & Hs & Hxs & -> & Hg'' & Hb & Hlen & Hexs); [| done |].
  2:{ rewrite Hfill, Hc1. constructor; [lia |]. eapply Forall_impl; [exact Hprev |]. cbn. lia. }
  exists (e :: xs), (to_le_bytes 2 (e_id e) ++ framed body ++ bytes). rewrite Hc1 in Hs.
  rewrite !fmap_cons, cost_sum_cons, entries_bytes_cons, !len_app, len_entry_bytes, len_framed, len_le_bytes, <- charge_add. split_and!; try done.
  - rewrite Hp, Hfill. symmetry. apply Permutation_middle.
  - apply StronglySorted_inv in Hs as Hs'. destruct Hs' as [_ Hall]. constructor; [done |]. constructor; [done |].
    eapply Forall_impl; [exact Hall |]. cbn. lia.
  - by constructor.
  - by rewrite Hb1, Hb, !app_assoc.
  - lia.
  - intros Hx. rewrite <- Hexs, (Hex (HP _ Hx)) by done. unfold entry_bytes. by rewrite <- app_assoc.
Qed.

(** The compact reader visits the identities it is given. *)
Lemma read_compact_loop_ok {R} (fs : Fields R) L v d xs : NoDup (field_ids fs) -> forall seen rest p w,
  (forall x, x ∈ xs -> x ∈ entries fs L v) -> Forall ok_entry xs -> Forall (fun e : entry => writable (e_value e)) xs ->
  Forall (fun e : entry => fits (limits w) (d + 1) (e_value e)) xs -> good (charge w (cost_sum ((fun e : entry => rcost (e_value e)) <$> xs))) ->
  exists seen', (forall id, id ∈ seen' <-> id ∈ e_id <$> xs \/ id ∈ seen)
    /\ read_compact_loop fs (e_id <$> xs) d (fill fs L v seen) (mkCursor (entries_cbytes xs ++ rest) p) w
       = Ok (fill fs L v seen', mkCursor rest p, charge w (cost_sum ((fun e : entry => rcost (e_value e)) <$> xs))).
Proof.
  intros Hnd. induction xs as [| x xs IH]; intros seen rest p w Hin Hok Hw Hf Hg.
  { exists seen. rewrite !fmap_nil. cbn [read_compact_loop cost_sum foldr]. rewrite charge_0. split; [| done]. intros id. rewrite elem_of_nil. naive_solver. }
  apply Forall_cons in Hok as [[Hd Hx] Hok], Hw as [Hwx Hw], Hf as [Hfx Hf].
  rewrite !fmap_cons, cost_sum_cons, entries_cbytes_cons, <- ?charge_add in *.
  destruct (IH (e_id x :: seen) rest p (charge w (rcost (e_value x)))) as (seen' & Hseen & Hread); try done.
  { intros y Hy. apply Hin. by right. }
  exists seen'. split. { intros id. rewrite Hseen, !elem_of_cons. tauto. }
  cbn [read_compact_loop]. rewrite <- app_assoc. erewrite bind_step; [exact Hread |]. rewrite read_compact_at_slot. apply at_slot_ok; [done | apply Hin; by left |].
  apply law_read_compact; try done. good_tac.
Qed.

Lemma read_compact_loop_inv {R} (fs : Fields R) L d ids : fields_all (fun _ _ _ L => declared (Lawful := L)) fs L -> NoDup ids ->
  forall s c w s' c' w', good w -> (forall id, id ∈ ids -> id ∉ e_id <$> filled fs L s) -> read_compact_loop fs ids d s c w = Ok (s', c', w') ->
  exists xs bytes, e_id <$> xs = ids /\ filled fs L s' ≡ₚ xs ++ filled fs L s
    /\ Forall (read_entry w d) xs /\ w' = charge w (cost_sum ((fun e : entry => rcost (e_value e)) <$> xs)) /\ good w' /\ cu_previous c' = cu_previous c
    /\ cu_bytes c = bytes ++ cu_bytes c' /\ len bytes = len (entries_cbytes xs)
    /\ (fields_all (fun _ _ _ L => exact (Lawful := L)) fs L -> bytes = entries_cbytes xs).
Proof.
  intros Hdec. induction ids as [| id ids IH]; intros Hnd s c w s' c' w' Hg Hfree H; cbn [read_compact_loop] in H.
  { injection H as <- <- <-. exists [], []. rewrite !fmap_nil. cbn [cost_sum foldr]. rewrite charge_0. split_and!; done. }
  apply NoDup_cons in Hnd as [Hid Hnd]. inv_spend H. rewrite read_compact_at_slot in E.
  apply (at_slot_inv _ _ _ L) in E as (e & <- & _ & Hfill & Hr & HP); [| apply Hfree; by left].
  apply law_read_compact_inv in Hr as (He1 & He2 & He3 & He4 & -> & Hg' & Hpr & b0 & Hb0 & Hl & Hex); [| exact (HP _ Hdec) | done].
  apply IH in H as (xs & bytes & <- & Hp & Hxs & -> & Hg'' & Hpr' & Hb & Hlen & Hexs); [| done | done |].
  2:{ intros id' Hid'. rewrite Hfill, fmap_cons, not_elem_of_cons. split; [by intros -> |]. apply Hfree. by right. }
  exists (e :: xs), (b0 ++ bytes). rewrite !fmap_cons, cost_sum_cons, entries_cbytes_cons, !len_app, <- charge_add. split_and!; try done.
  - rewrite Hp, Hfill. symmetry. apply Permutation_middle.
  - by constructor.
  - congruence.
  - by rewrite Hb0, Hb, app_assoc.
  - lia.
  - intros Hx. by rewrite <- Hexs, <- (Hex (HP _ Hx)).
Qed.
