(* ===== verification/SchemaInspection.v ===== *)
(** * What inspecting a declaration establishes

    A schema that passes [Inspection::schema] has distinct identities, fits its limits at its
    declared maximum, and is sealed: nothing nested in it is more private than its representation
    or more predicted than its context, and replayed fields ask for a restore hook. *)

From S2P Require Import Prelude Types Floats FloatBits Codec Reader Schema SchemaValues SchemaRecords SchemaLaws SchemaCompositeLaws SchemaSumLaws SchemaRecordLaws.
Local Open Scope N_scope.
Local Open Scope engine_scope.

(** ** The declared maximum *)

Lemma maximum_fields_Ok {R} (fs : Fields R) L d : forall total w n u w', good w -> maximum_fields fs d total tt w = Ok (n, u, w') ->
  exists c, w' = charge w c /\ good w' /\ forall v, Forall (fun e : entry => wf (p_value e.2)) (entries fs L v) ->
    total + len (entries_bytes (entries fs L v)) <= n /\ cost_sum ((fun e : entry => rcost (p_value e.2)) <$> entries fs L v) ⪯ c
    /\ Forall (fun e : entry => fits (limits w) (d + 1) (p_value e.2)) (entries fs L v).
Proof.
  induction fs as [| T R field FV CV def rest IH]; intros total w n u w' Hg H; cbn [maximum_fields] in H.
  { injection H as <- _ <-. exists cost0. rewrite charge_0. split; [done |]. split; [done |]. intros v _.
    change (len (entries_bytes (entries FNil L v))) with 0. split; [lia | done]. }
  inv_spend H. destruct x0. apply (law_max (Lawful := L.1.2)) in E as (c1 & -> & Hg1 & Hmax); [| done]. inv_spend H.
  apply (IH L.2) in H as (c & -> & Hg' & Hv); [| done]. charges. eexists. split; [done |]. split; [done |]. intros v Hwf. cbn [entries] in *.
  apply Forall_cons in Hwf as [Hx Hwf]. destruct (Hmax v.1 Hx) as (? & ? & ?). destruct (Hv v.2 Hwf) as (? & ? & ?).
  rewrite fmap_cons, cost_sum_cons, entries_bytes_cons, len_app, len_entry_bytes. cbn [snd p_value p_law p_FV p_CV p_type]. split; [lia |].
  split; [by apply cost_add_mono | by constructor].
Qed.

(** ** Sealing *)

Lemma hash_units_Ok u i i' : hash_units u i = Ok i' -> hashed i i'.
Proof. unfold hash_units, i_text. intros H. inv_op H; done. Qed.
Lemma hash_range_same r i : hashed i (hash_range r i).
Proof. by destruct r. Qed.

(** The checks on one field, in a schema with visibility [bound], below prediction [replay]. *)
Lemma check_field_Ok field bound replay version i i' : check_field field bound replay version i = Ok i' ->
  grows i i' /\ visibility_u8 (visibility (fd_spec field)) <= visibility_u8 bound
  /\ prediction_u8 (prediction (fd_spec field)) <= prediction_u8 replay
  /\ (prediction (fd_spec field) = Replayed -> bound <> Public /\ i_restore_required i' = true).
Proof.
  unfold check_field. destruct (checked_add _ _ _); [| done]. cbn [ok_or]. cbv zeta. intros H.
  repeat (case_decide; [done |]). case_decide as Hr; [do 2 (case_decide; [done |]) |]; injection H as <-;
    (split; [by split |]); split_and!; (done || lia).
Qed.

(** The same, transitively, for what is nested in a field. *)
Definition sealed_in (bound : Visibility) (replay : Prediction) (i : Inspection) (n : FieldSpec) : Prop :=
  visibility_u8 (visibility n) <= visibility_u8 bound
  /\ prediction_u8 (prediction n) <= prediction_u8 replay
  /\ (prediction n = Replayed -> bound <> Public /\ i_restore_required i = true).

Lemma sealed_in_mono bound replay i i' l : grows i i' ->
  Forall (sealed_in bound replay i) l -> Forall (sealed_in bound replay i') l.
Proof. intros (_ & Hi & _) Hl. eapply Forall_impl; [exact Hl |]. intros n (? & ? & ?). unfold sealed_in. naive_solver. Qed.

Lemma public_least a b : visibility_u8 a <= visibility_u8 b -> a <> Public -> b <> Public.
Proof. destruct a, b; simpl; (done || lia). Qed.

Lemma inspect_field_Ok {T} (FV : FieldValue T) (CV : CompactValue T) (L : Lawful FV CV) field d bound replay version i i' :
  inspect_field FV field d bound replay version i = Ok i' ->
  declared (Lawful := L) /\ grows i i' /\ Forall (sealed_in bound replay i') (fd_spec field :: nested (Lawful := L)).
Proof.
  unfold inspect_field. destruct (check_field _ _ _ _ _) as [i1 |] eqn:E; [| done].
  apply check_field_Ok in E as (Hg1 & Hv & Hp & Hrep). destruct (hash_units _ _) as [i2 |] eqn:E; [| done].
  apply hash_units_Ok, hashed_grows in E as Hg2. intros H. apply (law_inspect (Lawful := L)) in H as (Hd & Hg & Hn).
  assert (grows i1 i') as Hi1.
  { etransitivity; [exact Hg2 |]. etransitivity; [apply hashed_grows, (hash_range_same (range (fd_spec field)) i2) | exact Hg]. }
  split; [done |]. split; [by etransitivity |]. constructor.
  - unfold sealed_in. destruct Hi1 as (_ & Hr & _). naive_solver.
  - eapply Forall_impl; [exact Hn |]. intros n (Hnv & Hnp & Hnr). unfold sealed_in. split_and!; [lia | lia |].
    intros Hx. destruct (Hnr Hx) as [Hpub ?]. split; [by eapply public_least | done].
Qed.

Fixpoint field_sound {R} (fs : Fields R) : fields_lawful fs -> FieldId -> Visibility -> Prediction -> Inspection -> Prop :=
  match fs with
  | FNil => fun _ _ _ _ _ => False
  | FCons field FV CV _ rest => fun L id bound replay i =>
      if decide (id = fd_id field)
      then declared (Lawful := L.1.2) /\ Forall (sealed_in bound replay i) (fd_spec field :: nested (Lawful := L.1.2))
      else field_sound rest L.2 id bound replay i
  end.

Lemma inspect_field_at_Ok {R} (fs : Fields R) L id d bound replay version i i' : inspect_field_at fs id d bound replay version i = Ok i' ->
  field_sound fs L id bound replay i' /\ grows i i'.
Proof.
  induction fs as [| T R field FV CV def rest IH]; [done |]. cbn [inspect_field_at field_sound]. case_decide; [| by apply IH].
  intros Hi. apply (inspect_field_Ok _ _ L.1.2) in Hi as (? & ? & ?). done.
Qed.

Lemma field_sound_mono {R} (fs : Fields R) L id bound replay i i' : grows i i' ->
  field_sound fs L id bound replay i -> field_sound fs L id bound replay i'.
Proof.
  intros Hi. induction fs as [| T R field FV CV def rest IH]; [done |]. cbn [field_sound]. case_decide; [| by apply IH].
  intros [? ?]. split; [done |]. by eapply sealed_in_mono.
Qed.

Lemma inspect_loop_Ok {R} (fs : Fields R) L d bound replay version ids : forall i i', inspect_loop fs ids d bound replay version i = Ok i' ->
  Forall (fun id => field_sound fs L id bound replay i') ids /\ grows i i'.
Proof.
  induction ids as [| id ids IH]; intros i i' H; cbn [inspect_loop] in H.
  { injection H as <-. split_and!; done. }
  destruct (inspect_field_at _ _ _ _ _ _ _) as [i1 |] eqn:E; [| done].
  apply (inspect_field_at_Ok _ L) in E as (Hs & Hr). apply IH in H as (Hall & Hr').
  split; [| by etransitivity; [exact Hr |]]. constructor; [| done]. by eapply field_sound_mono.
Qed.

Lemma fields_sound {R} (fs : Fields R) L bound replay i : NoDup (field_ids fs) ->
  Forall (fun id => field_sound fs L id bound replay i) (field_ids fs) ->
  fields_all (fun _ _ _ L => declared (Lawful := L)) fs L /\ Forall (sealed_in bound replay i) (fields_nested fs L).
Proof.
  unfold field_ids. induction fs as [| T R field FV CV def rest IH]; [done |]. cbn [descriptors fields_all fields_nested]. rewrite fmap_cons.
  intros [Hid Hnd]%NoDup_cons [Hs Hall]%Forall_cons. cbn [field_sound] in Hs. rewrite decide_True in Hs by done. destruct Hs as [? Hn].
  destruct (IH L.2 Hnd) as [? ?].
  { rewrite Forall_forall in Hall |- *. intros id' Hid'. specialize (Hall id' Hid'). cbn [field_sound] in Hall.
    by rewrite decide_False in Hall by (by intros ->). }
  split; [done |]. rewrite app_comm_cons. by apply Forall_app.
Qed.

(** ** Whole schemas *)

Section Inspected.
Context (blake3 : list byte -> list byte) {R : Type} (sch : Schema R) (L : fields_lawful (sch_fields sch)).
#[local] Abbreviation own := (representation_visibility (sch_representation sch)).

Definition record_declared : Prop :=
  valid_ids (field_ids (sch_fields sch)) /\ fields_all (fun _ _ _ L => declared (Lawful := L)) (sch_fields sch) L.

Lemma remember_Ok identity i i' : remember identity i = Ok i' ->
  grows i i' /\ identity ∈ i_known i'.
Proof.
  unfold remember. destruct (list_find _ _) as [[n existing] |] eqn:E.
  - case_decide as Hd; [done |]. intros [= <-]. split; [done |]. apply list_find_Some in E as (E & _ & _).
    destruct (decide (existing = identity)) as [-> |]; [by eapply list_elem_of_lookup_2 | done].
  - case_decide; [done |]. intros [= <-]. cbn. split; [| apply elem_of_app; right; by left]. split_and!; [done | done |].
    cbn. intros Hnd. rewrite fmap_app. apply NoDup_snoc; [done |]. apply list_find_None in E. rewrite Forall_forall in E.
    intros (x & Hx & Hin)%list_elem_of_fmap. by apply (E x Hin).
Qed.

(** Everything that a successful inspection has checked. *)
Lemma inspect_schema_Ok d bound replay i i' : inspect_schema blake3 sch d bound replay i = Ok i' ->
  record_declared /\ grows i i'
  /\ visibility_u8 own <= visibility_u8 bound
  /\ Forall (sealed_in own replay i') (fields_nested (sch_fields sch) L)
  /\ (exists m, run (record_maximum sch d) (i_limits i) tt = Ok (m, tt) /\ m + ENVELOPE <= wire_bytes (i_limits i))
  /\ is_ok (raw_encode sch (defaults (sch_fields sch)) (i_limits i)) = true
  /\ (d = 0 -> exists hashed, i_root i' = blake3 hashed /\ mkSchemaIdentity (sch_id sch) (sch_version sch) (i_root i') ∈ i_known i').
Proof.
  unfold inspect_schema. do 2 (case_decide; [done |]). case_decide as Hvis; [done |].
  destruct (run _ _ _) as [[m []] |] eqn:Hmax; [| done]. destruct (checked_add _ _ 36) as [n |] eqn:Hn; [| done].
  apply checked_add_Some in Hn as [-> _]. case_decide as Hw; [done |]. cbn [fst] in Hw.
  destruct (ordered _ _) as [ids |] eqn:Ho; [| done]. apply ordered_Ok in Ho as (Hids & Hlen & ->).
  destruct (inspect_fields _ _ _ _ _ _) as [i1 |] eqn:Hf; [| done]. unfold inspect_fields in Hf.
  destruct (ordered _ _) as [ids |] eqn:Ho in Hf; [| done]. apply ordered_Ok in Ho as (_ & _ & ->).
  apply (inspect_loop_Ok _ L) in Hf as (Hall & Hg1). rewrite merge_sort_Permutation in Hall.
  destruct (fields_sound _ L _ _ _ (proj2 (proj2 (proj2 Hids))) Hall) as [Hdec Hnest].
  destruct (raw_encode _ _ _) as [encoded |] eqn:Henc; [| done].
  destruct (remember _ _) as [i2 |] eqn:Hk; [| done]. apply remember_Ok in Hk as [Hg2 Hknown].
  assert (grows i1 i2) as Hg12 by exact Hg2. assert (grows i i2) as Hg by (etransitivity; [exact Hg1 | exact Hg12]).
  intros [= <-]. set (i3 := update _ _). set (root := blake3 _) in *.
  assert (hashed i2 (if decide (d = 0) then i3 <| i_root := root |> else i3)) as H23%hashed_grows by (by case_decide).
  split; [done |]. split; [by etransitivity |]. split; [lia |].
  split; [eapply sealed_in_mono; [| exact Hnest]; by etransitivity |].
  split; [exists m; split; [done | unfold ENVELOPE; lia] |]. split; [done |].
  intros ->. eexists. rewrite decide_True by done. split; [done |]. exact Hknown.
Qed.
End Inspected.
