(* ===== verification/SchemaRecordCodec.v ===== *)
(** * Records keep the contract, and so do their codecs

    [record_value] and [record_compact] are lawful over lawful fields. *)

From S2P Require Import Prelude Types Floats FloatBits Codec Reader Schema SchemaValues SchemaRecords SchemaLaws SchemaCompositeLaws SchemaSumLaws SchemaRecordLaws SchemaInspection.
Local Open Scope N_scope.
Local Open Scope engine_scope.

(** The identity and version are [u32]. *)
Definition schema_typed {R} (sch : Schema R) : Prop := sch_id sch < 4294967296 /\ sch_version sch < 4294967296.

Section RecordLaws.
Context {R : Type} (sch : Schema R) (L : fields_lawful (sch_fields sch)).
#[local] Abbreviation fs := (sch_fields sch).
#[local] Abbreviation es v := (entries fs L v).
#[local] Abbreviation xs v := (sorted_entries (es v)).
#[local] Abbreviation dec := (record_declared sch L).
#[local] Abbreviation rc e := (rcost (p_value (snd e))) (only parsing).
#[local] Abbreviation wc e := (wcost (p_value (snd e))) (only parsing).

Definition record_wf (v : R) : Prop := Forall (fun e : entry => wf (p_value e.2)) (es v).
Definition record_writable (v : R) : Prop := Forall (fun e : entry => writable (p_value e.2)) (es v).
Definition record_enc (v : R) : list byte :=
  to_le_bytes 4 (sch_id sch) ++ to_le_bytes 4 (sch_version sch) ++ to_le_bytes 2 (len (field_ids fs)) ++ entries_bytes (xs v).
Definition record_cenc (v : R) : list byte := entries_cbytes (xs v).
Definition record_wcost (v : R) : Cost := node1 ⊕ cost_sum ((fun e : entry => wc e) <$> es v).
Definition record_rcost (v : R) : Cost := node1 ⊕ cost_sum ((fun e : entry => rc e) <$> es v).
Definition record_fits (l : SchemaLimits) (d : N) (v : R) : Prop :=
  d <= nesting l /\ len (field_ids fs) <= fields l /\ Forall (fun e : entry => fits l (d + 1) (p_value e.2)) (es v).
Definition record_conforms (v : R) : Prop := Forall (fun e : entry => conforms (fd_spec e.1) (p_value e.2)) (es v).
Definition record_exact : Prop := fields_all (fun _ _ _ L => exact (Lawful := L)) fs L.

Lemma es_NoDup v : dec -> NoDup (e_id <$> es v).
Proof. intros [(_ & _ & _ & Hnd) _]. by rewrite entries_ids. Qed.

Lemma xs_Permutation v : dec -> xs v ≡ₚ es v.
Proof. intros Hd. apply sorted_entries_spec. by apply es_NoDup. Qed.

Lemma xs_ids v : dec -> e_id <$> xs v = merge_sort N.le (field_ids fs).
Proof. intros Hd. rewrite (proj2 (sorted_entries_spec (es v) (es_NoDup v Hd))). by rewrite entries_ids. Qed.

Lemma xs_in v : dec -> forall x, x ∈ xs v -> x ∈ es v.
Proof. intros Hd x. by rewrite (xs_Permutation v Hd). Qed.

Lemma xs_Forall v (P : entry -> Prop) : dec -> Forall P (es v) -> Forall P (xs v).
Proof. intros Hd. by rewrite (xs_Permutation v Hd). Qed.

Lemma xs_cost v (f : entry -> Cost) : dec -> cost_sum (f <$> xs v) = cost_sum (f <$> es v).
Proof. intros Hd. apply cost_sum_Permutation. by rewrite (xs_Permutation v Hd). Qed.

Lemma es_ok v : dec -> record_wf v -> Forall ok_entry (es v).
Proof.
  intros [_ Hd] Hwf. pose proof (entries_all _ fs L v Hd) as Hd'. unfold record_wf in Hwf. rewrite Forall_forall in Hd'. rewrite Forall_forall in Hwf.
  apply Forall_forall. intros e He. split; auto.
Qed.

Lemma len_record_enc_NoDup v : NoDup (field_ids fs) -> len (record_enc v) = 10 + len (entries_bytes (es v)).
Proof.
  intros Hnd. unfold record_enc. rewrite !len_app, !len_le_bytes. rewrite <- (entries_ids fs L v) in Hnd.
  rewrite (len_entries_bytes_Permutation _ _ (proj1 (sorted_entries_spec (es v) Hnd))). lia.
Qed.

Lemma len_record_enc v : dec -> len (record_enc v) = 10 + len (entries_bytes (es v)).
Proof. intros [(_ & _ & _ & Hnd) _]. by apply len_record_enc_NoDup. Qed.

Lemma ordered_step {X B} (k : list N -> spends X B) x w : dec -> len (field_ids fs) <= fields (limits w) ->
  bind (ordered_fields fs) k x w = k (merge_sort N.le (field_ids fs)) x w.
Proof.
  intros [Hv _] Hl. unfold ordered_fields. unfold bind at 1 2, get_work. rewrite (proj2 (ordered_Ok _ _ (merge_sort N.le (field_ids fs)))) by done. done.
Qed.

Lemma ordered_bind {X B} (k : list N -> spends X B) x w r : bind (ordered_fields fs) k x w = Ok r ->
  valid_ids (field_ids fs) /\ len (field_ids fs) <= fields (limits w) /\ k (merge_sort N.le (field_ids fs)) x w = Ok r.
Proof.
  unfold ordered_fields. intros H. apply bind_Ok in H as (ids & x' & w' & E & H). unfold bind, get_work in E.
  apply of_result_Ok in E as (E & -> & ->). apply ordered_Ok in E as (? & ? & ->). done.
Qed.

(** ** Sizes *)

Lemma record_size_Ok v d w n u w' : dec -> good w -> record_wf v -> record_size sch v d tt w = Ok (n, u, w') ->
  record_conforms v /\ record_fits (limits w) d v /\ w' = charge w (record_wcost v) /\ good w' /\ n = len (record_enc v) /\ n <= wire_bytes (limits w).
Proof.
  intros Hd Hg Hwf H. unfold record_size in H. inv_spend H. apply ordered_bind in H as (_ & Hf & H). inv_spend H. destruct x0.
  apply size_Ok in H as (-> & _ & -> & Hsz). rewrite (fields_size_entries fs L) in E. apply sizes_of_Ok in E as (? & ? & -> & ? & ->); try done; [| by apply es_ok].
  rewrite len_record_enc by done. unfold record_wcost. charges. cbn [limits charge] in Hsz. split_and!; (done || lia).
Qed.

Lemma record_size_ok v d w : dec -> record_wf v -> record_conforms v -> record_fits (limits w) d v -> good (charge w (record_wcost v)) ->
  len (record_enc v) <= wire_bytes (limits w) -> record_size sch v d tt w = Ok (len (record_enc v), tt, charge w (record_wcost v)).
Proof.
  intros Hd Hwf Hc (Hn & Hf & Hfit) Hg Hl. rewrite (len_record_enc v Hd) in *. unfold record_wcost in *. unfold record_size. spend.
  rewrite ordered_step by done.
  rewrite (bind_step _ _ _ _ (0 + len (entries_bytes (es v))) tt (charge (charge w node1) (cost_sum ((fun e : entry => wc e) <$> es v)))).
  - charges. apply size_Ok. rewrite N.add_0_l. done.
  - rewrite (fields_size_entries fs L). apply sizes_of_ok; try done; [by apply es_ok | good_tac | cbn [limits charge]; lia].
Qed.

(** ** Writing *)

Lemma write_record_ok v d out w : dec -> record_wf v -> record_writable v -> record_fits (limits w) d v -> good (charge w (record_wcost v)) ->
  len out + len (record_enc v) <= wire_bytes (limits w) -> write_record sch v d out w = Ok (tt, out ++ record_enc v, charge w (record_wcost v)).
Proof.
  intros Hd Hwf Hw (Hn & Hf & Hfit) Hg Hl. rewrite len_record_enc in Hl by done. unfold record_wcost in *. unfold write_record. spend.
  do 3 spend.
  unfold write_fields. rewrite ordered_step by done. rewrite <- (xs_ids v Hd). rewrite (write_ids_ok fs L v); try done.
  - charges. rewrite xs_cost by done. unfold record_enc. by rewrite <- !app_assoc.
  - apply Hd.
  - by apply xs_in.
  - apply xs_Forall; [done |]. by apply es_ok.
  - by apply xs_Forall.
  - by apply xs_Forall.
  - rewrite xs_cost by done. good_tac.
  - rewrite !len_app, !len_le_bytes, (len_entries_bytes_Permutation _ _ (xs_Permutation v Hd)). cbn [limits charge]. lia.
Qed.

Lemma write_compact_record_ok v d out w : dec -> record_wf v -> record_writable v -> record_fits (limits w) d v -> good (charge w (record_wcost v)) ->
  len out + len (record_cenc v) <= wire_bytes (limits w) ->
  write_compact (CompactValue := record_compact sch) v d out w = Ok (tt, out ++ record_cenc v, charge w (record_wcost v)).
Proof.
  intros Hd Hwf Hw (Hn & Hf & Hfit) Hg Hl. unfold record_wcost in *. cbn [write_compact record_compact]. spend. rewrite ordered_step by done.
  rewrite <- (xs_ids v Hd). rewrite (write_compact_ids_ok fs L v); try done.
  - charges. by rewrite xs_cost.
  - apply Hd.
  - by apply xs_in.
  - apply xs_Forall; [done |]. by apply es_ok.
  - by apply xs_Forall.
  - by apply xs_Forall.
  - rewrite xs_cost by done. good_tac.
Qed.

(** ** Reading *)

Lemma valid_ids_sorted p : valid_ids (field_ids fs) -> p = 0 -> StronglySorted N.lt (p :: merge_sort N.le (field_ids fs)).
Proof.
  intros (_ & _ & Hz & Hnd) ->. constructor; [by apply sorted_ids_strict |]. rewrite merge_sort_Permutation.
  eapply Forall_impl; [exact Hz |]. cbn. lia.
Qed.

Lemma entries_bytes_long es' : 6 * len es' <= len (entries_bytes es').
Proof. induction es' as [| e es' IH]; [done |]. rewrite entries_bytes_cons, len_app, len_entry_bytes, len_cons. lia. Qed.

Lemma read_record_ok v d w : schema_typed sch -> dec -> record_wf v -> record_writable v -> record_fits (limits w) d v -> good (charge w (record_rcost v)) ->
  len (record_enc v) <= wire_bytes (limits w) -> read_record sch (record_enc v) d tt w = Ok (fields_canon fs L v, tt, charge w (record_rcost v)).
Proof.
  intros typed Hd Hwf Hw (Hn & Hf & Hfit) Hg Hl. unfold record_rcost in *. unfold read_record. spend.
  rewrite (bind_step _ _ _ _ (len (record_enc v)) tt (charge w node1)) by (by apply size_Ok). rewrite (len_record_enc v Hd) in Hl.
  pose proof (xs_Permutation v Hd) as Hp. assert (len (xs v) = len (field_ids fs)) as Hlen by (rewrite Hp, <- (entries_ids fs L v), len_fmap; done).
  destruct (read_loop_ok fs L v d (xs v)) with (seen := @nil N) (rest := @nil byte) (p := 0) (w := charge w node1) as (seen & p' & Hseen & Hread).
  { apply Hd. } { by apply xs_in. } { apply xs_Forall; [done |]. by apply es_ok. } { by apply xs_Forall. } { by apply xs_Forall. }
  { rewrite xs_cost by done. good_tac. } { rewrite (len_entries_bytes_Permutation _ _ Hp). cbn [limits charge]. lia. }
  { rewrite (xs_ids v Hd). apply valid_ids_sorted; [apply Hd | done]. }
  apply with_cursor_Ok. split; [done |]. exists (mkCursor [] p'). unfold Cursor_new, record_enc.
  rewrite u32_step by apply typed. rewrite decide_False by lia. rewrite u32_step by apply typed. rewrite decide_False by lia.
  destruct Hd as [(Hne & H256 & Hz & Hnd) Hdd]. rewrite u16_step by lia. unfold bind at 1, get_work. rewrite decide_False by (cbn [limits charge]; lia).
  rewrite remaining_step. cbn [cu_bytes]. unfold checked_mul. rewrite decide_True by (unfold usize_max, u64_max; lia).
  pose proof (entries_bytes_long (xs v)). rewrite decide_False by lia. unfold read_fields.
  rewrite fill_nil, app_nil_r in Hread. replace (N.to_nat (len (field_ids fs))) with (length (xs v)) by (unfold len in *; lia).
  rewrite (bind_step _ _ _ _ (fields_canon fs L v) (mkCursor [] p') (charge w (node1 ⊕ cost_sum ((fun e : entry => rc e) <$> es v)))); [done |].
  rewrite (bind_step _ _ _ _ _ _ _ Hread). rewrite xs_cost by done. charges. apply of_result_Ok. split; [| done]. apply fill_all.
  intros id Hid. apply Hseen. left. by rewrite (xs_ids v), merge_sort_Permutation.
Qed.

(** Entries that were read, in order and without repetition, are a value's entries in wire order. *)
Lemma read_entries_sorted v (ys : list entry) : dec -> es v ≡ₚ ys -> StronglySorted N.le (e_id <$> ys) -> ys = xs v.
Proof. intros Hd Hp Hs. apply sorted_entries_unique; [by apply es_NoDup | by symmetry | done]. Qed.

(** What was read entry by entry holds of the value. *)
Lemma read_entries_Forall v ys w d : Forall (read_entry w d) ys -> es v ≡ₚ ys ->
  record_wf v /\ record_writable v /\ fields_canon fs L v = v /\ Forall (fun e : entry => fits (limits w) (d + 1) (p_value e.2)) (es v).
Proof.
  intros Hall Hp. rewrite <- Hp in Hall. unfold record_wf, record_writable.
  split; [| split; [| split]]; try (eapply Forall_impl; [exact Hall |]; intros e (? & ? & ? & ?); done).
  apply fields_canon_id. eapply Forall_impl; [exact Hall |]. by intros e (? & ? & ? & ?).
Qed.

Lemma StronglySorted_lt_le (l : list N) : StronglySorted N.lt l -> StronglySorted N.le l.
Proof. induction 1 as [| a l Hs IH Hall]; constructor; [done |]. eapply Forall_impl; [exact Hall |]. cbn. lia. Qed.

Lemma read_record_inv bytes d w v u w' : dec -> good w -> read_record sch bytes d tt w = Ok (v, u, w') ->
  record_wf v /\ record_writable v /\ fields_canon fs L v = v /\ record_fits (limits w) d v /\ w' = charge w (record_rcost v) /\ good w'
  /\ len bytes = len (record_enc v) /\ (record_exact -> bytes = record_enc v).
Proof.
  intros Hd Hg H. unfold read_record in H. do 2 inv_spend H. apply with_cursor_Ok in H as (_ & c & H). inv_spend H. case_decide as Hid; [done |].
  inv_spend H. case_decide as Hver; [done |]. inv_spend H. inv_spend H. case_decide as Hcnt; [done |]. inv_spend H.
  destruct (checked_mul _ _ _); [| done]. case_decide; [done |]. inv_spend H. inv_spend H. injection H as <- <- <-.
  unfold read_fields in E2. inv_spend E2. apply of_result_Ok in E2 as (Hcol & -> & ->). apply (collect_filled fs L) in Hcol.
  apply (read_loop_inv fs L) in E4 as (ys & body & Hny & Hp & Hs & Hall & -> & Hg' & Hb & Hlen & Hex); [| apply Hd | done | by rewrite filled_none].
  rewrite filled_none, app_nil_r, Hcol in Hp. apply StronglySorted_inv in Hs as [Hs _].
  pose proof (read_entries_sorted _ _ Hd Hp (StronglySorted_lt_le _ Hs)) as Hy.
  destruct (read_entries_Forall _ _ _ _ Hall Hp) as (? & ? & ? & Hfits).
  rename x5 into v. assert (len ys = len (field_ids fs)) as Hn by (rewrite <- Hp, <- (entries_ids fs L v), len_fmap; done).
  assert (x3 = len (field_ids fs)) as -> by (unfold len in *; lia).
  cbn [cu_bytes Cursor_new] in *. rewrite E3, app_nil_r in Hb. unfold record_rcost, record_fits, record_exact. charges.
  rewrite (len_record_enc _ Hd), <- (xs_cost _ _ Hd), <- (len_entries_bytes_Permutation _ _ (xs_Permutation v Hd)), <- Hy.
  cbn [limits charge] in *. subst. split_and!; try done.
  - lia.
  - rewrite !len_app, !len_le_bytes, Hlen. lia.
  - intros Hx. unfold record_enc. by rewrite <- Hex.
Qed.

(** ** The maximum *)

Lemma record_maximum_Ok d w m u w' : good w -> record_maximum sch d tt w = Ok (m, u, w') ->
  exists c, w' = charge w c /\ good w'
    /\ forall v, record_wf v -> len (record_enc v) <= m /\ record_rcost v ⪯ c /\ record_fits (limits w) d v.
Proof.
  intros Hg H. unfold record_maximum in H. inv_spend H. apply ordered_bind in H as (Hids & Hf & H). inv_spend H. destruct x0.
  apply size_Ok in H as (-> & _ & -> & _). apply (maximum_fields_Ok fs L) in E as (c & -> & Hg' & Hv); [| done]. charges.
  eexists. split; [done |]. split; [done |]. intros v Hwf. destruct (Hv v Hwf) as (Hl & Hc & Hfit).
  rewrite len_record_enc_NoDup by apply Hids. split; [lia |]. split; [| done].
  unfold record_rcost. by apply cost_add_mono.
Qed.

(** ** The contract *)

Lemma record_canon v : record_wf v -> record_writable v ->
  let v' := fields_canon fs L v in
  record_wf v' /\ record_writable v' /\ record_enc v' = record_enc v /\ record_wcost v' = record_wcost v
  /\ (forall l d, record_fits l d v -> record_fits l d v') /\ (record_conforms v -> record_conforms v').
Proof.
  intros Hwf Hw v'. pose proof (entries_canon fs L v) as Hes. fold v' in Hes. set (g := fun e : entry => (e.1, canon_payload e.2)) in Hes.
  unfold record_wf, record_writable in Hwf, Hw. rewrite Forall_forall in Hwf. rewrite Forall_forall in Hw.
  assert (forall P : entry -> Prop, (forall e, e ∈ es v -> P e -> P (g e)) -> Forall P (es v) -> Forall P (es v')) as Hmap.
  { intros P HP Hall. rewrite Hes, Forall_fmap. rewrite Forall_forall in Hall. apply Forall_forall. intros e He. apply HP; auto. }
  assert (forall e, e ∈ es v -> enc (p_value (g e).2) = enc (p_value e.2) /\ wcost (p_value (g e).2) = wcost (p_value e.2)) as Hsame.
  { intros e He. by destruct (law_canon (p_value e.2) (Hwf e He) (Hw e He)) as (_ & _ & ? & ? & _). }
  split_and!.
  - apply Hmap; [| by apply Forall_forall]. intros e He _. exact (proj1 (law_canon (p_value e.2) (Hwf e He) (Hw e He))).
  - apply Hmap; [| by apply Forall_forall]. intros e He _. exact (proj1 (proj2 (law_canon (p_value e.2) (Hwf e He) (Hw e He)))).
  - unfold record_enc. do 3 f_equal. rewrite Hes, sorted_entries_fmap by done. unfold entries_bytes. f_equal. rewrite <- list_fmap_compose.
    apply list_fmap_ext. intros i e He%list_elem_of_lookup_2%sorted_entries_in. unfold compose, entry_bytes. do 2 f_equal. exact (proj1 (Hsame e He)).
  - unfold record_wcost. do 2 f_equal. rewrite Hes, <- list_fmap_compose. apply list_fmap_ext. intros i e He%list_elem_of_lookup_2. by apply Hsame.
  - intros l d (? & ? & ?). split_and!; try done. apply Hmap; [| done]. intros e He. by destruct (law_canon (p_value e.2) (Hwf e He) (Hw e He)) as (_ & _ & _ & _ & Hf & _); auto.
  - intros Hc. apply Hmap; [| done]. intros e He. by destruct (law_canon (p_value e.2) (Hwf e He) (Hw e He)) as (_ & _ & _ & _ & _ & Hf); auto.
Qed.

Lemma record_compact_le v : record_wf v -> record_writable v -> len (record_cenc v) <= len (record_enc v).
Proof.
  unfold record_wf, record_writable. rewrite !Forall_forall. intros Hwf Hw. unfold record_cenc, record_enc. rewrite !len_app, !len_le_bytes.
  assert (forall k : list entry, (forall e, e ∈ k -> e ∈ es v) -> len (entries_cbytes k) <= len (entries_bytes k)) as Hk.
  { induction k as [| e k IH]; intros Hin; [done |]. rewrite entries_cbytes_cons, entries_bytes_cons, !len_app, len_entry_bytes.
    pose proof (law_compact (p_value e.2) (Hwf e (Hin e ltac:(by left))) (Hw e (Hin e ltac:(by left)))).
    specialize (IH (fun x Hx => Hin x ltac:(by right))). lia. }
  specialize (Hk (xs v) (sorted_entries_in _)). lia.
Qed.

Lemma record_costs v : record_wcost v ⪯ record_rcost v.
Proof.
  unfold record_wcost, record_rcost. apply cost_add_mono; [done |]. apply cost_sum_mono. intros e _. apply law_costs.
Qed.

Lemma record_read_compact_ok v d rest p w : dec -> record_wf v -> record_writable v -> record_fits (limits w) d v -> good (charge w (record_rcost v)) ->
  read_compact (CompactValue := record_compact sch) d (mkCursor (record_cenc v ++ rest) p) w
  = Ok (fields_canon fs L v, mkCursor rest p, charge w (record_rcost v)).
Proof.
  intros Hd Hwf Hw (Hn & Hf & Hfit) Hg. unfold record_rcost in *. cbn [read_compact record_compact]. spend. rewrite ordered_step by done.
  destruct (read_compact_loop_ok fs L v d (xs v)) with (seen := @nil N) (rest := rest) (p := p) (w := charge w node1) as (seen & Hseen & Hread).
  { apply Hd. } { by apply xs_in. } { apply xs_Forall; [done |]. by apply es_ok. } { by apply xs_Forall. } { by apply xs_Forall. }
  { rewrite xs_cost by done. good_tac. }
  rewrite (xs_ids v Hd), fill_nil in Hread. rewrite (bind_step _ _ _ _ _ _ _ Hread). rewrite xs_cost by done. charges. apply of_result_Ok.
  split; [| done]. apply fill_all. intros id Hid. apply Hseen. left. by rewrite (xs_ids v), merge_sort_Permutation.
Qed.

Lemma record_read_compact_inv d c w v c' w' : dec -> good w -> read_compact (CompactValue := record_compact sch) d c w = Ok (v, c', w') ->
  record_wf v /\ record_writable v /\ fields_canon fs L v = v /\ record_fits (limits w) d v /\ w' = charge w (record_rcost v) /\ good w'
  /\ cu_previous c' = cu_previous c
  /\ exists bytes, cu_bytes c = bytes ++ cu_bytes c' /\ len bytes = len (record_cenc v) /\ (record_exact -> bytes = record_cenc v).
Proof.
  intros Hd Hg H. cbn [read_compact record_compact] in H. inv_spend H. apply ordered_bind in H as (Hids & Hf & H). inv_spend H.
  apply of_result_Ok in H as (Hcol & -> & ->). apply (collect_filled fs L) in Hcol.
  apply (read_compact_loop_inv fs L) in E as (ys & body & Hny & Hp & Hall & -> & Hg' & Hprev & Hb & Hlen & Hex);
    [| apply Hd | rewrite merge_sort_Permutation; apply Hids | done | intros id _; rewrite filled_none; apply not_elem_of_nil].
  rewrite filled_none, app_nil_r, Hcol in Hp.
  assert (ys = xs v) as -> by (apply read_entries_sorted; [done | done | rewrite Hny; apply sorted_ids]).
  destruct (read_entries_Forall _ _ _ _ Hall Hp) as (? & ? & ? & Hfits). unfold record_rcost, record_fits, record_exact. charges.
  rewrite (xs_cost _ _ Hd) in *. cbn [limits charge] in *. split_and!; try done. by exists body.
Qed.

#[export] Instance record_lawful (typed : schema_typed sch) (blake3 : list byte -> list byte) layout :
  Lawful (record_value blake3 layout sch) (record_compact sch).
Proof.
  refine {|
    wf := record_wf; writable := record_writable; canon := fields_canon fs L; enc := record_enc; cenc := record_cenc;
    wcost := record_wcost; rcost := record_rcost; fits := record_fits; conforms s v := no_range s = Ok tt /\ record_conforms v;
    exact := record_exact; declared := dec; nested := fields_nested fs L |}.
  - intros v Hwf Hw. destruct (record_canon v Hwf Hw) as (? & ? & ? & ? & ? & ?). split_and!; try done. intros s [? ?]. auto.
  - intros s v Hwf [_ Hc]. unfold record_wf, record_conforms, record_writable in *. rewrite Forall_forall in Hwf. rewrite Forall_forall in Hc.
    apply Forall_forall. intros e He. by eapply law_conforms; auto.
  - intros v Hx. apply fields_canon_id. pose proof (entries_all _ fs L v Hx) as Hall. eapply Forall_impl; [exact Hall |].
    intros e He. by apply law_exact.
  - apply record_costs.
  - apply record_compact_le.
  - intros v s d w n u w' Hd Hg Hwf H. cbn [value_size record_value] in H. inv_spend H.
    apply record_size_Ok in H as (? & ? & -> & ? & -> & _); done.
  - intros v s d w Hd Hwf [Hs Hc] Hf Hg Hl. cbn [value_size record_value]. rewrite Hs, result_step. by apply record_size_ok.
  - intros v d out w. apply write_record_ok.
  - intros v d out w. apply write_compact_record_ok.
  - intros v d w. by apply read_record_ok.
  - intros bytes d w v u w'. apply read_record_inv.
  - intros v d rest p w. apply record_read_compact_ok.
  - intros d c w v c' w'. apply record_read_compact_inv.
  - intros d w m u w'. apply record_maximum_Ok.
  - intros s d i i' H. cbn [inspect record_value] in H. destruct (no_range s); [| done]. destruct (discrete s); [| done].
    apply (inspect_schema_Ok _ _ L) in H as (Hd & Hg & Hv & Hn & _). split; [done |]. split; [done |].
    eapply Forall_impl; [exact Hn |]. intros n (Hnv & Hnp & Hnr). unfold sealed. split_and!; [lia | done |].
    intros Hx. destruct (Hnr Hx) as [Hpub ?]. split; [by eapply public_least | done].
  - intros a b. apply fields_eqb_canon.
Defined.
End RecordLaws.
