(* ===== verification/SchemaReady.v ===== *)
(** * What registration establishes

    The invariant of the registries that registrations build, and what the codec of a registered
    schema can rely on: sound identities, valid limits, and a declared maximum that fits them. From
    these the codec's operations are characterized on every value. *)

From S2P Require Import Prelude Types Floats FloatBits Codec InterestModel Reader Schema SchemaValues SchemaRecords SchemaRegistry SchemaLaws SchemaCompositeLaws SchemaSumLaws SchemaRecordLaws SchemaInspection SchemaRecordCodec.
Local Open Scope N_scope.
Local Open Scope engine_scope.

(** ** Registries *)

Section Registries.
Context (blake3 : list byte -> list byte).

(** The registries that registrations build, each of a schema and hooks of its own types; the
    fields' types keep the contract of [SchemaLaws], which is what the source asks of a trusted
    implementation. *)
Inductive built : SchemaRegistry -> Prop :=
| built_new l reg : SchemaRegistry_new l = Ok reg -> built reg
| built_register {R W} reg (sch : Schema R) (L : fields_lawful (sch_fields sch)) (hooks : Registration R W) reg' r :
    built reg -> register blake3 reg sch hooks = Ok (reg', r) -> built reg'.

Record registry_inv (reg : SchemaRegistry) : Prop := {
  ri_limits : limits_valid (sr_limits reg) = true;
  ri_sorted : StronglySorted N.lt (si_schema <$> sr_entries reg);
  ri_bound : len (sr_entries reg) <= schemas (sr_limits reg);
}.

#[local] Instance identity_le_trans : Transitive identity_le.
Proof. intros a b c. unfold identity_le. lia. Qed.
#[local] Instance identity_le_total : Total identity_le.
Proof. intros a b. unfold identity_le. lia. Qed.

Lemma StronglySorted_lt_NoDup (l : list N) : StronglySorted N.lt l -> NoDup l.
Proof.
  induction 1 as [| a l Hs IH Hall]; constructor; [| done]. intros Ha. rewrite Forall_forall in Hall. specialize (Hall a Ha). lia.
Qed.

Lemma find_entry_None id l : find_entry id l = None <-> id ∉ si_schema <$> l.
Proof.
  unfold find_entry. rewrite fmap_None, list_find_None, Forall_forall, list_elem_of_fmap. split.
  - intros H (e & -> & He). by apply (H e He).
  - intros H e He <-. eauto.
Qed.

Lemma additions_Ok entries known added : additions entries known = Ok added -> NoDup (si_schema <$> known) ->
  NoDup (si_schema <$> added) /\ (forall e, e ∈ added -> e ∈ known /\ si_schema e ∉ si_schema <$> entries)
  /\ (forall e, e ∈ known -> e ∈ entries \/ e ∈ added).
Proof.
  revert added. induction known as [| c known IH]; intros added H Hnd; cbn [additions] in H.
  { injection H as <-. split_and!; [constructor | by intros e ?%not_elem_of_nil..]. }
  rewrite fmap_cons, NoDup_cons in Hnd. destruct Hnd as [Hc Hnd]. destruct (find_entry _ _) as [e |] eqn:E.
  - case_decide as Hd; [done |]. assert (e = c) as -> by (destruct (decide (e = c)); done).
    destruct (IH _ H Hnd) as (? & Hin & Hall). split_and!; try done.
    + intros x Hx. destruct (Hin x Hx). split; [by right | done].
    + intros x [-> | Hx]%elem_of_cons; [| auto]. left. unfold find_entry in E. apply fmap_Some in E as ([i x'] & E & ->).
      apply list_find_Some in E as (E & _). by eapply list_elem_of_lookup_2.
  - destruct (additions entries known) as [rest |]; [| done]. injection H as <-. destruct (IH _ eq_refl Hnd) as (Hnd' & Hin & Hall).
    rewrite find_entry_None in E. rewrite fmap_cons. split_and!.
    + constructor; [| done]. intros (x & Hx & Hr)%list_elem_of_fmap. destruct (Hin x Hr) as [Hk _]. apply Hc. rewrite Hx. apply list_elem_of_fmap. eauto.
    + intros x [-> | Hx]%elem_of_cons; [split; [by left | done] |]. destruct (Hin x Hx). split; [by right | done].
    + intros x [-> | Hx]%elem_of_cons; [right; by left |]. destruct (Hall x Hx); [by left | right; by right].
Qed.

Lemma sorted_identities l : NoDup (si_schema <$> l) -> StronglySorted N.lt (si_schema <$> merge_sort identity_le l).
Proof.
  intros Hnd. assert (NoDup (si_schema <$> merge_sort identity_le l)) as Hnd' by (by rewrite merge_sort_Permutation).
  pose proof (StronglySorted_merge_sort identity_le l) as Hs. revert Hnd' Hs. generalize (merge_sort identity_le l) as k.
  induction k as [| e k IH]; intros Hn Hs; [constructor |]. rewrite fmap_cons in *. apply NoDup_cons in Hn as [He Hn].
  apply StronglySorted_inv in Hs as [Hs Hle]. constructor; [auto |]. rewrite Forall_fmap. rewrite Forall_forall in Hle.
  apply Forall_forall. intros x Hx. specialize (Hle x Hx). unfold identity_le in Hle. cbn.
  assert (si_schema e <> si_schema x) as Hne by (intros Heq; apply He; rewrite Heq; apply list_elem_of_fmap; eauto). lia.
Qed.

Lemma sorted_identities_unique l k : StronglySorted N.lt (si_schema <$> l) -> StronglySorted N.lt (si_schema <$> k) -> l ≡ₚ k -> l = k.
Proof.
  revert k. induction l as [| a l IH]; intros [| b k] Hl Hk Hp.
  - done.
  - by apply Permutation_nil_cons in Hp.
  - symmetry in Hp. by apply Permutation_nil_cons in Hp.
  - rewrite fmap_cons in Hl, Hk. apply StronglySorted_inv in Hl as [Hl La], Hk as [Hk Kb]. rewrite Forall_fmap in La. rewrite Forall_fmap in Kb.
    rewrite Forall_forall in La. rewrite Forall_forall in Kb.
    assert (a = b) as ->.
    { assert (a ∈ b :: k) as [-> | Ha]%elem_of_cons by (rewrite <- Hp; by left); [done |].
      assert (b ∈ a :: l) as [-> | Hb]%elem_of_cons by (rewrite Hp; by left); [done |].
      specialize (La b Hb). specialize (Kb a Ha). cbn in La, Kb. lia. }
    f_equal. apply IH; try done. by apply Permutation_cons_inv in Hp.
Qed.

Lemma register_inv {R W} reg (sch : Schema R) (L : fields_lawful (sch_fields sch)) (hooks : Registration R W) reg' r : registry_inv reg ->
  register blake3 reg sch hooks = Ok (reg', r) ->
  registry_inv reg' /\ sr_limits reg' = sr_limits reg /\ co_identity (rs_codec r) ∈ sr_entries reg'
  /\ forall e, e ∈ sr_entries reg -> e ∈ sr_entries reg'.
Proof.
  intros [Hl Hs Hb]. unfold register. case_decide; [done |].
  destruct (inspect_schema _ _ _ _ _ _) as [i |] eqn:Hi; [| done]. apply (inspect_schema_Ok _ _ L) in Hi as (_ & Hg & _ & _ & _ & _ & Hroot).
  destruct (check_hooks _ _); [| done]. destruct (additions _ _) as [added |] eqn:Ha; [| done]. case_decide as Hn; [done |]. intros [= <- <-].
  destruct (Hroot eq_refl) as (hashed & _ & Hknown). destruct Hg as (_ & _ & Hnd). specialize (Hnd (NoDup_nil_2)).
  destruct (additions_Ok _ _ _ Ha Hnd) as (Hnda & Hin & Hall). cbn [sr_limits sr_entries rs_codec co_identity].
  assert (NoDup (si_schema <$> (sr_entries reg ++ added))) as Hnd'.
  { rewrite fmap_app. apply NoDup_app. split_and!; [by eapply StronglySorted_lt_NoDup | | done].
    intros id Hid (x & -> & Hx)%list_elem_of_fmap. by destruct (Hin x Hx). }
  split; [| split; [done | split]].
  - constructor; cbn [sr_limits sr_entries]; [done | by apply sorted_identities |]. rewrite merge_sort_Permutation, len_app. lia.
  - rewrite merge_sort_Permutation, elem_of_app. by apply Hall.
  - intros e He. rewrite merge_sort_Permutation, elem_of_app. by left.
Qed.

(** Accepting a peer is comparing the identities as sets. *)
Lemma require_exact_match_Ok reg peer : registry_inv reg -> require_exact_match reg peer = Ok tt <-> peer ≡ₚ sr_entries reg.
Proof.
  intros [_ Hs Hb]. unfold require_exact_match. split.
  - do 2 (case_decide; [done |]). case_decide as Hd; [done |]. intros _.
    assert (merge_sort identity_le peer = sr_entries reg) as <- by (destruct (decide (merge_sort identity_le peer = sr_entries reg)); done).
    symmetry. apply merge_sort_Permutation.
  - intros Hp. assert (len peer = len (sr_entries reg)) as Hlen by (by rewrite Hp). rewrite !decide_False by lia.
    assert (merge_sort identity_le peer = sr_entries reg) as ->; [| by rewrite decide_False by (intros Hn; by apply Hn)].
    assert (NoDup (si_schema <$> peer)) as Hnd by (rewrite Hp; by apply StronglySorted_lt_NoDup).
    apply (sorted_identities_unique _ _ (sorted_identities _ Hnd) Hs). by rewrite merge_sort_Permutation.
Qed.

Lemma built_inv reg : built reg -> registry_inv reg.
Proof.
  induction 1 as [l reg H | R W reg sch L hooks reg' r _ IH H].
  - unfold SchemaRegistry_new, SchemaLimits_validate in H. destruct (limits_valid l) eqn:Hl; [| done]. injection H as <-.
    constructor; cbn; [done | apply SSorted_nil | apply N.le_0_l].
  - by eapply register_inv.
Qed.
End Registries.

(** ** The codec of a registered schema *)

(** What registration has established for the codec it hands out. *)
Record ready {R} (sch : Schema R) (L : fields_lawful (sch_fields sch)) (codec : SchemaCodec) : Prop := {
  re_typed : schema_typed sch;
  re_declared : record_declared sch L;
  re_limits : limits_valid (co_limits codec) = true;
  re_fingerprint : len (si_fingerprint (co_identity codec)) = 32;
  re_maximum : exists c, good (charge (Work_new (co_limits codec)) c)
    /\ forall v, record_wf sch L v ->
        len (record_enc sch L v) + ENVELOPE <= wire_bytes (co_limits codec) /\ record_rcost sch L v ⪯ c
        /\ record_fits sch L (co_limits codec) 0 v;
  re_default : is_ok (raw_encode sch (defaults (sch_fields sch)) (co_limits codec)) = true;
}.

Lemma register_ready blake3 {R W} reg (sch : Schema R) L (hooks : Registration R W) reg' r :
  (forall x, len (blake3 x) = 32) -> schema_typed sch ->
  registry_inv reg -> register blake3 reg sch hooks = Ok (reg', r) -> ready sch L (rs_codec r).
Proof.
  intros Hblake Ht [Hl _ _]. unfold register. case_decide; [done |].
  destruct (inspect_schema _ _ _ _ _ _) as [i |] eqn:Hi; [| done].
  apply (inspect_schema_Ok _ _ L) in Hi as (Hd & Hg & _ & _ & (m & Hm & Hw) & Hdef & Hroot).
  destruct (check_hooks _ _); [| done]. destruct (additions _ _); [| done]. case_decide; [done |]. intros [= <- <-].
  destruct (Hroot eq_refl) as (hashed & Hr & _). cbn [i_limits Inspection_new] in *.
  constructor; cbn [rs_codec co_identity co_limits si_fingerprint]; try done; [by rewrite Hr |].
  unfold run in Hm. destruct (record_maximum sch 0 tt _) as [[[m' []] w'] |] eqn:E; [| done]. injection Hm as <-.
  apply (record_maximum_Ok _ L) in E as (c & -> & Hgc & Hv); [| split; [exact Hl | cbn; lia]]. exists c. split; [done |].
  intros v Hwf. destruct (Hv v Hwf) as (? & ? & ?). split; [lia | done].
Qed.

(** The hooks that registration has accepted. *)
Lemma register_hooks blake3 {R W} reg (sch : Schema R) L (hooks : Registration R W) reg' r : register blake3 reg sch hooks = Ok (reg', r) ->
  rs_hooks r = hooks
  /\ Forall (fun n => visibility_u8 (visibility n) <= visibility_u8 (representation_visibility (sch_representation sch))
                     /\ (prediction n = Replayed -> sch_representation sch <> PublicPresentation /\ is_Some (restore_hook hooks)))
       (fields_nested (sch_fields sch) L)
  /\ dependencies hooks <> Unspecified.
Proof.
  unfold register. case_decide; [done |]. destruct (inspect_schema _ _ _ _ _ _) as [i |] eqn:Hi; [| done].
  apply (inspect_schema_Ok _ _ L) in Hi as (_ & _ & Hv & Hn & _). destruct (check_hooks _ _) eqn:Hh; [| done].
  destruct (additions _ _); [| done]. case_decide; [done |]. intros [= <- <-]. split; [done |].
  unfold check_hooks in Hh. destruct (i_restore_required i && _) eqn:Hr; [done |]. split.
  - eapply Forall_impl; [exact Hn |]. intros n (Hnv & _ & Hnr). split; [done |]. intros Hx. destruct (Hnr Hx) as [Hpub Hreq].
    rewrite Hreq in Hr. cbn in Hr. apply negb_false_iff, bool_decide_eq_true in Hr. split; [| done]. by intros Heq; rewrite Heq in Hpub.
  - by intros Hu; rewrite Hu in Hh.
Qed.

Section Ready.
Context {R : Type} (sch : Schema R) (L : fields_lawful (sch_fields sch)) (codec : SchemaCodec) (H : ready sch L codec).
#[local] Abbreviation l := (co_limits codec).
#[local] Abbreviation w0 := (Work_new l).
#[local] Abbreviation wf_value := (record_wf sch L).
#[local] Abbreviation conforming := (record_conforms sch L).
#[local] Abbreviation canonical := (fields_canon (sch_fields sch) L).
#[local] Abbreviation wire := (record_enc sch L).
#[local] Abbreviation compact := (record_cenc sch L).

Definition envelope : list byte := MAGIC ++ si_fingerprint (co_identity codec).

Lemma len_envelope : len envelope = ENVELOPE.
Proof. unfold envelope. rewrite len_app, (re_fingerprint _ _ _ H). done. Qed.

Lemma good_new : good w0.
Proof. split; [exact (re_limits _ _ _ H) | cbn; lia]. Qed.

Lemma record_conforms_writable v : wf_value v -> conforming v -> record_writable sch L v.
Proof.
  unfold record_wf, record_conforms, record_writable. rewrite !Forall_forall. intros Hwf Hc e He. by eapply law_conforms; auto.
Qed.

(** Whatever a value is, it is affordable. *)
Lemma affordable v : wf_value v ->
  good (charge w0 (record_wcost sch L v)) /\ good (charge w0 (record_rcost sch L v)) /\ record_fits sch L l 0 v
  /\ len (wire v) + ENVELOPE <= wire_bytes l.
Proof.
  intros Hwf. destruct (re_maximum _ _ _ H) as (c & Hg & Hv). destruct (Hv v Hwf) as (Hl & Hc & Hf).
  pose proof (record_costs sch L v). split_and!; try done; (eapply good_mono; [| exact Hg]); [by etransitivity | done].
Qed.

Lemma size_run v : wf_value v ->
  run (record_size sch v 0) l tt = Ok (len (wire v), tt) /\ conforming v
  \/ ~ conforming v /\ exists e, run (record_size sch v 0) l tt = Err e.
Proof.
  intros Hwf. pose proof (re_declared _ _ _ H) as Hd. destruct (affordable v Hwf) as (Hg & _ & Hf & Hl). unfold run.
  destruct (record_size sch v 0 tt w0) as [[[n []] w] | e] eqn:E.
  - left. apply (record_size_Ok _ L) in E as (Hc & _ & _ & _ & -> & _); try done; apply good_new.
  - right. split; [| eauto]. intros Hc. rewrite (record_size_ok sch L) in E by (done || (cbn [limits Work_new]; unfold ENVELOPE in *; lia)). done.
Qed.

Lemma encode_Ok v bytes : wf_value v -> encode sch codec v = Ok bytes <-> conforming v /\ bytes = envelope ++ wire v.
Proof.
  intros Hwf. pose proof (re_declared _ _ _ H) as Hd. destruct (affordable v Hwf) as (Hg & _ & Hf & Hl). pose proof (limits_bounds _ (re_limits _ _ _ H)) as Hlim.
  unfold encode. destruct (size_run v Hwf) as [[-> Hc] | [Hc [e ->]]]; [| split; [done | by intros []]]. cbn [fst].
  unfold checked_add. rewrite decide_True by (unfold usize_max, u64_max; lia). rewrite decide_False by lia.
  pose proof (record_conforms_writable v Hwf Hc) as Hw. unfold run. fold envelope.
  rewrite (write_record_ok sch L) by (done || (rewrite len_envelope; cbn [limits Work_new]; lia)). cbn [snd]. split; [intros [= <-] | intros [_ ->]]; done.
Qed.

Lemma decode_ok v : wf_value v -> conforming v -> decode sch codec (envelope ++ wire v) = Ok (canonical v).
Proof.
  intros Hwf Hc. pose proof (re_declared _ _ _ H) as Hd. destruct (affordable v Hwf) as (_ & Hg & Hf & Hl).
  pose proof (record_conforms_writable v Hwf Hc) as Hw. unfold decode. rewrite decide_False by (rewrite len_app, len_envelope; lia).
  unfold envelope. rewrite <- app_assoc, read_take_app by done. cbn [fst snd]. rewrite decide_False by (intros Hn; by apply Hn).
  rewrite read_take_app by exact (re_fingerprint _ _ _ H). cbn [fst snd]. rewrite decide_False by (intros Hn; by apply Hn). unfold run at 1.
  rewrite (read_record_ok sch L _ _ _ (re_typed _ _ _ H)) by (done || (cbn [limits Work_new]; lia)). cbn [fst].
  destruct (record_canon sch L v Hwf Hw) as (Hwf' & _ & _ & _ & _ & Hc').
  by destruct (size_run _ Hwf') as [[-> _] | [Hn _]]; [| destruct Hn; apply Hc'].
Qed.

Lemma decode_inv bytes v : decode sch codec bytes = Ok v ->
  wf_value v /\ conforming v /\ canonical v = v /\ len bytes = len (envelope ++ wire v)
  /\ (record_exact sch L -> bytes = envelope ++ wire v).
Proof.
  pose proof (re_declared _ _ _ H) as Hd. unfold decode. case_decide; [done |].
  destruct (read_take Truncated 4 bytes) as [[magic rest] |] eqn:E1; [| done]. apply (exact_enc _ _ _) in E1 as [_ ->]. cbn [fst snd].
  case_decide as Hm; [done |]. destruct (read_take Truncated 32 rest) as [[fp rest'] |] eqn:E2; [| done]. apply (exact_enc _ _ _) in E2 as [_ ->].
  cbn [fst snd]. case_decide as Hf; [done |]. unfold run at 1. destruct (read_record sch rest' 0 tt w0) as [[[x []] w] |] eqn:E; [| done]. cbn [fst].
  apply (read_record_inv sch L) in E as (Hwf & Hw & Hc & _ & _ & _ & Hl & Hex); [| done | apply good_new].
  destruct (size_run x Hwf) as [[-> Hconf] | [_ [e ->]]]; [| done]. intros [= <-].
  assert (magic = MAGIC) as -> by (destruct (decide (magic = MAGIC)); done).
  assert (fp = si_fingerprint (co_identity codec)) as -> by (destruct (decide (fp = si_fingerprint (co_identity codec))); done).
  unfold envelope. rewrite !len_app, Hl. split_and!; try done; [lia |]. intros Hx. rewrite (Hex Hx). by rewrite <- app_assoc.
Qed.

Lemma default_conforms : wf_value (defaults (sch_fields sch)) -> conforming (defaults (sch_fields sch)).
Proof.
  intros Hwf. pose proof (re_default _ _ _ H) as Hd. unfold raw_encode in Hd.
  by destruct (size_run _ Hwf) as [[_ Hc] | [_ [e Hr]]]; [| rewrite Hr in Hd].
Qed.

(** The compact form, for peers that have negotiated the schema. *)
Lemma encode_compact_iff v bytes : wf_value v -> encode_compact sch codec v = Ok bytes <-> conforming v /\ bytes = compact v.
Proof.
  intros Hwf. pose proof (re_declared _ _ _ H) as Hd. destruct (affordable v Hwf) as (Hg & _ & Hf & Hl).
  unfold encode_compact. destruct (size_run v Hwf) as [[-> Hc] | [Hc [e ->]]]; [| split; [done | by intros []]].
  pose proof (record_conforms_writable v Hwf Hc) as Hw. pose proof (record_compact_le sch L v Hwf Hw). unfold run.
  rewrite (write_compact_record_ok sch L) by (done || (cbn [limits Work_new]; rewrite len_nil; lia)). cbn [snd app]. split; [intros [= <-] | intros [_ ->]]; done.
Qed.

Lemma decode_compact_ok v : wf_value v -> conforming v -> decode_compact sch codec (compact v) = Ok (canonical v).
Proof.
  intros Hwf Hc. pose proof (re_declared _ _ _ H) as Hd. destruct (affordable v Hwf) as (_ & Hg & Hf & Hl).
  pose proof (record_conforms_writable v Hwf Hc) as Hw. pose proof (record_compact_le sch L v Hwf Hw).
  unfold decode_compact. rewrite decide_False by lia. unfold run at 1, Cursor_new. rewrite <- (app_nil_r (compact v)).
  rewrite (bind_step _ _ _ _ _ _ _ (record_read_compact_ok sch L v 0 [] 0 w0 Hd Hwf Hw Hf Hg)). rewrite finish_step. cbn [ret fst].
  destruct (record_canon sch L v Hwf Hw) as (Hwf' & _ & _ & _ & _ & Hc').
  by destruct (size_run _ Hwf') as [[-> _] | [Hn _]]; [| destruct Hn; apply Hc'].
Qed.

Lemma decode_compact_inv bytes v : decode_compact sch codec bytes = Ok v ->
  wf_value v /\ conforming v /\ canonical v = v /\ len bytes = len (compact v) /\ (record_exact sch L -> bytes = compact v).
Proof.
  pose proof (re_declared _ _ _ H) as Hd. unfold decode_compact. case_decide; [done |]. unfold run at 1.
  destruct (bind _ _ _ _) as [[[x c] w] |] eqn:E; [| done]. cbn [fst]. inv_spend E. inv_spend E. injection E as <- <- <-.
  apply (record_read_compact_inv sch L) in E0 as (Hwf & _ & Hc & _ & _ & _ & _ & b & Hb & Hl & Hex); [| done | apply good_new].
  destruct (size_run _ Hwf) as [[-> Hconf] | [_ [e ->]]]; [| done]. intros [= <-].
  rewrite E1, app_nil_r in Hb. cbn [cu_bytes Cursor_new] in Hb. subst. done.
Qed.
End Ready.

(** ** Declared dependencies *)

#[export] Instance entity_le_transitive : Transitive entity_le.
Proof. intros a b c. apply lex_le_trans. Qed.
#[export] Instance entity_le_total : Total entity_le.
Proof. intros a b. apply lex_le_total. Qed.
#[export] Instance entity_le_antisymm : AntiSymm eq entity_le.
Proof. intros [i g] [j h] H1 H2. by injection (lex_le_antisym [i; g] [j; h] eq_refl H1 H2) as -> ->. Qed.

Lemma has_repeat_NoDup (l : list EntityId) : StronglySorted entity_le l -> has_repeat l = false -> NoDup l.
Proof.
  induction l as [| a [| b l] IH]; intros Hs Hr; [constructor | apply NoDup_singleton |].
  apply StronglySorted_inv in Hs as [Hs Ha]. cbn [has_repeat] in Hr. apply orb_false_iff in Hr as [Hab%bool_decide_eq_false Hr].
  apply NoDup_cons. split; [| by apply IH]. rewrite elem_of_cons. intros [-> | Hin]; [done |]. apply StronglySorted_inv in Hs as [_ Hb].
  rewrite Forall_forall in Hb. rewrite Forall_forall in Ha. apply Hab, (anti_symm entity_le); [apply Ha; by left | by apply Hb].
Qed.

(** The dependencies of an encodable state are those the game collected, in order, distinct, of
    entities that exist, and at most 64. *)
Lemma declared_dependencies_Ok {R W} (sch : Schema R) (r : RegisteredSchema R W) state deps :
  declared_dependencies sch r state = Ok deps ->
  is_ok (encode sch (rs_codec r) state) = true /\ StronglySorted entity_le deps /\ NoDup deps /\ len deps <= 64
  /\ Forall (fun id => index id <> 0 /\ generation id <> 0) deps
  /\ match dependencies (rs_hooks r) with
     | NoneRequired => deps = []
     | Declared _ collect => exists collected, collect state = Ok collected /\ deps ≡ₚ collected
     | _ => False
     end.
Proof.
  unfold declared_dependencies. destruct (encode _ _ _); [| done]. cbn [is_ok]. intros H. split; [done |].
  destruct (match dependencies (rs_hooks r) with NoneRequired => _ | _ => _ end) as [collected |] eqn:E; [| done].
  case_decide as Hz; [done |]. destruct (has_repeat _) eqn:Hr; [done |]. unfold BoundedVec_new in H. case_decide; [done |]. injection H as <-.
  pose proof (StronglySorted_merge_sort entity_le collected) as Hs. split; [done |]. split; [by apply has_repeat_NoDup |]. split; [lia |]. split.
  - apply not_Exists_Forall in Hz; [| intros x; apply _]. eapply Forall_impl; [exact Hz |]. intros x Hx. cbn in Hx. tauto.
  - destruct (dependencies (rs_hooks r)); try done; [by injection E as <- |]. exists collected. split; [done |]. apply merge_sort_Permutation.
Qed.
