(* ===== verification/SchemaDiagnostics.v ===== *)
(** * Field changes

    [SchemaCodec::changes] compares two values field by field in the order of identities. *)

From S2P Require Import Prelude Types Floats FloatBits Codec Reader Schema SchemaValues SchemaRecords SchemaRegistry SchemaLaws SchemaCompositeLaws SchemaSumLaws SchemaRecordLaws SchemaInspection SchemaRecordCodec SchemaReady.
Local Open Scope N_scope.
Local Open Scope engine_scope.

(** A field with its value before and after. *)
Record two := mkTwo {
  t_field : FieldDescriptor;
  t_type : Type;
  t_FV : FieldValue t_type;
  t_CV : CompactValue t_type;
  t_law : Lawful t_FV t_CV;
  t_before : t_type;
  t_after : t_type;
}.
#[export] Existing Instances t_FV t_CV t_law.

Definition t_id (t : two) : FieldId := fd_id (t_field t).
Definition entry_before (t : two) : entry := (t_field t, {| p_law := t_law t; p_value := t_before t |}).
Definition entry_after (t : two) : entry := (t_field t, {| p_law := t_law t; p_value := t_after t |}).

Fixpoint twos {R} (fs : Fields R) : fields_lawful fs -> R -> R -> list two :=
  match fs with
  | FNil => fun _ _ _ => []
  | FCons field FV CV _ rest => fun L a b =>
      {| t_field := field; t_law := L.1.2; t_before := a.1; t_after := b.1 |} :: twos rest L.2 a.2 b.2
  end.

Lemma twos_before {R} (fs : Fields R) L a b : entry_before <$> twos fs L a b = entries fs L a.
Proof. induction fs as [| T R field FV CV def rest IH]; [done |]. cbn [twos entries]. by rewrite fmap_cons, IH. Qed.
Lemma twos_after {R} (fs : Fields R) L a b : entry_after <$> twos fs L a b = entries fs L b.
Proof. induction fs as [| T R field FV CV def rest IH]; [done |]. cbn [twos entries]. by rewrite fmap_cons, IH. Qed.
Lemma twos_ids {R} (fs : Fields R) L a b : t_id <$> twos fs L a b = field_ids fs.
Proof. rewrite <- (entries_ids fs L a), <- (twos_before fs L a b), <- list_fmap_compose. done. Qed.

Lemma diagnose_at_two {R} (fs : Fields R) L a b id access out w out' w' :
  diagnose_at fs id access a b out w = Ok (tt, out', w') ->
  exists t, t ∈ twos fs L a b /\ t_id t = id
    /\ diagnostic_field (t_FV t) (t_field t) (t_before t) (t_after t) access out w = Ok (tt, out', w').
Proof.
  induction fs as [| T R field FV CV def rest IH]; [done |]. cbn [diagnose_at twos]. case_decide as Hd; intros H.
  - eexists. split; [by left |]. done.
  - destruct (IH L.2 _ _ H) as (t & Ht & ?). exists t. split; [by right | done].
Qed.

(** What is reported of a field. *)
Definition quiet (t : two) : Prop := eqb (t_before t) (t_after t) = true /\ change (fd_spec (t_field t)) = CanonicalEquality.
Definition shown (access : DiagnosticAccess) (t : two) : FieldChange :=
  if permits access (t_field t) then mkFieldChange (t_id t) (Some (enc (t_before t))) (Some (enc (t_after t)))
  else mkFieldChange (t_id t) None None.

(** A value that can be sized alone is written as its encoding. *)
Lemma run_write {T} (FV : FieldValue T) (CV : CompactValue T) (L : Lawful FV CV) v s lim n bytes : declared (Lawful := L) -> wf v ->
  limits_valid lim = true -> len (enc v) <= wire_bytes lim ->
  run (value_size v s 0) lim tt = Ok (n, tt) -> run (write v 0) lim [] = Ok (tt, bytes) -> bytes = enc v.
Proof.
  intros Hd Hv Hl Hlen Hs Hw. unfold run in *. destruct (value_size v s 0 tt _) as [[[n' []] w] |] eqn:E; [| done].
  apply law_size in E as (Hc & Hf & -> & Hg & _); try done; [| split; [done | cbn; lia]].
  rewrite law_write in Hw; try done; [by injection Hw as <- | by eapply law_conforms].
Qed.

Lemma diagnostic_field_Ok access t out w out' w' : declared (Lawful := t_law t) -> wf (t_before t) -> wf (t_after t) ->
  limits_valid (limits w) = true -> len (enc (t_before t)) <= wire_bytes (limits w) -> len (enc (t_after t)) <= wire_bytes (limits w) ->
  diagnostic_field (t_FV t) (t_field t) (t_before t) (t_after t) access out w = Ok (tt, out', w') ->
  limits w' = limits w /\ (quiet t /\ out' = out \/ ~ quiet t /\ out' = out ++ [shown access t]).
Proof.
  intros Hd Hb Ha Hl Hlb Hla. unfold diagnostic_field. case_decide as Hq.
  { intros [= <- <-]. auto. }
  unfold shown. destruct (permits access (t_field t)); [| intros [= <- <-]; auto].
  destruct (run (value_size (t_before t) _ 0) _ _) as [[n1 []] |] eqn:E1; [| done].
  destruct (run (value_size (t_after t) _ 0) _ _) as [[n2 []] |] eqn:E2; [| done].
  destruct (allocate _ tt w) as [[[[] []] w1] |] eqn:E; [| done].
  assert (limits w1 = limits w) as Hw1.
  { unfold allocate in E. destruct (checked_add _ _ _); [| done]. cbn [ok_or] in E. case_decide; [done |]. by injection E as <-. }
  rewrite Hw1. destruct (run (write (t_before t) 0) _ _) as [[[] b1] |] eqn:W1; [| done].
  destruct (run (write (t_after t) 0) _ _) as [[[] b2] |] eqn:W2; [| done].
  apply (run_write _ _ (t_law t) _ _ _ _ _ Hd Hb Hl Hlb E1) in W1 as ->. apply (run_write _ _ (t_law t) _ _ _ _ _ Hd Ha Hl Hla E2) in W2 as ->.
  intros [= <- <-]. auto.
Qed.

(** What holds of the reports [out] after the fields with the given identities. *)
Definition reported (access : DiagnosticAccess) (all : list two) (ids : list FieldId) (out : list FieldChange) : Prop :=
  (fc_field <$> out) `sublist_of` ids
  /\ (forall c, c ∈ out -> exists t, t ∈ all /\ t_id t ∈ ids /\ c = shown access t)
  /\ (forall t, t ∈ all -> t_id t ∈ ids -> t_id t ∉ fc_field <$> out -> quiet t).

Lemma shown_id access t : fc_field (shown access t) = t_id t.
Proof. unfold shown. by destruct (permits _ _). Qed.

Lemma diagnose_loop {R} (fs : Fields R) L a b access ids : NoDup (field_ids fs) ->
  forall seen out w out' w', limits_valid (limits w) = true ->
  Forall (fun t => declared (Lawful := t_law t) /\ wf (t_before t) /\ wf (t_after t)
                   /\ len (enc (t_before t)) <= wire_bytes (limits w) /\ len (enc (t_after t)) <= wire_bytes (limits w)) (twos fs L a b) ->
  reported access (twos fs L a b) seen out -> NoDup (seen ++ ids) ->
  for_ids ids (fun id => diagnose_at fs id access a b) out w = Ok (tt, out', w') ->
  reported access (twos fs L a b) (seen ++ ids) out'.
Proof.
  intros Hnd. induction ids as [| id ids IH]; intros seen out w out' w' Hl Hall Hrep Hsn H; cbn [for_ids] in H.
  { injection H as <- <-. by rewrite app_nil_r. }
  inv_spend H. destruct x. apply (diagnose_at_two _ L) in E as (t & Ht & <- & E). pose proof Hall as Hall'. rewrite Forall_forall in Hall.
  destruct (Hall t Ht) as (? & ? & ? & ? & ?). apply diagnostic_field_Ok in E as (Hlim & E); try done.
  rewrite (cons_middle (t_id t) seen ids), app_assoc in *. apply (IH (seen ++ [t_id t])) in H; rewrite ?Hlim; try done.
  assert (forall t', t' ∈ twos fs L a b -> t_id t' = t_id t -> t' = t) as Huniq.
  { intros t' Ht' Hid. rewrite <- (twos_ids fs L a b) in Hnd. by apply (NoDup_fmap_inj t_id (twos fs L a b)). }
  destruct Hrep as (Hsub & Hin & Hq). assert (t_id t ∉ seen) as Hfresh.
  { apply NoDup_app in Hsn as (Hsn & _ & _). apply NoDup_app in Hsn as (_ & Hd & _). intros Hs. apply (Hd _ Hs). by left. }
  split_and!.
  - destruct E as [[_ ->] | [_ ->]]; [by apply sublist_inserts_r |]. rewrite fmap_app. apply sublist_app; [done |]. cbn. by rewrite shown_id.
  - intros c Hc. assert (c ∈ out \/ c = shown access t) as [Hc' | ->].
    { destruct E as [[_ ->] | [_ ->]]; [by left |]. apply elem_of_app in Hc as [|Hc%list_elem_of_singleton]; auto. }
    + destruct (Hin c Hc') as (t' & ? & ? & ->). exists t'. rewrite elem_of_app. auto.
    + exists t. rewrite elem_of_app, list_elem_of_singleton. auto.
  - intros t' Ht' Hid Hnot. apply elem_of_app in Hid as [Hid | Hid%list_elem_of_singleton].
    + apply Hq; try done. intros Hc. apply Hnot. destruct E as [[_ ->] | [_ ->]]; [done |]. rewrite fmap_app, elem_of_app. by left.
    + rewrite (Huniq t' Ht' Hid) in *. destruct E as [[? _] | [_ ->]]; [done |]. destruct Hnot. rewrite fmap_app, elem_of_app. right. cbn.
      rewrite shown_id. by left.
Qed.

Lemma sublist_StronglySorted (l k : list N) : l `sublist_of` k -> StronglySorted N.lt k -> StronglySorted N.lt l.
Proof.
  induction 1 as [| a l k Hs IH | a l k Hs IH]; intros Hk; [done | |]; apply StronglySorted_inv in Hk as [Hk Hall]; [| auto].
  constructor; [auto |]. rewrite Forall_forall in Hall |- *. intros x Hx. apply Hall.
  by eapply elem_of_submseteq; [exact Hx | apply sublist_submseteq].
Qed.

(** A field that is quiet has one encoding. *)
Lemma quiet_enc t : wf (t_before t) -> wf (t_after t) -> writable (t_before t) -> writable (t_after t) -> quiet t ->
  enc (t_before t) = enc (t_after t).
Proof.
  intros Hb Ha Hwb Hwa [He _]. apply law_eqb in He; try done.
  destruct (law_canon (t_before t) Hb Hwb) as (_ & _ & <- & _). destruct (law_canon (t_after t) Ha Hwa) as (_ & _ & <- & _). by rewrite He.
Qed.

Section Changes.
Context {R : Type} (sch : Schema R) (L : fields_lawful (sch_fields sch)) (codec : SchemaCodec) (H : ready sch L codec).

Lemma twos_Forall (P : entry -> Prop) a b : Forall P (entries (sch_fields sch) L a) -> Forall P (entries (sch_fields sch) L b) ->
  Forall (fun t => P (entry_before t) /\ P (entry_after t)) (twos (sch_fields sch) L a b).
Proof.
  rewrite <- (twos_before _ L a b) at 1. rewrite <- (twos_after _ L a b). rewrite !Forall_fmap, !Forall_forall. intros Ha Hb t Ht. split; [by apply Ha | by apply Hb].
Qed.

Lemma entry_enc_le v e : e ∈ entries (sch_fields sch) L v -> len (enc (p_value e.2)) <= len (entries_bytes (entries (sch_fields sch) L v)).
Proof.
  generalize (entries (sch_fields sch) L v) as es. induction es as [| x es IH]; [by intros ?%not_elem_of_nil |].
  rewrite entries_bytes_cons, len_app, len_entry_bytes. intros [-> | Hin]%elem_of_cons; [lia |]. specialize (IH Hin). lia.
Qed.

Lemma entries_sized v : record_wf sch L v ->
  Forall (fun e : entry => len (enc (p_value e.2)) <= wire_bytes (co_limits codec)) (entries (sch_fields sch) L v).
Proof.
  intros Hwf. destruct (affordable sch L codec H v Hwf) as (_ & _ & _ & Hl). rewrite (len_record_enc sch L v (re_declared _ _ _ H)) in Hl.
  apply Forall_forall. intros e He. pose proof (entry_enc_le v e He). lia.
Qed.

Lemma changes_Ok change_bytes before after access out : record_wf sch L before -> record_wf sch L after ->
  changes sch codec change_bytes before after access = Ok out ->
  (fc_field <$> out) `sublist_of` merge_sort N.le (field_ids (sch_fields sch))
  /\ (forall c, c ∈ out -> exists t, t ∈ twos (sch_fields sch) L before after
        /\ t_id t ∈ merge_sort N.le (field_ids (sch_fields sch)) /\ c = shown access t)
  /\ (forall t, t ∈ twos (sch_fields sch) L before after -> t_id t ∉ fc_field <$> out -> enc (t_before t) = enc (t_after t)).
Proof.
  intros Hb Ha. pose proof (re_declared _ _ _ H) as Hd. unfold changes.
  destruct (size_run sch L codec H before Hb) as [[-> Hcb] | [_ [e ->]]]; [| done].
  destruct (size_run sch L codec H after Ha) as [[-> Hca] | [_ [e ->]]]; [| done]. unfold run at 1.
  destruct (bind _ _ _ _) as [[[[] out'] w] |] eqn:E; [| done]. cbn [snd]. intros [= <-].
  pose proof (good_new sch L codec H) as Hg. inv_spend E. unfold diagnose in E. apply ordered_bind in E as ((_ & _ & _ & Hnd) & _ & E).
  pose proof (twos_Forall _ before after Hb Ha) as Hwf.
  pose proof (twos_Forall _ before after (entries_sized before Hb) (entries_sized after Ha)) as Hsz.
  pose proof (twos_Forall _ before after (record_conforms_writable _ _ _ Hb Hcb) (record_conforms_writable _ _ _ Ha Hca)) as Hwr.
  pose proof (twos_Forall _ before after (entries_all _ _ L before (proj2 Hd)) (entries_all _ _ L after (proj2 Hd))) as Hdec.
  rewrite Forall_forall in Hwf. rewrite Forall_forall in Hsz. rewrite Forall_forall in Hwr. rewrite Forall_forall in Hdec.
  apply (diagnose_loop _ L _ _ _ _ Hnd []) in E as (Hsub & Hin & Hq).
  - split; [done |]. split; [done |]. intros t Ht Hnot. destruct (Hwf t Ht), (Hwr t Ht). apply quiet_enc; try done. apply Hq; try done.
    cbn [app]. rewrite merge_sort_Permutation, <- (twos_ids _ L before after). apply list_elem_of_fmap. eauto.
  - exact (re_limits _ _ _ H).
  - apply Forall_forall. intros t Ht. destruct (Hwf t Ht), (Hsz t Ht), (Hdec t Ht). done.
  - split_and!; [done | by intros c ?%not_elem_of_nil | by intros t _ ?%not_elem_of_nil].
  - cbn [app]. by rewrite merge_sort_Permutation.
Qed.
End Changes.
