(* ===== verification/SchemaProps.v ===== *)
(** * Registered schemas

    The theorems a game relies on once [SchemaRegistry::register] has accepted a schema: values
    encode exactly when they conform, encodings decode, decoding is canonical, declarations are
    sealed, negotiation is exact, restores are checked and diagnostics disclose what is permitted. *)

From S2P Require Import Prelude Types Floats FloatFacts FloatBits Codec Reader Schema SchemaValues SchemaRecords SchemaRegistry SchemaLaws SchemaValueLaws SchemaSequenceLaws SchemaCompositeLaws SchemaSumLaws SchemaRecordLaws SchemaInspection SchemaRecordCodec SchemaReady SchemaDiagnostics.
Local Open Scope N_scope.
Local Open Scope engine_scope.

(** ** An example

    A record with a bounded number, a bounded float and a short list, and a serializer that does
    what [bincode] documents. *)

Section Fixint.
Context {T : Type} (width : nat) (bits : T -> N) (value : N -> option T).

Definition fixint_codec : Bincode T := {|
  bin_size limit v := if decide (N.of_nat width <= limit) then Ok (N.of_nat width) else Err "limit"%string;
  bin_serialize limit v :=
    if decide (N.of_nat width <= limit) then Ok (to_le_bytes width (bits v)) else Err "limit"%string;
  bin_deserialize limit bytes :=
    if decide (length bytes = width) then
      match value (from_le_bytes bytes) with Some v => Ok v | None => Err "value"%string end
    else Err "length"%string;
|}.

Lemma fixint_codec_ok (sc : Scalar T) (dom : T -> Prop) : sc_width sc = width ->
  (forall v, dom v -> bits v < 256 ^ N.of_nat width) ->
  (forall v, dom v -> sc_valid sc v = true -> value (bits v) = Some v) ->
  (forall n v, n < 256 ^ N.of_nat width -> value n = Some v -> dom v /\ (sc_valid sc v = true -> bits v = n)) ->
  Fixint fixint_codec sc dom bits.
Proof.
  intros Hw Hb Hv Hi. constructor; rewrite Hw.
  - done.
  - intros limit v _ Hl. cbn. by rewrite decide_True.
  - intros limit v _ Hl. cbn. by rewrite decide_True.
  - intros limit v Hd Hs Hl. cbn. rewrite decide_True by apply length_to_le_bytes. rewrite le_bytes_fit by auto. by rewrite Hv.
  - intros limit bytes v. cbn. case_decide as Hl; [| done]. destruct (value _) as [x |] eqn:E; [| done]. intros [= <-].
    destruct (Hi _ _ ltac:(rewrite <- Hl; apply from_le_bytes_bound) E) as [Hd Hbits]. split; [done |]. intros Hs. rewrite Hbits by done.
    rewrite <- Hl. by rewrite to_from_le_bytes.
Qed.
End Fixint.

Definition int_value (t : IntTy) (n : N) : option Z :=
  let z := Z.of_N n in
  Some (if int_signed t && (2 ^ (8 * Z.of_nat (int_width t) - 1) <=? z)%Z then z - 2 ^ (8 * Z.of_nat (int_width t)) else z)%Z.

Definition int_codec (t : IntTy) : Bincode Z := fixint_codec (int_width t) (int_bits t) (int_value t).

#[export] Instance int_codec_ok t : Fixint (int_codec t) (int_scalar t) (int_dom t) (int_bits t).
Proof.
  apply fixint_codec_ok; [done | | |].
  - intros v _. unfold int_bits. destruct t; cbn [int_width]; match goal with |- Z.to_N (?a mod ?b) < _ =>
      pose proof (Z.mod_pos_bound a b ltac:(lia)); set (r := (a mod b)%Z) in *; clearbody r; simpl in *; lia end.
  - intros v Hv _. unfold int_value, int_bits, int_dom, int_min, int_max in *. f_equal. rewrite Z2N.id by (apply Z.mod_pos_bound; lia).
    destruct (decide (0 <= v)%Z) as [Hpos | Hneg].
    + assert (int_signed t && (2 ^ (8 * Z.of_nat (int_width t) - 1) <=? v)%Z = false) as Hs.
      { destruct (int_signed t); [| done]. apply andb_false_iff. right. apply Z.leb_gt. lia. }
      rewrite Z.mod_small by (destruct t; simpl in *; lia). by rewrite Hs.
    + destruct (int_signed t) eqn:Hs; [| lia]. set (m := (2 ^ (8 * Z.of_nat (int_width t)))%Z) in *.
      assert (m = 2 * 2 ^ (8 * Z.of_nat (int_width t) - 1))%Z as Hm by (destruct t; simpl in *; (done || discriminate)).
      assert (v mod m = v + m)%Z as ->.
      { replace v with (v + m + (-1) * m)%Z at 1 by lia. rewrite Z_mod_plus_full. apply Z.mod_small. lia. }
      cbn [andb]. rewrite (proj2 (Z.leb_le _ (v + m))) by lia. lia.
  - intros n v Hn [= <-]. unfold int_dom, int_bits, int_min, int_max in *.
    assert (Z.of_N n < 2 ^ (8 * Z.of_nat (int_width t)))%Z as Hz by (destruct t; simpl in *; lia).
    set (m := (2 ^ (8 * Z.of_nat (int_width t)))%Z) in *.
    assert (m = 2 * 2 ^ (8 * Z.of_nat (int_width t) - 1))%Z as Hm by (destruct t; simpl in *; done).
    destruct (int_signed t); cbn [andb].
    + destruct (Z.leb_spec (2 ^ (8 * Z.of_nat (int_width t) - 1)) (Z.of_N n)); (split; [lia |]); intros _.
      * replace (Z.of_N n - m)%Z with (Z.of_N n + (-1) * m)%Z by lia. rewrite Z_mod_plus_full, Z.mod_small by lia. apply N2Z.id.
      * rewrite Z.mod_small by lia. apply N2Z.id.
    + split; [lia |]. intros _. rewrite Z.mod_small by lia. apply N2Z.id.
Qed.

Definition f32_codec : Bincode spec_float := fixint_codec 4 f32_to_bits (fun n => Some (f32_from_bits n)).

Lemma f32_bits_bound v : float_dom F32 v -> f32_to_bits v < 256 ^ 4.
Proof.
  intros Hv. destruct (is_finite v) eqn:Hf.
  - destruct (from_to_bits 24 128 31 ltac:(lia) ltac:(lia) eq_refl v Hf Hv) as [_ Hlt]. unfold f32_to_bits.
    change (256 ^ 4) with 4294967296. change (2 * 2 ^ 31)%Z with 4294967296%Z in Hlt. lia.
  - by destruct v as [| [] | |].
Qed.

#[export] Instance f32_codec_ok : Fixint f32_codec (float_scalar F32) (float_dom F32) (float_bits F32).
Proof.
  apply fixint_codec_ok; [done | apply f32_bits_bound | |].
  - intros v Hd Hv. cbn in Hv. f_equal. exact (proj1 (from_to_bits 24 128 31 ltac:(lia) ltac:(lia) eq_refl v Hv Hd)).
  - intros n v Hn [= <-]. cbn [sc_valid float_scalar float_bits]. change (256 ^ N.of_nat 4) with 4294967296 in Hn.
    assert (Z.of_N n < 2 * 2 ^ 31)%Z as Hz by (change (2 * 2 ^ 31)%Z with 4294967296%Z; lia).
    pose proof (to_from_bits 24 128 31 ltac:(lia) ltac:(lia) eq_refl n Hz) as Hbits. fold f32_from_bits f32_to_bits in Hbits.
    destruct (is_finite (f32_from_bits n)) eqn:Hf; [destruct (Hbits eq_refl); done |]. split; [| done].
    unfold float_dom. by destruct (f32_from_bits n) as [| | |].
Qed.

Definition f32_1 : spec_float := S754_finite false 8388608 (-23).
Definition example_spec (r : Range) : FieldSpec := FieldSpec_exact Unitless r Public PredictNone.

(** [2 => height: f32 = 0.0], [1 => count: u16 = 7], [3 => marks: BoundedVec<i8, 3> = []]. *)
Definition example_fields : Fields (spec_float * (Z * (list Z * unit))) :=
  let count := @integer (int_codec U16) U16 in
  let height := @float f32_codec F32 in
  let mark := @integer (int_codec I8) I8 in
  FCons (mkFieldDescriptor 2 [x68] (example_spec (Float32 (SFopp f32_1) f32_1))) height (scalar_compact (float_scalar F32) height) (S754_zero false)
    (FCons (mkFieldDescriptor 1 [x63] (example_spec (Unsigned 0 10))) count (scalar_compact (int_scalar U16) count) 7%Z
      (FCons (mkFieldDescriptor 3 [x6d] (example_spec (Signed (-5) 5)))
         (bounded_vec mark 24 3) (bounded_vec_compact mark (scalar_compact (int_scalar I8) mark) 3) []
         FNil)).

Definition example : Schema (spec_float * (Z * (list Z * unit))) := mkSchema 9 1 PublicPresentation example_fields.

Definition example_lawful : fields_lawful (sch_fields example) :=
  (((eq_refl : 2 < 65536), float_lawful F32),
   (((eq_refl : 1 < 65536), integer_lawful U16),
    (((eq_refl : 3 < 65536), bounded_vec_lawful 3 24), tt))).

(** A function of the right length in place of the hash. *)
Definition example_hash (bytes : list byte) : list byte := take 32 (rev bytes ++ repeat x00 32).

Lemma example_hash_len bytes : len (example_hash bytes) = 32.
Proof. unfold example_hash, len. rewrite length_take, length_app, repeat_length. lia. Qed.

Definition example_registry : SchemaRegistry := mkSchemaRegistry SchemaLimits_default [] ∅.
(** The world is a gate that stands open or closed; its capture counts three or seven, and a restore
    opens it for three. *)
Definition example_capture (open : bool) : spec_float * (Z * (list Z * unit)) :=
  if open then (S754_zero false, (3%Z, ([(-2)%Z], tt))) else defaults example_fields.

Definition example_hooks : Registration (spec_float * (Z * (list Z * unit))) bool :=
  mkRegistration (fun open => Ok (example_capture open)) (Some (fun _ v => Ok (Z.eqb v.2.1 3))) NoneRequired StaticOnly.

Definition example_schema : RegisteredSchema _ _ := Eval vm_compute in
  match register example_hash example_registry example example_hooks with
  | Ok (_, r) => r
  | Err _ => mkRegisteredSchema (mkSchemaCodec (mkSchemaIdentity 0 0 []) SchemaLimits_default) example_hooks
  end.

Definition example_registry' : SchemaRegistry := Eval vm_compute in
  match register example_hash example_registry example example_hooks with Ok (reg, _) => reg | Err _ => example_registry end.

Lemma example_built : built example_hash example_registry.
Proof. apply (built_new _ SchemaLimits_default). reflexivity. Qed.

Lemma example_register : register example_hash example_registry example example_hooks = Ok (example_registry', example_schema).
Proof. vm_compute. reflexivity. Qed.

(** A negative zero among the fields; [example_capture true] has the positive one. *)
Definition example_value : spec_float * (Z * (list Z * unit)) := (S754_zero true, (3%Z, ([(-2)%Z], tt))).

Lemma example_wf : record_wf example example_lawful example_value.
Proof.
  repeat constructor; cbn [entries snd p_value p_law wf]; unfold float_dom, int_dom; cbn; try done; unfold int_min, int_max; simpl; lia.
Qed.

Lemma example_capture_wf open : record_wf example example_lawful (example_capture open).
Proof.
  destruct open; repeat constructor; cbn [entries snd p_value p_law wf]; unfold float_dom, int_dom; cbn; try done; unfold int_min, int_max; simpl; lia.
Qed.

Lemma example_typed : schema_typed example.
Proof. split; reflexivity. Qed.

(** ** The theorems *)

Section Registered.
(** A registry that registrations have built, and a schema that it accepts. [blake3] gives 32
    bytes; identity and version are [u32]; the fields' types keep their contract. *)
Context (blake3 : list byte -> list byte) (blake3_length : forall x, len (blake3 x) = 32).
Context {R W : Type} (reg : SchemaRegistry) (Hbuilt : built blake3 reg).
Context (sch : Schema R) (L : fields_lawful (sch_fields sch)) (Htyped : schema_typed sch).
Context (hooks : Registration R W) (reg' : SchemaRegistry) (r : RegisteredSchema R W).
Context (Hreg : register blake3 reg sch hooks = Ok (reg', r)).
#[local] Abbreviation codec := (rs_codec r).
#[local] Abbreviation canonical := (fields_canon (sch_fields sch) L).

#[local] Lemma registered_ready : ready sch L codec.
Proof. by eapply register_ready; [| | apply (built_inv blake3) |]. Qed.

(** C18 A value of a registered schema can be encoded exactly when it conforms: registration has
    shown that no value of the type exceeds a budget, so only a scalar that is not finite or out
    of its declared range is refused, in both forms; encodings stay within the wire limit, the
    compact one is never longer, and the declared default is available. *)
Theorem registered_values_encode v :
  record_wf sch L v ->
  (is_ok (encode sch codec v) = true <-> record_conforms sch L v)
  /\ (is_ok (encode_compact sch codec v) = true <-> record_conforms sch L v)
  /\ (forall bytes, encode sch codec v = Ok bytes -> len bytes <= wire_bytes (co_limits codec))
  /\ (forall bytes compact, encode sch codec v = Ok bytes -> encode_compact sch codec v = Ok compact -> len compact <= len bytes)
  /\ (record_wf sch L (defaults (sch_fields sch)) -> default_value sch codec = Ok (canonical (defaults (sch_fields sch)))).
Proof.
  intros Hwf. pose proof registered_ready as Hr. destruct (affordable sch L codec Hr v Hwf) as (_ & _ & _ & Hl).
  pose proof (encode_Ok sch L codec Hr v) as He. pose proof (encode_compact_iff sch L codec Hr v) as Hc.
  assert (forall A (x : result SchemaError A) (P : Prop) a, (forall b, x = Ok b <-> P /\ b = a) -> is_ok x = true <-> P) as Hok.
  { intros A x P a Hx. destruct x as [b | e]; cbn; [pose proof (proj1 (Hx b) eq_refl); tauto |].
    split; [done |]. intros HP. by pose proof (proj2 (Hx a) (conj HP eq_refl)). }
  split_and!.
  - eapply Hok. intros b. by apply He.
  - eapply Hok. intros b. by apply Hc.
  - intros bytes [_ ->]%He; [| done]. rewrite len_app, (len_envelope _ _ _ Hr). lia.
  - intros bytes compact [Hcf ->]%He [_ ->]%Hc; try done. rewrite len_app.
    pose proof (record_compact_le sch L v Hwf (record_conforms_writable _ _ v Hwf Hcf)). lia.
  - intros Hdef. pose proof (default_conforms _ _ _ Hr Hdef) as Hcf. unfold default_value.
    rewrite (proj2 (encode_Ok sch L codec Hr _ _ Hdef) (conj Hcf eq_refl)). by apply decode_ok.
Qed.

(** C17 What is encoded decodes: the decoder returns the encoded value with its zeros unsigned,
    which is the value itself when no field holds floats, and encodes to the same bytes again; the
    same holds of the compact form between peers that negotiated the schema. *)
Theorem registered_codec_roundtrip v :
  record_wf sch L v ->
  (forall bytes, encode sch codec v = Ok bytes ->
     decode sch codec bytes = Ok (canonical v) /\ encode sch codec (canonical v) = Ok bytes)
  /\ (forall bytes, encode_compact sch codec v = Ok bytes -> decode_compact sch codec bytes = Ok (canonical v))
  /\ (record_exact sch L -> canonical v = v).
Proof.
  intros Hwf. pose proof registered_ready as Hr. split_and!.
  - intros bytes [Hc ->]%(encode_Ok sch L codec Hr); [| done]. split; [by apply decode_ok |].
    pose proof (record_conforms_writable sch L v Hwf Hc) as Hw. destruct (record_canon sch L v Hwf Hw) as (Hwf' & _ & He & _ & _ & Hc').
    apply (encode_Ok sch L codec Hr); [done |]. rewrite He. auto.
  - intros bytes [Hc ->]%(encode_compact_iff sch L codec Hr); [| done]. by apply decode_compact_ok.
  - intros Hx. exact (law_exact (Lawful := record_lawful sch L Htyped blake3 0) v Hx).
Qed.

(** C11 Decoding is canonical and strict: whatever bytes are accepted, the value is well formed,
    within every field's range and canonical, and it encodes to a message of the same length, in
    the same form; without floats, to exactly the bytes that were read, so no two messages mean
    the same value. *)
Theorem registered_decoding_canonical bytes v :
  (decode sch codec bytes = Ok v -> record_wf sch L v /\ record_conforms sch L v /\ canonical v = v
     /\ exists again, encode sch codec v = Ok again /\ len again = len bytes /\ (record_exact sch L -> again = bytes))
  /\ (decode_compact sch codec bytes = Ok v -> record_wf sch L v /\ record_conforms sch L v /\ canonical v = v
     /\ exists again, encode_compact sch codec v = Ok again /\ len again = len bytes /\ (record_exact sch L -> again = bytes)).
Proof.
  pose proof registered_ready as Hr. split.
  - intros (Hwf & Hc & Hcan & Hl & Hex)%(decode_inv sch L codec Hr). split_and!; try done. eexists. split; [by apply (encode_Ok sch L codec Hr) |].
    split; [done |]. intros Hx. symmetry. auto.
  - intros (Hwf & Hc & Hcan & Hl & Hex)%(decode_compact_inv sch L codec Hr). split_and!; try done. eexists. split; [by apply (encode_compact_iff sch L codec Hr) |].
    split; [done |]. intros Hx. symmetry. auto.
Qed.

(** C24 Registration seals a declaration: no field at any depth is more private than the schema's
    representation admits, and where a field is replayed by prediction the schema is not public and
    the game has provided a restore hook; dependencies were declared. *)
Theorem registration_seals_declaration n :
  n ∈ fields_nested (sch_fields sch) L ->
  visibility_u8 (visibility n) <= visibility_u8 (representation_visibility (sch_representation sch))
  /\ (prediction n = Replayed -> sch_representation sch <> PublicPresentation /\ is_Some (restore_hook hooks))
  /\ dependencies hooks <> Unspecified.
Proof.
  destruct (register_hooks blake3 reg sch L hooks reg' r Hreg) as (_ & Hall & Hdep). rewrite Forall_forall in Hall. intros Hn.
  destruct (Hall n Hn). done.
Qed.

(** Negotiation is exact: the registry's identities are sorted, distinct and within the limit,
    the new schema's is among them and none is lost, and a peer is accepted exactly when it lists
    the same identities, in any order. *)
Theorem negotiation_exact peer :
  StronglySorted N.lt (si_schema <$> sr_entries reg') /\ len (sr_entries reg') <= schemas (sr_limits reg')
  /\ co_identity codec ∈ sr_entries reg' /\ (forall e, e ∈ sr_entries reg -> e ∈ sr_entries reg')
  /\ (require_exact_match reg' peer = Ok tt <-> peer ≡ₚ sr_entries reg').
Proof.
  destruct (register_inv blake3 reg sch L hooks reg' r (built_inv blake3 reg Hbuilt) Hreg) as ([Hl Hs Hb] & _ & Hin & Hall).
  split; [done |]. split; [done |]. split; [done |]. split; [done |]. by apply require_exact_match_Ok.
Qed.

(** A restore that is accepted restores: the replacement world captures to a value with the
    same canonical form as the state that was asked for, which is that state up to signed zeros. *)
Theorem restore_recaptures world state replacement :
  (forall w v, capture_hook hooks w = Ok v -> record_wf sch L v) -> record_wf sch L state ->
  restore_replacement sch r world state = Ok replacement ->
  exists captured, capture_hook hooks replacement = Ok captured /\ canonical captured = canonical state
    /\ encode sch codec captured = encode sch codec state.
Proof.
  intros Hhook Hwf. pose proof registered_ready as Hr. destruct (register_hooks blake3 reg sch L hooks reg' r Hreg) as (Hh & _ & _).
  unfold restore_replacement. rewrite Hh. destruct (encode sch codec state) as [expected |] eqn:E1; [| done].
  destruct (ok_or (restore_hook hooks) NoRestore) as [restore |]; [| done]. destruct (restore world state) as [next |]; [| done].
  destruct (capture_hook hooks next) as [captured |] eqn:Hcap; [| done]. destruct (encode sch codec captured) as [encoded |] eqn:E2; [| done].
  case_decide as Hd; [done |]. intros [= <-]. assert (encoded = expected) as -> by (destruct (decide (encoded = expected)); done).
  exists captured. split; [done |]. split; [| congruence].
  apply (encode_Ok sch L codec Hr) in E1 as [Hc1 ->]; [| done]. apply (encode_Ok sch L codec Hr) in E2 as [Hc2 E2]; [| by eapply Hhook].
  pose proof (decode_ok sch L codec Hr state Hwf Hc1) as D1. pose proof (decode_ok sch L codec Hr captured (Hhook _ _ Hcap) Hc2) as D2. rewrite <- E2 in D2. congruence.
Qed.

(** Diagnostics tell what differs and disclose only what is permitted: changes are reported in
    the order of identities, each with the encodings of a field's two values when the caller may
    see that field and with the identity alone otherwise; a field that is not reported has the same
    canonical value, and so the same encoding, on both sides. *)
Theorem changes_reported change_bytes before after access out :
  record_wf sch L before -> record_wf sch L after -> changes sch codec change_bytes before after access = Ok out ->
  StronglySorted N.lt (fc_field <$> out)
  /\ (forall c, c ∈ out -> exists t, t ∈ twos (sch_fields sch) L before after /\ c = shown access t)
  /\ (access = FieldIdsOnly -> forall c, c ∈ out -> fc_before c = None /\ fc_after c = None)
  /\ (forall t, t ∈ twos (sch_fields sch) L before after -> t_id t ∉ fc_field <$> out -> enc (t_before t) = enc (t_after t)).
Proof.
  intros Hb Ha H. pose proof registered_ready as Hr.
  destruct (changes_Ok sch L codec Hr _ _ _ _ _ Hb Ha H) as (Hsub & Hin & Hq). split_and!.
  - eapply sublist_StronglySorted; [exact Hsub |]. apply sorted_ids_strict, (re_declared _ _ _ Hr).
  - intros c Hc. destruct (Hin c Hc) as (t & ? & _ & ->). eauto.
  - intros -> c Hc. destruct (Hin c Hc) as (t & _ & _ & ->). done.
  - exact Hq.
Qed.
End Registered.

(** ** The theorems at the example *)

Definition example_bytes : list byte := Eval vm_compute in
  match encode example (rs_codec example_schema) example_value with Ok b => b | Err _ => [] end.

Lemma registered_values_encode_witness :
  record_wf example example_lawful example_value
  /\ (is_ok (encode example (rs_codec example_schema) example_value) = true <-> record_conforms example example_lawful example_value)
  /\ record_conforms example example_lawful example_value.
Proof.
  pose proof (registered_values_encode example_hash example_hash_len example_registry example_built example example_lawful example_typed
    example_hooks example_registry' example_schema example_register example_value example_wf) as (H & _).
  split; [exact example_wf |]. split; [exact H |]. apply H. vm_compute. reflexivity.
Defined.

Lemma registered_codec_roundtrip_witness :
  decode example (rs_codec example_schema) example_bytes = Ok (example_capture true)
  /\ encode example (rs_codec example_schema) (example_capture true) = Ok example_bytes.
Proof.
  exact (proj1 (registered_codec_roundtrip example_hash example_hash_len example_registry example_built example example_lawful example_typed
    example_hooks example_registry' example_schema example_register example_value example_wf) example_bytes
    ltac:(vm_compute; reflexivity)).
Defined.

Lemma registered_decoding_canonical_witness :
  exists again, encode example (rs_codec example_schema) (example_capture true) = Ok again /\ len again = len example_bytes.
Proof.
  destruct (proj1 (registered_decoding_canonical example_hash example_hash_len example_registry example_built example example_lawful
    example_typed example_hooks example_registry' example_schema example_register example_bytes (example_capture true))
    ltac:(vm_compute; reflexivity)) as (_ & _ & _ & again & Ha & Hl & _).
  exists again. split; [exact Ha | exact Hl].
Defined.

Lemma registration_seals_declaration_witness :
  visibility_u8 Public <= visibility_u8 (representation_visibility PublicPresentation) /\ dependencies example_hooks <> Unspecified.
Proof.
  destruct (registration_seals_declaration example_hash example_registry example example_lawful example_hooks example_registry'
    example_schema example_register (example_spec (Unsigned 0 10)) ltac:(right; left)) as (Hv & _ & Hd).
  split; [exact Hv | exact Hd].
Defined.

Lemma negotiation_exact_witness :
  require_exact_match example_registry' (sr_entries example_registry') = Ok tt.
Proof.
  apply (negotiation_exact example_hash example_registry example_built example example_lawful example_hooks example_registry'
    example_schema example_register). reflexivity.
Defined.

Lemma restore_recaptures_witness :
  exists captured, capture_hook example_hooks true = Ok captured
    /\ fields_canon (sch_fields example) example_lawful captured = fields_canon (sch_fields example) example_lawful example_value.
Proof.
  destruct (restore_recaptures example_hash example_hash_len example_registry example_built example example_lawful example_typed
    example_hooks example_registry' example_schema example_register false example_value true
    ltac:(intros w v [= <-]; apply example_capture_wf) example_wf ltac:(vm_compute; reflexivity)) as (captured & Hc & He & _).
  exists captured. split; [exact Hc | exact He].
Defined.

Lemma changes_reported_witness : StronglySorted N.lt [1; 3].
Proof.
  exact (proj1 (changes_reported example_hash example_hash_len example_registry example_built example example_lawful example_typed
    example_hooks example_registry' example_schema example_register 56 example_value (example_capture false) FieldIdsOnly
    [mkFieldChange 1 None None; mkFieldChange 3 None None] example_wf (example_capture_wf false) ltac:(vm_compute; reflexivity))).
Defined.
