(* ===== verification/Text.v ===== *)
(** * Numbers as text

    The decimal and hexadecimal text that the standard library formats and parses, on the bytes of
    the text: [u64]'s [Display] and [FromStr], padding with zeros, [{:02x}] and
    [u8::from_str_radix(_, 16)]. *)

From S2P Require Import Prelude Codec.
Local Open Scope N_scope.
Local Open Scope engine_scope.

(** ** Decimal *)

Definition digit (n : N) : byte := byte_of (48 + n).
Definition digit_value (b : byte) : N := Byte.to_N b - 48.

(** [u8::is_ascii_digit]. *)
Definition is_ascii_digit (b : byte) : bool := bool_decide (48 <= Byte.to_N b <= 57).

(** The digits of a number; a [u64] has at most twenty. *)
Fixpoint decimal_from (fuel : nat) (n : N) : list byte :=
  match fuel with
  | O => []
  | S fuel => if decide (n < 10) then [digit n] else decimal_from fuel (n / 10) ++ [digit (n mod 10)]
  end.
Definition decimal (n : N) : list byte := decimal_from 20 n.

(** [text.parse::<u64>()] of digits: [None] for no digits and for an overflow. *)
Definition parse_step (acc : option N) (b : byte) : option N :=
  match acc with
  | None => None
  | Some v => match checked_mul u64_max v 10 with
              | None => None
              | Some v => checked_add u64_max v (digit_value b)
              end
  end.
Definition parse_u64 (text : list byte) : option N :=
  if decide (text = []) then None else foldl parse_step (Some 0) text.

(** [{:04}] and the like: zeros before the digits up to a width. *)
Definition padded (width : nat) (n : N) : list byte :=
  repeat x30 (width - length (decimal n)) ++ decimal n.

Lemma forallb_Forall {A} (f : A -> bool) l : forallb f l = true <-> Forall (fun x => f x = true) l.
Proof. induction l as [| x l IH]; cbn; [done |]. by rewrite andb_true_iff, Forall_cons, IH. Qed.

Lemma to_N_digit n : n < 10 -> Byte.to_N (digit n) = 48 + n.
Proof. intros Hn. unfold digit. rewrite to_N_byte_of. apply N.mod_small. lia. Qed.
Lemma digit_value_digit n : n < 10 -> digit_value (digit n) = n.
Proof. intros Hn. unfold digit_value. rewrite to_N_digit by done. lia. Qed.
Lemma digit_is_digit n : n < 10 -> is_ascii_digit (digit n) = true.
Proof. intros Hn. unfold is_ascii_digit. rewrite to_N_digit by done. apply bool_decide_eq_true. lia. Qed.
Lemma digit_of_value b : is_ascii_digit b = true -> digit (digit_value b) = b /\ digit_value b < 10.
Proof.
  unfold is_ascii_digit, digit, digit_value. rewrite bool_decide_eq_true. intros H. split; [| lia].
  rewrite <- (byte_of_to_N b) at 2. f_equal. lia.
Qed.

Lemma decimal_from_digits fuel : forall n, Forall (fun b => is_ascii_digit b = true) (decimal_from fuel n).
Proof.
  induction fuel as [| fuel IH]; intros n; cbn [decimal_from]; [constructor |]. case_decide.
  - by apply Forall_singleton, digit_is_digit.
  - apply Forall_app. split; [apply IH |]. by apply Forall_singleton, digit_is_digit, N.mod_lt.
Qed.

(** No sign and no leading zero. *)
Lemma decimal_from_head fuel : forall n, n <> 0 -> n < 10 ^ N.of_nat fuel ->
  exists b rest, decimal_from fuel n = b :: rest /\ b <> x30.
Proof.
  induction fuel as [| fuel IH]; intros n Hn Hlt; cbn [decimal_from].
  { change (10 ^ N.of_nat 0) with 1 in Hlt. lia. }
  case_decide.
  - exists (digit n), []. split; [done |]. intros E. apply (f_equal digit_value) in E. rewrite digit_value_digit in E by done.
    change (digit_value x30) with 0 in E. lia.
  - rewrite Nat2N.inj_succ, N.pow_succ_r in Hlt by lia.
    destruct (IH (n / 10)) as (b & rest & -> & Hb); [pose proof (N.div_str_pos n 10 ltac:(lia)); lia | apply N.Div0.div_lt_upper_bound; lia |].
    exists b, (rest ++ [digit (n mod 10)]). done.
Qed.

Lemma decimal_from_length fuel : forall n k, n < 10 ^ N.of_nat (S k) -> (length (decimal_from fuel n) <= S k)%nat.
Proof.
  induction fuel as [| fuel IH]; intros n k Hlt; cbn [decimal_from]; [simpl; lia |]. case_decide as Hd; [simpl; lia |].
  rewrite length_app. cbn [length]. rewrite Nat2N.inj_succ, N.pow_succ_r in Hlt by lia. destruct k as [| k].
  { change (10 ^ N.of_nat 0) with 1 in Hlt. lia. }
  specialize (IH (n / 10) k). assert (n / 10 < 10 ^ N.of_nat (S k)) by (apply N.Div0.div_lt_upper_bound; lia). specialize (IH H). lia.
Qed.

Lemma parse_step_Some v b : v * 10 + digit_value b <= u64_max -> parse_step (Some v) b = Some (v * 10 + digit_value b).
Proof.
  intros H. unfold parse_step, checked_mul. rewrite decide_True by lia. apply checked_add_Some. done.
Qed.

Lemma parse_decimal_from fuel : forall n, n <= u64_max -> n < 10 ^ N.of_nat fuel ->
  foldl parse_step (Some 0) (decimal_from fuel n) = Some n.
Proof.
  induction fuel as [| fuel IH]; intros n Hn Hlt; cbn [decimal_from].
  { change (10 ^ N.of_nat 0) with 1 in Hlt. cbn. f_equal. lia. }
  pose proof (N.div_mod n 10 ltac:(done)) as Hdiv. pose proof (N.mod_lt n 10 ltac:(done)) as Hmod. case_decide.
  - cbn [foldl]. rewrite parse_step_Some; rewrite ?digit_value_digit by done; [done | lia].
  - rewrite foldl_app, IH; [| transitivity n; [by apply N.Div0.div_le_upper_bound; lia | exact Hn] |].
    + cbn [foldl]. rewrite parse_step_Some; rewrite ?digit_value_digit by done; [f_equal; lia | lia].
    + rewrite Nat2N.inj_succ, N.pow_succ_r in Hlt by lia. apply N.Div0.div_lt_upper_bound; lia.
Qed.

Lemma u64_digits n : n <= u64_max -> n < 10 ^ N.of_nat 20.
Proof. change (10 ^ N.of_nat 20) with 100000000000000000000. unfold u64_max. lia. Qed.

Lemma parse_decimal n : n <= u64_max -> parse_u64 (decimal n) = Some n.
Proof.
  intros Hn. unfold parse_u64, decimal. rewrite decide_False.
  - apply parse_decimal_from; [done | by apply u64_digits].
  - intros E. pose proof (parse_decimal_from 20 n Hn (u64_digits n Hn)) as H. rewrite E in H. injection H as <-. discriminate.
Qed.

Lemma parse_step_inv acc b v : foldl parse_step acc [b] = Some v -> exists u, acc = Some u /\ v = u * 10 + digit_value b /\ v <= u64_max.
Proof.
  cbn. unfold parse_step. destruct acc as [u |]; [| done]. unfold checked_mul. case_decide; [| done]. intros (-> & ?)%checked_add_Some. eauto.
Qed.

Lemma foldl_parse_None l : foldl parse_step None l = None.
Proof. by induction l. Qed.

(** Digits without a leading zero are the number's own. *)
Lemma decimal_from_parse fuel : forall l n, Forall (fun b => is_ascii_digit b = true) l -> head l <> Some x30 ->
  (l <> []) -> (length l <= fuel)%nat -> foldl parse_step (Some 0) l = Some n -> l = decimal_from fuel n /\ n <> 0.
Proof.
  induction fuel as [| fuel IH]; intros l n Hd Hh Hl Hlen Hp; [destruct l; simpl in *; [done | lia] |].
  destruct l as [| b l _] using rev_ind; [done |]. rewrite foldl_app in Hp. apply parse_step_inv in Hp as (u & Hu & -> & Hb).
  apply Forall_app in Hd as [Hd Hdb]. rewrite Forall_singleton in Hdb. apply digit_of_value in Hdb as [Hdig Hlt]. cbn [decimal_from].
  destruct l as [| c l].
  - injection Hu as <-. rewrite N.mul_0_l, N.add_0_l. rewrite decide_True by done. rewrite Hdig. split; [done |].
    intros E. apply Hh. cbn. f_equal. rewrite <- Hdig, E. done.
  - rewrite length_app in Hlen. cbn [length] in Hlen.
    destruct (IH (c :: l) u) as [E Hnz]; [done | done | done | cbn [length]; lia | done |].
    rewrite decide_False by lia. rewrite <- (N.div_unique (u * 10 + digit_value b) 10 u (digit_value b)) by lia.
    rewrite <- (N.mod_unique (u * 10 + digit_value b) 10 u (digit_value b)) by lia. rewrite <- E, Hdig. split; [done | lia].
Qed.

Lemma decimal_parse l n : Forall (fun b => is_ascii_digit b = true) l -> head l <> Some x30 -> (length l <= 20)%nat ->
  parse_u64 l = Some n -> l = decimal n.
Proof. intros Hd Hh Hl. unfold parse_u64. case_decide; [done |]. intros Hp. by apply (decimal_from_parse 20). Qed.

Lemma decimal_inj a b : a <= u64_max -> b <= u64_max -> decimal a = decimal b -> a = b.
Proof. intros Ha Hb E. pose proof (parse_decimal a Ha) as H. rewrite E, parse_decimal in H by done. by injection H. Qed.

(** ** Hexadecimal *)

Definition hex_digit (n : N) : byte := byte_of (if decide (n < 10) then 48 + n else 87 + n).

(** [write!(value, "{byte:02x}")]. *)
Definition hex_byte (b : byte) : list byte := [hex_digit (Byte.to_N b / 16); hex_digit (Byte.to_N b mod 16)].

(** The value of a digit in base 16, of either case. *)
Definition hex_value (b : byte) : option N :=
  let v := Byte.to_N b in
  if decide (48 <= v <= 57) then Some (v - 48)
  else if decide (97 <= v <= 102) then Some (v - 87)
  else if decide (65 <= v <= 70) then Some (v - 55)
  else None.

(** [u8::from_str_radix(&text[..2], 16)] of two characters that are not a sign. *)
Definition from_hex (high low : byte) : option byte :=
  match hex_value high, hex_value low with
  | Some h, Some l => Some (byte_of (16 * h + l))
  | _, _ => None
  end.

(** [b.is_ascii_digit() || (b'a'..=b'f').contains(&b)]. *)
Definition is_lower_hex (b : byte) : bool := is_ascii_digit b || bool_decide (97 <= Byte.to_N b <= 102).

Lemma hex_digit_lower n : n < 16 -> is_lower_hex (hex_digit n) = true /\ hex_value (hex_digit n) = Some n.
Proof.
  intros Hn. assert (Forall (fun n => is_lower_hex (hex_digit n) = true /\ hex_value (hex_digit n) = Some n) (N.of_nat <$> seq 0 16)) as H.
  { repeat constructor. }
  rewrite Forall_forall in H. apply H. apply list_elem_of_fmap. exists (N.to_nat n). rewrite N2Nat.id. split; [done |]. apply elem_of_seq. lia.
Qed.

Lemma hex_value_lower b : is_lower_hex b = true -> exists n, hex_value b = Some n /\ n < 16 /\ b = hex_digit n.
Proof. destruct b; (discriminate || (intros _; eexists; repeat split; reflexivity)). Qed.

Lemma from_hex_byte b : from_hex (hex_digit (Byte.to_N b / 16)) (hex_digit (Byte.to_N b mod 16)) = Some b.
Proof. by destruct b. Qed.

Lemma hex_byte_from h l b : is_lower_hex h = true -> is_lower_hex l = true -> from_hex h l = Some b -> [h; l] = hex_byte b.
Proof.
  intros (m & Hm & Hm16 & ->)%hex_value_lower (n & Hn & Hn16 & ->)%hex_value_lower. unfold from_hex, hex_byte. rewrite Hm, Hn. intros [= <-].
  rewrite to_N_byte_of, (N.mod_small (16 * m + n)) by lia.
  rewrite <- (N.div_unique (16 * m + n) 16 m n), <- (N.mod_unique (16 * m + n) 16 m n) by lia. done.
Qed.
