(* ===== verification/Trace.v ===== *)
(** * Trace files

    Models [trace.rs]: diagnostic files with a byte budget, and sequences of such files. The disk
    maps paths to contents; what the operating system may refuse is an argument of each operation:
    an open that fails, a write that fails after some of its bytes. *)

From S2P Require Import Prelude Codec Text.
Local Open Scope N_scope.
Local Open Scope engine_scope.

Inductive IoError :=
| InvalidInput
| AlreadyExists
| Other
| OsError (code : N).

#[global] Instance byte_countable : Countable byte.
Proof. apply (inj_countable' Byte.to_N byte_of). apply byte_of_to_N. Defined.

Abbreviation Disk := (gmap (list byte) (list byte)).

(** [Some e]: the open fails. [Some (n, e)]: the write fails after [n] bytes. *)
Abbreviation OpenOutcome := (option IoError).
Abbreviation WriteOutcome := (option (nat * IoError)).

(** ** One file *)

Record TraceFile := mkTraceFile {
  tf_path : list byte;
  tf_limit : N;
  tf_written : N;
  tf_stopped : bool;
}.

#[export] Instance TraceFile_eta : Eta TraceFile :=
  fun t => mkTraceFile (tf_path t) (tf_limit t) (tf_written t) (tf_stopped t).

(** [TraceFile::create], with [create_new]. *)
Definition create (path : list byte) (limit : N) (refused : OpenOutcome) (d : Disk)
  : Disk * result IoError TraceFile :=
  if decide (limit < 1 \/ 64 * 1024 * 1024 < limit) then (d, Err InvalidInput)
  else match refused with
  | Some e => (d, Err e)
  | None =>
      match d !! path with
      | Some _ => (d, Err AlreadyExists)
      | None => (<[path := []]> d, Ok (mkTraceFile path limit 0 false))
      end
  end.

(** [write_all] to an open file. *)
Definition write_all (path bytes : list byte) (failed : WriteOutcome) (d : Disk) : Disk * result IoError unit :=
  let old := default [] (d !! path) in
  match failed with
  | Some (n, e) => (<[path := old ++ take n bytes]> d, Err e)
  | None => (<[path := old ++ bytes]> d, Ok tt)
  end.

(** [TraceFile::write_record]; [None] is a panic. *)
Definition write_file (t : TraceFile) (encoded : list byte) (failed : WriteOutcome) (d : Disk)
  : option (TraceFile * Disk * result IoError unit) :=
  let stop := t <| tf_stopped := true |> in
  if tf_stopped t then Some (stop, d, Err Other)
  else match checked_sub (tf_limit t) (tf_written t) with
  | None => None
  | Some room =>
      if decide (room < len encoded) then Some (stop, d, Err Other)
      else match write_all (tf_path t) encoded failed d with
      | (d, Err e) => Some (stop, d, Err e)
      | (d, Ok _) =>
          match checked_add usize_max (tf_written t) (len encoded) with
          | None => None
          | Some written => Some (t <| tf_written := written |>, d, Ok tt)
          end
      end
  end.

(** ** A sequence of files *)

Record TracePosition := mkTracePosition { sequence : N; segment : N }.

Record SegmentedTraceFile := mkSegmentedTraceFile {
  sg_path : list byte;
  sg_file : TraceFile;
  sg_segment_limit : N;
  sg_segments : N;
  sg_position : TracePosition;
  sg_written : N;
  sg_stopped : bool;
}.

#[export] Instance SegmentedTraceFile_eta : Eta SegmentedTraceFile := fun s =>
  mkSegmentedTraceFile (sg_path s) (sg_file s) (sg_segment_limit s) (sg_segments s) (sg_position s) (sg_written s) (sg_stopped s).

(** [SegmentedTraceFile::create]. *)
Definition create_segmented (path : list byte) (segment_limit segments : N) (refused : OpenOutcome) (d : Disk)
  : Disk * result IoError SegmentedTraceFile :=
  if decide (segments < 1 \/ 128 < segments) then (d, Err InvalidInput)
  else match checked_mul usize_max segment_limit segments with
  | None => (d, Err InvalidInput)
  | Some _ =>
      match create path segment_limit refused d with
      | (d, Err e) => (d, Err e)
      | (d, Ok file) =>
          (d, Ok (mkSegmentedTraceFile path file segment_limit segments (mkTracePosition 1 0) 0 false))
      end
  end.

(** The first file is [path], the later ones have [.0001] and so on after it. *)
Definition segment_path (path : list byte) (n : N) : list byte := path ++ [x2e] ++ padded 4 n.
Definition file_path (path : list byte) (n : N) : list byte := if decide (n = 0) then path else segment_path path n.

(** A record's encoder, the operating system's answers to the open and the write it may take. *)
Record Attempt := mkAttempt {
  at_encode : TracePosition -> result IoError (list byte);
  at_refused : OpenOutcome;
  at_failed : WriteOutcome;
}.

(** The file, position and bytes a record goes to: the next file when it does not fit. *)
Definition place (s : SegmentedTraceFile) (a : Attempt) (bytes : list byte) (d : Disk)
  : option (SegmentedTraceFile * Disk * result IoError (list byte)) :=
  match checked_sub (sg_segment_limit s) (tf_written (sg_file s)) with
  | None => None
  | Some room =>
      if decide (room < len bytes) then
        match checked_add u16_max (segment (sg_position s)) 1 with
        | None => None
        | Some n =>
            if decide (sg_segments s <= n) then Some (s, d, Err Other)
            else
              let position := mkTracePosition (sequence (sg_position s)) n in
              match at_encode a position with
              | Err e => Some (s, d, Err e)
              | Ok bytes =>
                  if decide (bytes = [] \/ sg_segment_limit s < len bytes) then Some (s, d, Err Other)
                  else match create (segment_path (sg_path s) n) (sg_segment_limit s) (at_refused a) d with
                  | (d, Err e) => Some (s, d, Err e)
                  | (d, Ok file) => Some (s <| sg_file := file |> <| sg_position := position |>, d, Ok bytes)
                  end
              end
        end
      else Some (s, d, Ok bytes)
  end.

(** [write_next]. *)
Definition write_next (s : SegmentedTraceFile) (a : Attempt) (d : Disk)
  : option (SegmentedTraceFile * Disk * result IoError unit) :=
  match checked_add u64_max (sequence (sg_position s)) 1 with
  | None => Some (s, d, Err Other)
  | Some next =>
      match at_encode a (sg_position s) with
      | Err e => Some (s, d, Err e)
      | Ok bytes =>
          if decide (bytes = [] \/ sg_segment_limit s < len bytes) then Some (s, d, Err Other)
          else match place s a bytes d with
          | None => None
          | Some (s, d, Err e) => Some (s, d, Err e)
          | Some (s, d, Ok bytes) =>
              match write_file (sg_file s) bytes (at_failed a) d with
              | None => None
              | Some (file, d, Err e) => Some (s <| sg_file := file |>, d, Err e)
              | Some (file, d, Ok _) =>
                  match checked_add usize_max (sg_written s) (len bytes) with
                  | None => None
                  | Some written =>
                      Some (s <| sg_file := file |> <| sg_written := written |>
                              <| sg_position := mkTracePosition next (segment (sg_position s)) |>, d, Ok tt)
                  end
              end
          end
      end
  end.

(** [SegmentedTraceFile::write_record]. *)
Definition write_record (s : SegmentedTraceFile) (a : Attempt) (d : Disk)
  : option (SegmentedTraceFile * Disk * result IoError unit) :=
  if sg_stopped s then Some (s, d, Err Other)
  else match write_next s a d with
  | None => None
  | Some (s, d, Ok _) => Some (s, d, Ok tt)
  | Some (s, d, Err e) => Some (s <| sg_stopped := true |>, d, Err e)
  end.

(** The records that were written, each with its position: what the encoder gave for it. *)
Definition recorded (s s' : SegmentedTraceFile) (a : Attempt) : list (TracePosition * list byte) :=
  let position := mkTracePosition (sequence (sg_position s)) (segment (sg_position s')) in
  match at_encode a position with Ok bytes => [(position, bytes)] | Err _ => [] end.

Fixpoint run (s : SegmentedTraceFile) (attempts : list Attempt) (d : Disk) (log : list (TracePosition * list byte))
  : option (SegmentedTraceFile * Disk * list (TracePosition * list byte)) :=
  match attempts with
  | [] => Some (s, d, log)
  | a :: attempts =>
      match write_record s a d with
      | None => None
      | Some (s', d, Ok _) => run s' attempts d (log ++ recorded s s' a)
      | Some (s', d, Err _) => run s' attempts d log
      end
  end.

(** ** Names *)

Lemma foldl_parse_zeros n : foldl parse_step (Some 0) (repeat x30 n) = Some 0.
Proof. by induction n. Qed.

Lemma parse_padded w n : n <= u64_max -> foldl parse_step (Some 0) (padded w n) = Some n.
Proof.
  intros Hn. unfold padded. rewrite foldl_app, foldl_parse_zeros. apply parse_decimal_from; [done | by apply u64_digits].
Qed.

Lemma file_path_inj path a b : a <= 128 -> b <= 128 -> file_path path a = file_path path b -> a = b.
Proof.
  intros Ha Hb E. unfold file_path, segment_path in E. assert (forall l : list byte, path <> path ++ [x2e] ++ l) as Hne.
  { intros l Hl. apply (f_equal length) in Hl. rewrite !length_app in Hl. cbn in Hl. lia. }
  repeat case_decide; try congruence.
  apply app_inv_head, app_inv_head in E. apply (f_equal (foldl parse_step (Some 0))) in E.
  rewrite !parse_padded in E by (unfold u64_max; lia). by injection E.
Qed.

(** ** What has been written *)

Definition contents (k : N) (log : list (TracePosition * list byte)) : list byte :=
  concat (snd <$> filter (fun e : TracePosition * list byte => segment e.1 = k) log).

Lemma contents_app k log log' : contents k (log ++ log') = contents k log ++ contents k log'.
Proof. unfold contents. by rewrite filter_app, fmap_app, concat_app. Qed.

Lemma contents_one k e : contents k [e] = if decide (segment e.1 = k) then e.2 else [].
Proof. unfold contents. rewrite filter_cons. case_decide; cbn; [by rewrite app_nil_r | done]. Qed.

Lemma contents_none k log : Forall (fun e : TracePosition * list byte => segment e.1 <> k) log -> contents k log = [].
Proof.
  induction 1 as [| e log He _ IH]; [done |]. change (e :: log) with ([e] ++ log).
  rewrite contents_app, contents_one, decide_False by done. done.
Qed.

(** The files of a trace over the disk [d0] it was created on: every record in the file of its
    segment, in order, after it at most the part of one that could not be written whole. *)
Record traced (path : list byte) (limit segments : N) (d0 : Disk) (s : SegmentedTraceFile) (d : Disk)
    (log : list (TracePosition * list byte)) : Prop := {
  tr_static : sg_path s = path /\ sg_segment_limit s = limit /\ sg_segments s = segments;
  tr_limits : limit <= 64 * 1024 * 1024 /\ segments <= 128;
  tr_segment : segment (sg_position s) < segments;
  tr_sequence : sequence (sg_position s) = len log + 1;
  tr_log i e : log !! i = Some e -> sequence e.1 = N.of_nat i + 1 /\ segment e.1 <= segment (sg_position s);
  tr_order i j e e' : log !! i = Some e -> log !! j = Some e' -> (i <= j)%nat -> segment e.1 <= segment e'.1;
  tr_file : tf_path (sg_file s) = file_path path (segment (sg_position s)) /\ tf_limit (sg_file s) = limit;
  tr_files k : k <= segment (sg_position s) -> exists rest, d !! file_path path k = Some (contents k log ++ rest)
    /\ len (contents k log ++ rest) <= limit /\ (sg_stopped s = false -> rest = []);
  tr_fresh k : k <= segment (sg_position s) -> d0 !! file_path path k = None;
  tr_others p : (forall k, k <= segment (sg_position s) -> p <> file_path path k) -> d !! p = d0 !! p;
  tr_open : sg_stopped s = false ->
    tf_stopped (sg_file s) = false /\ tf_written (sg_file s) = len (contents (segment (sg_position s)) log);
  tr_total : sg_written s = len (concat (snd <$> log))
    /\ sg_written s <= segment (sg_position s) * limit + len (contents (segment (sg_position s)) log);
}.

Lemma traced_create path limit segments refused d0 d s :
  create_segmented path limit segments refused d0 = (d, Ok s) -> traced path limit segments d0 s d [].
Proof.
  unfold create_segmented. case_decide; [done |]. destruct (checked_mul _ _ _); [| done]. unfold create.
  case_decide; [done |]. destruct refused; [done |]. destruct (d0 !! path) eqn:Hp; [done |]. intros [= <- <-].
  assert (forall k, k <= 0 -> file_path path k = path) as Hzero. { intros k Hk. unfold file_path. by rewrite decide_True by lia. }
  constructor; cbn; try done; try lia.
  - intros k Hk. rewrite Hzero by done. exists []. rewrite lookup_insert_eq. split; [done |]. split; [| done]. unfold len. cbn. lia.
  - intros k Hk. by rewrite Hzero.
  - intros p Hother. apply lookup_insert_ne. intros ->. apply (Hother 0); [lia |]. by rewrite Hzero.
Qed.

Section Steps.
Context (path : list byte) (limit segments : N) (d0 : Disk).
#[local] Abbreviation tr := (traced path limit segments d0).

Lemma traced_stopped s d log : tr s d log -> tr (s <| sg_stopped := true |>) d log.
Proof.
  intros [? ? ? ? ? ? ? Hf ? ? ? ?]. constructor; try done. intros k Hk. destruct (Hf k Hk) as (rest & ? & ? & _). exists rest. by split_and!.
Qed.

(** Room is found for a record, in this file or the next. *)
Lemma place_ok s d log a bytes : tr s d log -> sg_stopped s = false -> at_encode a (sg_position s) = Ok bytes ->
  bytes <> [] -> len bytes <= limit ->
  exists s' d' r, place s a bytes d = Some (s', d', r) /\ tr s' d' log /\ sg_stopped s' = false
    /\ sequence (sg_position s') = sequence (sg_position s)
    /\ match r with
       | Err _ => True
       | Ok bytes => at_encode a (sg_position s') = Ok bytes /\ bytes <> [] /\ tf_written (sg_file s') + len bytes <= limit
       end.
Proof.
  intros H Hs He Hb Hl. destruct (tr_static _ _ _ _ _ _ _ H) as (Hp & Hlim & Hseg). destruct (tr_limits _ _ _ _ _ _ _ H) as [Hm Hn].
  destruct (tr_open _ _ _ _ _ _ _ H Hs) as [_ Hw]. destruct (tr_files _ _ _ _ _ _ _ H _ (N.le_refl _)) as (rest & _ & Hfit & Hr).
  rewrite (Hr Hs), app_nil_r in Hfit. pose proof (tr_segment _ _ _ _ _ _ _ H) as Hcur. unfold place. rewrite Hlim, Hseg.
  rewrite (proj2 (checked_sub_Some limit _ _)) by (split; [lia | done]). case_decide as Hroom.
  2: { exists s, d, (Ok bytes). split_and!; try done. lia. }
  rewrite (proj2 (checked_add_Some u16_max _ 1 _)) by (split; [done | unfold u16_max; lia]).
  case_decide as Hlast; [by exists s, d, (Err Other) |]. destruct (at_encode a (mkTracePosition _ (_ + 1))) as [bytes' | e] eqn:He'; [| by exists s, d, (Err e)].
  case_decide as Hb'; [by exists s, d, (Err Other) |]. unfold create. rewrite decide_False by lia.
  destruct (at_refused a) as [e |]; [by exists s, d, (Err e) |]. rewrite Hp. set (n := segment (sg_position s) + 1) in *.
  assert (segment_path path n = file_path path n) as -> by (unfold file_path; by rewrite decide_False by lia).
  destruct (d !! file_path path n) eqn:Hfree; [by exists s, d, (Err AlreadyExists) |].
  assert (forall k, k <= segment (sg_position s) -> file_path path n <> file_path path k) as Hnew.
  { intros k Hk E. apply file_path_inj in E; lia. }
  eexists _, _, (Ok bytes'). split; [done |]. split; [| split_and!; try done; [naive_solver | cbn; lia]].
  assert (contents n log = []) as Hnone.
  { apply contents_none, Forall_lookup. intros i e Hi. apply (tr_log _ _ _ _ _ _ _ H) in Hi as [_ ?]. lia. }
  destruct H as [? ? ? ? Hlog ? ? Hf Hfr Ho ? [Ht Hle]]. constructor; cbn; try done.
  - lia.
  - intros i e Hi. destruct (Hlog i e Hi). split; [done | lia].
  - intros k Hk. destruct (decide (k = n)) as [-> |].
    + exists []. rewrite lookup_insert_eq, Hnone. split; [done |]. split; [unfold len; cbn; lia | done].
    + rewrite lookup_insert_ne by (intros E; apply file_path_inj in E; lia). apply Hf. lia.
  - intros k Hk. destruct (decide (k = n)) as [-> |]; [| apply Hfr; lia]. rewrite <- Ho by done. done.
  - intros p Hother. rewrite lookup_insert_ne by (intros <-; by apply (Hother n)). apply Ho. intros k Hk. apply Hother. lia.
  - intros _. rewrite Hnone. done.
  - split; [done |]. rewrite Hnone. unfold n. rewrite N.mul_add_distr_r. unfold len at 1. cbn. lia.
Qed.

(** A write that fails leaves a part of the record, and the trace is stopped. *)
Lemma traced_failed s d log n bytes file : tr s d log -> sg_stopped s = false ->
  tf_written (sg_file s) + len bytes <= limit -> tf_path file = tf_path (sg_file s) -> tf_limit file = limit ->
  tr (s <| sg_file := file |> <| sg_stopped := true |>)
     (<[tf_path (sg_file s) := default [] (d !! tf_path (sg_file s)) ++ take n bytes]> d) log.
Proof.
  intros H Hs Hroom Hpath Hlim. destruct (tr_file _ _ _ _ _ _ _ H) as [Hp _]. destruct (tr_open _ _ _ _ _ _ _ H Hs) as [_ Hw].
  pose proof (tr_segment _ _ _ _ _ _ _ H) as Hcur. destruct (tr_limits _ _ _ _ _ _ _ H) as [_ Hn]. rewrite Hp in *.
  destruct (tr_files _ _ _ _ _ _ _ H _ (N.le_refl _)) as (rest & Hd & Hfit & Hr). rewrite (Hr Hs), app_nil_r in *. rewrite Hd. cbn [default].
  destruct H as [? ? ? ? ? ? ? Hf ? Ho ? ?]. constructor; cbn; try done.
  - intros k Hk. destruct (decide (k = segment (sg_position s))) as [-> |].
    + exists (take n bytes). rewrite lookup_insert_eq. split; [done |]. split; [| done]. rewrite len_app.
      assert (len (take n bytes) <= len bytes) by (unfold len; rewrite length_take; lia). lia.
    + rewrite lookup_insert_ne by (intros E; apply file_path_inj in E; lia). destruct (Hf k Hk) as (rest' & ? & ? & _). by exists rest'.
  - intros p Hother. rewrite lookup_insert_ne by (intros <-; by apply (Hother (segment (sg_position s)))). by apply Ho.
Qed.

(** A write that succeeds appends the record. *)
Lemma traced_written s d log bytes : tr s d log -> sg_stopped s = false ->
  tf_written (sg_file s) + len bytes <= limit ->
  let file := (sg_file s) <| tf_written := tf_written (sg_file s) + len bytes |> in
  tr (s <| sg_file := file |> <| sg_written := sg_written s + len bytes |>
        <| sg_position := mkTracePosition (sequence (sg_position s) + 1) (segment (sg_position s)) |>)
     (<[tf_path (sg_file s) := default [] (d !! tf_path (sg_file s)) ++ bytes]> d) (log ++ [(sg_position s, bytes)]).
Proof.
  intros H Hs Hroom file. destruct (tr_file _ _ _ _ _ _ _ H) as [Hp Hlim]. destruct (tr_open _ _ _ _ _ _ _ H Hs) as [Hop Hw].
  pose proof (tr_segment _ _ _ _ _ _ _ H) as Hcur. destruct (tr_limits _ _ _ _ _ _ _ H) as [_ Hn]. rewrite Hp in *.
  destruct (tr_files _ _ _ _ _ _ _ H _ (N.le_refl _)) as (rest & Hd & Hfit & Hr). rewrite (Hr Hs), app_nil_r in *. rewrite Hd. cbn [default].
  destruct H as [? ? ? Hseq Hlog Hord ? Hf ? Ho ? [Ht Hle]]. constructor; cbn; try done.
  - rewrite len_app, Hseq. change (len [(sg_position s, bytes)]) with 1. lia.
  - intros i e Hi. apply lookup_app_Some in Hi as [Hi | [Hi Hj]]; [by apply Hlog |].
    apply list_lookup_singleton_Some in Hj as [Hj <-]. cbn. rewrite Hseq. unfold len. split; lia.
  - intros i j e e' Hi Hj Hij. apply lookup_app_Some in Hj as [Hj | [Hlen Hj]].
    { rewrite lookup_app_l in Hi by (apply lookup_lt_Some in Hj; lia). by apply (Hord i j). }
    apply list_lookup_singleton_Some in Hj as [Hj <-]. cbn.
    apply lookup_app_Some in Hi as [Hi | [_ Hi]]; [by apply Hlog in Hi as [_ ?] |]. by apply list_lookup_singleton_Some in Hi as [_ <-].
  - intros k Hk. rewrite contents_app, contents_one. cbn [fst snd]. case_decide as Hseg.
    + subst k. exists []. rewrite lookup_insert_eq, app_nil_r. split; [done |]. rewrite len_app. split; [lia | done].
    + rewrite lookup_insert_ne by (intros E; apply file_path_inj in E; lia). rewrite app_nil_r. by apply Hf.
  - intros p Hother. rewrite lookup_insert_ne by (intros <-; by apply (Hother (segment (sg_position s)))). by apply Ho.
  - intros _. split; [done |]. rewrite contents_app, contents_one, len_app. cbn [fst snd]. rewrite decide_True by done. lia.
  - rewrite contents_app, contents_one, len_app. cbn [fst snd]. rewrite decide_True by done. rewrite fmap_app, concat_app, len_app.
    cbn [fmap list_fmap concat]. rewrite app_nil_r. cbn [snd]. lia.
Qed.

Lemma trace_record_ok s d log a : tr s d log ->
  exists s' d' r, write_record s a d = Some (s', d', r)
    /\ tr s' d' (log ++ match r with Ok _ => recorded s s' a | Err _ => [] end)
    /\ match r with Ok _ => True | Err _ => sg_stopped s' = true end.
Proof.
  intros H. unfold write_record. destruct (sg_stopped s) eqn:Hs; [exists s, d, (Err Other); by rewrite app_nil_r |].
  assert (forall e, exists s' d' r, Some (s <| sg_stopped := true |>, d, @Err IoError unit e) = Some (s', d', r)
    /\ tr s' d' (log ++ match r with Ok _ => recorded s s' a | Err _ => [] end) /\ match r with Ok _ => True | Err _ => sg_stopped s' = true end) as Hfail.
  { intros e. eexists _, _, (Err e). split; [done |]. rewrite app_nil_r. split; [by apply traced_stopped | done]. }
  destruct (tr_static _ _ _ _ _ _ _ H) as (_ & Hlim & _). unfold write_next.
  destruct (checked_add u64_max _ 1) as [next |] eqn:Hnext; [| apply Hfail]. apply checked_add_Some in Hnext as [-> _].
  destruct (at_encode a (sg_position s)) as [bytes | e] eqn:He; [| apply Hfail]. case_decide as Hb; [apply Hfail |].
  destruct (place_ok s d log a bytes H Hs He) as (s1 & d1 & r & -> & H1 & Hs1 & Hseq & Hr); [naive_solver | rewrite <- Hlim; lia |].
  destruct r as [bytes1 | e].
  2: { eexists _, _, (Err e). split; [done |]. rewrite app_nil_r. split; [by apply traced_stopped | done]. }
  destruct Hr as (He1 & _ & Hroom). destruct (tr_file _ _ _ _ _ _ _ H1) as [_ Hl1]. destruct (tr_open _ _ _ _ _ _ _ H1 Hs1) as [Hop _].
  destruct (tr_limits _ _ _ _ _ _ _ H1) as [Hm Hn]. pose proof (tr_segment _ _ _ _ _ _ _ H1) as Hcur.
  destruct (tr_total _ _ _ _ _ _ _ H1) as [_ Htot]. destruct (tr_open _ _ _ _ _ _ _ H1 Hs1) as [_ Hw].
  unfold write_file. rewrite Hop, Hl1, (proj2 (checked_sub_Some limit _ _)) by (split; [lia | done]). rewrite decide_False by lia. unfold write_all.
  destruct (at_failed a) as [[n e] |].
  { eexists _, _, (Err e). split; [done |]. rewrite app_nil_r. split; [by apply (traced_failed s1 d1 log n bytes1) | done]. }
  rewrite (proj2 (checked_add_Some usize_max _ _ _)) by (split; [done | unfold usize_max, u64_max; lia]).
  rewrite (proj2 (checked_add_Some usize_max (sg_written s1) _ _)) by (split; [done | unfold usize_max, u64_max; nia]).
  eexists _, _, (Ok tt). split; [done |]. split; [| done]. unfold recorded. rewrite <- Hseq.
  pose proof (traced_written s1 d1 log bytes1 H1 Hs1 Hroom) as Hdone. cbn zeta in Hdone.
  destruct (sg_position s1) as [q k] eqn:Hpos. cbn in *. rewrite He1. done.
Qed.

Lemma run_ok attempts : forall s d log, tr s d log -> exists s' d' log', run s attempts d log = Some (s', d', log') /\ tr s' d' log'.
Proof.
  induction attempts as [| a attempts IH]; intros s d log H; cbn [run]; [eauto |].
  destruct (trace_record_ok s d log a H) as (s1 & d1 & r & -> & H1 & _). destruct r; [by apply IH |]. rewrite app_nil_r in H1. by apply IH.
Qed.
End Steps.

Lemma run_stopped attempts s d log : sg_stopped s = true -> run s attempts d log = Some (s, d, log).
Proof. intros Hs. induction attempts as [| a attempts IH]; [done |]. cbn [run]. unfold write_record. by rewrite Hs. Qed.

(** C31 A segmented trace keeps what it was given and touches nothing else. Whatever the encoders
    return and the operating system refuses, it never panics; the records that were written are
    numbered without gaps, in files that follow each other; each file holds its records whole and in
    order, within its budget, and at most the last one ends in a part of a record, after which the
    trace is stopped and never writes again; every file is new, and no other file is changed. *)
Theorem trace_files_exact path limit segments refused d0 d s attempts :
  create_segmented path limit segments refused d0 = (d, Ok s) ->
  exists s' d' log, run s attempts d [] = Some (s', d', log)
  /\ (forall i e, log !! i = Some e -> sequence e.1 = N.of_nat i + 1 /\ segment e.1 <= segment (sg_position s'))
  /\ (forall i j e e', log !! i = Some e -> log !! j = Some e' -> (i <= j)%nat -> segment e.1 <= segment e'.1)
  /\ segment (sg_position s') < segments
  /\ (forall k, k <= segment (sg_position s') -> d0 !! file_path path k = None
        /\ exists rest, d' !! file_path path k = Some (contents k log ++ rest) /\ len (contents k log ++ rest) <= limit
           /\ (sg_stopped s' = false -> rest = []))
  /\ (forall p, (forall k, k <= segment (sg_position s') -> p <> file_path path k) -> d' !! p = d0 !! p)
  /\ sg_written s' = len (concat (snd <$> log)) /\ sg_written s' <= segments * limit
  /\ (sg_stopped s' = true -> forall more, run s' more d' log = Some (s', d', log)).
Proof.
  intros H%traced_create. destruct (run_ok path limit segments d0 attempts s d [] H) as (s' & d' & log & Hrun & H').
  exists s', d', log. destruct H' as [? ? Hcur ? Hlog Hord ? Hf Hfr Ho ? [Ht Hle]]. split; [done |]. split; [done |]. split; [done |].
  split; [done |]. split; [| split; [done |]].
  - intros k Hk. split; [by apply Hfr | by apply Hf].
  - split; [done |]. split; [| intros Hs more; by apply run_stopped].
    destruct (Hf _ (N.le_refl _)) as (rest & _ & Hfit & _). rewrite len_app in Hfit. nia.
Qed.

(** Three records of three bytes in two files of four, and the third attempt's write failing. *)
Definition example_attempt (failed : WriteOutcome) : Attempt :=
  mkAttempt (fun p => Ok [x7b; digit (sequence p); x7d]) None failed.

Definition example_trace : SegmentedTraceFile :=
  mkSegmentedTraceFile [x74] (mkTraceFile [x74] 4 0 false) 4 2 (mkTracePosition 1 0) 0 false.
Definition example_disk : Disk := {[ [x74] := [] ]}.

Lemma example_created : create_segmented [x74] 4 2 None ∅ = (example_disk, Ok example_trace).
Proof. vm_compute. reflexivity. Qed.

Lemma trace_files_exact_witness :
  exists s' d', run example_trace
      [example_attempt None; example_attempt (Some (2%nat, OsError 28)); example_attempt None] example_disk []
    = Some (s', d', [(mkTracePosition 1 0, [x7b; x31; x7d])]).
Proof.
  destruct (trace_files_exact [x74] 4 2 None ∅ example_disk example_trace
    [example_attempt None; example_attempt (Some (2%nat, OsError 28)); example_attempt None] example_created)
    as (s' & d' & log & Hrun & _).
  exists s', d'. rewrite Hrun. do 2 f_equal. assert (snd <$> Some (s', d', log) = Some [(mkTracePosition 1 0, [x7b; x31; x7d])]) as [= ->]; [| done].
  rewrite <- Hrun. vm_compute. reflexivity.
Defined.
