(* ===== verification/Player.v ===== *)
(** * Player identities and credentials

    Models [player.rs] of the Dreamwake protocol: player identities, and the text in which a client
    keeps its identity with the secret that proves it. Text is its bytes. *)

From S2P Require Import Prelude Codec Text.
Local Open Scope N_scope.
Local Open Scope engine_scope.

(** ** Identities *)

(** The session of the game ([lib.rs] of the protocol). *)
Definition PROTOCOL_ID : N := 0x44524541_4d000018.
Definition SESSION_SERVICE : string := "dreamwake".
Definition SESSION_MATCH : string := "default".

Inductive InvalidPlayerId := mkInvalidPlayerId.

(** [i64::MAX as u64]. *)
Definition PlayerId_MAX : N := 9223372036854775807.

Definition PlayerId_new (value : N) : result InvalidPlayerId N :=
  if decide (value = 0 \/ PlayerId_MAX < value) then Err mkInvalidPlayerId else Ok value.

(** [FromStr for PlayerId]. *)
Definition PlayerId_from_str (text : list byte) : result InvalidPlayerId N :=
  if decide (text = [] \/ (19 < length text)%nat \/ head text = Some x30) then Err mkInvalidPlayerId
  else if negb (forallb is_ascii_digit text) then Err mkInvalidPlayerId
  else match parse_u64 text with
  | None => Err mkInvalidPlayerId
  | Some v => PlayerId_new v
  end.

(** ** Credentials *)

Record PlayerCredential := mkPlayerCredential { pc_player : N; pc_secret : list byte }.

Inductive InvalidPlayerCredential := mkInvalidPlayerCredential.

Definition PlayerCredential_new (player : N) (secret : list byte) : result InvalidPlayerCredential PlayerCredential :=
  if decide (secret = repeat x00 32) then Err mkInvalidPlayerCredential else Ok (mkPlayerCredential player secret).

(** ["dw-player-v1:"]. *)
Definition CREDENTIAL_PREFIX : list byte := Eval compute in String.list_byte_of_string "dw-player-v1:".

Definition credential_encode (c : PlayerCredential) : list byte :=
  CREDENTIAL_PREFIX ++ decimal (pc_player c) ++ [x3a] ++ concat (hex_byte <$> pc_secret c).

(** [str::strip_prefix] and [str::split_once(':')]. *)
Definition strip_prefix (prefix text : list byte) : option (list byte) :=
  if decide (take (length prefix) text = prefix) then Some (drop (length prefix) text) else None.

Fixpoint split_once (at_byte : byte) (text : list byte) : option (list byte * list byte) :=
  match text with
  | [] => None
  | b :: text =>
      if decide (b = at_byte) then Some ([], text)
      else match split_once at_byte text with
           | Some (before, after) => Some (b :: before, after)
           | None => None
           end
  end.

(** The loop over the pairs of digits. *)
Fixpoint unhex (text : list byte) : option (list byte) :=
  match text with
  | [] => Some []
  | high :: low :: text =>
      match from_hex high low, unhex text with
      | Some b, Some bytes => Some (b :: bytes)
      | _, _ => None
      end
  | [_] => None
  end.

Definition credential_parse (text : list byte) : result InvalidPlayerCredential PlayerCredential :=
  let invalid := mkInvalidPlayerCredential in
  if decide (97 < length text)%nat then Err invalid
  else
    let? value := ok_or (strip_prefix CREDENTIAL_PREFIX text) invalid in
    let? parts := ok_or (split_once x3a value) invalid in
    match PlayerId_from_str parts.1 with
    | Err _ => Err invalid
    | Ok player =>
        if decide (length parts.2 <> 64%nat) then Err invalid
        else if negb (forallb is_lower_hex parts.2) then Err invalid
        else
          let? bytes := ok_or (unhex parts.2) invalid in
          PlayerCredential_new player bytes
    end.

(** ** Facts *)

Lemma PlayerId_new_Ok v id : PlayerId_new v = Ok id <-> id = v /\ v <> 0 /\ v <= PlayerId_MAX.
Proof. unfold PlayerId_new. case_decide; (split; [intros [= <-] || done |]); (lia || intros (-> & ? & ?); (done || lia)). Qed.

Lemma PlayerId_text id : id <> 0 -> id <= PlayerId_MAX -> PlayerId_from_str (decimal id) = Ok id.
Proof.
  intros Hz Hm. assert (id <= u64_max) as Hu by (unfold u64_max, PlayerId_MAX in *; lia). unfold PlayerId_from_str.
  destruct (decimal_from_head 20 id Hz (u64_digits id Hu)) as (b & rest & E & Hb).
  pose proof (decimal_from_length 20 id 18) as Hlen. rewrite decide_False.
  - rewrite (proj2 (forallb_Forall _ _)) by apply decimal_from_digits. cbn [negb].
    rewrite parse_decimal by done. by apply PlayerId_new_Ok.
  - unfold decimal. rewrite E in *. intros [? | [Hl | [= ->]]]; [done | | done].
    assert (id < 10 ^ N.of_nat 19) by (change (10 ^ N.of_nat 19) with 10000000000000000000; unfold PlayerId_MAX in *; lia). specialize (Hlen H). lia.
Qed.

Lemma PlayerId_from_str_Ok text id : PlayerId_from_str text = Ok id -> text = decimal id /\ id <> 0 /\ id <= PlayerId_MAX.
Proof.
  unfold PlayerId_from_str. case_decide as Hc; [done |]. destruct (forallb _ _) eqn:Hd; [| done]. cbn [negb].
  destruct (parse_u64 text) as [v |] eqn:Hp; [| done]. intros (-> & Hz & Hm)%PlayerId_new_Ok. split; [| done].
  apply forallb_Forall in Hd. apply decimal_parse; try done; [naive_solver | lia].
Qed.

Lemma strip_prefix_app prefix text : strip_prefix prefix (prefix ++ text) = Some text.
Proof. unfold strip_prefix. rewrite take_app_length, decide_True by done. by rewrite drop_app_length. Qed.

Lemma strip_prefix_Some prefix text rest : strip_prefix prefix text = Some rest -> text = prefix ++ rest.
Proof. unfold strip_prefix. case_decide as E; [| done]. intros [= <-]. rewrite <- E at 1. by rewrite take_drop. Qed.

Lemma split_once_app b before after : b ∉ before -> split_once b (before ++ b :: after) = Some (before, after).
Proof.
  induction before as [| c before IH]; intros Hb; cbn [app split_once]; [by rewrite decide_True |].
  rewrite decide_False by (intros ->; apply Hb; by left). rewrite IH; [done |]. intros Hin. apply Hb. by right.
Qed.

Lemma split_once_Some b text : forall before after, split_once b text = Some (before, after) -> text = before ++ b :: after.
Proof.
  induction text as [| c text IH]; intros before after; cbn [split_once]; [done |]. case_decide as Hc; [by intros [= <- <-]; subst |].
  destruct (split_once b text) as [[x y] |] eqn:E; [| done]. intros [= <- <-]. cbn. f_equal. by apply IH.
Qed.

Lemma unhex_hex bytes : unhex (concat (hex_byte <$> bytes)) = Some bytes.
Proof.
  induction bytes as [| b bytes IH]; [done |]. rewrite fmap_cons. unfold hex_byte at 1. cbn [concat app unhex].
  by rewrite from_hex_byte, IH.
Qed.

Lemma hex_unhex n : forall text bytes, (length text <= n)%nat -> Forall (fun b => is_lower_hex b = true) text -> unhex text = Some bytes ->
  text = concat (hex_byte <$> bytes).
Proof.
  induction n as [| n IH]; intros [| h [| l text]] bytes Hn Hd; cbn [unhex length] in *; try (done || lia); try (intros [= <-]; done).
  apply Forall_cons in Hd as [Hh Hd]. apply Forall_cons in Hd as [Hl Hd]. destruct (from_hex h l) as [b |] eqn:Hb; [| done].
  destruct (unhex text) as [bs |] eqn:E; [| done]. intros [= <-]. rewrite fmap_cons. cbn [concat]. rewrite <- (IH text bs) by (done || lia).
  by rewrite <- (hex_byte_from h l b).
Qed.

Lemma length_hex bytes : length (concat (hex_byte <$> bytes)) = (2 * length bytes)%nat.
Proof. induction bytes as [| b bytes IH]; [done |]. rewrite fmap_cons. cbn [concat]. rewrite length_app, IH. cbn. lia. Qed.

Lemma hex_lower bytes : Forall (fun b => is_lower_hex b = true) (concat (hex_byte <$> bytes)).
Proof.
  induction bytes as [| b bytes IH]; [constructor |]. rewrite fmap_cons. cbn [concat]. apply Forall_app. split; [| done].
  pose proof (Byte.to_N_bounded b). repeat constructor; apply hex_digit_lower; [apply N.Div0.div_lt_upper_bound; lia | by apply N.mod_lt].
Qed.

Lemma colon_not_in_decimal n : x3a ∉ decimal n.
Proof. intros Hin. pose proof (decimal_from_digits 20 n) as H. rewrite Forall_forall in H. specialize (H _ Hin). done. Qed.

(** A credential: an identity in range, and 32 bytes that are not all zero. *)
Definition credential_valid (c : PlayerCredential) : Prop :=
  pc_player c <> 0 /\ pc_player c <= PlayerId_MAX /\ length (pc_secret c) = 32%nat /\ pc_secret c <> repeat x00 32.

(** A credential has one text: a text is accepted exactly when it is the encoding of the
    credential that is returned, whose identity is in range and whose secret is not zero. *)
Theorem credential_text_exact text c :
  credential_parse text = Ok c <-> text = credential_encode c /\ credential_valid c.
Proof.
  unfold credential_parse, credential_encode, credential_valid. split.
  - case_decide; [done |]. destruct (strip_prefix _ text) as [value |] eqn:Hs; [| done]. cbn [ok_or].
    destruct (split_once x3a value) as [[who secret] |] eqn:Hw; [| done]. cbn [ok_or fst snd].
    destruct (PlayerId_from_str who) as [id |] eqn:Hid; [| done]. case_decide as Hlen; [done |]. destruct (forallb _ _) eqn:Hd; [| done].
    cbn [negb]. destruct (unhex secret) as [bytes |] eqn:Hu; [| done]. cbn [ok_or]. unfold PlayerCredential_new. case_decide as Hz; [done |].
    intros [= <-]. cbn [pc_player pc_secret]. apply strip_prefix_Some in Hs as ->. apply split_once_Some in Hw as ->.
    apply PlayerId_from_str_Ok in Hid as (-> & Hnz & Hm). apply forallb_Forall in Hd. apply (hex_unhex 64) in Hu as ->; [| lia | done].
    rewrite length_hex in Hlen. split_and!; try done. lia.
  - intros (-> & Hz & Hm & Hl & Hs). pose proof (decimal_from_length 20 (pc_player c) 18) as Hdec.
    assert (length (decimal (pc_player c)) <= 19)%nat as Hlen.
    { apply Hdec. change (10 ^ N.of_nat 19) with 10000000000000000000. unfold PlayerId_MAX in *. lia. }
    rewrite decide_False by (rewrite !length_app, length_hex; cbn [length CREDENTIAL_PREFIX]; lia).
    rewrite strip_prefix_app. cbn [ok_or]. cbn [app]. rewrite split_once_app by apply colon_not_in_decimal. cbn [ok_or fst snd].
    rewrite PlayerId_text by done. rewrite decide_False by (rewrite length_hex; lia).
    rewrite (proj2 (forallb_Forall _ _) (hex_lower _)). cbn [negb]. rewrite unhex_hex. cbn [ok_or]. unfold PlayerCredential_new.
    rewrite decide_False by done. by destruct c.
Qed.
