(* ===== verification/Admission.v ===== *)
(** * Guest admission

    Models [admission.rs] of the Dreamwake server: the first profile to claim a player identity owns
    it, by the hash of its secret, and the claims are kept in a file that is replaced atomically. The
    file is an optional content; whether it can be replaced is the operating system's answer, an
    argument. A server can crash at any time, also between the replacement of the file and its
    answer. [blake3], the transport's own check of a request and its random keys are parameters. *)

From S2P Require Import Prelude Codec Text Player.
Local Open Scope N_scope.
Local Open Scope engine_scope.

Definition MAX_IDENTITIES : N := 4096.

(** [b"DWIDS001"] and [b"DWID1"]. *)
Definition STORE_MAGIC : list byte := Eval compute in String.list_byte_of_string "DWIDS001".
Definition GRANT_MAGIC : list byte := Eval compute in String.list_byte_of_string "DWID1".

Definition to_be_bytes (n : nat) (v : N) : list byte := rev (to_le_bytes n v).
Definition from_be_bytes (bytes : list byte) : N := from_le_bytes (rev bytes).

(** Of the transport's errors and records, the constructors and fields that [admission.rs] uses;
    [Refused] stands for whatever else the transport's check of a request answers. *)
Inductive BootstrapAuthError :=
| Message (message : string)
| InvalidRequest
| InvalidGrant
| Refused (code : N).

Record SessionCreateRequest := mkSessionCreateRequest {
  rq_protocol_id : option N;
  rq_service : string;
  rq_match_id : string;
  rq_require_secure : bool;
  rq_credential : list byte;
}.

Record SessionGrant := mkSessionGrant {
  gr_protocol_id : N;
  gr_service : string;
  gr_match_id : string;
  gr_expires_at : N;
  gr_replay_key : list byte;
  gr_application : list byte;
}.

(** ** The stored registry *)

Abbreviation Identities := (gmap N (list byte)).

(** Iteration of a [BTreeMap]. *)
Definition entry_le (a b : N * list byte) : Prop := a.1 <= b.1.
#[global] Instance entry_le_dec : RelDecision entry_le.
Proof. intros a b. unfold entry_le. apply _. Defined.
Definition entries (m : Identities) : list (N * list byte) := merge_sort entry_le (map_to_list m).

Definition encode_entry (e : N * list byte) : list byte := to_be_bytes 8 e.1 ++ e.2.

(** The bytes that [persist] writes. *)
Definition encode_store (m : Identities) : list byte :=
  STORE_MAGIC ++ to_be_bytes 4 (len (entries m)) ++ concat (encode_entry <$> entries m).

(** The loop over [chunks_exact(40)]. *)
Fixpoint decode_entries (count : nat) (bytes : list byte) (m : Identities) : option Identities :=
  match count with
  | O => Some m
  | S count =>
      let id := from_be_bytes (take 8 bytes) in
      if negb (is_ok (PlayerId_new id)) then None
      else match m !! id with
      | Some _ => None
      | None => decode_entries count (drop 40 bytes) (<[id := take 32 (drop 8 bytes)]> m)
      end
  end.

Definition decode_store (bytes : list byte) : option Identities :=
  if decide (len bytes < 12 \/ take 8 bytes <> STORE_MAGIC) then None
  else
    let count := from_be_bytes (take 4 (drop 8 bytes)) in
    if decide (MAX_IDENTITIES < count \/ len bytes <> 12 + count * 40) then None
    else decode_entries (N.to_nat count) (drop 12 bytes) ∅.

(** ** The server *)

Record GuestAdmission := mkGuestAdmission { identities : Identities; path : bool }.

(** [GuestAdmission::open]: the file there is, read up to one byte more than the largest; another
    process may hold its lock. *)
Definition open (locked : bool) (store : option (list byte)) : option GuestAdmission :=
  if locked then None
  else match store with
  | None => Some (mkGuestAdmission ∅ true)
  | Some bytes =>
      match decode_store (take (N.to_nat (12 + MAX_IDENTITIES * 40 + 1)) bytes) with
      | Some m => Some (mkGuestAdmission m true)
      | None => None
      end
  end.

(** A server that runs, or none, and the file. *)
Abbreviation site := (option GuestAdmission * option (list byte))%type.

Section Admission.
Context (blake3 : list byte -> list byte).
Context (request_validate : SessionCreateRequest -> result BootstrapAuthError unit).

(** [persisted]: whether the file was replaced, that is whether [fs::rename] succeeded. A directory whose
    metadata cannot be synced afterwards is ignored by [persist], so the crashes below are those of the process: the
    replacement is not lost. The lock is poisoned only by a panic while it is held, and nothing panics there. *)
Definition verify_or_register (a : GuestAdmission) (store : option (list byte)) (credential : PlayerCredential)
    (persisted : bool) : GuestAdmission * option (list byte) * result BootstrapAuthError unit :=
  let id := pc_player credential in
  let digest := blake3 (pc_secret credential) in
  match identities a !! id with
  | Some existing =>
      if decide (existing = digest) then (a, store, Ok tt)
      else (a, store, Err (Message "Player ID belongs to another saved profile."))
  | None =>
      if decide (MAX_IDENTITIES <= N.of_nat (size (identities a)))
      then (a, store, Err (Message "Player identity registry is full."))
      else
        let next := <[id := digest]> (identities a) in
        if path a then
          if persisted then (mkGuestAdmission next true, Some (encode_store next), Ok tt)
          else (a, store, Err (Message "Player identity store is unavailable."))
        else (mkGuestAdmission next false, store, Ok tt)
  end.

Definition admit_session (a : GuestAdmission) (store : option (list byte)) (request : SessionCreateRequest) (now_secs : N)
    (replay_key : list byte) (persisted : bool)
  : GuestAdmission * option (list byte) * result BootstrapAuthError SessionGrant :=
  match request_validate request with
  | Err e => (a, store, Err e)
  | Ok _ =>
      if decide (rq_protocol_id request <> Some PROTOCOL_ID \/ rq_service request <> SESSION_SERVICE
                 \/ rq_match_id request <> SESSION_MATCH \/ rq_require_secure request = false)
      then (a, store, Err InvalidRequest)
      else match credential_parse (rq_credential request) with
      | Err _ => (a, store, Err InvalidRequest)
      | Ok credential =>
          match checked_add u64_max now_secs 60 with
          | None => (a, store, Err InvalidGrant)
          | Some expires_at =>
              match verify_or_register a store credential persisted with
              | (a, store, Err e) => (a, store, Err e)
              | (a, store, Ok _) =>
                  (a, store, Ok (mkSessionGrant PROTOCOL_ID SESSION_SERVICE SESSION_MATCH expires_at replay_key
                                   (GRANT_MAGIC ++ to_be_bytes 8 (pc_player credential))))
              end
          end
      end
  end.

(** The player a grant was made for. *)
Definition grant_player (grant : SessionGrant) : option N :=
  if decide (gr_protocol_id grant <> PROTOCOL_ID \/ gr_service grant <> SESSION_SERVICE
             \/ gr_match_id grant <> SESSION_MATCH \/ length (gr_application grant) <> 13%nat
             \/ take 5 (gr_application grant) <> GRANT_MAGIC)
  then None
  else match PlayerId_new (from_be_bytes (drop 5 (gr_application grant))) with
       | Ok id => Some id
       | Err _ => None
       end.

(** ** Servers that come and go *)

Inductive event :=
| Opened
| Answered (request : SessionCreateRequest) (answer : result BootstrapAuthError SessionGrant)
| Crashed.

Inductive step : site -> event -> site -> Prop :=
| step_open store a : open false store = Some a -> step (None, store) Opened (Some a, store)
| step_admit a store request now key persisted a' store' answer :
    admit_session a store request now key persisted = (a', store', answer) ->
    step (Some a, store) (Answered request answer) (Some a', store')
| step_crash a store : step (Some a, store) Crashed (None, store)
| step_crash_admitting a store request now key persisted a' store' answer :
    admit_session a store request now key persisted = (a', store', answer) ->
    step (Some a, store) Crashed (None, store').

Inductive steps : site -> list event -> site -> Prop :=
| steps_nil s : steps s [] s
| steps_cons s e s' es s'' : step s e s' -> steps s' es s'' -> steps s (e :: es) s''.
End Admission.

(** ** The store round-trips *)

Lemma length_to_be_bytes n v : length (to_be_bytes n v) = n.
Proof. unfold to_be_bytes. by rewrite length_rev, length_to_le_bytes. Qed.

Lemma from_to_be_bytes n v : v < 256 ^ N.of_nat n -> from_be_bytes (to_be_bytes n v) = v.
Proof. intros Hv. unfold from_be_bytes, to_be_bytes. rewrite rev_involutive. by apply le_bytes_fit. Qed.

Definition entry_valid (e : N * list byte) : Prop := e.1 <> 0 /\ e.1 <= PlayerId_MAX /\ length e.2 = 32%nat.

Lemma player_bytes id : id <= PlayerId_MAX -> id < 256 ^ N.of_nat 8.
Proof. change (256 ^ N.of_nat 8) with 18446744073709551616. unfold PlayerId_MAX. lia. Qed.

Lemma length_encode_entry e : entry_valid e -> length (encode_entry e) = 40%nat.
Proof. intros (_ & _ & H). unfold encode_entry. rewrite length_app, length_to_be_bytes, H. done. Qed.

Lemma decode_entry e rest : entry_valid e ->
  from_be_bytes (take 8 (encode_entry e ++ rest)) = e.1 /\ take 32 (drop 8 (encode_entry e ++ rest)) = e.2
  /\ drop 40 (encode_entry e ++ rest) = rest.
Proof.
  intros He. pose proof (length_encode_entry e He) as Hlen. destruct He as (Hz & Hm & Hl). split_and!.
  - unfold encode_entry. rewrite <- app_assoc, take_app_le by (rewrite length_to_be_bytes; lia).
    rewrite take_ge by (rewrite length_to_be_bytes; lia). by apply from_to_be_bytes, player_bytes.
  - unfold encode_entry. rewrite <- app_assoc, drop_app_length' by (by rewrite length_to_be_bytes). by rewrite take_app_length'.
  - by rewrite drop_app_length'.
Qed.

Lemma decode_entries_ok l : forall m : Identities, NoDup l.*1 -> Forall entry_valid l -> (forall e, e ∈ l -> m !! e.1 = None) ->
  exists m', decode_entries (length l) (concat (encode_entry <$> l)) m = Some m'
    /\ forall id d, m' !! id = Some d <-> (id, d) ∈ l \/ m !! id = Some d.
Proof.
  induction l as [| e l IH]; intros m Hnd Hv Hm.
  { exists m. split; [done |]. intros id d. split; [by right | by intros [?%not_elem_of_nil |]]. }
  apply Forall_cons in Hv as [He Hv]. rewrite fmap_cons in Hnd. apply NoDup_cons in Hnd as [Hnew Hnd]. cbn [length decode_entries].
  rewrite fmap_cons. cbn [concat]. destruct (decode_entry e (concat (encode_entry <$> l)) He) as (-> & -> & ->).
  rewrite (proj2 (PlayerId_new_Ok e.1 e.1)) by (by destruct He as (? & ? & _)). cbn [is_ok negb]. rewrite (Hm e) by (by left).
  destruct (IH (<[e.1 := e.2]> m) Hnd Hv) as (m' & -> & Hm').
  { intros e' Hin. assert (e.1 <> e'.1) as Hne. { intros E. apply Hnew. rewrite E. by apply list_elem_of_fmap_2. }
    rewrite lookup_insert_ne by done. apply Hm. by right. }
  exists m'. split; [done |]. intros id d. rewrite Hm', elem_of_cons, lookup_insert_Some. destruct e as [k v]. cbn. split.
  - intros [? | [[-> ->] | [? ?]]]; auto.
  - intros [[[= -> ->] | ?] | Hd]; auto. destruct (decide (k = id)) as [-> |]; [| auto].
    pose proof (Hm (id, v) ltac:(by left)) as Hnone. cbn in Hnone. congruence.
Qed.

(** What the registry holds at any time. *)
Definition registry_wf (m : Identities) : Prop :=
  N.of_nat (size m) <= MAX_IDENTITIES /\ forall id d, m !! id = Some d -> entry_valid (id, d).

Lemma entries_perm m : entries m ≡ₚ map_to_list m.
Proof. apply merge_sort_Permutation. Qed.

Lemma store_roundtrip m : registry_wf m -> decode_store (encode_store m) = Some m /\ len (encode_store m) <= 12 + MAX_IDENTITIES * 40.
Proof.
  intros [Hsize Hv]. assert (length (entries m) = size m) as Hlen by (by rewrite entries_perm, length_map_to_list).
  assert (Forall entry_valid (entries m)) as Hall.
  { rewrite entries_perm. apply Forall_forall. intros [id d] Hd%elem_of_map_to_list. by apply Hv. }
  assert (length (concat (encode_entry <$> entries m)) = (size m * 40)%nat) as Hbody.
  { rewrite <- Hlen. clear -Hall. induction Hall as [| e l He _ IH]; [done |]. rewrite fmap_cons. cbn [concat length].
    rewrite length_app, IH, length_encode_entry by done. lia. }
  assert (len (encode_store m) = 12 + N.of_nat (size m) * 40) as Htotal.
  { unfold encode_store, len. rewrite !length_app, length_to_be_bytes, Hbody. change (length STORE_MAGIC) with 8%nat. lia. }
  split; [| unfold MAX_IDENTITIES in *; lia]. unfold decode_store. rewrite decide_False.
  2: { intros [? | Hmagic]; [lia |]. apply Hmagic. unfold encode_store. by rewrite take_app_length'. }
  assert (drop 8 (encode_store m) = to_be_bytes 4 (len (entries m)) ++ concat (encode_entry <$> entries m)) as ->.
  { unfold encode_store. by rewrite drop_app_length'. }
  assert (drop 12 (encode_store m) = concat (encode_entry <$> entries m)) as ->.
  { unfold encode_store. rewrite app_assoc, drop_app_length'; [done |]. by rewrite length_app, length_to_be_bytes. }
  rewrite take_app_length' by (by rewrite length_to_be_bytes).
  assert (len (entries m) = N.of_nat (size m)) as -> by (unfold len; by rewrite Hlen).
  rewrite !from_to_be_bytes by (change (256 ^ N.of_nat 4) with 4294967296; unfold MAX_IDENTITIES in *; lia).
  rewrite decide_False by lia. rewrite Nat2N.id, <- Hlen.
  destruct (decode_entries_ok (entries m) ∅) as (m' & -> & Hm'); [| done | by intros; apply lookup_empty |].
  - rewrite entries_perm. apply NoDup_fst_map_to_list.
  - f_equal. apply map_eq. intros id. apply option_eq. intros d. rewrite Hm', entries_perm, elem_of_map_to_list, lookup_empty. naive_solver.
Qed.

(** ** Claims *)

Section Claims.
Context (blake3 : list byte -> list byte) (blake3_length : forall x, len (blake3 x) = 32).
Context (request_validate : SessionCreateRequest -> result BootstrapAuthError unit).

(** The file holds the registry, and so does a server that runs. *)
Definition holds (m : Identities) (s : site) : Prop :=
  registry_wf m /\ (s.2 = None /\ m = ∅ \/ s.2 = Some (encode_store m)) /\ forall a, s.1 = Some a -> a = mkGuestAdmission m true.

Definition claimed (m : Identities) (request : SessionCreateRequest) (g : SessionGrant) : Prop :=
  exists c, credential_parse (rq_credential request) = Ok c /\ m !! pc_player c = Some (blake3 (pc_secret c))
    /\ grant_player g = Some (pc_player c) /\ request_validate request = Ok tt
    /\ rq_protocol_id request = Some PROTOCOL_ID /\ rq_service request = SESSION_SERVICE
    /\ rq_match_id request = SESSION_MATCH /\ rq_require_secure request = true.

Lemma granted_player id expires key : id <> 0 -> id <= PlayerId_MAX ->
  grant_player (mkSessionGrant PROTOCOL_ID SESSION_SERVICE SESSION_MATCH expires key (GRANT_MAGIC ++ to_be_bytes 8 id)) = Some id.
Proof.
  intros Hz Hm. unfold grant_player. cbn [gr_protocol_id gr_service gr_match_id gr_application]. rewrite decide_False.
  - rewrite drop_app_length' by done. rewrite from_to_be_bytes by (by apply player_bytes). by rewrite (proj2 (PlayerId_new_Ok id id)).
  - by intros [? | [? | [? | [Hlen | Hmagic]]]].
Qed.

Lemma verify_ok m store c persisted a' store' r : holds m (Some (mkGuestAdmission m true), store) ->
  credential_valid c -> verify_or_register blake3 (mkGuestAdmission m true) store c persisted = (a', store', r) ->
  exists m', m ⊆ m' /\ holds m' (Some a', store') /\ (r = Ok tt -> m' !! pc_player c = Some (blake3 (pc_secret c))).
Proof.
  intros Hh (Hz & Hmax & _ & _). destruct Hh as (Hwf & Hstore & Hrun). unfold verify_or_register. cbn [identities path].
  assert (holds m (Some (mkGuestAdmission m true), store)) as Hsame by done.
  destruct (m !! pc_player c) as [existing |] eqn:Hid.
  { case_decide as Hd; intros [= <- <- <-]; exists m; (split; [done |]); (split; [done |]); [by rewrite Hid, Hd | done]. }
  case_decide as Hfull; [intros [= <- <- <-]; by exists m |]. destruct persisted; intros [= <- <- <-]; [| by exists m].
  exists (<[pc_player c := blake3 (pc_secret c)]> m). split; [by apply insert_subseteq |]. split; [| intros _; apply lookup_insert_eq].
  split; [| split; [by right | by intros a [= <-]]]. destruct Hwf as [Hsize Hv]. split.
  - rewrite map_size_insert_None by done. lia.
  - intros id d [[<- <-] | [_ Hd]]%lookup_insert_Some; [| by apply Hv]. split; [done |]. split; [done |].
    pose proof (blake3_length (pc_secret c)) as Hl. unfold len in Hl. cbn. lia.
Qed.

Lemma admit_ok m a store request now key persisted a' store' r : holds m (Some a, store) ->
  admit_session blake3 request_validate a store request now key persisted = (a', store', r) ->
  exists m', m ⊆ m' /\ holds m' (Some a', store') /\ forall g, r = Ok g -> claimed m' request g.
Proof.
  intros Hh. pose proof Hh as (_ & _ & Ha). specialize (Ha a eq_refl) as ->. unfold admit_session.
  destruct (request_validate request) as [[] |] eqn:Hval; [| intros [= <- <- <-]; by exists m]. case_decide as Hreq; [intros [= <- <- <-]; by exists m |].
  destruct (credential_parse _) as [c |] eqn:Hc; [| intros [= <- <- <-]; by exists m]. pose proof Hc as [_ Hvalid]%credential_text_exact.
  destruct (checked_add _ now 60); [| intros [= <- <- <-]; by exists m].
  destruct (verify_or_register _ _ _ _ _) as [[a1 store1] [[] | e]] eqn:Hver; intros [= <- <- <-];
    destruct (verify_ok _ _ _ _ _ _ _ Hh Hvalid Hver) as (m' & Hsub & Hh' & Hin); exists m'; (split; [done |]); (split; [done |]); [| done].
  intros g [= <-]. exists c. destruct Hvalid as (? & ? & _). split; [done |]. split; [by apply Hin |]. split; [by apply granted_player |].
  split; [done |]. split_and!; try (apply dec_stable; tauto). destruct (rq_require_secure request); [done | tauto].
Qed.

Lemma open_ok m s : holds m s -> open false s.2 = Some (mkGuestAdmission m true).
Proof.
  intros (Hwf & Hstore & _). unfold open. destruct Hstore as [[-> ->] | ->]; [done |]. destruct (store_roundtrip m Hwf) as [Hd Hlen].
  rewrite take_ge by (unfold len in Hlen; unfold MAX_IDENTITIES in *; lia). by rewrite Hd.
Qed.

Lemma step_holds m s e s' : holds m s -> step blake3 request_validate s e s' ->
  exists m', m ⊆ m' /\ holds m' s' /\ forall request g, e = Answered request (Ok g) -> claimed m' request g.
Proof.
  intros Hh Hstep. destruct Hstep as [store a Ho | a store request now key persisted a' store' answer Ha | a store | a store request now key persisted a' store' answer Ha].
  - exists m. split; [done |]. split; [| done]. pose proof (open_ok m (None, store) Hh) as Hopen. cbn [snd] in Hopen. rewrite Hopen in Ho. injection Ho as <-.
    destruct Hh as (? & ? & _). split; [done |]. split; [done |]. by intros a' [= <-].
  - destruct (admit_ok _ _ _ _ _ _ _ _ _ _ Hh Ha) as (m' & ? & ? & Hc). exists m'. split; [done |]. split; [done |]. intros rq g [= -> ->]. by apply Hc.
  - exists m. destruct Hh as (? & ? & _). split; [done |]. split; [| done]. split; [done |]. split; done.
  - destruct (admit_ok _ _ _ _ _ _ _ _ _ _ Hh Ha) as (m' & ? & (? & ? & _) & _). exists m'. split; [done |]. split; [| done]. split; [done |]. split; done.
Qed.

Lemma claimed_mono m m' request g : m ⊆ m' -> claimed m request g -> claimed m' request g.
Proof. intros Hs (c & ? & Hc & ?). exists c. split; [done |]. split; [by eapply lookup_weaken | done]. Qed.

Lemma steps_hold es : forall m s s', holds m s -> steps blake3 request_validate s es s' ->
  exists m', m ⊆ m' /\ holds m' s' /\ forall i request g, es !! i = Some (Answered request (Ok g)) -> claimed m' request g.
Proof.
  induction es as [| e es IH]; intros m s s' Hh Hsteps; inversion Hsteps as [| ? ? s1 ? ? Hstep Hrest]; subst; [by exists m |].
  destruct (step_holds _ _ _ _ Hh Hstep) as (m1 & Hs1 & Hh1 & Hc1). destruct (IH _ _ _ Hh1 Hrest) as (m' & Hs' & Hh' & Hc').
  exists m'. split; [by etrans |]. split; [done |]. intros [| i] request g Hi; [| by apply (Hc' i)].
  injection Hi as ->. eapply claimed_mono; [done |]. by apply Hc1.
Qed.

Lemma holds_nothing : holds ∅ (None, None).
Proof. split; [split; [by rewrite map_size_empty | intros id d; by rewrite lookup_empty] |]. split; [by left | done]. Qed.

(** C16 The first profile to claim an identity owns it, through every crash and restart. However
    admissions succeed, fail to be stored or are cut off, two requests that were granted one
    identity hold secrets with one hash; a grant names the identity of the request; the file can
    always be read back; and a request that was granted once is granted again, without any change. *)
Theorem identities_first_claim es s :
  steps blake3 request_validate (None, None) es s ->
  (forall i j request request' g g' c c', es !! i = Some (Answered request (Ok g)) -> es !! j = Some (Answered request' (Ok g')) ->
     credential_parse (rq_credential request) = Ok c -> credential_parse (rq_credential request') = Ok c' ->
     pc_player c = pc_player c' -> blake3 (pc_secret c) = blake3 (pc_secret c'))
  /\ (forall i request g, es !! i = Some (Answered request (Ok g)) ->
       exists c, credential_parse (rq_credential request) = Ok c /\ grant_player g = Some (pc_player c))
  /\ is_Some (open false s.2)
  /\ (forall i request g a now key persisted, es !! i = Some (Answered request (Ok g)) -> s.1 = Some a -> now + 60 <= u64_max ->
       exists g', admit_session blake3 request_validate a s.2 request now key persisted = (a, s.2, Ok g')).
Proof.
  intros Hsteps. destruct (steps_hold es _ _ _ holds_nothing Hsteps) as (m & _ & Hh & Hc). split_and!.
  - intros i j request request' g g' c c' Hi Hj Hp Hp' Hid. destruct (Hc _ _ _ Hi) as (d & Hd & Hm & _), (Hc _ _ _ Hj) as (d' & Hd' & Hm' & _). congruence.
  - intros i request g Hi. destruct (Hc _ _ _ Hi) as (c & ? & _ & ? & _). eauto.
  - rewrite (open_ok _ _ Hh). eauto.
  - intros i request g a now key persisted Hi Ha Hnow. destruct (Hc _ _ _ Hi) as (c & Hp & Hm & _ & Hval & ? & ? & ? & Hsec).
    destruct Hh as (_ & _ & Hrun). rewrite (Hrun a Ha). eexists. unfold admit_session. rewrite Hval, decide_False by (intros [? | [? | [? | ?]]]; congruence).
    rewrite Hp, (proj2 (checked_add_Some u64_max now 60 (now + 60))) by done. unfold verify_or_register. cbn [identities]. rewrite Hm.
    rewrite decide_True by done. done.
Qed.
End Claims.

(** ** An example: a claim, a crash, and the claim again *)

Definition example_secret : list byte := x01 :: repeat x00 31.
Definition example_request : SessionCreateRequest :=
  mkSessionCreateRequest (Some PROTOCOL_ID) SESSION_SERVICE SESSION_MATCH true (credential_encode (mkPlayerCredential 7 example_secret)).
Definition example_digest (bytes : list byte) : list byte := take 32 (bytes ++ repeat x00 32).
Definition example_grant : SessionGrant :=
  mkSessionGrant PROTOCOL_ID SESSION_SERVICE SESSION_MATCH 160 [] (GRANT_MAGIC ++ to_be_bytes 8 7).

Lemma example_digest_length x : len (example_digest x) = 32.
Proof. unfold example_digest, len. rewrite length_take, length_app, repeat_length. lia. Qed.

Lemma identities_first_claim_witness :
  exists a, open false (Some (encode_store {[7 := example_digest example_secret]})) = Some a
    /\ exists g, admit_session example_digest (fun _ => Ok tt) a (Some (encode_store {[7 := example_digest example_secret]})) example_request 200 [] false
       = (a, Some (encode_store {[7 := example_digest example_secret]}), Ok g).
Proof.
  set (store := Some (encode_store {[7 := example_digest example_secret]})).
  set (a := mkGuestAdmission {[7 := example_digest example_secret]} true).
  assert (steps example_digest (fun _ => Ok tt) (None, None) [Opened; Answered example_request (Ok example_grant); Crashed; Opened] (Some a, store)) as Hsteps.
  { econstructor; [by apply (step_open _ _ None (mkGuestAdmission ∅ true)) |].
    econstructor; [by apply (step_admit _ _ (mkGuestAdmission ∅ true) None example_request 100 [] true a store); vm_compute |].
    econstructor; [by apply step_crash |]. econstructor; [by apply step_open; vm_compute |]. constructor. }
  destruct (identities_first_claim example_digest example_digest_length (fun _ => Ok tt) _ _ Hsteps) as (_ & _ & _ & Hagain).
  exists a. split; [by vm_compute |].
  exact (Hagain 1%nat example_request example_grant a 200 [] false eq_refl eq_refl ltac:(vm_compute; discriminate)).
Defined.
