(* ===== verification/LiveMessages.v ===== *)
(** * The messages of the live game

    Models the data and the validation of [live.rs], [live/combat.rs] and [live/baselines.rs] of the
    Dreamwake protocol, the actions of its [lib.rs] and the input of the simulation's [types.rs]. An
    [f32] is a specification float, an array a list; [hypot] is the platform's and a parameter. *)

From S2P Require Import Prelude Types Floats SchemaValues InterestModel Codec Payload Player Commands Replication Groups Baselines.
Local Open Scope N_scope.
Local Open Scope engine_scope.

(** ** Input and actions *)

Abbreviation direction := (spec_float * spec_float)%type.

Inductive ChargeCommand :=
| ChargeNone
| ChargeCommandBegin (episode : N)
| ChargeCommandRelease (episode : N)
| ChargeCommandCancel (episode : N).
#[global] Instance ChargeCommand_eq_dec : EqDecision ChargeCommand.
Proof. solve_decision. Defined.

Record DreamInput := mkDreamInput {
  movement : direction;
  aim : direction;
  attack : bool;
  dash : bool;
  charge : ChargeCommand;
  casts : list bool;
  action_sequences : list N;
}.

Definition DreamInput_default : DreamInput :=
  let zero := S754_zero false in
  mkDreamInput (zero, zero) (zero, zero) false false ChargeNone (repeat false 4) (repeat 0 5).

Definition held_only (i : DreamInput) : DreamInput :=
  let d := DreamInput_default in
  mkDreamInput (movement i) (aim i) (attack i) (dash d) (charge d) (casts d) (action_sequences d).

Record CombatViewStamp := mkCombatViewStamp {
  sampled_at : ServerTick;
  sampled_fraction : N;
  viewed_at : ServerTick;
  viewed_fraction : N;
  reference : StateReceipt;
}.

Record BeamAimSample := mkBeamAimSample { beam_aim : direction; beam_view : CombatViewStamp }.
Record TickInput := mkTickInput { held : DreamInput; beam : option BeamAimSample }.

(** [TickInput::default()] and [TickInput::from(held)]. *)
Definition TickInput_default : TickInput := mkTickInput DreamInput_default None.
Definition TickInput_from (i : DreamInput) : TickInput := mkTickInput i None.

Inductive DreamAction :=
| Start (lucid : bool)
| Cast (slot : N) (aim : direction)
| Dash (direction : direction)
| Dreamlance (aim : direction) (view : CombatViewStamp)
| BeamBegin (aim : direction) (view : CombatViewStamp)
| BeamStop
| ChargeBegin
| ChargeRelease (episode : N)
| ChargeCancel (episode : N)
| Choose (choice slot : N)
| Continue
| Swap (a b : N)
| BuyMemoryUpgrade (slot : N)
| Restart
| Pause (paused : bool).

(** ** Scopes, receipts and baselines *)

Definition invalid (message : string) : CodecError := Codec.InvalidPayload message.

Definition valid_scope (s : ScopeIdentity) : bool :=
  negb (bool_decide (scope_connection s = 0)) && negb (bool_decide (generation (scope_entity s) = 0))
  && negb (bool_decide (scope_epoch s = 0)) && negb (bool_decide (scope_representation s = 0)).

Definition valid_receipt (r : StateReceipt) : bool :=
  valid_scope (rc_scope r) && negb (bool_decide (rc_snapshot r = 0))
  && negb (bool_decide (rc_baseline_generation r = 0)) && negb (bool_decide (rc_version r = 0)).

Definition OWNER_GROUP : GroupId := 1.

Definition valid_context (c : BaselineContext) : bool :=
  valid_scope (bc_scope c) && bool_decide (bc_schema c = 1)
  && match bc_group c with
     | Some (group, revision) => bool_decide (group = OWNER_GROUP) && negb (bool_decide (revision = 0))
     | None => false
     end.

Definition valid_baseline (r : BaselineReceipt) : bool :=
  valid_context (br_context r) && negb (bool_decide (br_generation r = 0))
  && negb (bool_decide (br_snapshot r = 0)) && negb (bool_decide (br_version r = 0)).

Record DecodedBaseline := mkDecodedBaseline { db_state : StateReceipt; db_baseline : BaselineReceipt }.

Definition valid_proof (p : DecodedBaseline) : bool :=
  valid_receipt (db_state p) && valid_baseline (db_baseline p)
  && bool_decide (rc_scope (db_state p) = bc_scope (br_context (db_baseline p)))
  && bool_decide (rc_snapshot (db_state p) = br_snapshot (db_baseline p))
  && bool_decide (rc_version (db_state p) = br_version (db_baseline p)).

Definition MIN_MEMBERS : N := 3.
Definition MEMBERS : N := 4.
Definition valid_member_count (count : N) : bool := bool_decide (MIN_MEMBERS <= count <= MEMBERS).

(** [(viewed_at, viewed_fraction) > (sampled_at, sampled_fraction)]. *)
Definition later (a b : N * N) : bool := bool_decide (b.1 < a.1) || (bool_decide (b.1 = a.1) && bool_decide (b.2 < a.2)).

Definition stamp_validate (v : CombatViewStamp) : result CodecError unit :=
  if bool_decide (sampled_at v = 0)
     || later (viewed_at v, viewed_fraction v) (sampled_at v, sampled_fraction v)
     || negb (valid_receipt (reference v))
  then Err (invalid "invalid combat view stamp")
  else Ok tt.

(** ** Commands *)

(** [f64::from] of an [f32]: exact. *)
Definition f64_of_f32 (v : spec_float) : f64 :=
  match v with S754_finite s m e => binary_round 53 1024 s m e | _ => v end.

(** [1.000_001]. *)
Definition DIRECTION_LIMIT : f64 := Eval vm_compute in f64_div (f64_of_Z 1000001) (f64_of_Z 1000000).

(** [CommandBundle]: at most eight records. *)
Abbreviation CommandBundle := (list (Command TickInput DreamAction)).

Section Validation.
Context (hypot : f64 -> f64 -> f64).

Definition valid_direction (d : direction) : bool :=
  (is_finite d.1 && is_finite d.2) && f64_le (hypot (f64_of_f32 d.1) (f64_of_f32 d.2)) DIRECTION_LIMIT.

Definition valid_held_input (i : DreamInput) : bool :=
  valid_direction (movement i) && valid_direction (aim i) && negb (dash i)
  && bool_decide (casts i = repeat false 4) && bool_decide (action_sequences i = repeat 0 5)
  && bool_decide (charge i = ChargeNone).

Definition valid_tick_input (i : TickInput) : bool :=
  valid_held_input (held i)
  && match beam i with
     | None => true
     | Some sample => valid_direction (beam_aim sample) && is_ok (stamp_validate (beam_view sample))
     end.

Definition valid_tick_action (a : DreamAction) : bool :=
  match a with
  | Cast slot aim => bool_decide (slot < 4) && valid_direction aim
  | Dash d => valid_direction d
  | Dreamlance aim view | BeamBegin aim view => valid_direction aim && is_ok (stamp_validate view)
  | BeamStop | ChargeBegin => true
  | ChargeRelease episode | ChargeCancel episode => negb (bool_decide (episode = 0))
  | _ => false
  end.

Definition valid_menu (a : DreamAction) : bool :=
  match a with
  | Choose choice slot => bool_decide (choice < 3) && bool_decide (slot < 4)
  | Swap a b => bool_decide (a < 4) && bool_decide (b < 4)
  | BuyMemoryUpgrade slot => bool_decide (slot < 4)
  | Cast _ _ | Dash _ | Dreamlance _ _ | BeamBegin _ _ | BeamStop | ChargeBegin | ChargeRelease _ | ChargeCancel _ => false
  | _ => true
  end.

(** The loop over a command's edges, with the bits of the slots that were used. *)
Fixpoint valid_edges (slots : N) (edges : list (ActionEdge DreamAction)) : bool :=
  match edges with
  | [] => true
  | edge :: edges =>
      if bool_decide (8 <= slot edge) || negb (bool_decide (N.land slots (N.shiftl 1 (slot edge)) = 0))
         || negb (valid_tick_action (action edge))
      then false
      else valid_edges (N.lor slots (N.shiftl 1 (slot edge))) edges
  end.

Definition command_identified (c : Command TickInput DreamAction) : bool :=
  let owner := cmd_owner c in
  negb (bool_decide (os_connection owner = 0) || bool_decide (os_epoch owner = 0)
        || bool_decide (generation (os_owner owner) = 0) || bool_decide (os_stream owner = 0)
        || bool_decide (os_ownership owner = 0) || bool_decide (cmd_sequence c = 0) || bool_decide (cmd_target c = 0)
        || negb (valid_tick_input (cmd_input c))).

Fixpoint commands_validate (records : CommandBundle) : result CodecError unit :=
  match records with
  | [] => Ok tt
  | c :: records =>
      if negb (command_identified c) then Err (invalid "invalid command")
      else if negb (valid_edges 0 (cmd_actions c)) then Err (invalid "invalid action edge")
      else commands_validate records
  end.

Definition bundle_validate (bundle : CommandBundle) : result CodecError unit :=
  if decide (bundle = []) then Err (invalid "empty command bundle") else commands_validate bundle.

(** The game's rules at the inbox of the stream [stream] ([authority/peer.rs]). *)
Definition Rules (stream : OwnerStream) : CommandRules TickInput DreamAction := {|
  owns_at owner _ := bool_decide (owner = stream);
  valid_input := valid_tick_input;
  valid_action := valid_tick_action;
  held_input previous := TickInput_from (held_only (held previous));
  neutral_input := TickInput_default;
|}.
End Validation.

(** ** Outcomes *)

Inductive ActionReason :=
| ReasonAccepted | ReasonConflict | ReasonInactive | ReasonInvalidAction | ReasonCooldown | ReasonResource
| ReasonCollision | ReasonMissingHistory | ReasonBudget.
Inductive CombatReason :=
| Hit | Miss | StaticBlocker | DynamicBlocker | HistoricalInvulnerability | CombatMissingHistory | WrongLifecycle
| CombatInvalidAction | NotEligible | NoAmmo | CombatCooldown | CombatBudget.

Record RayActionKey := mkRayActionKey {
  ra_match_epoch : N;
  ra_connection_epoch : N;
  ra_command_stream : N;
  ra_ownership_epoch : N;
  ra_actor : N;
  ra_actor_generation : N;
  ra_command_sequence : N;
  ra_action_slot : N;
}.
Record CombatTarget := mkCombatTarget { ct_id : N; ct_generation : N }.
#[global] Instance CombatTarget_eq_dec : EqDecision CombatTarget.
Proof. solve_decision. Defined.
Record DamageTransaction := mkDamageTransaction { dt_action : RayActionKey; dt_target : CombatTarget; dt_hit_slot : N }.

Inductive TerminalStatus := StatusAccepted | StatusRejected | StatusExpired.
#[global] Instance TerminalStatus_eq_dec : EqDecision TerminalStatus.
Proof. solve_decision. Defined.
Inductive OutcomeReason :=
| ReasonGame (reason : ActionReason)
| ReasonCombat (reason : CombatReason)
| ReasonTiming | ReasonExpired | ReasonCapacity | ReasonOwnershipDenied.

Record ActionOutcomeData := mkActionOutcomeData {
  od_status : TerminalStatus;
  od_reason : OutcomeReason;
  od_query_tick : option ServerTick;
  od_target : option CombatTarget;
  od_hit_region : N;
  od_damage : spec_float;
  od_transaction : option DamageTransaction;
  od_binding : option EntityId;
  od_spawn_bindings : list (N * EntityId);
}.

Record ActionOutcome := mkActionOutcome {
  ao_sequence : N;
  ao_key : ActionKey;
  ao_execution_tick : ServerTick;
  ao_data : ActionOutcomeData;
}.

Definition valid_action_key (k : ActionKey) : bool :=
  negb (bool_decide (ak_connection k = 0)) && negb (bool_decide (ak_stream k = 0))
  && negb (bool_decide (ak_command k = 0)) && bool_decide (ak_slot k < 8).

(** Every binding is of an entity that exists, under an ordinal no earlier one has. *)
Fixpoint valid_bindings (earlier : list N) (bindings : list (N * EntityId)) : bool :=
  match bindings with
  | [] => true
  | (ordinal, entity) :: bindings =>
      bool_decide (ordinal <= 3) && bool_decide (0 < index entity) && bool_decide (0 < generation entity)
      && negb (bool_decide (ordinal ∈ earlier)) && valid_bindings (earlier ++ [ordinal]) bindings
  end.

Definition is_none_or {A} (o : option A) (f : A -> bool) : bool := match o with None => true | Some a => f a end.

Definition outcome_validate (o : ActionOutcome) : result CodecError unit :=
  let d := ao_data o in
  let accepted := bool_decide (od_status d = StatusAccepted) in
  if negb (bool_decide (ao_sequence o = 0)) && valid_action_key (ao_key o)
     && is_finite (od_damage d) && SFleb (S754_zero false) (od_damage d)
     && is_none_or (od_query_tick d) (fun tick => bool_decide (tick <= ao_execution_tick o))
     && is_none_or (od_target d) (fun t => negb (bool_decide (ct_id t = 0)) && negb (bool_decide (ct_generation t = 0)))
     && is_none_or (od_binding d) (fun e => negb (bool_decide (generation e = 0)))
     && valid_bindings [] (od_spawn_bindings d)
     && (accepted || bool_decide (od_spawn_bindings d = []))
     && (accepted || (bool_decide (od_target d = None) && negb (bool_decide (is_Some (od_transaction d)))
                      && SFeqb (od_damage d) (S754_zero false)))
     && is_none_or (od_transaction d) (fun t =>
          bool_decide (ra_connection_epoch (dt_action t) = ak_connection (ao_key o))
          && bool_decide (ra_command_stream (dt_action t) = ak_stream (ao_key o))
          && bool_decide (ra_command_sequence (dt_action t) = ak_command (ao_key o))
          && bool_decide (ra_action_slot (dt_action t) = ak_slot (ao_key o))
          && bool_decide (Some (dt_target t) = od_target d))
  then Ok tt
  else Err (invalid "invalid terminal action outcome").

(** ** Controls *)

Record ArrivalSample := mkArrivalSample { as_sequence : CommandSeq; as_target : TargetTick; as_arrival_tick : ServerTick; as_slack : N }.
Record ArrivalFeedback := mkArrivalFeedback { af_sample : option ArrivalSample; af_observed : N; af_late : N }.

Definition arrival_validate (a : ArrivalFeedback) : bool :=
  bool_decide (af_late a <= af_observed a)
  && is_none_or (af_sample a) (fun s =>
       negb (bool_decide (af_observed a = 0)) && negb (bool_decide (as_sequence s = 0)) && negb (bool_decide (as_target s = 0))
       && bool_decide (as_slack s <= 12)
       && bool_decide (saturating_sub (as_target s) (as_arrival_tick s) = as_slack s)
       && (if decide (as_slack s = 0) then negb (bool_decide (af_late a = 0)) else bool_decide (af_late a < af_observed a))).

Record ContentIdentity := mkContentIdentity {
  ci_ruleset : list byte;
  ci_schema : list byte;
  ci_scene : list byte;
  ci_scene_revision : SceneRevision;
}.
#[global] Instance ContentIdentity_eq_dec : EqDecision ContentIdentity.
Proof. solve_decision. Defined.

Inductive ResyncReason := MissingHistory | MissingDependency | ReplayBudget | MissingScope | ExpiredGroup | InvalidCheckpoint.

Inductive ClientControl :=
| FinalizedAck (through : ServerTick)
| OutcomesAck (through : N)
| OutcomeLookup (keys : list ActionKey)
| Ready (content : ContentIdentity)
| Decoded (receipts : list StateReceipt)
| OwnerDecoded (proofs : list DecodedBaseline)
| BaselineRetire (requests : list BaselineRetirement)
| RequestRepair (requests : list BaselineRepair)
| Exited (exit : ScopeExit)
| Destroyed (destroy : Destroy)
| Menu (sequence : CommandSeq) (action : DreamAction)
| ClockProbe (client_send_nanos : N)
| Resync (reason : ResyncReason).

Inductive ServerControl :=
| ActionOutcomes (batch : N) (records : list ActionOutcome)
| OutcomeUnavailable (keys : list ActionKey)
| BaselineRetired (fences : list BaselineRetirement)
| ResetBaselines (resets : list BaselineReset)
| FinalizedBatch (through : ServerTick) (receipts : list FinalizedReceipt) (menu_applied : option CommandSeq) (arrival : ArrivalFeedback)
| Active (owner_snapshot : SnapshotId) (through : ServerTick)
| Exit (exit : ScopeExit)
| DestroyEntity (destroy : Destroy)
| ClockReply (client_send_nanos server_receive_nanos server_send_nanos : N) (tick : ServerTick)
| Notice (text : list byte).

Definition non_empty {A} (l : list A) : bool := match l with [] => false | _ => true end.
Definition valid_destroy (d : Destroy) : bool :=
  negb (bool_decide (destroy_connection d = 0)) && negb (bool_decide (generation (destroy_entity d) = 0)).
Definition valid_retirement (r : BaselineRetirement) : bool :=
  valid_context (rt_context r) && negb (bool_decide (rt_generation r = 0)) && negb (bool_decide (rt_through r = 0)).

Definition client_control_valid (c : ClientControl) : bool :=
  match c with
  | FinalizedAck through => negb (bool_decide (through = 0))
  | OutcomesAck through => negb (bool_decide (through = 0))
  | OutcomeLookup keys => non_empty keys && forallb valid_action_key keys
  | Ready content => negb (bool_decide (ci_scene_revision content = 0))
  | Decoded receipts => non_empty receipts && forallb valid_receipt receipts
  | OwnerDecoded proofs => valid_member_count (len proofs) && forallb valid_proof proofs
  | BaselineRetire requests => non_empty requests && forallb valid_retirement requests
  | RequestRepair requests =>
      non_empty requests && forallb (fun r => valid_context (rq_context r) && negb (bool_decide (rq_generation r = 0))) requests
  | Exited exit => valid_scope (exit_scope exit)
  | Destroyed destroy => valid_destroy destroy
  | Menu sequence action => negb (bool_decide (sequence = 0)) && valid_menu action
  | _ => true
  end.

Definition client_control_validate (c : ClientControl) : result CodecError unit :=
  if client_control_valid c then Ok tt else Err (invalid "invalid client control").

(** [windows(2).all(|pair| pair[0].tick.checked_next() == Some(pair[1].tick))]. *)
Fixpoint consecutive (receipts : list FinalizedReceipt) : bool :=
  match receipts with
  | a :: ((b :: _) as rest) => bool_decide (checked_next u64_max (receipt_tick a) = Some (receipt_tick b)) && consecutive rest
  | _ => true
  end.

Definition server_control_valid (c : ServerControl) : bool :=
  match c with
  | ActionOutcomes batch records =>
      negb (bool_decide (batch = 0)) && non_empty records && forallb (fun r => is_ok (outcome_validate r)) records
  | OutcomeUnavailable keys => non_empty keys && forallb valid_action_key keys
  | BaselineRetired fences => non_empty fences && forallb valid_retirement fences
  | ResetBaselines resets =>
      non_empty resets && forallb (fun r => valid_context (rs_context r) && negb (bool_decide (rs_generation r = 0))) resets
  | FinalizedBatch through receipts _ arrival =>
      arrival_validate arrival && non_empty receipts
      && match last receipts with Some r => bool_decide (receipt_tick r = through) | None => false end
      && forallb (fun r => bool_decide (receipt_tick r <= through)
                           && is_none_or (receipt_sequence r) (fun s => negb (bool_decide (s = 0)))) receipts
      && consecutive receipts
  | Active owner_snapshot _ => negb (bool_decide (owner_snapshot = 0))
  | Exit exit => valid_scope (exit_scope exit)
  | DestroyEntity destroy => valid_destroy destroy
  | ClockReply _ received sent _ => bool_decide (received <= sent)
  | Notice text => utf8 text
  end.

Definition server_control_validate (c : ServerControl) : result CodecError unit :=
  if server_control_valid c then Ok tt else Err (invalid "invalid server control").

(** ** The welcome *)

Record Welcome := mkWelcome {
  wl_server_instance : N;
  wl_protocol : N;
  wl_client : ConnectionId;
  wl_player : N;
  wl_stream : OwnerStream;
  wl_match_epoch : N;
  wl_tick : ServerTick;
  wl_server_time_nanos : N;
  wl_content : ContentIdentity;
  wl_global_entity : EntityId;
  wl_owner_entity : EntityId;
  wl_collision_entity : EntityId;
  wl_application_frame_bytes : N;
}.

Definition welcome_frame_limit (w : Welcome) : result CodecError FrameLimit := FrameLimit_new (wl_application_frame_bytes w).

Definition welcome_validate (w : Welcome) : result CodecError unit :=
  if decide (wl_protocol w <> PROTOCOL_ID \/ wl_server_instance w = 0 \/ wl_client w = 0
      \/ os_connection (wl_stream w) <> wl_client w \/ os_epoch (wl_stream w) = 0 \/ os_stream (wl_stream w) = 0
      \/ os_owner (wl_stream w) <> wl_owner_entity w \/ os_ownership (wl_stream w) = 0 \/ wl_match_epoch w = 0
      \/ generation (wl_global_entity w) = 0 \/ generation (wl_owner_entity w) = 0 \/ generation (wl_collision_entity w) = 0
      \/ wl_collision_entity w = wl_global_entity w \/ wl_collision_entity w = wl_owner_entity w
      \/ wl_owner_entity w = wl_global_entity w \/ ci_scene_revision (wl_content w) = 0)
  then Err (invalid "invalid session descriptor")
  else
    let? _ := welcome_frame_limit w in
    if decide (1088 <= wl_application_frame_bytes w <= 1200) then Ok tt
    else Err (invalid "unusable application frame allowance").

(** [current] is [ContentIdentity::current], the identity of this build's content. *)
Definition compatible (current : SceneRevision -> ContentIdentity) (w : Welcome) (client : ConnectionId) : bool :=
  is_ok (welcome_validate w) && bool_decide (wl_client w = client)
  && bool_decide (wl_content w = current (ci_scene_revision (wl_content w))).
