(* ===== verification/LiveCodec.v ===== *)
(** * The frames of the live game

    Models the codecs of [live.rs] and [live/baselines.rs] of the Dreamwake protocol: the welcome,
    controls, command bundles, state frames and the members of an owner group. The serializer of
    each message type and the capacities of allocated vectors are parameters. *)

From S2P Require Import Prelude Types Floats SchemaValues InterestModel Codec Reader Payload Player Commands Replication Groups Baselines ReplicationCodec LiveMessages.
Local Open Scope N_scope.
Local Open Scope engine_scope.

(** A serializer with the validation of a message. *)
Definition validated {T} (B : Bincode T) (check : T -> result CodecError unit) : PayloadCodec T := {|
  serialized_size := bin_size;
  serialize := bin_serialize;
  deserialize := bin_deserialize;
  validate := check;
|}.

(** ** The welcome *)

(** [b"DW16"]. *)
Definition WELCOME_MAGIC : list byte := [x44; x57; x31; x36].
Definition WELCOME_BYTES : N := 1024.

Section Welcome.
Context `{B : Bincode Welcome}.

Definition encode_welcome (w : Welcome) : result CodecError (list byte) :=
  let? payload := @encode_payload _ (validated B welcome_validate) w (WELCOME_BYTES - 4) in
  Ok (WELCOME_MAGIC ++ payload).

Definition is_welcome (bytes : list byte) : bool := bool_decide (take 4 bytes = WELCOME_MAGIC).

Definition decode_welcome (bytes : list byte) : result CodecError Welcome :=
  if decide (WELCOME_BYTES < len bytes) then Err Oversized
  else if negb (is_welcome bytes) then Err ProtocolMismatch
  else @decode_payload _ (validated B welcome_validate) (drop 4 bytes) (WELCOME_BYTES - 4).
End Welcome.

(** ** Controls and commands *)

Section Messages.
Context {T : Type} `{PC : PayloadCodec T}.

Definition encode_message (lane : Lane) (value : T) (epoch : ConnectionEpoch) (sequence : N) (limit : FrameLimit)
  : result CodecError (list byte) :=
  let? payload := encode_payload value (payload_bytes limit) in
  encode_frame (mkFrameHeader lane epoch sequence) payload limit.

Definition encode_control := encode_message Control.

Definition decode_message (expected : Lane) (bytes : list byte) (epoch : ConnectionEpoch) (limit : FrameLimit)
  : result CodecError T :=
  let? frame := decode_frame bytes epoch limit in
  if decide (lane_byte (lane frame.1) <> lane_byte expected) then Err InvalidLane
  else decode_payload frame.2 (payload_bytes limit).

Definition decode_control := decode_message Control.
End Messages.

Section Commands.
Context (hypot : f64 -> f64 -> f64) `{B : Bincode CommandBundle}.

#[local] Instance bundle_codec : PayloadCodec CommandBundle := validated B (bundle_validate hypot).

(** [records.iter().any(|r| r.owner.epoch != epoch)]. *)
Definition foreign (epoch : ConnectionEpoch) (bundle : CommandBundle) : bool :=
  existsb (fun c => negb (bool_decide (os_epoch (cmd_owner c) = epoch))) bundle.

Definition encode_commands (bundle : CommandBundle) (epoch : ConnectionEpoch) (sequence : N) (limit : FrameLimit)
  : result CodecError (list byte) :=
  if foreign epoch bundle then Err WrongEpoch
  else encode_message Input bundle epoch sequence limit.

Definition decode_commands (bytes : list byte) (epoch : ConnectionEpoch) (limit : FrameLimit)
  : result CodecError CommandBundle :=
  let? bundle := decode_message Input bytes epoch limit in
  if foreign epoch bundle then Err WrongEpoch else Ok bundle.
End Commands.

(** ** States *)

Definition OWNER_GROUP_MESSAGE_BYTES : N := 64 * 1024.
Definition GROUP_BYTES : N := OWNER_GROUP_MESSAGE_BYTES - HEADER_BYTES - 1.
Definition GROUP_INCOMPLETE : N := 8.
Definition GROUP_STAGING_BYTES : N := GROUP_BYTES * GROUP_INCOMPLETE.

Definition group_limits : GroupLimits :=
  let d := GroupLimits_default in
  mkGroupLimits MEMBERS (gl_chunks d) GROUP_INCOMPLETE (gl_known_groups d) GROUP_STAGING_BYTES GROUP_BYTES (gl_max_age_ms d).

Inductive StateFrame :=
| FrameFull (state : FullState ByteVec)
| FrameGroup (group : GroupChunk ByteVec).

Section States.
(** The capacities of a payload, a manifest and the members that are read. *)
Context (allocate allocate_scopes allocate_states : N -> N).

Definition copy_payload (payload : ByteVec) : result ReplicationError (list byte) := Ok (vec_bytes payload).
Definition own_payload (bytes : list byte) : result ReplicationError ByteVec := Ok (to_vec allocate bytes).

(** The tag, body and limit of a frame. *)
Definition state_parts (value : StateFrame) (epoch : ConnectionEpoch) (limit : FrameLimit)
  : result CodecError (byte * result ReplicationError (list byte) * FrameLimit) :=
  match value with
  | FrameFull state =>
      if decide (scope_connection (fs_scope state) = epoch)
      then Ok (x00, encode_compact_full_state state (saturating_sub (payload_bytes limit) 1), limit)
      else Err WrongEpoch
  | FrameGroup group =>
      if decide (gp_connection (ch_publication group) = epoch)
      then
        let? limit := FrameLimit_new OWNER_GROUP_MESSAGE_BYTES in
        Ok (x01, encode_group group group_limits copy_payload, limit)
      else Err WrongEpoch
  end.

Definition encode_state (value : StateFrame) (epoch : ConnectionEpoch) (sequence : N) (limit : FrameLimit)
  : result CodecError (list byte) :=
  let? parts := state_parts value epoch limit in
  let '(tag, body, limit) := parts in
  match body with
  | Err _ => Err (invalid "invalid scope state")
  | Ok bytes => encode_frame (mkFrameHeader State epoch sequence) (tag :: bytes) limit
  end.

Definition decode_body (tag : byte) (body : list byte) (frame_bytes : N) (epoch : ConnectionEpoch) (limit : FrameLimit)
  : result ReplicationError StateFrame :=
  if decide (tag = x00 /\ frame_bytes <= payload_bytes limit + HEADER_BYTES) then
    let? state := decode_compact_full_state allocate body epoch (saturating_sub (payload_bytes limit) 1) in
    Ok (FrameFull state)
  else if decide (tag = x01) then
    let? group := decode_group allocate_scopes allocate_states body group_limits own_payload in
    if decide (gp_connection (ch_publication group) = epoch) then Ok (FrameGroup group) else Err Stale
  else Err InvalidPayload.

Definition decode_state (bytes : list byte) (epoch : ConnectionEpoch) (limit : FrameLimit) : result CodecError StateFrame :=
  let? whole := FrameLimit_new OWNER_GROUP_MESSAGE_BYTES in
  let? frame := decode_frame bytes epoch whole in
  if decide (lane_byte (lane frame.1) <> lane_byte State) then Err InvalidLane
  else match frame.2 with
  | [] => Err Truncated
  | tag :: body =>
      match decode_body tag body (len bytes) epoch limit with
      | Ok state => Ok state
      | Err _ => Err (invalid "invalid scoped frame")
      end
  end.
End States.

(** ** Members of an owner group *)

Definition PAYLOAD_BYTES : N := 48 * 1024.
Definition MEMBER_BYTES : N := PAYLOAD_BYTES + 256.

Definition baseline_limits : BaselineLimits :=
  let d := BaselineLimits_default in
  mkBaselineLimits (bl_slots d) PAYLOAD_BYTES (PAYLOAD_BYTES + 12) (512 * 1024) (640 * 1024) (bl_repair_interval_ms d).

Definition live_scope_limits : ScopeLimits :=
  let d := ScopeLimits_default in
  mkScopeLimits (lim_known_entities d) (lim_pending_transitions d) (lim_retained_payload_bytes d) PAYLOAD_BYTES (lim_sent_proofs_per_scope d).

Definition member_context (state : FullState ByteVec) (p : GroupPublication) : BaselineContext :=
  mkBaselineContext (fs_scope state) 1 (Some (gp_group p, gp_revision p)).

Definition member_target (state : FullState ByteVec) (p : GroupPublication) (generation : BaselineGeneration) : BaselineReceipt :=
  mkBaselineReceipt (member_context state p) generation (snapshot state) (version state) (end_tick state).

Definition member_proof (state : FullState ByteVec) (baseline : BaselineReceipt) : DecodedBaseline :=
  mkDecodedBaseline (receipt state) baseline.

Record Member := mkMember { mb_generation : BaselineGeneration; mb_base : option BaselineReceipt; mb_bytes : list byte }.

Definition member_validate (m : Member) : result CodecError unit :=
  if bool_decide (mb_generation m = 0) || negb (is_none_or (mb_base m) valid_baseline)
  then Err (invalid "invalid baseline member") else Ok tt.

Definition validate_base (target : BaselineReceipt) (base : option BaselineReceipt) : result CodecError unit :=
  match base with
  | None => Ok tt
  | Some base =>
      if negb (valid_baseline base) || negb (bool_decide (br_context base = br_context target))
         || negb (bool_decide (br_generation base = br_generation target))
         || bool_decide (br_snapshot target <= br_snapshot base)
         || bool_decide (br_version target < br_version base) || bool_decide (br_end_tick target < br_end_tick base)
      then Err (invalid "baseline dependency differs from target context")
      else Ok tt
  end.

Section Members.
Context `{B : Bincode Member} (allocate : N -> N).

#[local] Instance member_codec : PayloadCodec Member := validated B member_validate.

Definition packet_base (e : BaselineEncoding) : option BaselineReceipt :=
  match e with EncodedFull => None | EncodedDelta base => Some base end.

Definition encode_member (packet : BaselinePacket) : result CodecError (list byte) :=
  if negb (valid_baseline (bp_target packet)) then Err (invalid "invalid baseline target")
  else
    let base := packet_base (bp_encoding packet) in
    let? _ := validate_base (bp_target packet) base in
    match BoundedVec_new (PAYLOAD_BYTES + 12) (vec_bytes (bp_bytes packet)) with
    | Err _ => Err Oversized
    | Ok bytes => encode_payload (mkMember (br_generation (bp_target packet)) base bytes) MEMBER_BYTES
    end.

Definition decode_member (bytes : list byte) (state : FullState ByteVec) (p : GroupPublication) : result CodecError BaselinePacket :=
  if decide (gp_connection p <> scope_connection (fs_scope state) \/ gp_group p <> OWNER_GROUP)
  then Err (invalid "baseline group context mismatch")
  else
    let? member := decode_payload bytes MEMBER_BYTES in
    let target := member_target state p (mb_generation member) in
    if negb (valid_baseline target) then Err (invalid "invalid baseline target")
    else
      let? _ := validate_base target (mb_base member) in
      Ok (mkBaselinePacket target (match mb_base member with Some base => EncodedDelta base | None => EncodedFull end)
            (to_vec allocate (mb_bytes member))).
End Members.
