(* ===== verification/LiveProps.v ===== *)
(** * What the live frames guarantee

    State frames have one encoding; a bundle of commands that is decoded is admissible at the inbox
    of its stream; an inbox under the game's rules always has an input to execute; the members of an
    owner group only depend on earlier baselines. *)

From S2P Require Import Prelude Types Floats SchemaValues InterestModel Codec Reader Payload Player Commands CommandsFacts Replication Groups Baselines ReplicationCodec ReplicationCodecProps LiveMessages LiveCodec.
Local Open Scope N_scope.
Local Open Scope engine_scope.

(** ** State frames *)

Definition frame_connection (f : StateFrame) : ConnectionEpoch :=
  match f with FrameFull state => scope_connection (fs_scope state) | FrameGroup group => gp_connection (ch_publication group) end.

(** A frame as the Rust types hold it, with payloads as a decoder allocates them. *)
Definition frame_wf (allocate : N -> N) (f : StateFrame) : Prop :=
  match f with
  | FrameFull state => state_wf state /\ fresh_payload allocate state
  | FrameGroup group => group_wf group /\ Forall (fresh_payload allocate) (ch_members group)
                        /\ retained_total (ch_members group) <= GROUP_BYTES
  end.

(** The frame as it arrives: a group's members come in the order of its manifest. *)
Definition arrives (allocate_scopes allocate_states : N -> N) (f f' : StateFrame) : Prop :=
  match f, f' with
  | FrameFull state, FrameFull state' => state = state'
  | FrameGroup group, FrameGroup group' =>
      exists members, members ≡ₚ ch_members group /\ fs_scope <$> members = ch_manifest group
      /\ group' = received_group allocate_scopes allocate_states group members
  | _, _ => False
  end.

Definition whole_limit : FrameLimit := mkFrameLimit OWNER_GROUP_MESSAGE_BYTES.
Lemma whole_limit_new : FrameLimit_new OWNER_GROUP_MESSAGE_BYTES = Ok whole_limit.
Proof. done. Qed.

Lemma encode_frame_Ok h payload limit bytes :
  encode_frame h payload limit = Ok bytes <->
  connection h <> 0 /\ len payload <= payload_bytes limit /\ bytes = header_bytes h (len payload) ++ payload.
Proof.
  unfold encode_frame. split.
  - intros He. inv_op He. split_and!; try done; lia.
  - intros (? & ? & ->). rewrite decide_False by done. by rewrite decide_False by lia.
Qed.

(** The bytes of a frame do not depend on the limit it was checked against. *)
Lemma encode_frame_limit h payload limit limit' bytes :
  encode_frame h payload limit = Ok bytes -> len bytes <= payload_bytes limit' + HEADER_BYTES ->
  encode_frame h payload limit' = Ok bytes.
Proof.
  rewrite !encode_frame_Ok. intros (? & ? & ->). rewrite len_app, len_header_bytes. intros. split_and!; [done | lia | done].
Qed.

Section States.
Context (allocate allocate_scopes allocate_states : N -> N) (limit : FrameLimit) (wf : limit_wf limit).
Context (whole : max_frame_bytes limit <= OWNER_GROUP_MESSAGE_BYTES).

Lemma state_limit : saturating_sub (payload_bytes limit) 1 <= usize_max.
Proof. destruct wf. unfold saturating_sub, payload_bytes, usize_max, u64_max, u16_max, HEADER_BYTES in *. lia. Qed.

Lemma group_fits : gl_group_bytes group_limits <= usize_max.
Proof. done. Qed.

Lemma decode_state_encodes bytes epoch f :
  decode_state allocate allocate_scopes allocate_states bytes epoch limit = Ok f ->
  frame_connection f = epoch /\ exists sequence, sequence <= u32_max /\ encode_state f epoch sequence limit = Ok bytes.
Proof.
  unfold decode_state. rewrite whole_limit_new.
  destruct (decode_frame _ _ _) as [[h payload] |] eqn:Hframe; [| done]. cbn [fst snd].
  apply encode_decode_frame in Hframe as (Henc & Hconn & Hc & Hs); [| done].
  destruct (decide _) as [| Hlane]; [done |]. apply dec_stable in Hlane. destruct payload as [| tag body]; [done |].
  assert (h = mkFrameHeader State epoch (sequence h)) as Hh.
  { destruct h as [l c n]. cbn in *. subst c. f_equal. by destruct l. }
  assert (epoch <= u64_max) by congruence.
  destruct (decode_body _ _ _ _ _ _ _ _) as [f' |] eqn:Hbody; [| done]. intros [= ->]. unfold decode_body in Hbody.
  destruct (decide _) as [[-> Hlen] |]; [| destruct (decide (tag = x01)) as [-> |]; [| done]].
  - destruct (decode_compact_full_state _ _ _ _) as [state |] eqn:Hd; [| done]. injection Hbody as <-.
    apply decode_compact_exact in Hd as (_ & Hepoch & _ & Hcompact); [| apply state_limit | done].
    split; [done |]. exists (sequence h). split; [done |]. unfold encode_state, state_parts. rewrite decide_True by done.
 rewrite Hcompact, <- Hh. by eapply encode_frame_limit.
  - destruct (decode_group _ _ _ _ _) as [group |] eqn:Hd; [| done].
    destruct (decide _) as [Hepoch |]; [| done]. injection Hbody as <-.
    apply (decode_group_encodes _ _ _ group_fits copy_payload) in Hd as (Hgroup & _); [| by intros v p [= <-]].
    split; [done |]. exists (sequence h). split; [done |]. unfold encode_state, state_parts. rewrite decide_True by done.
    rewrite whole_limit_new. by rewrite Hgroup, <- Hh.
Qed.

(** A frame of either kind is read back as a tag and a body. *)
Lemma decode_tagged epoch sequence tag body bytes limit' :
  limit_wf limit' -> max_frame_bytes limit' <= OWNER_GROUP_MESSAGE_BYTES -> epoch <= u64_max -> sequence <= u32_max ->
  encode_frame (mkFrameHeader State epoch sequence) (tag :: body) limit' = Ok bytes ->
  decode_state allocate allocate_scopes allocate_states bytes epoch limit
  = match decode_body allocate allocate_scopes allocate_states tag body (len bytes) epoch limit with
    | Ok state => Ok state
    | Err _ => Err (invalid "invalid scoped frame")
    end
  /\ len bytes <= payload_bytes limit' + HEADER_BYTES.
Proof.
  intros [Hmin _] Hmax Hepoch Hseq He.
  assert (len bytes <= payload_bytes limit' + HEADER_BYTES) as Hlen.
  { apply encode_frame_Ok in He as (_ & ? & ->). rewrite len_app, len_header_bytes. lia. }
  split; [| done]. unfold payload_bytes in Hlen.
  apply (encode_frame_limit _ _ _ whole_limit) in He; [| unfold payload_bytes, whole_limit; simpl; lia].
  apply decode_encode_frame in He; [| done | done]. unfold decode_state. rewrite whole_limit_new.
  cbn [connection] in He. rewrite He. done.
Qed.

Lemma encode_state_decodes bytes epoch sequence f :
  frame_wf allocate f -> epoch <= u64_max -> sequence <= u32_max -> encode_state f epoch sequence limit = Ok bytes ->
  exists f', decode_state allocate allocate_scopes allocate_states bytes epoch limit = Ok f'
  /\ arrives allocate_scopes allocate_states f f'.
Proof.
  intros Hf Hepoch Hseq He. unfold encode_state, state_parts in He. destruct f as [state | group].
  - destruct (decide _) as [<- |] in He; [| done].
    destruct (encode_compact_full_state _ _) as [body |] eqn:Hbody in He; [| done].
    apply decode_tagged in He as [-> Hlen]; [| done..]. unfold decode_body. rewrite decide_True by done.
    rewrite (proj2 (decode_compact_exact _ body _ _ state state_limit Hepoch)); [by eexists |]. by destruct Hf.
  - destruct (decide _) as [<- |] in He; [| done]. rewrite whole_limit_new in He.
    destruct Hf as (Hg & Hfresh & Hret).
    destruct (encode_group _ _ _) as [body |] eqn:Hbody in He; [| done].
    apply decode_tagged in He as [-> Hlen]; [| done..].
    unfold decode_body. rewrite decide_False by (by intros [? _]). rewrite decide_True by done.
    destruct (encode_group_decodes allocate_scopes allocate_states _ group_fits copy_payload (own_payload allocate) group body)
      as (members & Hperm & Hm & ->); [| done | done |].
    { intros s p Hin [= <-]. unfold own_payload. rewrite Forall_forall in Hfresh. by rewrite <- (Hfresh s Hin). }
    rewrite decide_False by (unfold group_limits, GROUP_BYTES in *; cbn; lia). cbn [received_group ch_publication].
    rewrite decide_True by done. eexists. split; [done |]. by exists members.
Qed.
End States.

(** The frame limit of a session. *)
Lemma session_limit w limit :
  welcome_validate w = Ok tt -> welcome_frame_limit w = Ok limit ->
  limit_wf limit /\ 1088 <= max_frame_bytes limit <= 1200.
Proof.
  intros Hv Hl. split; [by eapply FrameLimit_new_wf |]. unfold welcome_validate in Hv. rewrite Hl in Hv.
  destruct (decide _) in Hv; [done |]. destruct (decide _) as [Hr |] in Hv; [| done].
  unfold welcome_frame_limit, FrameLimit_new in Hl. inv_op Hl. done.
Qed.

(** C12 State frames have one meaning in a session whose welcome is valid. Bytes that are decoded
    belong to the authenticated connection and are an encoding of the frame they give; and an
    encoded frame is decoded, a complete state as it was and a group with the same publication
    and its members in the order of the manifest, whatever frame sequence it travels under. *)
Theorem state_frames_canonical allocate allocate_scopes allocate_states w limit bytes epoch f :
  welcome_validate w = Ok tt -> welcome_frame_limit w = Ok limit ->
  (decode_state allocate allocate_scopes allocate_states bytes epoch limit = Ok f ->
   frame_connection f = epoch /\ exists sequence, sequence <= u32_max /\ encode_state f epoch sequence limit = Ok bytes)
  /\ (forall sequence, frame_wf allocate f -> epoch <= u64_max -> sequence <= u32_max ->
       encode_state f epoch sequence limit = Ok bytes ->
       exists f', decode_state allocate allocate_scopes allocate_states bytes epoch limit = Ok f'
       /\ arrives allocate_scopes allocate_states f f').
Proof.
  intros Hw Hl. destruct (session_limit _ _ Hw Hl) as [Hwf Hmax].
  assert (max_frame_bytes limit <= OWNER_GROUP_MESSAGE_BYTES) by (unfold OWNER_GROUP_MESSAGE_BYTES; lia). split.
  - by apply decode_state_encodes.
  - intros sequence. by apply encode_state_decodes.
Qed.

(** ** Welcomes and controls *)

(** A frame is never taken for a welcome. *)
Lemma frame_not_welcome h payload limit bytes : encode_frame h payload limit = Ok bytes -> is_welcome bytes = false.
Proof. intros (_ & _ & ->)%encode_frame_Ok. done. Qed.

(** The epoch of a frame is in its bytes. *)
Lemma decode_frame_epoch bytes epoch limit h payload :
  decode_frame bytes epoch limit = Ok (h, payload) -> from_le_bytes (slice 10 18 bytes) = epoch.
Proof.
  unfold decode_frame. do 3 (destruct (decide _); [done |]). destruct (Lane_try_from _) as [l |]; [| done].
  destruct (decide _); [done |]. destruct (decide _) as [| He]; [done |]. intros _. apply dec_stable. tauto.
Qed.

Section Roundtrip.
Context {T : Type} `{B : Bincode T} (check : T -> result CodecError unit).
Context (size_exact : forall limit value size bytes,
  bin_size limit value = Ok size -> bin_serialize limit value = Ok bytes -> size = len bytes).
Context (deserialize_serialize : forall limit value bytes,
  bin_serialize limit value = Ok bytes -> bin_deserialize limit bytes = Ok value).

Lemma validated_roundtrip value limit bytes :
  @encode_payload _ (validated B check) value limit = Ok bytes ->
  len bytes <= limit /\ check value = Ok tt /\ @decode_payload _ (validated B check) bytes limit = Ok value.
Proof.
  intros He. apply (payload_roundtrip (T := T)) in He as (? & ? & ? & _); [done | exact size_exact | exact deserialize_serialize].
Qed.

Lemma message_roundtrip lane value epoch sequence limit bytes :
  limit_wf limit -> epoch <= u64_max -> sequence <= u32_max ->
  @encode_message _ (validated B check) lane value epoch sequence limit = Ok bytes ->
  is_welcome bytes = false /\ @decode_message _ (validated B check) lane bytes epoch limit = Ok value
  /\ forall epoch' other, @decode_message _ (validated B check) lane bytes epoch' limit = Ok other -> epoch' = epoch /\ other = value.
Proof.
  intros Hl Hepoch Hseq He. unfold encode_message in He. destruct (encode_payload _ _) as [payload |] eqn:Hp; [| done].
  apply validated_roundtrip in Hp as (_ & _ & Hd). split; [by eapply frame_not_welcome |].
  assert (decode_frame bytes epoch limit = Ok (mkFrameHeader lane epoch sequence, payload)) as Hf.
  { apply (decode_encode_frame (mkFrameHeader lane epoch sequence)); done. }
  assert (@decode_message _ (validated B check) lane bytes epoch limit = Ok value) as Hv.
  { unfold decode_message. rewrite Hf. cbn [fst snd Codec.lane]. rewrite decide_False by tauto. done. }
  split; [done |]. intros epoch' other Ho. destruct (decode_frame bytes epoch' limit) as [[h p] | e] eqn:Hf'.
  - assert (epoch' = epoch) as -> by (apply decode_frame_epoch in Hf, Hf'; congruence).
    split; [done |]. congruence.
  - unfold decode_message in Ho. by rewrite Hf' in Ho.
Qed.
End Roundtrip.

(** Session messages are unambiguous. With a serializer that keeps its contract, an encoded welcome is
    marked as one, fits its allowance, is valid and is decoded as it was; and a control of the server that
    was encoded for a connection is valid, is not taken for a welcome, is decoded as it was under that
    connection's epoch, and under no other. *)
Theorem session_messages_exact `{BW : Bincode Welcome} `{BS : Bincode ServerControl} w limit bytes :
  (forall limit value size bytes, bin_size (T := Welcome) limit value = Ok size -> bin_serialize limit value = Ok bytes -> size = len bytes) ->
  (forall limit value bytes, bin_serialize (T := Welcome) limit value = Ok bytes -> bin_deserialize limit bytes = Ok value) ->
  (forall limit value size bytes, bin_size (T := ServerControl) limit value = Ok size -> bin_serialize limit value = Ok bytes -> size = len bytes) ->
  (forall limit value bytes, bin_serialize (T := ServerControl) limit value = Ok bytes -> bin_deserialize limit bytes = Ok value) ->
  (encode_welcome w = Ok bytes ->
   is_welcome bytes = true /\ len bytes <= WELCOME_BYTES /\ welcome_validate w = Ok tt /\ decode_welcome bytes = Ok w)
  /\ (forall control epoch sequence, welcome_frame_limit w = Ok limit -> epoch <= u64_max -> sequence <= u32_max ->
      @encode_control _ (validated BS server_control_validate) control epoch sequence limit = Ok bytes ->
      server_control_valid control = true /\ is_welcome bytes = false
      /\ forall epoch' other, @decode_control _ (validated BS server_control_validate) bytes epoch' limit = Ok other
                              <-> epoch' = epoch /\ other = control).
Proof.
  intros Hw1 Hw2 Hc1 Hc2. split.
  - unfold encode_welcome. destruct (encode_payload _ _) as [payload |] eqn:Hp; [| done]. intros [= <-].
    apply validated_roundtrip in Hp as (Hlen & Hv & Hd); [| done..].
    assert (len (WELCOME_MAGIC ++ payload) <= WELCOME_BYTES) as Hfit.
    { change (len (WELCOME_MAGIC ++ payload)) with (N.of_nat (4 + length payload)). unfold WELCOME_BYTES, len in *. lia. }
    split_and!; try done. unfold decode_welcome. rewrite decide_False by (by apply N.le_ngt). exact Hd.
  - intros control epoch sequence Hl%FrameLimit_new_wf Hepoch Hseq He.
    destruct (message_roundtrip server_control_validate Hc1 Hc2 Control control epoch sequence limit bytes) as (Hw & Hd & Hone); try done.
    split_and!; [| done |].
    + unfold encode_control, encode_message in He. destruct (encode_payload _ _) as [payload |] eqn:Hp; [| done].
      apply validated_roundtrip in Hp as (_ & Hv & _); [| done..]. unfold server_control_validate in Hv.
      by destruct (server_control_valid control).
    + intros epoch' other. split; [apply Hone |]. intros [-> ->]. exact Hd.
Qed.

(** ** Commands *)

Section Commands.
Context (hypot : f64 -> f64 -> f64).
Abbreviation GameCommand := (Command TickInput DreamAction).

(** The bits of a set of slots. *)
Lemma slot_bit slots k : negb (bool_decide (N.land slots (N.shiftl 1 k) = 0)) = N.testbit slots k.
Proof.
  destruct (N.testbit slots k) eqn:Hk.
  - apply negb_true_iff, bool_decide_eq_false. intros H0. pose proof (N.land_spec slots (N.shiftl 1 k) k) as Hb.
    rewrite H0, N.bits_0, Hk, N.shiftl_spec_high', N.sub_diag in Hb by lia. done.
  - apply negb_false_iff, bool_decide_eq_true. apply N.bits_inj. intros j. rewrite N.land_spec, N.bits_0.
    destruct (decide (j = k)) as [-> | Hj]; [by rewrite Hk |]. rewrite N.shiftl_1_l, N.pow2_bits_false by lia.
    by rewrite andb_false_r.
Qed.

(** The edges that a bundle may carry are those that the inbox checks. *)
Lemma edges_checked edges : forall slots (seen : gset N) stream,
  (forall k, N.testbit slots k = bool_decide (k ∈ seen)) -> valid_edges hypot slots edges = true ->
  check_actions (Rules hypot stream) seen edges = Ok tt.
Proof.
  induction edges as [| e edges IH]; intros slots seen stream Hseen Hv; [done |]. simpl in *.
  destruct (_ || _) eqn:Hb in Hv; [done |]. apply orb_false_iff in Hb as [[H8 Hbit]%orb_false_iff Ha%negb_false_iff].
  rewrite slot_bit, Hseen in Hbit. apply bool_decide_eq_false in H8, Hbit.
  rewrite decide_False by done. rewrite Ha. cbn [negb]. rewrite decide_False by done.
  apply (IH (N.lor slots (N.shiftl 1 (slot e)))); [| done]. intros k. rewrite N.lor_spec, Hseen, N.shiftl_1_l, N.pow2_bits_eqb.
  destruct (N.eqb_spec (slot e) k) as [<- | Hk].
  - rewrite orb_true_r. symmetry. apply bool_decide_eq_true. set_solver.
  - rewrite orb_false_r. apply bool_decide_ext. set_solver.
Qed.

Definition admissible (epoch : ConnectionEpoch) (c : GameCommand) : Prop :=
  os_epoch (cmd_owner c) = epoch /\ os_epoch (cmd_owner c) <> 0 /\ os_connection (cmd_owner c) <> 0
  /\ os_stream (cmd_owner c) <> 0 /\ os_ownership (cmd_owner c) <> 0 /\ generation (os_owner (cmd_owner c)) <> 0
  /\ cmd_sequence c <> 0 /\ cmd_target c <> 0 /\ valid_tick_input hypot (cmd_input c) = true
  /\ valid_edges hypot 0 (cmd_actions c) = true.

Lemma commands_validate_Ok records epoch :
  commands_validate hypot records = Ok tt -> foreign epoch records = false -> Forall (admissible epoch) records.
Proof.
  induction records as [| c records IH]; intros Hv Hf; [constructor |]. simpl in *.
  apply orb_false_iff in Hf as [He%negb_false_iff%bool_decide_eq_true Hf].
  destruct (command_identified _ _) eqn:Hid in Hv; [| done]. destruct (valid_edges _ _ _) eqn:Hedges in Hv; [| done].
  constructor; [| by apply IH]. unfold command_identified in Hid. apply negb_true_iff in Hid.
  repeat apply orb_false_iff in Hid as [Hid ?]. rewrite ?bool_decide_eq_false, ?negb_false_iff in *. by split_and!.
Qed.

Lemma decode_commands_admissible `{B : Bincode CommandBundle} bytes epoch limit bundle :
  decode_commands hypot bytes epoch limit = Ok bundle -> bundle <> [] /\ Forall (admissible epoch) bundle.
Proof.
  unfold decode_commands, decode_message. destruct (decode_frame _ _ _) as [[h payload] |]; [| done].
  destruct (decide _); [done |]. destruct (decode_payload _ _) as [value |] eqn:Hd; [| done].
  destruct (foreign _ _) eqn:Hf; [done |]. intros [= <-]. unfold decode_payload in Hd. inv_op Hd.
  cbn in *. unfold bundle_validate in *. destruct (decide _) as [| Hne]; [done |].
  repeat match goal with u : unit |- _ => destruct u end. split; [done |]. by apply commands_validate_Ok.
Qed.

Context {digest : Type} `{!EqDecision digest}.
Context (blake3 : list byte -> digest) (encoding : GameCommand -> option (list (list byte))).
Abbreviation GameInbox := (@CommandInbox TickInput DreamAction digest).

(** What an inbox may still refuse in a command that was decoded. *)
Definition admission_refusals : list CommandError :=
  [WrongOwnerStream; RateLimit; OversizedOrInvalidEncoding; Equivocation; SequenceWindow; AuditFull].

Lemma record_refusal (b b' : GameInbox) c fp e :
  record_admission b c fp = (b', Err e) -> e = AuditFull.
Proof.
  unfold record_admission. destruct (reserve_audit _ _) as [b1 [? | e1]] eqn:Hr.
  - by destruct (accepted _).
  - intros [= _ <-]. unfold reserve_audit in Hr. destruct (decide _); [done |]. destruct (decide _); [| done].
    destruct (list_find _ _) as [[? ?] |]; [done |]. congruence.
Qed.

Lemma admissible_refusals epoch c (b b' : GameInbox) authenticated e : admissible epoch c ->
  admit_command blake3 encoding b authenticated c (Rules hypot (owner b)) = (b', Err e) -> e ∈ admission_refusals.
Proof.
  intros (_ & _ & _ & _ & _ & _ & Hseq & Htarget & Hinput & Hedges) Ha. unfold admit_command in Ha.
  destruct (decide _) as [| Hown] in Ha; [injection Ha as _ <-; set_solver |].
  destruct (decide _) in Ha; [injection Ha as _ <-; set_solver |]. cbn [owns_at valid_input Rules] in Ha.
  rewrite bool_decide_eq_true_2 in Ha by (destruct (decide (cmd_owner c = owner b)); tauto). cbn [negb] in Ha.
  rewrite decide_False in Ha by tauto. rewrite Hinput in Ha. cbn [negb] in Ha.
  rewrite (edges_checked _ 0) in Ha; [| intros k; rewrite N.bits_0; by rewrite bool_decide_eq_false_2 by set_solver | done].
  destruct (fingerprint _ _ _) as [[fp size] | e'] eqn:Hfp in Ha.
  - destruct (audit _ !! _) as [previous |] in Ha.
    + destruct (decide _) in Ha; [injection Ha as _ <-; set_solver |].
      destruct (rec_admission previous) in Ha; try done; apply record_refusal in Ha as ->; set_solver.
    + destruct (retired _ _) in Ha; [done |]. destruct (decide _) in Ha; [injection Ha as _ <-; set_solver |].
      apply record_refusal in Ha as ->. set_solver.
  - injection Ha as _ <-. unfold fingerprint in Hfp. destruct (encoding c) in Hfp; [destruct (write_all _ _) in Hfp |]; try done;
      injection Hfp as <-; set_solver.
Qed.
End Commands.

(** C26 A command that arrives is one that the game can admit. Every command of a bundle that is
    decoded is of the authenticated connection epoch, and the inbox of its stream, under the game's
    rules, never answers that it is not owned, not identified, or has an invalid input or action:
    it is refused only for belonging to another stream, for the rate, size, window or audit
    limits, or for contradicting an earlier command of the same sequence. *)
Theorem decoded_commands_admissible `{!EqDecision digest} hypot `{B : Bincode CommandBundle} bytes epoch limit bundle
    (blake3 : list byte -> digest) (encoding : Command TickInput DreamAction -> option (list (list byte))) :
  decode_commands hypot bytes epoch limit = Ok bundle ->
  bundle <> [] /\ forall c, c ∈ bundle -> os_epoch (cmd_owner c) = epoch
  /\ forall b authenticated b' r,
       admit_command blake3 encoding b authenticated c (Rules hypot (owner b)) = (b', r) ->
       match r with Ok _ => True | Err e => e ∈ admission_refusals end.
Proof.
  intros [Hne Hall]%decode_commands_admissible. rewrite Forall_forall in Hall. split; [done |]. intros c Hc.
  specialize (Hall c Hc). split; [apply Hall |]. intros b authenticated b' [a | e]; [done |]. by eapply admissible_refusals.
Qed.

(** ** The inbox under the game's rules *)

Section Runs.
Context (hypot : f64 -> f64 -> f64) {digest : Type} `{!EqDecision digest}.
Context (blake3 : list byte -> digest) (encoding : Command TickInput DreamAction -> option (list (list byte))).
Context (stream : OwnerStream).
Abbreviation GameInbox := (@CommandInbox TickInput DreamAction digest).
Abbreviation rules := (Rules hypot stream).

(** The states of the inbox of a peer: commands of any origin are admitted, ticks are prepared and
    committed, in any order. *)
Inductive game_runs : GameInbox -> Prop :=
| game_new start limits b : CommandInbox_new stream start limits = Ok b -> game_runs b
| game_admit b authenticated c : game_runs b -> game_runs (admit_command blake3 encoding b authenticated c rules).1
| game_prepare b : game_runs b -> game_runs (prepare_next b rules).1
| game_commit b tick : game_runs b -> game_runs (commit b tick).1.

Definition playable (i : TickInput) (edges : list (ActionEdge DreamAction)) : Prop :=
  valid_tick_input hypot i = true /\ Forall (fun e => slot e < 8 /\ valid_tick_action hypot (action e) = true) edges.

Record game_inv (b : GameInbox) : Prop := {
  gi_owner : owner b = stream;
  gi_pending : forall t c, pending b !! t = Some c -> playable (cmd_input c) (cmd_actions c);
  gi_prepared : forall p, prepared b = Some p -> playable (prep_input p) (prep_actions p);
  gi_last : forall i, last_input (continuity b) = Some i -> valid_tick_input hypot i = true;
}.

Lemma check_actions_valid edges : forall seen,
  check_actions rules seen edges = Ok tt -> Forall (fun e => slot e < 8 /\ valid_tick_action hypot (action e) = true) edges.
Proof.
  induction edges as [| e edges IH]; intros seen Hc; [constructor |]. simpl in Hc.
  destruct (decide _) in Hc; [done |]. destruct (valid_tick_action _ _) eqn:Ha in Hc; [| done]. cbn [negb] in Hc.
  destruct (decide _) in Hc; [done |]. constructor; [split; [lia | done] |]. by eapply IH.
Qed.

(** An inbox that differs only in its accounting and, perhaps, one more playable command. *)
Definition extends (b b' : GameInbox) : Prop :=
  owner b' = owner b /\ prepared b' = prepared b /\ continuity b' = continuity b
  /\ (pending b' = pending b \/ exists c, pending b' = <[cmd_target c := c]> (pending b) /\ playable (cmd_input c) (cmd_actions c)).

Lemma extends_inv b b' : extends b b' -> game_inv b -> game_inv b'.
Proof.
  intros (Ho & Hp & Hc & Hpend) [Gowner Gpending Gprepared Glast]. split; rewrite ?Ho, ?Hp, ?Hc; try done.
  destruct Hpend as [-> | (c & -> & Hok)]; [done |]. intros t c'. rewrite lookup_insert. case_decide; [by intros [= <-] |]. apply Gpending.
Qed.

Lemma extends_same (b b' : GameInbox) :
  owner b' = owner b -> prepared b' = prepared b -> continuity b' = continuity b -> pending b' = pending b -> extends b b'.
Proof. intros. split_and!; try done. by left. Qed.

Lemma reserve_same (b : GameInbox) s : extends b (reserve_audit b s).1.
Proof.
  unfold reserve_audit. destruct (decide _); [by apply extends_same |]. destruct (decide _); [| by apply extends_same].
  destruct (list_find _ _) as [[? ?] |]; by apply extends_same.
Qed.

Lemma reserve_pending (b : GameInbox) s : pending (reserve_audit b s).1 = pending b.
Proof.
  unfold reserve_audit. destruct (decide _); [done |]. destruct (decide _); [| done]. by destruct (list_find _ _) as [[? ?] |].
Qed.

Lemma record_extends (b : GameInbox) c fp :
  playable (cmd_input c) (cmd_actions c) -> extends b (record_admission b c fp).1.
Proof.
  intros Hok. pose proof (reserve_same b (cmd_sequence c)) as (Ho & Hp & Hc & _). pose proof (reserve_pending b (cmd_sequence c)) as Hpend.
  unfold record_admission. destruct (reserve_audit _ _) as [b1 [? | ?]]; cbn [fst] in *; [| by apply extends_same].
  destruct (accepted _); cbn; [| by apply extends_same]. split_and!; try done. right. exists c. cbn. by rewrite Hpend.
Qed.

Lemma admit_extends (b : GameInbox) authenticated c : extends b (admit_command blake3 encoding b authenticated c rules).1.
Proof.
  unfold admit_command. destruct (decide _); [by apply extends_same |]. destruct (decide _); [by apply extends_same |].
  destruct (owns_at _ _); [| by apply extends_same]. cbn [negb]. destruct (decide _); [by apply extends_same |].
  destruct (valid_input _) eqn:Hi; [| by apply extends_same]. cbn [negb].
  destruct (check_actions _ _ _) as [[] | ?] eqn:Hc; [| by apply extends_same]. apply check_actions_valid in Hc.
  assert (forall fp, extends b (record_admission (b <| submissions := submissions b + 1 |>) c fp).1) as Hrec.
  { intros fp. match goal with |- extends _ (record_admission ?b1 _ _).1 => exact (record_extends b1 c fp (conj Hi Hc)) end. }
  destruct (fingerprint _ _ _) as [[fp ?] | ?]; [| by apply extends_same].
  destruct (audit _ !! _) as [previous |].
  - destruct (decide _); [by apply extends_same |]. destruct (rec_admission previous); try apply Hrec; by apply extends_same.
  - destruct (retired _ _); [by apply extends_same |]. destruct (decide _); [by apply extends_same |]. apply Hrec.
Qed.

Context (origin : hypot (S754_zero false) (S754_zero false) = S754_zero false).

Lemma neutral_valid : valid_tick_input hypot TickInput_default = true.
Proof. unfold valid_tick_input, valid_held_input, valid_direction. cbn [held beam TickInput_default fst snd f64_of_f32 movement aim DreamInput_default]. rewrite origin. done. Qed.

Lemma held_valid i : valid_tick_input hypot i = true -> valid_tick_input hypot (TickInput_from (held_only (held i))) = true.
Proof.
  unfold valid_tick_input, valid_held_input. intros [H _]%andb_true_iff. do 4 apply andb_true_iff in H as [H _].
  cbn [held TickInput_from held_only movement aim dash casts action_sequences charge DreamInput_default beam]. by rewrite H.
Qed.

Lemma prepared_playable b p b' : game_inv b -> prepare_next b rules = (b', Ok p) -> playable (prep_input p) (prep_actions p).
Proof.
  intros [Ho Hpend _ Hlast] Hp. unfold prepare_next in Hp. destruct (prepared b); [done |].
  destruct (checked_next _ _) as [tick |]; [| done]. destruct (owns_at _ _); [| done]. cbn [negb] in Hp.
  destruct (pending b !! tick) as [c |] eqn:Hc; [injection Hp as _ <-; by eapply Hpend |].
  destruct (substitute _ _ _ _) as [input streak]. destruct (valid_input _) eqn:Hv; [| done]. cbn [negb] in Hp.
  injection Hp as _ <-. by split.
Qed.

Lemma substitute_valid b grace : game_inv b ->
  valid_tick_input hypot (substitute (continuity b) grace (@held_input _ _ rules) (@neutral_input _ _ rules)).1 = true.
Proof.
  intros [_ _ _ Hlast]. unfold substitute. cbn [fst held_input neutral_input Rules].
  destruct (decide _); [| apply neutral_valid]. destruct (last_input _) as [i |] eqn:Hi; [| apply neutral_valid].
  by apply held_valid, Hlast.
Qed.

Lemma prepare_refusals b b' e : game_inv b -> prepare_next b rules = (b', Err e) -> e = TickInProgress \/ e = TickExhausted.
Proof.
  intros Hinv Hp. pose proof (substitute_valid b (held_grace_ticks (limits b)) Hinv) as Hsub. destruct Hinv as [Ho _ _ _].
  unfold prepare_next in Hp. destruct (prepared b); [injection Hp as _ <-; by left |].
  destruct (checked_next _ _) as [tick |]; [| injection Hp as _ <-; by right].
  cbn [owns_at Rules] in Hp. rewrite Ho, bool_decide_eq_true_2 in Hp by done. cbn [negb] in Hp.
  destruct (pending b !! tick); [done |]. destruct (substitute _ _ _ _) as [input streak]. cbn [fst] in Hsub.
  cbn [valid_input Rules] in Hp. by rewrite Hsub in Hp.
Qed.

Lemma game_prepare_inv b : game_inv b -> game_inv (prepare_next b rules).1.
Proof.
  intros Hinv. destruct (prepare_next b rules) as [b' [p | e]] eqn:Hp.
  - pose proof (prepared_playable _ _ _ Hinv Hp) as Hok. destruct Hinv as [Ho Hpend Hprep Hlast].
    unfold prepare_next in Hp. destruct (prepared b); [done |]. destruct (checked_next _ _) as [tick |]; [| done].
    destruct (owns_at _ _); [| done]. cbn [negb] in Hp.
    assert (b' = b <| prepared := Some p |>) as ->.
    { destruct (pending b !! tick); [congruence |]. destruct (substitute _ _ _ _). destruct (valid_input _); [| done]. cbn in Hp. congruence. }
    split; try done. cbn. by intros ? [= <-].
  - assert (b' = b) as ->; [| done]. unfold prepare_next in Hp. destruct (prepared b); [congruence |].
    destruct (checked_next _ _) as [tick |]; [| congruence]. destruct (owns_at _ _); [| cbn in Hp; congruence]. cbn [negb] in Hp.
    destruct (pending b !! tick); [congruence |]. destruct (substitute _ _ _ _). destruct (valid_input _); cbn in Hp; congruence.
Qed.

Lemma game_commit_inv b tick : game_inv b -> game_inv (commit b tick).1.
Proof.
  intros Hinv. pose proof Hinv as [Ho Hpend Hprep Hlast]. unfold commit. destruct (prepared b) as [p |] eqn:Hp; [| exact Hinv].
  destruct (decide _); [exact Hinv |]. destruct (Hprep p eq_refl) as [Hi _].
  destruct (decide _), (prep_sequence p); cbn; (split; cbn; [done | | done |]); try done;
    try (by intros ? [= <-]); intros t c [_ Hc]%lookup_delete_Some; by eapply Hpend.
Qed.

Lemma game_runs_inv b : game_runs b -> game_inv b.
Proof.
  induction 1 as [start limits b Hb | b authenticated c _ IH | b _ IH | b tick _ IH].
  - unfold CommandInbox_new in Hb. inv_op Hb. by split; cbn.
  - eapply extends_inv; [apply admit_extends | done].
  - by apply game_prepare_inv.
  - by apply game_commit_inv.
Qed.
End Runs.

(** C10 The authority always has an input to execute. Whatever commands, valid or not, reach the inbox
    of a peer under the game's rules and however admissions and commits are ordered, preparing the next
    tick fails only while a tick is in progress or when ticks run out, never for ownership or an
    invalid substitute; and the input and the action edges that it hands to the simulation are valid. *)
Theorem inputs_always_playable `{!EqDecision digest} hypot (blake3 : list byte -> digest) encoding stream b b' r :
  hypot (S754_zero false) (S754_zero false) = S754_zero false ->
  game_runs hypot blake3 encoding stream b -> prepare_next b (Rules hypot stream) = (b', r) ->
  match r with
  | Ok p => valid_tick_input hypot (prep_input p) = true
            /\ Forall (fun e => slot e < 8 /\ valid_tick_action hypot (action e) = true) (prep_actions p)
  | Err e => e = TickInProgress \/ e = TickExhausted
  end.
Proof.
  intros Horigin Hinv%game_runs_inv Hp. destruct r as [p | e].
  - by eapply prepared_playable.
  - by eapply prepare_refusals.
Qed.

(** ** Members of an owner group *)

(** What a delta may be made against. *)
Definition base_precedes (base target : BaselineReceipt) : Prop :=
  br_context base = br_context target /\ br_generation base = br_generation target
  /\ br_snapshot base < br_snapshot target /\ br_version base <= br_version target /\ br_end_tick base <= br_end_tick target.

Lemma validate_base_Ok target base :
  validate_base target base = Ok tt <->
  match base with None => True | Some base => valid_baseline base = true /\ base_precedes base target end.
Proof.
  destruct base as [base |]; [| done]. unfold validate_base, base_precedes. destruct (_ || _) eqn:Hb.
  - split; [done |]. intros (Hv & Hc & Hg & Hs & Hver & Ht). exfalso. revert Hb.
    rewrite Hv, !bool_decide_eq_true_2 by done. rewrite !bool_decide_eq_false_2 by lia. done.
  - split; [| done]. intros _. repeat apply orb_false_iff in Hb as [Hb ?].
    rewrite ?negb_false_iff, ?bool_decide_eq_true, ?bool_decide_eq_false in *. split_and!; done || lia.
Qed.

Lemma valid_baseline_parts r : valid_baseline r = true ->
  valid_context (br_context r) = true /\ br_generation r <> 0 /\ br_snapshot r <> 0 /\ br_version r <> 0.
Proof.
  unfold valid_baseline. intros Hv. do 3 apply andb_true_iff in Hv as [Hv ?].
  rewrite ?negb_true_iff, ?bool_decide_eq_false in *. by split_and!.
Qed.

Lemma BoundedVec_new_Ok {T} bound (l l' : list T) : BoundedVec_new bound l = Ok l' <-> l' = l /\ len l <= bound.
Proof. unfold BoundedVec_new. case_decide; split; intros; destruct_and?; simplify_eq; done || lia || (split; [done | lia]). Qed.

Section Members.
Context `{B : Bincode Member} (allocate : N -> N).
(** The serializer's contract. *)
Context (size_exact : forall limit value size bytes,
  bin_size limit value = Ok size -> bin_serialize limit value = Ok bytes -> size = len bytes).
Context (deserialize_serialize : forall limit value bytes,
  bin_serialize limit value = Ok bytes -> bin_deserialize limit bytes = Ok value).

(** The members of an owner group depend only on what came before. A member that is decoded is the
    state's own target in the owner group, of the generation it names; a delta's base is a valid baseline
    of the same context and generation with an earlier snapshot and no later version or tick; and the
    client's proof that it was decoded is one the server accepts. A packet that is encoded for the
    state and its publication is decoded as it was. *)
Theorem owner_members_ordered bytes state p packet :
  (decode_member allocate bytes state p = Ok packet ->
   gp_connection p = scope_connection (fs_scope state) /\ gp_group p = OWNER_GROUP
   /\ bp_target packet = member_target state p (br_generation (bp_target packet))
   /\ match bp_encoding packet with
      | EncodedFull => True
      | EncodedDelta base => valid_baseline base = true /\ base_precedes base (bp_target packet)
      end
   /\ (baseline_generation state <> 0 -> valid_proof (member_proof state (bp_target packet)) = true))
  /\ (encode_member packet = Ok bytes -> gp_connection p = scope_connection (fs_scope state) ->
      bp_target packet = member_target state p (br_generation (bp_target packet)) ->
      bp_bytes packet = to_vec allocate (vec_bytes (bp_bytes packet)) ->
      decode_member allocate bytes state p = Ok packet).
Proof.
  split.
  - unfold decode_member. destruct (decide _) as [| Hctx]; [done |].
    assert (gp_connection p = scope_connection (fs_scope state)) as Hc by (apply dec_stable; tauto).
    assert (gp_group p = OWNER_GROUP) as Hg by (apply dec_stable; tauto).
    destruct (decode_payload _ _) as [member |]; [| done].
    destruct (valid_baseline (member_target _ _ _)) eqn:Ht; [| done]. cbn [negb].
    destruct (validate_base _ _) as [[] |] eqn:Hb; [| done]. intros [= <-]. cbn [bp_target bp_encoding].
    apply validate_base_Ok in Hb. split_and!; try done; [by destruct (mb_base member) |].
    intros Hgen. destruct (valid_baseline_parts _ Ht) as (Hcontext & _ & Hs & Hv).
    unfold valid_proof, member_proof. cbn [db_state db_baseline]. rewrite Ht, !bool_decide_eq_true_2 by done.
    assert (valid_scope (fs_scope state) = true) as Hscope.
    { unfold valid_context in Hcontext. by do 2 apply andb_true_iff in Hcontext as [Hcontext _]. }
    rewrite !andb_true_r. unfold valid_receipt, receipt. cbn [rc_scope rc_snapshot rc_baseline_generation rc_version].
    by rewrite Hscope, !bool_decide_eq_false_2 by done.
  - intros He Hc Htarget Hbytes. unfold encode_member in He.
    destruct (valid_baseline (bp_target packet)) eqn:Ht; [| done]. cbn [negb] in He.
    destruct (validate_base _ _) as [[] |] eqn:Hb; [| done]. destruct (BoundedVec_new _ _) as [l |] eqn:Hl; [| done].
    apply BoundedVec_new_Ok in Hl as [-> _].
    apply (payload_roundtrip (T := Member)) in He as (_ & _ & Hd & _); [| exact size_exact | exact deserialize_serialize].
    unfold decode_member. rewrite decide_False.
    2: { destruct (valid_baseline_parts _ Ht) as (Hcontext & _). rewrite Htarget in Hcontext. unfold valid_context in Hcontext.
      cbn in Hcontext. apply andb_true_iff in Hcontext as [_ [Hg%bool_decide_eq_true _]%andb_true_iff]. tauto. }
    rewrite Hd. cbn [mb_generation mb_base mb_bytes]. rewrite <- Htarget, Ht, Hb. cbn [negb]. rewrite <- Hbytes.
    destruct packet as [target [| base] bytes']; done.
Qed.
End Members.

(** ** Witnesses *)

Module LiveDemo.
Definition hypot (a b : f64) : f64 := SFsqrt 53 1024 (SFadd 53 1024 (SFmul 53 1024 a a) (SFmul 53 1024 b b)).
Definition owner_entity : EntityId := mkEntityId 9 1.
Definition stream : OwnerStream := mkOwnerStream 3 7 1 owner_entity 1.
Definition welcome : Welcome :=
  mkWelcome 1 PROTOCOL_ID 3 5 stream 1 40 0 (mkContentIdentity [] [] [] 1) (mkEntityId 1 1) owner_entity (mkEntityId 2 1) 1100.
Definition scope : ScopeIdentity := mkScopeIdentity 7 owner_entity 1 1.
Definition state : FullState ByteVec := mkFullState scope 1 12 4 41 (to_vec id [x0a; x0b]).
Definition wire : list byte :=
  match encode_state (FrameFull state) 7 5 (mkFrameLimit 1100) with Ok bytes => bytes | Err _ => [] end.

(** A held input with a unit aim and two edges. *)
Definition half : spec_float := S754_finite false 1 (-1).
Definition command : Command TickInput DreamAction :=
  mkCommand stream 2 42 (TickInput_from (mkDreamInput (half, half) (half, S754_zero true) true false ChargeNone (repeat false 4) (repeat 0 5)))
    [mkActionEdge 0 (Cast 2 (half, half)); mkActionEdge 3 BeamStop].
(** A serializer of that one bundle. *)
Definition bundle_bincode : Bincode CommandBundle := {|
  bin_size _ _ := Ok 1;
  bin_serialize _ _ := Ok [x01];
  bin_deserialize _ bytes := if decide (bytes = [x01]) then Ok [command] else Err "unknown"%string;
|}.
Definition command_wire : list byte := header_bytes (mkFrameHeader Input 7 5) 1 ++ [x01].

(** A serializer of the members that depend on nothing. *)
Definition member_bincode : Bincode Member := {|
  bin_size _ m := Ok (1 + len (mb_bytes m));
  bin_serialize _ m :=
    if decide (mb_generation m < 256) then
      match mb_base m with None => Ok (byte_of (mb_generation m) :: mb_bytes m) | Some _ => Err "delta"%string end
    else Err "range"%string;
  bin_deserialize _ bytes :=
    match bytes with b :: bytes => Ok (mkMember (Byte.to_N b) None bytes) | [] => Err "short"%string end;
|}.
Definition publication : GroupPublication := mkGroupPublication 7 OWNER_GROUP 2 12.
Definition packet : BaselinePacket := mkBaselinePacket (member_target state publication 3) EncodedFull (to_vec id [x0c]).
End LiveDemo.

(** Serializers of the one welcome and of bare notices. *)
Module SessionDemo.
#[local] Instance Welcome_eq_dec : EqDecision Welcome.
Proof. solve_decision. Defined.
Definition welcome_bincode : Bincode Welcome := {|
  bin_size _ w := Ok 1;
  bin_serialize _ w := if decide (w = LiveDemo.welcome) then Ok [x01] else Err "unknown"%string;
  bin_deserialize _ _ := Ok LiveDemo.welcome;
|}.
Definition control_bincode : Bincode ServerControl := {|
  bin_size _ c := match c with Notice text => Ok (len text) | _ => Err "unknown"%string end;
  bin_serialize _ c := match c with Notice text => Ok text | _ => Err "unknown"%string end;
  bin_deserialize _ bytes := Ok (Notice bytes);
|}.
Definition notice : list byte :=
  match @encode_control _ (validated control_bincode server_control_validate) (Notice [x68; x69]) 7 5 (mkFrameLimit 1100) with
  | Ok bytes => bytes | Err _ => [] end.
End SessionDemo.

Lemma session_messages_exact_witness :
  @decode_welcome SessionDemo.welcome_bincode (WELCOME_MAGIC ++ [x01]) = Ok LiveDemo.welcome
  /\ @decode_control _ (validated SessionDemo.control_bincode server_control_validate) SessionDemo.notice 7 (mkFrameLimit 1100)
     = Ok (Notice [x68; x69]).
Proof.
  assert (forall limit value size bytes, @bin_size _ SessionDemo.welcome_bincode limit value = Ok size ->
    @bin_serialize _ SessionDemo.welcome_bincode limit value = Ok bytes -> size = len bytes) as Hw1.
  { intros limit value size bytes. simpl. intros [= <-]. destruct (decide _); [by intros [= <-] | done]. }
  assert (forall limit value bytes, @bin_serialize _ SessionDemo.welcome_bincode limit value = Ok bytes ->
    @bin_deserialize _ SessionDemo.welcome_bincode limit bytes = Ok value) as Hw2.
  { intros limit value bytes. simpl. destruct (decide _) as [-> |]; done. }
  assert (forall limit value size bytes, @bin_size _ SessionDemo.control_bincode limit value = Ok size ->
    @bin_serialize _ SessionDemo.control_bincode limit value = Ok bytes -> size = len bytes) as Hc1.
  { intros limit value size bytes. simpl. destruct value; intros; by simplify_eq. }
  assert (forall limit value bytes, @bin_serialize _ SessionDemo.control_bincode limit value = Ok bytes ->
    @bin_deserialize _ SessionDemo.control_bincode limit bytes = Ok value) as Hc2.
  { intros limit value bytes. simpl. destruct value; intros; by simplify_eq. }
  split.
  - apply (@session_messages_exact SessionDemo.welcome_bincode SessionDemo.control_bincode LiveDemo.welcome (mkFrameLimit 1100)
      (WELCOME_MAGIC ++ [x01]) Hw1 Hw2 Hc1 Hc2). vm_compute. reflexivity.
  - destruct (@session_messages_exact SessionDemo.welcome_bincode SessionDemo.control_bincode LiveDemo.welcome (mkFrameLimit 1100)
      SessionDemo.notice Hw1 Hw2 Hc1 Hc2) as [_ Hcontrol].
    apply (Hcontrol (Notice [x68; x69]) 7 5); [vm_compute; done..|]. by split.
Defined.

Lemma state_frames_canonical_witness :
  exists f, decode_state id id id LiveDemo.wire 7 (mkFrameLimit 1100) = Ok f /\ arrives id id (FrameFull LiveDemo.state) f.
Proof.
  apply (state_frames_canonical id id id LiveDemo.welcome (mkFrameLimit 1100)
           LiveDemo.wire 7 (FrameFull LiveDemo.state) ltac:(vm_compute; reflexivity) ltac:(vm_compute; reflexivity)) with (sequence := 5).
  - split; [vm_compute; intuition discriminate | vm_compute; reflexivity].
  - vm_compute. discriminate.
  - vm_compute. discriminate.
  - vm_compute. reflexivity.
Defined.

Lemma decoded_commands_admissible_witness :
  decode_commands LiveDemo.hypot (B := LiveDemo.bundle_bincode) LiveDemo.command_wire 7 (mkFrameLimit 1100) = Ok [LiveDemo.command]
  /\ os_epoch (cmd_owner LiveDemo.command) = 7.
Proof.
  assert (decode_commands LiveDemo.hypot (B := LiveDemo.bundle_bincode) LiveDemo.command_wire 7 (mkFrameLimit 1100) = Ok [LiveDemo.command]) as Hd
    by (vm_compute; reflexivity).
  split; [exact Hd |].
  destruct (decoded_commands_admissible LiveDemo.hypot (B := LiveDemo.bundle_bincode) _ _ _ _ (fun bytes => bytes) (fun _ => None) Hd)
    as [_ Hall].
  apply (Hall LiveDemo.command). by apply list_elem_of_singleton.
Defined.

Lemma inputs_always_playable_witness : exists b : @CommandInbox TickInput DreamAction N,
  game_runs LiveDemo.hypot len (fun _ => Some []) LiveDemo.stream b
  /\ match (prepare_next b (Rules LiveDemo.hypot LiveDemo.stream)).2 with
     | Ok p => valid_tick_input LiveDemo.hypot (prep_input p) = true
               /\ Forall (fun e => slot e < 8 /\ valid_tick_action LiveDemo.hypot (action e) = true) (prep_actions p)
     | Err e => e = TickInProgress \/ e = TickExhausted
     end.
Proof.
  destruct (CommandInbox_new (I := TickInput) (A := DreamAction) (digest := N) LiveDemo.stream 41 CommandLimits_default) as [b |] eqn:Hb;
    [| vm_compute in Hb; discriminate].
  assert (game_runs LiveDemo.hypot len (fun _ => Some []) LiveDemo.stream
            (admit_command len (fun _ => Some []) b 3 LiveDemo.command (Rules LiveDemo.hypot LiveDemo.stream)).1) as Hr
    by (apply game_admit; exact (game_new _ _ _ _ _ _ _ Hb)).
  eexists. split; [exact Hr |].
  eapply (inputs_always_playable LiveDemo.hypot len (fun _ => Some []) LiveDemo.stream); [vm_compute; reflexivity | exact Hr |].
  apply surjective_pairing.
Defined.

Lemma owner_members_ordered_witness :
  decode_member (B := LiveDemo.member_bincode) id [x03; x0c] LiveDemo.state LiveDemo.publication = Ok LiveDemo.packet.
Proof.
  apply (owner_members_ordered (B := LiveDemo.member_bincode) id).
  - intros limit value size bytes [= <-]. simpl. destruct (decide _); [| done]. destruct (mb_base value); [done |].
    intros [= <-]. rewrite len_cons. lia.
  - intros limit [g base l] bytes. simpl. destruct (decide _); [| done]. destruct base; [done |]. intros [= <-].
    by rewrite to_N_byte_of, N.mod_small.
  - vm_compute. reflexivity.
  - reflexivity.
  - reflexivity.
  - reflexivity.
Defined.
