(* ===== verification/HitHistory.v ===== *)
(** * Rewinding combat

    Models [combat/history/] of [engine/core]: a bounded history of the collision poses of past
    ticks, fractional samples between two of them, and the budgeted queries against a frame; with
    the descriptors of [physics/kinematic/] that they hold. An [f32] is a specification float. The
    vector library and the geometry kernel are parameters: lengths, normalization, blends, ray casts
    and intersection tests. *)

From S2P Require Import Prelude Floats FloatBits.
Local Open Scope N_scope.
Local Open Scope engine_scope.

(** ** Colliders *)

Record ColliderKey := mkColliderKey { ck_index : N; ck_generation : N }.
#[global] Instance ColliderKey_eq_dec : EqDecision ColliderKey.
Proof. solve_decision. Defined.

(** The derived order: by index, then by generation. *)
Definition key_le (a b : ColliderKey) : Prop :=
  ck_index a < ck_index b \/ ck_index a = ck_index b /\ ck_generation a <= ck_generation b.
#[global] Instance key_le_dec : RelDecision key_le.
Proof. intros a b. unfold key_le. apply _. Defined.

Abbreviation f32 := spec_float.
Record Vec3 := mkVec3 { vx : f32; vy : f32; vz : f32 }.
Record Quat := mkQuat { qx : f32; qy : f32; qz : f32; qw : f32 }.

Inductive CollisionShape :=
| ShapeBox (half_extents : Vec3)
| ShapeBall (radius : f32)
| ShapeCapsule (half_segment radius : f32).

(** The derived comparison, on floats. *)
Definition shape_eq (a b : CollisionShape) : bool :=
  match a, b with
  | ShapeBox u, ShapeBox v => SFeqb (vx u) (vx v) && SFeqb (vy u) (vy v) && SFeqb (vz u) (vz v)
  | ShapeBall r, ShapeBall s => SFeqb r s
  | ShapeCapsule h r, ShapeCapsule k s => SFeqb h k && SFeqb r s
  | _, _ => false
  end.

Record StaticCollider := mkStaticCollider { sc_key : ColliderKey; sc_position : Vec3; sc_rotation : Quat; sc_shape : CollisionShape }.

Definition f32_of_Z (z : Z) : f32 := binary_normalize 24 128 z 0 false.
Definition f32_zero : f32 := S754_zero false.
Definition f32_one : f32 := Eval vm_compute in f32_of_Z 1.
(** [0.001] and [1.001]. *)
Definition UNIT_TOLERANCE : f32 := Eval vm_compute in SFdiv 24 128 (f32_of_Z 1) (f32_of_Z 1000).
Definition ROTATION_LIMIT : f32 := Eval vm_compute in SFdiv 24 128 (f32_of_Z 1001) (f32_of_Z 1000).
Definition MAX_COORDINATE : f32 := Eval vm_compute in f32_of_Z 100000.
Definition MAX_EXTENT : f32 := Eval vm_compute in f32_of_Z 10000.

Definition all_bounded (values : list f32) (limit : f32) : bool :=
  forallb (fun v => is_finite v && SFleb (SFabs v) limit) values.

Definition vec3_array (v : Vec3) : list f32 := [vx v; vy v; vz v].
Definition quat_array (q : Quat) : list f32 := [qx q; qy q; qz q; qw q].

(** ** Poses, frames and the history *)

Record CombatPose := mkCombatPose {
  cp_entity : ColliderKey;
  cp_segment : N;
  cp_revision : N;
  cp_position : Vec3;
  cp_rotation : Quat;
  cp_shape : CollisionShape;
  cp_metadata : list N;
}.
#[export] Instance CombatPose_eta : Eta CombatPose := fun p =>
  mkCombatPose (cp_entity p) (cp_segment p) (cp_revision p) (cp_position p) (cp_rotation p) (cp_shape p) (cp_metadata p).

Definition collider (p : CombatPose) : StaticCollider :=
  mkStaticCollider (cp_entity p) (cp_position p) (cp_rotation p) (cp_shape p).

Record HistoryLimits := mkHistoryLimits { hl_frames : N; hl_poses_per_frame : N; hl_total_poses : N }.

Inductive HistoryError :=
| InvalidLimits | InvalidPose | InvalidFrame | Capacity | MissingHistory | WrongScene | MissingEntity | WrongLifecycle
| Discontinuity | InvalidQuery | QueryBudgetSpent | ResultBudget | UnsupportedQuery.

Record HitFrame := mkHitFrame { hf_tick : N; hf_scene : N; hf_poses : list CombatPose }.

(** The loop of a binary search by the index of the entity; [size] is the length of the rest. *)
Fixpoint search (fuel : nat) (poses : list CombatPose) (key : N) : option CombatPose :=
  match fuel with
  | O => None
  | S fuel =>
      let middle := (length poses / 2)%nat in
      match poses !! middle with
      | None => None
      | Some p =>
          if decide (ck_index (cp_entity p) = key) then Some p
          else if decide (ck_index (cp_entity p) < key) then search fuel (drop (S middle) poses) key
          else search fuel (take middle poses) key
      end
  end.
Definition binary_search (poses : list CombatPose) (key : N) : option CombatPose := search (length poses) poses key.

Definition pose (f : HitFrame) (entity : ColliderKey) (segment : N) : result HistoryError CombatPose :=
  match binary_search (hf_poses f) (ck_index entity) with
  | None => Err MissingEntity
  | Some p =>
      if decide (cp_entity p <> entity) then Err WrongLifecycle
      else if decide (cp_segment p <> segment) then Err Discontinuity
      else Ok p
  end.

Record History := mkHistory { hh_limits : HistoryLimits; hh_frames : list HitFrame; hh_total_poses : N }.

Definition history_new (l : HistoryLimits) : result HistoryError History :=
  if decide (~ (1 <= hl_frames l <= 512) \/ ~ (1 <= hl_poses_per_frame l <= 4096) \/ hl_total_poses l < hl_poses_per_frame l
             \/ 131072 < hl_total_poses l)
  then Err InvalidLimits
  else Ok (mkHistory l [] 0).

Definition pose_le (a b : CombatPose) : Prop := key_le (cp_entity a) (cp_entity b).
#[global] Instance pose_le_dec : RelDecision pose_le.
Proof. intros a b. unfold pose_le. apply _. Defined.

(** The loop that retires the oldest frames until both caps fit; [None] is a panic. *)
Fixpoint retire (l : HistoryLimits) (frames : list HitFrame) (total added : N) : option (list HitFrame * N) :=
  if decide (hl_frames l <= len frames \/ hl_total_poses l < total + added) then
    match frames with
    | [] => None
    | old :: frames =>
        match checked_sub total (len (hf_poses old)) with
        | None => None
        | Some total => retire l frames total added
        end
    end
  else Some (frames, total).

Section Geometry.
(** [length_squared] and [normalize] of the vector library. *)
Context (length_squared : Quat -> f32) (normalize : Quat -> Quat).

Definition positive (v : f32) : bool := is_finite v && SFltb f32_zero v && SFleb v MAX_EXTENT.

(** Whether the shape can be built. *)
Definition valid_shape (s : CollisionShape) : bool :=
  match s with
  | ShapeBox half_extents => forallb positive (vec3_array half_extents)
  | ShapeBall radius => positive radius
  | ShapeCapsule half_segment radius =>
      positive radius && is_finite half_segment && (SFleb f32_zero half_segment && SFleb half_segment MAX_EXTENT)
  end.

(** [prepare_collider]: the pose and shape for the kernel, here the descriptor with its rotation
    normalized. *)
Definition prepare_collider (c : StaticCollider) : option StaticCollider :=
  if bool_decide (ck_index (sc_key c) = 0) || bool_decide (ck_generation (sc_key c) = 0)
     || negb (all_bounded (vec3_array (sc_position c)) MAX_COORDINATE)
     || negb (all_bounded (quat_array (sc_rotation c)) ROTATION_LIMIT)
  then None
  else if SFltb UNIT_TOLERANCE (SFabs (SFsub 24 128 (length_squared (sc_rotation c)) f32_one)) then None
  else if valid_shape (sc_shape c)
  then Some (mkStaticCollider (sc_key c) (sc_position c) (normalize (sc_rotation c)) (sc_shape c))
  else None.

(** The loop over the sorted poses. *)
Fixpoint check_poses (previous : option N) (poses : list CombatPose) : result HistoryError (list CombatPose) :=
  match poses with
  | [] => Ok []
  | p :: poses =>
      if bool_decide (cp_segment p = 0) || bool_decide (cp_revision p = 0)
         || bool_decide (previous = Some (ck_index (cp_entity p)))
      then Err InvalidPose
      else match prepare_collider (collider p) with
      | None => Err InvalidPose
      | Some _ =>
          let? poses := check_poses (Some (ck_index (cp_entity p))) poses in
          Ok (p <| cp_rotation := normalize (cp_rotation p) |> :: poses)
      end
  end.

Definition capture (h : History) (tick scene : N) (poses : list CombatPose) : option (History * result HistoryError unit) :=
  if bool_decide (scene = 0) || match last (hh_frames h) with Some f => bool_decide (tick <= hf_tick f) | None => false end
  then Some (h, Err InvalidFrame)
  else if decide (hl_poses_per_frame (hh_limits h) < len poses) then Some (h, Err Capacity)
  else match check_poses None (merge_sort pose_le poses) with
  | Err e => Some (h, Err e)
  | Ok next =>
      match retire (hh_limits h) (hh_frames h) (hh_total_poses h) (len next) with
      | None => None
      | Some (frames, total) =>
          Some (mkHistory (hh_limits h) (frames ++ [mkHitFrame tick scene next]) (total + len next), Ok tt)
      end
  end.
End Geometry.

Definition frame (h : History) (tick scene : N) : result HistoryError HitFrame :=
  match list_find (fun f => hf_tick f = tick) (hh_frames h) with
  | None => Err MissingHistory
  | Some (_, f) => if decide (hf_scene f <> scene) then Err WrongScene else Ok f
  end.

(** ** Budgets *)

Record QueryBudget := mkQueryBudget { remaining_tests : N; remaining_results : N; used_tests : N }.
#[export] Instance QueryBudget_eta : Eta QueryBudget := fun b => mkQueryBudget (remaining_tests b) (remaining_results b) (used_tests b).

Definition QueryBudget_new (tests results : N) : result HistoryError QueryBudget :=
  if decide (tests = 0 \/ 1048576 < tests \/ results = 0 \/ 4096 < results) then Err InvalidLimits
  else Ok (mkQueryBudget tests results 0).

Definition charge_test (b : QueryBudget) : QueryBudget * result HistoryError unit :=
  if decide (remaining_tests b = 0) then (b, Err QueryBudgetSpent)
  else (mkQueryBudget (remaining_tests b - 1) (remaining_results b) (used_tests b + 1), Ok tt).

(** A computation that spends a budget. *)
Definition spends (A : Type) : Type := QueryBudget -> QueryBudget * result HistoryError A.
Definition spend_bind {A B} (m : spends A) (k : A -> spends B) : spends B := fun b =>
  match m b with (b, Ok a) => k a b | (b, Err e) => (b, Err e) end.
Definition spend_lift {A} (r : result HistoryError A) : spends A := fun b => (b, r).
Notation "'spend' x ':=' m 'in' k" := (spend_bind m (fun x => k)) (at level 200, x name, m at level 100, k at level 200) : engine_scope.

(** ** Samples *)

Section Samples.
(** [lerp] and [slerp] of the vector library, by a blend factor. *)
Context (lerp : Vec3 -> Vec3 -> f32 -> Vec3) (slerp : Quat -> Quat -> f32 -> Quat).

(** [f32::from(fraction) / 65_536.0]. *)
Definition alpha (fraction : N) : f32 := SFdiv 24 128 (f32_of_Z (Z.of_N fraction)) (f32_of_Z 65536).

Definition blend (a b : CombatPose) (fraction : N) : result HistoryError CombatPose :=
  if decide (cp_entity a <> cp_entity b) then Err WrongLifecycle
  else if negb (bool_decide (cp_segment a = cp_segment b)) || negb (shape_eq (cp_shape a) (cp_shape b)) then Err Discontinuity
  else
    let alpha := alpha fraction in
    Ok (a <| cp_position := lerp (cp_position a) (cp_position b) alpha |> <| cp_rotation := slerp (cp_rotation a) (cp_rotation b) alpha |>).

(** [self.frame(tick.checked_add(1)?, scene)?]. *)
Definition next_frame (h : History) (tick scene : N) : result HistoryError HitFrame :=
  match checked_add u64_max tick 1 with None => Err MissingHistory | Some tick => frame h tick scene end.

Definition sample_pose (h : History) (tick fraction scene : N) (entity : ColliderKey) (segment : N) : spends CombatPose :=
  spend _ := charge_test in
  spend left_frame := spend_lift (frame h tick scene) in
  spend left_pose := spend_lift (pose left_frame entity segment) in
  if decide (fraction = 0) then spend_lift (Ok left_pose)
  else
    spend _ := charge_test in
    spend right_frame := spend_lift (next_frame h tick scene) in
    spend right_pose := spend_lift (pose right_frame entity segment) in
    spend_lift (blend left_pose right_pose fraction).

Section Cohort.
Context (include : CombatPose -> bool).

(** One pose of the earlier frame, blended with the later one's. *)
Definition cohort_pose (later : option HitFrame) (fraction : N) (a : CombatPose) : result HistoryError CombatPose :=
  match later with
  | None => Ok a
  | Some later =>
      let? b := pose later (cp_entity a) (cp_segment a) in
      if include b then blend a b fraction else Err Discontinuity
  end.

Fixpoint sample_left (later : option HitFrame) (fraction : N) (poses : list CombatPose) : spends (list CombatPose) :=
  match poses with
  | [] => spend_lift (Ok [])
  | a :: poses =>
      spend _ := charge_test in
      if include a then
        spend p := spend_lift (cohort_pose later fraction a) in
        spend rest := sample_left later fraction poses in
        spend_lift (Ok (p :: rest))
      else sample_left later fraction poses
  end.

(** Every included pose of the later frame has its counterpart in the earlier one. *)
Fixpoint check_right (left_frame : HitFrame) (poses : list CombatPose) : spends unit :=
  match poses with
  | [] => spend_lift (Ok tt)
  | b :: poses =>
      spend _ := charge_test in
      if include b then
        spend a := spend_lift (pose left_frame (cp_entity b) (cp_segment b)) in
        if include a then check_right left_frame poses else spend_lift (Err Discontinuity)
      else check_right left_frame poses
  end.

Definition sample_frame (h : History) (tick fraction scene : N) : spends HitFrame :=
  spend left_frame := spend_lift (frame h tick scene) in
  spend later := spend_lift (if decide (fraction = 0) then Ok None
                             else let? f := next_frame h tick scene in Ok (Some f)) in
  spend poses := sample_left later fraction (hf_poses left_frame) in
  spend _ := match later with Some later => check_right left_frame (hf_poses later) | None => spend_lift (Ok tt) end in
  spend_lift (Ok (mkHitFrame tick scene poses)).
End Cohort.
End Samples.

(** ** Queries *)

Inductive HitQuery :=
| QueryRay (origin direction : Vec3) (distance : f32)
| QuerySphere (center : Vec3) (radius : f32)
| QueryCone (origin direction : Vec3) (length end_radius : f32)
| QueryCircle (center normal : Vec3) (radius half_thickness : f32).

Record Hit := mkHit { hit_pose : CombatPose; hit_distance : f32 }.

(** [total_cmp]: the bits, with those of negative numbers reversed below zero. *)
Definition total_key (v : f32) : Z :=
  let bits := Z.of_N (f32_to_bits v) in
  if (bits <? 2 ^ 31)%Z then bits else (2 ^ 31 - bits - 1)%Z.

Definition hit_le (a b : Hit) : Prop :=
  (total_key (hit_distance a) < total_key (hit_distance b))%Z
  \/ total_key (hit_distance a) = total_key (hit_distance b) /\ key_le (cp_entity (hit_pose a)) (cp_entity (hit_pose b)).
#[global] Instance hit_le_dec : RelDecision hit_le.
Proof. intros a b. unfold hit_le. apply _. Defined.

Section Queries.
Context (length_squared : Quat -> f32) (normalize : Quat -> Quat).
(** Of the vector library: the squared length, the largest coordinate and the distance. *)
Context (vec_length_squared : Vec3 -> f32) (max_element : Vec3 -> f32) (distance : Vec3 -> Vec3 -> f32).
(** The geometry kernel: where a ray enters a collider, and whether the query's volume meets it,
    [None] when it does not support the pair. *)
Context (cast_ray : Vec3 -> Vec3 -> f32 -> StaticCollider -> option f32).
Context (intersection_test : HitQuery -> StaticCollider -> option bool).

Definition vec_finite (v : Vec3) : bool := forallb is_finite (vec3_array v).
Definition vec_abs (v : Vec3) : Vec3 := mkVec3 (SFabs (vx v)) (SFabs (vy v)) (SFabs (vz v)).
Definition query_point (v : Vec3) : bool := vec_finite v && SFleb (max_element (vec_abs v)) MAX_COORDINATE.
Definition query_unit (v : Vec3) : bool :=
  vec_finite v && SFleb (SFabs (SFsub 24 128 (vec_length_squared v) f32_one)) UNIT_TOLERANCE.

(** [prepare]: the guards under which a query is handed to the kernel. *)
Definition query_valid (q : HitQuery) : bool :=
  match q with
  | QueryRay origin direction distance => query_point origin && query_unit direction && positive distance
  | QuerySphere center radius => query_point center && positive radius
  | QueryCone origin direction length end_radius =>
      query_point origin && query_unit direction && positive length && positive end_radius
  | QueryCircle center normal radius half_thickness =>
      query_point center && query_unit normal && positive radius && positive half_thickness
  end.

(** The point from which the distance to an overlapping pose is measured. *)
Definition query_origin (q : HitQuery) : Vec3 :=
  match q with QueryRay o _ _ | QuerySphere o _ | QueryCone o _ _ _ | QueryCircle o _ _ _ => o end.

(** How far the query meets the collider of a pose, if it does. *)
Definition query_distance (q : HitQuery) (p : CombatPose) (c : StaticCollider) : result HistoryError (option f32) :=
  match q with
  | QueryRay origin direction max => Ok (cast_ray origin direction max c)
  | _ =>
      match intersection_test q c with
      | None => Err UnsupportedQuery
      | Some true => Ok (Some (distance (query_origin q) (cp_position p)))
      | Some false => Ok None
      end
  end.

Definition charge_result : spends unit := fun b =>
  if decide (remaining_results b = 0) then (b, Err ResultBudget)
  else (b <| remaining_results := remaining_results b - 1 |>, Ok tt).

Fixpoint query_poses (q : HitQuery) (include : CombatPose -> bool) (poses : list CombatPose) : spends (list Hit) :=
  match poses with
  | [] => spend_lift (Ok [])
  | p :: poses =>
      spend _ := charge_test in
      if include p then
        spend c := spend_lift (match prepare_collider length_squared normalize (collider p) with Some c => Ok c | None => Err InvalidPose end) in
        spend d := spend_lift (query_distance q p c) in
        match d with
        | None => query_poses q include poses
        | Some d =>
            if negb (is_finite d) || SFltb d f32_zero then spend_lift (Err InvalidQuery)
            else
              spend _ := charge_result in
              spend rest := query_poses q include poses in
              spend_lift (Ok (mkHit p d :: rest))
        end
      else query_poses q include poses
  end.

Definition query (f : HitFrame) (q : HitQuery) (include : CombatPose -> bool) : spends (list Hit) :=
  if query_valid q then
    spend hits := query_poses q include (hf_poses f) in
    spend_lift (Ok (merge_sort hit_le hits))
  else spend_lift (Err InvalidQuery).
End Queries.
