(* ===== verification/HitHistoryProps.v ===== *)
(** * What a combat history keeps and answers

    The history is the longest run of recent captures that its limits admit; samples and queries
    answer from exactly the poses that were captured, within their budget. *)

From S2P Require Import Prelude Floats FloatBits HitHistory.
Local Open Scope N_scope.
Local Open Scope engine_scope.

(** ** Ordered poses *)

Definition index_of (p : CombatPose) : N := ck_index (cp_entity p).
Definition ordered (poses : list CombatPose) : Prop := StronglySorted (fun a b => index_of a < index_of b) poses.

#[global] Instance key_le_trans : Transitive key_le.
Proof. intros a b c. unfold key_le. lia. Qed.
#[global] Instance key_le_total : Total key_le.
Proof. intros a b. unfold key_le. lia. Qed.
#[global] Instance pose_le_trans : Transitive pose_le.
Proof. intros a b c. apply key_le_trans. Qed.
#[global] Instance pose_le_total : Total pose_le.
Proof. intros a b. apply key_le_total. Qed.

Lemma ordered_app l1 p l2 : ordered (l1 ++ p :: l2) ->
  ordered l1 /\ ordered l2 /\ (forall q, q ∈ l1 -> index_of q < index_of p) /\ (forall q, q ∈ l2 -> index_of p < index_of q).
Proof.
  intros Ho. pose proof Ho as H12. apply StronglySorted_app in H12 as (Hlt & H1 & H2). apply StronglySorted_inv in H2 as [H2 Hp].
  rewrite Forall_forall in Hp. split_and!; [done | done | | done]. intros q Hq. by apply Hlt; [| left].
Qed.

Lemma search_sound fuel : forall poses key p, search fuel poses key = Some p -> p ∈ poses /\ index_of p = key.
Proof.
  induction fuel as [| fuel IH]; intros poses key p; [done |]. simpl.
  destruct (poses !! _) as [q |] eqn:Hq; [| done]. case_decide as Hk; [| case_decide as Hlt].
  - intros [= ->]. split; [by eapply list_elem_of_lookup_2 | done].
  - intros [Hin Hp]%IH. split; [| done]. eapply subseteq_drop, Hin.
  - intros [Hin Hp]%IH. split; [| done]. eapply subseteq_take, Hin.
Qed.

Lemma search_complete fuel : forall poses key p, (length poses <= fuel)%nat -> ordered poses -> p ∈ poses -> index_of p = key ->
  search fuel poses key = Some p.
Proof.
  induction fuel as [| fuel IH]; intros poses key p Hf Ho Hin Hk.
  { destruct poses; [by apply not_elem_of_nil in Hin | simpl in Hf; lia]. }
  assert (poses <> []) as Hne by (intros ->; by apply not_elem_of_nil in Hin).
  assert ((length poses / 2 < length poses)%nat) as Hm.
  { apply Nat.div_lt; [| lia]. destruct poses; [done | simpl; lia]. }
  cbn [search]. destruct (poses !! _) as [q |] eqn:Hq; [| apply lookup_ge_None in Hq; lia].
  set (middle := (length poses / 2)%nat) in *. fold (index_of q). pose proof (take_drop_middle _ _ _ Hq) as Hsplit.
  rewrite <- Hsplit in Ho, Hin. apply ordered_app in Ho as (H1 & H2 & Hlt & Hgt).
  apply elem_of_app in Hin as [Hin | [-> | Hin]%elem_of_cons].
  - specialize (Hlt p Hin). rewrite decide_False by lia. rewrite decide_False by lia. apply IH; try done. rewrite length_take. lia.
  - by rewrite decide_True by lia.
  - specialize (Hgt p Hin). rewrite decide_False by lia. rewrite decide_True by lia. apply IH; try done. rewrite length_drop. lia.
Qed.

(** A binary search of ordered poses finds the one with the index. *)
Lemma binary_search_exact poses key p : ordered poses -> binary_search poses key = Some p <-> p ∈ poses /\ index_of p = key.
Proof. intros Ho. split; [apply search_sound |]. intros [? ?]. by apply search_complete. Qed.

Lemma pose_exact f entity segment p : ordered (hf_poses f) ->
  pose f entity segment = Ok p <-> p ∈ hf_poses f /\ cp_entity p = entity /\ cp_segment p = segment.
Proof.
  intros Ho. unfold pose. split.
  - destruct (binary_search _ _) as [q |] eqn:Hq; [| done]. apply binary_search_exact in Hq as [Hin _]; [| done].
    destruct (decide _) as [| He]; [done |]. destruct (decide _) as [| Hs]; [done |]. intros [= <-]. apply dec_stable in He, Hs. done.
  - intros (Hin & <- & <-). rewrite (proj2 (binary_search_exact _ _ p Ho)) by done. by rewrite !decide_False by tauto.
Qed.

(** ** Captures *)

Section Captures.
Context (length_squared : Quat -> f32) (normalize : Quat -> Quat).
Abbreviation capture := (capture length_squared normalize).
Abbreviation check_poses := (check_poses length_squared normalize).

(** The poses of a frame, as a capture keeps them. *)
Definition normalized (p : CombatPose) : CombatPose := p <| cp_rotation := normalize (cp_rotation p) |>.
Definition captured (poses : list CombatPose) : list CombatPose := normalized <$> merge_sort pose_le poses.

Lemma check_poses_Ok poses : forall previous next, StronglySorted pose_le poses ->
  (forall i p, previous = Some i -> p ∈ poses -> i <= index_of p) -> check_poses previous poses = Ok next ->
  next = normalized <$> poses /\ ordered next /\ (forall i p, previous = Some i -> p ∈ next -> i < index_of p).
Proof.
  induction poses as [| p poses IH]; intros previous next Hs Hprev; simpl.
  { intros [= <-]. split_and!; [done | constructor | by intros ? ? _ ?%not_elem_of_nil]. }
  apply StronglySorted_inv in Hs as [Hs Hp]. rewrite Forall_forall in Hp.
  destruct (_ || _) eqn:Hb; [done |]. apply orb_false_iff in Hb as [_ Hne%bool_decide_eq_false].
  destruct (prepare_collider _ _ _); [| done]. destruct (check_poses _ _) as [rest |] eqn:Hrest; [| done]. intros [= <-].
  apply IH in Hrest as (-> & Ho & Hlt); [| done |].
  2: { intros i q [= <-] Hq. specialize (Hp q Hq). unfold pose_le, key_le in Hp. unfold index_of. lia. }
  assert (forall i q, previous = Some i -> q ∈ normalized p :: (normalized <$> poses) -> i < index_of q) as Hall.
  { intros i q -> Hq. assert (i < index_of p).
    { pose proof (Hprev i p eq_refl ltac:(by left)). assert (i <> index_of p) by (intros ->; by apply Hne). lia. }
    apply elem_of_cons in Hq as [-> | Hq]; [done |]. specialize (Hlt _ q eq_refl Hq). unfold index_of in *. lia. }
  split_and!; [done | | done]. constructor; [done |]. apply Forall_forall. intros q Hq. by apply (Hlt _ q eq_refl).
Qed.

(** What the frames of a history weigh. *)
Definition weight (frames : list HitFrame) : N := sum_over (fun f => len (hf_poses f)) frames.

Definition fits (l : HistoryLimits) (frames : list HitFrame) : Prop :=
  len frames <= hl_frames l /\ weight frames <= hl_total_poses l.

Lemma weight_cons f frames : weight (f :: frames) = len (hf_poses f) + weight frames.
Proof. done. Qed.

Lemma weight_snoc frames f : weight (frames ++ [f]) = weight frames + len (hf_poses f).
Proof. unfold weight. rewrite sum_over_app. simpl. lia. Qed.

(** Retiring keeps the longest end of the frames that leaves room for one more. *)
Lemma retire_Ok l frames added : 1 <= hl_frames l -> added <= hl_total_poses l ->
  exists gone kept, retire l frames (weight frames) added = Some (kept, weight kept) /\ frames = gone ++ kept
  /\ len kept + 1 <= hl_frames l /\ weight kept + added <= hl_total_poses l
  /\ (forall before e, gone = before ++ [e] -> ~ (len (e :: kept) + 1 <= hl_frames l /\ weight (e :: kept) + added <= hl_total_poses l)).
Proof.
  intros Hl Ha. induction frames as [| f frames IH]; cbn [retire].
  - rewrite decide_False by (unfold weight; simpl; rewrite len_nil; lia). exists [], []. split_and!; try done. by intros [] ?.
  - case_decide as Hc.
    + unfold checked_sub. rewrite weight_cons, decide_True by lia. replace (_ + weight frames - _) with (weight frames) by lia.
      destruct IH as (gone & kept & -> & -> & H1 & H2 & Hlast). exists (f :: gone), kept. split_and!; try done.
      intros before e Hb. destruct gone as [| g gone].
      * destruct before as [| b [| ? ?]]; [| done | done]. injection Hb as <-. simpl in Hc. rewrite weight_cons in *. lia.
      * destruct before as [| b before]; [done |]. injection Hb as _ Hb. by apply (Hlast before).
    + exists [], (f :: frames). split_and!; try done; [lia | lia |]. by intros [] ?.
Qed.

(** ** Runs *)

Abbreviation request := (N * N * list CombatPose)%type.

(** A history after some captures, and the frames that were accepted. *)
Fixpoint run (h : History) (requests : list request) (log : list HitFrame) : option (History * list HitFrame) :=
  match requests with
  | [] => Some (h, log)
  | (tick, scene, poses) :: requests =>
      match capture h tick scene poses with
      | None => None
      | Some (h', Ok _) => run h' requests (log ++ [mkHitFrame tick scene (captured poses)])
      | Some (h', Err _) => run h' requests log
      end
  end.

Definition frame_ok (l : HistoryLimits) (f : HitFrame) : Prop :=
  hf_scene f <> 0 /\ ordered (hf_poses f) /\ len (hf_poses f) <= hl_poses_per_frame l.

Record history_inv (l : HistoryLimits) (h : History) (log : list HitFrame) : Prop := {
  hi_limits : hh_limits h = l;
  hi_total : hh_total_poses h = weight (hh_frames h);
  hi_fits : fits l (hh_frames h);
  hi_recent : exists older, log = older ++ hh_frames h
              /\ forall before e, older = before ++ [e] -> ~ fits l (e :: hh_frames h);
  hi_ticks : StronglySorted N.lt (hf_tick <$> log);
  hi_frames : Forall (frame_ok l) log;
  hi_last : last (hh_frames h) = last log;
}.

Definition limits_ok (l : HistoryLimits) : Prop := 1 <= hl_frames l /\ hl_poses_per_frame l <= hl_total_poses l.

Lemma sorted_snoc (l : list N) n : StronglySorted N.lt l -> (forall m, last l = Some m -> m < n) -> StronglySorted N.lt (l ++ [n]).
Proof.
  induction l as [| a l IH]; intros Hs Hn; [repeat constructor |]. apply StronglySorted_inv in Hs as [Hs Ha]. simpl. constructor.
  - apply IH; [done |]. intros m Hm. apply Hn. by destruct l.
  - apply Forall_app. split; [done |]. apply Forall_singleton. destruct (last l) as [m |] eqn:Hm.
    + assert (m ∈ l) as Hin by (by apply last_Some_elem_of). rewrite Forall_forall in Ha. specialize (Ha m Hin).
      assert (m < n) by (apply Hn; destruct l; [done | exact Hm]). lia.
    + apply last_None in Hm as ->. by apply Hn.
Qed.

Lemma capture_inv l h log tick scene poses : limits_ok l -> history_inv l h log ->
  match capture h tick scene poses with
  | None => False
  | Some (h', Ok _) => history_inv l h' (log ++ [mkHitFrame tick scene (captured poses)])
  | Some (h', Err _) => h' = h
  end.
Proof.
  intros [Hl Hp] [Hlim Htotal Hfits (older & Hlog & Hmax) Hticks Hok Hlast]. unfold capture. rewrite Hlim.
  destruct (_ || _) eqn:Hb; [done |]. apply orb_false_iff in Hb as [Hscene%bool_decide_eq_false Htick].
  case_decide as Hcap; [done |]. destruct (check_poses _ _) as [next |] eqn:Hc; [| done].
  apply check_poses_Ok in Hc as (-> & Ho & _); [| apply (StronglySorted_merge_sort pose_le); apply _ | by intros ? ? [=]].
  fold (captured poses) in *. assert (len (captured poses) = len poses) as Hlen.
  { unfold captured, len. rewrite length_fmap. by rewrite (Permutation_length (merge_sort_Permutation pose_le poses)). }
  rewrite Htotal. destruct (retire_Ok l (hh_frames h) (len (captured poses))) as (gone & kept & -> & Hframes & H1 & H2 & Hgone); [done | lia |].
  set (new := mkHitFrame tick scene (captured poses)).
  assert (weight (kept ++ [new]) = weight kept + len (captured poses)) as Hw by apply weight_snoc.
  split; cbn [hh_limits hh_frames hh_total_poses]; try done.
  - split; [rewrite len_app; unfold len at 2; simpl; lia | lia].
  - exists (older ++ gone). split; [rewrite Hlog, Hframes; by rewrite <- !app_assoc |]. intros before e Hbe [F1 F2].
    change (e :: kept ++ [new]) with ((e :: kept) ++ [new]) in *. rewrite len_app in F1. change (len [new]) with 1 in F1.
    rewrite weight_snoc in F2. cbn [hf_poses new] in F2.
    destruct gone as [| g gone _] using rev_ind.
    + rewrite app_nil_r in Hbe. apply (Hmax before e Hbe). rewrite app_nil_l in Hframes. rewrite Hframes. split; lia.
    + rewrite app_assoc in Hbe. apply app_inj_tail in Hbe as [_ <-]. apply (Hgone gone g eq_refl). lia.
  - rewrite fmap_app. apply sorted_snoc; [done |]. intros m. rewrite fmap_last, <- Hlast. destruct (last (hh_frames h)); [| done].
    intros [= <-]. apply bool_decide_eq_false in Htick. cbn. lia.
  - apply Forall_app. split; [done |]. apply Forall_singleton. split_and!; [done | done |]. cbn. lia.
  - by rewrite !last_snoc.
Qed.

Lemma run_inv l requests : limits_ok l -> forall h log, history_inv l h log ->
  exists h' log', run h requests log = Some (h', log') /\ history_inv l h' log'.
Proof.
  intros Hl. induction requests as [| [[tick scene] poses] requests IH]; intros h log Hinv; [by exists h, log |]. cbn [run].
  pose proof (capture_inv l h log tick scene poses Hl Hinv) as Hc. destruct (capture _ _ _ _) as [[h' [[] | e]] |]; [| | done].
  - by apply IH.
  - subst h'. by apply IH.
Qed.

Lemma history_new_inv l h : history_new l = Ok h -> limits_ok l /\ history_inv l h [].
Proof.
  unfold history_new. case_decide as Hc; [done |]. intros [= <-]. assert (limits_ok l) as Hl by (unfold limits_ok; lia).
  split; [done |]. destruct Hl. split; cbn; try done.
  - split; [unfold len; simpl; lia | unfold weight; simpl; lia].
  - exists []. split; [done |]. by intros [] ?.
  - constructor.
Qed.
End Captures.

Lemma ticks_unique (log : list HitFrame) f g : StronglySorted N.lt (hf_tick <$> log) -> f ∈ log -> g ∈ log -> hf_tick f = hf_tick g -> f = g.
Proof.
  induction log as [| a log IH]; intros Hs Hf Hg Heq; [by apply not_elem_of_nil in Hf |].
  apply StronglySorted_inv in Hs as [Hs Hall]. rewrite Forall_forall in Hall.
  assert (forall x, x ∈ log -> hf_tick a < hf_tick x) as Ha by (intros x Hx; apply Hall; by apply (list_elem_of_fmap_2 hf_tick)).
  apply elem_of_cons in Hf as [-> | Hf], Hg as [-> | Hg]; try done.
  - specialize (Ha g Hg). lia.
  - specialize (Ha f Hf). lia.
  - by apply IH.
Qed.

Section Lookups.
Context (l : HistoryLimits) (h : History) (log : list HitFrame) (Hinv : history_inv l h log).

Lemma retained_logged f : f ∈ hh_frames h -> f ∈ log.
Proof. destruct (hi_recent _ _ _ Hinv) as (older & -> & _). intros Hf. apply elem_of_app. by right. Qed.

Lemma retained_ordered f : f ∈ hh_frames h -> ordered (hf_poses f).
Proof. intros Hf%retained_logged. pose proof (hi_frames _ _ _ Hinv) as Hok. rewrite Forall_forall in Hok. by apply (Hok f). Qed.

Lemma frame_exact tick scene f :
  frame h tick scene = Ok f <-> f ∈ hh_frames h /\ hf_tick f = tick /\ hf_scene f = scene.
Proof.
  unfold frame. split.
  - destruct (list_find _ _) as [[i g] |] eqn:Hg; [| done]. apply list_find_Some in Hg as (Hi & Ht & _).
    destruct (decide _) as [| Hs]; [done |]. intros [= <-]. apply dec_stable in Hs. apply list_elem_of_lookup_2 in Hi. done.
  - intros (Hf & <- & <-). destruct (list_find _ _) as [[i g] |] eqn:Hg.
    + apply list_find_Some in Hg as (Hi & Ht & _). apply list_elem_of_lookup_2 in Hi.
      assert (g = f) as -> by (eapply ticks_unique; [apply Hinv | by apply retained_logged | by apply retained_logged | done]).
      by rewrite decide_False by tauto.
    + apply list_find_None in Hg. rewrite Forall_forall in Hg. by destruct (Hg f Hf).
Qed.
End Lookups.

(** C13 A combat history is the longest run of recent captures that its limits admit. Whatever is captured, it
    never panics; the frames it keeps are the last of the accepted ones, within both caps, and one
    more would exceed a cap; its account of poses is exact; a refused capture changes nothing; and a
    frame, or a pose of it, is found exactly when it is kept under the identity that was asked for. *)
Theorem hit_history_exact length_squared normalize l h requests :
  history_new l = Ok h ->
  exists h' log, run length_squared normalize h requests [] = Some (h', log)
  /\ (exists older, log = older ++ hh_frames h' /\ forall before e, older = before ++ [e] -> ~ fits l (e :: hh_frames h'))
  /\ fits l (hh_frames h') /\ hh_total_poses h' = weight (hh_frames h')
  /\ (forall tick scene poses h'' e, capture length_squared normalize h' tick scene poses = Some (h'', Err e) -> h'' = h')
  /\ (forall tick scene f, frame h' tick scene = Ok f <-> f ∈ hh_frames h' /\ hf_tick f = tick /\ hf_scene f = scene)
  /\ forall f entity segment p, f ∈ hh_frames h' ->
       (pose f entity segment = Ok p <-> p ∈ hf_poses f /\ cp_entity p = entity /\ cp_segment p = segment).
Proof.
  intros [Hl Hinv]%history_new_inv. destruct (run_inv length_squared normalize l requests Hl h [] Hinv) as (h' & log & Hrun & Hinv').
  exists h', log. split; [done |]. split; [apply Hinv' |]. split; [apply Hinv' |]. split; [apply Hinv' |]. split_and!.
  - intros tick scene poses h'' e Hc. pose proof (capture_inv length_squared normalize l h' log tick scene poses Hl Hinv') as Hcap.
    by rewrite Hc in Hcap.
  - intros. by eapply frame_exact.
  - intros f entity segment p Hf. apply pose_exact. by eapply retained_ordered.
Qed.

(** ** Samples *)

Definition spent (n : N) (b b' : QueryBudget) : Prop :=
  remaining_tests b = remaining_tests b' + n /\ used_tests b' = used_tests b + n /\ remaining_results b' = remaining_results b.

Lemma spent_trans n m a b c : spent n a b -> spent m b c -> spent (n + m) a c.
Proof. unfold spent. lia. Qed.
Lemma spent_refl b : spent 0 b b.
Proof. unfold spent. lia. Qed.

Lemma charge_test_Ok b b' u : charge_test b = (b', Ok u) -> spent 1 b b'.
Proof. unfold charge_test, spent. case_decide; [done |]. intros [= <- _]. simpl. lia. Qed.

Lemma spend_bind_Ok {A B} (m : spends A) (k : A -> spends B) b b' x :
  spend_bind m k b = (b', Ok x) <-> exists a b1, m b = (b1, Ok a) /\ k a b1 = (b', Ok x).
Proof.
  unfold spend_bind. split.
  - destruct (m b) as [b1 [a | e]]; [| done]. eauto.
  - by intros (a & b1 & -> & ?).
Qed.

Lemma spend_lift_Ok {A} (r : result HistoryError A) b b' x : spend_lift r b = (b', Ok x) <-> b' = b /\ r = Ok x.
Proof. unfold spend_lift. split; [by intros [= -> ->] | by intros [-> ->]]. Qed.

Section Samples.
Context (lerp : Vec3 -> Vec3 -> f32 -> Vec3) (slerp : Quat -> Quat -> f32 -> Quat) (include : CombatPose -> bool).

(** A pose between two captured ones: everything but the place is the earlier one's. *)
Definition between (fraction : N) (a b p : CombatPose) : Prop :=
  cp_entity a = cp_entity b /\ cp_segment a = cp_segment b /\ shape_eq (cp_shape a) (cp_shape b) = true
  /\ p = a <| cp_position := lerp (cp_position a) (cp_position b) (alpha fraction) |>
           <| cp_rotation := slerp (cp_rotation a) (cp_rotation b) (alpha fraction) |>.

Lemma blend_Ok a b fraction p : blend lerp slerp a b fraction = Ok p <-> between fraction a b p.
Proof.
  unfold blend, between. destruct (decide _) as [He |].
  - split; [done |]. by intros (? & _).
  - rewrite bool_decide_decide. destruct (decide (cp_segment a = cp_segment b)) as [Hs |]; simpl.
    + destruct (shape_eq _ _); simpl; [| split; [done | by intros (_ & _ & ? & _)]]. split; [intros [= <-] | intros (_ & _ & _ & ->)]; [| done].
      split; [by apply dec_stable | done].
    + split; [done |]. by intros (_ & ? & _).
Qed.

Lemma charge_test_iff b b' u : charge_test b = (b', Ok u) <-> spent 1 b b'.
Proof.
  split; [apply charge_test_Ok |]. destruct b as [t r n], b' as [t' r' n'], u. unfold spent, charge_test. simpl. intros (Ht & Hn & Hr).
  rewrite decide_False by lia. repeat f_equal; lia.
Qed.

Lemma spent_split n m b b' : spent (n + m) b b' <-> exists b1, spent n b b1 /\ spent m b1 b'.
Proof.
  split; [| intros (b1 & H1 & H2); by eapply spent_trans]. destruct b as [t r u]. intros (Ht & Hu & Hr). simpl in *.
  exists (mkQueryBudget (t - n) r (u + n)). unfold spent. simpl. lia.
Qed.

Lemma spent_zero b b' : spent 0 b b' <-> b' = b.
Proof.
  split; [| intros ->; apply spent_refl]. destruct b, b'. unfold spent. simpl. intros (? & ? & ->). f_equal; lia.
Qed.

Lemma sample_left_Ok later fraction poses : forall b b' out,
  sample_left lerp slerp include later fraction poses b = (b', Ok out)
  <-> spent (len poses) b b' /\ Forall2 (fun a p => cohort_pose lerp slerp include later fraction a = Ok p) (List.filter include poses) out.
Proof.
  induction poses as [| a poses IH]; intros b b' out; simpl.
  { rewrite spend_lift_Ok, len_nil, spent_zero. split; [intros [-> [= <-]]; by split | intros [-> ->%Forall2_nil_inv_l]; done]. }
  rewrite spend_bind_Ok, len_cons. replace (len poses + 1) with (1 + len poses) by lia. rewrite spent_split.
  destruct (include a) eqn:Ha.
  - split.
    + intros (u & b1 & Hc%charge_test_iff & (p & b2 & [-> Hp]%spend_lift_Ok & (rest & b3 & [Hs Hr]%IH & [-> [= <-]]%spend_lift_Ok)%spend_bind_Ok)%spend_bind_Ok).
      split; [by exists b1 |]. by constructor.
    + intros [(b1 & Hc & Hs) (p & rest & Hp & Hr & ->)%Forall2_cons_inv_l]. exists tt, b1. rewrite charge_test_iff. split; [done |].
      apply spend_bind_Ok. exists p, b1. rewrite spend_lift_Ok. split; [done |]. apply spend_bind_Ok. exists rest, b'.
      rewrite IH, spend_lift_Ok. done.
  - split.
    + intros (u & b1 & Hc%charge_test_iff & [Hs Hr]%IH). split; [by exists b1 | done].
    + intros [(b1 & Hc & Hs) Hr]. exists tt, b1. rewrite charge_test_iff, IH. done.
Qed.

Lemma check_right_Ok left_frame poses : forall b b' u,
  check_right include left_frame poses b = (b', Ok u)
  <-> spent (len poses) b b' /\ forall x, x ∈ poses -> include x = true ->
        exists a, pose left_frame (cp_entity x) (cp_segment x) = Ok a /\ include a = true.
Proof.
  induction poses as [| x poses IH]; intros b b' u; simpl.
  { rewrite spend_lift_Ok, len_nil, spent_zero. destruct u. split; [intros [-> _] | by intros [-> _]]. split; [done |]. by intros ? ?%not_elem_of_nil. }
  rewrite spend_bind_Ok, len_cons. replace (len poses + 1) with (1 + len poses) by lia. rewrite spent_split.
  setoid_rewrite charge_test_iff. destruct (include x) eqn:Hx.
  - split.
    + intros (? & b1 & Hc & (a & b2 & [-> Hp]%spend_lift_Ok & Hrest)%spend_bind_Ok). destruct (include a) eqn:Ha; [| done].
      apply IH in Hrest as [Hs Hall]. split; [by exists b1 |]. intros y [-> | Hy]%elem_of_cons; [by exists a | by apply Hall].
    + intros [(b1 & Hc & Hs) Hall]. exists tt, b1. split; [done |]. destruct (Hall x) as (a & Hp & Ha); [by left | done |].
      apply spend_bind_Ok. exists a, b1. rewrite spend_lift_Ok, Ha, IH. split_and!; try done. intros y Hy. apply Hall. by right.
  - split.
    + intros (? & b1 & Hc & [Hs Hall]%IH). split; [by exists b1 |]. intros y [-> | Hy]%elem_of_cons; [congruence | by apply Hall].
    + intros [(b1 & Hc & Hs) Hall]. exists tt, b1. rewrite IH. split_and!; try done. intros y Hy. apply Hall. by right.
Qed.

Lemma cohort_none fraction poses out :
  Forall2 (fun a p => cohort_pose lerp slerp include None fraction a = Ok p) poses out <-> out = poses.
Proof.
  split.
  - induction 1 as [| a p poses out Ha _ ->]; [done |]. simpl in Ha. congruence.
  - intros ->. induction poses; by constructor.
Qed.

Lemma cohort_pose_Ok later fraction a p : ordered (hf_poses later) ->
  cohort_pose lerp slerp include (Some later) fraction a = Ok p
  <-> exists x, x ∈ hf_poses later /\ include x = true /\ between fraction a x p.
Proof.
  intros Ho. simpl. split.
  - destruct (pose _ _ _) as [x |] eqn:Hx; [| done]. apply pose_exact in Hx as (Hin & He & Hs); [| done].
    destruct (include x) eqn:Hi; [| done]. intros Hb%blend_Ok. by exists x.
  - intros (x & Hin & Hi & Hb). rewrite (proj2 (pose_exact later _ _ x Ho)); [rewrite Hi; by apply blend_Ok |].
    destruct Hb as (? & ? & _). done.
Qed.
End Samples.

(** The two frames of a sample, and what it makes of them. *)
Definition sampled lerp slerp (include : CombatPose -> bool) (h : History) (tick fraction scene : N) (b b' : QueryBudget)
    (poses : list CombatPose) : Prop :=
  exists first, first ∈ hh_frames h /\ hf_tick first = tick /\ hf_scene first = scene
  /\ if decide (fraction = 0) then spent (len (hf_poses first)) b b' /\ poses = List.filter include (hf_poses first)
     else exists later, later ∈ hh_frames h /\ hf_tick later = tick + 1 /\ tick < u64_max /\ hf_scene later = scene
          /\ spent (len (hf_poses first) + len (hf_poses later)) b b'
          /\ Forall2 (fun a p => exists x, x ∈ hf_poses later /\ include x = true /\ between lerp slerp fraction a x p)
               (List.filter include (hf_poses first)) poses
          /\ forall x, x ∈ hf_poses later -> include x = true ->
               exists a, a ∈ hf_poses first /\ include a = true /\ cp_entity a = cp_entity x /\ cp_segment a = cp_segment x.

(** C14 A rewound cohort is what was there. A sample of a history succeeds exactly when the tick, and between two
    ticks also the next one, is kept in that scene, every included actor is included at both ends as
    the same incarnation with one segment and shape, and the budget covers one test per pose; it then
    holds the included actors of the tick and no others, in order, each placed between its two
    captured poses and otherwise as it was captured. *)
Theorem rewound_cohort_exact length_squared normalize lerp slerp include l h0 requests h log tick fraction scene b b' f :
  history_new l = Ok h0 -> run length_squared normalize h0 requests [] = Some (h, log) ->
  sample_frame lerp slerp include h tick fraction scene b = (b', Ok f)
  <-> f = mkHitFrame tick scene (hf_poses f) /\ sampled lerp slerp include h tick fraction scene b b' (hf_poses f).
Proof.
  intros [Hl Hinv0]%history_new_inv Hrun. destruct (run_inv length_squared normalize l requests Hl h0 [] Hinv0) as (h1 & log1 & Hrun' & Hinv).
  rewrite Hrun in Hrun'. injection Hrun' as <- <-. unfold sample_frame, sampled. rewrite spend_bind_Ok.
  setoid_rewrite spend_lift_Ok. setoid_rewrite (frame_exact l h log Hinv). split.
  - intros (first & b1 & [-> (Hin & Ht & Hs)] & (later & b2 & [-> Hlater]%spend_lift_Ok & (poses & b3 & [Hspent Hposes]%sample_left_Ok & (u & b4 & Hcheck & [-> [= <-]]%spend_lift_Ok)%spend_bind_Ok)%spend_bind_Ok)%spend_bind_Ok).
    split; [done |]. exists first. split_and!; try done. case_decide as Hf.
    + injection Hlater as <-. apply spend_lift_Ok in Hcheck as [-> _]. cbn [hf_poses]. split; [done |]. by apply cohort_none in Hposes.
    + destruct (next_frame _ _ _) as [g |] eqn:Hn; [| done]. injection Hlater as <-. unfold next_frame in Hn.
      destruct (checked_add _ _ _) as [n |] eqn:Hadd; [| done]. apply checked_add_Some in Hadd as [-> Hmax].
      apply (frame_exact l h log Hinv) in Hn as (Hg & Hgt & Hgs). apply check_right_Ok in Hcheck as [Hspent' Hall].
      exists g. split_and!; try done; [unfold u64_max in *; lia | by eapply spent_trans | |].
      * eapply Forall2_impl; [exact Hposes |]. intros a p Hp. apply cohort_pose_Ok in Hp; [done |]. by eapply retained_ordered.
      * intros x Hx Hi. destruct (Hall x Hx Hi) as (a & Hp & Ha). apply pose_exact in Hp as (? & ? & ?); [| by eapply retained_ordered]. by exists a.
  - intros (-> & first & Hin & Ht & Hs & Hrest). exists first, b. split; [done |]. apply spend_bind_Ok. cbn [hf_poses] in *. case_decide as Hf.
    + destruct Hrest as [Hspent ->]. exists None, b. rewrite spend_lift_Ok. split; [done |]. apply spend_bind_Ok. eexists _, b'.
      rewrite sample_left_Ok. split; [split; [done |]; by apply cohort_none |]. apply spend_bind_Ok. exists tt, b'. by rewrite !spend_lift_Ok.
    + destruct Hrest as (g & Hg & Hgt & Hmax & Hgs & Hspent & Hposes & Hall). exists (Some g), b. rewrite spend_lift_Ok.
      assert (next_frame h tick scene = Ok g) as ->.
      { unfold next_frame. rewrite (proj2 (checked_add_Some u64_max tick 1 (tick + 1))) by (unfold u64_max in *; lia).
        by apply (frame_exact l h log Hinv). }
      split; [done |]. apply spent_split in Hspent as (b1 & Hs1 & Hs2). apply spend_bind_Ok. eexists _, b1. rewrite sample_left_Ok.
      split; [split; [done |] |].
      { eapply Forall2_impl; [exact Hposes |]. intros a p Hp. apply cohort_pose_Ok; [| done]. by eapply retained_ordered. }
      apply spend_bind_Ok. exists tt, b'. rewrite check_right_Ok, spend_lift_Ok. split; [| done]. split; [done |].
      intros x Hx Hi. destruct (Hall x Hx Hi) as (a & ? & ? & ? & ?). exists a. split; [| done]. apply pose_exact; [| done]. by eapply retained_ordered.
Qed.

(** ** Queries *)

#[global] Instance hit_le_trans : Transitive hit_le.
Proof. intros a b c. unfold hit_le. intros [? | [? Hab]] [? | [? Hbc]]; [left; lia | left; lia | left; lia | right]. split; [lia | by etrans]. Qed.
#[global] Instance hit_le_total : Total hit_le.
Proof.
  intros a b. unfold hit_le. destruct (key_le_total (cp_entity (hit_pose a)) (cp_entity (hit_pose b)));
    destruct (Z.lt_trichotomy (total_key (hit_distance a)) (total_key (hit_distance b))) as [? | [? | ?]]; intuition lia.
Qed.

Section Queries.
Context (length_squared : Quat -> f32) (normalize : Quat -> Quat).
Context (vec_length_squared : Vec3 -> f32) (max_element : Vec3 -> f32) (distance : Vec3 -> Vec3 -> f32).
Context (cast_ray : Vec3 -> Vec3 -> f32 -> StaticCollider -> option f32) (intersection_test : HitQuery -> StaticCollider -> option bool).
Abbreviation query_poses := (query_poses length_squared normalize distance cast_ray intersection_test).
Abbreviation query := (query length_squared normalize vec_length_squared max_element distance cast_ray intersection_test).

(** The hit on one pose, if the query includes and meets it. *)
Definition meets (q : HitQuery) (include : CombatPose -> bool) (p : CombatPose) : option Hit :=
  if include p then
    match prepare_collider length_squared normalize (collider p) with
    | Some c => match query_distance distance cast_ray intersection_test q p c with Ok (Some d) => Some (mkHit p d) | _ => None end
    | None => None
    end
  else None.

Definition answered (tests results : N) (b b' : QueryBudget) : Prop :=
  remaining_tests b = remaining_tests b' + tests /\ used_tests b' = used_tests b + tests
  /\ remaining_results b = remaining_results b' + results.

Lemma charge_result_Ok b b' u : charge_result b = (b', Ok u) -> answered 0 1 b b'.
Proof. unfold charge_result, answered. case_decide; [done |]. intros [= <- _]. simpl. lia. Qed.

Lemma query_poses_Ok q include poses : forall b b' hits, query_poses q include poses b = (b', Ok hits) ->
  hits = omap (meets q include) poses /\ answered (len poses) (len hits) b b'
  /\ Forall (fun h => is_finite (hit_distance h) = true /\ SFltb (hit_distance h) f32_zero = false) hits.
Proof.
  induction poses as [| p poses IH]; intros b b' hits; cbn [HitHistory.query_poses].
  { intros [-> [= <-]]%spend_lift_Ok. unfold answered, len. simpl. split_and!; [done | lia | lia | lia | constructor]. }
  intros (u & b1 & Hc%charge_test_Ok & Hq)%spend_bind_Ok. unfold omap, list_omap, meets at 1. fold (omap (meets q include) poses). rewrite len_cons.
  unfold spent, answered in *. destruct (include p) eqn:Hi.
  - apply spend_bind_Ok in Hq as (c & b2 & [-> Hp]%spend_lift_Ok & Hq). destruct (prepare_collider _ _ _) as [c' |]; [| done].
    injection Hp as ->. apply spend_bind_Ok in Hq as (d & b2 & [-> Hd]%spend_lift_Ok & Hq). rewrite Hd. destruct d as [d |].
    + destruct (_ || _) eqn:Hfin in Hq; [done |]. apply orb_false_iff in Hfin as [Hfin%negb_false_iff Hneg].
      apply spend_bind_Ok in Hq as (? & b2 & Hr%charge_result_Ok & (rest & b3 & (-> & Hs & Hall)%IH & [-> [= <-]]%spend_lift_Ok)%spend_bind_Ok).
      unfold answered in *. rewrite len_cons. split_and!; [done | lia | lia | lia | by constructor].
    + apply IH in Hq as (-> & Hs & Hall). split_and!; [done | lia | lia | lia | done].
  - apply IH in Hq as (-> & Hs & Hall). split_and!; [done | lia | lia | lia | done].
Qed.

(** A query that succeeds tests every pose once, and answers with exactly the included poses that it
    meets, nearest first and then by identity, at finite distances that are not negative, each paid
    from the budget. *)
Theorem query_hits_exact f q include b b' hits :
  query f q include b = (b', Ok hits) ->
  query_valid vec_length_squared max_element q = true
  /\ hits ≡ₚ omap (meets q include) (hf_poses f) /\ StronglySorted hit_le hits
  /\ answered (len (hf_poses f)) (len hits) b b'
  /\ Forall (fun h => is_finite (hit_distance h) = true /\ SFltb (hit_distance h) f32_zero = false) hits.
Proof.
  unfold HitHistory.query. destruct (query_valid _ _ _); [| done].
  intros (found & b1 & (Hf & Ha & Hall)%query_poses_Ok & [-> [= <-]]%spend_lift_Ok)%spend_bind_Ok.
  pose proof (merge_sort_Permutation hit_le found) as Hperm. split_and!; try done.
  - by rewrite Hperm, Hf.
  - apply (StronglySorted_merge_sort hit_le); apply _.
  - unfold len. rewrite (Permutation_length Hperm). done.
  - by rewrite Hperm.
Qed.
End Queries.

(** ** Witnesses *)

Module HitDemo.
Definition zero3 : Vec3 := mkVec3 f32_zero f32_zero f32_zero.
Definition identity : Quat := mkQuat f32_zero f32_zero f32_zero f32_one.
Definition limits : HistoryLimits := mkHistoryLimits 2 2 4.
Definition actor (i : N) : CombatPose := mkCombatPose (mkColliderKey i 1) 1 1 zero3 identity (ShapeBall f32_one) [].
(** The captures are out of order; the first frame is retired. *)
Definition requests : list (N * N * list CombatPose) := [(4, 1, [actor 1]); (5, 1, [actor 3; actor 2]); (6, 1, [actor 2; actor 3])].
Definition unit_length (q : Quat) : f32 := f32_one.
Definition empty_history : History := mkHistory limits [] 0.
Definition after : History := mkHistory limits [mkHitFrame 5 1 [actor 2; actor 3]; mkHitFrame 6 1 [actor 2; actor 3]] 4.
Definition log : list HitFrame := [mkHitFrame 4 1 [actor 1]; mkHitFrame 5 1 [actor 2; actor 3]; mkHitFrame 6 1 [actor 2; actor 3]].
End HitDemo.

Lemma hit_history_exact_witness :
  exists h' log, run HitDemo.unit_length id HitDemo.empty_history HitDemo.requests [] = Some (h', log)
  /\ fits HitDemo.limits (hh_frames h').
Proof.
  destruct (hit_history_exact HitDemo.unit_length id HitDemo.limits HitDemo.empty_history HitDemo.requests) as (h' & log & Hrun & _ & Hfits & _);
    [vm_compute; reflexivity |].
  exists h', log. split; [exact Hrun | exact Hfits].
Defined.

Lemma rewound_cohort_exact_witness :
  sampled (fun a _ _ => a) (fun a _ _ => a) (fun p => bool_decide (ck_index (cp_entity p) = 2)) HitDemo.after 5 32768 1
    (mkQueryBudget 9 9 0) (mkQueryBudget 5 9 4) [HitDemo.actor 2].
Proof.
  pose proof (rewound_cohort_exact HitDemo.unit_length id (fun a _ _ => a) (fun a _ _ => a) (fun p => bool_decide (ck_index (cp_entity p) = 2))
    HitDemo.limits HitDemo.empty_history HitDemo.requests HitDemo.after HitDemo.log 5 32768 1 (mkQueryBudget 9 9 0) (mkQueryBudget 5 9 4)
    (mkHitFrame 5 1 [HitDemo.actor 2])) as Hiff.
  destruct Hiff as [Hsound _]; [vm_compute; reflexivity | vm_compute; reflexivity |].
  destruct Hsound as [_ Hsampled]; [vm_compute; reflexivity | exact Hsampled].
Defined.
