(* ===== verification/Charge.v ===== *)
(** * Charged movement

    Models [abilities/charge.rs] and the meters of [combat/meters.rs] of [engine/core], and the game's policy for
    them, [state/charge.rs], with the step of [systems/player.rs] that executes it. The vector library's
    normalization and squared length are parameters, as is the physics that moves the owner. *)

From S2P Require Import Prelude Types Floats SchemaValues InterestModel Codec Payload Player Commands Replication Groups Baselines HitHistory LiveMessages.
Local Open Scope N_scope.
Local Open Scope engine_scope.

(** ** Meters *)

Definition f32_add : f32 -> f32 -> f32 := SFadd 24 128.
Definition f32_sub : f32 -> f32 -> f32 := SFsub 24 128.
Definition f32_mul : f32 -> f32 -> f32 := SFmul 24 128.
Definition f32_div : f32 -> f32 -> f32 := SFdiv 24 128.
(** [a.min(b)]: a NaN is ignored. *)
Definition f32_min (a b : f32) : f32 :=
  match a with S754_nan => b | _ => if SFltb b a then b else a end.

Record Meter := mkMeter { mt_current : f32; mt_capacity : f32 }.

Definition Meter_new (current capacity : f32) : option Meter :=
  if negb (is_finite current) || negb (is_finite capacity) || SFltb current f32_zero || SFltb capacity current then None
  else Some (mkMeter current capacity).

Definition try_spend (m : Meter) (amount : f32) : Meter * bool :=
  if negb (is_finite amount) || SFltb amount f32_zero || SFltb (mt_current m) amount then (m, false)
  else (mkMeter (f32_sub (mt_current m) amount) (mt_capacity m), true).

Definition restore (m : Meter) (amount : f32) : Meter * f32 :=
  if negb (is_finite amount) || SFltb amount f32_zero then (m, f32_zero)
  else
    let restored := f32_min amount (f32_sub (mt_capacity m) (mt_current m)) in
    (mkMeter (f32_min (f32_add (mt_current m) restored) (mt_capacity m)) (mt_capacity m), restored).

(** ** Charges *)

Record MotionCurveKey := mkMotionCurveKey { mc_id : N; mc_version : N }.
#[global] Instance MotionCurveKey_eq_dec : EqDecision MotionCurveKey.
Proof. solve_decision. Defined.

Inductive ChargePhase :=
| Idle
| Charging (ticks : N)
| Executing (curve : MotionCurveKey) (cursor : N) (dir : direction) (distance : f32).

Definition is_idle (p : ChargePhase) : bool := match p with Idle => true | _ => false end.

Record ChargeState := mkChargeState { ch_episode : N; ch_phase : ChargePhase; ch_cooldown : N }.
#[export] Instance ChargeState_eta : Eta ChargeState := fun s => mkChargeState (ch_episode s) (ch_phase s) (ch_cooldown s).
Definition ChargeState_default : ChargeState := mkChargeState 0 Idle 0.

Definition charge_tick (s : ChargeState) (max_charge_ticks : N) : ChargeState :=
  let s := s <| ch_cooldown := saturating_sub (ch_cooldown s) 1 |> in
  match ch_phase s with
  | Charging ticks => s <| ch_phase := Charging (N.min (saturating_add u16_max ticks 1) max_charge_ticks) |>
  | _ => s
  end.

Definition charge_begin (s : ChargeState) (episode : N) : ChargeState * bool :=
  if bool_decide (episode = 0) || bool_decide (episode <= ch_episode s) || negb (is_idle (ch_phase s))
     || negb (bool_decide (ch_cooldown s = 0))
  then (s, false)
  else (s <| ch_episode := episode |> <| ch_phase := Charging 0 |>, true).

Definition charge_cancel (s : ChargeState) (episode : N) : ChargeState * bool :=
  if bool_decide (episode = 0) || negb (bool_decide (episode = ch_episode s)) || is_idle (ch_phase s) then (s, false)
  else (s <| ch_phase := Idle |>, true).

Definition charge_interrupt (s : ChargeState) : ChargeState := s <| ch_phase := Idle |>.

(** [windows(2).any(|s| !s[0].is_finite() || s[0] > s[1])]. *)
Fixpoint unsorted (samples : list f32) : bool :=
  match samples with
  | a :: ((b :: _) as rest) => (negb (is_finite a) || SFltb b a) || unsorted rest
  | _ => false
  end.

Definition starts_with (v : f32) (o : option f32) : bool := match o with Some w => SFeqb w v | None => false end.

(** [authored_motion_delta]; [usize] does not overflow. *)
Definition authored_motion_delta (s : ChargeState) (key : MotionCurveKey) (samples : list f32) : ChargeState * option direction :=
  match ch_phase s with
  | Executing curve cursor dir distance =>
      let i := N.to_nat cursor in
      if negb (bool_decide (curve = key)) || bool_decide (len samples < 2) || bool_decide (u16_max + 1 < len samples)
         || bool_decide (len samples <= cursor + 1)
         || negb (starts_with f32_zero (head samples)) || negb (starts_with f32_one (last samples)) || unsorted samples
         || negb (is_finite distance) || SFltb distance f32_zero || negb (is_finite dir.1 && is_finite dir.2)
         || SFltb UNIT_TOLERANCE (SFabs (f32_sub (f32_add (f32_mul dir.1 dir.1) (f32_mul dir.2 dir.2)) f32_one))
      then (s, None)
      else
        let amount := f32_mul (f32_sub (nth (S i) samples S754_nan) (nth i samples S754_nan)) distance in
        let phase := if decide (cursor + 2 = len samples) then Idle else Executing curve (cursor + 1) dir distance in
        (s <| ch_phase := phase |>, Some (f32_mul dir.1 amount, f32_mul dir.2 amount))
  | _ => (s, None)
  end.

(** ** The game's policy *)

Definition CHARGE_MIN_TICKS : N := 6.
Definition CHARGE_MAX_TICKS : N := 36.
Definition CHARGE_COOLDOWN : N := 90.
Definition CHARGE_MAX_DISTANCE : f32 := Eval vm_compute in f32_div (f32_of_Z 15) (f32_of_Z 2).
Definition CHARGE_CURVE : MotionCurveKey := mkMotionCurveKey 1 1.
Definition CHARGE_SAMPLES : list f32 := Eval vm_compute in
  (fun n => f32_div (f32_of_Z n) (f32_of_Z 1000)) <$> [0; 40; 110; 210; 340; 490; 640; 770; 870; 940; 980; 995; 1000]%Z.
Definition CHARGE_STAMINA_COST : f32 := Eval vm_compute in f32_of_Z 30.
Definition TICK_HZ : Z := 60.
(** [1.0 / TICK_HZ as f32] and [18.0 * DT]. *)
Definition DT : f32 := Eval vm_compute in f32_div (f32_of_Z 1) (f32_of_Z TICK_HZ).
Definition STAMINA_REGENERATION : f32 := Eval vm_compute in f32_mul (f32_of_Z 18) DT.
Definition THREE : f32 := Eval vm_compute in f32_of_Z 3.
Definition HUNDRED : f32 := Eval vm_compute in f32_of_Z 100.

Definition key_valid (k : RayActionKey) : bool :=
  bool_decide (0 < ra_match_epoch k) && bool_decide (0 < ra_actor k) && bool_decide (ra_actor k < N.shiftl 1 63)
  && bool_decide (0 < ra_actor_generation k) && bool_decide (0 < ra_command_sequence k) && bool_decide (ra_action_slot k < 8)
  && (if decide (ra_connection_epoch k = 0)
      then bool_decide (ra_command_stream k = 0) && bool_decide (ra_ownership_epoch k = 0)
      else bool_decide (0 < ra_command_stream k) && bool_decide (0 < ra_ownership_epoch k)).

Definition same_stream (a b : RayActionKey) : bool :=
  bool_decide (ra_match_epoch a = ra_match_epoch b) && bool_decide (ra_connection_epoch a = ra_connection_epoch b)
  && bool_decide (ra_command_stream a = ra_command_stream b) && bool_decide (ra_ownership_epoch a = ra_ownership_epoch b)
  && bool_decide (ra_actor a = ra_actor b) && bool_decide (ra_actor_generation a = ra_actor_generation b).

Record ChargedMovement := mkChargedMovement { cm_state : ChargeState; cm_stamina : Meter; cm_begin_key : option RayActionKey }.
#[export] Instance ChargedMovement_eta : Eta ChargedMovement := fun c => mkChargedMovement (cm_state c) (cm_stamina c) (cm_begin_key c).

(** [ChargedMovement::default()]; the stamina's [unwrap] is of a full meter. *)
Definition ChargedMovement_default : ChargedMovement :=
  mkChargedMovement ChargeState_default (default (mkMeter S754_nan S754_nan) (Meter_new HUNDRED HUNDRED)) None.

(** The distance of a charge released after [ticks]. *)
Definition charge_distance (ticks : N) : f32 :=
  f32_add THREE (f32_div (f32_mul (f32_sub CHARGE_MAX_DISTANCE THREE) (f32_of_Z (Z.of_N (ticks - CHARGE_MIN_TICKS))))
                   (f32_of_Z (Z.of_N (CHARGE_MAX_TICKS - CHARGE_MIN_TICKS)))).

Section Policy.
Context (length_squared : direction -> f32) (normalize_or_zero : direction -> direction).

Definition movement_valid (c : ChargedMovement) (actor generation : N) : bool :=
  let s := cm_state c in
  SFeqb (mt_capacity (cm_stamina c)) HUNDRED && bool_decide (ch_cooldown s <= CHARGE_COOLDOWN)
  && is_none_or (cm_begin_key c) (fun k =>
       key_valid k && bool_decide (ra_actor k = actor) && bool_decide (ra_actor_generation k = generation)
       && bool_decide (ra_command_sequence k = ch_episode s))
  && match ch_phase s with
     | Idle => true
     | Charging ticks => bool_decide (0 < ch_episode s) && bool_decide (ticks <= CHARGE_MAX_TICKS)
     | Executing curve cursor dir distance =>
         bool_decide (0 < ch_episode s) && bool_decide (curve = CHARGE_CURVE) && bool_decide (cursor < len CHARGE_SAMPLES - 1)
         && is_finite distance && (SFleb THREE distance && SFleb distance CHARGE_MAX_DISTANCE)
         && (is_finite dir.1 && is_finite dir.2)
         && SFltb (SFabs (f32_sub (length_squared dir) f32_one)) UNIT_TOLERANCE
     end.

Definition is_begin (c : ChargeCommand) : bool := match c with ChargeCommandBegin _ => true | _ => false end.

(** The keys of later commands follow the begin key in its stream. *)
Definition key_refused (c : ChargedMovement) (command : ChargeCommand) (key : RayActionKey) : bool :=
  negb (key_valid key)
  || (negb (is_begin command)
      && is_none_or (cm_begin_key c) (fun first => negb (same_stream first key)
                                                   || bool_decide (ra_command_sequence key <= ra_command_sequence first))).

(** A new authenticated command stream starts a new episode namespace. *)
Definition fresh_stream (c : ChargedMovement) (key : option RayActionKey) : bool :=
  match key, cm_begin_key c with Some k, Some first => negb (same_stream first k) | _, _ => false end.
Definition new_namespace (c : ChargedMovement) (key : option RayActionKey) : ChargedMovement :=
  if fresh_stream c key && is_idle (ch_phase (cm_state c)) && bool_decide (ch_cooldown (cm_state c) = 0)
  then c <| cm_state := (cm_state c) <| ch_episode := 0 |> |> else c.

Definition prepare_begin (c : ChargedMovement) (key : option RayActionKey) (episode : N) : ChargedMovement * ActionReason :=
  if match key with Some k => negb (bool_decide (ra_command_sequence k = episode)) | None => false end then (c, ReasonInvalidAction)
  else if SFltb (mt_current (cm_stamina c)) CHARGE_STAMINA_COST then (c, ReasonResource)
  else
    let c := new_namespace c key in
    match charge_begin (cm_state c) episode with
    | (s, true) => (c <| cm_state := s |> <| cm_begin_key := key |>, ReasonAccepted)
    | (s, false) => (c <| cm_state := s |>, ReasonCooldown)
    end.

Definition zero_direction (d : direction) : bool := SFeqb d.1 f32_zero && SFeqb d.2 f32_zero.

Definition prepare_release (c : ChargedMovement) (aim : direction) (episode : N) : ChargedMovement * ActionReason :=
  match ch_phase (cm_state c) with
  | Charging ticks =>
      if decide (episode <> ch_episode (cm_state c)) then (c, ReasonInvalidAction)
      else if decide (ticks < CHARGE_MIN_TICKS) then (c <| cm_state := charge_interrupt (cm_state c) |>, ReasonAccepted)
      else
        let dir := normalize_or_zero aim in
        if zero_direction dir || negb (is_finite dir.1 && is_finite dir.2) then (c, ReasonInvalidAction)
        else match try_spend (cm_stamina c) CHARGE_STAMINA_COST with
        | (stamina, false) => (c <| cm_stamina := stamina |> <| cm_state := charge_interrupt (cm_state c) |>, ReasonResource)
        | (stamina, true) =>
            let s := (cm_state c) <| ch_cooldown := CHARGE_COOLDOWN |>
                                  <| ch_phase := Executing CHARGE_CURVE 0 dir (charge_distance ticks) |> in
            (c <| cm_stamina := stamina |> <| cm_state := s |>, ReasonAccepted)
        end
  | _ => (c, ReasonInvalidAction)
  end.

Definition prepare (c : ChargedMovement) (command : ChargeCommand) (key : option RayActionKey) (aim : direction) (interrupted : bool)
  : ChargedMovement * ActionReason :=
  let c := c <| cm_state := charge_tick (cm_state c) CHARGE_MAX_TICKS |> in
  let c := if is_idle (ch_phase (cm_state c)) then c <| cm_stamina := (restore (cm_stamina c) STAMINA_REGENERATION).1 |> else c in
  if interrupted then (c <| cm_state := charge_interrupt (cm_state c) |>, ReasonInactive)
  else if match key with Some k => key_refused c command k | None => false end then (c, ReasonInvalidAction)
  else match command with
  | ChargeNone => (c, ReasonAccepted)
  | ChargeCommandBegin episode => prepare_begin c key episode
  | ChargeCommandCancel episode =>
      match charge_cancel (cm_state c) episode with
      | (s, true) => (c <| cm_state := s |>, ReasonAccepted)
      | (s, false) => (c <| cm_state := s |>, ReasonInvalidAction)
      end
  | ChargeCommandRelease episode => prepare_release c aim episode
  end.

(** What a step of the owner's motion answers: [InvalidState] of the charge, or the physics' own. *)
Inductive StepError (E : Type) := ChargeInvalidState | PhysicsError (e : E).

Definition is_executing (p : ChargePhase) : bool := match p with Executing _ _ _ _ => true | _ => false end.

(** The step of the owner: the charge is kept only when the motion succeeds. [physics] moves by the
    authored displacement, if any. *)
Definition charge_step {E R} (physics : option direction -> result E R) (c : ChargedMovement) (command : ChargeCommand)
    (key : option RayActionKey) (aim : direction) (interrupted : bool) : ChargedMovement * result (StepError E) (R * ActionReason) :=
  let '(staged, reason) := prepare c command key aim interrupted in
  let moved :=
    if is_executing (ch_phase (cm_state staged)) then
      match authored_motion_delta (cm_state staged) CHARGE_CURVE CHARGE_SAMPLES with
      | (s, Some delta) => Ok (staged <| cm_state := s |>, Some delta)
      | (_, None) => Err (ChargeInvalidState E)
      end
    else Ok (staged, None) in
  match moved with
  | Err e => (c, Err e)
  | Ok (staged, delta) =>
      match physics delta with
      | Err e => (c, Err (PhysicsError E e))
      | Ok r => (staged, Ok (r, reason))
      end
  end.
End Policy.
