(* ===== verification/ChargeProps.v ===== *)
(** * What charged movement guarantees

    The charge of an owner stays valid whatever is commanded and however aims are normalized, executes its curve
    sample by sample, and cannot execute again before its cooldown has passed. A step fails for the charge only when a
    release is aimed along a direction whose normalization is not of unit length, which [tiny_aim_refused] shows can
    happen for an input that was admitted. *)

From S2P Require Import Prelude Types Floats FloatFacts SchemaValues InterestModel Codec Payload Player Commands Replication Groups Baselines HitHistory LiveMessages Charge.
Local Open Scope N_scope.
Local Open Scope engine_scope.

(** ** Floats *)

Lemma SFcompare_antisym a b : SFcompare b a = CompOpp <$> SFcompare a b.
Proof.
  destruct a as [[] | [] | | [] ma ea], b as [[] | [] | | [] mb eb]; try done; unfold SFcompare;
    rewrite (Z.compare_antisym ea eb); destruct (Z.compare ea eb); try done;
    change (Pos.compare_cont Eq mb ma) with (Pos.compare mb ma); change (Pos.compare_cont Eq ma mb) with (Pos.compare ma mb);
    rewrite (Pos.compare_antisym ma mb); by destruct (Pos.compare ma mb).
Qed.

Lemma SFltb_asym a b : SFltb a b = true -> SFltb b a = false.
Proof. unfold SFltb. rewrite (SFcompare_antisym a b). by destruct (SFcompare a b) as [[] |]. Qed.

Lemma SFltb_total m e m' e' : (m, e) <> (m', e') ->
  SFltb (S754_finite false m e) (S754_finite false m' e') = negb (SFltb (S754_finite false m' e') (S754_finite false m e)).
Proof.
  intros Hne. unfold SFltb. rewrite (SFcompare_antisym (S754_finite false m e)). unfold SFcompare.
  destruct (Z.compare_spec e e') as [-> | ? | ?]; try done. change (Pos.compare_cont Eq m m') with (Pos.compare m m').
  destruct (Pos.compare_spec m m') as [-> | ? | ?]; done.
Qed.

(** A distance of at least three is not negative. *)
Lemma distance_nonneg d : SFleb THREE d = true -> SFltb d f32_zero = false.
Proof. by destruct d as [[] | [] | | [] m e]. Qed.

Lemma charge_distance_valid ticks : CHARGE_MIN_TICKS <= ticks <= CHARGE_MAX_TICKS ->
  is_finite (charge_distance ticks) = true /\ SFleb THREE (charge_distance ticks) = true
  /\ SFleb (charge_distance ticks) CHARGE_MAX_DISTANCE = true.
Proof.
  intros Ht. unfold CHARGE_MIN_TICKS, CHARGE_MAX_TICKS in Ht.
  assert (Forall (fun n => let d := charge_distance (6 + N.of_nat n) in
    is_finite d = true /\ SFleb THREE d = true /\ SFleb d CHARGE_MAX_DISTANCE = true) (seq 0 31)) as Hall.
  { repeat (constructor; [vm_compute; done |]). constructor. }
  rewrite Forall_forall in Hall. specialize (Hall (N.to_nat (ticks - 6))).
  replace (6 + N.of_nat (N.to_nat (ticks - 6))) with ticks in Hall by lia. apply Hall. apply elem_of_seq. lia.
Qed.

(** *** Squared lengths *)

Section Squares.
Local Open Scope Z_scope.

(** A sum of squares: zero, infinite, or positive with the digits of the format. *)
Definition shape (v : spec_float) : Prop :=
  v = S754_zero false \/ v = S754_infinity false \/ exists m e, v = S754_finite false m e /\ Zpos m < 2 ^ 24.

Lemma square_shape a : is_finite a = true -> shape (f32_mul a a).
Proof.
  unfold f32_mul, shape. destruct a as [s | s | | s m e]; simpl; try done; intros _; rewrite xorb_nilpotent; [by left |].
  destruct (round_aux_shape 24 128 eq_refl false (Zpos (m * m)) (e + e) loc_Exact) as [-> | [-> | (m' & e' & -> & ? & _)]]; eauto 9; lia.
Qed.

Lemma add_shape a b : shape a -> shape b -> shape (f32_add a b).
Proof.
  intros [-> | [-> | (m & e & -> & Hm)]] [-> | [-> | (m' & e' & -> & Hm')]]; unfold shape; cbn; eauto 9.
  match goal with |- context [binary_normalize _ _ ?z ?n _] => remember z as sum eqn:Hsum; set (ez := n) end.
  destruct sum as [| k | k]; [by left | | done]. simpl.
  destruct (round_shape 24 128 eq_refl false k ez) as [-> | [-> | (m2 & e2 & -> & ?)]]; eauto 9.
Qed.

Lemma log2_bounds n k : 2 ^ k <= n -> n <= 2 ^ (k + 1) -> 0 <= k -> k <= Z.log2 n <= k + 1.
Proof.
  intros Hlo Hhi Hk. split; [apply Z.log2_le_pow2; lia |]. etransitivity; [apply Z.log2_le_mono; exact Hhi |].
  rewrite Z.log2_pow2; lia.
Qed.

(** The tolerance has more digits behind the point than a difference of a short number and one. *)
Lemma off_by_tolerance x s :
  shape x -> f32_sub x f32_one <> S754_finite s 8589935 (-33).
Proof.
  intros [-> | [-> | (m & e & -> & Hm)]] H; [done | done |]. unfold f32_sub, f32_one, SFsub in H. cbn [cond_Zopp] in H.
  set (ez := Z.min e (-23)) in *.
  destruct (shl_align_ok m e ez) as (Hv & He & _). destruct (shl_align_ok 8388608 (-23) ez) as (Hv1 & He1 & _).
  replace (shl_align m e ez).2 with ez in Hv by lia. replace (shl_align 8388608 (-23) ez).2 with ez in Hv1 by lia.
  rewrite Hv, Hv1 in H. change 8388608 with (2 ^ 23) in H. rewrite <- Z.pow_add_r in H by lia.
  replace (23 + (-23 - ez)) with (- ez) in H by lia. remember (Zpos m * 2 ^ (e - ez) - 2 ^ (- ez)) as M eqn:HM.
  destruct (decide (e <= -25)) as [Hsmall | Hbig].
  - assert (ez = e) as Hez by lia. rewrite Hez in *. replace (e - e) with 0 in HM by lia. rewrite Z.mul_1_r in HM.
    assert (2 ^ 25 <= 2 ^ (- e)) as Hp by (apply Z.pow_le_mono_r; lia).
    assert (2 ^ (- e) = 2 * 2 ^ (- e - 1)) as Hdouble by (rewrite <- Z.pow_succ_r by lia; f_equal; lia).
    change (2 ^ 24) with 16777216 in Hm. change (2 ^ 25) with 33554432 in Hp.
    destruct M as [| k | k]; [lia | lia |]. simpl in H.
    assert (- e - 1 <= Z.log2 (Zpos k) <= - e - 1 + 1) as Hlog.
    { apply log2_bounds; [lia | | lia]. replace (- e - 1 + 1) with (- e) by lia. lia. }
    destruct (round_ok 24 128 eq_refl eq_refl true k e) as (m' & e' & Hr & _ & Hnear & _).
    { unfold mag, emin. lia. }
    { unfold mag. lia. }
    rewrite Hr in H. injection H as _ -> ->. apply near_within in Hnear. unfold mag in Hnear.
    change (Z.log2 8589935) with 23 in Hnear. lia.
  - assert (-24 <= ez <= -23) as Hez by lia.
    assert (forall k sx, binary_round 24 128 sx k ez = S754_finite s 8589935 (-33) -> False) as Hno.
    { intros k sx Hr. apply round_below in Hr; [| lia..]. replace (ez - -33) with (ez + 33) in Hr by lia.
      assert (ez = -24 \/ ez = -23) as [-> | ->] by lia; simpl in Hr; lia. }
    destruct M as [| k | k]; [done | by apply Hno in H | by apply Hno in H].
Qed.

(** So a squared length is on one side of the tolerance or on the other. *)
Lemma tolerance_decided a b : is_finite a = true -> is_finite b = true ->
  let off := SFabs (f32_sub (f32_add (f32_mul a a) (f32_mul b b)) f32_one) in
  SFltb off UNIT_TOLERANCE = negb (SFltb UNIT_TOLERANCE off).
Proof.
  intros Ha Hb. cbn zeta. pose proof (add_shape _ _ (square_shape a Ha) (square_shape b Hb)) as Hx.
  set (x := f32_add _ _) in *. clearbody x.
  pose proof (off_by_tolerance x false Hx) as H1. pose proof (off_by_tolerance x true Hx) as H2.
  assert (f32_sub x f32_one <> S754_nan) as H3.
  { destruct Hx as [-> | [-> | (m & e & -> & _)]]; [done | done |]. unfold f32_sub, f32_one, SFsub.
    destruct (_ - _) as [| k | k]; simpl; [done | |];
      destruct (round_shape 24 128 eq_refl false k (Z.min e (-23))) as [Hr | [Hr | (? & ? & Hr & _)]];
      destruct (round_shape 24 128 eq_refl true k (Z.min e (-23))) as [Hr' | [Hr' | (? & ? & Hr' & _)]]; congruence. }
  destruct (f32_sub x f32_one) as [s | s | | s m e]; try done.
  apply SFltb_total. intros [= -> ->]. destruct s; done.
Qed.
End Squares.

Section Policy.
Context (length_squared : direction -> f32) (normalize_or_zero : direction -> direction).
(** The vector library: the squared length is the sum of the squares. Nothing is assumed of the
    normalization. *)
Context (length_squared_sum : forall d, length_squared d = f32_add (f32_mul d.1 d.1) (f32_mul d.2 d.2)).
Abbreviation prepare := (prepare normalize_or_zero).
Abbreviation movement_valid := (movement_valid length_squared).

(** How far a squared length is from one. *)
Definition off_unit (d : direction) : f32 := SFabs (f32_sub (length_squared d) f32_one).
Definition unit_direction (d : direction) : Prop := SFltb (off_unit d) UNIT_TOLERANCE = true.

Lemma unit_direction_iff d : is_finite d.1 && is_finite d.2 = true ->
  unit_direction d <-> SFltb UNIT_TOLERANCE (off_unit d) = false.
Proof.
  intros [H1 H2]%andb_true_iff. unfold unit_direction, off_unit. rewrite length_squared_sum, tolerance_decided by done.
  by rewrite negb_true_iff.
Qed.

(** The clauses of validity, with what is asked of the direction of an execution. *)
Section Clauses.
Context (U : direction -> Prop).

Definition phase_ok (s : ChargeState) : Prop :=
  match ch_phase s with
  | Idle => True
  | Charging ticks => 0 < ch_episode s /\ ticks <= CHARGE_MAX_TICKS
  | Executing curve cursor dir distance =>
      0 < ch_episode s /\ curve = CHARGE_CURVE /\ cursor < 12 /\ is_finite distance = true
      /\ SFleb THREE distance = true /\ SFleb distance CHARGE_MAX_DISTANCE = true
      /\ is_finite dir.1 && is_finite dir.2 = true /\ U dir
  end.

Definition key_ok (actor generation episode : N) (key : option RayActionKey) : Prop :=
  forall k, key = Some k -> key_valid k = true /\ ra_actor k = actor /\ ra_actor_generation k = generation /\ ra_command_sequence k = episode.

Record charge_ok (actor generation : N) (c : ChargedMovement) : Prop := {
  ck_capacity : SFeqb (mt_capacity (cm_stamina c)) HUNDRED = true;
  ck_cooldown : ch_cooldown (cm_state c) <= CHARGE_COOLDOWN;
  ck_key : key_ok actor generation (ch_episode (cm_state c)) (cm_begin_key c);
  ck_phase : phase_ok (cm_state c);
}.

End Clauses.

Lemma charge_ok_weaken (U V : direction -> Prop) actor generation c :
  (forall d, U d -> V d) -> charge_ok U actor generation c -> charge_ok V actor generation c.
Proof.
  intros HUV [Hc Hd Hk Hp]. split; try done. unfold phase_ok in *. destruct (ch_phase _); try done.
  destruct Hp as (? & ? & ? & ? & ? & ? & ? & ?). split_and!; auto.
Qed.

Lemma charge_ok_valid actor generation c : charge_ok unit_direction actor generation c <-> movement_valid c actor generation = true.
Proof.
  unfold Charge.movement_valid. split.
  - intros [Hc Hd Hk Hp]. rewrite Hc, bool_decide_eq_true_2 by done. simpl. apply andb_true_iff. split.
    + destruct (cm_begin_key c) as [k |]; [| done]. destruct (Hk k eq_refl) as (Hv & Ha & Hg & Hs). simpl.
      by rewrite Hv, !bool_decide_eq_true_2 by done.
    + unfold phase_ok in Hp. destruct (ch_phase _) as [| ticks | curve cursor dir distance]; [done | |].
      * destruct Hp. by rewrite !bool_decide_eq_true_2 by done.
      * destruct Hp as (He & Hcu & Hcur & Hf & Hlo & Hhi & Hdir & Hlen). unfold unit_direction, off_unit in Hlen. rewrite Hf, Hlo, Hhi, Hdir, Hlen. by rewrite !bool_decide_eq_true_2 by done.
  - intros [[[Hc Hd%bool_decide_eq_true]%andb_true_iff Hk]%andb_true_iff Hp]%andb_true_iff. split; try done.
    + intros k Hkey. rewrite Hkey in Hk. simpl in Hk. repeat apply andb_true_iff in Hk as [Hk ?]. rewrite !bool_decide_eq_true in *.
      split_and!; try done. unfold key_valid. rewrite !andb_true_iff, !bool_decide_eq_true. done.
    + unfold phase_ok. destruct (ch_phase _) as [| ticks | curve cursor dir distance]; [done | |].
      * by rewrite andb_true_iff, !bool_decide_eq_true in Hp.
      * rewrite !andb_true_iff, !bool_decide_eq_true in Hp. destruct Hp as ((((((? & ?) & ?) & ?) & ? & ?) & ? & ?) & ?). split_and!; try done. by apply andb_true_iff.
Qed.

(** ** Steps keep the charge valid *)

Section Actor.
Context (actor gen : N).

(** Preparing keeps every clause but that of the direction. *)
Section Prepare.
Context (U : direction -> Prop) (anything : forall d, U d).
Abbreviation ok := (charge_ok U actor gen).

Lemma with_state c s : ok c -> phase_ok U s -> ch_episode s = ch_episode (cm_state c) -> ch_cooldown s <= CHARGE_COOLDOWN ->
  ok (c <| cm_state := s |>).
Proof. intros [Hc Hd Hk Hp] Hs He Hcd. split; try done. simpl. by rewrite He. Qed.

Lemma with_stamina c m : ok c -> mt_capacity m = mt_capacity (cm_stamina c) -> ok (c <| cm_stamina := m |>).
Proof. intros [Hc Hd Hk Hp] Hm. split; try done. simpl. by rewrite Hm. Qed.

Lemma tick_ok c : ok c -> ok (c <| cm_state := charge_tick (cm_state c) CHARGE_MAX_TICKS |>).
Proof.
  intros Hok. pose proof (ck_phase _ _ _ _ Hok) as Hp. pose proof (ck_cooldown _ _ _ _ Hok) as Hc. apply with_state; [done | | |]; unfold charge_tick; simpl;
    unfold phase_ok in *; destruct (ch_phase (cm_state c)) as [| ticks |] eqn:Hph; simpl; rewrite ?Hph; try done; try (unfold saturating_sub; lia).
Qed.

Lemma restore_capacity m amount : mt_capacity (restore m amount).1 = mt_capacity m.
Proof. unfold restore. by destruct (_ || _). Qed.

Lemma try_spend_capacity m amount : mt_capacity (try_spend m amount).1 = mt_capacity m.
Proof. unfold try_spend. by destruct (_ || _). Qed.

Lemma interrupt_ok c : ok c -> ok (c <| cm_state := charge_interrupt (cm_state c) |>).
Proof. intros Hok. apply with_state; try done. apply Hok. Qed.

(** The keys that reach the charge of an actor name it. *)
Definition own_key (key : option RayActionKey) : Prop :=
  forall k, key = Some k -> ra_actor k = actor /\ ra_actor_generation k = gen.

Lemma key_valid_sequence k : key_valid k = true -> 0 < ra_command_sequence k.
Proof. unfold key_valid. rewrite !andb_true_iff, !bool_decide_eq_true. tauto. Qed.

Lemma begin_result s episode s' started : charge_begin s episode = (s', started) ->
  if started then 0 < episode /\ ch_cooldown s = 0 /\ s' = mkChargeState episode (Charging 0) 0
  else s' = s /\ ~ (0 < episode /\ ch_episode s < episode /\ ch_phase s = Idle /\ ch_cooldown s = 0).
Proof.
  unfold charge_begin. destruct (_ || _) eqn:Hb; intros [= <- <-].
  - split; [done |]. intros (H1 & H2 & H3 & H4). rewrite H3, H4 in Hb. rewrite !bool_decide_eq_false_2 in Hb by lia. done.
  - do 3 apply orb_false_iff in Hb as [Hb ?]. rewrite ?negb_false_iff, ?bool_decide_eq_true, ?bool_decide_eq_false in *.
    split_and!; [lia | done |]. destruct s. simpl in *. by subst.
Qed.

Lemma begin_ok c key episode : ok c -> own_key key -> (forall k, key = Some k -> key_valid k = true) -> ok (prepare_begin c key episode).1.
Proof.
  intros Hok Hown Hvalid. unfold prepare_begin.
  destruct (match key with Some _ => _ | None => _ end) eqn:Hseq; [done |]. destruct (SFltb _ _); [done |].
  cbv zeta. set (c1 := new_namespace c key).
  assert (forall k, key = Some k -> ra_command_sequence k = episode) as Hepisode.
  { intros k ->. by apply negb_false_iff, bool_decide_eq_true in Hseq. }
  destruct (charge_begin (cm_state c1) episode) as [s started] eqn:Hb. apply begin_result in Hb.
  assert (cm_stamina c1 = cm_stamina c) as Hst by (unfold c1, new_namespace; by destruct (_ && _)).
  destruct started; cbn [fst].
  - destruct Hb as (He & Hcd & ->). split; cbn; [rewrite Hst; apply Hok | lia | | unfold phase_ok; cbn; lia].
    intros k Hk. destruct (Hown k Hk) as [? ?]. split_and!; try done; [by apply Hvalid | by apply Hepisode].
  - destruct Hb as [-> Hno]. assert (c1 = c) as Hc1.
    { unfold c1, new_namespace in *. destruct (fresh_stream c key && _ && _) eqn:Hf; [| done]. exfalso. apply Hno. cbn.
      apply andb_true_iff in Hf as [[Hfr Hidle]%andb_true_iff Hcd%bool_decide_eq_true]. unfold fresh_stream in Hfr.
      destruct key as [k |]; [| done]. pose proof (key_valid_sequence k (Hvalid k eq_refl)). rewrite (Hepisode k eq_refl) in *.
      destruct (ch_phase (cm_state c)) eqn:Hph; try done. }
    rewrite Hc1. replace (c <| cm_state := cm_state c |>) with c by (by destruct c). done.
Qed.

Lemma charge_release_ok c aim episode : ok c -> ok (prepare_release normalize_or_zero c aim episode).1.
Proof.
  intros Hok. pose proof (ck_phase _ _ _ _ Hok) as Hp. unfold prepare_release, phase_ok in *. destruct (ch_phase (cm_state c)) as [| ticks |]; try done.
  case_decide; [done |]. case_decide as Hmin; [by apply interrupt_ok |]. destruct (_ || _) eqn:Hdir; [done |].
  apply orb_false_iff in Hdir as [Hz Hfin%negb_false_iff]. pose proof (try_spend_capacity (cm_stamina c) CHARGE_STAMINA_COST) as Hcap.
  destruct (try_spend _ _) as [m []]; cbn [fst] in *.
  - destruct Hok as [Hc Hd Hk _]. split; cbn; [by rewrite Hcap | done | done |]. unfold phase_ok. cbn.
    destruct (charge_distance_valid ticks) as (? & ? & ?); [lia |]. destruct Hp. by split_and!.
  - exact (interrupt_ok _ (with_stamina c m Hok Hcap)).
Qed.

Lemma charge_cancel_ok c episode : ok c -> ok (c <| cm_state := (charge_cancel (cm_state c) episode).1 |>).
Proof.
  intros Hok. unfold charge_cancel. destruct (_ || _); cbn [fst]; [| by apply interrupt_ok].
  replace (c <| cm_state := cm_state c |>) with c by (by destruct c). done.
Qed.

Lemma charge_prepare_ok c command key aim interrupted : ok c -> own_key key -> ok (prepare c command key aim interrupted).1.
Proof.
  intros Hok%tick_ok Hown. unfold Charge.prepare. set (c0 := c <| cm_state := _ |>) in *. cbv zeta.
  set (c1 := if is_idle _ then _ else c0). assert (ok c1) as Hok1.
  { unfold c1. destruct (is_idle _); [| done]. apply with_stamina; [done | apply restore_capacity]. }
  clearbody c1. destruct interrupted; [by apply interrupt_ok |]. destruct (match key with Some _ => _ | None => _ end) eqn:Hkey; [done |].
  assert (forall k, key = Some k -> key_valid k = true) as Hvalid.
  { intros k ->. by apply orb_false_iff in Hkey as [?%negb_false_iff _]. }
  destruct command as [| episode | episode | episode]; [done | by apply begin_ok | by apply charge_release_ok |].
  pose proof (charge_cancel_ok c1 episode Hok1) as Hc. by destruct (charge_cancel _ _) as [s []].
Qed.

End Prepare.

(** ** How the phases follow each other *)

Definition quiet (s : ChargeState) : Prop := forall t, ch_phase s = Charging t -> ch_cooldown s = 0.

(** One tick later: the cooldown has fallen by at most one; a charge builds up only without one; and an execution goes
    on, or was released from a charge and restarts the cooldown. *)
Definition follows (s s' : ChargeState) : Prop :=
  ch_cooldown s - 1 <= ch_cooldown s'
  /\ match ch_phase s' with
     | Idle => True
     | Charging _ => ch_cooldown s' = 0
     | Executing curve cursor dir distance =>
         ch_phase s = Executing curve cursor dir distance
         \/ (exists t, ch_phase s = Charging t) /\ cursor = 0 /\ ch_cooldown s' = CHARGE_COOLDOWN
     end.

Lemma follows_tick s : quiet s -> follows s (charge_tick s CHARGE_MAX_TICKS).
Proof.
  intros Hq. unfold follows, charge_tick, saturating_sub. cbn. destruct (ch_phase s) eqn:Hp; cbn; rewrite ?Hp; split; try lia; try done.
  - rewrite (Hq _ Hp). lia.
  - by left.
Qed.

Lemma follows_idle s s' : follows s s' -> follows s (charge_interrupt s').
Proof. intros [Hc _]. split; [done | done]. Qed.

Lemma follows_begin s s' c key episode : follows s s' -> cm_state c = s' -> follows s (cm_state (prepare_begin c key episode).1).
Proof.
  intros Hf <-. unfold prepare_begin. destruct (match key with Some _ => _ | None => _ end); [done |]. destruct (SFltb _ _); [done |].
  cbv zeta. set (c1 := new_namespace c key).
  assert (ch_cooldown (cm_state c1) = ch_cooldown (cm_state c) /\ ch_phase (cm_state c1) = ch_phase (cm_state c)) as [Hc Hp]
    by (unfold c1, new_namespace; by destruct (_ && _)).
  destruct (charge_begin _ _) as [s' started] eqn:Hb. apply begin_result in Hb. destruct Hf as [Hf1 Hf2]. destruct started; cbn.
  - destruct Hb as (_ & Hcd & ->). split; cbn; [lia | done].
  - destruct Hb as [-> _]. split; rewrite ?Hc, ?Hp; done.
Qed.

Lemma follows_release s c aim episode : quiet s -> follows s (cm_state c) ->
  (forall t, ch_phase (cm_state c) = Charging t -> exists t', ch_phase s = Charging t') ->
  follows s (cm_state (prepare_release normalize_or_zero c aim episode).1).
Proof.
  intros Hq Hf Ht. unfold prepare_release. destruct (ch_phase (cm_state c)) as [| ticks |] eqn:Hp; try done.
  case_decide; [done |]. case_decide; [by apply follows_idle |]. destruct (_ || _); [done |].
  destruct (try_spend _ _) as [m []]; cbn; [| by apply follows_idle].
  destruct (Ht _ eq_refl) as [t' Ht']. split; cbn; [rewrite (Hq _ Ht'); lia |]. right. eauto.
Qed.

Lemma prepare_follows c command key aim interrupted : quiet (cm_state c) ->
  follows (cm_state c) (cm_state (prepare c command key aim interrupted).1).
Proof.
  intros Hq. pose proof (follows_tick _ Hq) as Hf. unfold Charge.prepare. set (c0 := c <| cm_state := _ |>). cbv zeta.
  set (c1 := if is_idle _ then _ else c0).
  assert (cm_state c1 = charge_tick (cm_state c) CHARGE_MAX_TICKS) as Hc1 by (unfold c1; by destruct (is_idle _)).
  clearbody c1. rewrite <- Hc1 in Hf. destruct interrupted; [by apply follows_idle |].
  destruct (match key with Some _ => _ | None => _ end); [done |].
  destruct command as [| episode | episode | episode]; [done | by eapply follows_begin | |].
  - apply follows_release; [done | done |]. intros t. rewrite Hc1. unfold charge_tick. cbn. destruct (ch_phase (cm_state c)) eqn:Hp; cbn; rewrite ?Hp; eauto; done.
  - unfold charge_cancel. destruct (_ || _); cbn; [done | by apply follows_idle].
Qed.

(** An execution goes on, or was released from a charge along the normalized aim. *)
Lemma prepare_executing c command key aim interrupted curve cursor dir distance :
  ch_phase (cm_state (prepare c command key aim interrupted).1) = Executing curve cursor dir distance ->
  ch_phase (cm_state c) = Executing curve cursor dir distance
  \/ exists episode ticks, command = ChargeCommandRelease episode /\ ch_phase (cm_state c) = Charging ticks
       /\ dir = normalize_or_zero aim.
Proof.
  unfold Charge.prepare. set (c0 := c <| cm_state := _ |>). cbv zeta. set (c1 := if is_idle _ then _ else c0).
  assert (forall curve cursor dir distance, ch_phase (cm_state c1) = Executing curve cursor dir distance ->
            ch_phase (cm_state c) = Executing curve cursor dir distance) as Hexec.
  { assert (cm_state c1 = charge_tick (cm_state c) CHARGE_MAX_TICKS) as -> by (unfold c1; by destruct (is_idle _)).
    intros *. unfold charge_tick. cbn. destruct (ch_phase (cm_state c)) eqn:Hp; cbn; by rewrite ?Hp. }
  assert (forall t, ch_phase (cm_state c1) = Charging t -> exists t', ch_phase (cm_state c) = Charging t') as Hchg.
  { assert (cm_state c1 = charge_tick (cm_state c) CHARGE_MAX_TICKS) as -> by (unfold c1; by destruct (is_idle _)).
    intros t. unfold charge_tick. cbn. destruct (ch_phase (cm_state c)) eqn:Hp; cbn; rewrite ?Hp; [done | eauto | done]. }
  clearbody c1. destruct interrupted; [done |]. destruct (match key with Some _ => _ | None => _ end); [by left; apply Hexec |].
  destruct command as [| episode | episode | episode]; [by left; apply Hexec | | |].
  - unfold prepare_begin. destruct (match key with Some _ => _ | None => _ end); [by left; apply Hexec |].
    destruct (SFltb _ _); [by left; apply Hexec |]. cbv zeta.
    assert (ch_phase (cm_state (new_namespace c1 key)) = ch_phase (cm_state c1)) as Hn
      by (unfold new_namespace; by destruct (_ && _)).
    destruct (charge_begin _ _) as [s []] eqn:Hb; apply begin_result in Hb; cbn.
    + destruct Hb as (_ & _ & ->). done.
    + destruct Hb as [-> _]. rewrite Hn. by left; apply Hexec.
  - unfold prepare_release. destruct (ch_phase (cm_state c1)) as [| ticks |] eqn:Hp; cbn; rewrite ?Hp; [done | | by left; apply Hexec].
    destruct (Hchg ticks eq_refl) as [t' Ht']. case_decide; [cbn; by rewrite Hp |]. case_decide; [done |].
    destruct (_ || _); [cbn; by rewrite Hp |]. destruct (try_spend _ _) as [m []]; cbn; [| done]. intros [= <- <- <- <-]. right. eauto.
  - unfold charge_cancel. destruct (_ || _); cbn; [by left; apply Hexec | done].
Qed.

(** ** Executions *)

(** A sample of the curve is stepped unless the direction is not of unit length. *)
Lemma motion_cases U s curve cursor dir distance : phase_ok U s -> ch_phase s = Executing curve cursor dir distance ->
  if SFltb UNIT_TOLERANCE (off_unit dir) then authored_motion_delta s CHARGE_CURVE CHARGE_SAMPLES = (s, None)
  else exists delta, authored_motion_delta s CHARGE_CURVE CHARGE_SAMPLES
       = (s <| ch_phase := if decide (cursor + 2 = 13) then Idle else Executing curve (cursor + 1) dir distance |>, Some delta).
Proof.
  intros Hok Hp. unfold phase_ok, authored_motion_delta, off_unit in *. rewrite Hp in *. rewrite length_squared_sum.
  destruct Hok as (_ & -> & Hcur & Hf & Hlo & _ & Hdir & _). rewrite (distance_nonneg _ Hlo), Hf, Hdir.
  change (len CHARGE_SAMPLES) with 13. rewrite (bool_decide_eq_true_2 (CHARGE_CURVE = CHARGE_CURVE)) by done.
  rewrite !bool_decide_eq_false_2 by (unfold u16_max; lia). change (unsorted CHARGE_SAMPLES) with false. cbv [negb orb andb].
  change (starts_with f32_zero (head CHARGE_SAMPLES)) with true. change (starts_with f32_one (last CHARGE_SAMPLES)) with true.
  cbv iota. destruct (SFltb UNIT_TOLERANCE _); [done |]. eexists. reflexivity.
Qed.

Lemma motion_keeps U c curve cursor dir distance :
  charge_ok U actor gen c -> ch_phase (cm_state c) = Executing curve cursor dir distance -> unit_direction dir ->
  charge_ok unit_direction actor gen
    (c <| cm_state := (cm_state c) <| ch_phase := if decide (cursor + 2 = 13) then Idle else Executing curve (cursor + 1) dir distance |> |>).
Proof.
  intros [Hc Hd Hk Hph] Hp Hu. split; try done. unfold phase_ok in *. rewrite Hp in Hph. cbn.
  case_decide; [done |]. destruct Hph as (? & ? & ? & ? & ? & ? & ? & _). split_and!; try done. lia.
Qed.

(** An idle or building charge has no direction. *)
Lemma no_direction U c : charge_ok U actor gen c -> is_executing (ch_phase (cm_state c)) = false ->
  charge_ok unit_direction actor gen c.
Proof. intros [Hc Hd Hk Hph] Hp. split; try done. unfold phase_ok in *. by destruct (ch_phase _). Qed.

(** A step: nothing when the physics refuses it; otherwise the cooldown has fallen by at most one, and an execution is
    one sample further or has just started, with its cooldown. *)
Definition advances (c c' : ChargedMovement) : Prop :=
  let s := cm_state c in
  let s' := cm_state c' in
  c' = c
  \/ ch_cooldown s - 1 <= ch_cooldown s'
     /\ match ch_phase s' with
        | Executing curve cursor dir distance =>
            (exists before, ch_phase s = Executing curve before dir distance /\ cursor = before + 1)
            \/ (exists t, ch_phase s = Charging t) /\ cursor = 1 /\ ch_cooldown s' = CHARGE_COOLDOWN
        | _ => True
        end.

(** The one failure of the charge: a release along an aim whose normalization is not of unit length. *)
Definition misnormalized (c : ChargedMovement) (command : ChargeCommand) (aim : direction) : Prop :=
  exists episode ticks, command = ChargeCommandRelease episode /\ ch_phase (cm_state c) = Charging ticks
    /\ SFltb UNIT_TOLERANCE (off_unit (normalize_or_zero aim)) = true.

Lemma step_ok {E R} (physics : option direction -> result E R) c command key aim interrupted c' r :
  charge_ok unit_direction actor gen c -> quiet (cm_state c) -> own_key key ->
  charge_step normalize_or_zero physics c command key aim interrupted = (c', r) ->
  charge_ok unit_direction actor gen c' /\ quiet (cm_state c') /\ advances c c'
  /\ (r = Err (ChargeInvalidState E) -> c' = c /\ misnormalized c command aim).
Proof.
  intros Hok Hq Hown. unfold charge_step.
  pose proof (charge_prepare_ok (fun _ => True) (fun _ => I) c command key aim interrupted
                (charge_ok_weaken _ _ _ _ _ (fun _ _ => I) Hok) Hown) as Hok'.
  pose proof (prepare_follows c command key aim interrupted Hq) as [Hc Hph].
  pose proof (prepare_executing c command key aim interrupted) as Hex.
  destruct (prepare _ _ _ _ _) as [staged reason]. cbn [fst] in *.
  destruct (ch_phase (cm_state staged)) as [| t | curve cursor dir distance] eqn:Hp; cbn [is_executing].
  1,2: assert (charge_ok unit_direction actor gen staged) as Hst by (eapply no_direction; [exact Hok' | by rewrite Hp]);
    destruct (physics None); intros [= <- <-]; split_and!; try done; try (by left); [intros t'; rewrite ?Hp | right; rewrite Hp]; done.
  specialize (Hex _ _ _ _ eq_refl). pose proof (ck_phase _ _ _ _ Hok') as Hphase.
  assert (is_finite dir.1 && is_finite dir.2 = true) as Hfin by (unfold phase_ok in Hphase; rewrite Hp in Hphase; tauto).
  pose proof (motion_cases _ _ _ _ _ _ Hphase Hp) as Hmot.
  destruct (SFltb UNIT_TOLERANCE (off_unit dir)) eqn:Htol.
  - rewrite Hmot. intros [= <- <-]. split_and!; try done; [by left |]. intros _. split; [done |].
    destruct Hex as [Hex | (episode & ticks & -> & Hch & ->)]; [exfalso | by exists episode, ticks].
    pose proof (ck_phase _ _ _ _ Hok) as Hbefore. unfold phase_ok in Hbefore. rewrite Hex in Hbefore.
    destruct Hbefore as (_ & _ & _ & _ & _ & _ & _ & Hu). apply unit_direction_iff in Hu; [congruence | done].
  - destruct Hmot as [delta ->]. assert (unit_direction dir) as Hu by by apply unit_direction_iff.
    pose proof (motion_keeps _ _ _ _ _ _ Hok' Hp Hu) as Hkeep.
    destruct (physics (Some delta)); intros [= <- <-]; split_and!; try done; try (by left).
    + intros t. cbn. by case_decide.
    + right. cbn. split; [done |]. case_decide; [done |]. destruct Hph as [Hph | (Hch & -> & Hcd)]; [left; eauto | by right].
Qed.
End Actor.

(** ** Runs *)

Inductive charge_move (actor gen : N) (c c' : ChargedMovement) : Prop :=
| charge_moved {E R} (physics : option direction -> result E R) command key aim interrupted r :
    own_key actor gen key -> charge_step normalize_or_zero physics c command key aim interrupted = (c', r) -> charge_move actor gen c c'.

(** The states of the charge of an actor, tick by tick. *)
Definition charge_run (actor gen : N) (trace : list ChargedMovement) : Prop :=
  trace !! 0%nat = Some ChargedMovement_default
  /\ forall i c c', trace !! i = Some c -> trace !! S i = Some c' -> charge_move actor gen c c'.

(** A tick at which an execution starts. *)
Definition starts_at (trace : list ChargedMovement) (i : nat) : Prop :=
  exists c c', trace !! i = Some c /\ trace !! S i = Some c' /\ is_executing (ch_phase (cm_state c)) = false
  /\ is_executing (ch_phase (cm_state c')) = true.

Lemma default_ok actor gen : charge_ok unit_direction actor gen ChargedMovement_default /\ quiet (cm_state ChargedMovement_default).
Proof. split; [| done]. split; try done. Qed.

Lemma charge_run_ok actor gen trace : charge_run actor gen trace -> forall i c, trace !! i = Some c -> charge_ok unit_direction actor gen c /\ quiet (cm_state c).
Proof.
  intros [H0 Hstep]. induction i as [| i IH]; intros c Hc.
  - rewrite H0 in Hc. injection Hc as <-. apply default_ok.
  - destruct (trace !! i) as [b |] eqn:Hb.
    + destruct (IH b eq_refl) as [Hok Hq]. destruct (Hstep i b c Hb Hc) as [E R physics command key aim interrupted r Hown Hs].
      by destruct (step_ok actor gen physics b command key aim interrupted c r Hok Hq Hown Hs) as (? & ? & _).
    + apply lookup_ge_None in Hb. apply lookup_lt_Some in Hc. lia.
Qed.

Lemma run_advances actor gen trace i c c' : charge_run actor gen trace -> trace !! i = Some c -> trace !! S i = Some c' -> advances c c'.
Proof.
  intros Hrun Hc Hc'. destruct (charge_run_ok _ _ _ Hrun i c Hc) as [Hok Hq]. destruct Hrun as [_ Hstep].
  destruct (Hstep i c c' Hc Hc') as [E R physics command key aim interrupted r Hown Hs].
  by destruct (step_ok actor gen physics c command key aim interrupted c' r Hok Hq Hown Hs) as (_ & _ & ? & _).
Qed.

Lemma cooldown_falls actor gen trace i n : charge_run actor gen trace -> forall c c', trace !! i = Some c -> trace !! (i + n)%nat = Some c' ->
  ch_cooldown (cm_state c) <= ch_cooldown (cm_state c') + N.of_nat n.
Proof.
  intros Hrun. induction n as [| n IH]; intros c c' Hc Hc'.
  - rewrite Nat.add_0_r in Hc'. assert (c = c') as -> by congruence. lia.
  - rewrite Nat.add_succ_r in Hc'. destruct (trace !! (i + n)%nat) as [b |] eqn:Hb.
    + specialize (IH c b Hc eq_refl). destruct (run_advances _ _ _ _ _ _ Hrun Hb Hc') as [-> | [Hcd _]]; lia.
    + apply lookup_ge_None in Hb. apply lookup_lt_Some in Hc'. lia.
Qed.

Lemma start_cooldown actor gen trace i : charge_run actor gen trace -> starts_at trace i ->
  exists c c', trace !! i = Some c /\ trace !! S i = Some c' /\ ch_cooldown (cm_state c) = 0 /\ ch_cooldown (cm_state c') = CHARGE_COOLDOWN.
Proof.
  intros Hrun (c & c' & Hc & Hc' & Hno & Hyes). exists c, c'. split; [done |]. split; [done |].
  destruct (charge_run_ok _ _ _ Hrun i c Hc) as [_ Hq]. destruct (run_advances _ _ _ _ _ _ Hrun Hc Hc') as [-> | [_ Hph]]; [congruence |].
  destruct (ch_phase (cm_state c')) as [| | curve cursor dir distance]; try done.
  destruct Hph as [(before & Hb & _) | ([t Ht] & _ & Hcd)]; [by rewrite Hb in Hno |]. split; [by eapply Hq | done].
Qed.
End Policy.


(** ** Witness *)

(** A vector library whose normalization multiplies by the reciprocal of the length, zero where that reciprocal
    is not finite and positive. *)
Module ChargeDemo.
Definition length_squared (d : direction) : f32 := f32_add (f32_mul d.1 d.1) (f32_mul d.2 d.2).
Definition normalize_or_zero (d : direction) : direction :=
  let reciprocal := SFdiv 24 128 f32_one (SFsqrt 24 128 (length_squared d)) in
  if is_finite reciprocal && SFltb f32_zero reciprocal then (f32_mul d.1 reciprocal, f32_mul d.2 reciprocal)
  else (f32_zero, f32_zero).
Definition hypot (a b : f64) : f64 := SFsqrt 53 1024 (SFadd 53 1024 (SFmul 53 1024 a a) (SFmul 53 1024 b b)).
Definition physics (delta : option direction) : result unit unit := Ok tt.
Definition still : direction := (f32_zero, f32_zero).
(** An aim of (1/2, 1/4), and one along the first axis of about 3e-23. *)
Definition oblique : direction := (S754_finite false 8388608 (-24), S754_finite false 8388608 (-25)).
Definition tiny : direction := (S754_finite false 9507380 (-98), f32_zero).
Fixpoint states (c : ChargedMovement) (inputs : list (ChargeCommand * direction)) : list ChargedMovement :=
  c :: match inputs with
       | [] => []
       | (command, aim) :: inputs => states (charge_step normalize_or_zero physics c command None aim false).1 inputs
       end.

Lemma states_head c inputs : states c inputs !! 0%nat = Some c.
Proof. by destruct inputs. Qed.

Lemma states_move inputs : forall c i a b, states c inputs !! i = Some a -> states c inputs !! S i = Some b -> charge_move normalize_or_zero 9 1 a b.
Proof.
  induction inputs as [| [command aim] inputs IH]; intros c i a b; [by destruct i |]. cbn [states]. destruct i as [| i]; cbn [lookup list_lookup].
  - intros [= <-]. rewrite states_head. intros [= <-]. eapply (charge_moved _ _ _ _ _ physics command None aim false); [done |].
    apply surjective_pairing.
  - apply IH.
Qed.

(** A charge of eight ticks, released along the tiny aim and then along the oblique one. *)
Definition trace : list ChargedMovement :=
  states ChargedMovement_default
    ([(ChargeCommandBegin 4, still)] ++ repeat (ChargeNone, still) 8 ++ [(ChargeCommandRelease 4, tiny); (ChargeCommandRelease 4, oblique)]).
End ChargeDemo.

(** An aim of about 3e-23 is a valid input, and a step that releases a charge along it fails: its square is rounded
    to the few digits of a subnormal, so that its normalization is not of unit length. The charge is as it was. *)
Example tiny_aim_refused :
  valid_direction ChargeDemo.hypot ChargeDemo.tiny = true
  /\ match ChargeDemo.trace !! 9%nat with
     | Some c => charge_step ChargeDemo.normalize_or_zero ChargeDemo.physics c (ChargeCommandRelease 4) None ChargeDemo.tiny false
                 = (c, Err (ChargeInvalidState unit))
     | None => False
     end.
Proof. split; [vm_compute; reflexivity |]. vm_compute. reflexivity. Qed.

